(* ===== verification/_CoqProject ===== *)
-Q . S2P
Prelude.v
Merkle.v
Chainbase.v
Database.v
ResourceLimits.v
Names.v
Authority.v
AuthorityChecker.v
Authorization.v
GlobalProperties.v
BlockHeader.v
BlockHeaderState.v
ForkDatabase.v
UnappliedQueue.v
EosioContract.v
NativeState.v
NativeRam.v
Transaction.v
TransactionChecks.v
ChainConfig.v
Timer.v
TransactionContext.v
ContractTables.v
TableInvariant.v
TableOrder.v
ApplyContext.v
ExecFrames.v
ExecTraces.v
ExecParts.v
ExecLoops.v
TransactionExec.v
PushTransaction.v
PushOutcomes.v
PushSafety.v
Block.v
BlockBuilding.v
BlockApply.v
ForkSwitch.v
ForkChains.v
ForkInvariant.v
ForkLog.v
ForkSafety.v
Assets.v
Intrinsics.v
BlockLog.v
BlockLogFacts.v
BlockLogIndex.v
BlockLogRefines.v
BlockLogRepair.v
AbiSerializer.v
AbiTypes.v
AbiLimits.v
AbiRoundtrip.v
