(* ===== verification/Prelude.v ===== *)
(** * Verification of the GeneralServer chain library

    GeneralServer is a node of an EOSIO-derived blockchain.  Its own logic is
    the library [src/libraries/chain] on the object database
    [src/libraries/chainbase].  This development models the deterministic core
    of both as executable functions and proves what makes it correct.

    ** The parts of the program

    Blocks come in through [controller::push_block]: the header is checked
    against the state of the previous block ([block_header_state]), the block
    enters the tree of the reversible blocks ([fork_database]), and when it
    makes another branch the best one the node goes there, undoing and applying
    blocks.  Applying a block runs its transactions in an undo session of the
    database ([chainbase::database]).  A transaction is checked (expiration,
    reference block, duplicates, authorization by [authorization_manager] and
    [authority_checker]), billed ([transaction_context],
    [resource_limits_manager]) and its actions are executed
    ([apply_context]): native actions of the system account, and contracts,
    which read and write their tables.  A block that is irreversible moves to
    the block log.

    ** The files

    The order of [_CoqProject] is the order of use.  File names of the program
    are below [src/libraries/chain] and its [include/eosio/chain].

    Foundations:
    - [Prelude.v]: integers of machine width, the exceptions, the error type
      [res], the state-and-error monad [M] with its weakest precondition [wp]
      and the inversion tactic [minv], sequences of operations ([run_all]).
    - [Merkle.v]: [merkle.cpp], [merkle.hpp], [incremental_merkle.hpp].
    - [Chainbase.v], [Database.v]: [generic_index], [undo_state], [database],
      [abstract_index] and sessions of [chainbase.hpp], [chainbase.cpp].
    - [Names.v]: [name.hpp], [name.cpp].  [Assets.v]: [symbol.hpp],
      [asset.hpp], [asset.cpp].

    Accounts and authorization:
    - [ResourceLimits.v]: [resource_limits.cpp] and its headers.
    - [Authority.v]: [authority.hpp], [producer_schedule.hpp], [action.hpp].
      [AuthorityChecker.v]: [authority_checker.hpp], [parallel_markers.hpp].
    - [Authorization.v]: [authorization_manager.cpp], [permission_object.hpp],
      [permission_link_object.hpp], [contract_types.hpp].
    - [GlobalProperties.v]: [global_property_object.hpp] and the checks of
      proposed schedules in [wasm_interface.cpp].
    - [EosioContract.v]: [eosio_contract.cpp]; [NativeState.v] and [NativeRam.v]
      hold its invariant and its accounting of RAM.

    Headers and forks:
    - [BlockHeader.v]: [block_timestamp.hpp], [block_header.hpp] and its source.
      [BlockHeaderState.v]: [block_header_state.cpp].
    - [ForkDatabase.v]: [fork_database.cpp].
    - [UnappliedQueue.v]: [unapplied_transaction_queue.hpp].

    Transactions:
    - [Transaction.v]: [transaction.cpp], [transaction_metadata.hpp].
      [TransactionChecks.v]: the checks of [controller.cpp].
    - [ChainConfig.v]: [chain_config.cpp].  [Timer.v]: [platform_timer_posix.cpp].
      [TransactionContext.v]: [transaction_context.cpp].
    - [ContractTables.v]: [contract_table_objects.hpp] and the table operations
      of [apply_context]; [TableInvariant.v], [TableOrder.v]: their theorems.
    - [ApplyContext.v]: [apply_context.cpp] and the execution loop of
      [transaction_context.cpp].  Its theorems are in layers: what a call leaves
      alone ([ExecFrames.v]), what happens to traces ([ExecTraces.v]), the
      parts of an execution and the loops for any property that the parts keep
      ([ExecParts.v], [ExecLoops.v]), whole transactions ([TransactionExec.v]).
    - [Intrinsics.v]: [allowlisted_intrinsics.cpp], [protocol_state_object.cpp],
      [genesis_intrinsics.cpp] and the resolver of [wasm_interface.hpp].
    - [AbiSerializer.v]: [abi_serializer.cpp], [abi_serializer.hpp],
      [abi_def.hpp]; [AbiTypes.v]: what an accepted ABI guarantees;
      [AbiLimits.v]: the recursion ends; [AbiRoundtrip.v]: values are read back.

    Blocks and the controller ([controller.cpp]):
    - [PushTransaction.v], [PushOutcomes.v], [PushSafety.v]: transactions in the
      pending block.
    - [Block.v]: [block.cpp], [block_state.cpp].  [BlockBuilding.v],
      [BlockApply.v]: [start_block], [finalize_block], [apply_block],
      [commit_block], [abort_block].
    - [ForkSwitch.v]: [push_block], [maybe_switch_forks], [pop_block],
      [log_irreversible]; [ForkChains.v], [ForkInvariant.v], [ForkLog.v],
      [ForkSafety.v]: the invariant of a node that receives blocks.
    - [BlockLog.v]: [block_log.cpp], [genesis_state.hpp], the two files as
      bytes; [BlockLogFacts.v], [BlockLogIndex.v], [BlockLogRefines.v]: they
      behave as the list of blocks that [ForkSwitch.v] uses as block log;
      [BlockLogRepair.v]: repairing and trimming.

    Definitions keep the names of the code.  A class with mutable members is a
    record and its methods are functions to a result and the next record, or
    computations of [M]: when a method throws, the state is the one reached at
    the throw.  Objects that the code shares by pointer (block states) live in
    an explicit heap; a pointer to an object of the database is its id.
    Containers keyed by a unique index are finite maps, and a loop visits them
    in the order of the index where the order matters.

    ** Interfaces

    Code that is not part of the program is a class of operations, with a second
    class for the documented laws that theorems use, and an instance that
    satisfies them:
    - [crypto], [trx_codec], [block_codec], [log_codec], [unpacker],
      [contract_unpacker]: hashing, packing, compression and signature recovery
      of library fc; [fc_text]: trimming and conversion of numbers;
      [builtin_types]: packing of the built-in types of an ABI;
      [softfloat], [posix_timer]: floating-point comparison, the timer.
    - A contract is an arbitrary [program] of calls to the intrinsics.

    Between components:
    - [snapshots] (Chainbase): the specification of an index with undo sessions,
      a stack of full copies, which the delta-based states refine.  The
      controller is built on it: its database carries its sessions as copies.
    - [Resolver] (AuthorityChecker): what the checker needs of the callable that
      resolves permission levels; a well-formed database provides it.
    - [ram_ledger] (ContractTables): how table operations bill RAM; the
      transaction context implements it.  [row], [row_order], [slot_laws]: what
      the six kinds of table rows have in common.
    - [call_frame], [native_frame], [exec_part], [quiet_part]: what the loops of
      an execution need to know of its parts.
    - [switch_config], [block_config], [push_config]: what the node is
      configured with, and what its signal handlers let through ([emit]).

    ** What the theorems show

    - Undo sessions: every sequence of operations on an index behaves like the
      stack of snapshots.
    - Nodes: whatever blocks are received and however each push ends, the
      database is the outcome of applying the blocks of one branch, and a push
      that succeeds leaves the node on a best block; applying a block is atomic
      and reproduces what its producer computed; the files of the block log
      behave as a list of blocks, and a damaged log is repaired up to its last
      complete block.
    - Transactions: they leave a receipt with their effects or nothing; none is
      executed twice; execution ends, executes every action once and numbers
      the receipts consecutively; RAM grows only with authorization and as
      reported; usage stays within the limits.
    - Authorization: an accepted transaction declares only relevant
      authorizations, each granted by a finite proof from its keys, levels and
      delay; on acyclic authorities the checker is exact; permissions form a
      forest.
    - Native actions keep accounts, permissions, links and code consistent and
      bill what they store.  Tables of contracts keep their invariant, no
      operation follows a dangling pointer but one, and walks read the rows in
      order.
    - Consensus: irreversibility needs a quorum of two thirds and its variables
      are preserved; the node that produces a block and the one that receives
      it compute the same state; the block tree keeps its invariant.
    - Data: Merkle roots are the ones of the batch algorithm; packed
      transactions, assets and values of an ABI are read back as they were
      written; stored totals are sums; the allowlist of intrinsics is a set;
      under an accepted ABI no conversion meets an unknown type, and all of
      them end.

    ** Fuel

    A loop without a structural measure takes fuel, and the theorems show that
    it does not run out: walks over block ancestors take the block number plus
    one, as numbers decrease; the removal queue of the fork database the size of
    the index; the walk over permission parents the id plus one, as parents are
    older; the recursion of the authority checker the depth limit minus the
    depth; [process_account_limit_updates] the number of pending entries;
    [catch_up] the distance of the revisions; the Merkle loops the depth of the
    tree; walks through a table one more than its rows; the recursion of
    [execute_action] and its loop over notifications what is left of the limit
    on depth and recipients ([trx_exec_terminates]); names of symbols seven
    characters, decimals twenty digits; the backward scan, the repair and the
    trimming of a block log the number of its bytes; the recursion over the
    types of an ABI 32, the depth at which the yield function throws.

    ** Hypotheses of the node

    The theorems on nodes assume the laws of [crypto_laws] (the byte order of
    block numbers, packed schedules), that library fc wraps standard exceptions
    into others ([wrap_std_exception]), that handlers of signals throw
    exceptions of library fc only, and a mode other than IRREVERSIBLE;
    [replay_push_block] is defined without theorems.

    ** Not modelled

    Memory mapping, locking and the files of [chainbase] and of the fork
    database; start-up and replay ([controller_impl::init], snapshots), which
    are I/O around the parts above; the WebAssembly engines and the bindings of
    intrinsics to them ([wasm_interface.cpp] apart from its checks), third-party
    or generated code; the paths in error messages of the ABI serializer and
    its templates over the types of blocks and transactions; plugins and
    programs: networking, HTTP, wallets, databases and command lines around the library;
    library fc and boost.  Modifiers passed to [chainbase::modify] are total
    functions: a modifier that throws is modelled at its caller
    ([ResourceLimits.v]). *)

From Stdlib Require Import ZArith Lia.
From stdpp Require Export base tactics numbers list gmap sorting.
#[global] Open Scope Z_scope.

(** ** Machine integers

    An integer of the code is a [Z]; the wrap-around of an unsigned type of
    [w] bits is [uwrap w], the one of [int64_t] is [s64]. *)

Definition uwrap (w x : Z) : Z := x mod 2 ^ w.
Definition u8 (x : Z) : Z := uwrap 8 x.
Definition u16 (x : Z) : Z := uwrap 16 x.
Definition u32 (x : Z) : Z := uwrap 32 x.
Definition u64 (x : Z) : Z := uwrap 64 x.
Definition u128 (x : Z) : Z := uwrap 128 x.
Definition s32 (x : Z) : Z := (x + 2 ^ 31) mod 2 ^ 32 - 2 ^ 31.
Definition s64 (x : Z) : Z := (x + 2 ^ 63) mod 2 ^ 64 - 2 ^ 63.

Definition UINT8_MAX : Z := 2 ^ 8 - 1.
Definition UINT16_MAX : Z := 2 ^ 16 - 1.
Definition UINT32_MAX : Z := 2 ^ 32 - 1.
Definition UINT64_MAX : Z := 2 ^ 64 - 1.
Definition INT64_MAX : Z := 2 ^ 63 - 1.
Definition INT64_MIN : Z := - 2 ^ 63.

Definition is_u8 (x : Z) : Prop := 0 <= x < 2 ^ 8.
Definition is_u16 (x : Z) : Prop := 0 <= x < 2 ^ 16.
Definition is_u32 (x : Z) : Prop := 0 <= x < 2 ^ 32.
Definition is_u64 (x : Z) : Prop := 0 <= x < 2 ^ 64.
Definition is_u128 (x : Z) : Prop := 0 <= x < 2 ^ 128.
Definition is_s64 (x : Z) : Prop := - 2 ^ 63 <= x < 2 ^ 63.

Create HintDb widths.
#[export] Hint Unfold u8 u16 u32 u64 u128 uwrap is_u8 is_u16 is_u32 is_u64
  is_u128 is_s64 UINT8_MAX UINT16_MAX UINT32_MAX UINT64_MAX INT64_MAX INT64_MIN
  : widths.

(** [widths] exposes the bounds behind the width predicates; [nowrap]
    removes a wrap-around whose argument is provably in range. *)
Ltac widths := repeat autounfold with widths in *.
Ltac nowrap := widths; rewrite ?Z.mod_small by lia.

Lemma uwrap_range (w x : Z) : 0 <= w -> 0 <= uwrap w x < 2 ^ w.
Proof. intros. unfold uwrap. apply Z.mod_pos_bound. lia. Qed.

Lemma uwrap_id (w x : Z) : 0 <= x < 2 ^ w -> uwrap w x = x.
Proof. intros. unfold uwrap. by apply Z.mod_small. Qed.

Lemma u64_id (x : Z) : is_u64 x -> u64 x = x.
Proof. apply uwrap_id. Qed.
Lemma u32_id (x : Z) : is_u32 x -> u32 x = x.
Proof. apply uwrap_id. Qed.
Lemma u8_id (x : Z) : is_u8 x -> u8 x = x.
Proof. apply uwrap_id. Qed.
Lemma u128_id (x : Z) : is_u128 x -> u128 x = x.
Proof. apply uwrap_id. Qed.
Lemma u64_range (x : Z) : is_u64 (u64 x).
Proof. by apply uwrap_range. Qed.
Lemma u32_range (x : Z) : is_u32 (u32 x).
Proof. by apply uwrap_range. Qed.
Lemma u128_range (x : Z) : is_u128 (u128 x).
Proof. by apply uwrap_range. Qed.
Lemma s64_id (x : Z) : is_s64 x -> s64 x = x.
Proof. widths. intros. unfold s64. rewrite Z.mod_small; lia. Qed.

#[export] Hint Resolve u64_range u32_range u128_range : widths.

(** ** Errors

    The exceptions the modelled code throws, by the names of
    [eosio/chain/exceptions.hpp], the two [std] exceptions of chainbase,
    [aborted] for a call of [std::abort], and [undefined_behaviour] for a read
    that C++ leaves undefined (a dereference past the end of a container).
    [out_of_fuel] is not an exception of the code: it marks that the bound of a
    modelled loop was reached, and the theorems show where it never is. *)
Inductive exn : Type :=
| out_of_fuel
| name_type_exception
| overflow_exception
| resource_limit_exception
| rate_limiting_state_inconsistent
| tx_cpu_usage_exceeded
| tx_net_usage_exceeded
| block_resource_exhausted
| transaction_exception
| ram_usage_exceeded
| invalid_block_header_extension
| block_validate_exception
| unlinkable_block_exception
| producer_double_confirm
| wrong_producer
| producer_schedule_exception
| no_block_signatures
| wrong_signing_key
| permission_query_exception
| invalid_permission
| irrelevant_auth_exception
| unsatisfied_authorization
| tx_irrelevant_sig
| unlinkable_min_permission_action
| action_validate_exception
| action_type_exception
| ill_formed_deferred_transaction_generation_context
| invalid_transaction_extension
| tx_duplicate_sig
| tx_too_big
| tx_decompression_error
| unknown_transaction_compression
| tx_duplicate
| tx_no_auths
| expired_tx_exception
| tx_exp_too_far_exception
| invalid_ref_block_exception
| actor_allowlist_exception
| actor_denylist_exception
| contract_allowlist_exception
| contract_denylist_exception
| action_denylist_exception
| block_cpu_usage_exceeded
| block_net_usage_exceeded
| greylist_cpu_usage_exceeded
| greylist_net_usage_exceeded
| deadline_exception
| leeway_deadline_exception
| subjective_block_production_exception
| disallowed_transaction_extensions_bad_block_exception
| unauthorized_ram_usage_increase
| inline_action_too_big_nonprivileged
| cfa_inside_generated_tx
| deferred_tx_duplicate
| invalid_table_payer
| table_access_violation
| invalid_table_iterator
| table_operation_not_permitted
| table_not_in_cache
| unaccessible_api
| inline_action_too_big
| wasm_exception
| wasm_execution_error
| action_not_found_exception
| unknown_transaction_exception
| misc_exception
| unactivated_key_type
| tx_not_found
| missing_auth_exception
| account_name_exists_exception
| account_query_exception
| key_denylist_exception
| set_exact_code
| invalid_contract_vm_type
| invalid_contract_vm_version
| fork_database_exception
| asset_type_exception
| symbol_type_exception
| block_log_exception
| block_log_unsupported_version
| reversible_blocks_exception
| abi_exception
| invalid_type_inside_abi
| duplicate_abi_type_def_exception
| duplicate_abi_struct_def_exception
| duplicate_abi_action_def_exception
| duplicate_abi_table_def_exception
| duplicate_abi_err_msg_def_exception
| duplicate_abi_variant_def_exception
| abi_circular_def_exception
| unsupported_abi_version_exception
| unpack_exception
| pack_exception
| abi_recursion_depth_exception
| abi_serialization_deadline_exception
| fc_out_of_range_exception
| fc_bad_cast_exception
| fc_key_not_found_exception
| block_log_append_fail
| controller_emit_signal_exception
| fork_db_block_not_found
| sig_variable_size_limit_exception
| transaction_type_exception
| unsupported_feature
| eosio_assert_message_exception
| eosio_assert_code_exception
| restricted_error_code_exception
| abort_called
| fc_std_exception
| ill_formed_additional_block_signatures_extension
| invalid_block_extension
| database_exception
| undefined_behaviour
| aborted
| assert_exception
| std_out_of_range
| std_logic_error
| std_runtime_error.

#[export] Instance exn_eq_dec : EqDecision exn.
Proof. solve_decision. Defined.

(** Exceptions of the standard library; library fc wraps them. *)
Definition is_std_exception (ex : exn) : bool :=
  match ex with std_out_of_range | std_logic_error | std_runtime_error => true | _ => false end.

(** A fallible pure computation. *)
Inductive res (A : Type) : Type :=
| Ok (a : A)
| Err (e : exn).
Arguments Ok {A} a.
Arguments Err {A} e.

#[export] Instance res_ret : MRet res := fun A a => Ok a.
#[export] Instance res_bind : MBind res := fun A B f m =>
  match m with Ok a => f a | Err e => Err e end.

Definition eos_assert (b : bool) (e : exn) : res unit :=
  if b then Ok tt else Err e.

Definition is_Ok {A} (r : res A) : Prop := exists a, r = Ok a.

(** The value of a result that is known to be one. *)
Definition succeeds {A} (r : res A) : bool := match r with Ok _ => true | Err _ => false end.
Definition ok_or {A} (d : A) (r : res A) : A := match r with Ok a => a | Err _ => d end.

Lemma ok_or_eq {A} (d : A) (r : res A) : succeeds r = true -> r = Ok (ok_or d r).
Proof. by destruct r. Qed.

(** A fallible computation on a state [S]: when it throws, the state is the
    one the code had reached at the throw, which is what an enclosing undo
    session sees. *)
Definition M (S A : Type) : Type := S -> res A * S.

#[export] Instance M_ret {S} : MRet (M S) := fun A a s => (Ok a, s).
#[export] Instance M_bind {S} : MBind (M S) := fun A B f m s =>
  match m s with
  | (Ok a, s') => f a s'
  | (Err e, s') => (Err e, s')
  end.

Definition get {S} : M S S := fun s => (Ok s, s).
Definition gets {S A} (f : S -> A) : M S A := fun s => (Ok (f s), s).
Definition modify {S} (f : S -> S) : M S unit := fun s => (Ok tt, f s).
Definition throw {S A} (e : exn) : M S A := fun s => (Err e, s).
Definition massert {S} (b : bool) (e : exn) : M S unit := fun s =>
  (eos_assert b e, s).
Definition lift {S A} (r : res A) : M S A := fun s => (r, s).

(** [<$>] is a bind, and [focus] runs an operation on a part of the state. *)
#[export] Instance M_fmap {S} : FMap (M S) := fun A B f m => a ← m; mret (f a).
Definition focus {S T A} (sel : T -> S) (upd : S -> T -> T) (m : M S A) : M T A := fun d =>
  let '(r, s) := m (sel d) in (r, upd s d).

(** [FC_CAPTURE_AND_RETHROW]: library fc wraps standard exceptions. *)
Definition fc_capture_rethrow {S A} (m : M S A) : M S A := fun s =>
  match m s with
  | (Err ex, s) => (Err (if is_std_exception ex then fc_std_exception else ex), s)
  | r => r
  end.

Lemma res_bind_ok {A B} (m : res A) (f : A -> res B) b :
  m ≫= f = Ok b <-> exists a, m = Ok a /\ f a = Ok b.
Proof. destruct m; cbn; naive_solver. Qed.

Lemma eos_assert_ok b e : eos_assert b e = Ok tt <-> b = true.
Proof. destruct b; cbn; naive_solver. Qed.

Lemma eos_assert_bind_ok {A} b e (k : res A) x : (eos_assert b e;; k) = Ok x <-> b = true /\ k = Ok x.
Proof. destruct b; cbn; naive_solver. Qed.

Lemma M_bind_ok {S A B} (m : M S A) (f : A -> M S B) s b s' :
  (m ≫= f) s = (Ok b, s') <-> exists a s1, m s = (Ok a, s1) /\ f a s1 = (Ok b, s').
Proof. unfold mbind, M_bind. destruct (m s) as [[]]; naive_solver. Qed.

Lemma mret_ok {S A} (a b : A) (s s' : S) : mret (M := M S) a s = (Ok b, s') <-> b = a /\ s' = s.
Proof. unfold mret, M_ret. naive_solver. Qed.
Lemma get_ok {S} (s s' b : S) : get s = (Ok b, s') <-> b = s /\ s' = s.
Proof. unfold get. naive_solver. Qed.
Lemma gets_ok {S A} (f : S -> A) s s' b : gets f s = (Ok b, s') <-> b = f s /\ s' = s.
Proof. unfold gets. naive_solver. Qed.
Lemma modify_ok {S} (f : S -> S) s s' u : modify f s = (Ok u, s') <-> s' = f s.
Proof. unfold modify. destruct u. naive_solver. Qed.
Lemma massert_ok {S} b e (s s' : S) u : massert b e s = (Ok u, s') <-> b = true /\ s' = s.
Proof. unfold massert, eos_assert. destruct u, b; naive_solver. Qed.
Lemma lift_ok {S A} (r : res A) (s s' : S) a : lift r s = (Ok a, s') <-> r = Ok a /\ s' = s.
Proof. unfold lift. naive_solver. Qed.
Lemma fmap_ok {S A B} (f : A -> B) (m : M S A) s b s' :
  (f <$> m) s = (Ok b, s') <-> exists a, m s = (Ok a, s') /\ b = f a.
Proof. unfold fmap, M_fmap. rewrite M_bind_ok. setoid_rewrite mret_ok. naive_solver. Qed.
Lemma focus_ok {S T A} (sel : T -> S) (upd : S -> T -> T) (m : M S A) d a d' :
  focus sel upd m d = (Ok a, d') <-> exists s, m (sel d) = (Ok a, s) /\ d' = upd s d.
Proof. unfold focus. destruct (m (sel d)) as [r s]. naive_solver. Qed.
Lemma throw_ok {S A} e (s s' : S) (a : A) : throw e s = (Ok a, s') <-> False.
Proof. unfold throw. naive_solver. Qed.

(** [minv] turns a successful run of a monadic program into the successes of
    its parts. *)
Ltac minv_step :=
  match goal with
  | H : (_ ≫= _) _ = (Ok _, _) |- _ => apply M_bind_ok in H as (? & ? & ? & ?)
  | H : _ ≫= _ = Ok _ |- _ => apply res_bind_ok in H as (? & ? & ?)
  | H : mret _ _ = (Ok _, _) |- _ => apply mret_ok in H as [? ?]
  | H : get _ = (Ok _, _) |- _ => apply get_ok in H as [? ?]
  | H : gets _ _ = (Ok _, _) |- _ => apply gets_ok in H as [? ?]
  | H : modify _ _ = (Ok _, _) |- _ => apply modify_ok in H
  | H : massert _ _ _ = (Ok _, _) |- _ => apply massert_ok in H as [? ?]
  | H : (_ <$> _) _ = (Ok _, _) |- _ => apply fmap_ok in H as (? & ? & ?)
  | H : focus _ _ _ _ = (Ok _, _) |- _ => apply focus_ok in H as (? & ? & ?)
  | H : lift _ _ = (Ok _, _) |- _ => apply lift_ok in H as [? ?]
  | H : throw _ _ = (Ok _, _) |- _ => apply throw_ok in H as []
  | H : eos_assert _ _ = Ok ?u |- _ => destruct u; apply eos_assert_ok in H
  | H : Ok _ = Ok _ |- _ => injection H as H
  | H : Err _ = Ok _ |- _ => discriminate H
  | u : unit |- _ => destruct u
  end.
Ltac minv := repeat (minv_step; subst).

(** [wp m E Q s]: run from [s], [m] ends with a result and a state in [Q], or
    throws an exception in [E]. *)
Definition wp {S A} (m : M S A) (E : exn -> Prop) (Q : A -> S -> Prop) (s : S) : Prop :=
  match m s with (Ok a, s') => Q a s' | (Err e, _) => E e end.

Section Wp.
Context {S A : Type} (E : exn -> Prop).
Implicit Types (s : S) (Q : A -> S -> Prop).

Lemma wp_bind {B} (m : M S B) (f : B -> M S A) Q s :
  wp m E (fun b s' => wp (f b) E Q s') s -> wp (m ≫= f) E Q s.
Proof. unfold wp, mbind, M_bind. by destruct (m s) as [[]]. Qed.
Lemma wp_fmap {B} (m : M S B) (f : B -> A) Q s :
  wp m E (fun b s' => Q (f b) s') s -> wp (f <$> m) E Q s.
Proof. unfold wp, fmap, M_fmap, mbind, M_bind, mret, M_ret. by destruct (m s) as [[]]. Qed.
Lemma wp_ret (a : A) Q s : Q a s -> wp (mret a) E Q s.
Proof. done. Qed.
Lemma wp_lift (r : res A) Q s : (forall a, r = Ok a -> Q a s) -> (forall e, r = Err e -> E e) -> wp (lift r) E Q s.
Proof. unfold wp, lift. destruct r; auto. Qed.
Lemma wp_throw e Q s : E e -> wp (throw e) E Q s.
Proof. done. Qed.
Lemma wp_focus {T} (sel : T -> S) upd (m : M S A) (Q : A -> T -> Prop) d :
  wp m E (fun a s => Q a (upd s d)) (sel d) -> wp (focus sel upd m) E Q d.
Proof. unfold wp, focus. by destruct (m (sel d)) as [[]]. Qed.
Lemma wp_mono (m : M S A) Q Q' s : (forall a s', Q a s' -> Q' a s') -> wp m E Q s -> wp m E Q' s.
Proof. unfold wp. destruct (m s) as [[]]; auto. Qed.
Lemma wp_ok (m : M S A) Q s a s' : wp m E Q s -> m s = (Ok a, s') -> Q a s'.
Proof. unfold wp. intros Hw Hm. by rewrite Hm in Hw. Qed.
Lemma wp_err (m : M S A) Q s e s' : wp m E Q s -> m s = (Err e, s') -> E e.
Proof. unfold wp. intros Hw Hm. by rewrite Hm in Hw. Qed.
End Wp.

Lemma wp_massert {S} (E : exn -> Prop) b e (Q : unit -> S -> Prop) s :
  E e -> (b = true -> Q tt s) -> wp (massert b e) E Q s.
Proof. unfold wp, massert, eos_assert. destruct b; auto. Qed.
Lemma wp_get {S} (E : exn -> Prop) (Q : S -> S -> Prop) s : Q s s -> wp get E Q s.
Proof. done. Qed.

(** [ends m Q s]: the outcome of [m] from [s], an exception or not, and the
    state it leaves are in [Q]. *)
Definition ends {S A} (m : M S A) (Q : res A -> S -> Prop) (s : S) : Prop := Q (m s).1 (m s).2.

Section Ends.
Context {S : Type}.
Implicit Types (s : S).

Lemma ends_bind {A B} (m : M S A) (f : A -> M S B) Q s :
  ends m (fun r s' => match r with Ok a => ends (f a) Q s' | Err ex => Q (Err ex) s' end) s -> ends (m ≫= f) Q s.
Proof. unfold ends, mbind, M_bind. destruct (m s) as [[a|ex] s1]; done. Qed.
Lemma ends_mono {A} (m : M S A) (Q Q' : res A -> S -> Prop) s : (forall r s', Q r s' -> Q' r s') -> ends m Q s -> ends m Q' s.
Proof. unfold ends. auto. Qed.
Lemma ends_run {A} (m : M S A) Q s r s' : ends m Q s -> m s = (r, s') -> Q r s'.
Proof. unfold ends. intros Hm Hr. by rewrite Hr in Hm. Qed.
Lemma ends_massert b ex (Q : res unit -> S -> Prop) s : (b = true -> Q (Ok tt) s) -> (b = false -> Q (Err ex) s) -> ends (massert b ex) Q s.
Proof. unfold ends, massert, eos_assert. destruct b; auto. Qed.
Lemma ends_lift {A} (x : res A) (Q : res A -> S -> Prop) s : Q x s -> ends (lift x) Q s.
Proof. done. Qed.
End Ends.

(** A sequence of operations: their outcomes and the state at the end. *)
Fixpoint run_all {O A S} (step : O -> M S A) (ops : list O) (s : S) : list (res A) * S :=
  match ops with
  | [] => ([], s)
  | op :: ops => let '(r, s) := step op s in let '(rs, s) := run_all step ops s in (r :: rs, s)
  end.

(** Two machines related by a simulation give the same outcomes. [fits] is what
    is asked of the operations to come. *)
Lemma run_all_simulated {O A S S'} (step : O -> M S A) (step' : O -> M S' A) (R : S -> S' -> Prop) (fits : S' -> list O -> Prop) :
  (forall op ops s s', R s s' -> fits s' (op :: ops) ->
    (step op s).1 = (step' op s').1 /\ R (step op s).2 (step' op s').2 /\ fits (step' op s').2 ops) ->
  forall ops s s', R s s' -> fits s' ops ->
    (run_all step ops s).1 = (run_all step' ops s').1 /\ R (run_all step ops s).2 (run_all step' ops s').2.
Proof.
  intros Hsim ops. induction ops as [|op ops IH]; intros s s' HR Hf; cbn; [done|].
  destruct (Hsim op ops s s' HR Hf) as (H1 & H2 & H3). destruct (step op s) as [r s1], (step' op s') as [r' s1']. cbn in *.
  destruct (IH s1 s1' H2 H3) as [H4 H5]. destruct (run_all step ops s1), (run_all step' ops s1'). cbn in *. by subst.
Qed.

(** ** Frames

    [frames R m]: a run of [m] takes a state to one related by [R], which may
    depend on whether the run succeeds. *)
Class outcome {S} (R : bool -> relation S) : Prop := {
  outcome_refl b s : R b s s;
  outcome_trans b s1 s2 s3 : R true s1 s2 -> R b s2 s3 -> R b s1 s3 }.

Definition always {S} (R : relation S) : bool -> relation S := fun _ => R.
Definition on_success {S} (R : relation S) : bool -> relation S := fun b s s' => b = true -> R s s'.

#[export] Instance always_outcome {S} (R : relation S) `{!PreOrder R} : outcome (always R).
Proof. split; unfold always; [done|]. intros b s1 s2 s3 H1 H2. by trans s2. Qed.
#[export] Instance on_success_outcome {S} (R : relation S) `{!PreOrder R} : outcome (on_success R).
Proof. split; unfold on_success; [done|]. intros b s1 s2 s3 H1 H2 Hb. trans s2; auto. Qed.

Section Keeps.
Context {S : Type} {R : bool -> relation S} `{!outcome R}.

Definition frames (R : bool -> relation S) {A} (m : M S A) : Prop := forall s, R (succeeds (m s).1) s (m s).2.

Lemma frame_bind {A B} (m : M S A) (f : A -> M S B) : frames R m -> (forall a, frames R (f a)) -> frames R (m ≫= f).
Proof.
  intros Hm Hf s. specialize (Hm s). unfold mbind, M_bind. destruct (m s) as [[a|e] s1]; cbn in *; [|done].
  eapply outcome_trans; [done|]. apply Hf.
Qed.
Lemma frame_fmap {A B} (f : A -> B) (m : M S A) : frames R m -> frames R (f <$> m).
Proof. intros Hm. apply frame_bind; [done|]. intros a s. apply outcome_refl. Qed.
Lemma frame_read {A} (m : M S A) : (forall s, (m s).2 = s) -> frames R m.
Proof. intros Hm s. rewrite Hm. apply outcome_refl. Qed.
Lemma frame_ret {A} (a : A) : frames R (mret a).
Proof. by apply frame_read. Qed.
Lemma frame_lift {A} (r : res A) : frames R (lift r).
Proof. by apply frame_read. Qed.
Lemma frame_throw {A} e : frames R (throw e : M S A).
Proof. by apply frame_read. Qed.
Lemma frame_massert b e : frames R (massert b e).
Proof. by apply frame_read. Qed.
Lemma frame_get : frames R get.
Proof. by apply frame_read. Qed.
Lemma frame_gets {A} (f : S -> A) : frames R (gets f).
Proof. by apply frame_read. Qed.
Lemma frame_modify (f : S -> S) : (forall s, R true s (f s)) -> frames R (modify f).
Proof. intros Hf s. apply Hf. Qed.
End Keeps.

(** What [m] always does, it does before it ends. *)
Lemma ends_always {S A} (R : relation S) (m : M S A) (Q : res A -> S -> Prop) s :
  frames (always R) m -> (forall r s', R s s' -> Q r s') -> ends m Q s.
Proof. intros Hm HQ. apply HQ, Hm. Qed.

Lemma frame_focus {S T A} (R : bool -> relation S) (R' : bool -> relation T) (sel : T -> S) upd (m : M S A) :
  (forall b s d, R b (sel d) s -> R' b d (upd s d)) -> frames R m -> frames R' (focus sel upd m).
Proof. intros Hf Hm d. unfold focus. specialize (Hm (sel d)). destruct (m (sel d)) as [r s]. by apply Hf. Qed.

Lemma frame_ok {S A} (R : relation S) (m : M S A) s a s' : frames (on_success R) m -> m s = (Ok a, s') -> R s s'.
Proof. intros Hm Hr. specialize (Hm s). rewrite Hr in Hm. by apply Hm. Qed.

(** A relation on one part of the state. *)
Definition along {S T} (sel : T -> S) (R : bool -> relation S) : bool -> relation T := fun b d d' => R b (sel d) (sel d').

Section Along.
Context {S T : Type} (sel : T -> S) (R : bool -> relation S) `{!outcome R}.

#[export] Instance along_outcome : outcome (along sel R).
Proof. split; unfold along; [intros; apply outcome_refl|]. intros. by eapply outcome_trans. Qed.

Lemma frame_within {A} upd (m : M S A) : (forall s d, sel (upd s d) = s) -> frames R m -> frames (along sel R) (focus sel upd m).
Proof. intros Hu. apply frame_focus. unfold along. intros b s d. by rewrite Hu. Qed.
Lemma frame_apart {A} (m : M T A) : (forall d, sel (m d).2 = sel d) -> frames (along sel R) m.
Proof. intros Hm d. unfold along. rewrite Hm. apply outcome_refl. Qed.
Lemma frame_apart_focus {A U} (sel' : T -> U) upd (m : M U A) :
  (forall u d, sel (upd u d) = sel d) -> frames (along sel R) (focus sel' upd m).
Proof. intros Hu. apply frame_apart. intros d. unfold focus. destruct (m _). apply Hu. Qed.
End Along.

(** The lemmas of the database [frames], then the structural rules and the case
    analysis of the code. *)
Create HintDb frames.
Ltac frame_step :=
  first
  [ solve [auto 3 with frames typeclass_instances nocore]
  | apply frame_bind; [|intros ?]
  | apply frame_ret | apply frame_lift | apply frame_throw | apply frame_massert | apply frame_get | apply frame_gets
  | apply frame_fmap
  | match goal with |- frames _ (match ?x with _ => _ end) => destruct x end ].
Ltac frame_auto := repeat (cbv beta zeta; frame_step).

(** ** Sums over finite maps *)
Section MapSum.
Context {K : Type} `{Countable K} {A : Type}.
Implicit Types (f g : K -> A -> Z) (m : gmap K A).

Definition map_sum f m : Z := map_fold (fun k a acc => f k a + acc) 0 m.

Lemma map_sum_empty f : map_sum f ∅ = 0.
Proof. apply map_fold_empty. Qed.

Lemma map_sum_insert f m k a : m !! k = None -> map_sum f (<[k := a]> m) = f k a + map_sum f m.
Proof. intros Hk. unfold map_sum. rewrite map_fold_insert_L; [done| |done]. intros. lia. Qed.

Lemma map_sum_delete f m k a : m !! k = Some a -> map_sum f (delete k m) = map_sum f m - f k a.
Proof.
  intros Hk. rewrite <- (insert_delete_id m k a Hk) at 2.
  rewrite (map_sum_insert f (delete k m)) by apply lookup_delete_eq. lia.
Qed.

Lemma map_sum_update f m k a b : m !! k = Some a -> map_sum f (<[k := b]> m) = map_sum f m - f k a + f k b.
Proof.
  intros Hk. rewrite <- insert_delete_eq, map_sum_insert by apply lookup_delete_eq.
  rewrite (map_sum_delete f m k a Hk). lia.
Qed.

Lemma map_sum_ext f g m : (forall k a, m !! k = Some a -> f k a = g k a) -> map_sum f m = map_sum g m.
Proof.
  induction m as [|k a m Hk IH] using map_ind; [done|]. intros He.
  rewrite !map_sum_insert by done. rewrite (He k a) by apply lookup_insert_eq. f_equal.
  apply IH. intros j b Hj. apply He. rewrite lookup_insert_ne; [done|congruence].
Qed.

Lemma map_sum_nonneg f m : (forall k a, m !! k = Some a -> 0 <= f k a) -> 0 <= map_sum f m.
Proof.
  induction m as [|k a m Hk IH] using map_ind; [by rewrite map_sum_empty|]. intros Hf.
  rewrite map_sum_insert by done. enough (0 <= map_sum f m) by (pose proof (Hf k a (lookup_insert_eq _ _ _)); lia).
  apply IH. intros j b Hj. apply (Hf j). rewrite lookup_insert_ne; [done|congruence].
Qed.

Lemma map_sum_le_size f m : (forall k a, m !! k = Some a -> f k a <= 1) -> map_sum f m <= Z.of_nat (size m).
Proof.
  induction m as [|k a m Hk IH] using map_ind; [by rewrite map_sum_empty, map_size_empty|]. intros Hf.
  rewrite map_sum_insert, map_size_insert_None by done.
  enough (map_sum f m <= Z.of_nat (size m)) by (pose proof (Hf k a (lookup_insert_eq _ _ _)); lia).
  apply IH. intros j b Hj. apply (Hf j). rewrite lookup_insert_ne; [done|congruence].
Qed.
End MapSum.

(** ** The first element in an order

    [begin()] of an ordered index is the least of its elements; [before] is the
    order of the index. *)
Fixpoint least {A} (before : A -> A -> bool) (l : list A) : option A :=
  match l with
  | [] => None
  | x :: l => match least before l with None => Some x | Some y => Some (if before y x then y else x) end
  end.

(** Keys of two parts compare lexicographically. *)
Definition lex_lt (a b : Z * Z) : bool := (a.1 <? b.1) || ((a.1 =? b.1) && (a.2 <? b.2)).

Lemma lex_lt_spec a b : lex_lt a b = true <-> a.1 < b.1 \/ (a.1 = b.1 /\ a.2 < b.2).
Proof. unfold lex_lt. rewrite orb_true_iff, andb_true_iff, !Z.ltb_lt, Z.eqb_eq. tauto. Qed.

Lemma lex_lt_false a b : lex_lt a b = false <-> b.1 < a.1 \/ (a.1 = b.1 /\ b.2 <= a.2).
Proof. rewrite <- not_true_iff_false, lex_lt_spec. lia. Qed.

Section Least.
Context {A : Type} (key : A -> Z * Z).
Abbreviation before := (fun x y : A => lex_lt (key x) (key y)).

Lemma least_none (l : list A) : least before l = None <-> l = [].
Proof. destruct l as [|x l]; cbn; [done|]. by destruct (least before l). Qed.

Lemma least_spec (l : list A) x : least before l = Some x -> x ∈ l /\ forall y, y ∈ l -> lex_lt (key y) (key x) = false.
Proof.
  revert x. induction l as [|a l IH]; intros x; cbn; [done|].
  destruct (least before l) as [y|] eqn:E.
  - destruct (IH y eq_refl) as [Hy Hmin]. intros [= <-]. destruct (lex_lt (key y) (key a)) eqn:Ea.
    + split; [by right|]. intros z [->|Hz]%elem_of_cons; [|by apply Hmin].
      apply lex_lt_spec in Ea. apply lex_lt_false. lia.
    + split; [by left|]. intros z [->|Hz]%elem_of_cons; [apply lex_lt_false; lia|].
      apply Hmin in Hz. apply lex_lt_false in Ea, Hz. apply lex_lt_false. lia.
  - apply least_none in E. subst l. intros [= <-]. split; [by left|]. intros z ->%list_elem_of_singleton. apply lex_lt_false. lia.
Qed.
End Least.

(** Strict weak orders, on the elements that satisfy [P]. *)
Class strict_weak {A} (P : A -> Prop) (lt : A -> A -> bool) : Prop := {
  sw_asym x y : P x -> P y -> lt x y = true -> lt y x = false;
  sw_split x y z : P x -> P y -> P z -> lt x z = true -> lt x y = true \/ lt y z = true }.

Section StrictWeak.
Context {A : Type} {P : A -> Prop} {lt : A -> A -> bool} `{!strict_weak P lt}.

Lemma sw_irrefl x : P x -> lt x x = false.
Proof. intros Hx. destruct (lt x x) eqn:E; [|done]. pose proof (sw_asym x x Hx Hx E). congruence. Qed.

Lemma sw_trans x y z : P x -> P y -> P z -> lt x y = true -> lt y z = true -> lt x z = true.
Proof.
  intros Hx Hy Hz Hxy Hyz. destruct (sw_split x z y Hx Hz Hy Hxy) as [|Hzy]; [done|].
  pose proof (sw_asym y z Hy Hz Hyz). congruence.
Qed.

(** Not smaller and not smaller is not smaller. *)
Lemma sw_le_trans x y z : P x -> P y -> P z -> lt y x = false -> lt z y = false -> lt z x = false.
Proof.
  intros Hx Hy Hz Hyx Hzy. destruct (lt z x) eqn:E; [|done]. destruct (sw_split z y x Hz Hy Hx E); congruence.
Qed.

#[export] Instance strict_weak_flip : strict_weak P (fun x y => lt y x).
Proof. split; [intros x y Hx Hy; by apply sw_asym|]. intros x y z Hx Hy Hz Hl. destruct (sw_split z y x Hz Hy Hx Hl); auto. Qed.

Lemma least_minimal (l : list A) x : (forall y, y ∈ l -> P y) -> least lt l = Some x ->
  x ∈ l /\ forall y, y ∈ l -> lt y x = false.
Proof.
  revert x. induction l as [|a l IH]; intros x HP; cbn; [done|]. assert (HPa : P a) by (apply HP; left).
  destruct (least lt l) as [y|] eqn:E.
  - destruct (IH y (fun z Hz => HP z (list_elem_of_further _ _ _ Hz)) eq_refl) as [Hy Hmin].
    assert (HPy : P y) by (apply HP; by right). intros [= <-]. destruct (lt y a) eqn:Ea.
    + split; [by right|]. intros z [->|Hz]%elem_of_cons; [by apply sw_asym|by apply Hmin].
    + split; [by left|]. intros z [->|Hz]%elem_of_cons; [by apply sw_irrefl|].
      assert (P z) by (apply HP; by right). apply (sw_le_trans a y z); auto.
  - intros [= <-]. split; [by left|]. assert (l = []) as ->.
    { destruct l as [|b l]; [done|]. cbn in E. by destruct (least lt l). }
    intros z ->%list_elem_of_singleton. by apply sw_irrefl.
Qed.

Lemma least_is_some (l : list A) x : x ∈ l -> is_Some (least lt l).
Proof. destruct l as [|y l]; [by intros ?%elem_of_nil|]. intros _. cbn. destruct (least lt l); eauto. Qed.
End StrictWeak.

Lemma ltb_strict_weak P : strict_weak P Z.ltb.
Proof. split; intros *; rewrite ?Z.ltb_lt, ?Z.ltb_ge; lia. Qed.

(** Boolean tests of the code as propositions. *)
Ltac btests :=
  repeat match goal with
  | H : (_ && _) = true |- _ => apply andb_true_iff in H as [? ?]
  | H : (_ || _) = true |- _ => apply orb_true_iff in H
  | H : (_ || _) = false |- _ => apply orb_false_iff in H as [? ?]
  | H : negb _ = true |- _ => apply negb_true_iff in H
  | H : negb _ = false |- _ => apply negb_false_iff in H
  | H : (_ =? _) = true |- _ => apply Z.eqb_eq in H
  | H : (_ =? _) = false |- _ => apply Z.eqb_neq in H
  | H : (_ <=? _) = true |- _ => apply Z.leb_le in H
  | H : (_ <=? _) = false |- _ => apply Z.leb_gt in H
  | H : (_ <? _) = true |- _ => apply Z.ltb_lt in H
  | H : (_ <? _) = false |- _ => apply Z.ltb_ge in H
  | H : (_ >? _) = true |- _ => rewrite Z.gtb_ltb in H; apply Z.ltb_lt in H
  | H : (_ >? _) = false |- _ => rewrite Z.gtb_ltb in H; apply Z.ltb_ge in H
  | H : (_ >=? _) = true |- _ => rewrite Z.geb_leb in H; apply Z.leb_le in H
  | H : (_ >=? _) = false |- _ => rewrite Z.geb_leb in H; apply Z.leb_gt in H
  end.

(** [mrun] unfolds the monad so that a run can be computed step by step. *)
Ltac mrun := unfold mbind, M_bind, res_bind, gets, get, lift, modify, massert, throw, mret, M_ret, res_ret, eos_assert in *; cbn in *.
