(* ===== verification/Merkle.v ===== *)
(** * Merkle trees

    Models [libraries/chain/merkle.cpp] and
    [libraries/chain/include/eosio/chain/incremental_merkle.hpp]: the batch
    algorithm [merkle], which pairs digests level by level inside one vector,
    and the incremental tree [incremental_merkle_impl], which keeps only the
    roots of the completed subtrees.  The main result is that both compute the
    same root for the same sequence of digests. *)

From S2P Require Import Prelude.

(** ** Digests ([fc::sha256]: four 64-bit words) *)
Record digest_type : Type := mk_digest {
  _hash0 : Z; _hash1 : Z; _hash2 : Z; _hash3 : Z }.

#[export] Instance digest_eq_dec : EqDecision digest_type.
Proof. solve_decision. Defined.

Definition make_canonical_left (val : digest_type) : digest_type :=
  mk_digest (Z.land (_hash0 val) 0xFFFFFFFFFFFFFF7F) (_hash1 val) (_hash2 val) (_hash3 val).

Definition make_canonical_right (val : digest_type) : digest_type :=
  mk_digest (Z.lor (_hash0 val) 0x80) (_hash1 val) (_hash2 val) (_hash3 val).

Definition is_canonical_left (val : digest_type) : bool :=
  Z.land (_hash0 val) 0x80 =? 0.

Definition is_canonical_right (val : digest_type) : bool :=
  negb (Z.land (_hash0 val) 0x80 =? 0).

Definition make_canonical_pair (l r : digest_type) : digest_type * digest_type :=
  (make_canonical_left l, make_canonical_right r).

(** ** The bit tricks of [namespace detail] *)
Definition next_power_of_2 (value : Z) : Z :=
  let value := u64 (value - 1) in
  let value := Z.lor value (Z.shiftr value 1) in
  let value := Z.lor value (Z.shiftr value 2) in
  let value := Z.lor value (Z.shiftr value 4) in
  let value := Z.lor value (Z.shiftr value 8) in
  let value := Z.lor value (Z.shiftr value 16) in
  let value := Z.lor value (Z.shiftr value 32) in
  u64 (value + 1).

Definition nonzero (x : Z) : bool := negb (x =? 0).

Definition clz_power_2 (value : Z) : Z :=
  let lz := 64 in
  let lz := if nonzero value then lz - 1 else lz in
  let lz := if nonzero (Z.land value 0x00000000FFFFFFFF) then lz - 32 else lz in
  let lz := if nonzero (Z.land value 0x0000FFFF0000FFFF) then lz - 16 else lz in
  let lz := if nonzero (Z.land value 0x00FF00FF00FF00FF) then lz - 8 else lz in
  let lz := if nonzero (Z.land value 0x0F0F0F0F0F0F0F0F) then lz - 4 else lz in
  let lz := if nonzero (Z.land value 0x3333333333333333) then lz - 2 else lz in
  let lz := if nonzero (Z.land value 0x5555555555555555) then lz - 1 else lz in
  lz.

Definition calcluate_max_depth (node_count : Z) : Z :=
  if node_count =? 0 then 0
  else let implied_count := next_power_of_2 node_count in
       clz_power_2 implied_count + 1.

(** ** The depth computation *)

(** [smears n x y]: bit [i] of [y] tells whether [x] has a bit in the window
    of [n] bits that starts at [i]. *)
Definition smears (n x y : Z) : Prop :=
  forall i, 0 <= i -> Z.testbit y i = true <-> exists j, 0 <= j < n /\ Z.testbit x (i + j) = true.

Lemma smears_refl x : smears 1 x x.
Proof.
  intros i Hi. split; [exists 0; rewrite Z.add_0_r; auto with lia|].
  intros (j & Hj & Hb). by replace (i + j) with i in Hb by lia.
Qed.

Lemma smears_double n m x y :
  0 < n -> m = 2 * n -> smears n x y -> smears m x (Z.lor y (Z.shiftr y n)).
Proof.
  intros Hn -> Hs i Hi. rewrite Z.lor_spec, Z.shiftr_spec, orb_true_iff by done.
  rewrite (Hs i Hi), (Hs (i + n)) by lia. split.
  - intros [(j & Hj & Hb)|(j & Hj & Hb)]; [exists j; auto with lia|].
    exists (n + j). rewrite Z.add_assoc. auto with lia.
  - intros (j & Hj & Hb). destruct (decide (j < n)); [left; exists j; auto with lia|].
    right. exists (j - n). replace (i + n + (j - n)) with (i + j) by lia. auto with lia.
Qed.

(** A window of 64 bits sees every bit of a 64-bit number. *)
Lemma smears_all x y : 0 < x < 2 ^ 64 -> 0 <= y -> smears 64 x y -> y = 2 ^ (Z.log2 x + 1) - 1.
Proof.
  intros Hx Hy Hs. pose proof (Z.log2_nonneg x).
  assert (Z.log2 x < 64) by (apply Z.log2_lt_pow2; lia).
  replace (2 ^ (Z.log2 x + 1) - 1) with (Z.ones (Z.log2 x + 1))
    by (rewrite Z.ones_equiv; lia).
  apply Z.bits_inj'. intros i Hi. rewrite Z.testbit_ones_nonneg by lia.
  apply eq_bool_prop_intro. rewrite !Is_true_true. rewrite (Hs i Hi), Z.ltb_lt. split.
  - intros (j & Hj & Hb). destruct (decide (i + j <= Z.log2 x)); [lia|].
    rewrite Z.bits_above_log2 in Hb by lia. done.
  - intros Hlt. exists (Z.log2 x - i). replace (i + (Z.log2 x - i)) with (Z.log2 x) by lia.
    split; [lia|]. apply Z.bit_log2. lia.
Qed.

Lemma next_power_of_2_spec v : 1 <= v <= 2 ^ 63 -> next_power_of_2 v = 2 ^ Z.log2_up v.
Proof.
  intros Hv. destruct (decide (v = 1)) as [->|]; [done|].
  unfold next_power_of_2. rewrite (u64_id (v - 1)) by (widths; lia).
  pose proof (smears_refl (v - 1)) as Hs.
  apply (smears_double 1 2) in Hs; [|lia..]. apply (smears_double 2 4) in Hs; [|lia..].
  apply (smears_double 4 8) in Hs; [|lia..]. apply (smears_double 8 16) in Hs; [|lia..].
  apply (smears_double 16 32) in Hs; [|lia..]. apply (smears_double 32 64) in Hs; [|lia..].
  apply smears_all in Hs; [|lia|repeat (rewrite Z.lor_nonneg || rewrite Z.shiftr_nonneg || split); lia].
  rewrite Hs. rewrite Z.log2_up_eqn by lia. unfold Z.succ.
  replace (Z.pred v) with (v - 1) by lia. rewrite Z.sub_add.
  apply u64_id. assert (Z.log2 (v - 1) < 63) by (apply Z.log2_lt_pow2; lia).
  pose proof (Z.log2_nonneg (v - 1)). split; [lia|]. apply Z.pow_lt_mono_r; lia.
Qed.

Lemma clz_power_2_spec k : 0 <= k < 64 -> clz_power_2 (2 ^ k) = k.
Proof.
  intros Hk.
  assert (forallb (fun i => clz_power_2 (2 ^ Z.of_nat i) =? Z.of_nat i) (seq 0 64) = true)
    as Hall by by vm_compute.
  rewrite forallb_forall in Hall. specialize (Hall (Z.to_nat k)).
  rewrite Z2Nat.id, Z.eqb_eq in Hall by lia. apply Hall, in_seq. lia.
Qed.

Lemma calcluate_max_depth_spec n :
  1 <= n <= 2 ^ 63 -> calcluate_max_depth n = Z.log2_up n + 1.
Proof.
  intros Hn. unfold calcluate_max_depth. destruct (Z.eqb_spec n 0); [lia|].
  rewrite next_power_of_2_spec, clz_power_2_spec; [done| |done].
  pose proof (Z.log2_up_nonneg n). split; [done|].
  apply (Z.le_lt_trans _ 63); [|lia]. rewrite <- (Z.log2_up_pow2 63) by lia.
  apply Z.log2_up_le_mono. lia.
Qed.

(** The number of levels [append] climbs is the bit length of the index of
    the new node. *)
Lemma depth_bounds (n : nat) :
  Z.of_nat n < 2 ^ 63 ->
  let d := Z.to_nat (calcluate_max_depth (u64 (Z.of_nat n + 1)) - 1) in
  (d <= 63 /\ n < 2 ^ d /\ (d = 0 \/ 2 ^ d <= 2 * n))%nat.
Proof.
  intros Hn d. subst d. rewrite u64_id by (widths; lia).
  rewrite calcluate_max_depth_spec, Z.add_simpl_r by lia.
  pose proof (Z.log2_up_nonneg (Z.of_nat n + 1)) as Hd.
  destruct (decide (n = 0%nat)) as [->|Hn0].
  { change (Z.to_nat (Z.log2_up (Z.of_nat 0 + 1))) with 0%nat. cbn. lia. }
  pose proof (Z.log2_up_spec (Z.of_nat n + 1) ltac:(lia)) as [Hlo Hhi].
  assert (Z.log2_up (Z.of_nat n + 1) <= 63) as H63.
  { rewrite <- (Z.log2_up_pow2 63) by lia. apply Z.log2_up_le_mono. lia. }
  assert (0 < Z.log2_up (Z.of_nat n + 1)) as Hpos by (apply Z.log2_up_pos; lia).
  set (d := Z.log2_up (Z.of_nat n + 1)) in *.
  assert (Z.of_nat (2 ^ Z.to_nat d) = 2 ^ d) as Hpow.
  { rewrite Nat2Z.inj_pow, Z2Nat.id by done. done. }
  replace d with (Z.succ (Z.pred d)) in Hpow at 2 by lia.
  replace d with (Z.succ (Z.pred d)) in Hhi by lia.
  rewrite Z.pow_succ_r in Hpow, Hhi by lia. lia.
Qed.

Section Tree.
(** [digest_type::hash] on a pair and the default digest [digest_type()] are
    library code ([fc]): any functions. *)
Context (hash : digest_type * digest_type -> digest_type).
Context (digest_default : digest_type).

(** ** The batch algorithm *)

(** The inner [for] loop: [k] iterations from index [i], in place. *)
Fixpoint pair_loop (k i : nat) (ids : list digest_type) : res (list digest_type) :=
  match k with
  | O => Ok ids
  | S k =>
      match ids !! (2 * i)%nat, ids !! (2 * i + 1)%nat with
      | Some l, Some r => pair_loop k (S i) (<[i := hash (make_canonical_pair l r)]> ids)
      | _, _ => Err undefined_behaviour
      end
  end.

(** One iteration of the [while] loop. *)
Definition merkle_round (ids : list digest_type) : res (list digest_type) :=
  let ids := if Nat.odd (length ids)
             then ids ++ match last ids with Some x => [x] | None => [] end
             else ids in
  ids' ← pair_loop (Nat.div2 (length ids)) 0 ids;
  Ok (take (Nat.div2 (length ids')) ids').

Fixpoint merkle_while (fuel : nat) (ids : list digest_type) : res (list digest_type) :=
  if (1 <? length ids)%nat then
    match fuel with
    | O => Err out_of_fuel
    | S fuel => ids' ← merkle_round ids; merkle_while fuel ids'
    end
  else Ok ids.

Definition merkle (ids : list digest_type) : res digest_type :=
  match ids with
  | [] => Ok digest_default
  | _ => ids' ← merkle_while (length ids) ids;
         match ids' with x :: _ => Ok x | [] => Err undefined_behaviour end
  end.

(** ** The incremental tree *)
Record incremental_merkle : Type := mk_incremental {
  _node_count : Z;
  _active_nodes : list digest_type }.

Definition incremental_merkle_empty : incremental_merkle := mk_incremental 0 [].

(** The [while (current_depth > 0)] loop of [append]; [active_iter] is the
    rest of the old active nodes, reading past its end is undefined. *)
Fixpoint append_loop (current_depth : nat) (index : Z) (top : digest_type) (partial : bool)
    (active_iter updated_active_nodes : list digest_type) : res (digest_type * list digest_type) :=
  match current_depth with
  | O => Ok (top, updated_active_nodes)
  | S current_depth =>
      if Z.land index 1 =? 0 then
        let updated_active_nodes :=
          if negb partial then updated_active_nodes ++ [top] else updated_active_nodes in
        append_loop current_depth (Z.shiftr index 1) (hash (make_canonical_pair top top)) true
          active_iter updated_active_nodes
      else
        match active_iter with
        | [] => Err undefined_behaviour
        | left_value :: active_iter =>
            let updated_active_nodes :=
              if partial then updated_active_nodes ++ [left_value] else updated_active_nodes in
            append_loop current_depth (Z.shiftr index 1) (hash (make_canonical_pair left_value top))
              partial active_iter updated_active_nodes
        end
  end.

Definition append (m : incremental_merkle) (digest : digest_type)
    : res (digest_type * incremental_merkle) :=
  let max_depth := calcluate_max_depth (u64 (_node_count m + 1)) in
  let current_depth := max_depth - 1 in
  '(top, updated_active_nodes) ←
     append_loop (Z.to_nat current_depth) (_node_count m) digest false (_active_nodes m) [];
  let updated_active_nodes := updated_active_nodes ++ [top] in
  Ok (top, mk_incremental (u64 (_node_count m + 1)) updated_active_nodes).

Definition get_root (m : incremental_merkle) : res digest_type :=
  if _node_count m >? 0 then
    match last (_active_nodes m) with Some d => Ok d | None => Err undefined_behaviour end
  else Ok digest_default.

(** Appending a sequence of digests, in order. *)
Fixpoint append_all (m : incremental_merkle) (ds : list digest_type) : res incremental_merkle :=
  match ds with
  | [] => Ok m
  | d :: ds => '(_, m) ← append m d; append_all m ds
  end.

(** ** Reference definitions

    [parent] is the parent of two nodes, [pairup] one level of a tree in
    which a lone last node is paired with itself, [pairs] the parents of the
    complete pairs only; [root_of ids r] says that collapsing [ids] level by
    level ends in [r]. *)
Definition parent (l r : digest_type) : digest_type := hash (make_canonical_pair l r).

Fixpoint pairup (ids : list digest_type) : list digest_type :=
  match ids with
  | [] => []
  | [a] => [parent a a]
  | a :: b :: ids => parent a b :: pairup ids
  end.

Fixpoint pairs (ids : list digest_type) : list digest_type :=
  match ids with
  | a :: b :: ids => parent a b :: pairs ids
  | _ => []
  end.

Inductive root_of : list digest_type -> digest_type -> Prop :=
| root_one x : root_of [x] x
| root_step ids r : (1 < length ids)%nat -> root_of (pairup ids) r -> root_of ids r.

(** The roots of the maximal complete subtrees, smallest first: one for each
    set bit of the number of leaves. *)
Fixpoint frontier (fuel : nat) (ids : list digest_type) : list digest_type :=
  match fuel with
  | O => []
  | S fuel =>
      (if Nat.odd (length ids) then match last ids with Some x => [x] | None => [] end else [])
      ++ frontier fuel (pairs ids)
  end.

Definition represents (m : incremental_merkle) (ids : list digest_type) : Prop :=
  _node_count m = Z.of_nat (length ids) /\
  (exists tail, _active_nodes m = frontier 64 ids ++ tail) /\
  (ids <> [] -> exists r, last (_active_nodes m) = Some r /\ root_of ids r).

(** ** Levels *)

Lemma even_length_ind (P : list digest_type -> Prop) :
  P [] -> (forall a b ids, Nat.even (length ids) = true -> P ids -> P (a :: b :: ids)) ->
  forall ids, Nat.even (length ids) = true -> P ids.
Proof.
  intros Hnil Hcons ids. remember (length ids) as n eqn:Hn. revert ids Hn.
  induction n as [n IH] using lt_wf_ind. intros [|a [|b ids]] -> He; [done|done|].
  apply Hcons; [done|]. apply (IH (length ids)); [cbn; lia|done|done].
Qed.

Lemma pairup_app l1 l2 :
  Nat.even (length l1) = true -> pairup (l1 ++ l2) = pairs l1 ++ pairup l2.
Proof. revert l1. apply even_length_ind; [done|]. intros a b l _ IH. cbn. by rewrite IH. Qed.

Lemma pairs_app l1 l2 :
  Nat.even (length l1) = true -> pairs (l1 ++ l2) = pairs l1 ++ pairs l2.
Proof. revert l1. apply even_length_ind; [done|]. intros a b l _ IH. cbn. by rewrite IH. Qed.

Lemma length_pairs ids : length (pairs ids) = Nat.div2 (length ids).
Proof.
  remember (length ids) as n eqn:Hn. revert ids Hn.
  induction n as [n IH] using lt_wf_ind. intros [|a [|b ids]] ->; [done|done|].
  cbn. f_equal. by apply (IH (length ids)); [cbn; lia|].
Qed.

(** A list of odd length is an even prefix and its last element. *)
Lemma odd_length_snoc (ids : list digest_type) :
  Nat.odd (length ids) = true ->
  exists ini x, ids = ini ++ [x] /\ Nat.even (length ini) = true.
Proof.
  destruct ids as [|x ini _] using rev_ind; [done|]. intros Ho. exists ini, x. split; [done|].
  rewrite length_app in Ho. cbn in Ho. rewrite Nat.add_1_r, Nat.odd_succ in Ho. done.
Qed.

(** A lone last node is its own sibling: completing the level does not
    change the pairs. *)
Lemma pairup_odd ini x :
  Nat.even (length ini) = true -> pairup (ini ++ [x]) = pairs (ini ++ [x; x]).
Proof. intros He. rewrite pairup_app, pairs_app; done. Qed.

Lemma pairup_even ids : Nat.even (length ids) = true -> pairup ids = pairs ids.
Proof. intros He. rewrite <- (app_nil_r ids) at 1. rewrite pairup_app by done. apply app_nil_r. Qed.

Lemma length_pairup_lt ids : (1 < length ids)%nat -> (length (pairup ids) < length ids)%nat.
Proof.
  intros Hl. destruct (Nat.even (length ids)) eqn:He.
  - rewrite pairup_even, length_pairs by done. apply Nat.lt_div2. lia.
  - destruct (odd_length_snoc ids) as (ini & x & -> & Hini); [by rewrite <- Nat.negb_even, He|].
    rewrite pairup_app, length_app, length_pairs, length_app in * by done. cbn in *.
    pose proof (Nat.lt_div2 (length ini)). lia.
Qed.

Lemma length_pairup_pos ids : ids <> [] -> pairup ids <> [].
Proof. destruct ids as [|a [|b ids]]; done. Qed.

Lemma root_of_exists ids : ids <> [] -> exists r, root_of ids r.
Proof.
  remember (length ids) as n eqn:Hn. revert ids Hn.
  induction n as [n IH] using lt_wf_ind. intros ids -> Hne.
  destruct (decide (1 < length ids)%nat) as [Hl|Hl].
  - destruct (IH (length (pairup ids)) (length_pairup_lt _ Hl) (pairup ids) eq_refl) as [r Hr];
      [by apply length_pairup_pos|]. exists r. by constructor.
  - destruct ids as [|x [|y ids]]; [done|eexists; constructor|cbn in Hl; lia].
Qed.

Lemma root_of_det ids r1 r2 : root_of ids r1 -> root_of ids r2 -> r1 = r2.
Proof.
  intros H1. revert r2. induction H1 as [x|ids r1 Hl _ IH]; intros r2 H2;
    inversion H2; subst; cbn in *; try lia; auto.
Qed.

(** ** The batch algorithm computes [root_of] *)

(** After [i] iterations the first [i] cells hold parents, the next [i] are
    stale, and [rest] is still to be read. *)
Lemma pair_loop_spec rest :
  Nat.even (length rest) = true -> forall pre mid, length mid = length pre ->
  exists junk, pair_loop (Nat.div2 (length rest)) (length pre) (pre ++ mid ++ rest)
               = Ok (pre ++ pairs rest ++ junk)
               /\ length (pairs rest ++ junk) = length (mid ++ rest).
Proof.
  revert rest. refine (even_length_ind _ _ _).
  - intros pre mid _. exists mid. by rewrite !app_nil_r.
  - intros a b rest _ IH pre mid Hlen. cbn [length Nat.div2 pair_loop].
    rewrite !lookup_app_r by lia.
    replace (2 * length pre - length pre - length mid)%nat with 0%nat by lia.
    replace (2 * length pre + 1 - length pre - length mid)%nat with 1%nat by lia. cbn.
    rewrite insert_app_r_alt, Nat.sub_diag by lia.
    destruct mid as [|m mid]; cbn.
    + destruct (IH (pre ++ [parent a b]) [b]) as (junk & Hrun & Hl).
      { destruct pre; [done|discriminate]. }
      rewrite length_app, Nat.add_1_r, <- app_assoc in Hrun. cbn in Hrun.
      unfold parent in Hrun. rewrite Hrun, <- app_assoc. exists junk. split; [done|].
      cbn in *. lia.
    + destruct (IH (pre ++ [parent a b]) (mid ++ [a; b])) as (junk & Hrun & Hl).
      { rewrite !length_app. cbn in *. lia. }
      rewrite length_app, Nat.add_1_r, <- !app_assoc in Hrun. cbn in Hrun.
      unfold parent in Hrun. rewrite Hrun. exists junk. split; [done|].
      rewrite !length_app in *. cbn in *. lia.
Qed.

Lemma merkle_round_spec ids : merkle_round ids = Ok (pairup ids).
Proof.
  unfold merkle_round.
  assert (exists l, (if Nat.odd (length ids)
             then ids ++ match last ids with Some x => [x] | None => [] end
             else ids) = l /\ Nat.even (length l) = true /\ pairup ids = pairs l)
    as (l & -> & He & ->).
  { eexists; split; [done|]. destruct (Nat.odd (length ids)) eqn:Ho.
    - destruct (odd_length_snoc ids Ho) as (ini & x & -> & Hini).
      rewrite last_snoc, <- app_assoc. cbn. rewrite pairup_odd by done. split; [|done].
      rewrite length_app. cbn. rewrite Nat.add_comm. done.
    - rewrite <- Nat.negb_even, negb_false_iff in Ho. split; [done|by apply pairup_even]. }
  destruct (pair_loop_spec l He [] []) as (junk & Hrun & Hl); [done|].
  cbn in Hrun, Hl. rewrite Hrun. cbn. rewrite Hl.
  rewrite take_app_le, take_ge by (rewrite length_pairs; lia). done.
Qed.

Lemma merkle_while_spec ids r :
  root_of ids r -> forall fuel, (length ids <= S fuel)%nat -> merkle_while fuel ids = Ok [r].
Proof.
  induction 1 as [x|ids r Hl _ IH]; intros fuel Hfuel.
  - destruct fuel; done.
  - destruct fuel as [|fuel]; [lia|]. cbn [merkle_while].
    destruct (Nat.ltb_spec 1 (length ids)); [|lia].
    rewrite merkle_round_spec. cbn. apply IH. pose proof (length_pairup_lt ids Hl). lia.
Qed.

Lemma merkle_spec ids r : root_of ids r -> merkle ids = Ok r.
Proof.
  intros Hr. destruct ids as [|x ids]; [by inversion Hr; subst; cbn in *; lia|].
  unfold merkle. rewrite (merkle_while_spec _ _ Hr) by lia. done.
Qed.

(** ** The incremental tree computes [root_of] *)

Lemma frontier_nil fuel : frontier fuel [] = [].
Proof. induction fuel; done. Qed.

Lemma frontier_even fuel ids :
  Nat.even (length ids) = true -> frontier (S fuel) ids = frontier fuel (pairs ids).
Proof. intros He. cbn [frontier]. rewrite <- Nat.negb_even, He. done. Qed.

Lemma frontier_odd fuel ini x :
  Nat.even (length ini) = true ->
  frontier (S fuel) (ini ++ [x]) = x :: frontier fuel (pairs ini).
Proof.
  intros He. cbn [frontier]. rewrite last_snoc, pairs_app, app_nil_r by done.
  rewrite length_app, Nat.add_1_r, Nat.odd_succ, He. done.
Qed.

Lemma index_parity n : (Z.land (Z.of_nat n) 1 =? 0) = Nat.even n.
Proof.
  change 1 with (Z.ones 1). rewrite Z.land_ones by lia. change (2 ^ 1) with 2.
  destruct (Nat.even n) eqn:He.
  - apply Nat.even_spec in He as [k ->]. rewrite Nat2Z.inj_mul, Z.mul_comm, Z.mod_mul; done.
  - apply (f_equal negb) in He. rewrite Nat.negb_even in He. apply Nat.odd_spec in He as [k ->].
    apply Z.eqb_neq. rewrite Nat2Z.inj_add, Nat2Z.inj_mul, Z.add_comm, Z.mul_comm, Z.mod_add; done.
Qed.

Lemma index_half n : Z.shiftr (Z.of_nat n) 1 = Z.of_nat (Nat.div2 n).
Proof. rewrite Z.shiftr_div_pow2, Nat.div2_div, Nat2Z.inj_div by lia. done. Qed.

(** The loop invariant of [append]: [ids] are the complete nodes of the
    current level to the left of [top].  While [top] is itself complete the
    new active nodes are the frontier of the extended level; once it is
    partial they are the frontier of [ids], copied. *)
Lemma append_loop_spec d : forall fuel ids top partial rest updated,
  (d < fuel)%nat -> (length ids < 2 ^ d)%nat -> (d = 0 \/ 2 ^ d <= 2 * length ids)%nat ->
  exists root new,
    append_loop d (Z.of_nat (length ids)) top partial (frontier fuel ids ++ rest) updated
      = Ok (root, updated ++ new)
    /\ root_of (ids ++ [top]) root
    /\ (if partial then new = frontier fuel ids
        else exists tail, new ++ [root] = frontier fuel (ids ++ [top]) ++ tail).
Proof.
  induction d as [|d IH]; intros fuel ids top partial rest updated Hfuel Hlt Hge.
  { destruct ids; [|cbn in Hlt; lia]. exists top, []. rewrite app_nil_r.
    split; [done|]. split; [constructor|]. destruct partial; [by rewrite frontier_nil|].
    exists []. destruct fuel; [lia|]. cbn. by rewrite frontier_nil. }
  destruct fuel as [|fuel]; [lia|]. cbn [append_loop]. rewrite index_parity, index_half.
  assert (length (pairs ids) < 2 ^ d /\ (d = 0 \/ 2 ^ d <= 2 * length (pairs ids)))%nat as [Hlt' Hge'].
  { rewrite length_pairs. pose proof (Nat.div2_odd (length ids)) as Ho.
    rewrite Nat.pow_succ_r' in *. pose proof (Nat.b2n_le_1 (Nat.odd (length ids))).
    destruct d as [|d]; [cbn in *; lia|]. rewrite Nat.pow_succ_r' in *. lia. }
  destruct (Nat.even (length ids)) eqn:He.
  - destruct (IH fuel (pairs ids) (parent top top) true rest
      (updated ++ if partial then [] else [top])) as (root & new & Hrun & Hroot & ->); [lia|done|done|].
    exists root, ((if partial then [] else [top]) ++ frontier fuel (pairs ids)).
    rewrite frontier_even by done. rewrite length_pairs in Hrun. split; [|split].
    + rewrite app_assoc, <- Hrun. destruct partial; cbn; [by rewrite app_nil_r|done].
    + constructor; [rewrite length_app; cbn in *; lia|]. by rewrite pairup_app.
    + destruct partial; [done|]. exists [root]. by rewrite frontier_odd.
  - destruct (odd_length_snoc ids) as (ini & x & -> & Hini); [by rewrite <- Nat.negb_even, He|].
    rewrite frontier_odd by done. rewrite pairs_app, app_nil_r in Hlt', Hge' by done. cbn [app].
    destruct (IH fuel (pairs ini) (parent x top) partial rest
      (updated ++ if partial then [x] else [])) as (root & new & Hrun & Hroot & Hnew); [lia|done|done|].
    assert (Nat.div2 (length (ini ++ [x])) = length (pairs ini)) as ->.
    { rewrite length_pairs, length_app, Nat.add_1_r. by apply Nat.even_spec in Hini as [k ->]; rewrite Nat.div2_succ_double, Nat.div2_double. }
    exists root, ((if partial then [x] else []) ++ new). split; [|split].
    + rewrite app_assoc, <- Hrun. destruct partial; cbn; [done|by rewrite app_nil_r].
    + constructor; [rewrite !length_app; cbn; lia|]. rewrite <- app_assoc. by rewrite pairup_app.
    + destruct partial; [by rewrite Hnew|]. destruct Hnew as [tail Hnew]. exists tail.
      rewrite frontier_even by (rewrite !length_app; cbn; rewrite Nat.add_comm, Nat.add_1_r; done).
      rewrite <- (app_assoc ini), pairs_app by done. exact Hnew.
Qed.

Lemma append_represents m ids d :
  Z.of_nat (length ids) < 2 ^ 63 -> represents m ids ->
  exists root m', append m d = Ok (root, m') /\ root_of (ids ++ [d]) root
    /\ represents m' (ids ++ [d]).
Proof.
  intros Hlen (Hcount & (tail & Hact) & _). unfold append. rewrite Hcount, Hact.
  destruct (depth_bounds (length ids) Hlen) as (Hd & Hlt & Hge).
  set (depth := Z.to_nat _) in *.
  destruct (append_loop_spec depth 64 ids d false tail [] ltac:(lia) Hlt Hge)
    as (root & new & Hrun & Hroot & tail' & Hnew).
  rewrite Hrun. cbn. do 2 eexists. split; [done|]. split; [done|].
  split; [|split]; cbn.
  - rewrite length_app, Nat2Z.inj_add. cbn. apply u64_id. widths. lia.
  - exists tail'. done.
  - intros _. exists root. by rewrite last_snoc.
Qed.

Lemma append_all_represents ds m ids :
  Z.of_nat (length (ids ++ ds)) <= 2 ^ 63 -> represents m ids ->
  exists m', append_all m ds = Ok m' /\ represents m' (ids ++ ds).
Proof.
  revert m ids. induction ds as [|d ds IH]; intros m ids Hlen Hrep; cbn.
  { exists m. by rewrite app_nil_r. }
  rewrite length_app in Hlen. cbn in Hlen.
  destruct (append_represents m ids d) as (root & m' & -> & _ & Hrep'); [lia|done|]. cbn.
  destruct (IH m' (ids ++ [d])) as (m'' & -> & Hrep''); [rewrite !length_app; cbn; lia|done|].
  exists m''. split; [done|]. by rewrite <- app_assoc in Hrep''.
Qed.

Lemma empty_represents : represents incremental_merkle_empty [].
Proof. split; [done|]. split; [by exists []|done]. Qed.

Lemma get_root_represents m ids :
  represents m ids -> get_root m = merkle ids.
Proof.
  intros (Hcount & _ & Hroot). unfold get_root. rewrite Hcount.
  destruct ids as [|x ids]; [done|]. destruct Hroot as (r & -> & Hr); [done|].
  rewrite (merkle_spec _ _ Hr). destruct (Z.gtb_spec (Z.of_nat (length (x :: ids))) 0); [done|cbn in *; lia].
Qed.

(** C29: appending a sequence of at most 2^63 digests one by one to an empty
    incremental tree never reads past the stored active nodes, and the root
    it then reports is the one the batch algorithm computes for the whole
    sequence. *)
Theorem incremental_root_is_merkle (ds : list digest_type) :
  Z.of_nat (length ds) <= 2 ^ 63 ->
  exists m r, append_all incremental_merkle_empty ds = Ok m /\ get_root m = Ok r /\ merkle ds = Ok r.
Proof.
  intros Hlen. destruct (append_all_represents ds _ [] Hlen empty_represents) as (m & Hm & Hrep).
  pose proof (get_root_represents _ _ Hrep) as Hroot. exists m. cbn in Hroot.
  destruct ds as [|x ds]; [by eexists|]. destruct (root_of_exists (x :: ds)) as [r Hr]; [done|].
  exists r. rewrite Hroot, (merkle_spec _ _ Hr). done.
Qed.
End Tree.

(** A concrete instance: three digests, with a hash that mixes its arguments. *)
Definition toy_hash (p : digest_type * digest_type) : digest_type :=
  mk_digest (3 * _hash0 p.1 + 5 * _hash0 p.2 + 1) (_hash1 p.1) (_hash1 p.2) 7.

Lemma incremental_root_is_merkle_witness :
  exists m r,
    append_all toy_hash incremental_merkle_empty
      [mk_digest 1 2 3 4; mk_digest 5 6 7 8; mk_digest 9 10 11 12] = Ok m
    /\ get_root (mk_digest 0 0 0 0) m = Ok r
    /\ merkle toy_hash (mk_digest 0 0 0 0)
         [mk_digest 1 2 3 4; mk_digest 5 6 7 8; mk_digest 9 10 11 12] = Ok r.
Proof. apply incremental_root_is_merkle. cbn. lia. Defined.


(** for 1 <= v <= 2^63 the bit smearing of [next_power_of_2] yields the
    least power of two that is not below [v]. *)
Theorem next_power_of_2_least (v : Z) :
  1 <= v <= 2 ^ 63 ->
  exists k, 0 <= k /\ next_power_of_2 v = 2 ^ k /\ v <= 2 ^ k
            /\ (forall j, 0 <= j -> v <= 2 ^ j -> 2 ^ k <= 2 ^ j).
Proof.
  intros Hv. exists (Z.log2_up v). pose proof (Z.log2_up_nonneg v).
  split; [done|]. split; [by apply next_power_of_2_spec|]. split.
  - destruct (decide (v = 1)) as [->|]; [done|]. apply Z.log2_up_spec. lia.
  - intros j Hj Hle. apply Z.pow_le_mono_r; [lia|].
    rewrite <- (Z.log2_up_pow2 j) by done. by apply Z.log2_up_le_mono.
Qed.

Lemma next_power_of_2_least_witness :
  exists k, 0 <= k /\ next_power_of_2 37 = 2 ^ k /\ 37 <= 2 ^ k
            /\ (forall j, 0 <= j -> 37 <= 2 ^ j -> 2 ^ k <= 2 ^ j).
Proof. apply next_power_of_2_least. lia. Defined.

(** on the power of two [2^k] the function [clz_power_2] returns [k], the
    number of trailing zeros, and not the number of leading zeros [63 - k]
    that its comment promises; the depth computation needs [k]. *)
Theorem clz_power_2_counts_trailing (k : Z) :
  0 <= k < 64 ->
  clz_power_2 (2 ^ k) = k /\ Z.testbit (2 ^ k) (clz_power_2 (2 ^ k)) = true.
Proof.
  intros Hk. rewrite clz_power_2_spec by done. split; [done|]. apply Z.pow2_bits_true; lia.
Qed.

Lemma clz_power_2_counts_trailing_witness :
  clz_power_2 (2 ^ 0) = 0 /\ Z.testbit (2 ^ 0) (clz_power_2 (2 ^ 0)) = true.
Proof. apply (clz_power_2_counts_trailing 0). lia. Defined.

Lemma bit7 x : (Z.land x 0x80 =? 0) = negb (Z.testbit x 7).
Proof.
  change 0x80 with (2 ^ 7). destruct (Z.testbit x 7) eqn:Hb; cbn [negb].
  - apply Z.eqb_neq. intros H0. apply (f_equal (fun z => Z.testbit z 7)) in H0.
    rewrite Z.land_spec, Hb in H0. done.
  - apply Z.eqb_eq, Z.bits_inj'. intros i Hi. rewrite Z.land_spec, Z.pow2_bits_eqb, Z.bits_0 by lia.
    destruct (Z.eqb_spec 7 i) as [<-|]; [by rewrite Hb|apply andb_false_r].
Qed.

(** The two halves of a canonical pair tell their side (bit 7 of the
    first word is 0 on the left and 1 on the right), and nothing but that bit
    of a digest is changed. *)
Theorem canonical_pair_sides (l r : digest_type) :
  is_u64 (_hash0 l) ->
  let p := make_canonical_pair l r in
  is_canonical_left p.1 = true /\ is_canonical_right p.2 = true /\
  (forall i, 0 <= i -> i <> 7 -> Z.testbit (_hash0 p.1) i = Z.testbit (_hash0 l) i
                              /\ Z.testbit (_hash0 p.2) i = Z.testbit (_hash0 r) i) /\
  (_hash1 p.1, _hash2 p.1, _hash3 p.1) = (_hash1 l, _hash2 l, _hash3 l) /\
  (_hash1 p.2, _hash2 p.2, _hash3 p.2) = (_hash1 r, _hash2 r, _hash3 r).
Proof.
  intros Hl p. unfold is_canonical_left, is_canonical_right. rewrite !bit7. subst p.
  cbn [make_canonical_pair make_canonical_left make_canonical_right fst snd _hash0 _hash1 _hash2 _hash3].
  rewrite Z.land_spec, Z.lor_spec.
  change (Z.testbit 0xFFFFFFFFFFFFFF7F 7) with false. change (Z.testbit 0x80 7) with true.
  rewrite andb_false_r, orb_true_r.
  split; [done|]. split; [done|]. split; [|done]. intros i Hi H7. rewrite Z.land_spec, Z.lor_spec.
  change 0x80 with (2 ^ 7). rewrite Z.pow2_bits_false, orb_false_r by lia. split; [|done].
  change 0xFFFFFFFFFFFFFF7F with (Z.lxor (Z.ones 64) (2 ^ 7)).
  rewrite Z.lxor_spec, Z.pow2_bits_false, xorb_false_r, Z.testbit_ones_nonneg by lia.
  destruct (Z.ltb_spec i 64); [apply andb_true_r|].
  destruct (decide (_hash0 l = 0)) as [->|]; [by rewrite Z.bits_0|].
  rewrite Z.bits_above_log2; [done|widths; lia|].
  apply (Z.lt_le_trans _ 64); [|done]. apply Z.log2_lt_pow2; widths; lia.
Qed.
