(* ===== verification/Chainbase.v ===== *)
(** * chainbase: the object database with undo sessions

    Models [libraries/chainbase/include/chainbase/chainbase.hpp]:
    [undo_state], [generic_index] (objects, undo stack, sessions) and the
    operations of [database] on all its indices ([libraries/chainbase/src/chainbase.cpp]).

    An object is its id and a payload of type [B] (all the other fields).  The
    multi-index of a [generic_index] is the finite map from ids to payloads;
    its other unique indices are abstracted by [conflict], which tells whether
    two payloads have equal keys in one of them.  Constructors give a payload
    and modifiers map payloads, so neither touches the id, as
    [eosio/chain/types.hpp] (notes on chainbase objects) requires.

    The specification is a stack of snapshots: [start_undo_session] saves the
    objects, [undo] restores the last saved ones, [squash] forgets the last
    snapshot and [commit] the oldest.  The delta-based undo states of the code
    implement it for every sequence of operations. *)

From S2P Require Import Prelude.

(** The ids of a map or set in the order its iterators visit them. *)
Definition ascending (s : gset Z) : list Z := merge_sort Z.le (elements s).

Section Index.
Context {B : Type}.
Context (conflict : B -> B -> bool).

(** ** State *)
Record undo_state : Type := mk_undo_state {
  old_values : gmap Z B;
  removed_values : gmap Z B;
  new_ids : gset Z;
  old_next_id : Z;
  undo_revision : Z }.

(** The deque [_stack] is kept with its back first. *)
Record generic_index : Type := mk_index {
  _stack : list undo_state;
  _revision : Z;
  _next_id : Z;
  _indices : gmap Z B }.

Definition index_empty : generic_index := mk_index [] 0 0 ∅.

(** Would payload [b], stored under [id], break a unique index of [m]? *)
Definition violates (m : gmap Z B) (id : Z) (b : B) : bool :=
  existsb (fun p => negb (p.1 =? id) && conflict b p.2) (map_to_list m).

(** ** The undo hooks *)
Definition on_create (id : Z) (gi : generic_index) : generic_index :=
  match _stack gi with
  | [] => gi
  | head :: stack =>
      let head := mk_undo_state (old_values head) (removed_values head) ({[id]} ∪ new_ids head)
                    (old_next_id head) (undo_revision head) in
      mk_index (head :: stack) (_revision gi) (_next_id gi) (_indices gi)
  end.

Definition on_modify (id : Z) (v : B) (gi : generic_index) : generic_index :=
  match _stack gi with
  | [] => gi
  | head :: stack =>
      if decide (id ∈ new_ids head) then gi
      else match old_values head !! id with
           | Some _ => gi
           | None =>
               let head := mk_undo_state (<[id := v]> (old_values head)) (removed_values head)
                             (new_ids head) (old_next_id head) (undo_revision head) in
               mk_index (head :: stack) (_revision gi) (_next_id gi) (_indices gi)
           end
  end.

(** [map::emplace]: no effect when the key is present. *)
Definition map_emplace (m : gmap Z B) (id : Z) (b : B) : gmap Z B :=
  match m !! id with Some _ => m | None => <[id := b]> m end.

Definition on_remove (id : Z) (v : B) (gi : generic_index) : generic_index :=
  match _stack gi with
  | [] => gi
  | head :: stack =>
      let set_head head := mk_index (head :: stack) (_revision gi) (_next_id gi) (_indices gi) in
      if decide (id ∈ new_ids head) then
        set_head (mk_undo_state (old_values head) (removed_values head) (new_ids head ∖ {[id]})
                    (old_next_id head) (undo_revision head))
      else match old_values head !! id with
           | Some old =>
               set_head (mk_undo_state (delete id (old_values head))
                           (map_emplace (removed_values head) id old) (new_ids head)
                           (old_next_id head) (undo_revision head))
           | None =>
               match removed_values head !! id with
               | Some _ => gi
               | None => set_head (mk_undo_state (old_values head)
                                     (map_emplace (removed_values head) id v) (new_ids head)
                                     (old_next_id head) (undo_revision head))
               end
           end
  end.

(** ** Operations on objects *)
Definition set_indices (m : gmap Z B) (gi : generic_index) : generic_index :=
  mk_index (_stack gi) (_revision gi) (_next_id gi) m.

Definition emplace (c : B) : M generic_index Z := fun gi =>
  let new_id := _next_id gi in
  match _indices gi !! new_id with
  | Some _ => (Err std_logic_error, gi)
  | None =>
      if violates (_indices gi) new_id c then (Err std_logic_error, gi)
      else
        let gi := mk_index (_stack gi) (_revision gi) (_next_id gi + 1) (<[new_id := c]> (_indices gi)) in
        (Ok new_id, on_create new_id gi)
  end.

(** [modify] and [remove] take a reference to a stored object, given by its
    id; a reference to an object that is not stored is undefined.  A modifier
    that breaks a unique index makes the container drop the object and the
    process abort. *)
Definition index_modify (id : Z) (m : B -> B) : M generic_index unit := fun gi =>
  match _indices gi !! id with
  | None => (Err undefined_behaviour, gi)
  | Some obj =>
      let gi := on_modify id obj gi in
      if violates (_indices gi) id (m obj)
      then (Err aborted, set_indices (delete id (_indices gi)) gi)
      else (Ok tt, set_indices (<[id := m obj]> (_indices gi)) gi)
  end.

Definition index_remove (id : Z) : M generic_index unit := fun gi =>
  match _indices gi !! id with
  | None => (Err undefined_behaviour, gi)
  | Some obj =>
      let gi := on_remove id obj gi in
      (Ok tt, set_indices (delete id (_indices gi)) gi)
  end.

Definition find (gi : generic_index) (key : Z) : option B := _indices gi !! key.

Definition index_get (gi : generic_index) (key : Z) : res B :=
  match find gi key with Some b => Ok b | None => Err std_out_of_range end.

Definition remove_object (id : Z) : M generic_index unit := fun gi =>
  match find gi id with
  | None => (Err std_out_of_range, gi)
  | Some _ => index_remove id gi
  end.

(** ** Sessions *)
Definition enabled (gi : generic_index) : bool :=
  match _stack gi with [] => false | _ => true end.

Record session : Type := mk_session { _apply : bool; _session_revision : Z }.

(** The constructor [session( generic_index&, int64_t )]. *)
Definition session_new (revision : Z) : session := mk_session (negb (revision =? -1)) revision.

(** The move constructor copies [_apply] only: [_revision] keeps the default
    0 of its declaration. *)
Definition session_move (mv : session) : session * session :=
  (mk_session (_apply mv) 0, mk_session false (_session_revision mv)).

Definition start_undo_session (enable : bool) (gi : generic_index) : session * generic_index :=
  if enable then
    let rev := _revision gi + 1 in
    (session_new rev,
     mk_index (mk_undo_state ∅ ∅ ∅ (_next_id gi) rev :: _stack gi) rev (_next_id gi) (_indices gi))
  else (session_new (-1), gi).

(** [undo]: the three loops, each over a container of the head state. *)
Fixpoint undo_new (ids : list Z) (m : gmap Z B) : res (gmap Z B) :=
  match ids with
  | [] => Ok m
  | id :: ids => match m !! id with
                 | None => Err undefined_behaviour
                 | Some _ => undo_new ids (delete id m)
                 end
  end.

Fixpoint undo_old (ids : list Z) (old : gmap Z B) (m : gmap Z B) : res (gmap Z B) :=
  match ids with
  | [] => Ok m
  | id :: ids =>
      match old !! id, m !! id with
      | Some v, Some _ => if violates m id v then Err aborted else undo_old ids old (<[id := v]> m)
      | _, _ => Err undefined_behaviour
      end
  end.

Fixpoint undo_removed (ids : list Z) (removed : gmap Z B) (m : gmap Z B) : res (gmap Z B) :=
  match ids with
  | [] => Ok m
  | id :: ids =>
      match removed !! id, m !! id with
      | Some v, None => if violates m id v then Err aborted else undo_removed ids removed (<[id := v]> m)
      | Some _, Some _ => Err aborted
      | None, _ => Err undefined_behaviour
      end
  end.

Definition undo : M generic_index unit := fun gi =>
  match _stack gi with
  | [] => (Ok tt, gi)
  | head :: stack =>
      let r :=
        m ← undo_new (ascending (new_ids head)) (_indices gi);
        m ← undo_old (ascending (dom (old_values head))) (old_values head) m;
        undo_removed (ascending (dom (removed_values head))) (removed_values head) m in
      match r with
      | Ok m => (Ok tt, mk_index stack (_revision gi - 1) (old_next_id head) m)
      | Err e => (Err e, gi)
      end
  end.

(** [squash]: the loops over [state.old_values] and [state.removed_values]
    change [prev_state] one object at a time. *)
Definition squash_old (state : undo_state) (prev : undo_state) (id : Z) : undo_state :=
  match old_values state !! id with
  | None => prev
  | Some v =>
      if decide (id ∈ new_ids prev) then prev
      else match old_values prev !! id with
           | Some _ => prev
           | None => mk_undo_state (map_emplace (old_values prev) id v) (removed_values prev)
                       (new_ids prev) (old_next_id prev) (undo_revision prev)
           end
  end.

Definition squash_removed (state : undo_state) (prev : undo_state) (id : Z) : undo_state :=
  match removed_values state !! id with
  | None => prev
  | Some v =>
      if decide (id ∈ new_ids prev) then
        mk_undo_state (old_values prev) (removed_values prev) (new_ids prev ∖ {[id]})
          (old_next_id prev) (undo_revision prev)
      else match old_values prev !! id with
           | Some was =>
               mk_undo_state (delete id (old_values prev)) (map_emplace (removed_values prev) id was)
                 (new_ids prev) (old_next_id prev) (undo_revision prev)
           | None =>
               mk_undo_state (old_values prev) (map_emplace (removed_values prev) id v)
                 (new_ids prev) (old_next_id prev) (undo_revision prev)
           end
  end.

Definition squash_new (state : undo_state) (prev : undo_state) : undo_state :=
  mk_undo_state (old_values prev) (removed_values prev) (new_ids state ∪ new_ids prev)
    (old_next_id prev) (undo_revision prev).

Definition squash_states (state prev : undo_state) : undo_state :=
  let prev := fold_left (squash_old state) (ascending (dom (old_values state))) prev in
  let prev := squash_new state prev in
  fold_left (squash_removed state) (ascending (dom (removed_values state))) prev.

Definition squash (gi : generic_index) : generic_index :=
  match _stack gi with
  | [] => gi
  | [_] => mk_index [] (_revision gi - 1) (_next_id gi) (_indices gi)
  | state :: prev :: stack =>
      mk_index (squash_states state prev :: stack) (_revision gi - 1) (_next_id gi) (_indices gi)
  end.

(** [commit] drops states from the front of the deque. *)
Fixpoint pop_front_while (revision : Z) (front : list undo_state) : list undo_state :=
  match front with
  | [] => []
  | s :: front => if undo_revision s <=? revision then pop_front_while revision front else s :: front
  end.

Definition commit (revision : Z) (gi : generic_index) : generic_index :=
  mk_index (rev (pop_front_while revision (rev (_stack gi)))) (_revision gi) (_next_id gi) (_indices gi).

Fixpoint undo_all_loop (fuel : nat) : M generic_index unit := fun gi =>
  if enabled gi then
    match fuel with
    | O => (Err out_of_fuel, gi)
    | S fuel => (undo ≫= fun _ => undo_all_loop fuel) gi
    end
  else (Ok tt, gi).

Definition undo_all : M generic_index unit := fun gi => undo_all_loop (length (_stack gi)) gi.

Definition set_revision (revision : Z) : M generic_index unit := fun gi =>
  match _stack gi with
  | _ :: _ => (Err std_logic_error, gi)
  | [] => if revision >? INT64_MAX then (Err std_logic_error, gi)
          else (Ok tt, mk_index [] revision (_next_id gi) (_indices gi))
  end.

Definition undo_stack_revision_range (gi : generic_index) : Z * Z :=
  match _stack gi, last (_stack gi) with
  | back :: _, Some front => (undo_revision front - 1, undo_revision back)
  | _, _ => (_revision gi, _revision gi)
  end.

(** The session operations: each acts on the index once, if the session is
    still to be applied. *)
Definition session_push (s : session) : session := mk_session false (_session_revision s).

Definition session_squash (s : session) (gi : generic_index) : session * generic_index :=
  (mk_session false (_session_revision s), if _apply s then squash gi else gi).

Definition session_undo (s : session) : M generic_index session := fun gi =>
  if _apply s then
    match undo gi with
    | (Ok _, gi) => (Ok (mk_session false (_session_revision s)), gi)
    | (Err e, gi) => (Err e, gi)
    end
  else (Ok (mk_session false (_session_revision s)), gi).

(** ** Sequences of operations *)
Inductive op : Type :=
| OpCreate (c : B)
| OpModify (id : Z) (m : B -> B)
| OpRemove (id : Z)
| OpStart
| OpUndo
| OpSquash
| OpCommit (revision : Z)
| OpUndoAll.

Definition run_op (o : op) : M generic_index unit :=
  match o with
  | OpCreate c => emplace c ≫= fun _ => mret tt
  | OpModify id m => index_modify id m
  | OpRemove id => index_remove id
  | OpStart => fun gi => (Ok tt, (start_undo_session true gi).2)
  | OpUndo => undo
  | OpSquash => fun gi => (Ok tt, squash gi)
  | OpCommit r => fun gi => (Ok tt, commit r gi)
  | OpUndoAll => undo_all
  end.

(** Operations are independent of each other's exceptions: the caller catches
    them and goes on. *)
Fixpoint run_ops (ops : list op) (gi : generic_index) : list (res unit) * generic_index :=
  match ops with
  | [] => ([], gi)
  | o :: ops => let (r, gi) := run_op o gi in
                let (rs, gi) := run_ops ops gi in (r :: rs, gi)
  end.

(** ** The specification: a stack of snapshots *)
Record snapshots : Type := mk_snapshots {
  s_objects : gmap Z B;
  s_next_id : Z;
  s_saved : list (gmap Z B * Z);
  s_revision : Z }.

Definition snapshots_empty : snapshots := mk_snapshots ∅ 0 [] 0.

Definition spec_op (o : op) : M snapshots unit := fun s =>
  let 'mk_snapshots objs next saved r := s in
  match o with
  | OpCreate c =>
      if violates objs next c then (Err std_logic_error, s)
      else (Ok tt, mk_snapshots (<[next := c]> objs) (next + 1) saved r)
  | OpModify id m =>
      match objs !! id with
      | None => (Err undefined_behaviour, s)
      | Some b => (Ok tt, mk_snapshots (<[id := m b]> objs) next saved r)
      end
  | OpRemove id =>
      match objs !! id with
      | None => (Err undefined_behaviour, s)
      | Some _ => (Ok tt, mk_snapshots (delete id objs) next saved r)
      end
  | OpStart => (Ok tt, mk_snapshots objs next ((objs, next) :: saved) (r + 1))
  | OpUndo =>
      match saved with
      | [] => (Ok tt, s)
      | (objs', next') :: saved' => (Ok tt, mk_snapshots objs' next' saved' (r - 1))
      end
  | OpSquash =>
      match saved with
      | [] => (Ok tt, s)
      | _ :: saved' => (Ok tt, mk_snapshots objs next saved' (r - 1))
      end
  | OpCommit rev => (Ok tt, mk_snapshots objs next (take (Z.to_nat (r - rev)) saved) r)
  | OpUndoAll =>
      match last saved with
      | None => (Ok tt, s)
      | Some (objs', next') =>
          (Ok tt, mk_snapshots objs' next' [] (r - Z.of_nat (length saved)))
      end
  end.

Fixpoint spec_ops (ops : list op) (s : snapshots) : list (res unit) * snapshots :=
  match ops with
  | [] => ([], s)
  | o :: ops => let (r, s) := spec_op o s in
                let (rs, s) := spec_ops ops s in (r :: rs, s)
  end.

(** Modifiers keep the fields of the unique indices ("restricted fields"). *)
Definition same_keys (b b' : B) : Prop := forall c, conflict b c = conflict b' c.

Definition keeps_keys (o : op) : Prop :=
  match o with OpModify _ m => forall b, same_keys b (m b) | _ => True end.

(** ** The simulation relation

    What an undo state records about one object: is it new, its old value if
    it was modified, its old value if it was removed.  [entry v cur old] is the
    meaning of the record [v] of an object that is now [cur] and was [old]. *)
Definition view (st : undo_state) (id : Z) : bool * option B * option B :=
  (bool_decide (id ∈ new_ids st), old_values st !! id, removed_values st !! id).

Inductive entry : bool * option B * option B -> option B -> option B -> Prop :=
| entry_nop o : entry (false, None, None) o o
| entry_new b : entry (true, None, None) (Some b) None
| entry_upd b b' : same_keys b b' -> entry (false, Some b, None) (Some b') (Some b)
| entry_del b : entry (false, None, Some b) None (Some b).

Definition unique (m : gmap Z B) : Prop :=
  forall i j b c, i <> j -> m !! i = Some b -> m !! j = Some c -> conflict b c = false.

Definition fresh_from (m : gmap Z B) (next : Z) : Prop :=
  forall id b, m !! id = Some b -> id < next.

Record delta (st : undo_state) (cur : gmap Z B) (next : Z) (old : gmap Z B) (old_next : Z) : Prop := {
  delta_next : old_next_id st = old_next;
  delta_le : old_next <= next;
  delta_new : forall id, id ∈ new_ids st -> old_next <= id;
  delta_entry : forall id, entry (view st id) (cur !! id) (old !! id) }.

Inductive stack_rel : list undo_state -> Z -> gmap Z B -> Z -> list (gmap Z B * Z) -> Prop :=
| stack_nil r cur next : stack_rel [] r cur next []
| stack_cons st stack r cur next old old_next saved :
    undo_revision st = r -> delta st cur next old old_next ->
    unique old -> fresh_from old old_next ->
    stack_rel stack (r - 1) old old_next saved ->
    stack_rel (st :: stack) r cur next ((old, old_next) :: saved).

Record simulates (gi : generic_index) (s : snapshots) : Prop := {
  sim_objects : _indices gi = s_objects s;
  sim_next : _next_id gi = s_next_id s;
  sim_revision : _revision gi = s_revision s;
  sim_unique : unique (s_objects s);
  sim_fresh : fresh_from (s_objects s) (s_next_id s);
  sim_stack : stack_rel (_stack gi) (s_revision s) (s_objects s) (s_next_id s) (s_saved s) }.
End Index.
Arguments undo_state : clear implicits.
Arguments generic_index : clear implicits.
Arguments snapshots : clear implicits.
Arguments op : clear implicits.
Arguments undo {B} conflict gi : simpl never.

(** ** Iteration orders *)
Lemma elem_of_ascending (s : gset Z) id : id ∈ ascending s <-> id ∈ s.
Proof. unfold ascending. rewrite merge_sort_Permutation. apply elem_of_elements. Qed.

Lemma NoDup_ascending (s : gset Z) : NoDup (ascending s).
Proof. unfold ascending. rewrite merge_sort_Permutation. apply NoDup_elements. Qed.

Section Refinement.
Context {B : Type} (conflict : B -> B -> bool).
Context (conflict_sym : forall b c, conflict b c = conflict c b).

#[local] Abbreviation same_keys := (same_keys conflict).
#[local] Abbreviation violates := (violates conflict).
#[local] Abbreviation unique := (unique conflict).
#[local] Abbreviation entry := (entry conflict).
#[local] Abbreviation delta := (delta conflict).
#[local] Abbreviation stack_rel := (stack_rel conflict).
#[local] Abbreviation simulates := (simulates conflict).

Lemma same_keys_refl b : same_keys b b.
Proof. by intros c. Qed.
Lemma same_keys_trans b1 b2 b3 : same_keys b1 b2 -> same_keys b2 b3 -> same_keys b1 b3.
Proof. intros H1 H2 c. by rewrite H1. Qed.
#[local] Hint Resolve same_keys_refl : core.

Lemma violates_false (m : gmap Z B) id b :
  violates m id b = false <-> forall j c, j <> id -> m !! j = Some c -> conflict b c = false.
Proof.
  unfold Chainbase.violates.
  split.
  - intros Hv j c Hj Hm. destruct (conflict b c) eqn:Hc; [|done].
    assert (existsb (fun p => negb (p.1 =? id) && conflict b p.2) (map_to_list m) = true) as Ht;
      [|congruence].
    apply existsb_exists. exists (j, c). split; [by apply list_elem_of_In, elem_of_map_to_list|].
    cbn. rewrite Hc. destruct (Z.eqb_spec j id); done.
  - intros Hall. apply not_true_is_false. intros Ht. apply existsb_exists in Ht as ([j c] & Hin & Ht).
    apply list_elem_of_In, elem_of_map_to_list in Hin. cbn in Ht.
    apply andb_true_iff in Ht as [Hj Hc]. destruct (Z.eqb_spec j id); [done|].
    by rewrite (Hall j c) in Hc.
Qed.

(** *** [undo] restores the old objects *)

(** Every object of [m] has the keys of the object of [T] with its id. *)
Definition shadows (T m : gmap Z B) : Prop :=
  forall id b, m !! id = Some b -> exists t, T !! id = Some t /\ same_keys t b.

Lemma shadows_violates T m id t :
  unique T -> shadows T m -> T !! id = Some t -> violates m id t = false.
Proof.
  intros HT Hm Ht. apply violates_false. intros j c Hj Hc.
  destruct (Hm j c Hc) as (t' & Ht' & Hk). rewrite conflict_sym, <- Hk, conflict_sym.
  by apply (HT id j).
Qed.

Lemma shadows_insert T m id t : shadows T m -> T !! id = Some t -> shadows T (<[id := t]> m).
Proof.
  intros Hm Ht j b. rewrite lookup_insert. case_decide; [|apply Hm].
  intros [= <-]. subst. eauto.
Qed.

Lemma undo_new_spec ids : forall m : gmap Z B, NoDup ids -> (forall id, id ∈ ids -> is_Some (m !! id)) ->
  exists m', undo_new ids m = Ok m'
    /\ forall id, m' !! id = if decide (id ∈ ids) then None else m !! id.
Proof.
  induction ids as [|i ids IH]; intros m Hnd Hin; cbn.
  { exists m. split; [done|]. intros id. case_decide; [set_solver|done]. }
  apply NoDup_cons in Hnd as [Hi Hnd]. destruct (Hin i) as [b ->]; [set_solver|].
  destruct (IH (delete i m) Hnd) as (m' & -> & Hm').
  { intros id Hid. rewrite lookup_delete_ne by set_solver. apply Hin. set_solver. }
  exists m'. split; [done|]. intros id. rewrite Hm', lookup_delete.
  repeat case_decide; set_solver.
Qed.

Lemma undo_old_spec T old ids : unique T -> forall m : gmap Z B, NoDup ids -> shadows T m ->
  (forall id, id ∈ ids -> is_Some (old !! id) /\ is_Some (m !! id) /\ T !! id = old !! id) ->
  exists m', undo_old conflict ids old m = Ok m' /\ shadows T m'
    /\ forall id, m' !! id = if decide (id ∈ ids) then old !! id else m !! id.
Proof.
  intros HT. induction ids as [|i ids IH]; intros m Hnd Hsh Hin; cbn.
  { exists m. split; [done|]. split; [done|]. intros id. case_decide; [set_solver|done]. }
  apply NoDup_cons in Hnd as [Hi Hnd].
  destruct (Hin i) as ([v Hv] & [w Hw] & HTi); [set_solver|]. rewrite Hv, Hw. rewrite Hv in HTi.
  rewrite (shadows_violates T m i v) by done.
  destruct (IH (<[i := v]> m) Hnd) as (m' & -> & Hsh' & Hm'); [by apply shadows_insert| |].
  { intros id Hid. destruct (Hin id) as (? & ? & ?); [set_solver|].
    by rewrite lookup_insert_ne by set_solver. }
  exists m'. split; [done|]. split; [done|]. intros id. rewrite Hm', lookup_insert.
  repeat case_decide; set_solver.
Qed.

Lemma undo_removed_spec T removed ids : unique T -> forall m : gmap Z B, NoDup ids -> shadows T m ->
  (forall id, id ∈ ids -> is_Some (removed !! id) /\ m !! id = None /\ T !! id = removed !! id) ->
  exists m', undo_removed conflict ids removed m = Ok m'
    /\ forall id, m' !! id = if decide (id ∈ ids) then removed !! id else m !! id.
Proof.
  intros HT. induction ids as [|i ids IH]; intros m Hnd Hsh Hin; cbn.
  { exists m. split; [done|]. intros id. case_decide; [set_solver|done]. }
  apply NoDup_cons in Hnd as [Hi Hnd].
  destruct (Hin i) as ([v Hv] & Hw & HTi); [set_solver|]. rewrite Hv, Hw. rewrite Hv in HTi.
  rewrite (shadows_violates T m i v) by done.
  destruct (IH (<[i := v]> m) Hnd) as (m' & -> & Hm'); [by apply shadows_insert| |].
  { intros id Hid. destruct (Hin id) as (? & ? & ?); [set_solver|].
    by rewrite lookup_insert_ne by set_solver. }
  exists m'. split; [done|]. intros id. rewrite Hm', lookup_insert.
  repeat case_decide; set_solver.
Qed.

(** What a record says about the past of its object. *)
Lemma entry_restores n ov rv c o :
  entry (n, ov, rv) c o ->
  o = match rv with
      | Some b => Some b
      | None => match ov with Some b => Some b | None => if n : bool then None else c end
      end.
Proof. by inversion 1. Qed.

(** The objects that are left when the new ones are erased. *)
Lemma delta_shadows st cur next old old_next m :
  delta st cur next old old_next ->
  (forall id, m !! id = if decide (id ∈ ascending (new_ids st)) then None else cur !! id) ->
  shadows old m.
Proof.
  intros Hd Hm id b. rewrite Hm. case_decide as Hin; [done|]. rewrite elem_of_ascending in Hin.
  intros Hb. pose proof (delta_entry _ _ _ _ _ _ Hd id) as He. unfold view in He.
  rewrite Hb, bool_decide_eq_false_2 in He by done. inversion He; subst; eauto.
Qed.

Lemma undo_delta st stack r cur next old old_next :
  delta st cur next old old_next -> unique old ->
  undo conflict (mk_index (st :: stack) r next cur) = (Ok tt, mk_index stack (r - 1) old_next old).
Proof.
  intros Hd Hold. pose proof (delta_entry _ _ _ _ _ _ Hd) as He. unfold undo. cbn [_stack _indices _revision].
  destruct (undo_new_spec (ascending (new_ids st)) cur) as (m1 & -> & Hm1); [apply NoDup_ascending| |].
  { intros id Hid%elem_of_ascending. specialize (He id). unfold view in He.
    rewrite bool_decide_eq_true_2 in He by done. inversion He; subst; eauto. }
  pose proof (delta_shadows _ _ _ _ _ m1 Hd Hm1) as Hsh1.
  assert (forall id, id ∈ ascending (dom (old_values st)) ->
    is_Some (old_values st !! id) /\ is_Some (m1 !! id) /\ old !! id = old_values st !! id) as Hov.
  { intros id [v Hv]%elem_of_ascending%elem_of_dom. specialize (He id).
    unfold view in He. rewrite Hv in He. inversion He; subst.
    rewrite Hm1. destruct (decide _) as [Hin|]; [|eauto]. apply elem_of_ascending in Hin.
    by rewrite bool_decide_eq_true_2 in * by done. }
  destruct (undo_old_spec old (old_values st) _ Hold m1 (NoDup_ascending _) Hsh1 Hov) as (m2 & Hrun & Hsh2 & Hm2).
  cbn. rewrite Hrun. cbn.
  assert (forall id, id ∈ ascending (dom (removed_values st)) ->
    is_Some (removed_values st !! id) /\ m2 !! id = None /\ old !! id = removed_values st !! id) as Hrv.
  { intros id [v Hv]%elem_of_ascending%elem_of_dom. specialize (He id).
    unfold view in He. rewrite Hv in He. inversion He; subst.
    rewrite Hm2, Hm1. split; [eauto|]. split; [|done].
    destruct (decide _) as [Hin|]; [|by destruct (decide _)].
    apply elem_of_ascending, elem_of_dom in Hin as [? Hin]. congruence. }
  destruct (undo_removed_spec old (removed_values st) _ Hold m2 (NoDup_ascending _) Hsh2 Hrv) as (m3 & -> & Hm3).
  rewrite (delta_next _ _ _ _ _ _ Hd). do 2 f_equal. apply map_eq. intros id.
  rewrite Hm3, Hm2, Hm1, (entry_restores _ _ _ _ _ (He id)).
  rewrite (decide_ext _ (is_Some (removed_values st !! id))) by (by rewrite elem_of_ascending, elem_of_dom).
  rewrite (decide_ext (id ∈ ascending (dom (old_values st))) (is_Some (old_values st !! id)))
    by (by rewrite elem_of_ascending, elem_of_dom).
  rewrite (decide_ext (id ∈ ascending (new_ids st)) (id ∈ new_ids st)) by apply elem_of_ascending.
  destruct (removed_values st !! id); [done|]. destruct (old_values st !! id); [done|]. cbn.
  rewrite !(decide_False (P := is_Some None)) by (by intros [? ?]).
  case_bool_decide; [by rewrite decide_True|by rewrite decide_False].
Qed.

(** *** [squash] composes the records *)

Definition view_old (o : option B) (v : bool * option B * option B) : bool * option B * option B :=
  let '(n, ov, rv) := v in
  match o with
  | None => v
  | Some b => if n then v else match ov with Some _ => v | None => (n, Some b, rv) end
  end.

Definition view_removed (o : option B) (v : bool * option B * option B) : bool * option B * option B :=
  let '(n, ov, rv) := v in
  match o with
  | None => v
  | Some b =>
      if n then (false, ov, rv)
      else match ov with
           | Some was => (n, None, match rv with Some _ => rv | None => Some was end)
           | None => (n, None, match rv with Some _ => rv | None => Some b end)
           end
  end.

Lemma view_squash_old (S prev : undo_state B) i id :
  view (squash_old S prev i) id
  = if decide (i = id) then view_old (old_values S !! id) (view prev id) else view prev id.
Proof.
  unfold squash_old, view_old, view, map_emplace. destruct (decide (i = id)) as [->|Hne].
  - destruct (old_values S !! id) eqn:HS; [|done].
    destruct (decide (id ∈ new_ids prev)); [by rewrite bool_decide_eq_true_2|].
    rewrite (bool_decide_eq_false_2 (id ∈ new_ids prev)) by done.
    destruct (old_values prev !! id) eqn:Hp; cbn; [by rewrite Hp, bool_decide_eq_false_2|].
    by rewrite lookup_insert_eq, bool_decide_eq_false_2.
  - destruct (old_values S !! i) eqn:HS; [|done]. case_decide; [done|].
    destruct (old_values prev !! i) eqn:Hp; [done|]. cbn. by rewrite lookup_insert_ne.
Qed.

Lemma view_squash_removed (S prev : undo_state B) i id :
  view (squash_removed S prev i) id
  = if decide (i = id) then view_removed (removed_values S !! id) (view prev id) else view prev id.
Proof.
  unfold squash_removed, view_removed, view, map_emplace. destruct (decide (i = id)) as [->|Hne].
  - destruct (removed_values S !! id) eqn:HS; [|done].
    destruct (decide (id ∈ new_ids prev)).
    + rewrite (bool_decide_eq_true_2 (id ∈ new_ids prev)) by done. cbn.
      by rewrite bool_decide_eq_false_2 by set_solver.
    + rewrite (bool_decide_eq_false_2 (id ∈ new_ids prev)) by done.
      destruct (old_values prev !! id) eqn:Hp; cbn;
        rewrite ?lookup_delete_eq, ?Hp, bool_decide_eq_false_2 by done; repeat f_equal;
        destruct (removed_values prev !! id) eqn:Hr; rewrite ?Hr, ?lookup_insert_eq; done.
  - destruct (removed_values S !! i) eqn:HS; [|done]. case_decide.
    + cbn. do 2 f_equal. apply bool_decide_ext. set_solver.
    + destruct (old_values prev !! i) eqn:Hp; cbn; rewrite ?lookup_delete_ne by done; f_equal;
        destruct (removed_values prev !! i); rewrite ?lookup_insert_ne by done; done.
Qed.

(** Folding a step that touches one object at a time touches every object of
    a duplicate-free list once. *)
Lemma view_fold (f : undo_state B -> Z -> undo_state B)
    (g : Z -> bool * option B * option B -> bool * option B * option B) :
  (forall st i id, view (f st i) id = if decide (i = id) then g id (view st id) else view st id) ->
  forall ids st id, NoDup ids ->
  view (fold_left f ids st) id = if decide (id ∈ ids) then g id (view st id) else view st id.
Proof.
  intros Hf. induction ids as [|i ids IH]; intros st id Hnd; cbn.
  { case_decide; [set_solver|done]. }
  apply NoDup_cons in Hnd as [Hi Hnd]. rewrite IH, Hf by done.
  destruct (decide (i = id)) as [->|Hne].
  - by rewrite decide_False, decide_True by set_solver.
  - destruct (decide (id ∈ ids)); [by rewrite decide_True by set_solver|by rewrite decide_False by set_solver].
Qed.

Lemma if_in_dom {A} (m : gmap Z B) id (f : option B -> A) v :
  f None = v -> (if decide (id ∈ ascending (dom m)) then f (m !! id) else v) = f (m !! id).
Proof.
  intros Hf. case_decide as Hin; [done|]. rewrite elem_of_ascending, elem_of_dom in Hin.
  destruct (m !! id); [exfalso; eauto|done].
Qed.

Lemma view_squash_states (S prev : undo_state B) id :
  view (squash_states S prev) id
  = view_removed (removed_values S !! id)
      (let '(n, ov, rv) := view_old (old_values S !! id) (view prev id) in
       (bool_decide (id ∈ new_ids S) || n, ov, rv)).
Proof.
  unfold squash_states.
  rewrite (view_fold _ (fun id => view_removed (removed_values S !! id)))
    by (apply view_squash_removed || apply NoDup_ascending).
  assert (forall st, view (squash_new S st) id =
    let '(n, ov, rv) := view st id in (bool_decide (id ∈ new_ids S) || n, ov, rv)) as Hnew.
  { intros st. unfold view, squash_new. cbn. do 2 f_equal. apply eq_bool_prop_intro.
    rewrite bool_decide_spec, orb_True, !bool_decide_spec. set_solver. }
  rewrite Hnew, (view_fold _ (fun id => view_old (old_values S !! id)))
    by (apply view_squash_old || apply NoDup_ascending).
  rewrite (if_in_dom (old_values S) id (fun o => view_old o (view prev id)))
    by (by destruct (view prev id) as [[??]?]).
  rewrite (if_in_dom (removed_values S) id (fun o => view_removed o _)); [done|].
  by destruct (view_old _ _) as [[??]?].
Qed.

Lemma squash_keeps (S prev : undo_state B) :
  old_next_id (squash_states S prev) = old_next_id prev
  /\ undo_revision (squash_states S prev) = undo_revision prev.
Proof.
  assert (forall (f : undo_state B -> Z -> undo_state B),
    (forall st i, old_next_id (f st i) = old_next_id st /\ undo_revision (f st i) = undo_revision st) ->
    forall ids st, old_next_id (fold_left f ids st) = old_next_id st
                   /\ undo_revision (fold_left f ids st) = undo_revision st) as Hfold.
  { intros f Hf. induction ids as [|i ids IH]; intros st; [done|]. cbn.
    destruct (IH (f st i)) as [-> ->]. apply Hf. }
  unfold squash_states.
  edestruct (Hfold (squash_removed S)) as [-> ->].
  { intros st i. unfold squash_removed. repeat case_match; done. }
  cbn. apply Hfold. intros st i. unfold squash_old. repeat case_match; done.
Qed.

(** The composition table of the comment in [squash], read as one statement:
    if the older record takes [old] to [mid] and the newer [mid] to [cur], the
    merged record takes [old] to [cur].  The newer state cannot create an
    object that existed before the older one. *)
Lemma entry_squash nA oA rA nB oB rB cur mid old :
  entry (nA, oA, rA) mid old -> entry (nB, oB, rB) cur mid -> (nB = true -> old = None) ->
  entry (view_removed rB (let '(n, ov, rv) := view_old oB (nA, oA, rA) in (nB || n, ov, rv))) cur old.
Proof.
  intros HA HB Hfresh. inversion HA; subst; inversion HB; subst; cbn;
    first [by constructor | by constructor; eapply same_keys_trans | by specialize (Hfresh eq_refl)].
Qed.

Lemma squash_delta S prev cur next mid mid_next old old_next :
  delta S cur next mid mid_next -> delta prev mid mid_next old old_next -> fresh_from old old_next ->
  delta (squash_states S prev) cur next old old_next.
Proof.
  intros HS HP Hf. destruct (squash_keeps S prev) as [Hn _]. split.
  - rewrite Hn. apply HP.
  - pose proof (delta_le _ _ _ _ _ _ HS). pose proof (delta_le _ _ _ _ _ _ HP). lia.
  - intros id Hid.
    assert (id ∈ new_ids S \/ id ∈ new_ids prev) as [Hin|Hin].
    { apply (bool_decide_eq_true_2 (id ∈ _)) in Hid. revert Hid.
      change (bool_decide (id ∈ new_ids (squash_states S prev)))
        with ((view (squash_states S prev) id).1.1). rewrite view_squash_states.
      unfold view, view_old, view_removed. repeat case_bool_decide; cbn; repeat case_match; naive_solver. }
    + pose proof (delta_new _ _ _ _ _ _ HS id Hin). pose proof (delta_le _ _ _ _ _ _ HP). lia.
    + by apply (delta_new _ _ _ _ _ _ HP).
  - intros id. rewrite view_squash_states. apply (entry_squash _ _ _ _ _ _ _ (mid !! id)).
    + apply (delta_entry _ _ _ _ _ _ HP).
    + apply (delta_entry _ _ _ _ _ _ HS).
    + intros Hb%bool_decide_eq_true. destruct (old !! id) eqn:Ho; [|done].
      pose proof (Hf _ _ Ho). pose proof (delta_new _ _ _ _ _ _ HS id Hb).
      pose proof (delta_le _ _ _ _ _ _ HP). lia.
Qed.

(** *** Object operations change one record of the top state *)

Lemma delta_update st st' cur cur' next next' old old_next id :
  delta st cur next old old_next -> old_next_id st' = old_next_id st -> next <= next' ->
  (forall j, j <> id -> view st' j = view st j /\ cur' !! j = cur !! j) ->
  (id ∈ new_ids st' -> old_next <= id) ->
  entry (view st' id) (cur' !! id) (old !! id) ->
  delta st' cur' next' old old_next.
Proof.
  intros [H1 H2 H3 H4] Hn Hle Hother Hnew He. split; [congruence|lia| |].
  - intros j Hj. destruct (decide (j = id)) as [->|Hne]; [auto|].
    destruct (Hother j Hne) as [Hv _]. apply H3. apply (f_equal (fun v => v.1.1)) in Hv. cbn in Hv.
    rewrite bool_decide_eq_true_2 in Hv by done. symmetry in Hv. by apply bool_decide_eq_true in Hv.
  - intros j. destruct (decide (j = id)) as [->|Hne]; [done|].
    destruct (Hother j Hne) as [-> ->]. apply H4.
Qed.

Lemma unique_insert m id b :
  unique m -> violates m id b = false -> unique (<[id := b]> m).
Proof.
  rewrite violates_false. intros Hu Hv i j x y Hij. rewrite !lookup_insert.
  repeat case_decide; subst; intros; simplify_eq; eauto.
Qed.

Lemma unique_modify m id b b' :
  unique m -> m !! id = Some b -> same_keys b b' -> violates m id b' = false.
Proof.
  intros Hu Hb Hk. apply violates_false. intros j c Hj Hc. rewrite <- Hk. by apply (Hu id j).
Qed.

Lemma unique_delete m id : unique m -> unique (delete id m).
Proof. intros Hu i j x y Hij [_ Hx]%lookup_delete_Some [_ Hy]%lookup_delete_Some. eauto. Qed.

Lemma fresh_insert (m : gmap Z B) next next' id b :
  fresh_from m next -> next <= next' -> id < next' -> fresh_from (<[id := b]> m) next'.
Proof.
  intros Hf Hle Hid j c. rewrite lookup_insert. case_decide; [lia|]. intros Hj. specialize (Hf _ _ Hj). lia.
Qed.

Lemma stack_create stack r cur next saved c :
  stack_rel stack r cur next saved -> fresh_from cur next ->
  stack_rel (_stack (on_create next (mk_index stack r (next + 1) (<[next := c]> cur)))) r
    (<[next := c]> cur) (next + 1) saved.
Proof.
  intros Hs Hf. destruct Hs as [|st stack r cur next old old_next saved Hr Hd Hu Hof Hs]; cbn; [constructor|].
  econstructor; [done| |done..]. eapply (delta_update _ _ _ _ _ _ _ _ next Hd); cbn; [done|lia| | |].
  - intros j Hj. unfold view. cbn. rewrite lookup_insert_ne by done. split; [|done].
    do 2 f_equal. apply bool_decide_ext. set_solver.
  - intros _. apply Hd.
  - pose proof (delta_entry _ _ _ _ _ _ Hd next) as He. unfold view in *. cbn.
    rewrite lookup_insert_eq, bool_decide_eq_true_2 by set_solver.
    assert (cur !! next = None) as Hc.
    { destruct (cur !! next) eqn:Hc; [|done]. specialize (Hf _ _ Hc). lia. }
    assert (old !! next = None) as Ho.
    { destruct (old !! next) eqn:Ho; [|done]. specialize (Hof _ _ Ho).
      pose proof (delta_le _ _ _ _ _ _ Hd). lia. }
    rewrite Hc, Ho in He. rewrite Ho. inversion He; subst. constructor.
Qed.

(** The three possible records of an object that is stored now. *)
Lemma entry_stored n ov rv b o :
  entry (n, ov, rv) (Some b) o ->
  rv = None /\ ((n = true /\ ov = None /\ o = None) \/ (n = false /\ ov = None /\ o = Some b)
                \/ (n = false /\ exists b0, ov = Some b0 /\ o = Some b0 /\ same_keys b0 b)).
Proof. inversion 1; subst; naive_solver. Qed.

Lemma stack_modify stack r cur next saved id b b' :
  stack_rel stack r cur next saved -> cur !! id = Some b -> same_keys b b' ->
  stack_rel (_stack (on_modify id b (mk_index stack r next cur))) r (<[id := b']> cur) next saved.
Proof.
  intros Hs Hb Hk. destruct Hs as [|st stack r cur next old old_next saved Hr Hd Hu Hof Hs]; [constructor|].
  pose proof (delta_entry _ _ _ _ _ _ Hd id) as He. rewrite Hb in He.
  apply entry_stored in He as (Hrv & He). unfold on_modify. cbn [_stack].
  destruct He as [(Hn & Hov & Ho)|[(Hn & Hov & Ho)|(Hn & b0 & Hov & Ho & Hk0)]];
    (apply bool_decide_eq_true in Hn as Hin || apply bool_decide_eq_false in Hn as Hin).
  - rewrite decide_True by done. econstructor; [done| |done..].
    eapply (delta_update _ _ _ _ _ _ _ _ id Hd); [done..| | |].
    + intros j Hj. by rewrite lookup_insert_ne.
    + apply Hd.
    + unfold view. rewrite lookup_insert_eq, Hn, Hov, Hrv, Ho. constructor.
  - rewrite decide_False, Hov by done. econstructor; [done| |done..].
    eapply (delta_update _ _ _ _ _ _ _ _ id Hd); cbn; [done..| |done|].
    + intros j Hj. unfold view. cbn. by rewrite !lookup_insert_ne.
    + unfold view. cbn. rewrite !lookup_insert_eq, Hn, Hrv, Ho. by constructor.
  - rewrite decide_False, Hov by done. econstructor; [done| |done..].
    eapply (delta_update _ _ _ _ _ _ _ _ id Hd); [done..| |done|].
    + intros j Hj. by rewrite lookup_insert_ne.
    + unfold view. rewrite lookup_insert_eq, Hn, Hov, Hrv, Ho. constructor. by eapply same_keys_trans.
Qed.

Lemma stack_remove stack r cur next saved id b :
  stack_rel stack r cur next saved -> cur !! id = Some b ->
  stack_rel (_stack (on_remove id b (mk_index stack r next cur))) r (delete id cur) next saved.
Proof.
  intros Hs Hb. destruct Hs as [|st stack r cur next old old_next saved Hr Hd Hu Hof Hs]; [constructor|].
  pose proof (delta_entry _ _ _ _ _ _ Hd id) as He. rewrite Hb in He.
  apply entry_stored in He as (Hrv & He). unfold on_remove, map_emplace. cbn [_stack]. rewrite Hrv.
  destruct He as [(Hn & Hov & Ho)|[(Hn & Hov & Ho)|(Hn & b0 & Hov & Ho & Hk0)]];
    (apply bool_decide_eq_true in Hn as Hin || apply bool_decide_eq_false in Hn as Hin).
  - rewrite decide_True by done. cbn. econstructor; [done| |done..].
    eapply (delta_update _ _ _ _ _ _ _ _ id Hd); cbn; [done..| |set_solver|].
    + intros j Hj. unfold view. cbn. rewrite lookup_delete_ne by done. split; [|done].
      do 2 f_equal. apply bool_decide_ext. set_solver.
    + unfold view. cbn. rewrite lookup_delete_eq, bool_decide_eq_false_2, Hov, Hrv, Ho by set_solver.
      constructor.
  - rewrite decide_False, Hov by done. cbn. econstructor; [done| |done..].
    eapply (delta_update _ _ _ _ _ _ _ _ id Hd); cbn; [done..| |done|].
    + intros j Hj. unfold view. cbn. by rewrite lookup_insert_ne, lookup_delete_ne.
    + unfold view. cbn. rewrite lookup_insert_eq, lookup_delete_eq, Hn, Hov, Ho. constructor.
  - rewrite decide_False, Hov by done. cbn. econstructor; [done| |done..].
    eapply (delta_update _ _ _ _ _ _ _ _ id Hd); cbn; [done..| |done|].
    + intros j Hj. unfold view. cbn. by rewrite lookup_insert_ne, !lookup_delete_ne.
    + unfold view. cbn. rewrite lookup_insert_eq, !lookup_delete_eq, Hn, Ho. constructor.
Qed.

(** *** [commit] and [undo_all] *)

Lemma pop_front_while_app q (l1 : list (undo_state B)) st :
  pop_front_while q (l1 ++ [st])
  = match pop_front_while q l1 with
    | [] => if undo_revision st <=? q then [] else [st]
    | l => l ++ [st]
    end.
Proof. induction l1 as [|s l1 IH]; cbn; [done|]. destruct (undo_revision s <=? q); [done|]. done. Qed.

Lemma commit_take stack r cur next saved q :
  stack_rel stack r cur next saved ->
  rev (pop_front_while q (rev stack)) = take (Z.to_nat (r - q)) stack.
Proof.
  induction 1 as [|st stack r cur next old old_next saved Hr Hd Hu Hof Hs IH]; [by rewrite take_nil|].
  cbn. rewrite pop_front_while_app.
  assert (Hlen : pop_front_while q (rev stack) = rev (take (Z.to_nat (r - 1 - q)) stack)).
  { rewrite <- IH. by rewrite rev_involutive. }
  rewrite Hlen, Hr. destruct (Z.leb_spec r q).
  - replace (Z.to_nat (r - 1 - q)) with 0%nat by lia. replace (Z.to_nat (r - q)) with 0%nat by lia. done.
  - replace (Z.to_nat (r - q)) with (S (Z.to_nat (r - 1 - q))) by lia. cbn.
    destruct (rev (take (Z.to_nat (r - 1 - q)) stack)) eqn:Ht.
    + apply (f_equal (@rev _)) in Ht. rewrite rev_involutive in Ht. cbn in Ht. rewrite Ht. done.
    + rewrite app_comm_cons, <- Ht, rev_app_distr, rev_involutive. done.
Qed.

Lemma stack_rel_take stack r cur next saved k :
  stack_rel stack r cur next saved -> stack_rel (take k stack) r cur next (take k saved).
Proof.
  intros Hs. revert k. induction Hs; intros k; [rewrite !take_nil; constructor|].
  destruct k; cbn; [constructor|]. econstructor; eauto.
Qed.

Lemma undo_all_stack stack r cur next saved :
  stack_rel stack r cur next saved ->
  forall fuel, (length stack <= fuel)%nat ->
  undo_all_loop conflict fuel (mk_index stack r next cur)
  = (Ok tt, match last saved with
            | None => mk_index stack r next cur
            | Some (objs, n) => mk_index [] (r - Z.of_nat (length saved)) n objs
            end).
Proof.
  induction 1 as [|st stack r cur next old old_next saved Hr Hd Hu Hof Hs IH]; intros fuel Hfuel.
  { by destruct fuel. }
  destruct fuel as [|fuel]; [cbn in Hfuel; lia|]. cbn [undo_all_loop enabled _stack].
  unfold mbind, M_bind. rewrite (undo_delta _ _ _ _ _ _ _ Hd Hu).
  rewrite IH by (cbn in Hfuel; lia). f_equal. destruct saved as [|p saved]; [|rewrite last_cons_cons].
  - by inversion Hs; subst.
  - destruct (last (p :: saved)) as [[objs n]|] eqn:Hl; [cbn; f_equal; lia|]. by apply last_None in Hl.
Qed.

(** *** The simulation *)

Lemma simulates_op o gi s :
  simulates gi s -> keeps_keys conflict o ->
  (run_op conflict o gi).1 = (spec_op conflict o s).1
  /\ simulates (run_op conflict o gi).2 (spec_op conflict o s).2.
Proof.
  destruct gi as [stack r next cur], s as [objs snext saved srev].
  intros [Ho Hn Hr Hu Hf Hs] Hk. cbn in *. subst objs snext srev. destruct o as [c|id m|id| | | |q|]; cbn.
  - unfold emplace, mbind, M_bind. cbn.
    destruct (cur !! next) eqn:Hc; [specialize (Hf _ _ Hc); lia|].
    destruct (violates cur next c) eqn:Hv; cbn; [by split|]. split; [done|].
    pose proof (stack_create _ _ _ _ _ c Hs Hf) as Hs'.
    assert (_indices (on_create next (mk_index stack r (next + 1) (<[next:=c]> cur))) = <[next:=c]> cur
      /\ _next_id (on_create next (mk_index stack r (next + 1) (<[next:=c]> cur))) = next + 1
      /\ _revision (on_create next (mk_index stack r (next + 1) (<[next:=c]> cur))) = r) as (? & ? & ?).
    { unfold on_create. by destruct stack. }
    split; cbn; try done.
    + by apply unique_insert.
    + eapply fresh_insert; [done|lia..].
  - unfold index_modify. cbn. destruct (cur !! id) as [b|] eqn:Hb; cbn; [|by split].
    pose proof (stack_modify _ _ _ _ _ id b (m b) Hs Hb (Hk b)) as Hs'.
    assert (_indices (on_modify id b (mk_index stack r next cur)) = cur
      /\ _next_id (on_modify id b (mk_index stack r next cur)) = next
      /\ _revision (on_modify id b (mk_index stack r next cur)) = r) as (-> & Hn' & Hr').
    { unfold on_modify. cbn. repeat case_match; done. }
    rewrite (unique_modify _ _ _ _ Hu Hb (Hk b)). cbn. split; [done|].
    split; cbn; try done.
    + apply unique_insert; [done|]. by eapply unique_modify.
    + eapply fresh_insert; [done|lia|by eapply Hf].
  - unfold index_remove. cbn. destruct (cur !! id) as [b|] eqn:Hb; cbn; [|by split].
    pose proof (stack_remove _ _ _ _ _ id b Hs Hb) as Hs'.
    assert (_indices (on_remove id b (mk_index stack r next cur)) = cur
      /\ _next_id (on_remove id b (mk_index stack r next cur)) = next
      /\ _revision (on_remove id b (mk_index stack r next cur)) = r) as (-> & Hn' & Hr').
    { unfold on_remove. cbn. repeat case_match; done. }
    split; [done|]. split; cbn; try done; [by apply unique_delete|].
    intros j x [_ Hj]%lookup_delete_Some. eauto.
  - split; [done|]. split; cbn; try done. econstructor; try done; [|by rewrite Z.add_simpl_r].
    split; cbn; [done|lia|set_solver|]. intros j. unfold view. cbn.
    rewrite !lookup_empty, bool_decide_eq_false_2 by set_solver. constructor.
  - inversion Hs; subst; [by split|]. erewrite undo_delta by done. by split.
  - unfold squash. cbn. inversion Hs as [|? ? ? ? ? ? ? ? Hr Hd Hou Hof Hs']; subst; [by split|].
    split; [by inversion Hs'; subst|].
    inversion Hs' as [|? ? ? ? ? ? ? ? Hr' Hd' Hou' Hof' Hs'']; subst; split; cbn; try done; [constructor|].
    econstructor; try done; [by rewrite (proj2 (squash_keeps _ _))|]. by eapply squash_delta.
  - split; [done|]. split; cbn; try done. rewrite (commit_take _ _ _ _ _ _ Hs). by apply stack_rel_take.
  - unfold undo_all. rewrite (undo_all_stack _ _ _ _ _ Hs) by done. cbn.
    destruct (last saved) as [[objs n]|] eqn:Hl; cbn; [|by split]. split; [done|].
    assert (unique objs /\ fresh_from objs n) as [? ?].
    { clear - Hs Hl. induction Hs as [|? ? ? ? ? ? ? ? ? ? ? ? Hs IH]; [done|].
      destruct saved; [|auto]. by simplify_eq/=. }
    split; cbn; try done. constructor.
Qed.

Lemma simulates_ops ops : forall gi s,
  simulates gi s -> Forall (keeps_keys conflict) ops ->
  (run_ops conflict ops gi).1 = (spec_ops conflict ops s).1
  /\ simulates (run_ops conflict ops gi).2 (spec_ops conflict ops s).2.
Proof.
  induction ops as [|o ops IH]; intros gi s Hsim Hk; [by split|].
  apply Forall_cons in Hk as [Ho Hk]. destruct (simulates_op o gi s Hsim Ho) as [Hr Hsim'].
  cbn. destruct (run_op conflict o gi) as [r gi'], (spec_op conflict o s) as [r' s']. cbn in *. subst r'.
  destruct (IH gi' s' Hsim' Hk) as [Hrs Hsim''].
  destruct (run_ops conflict ops gi'), (spec_ops conflict ops s'). cbn in *. by subst.
Qed.

Lemma simulates_empty : simulates index_empty snapshots_empty.
Proof. split; cbn; try done. constructor. Qed.

(** The states an index can reach from the empty one. *)
Definition reachable (gi : generic_index B) : Prop :=
  exists ops, Forall (keeps_keys conflict) ops /\ gi = (run_ops conflict ops index_empty).2.

Lemma reachable_simulates gi : reachable gi -> exists s, simulates gi s.
Proof.
  intros (ops & Hk & ->). eexists.
  apply (simulates_ops ops _ _ simulates_empty Hk).
Qed.

Definition on_object (o : op B) : Prop :=
  match o with OpCreate _ | OpModify _ _ | OpRemove _ => True | _ => False end.

(** Object operations leave everything below the top undo state alone. *)
Lemma object_op_stack o gi st stack :
  on_object o -> _stack gi = st :: stack ->
  exists st', _stack (run_op conflict o gi).2 = st' :: stack
              /\ _revision (run_op conflict o gi).2 = _revision gi.
Proof.
  destruct gi as [stk r next cur]. intros Ho Hs. cbn in Hs. subst stk.
  destruct o; try done; cbn; unfold emplace, index_modify, index_remove, on_create, on_modify, on_remove,
    mbind, M_bind, set_indices; cbn; repeat case_match; simplify_eq/=; eauto.
Qed.

Lemma object_ops_stack ops : forall gi st stack,
  Forall on_object ops -> _stack gi = st :: stack ->
  exists st', _stack (run_ops conflict ops gi).2 = st' :: stack
              /\ _revision (run_ops conflict ops gi).2 = _revision gi.
Proof.
  induction ops as [|o ops IH]; intros gi st stack Ho Hs; cbn; [eauto|].
  apply Forall_cons in Ho as [Ho Hos]. destruct (object_op_stack o gi st stack Ho Hs) as (st' & Hs' & Hr').
  destruct (run_op conflict o gi) as [r gi']. cbn in *.
  destruct (IH gi' st' stack Hos Hs') as (st'' & Hs'' & Hr''). rewrite <- Hr'.
  destruct (run_ops conflict ops gi'). eauto.
Qed.

Lemma object_ops_saved ops : forall s,
  Forall on_object ops -> s_saved (spec_ops conflict ops s).2 = s_saved s.
Proof.
  induction ops as [|o ops IH]; intros s Ho; cbn; [done|].
  apply Forall_cons in Ho as [Ho Hos].
  assert (s_saved (spec_op conflict o s).2 = s_saved s) as Hs.
  { destruct s. destruct o; try done; cbn; repeat case_match; done. }
  destruct (spec_op conflict o s) as [r s']. cbn in *. specialize (IH s' Hos).
  destruct (spec_ops conflict ops s'). by rewrite <- Hs.
Qed.

(** Undoing the session that was opened at [gi] gives back [gi]. *)
Lemma undo_session_exact gi s ops :
  simulates gi s -> Forall (keeps_keys conflict) ops -> Forall on_object ops ->
  undo conflict (run_ops conflict ops (start_undo_session true gi).2).2 = (Ok tt, gi).
Proof.
  intros Hsim Hk Ho.
  destruct (simulates_op OpStart gi s Hsim I) as [_ Hsim1]. cbn in Hsim1.
  set (gi1 := mk_index _ _ _ _) in Hsim1. change (start_undo_session true gi).2 with gi1.
  destruct (simulates_ops ops gi1 _ Hsim1 Hk) as [_ Hsim2].
  destruct (object_ops_stack ops gi1 _ (_stack gi) Ho eq_refl) as (st' & Hst & Hrev).
  pose proof (object_ops_saved ops (spec_op conflict OpStart s).2 Ho) as Hsaved.
  destruct (run_ops conflict ops gi1) as [rs [stk r2 next2 cur2]].
  destruct (spec_ops conflict ops (spec_op conflict OpStart s).2) as [rs' s2]. cbn in *. subst stk r2.
  destruct Hsim2 as [Hobj Hn Hr _ _ Hs]. cbn in *. destruct s as [objs n saved sr]. cbn in *.
  rewrite Hsaved in Hs. inversion Hs as [|? ? ? ? ? ? ? ? ? Hd Hu ? ?]; subst.
  erewrite undo_delta by done. destruct gi as [stk rev nx ind]. destruct Hsim as [Ho1 Hn1 Hr1 _ _ _].
  cbn in *. subst. do 2 f_equal. lia.
Qed.
End Refinement.

(** ** Properties of an index *)

(** C1: for every sequence of operations (objects, sessions, squash, commit,
    undo, undo_all) whose modifiers keep the unique keys, the index and the
    stack-of-snapshots specification return the same results (in particular
    no [undo] aborts or fails) and end with the same objects, the same next id,
    the same revision and the same number of open sessions. *)
Theorem chainbase_refines_snapshots {B : Type} (conflict : B -> B -> bool) (ops : list (op B)) :
  (forall b c, conflict b c = conflict c b) ->
  Forall (keeps_keys conflict) ops ->
  let (rs, gi) := run_ops conflict ops index_empty in
  let (rs', s) := spec_ops conflict ops snapshots_empty in
  rs = rs' /\ _indices gi = s_objects s /\ _next_id gi = s_next_id s
  /\ _revision gi = s_revision s /\ length (_stack gi) = length (s_saved s).
Proof.
  intros Hsym Hk. destruct (simulates_ops conflict Hsym ops _ _ (simulates_empty conflict) Hk) as [Hr [? ? ? _ _ Hs]].
  destruct (run_ops conflict ops index_empty) as [rs gi].
  destruct (spec_ops conflict ops snapshots_empty) as [rs' s]. cbn in *.
  repeat split; try done. clear - Hs. induction Hs; cbn; congruence.
Qed.

(** A table of (key, value) rows whose keys are unique. *)
Definition row_conflict (a b : Z * Z) : bool := a.1 =? b.1.

Lemma row_conflict_sym a b : row_conflict a b = row_conflict b a.
Proof. apply Z.eqb_sym. Qed.

Definition demo_ops : list (op (Z * Z)) :=
  [OpCreate (1, 10); OpStart; OpModify 0 (fun b => (b.1, 11)); OpCreate (1, 5); OpCreate (2, 20);
   OpStart; OpRemove 0; OpRemove 1; OpCreate (3, 30); OpSquash; OpUndo].

Lemma chainbase_refines_snapshots_witness :
  let (rs, gi) := run_ops row_conflict demo_ops index_empty in
  let (rs', s) := spec_ops row_conflict demo_ops snapshots_empty in
  rs = rs' /\ _indices gi = s_objects s /\ _next_id gi = s_next_id s
  /\ _revision gi = s_revision s /\ length (_stack gi) = length (s_saved s).
Proof.
  apply (chainbase_refines_snapshots row_conflict demo_ops row_conflict_sym).
  unfold demo_ops. repeat constructor.
Defined.

(** The run above: the second creation with key 1 is refused, and undoing the
    squashed sessions leaves the row that existed before them. *)
Example demo_ops_result :
  let (rs, gi) := run_ops row_conflict demo_ops index_empty in
  _indices gi = {[ 0 := (1, 10) ]} /\ _next_id gi = 1 /\ rs !! 3%nat = Some (Err std_logic_error).
Proof. vm_compute. done. Qed.

(** opening a session at a reachable index, running any object operations
    (whether they succeed or throw) and undoing the session gives back exactly
    the index the session was opened at: objects, next id, revision and the
    whole undo stack. *)
Theorem undo_restores_index {B : Type} (conflict : B -> B -> bool) (gi : generic_index B) (ops : list (op B)) :
  (forall b c, conflict b c = conflict c b) ->
  reachable conflict gi ->
  Forall (keeps_keys conflict) ops -> Forall on_object ops ->
  undo conflict (run_ops conflict ops (start_undo_session true gi).2).2 = (Ok tt, gi).
Proof.
  intros Hsym Hreach Hk Ho. destruct (reachable_simulates conflict Hsym gi Hreach) as [s Hs].
  by eapply undo_session_exact.
Qed.

Lemma undo_restores_index_witness :
  let gi := (run_ops row_conflict demo_ops index_empty).2 in
  let ops := [OpModify 0 (fun b => (b.1, 99)); OpRemove 0; OpCreate (1, 7); OpCreate (1, 8)] in
  undo row_conflict (run_ops row_conflict ops (start_undo_session true gi).2).2 = (Ok tt, gi).
Proof.
  apply undo_restores_index; [exact row_conflict_sym| |repeat constructor|repeat constructor].
  exists demo_ops. split; [repeat constructor|reflexivity].
Defined.

(** squashing the two newest sessions and undoing the result leaves the
    same objects, next id and revision as undoing both. *)
Theorem squash_then_undo {B : Type} (conflict : B -> B -> bool) (gi : generic_index B) :
  (forall b c, conflict b c = conflict c b) ->
  reachable conflict gi -> (2 <= length (_stack gi))%nat ->
  exists gi', undo conflict (squash gi) = (Ok tt, gi')
    /\ (undo conflict gi).1 = Ok tt /\ undo conflict (undo conflict gi).2 = (Ok tt, gi').
Proof.
  intros Hsym Hreach Hlen. destruct (reachable_simulates conflict Hsym gi Hreach) as [s [Ho Hn Hr _ _ Hs]].
  destruct gi as [stack r next cur]. cbn in *. subst.
  inversion Hs as [|st1 ? ? ? ? old1 n1 ? Hr1 Hd1 Hu1 Hf1 Hs1]; subst; [cbn in Hlen; lia|].
  inversion Hs1 as [|st2 ? ? ? ? old2 n2 ? Hr2 Hd2 Hu2 Hf2 Hs2]; subst; [cbn in Hlen; lia|].
  erewrite (undo_delta conflict Hsym _ _ _ _ _ _ _ Hd1 Hu1). cbn [fst snd].
  erewrite (undo_delta conflict Hsym _ _ _ _ _ _ _ Hd2 Hu2).
  unfold squash. cbn [_stack _revision _next_id _indices].
  pose proof (squash_delta conflict Hsym _ _ _ _ _ _ _ _ Hd1 Hd2 Hf2) as Hd.
  erewrite (undo_delta conflict Hsym _ _ _ _ _ _ _ Hd Hu2). eauto.
Qed.

Lemma squash_then_undo_witness :
  let gi := (run_ops row_conflict [OpCreate (1, 10); OpStart; OpModify 0 (fun b => (b.1, 11)); OpStart; OpRemove 0]
               index_empty).2 in
  exists gi', undo row_conflict (squash gi) = (Ok tt, gi')
    /\ (undo row_conflict gi).1 = Ok tt /\ undo row_conflict (undo row_conflict gi).2 = (Ok tt, gi').
Proof.
  apply squash_then_undo; [exact row_conflict_sym| |vm_compute; lia].
  eexists. split; [|reflexivity]. repeat constructor.
Defined.
