(* ===== verification/Database.v ===== *)
(** * chainbase: the database and its sessions

    Models the class [database] of [chainbase.hpp] and [chainbase.cpp]: the
    list of its indices (each behind the type-erased [abstract_index]), the
    operations it forwards to all of them, the nested class
    [database::session], and the registration of an index with [add_index].
    Memory mapping and locking are not modelled. *)

From S2P Require Import Prelude Chainbase.

(** [abstract_index]: an index with the type of its objects hidden. *)
Record some_index : Type := mk_some {
  ix_type_id : Z;
  ix_payload : Type;
  ix_conflict : ix_payload -> ix_payload -> bool;
  ix_index : generic_index ix_payload }.

Definition with_index (ix : some_index) (gi : generic_index (ix_payload ix)) : some_index :=
  mk_some (ix_type_id ix) (ix_payload ix) (ix_conflict ix) gi.

(** The indices in the order in which they were added. *)
Abbreviation database := (list some_index).

(** A loop [for( auto& item : _index_list )] over a fallible operation. *)
Fixpoint each (f : forall ix : some_index, M (generic_index (ix_payload ix)) unit)
    (db : database) : res unit * database :=
  match db with
  | [] => (Ok tt, [])
  | ix :: db =>
      match f ix (ix_index ix) with
      | (Err e, gi) => (Err e, with_index ix gi :: db)
      | (Ok _, gi) => let (r, db) := each f db in (r, with_index ix gi :: db)
      end
  end.

Definition database_undo : M database unit := each (fun ix => undo (ix_conflict ix)).
Definition database_squash (db : database) : database :=
  map (fun ix => with_index ix (squash (ix_index ix))) db.
Definition database_commit (revision : Z) (db : database) : database :=
  map (fun ix => with_index ix (commit revision (ix_index ix))) db.
Definition database_undo_all : M database unit := each (fun ix => undo_all (ix_conflict ix)).
Definition database_set_revision (revision : Z) : M database unit := each (fun ix => set_revision revision).

Definition database_revision (db : database) : Z :=
  match db with [] => -1 | ix :: _ => _revision (ix_index ix) end.

(** ** Sessions of the database *)
Record database_session : Type := mk_database_session {
  _index_sessions : list session;
  _database_session_revision : Z }.

(** [session( vector<unique_ptr<abstract_session>>&& )]. *)
Definition database_session_new (ss : list session) : database_session :=
  mk_database_session ss match ss with [] => -1 | s :: _ => _session_revision s end.

(** [index_impl::start_undo_session] moves the session of the index into a
    [session_impl] on the heap. *)
Definition abstract_start_undo_session (enable : bool) (ix : some_index) : session * some_index :=
  let (s, gi) := start_undo_session enable (ix_index ix) in
  ((session_move s).1, with_index ix gi).

Definition database_start_undo_session (enable : bool) (db : database) : database_session * database :=
  if enable then
    let subs := map (abstract_start_undo_session enable) db in
    (database_session_new (map fst subs), map snd subs)
  else (mk_database_session [] (-1), db).

(** The loops over [_index_sessions]; session [i] acts on index [i]. *)
Fixpoint sessions_undo (ss : list session) (db : database) : res unit * database :=
  match ss, db with
  | s :: ss, ix :: db =>
      match session_undo (ix_conflict ix) s (ix_index ix) with
      | (Err e, gi) => (Err e, with_index ix gi :: db)
      | (Ok _, gi) => let (r, db) := sessions_undo ss db in (r, with_index ix gi :: db)
      end
  | _, _ => (Ok tt, db)
  end.

Fixpoint sessions_squash (ss : list session) (db : database) : database :=
  match ss, db with
  | s :: ss, ix :: db =>
      with_index ix (session_squash s (ix_index ix)).2 :: sessions_squash ss db
  | _, _ => db
  end.

Definition database_session_undo (s : database_session) (db : database)
    : res database_session * database :=
  match sessions_undo (_index_sessions s) db with
  | (Ok _, db) => (Ok (mk_database_session [] (_database_session_revision s)), db)
  | (Err e, db) => (Err e, db)
  end.

Definition database_session_squash (s : database_session) (db : database) : database_session * database :=
  (mk_database_session [] (_database_session_revision s), sessions_squash (_index_sessions s) db).

Definition database_session_push (s : database_session) : database_session :=
  mk_database_session [] (_database_session_revision s).

(** ** Registering an index *)

(** The loop that gives a new index as many empty sessions as the others. *)
Fixpoint catch_up {B} (fuel : nat) (last_revision : Z) (gi : generic_index B) : res (generic_index B) :=
  if _revision gi <? last_revision then
    match fuel with
    | O => Err out_of_fuel
    | S fuel => catch_up fuel last_revision (start_undo_session true gi).2
    end
  else Ok gi.

Definition range_eqb (a b : Z * Z) : bool := (a.1 =? b.1) && (a.2 =? b.2).

(** [add_index]: [found] is the index that the memory segment already holds
    under this type, if any; [conflict] the uniqueness test of the type. *)
Definition add_index {B} (type_id : Z) (conflict : B -> B -> bool) (found : option (generic_index B))
    (read_only : bool) (db : database) : res database :=
  _ ← eos_assert (negb (existsb (fun ix => ix_type_id ix =? type_id) db)) std_logic_error;
  '(idx, first_time_adding) ←
     match found with
     | Some gi => Ok (gi, false)
     | None => if read_only then Err std_runtime_error else Ok (index_empty, true)
     end;
  idx ←
     match db with
     | [] => Ok idx
     | first :: _ =>
         let expected := undo_stack_revision_range (ix_index first) in
         let added := undo_stack_revision_range idx in
         if range_eqb added expected then Ok idx
         else
           _ ← eos_assert first_time_adding std_logic_error;
           _ ← eos_assert (negb read_only) std_logic_error;
           idx ← (set_revision (u64 expected.1) idx).1 ≫= fun _ => Ok (set_revision (u64 expected.1) idx).2;
           catch_up (Z.to_nat (expected.2 - expected.1)) expected.2 idx
     end;
  Ok (db ++ [mk_some type_id B conflict idx]).

(** ** Lockstep

    Every operation of the database acts on all its indices in the same way,
    so they agree on the revision and on the number of open sessions. *)
Definition shape {B} (gi : generic_index B) : Z * nat := (_revision gi, length (_stack gi)).

Definition index_ok (ix : some_index) : Prop :=
  (forall b c, ix_conflict ix b c = ix_conflict ix c b)
  /\ exists s, simulates (ix_conflict ix) (ix_index ix) s.

Definition database_ok (db : database) : Prop :=
  Forall index_ok db
  /\ exists sh, Z.of_nat sh.2 <= sh.1 /\ Forall (fun ix => shape (ix_index ix) = sh) db.

(** [touched ix ix']: some object operations turn [ix] into [ix']. *)
Inductive touched : some_index -> some_index -> Prop :=
| Touched ix ops :
    Forall (keeps_keys (ix_conflict ix)) ops -> Forall on_object ops ->
    touched ix (with_index ix (run_ops (ix_conflict ix) ops (ix_index ix)).2).

Inductive database_step : database -> database -> Prop :=
| step_objects db db' : Forall2 touched db db' -> database_step db db'
| step_start db : database_step db (database_start_undo_session true db).2
| step_undo db : database_step db (database_undo db).2
| step_squash db : database_step db (database_squash db)
| step_commit db q : database_step db (database_commit q db)
| step_undo_all db : database_step db (database_undo_all db).2
| step_set_revision db r : is_u64 r -> database_step db (database_set_revision r db).2
| step_add_index {B} db t (conflict : B -> B -> bool) db' :
    (forall b c, conflict b c = conflict c b) -> is_s64 (database_revision db) ->
    add_index t conflict None false db = Ok db' -> database_step db db'.

Definition op_shape {B} (o : op B) (sh : Z * nat) : Z * nat :=
  let (r, n) := sh in
  match o with
  | OpStart => (r + 1, S n)
  | OpUndo | OpSquash => match n with O => sh | S n => (r - 1, n) end
  | OpCommit q => (r, Nat.min (Z.to_nat (r - q)) n)
  | OpUndoAll => (r - Z.of_nat n, O)
  | _ => sh
  end.

Section Lockstep.
Context {B : Type} (conflict : B -> B -> bool).
Context (conflict_sym : forall b c, conflict b c = conflict c b).

Lemma simulates_shape gi s :
  simulates conflict gi s -> shape gi = (s_revision s, length (s_saved s)).
Proof.
  intros [_ _ Hr _ _ Hs]. unfold shape. f_equal; [done|]. clear Hr. induction Hs; cbn; congruence.
Qed.

Lemma spec_op_shape o (s : snapshots B) :
  let s' := (spec_op conflict o s).2 in
  (s_revision s', length (s_saved s')) = op_shape o (s_revision s, length (s_saved s)).
Proof.
  destruct s as [objs next saved r]. destruct o; cbn; try by repeat case_match.
  - destruct saved as [|[??] ?]; done.
  - destruct saved as [|[??] ?]; done.
  - by rewrite length_take.
  - destruct (last saved) as [[??]|] eqn:Hl; [done|]. apply last_None in Hl as ->. cbn. f_equal. lia.
Qed.

Lemma run_op_shape o gi s :
  simulates conflict gi s -> keeps_keys conflict o ->
  shape (run_op conflict o gi).2 = op_shape o (shape gi)
  /\ exists s', simulates conflict (run_op conflict o gi).2 s'.
Proof.
  intros Hsim Hk. destruct (simulates_op conflict conflict_sym o gi s Hsim Hk) as [_ Hsim'].
  split; [|eauto]. rewrite (simulates_shape _ _ Hsim'), (simulates_shape _ _ Hsim). apply spec_op_shape.
Qed.

Lemma undo_ok gi s : simulates conflict gi s -> (undo conflict gi).1 = Ok tt.
Proof.
  intros Hsim. destruct (simulates_op conflict conflict_sym OpUndo gi s Hsim I) as [Hr _].
  cbn [run_op] in Hr. rewrite Hr.
  destruct s as [? ? [|[??] ?] ?]; done.
Qed.

Lemma undo_all_ok gi s : simulates conflict gi s -> (undo_all conflict gi).1 = Ok tt.
Proof.
  intros Hsim. destruct (simulates_op conflict conflict_sym OpUndoAll gi s Hsim I) as [Hr _].
  cbn [run_op] in Hr. rewrite Hr.
  destruct s as [objs next saved r]. cbn. by destruct (last saved) as [[??]|].
Qed.

Lemma object_ops_shape ops : forall gi s,
  simulates conflict gi s -> Forall (keeps_keys conflict) ops -> Forall on_object ops ->
  shape (run_ops conflict ops gi).2 = shape gi.
Proof.
  induction ops as [|o ops IH]; intros gi s Hsim Hk Ho; [done|].
  apply Forall_cons in Hk as [Hk Hks]. apply Forall_cons in Ho as [Ho Hos].
  destruct (run_op_shape o gi s Hsim Hk) as [Hsh [s' Hsim']]. cbn.
  destruct (run_op conflict o gi) as [r gi']. cbn in *. specialize (IH gi' s' Hsim' Hks Hos).
  destruct (run_ops conflict ops gi'). cbn in *. rewrite IH, Hsh. destruct (shape gi). by destruct o.
Qed.

(** The revisions of the open sessions are consecutive. *)
Lemma revision_range gi s :
  simulates conflict gi s ->
  undo_stack_revision_range gi = ((shape gi).1 - Z.of_nat (shape gi).2, (shape gi).1).
Proof.
  intros [_ _ Hr _ _ Hs]. unfold undo_stack_revision_range, shape. cbn. rewrite Hr.
  destruct Hs as [|st stack r cur next old old_next saved Hst Hd Hu Hf Hs]; cbn; [f_equal; lia|].
  assert (forall st r, undo_revision st = r ->
    forall stack cur next saved, stack_rel conflict stack (r - 1) cur next saved ->
    exists front, last (st :: stack) = Some front /\ undo_revision front = r - Z.of_nat (length stack)) as Hlast.
  { clear. intros st r Hst stack. revert st r Hst. induction stack as [|st' stack IH]; intros st r Hst cur next saved Hs.
    - exists st. split; [done|cbn; lia].
    - inversion Hs as [|? ? ? ? ? ? ? ? Hst' ? ? ? Hs']; subst.
      destruct (IH st' _ Hst' _ _ _ Hs') as (front & Hl & Hf). exists front. rewrite last_cons_cons.
      split; [done|]. cbn [length]. lia. }
  destruct (Hlast st r Hst _ _ _ _ Hs) as (front & Hl & Hfr).
  change (match stack with [] => Some st | _ :: _ => last stack end) with (last (st :: stack)).
  rewrite Hl. f_equal; [lia|done].
Qed.

Lemma catch_up_ok fuel : forall gi s last_revision,
  simulates conflict gi s -> last_revision <= _revision gi + Z.of_nat fuel -> _revision gi <= last_revision ->
  exists gi', catch_up fuel last_revision gi = Ok gi'
    /\ shape gi' = (last_revision, (length (_stack gi) + Z.to_nat (last_revision - _revision gi))%nat)
    /\ exists s', simulates conflict gi' s'.
Proof.
  induction fuel as [|fuel IH]; intros gi s lr Hsim Hlo Hhi; cbn [catch_up].
  - destruct (Z.ltb_spec (_revision gi) lr); [lia|]. exists gi. split; [done|]. split; [|eauto].
    unfold shape. f_equal; lia.
  - destruct (Z.ltb_spec (_revision gi) lr).
    + destruct (run_op_shape OpStart gi s Hsim I) as [Hsh [s' Hsim']]. cbn in Hsh, Hsim'.
      destruct (IH _ s' lr Hsim') as (gi' & Hrun & Hsh' & Hs'); [cbn; lia..|].
      exists gi'. split; [exact Hrun|]. split; [|done]. rewrite Hsh'. f_equal. cbn. lia.
    + exists gi. split; [done|]. split; [|eauto]. unfold shape. f_equal; lia.
Qed.
End Lockstep.

(** A loop whose body succeeds on every index changes them all. *)
Lemma each_ok f db :
  Forall (fun ix => (f ix (ix_index ix)).1 = Ok tt) db ->
  each f db = (Ok tt, map (fun ix => with_index ix (f ix (ix_index ix)).2) db).
Proof.
  induction 1 as [|ix db Hix _ IH]; [done|]. cbn. destruct (f ix (ix_index ix)) as [r gi]. cbn in Hix.
  subst r. by rewrite IH.
Qed.

(** Changing every index by one operation, the same up to its type, keeps the
    database in lockstep. *)
Lemma database_ok_map (o : forall ix : some_index, op (ix_payload ix)) (g : Z * nat -> Z * nat) db :
  (forall ix, keeps_keys (ix_conflict ix) (o ix)) ->
  (forall ix sh, op_shape (o ix) sh = g sh) ->
  (forall sh, Z.of_nat sh.2 <= sh.1 -> Z.of_nat (g sh).2 <= (g sh).1) ->
  database_ok db ->
  database_ok (map (fun ix => with_index ix (run_op (ix_conflict ix) (o ix) (ix_index ix)).2) db).
Proof.
  intros Hk Hg Hle [Hok (sh & Hbase & Hsh)]. split.
  - apply Forall_map. apply (Forall_impl _ _ _ Hok). intros ix [Hsym [s Hs]]. split; [done|].
    apply (run_op_shape _ Hsym _ _ s Hs (Hk ix)).
  - exists (g sh). split; [auto|]. apply Forall_map, Forall_forall. intros ix Hin. rewrite Forall_forall in Hok, Hsh.
    destruct (Hok ix Hin) as [Hsym [s Hs]]. cbn.
    rewrite (proj1 (run_op_shape _ Hsym _ _ s Hs (Hk ix))), Hg, (Hsh ix Hin). done.
Qed.

Lemma index_ok_touched ix ix' :
  index_ok ix -> touched ix ix' -> index_ok ix' /\ shape (ix_index ix') = shape (ix_index ix).
Proof.
  intros Hok Ht. destruct Ht as [ix ops Hk Ho]. destruct Hok as [Hsym [s Hs]]. split.
  - split; [done|]. eexists. cbn. apply (simulates_ops _ Hsym ops _ s Hs Hk).
  - cbn. by eapply object_ops_shape.
Qed.

Lemma database_ok_touched db db' : database_ok db -> Forall2 touched db db' -> database_ok db'.
Proof.
  intros [Hok (sh & Hbase & Hsh)] Ht. split; [|exists sh; split; [done|]]; clear Hbase;
    induction Ht as [|ix ix' db db' Hix Ht IH]; try constructor;
    apply Forall_cons in Hok as [Hok Hoks]; apply Forall_cons in Hsh as [Hs Hss];
    destruct (index_ok_touched _ _ Hok Hix) as [? Hsame]; auto. congruence.
Qed.

Lemma database_ok_set_revision db r :
  0 <= r -> database_ok db -> database_ok (database_set_revision r db).2.
Proof.
  intros Hpos Hok. assert (forall ix : some_index, index_ok ix ->
     match _stack (ix_index ix) with
     | _ :: _ => set_revision r (ix_index ix) = (Err std_logic_error, ix_index ix)
     | [] => if r >? INT64_MAX then set_revision r (ix_index ix) = (Err std_logic_error, ix_index ix)
             else (set_revision r (ix_index ix)).1 = Ok tt
     end) as Hset.
  { intros ix _. unfold set_revision. destruct (_stack (ix_index ix)); [|done]. by destruct (r >? INT64_MAX). }
  destruct db as [|ix db]; [done|].
  destruct (set_revision r (ix_index ix)) as [[[]|e] gi] eqn:Hrun.
  - assert (Forall (fun ix => (set_revision r (ix_index ix)).1 = Ok tt) (ix :: db)) as Hall.
    { destruct Hok as [Hoks (sh & _ & Hsh)]. apply Forall_forall. intros ix' Hin.
      rewrite Forall_forall in Hoks, Hsh. pose proof (Hset ix' (Hoks _ Hin)) as H'.
      pose proof (Hset ix (Hoks ix (list_elem_of_here _ _))) as H0.
      pose proof (Hsh ix' Hin) as S'. rewrite <- (Hsh ix (list_elem_of_here _ _)) in S'.
      unfold shape in S'. injection S' as _ Hlen. rewrite Hrun in H0.
      destruct (_stack (ix_index ix)), (_stack (ix_index ix')); try done. by destruct (r >? INT64_MAX). }
    unfold database_set_revision. rewrite (each_ok (fun ix => set_revision r) _ Hall). cbn [snd].
    destruct Hok as [Hoks _]. split; [|exists (r, 0%nat); split; [done|]]; apply Forall_map, Forall_forall; intros ix' Hin;
      rewrite Forall_forall in Hoks, Hall; specialize (Hall _ Hin); destruct (Hoks _ Hin) as [Hsym [s Hs]];
      cbn in *; unfold set_revision in *; destruct (ix_index ix') as [[|st stack] r' n cur]; cbn in *; try done;
      destruct (r >? INT64_MAX); try done.
    split; [done|]. destruct s as [objs sn saved sr], Hs as [? ? ? ? ? Hst]. cbn in *. subst.
    exists (mk_snapshots objs sn [] r). split; cbn; try done. constructor.
  - assert (each (fun ix => set_revision r) (ix :: db) = (Err e, ix :: db)) as Heq;
      [|unfold database_set_revision; by rewrite Heq].
    cbn. rewrite Hrun. do 2 f_equal. unfold set_revision in Hrun.
    destruct ix as [t P c [stk r' n cur]]. cbn in *. repeat case_match; simplify_eq; done.
Qed.

Lemma database_ok_add_index {B} t (conflict : B -> B -> bool) db db' :
  (forall b c, conflict b c = conflict c b) -> is_s64 (database_revision db) -> database_ok db ->
  add_index t conflict None false db = Ok db' -> database_ok db'.
Proof.
  intros Hsym Hs64 [Hoks ([r n] & Hbase & Hsh)] Hadd. cbn in Hbase. unfold add_index in Hadd.
  apply res_bind_ok in Hadd as ([] & _ & Hadd). cbn [mbind res_bind] in Hadd.
  apply res_bind_ok in Hadd as (idx & Hidx & [= <-]).
  assert (exists s, simulates conflict idx s /\ Z.of_nat (shape idx).2 <= (shape idx).1
            /\ Forall (fun ix => shape (ix_index ix) = shape idx) db) as (s & Hs & Hbase' & Hall).
  { destruct db as [|first db].
    { injection Hidx as <-. exists snapshots_empty. split; [apply simulates_empty|]. split; [done|constructor]. }
    apply Forall_cons in Hoks as [[Hsym1 [s1 Hs1]] _]. pose proof (Forall_inv Hsh) as Hsh1. cbn in Hsh1.
    rewrite (revision_range _ _ _ Hs1), Hsh1 in Hidx. cbn [fst snd] in Hidx.
    assert (r < 2 ^ 63) as Hr by (injection Hsh1 as Hr _; widths; cbn in Hs64; lia).
    destruct (range_eqb _ _) eqn:Hrange.
    - injection Hidx as <-. apply andb_true_iff in Hrange as [H1%Z.eqb_eq H2%Z.eqb_eq]. cbn in H1, H2.
      exists snapshots_empty. split; [apply simulates_empty|]. split; [done|].
      replace (shape (@index_empty B)) with (r, n); [done|]. unfold shape. cbn. f_equal; lia.
    - cbn in Hidx. rewrite u64_id in Hidx by (widths; lia).
      destruct (r - Z.of_nat n >? INT64_MAX); [done|]. cbn in Hidx.
      set (gi0 := @mk_index B [] (r - Z.of_nat n) 0 ∅) in Hidx.
      assert (simulates conflict gi0 (mk_snapshots ∅ 0 [] (r - Z.of_nat n))) as Hs0
        by (split; cbn; try done; constructor).
      destruct (catch_up_ok conflict Hsym (Z.to_nat (r - (r - Z.of_nat n))) gi0 _ r Hs0)
        as (gi' & Hrun & Hshape & s' & Hs'); [cbn; lia..|].
      rewrite Hrun in Hidx. injection Hidx as <-. exists s'. split; [done|].
      assert (shape gi' = (r, n)) as -> by (rewrite Hshape; cbn; f_equal; lia). done. }
  split.
  - apply Forall_app. split; [done|]. apply Forall_singleton. split; [done|]. eauto.
  - exists (shape idx). split; [done|]. apply Forall_app. split; [done|]. by apply Forall_singleton.
Qed.

Lemma database_step_ok db db' : database_ok db -> database_step db db' -> database_ok db'.
Proof.
  intros Hok Hstep. destruct Hstep.
  - by eapply database_ok_touched.
  - unfold database_start_undo_session. cbn [snd]. rewrite map_map.
    apply (database_ok_map (fun _ => OpStart) (fun sh => (sh.1 + 1, S sh.2))); try done; [by intros ? []|cbn; lia].
  - unfold database_undo. rewrite (each_ok (fun ix => undo (ix_conflict ix))).
    + apply (database_ok_map (fun _ => OpUndo) (fun sh => match sh.2 with O => sh | S n => (sh.1 - 1, n) end));
        try done; [by intros ? [? []]|]. intros [? []]; cbn; lia.
    + destruct Hok as [Hoks _]. apply (Forall_impl _ _ _ Hoks). intros ix [Hsym [s Hs]]. by eapply undo_ok.
  - apply (database_ok_map (fun _ => OpSquash) (fun sh => match sh.2 with O => sh | S n => (sh.1 - 1, n) end));
      try done; [by intros ? [? []]|]. intros [? []]; cbn; lia.
  - apply (database_ok_map (fun _ => OpCommit q) (fun sh => (sh.1, Nat.min (Z.to_nat (sh.1 - q)) sh.2)));
      try done; [by intros ? []|cbn; lia].
  - unfold database_undo_all. rewrite (each_ok (fun ix => undo_all (ix_conflict ix))).
    + apply (database_ok_map (fun _ => OpUndoAll) (fun sh => (sh.1 - Z.of_nat sh.2, O)));
        try done; [by intros ? []|cbn; lia].
    + destruct Hok as [Hoks _]. apply (Forall_impl _ _ _ Hoks). intros ix [Hsym [s Hs]]. by eapply undo_all_ok.
  - apply database_ok_set_revision; [widths; lia|done].
  - by eapply database_ok_add_index.
Qed.

Lemma database_reachable_ok db : rtc database_step [] db -> database_ok db.
Proof.
  intros Hr. assert (database_ok []) as H0 by (split; [constructor|]; exists (0, 0%nat); split; [done|constructor]).
  revert H0. induction Hr as [db|db1 db2 db3 Hstep _ IH]; [done|]. intros H1. apply IH. by eapply database_step_ok.
Qed.

(** ** Properties of the database *)

(** in every database reached by object operations, sessions, undo,
    squash, commit, undo_all, set_revision and registrations of new indices,
    all indices have the same revision and the same range of undoable
    revisions. *)
Theorem database_indices_lockstep (db : database) (ix ix' : some_index) :
  rtc database_step [] db -> ix ∈ db -> ix' ∈ db ->
  _revision (ix_index ix) = _revision (ix_index ix')
  /\ undo_stack_revision_range (ix_index ix) = undo_stack_revision_range (ix_index ix').
Proof.
  intros Hr H1 H2. destruct (database_reachable_ok db Hr) as [Hoks (sh & _ & Hsh)].
  rewrite Forall_forall in Hoks, Hsh. destruct (Hoks _ H1) as [_ [s1 Hs1]], (Hoks _ H2) as [_ [s2 Hs2]].
  rewrite (revision_range _ _ _ Hs1), (revision_range _ _ _ Hs2), (Hsh _ H1), (Hsh _ H2). split; [|done].
  pose proof (Hsh _ H1) as E1. pose proof (Hsh _ H2) as E2. unfold shape in E1, E2. congruence.
Qed.

(** Two tables, the second registered while a session is open. *)
Definition demo_db1 : database := [mk_some 7 (Z * Z) row_conflict index_empty].
Definition demo_db2 : database := (database_start_undo_session true demo_db1).2.
Definition demo_db3 : database :=
  demo_db2 ++ [mk_some 9 (Z * Z) row_conflict (mk_index [mk_undo_state ∅ ∅ ∅ 0 1] 1 0 ∅)].

Lemma demo_db3_reachable : rtc database_step [] demo_db3.
Proof.
  apply (rtc_l _ _ demo_db1).
  { apply (step_add_index _ 7 row_conflict); [exact row_conflict_sym|widths; cbn; lia|reflexivity]. }
  apply (rtc_l _ _ demo_db2); [apply step_start|].
  apply rtc_once, (step_add_index _ 9 row_conflict); [exact row_conflict_sym|widths; cbn; lia|reflexivity].
Qed.

Lemma database_indices_lockstep_witness :
  match demo_db3 with
  | [ix; ix'] => _revision (ix_index ix) = _revision (ix_index ix')
                 /\ undo_stack_revision_range (ix_index ix) = undo_stack_revision_range (ix_index ix')
  | _ => False
  end.
Proof.
  apply (database_indices_lockstep demo_db3); [exact demo_db3_reachable|left|right; left].
Defined.

Lemma sessions_undo_ok db : forall db2,
  Forall index_ok db -> Forall (fun ix => 0 <= _revision (ix_index ix)) db ->
  Forall2 touched (map snd (map (abstract_start_undo_session true) db)) db2 ->
  sessions_undo (map fst (map (abstract_start_undo_session true) db)) db2 = (Ok tt, db).
Proof.
  induction db as [|ix db IH]; intros db2 Hoks Hpos Ht; cbn in Ht; inversion Ht as [|? ix2 ? db2' Hix Hrest]; subst; [done|].
  apply Forall_cons in Hoks as [[Hsym [s Hs]] Hoks]. apply Forall_cons in Hpos as [Hpos Hposs].
  cbn. unfold session_undo. cbn. destruct (Z.eqb_spec (_revision (ix_index ix) + 1) (-1)); [lia|]. cbn.
  inversion Hix as [? ops Hk Ho]; subst. cbn in *.
  pose proof (undo_session_exact _ Hsym (ix_index ix) s ops Hs Hk Ho) as Hundo. cbn in Hundo.
  rewrite Hundo. rewrite (IH db2' Hoks Hposs Hrest). by destruct ix.
Qed.

(** a session opened on a reachable database and undone after any object
    operations on any of its indices gives back exactly the database it was
    opened on. *)
Theorem database_session_undo_restores (db db2 : database) :
  rtc database_step [] db ->
  Forall2 touched (database_start_undo_session true db).2 db2 ->
  exists s', database_session_undo (database_start_undo_session true db).1 db2 = (Ok s', db).
Proof.
  intros Hr Ht. destruct (database_reachable_ok db Hr) as [Hoks (sh & Hbase & Hsh)].
  unfold database_session_undo. cbn [fst database_start_undo_session database_session_new _index_sessions].
  rewrite (sessions_undo_ok db db2 Hoks); [eauto| |exact Ht].
  apply (Forall_impl _ _ _ Hsh). intros ix Hix. unfold shape in Hix. subst sh. cbn in Hbase. lia.
Qed.

Lemma touched_remove db :
  Forall2 touched db
    (map (fun ix => with_index ix (run_ops (ix_conflict ix) [OpRemove 0] (ix_index ix)).2) db).
Proof. induction db; cbn [map]; constructor; [apply Touched; repeat constructor|done]. Qed.

Lemma database_session_undo_restores_witness :
  exists s', database_session_undo (database_start_undo_session true demo_db3).1
    (map (fun ix => with_index ix (run_ops (ix_conflict ix) [OpRemove 0] (ix_index ix)).2)
         (database_start_undo_session true demo_db3).2) = (Ok s', demo_db3).
Proof.
  apply database_session_undo_restores; [exact demo_db3_reachable|apply touched_remove].
Defined.

(** the revision that [database::session] reports is always 0, because the
    move constructor of [generic_index::session] does not copy it, while the
    revision of the database has become the revision of the new session. *)
Theorem database_session_revision_lost (db : database) :
  db <> [] ->
  let (s, db') := database_start_undo_session true db in
  _database_session_revision s = 0 /\ database_revision db' = database_revision db + 1.
Proof. by destruct db. Qed.

Lemma database_session_revision_lost_witness :
  let (s, db') := database_start_undo_session true demo_db2 in
  _database_session_revision s = 0 /\ database_revision db' = 1 + 1.
Proof. apply (database_session_revision_lost demo_db2). discriminate. Defined.
