(* ===== verification/ResourceLimits.v ===== *)
(** * Resource limits

    Models [libraries/chain/resource_limits.cpp],
    [include/eosio/chain/resource_limits.hpp] and
    [include/eosio/chain/resource_limits_private.hpp]: the moving-average
    accumulators, the elastic block limits, the per-account limits with their
    pending updates, and the checks a transaction has to pass.

    The chainbase tables are finite maps by their unique key: limits by
    (pending, owner) and usage by owner; the singletons are the fields
    [rl_config] and [rl_state], which exist from [initialize_database] on.
    When a modifier throws, its object is left as it was; the transaction's
    undo session discards everything in any case. *)

From S2P Require Import Prelude.

(** ** Configuration constants ([config.hpp]) *)
Definition rate_limiting_precision : Z := 1000 * 1000.
Definition maximum_elastic_resource_multiplier : Z := 1000.
Definition block_interval_ms : Z := 500.
Definition percent_100 : Z := 10000.
Definition EOS_PERCENT (value percentage : Z) : Z := u64 (value * percentage) / percent_100.

(** ** Ratios and casts ([namespace impl]) *)
Record ratio : Type := make_ratio { numerator : Z; denominator : Z }.

#[export] Instance ratio_eq_dec : EqDecision ratio.
Proof. solve_decision. Defined.

(** [operator*( uint64_t, ratio )]. *)
Definition ratio_mul (value : Z) (r : ratio) : res Z :=
  _ ← eos_assert ((numerator r =? 0) || (value <=? UINT64_MAX / numerator r)) rate_limiting_state_inconsistent;
  if denominator r =? 0 then Err undefined_behaviour
  else Ok (u64 (value * numerator r) / denominator r).

Definition integer_divide_ceil (num den : Z) : Z :=
  num / den + (if num mod den >? 0 then 1 else 0).

Definition downgrade_cast_u64 (val : Z) : res Z :=
  _ ← eos_assert ((0 <=? val) && (val <=? UINT64_MAX)) rate_limiting_state_inconsistent; Ok val.

Definition downgrade_cast_s64 (val : Z) : res Z :=
  _ ← eos_assert ((0 <=? val) && (val <=? INT64_MAX)) rate_limiting_state_inconsistent; Ok val.

(** ** The accumulator *)
Record usage_accumulator : Type := mk_accumulator {
  last_ordinal : Z; value_ex : Z; consumed : Z }.

Definition accumulator_new : usage_accumulator := mk_accumulator 0 0 0.

Definition max_raw_value : Z := UINT64_MAX / rate_limiting_precision.

Definition average (a : usage_accumulator) : Z := integer_divide_ceil (value_ex a) rate_limiting_precision.

(** What the accumulated value has decayed to at a later [ordinal]. *)
Definition decay (a : usage_accumulator) (ordinal window_size : Z) : res usage_accumulator :=
  if last_ordinal a =? ordinal then Ok a
  else
    _ ← eos_assert (ordinal >? last_ordinal a) resource_limit_exception;
    value ← (if last_ordinal a + window_size >? ordinal then
               let delta := u32 (ordinal - last_ordinal a) in
               ratio_mul (value_ex a) (make_ratio (u64 (window_size - delta)) window_size)
             else Ok 0);
    let a := mk_accumulator ordinal value (consumed a) in
    Ok (mk_accumulator (last_ordinal a) (value_ex a) (average a)).

Definition add (a : usage_accumulator) (units ordinal window_size : Z) : res usage_accumulator :=
  _ ← eos_assert (units <=? max_raw_value) rate_limiting_state_inconsistent;
  _ ← eos_assert (units <=? UINT64_MAX - consumed a) rate_limiting_state_inconsistent;
  _ ← (if window_size =? 0 then Err undefined_behaviour else Ok tt);
  value_ex_contrib ←
    downgrade_cast_u64 (integer_divide_ceil (u128 (units * rate_limiting_precision)) window_size);
  _ ← eos_assert (value_ex_contrib <=? UINT64_MAX - value_ex a) rate_limiting_state_inconsistent;
  a ← decay a ordinal window_size;
  Ok (mk_accumulator (last_ordinal a) (u64 (value_ex a + value_ex_contrib)) (u64 (consumed a + units))).

(** ** Elastic limits *)
Record elastic_limit_parameters : Type := mk_elastic {
  target : Z; max : Z; periods : Z; max_multiplier : Z;
  contract_rate : ratio; expand_rate : ratio }.

#[export] Instance elastic_eq_dec : EqDecision elastic_limit_parameters.
Proof. solve_decision. Defined.

Definition elastic_validate (p : elastic_limit_parameters) : res unit :=
  _ ← eos_assert (periods p >? 0) resource_limit_exception;
  _ ← eos_assert (denominator (contract_rate p) >? 0) resource_limit_exception;
  eos_assert (denominator (expand_rate p) >? 0) resource_limit_exception.

Definition update_elastic_limit (current_limit average_usage : Z) (params : elastic_limit_parameters) : res Z :=
  result ← ratio_mul current_limit
             (if average_usage >? target params then contract_rate params else expand_rate params);
  Ok (Z.min (Z.max result (max params)) (u64 (max params * max_multiplier params))).

(** ** Tables *)
Record resource_limits_object : Type := mk_limits {
  net_weight : Z; cpu_weight : Z; ram_bytes : Z }.

Definition limits_new : resource_limits_object := mk_limits (-1) (-1) (-1).

Record resource_usage_object : Type := mk_usage {
  net_usage : usage_accumulator; cpu_usage : usage_accumulator; ram_usage : Z }.

Definition usage_new : resource_usage_object := mk_usage accumulator_new accumulator_new 0.

Record resource_limits_config_object : Type := mk_config {
  cpu_limit_parameters : elastic_limit_parameters;
  net_limit_parameters : elastic_limit_parameters;
  account_cpu_usage_average_window : Z;
  account_net_usage_average_window : Z }.

Definition config_new : resource_limits_config_object :=
  mk_config
    (mk_elastic (EOS_PERCENT 500000 1000) 500000 (60 * 1000 / block_interval_ms) 1000
       (make_ratio 99 100) (make_ratio 1000 999))
    (mk_elastic (EOS_PERCENT (1024 * 1024) 1000) (1024 * 1024) (60 * 1000 / block_interval_ms) 1000
       (make_ratio 99 100) (make_ratio 1000 999))
    (24 * 60 * 60 * 1000 / block_interval_ms)
    (24 * 60 * 60 * 1000 / block_interval_ms).

Record resource_limits_state_object : Type := mk_state {
  average_block_net_usage : usage_accumulator;
  average_block_cpu_usage : usage_accumulator;
  pending_net_usage : Z; pending_cpu_usage : Z;
  total_net_weight : Z; total_cpu_weight : Z; total_ram_bytes : Z;
  virtual_net_limit : Z; virtual_cpu_limit : Z }.

Record resource_limits_manager : Type := mk_manager {
  rl_limits : gmap (bool * Z) resource_limits_object;
  rl_usage : gmap Z resource_usage_object;
  rl_config : resource_limits_config_object;
  rl_state : resource_limits_state_object }.

Abbreviation RL := (M resource_limits_manager).

Definition set_limits l (m : resource_limits_manager) := mk_manager l (rl_usage m) (rl_config m) (rl_state m).
Definition set_usage u (m : resource_limits_manager) := mk_manager (rl_limits m) u (rl_config m) (rl_state m).
Definition set_config c (m : resource_limits_manager) := mk_manager (rl_limits m) (rl_usage m) c (rl_state m).
Definition set_state s (m : resource_limits_manager) := mk_manager (rl_limits m) (rl_usage m) (rl_config m) s.

Definition initialize_database : resource_limits_manager :=
  let config := config_new in
  mk_manager ∅ ∅ config
    (mk_state accumulator_new accumulator_new 0 0 0 0 0
       (max (net_limit_parameters config)) (max (cpu_limit_parameters config))).

(** [_db.get<...>( key )] throws [std::out_of_range]; [_db.create] throws
    [std::logic_error] when the key is taken. *)
Definition get_limits (key : bool * Z) : RL resource_limits_object := fun m =>
  (match rl_limits m !! key with Some o => Ok o | None => Err std_out_of_range end, m).
Definition get_usage (owner : Z) : RL resource_usage_object := fun m =>
  (match rl_usage m !! owner with Some o => Ok o | None => Err std_out_of_range end, m).
Definition create_limits (key : bool * Z) (o : resource_limits_object) : RL unit := fun m =>
  match rl_limits m !! key with
  | Some _ => (Err std_logic_error, m)
  | None => (Ok tt, set_limits (<[key := o]> (rl_limits m)) m)
  end.
Definition create_usage (owner : Z) (o : resource_usage_object) : RL unit := fun m =>
  match rl_usage m !! owner with
  | Some _ => (Err std_logic_error, m)
  | None => (Ok tt, set_usage (<[owner := o]> (rl_usage m)) m)
  end.
Definition put_usage (owner : Z) (o : resource_usage_object) : RL unit :=
  modify (fun m => set_usage (<[owner := o]> (rl_usage m)) m).
Definition put_limits (key : bool * Z) (o : resource_limits_object) : RL unit :=
  modify (fun m => set_limits (<[key := o]> (rl_limits m)) m).
Definition put_state (s : resource_limits_state_object) : RL unit := modify (set_state s).

(** ** Operations of [resource_limits_manager] *)
Definition initialize_account (account : Z) : RL unit :=
  create_limits (false, account) limits_new;;
  create_usage account usage_new.

Definition set_block_parameters (cpu net : elastic_limit_parameters) : RL unit :=
  lift (elastic_validate cpu);;
  lift (elastic_validate net);;
  config ← gets rl_config;
  if decide (cpu_limit_parameters config = cpu /\ net_limit_parameters config = net) then mret tt
  else modify (set_config (mk_config cpu net (account_cpu_usage_average_window config)
                             (account_net_usage_average_window config))).

Fixpoint update_account_usage (accounts : list Z) (time_slot : Z) : RL unit :=
  match accounts with
  | [] => mret tt
  | a :: accounts =>
      config ← gets rl_config;
      usage ← get_usage a;
      net ← lift (add (net_usage usage) 0 time_slot (account_net_usage_average_window config));
      cpu ← lift (add (cpu_usage usage) 0 time_slot (account_cpu_usage_average_window config));
      put_usage a (mk_usage net cpu (ram_usage usage));;
      update_account_usage accounts time_slot
  end.

(** [get_account_limits]: (ram_bytes, net_weight, cpu_weight). *)
Definition get_account_limits (account : Z) : RL (Z * Z * Z) :=
  m ← get;
  match rl_limits m !! (true, account) with
  | Some buo => mret (ram_bytes buo, net_weight buo, cpu_weight buo)
  | None => buo ← get_limits (false, account);
            mret (ram_bytes buo, net_weight buo, cpu_weight buo)
  end.

(** The share of one account in a window; the two copies in
    [add_transaction_usage], for cpu and net, differ in their inputs only. *)
Definition max_user_use_in_window (virtual_limit window_size user_weight all_user_weight : Z) : Z :=
  let virtual_capacity_in_window := u128 (virtual_limit * window_size) in
  u128 (virtual_capacity_in_window * user_weight) / all_user_weight.

Definition check_account_usage (e : exn) (weight total_weight virtual_limit window_size value : Z) : RL unit :=
  if (0 <=? weight) && (total_weight >? 0) then
    let used_in_window := u128 (value * window_size) / rate_limiting_precision in
    massert (used_in_window <=? max_user_use_in_window virtual_limit window_size weight total_weight) e
  else mret tt.

Fixpoint charge_accounts (accounts : list Z) (cpu net time_slot : Z) : RL unit :=
  match accounts with
  | [] => mret tt
  | a :: accounts =>
      state ← gets rl_state;
      config ← gets rl_config;
      usage ← get_usage a;
      '(_, net_w, cpu_w) ← get_account_limits a;
      net_acc ← lift (add (net_usage usage) net time_slot (account_net_usage_average_window config));
      cpu_acc ← lift (add (cpu_usage usage) cpu time_slot (account_cpu_usage_average_window config));
      put_usage a (mk_usage net_acc cpu_acc (ram_usage usage));;
      check_account_usage tx_cpu_usage_exceeded cpu_w (total_cpu_weight state) (virtual_cpu_limit state)
        (account_cpu_usage_average_window config) (value_ex cpu_acc);;
      check_account_usage tx_net_usage_exceeded net_w (total_net_weight state) (virtual_net_limit state)
        (account_net_usage_average_window config) (value_ex net_acc);;
      charge_accounts accounts cpu net time_slot
  end.

Definition add_transaction_usage (accounts : list Z) (cpu net time_slot : Z) : RL unit :=
  charge_accounts accounts cpu net time_slot;;
  s ← gets rl_state;
  let s' := mk_state (average_block_net_usage s) (average_block_cpu_usage s)
              (u64 (pending_net_usage s + net)) (u64 (pending_cpu_usage s + cpu))
              (total_net_weight s) (total_cpu_weight s) (total_ram_bytes s)
              (virtual_net_limit s) (virtual_cpu_limit s) in
  put_state s';;
  config ← gets rl_config;
  massert (pending_cpu_usage s' <=? max (cpu_limit_parameters config)) block_resource_exhausted;;
  massert (pending_net_usage s' <=? max (net_limit_parameters config)) block_resource_exhausted.

Definition add_pending_ram_usage (account ram_delta : Z) : RL unit :=
  if ram_delta =? 0 then mret tt
  else
    usage ← get_usage account;
    massert ((ram_delta <=? 0) || (u64 ram_delta <=? UINT64_MAX - ram_usage usage)) transaction_exception;;
    massert ((0 <=? ram_delta) || (u64 (- ram_delta) <=? ram_usage usage)) transaction_exception;;
    put_usage account (mk_usage (net_usage usage) (cpu_usage usage) (u64 (ram_usage usage + ram_delta))).

Definition verify_account_ram_usage (account : Z) : RL unit :=
  '(ram, _, _) ← get_account_limits account;
  usage ← get_usage account;
  if 0 <=? ram then massert (ram_usage usage <=? ram) ram_usage_exceeded else mret tt.

Definition get_account_ram_usage (account : Z) : RL Z :=
  usage ← get_usage account; mret (s64 (ram_usage usage)).

Definition find_or_create_pending_limits (account : Z) : RL resource_limits_object :=
  m ← get;
  match rl_limits m !! (true, account) with
  | Some o => mret o
  | None => limits ← get_limits (false, account);
            create_limits (true, account) limits;;
            mret limits
  end.

Definition set_account_limits (account ram net_w cpu_w : Z) : RL bool :=
  limits ← find_or_create_pending_limits account;
  let decreased_limit :=
    if 0 <=? ram then (ram_bytes limits <? 0) || (ram <? ram_bytes limits) else false in
  put_limits (true, account) (mk_limits net_w cpu_w ram);;
  mret decreased_limit.

(** The lambda [update_state_and_value]: the new total. *)
Definition update_state_and_value (total value pending_value : Z) : res Z :=
  total ← (if value >? 0 then
             _ ← eos_assert (value <=? total) rate_limiting_state_inconsistent; Ok (u64 (total - value))
           else Ok total);
  if pending_value >? 0 then
    _ ← eos_assert (pending_value <=? UINT64_MAX - total) rate_limiting_state_inconsistent;
    Ok (u64 (total + pending_value))
  else Ok total.

(** The owners with a pending entry, in index order. *)
Definition pending_owners (l : gmap (bool * Z) resource_limits_object) : list Z :=
  merge_sort Z.le (map snd (filter (fun k => k.1 = true) (elements (dom l)))).

Definition apply_pending (owner : Z) (pending : resource_limits_object) : RL unit :=
  actual ← get_limits (false, owner);
  s ← gets rl_state;
  ram ← lift (update_state_and_value (total_ram_bytes s) (ram_bytes actual) (ram_bytes pending));
  cpu ← lift (update_state_and_value (total_cpu_weight s) (cpu_weight actual) (cpu_weight pending));
  net ← lift (update_state_and_value (total_net_weight s) (net_weight actual) (net_weight pending));
  put_state (mk_state (average_block_net_usage s) (average_block_cpu_usage s)
               (pending_net_usage s) (pending_cpu_usage s) net cpu ram
               (virtual_net_limit s) (virtual_cpu_limit s));;
  put_limits (false, owner) pending;;
  modify (fun m => set_limits (delete (true, owner) (rl_limits m)) m).

Fixpoint process_loop (fuel : nat) : RL unit := fun m =>
  match pending_owners (rl_limits m) with
  | [] => (Ok tt, m)
  | owner :: _ =>
      match fuel, rl_limits m !! (true, owner) with
      | S fuel, Some pending => (apply_pending owner pending;; process_loop fuel) m
      | S _, None => (Err undefined_behaviour, m)
      | O, _ => (Err out_of_fuel, m)
      end
  end.

Definition process_account_limit_updates : RL unit := fun m =>
  process_loop (length (pending_owners (rl_limits m))) m.

Definition process_block_usage (block_num : Z) : RL unit :=
  s ← gets rl_state;
  config ← gets rl_config;
  cpu_avg ← lift (add (average_block_cpu_usage s) (pending_cpu_usage s) block_num
                    (periods (cpu_limit_parameters config)));
  vcpu ← lift (update_elastic_limit (virtual_cpu_limit s) (average cpu_avg) (cpu_limit_parameters config));
  net_avg ← lift (add (average_block_net_usage s) (pending_net_usage s) block_num
                    (periods (net_limit_parameters config)));
  vnet ← lift (update_elastic_limit (virtual_net_limit s) (average net_avg) (net_limit_parameters config));
  put_state (mk_state net_avg cpu_avg 0 0 (total_net_weight s) (total_cpu_weight s) (total_ram_bytes s)
               vnet vcpu).

(** ** Accessors *)
Definition get_virtual_block_cpu_limit : RL Z := gets (fun m => virtual_cpu_limit (rl_state m)).
Definition get_virtual_block_net_limit : RL Z := gets (fun m => virtual_net_limit (rl_state m)).
Definition get_block_cpu_limit : RL Z := gets (fun m =>
  u64 (max (cpu_limit_parameters (rl_config m)) - pending_cpu_usage (rl_state m))).
Definition get_block_net_limit : RL Z := gets (fun m =>
  u64 (max (net_limit_parameters (rl_config m)) - pending_net_usage (rl_state m))).

Record account_resource_limit : Type := mk_arl { used : Z; available : Z; arl_max : Z }.

(** The common body of [get_account_cpu_limit_ex] and
    [get_account_net_limit_ex], whose two texts differ in their inputs only. *)
Definition account_limit_ex (weight total_weight window_size virtual_limit block_max value greylist_limit : Z)
    : res (account_resource_limit * bool) :=
  if (weight <? 0) || (total_weight =? 0) then Ok (mk_arl (-1) (-1) (-1), false)
  else
    let greylisted_virtual_limit := u64 (block_max * greylist_limit) in
    let greylisted := (greylist_limit <? maximum_elastic_resource_multiplier)
                      && (greylisted_virtual_limit <? virtual_limit) in
    let limit := if greylisted then greylisted_virtual_limit else virtual_limit in
    let virtual_capacity_in_window := u128 (window_size * limit) in
    let max_user_use := u128 (virtual_capacity_in_window * weight) / total_weight in
    let used_in_window := integer_divide_ceil (u128 (value * window_size)) rate_limiting_precision in
    av ← (if max_user_use <=? used_in_window then Ok 0
          else downgrade_cast_s64 (max_user_use - used_in_window));
    us ← downgrade_cast_s64 used_in_window;
    mx ← downgrade_cast_s64 max_user_use;
    Ok (mk_arl us av mx, greylisted).

Definition get_account_cpu_limit_ex (account greylist_limit : Z) : RL (account_resource_limit * bool) :=
  state ← gets rl_state;
  usage ← get_usage account;
  config ← gets rl_config;
  '(_, _, cpu_w) ← get_account_limits account;
  lift (account_limit_ex cpu_w (total_cpu_weight state) (account_cpu_usage_average_window config)
          (virtual_cpu_limit state) (max (cpu_limit_parameters config)) (value_ex (cpu_usage usage)) greylist_limit).

Definition get_account_net_limit_ex (account greylist_limit : Z) : RL (account_resource_limit * bool) :=
  config ← gets rl_config;
  state ← gets rl_state;
  usage ← get_usage account;
  '(_, net_w, _) ← get_account_limits account;
  lift (account_limit_ex net_w (total_net_weight state) (account_net_usage_average_window config)
          (virtual_net_limit state) (max (net_limit_parameters config)) (value_ex (net_usage usage)) greylist_limit).

Definition get_account_cpu_limit (account greylist_limit : Z) : RL (Z * bool) :=
  '(arl, greylisted) ← get_account_cpu_limit_ex account greylist_limit; mret (available arl, greylisted).
Definition get_account_net_limit (account greylist_limit : Z) : RL (Z * bool) :=
  '(arl, greylisted) ← get_account_net_limit_ex account greylist_limit; mret (available arl, greylisted).

(** ** The accumulator is exact *)
Definition accumulator_ok (a : usage_accumulator) : Prop :=
  is_u32 (last_ordinal a) /\ is_u64 (value_ex a) /\ is_u64 (consumed a).

Lemma ceil_bounds n d : 0 <= n -> 0 < d -> n <= d * integer_divide_ceil n d < n + d.
Proof.
  intros Hn Hd. unfold integer_divide_ceil. pose proof (Z.div_mod n d ltac:(lia)).
  pose proof (Z.mod_pos_bound n d Hd). destruct (n mod d >? 0) eqn:Hr; btests; lia.
Qed.

Lemma ratio_mul_exact v r x :
  0 <= v -> 0 <= numerator r -> 0 < denominator r ->
  ratio_mul v r = Ok x -> x = v * numerator r / denominator r /\ v * numerator r <= UINT64_MAX.
Proof.
  intros Hv Hn Hd H. unfold ratio_mul in H. minv. case_match; btests; [lia|]. minv.
  assert (v * numerator r <= UINT64_MAX) as Hle.
  { destruct (decide (numerator r = 0)) as [->|]; [widths; lia|].
    match goal with H : _ \/ _ |- _ => destruct H end; btests; [lia|].
    pose proof (Z.mul_div_le UINT64_MAX (numerator r) ltac:(lia)). nia. }
  split; [|done]. rewrite u64_id; [done|]. widths. nia.
Qed.

(** The decayed value: a linear loss over the window, nothing after it. *)
Definition decayed (a : usage_accumulator) (ordinal window_size : Z) : Z :=
  if ordinal - last_ordinal a <? window_size
  then value_ex a * (window_size - (ordinal - last_ordinal a)) / window_size else 0.

Lemma decay_exact a ordinal w a' :
  accumulator_ok a -> is_u32 ordinal -> 0 < w < 2 ^ 32 -> decay a ordinal w = Ok a' ->
  last_ordinal a <= ordinal /\ last_ordinal a' = ordinal /\
  0 <= value_ex a' <= value_ex a /\ value_ex a' = decayed a ordinal w /\
  consumed a' = (if ordinal =? last_ordinal a then consumed a else average a').
Proof.
  intros (Hl & Hv & Hc) Ho Hw H. unfold decay in H. unfold decayed. rewrite (Z.eqb_sym ordinal).
  destruct (Z.eqb_spec (last_ordinal a) ordinal) as [E|E].
  { minv. rewrite Z.sub_diag, Z.sub_0_r, Z.div_mul by lia. destruct (Z.ltb_spec 0 w); [|lia].
    widths. repeat split; lia. }
  minv. btests. cbn. destruct (last_ordinal a + w >? ordinal) eqn:Hin; btests.
  - destruct (Z.ltb_spec (ordinal - last_ordinal a) w); [|lia].
    match goal with H : ratio_mul _ _ = _ |- _ => rename H into Hm end.
    rewrite u32_id, u64_id in Hm by (widths; lia).
    apply ratio_mul_exact in Hm as [-> Hle]; cbn in *; [|widths; lia..].
    repeat split; [lia| |apply Z.div_le_upper_bound; [lia|widths; nia]].
    apply Z.div_pos; [widths; nia|lia].
  - minv. destruct (Z.ltb_spec (ordinal - last_ordinal a) w); [lia|]. widths. repeat split; lia.
Qed.

Lemma add_exact a units ordinal w a' :
  accumulator_ok a -> is_u64 units -> is_u32 ordinal -> 0 < w < 2 ^ 32 ->
  add a units ordinal w = Ok a' ->
  last_ordinal a <= ordinal /\ last_ordinal a' = ordinal
  /\ value_ex a' = decayed a ordinal w + integer_divide_ceil (units * rate_limiting_precision) w
  /\ consumed a' = (if ordinal =? last_ordinal a then consumed a
                    else integer_divide_ceil (decayed a ordinal w) rate_limiting_precision) + units
  /\ accumulator_ok a'.
Proof.
  intros Hok Hu Ho Hw H. unfold add in H. minv. btests.
  match goal with H : downgrade_cast_u64 _ = _ |- _ => unfold downgrade_cast_u64 in H; minv; btests end.
  match goal with H : decay _ _ _ = _ |- _ => apply decay_exact in H as (D1 & D2 & D3 & D4 & D5); [|done..] end.
  assert (units * rate_limiting_precision <= UINT64_MAX).
  { unfold max_raw_value in *. pose proof (Z.mul_div_le UINT64_MAX rate_limiting_precision ltac:(done)).
    unfold rate_limiting_precision in *. lia. }
  rewrite (u128_id (units * rate_limiting_precision)) in * by (widths; unfold rate_limiting_precision in *; lia).
  set (contrib := integer_divide_ceil (units * rate_limiting_precision) w) in *.
  match goal with |- context [mk_accumulator (last_ordinal ?x)] => rename x into d end.
  destruct Hok as (Hl & Hv & Hc). cbn [last_ordinal value_ex consumed].
  assert (is_u64 (value_ex d + contrib)) as Hve by (widths; lia).
  assert (is_u64 (consumed d + units)) as Hce.
  { rewrite D5. destruct (ordinal =? last_ordinal a); [widths; lia|].
    pose proof (ceil_bounds (value_ex d) rate_limiting_precision ltac:(lia) ltac:(done)).
    unfold average, rate_limiting_precision in *. widths. lia. }
  rewrite !u64_id by done. unfold average in D5. rewrite <- D4. rewrite <- D5. repeat split; try done; try lia.
  - rewrite D2. apply Ho.
  - rewrite D2. apply Ho.
  - apply Hve.
  - apply Hve.
  - apply Hce.
  - apply Hce.
Qed.

(** a successful [add] to an accumulator with 64-bit fields computes the
    decayed average plus the rounded-up contribution, and the usage of the
    current period, without any wrap-around: the new fields are the exact
    integers, they fit their types, and time has not gone backwards. *)
Theorem accumulator_add_exact (a a' : usage_accumulator) (units ordinal window_size : Z) :
  accumulator_ok a -> is_u64 units -> is_u32 ordinal -> 0 < window_size < 2 ^ 32 ->
  add a units ordinal window_size = Ok a' ->
  last_ordinal a <= ordinal /\ last_ordinal a' = ordinal
  /\ value_ex a' = decayed a ordinal window_size
                   + integer_divide_ceil (units * rate_limiting_precision) window_size
  /\ consumed a' = (if ordinal =? last_ordinal a then consumed a
                    else integer_divide_ceil (decayed a ordinal window_size) rate_limiting_precision) + units
  /\ accumulator_ok a'.
Proof. apply add_exact. Qed.

Lemma accumulator_add_exact_witness :
  value_ex (mk_accumulator 110 29083334 218) = decayed (mk_accumulator 100 30000000 50) 110 120
                   + integer_divide_ceil (190 * rate_limiting_precision) 120
  /\ accumulator_ok (mk_accumulator 110 29083334 218).
Proof.
  destruct (accumulator_add_exact (mk_accumulator 100 30000000 50) (mk_accumulator 110 29083334 218) 190 110 120)
    as (_ & _ & H & _ & Hok).
  - split; [|split]; widths; cbn; lia.
  - widths; lia.
  - widths; lia.
  - lia.
  - vm_compute. reflexivity.
  - split; [exact H|exact Hok].
Defined.

(** ** Elastic limits *)
Definition elastic_ok (p : elastic_limit_parameters) : Prop :=
  0 <= max p /\ 1 <= max_multiplier p /\ max p * max_multiplier p <= UINT64_MAX
  /\ 0 <= numerator (contract_rate p) /\ 0 < denominator (contract_rate p)
  /\ 0 <= numerator (expand_rate p) /\ 0 < denominator (expand_rate p).

Lemma update_elastic_limit_bounds cur avg p r :
  0 <= cur -> elastic_ok p -> update_elastic_limit cur avg p = Ok r ->
  max p <= r <= max p * max_multiplier p.
Proof.
  intros Hc (Hm & Hk & Hmax & _) H. unfold update_elastic_limit in H. minv. rewrite u64_id by (widths; nia).
  nia.
Qed.

(** the virtual limit stays between the block maximum and its largest
    multiple; while the average usage is above the target it does not grow
    (contraction rate at most 1), otherwise it does not shrink (expansion rate
    at least 1). *)
Theorem elastic_limit_moves (cur avg r : Z) (p : elastic_limit_parameters) :
  elastic_ok p -> max p <= cur <= max p * max_multiplier p ->
  update_elastic_limit cur avg p = Ok r ->
  max p <= r <= max p * max_multiplier p
  /\ (target p < avg -> numerator (contract_rate p) <= denominator (contract_rate p) -> r <= cur)
  /\ (avg <= target p -> denominator (expand_rate p) <= numerator (expand_rate p) -> cur <= r).
Proof.
  intros Hp Hc H. split; [eapply update_elastic_limit_bounds; [|done..]; destruct Hp; lia|].
  destruct Hp as (Hm & Hk & Hmax & Hn1 & Hd1 & Hn2 & Hd2). unfold update_elastic_limit in H. minv.
  rewrite u64_id by (widths; nia).
  match goal with H : ratio_mul _ _ = _ |- _ => apply ratio_mul_exact in H as [-> _] end;
    [|lia|by destruct (avg >? target p)|by destruct (avg >? target p)].
  destruct (avg >? target p) eqn:Ht; btests; (split; [|intros Ht'; try lia]); intros; try lia.
  - apply Z.min_le_iff. left. apply Z.max_lub; [|lia]. apply Z.div_le_upper_bound; nia.
  - apply Z.min_glb; [|lia]. apply Z.max_le_iff. left. apply Z.div_le_lower_bound; nia.
Qed.

Lemma elastic_limit_moves_witness :
  let p := cpu_limit_parameters config_new in
  500000 <= 594000 <= 500000 * 1000 /\ (target p < 70000 -> 99 <= 100 -> 594000 <= 600000).
Proof.
  destruct (elastic_limit_moves 600000 70000 594000 (cpu_limit_parameters config_new)) as (H1 & H2 & _).
  - unfold elastic_ok. widths. vm_compute. intuition discriminate.
  - vm_compute. split; discriminate.
  - vm_compute. reflexivity.
  - split; [exact H1|exact H2].
Defined.

(** ** Totals

    [total_of sel f l] adds the positive part of [f] over the entries of [l]
    whose pending flag satisfies [sel]. *)
Definition contribution (sel : bool -> bool) (f : resource_limits_object -> Z)
    (k : bool * Z) (o : resource_limits_object) : Z :=
  if sel k.1 then Z.max 0 (f o) else 0.

Definition total_of (sel : bool -> bool) (f : resource_limits_object -> Z)
    (l : gmap (bool * Z) resource_limits_object) : Z :=
  map_sum (contribution sel f) l.

Definition actual_total := total_of negb.
Definition overall_total := total_of (fun _ => true).

Lemma total_insert sel f l k o :
  l !! k = None -> total_of sel f (<[k := o]> l) = contribution sel f k o + total_of sel f l.
Proof. apply map_sum_insert. Qed.

Lemma total_delete sel f l k o :
  l !! k = Some o -> total_of sel f (delete k l) = total_of sel f l - contribution sel f k o.
Proof. apply map_sum_delete. Qed.

Lemma total_update sel f l k o o' :
  l !! k = Some o ->
  total_of sel f (<[k := o']> l) = total_of sel f l - contribution sel f k o + contribution sel f k o'.
Proof. apply map_sum_update. Qed.

Lemma total_nonneg sel f l : 0 <= total_of sel f l.
Proof. apply map_sum_nonneg. intros k o _. unfold contribution. destruct (sel k.1); lia. Qed.

Lemma contribution_le_total sel f l k o :
  l !! k = Some o -> contribution sel f k o <= total_of sel f l.
Proof. intros Hk. pose proof (total_nonneg sel f (delete k l)). rewrite (total_delete _ _ _ _ _ Hk) in *. lia. Qed.

(** Entries outside the selection do not count. *)
Lemma total_update_unselected sel f l k o' :
  sel k.1 = false -> total_of sel f (<[k := o']> l) = total_of sel f l.
Proof.
  intros Hs. assert (forall o, contribution sel f k o = 0) as H0 by (intros; unfold contribution; by rewrite Hs).
  destruct (l !! k) as [o|] eqn:Hk; [rewrite (total_update _ _ _ _ _ _ Hk)|rewrite total_insert by done]; rewrite !H0; lia.
Qed.

Definition sums_ok (m : resource_limits_manager) : Prop :=
  (total_ram_bytes (rl_state m) = actual_total ram_bytes (rl_limits m) /\ is_u64 (total_ram_bytes (rl_state m)))
  /\ (total_cpu_weight (rl_state m) = actual_total cpu_weight (rl_limits m) /\ is_u64 (total_cpu_weight (rl_state m)))
  /\ (total_net_weight (rl_state m) = actual_total net_weight (rl_limits m) /\ is_u64 (total_net_weight (rl_state m)))
  /\ (forall owner, is_Some (rl_limits m !! (true, owner)) -> is_Some (rl_limits m !! (false, owner))).

Lemma update_state_and_value_exact total value pending total' :
  is_u64 total -> update_state_and_value total value pending = Ok total' ->
  total' = total - Z.max 0 value + Z.max 0 pending /\ is_u64 total'.
Proof.
  intros Ht H. unfold update_state_and_value in H. minv.
  assert (x = total - Z.max 0 value /\ is_u64 x) as [-> Hx].
  { destruct (value >? 0) eqn:Hv; btests; minv; btests; [|split; [lia|done]]. rewrite u64_id; widths; lia. }
  destruct (pending >? 0) eqn:Hp; btests; minv; btests.
  - rewrite u64_id; widths; lia.
  - split; [lia|done].
Qed.

(** The update of one account never underflows when the totals are right, and
    succeeds when the sum of all current and pending values is 64-bit. *)
Lemma update_state_and_value_ok total value pending :
  Z.max 0 value <= total -> is_u64 total -> total + Z.max 0 pending <= UINT64_MAX ->
  exists total', update_state_and_value total value pending = Ok total'.
Proof.
  intros Hle Ht Hp. unfold update_state_and_value.
  destruct (value >? 0) eqn:Hv; btests; cbn; unfold eos_assert.
  - destruct (Z.leb_spec value total); [|lia]. cbn. rewrite (u64_id (total - value)) by (widths; lia).
    destruct (pending >? 0) eqn:Hpe; btests; [|eauto].
    destruct (Z.leb_spec pending (UINT64_MAX - (total - value))); [eauto|lia].
  - destruct (pending >? 0) eqn:Hpe; btests; [|eauto].
    destruct (Z.leb_spec pending (UINT64_MAX - total)); [eauto|lia].
Qed.

(** ** Pending updates *)
Lemma elem_of_pending_owners l owner : owner ∈ pending_owners l <-> is_Some (l !! (true, owner)).
Proof.
  unfold pending_owners. rewrite merge_sort_Permutation, list_elem_of_In, in_map_iff. split.
  - intros ([b o] & Ho & Hin). cbn in Ho. subst o. apply list_elem_of_In, list_elem_of_filter in Hin as [Hb Hin].
    cbn in Hb. subst b. by apply elem_of_dom, elem_of_elements.
  - intros Hin. exists (true, owner). split; [done|]. apply list_elem_of_In, list_elem_of_filter. split; [done|].
    by apply elem_of_elements, elem_of_dom.
Qed.

Lemma NoDup_pending_owners l : NoDup (pending_owners l).
Proof.
  unfold pending_owners. rewrite merge_sort_Permutation. apply NoDup_fmap_2_strong.
  - intros [b o] [b' o'] [Hb _]%list_elem_of_filter [Hb' _]%list_elem_of_filter Heq. cbn in *. congruence.
  - apply NoDup_filter, NoDup_elements.
Qed.

Lemma pending_owners_next l l' owner owners :
  pending_owners l = owner :: owners ->
  (forall o, is_Some (l' !! (true, o)) <-> is_Some (l !! (true, o)) /\ o <> owner) ->
  length (pending_owners l') = length owners.
Proof.
  intros Hl Hl'. apply Permutation_length, NoDup_Permutation; [apply NoDup_pending_owners| |].
  - pose proof (NoDup_pending_owners l) as Hnd. rewrite Hl in Hnd. by apply NoDup_cons in Hnd as [_ ?].
  - intros o. rewrite elem_of_pending_owners, Hl', <- elem_of_pending_owners, Hl.
    pose proof (NoDup_pending_owners l) as Hnd. rewrite Hl in Hnd. apply NoDup_cons in Hnd as [Hn _].
    set_solver.
Qed.

(** What [get_account_limits] answers, as a function of the table. *)
Definition limits_of (l : gmap (bool * Z) resource_limits_object) (account : Z) : option resource_limits_object :=
  match l !! (true, account) with Some o => Some o | None => l !! (false, account) end.

(** One step of the loop keeps the totals right and the answers unchanged. *)
Lemma apply_pending_spec owner pending m m' :
  sums_ok m -> rl_limits m !! (true, owner) = Some pending ->
  apply_pending owner pending m = (Ok tt, m') ->
  sums_ok m' /\ rl_limits m' = delete (true, owner) (<[(false, owner) := pending]> (rl_limits m))
  /\ rl_usage m' = rl_usage m /\ rl_config m' = rl_config m.
Proof.
  intros ((Hr & Hru) & (Hc & Hcu) & (Hn & Hnu) & Hex) Hp H. unfold apply_pending, put_state, put_limits, get_limits in H.
  mrun. destruct (rl_limits m !! (false, owner)) as [actual|] eqn:Ha; [|done]. cbn in H.
  repeat (case_match; [|done]). injection H as <-. cbn.
  repeat match goal with H : update_state_and_value _ _ _ = _ |- _ =>
    apply update_state_and_value_exact in H as [? ?]; [|done] end.
  split; [|done].
  assert (forall f, actual_total f (delete (true, owner) (<[(false, owner) := pending]> (rl_limits m)))
          = actual_total f (rl_limits m) - Z.max 0 (f actual) + Z.max 0 (f pending)) as Htot.
  { intros f. unfold actual_total. erewrite total_delete by (by rewrite lookup_insert_ne).
    rewrite (total_update _ _ _ _ _ _ Ha). unfold contribution. cbn. lia. }
  unfold sums_ok. cbn. rewrite !Htot. repeat split; try lia; try (widths; lia).
  intros o [Hne Ho]%lookup_delete_is_Some. rewrite lookup_insert_ne in Ho by done.
  rewrite lookup_delete_ne, lookup_insert by done. case_decide; [done|]. auto.
Qed.

(** It succeeds when no total can exceed 64 bits. *)
Definition room (m : resource_limits_manager) : Prop :=
  forall f, f = ram_bytes \/ f = cpu_weight \/ f = net_weight -> overall_total f (rl_limits m) <= UINT64_MAX.

Lemma overall_split f l k o1 :
  l !! k = Some o1 -> k.1 = true -> actual_total f l + Z.max 0 (f o1) <= overall_total f l.
Proof.
  intros H1 Hk1. unfold actual_total, overall_total.
  assert (forall l, total_of negb f l <= total_of (fun _ => true) f l) as Hle.
  { clear. intros l. induction l as [|k' o l Hk IH] using map_ind; [done|].
    rewrite !total_insert by done. unfold contribution. destruct k'.1; cbn; lia. }
  specialize (Hle (delete k l)). rewrite !(total_delete _ _ _ _ _ H1) in Hle.
  unfold contribution in Hle. rewrite Hk1 in Hle. cbn in Hle. lia.
Qed.

Lemma apply_pending_ok owner pending m :
  sums_ok m -> room m -> rl_limits m !! (true, owner) = Some pending ->
  exists m', apply_pending owner pending m = (Ok tt, m') /\ room m'.
Proof.
  intros Hs Hroom Hp. pose proof Hs as ((Hr & Hru) & (Hc & Hcu) & (Hn & Hnu) & Hex).
  destruct (Hex owner) as [actual Ha]; [eauto|].
  assert (forall f, f = ram_bytes \/ f = cpu_weight \/ f = net_weight ->
    actual_total f (rl_limits m) + Z.max 0 (f pending) <= UINT64_MAX
    /\ Z.max 0 (f actual) <= actual_total f (rl_limits m)) as Hf.
  { intros f Hf. specialize (Hroom f Hf). split.
    - pose proof (overall_split f _ (true, owner) _ Hp eq_refl). lia.
    - apply (contribution_le_total negb f _ _ _ Ha). }
  destruct (Hf ram_bytes) as [? ?]; [auto|]. destruct (Hf cpu_weight) as [? ?]; [auto|].
  destruct (Hf net_weight) as [? ?]; [auto|].
  destruct (update_state_and_value_ok (total_ram_bytes (rl_state m)) (ram_bytes actual) (ram_bytes pending)) as [? E1]; [lia|done|lia|].
  destruct (update_state_and_value_ok (total_cpu_weight (rl_state m)) (cpu_weight actual) (cpu_weight pending)) as [? E2]; [lia|done|lia|].
  destruct (update_state_and_value_ok (total_net_weight (rl_state m)) (net_weight actual) (net_weight pending)) as [? E3]; [lia|done|lia|].
  eexists. split.
  - unfold apply_pending, put_state, put_limits, get_limits. mrun. rewrite Ha, E1, E2, E3. reflexivity.
  - intros f Hf'. cbn. unfold overall_total. erewrite total_delete by (by rewrite lookup_insert_ne).
    rewrite (total_update _ _ _ _ _ _ Ha). unfold contribution. specialize (Hroom f Hf'). unfold overall_total in Hroom. lia.
Qed.

Lemma process_loop_ok fuel : forall m,
  sums_ok m -> room m -> (length (pending_owners (rl_limits m)) <= fuel)%nat ->
  exists m', process_loop fuel m = (Ok tt, m') /\ sums_ok m'
    /\ (forall a, limits_of (rl_limits m') a = limits_of (rl_limits m) a)
    /\ (forall a, rl_limits m' !! (true, a) = None)
    /\ rl_usage m' = rl_usage m /\ rl_config m' = rl_config m.
Proof.
  induction fuel as [|fuel IH]; intros m Hs Hroom Hfuel; cbn [process_loop];
    destruct (pending_owners (rl_limits m)) as [|owner owners] eqn:Hown.
  1, 3: (exists m; split; [done|]; repeat split; try done; try (by apply Hs);
    intros a; destruct (rl_limits m !! (true, a)) eqn:Ha; [|done];
    assert (a ∈ pending_owners (rl_limits m)) as Hin by (apply elem_of_pending_owners; eauto);
    rewrite Hown in Hin; set_solver).
  { cbn in Hfuel. lia. }
  assert (is_Some (rl_limits m !! (true, owner))) as [pending Hp].
  { apply elem_of_pending_owners. rewrite Hown. left. }
  rewrite Hp. destruct (apply_pending_ok owner pending m Hs Hroom Hp) as (m1 & Hrun & Hroom1).
  destruct (apply_pending_spec owner pending m m1 Hs Hp Hrun) as (Hs1 & Hl1 & Hu1 & Hc1).
  destruct (IH m1 Hs1 Hroom1) as (m' & Hrun' & Hs' & Hlim & Hnone & Hu & Hc).
  { rewrite (pending_owners_next (rl_limits m) _ owner owners Hown); [cbn in Hfuel; lia|].
    intros o. rewrite Hl1, lookup_delete_is_Some, lookup_insert_ne by done. naive_solver. }
  exists m'. split; [unfold mbind, M_bind; by rewrite Hrun|]. split; [done|]. split; [|naive_solver congruence].
  intros a. rewrite Hlim, Hl1. unfold limits_of. destruct (decide (a = owner)) as [->|Hne].
  - by rewrite lookup_delete_eq, lookup_delete_ne, lookup_insert_eq, Hp by done.
  - by rewrite !lookup_delete_ne, !lookup_insert_ne by naive_solver.
Qed.


(** ** Reachable states

    A step is a successful call; a throwing call is undone by the session
    around it. *)
Inductive manager_step : resource_limits_manager -> resource_limits_manager -> Prop :=
| step_initialize_account a m m' : initialize_account a m = (Ok tt, m') -> manager_step m m'
| step_set_block_parameters c n m m' : set_block_parameters c n m = (Ok tt, m') -> manager_step m m'
| step_update_account_usage l t m m' : update_account_usage l t m = (Ok tt, m') -> manager_step m m'
| step_add_transaction_usage l c n t m m' : add_transaction_usage l c n t m = (Ok tt, m') -> manager_step m m'
| step_add_pending_ram_usage a d m m' : add_pending_ram_usage a d m = (Ok tt, m') -> manager_step m m'
| step_set_account_limits a r n c b m m' : set_account_limits a r n c m = (Ok b, m') -> manager_step m m'
| step_process_limits m m' : process_account_limit_updates m = (Ok tt, m') -> manager_step m m'
| step_process_block n m m' : process_block_usage n m = (Ok tt, m') -> manager_step m m'.

(** The limits and their totals are not touched. *)
Definition same_books (m m' : resource_limits_manager) : Prop :=
  rl_limits m' = rl_limits m
  /\ total_ram_bytes (rl_state m') = total_ram_bytes (rl_state m)
  /\ total_cpu_weight (rl_state m') = total_cpu_weight (rl_state m)
  /\ total_net_weight (rl_state m') = total_net_weight (rl_state m).

Lemma same_books_refl m : same_books m m.
Proof. done. Qed.
Lemma same_books_trans m1 m2 m3 : same_books m1 m2 -> same_books m2 m3 -> same_books m1 m3.
Proof. unfold same_books. intuition congruence. Qed.
Lemma same_books_ok m m' : same_books m m' -> sums_ok m -> sums_ok m'.
Proof. unfold same_books, sums_ok. intros (-> & -> & -> & ->). done. Qed.

(** A program that keeps the books, whether it succeeds or throws. *)
Definition keeps_books {A} (p : RL A) : Prop := forall m, same_books m (p m).2.

Create HintDb books.

Lemma keeps_bind {A C} (p : RL A) (f : A -> RL C) :
  keeps_books p -> (forall a, keeps_books (f a)) -> keeps_books (p ≫= f).
Proof.
  intros Hp Hf m. unfold mbind, M_bind. specialize (Hp m). destruct (p m) as [[a|e] m']; [|done].
  eapply same_books_trans; [exact Hp|apply Hf].
Qed.
Lemma keeps_ret {A} (a : A) : keeps_books (mret a).
Proof. intros m. apply same_books_refl. Qed.
Lemma keeps_gets {A} (f : resource_limits_manager -> A) : keeps_books (gets f).
Proof. intros m. apply same_books_refl. Qed.
Lemma keeps_get : keeps_books get.
Proof. intros m. apply same_books_refl. Qed.
Lemma keeps_lift {A} (r : res A) : keeps_books (lift r).
Proof. intros m. apply same_books_refl. Qed.
Lemma keeps_massert b e : keeps_books (massert b e).
Proof. intros m. apply same_books_refl. Qed.
Lemma keeps_get_usage a : keeps_books (get_usage a).
Proof. intros m. apply same_books_refl. Qed.
Lemma keeps_get_limits k : keeps_books (get_limits k).
Proof. intros m. apply same_books_refl. Qed.
Lemma keeps_put_usage a u : keeps_books (put_usage a u).
Proof. intros m. done. Qed.
Lemma keeps_set_config c : keeps_books (modify (set_config c)).
Proof. intros m. done. Qed.
#[export] Hint Resolve keeps_bind keeps_ret keeps_gets keeps_get keeps_lift keeps_massert keeps_get_usage
  keeps_get_limits keeps_put_usage keeps_set_config : books.

(** [books] walks through a program with the lemmas above. *)
Ltac books := repeat (apply keeps_bind; [auto with books|intros]); repeat case_match; auto with books.

Lemma keeps_get_account_limits a : keeps_books (get_account_limits a).
Proof. unfold get_account_limits. books. Qed.
Lemma keeps_check_account_usage e w t v n x : keeps_books (check_account_usage e w t v n x).
Proof. unfold check_account_usage. books. Qed.
#[export] Hint Resolve keeps_get_account_limits keeps_check_account_usage : books.

Lemma keeps_charge_accounts l c n t : keeps_books (charge_accounts l c n t).
Proof. induction l as [|a l IH]; cbn; books. books. Qed.
Lemma keeps_update_account_usage l t : keeps_books (update_account_usage l t).
Proof. induction l as [|a l IH]; cbn; books. Qed.
Lemma keeps_add_pending_ram_usage a d : keeps_books (add_pending_ram_usage a d).
Proof. unfold add_pending_ram_usage. books. Qed.
Lemma keeps_set_block_parameters c n : keeps_books (set_block_parameters c n).
Proof. unfold set_block_parameters. books. Qed.
#[export] Hint Resolve keeps_charge_accounts : books.

(** Writing back the state object with its totals unchanged. *)
Lemma keeps_add_transaction_usage l c n t : keeps_books (add_transaction_usage l c n t).
Proof.
  apply keeps_bind; [auto with books|]. intros _ m. unfold put_state. mrun. repeat case_match; done.
Qed.
Lemma keeps_process_block_usage n : keeps_books (process_block_usage n).
Proof.
  unfold process_block_usage. intros m. unfold put_state. mrun. repeat case_match; done.
Qed.

Lemma process_loop_sums fuel : forall m m', sums_ok m -> process_loop fuel m = (Ok tt, m') -> sums_ok m'.
Proof.
  induction fuel as [|fuel IH]; intros m m' Hs H; cbn [process_loop] in H;
    destruct (pending_owners (rl_limits m)) as [|owner owners]; try (by injection H as <-); [done|].
  destruct (rl_limits m !! (true, owner)) as [pending|] eqn:Hp; [|done].
  apply M_bind_ok in H as ([] & m1 & H1 & H2). apply (IH m1); [|done].
  by apply (apply_pending_spec owner pending m m1).
Qed.

Lemma initialize_account_sums a m m' : sums_ok m -> initialize_account a m = (Ok tt, m') -> sums_ok m'.
Proof.
  intros Hs H. unfold initialize_account, create_limits, create_usage in H. mrun.
  destruct (rl_limits m !! (false, a)) eqn:Ha; [done|]. cbn in H.
  destruct (rl_usage m !! a); [done|]. injection H as <-.
  destruct Hs as ((Hr & Hru) & (Hc & Hcu) & (Hn & Hnu) & Hex). unfold sums_ok, actual_total. cbn.
  rewrite !total_insert by done. unfold contribution. cbn.
  refine (conj (conj Hr Hru) (conj (conj Hc Hcu) (conj (conj Hn Hnu) _))).
  intros o Ho. rewrite lookup_insert_ne in Ho by done. rewrite lookup_insert. case_decide; [done|]. auto.
Qed.

Lemma set_account_limits_table a r n c b m m' :
  set_account_limits a r n c m = (Ok b, m') ->
  is_Some (limits_of (rl_limits m) a) /\ m' = set_limits (<[(true, a) := mk_limits n c r]> (rl_limits m)) m.
Proof.
  unfold set_account_limits, find_or_create_pending_limits, create_limits, get_limits, put_limits, limits_of.
  mrun. destruct (rl_limits m !! (true, a)) eqn:Ht; cbn.
  - intros [= _ <-]. split; [eauto|done].
  - destruct (rl_limits m !! (false, a)) eqn:Hf; cbn; [|done]. rewrite Ht. cbn. rewrite insert_insert_eq.
    intros [= _ <-]. split; [eauto|done].
Qed.

Lemma set_account_limits_sums a r n c b m m' :
  sums_ok m -> set_account_limits a r n c m = (Ok b, m') -> sums_ok m'.
Proof.
  intros Hs H. apply set_account_limits_table in H as [Hl ->].
  destruct Hs as ((Hr & Hru) & (Hc & Hcu) & (Hn & Hnu) & Hex). unfold sums_ok, actual_total in *. cbn.
  rewrite !total_update_unselected by done.
  refine (conj (conj Hr Hru) (conj (conj Hc Hcu) (conj (conj Hn Hnu) _))).
  intros o Ho. rewrite lookup_insert_ne by done. destruct (decide (a = o)) as [->|Hne].
  - unfold limits_of in Hl. destruct (rl_limits m !! (true, o)) eqn:Hto; [apply Hex; eauto|done].
  - apply Hex. by rewrite lookup_insert_ne in Ho by naive_solver.
Qed.

Lemma manager_step_sums m m' : manager_step m m' -> sums_ok m -> sums_ok m'.
Proof.
  intros Hstep Hs. destruct Hstep as [? ? ? H|? ? ? ? H|? ? ? ? H|? ? ? ? ? ? H|? ? ? ? H|? ? ? ? ? ? ? H|? ? H|? ? ? H].
  - by eapply initialize_account_sums.
  - eapply same_books_ok; [|done]. pose proof (keeps_set_block_parameters c n m) as Hk. by rewrite H in Hk.
  - eapply same_books_ok; [|done]. pose proof (keeps_update_account_usage l t m) as Hk. by rewrite H in Hk.
  - eapply same_books_ok; [|done]. pose proof (keeps_add_transaction_usage l c n t m) as Hk. by rewrite H in Hk.
  - eapply same_books_ok; [|done]. pose proof (keeps_add_pending_ram_usage a d m) as Hk. by rewrite H in Hk.
  - by eapply set_account_limits_sums.
  - by eapply process_loop_sums.
  - eapply same_books_ok; [|done]. pose proof (keeps_process_block_usage n m) as Hk. by rewrite H in Hk.
Qed.

Lemma reachable_sums m : rtc manager_step initialize_database m -> sums_ok m.
Proof.
  intros Hr. assert (sums_ok initialize_database) as H0.
  { unfold sums_ok. cbn. repeat split; done. }
  revert H0. induction Hr as [|? ? ? Hstep _ IH]; [done|]. intros Hs. apply IH. by eapply manager_step_sums.
Qed.

(** C30: in every state reached from the initial one by successful calls, the
    three totals are the sums of the positive limits of the accounts (pending
    changes not counted), and every pending entry has an account. *)
Theorem totals_are_sums (m : resource_limits_manager) :
  rtc manager_step initialize_database m ->
  total_ram_bytes (rl_state m) = actual_total ram_bytes (rl_limits m)
  /\ total_cpu_weight (rl_state m) = actual_total cpu_weight (rl_limits m)
  /\ total_net_weight (rl_state m) = actual_total net_weight (rl_limits m)
  /\ (forall owner, is_Some (rl_limits m !! (true, owner)) -> is_Some (rl_limits m !! (false, owner))).
Proof. intros H. apply reachable_sums in H as ([? _] & [? _] & [? _] & ?). done. Qed.

Definition after {A} (p : RL A) (m : resource_limits_manager) : resource_limits_manager := (p m).2.

Definition demo_manager : resource_limits_manager :=
  after process_account_limit_updates
    (after (set_account_limits 2 500 3 4) (after (set_account_limits 1 (-1) 10 20)
      (after (initialize_account 2) (after (initialize_account 1) initialize_database)))).

Lemma demo_manager_reachable : rtc manager_step initialize_database demo_manager.
Proof.
  eapply rtc_l; [apply (step_initialize_account 1); vm_compute; reflexivity|].
  eapply rtc_l; [apply (step_initialize_account 2); vm_compute; reflexivity|].
  eapply rtc_l; [apply (step_set_account_limits 1 (-1) 10 20 false); vm_compute; reflexivity|].
  eapply rtc_l; [apply (step_set_account_limits 2 500 3 4 true); vm_compute; reflexivity|].
  eapply rtc_l; [apply step_process_limits; vm_compute; reflexivity|]. vm_compute. constructor.
Qed.

Lemma totals_are_sums_witness :
  total_cpu_weight (rl_state demo_manager) = actual_total cpu_weight (rl_limits demo_manager)
  /\ total_cpu_weight (rl_state demo_manager) = 24.
Proof.
  split; [apply (totals_are_sums demo_manager demo_manager_reachable)|vm_compute; reflexivity].
Defined.

(** applying the pending limits of a reachable state terminates without
    an exception as long as the sum of all current and pending values fits in
    64 bits: the "underflow" check never fires, no pending entry is left, and
    every account has the limits it was told before. *)
Theorem process_account_limit_updates_total (m : resource_limits_manager) :
  rtc manager_step initialize_database m -> room m ->
  exists m', process_account_limit_updates m = (Ok tt, m')
    /\ (forall a, rl_limits m' !! (true, a) = None)
    /\ (forall a, limits_of (rl_limits m') a = limits_of (rl_limits m) a)
    /\ total_cpu_weight (rl_state m') = actual_total cpu_weight (rl_limits m')
    /\ total_net_weight (rl_state m') = actual_total net_weight (rl_limits m')
    /\ total_ram_bytes (rl_state m') = actual_total ram_bytes (rl_limits m').
Proof.
  intros Hr Hroom. apply reachable_sums in Hr.
  destruct (process_loop_ok _ m Hr Hroom (le_n _)) as (m' & Hrun & ([? _] & [? _] & [? _] & _) & ? & ? & _).
  exists m'. done.
Qed.

Lemma process_account_limit_updates_total_witness :
  exists m', process_account_limit_updates (after (set_account_limits 1 7 8 9) demo_manager) = (Ok tt, m')
    /\ (forall a, rl_limits m' !! (true, a) = None).
Proof.
  destruct (process_account_limit_updates_total (after (set_account_limits 1 7 8 9) demo_manager))
    as (m' & H1 & H2 & _).
  - eapply rtc_r; [exact demo_manager_reachable|].
    apply (step_set_account_limits 1 7 8 9 true). vm_compute. reflexivity.
  - intros f [->|[->| ->]]; vm_compute; discriminate.
  - exists m'. split; [exact H1|exact H2].
Defined.

(** setting the limits of an existing account makes [get_account_limits]
    return them at once, the pending flag [decreased] is true exactly when the
    new ram limit is more restrictive than the previous one, and no other
    account is affected. *)
Theorem set_account_limits_get (a ram net cpu : Z) (m : resource_limits_manager) (old : resource_limits_object) :
  limits_of (rl_limits m) a = Some old ->
  exists m' decreased, set_account_limits a ram net cpu m = (Ok decreased, m')
    /\ get_account_limits a m' = (Ok (ram, net, cpu), m')
    /\ (decreased = true <-> 0 <= ram /\ (ram_bytes old < 0 \/ ram < ram_bytes old))
    /\ (forall a', a' <> a -> limits_of (rl_limits m') a' = limits_of (rl_limits m) a').
Proof.
  intros Hold.
  set (flag := if 0 <=? ram then (ram_bytes old <? 0) || (ram <? ram_bytes old) else false).
  assert (exists m', set_account_limits a ram net cpu m = (Ok flag, m')) as [m' Hrun].
  { unfold limits_of in Hold. unfold set_account_limits, find_or_create_pending_limits, create_limits, get_limits, put_limits.
    mrun. destruct (rl_limits m !! (true, a)) eqn:Ht; [injection Hold as ->; eauto|]. rewrite Hold, Ht. eauto. }
  exists m', flag. split; [done|]. apply set_account_limits_table in Hrun as [_ ->]. split; [|split].
  - unfold get_account_limits. mrun. by rewrite lookup_insert_eq.
  - subst flag. destruct (Z.leb_spec 0 ram); [|split; [done|lia]]. rewrite orb_true_iff, !Z.ltb_lt. tauto.
  - intros a' Hne. unfold limits_of. cbn. rewrite !lookup_insert_ne by congruence. done.
Qed.

Lemma set_account_limits_get_witness :
  exists m' decreased, set_account_limits 2 400 5 6 demo_manager = (Ok decreased, m')
    /\ get_account_limits 2 m' = (Ok (400, 5, 6), m') /\ (decreased = true <-> 0 <= 400 /\ (500 < 0 \/ 400 < 500)).
Proof.
  destruct (set_account_limits_get 2 400 5 6 demo_manager (mk_limits 3 4 500)) as (m' & d & H1 & H2 & H3 & _);
    [vm_compute; reflexivity|]. exists m', d. auto.
Defined.

(** [add_pending_ram_usage] changes the usage of an account by exactly
    the (non-zero) delta when the result is a 64-bit number; otherwise it
    throws and changes nothing. *)
Theorem add_pending_ram_usage_exact (a delta : Z) (m : resource_limits_manager) (u : resource_usage_object) :
  rl_usage m !! a = Some u -> is_u64 (ram_usage u) -> is_s64 delta -> delta <> 0 ->
  let new := ram_usage u + delta in
  (is_u64 new -> exists m', add_pending_ram_usage a delta m = (Ok tt, m')
                 /\ rl_usage m' = <[a := mk_usage (net_usage u) (cpu_usage u) new]> (rl_usage m))
  /\ (~ is_u64 new -> add_pending_ram_usage a delta m = (Err transaction_exception, m)).
Proof.
  intros Hu Hr Hd H0 new. unfold add_pending_ram_usage, get_usage, put_usage. mrun.
  destruct (Z.eqb_spec delta 0); [lia|]. rewrite Hu.
  assert (delta <= 0 \/ u64 delta = delta) as Hpos by (destruct (decide (delta <= 0)); [auto|right; apply u64_id; widths; lia]).
  assert (0 <= delta \/ u64 (- delta) = - delta) as Hneg by (destruct (decide (0 <= delta)); [auto|right; apply u64_id; widths; lia]).
  destruct (Z.leb_spec delta 0) as [Hle|Hgt]; cbn.
  - destruct Hneg as [?| ->]; [lia|]. destruct (Z.leb_spec 0 delta); [lia|]. cbn.
    destruct (Z.leb_spec (- delta) (ram_usage u)); (split; intros Hn; [|]); try (widths; lia).
    + rewrite u64_id by done. eauto.
    + done.
  - destruct Hpos as [?| ->]; [lia|]. destruct (Z.leb_spec 0 delta); [|lia]. cbn.
    destruct (Z.leb_spec delta (UINT64_MAX - ram_usage u)); (split; intros Hn; [|]); try (widths; lia); cbn.
    + rewrite u64_id by done. eauto.
    + done.
Qed.

Lemma add_pending_ram_usage_exact_witness :
  add_pending_ram_usage 1 (-5) demo_manager = (Err transaction_exception, demo_manager).
Proof.
  destruct (add_pending_ram_usage_exact 1 (-5) demo_manager usage_new) as [_ H];
    [vm_compute; reflexivity|widths; cbn; lia|widths; lia|lia|]. apply H. widths. cbn. lia.
Defined.

(** ** Charging a transaction *)

(** The usage of an account is within its share of the virtual capacity. *)
Definition within_share (weight total_weight virtual_limit window_size value : Z) : Prop :=
  0 <= weight -> 0 < total_weight ->
  u128 (value * window_size) / rate_limiting_precision
  <= max_user_use_in_window virtual_limit window_size weight total_weight.

Definition within_limits (m : resource_limits_manager) (a : Z) : Prop :=
  exists l u, limits_of (rl_limits m) a = Some l /\ rl_usage m !! a = Some u
    /\ within_share (cpu_weight l) (total_cpu_weight (rl_state m)) (virtual_cpu_limit (rl_state m))
         (account_cpu_usage_average_window (rl_config m)) (value_ex (cpu_usage u))
    /\ within_share (net_weight l) (total_net_weight (rl_state m)) (virtual_net_limit (rl_state m))
         (account_net_usage_average_window (rl_config m)) (value_ex (net_usage u)).

Lemma check_account_usage_ok e w t v n x (m m' : resource_limits_manager) :
  check_account_usage e w t v n x m = (Ok tt, m') -> m' = m /\ within_share w t v n x.
Proof.
  unfold check_account_usage, within_share.
  destruct ((0 <=? w) && (t >? 0)) eqn:Hc.
  - intros H%massert_ok. destruct H as [H ->]. btests. done.
  - intros [_ ->]%mret_ok. split; [done|]. intros Hw Ht. apply andb_false_iff in Hc as [Hc|Hc]; btests; lia.
Qed.

Lemma get_account_limits_run a m l :
  limits_of (rl_limits m) a = Some l ->
  get_account_limits a m = (Ok (ram_bytes l, net_weight l, cpu_weight l), m).
Proof.
  unfold limits_of, get_account_limits, get_limits. mrun. intros H.
  destruct (rl_limits m !! (true, a)); [by injection H as ->|]. by rewrite H.
Qed.

Lemma charge_accounts_spec l c n t : forall m m', NoDup l ->
  charge_accounts l c n t m = (Ok tt, m') ->
  rl_limits m' = rl_limits m /\ rl_state m' = rl_state m /\ rl_config m' = rl_config m
  /\ (forall a, a ∉ l -> rl_usage m' !! a = rl_usage m !! a)
  /\ (forall a, a ∈ l -> within_limits m' a).
Proof.
  induction l as [|a l IH]; intros m m' Hnd H; cbn in H.
  { apply mret_ok in H as [_ ->]. repeat split; [set_solver..]. }
  apply NoDup_cons in Hnd as [Ha Hnd]. mrun.
  unfold get_usage in H. destruct (rl_usage m !! a) as [u|] eqn:Hu; [|done].
  destruct (limits_of (rl_limits m) a) as [lim|] eqn:Hlim.
  2: { unfold get_account_limits, get_limits in H. mrun. unfold limits_of in Hlim.
       destruct (rl_limits m !! (true, a)); [done|]. by rewrite Hlim in H. }
  rewrite (get_account_limits_run _ _ _ Hlim) in H.
  destruct (add (net_usage u) _ _ _) as [na|] eqn:Hna; [|done].
  destruct (add (cpu_usage u) _ _ _) as [ca|] eqn:Hca; [|done].
  unfold put_usage in H. mrun. set (m1 := set_usage _ m) in H.
  destruct (check_account_usage tx_cpu_usage_exceeded _ _ _ _ _ m1) as [[[]|] m2] eqn:Hc1; [|done].
  apply check_account_usage_ok in Hc1 as [-> Hs1].
  destruct (check_account_usage tx_net_usage_exceeded _ _ _ _ _ m1) as [[[]|] m2] eqn:Hc2; [|done].
  apply check_account_usage_ok in Hc2 as [-> Hs2].
  destruct (IH m1 m' Hnd H) as (E1 & E2 & E3 & E4 & E5). cbn in E1, E2, E3, E4.
  repeat split; try done.
  - intros b Hb. rewrite E4 by set_solver. cbn. by rewrite lookup_insert_ne by set_solver.
  - intros b [->|Hb]%elem_of_cons; [|auto]. exists lim, (mk_usage na ca (ram_usage u)).
    rewrite E1, E2, E3, (E4 _ Ha), lookup_insert_eq. done.
Qed.

(** when [add_transaction_usage] succeeds, the pending usage of the block
    has grown by exactly the billed amounts and is within the block limits, so
    that the remaining block limits do not underflow, and every billed account
    is within its share of the cpu and of the net capacity. *)
Theorem add_transaction_usage_within_limits (accounts : list Z) (cpu net slot : Z) (m m' : resource_limits_manager) :
  NoDup accounts -> is_u64 cpu -> is_u64 net ->
  is_u64 (pending_cpu_usage (rl_state m) + cpu) -> is_u64 (pending_net_usage (rl_state m) + net) ->
  is_u64 (max (cpu_limit_parameters (rl_config m))) -> is_u64 (max (net_limit_parameters (rl_config m))) ->
  add_transaction_usage accounts cpu net slot m = (Ok tt, m') ->
  pending_cpu_usage (rl_state m') = pending_cpu_usage (rl_state m) + cpu
  /\ pending_net_usage (rl_state m') = pending_net_usage (rl_state m) + net
  /\ (get_block_cpu_limit m').1 = Ok (max (cpu_limit_parameters (rl_config m)) - pending_cpu_usage (rl_state m'))
  /\ (get_block_net_limit m').1 = Ok (max (net_limit_parameters (rl_config m)) - pending_net_usage (rl_state m'))
  /\ forall a, a ∈ accounts -> within_limits m' a.
Proof.
  intros Hnd Hc Hn Hpc Hpn Hmc Hmn H. unfold add_transaction_usage in H.
  apply M_bind_ok in H as ([] & m1 & Hch & H).
  destruct (charge_accounts_spec _ _ _ _ _ _ Hnd Hch) as (E1 & E2 & E3 & E4 & E5).
  unfold put_state, get_block_cpu_limit, get_block_net_limit in *. mrun. rewrite E2, E3 in H. rewrite !u64_id in H by done.
  destruct (Z.leb_spec (pending_cpu_usage (rl_state m) + cpu) (max (cpu_limit_parameters (rl_config m)))); [|done].
  destruct (Z.leb_spec (pending_net_usage (rl_state m) + net) (max (net_limit_parameters (rl_config m)))); [|done].
  injection H as <-. cbn. rewrite E3. repeat split; try done; try (f_equal; apply u64_id; widths; lia).
  intros a Ha. destruct (E5 a Ha) as (l & u & L & U & S1 & S2). exists l, u. rewrite ?E2, ?E3 in S1, S2. cbn. rewrite E1, E3. rewrite E1 in L. done.
Qed.

Lemma add_transaction_usage_within_limits_witness :
  exists m', add_transaction_usage [1; 2] 100 200 1 demo_manager = (Ok tt, m') /\ within_limits m' 2.
Proof.
  eexists. split; [vm_compute; reflexivity|].
  eapply (add_transaction_usage_within_limits [1; 2] 100 200 1 demo_manager);
    [..|vm_compute; reflexivity|right; left];
    first [apply NoDup_cons; split; [intros [|]%elem_of_cons; set_solver|apply NoDup_singleton]
          |widths; vm_compute; intuition discriminate].
Defined.

Lemma capacity_mono (lim vlimit window w : Z) :
  0 <= lim <= vlimit -> is_u64 vlimit -> is_u32 window -> 0 <= w -> vlimit * window * w < 2 ^ 128 ->
  u128 (u128 (window * lim) * w) <= u128 (u128 (window * vlimit) * w).
Proof.
  intros Hl Hv Hwin Hw Hno.
  assert (0 <= window * lim <= window * vlimit) as Hm by (widths; nia).
  assert (window * vlimit < 2 ^ 128).
  { apply Z.lt_le_trans with (2 ^ 32 * 2 ^ 64); [|lia]. widths. apply Z.mul_lt_mono_nonneg; lia. }
  rewrite !(u128_id (window * _)) by (widths; lia).
  assert (0 <= window * lim * w <= window * vlimit * w) as Hm2 by nia.
  replace (vlimit * window * w) with (window * vlimit * w) in Hno by ring.
  rewrite !u128_id by (widths; lia). lia.
Qed.

(** the limits reported for an account with a weight are consistent: the
    available amount is what is left of the maximum (or 0), it is never
    negative nor above the maximum, and greylisting an account never gives it
    a larger maximum. *)
Theorem account_limit_ex_sound (w total window vlimit bmax value grey : Z) (arl : account_resource_limit) (g : bool) :
  0 <= w -> 0 < total -> 0 <= value -> 0 <= window ->
  account_limit_ex w total window vlimit bmax value grey = Ok (arl, g) ->
  available arl = Z.max 0 (arl_max arl - used arl)
  /\ 0 <= available arl <= arl_max arl /\ 0 <= used arl <= INT64_MAX
  /\ (forall arl' g', is_u64 vlimit -> is_u32 window -> is_u64 w -> vlimit * window * w < 2 ^ 128 ->
      account_limit_ex w total window vlimit bmax value maximum_elastic_resource_multiplier = Ok (arl', g') ->
      arl_max arl <= arl_max arl').
Proof.
  intros Hw Ht Hv Hwin H. unfold account_limit_ex in H. destruct (Z.ltb_spec w 0); [lia|].
  destruct (Z.eqb_spec total 0); [lia|]. cbn [orb] in H. minv. unfold downgrade_cast_s64 in *. minv. btests. cbn.
  set (us := integer_divide_ceil _ _) in *. set (lim := if (_ && _)%bool then _ else vlimit) in *.
  set (mx := u128 (_ * w) / total) in *.
  assert (x = Z.max 0 (mx - us)) as -> by (destruct (Z.leb_spec mx us); minv; btests; lia).
  repeat split; try lia. intros arl' g' Hvl Hw32 Hw64 Hno H'.
  unfold account_limit_ex in H'. destruct (Z.ltb_spec w 0); [lia|]. destruct (Z.eqb_spec total 0); [lia|].
  rewrite Z.ltb_irrefl in H'. cbn [orb andb] in H'. minv. unfold downgrade_cast_s64 in *. minv. btests. cbn.
  subst mx. apply Z.div_le_mono; [done|].
  assert (0 <= lim <= vlimit) as Hlim.
  { subst lim. destruct (_ && _) eqn:Hg; btests; [|widths; lia]. pose proof (u64_range (bmax * grey)). widths. lia. }
  by apply capacity_mono.
Qed.

Lemma account_limit_ex_sound_witness :
  available (mk_arl 5 9995 10000) = Z.max 0 (10000 - 5).
Proof.
  apply (account_limit_ex_sound 10 100 100 1000 500000 50000 1000 (mk_arl 5 9995 10000) false);
    [lia|lia|lia|lia|vm_compute; reflexivity].
Defined.
