(* ===== verification/Names.v ===== *)
(** * Names: base-32 account names ([name.hpp], [name.cpp])

    A name is a [uint64_t] holding up to twelve symbols of five bits and a last
    one of four bits.  A string of the code is the list of its characters (as
    byte values); [str[i]] at [i = size()] is the terminating NUL, which the
    loop of [string_to_uint64_t] reads to find the end.  The theorems show that
    printing and parsing are inverse to each other and which strings
    [name::set] accepts. *)

From S2P Require Import Prelude.

Definition char_to_symbol (c : Z) : Z :=
  if (97 <=? c) && (c <=? 122) then (c - 97) + 6
  else if (49 <=? c) && (c <=? 53) then (c - 49) + 1
  else 0.

(** [str[i]] of a NUL-terminated view. *)
Definition char_at (str : list Z) (i : nat) : Z := default 0 (str !! i).

Fixpoint encode_loop (str : list Z) (rem i : nat) (n : Z) : Z * nat :=
  if char_at str i =? 0 then (n, i)
  else match rem with
       | O => (n, i)
       | S rem =>
           let shifted := u64 (Z.shiftl (Z.land (char_to_symbol (char_at str i)) 0x1f)
                                        (64 - 5 * (Z.of_nat i + 1))) in
           encode_loop str rem (S i) (Z.lor n shifted)
       end.

Definition string_to_uint64_t (str : list Z) : Z :=
  let '(n, i) := encode_loop str 12 0 0 in
  if (i =? 12)%nat then Z.lor n (Z.land (char_to_symbol (char_at str 12)) 0x0F) else n.

(** [".12345abcdefghijklmnopqrstuvwxyz"] *)
Definition charmap : list Z :=
  [46; 49; 50; 51; 52; 53; 97; 98; 99; 100; 101; 102; 103; 104; 105; 106; 107;
   108; 109; 110; 111; 112; 113; 114; 115; 116; 117; 118; 119; 120; 121; 122].

Definition charmap_at (i : Z) : Z := default 0 (charmap !! Z.to_nat i).

(** The loop over [i = 0 .. 12] writes [str[12-i]]: the string grows to the left. *)
Fixpoint decode_loop (rem i : nat) (tmp : Z) (str : list Z) : list Z :=
  match rem with
  | O => str
  | S rem =>
      let c := charmap_at (Z.land tmp (if (i =? 0)%nat then 0x0f else 0x1f)) in
      decode_loop rem (S i) (Z.shiftr tmp (if (i =? 0)%nat then 4 else 5)) (c :: str)
  end.

(** [boost::algorithm::trim_right_if]: drops the dots at the end. *)
Fixpoint trim_right (str : list Z) : list Z :=
  match str with
  | [] => []
  | c :: rest =>
      match trim_right rest with
      | [] => if c =? 46 then [] else [c]
      | rest' => c :: rest'
      end
  end.

Definition to_string (value : Z) : list Z := trim_right (decode_loop 13 0 value []).

Definition name_set (str : list Z) : res Z :=
  eos_assert (Z.of_nat (length str) <=? 13) name_type_exception;;
  let value := string_to_uint64_t str in
  eos_assert (bool_decide (to_string value = str)) name_type_exception;;
  Ok value.

Definition string_to_name (str : list Z) : Z := string_to_uint64_t str.

(** ** Digits

    [horner] reads a list of base-32 digits; both loops are related to it. *)
Definition horner (ds : list Z) : Z := fold_left (fun acc d => acc * 32 + d) ds 0.
Definition is_digit (d : Z) : Prop := 0 <= d < 32.

Lemma horner_snoc ds d : horner (ds ++ [d]) = horner ds * 32 + d.
Proof. unfold horner. by rewrite fold_left_app. Qed.

Lemma horner_bound ds : Forall is_digit ds -> 0 <= horner ds < 2 ^ (5 * Z.of_nat (length ds)).
Proof.
  induction ds as [|d ds IH] using rev_ind; intros H; [done|].
  apply Forall_app in H as [H1 H2]. rewrite Forall_singleton in H2. specialize (IH H1).
  rewrite horner_snoc, length_app. cbn [length]. unfold is_digit in H2.
  replace (5 * Z.of_nat (length ds + 1)) with (5 * Z.of_nat (length ds) + 5) by lia.
  rewrite Z.pow_add_r by lia. change (2 ^ 5) with 32. lia.
Qed.

Lemma horner_surj (k : nat) : forall v, 0 <= v < 2 ^ (5 * Z.of_nat k) ->
  exists ds, length ds = k /\ Forall is_digit ds /\ horner ds = v.
Proof.
  induction k as [|k IH]; intros v Hv.
  { exists []. repeat split; [constructor|cbn in *; lia]. }
  replace (5 * Z.of_nat (S k)) with (5 * Z.of_nat k + 5) in Hv by lia. rewrite Z.pow_add_r in Hv by lia. change (2 ^ 5) with 32 in Hv.
  destruct (IH (v / 32)) as (ds & Hl & Hd & Hh).
  { split; [apply Z.div_pos; lia|apply Z.div_lt_upper_bound; lia]. }
  exists (ds ++ [v mod 32]). rewrite length_app, horner_snoc, Hh. cbn.
  pose proof (Z.mod_pos_bound v 32). pose proof (Z.div_mod v 32).
  repeat split; [lia|apply Forall_app; split; [done|apply Forall_singleton; unfold is_digit; lia]|lia].
Qed.

Lemma horner_pad ds k : horner (ds ++ replicate k 0) = horner ds * 2 ^ (5 * Z.of_nat k).
Proof.
  induction k as [|k IH]; [cbn; rewrite app_nil_r; lia|].
  replace (S k) with (k + 1)%nat by lia. rewrite replicate_add, app_assoc. cbn [replicate].
  rewrite horner_snoc, IH. replace (5 * Z.of_nat (k + 1)) with (5 * Z.of_nat k + 5) by lia.
  rewrite Z.pow_add_r by lia. change (2 ^ 5) with 32. lia.
Qed.

Lemma lor_disjoint (h d k : Z) : 0 <= k -> 0 <= d < 2 ^ k -> Z.lor (h * 2 ^ k) d = h * 2 ^ k + d.
Proof.
  intros Hk Hd. assert (Z.land (h * 2 ^ k) d = 0) as H0.
  { rewrite <- Z.shiftl_mul_pow2 by done. apply Z.bits_inj'. intros n Hn. rewrite Z.land_spec, Z.bits_0.
    destruct (Z.lt_ge_cases n k); [rewrite Z.shiftl_spec_low by done; done|].
    replace (Z.testbit d n) with false; [apply andb_false_r|].
    symmetry. destruct (Z.eq_dec d 0) as [->|]; [apply Z.bits_0|].
    apply Z.bits_above_log2; [lia|]. apply Z.log2_lt_pow2; [lia|].
    apply Z.lt_le_trans with (2 ^ k); [lia|]. apply Z.pow_le_mono_r; lia. }
  rewrite <- Z.lxor_lor by done. by rewrite <- Z.add_nocarry_lxor.
Qed.

Lemma land_ones_mod (x k : Z) : 0 <= k -> Z.land x (2 ^ k - 1) = x mod 2 ^ k.
Proof. intros. rewrite <- Z.land_ones, Z.ones_equiv, Z.sub_1_r by lia. done. Qed.

(** ** Characters and symbols *)
Definition symbol_char (c : Z) : bool :=
  ((97 <=? c) && (c <=? 122)) || ((49 <=? c) && (c <=? 53)) || (c =? 46).

Lemma char_to_symbol_range c : is_digit (char_to_symbol c).
Proof. unfold char_to_symbol, is_digit. repeat case_match; btests; lia. Qed.

Lemma charmap_digit d : is_digit d -> symbol_char (charmap_at d) = true /\ char_to_symbol (charmap_at d) = d
  /\ (charmap_at d =? 0) = false /\ (charmap_at d =? 46) = (d =? 0).
Proof.
  intros H. assert (exists n, (n < 32)%nat /\ d = Z.of_nat n) as (n & Hn & ->).
  { exists (Z.to_nat d). unfold is_digit in H. lia. }
  do 32 (destruct n as [|n]; [by vm_compute|]). lia.
Qed.

Lemma charmap_symbol c : symbol_char c = true -> charmap_at (char_to_symbol c) = c.
Proof.
  intros H. assert (exists n, (n < 77)%nat /\ c = 46 + Z.of_nat n) as (n & Hn & ->).
  { exists (Z.to_nat (c - 46)). unfold symbol_char in H. rewrite !orb_true_iff in H. destruct H as [[H|H]|H]; btests; lia. }
  do 77 (destruct n as [|n]; [revert H; vm_compute; intros; first [done|discriminate]|]). lia.
Qed.

Lemma symbol_char_nonzero c : symbol_char c = true -> (c =? 0) = false.
Proof. unfold symbol_char. intros H. apply Z.eqb_neq. intros ->. by vm_compute in H. Qed.

Lemma char_to_symbol_dot : char_to_symbol 46 = 0.
Proof. done. Qed.

(** ** Encoding *)

(** The symbols of a string, padded with zeros to thirteen. *)
Definition symbols (str : list Z) : list Z := map char_to_symbol str.
Definition nul_free (str : list Z) : Prop := Forall (fun c => c <> 0) str.

Lemma symbols_digits str : Forall is_digit (symbols str).
Proof. apply Forall_map, Forall_true. intros. apply char_to_symbol_range. Qed.

Lemma char_at_lookup str i c : str !! i = Some c -> char_at str i = c.
Proof. unfold char_at. by intros ->. Qed.

Lemma char_at_end str i : (length str <= i)%nat -> char_at str i = 0.
Proof. intros. unfold char_at. by rewrite (proj2 (lookup_ge_None _ _)). Qed.

(** One turn of the loop appends a digit. *)
Lemma encode_step (h d : Z) (i : nat) : (i < 12)%nat -> 0 <= h -> is_digit d ->
  Z.lor (h * 2 ^ (64 - 5 * Z.of_nat i)) (u64 (Z.shiftl (Z.land d 0x1f) (64 - 5 * (Z.of_nat i + 1))))
  = (h * 32 + d) * 2 ^ (64 - 5 * Z.of_nat (S i)).
Proof.
  intros Hi Hh Hd. unfold is_digit in Hd. change 0x1f with (2 ^ 5 - 1). rewrite land_ones_mod by lia.
  rewrite Z.mod_small by (change (2 ^ 5) with 32; lia).
  set (k := 64 - 5 * Z.of_nat (S i)). replace (64 - 5 * (Z.of_nat i + 1)) with k by lia.
  replace (64 - 5 * Z.of_nat i) with (k + 5) by lia.
  assert (0 < 2 ^ k <= 2 ^ 59) as Hk by (split; [lia|apply Z.pow_le_mono_r; lia]).
  rewrite Z.shiftl_mul_pow2 by lia. rewrite u64_id by (widths; nia).
  rewrite Z.pow_add_r by lia. change (2 ^ 5) with 32.
  replace (h * (2 ^ k * 32)) with (h * 2 ^ (k + 5)) by (rewrite Z.pow_add_r by lia; change (2 ^ 5) with 32; ring).
  rewrite lor_disjoint; [|lia|rewrite Z.pow_add_r by lia; change (2 ^ 5) with 32; nia].
  rewrite Z.pow_add_r by lia. change (2 ^ 5) with 32. ring.
Qed.

Lemma encode_loop_spec (str : list Z) (rem : nat) : forall i, nul_free str ->
  (i <= length str)%nat -> (i + rem = 12)%nat ->
  let j := Nat.min (length str) 12 in
  encode_loop str rem i (horner (symbols (take i str)) * 2 ^ (64 - 5 * Z.of_nat i))
  = (horner (symbols (take j str)) * 2 ^ (64 - 5 * Z.of_nat j), j).
Proof.
  induction rem as [|rem IH]; intros i Hn Hi Hr j; cbn [encode_loop].
  { replace j with i by (unfold j; lia). by destruct (char_at str i =? 0). }
  destruct (str !! i) as [c|] eqn:Hc.
  - rewrite (char_at_lookup _ _ _ Hc). destruct (Z.eqb_spec c 0).
    { by apply (Forall_lookup_1 _ _ _ _ Hn Hc) in e. }
    apply lookup_lt_Some in Hc as Hlt. fold j in IH.
    rewrite encode_step; [|lia|by apply horner_bound, symbols_digits|apply char_to_symbol_range].
    rewrite <- horner_snoc. rewrite <- (IH (S i)); [|done|lia|lia].
    do 2 f_equal. rewrite (take_S_r _ _ _ Hc). unfold symbols. by rewrite map_app.
  - apply lookup_ge_None in Hc. rewrite char_at_end by lia. cbn.
    by replace j with i by (unfold j; lia).
Qed.

(** The value of a string without NUL characters, by its symbols. *)
Definition name_value (ds : list Z) : Z :=
  horner (take 12 (ds ++ replicate 12 0)) * 16 + default 0 (ds !! 12%nat) mod 16.

Lemma string_to_uint64_t_value str : nul_free str -> string_to_uint64_t str = name_value (symbols str).
Proof.
  intros Hn. unfold string_to_uint64_t.
  pose proof (encode_loop_spec str 12 0 Hn ltac:(lia) eq_refl) as H.
  change (horner (symbols (take 0 str)) * _) with 0 in H. rewrite H. clear H. unfold name_value.
  assert (take 12 (symbols str ++ replicate 12 0)
          = symbols (take 12 str) ++ replicate (12 - length (take 12 str)) 0) as ->.
  { unfold symbols. rewrite take_app, length_map, firstn_map, length_take. f_equal.
    rewrite take_replicate. f_equal. lia. }
  rewrite horner_pad, length_take. destruct (Nat.eqb_spec (Nat.min (length str) 12) 12) as [E|E].
  - rewrite E. replace (12 - Nat.min 12 (length str))%nat with 0%nat by lia. rewrite Z.mul_1_r.
    change (2 ^ (64 - 5 * Z.of_nat 12)) with (2 ^ 4). change 0x0f with (2 ^ 4 - 1).
    rewrite land_ones_mod by lia. rewrite lor_disjoint; [|lia|apply Z.mod_pos_bound; lia].
    f_equal. unfold symbols. rewrite list_lookup_fmap. unfold char_at. destruct (str !! 12%nat); done.
  - assert (length str < 12)%nat by lia. rewrite (proj2 (lookup_ge_None _ _)) by (unfold symbols; rewrite length_map; lia).
    cbn [default from_option]. rewrite Z.mod_0_l, Z.add_0_r by lia.
    rewrite Nat.min_l, (take_ge str 12), take_ge, <- Z.mul_assoc by lia. f_equal.
    change 16 with (2 ^ 4). rewrite <- Z.pow_add_r by lia. f_equal. lia.
Qed.

Lemma take_pad (ds : list Z) (k : nat) : take 12 ((ds ++ replicate k 0) ++ replicate 12 0) = take 12 (ds ++ replicate 12 0).
Proof.
  rewrite <- app_assoc, <- replicate_add, !take_app. f_equal. rewrite !take_replicate. f_equal. lia.
Qed.

Lemma name_value_pad ds k : name_value (ds ++ replicate k 0) = name_value ds.
Proof.
  unfold name_value. rewrite take_pad. do 2 f_equal. rewrite lookup_app.
  destruct (ds !! 12%nat); [done|]. destruct (replicate k 0 !! _) eqn:E; [|done].
  by apply lookup_replicate_1 in E as [-> _].
Qed.

Lemma name_value_full ds d : length ds = 12%nat -> 0 <= d < 16 -> name_value (ds ++ [d]) = horner ds * 16 + d.
Proof.
  intros Hl Hd. unfold name_value. rewrite <- app_assoc, take_app_length' by done.
  rewrite lookup_app_r, Hl by lia. change (default 0 _) with d. rewrite Z.mod_small by lia. done.
Qed.

(** ** Decoding *)
Lemma decode_loop_spec (k : nat) : forall i ds acc, length ds = k -> Forall is_digit ds ->
  decode_loop k (S i) (horner ds) acc = map charmap_at ds ++ acc.
Proof.
  induction k as [|k IH]; intros i ds acc Hl Hd.
  { by apply length_zero_iff_nil in Hl as ->. }
  destruct ds as [|d ds _] using rev_ind; [done|]. apply Forall_app in Hd as [Hds Hd].
  rewrite Forall_singleton in Hd. unfold is_digit in Hd. rewrite length_app in Hl. cbn [length] in Hl.
  cbn [decode_loop Nat.eqb]. rewrite horner_snoc. change 0x1f with (2 ^ 5 - 1). rewrite land_ones_mod by lia.
  rewrite Z.shiftr_div_pow2 by lia. change (2 ^ 5) with 32.
  replace ((horner ds * 32 + d) mod 32) with d by (rewrite Z.add_comm, Z.mod_add, Z.mod_small; lia).
  replace ((horner ds * 32 + d) / 32) with (horner ds) by (rewrite Z.add_comm, Z.div_add, Z.div_small; lia).
  rewrite IH by (done || lia). by rewrite map_app, <- app_assoc.
Qed.

Lemma decode_value ds d : length ds = 12%nat -> Forall is_digit ds -> 0 <= d < 16 ->
  decode_loop 13 0 (horner ds * 16 + d) [] = map charmap_at (ds ++ [d]).
Proof.
  intros Hl Hds Hd. set (v := horner ds * 16 + d).
  change (decode_loop 13 0 v []) with (decode_loop 12 1 (Z.shiftr v 4) [charmap_at (Z.land v (2 ^ 4 - 1))]).
  subst v. rewrite land_ones_mod by lia.
  rewrite Z.shiftr_div_pow2 by lia. change (2 ^ 4) with 16.
  replace ((horner ds * 16 + d) mod 16) with d by (rewrite Z.add_comm, Z.mod_add, Z.mod_small; lia).
  replace ((horner ds * 16 + d) / 16) with (horner ds) by (rewrite Z.add_comm, Z.div_add, Z.div_small; lia).
  rewrite (decode_loop_spec 12 0) by done. by rewrite map_app.
Qed.

Lemma symbols_charmap ds : Forall is_digit ds -> symbols (map charmap_at ds) = ds.
Proof. induction 1 as [|d ds Hd _ IH]; [done|]. cbn. f_equal; [by apply charmap_digit|exact IH]. Qed.

Lemma symbol_chars_nul_free str : Forall (fun c => symbol_char c = true) str -> nul_free str.
Proof. intros H. eapply Forall_impl; [exact H|]. intros c Hc%symbol_char_nonzero. by apply Z.eqb_neq. Qed.

Lemma charmap_symbols_id str : Forall (fun c => symbol_char c = true) str -> map charmap_at (symbols str) = str.
Proof. induction 1 as [|c str Hc _ IH]; [done|]. cbn. f_equal; [by apply charmap_symbol|exact IH]. Qed.

Lemma map_replicate {A B} (f : A -> B) k x : map f (replicate k x) = replicate k (f x).
Proof. induction k as [|k IH]; [done|]. cbn. by rewrite IH. Qed.

(** [trim_right] removes exactly the dots at the end. *)
Lemma trim_right_split str : exists k, str = trim_right str ++ replicate k 46.
Proof.
  induction str as [|c str [k IH]]; [by exists 0%nat|]. cbn. destruct (trim_right str) eqn:E.
  - destruct (Z.eqb_spec c 46) as [->|]; [exists (S k)|exists k]; cbn; by rewrite IH at 1.
  - exists k. cbn. by rewrite IH at 1.
Qed.

Lemma trim_right_last str : last (trim_right str) <> Some 46.
Proof.
  induction str as [|c str IH]; [done|]. cbn. destruct (trim_right str) eqn:E.
  - destruct (Z.eqb_spec c 46); [done|]. cbn. congruence.
  - done.
Qed.

Lemma trim_right_dots k : trim_right (replicate k 46) = [].
Proof. induction k as [|k IH]; [done|]. cbn. by rewrite IH. Qed.

Lemma trim_right_id str k : last str <> Some 46 -> trim_right (str ++ replicate k 46) = str.
Proof.
  induction str as [|c str IH]; intros H; [apply trim_right_dots|]. cbn.
  destruct str as [|c' str].
  - cbn. rewrite trim_right_dots. destruct (Z.eqb_spec c 46) as [->|]; done.
  - rewrite IH by done. done.
Qed.

(** ** The accepted strings *)

(** Normalized names: at most thirteen characters of the alphabet, the last
    one not a dot, and a thirteenth one among the first sixteen symbols. *)
Record normal (str : list Z) : Prop := {
  normal_length : (length str <= 13)%nat;
  normal_chars : Forall (fun c => symbol_char c = true) str;
  normal_last : last str <> Some 46;
  normal_13th : forall c, str !! 12%nat = Some c -> char_to_symbol c < 16;
}.

Lemma digits13 (v : Z) : is_u64 v ->
  exists ds d, length ds = 12%nat /\ Forall is_digit ds /\ 0 <= d < 16 /\ v = horner ds * 16 + d.
Proof.
  intros Hv. destruct (horner_surj 12 (v / 16)) as (ds & Hl & Hd & Hh).
  { widths. split; [apply Z.div_pos; lia|apply Z.div_lt_upper_bound; lia]. }
  exists ds, (v mod 16). pose proof (Z.mod_pos_bound v 16). pose proof (Z.div_mod v 16).
  repeat split; try done; lia.
Qed.

Lemma to_string_value (v : Z) : is_u64 v -> string_to_uint64_t (to_string v) = v.
Proof.
  intros Hv. destruct (digits13 v Hv) as (ds & d & Hl & Hds & Hd & ->).
  unfold to_string. rewrite decode_value by done. set (full := map charmap_at (ds ++ [d])).
  assert (Forall is_digit (ds ++ [d])) as Hall.
  { apply Forall_app. split; [done|]. apply Forall_singleton. unfold is_digit. lia. }
  assert (Forall (fun c => symbol_char c = true) full) as Hsym.
  { apply Forall_map. eapply Forall_impl; [exact Hall|]. intros x Hx. by apply charmap_digit. }
  destruct (trim_right_split full) as [k Hk].
  rewrite string_to_uint64_t_value.
  - rewrite <- (name_value_full ds d), <- (symbols_charmap (ds ++ [d])) by done. fold full.
    rewrite Hk at 2. unfold symbols. rewrite map_app. rewrite <- (name_value_pad _ k).
    do 2 f_equal. by rewrite map_replicate.
  - rewrite Hk in Hsym. apply symbol_chars_nul_free. by apply Forall_app in Hsym as [? _].
Qed.

Lemma normal_to_string (str : list Z) : normal str -> to_string (string_to_uint64_t str) = str.
Proof.
  intros [Hlen Hch Hlast H13]. rewrite string_to_uint64_t_value by by apply symbol_chars_nul_free.
  rewrite <- (name_value_pad _ (13 - length str)).
  set (all := symbols str ++ _). assert (length all = 13%nat) as Hall.
  { unfold all, symbols. rewrite length_app, length_map, length_replicate. lia. }
  assert (Forall is_digit all) as Hd.
  { apply Forall_app. split; [apply symbols_digits|]. apply Forall_replicate. by unfold is_digit. }
  assert (all = take 12 all ++ [default 0 (all !! 12%nat)]) as Hsplit.
  { destruct (all !! 12%nat) eqn:E; [|apply lookup_ge_None in E; lia]. cbn [default from_option].
    rewrite <- take_S_r by done. by rewrite take_ge by lia. }
  rewrite Hsplit. rewrite Hsplit in Hd. apply Forall_app in Hd as [Hd1 Hd2]. rewrite Forall_singleton in Hd2.
  assert (0 <= default 0 (all !! 12%nat) < 16) as H16.
  { split; [apply Hd2|]. unfold all, symbols. rewrite lookup_app, list_lookup_fmap.
    destruct (str !! 12%nat) as [c|] eqn:Ec; [by apply H13|]. cbn.
    destruct (replicate _ 0 !! _) eqn:E; [|done]. by apply lookup_replicate_1 in E as [-> _]. }
  rewrite name_value_full; [|rewrite length_take; lia|done].
  unfold to_string. rewrite decode_value; [|rewrite length_take; lia|done..].
  rewrite <- Hsplit. unfold all. rewrite map_app, charmap_symbols_id, map_replicate by done.
  by apply trim_right_id.
Qed.

Lemma land_ones_range x k : 0 <= k -> 0 <= Z.land x (2 ^ k - 1) < 2 ^ k.
Proof. intros. rewrite land_ones_mod by done. apply Z.mod_pos_bound. lia. Qed.

(** Whatever the value, the characters written are in the alphabet. *)
Lemma decode_loop_chars (k : nat) : forall i tmp acc,
  exists pre, decode_loop k (S i) tmp acc = pre ++ acc /\ length pre = k
              /\ Forall (fun c => symbol_char c = true) pre.
Proof.
  induction k as [|k IH]; intros i tmp acc; [by exists []|]. cbn [decode_loop Nat.eqb].
  set (c := charmap_at _). destruct (IH (S i) (Z.shiftr tmp 5) (c :: acc)) as (pre & -> & Hl & Hp).
  exists (pre ++ [c]). rewrite <- app_assoc, length_app. repeat split; [cbn; lia|].
  apply Forall_app. split; [done|]. apply Forall_singleton, charmap_digit, (land_ones_range _ 5). lia.
Qed.

Lemma to_string_normal (v : Z) : normal (to_string v).
Proof.
  unfold to_string. set (c := charmap_at (Z.land v (2 ^ 4 - 1))).
  change (decode_loop 13 0 v []) with (decode_loop 12 1 (Z.shiftr v 4) [c]).
  destruct (decode_loop_chars 12 0 (Z.shiftr v 4) [c]) as (pre & -> & Hl & Hp).
  assert (0 <= Z.land v (2 ^ 4 - 1) < 16) as Hd by (by apply (land_ones_range _ 4)).
  assert (is_digit (Z.land v (2 ^ 4 - 1))) as Hd' by (unfold is_digit; lia).
  destruct (charmap_digit _ Hd') as (Hs & Hi & _). fold c in Hs, Hi.
  destruct (trim_right_split (pre ++ [c])) as [k Hk]. pose proof (trim_right_last (pre ++ [c])) as Hlast.
  set (t := trim_right _) in *. assert (length (pre ++ [c]) = length t + k)%nat as Hlen.
  { rewrite Hk at 1. by rewrite length_app, length_replicate. }
  rewrite length_app, Hl in Hlen. cbn in Hlen.
  assert (Forall (fun c => symbol_char c = true) (t ++ replicate k 46)) as Hall.
  { rewrite <- Hk. apply Forall_app. split; [done|]. by apply Forall_singleton. }
  apply Forall_app in Hall as [Ht _]. split; [lia|done..|]. intros x Hx.
  apply (lookup_app_l_Some _ (replicate k 46)) in Hx. rewrite <- Hk in Hx.
  rewrite lookup_app_r, Hl in Hx by lia. injection Hx as <-. lia.
Qed.

(** ** Properties *)

(** printing a name and parsing it gives the name back, for every 64-bit
    value: [name::set] accepts what [name::to_string] prints. *)
Theorem name_string_roundtrip (v : Z) : is_u64 v -> name_set (to_string v) = Ok v.
Proof.
  intros Hv. unfold name_set. rewrite to_string_value, bool_decide_true by done.
  destruct (to_string_normal v) as [Hl _ _ _].
  by rewrite (proj2 (Z.leb_le (Z.of_nat _) 13)) by lia.
Qed.

(** "eosio.token" *)
Definition eosio_token : list Z := [101; 111; 115; 105; 111; 46; 116; 111; 107; 101; 110].

Lemma name_string_roundtrip_witness :
  to_string 6138663591592764928 = eosio_token /\ name_set eosio_token = Ok 6138663591592764928.
Proof.
  split; [vm_compute; reflexivity|].
  assert (to_string 6138663591592764928 = eosio_token) as <- by (vm_compute; reflexivity).
  apply name_string_roundtrip. widths. lia.
Defined.

(** [name::set] accepts exactly the normalized strings, and then the name
    prints as the string; it throws [name_type_exception] on every other one.
    Two accepted strings with the same value are therefore equal. *)
Theorem name_set_accepts_normal (str : list Z) :
  (normal str -> name_set str = Ok (string_to_uint64_t str) /\ to_string (string_to_uint64_t str) = str)
  /\ (~ normal str -> name_set str = Err name_type_exception).
Proof.
  unfold name_set. split.
  - intros H. pose proof (normal_to_string _ H) as E. rewrite E, bool_decide_true by done.
    destruct H as [Hl _ _ _]. by rewrite (proj2 (Z.leb_le (Z.of_nat _) 13)) by lia.
  - intros H. cbn. destruct (Z.of_nat (length str) <=? 13); [|done]. cbn.
    rewrite bool_decide_false; [done|]. intros E. apply H. rewrite <- E. apply to_string_normal.
Qed.

Lemma name_set_accepts_normal_witness :
  name_set eosio_token = Ok 6138663591592764928 /\ name_set [97; 46] = Err name_type_exception
  /\ name_set (replicate 13 122) = Err name_type_exception.
Proof.
  split_and!.
  - apply (name_set_accepts_normal eosio_token). split; [cbn; lia|by repeat constructor|done|done].
  - apply (name_set_accepts_normal [97; 46]). intros [_ _ H _]. by apply H.
  - apply (name_set_accepts_normal (replicate 13 122)). intros [_ _ _ H]. by specialize (H 122 eq_refl).
Defined.
