(* ===== verification/Authority.v ===== *)
(** * Authorities and producer schedules ([authority.hpp], [producer_schedule.hpp])

    Weighted-threshold authorities (keys, permission levels, waits) and their
    [validate], the block signing authorities of producers with
    [keys_satisfy_and_relevant], and the conversions to and from the shared
    (memory-mapped) representation.  Public keys and their order belong to the
    cryptography library: most of the file works for any key type with an order
    [key_lt]; the conversions use the three alternatives the code visits. *)

From S2P Require Import Prelude.

(** ** Permission levels ([action.hpp]) *)
Record permission_level : Type := mk_pl { actor : Z; permission : Z }.

#[export] Instance permission_level_eq_dec : EqDecision permission_level.
Proof. solve_decision. Defined.
#[export] Program Instance permission_level_countable : Countable permission_level :=
  inj_countable' (fun p => (actor p, permission p)) (fun '(a, p) => mk_pl a p) _.
Next Obligation. by intros []. Qed.

(** [operator<], through [std::tie]: lexicographic. *)
Definition permission_level_lt (l r : permission_level) : bool :=
  (actor l <? actor r) || ((actor l =? actor r) && (permission l <? permission r)).
Definition permission_level_ge (l r : permission_level) : bool := negb (permission_level_lt l r).

Section Authorities.
Context {K : Type} `{EqDecision K}.

Record permission_level_weight : Type := mk_plw { plw_permission : permission_level; plw_weight : Z }.
Record key_weight : Type := mk_kw { kw_key : K; kw_weight : Z }.
Record wait_weight : Type := mk_ww { ww_wait_sec : Z; ww_weight : Z }.

Record authority : Type := mk_authority {
  threshold : Z;
  keys : list key_weight;
  accounts : list permission_level_weight;
  waits : list wait_weight }.

(** The constructors of [authority] for one key and for one permission level. *)
Definition authority_of_key (k : K) (delay_sec : Z) : authority :=
  if delay_sec >? 0 then mk_authority 2 [mk_kw k 1] [] [mk_ww delay_sec 1]
  else mk_authority 1 [mk_kw k 1] [] [].
Definition authority_of_permission (p : permission_level) (delay_sec : Z) : authority :=
  if delay_sec >? 0 then mk_authority 2 [] [mk_plw p 1] [mk_ww delay_sec 1]
  else mk_authority 1 [] [mk_plw p 1] [].

(** The three loops of [validate]: [prev] is the previous element, and a
    violated order returns [false] at once ([None]). *)
Section Loop.
Context {E : Type} (in_order : E -> E -> bool) (weight : E -> Z).
Fixpoint tally_sorted (prev : option E) (es : list E) (total_weight : Z) : option Z :=
  match es with
  | [] => Some total_weight
  | e :: es =>
      match prev with
      | Some p => if in_order p e then tally_sorted (Some e) es (u32 (total_weight + weight e)) else None
      | None => tally_sorted (Some e) es (u32 (total_weight + weight e))
      end
  end.
End Loop.

Definition key_in_order (key_lt : K -> K -> bool) (p k : key_weight) : bool := key_lt (kw_key p) (kw_key k).
Definition account_in_order (p a : permission_level_weight) : bool :=
  negb (permission_level_ge (plw_permission p) (plw_permission a)).
Definition wait_in_order (p w : wait_weight) : bool := negb (ww_wait_sec p >=? ww_wait_sec w).

Definition validate (key_lt : K -> K -> bool) (auth : authority) : bool :=
  if Z.of_nat (length (keys auth)) + Z.of_nat (length (accounts auth)) + Z.of_nat (length (waits auth)) >? 2 ^ 16
  then false
  else if threshold auth =? 0 then false
  else
    match tally_sorted (key_in_order key_lt) kw_weight None (keys auth) 0 with
    | None => false
    | Some total_weight =>
        match tally_sorted account_in_order plw_weight None (accounts auth) total_weight with
        | None => false
        | Some total_weight =>
            if match waits auth with w :: _ => ww_wait_sec w =? 0 | [] => false end then false
            else match tally_sorted wait_in_order ww_weight None (waits auth) total_weight with
                 | None => false
                 | Some total_weight => total_weight >=? threshold auth
                 end
        end
    end.

(** ** Block signing authorities *)
Record block_signing_authority_v0 : Type := mk_bsa {
  bsa_threshold : Z;
  bsa_keys : list key_weight }.

(** [static_variant<block_signing_authority_v0>] *)
Inductive block_signing_authority : Type := bsa_v0 (a : block_signing_authority_v0).

Record producer_authority : Type := mk_pa {
  producer_name : Z;
  pa_authority : block_signing_authority }.

Record producer_authority_schedule : Type := mk_schedule {
  version : Z;
  producers : list producer_authority }.

(** The loop of [keys_satisfy_and_relevant]: (total_weight, num_relevant_keys);
    [presented] tells whether a key is in the presented set. *)
Fixpoint satisfy_loop (presented : K -> bool) (thr : Z) (ks : list key_weight) (total_weight num_relevant : Z) : Z * Z :=
  match ks with
  | [] => (total_weight, num_relevant)
  | kw :: ks =>
      if presented (kw_key kw) then
        let total_weight' :=
          if total_weight <? thr
          then u32 (total_weight + Z.min (UINT32_MAX - total_weight) (kw_weight kw))
          else total_weight in
        satisfy_loop presented thr ks total_weight' (num_relevant + 1)
      else satisfy_loop presented thr ks total_weight num_relevant
  end.

Definition bsa_v0_keys_satisfy_and_relevant (presented : K -> bool) (a : block_signing_authority_v0) : bool * Z :=
  let '(total_weight, num_relevant) := satisfy_loop presented (bsa_threshold a) (bsa_keys a) 0 0 in
  (total_weight >=? bsa_threshold a, num_relevant).

Definition keys_satisfy_and_relevant (presented : K -> bool) (a : block_signing_authority) : bool * Z :=
  match a with bsa_v0 a => bsa_v0_keys_satisfy_and_relevant presented a end.

(** [for_each_key]: the keys an authority names, in order. *)
Definition for_each_key (a : block_signing_authority) : list K :=
  match a with bsa_v0 a => map kw_key (bsa_keys a) end.

#[global] Instance key_weight_eq_dec : EqDecision key_weight.
Proof. solve_decision. Defined.
#[global] Instance permission_level_weight_eq_dec : EqDecision permission_level_weight.
Proof. solve_decision. Defined.
#[global] Instance wait_weight_eq_dec : EqDecision wait_weight.
Proof. solve_decision. Defined.
#[global] Instance authority_eq_dec : EqDecision authority.
Proof. solve_decision. Defined.
#[global] Instance bsa_v0_eq_dec : EqDecision block_signing_authority_v0.
Proof. solve_decision. Defined.
#[global] Instance bsa_eq_dec : EqDecision block_signing_authority.
Proof. solve_decision. Defined.
#[global] Instance producer_authority_eq_dec : EqDecision producer_authority.
Proof. solve_decision. Defined.
#[global] Instance schedule_eq_dec : EqDecision producer_authority_schedule.
Proof. solve_decision. Defined.
End Authorities.

Arguments key_weight K : clear implicits.
Arguments authority K : clear implicits.
Arguments block_signing_authority_v0 K : clear implicits.
Arguments block_signing_authority K : clear implicits.
Arguments producer_authority K : clear implicits.
Arguments producer_authority_schedule K : clear implicits.

(** ** Billable sizes ([config.hpp]): rounded up to a multiple of the alignment *)
Definition billable_alignment : Z := 16.
Definition billable_size_v (value : Z) : Z :=
  (value + billable_alignment - 1) / billable_alignment * billable_alignment.

Definition billable_permission_level_weight : Z := billable_size_v 24.
Definition billable_key_weight : Z := billable_size_v 8.
Definition billable_wait_weight : Z := billable_size_v 16.

(** ** The shared representation

    In the memory-mapped database a WebAuthn key is kept packed in a string.
    [pack] and [unpack] are [fc::raw::pack] and [fc::raw::unpack]. *)
Section Shared.
Context {WA : Type} `{EqDecision WA} (pack : WA -> list Z) (unpack : list Z -> res WA).

Inductive public_key_type : Type :=
| k1_key (data : list Z)
| r1_key (data : list Z)
| wa_key (wa : WA).

#[global] Instance public_key_eq_dec : EqDecision public_key_type.
Proof. solve_decision. Defined.

Inductive shared_public_key : Type :=
| shared_k1 (data : list Z)
| shared_r1 (data : list Z)
| shared_wa (wa : list Z).

#[global] Instance shared_public_key_eq_dec : EqDecision shared_public_key.
Proof. solve_decision. Defined.

(** [operator public_key_type] *)
Definition shared_to_public_key (s : shared_public_key) : res public_key_type :=
  match s with
  | shared_k1 data => Ok (k1_key data)
  | shared_r1 data => Ok (r1_key data)
  | shared_wa wa => pub ← unpack wa; Ok (wa_key pub)
  end.

(** [operator==(shared_public_key, public_key_type)] *)
Definition shared_eq_public_key (l : shared_public_key) (r : public_key_type) : res bool :=
  match l, r with
  | shared_k1 d, k1_key d' => Ok (bool_decide (d = d'))
  | shared_r1 d, r1_key d' => Ok (bool_decide (d = d'))
  | shared_wa wa, wa_key w' => pub ← unpack wa; Ok (bool_decide (pub = w'))
  | _, _ => Ok false
  end.

Record shared_key_weight : Type := mk_skw { skw_key : shared_public_key; skw_weight : Z }.

(** [operator key_weight] and [shared_key_weight::convert] *)
Definition to_key_weight (k : shared_key_weight) : res (key_weight public_key_type) :=
  key ← shared_to_public_key (skw_key k); Ok (mk_kw key (skw_weight k)).

Definition convert (k : key_weight public_key_type) : shared_key_weight :=
  match kw_key k with
  | k1_key data => mk_skw (shared_k1 data) (kw_weight k)
  | r1_key data => mk_skw (shared_r1 data) (kw_weight k)
  | wa_key wa => mk_skw (shared_wa (pack wa)) (kw_weight k)
  end.

Fixpoint res_map {A B} (f : A -> res B) (l : list A) : res (list B) :=
  match l with
  | [] => Ok []
  | a :: l => b ← f a; bs ← res_map f l; Ok (b :: bs)
  end.

Record shared_authority : Type := mk_shared_authority {
  s_threshold : Z;
  s_keys : list shared_key_weight;
  s_accounts : list permission_level_weight;
  s_waits : list wait_weight }.

(** [shared_authority::operator=] and [to_authority] *)
Definition assign_authority (a : authority public_key_type) : shared_authority :=
  mk_shared_authority (threshold a) (map convert (keys a)) (accounts a) (waits a).
Definition to_authority (s : shared_authority) : res (authority public_key_type) :=
  ks ← res_map to_key_weight (s_keys s);
  Ok (mk_authority (s_threshold s) ks (s_accounts s) (s_waits s)).

(** [get_billable_size]; [pack_size] is [fc::raw::pack_size] of a key. *)
Definition get_billable_size (pack_size : shared_public_key -> Z) (s : shared_authority) : Z :=
  let accounts_size := Z.of_nat (length (s_accounts s)) * billable_permission_level_weight in
  let waits_size := Z.of_nat (length (s_waits s)) * billable_wait_weight in
  let keys_size := fold_left (fun size k => size + billable_key_weight + pack_size (skw_key k)) (s_keys s) 0 in
  accounts_size + waits_size + keys_size.

Record shared_block_signing_authority_v0 : Type := mk_sbsa {
  sbsa_threshold : Z; sbsa_keys : list shared_key_weight }.
Inductive shared_block_signing_authority : Type := sbsa_v0 (a : shared_block_signing_authority_v0).
Record shared_producer_authority : Type := mk_spa {
  s_producer_name : Z; s_pa_authority : shared_block_signing_authority }.
Record shared_producer_authority_schedule : Type := mk_shared_schedule {
  s_version : Z; s_producers : list shared_producer_authority }.

Definition bsa_v0_to_shared (a : block_signing_authority_v0 public_key_type) : shared_block_signing_authority_v0 :=
  mk_sbsa (bsa_threshold a) (map convert (bsa_keys a)).
Definition bsa_v0_from_shared (s : shared_block_signing_authority_v0) : res (block_signing_authority_v0 public_key_type) :=
  ks ← res_map to_key_weight (sbsa_keys s); Ok (mk_bsa (sbsa_threshold s) ks).

Definition producer_authority_to_shared (p : producer_authority public_key_type) : shared_producer_authority :=
  match pa_authority p with bsa_v0 a => mk_spa (producer_name p) (sbsa_v0 (bsa_v0_to_shared a)) end.
Definition producer_authority_from_shared (s : shared_producer_authority) : res (producer_authority public_key_type) :=
  match s_pa_authority s with
  | sbsa_v0 a => a' ← bsa_v0_from_shared a; Ok (mk_pa (s_producer_name s) (bsa_v0 a'))
  end.

Definition schedule_to_shared (s : producer_authority_schedule public_key_type) : shared_producer_authority_schedule :=
  mk_shared_schedule (version s) (map producer_authority_to_shared (producers s)).
Definition schedule_from_shared (s : shared_producer_authority_schedule)
    : res (producer_authority_schedule public_key_type) :=
  ps ← res_map producer_authority_from_shared (s_producers s); Ok (mk_schedule (s_version s) ps).

(** [operator==(producer_authority, shared_producer_authority)]: [std::equal]
    compares the lengths, then the elements up to the first difference. *)
Fixpoint keys_equal (l : list (key_weight public_key_type)) (r : list shared_key_weight) : res bool :=
  match l, r with
  | [], [] => Ok true
  | k :: l, s :: r => k' ← to_key_weight s; if bool_decide (k = k') then keys_equal l r else Ok false
  | _, _ => Ok false
  end.

Definition producer_authority_eq_shared (pa : producer_authority public_key_type) (pb : shared_producer_authority) : res bool :=
  if negb (producer_name pa =? s_producer_name pb) then Ok false
  else match pa_authority pa, s_pa_authority pb with
       | bsa_v0 l, sbsa_v0 r =>
           if negb (bsa_threshold l =? sbsa_threshold r) then Ok false
           else if negb (length (bsa_keys l) =? length (sbsa_keys r))%nat then Ok false
           else keys_equal (bsa_keys l) (sbsa_keys r)
       end.
End Shared.

Arguments public_key_type WA : clear implicits.

(** ** What [validate] accepts *)
Definition sum_of {E} (weight : E -> Z) (es : list E) : Z := foldr (fun e acc => weight e + acc) 0 es.

Lemma sum_of_bound {E} (weight : E -> Z) es :
  Forall (fun e => is_u16 (weight e)) es -> 0 <= sum_of weight es <= (2 ^ 16 - 1) * Z.of_nat (length es).
Proof. unfold sum_of. induction 1 as [|e es He _ IH]; cbn [foldr length]; [lia|]. widths. lia. Qed.

Lemma u32_add_l a b : u32 (u32 a + b) = u32 (a + b).
Proof. unfold u32, uwrap. by rewrite Zplus_mod_idemp_l. Qed.

Lemma tally_sorted_some {E} (R : E -> E -> bool) (weight : E -> Z) (es : list E) : forall p t t',
  is_u32 t ->
  tally_sorted R weight (Some p) es t = Some t'
  <-> Sorted (fun a b => R a b = true) (p :: es) /\ t' = u32 (t + sum_of weight es).
Proof.
  induction es as [|e es IH]; intros p t t' Ht; cbn [tally_sorted sum_of foldr].
  - rewrite Z.add_0_r, u32_id by done. split; [intros [= ->]; by repeat constructor|by intros [_ ->]].
  - destruct (R p e) eqn:E1.
    + rewrite IH by apply u32_range. rewrite u32_add_l, <- Z.add_assoc. split.
      * intros [Hs ->]. split; [|done]. constructor; [done|by constructor].
      * intros [Hs ->]. split; [by apply Sorted_inv in Hs as [? _]|done].
    + split; [done|]. intros [Hs _]. apply Sorted_inv in Hs as [_ Hr]. inversion Hr. congruence.
Qed.

Lemma tally_sorted_none {E} (R : E -> E -> bool) (weight : E -> Z) (es : list E) t t' : is_u32 t ->
  tally_sorted R weight None es t = Some t'
  <-> Sorted (fun a b => R a b = true) es /\ t' = u32 (t + sum_of weight es).
Proof.
  intros Ht. destruct es as [|e es]; cbn [tally_sorted].
  - cbn. rewrite Z.add_0_r, u32_id by done. split; [intros [= ->]; by repeat constructor|by intros [_ ->]].
  - rewrite tally_sorted_some by apply u32_range. rewrite u32_add_l, <- Z.add_assoc. done.
Qed.

Lemma Sorted_ext {E} (R S : E -> E -> Prop) (l : list E) :
  (forall a b, R a b <-> S a b) -> Sorted R l <-> Sorted S l.
Proof.
  intros HR. split; induction 1 as [|x l Hs IH Hd]; constructor; auto; destruct Hd; constructor; by apply HR.
Qed.

(** The two outcomes of a loop. *)
Lemma tally_sorted_cases {E} (R : E -> E -> bool) (S : E -> E -> Prop) (weight : E -> Z) (es : list E) t :
  (forall a b, R a b = true <-> S a b) -> is_u32 t -> is_u32 (t + sum_of weight es) ->
  (Sorted S es /\ tally_sorted R weight None es t = Some (t + sum_of weight es))
  \/ (~ Sorted S es /\ tally_sorted R weight None es t = None).
Proof.
  intros HR Ht Hu.
  pose proof (tally_sorted_none R weight es t) as H. rewrite <- (Sorted_ext _ _ es HR).
  destruct (tally_sorted R weight None es t) as [t'|].
  - destruct (proj1 (H t' Ht) eq_refl) as [Hs ->]. left. by rewrite u32_id.
  - right. split; [|done]. intros Hs. by pose proof (proj2 (H _ Ht) (conj Hs eq_refl)).
Qed.

Definition authority_u16 {K} (a : authority K) : Prop :=
  Forall (fun k => is_u16 (kw_weight k)) (keys a) /\ Forall (fun p => is_u16 (plw_weight p)) (accounts a)
  /\ Forall (fun w => is_u16 (ww_weight w)) (waits a).

Definition authority_size {K} (a : authority K) : Z :=
  Z.of_nat (length (keys a)) + Z.of_nat (length (accounts a)) + Z.of_nat (length (waits a)).

Definition authority_weight {K} (a : authority K) : Z :=
  sum_of kw_weight (keys a) + sum_of plw_weight (accounts a) + sum_of ww_weight (waits a).

Lemma authority_weight_u32 {K} (a : authority K) :
  authority_u16 a -> authority_size a <= 2 ^ 16 -> is_u32 (authority_weight a).
Proof.
  intros (H1 & H2 & H3) Hs. apply sum_of_bound in H1, H2, H3.
  unfold authority_weight, authority_size in *. widths. lia.
Qed.

Lemma account_in_order_lt p q :
  account_in_order p q = true <-> permission_level_lt (plw_permission p) (plw_permission q) = true.
Proof. unfold account_in_order, permission_level_ge. by rewrite negb_involutive. Qed.

Lemma wait_in_order_lt p w : wait_in_order p w = true <-> ww_wait_sec p < ww_wait_sec w.
Proof. unfold wait_in_order. by rewrite Z.geb_leb, negb_true_iff, Z.leb_gt. Qed.

(** [validate] accepts an authority exactly when it has at most 2^16
    factors, a threshold that is not zero, strictly ordered keys, permission
    levels and waits (the first wait not zero), and a total weight, computed
    without overflow, that reaches the threshold. *)
Theorem validate_spec {K : Type} (key_lt : K -> K -> bool) (a : authority K) :
  authority_u16 a ->
  validate key_lt a = true <->
  authority_size a <= 2 ^ 16 /\ threshold a <> 0
  /\ Sorted (fun p k => key_lt (kw_key p) (kw_key k) = true) (keys a)
  /\ Sorted (fun p q => permission_level_lt (plw_permission p) (plw_permission q) = true) (accounts a)
  /\ Sorted (fun p w => ww_wait_sec p < ww_wait_sec w) (waits a)
  /\ (forall w, head (waits a) = Some w -> ww_wait_sec w <> 0)
  /\ threshold a <= authority_weight a.
Proof.
  intros Hu. unfold validate. fold (authority_size a). rewrite Z.gtb_ltb.
  destruct (Z.ltb_spec (2 ^ 16) (authority_size a)) as [Hs|Hs]; [split; [done|lia]|].
  destruct (Z.eqb_spec (threshold a) 0) as [Ht|Ht]; [split; [done|tauto]|].
  pose proof (authority_weight_u32 a Hu Hs) as Hw. unfold authority_weight in *.
  destruct Hu as (H1 & H2 & H3). apply sum_of_bound in H1, H2, H3.
  destruct (tally_sorted_cases (key_in_order key_lt)
              (fun p k => key_lt (kw_key p) (kw_key k) = true) kw_weight (keys a) 0 ltac:(done)
              ltac:(done) ltac:(widths; lia)) as [[S1 ->]|[S1 ->]]; [|by split; [done|tauto]].
  destruct (tally_sorted_cases account_in_order _ plw_weight (accounts a) (0 + sum_of kw_weight (keys a))
              account_in_order_lt ltac:(widths; lia) ltac:(widths; lia)) as [[S2 ->]|[S2 ->]]; [|by split; [done|tauto]].
  assert ((match waits a with w :: _ => ww_wait_sec w =? 0 | [] => false end) = false
          <-> forall w, head (waits a) = Some w -> ww_wait_sec w <> 0) as Ew.
  { destruct (waits a); cbn; [naive_solver|]. rewrite Z.eqb_neq. naive_solver. }
  destruct (match waits a with [] => _ | _ => _ end); [split; [done|intros (_ & _ & _ & _ & _ & Hh & _); by apply Ew in Hh]|].
  destruct (tally_sorted_cases wait_in_order _ ww_weight (waits a)
              (0 + sum_of kw_weight (keys a) + sum_of plw_weight (accounts a))
              wait_in_order_lt ltac:(widths; lia) ltac:(widths; lia)) as [[S3 ->]|[S3 ->]]; [|by split; [done|tauto]].
  rewrite Z.geb_leb, Z.leb_le, Z.add_0_l. tauto.
Qed.

Definition demo_authority : authority Z :=
  mk_authority 3 [mk_kw 11 1; mk_kw 12 1] [mk_plw (mk_pl 1 2) 1] [mk_ww 60 1].

Lemma validate_spec_witness : validate Z.ltb demo_authority = true /\ 3 <= authority_weight demo_authority.
Proof.
  assert (validate Z.ltb demo_authority = true) as H by (vm_compute; reflexivity).
  split; [exact H|]. apply (validate_spec Z.ltb demo_authority); [|exact H].
  split_and!; repeat constructor; vm_compute; intuition discriminate.
Defined.

(** ** Block signatures *)
Definition presented_weight {K} (presented : K -> bool) (ks : list (key_weight K)) : Z :=
  sum_of kw_weight (filter (fun k => presented (kw_key k) = true) ks).

Lemma presented_weight_nonneg {K} (presented : K -> bool) ks :
  Forall (fun k => is_u16 (kw_weight k)) ks -> 0 <= presented_weight presented ks.
Proof.
  unfold presented_weight. induction 1 as [|k ks Hk _ IH]; [done|]. rewrite filter_cons.
  case_decide; [|done]. cbn. unfold sum_of in IH. widths. lia.
Qed.

Lemma satisfy_loop_spec {K} (presented : K -> bool) (thr : Z) (ks : list (key_weight K)) : forall t n,
  Forall (fun k => is_u16 (kw_weight k)) ks -> is_u32 thr -> is_u32 t ->
  let r := satisfy_loop presented thr ks t n in
  (thr <= r.1 <-> thr <= t + presented_weight presented ks)
  /\ r.2 = n + Z.of_nat (length (filter (fun k => presented (kw_key k) = true) ks)).
Proof.
  unfold presented_weight.
  induction ks as [|k ks IH]; intros t n Hu Hthr Ht; [cbn; lia|].
  apply Forall_cons in Hu as [Hk Hu]. cbn [satisfy_loop]. rewrite filter_cons.
  destruct (presented (kw_key k)) eqn:E; [rewrite decide_True by done|rewrite decide_False by done; by apply IH].
  cbn [sum_of foldr length]. fold (sum_of kw_weight (filter (fun k => presented (kw_key k) = true) ks)).
  set (t' := if t <? thr then _ else _).
  assert (is_u32 t' /\ (t' = t + kw_weight k \/ thr <= t' /\ thr <= t + kw_weight k)) as [Ht' Hcase].
  { unfold t'. destruct (Z.ltb_spec t thr); [|widths; lia].
    rewrite u32_id by (widths; lia). widths. lia. }
  pose proof (presented_weight_nonneg presented ks Hu) as Hb. unfold presented_weight in Hb.
  destruct (IH t' (n + 1) Hu Hthr Ht') as [-> ->]. split; [|lia]. destruct Hcase as [-> |]; lia.
Qed.

(** the signing keys satisfy a block signing authority exactly when the
    weights of the keys of the authority among them sum up to the threshold;
    stopping at the threshold and saturating change nothing.  The second
    result counts the keys of the authority that are presented. *)
Theorem keys_satisfy_spec {K : Type} (presented : K -> bool) (a : block_signing_authority_v0 K) :
  Forall (fun k => is_u16 (kw_weight k)) (bsa_keys a) -> is_u32 (bsa_threshold a) ->
  let r := keys_satisfy_and_relevant presented (bsa_v0 a) in
  (r.1 = true <-> bsa_threshold a <= presented_weight presented (bsa_keys a))
  /\ r.2 = Z.of_nat (length (filter (fun k => presented (kw_key k) = true) (bsa_keys a))).
Proof.
  intros Hu Ht. destruct (satisfy_loop_spec presented _ _ 0 0 Hu Ht ltac:(done)) as [H1 H2].
  cbn. unfold bsa_v0_keys_satisfy_and_relevant. destruct (satisfy_loop _ _ _ _ _) as [t n]. cbn in *.
  rewrite Z.geb_leb, Z.leb_le. done.
Qed.

Definition demo_bsa : block_signing_authority_v0 Z := mk_bsa 2 [mk_kw 11 1; mk_kw 12 1; mk_kw 13 5].

Lemma keys_satisfy_spec_witness :
  (keys_satisfy_and_relevant (fun k => k <=? 12) (bsa_v0 demo_bsa)).1 = true
  /\ (keys_satisfy_and_relevant (fun k => k =? 12) (bsa_v0 demo_bsa)).2 = 1.
Proof.
  split.
  - apply (keys_satisfy_spec (fun k => k <=? 12) demo_bsa); [|widths; cbn; lia|vm_compute; discriminate].
    repeat constructor; vm_compute; intuition discriminate.
  - destruct (keys_satisfy_spec (fun k => k =? 12) demo_bsa) as [_ ->]; [|widths; cbn; lia|reflexivity].
    repeat constructor; vm_compute; intuition discriminate.
Defined.

(** ** The shared representation loses nothing *)
Section Roundtrip.
Context {WA : Type} `{EqDecision WA} (pack : WA -> list Z) (unpack : list Z -> res WA).
Hypothesis unpack_pack : forall w, unpack (pack w) = Ok w.

Lemma convert_roundtrip k : to_key_weight unpack (convert pack k) = Ok k.
Proof. destruct k as [[] w]; cbn; [done..|]. by rewrite unpack_pack. Qed.

Lemma res_map_roundtrip {A B} (f : A -> B) (g : B -> res A) (l : list A) :
  (forall a, g (f a) = Ok a) -> res_map g (map f l) = Ok l.
Proof. intros H. induction l as [|a l IH]; [done|]. cbn. by rewrite H, IH. Qed.

Lemma producer_authority_roundtrip p :
  producer_authority_from_shared unpack (producer_authority_to_shared pack p) = Ok p.
Proof.
  destruct p as [n [[t ks]]]. cbn. unfold bsa_v0_from_shared, bsa_v0_to_shared. cbn.
  by rewrite res_map_roundtrip by apply convert_roundtrip.
Qed.

Lemma keys_equal_convert l r : keys_equal unpack l (map (convert pack) r) = Ok (bool_decide (l = r)).
Proof.
  revert r. induction l as [|k l IH]; intros [|k' r]; cbn; [done..|].
  rewrite convert_roundtrip. cbn. destruct (bool_decide_reflect (k = k')) as [->|Hne].
  - rewrite IH. f_equal. apply bool_decide_ext. naive_solver.
  - rewrite bool_decide_false by naive_solver. done.
Qed.
End Roundtrip.

(** a producer schedule and an authority survive the conversion to the
    shared representation and back, and comparing a producer authority with a
    shared one agrees with equality, given that unpacking undoes packing. *)
Theorem shared_roundtrip {WA : Type} `{EqDecision WA} (pack : WA -> list Z) (unpack : list Z -> res WA) :
  (forall w, unpack (pack w) = Ok w) ->
  (forall s, schedule_from_shared unpack (schedule_to_shared pack s) = Ok s)
  /\ (forall a, to_authority unpack (assign_authority pack a) = Ok a)
  /\ (forall p q, producer_authority_eq_shared unpack p (producer_authority_to_shared pack q) = Ok (bool_decide (p = q))).
Proof.
  intros H. split_and!.
  - intros [v ps]. unfold schedule_from_shared, schedule_to_shared. cbn.
    by rewrite res_map_roundtrip by by apply producer_authority_roundtrip.
  - intros [t ks acc ws]. unfold to_authority, assign_authority. cbn.
    by rewrite res_map_roundtrip by by apply convert_roundtrip.
  - intros [n [[t ks]]] [n' [[t' ks']]]. unfold producer_authority_eq_shared. cbn.
    destruct (Z.eqb_spec n n') as [->|]; cbn; [|by rewrite bool_decide_false by congruence].
    destruct (Z.eqb_spec t t') as [->|]; cbn; [|by rewrite bool_decide_false by congruence].
    rewrite length_map. destruct (Nat.eqb_spec (length ks) (length ks')); cbn;
      [|by rewrite bool_decide_false by congruence].
    rewrite keys_equal_convert by done. f_equal. apply bool_decide_ext. naive_solver.
Qed.

Definition demo_pack (w : Z) : list Z := [w].
Definition demo_unpack (l : list Z) : res Z := match l with [w] => Ok w | _ => Err std_out_of_range end.
Definition demo_schedule : producer_authority_schedule (public_key_type Z) :=
  mk_schedule 7 [mk_pa 1 (bsa_v0 (mk_bsa 1 [mk_kw (k1_key [2; 3]) 1])); mk_pa 2 (bsa_v0 (mk_bsa 1 [mk_kw (wa_key 9) 1]))].

Lemma shared_roundtrip_witness :
  schedule_from_shared demo_unpack (schedule_to_shared demo_pack demo_schedule) = Ok demo_schedule.
Proof. apply (shared_roundtrip demo_pack demo_unpack). reflexivity. Defined.
