(* ===== verification/AuthorityChecker.v ===== *)
(** * The authority checker ([authority_checker.hpp], [parallel_markers.hpp])

    Decides whether a set of public keys, permission levels and a delay satisfy
    an authority.  The factors of an authority are visited from the highest
    weight to the lowest; a permission level is resolved by a callable of the
    client and evaluated recursively, with a cache of the levels already
    evaluated and a bound on the depth.  The keys that were needed are marked.

    The specification [granted] evaluates the authorities as a tree, without a
    cache, an order or a bound. *)

From S2P Require Import Prelude Authority.

Section Checker.
Context {K : Type} `{EqDecision K}.

Inductive permission_cache_status : Type :=
| being_evaluated
| permission_unsatisfied
| permission_satisfied.

#[global] Instance permission_cache_status_eq_dec : EqDecision permission_cache_status.
Proof. solve_decision. Defined.

(** [std::map<permission_level, permission_cache_status>] *)
Abbreviation permission_cache_type := (gmap permission_level permission_cache_status).

(** The callable [permission_to_authority] is an argument of the operations;
    a shared authority is given as the [authority] it converts to. *)
Record authority_checker : Type := mk_checker {
  provided_keys : list K;
  provided_permissions : list permission_level;
  _used_keys : list bool;
  provided_delay : Z;
  recursion_depth_limit : Z }.

Definition set_used_keys (used : list bool) (c : authority_checker) : authority_checker :=
  mk_checker (provided_keys c) (provided_permissions c) used (provided_delay c) (recursion_depth_limit c).
Definition set_provided_delay (delay : Z) (c : authority_checker) : authority_checker :=
  mk_checker (provided_keys c) (provided_permissions c) (_used_keys c) delay (recursion_depth_limit c).

(** The constructor: no key is used yet.  [make_auth_checker] passes a
    [checktime] that is never empty, so its assertion holds. *)
Definition make_auth_checker (recursion_depth_limit : Z) (provided_keys : list K)
    (provided_permissions : list permission_level) (provided_delay : Z) : authority_checker :=
  mk_checker provided_keys provided_permissions (replicate (length provided_keys) false)
    provided_delay recursion_depth_limit.

(** [map::emplace]: no effect when the key is present. *)
Definition cache_emplace (p : permission_level) (s : permission_cache_status) (m : permission_cache_type)
    : permission_cache_type :=
  match m !! p with Some _ => m | None => <[p := s]> m end.

Definition initialize_permission_cache (c : authority_checker) : permission_cache_type :=
  fold_left (fun m p => cache_emplace p permission_satisfied m) (provided_permissions c) ∅.

(** A level with an empty permission name stands for every permission of its
    actor. *)
Definition wildcard (level : permission_level) : permission_level := mk_pl (actor level) 0.

Definition permission_status_in_cache (permissions : permission_cache_type) (level : permission_level)
    : option permission_cache_status :=
  match permissions !! level with
  | Some s => Some s
  | None => permissions !! wildcard level
  end.

(** ** The factors of an authority in the order of their evaluation *)
Inductive meta_permission : Type :=
| meta_account (a : permission_level_weight)
| meta_key (k : key_weight K)
| meta_wait (w : wait_weight).

Definition meta_weight (m : meta_permission) : Z :=
  match m with meta_account a => plw_weight a | meta_key k => kw_weight k | meta_wait w => ww_weight w end.
Definition meta_priority (m : meta_permission) : Z :=
  match m with meta_account _ => 1 | meta_key _ => 2 | meta_wait _ => 3 end.

(** [std::greater] on [tuple(weight, priority)] *)
Definition meta_greater (l r : meta_permission) : bool :=
  (meta_weight l >? meta_weight r)
  || ((meta_weight l =? meta_weight r) && (meta_priority l >? meta_priority r)).

(** [flat_multimap::emplace]: at the upper bound of the key. *)
Fixpoint meta_emplace (m : meta_permission) (l : list meta_permission) : list meta_permission :=
  match l with
  | [] => [m]
  | e :: l => if meta_greater m e then m :: e :: l else e :: meta_emplace m l
  end.

Definition factors (auth : authority K) : list meta_permission :=
  map meta_account (accounts auth) ++ map meta_key (keys auth) ++ map meta_wait (waits auth).

Definition meta_permissions (auth : authority K) : list meta_permission :=
  fold_left (fun l m => meta_emplace m l) (factors auth) [].

(** ** Evaluation

    The state is the checker and the cache. *)
Abbreviation CM := (M (authority_checker * permission_cache_type)).

Definition seconds (s : Z) : Z := s * 1000000.

(** [weight_tally_visitor::operator()]: from the [total_weight] so far to the
    one after the factor. *)
Definition visit_wait (permission : wait_weight) (total_weight : Z) : CM Z :=
  '(checker, _) ← get;
  mret (if provided_delay checker >=? seconds (ww_wait_sec permission)
        then u32 (total_weight + ww_weight permission) else total_weight).

Definition visit_key (permission : key_weight K) (total_weight : Z) : CM Z :=
  '(checker, _) ← get;
  match list_find (fun k => k = kw_key permission) (provided_keys checker) with
  | Some (i, _) =>
      modify (fun '(c, cache) => (set_used_keys (<[i := true]> (_used_keys c)) c, cache));;
      mret (u32 (total_weight + kw_weight permission))
  | None => mret total_weight
  end.

Definition put_cache (p : permission_level) (s : permission_cache_status) : CM unit :=
  modify (fun '(c, cache) => (c, <[p := s]> cache)).

Section Visit.
Context (permission_to_authority : permission_level -> res (authority K)).

(** [satisfied] is the recursive check of an authority at a depth. *)
Definition visit_level (satisfied : authority K -> Z -> CM bool) (recursion_depth : Z)
    (permission : permission_level_weight) (total_weight : Z) : CM Z :=
  '(checker, cached_permissions) ← get;
  match permission_status_in_cache cached_permissions (plw_permission permission) with
  | None =>
      if recursion_depth <? recursion_depth_limit checker then
        match permission_to_authority (plw_permission permission) with
        | Err permission_query_exception => mret total_weight
        | Err e => throw e
        | Ok auth =>
            modify (fun '(c, cache) => (c, cache_emplace (plw_permission permission) being_evaluated cache));;
            r ← satisfied auth (recursion_depth + 1);
            if r : bool then
              put_cache (plw_permission permission) permission_satisfied;;
              mret (u32 (total_weight + plw_weight permission))
            else
              put_cache (plw_permission permission) permission_unsatisfied;;
              mret total_weight
        end
      else mret total_weight
  | Some permission_satisfied => mret (u32 (total_weight + plw_weight permission))
  | Some _ => mret total_weight
  end.

Definition visit (satisfied : authority K -> Z -> CM bool) (recursion_depth : Z)
    (m : meta_permission) (total_weight : Z) : CM Z :=
  match m with
  | meta_account a => visit_level satisfied recursion_depth a total_weight
  | meta_key k => visit_key k total_weight
  | meta_wait w => visit_wait w total_weight
  end.

(** The loop over the sorted factors, which stops at the threshold. *)
Fixpoint check_permissions (vis : meta_permission -> Z -> CM Z) (thr : Z) (ms : list meta_permission)
    (total_weight : Z) : CM bool :=
  match ms with
  | [] => mret false
  | m :: ms =>
      t ← vis m total_weight;
      if t >=? thr then mret true else check_permissions vis thr ms t
  end.

(** The scoped [KeyReverter]: unless the result is [true] the used keys are
    those from before, also when an exception passes. *)
Definition key_reverter (m : CM bool) : CM bool := fun s =>
  match m s with
  | (Ok true, s') => (Ok true, s')
  | (r, (c, cache)) => (r, (set_used_keys (_used_keys s.1) c, cache))
  end.

(** [satisfied(authority, cached_permissions, depth)]; [fuel] bounds the levels
    below, at most [recursion_depth_limit - depth] of them. *)
Fixpoint satisfied_at (fuel : nat) (auth : authority K) (depth : Z) : CM bool :=
  key_reverter
    (check_permissions
       (visit (match fuel with O => fun _ _ => throw out_of_fuel | S fuel => satisfied_at fuel end) depth)
       (threshold auth) (meta_permissions auth) 0).

Definition depth_fuel (c : authority_checker) : nat := Z.to_nat (recursion_depth_limit c).

(** The public [satisfied]: on a permission level and on an authority, with the
    cache of the caller or a fresh one. *)
Definition satisfied_permission (permission : permission_level) (cached_perms : option permission_cache_type)
    (c : authority_checker) : res bool * (authority_checker * permission_cache_type) :=
  let cached_perms := default (initialize_permission_cache c) cached_perms in
  (total_weight ← visit_level (satisfied_at (pred (depth_fuel c))) 0 (mk_plw permission 1) 0;
   mret (total_weight >? 0)) (c, cached_perms).

Definition satisfied_authority (auth : authority K) (cached_perms : option permission_cache_type)
    (c : authority_checker) : res bool * (authority_checker * permission_cache_type) :=
  let cached_perms := default (initialize_permission_cache c) cached_perms in
  satisfied_at (depth_fuel c) auth 0 (c, cached_perms).

(** The overloads with [override_provided_delay]: the delay is restored on
    every exit. *)
Definition with_delay (override_provided_delay : Z)
    (check : authority_checker -> res bool * (authority_checker * permission_cache_type)) (c : authority_checker)
    : res bool * (authority_checker * permission_cache_type) :=
  let '(r, (c', cache)) := check (set_provided_delay override_provided_delay c) in
  (r, (set_provided_delay (provided_delay c) c', cache)).
End Visit.

(** ** The keys used *)
Definition filter_data_by_marker (data : list K) (markers : list bool) (markerValue : bool) : list K :=
  map snd (filter (fun t => t.1 = markerValue) (zip markers data)).

Definition all_keys_used (c : authority_checker) : bool := forallb (fun b => Bool.eqb b true) (_used_keys c).
Definition used_keys (c : authority_checker) : list K := filter_data_by_marker (provided_keys c) (_used_keys c) true.
Definition unused_keys (c : authority_checker) : list K := filter_data_by_marker (provided_keys c) (_used_keys c) false.
End Checker.

Arguments authority_checker K : clear implicits.
Arguments meta_permission K : clear implicits.

(** ** Specification: the weight that is granted

    [granted n auth]: the authority is satisfied by the given keys, levels and
    delay with proofs of height at most [n].  Every factor counts once. *)
Section Granted.
Context {K : Type} `{EqDecision K} (permission_to_authority : permission_level -> res (authority K)).
Context (ks : list K) (perms : list permission_level) (delay : Z).

Definition level_granted (auth_granted : authority K -> bool) (p : permission_level) : bool :=
  bool_decide (p ∈ perms) || bool_decide (wildcard p ∈ perms)
  || match permission_to_authority p with Ok a => auth_granted a | Err _ => false end.

Definition factor_granted (auth_granted : authority K -> bool) (m : meta_permission K) : bool :=
  match m with
  | meta_account a => level_granted auth_granted (plw_permission a)
  | meta_key k => bool_decide (kw_key k ∈ ks)
  | meta_wait w => delay >=? seconds (ww_wait_sec w)
  end.

Definition granted_weight (auth_granted : authority K -> bool) (ms : list (meta_permission K)) : Z :=
  sum_of (fun m => if factor_granted auth_granted m then meta_weight m else 0) ms.

Fixpoint granted (n : nat) (auth : authority K) : bool :=
  match n with
  | O => false
  | S n => threshold auth <=? granted_weight (granted n) (factors auth)
  end.

Definition is_granted (auth : authority K) : Prop := exists n, granted n auth = true.
Definition level_is_granted (p : permission_level) : Prop := exists n, level_granted (granted n) p = true.

(** What [validate] ensures: the total weight does not overflow. *)
Definition well_formed (auth : authority K) : Prop :=
  0 < threshold auth /\ Forall (fun m => 0 <= meta_weight m) (factors auth)
  /\ sum_of meta_weight (factors auth) < 2 ^ 32.
End Granted.

(** ** The sorted factors are the factors *)
Lemma meta_emplace_perm {K} (m : meta_permission K) l : meta_emplace m l ≡ₚ m :: l.
Proof.
  induction l as [|e l IH]; [done|]. cbn. destruct (meta_greater m e); [done|].
  rewrite IH. apply Permutation_swap.
Qed.

Lemma meta_permissions_perm {K} (auth : authority K) : meta_permissions auth ≡ₚ factors auth.
Proof.
  unfold meta_permissions. set (l := factors auth). change l with ([] ++ l) at 2.
  generalize (@nil (meta_permission K)). induction l as [|m l IH]; intros acc; cbn [fold_left].
  - by rewrite app_nil_r.
  - rewrite IH, meta_emplace_perm. cbn. apply Permutation_middle.
Qed.

Lemma sum_of_perm {E} (w : E -> Z) l k : l ≡ₚ k -> sum_of w l = sum_of w k.
Proof. unfold sum_of. induction 1; cbn [foldr]; lia. Qed.

Lemma sum_of_nonneg {E} (w : E -> Z) l : Forall (fun e => 0 <= w e) l -> 0 <= sum_of w l.
Proof. unfold sum_of. induction 1; cbn [foldr]; lia. Qed.

Lemma sum_of_mono {E} (w v : E -> Z) l : Forall (fun e => w e <= v e) l -> sum_of w l <= sum_of v l.
Proof. unfold sum_of. induction 1; cbn [foldr]; lia. Qed.

Lemma sum_of_app {E} (w : E -> Z) l k : sum_of w (l ++ k) = sum_of w l + sum_of w k.
Proof. unfold sum_of. induction l as [|e l IH]; cbn [foldr app]; lia. Qed.

Lemma sum_of_map {E F} (w : F -> Z) (f : E -> F) l : sum_of w (map f l) = sum_of (fun e => w (f e)) l.
Proof. unfold sum_of. induction l as [|e l IH]; cbn [foldr map]; lia. Qed.

(** What the callers of [validate] get: an authority it accepts is well formed. *)
Lemma validate_well_formed {K} (key_lt : K -> K -> bool) (a : authority K) :
  authority_u16 a -> is_u32 (threshold a) -> validate key_lt a = true -> well_formed a.
Proof.
  intros Hu Ht Hv. unfold validate in Hv. fold (authority_size a) in Hv.
  destruct (authority_size a >? 2 ^ 16) eqn:Es; [done|]. destruct (threshold a =? 0) eqn:E0; [done|]. btests.
  pose proof (authority_weight_u32 a Hu Es) as Hw. unfold authority_weight in Hw.
  destruct Hu as (H1 & H2 & H3). split; [widths; lia|]. unfold factors. split.
  - rewrite !Forall_app, !Forall_map. split_and!; (eapply Forall_impl; [eassumption|]); intros x Hx; cbn in *; widths; lia.
  - rewrite !sum_of_app, !sum_of_map.
    change (sum_of plw_weight (accounts a) + (sum_of kw_weight (keys a) + sum_of ww_weight (waits a)) < 2 ^ 32).
    widths. lia.
Qed.

Section Sound.
Context {K : Type} `{EqDecision K} (pta : permission_level -> res (authority K)).
Context (ks : list K) (perms : list permission_level) (delay limit : Z).
Implicit Types (auth : authority K) (m : meta_permission K) (p : permission_level).

Abbreviation lgranted := (level_granted pta perms).
Abbreviation fgranted := (factor_granted pta ks perms delay).
Abbreviation agranted := (granted pta ks perms delay).
Abbreviation gweight := (granted_weight pta ks perms delay).
Abbreviation lgranted' := (level_is_granted pta ks perms delay).

Context (pta_wf : forall p a, pta p = Ok a -> well_formed a).

(** [f] is below [g] on the authorities that a level can resolve to. *)
Definition below (f g : authority K -> bool) : Prop :=
  forall p a, pta p = Ok a -> f a = true -> g a = true.

Lemma level_granted_mono f g p : below f g -> lgranted f p = true -> lgranted g p = true.
Proof.
  unfold level_granted. intros Hfg. destruct (bool_decide _); [done|].
  destruct (bool_decide _); [done|]. cbn. destruct (pta p) eqn:E; eauto.
Qed.

Lemma factor_granted_mono f g m : below f g -> fgranted f m = true -> fgranted g m = true.
Proof. intros Hfg. destruct m as [a| |]; cbn; try done. by apply level_granted_mono. Qed.

Lemma granted_weight_mono f g ms :
  below f g -> Forall (fun m => 0 <= meta_weight m) ms -> gweight f ms <= gweight g ms.
Proof.
  intros Hfg Hms. apply sum_of_mono. eapply Forall_impl; [exact Hms|]. intros m Hm. cbn in *.
  destruct (fgranted f m) eqn:E; [by rewrite (factor_granted_mono f g m)|]. destruct (fgranted g m); lia.
Qed.

Lemma granted_step n auth : well_formed auth -> agranted n auth = true -> agranted (S n) auth = true.
Proof.
  revert auth. induction n as [|n IH]; intros auth (_ & Hw & _); [done|]. cbn. intros Hn.
  btests. apply Z.leb_le. etransitivity; [exact Hn|]. apply granted_weight_mono; [|done].
  intros p a Ha. apply IH. eauto.
Qed.

Lemma granted_mono n k auth : well_formed auth -> (n <= k)%nat -> agranted n auth = true -> agranted k auth = true.
Proof. intros Hw. induction 1 as [|k _ IH]; [done|]. eauto using granted_step. Qed.

Lemma below_granted n k : (n <= k)%nat -> below (agranted n) (agranted k).
Proof. intros Hn p a Ha. apply granted_mono; eauto. Qed.

Definition f_is_granted m : Prop := exists n, fgranted (agranted n) m = true.

(** The granted weight of a list of factors is reached at some height. *)
Lemma granted_weight_cons g ms m : gweight g (m :: ms) = (if fgranted g m then meta_weight m else 0) + gweight g ms.
Proof. done. Qed.

Lemma level_is_granted_iff p : lgranted' p <->
  p ∈ perms \/ wildcard p ∈ perms \/ exists a, pta p = Ok a /\ is_granted pta ks perms delay a.
Proof.
  unfold level_is_granted, level_granted. split.
  - intros [n Hn]. btests. destruct Hn as [Hn|Hn]; [btests; destruct Hn as [Hn|Hn];
      apply bool_decide_eq_true in Hn; auto|]. destruct (pta p) as [a|] eqn:E; [|done]. right; right. by exists a; split; [|exists n].
  - intros [Hp|[Hp|(a & Ha & n & Hn)]].
    + exists O. by rewrite bool_decide_true.
    + exists O. by rewrite (bool_decide_true _ Hp), orb_true_r.
    + exists n. rewrite Ha, Hn. by rewrite orb_true_r.
Qed.

(** ** The invariant of the evaluation

    [bound], [rank] and [acyclic] serve the completeness: when [acyclic] holds
    every authority refers only to levels of smaller rank, and the levels under
    evaluation have a rank of at least the bound. *)
Context (acyclic : Prop) (rank : permission_level -> nat).
Context (rank_lt : acyclic -> forall p a q, pta p = Ok a -> q ∈ map plw_permission (accounts a) -> (rank q < rank p)%nat).
Context (no_wildcard : forall a, succeeds (pta (mk_pl a 0)) = false).

Definition entry_ok (bound : nat) p (st : permission_cache_status) : Prop :=
  match st with
  | permission_satisfied => lgranted' p
  | permission_unsatisfied => acyclic -> ~ lgranted' p
  | being_evaluated => acyclic -> (bound <= rank p)%nat
  end.

Record cache_ok (bound : nat) (cache : gmap permission_level permission_cache_status) : Prop := {
  co_entry : forall p st, cache !! p = Some st -> entry_ok bound p st;
  co_perms : forall p, p ∈ perms -> cache !! p = Some permission_satisfied;
  co_wildcard : forall a st, cache !! mk_pl a 0 = Some st -> mk_pl a 0 ∈ perms }.

(** The parameters of the checker, which no operation changes. *)
Definition checker_is (c : authority_checker K) : Prop :=
  provided_keys c = ks /\ provided_permissions c = perms /\ provided_delay c = delay
  /\ recursion_depth_limit c = limit /\ length (_used_keys c) = length ks.

Definition used_le (l r : list bool) : Prop := forall i : nat, l !! i = Some true -> r !! i = Some true.

Abbreviation state := (authority_checker K * gmap permission_level permission_cache_status)%type.

Definition state_ok (bound : nat) (s : state) : Prop := checker_is s.1 /\ cache_ok bound s.2.

(** What a successful evaluation may change. *)
Record frame (bound : nat) (s s' : state) : Prop := {
  fr_ok : state_ok bound s';
  fr_used : used_le (_used_keys s.1) (_used_keys s'.1);
  fr_being : forall p, s'.2 !! p = Some being_evaluated -> s.2 !! p = Some being_evaluated }.

Definition pta_throws (e : exn) : Prop := e <> permission_query_exception /\ exists p, pta p = Err e.

Definition visit_spec (bound : nat) (r : res Z * state) (s : state) m (total : Z) : Prop :=
  match r with
  | (Ok t, s') => frame bound s s' /\ exists counted : bool,
      t = (if counted then u32 (total + meta_weight m) else total)
      /\ (counted = true -> f_is_granted m) /\ (acyclic -> f_is_granted m -> counted = true)
  | (Err e, s') => checker_is s'.1 /\ pta_throws e
  end.

Definition satisfied_spec (bound : nat) (r : res bool * state) (s : state) auth : Prop :=
  match r with
  | (Ok b, s') => frame bound s s' /\ (b = true -> is_granted pta ks perms delay auth)
      /\ (acyclic -> is_granted pta ks perms delay auth -> b = true)
  | (Err e, s') => checker_is s'.1 /\ pta_throws e
  end.

Lemma frame_refl bound s : state_ok bound s -> frame bound s s.
Proof. intros Hs. split; [done|by intros i|done]. Qed.

Lemma frame_trans bound s1 s2 s3 : frame bound s1 s2 -> frame bound s2 s3 -> frame bound s1 s3.
Proof. intros [] [H1 H2 H3]. split; [done|intros i; auto|auto]. Qed.

(** *** Waits and keys *)
Lemma visit_wait_spec bound s w total : state_ok bound s ->
  visit_spec bound (visit_wait w total s) s (meta_wait w) total.
Proof.
  intros Hs. destruct s as [c cache]. pose proof Hs as [(_ & _ & Hd & _) _]. cbn in Hd.
  unfold visit_wait. mrun. split; [by apply frame_refl|]. exists (provided_delay c >=? seconds (ww_wait_sec w)).
  split; [by destruct (_ >=? _)|]. rewrite Hd. unfold f_is_granted. cbn. split; [by exists O|by intros _ [? ?]].
Qed.

Lemma list_find_key (k : K) (l : list K) :
  match list_find (fun k' => k' = k) l with Some _ => k ∈ l | None => k ∉ l end.
Proof.
  destruct (list_find _ l) as [[i x]|] eqn:E.
  - apply list_find_Some in E as (Hi & -> & _). by eapply list_elem_of_lookup_2.
  - apply list_find_None in E. intros Hin. rewrite Forall_forall in E. by apply (E k).
Qed.

Lemma visit_key_spec bound s k total : state_ok bound s ->
  visit_spec bound (visit_key k total s) s (meta_key k) total.
Proof.
  intros Hs. destruct s as [c cache]. pose proof Hs as [(Hk & Hp & Hd & Hl & Hu) Hc]. cbn in Hk, Hp, Hd, Hl, Hu.
  unfold visit_key. pose proof (list_find_key (kw_key k) ks) as Hf. rewrite <- Hk in Hf. mrun.
  destruct (list_find _ (provided_keys c)) as [[i x]|] eqn:E; cbn.
  - split; [|exists true; split; [done|]; split; [|done]; intros _; exists O; cbn; apply bool_decide_eq_true; congruence].
    split; [split; [|done]| |done].
    + repeat split; cbn; try done. by rewrite length_insert.
    + intros j Hj. cbn. destruct (decide (i = j)) as [->|Hne]; [|by rewrite list_lookup_insert_ne].
      rewrite list_lookup_insert_eq; [done|]. by eapply lookup_lt_Some.
  - split; [by apply frame_refl|]. exists false. split; [done|]. split; [done|].
    intros _ [n Hn]. cbn in Hn. apply bool_decide_eq_true in Hn. congruence.
Qed.

(** *** Permission levels *)
Lemma status_satisfied bound cache p : cache_ok bound cache ->
  permission_status_in_cache cache p = Some permission_satisfied -> lgranted' p.
Proof.
  intros [He Hp Hw]. unfold permission_status_in_cache. destruct (cache !! p) as [st|] eqn:E.
  - intros [= ->]. apply (He _ _ E).
  - intros Hs. apply Hw in Hs. apply level_is_granted_iff. auto.
Qed.

Lemma status_other bound cache p st : cache_ok bound cache -> acyclic -> (rank p < bound)%nat ->
  permission_status_in_cache cache p = Some st -> st <> permission_satisfied -> ~ lgranted' p.
Proof.
  intros [He Hp Hw] Ha Hr. unfold permission_status_in_cache. destruct (cache !! p) as [st'|] eqn:E.
  - intros [= ->] Hne. pose proof (He _ _ E) as Hst. destruct st; cbn in Hst; [|by auto|done].
    specialize (Hst Ha). lia.
  - intros Hs Hne. pose proof (Hw _ _ Hs) as Hin. apply Hp in Hin. unfold wildcard in Hs. congruence.
Qed.

Lemma status_none bound cache p : cache_ok bound cache ->
  permission_status_in_cache cache p = None -> cache !! p = None /\ (p ∉ perms) /\ wildcard p ∉ perms.
Proof.
  intros [He Hp Hw]. unfold permission_status_in_cache. destruct (cache !! p) as [st|] eqn:E; [done|].
  intros Hs. split; [done|]. split; intros Hin%Hp; congruence.
Qed.

Lemma cache_ok_insert bound bound' cache p st :
  cache_ok bound cache -> (acyclic -> (bound' <= bound)%nat) -> succeeds (pta p) = true ->
  entry_ok bound' p st -> p ∉ perms ->
  cache_ok bound' (<[p := st]> cache).
Proof.
  intros [He Hp Hw] Hb Hs Hst Hnp. split.
  - intros q sq. destruct (decide (p = q)) as [->|Hne].
    + rewrite lookup_insert_eq. by intros [= <-].
    + rewrite lookup_insert_ne by done. intros Hq. specialize (He _ _ Hq). destruct sq; cbn in *; auto.
      intros Ha. specialize (He Ha). specialize (Hb Ha). lia.
  - intros q Hq. destruct (decide (p = q)) as [->|Hne]; [done|]. rewrite lookup_insert_ne by done. auto.
  - intros a sa. destruct (decide (p = mk_pl a 0)) as [->|Hne].
    + by rewrite no_wildcard in Hs.
    + rewrite lookup_insert_ne by done. apply Hw.
Qed.

(** After the evaluation of a level its entry is replaced, and no entry of the
    result is under evaluation that was not before. *)
Lemma cache_ok_done bound cache cache' p st :
  cache_ok bound cache -> cache_ok (rank p) cache' -> cache !! p = None ->
  (forall q, cache' !! q = Some being_evaluated -> (<[p := being_evaluated]> cache) !! q = Some being_evaluated) ->
  succeeds (pta p) = true -> st <> being_evaluated -> entry_ok bound p st -> p ∉ perms ->
  cache_ok bound (<[p := st]> cache').
Proof.
  intros Hc Hc' Hnone Hb Hs Hne Hst Hnp. destruct Hc as [He Hp Hw]. destruct Hc' as [He' Hp' Hw']. split.
  - intros q sq. destruct (decide (p = q)) as [->|Hpq].
    + rewrite lookup_insert_eq. by intros [= <-].
    + rewrite lookup_insert_ne by done. intros Hq. pose proof (He' _ _ Hq) as Hsq. destruct sq; cbn in *; auto.
      apply Hb in Hq. rewrite lookup_insert_ne in Hq by done. apply (He _ _ Hq).
  - intros q Hq. destruct (decide (p = q)) as [->|Hpq]; [done|]. rewrite lookup_insert_ne by done. auto.
  - intros a sa. destruct (decide (p = mk_pl a 0)) as [->|Hpq].
    + by rewrite no_wildcard in Hs.
    + rewrite lookup_insert_ne by done. apply Hw'.
Qed.

Definition rec_spec (depth : Z) (rec : authority K -> Z -> M state bool) : Prop := forall auth bound s,
  well_formed auth -> state_ok bound s ->
  (acyclic -> (forall q, q ∈ map plw_permission (accounts auth) -> (rank q < bound)%nat) /\ depth + Z.of_nat bound <= limit) ->
  satisfied_spec bound (rec auth depth s) s auth.

(** The state in which the authority of a resolved level is evaluated. *)
Lemma enter_level bound c cache p auth : state_ok bound (c, cache) -> pta p = Ok auth ->
  cache !! p = None -> p ∉ perms -> (acyclic -> (rank p < bound)%nat) ->
  state_ok (rank p) (c, <[p := being_evaluated]> cache).
Proof.
  intros [Hc Hcache] Hp Hnone Hnp Hr. split; [done|]. cbn in *.
  apply (cache_ok_insert bound); [done|intros Ha; specialize (Hr Ha); lia|by rewrite Hp|by intros Ha|done].
Qed.

(** Leaving it with the result [b] restores the bound of the caller. *)
Lemma leave_level bound c cache c' cache' p auth (b : bool) :
  state_ok bound (c, cache) -> pta p = Ok auth -> cache !! p = None -> p ∉ perms -> wildcard p ∉ perms ->
  satisfied_spec (rank p) (Ok b, (c', cache')) (c, <[p := being_evaluated]> cache) auth ->
  frame bound (c, cache) (c', <[p := if b then permission_satisfied else permission_unsatisfied]> cache')
  /\ (b = true -> lgranted' p) /\ (acyclic -> lgranted' p -> b = true).
Proof.
  intros [Hc Hcache] Hp Hnone Hnp Hnw ([[Hc' Hcache'] Hused Hbeing] & Hb1 & Hb2). cbn in *.
  assert (H1 : b = true -> lgranted' p) by (intros Hb; apply level_is_granted_iff; eauto 6).
  assert (H2 : acyclic -> lgranted' p -> b = true).
  { intros Ha. rewrite level_is_granted_iff. intros [?|[?|(x & Hx & Hg)]]; [done..|]. apply Hb2; congruence. }
  split; [|done]. split; cbn; [split; cbn; [done|]|done|].
  - apply (cache_ok_done bound cache); try done; [by rewrite Hp|by destruct b|].
    destruct b; cbn; [by apply H1|]. intros Ha Hg. by discriminate (H2 Ha Hg).
  - intros q. destruct (decide (p = q)) as [<-|Hne]; [rewrite lookup_insert_eq; by destruct b|].
    rewrite lookup_insert_ne by done. intros Hq%Hbeing. by rewrite lookup_insert_ne in Hq.
Qed.

Lemma visit_level_spec rec bound depth s a total :
  (depth < limit -> rec_spec (depth + 1) rec) -> state_ok bound s ->
  (acyclic -> (rank (plw_permission a) < bound)%nat /\ depth + Z.of_nat bound <= limit) ->
  visit_spec bound (visit_level pta rec depth a total s) s (meta_account a) total.
Proof.
  intros Hrec Hs Hr. destruct s as [c cache]. pose proof Hs as [Hc Hcache]. cbn in Hc, Hcache.
  set (p := plw_permission a) in *. unfold visit_level. cbv [mbind M_bind get]. fold p.
  assert (Hf : f_is_granted (meta_account a) <-> lgranted' p) by done.
  destruct (permission_status_in_cache cache p) as [st|] eqn:Est.
  - assert (Hno : st <> permission_satisfied -> visit_spec bound (Ok total, (c, cache)) (c, cache) (meta_account a) total).
    { intros Hne. split; [by apply frame_refl|]. exists false. split; [done|]. split; [done|]. rewrite Hf.
      intros Ha Hg. destruct (Hr Ha). by edestruct (status_other bound cache p st). }
    destruct st; [by apply Hno| by apply Hno|]. split; [by apply frame_refl|]. exists true.
    split; [done|]. split; [|done]. intros _. rewrite Hf. by eapply status_satisfied.
  - apply (status_none bound) in Est as (Hnone & Hnp & Hnw); [|done].
    assert (Hno : (acyclic -> forall x, pta p = Ok x -> ~ is_granted pta ks perms delay x) ->
        visit_spec bound (Ok total, (c, cache)) (c, cache) (meta_account a) total).
    { intros Hx. split; [by apply frame_refl|]. exists false. split; [done|]. split; [done|]. rewrite Hf, level_is_granted_iff.
      intros Ha [?|[?|(x & Hxp & Hg)]]; [done..|]. by edestruct Hx. }
    assert (Hlim : recursion_depth_limit c = limit) by apply Hc. rewrite Hlim.
    destruct (depth <? limit) eqn:Ed; [|apply Hno; intros Ha; destruct (Hr Ha); btests; lia].
    destruct (pta p) as [auth|e] eqn:Ep.
    + assert (Hemp : cache_emplace p being_evaluated cache = <[p := being_evaluated]> cache)
        by (unfold cache_emplace; by rewrite Hnone).
      cbv [modify]. rewrite Hemp.
      assert (Hin : state_ok (rank p) (c, <[p := being_evaluated]> cache))
        by (eapply (enter_level bound); eauto; intros Ha; apply (Hr Ha)).
      assert (Hdepth : acyclic -> depth + 1 + Z.of_nat (rank p) <= limit)
        by (intros Ha; destruct (Hr Ha); lia).
      btests. specialize (Hrec Ed auth (rank p) _ (pta_wf _ _ Ep) Hin
        (fun Ha => conj (fun q => rank_lt Ha p auth q Ep) (Hdepth Ha))).
      destruct (rec auth (depth + 1) _) as [[b|e] [c' cache']]; [|done].
      edestruct (leave_level bound c cache c' cache' p auth b) as (Hfr & H1 & H2); try done.
      destruct b; (split; [done|]); eexists; (split; [|rewrite Hf; by split]); done.
    + destruct (decide (e = permission_query_exception)) as [->|Hne]; [by apply Hno|].
      assert (Hthrow : visit_spec bound (Err e, (c, cache)) (c, cache) (meta_account a) total)
        by (split; [done|]; split; [done|]; by exists p).
      by destruct e.
Qed.

Lemma key_reverter_used (x : M state bool) s :
  (key_reverter x s).1 <> Ok true -> _used_keys (key_reverter x s).2.1 = _used_keys s.1.
Proof. unfold key_reverter. by destruct (x s) as [[[]|e] [c' cache']]. Qed.

Lemma satisfied_at_used fuel auth depth s :
  (satisfied_at pta fuel auth depth s).1 <> Ok true ->
  _used_keys (satisfied_at pta fuel auth depth s).2.1 = _used_keys s.1.
Proof. destruct fuel; apply key_reverter_used. Qed.

Lemma visit_level_used fuel depth p s :
  (visit_level pta (satisfied_at pta fuel) depth (mk_plw p 1) 0 s).1 <> Ok 1 ->
  _used_keys (visit_level pta (satisfied_at pta fuel) depth (mk_plw p 1) 0 s).2.1 = _used_keys s.1.
Proof.
  destruct s as [c cache]. unfold visit_level. cbv [mbind M_bind get]. cbn [plw_permission plw_weight].
  destruct (permission_status_in_cache cache p) as [[]|]; [done..|].
  destruct (depth <? _); [|done]. destruct (pta p) as [auth|e]; [|by destruct e].
  cbv [modify]. pose proof (satisfied_at_used fuel auth (depth + 1) (c, cache_emplace p being_evaluated cache)) as Hu.
  by destruct (satisfied_at _ _ _ _ _) as [[[]|e] [c' cache']]; cbn in *; auto.
Qed.

(** *** The loop over the factors *)
Definition tally (visited : list (meta_permission K)) (t : Z) : Prop :=
  0 <= t <= sum_of meta_weight visited
  /\ (exists n, t <= gweight (agranted n) visited)
  /\ (acyclic -> forall n, gweight (agranted n) visited <= t).

Lemma sum_of_cons {E} (w : E -> Z) e l : sum_of w (e :: l) = w e + sum_of w l.
Proof. done. Qed.

Lemma granted_weight_app g l k : gweight g (l ++ k) = gweight g l + gweight g k.
Proof. apply sum_of_app. Qed.

Lemma granted_weight_le_app n l k : Forall (fun m => 0 <= meta_weight m) k ->
  gweight (agranted n) l <= gweight (agranted n) (l ++ k).
Proof.
  intros Hk. rewrite granted_weight_app.
  enough (0 <= gweight (agranted n) k) by lia. apply sum_of_nonneg.
  eapply Forall_impl; [exact Hk|]. intros m Hm. cbn in *. by destruct (factor_granted _ _ _ _ _ m).
Qed.

Lemma tally_step visited t m (counted : bool) :
  tally visited t -> Forall (fun m => 0 <= meta_weight m) (visited ++ [m]) ->
  sum_of meta_weight (visited ++ [m]) < 2 ^ 32 ->
  (counted = true -> f_is_granted m) -> (acyclic -> f_is_granted m -> counted = true) ->
  tally (visited ++ [m]) (if counted then u32 (t + meta_weight m) else t).
Proof.
  intros (Ht & [n Hn] & Ha) Hw Hsum Hg1 Hg2. apply Forall_app in Hw as [Hv [Hm _]%Forall_cons].
  rewrite sum_of_app, sum_of_cons in Hsum. change (sum_of meta_weight []) with 0 in Hsum. split; [|split].
  - rewrite sum_of_app, sum_of_cons. change (sum_of meta_weight []) with 0.
    destruct counted; [|lia]. nowrap. lia.
  - destruct counted.
    + destruct (Hg1 eq_refl) as [k Hk]. exists (n `max` k)%nat. rewrite granted_weight_app, granted_weight_cons.
      rewrite (factor_granted_mono (agranted k)); [|by apply below_granted; lia|done].
      change (gweight _ []) with 0. etransitivity; [|apply Z.add_le_mono_r, (granted_weight_mono (agranted n));
        [by apply below_granted; lia|done]]. nowrap. lia.
    + exists n. etransitivity; [exact Hn|]. apply granted_weight_le_app. by repeat constructor.
  - intros Hac k. specialize (Ha Hac k). rewrite granted_weight_app, granted_weight_cons.
    change (gweight _ []) with 0. destruct (fgranted (agranted k) m) eqn:E.
    + rewrite Hg2 by (done || by exists k). nowrap. lia.
    + destruct counted; nowrap; lia.
Qed.

Definition rank_below (bound : nat) m : Prop :=
  match m with meta_account a => (rank (plw_permission a) < bound)%nat | _ => True end.

Lemma visit_ok rec bound depth s m total :
  (depth < limit -> rec_spec (depth + 1) rec) -> state_ok bound s ->
  (acyclic -> rank_below bound m /\ depth + Z.of_nat bound <= limit) ->
  visit_spec bound (visit pta rec depth m total s) s m total.
Proof.
  intros Hrec Hs Hr. destruct m as [a|k|w]; cbn [visit].
  - by apply visit_level_spec.
  - by apply visit_key_spec.
  - by apply visit_wait_spec.
Qed.

Lemma check_permissions_spec rec bound depth thr : (depth < limit -> rec_spec (depth + 1) rec) -> forall ms visited t s,
  state_ok bound s ->
  Forall (fun m => 0 <= meta_weight m) (visited ++ ms) -> sum_of meta_weight (visited ++ ms) < 2 ^ 32 ->
  tally visited t -> t < thr ->
  (acyclic -> Forall (rank_below bound) ms /\ depth + Z.of_nat bound <= limit) ->
  match check_permissions (visit pta rec depth) thr ms t s with
  | (Ok true, s') => frame bound s s' /\ exists n, thr <= gweight (agranted n) (visited ++ ms)
  | (Ok false, s') => frame bound s s' /\ (acyclic -> forall n, gweight (agranted n) (visited ++ ms) < thr)
  | (Err e, s') => checker_is s'.1 /\ pta_throws e
  end.
Proof.
  intros Hrec. induction ms as [|m ms IH]; intros visited t s Hs Hw Hsum Ht Hthr Hr.
  - split; [by apply frame_refl|]. intros Ha n. rewrite app_nil_r. destruct Ht as (_ & _ & H). specialize (H Ha n). lia.
  - cbn [check_permissions]. cbv [mbind M_bind].
    assert (Hm : acyclic -> rank_below bound m /\ depth + Z.of_nat bound <= limit).
    { intros Ha. destruct (Hr Ha) as [Hf ?]. by inversion Hf. }
    pose proof (visit_ok rec bound depth s m t Hrec Hs Hm) as Hv. unfold visit_spec in Hv.
    destruct (visit pta rec depth m t s) as [[t'|e] s1]; [|done].
    destruct Hv as (Hfr & counted & Hcounted & Hg1 & Hg2).
    change (m :: ms) with ([m] ++ ms) in Hw, Hsum |- *. rewrite app_assoc in Hw, Hsum |- *.
    pose proof Hw as [Hw1 Hw2]%Forall_app. rewrite sum_of_app in Hsum.
    assert (Ht' : tally (visited ++ [m]) t').
    { rewrite Hcounted. apply tally_step; try done. pose proof (sum_of_nonneg _ _ Hw2). lia. }
    destruct (t' >=? thr) eqn:E; btests.
    + split; [done|]. destruct Ht' as (_ & [n Hn] & _). exists n.
      pose proof (granted_weight_le_app n (visited ++ [m]) ms Hw2). lia.
    + assert (Hr' : acyclic -> Forall (rank_below bound) ms /\ depth + Z.of_nat bound <= limit).
      { intros Ha. destruct (Hr Ha) as [Hf ?]. by inversion Hf. }
      rewrite <- sum_of_app in Hsum. specialize (IH _ t' s1 (fr_ok _ _ _ Hfr) Hw Hsum Ht' E Hr').
      destruct (check_permissions _ _ _ _ _) as [[[]|e] s2]; [| |done];
        destruct IH as [Hfr2 ?]; (split; [|done]); by eapply frame_trans.
Qed.

(** *** Authorities *)
Lemma is_granted_iff auth : well_formed auth ->
  is_granted pta ks perms delay auth <-> exists n, threshold auth <= gweight (agranted n) (meta_permissions auth).
Proof.
  intros _. unfold is_granted. split.
  - intros [[|n] Hn]; [done|]. cbn in Hn. btests. exists n. unfold granted_weight in *.
    by rewrite (sum_of_perm _ _ _ (meta_permissions_perm auth)).
  - intros [n Hn]. exists (S n). cbn. apply Z.leb_le. unfold granted_weight in *.
    by rewrite <- (sum_of_perm _ _ _ (meta_permissions_perm auth)).
Qed.

Lemma key_reverter_spec bound (x : M state bool) s auth :
  match x s with
  | (Ok true, s') => frame bound s s' /\ is_granted pta ks perms delay auth
  | (Ok false, s') => frame bound s s' /\ (acyclic -> ~ is_granted pta ks perms delay auth)
  | (Err e, s') => checker_is s'.1 /\ pta_throws e
  end ->
  checker_is s.1 ->
  satisfied_spec bound (key_reverter x s) s auth.
Proof.
  unfold key_reverter. intros Hx (_ & _ & _ & _ & Hu). destruct (x s) as [[[]|e] [c' cache']]; cbn.
  - destruct Hx as [Hfr Hg]. split; [exact Hfr|done].
  - destruct Hx as [[[(?&?&?&?&?) Hc] Hus Hb] Hg]. split; [|split; [done|intros Ha ?; by destruct (Hg Ha)]].
    split; [|by intros i|done]. split; [|done]. by repeat split.
  - destruct Hx as [(?&?&?&?&?) He]. split; [|done]. by repeat split.
Qed.

Lemma tally_nil : tally [] 0.
Proof. split; [done|]. split; [by exists O|done]. Qed.

Lemma rank_below_factors bound auth :
  (forall q, q ∈ map plw_permission (accounts auth) -> (rank q < bound)%nat) ->
  Forall (rank_below bound) (meta_permissions auth).
Proof.
  intros Hq. rewrite meta_permissions_perm. unfold factors. rewrite !Forall_app. split; [|split].
  - rewrite Forall_map, Forall_forall. intros a Ha. cbn. apply Hq. by apply (list_elem_of_fmap_2 plw_permission).
  - rewrite Forall_map. by apply Forall_true.
  - rewrite Forall_map. by apply Forall_true.
Qed.

Lemma satisfied_at_spec fuel : forall depth auth bound s,
  limit - depth <= Z.of_nat fuel -> well_formed auth -> state_ok bound s ->
  (acyclic -> (forall q, q ∈ map plw_permission (accounts auth) -> (rank q < bound)%nat) /\ depth + Z.of_nat bound <= limit) ->
  satisfied_spec bound (satisfied_at pta fuel auth depth s) s auth.
Proof.
  induction fuel as [|fuel IH]; intros depth auth bound s Hfuel Hwf Hs Hr;
    pose proof Hwf as (Hthr & Hw & Hsum); rewrite <- (meta_permissions_perm auth) in Hw;
    rewrite <- (sum_of_perm _ _ _ (meta_permissions_perm auth)) in Hsum;
    cbn [satisfied_at]; (apply key_reverter_spec; [|apply Hs]);
    [set (rec := fun _ _ => throw out_of_fuel)|set (rec := satisfied_at pta fuel)].
  all: assert (Hrec : depth < limit -> rec_spec (depth + 1) rec);
    [try (intros; cbn in Hfuel; lia); intros _ a b s1 Ha Hs1 Hr1; by apply IH; [lia|..]|].
  all: pose proof (check_permissions_spec rec bound depth (threshold auth) Hrec (meta_permissions auth) [] 0 s
         Hs Hw Hsum tally_nil Hthr
         (fun Ha => conj (rank_below_factors bound auth (proj1 (Hr Ha))) (proj2 (Hr Ha)))) as H.
  all: destruct (check_permissions _ _ _ _ _) as [[[]|e] s']; [| |done]; destruct H as [Hfr H]; (split; [done|]);
    rewrite is_granted_iff by done; [done|].
  all: intros Ha [n Hn]; specialize (H Ha n); cbn [app] in H; lia.
Qed.

Lemma initialize_cache_lookup (c : authority_checker K) p st :
  initialize_permission_cache c !! p = Some st <-> st = permission_satisfied /\ p ∈ provided_permissions c.
Proof.
  unfold initialize_permission_cache.
  assert (H : forall l (mc : gmap permission_level permission_cache_status), (forall q sq, mc !! q = Some sq -> sq = permission_satisfied) ->
    fold_left (fun mc q => cache_emplace q permission_satisfied mc) l mc !! p = Some st
    <-> mc !! p = Some st \/ (st = permission_satisfied /\ p ∈ l)).
  { induction l as [|q l IH]; intros mc Hm; cbn [fold_left].
    - rewrite elem_of_nil. tauto.
    - rewrite IH; unfold cache_emplace.
      + rewrite elem_of_cons. destruct (mc !! q) as [sq|] eqn:E.
        * split; [tauto|]. intros [?|[-> [->|?]]]; [tauto| |tauto]. left. rewrite E. by rewrite (Hm _ _ E).
        * destruct (decide (p = q)) as [->|Hne].
          -- rewrite lookup_insert_eq, E. naive_solver.
          -- rewrite lookup_insert_ne by done. naive_solver.
      + intros q' sq'. destruct (mc !! q) eqn:E; [apply Hm|].
        destruct (decide (q = q')) as [->|Hne]; [rewrite lookup_insert_eq; naive_solver|].
        rewrite lookup_insert_ne by done. apply Hm. }
  rewrite H by done. rewrite lookup_empty. naive_solver.
Qed.

Lemma initial_cache_ok bound (c : authority_checker K) :
  provided_permissions c = perms -> cache_ok bound (initialize_permission_cache c).
Proof.
  intros Hp. split.
  - intros p st [-> Hin]%initialize_cache_lookup. cbn. apply level_is_granted_iff. left. congruence.
  - intros p Hin. apply initialize_cache_lookup. split; congruence.
  - intros a st [_ Hin]%initialize_cache_lookup. congruence.
Qed.
End Sound.

(** ** The interface of the client's resolver

    A resolver gives well-formed authorities (what [validate] accepts) and
    does not resolve a level with an empty name, which stands for a wildcard. *)
Class Resolver {K} (permission_to_authority : permission_level -> res (authority K)) : Prop := {
  resolver_well_formed : forall p a, permission_to_authority p = Ok a -> well_formed a;
  resolver_no_wildcard : forall a, succeeds (permission_to_authority (mk_pl a 0)) = false }.

Section Theorems.
Context {K : Type} `{EqDecision K} (pta : permission_level -> res (authority K)) `{!Resolver pta}.

(** The level is granted by what the checker was given. *)
Definition checker_grants (c : authority_checker K) (p : permission_level) : Prop :=
  level_is_granted pta (provided_keys c) (provided_permissions c) (provided_delay c) p.

(** Every authority refers only to levels of smaller rank. *)
Definition ranked (rank : permission_level -> nat) : Prop := forall p a q,
  pta p = Ok a -> q ∈ map plw_permission (accounts a) -> (rank q < rank p)%nat.

Lemma checker_is_self (c : authority_checker K) : length (_used_keys c) = length (provided_keys c) ->
  checker_is (provided_keys c) (provided_permissions c) (provided_delay c) (recursion_depth_limit c) c.
Proof. done. Qed.

Lemma checker_is_same (c c' : authority_checker K) :
  checker_is (provided_keys c) (provided_permissions c) (provided_delay c) (recursion_depth_limit c) c' ->
  _used_keys c' = _used_keys c -> c' = c.
Proof. destruct c, c'. intros (?&?&?&?&?) ?. cbn in *. congruence. Qed.

Abbreviation start c := (c, initialize_permission_cache c).
Abbreviation given := (fun (f : list K -> list permission_level -> Z -> Z -> _) (c : authority_checker K) =>
  f (provided_keys c) (provided_permissions c) (provided_delay c) (recursion_depth_limit c)).

Lemma start_ok acyclic rank bound (c : authority_checker K) :
  length (_used_keys c) = length (provided_keys c) ->
  given (fun ks perms delay limit => state_ok pta ks perms delay limit acyclic rank bound (start c)) c.
Proof. intros Hlen. split; [by apply checker_is_self|]. by apply initial_cache_ok; try apply Resolver0. Qed.

Lemma visit_permission_spec (acyclic : Prop) rank p (c : authority_checker K) :
  (acyclic -> ranked rank /\ (rank p < depth_fuel c)%nat) ->
  length (_used_keys c) = length (provided_keys c) ->
  given (fun ks perms delay limit => visit_spec pta ks perms delay limit acyclic rank (depth_fuel c)
    (visit_level pta (satisfied_at pta (pred (depth_fuel c))) 0 (mk_plw p 1) 0 (start c)) (start c)
    (meta_account (mk_plw p 1)) 0) c.
Proof.
  intros Hr Hlen. apply visit_level_spec; try apply Resolver0.
  - intros Ha. by apply Hr.
  - intros Hl auth b s1 Hwf Hs1 Hr1. apply satisfied_at_spec; try done; try apply Resolver0.
    + intros Ha. by apply Hr.
    + unfold depth_fuel. lia.
  - by apply start_ok.
  - intros Ha. destruct (Hr Ha). split; [done|]. unfold depth_fuel in *. lia.
Qed.

Lemma satisfied_permission_run (acyclic : Prop) rank p (c : authority_checker K) :
  (acyclic -> ranked rank /\ (rank p < depth_fuel c)%nat) ->
  length (_used_keys c) = length (provided_keys c) ->
  match satisfied_permission pta p None c with
  | (Ok b, (c', _)) =>
      given (fun ks perms delay limit => checker_is ks perms delay limit c') c
      /\ used_le (_used_keys c) (_used_keys c') /\ (b = true -> checker_grants c p)
      /\ (acyclic -> checker_grants c p -> b = true) /\ (b = false -> c' = c)
  | (Err e, (c', _)) => c' = c /\ pta_throws pta e
  end.
Proof.
  intros Hr Hlen. unfold satisfied_permission. cbv [mbind M_bind]. cbn [default].
  pose proof (visit_permission_spec acyclic rank p c Hr Hlen) as Hv.
  pose proof (visit_level_used pta (pred (depth_fuel c)) 0 p (start c)) as Hu.
  unfold visit_spec in Hv. destruct (visit_level _ _ _ _ _ _) as [[t|e] [c' cache']].
  - destruct Hv as ([[Hc' _] Hused _] & counted & -> & Hg1 & Hg2). cbn in Hc', Hused, Hu.
    destruct counted; cbn.
    + split; [done|]. split; [done|]. split; [by intros _; apply Hg1|]. done.
    + split; [done|]. split; [done|]. split; [done|]. split; [done|]. intros _. by apply checker_is_same; auto.
  - destruct Hv as [Hc' Ht]. split; [|done]. apply checker_is_same; [done|]. by apply Hu.
Qed.

Lemma satisfied_authority_run (acyclic : Prop) rank auth (c : authority_checker K) :
  (acyclic -> ranked rank /\ (forall q, q ∈ map plw_permission (accounts auth) -> (rank q < depth_fuel c)%nat)
              /\ 0 <= recursion_depth_limit c) ->
  length (_used_keys c) = length (provided_keys c) -> well_formed auth ->
  given (fun ks perms delay limit => satisfied_spec pta ks perms delay limit acyclic rank (depth_fuel c)
    (satisfied_authority pta auth None c) (start c) auth) c.
Proof.
  intros Hr Hlen Hwf. unfold satisfied_authority. cbn [default]. apply satisfied_at_spec; try apply Resolver0; try done.
  - intros Ha. by apply Hr.
  - unfold depth_fuel. lia.
  - by apply start_ok.
  - intros Ha. destruct (Hr Ha) as (_ & Hq & Hl). split; [done|]. unfold depth_fuel. lia.
Qed.

(** C17: A permission level that the checker reports satisfied is granted by the
    keys, levels and delay it was given: for any graph of authorities, cyclic
    or deeper than the limit, there is a finite proof without the cache and the
    order of evaluation.  A negative answer or an exception leaves the checker
    as it was, with its used keys; only an exception of the resolver other than
    a failed permission query passes. *)
Theorem satisfied_permission_sound p (c : authority_checker K) :
  length (_used_keys c) = length (provided_keys c) ->
  match satisfied_permission pta p None c with
  | (Ok true, (c', _)) =>
      checker_grants c p /\ used_le (_used_keys c) (_used_keys c')
      /\ c' = set_used_keys (_used_keys c') c /\ length (_used_keys c') = length (_used_keys c)
  | (Ok false, (c', _)) => c' = c
  | (Err e, (c', _)) => c' = c /\ e <> permission_query_exception /\ exists q, pta q = Err e
  end.
Proof.
  intros Hlen. pose proof (satisfied_permission_run False (fun _ => 0%nat) p c (False_ind _) Hlen) as H.
  destruct (satisfied_permission pta p None c) as [[[]|e] [c' cache']]; [| |done].
  - destruct H as ((?&?&?&?&?) & Hu & Hg & _). split; [by apply Hg|]. split; [done|].
    split; [|congruence]. destruct c, c'. cbn in *. unfold set_used_keys. cbn. congruence.
  - by apply H.
Qed.

(** C32: When the authorities do not refer to each other in a cycle and the
    level's rank is below the depth limit, the cached, ordered evaluation
    decides exactly whether the level is granted; the cut-off at the threshold
    and the cached statuses lose nothing. *)
Theorem satisfied_permission_exact rank p (c : authority_checker K) :
  ranked rank -> (rank p < depth_fuel c)%nat -> length (_used_keys c) = length (provided_keys c) ->
  match satisfied_permission pta p None c with
  | (Ok b, _) => b = true <-> checker_grants c p
  | (Err e, _) => e <> permission_query_exception /\ exists q, pta q = Err e
  end.
Proof.
  intros Hr Hp Hlen. pose proof (satisfied_permission_run True rank p c (fun _ => conj Hr Hp) Hlen) as H.
  destruct (satisfied_permission pta p None c) as [[b|e] [c' cache']]; [|by apply H].
  destruct H as (_ & _ & H1 & H2 & _). split; auto.
Qed.
End Theorems.

(** ** A concrete resolver

    Level 1@1 accepts 2@1 or 3@1; 2@1 needs 3@1 and key 99; 3@1 accepts key 7. *)
Definition demo_auth (thr : Z) (ks : list (Z * Z)) (ps : list (permission_level * Z)) : authority Z :=
  mk_authority thr (map (fun kw => mk_kw kw.1 kw.2) ks) (map (fun pw => mk_plw pw.1 pw.2) ps) [].

Definition demo_resolver (p : permission_level) : res (authority Z) :=
  if bool_decide (p = mk_pl 1 1) then Ok (demo_auth 2 [] [(mk_pl 2 1, 2); (mk_pl 3 1, 2)])
  else if bool_decide (p = mk_pl 2 1) then Ok (demo_auth 2 [(99, 1)] [(mk_pl 3 1, 1)])
  else if bool_decide (p = mk_pl 3 1) then Ok (demo_auth 1 [(7, 1)] [])
  else Err permission_query_exception.

Definition demo_rank (p : permission_level) : nat :=
  if bool_decide (p = mk_pl 1 1) then 2%nat else if bool_decide (p = mk_pl 2 1) then 1%nat else 0%nat.

Ltac demo_cases := unfold demo_resolver; repeat (case_bool_decide; [subst|]).

#[export] Instance demo_resolver_ok : Resolver demo_resolver.
Proof.
  split.
  - intros p a. demo_cases; intros [= <-]; (split; [done|]; split; [repeat constructor; cbn; lia|done]).
  - intros a. demo_cases; done || congruence.
Qed.

Lemma demo_ranked : ranked demo_resolver demo_rank.
Proof.
  intros p a q. demo_cases; intros [= <-]; cbn; rewrite ?elem_of_cons, ?elem_of_nil; intros Hq.
  - destruct Hq as [->|[->|[]]]; vm_compute; lia.
  - destruct Hq as [->|[]]; vm_compute; lia.
  - done.
Qed.

Lemma satisfied_permission_sound_witness :
  (satisfied_permission demo_resolver (mk_pl 1 1) None (make_auth_checker 6 [7] [] 0)).1 = Ok true
  /\ match satisfied_permission demo_resolver (mk_pl 1 1) None (make_auth_checker 6 [7] [] 0) with
     | (Ok true, _) => checker_grants demo_resolver (make_auth_checker 6 [7] [] 0) (mk_pl 1 1)
     | _ => True
     end.
Proof.
  split; [reflexivity|].
  pose proof (satisfied_permission_sound demo_resolver (mk_pl 1 1) (make_auth_checker 6 [7] [] 0) eq_refl) as H.
  destruct (satisfied_permission _ _ _ _) as [[[]|e] [c' cache']]; [apply H|exact I..].
Defined.

Lemma satisfied_permission_exact_witness :
  match satisfied_permission demo_resolver (mk_pl 2 1) None (make_auth_checker 6 [7] [] 0) with
  | (Ok b, _) => b = true <-> checker_grants demo_resolver (make_auth_checker 6 [7] [] 0) (mk_pl 2 1)
  | (Err e, _) => e <> permission_query_exception /\ exists q, demo_resolver q = Err e
  end.
Proof.
  apply (satisfied_permission_exact demo_resolver demo_rank); [exact demo_ranked|vm_compute; lia|reflexivity].
Defined.

(** The used keys of a satisfied level can be too few.  Level 1@1 tries
    2@1 first, which evaluates 3@1 with key 7, fails for key 99 and takes the
    mark of key 7 back; 3@1 stays cached as satisfied and then satisfies 1@1
    without marking the key again.  The checker reports that the key was not
    used, although without it the level is not satisfied. *)
Theorem used_keys_insufficient :
  let run keys := satisfied_permission demo_resolver (mk_pl 1 1) None (make_auth_checker 6 keys [] 0) in
  (run [7]).1 = Ok true /\ all_keys_used (run [7]).2.1 = false /\ used_keys (run [7]).2.1 = []
  /\ unused_keys (run [7]).2.1 = [7] /\ (run []).1 = Ok false.
Proof. repeat split; reflexivity. Qed.
