(* ===== verification/Authorization.v ===== *)
(** * Permissions and authorization
      ([permission_object.hpp], [permission_link_object.hpp],
       [authorization_manager.hpp], [authorization_manager.cpp], [contract_types.hpp])

    Every account has a tree of named permissions; contracts and actions are
    linked to the permission they need.  The three tables are chainbase indices
    of [Chainbase.v].  [check_authorization] decides whether the authorizations
    that a transaction declares are relevant for its actions and satisfied by
    its keys, with the checker of [AuthorityChecker.v].

    The interface to the checker is the class [Resolver]: [get_permission] of a
    well-formed database is an instance. *)

From S2P Require Import Prelude Merkle Chainbase Names Authority AuthorityChecker.

(** [N(eosio)] and the other name literals, as character codes. *)
Definition system_account_name : Z := string_to_name [101; 111; 115; 105; 111].
Definition active_name : Z := string_to_name [97; 99; 116; 105; 118; 101].
Definition owner_name : Z := string_to_name [111; 119; 110; 101; 114].
Definition eosio_any_name : Z := string_to_name [101; 111; 115; 105; 111; 46; 97; 110; 121].
Definition updateauth_name : Z := string_to_name [117; 112; 100; 97; 116; 101; 97; 117; 116; 104].
Definition deleteauth_name : Z := string_to_name [100; 101; 108; 101; 116; 101; 97; 117; 116; 104].
Definition linkauth_name : Z := string_to_name [108; 105; 110; 107; 97; 117; 116; 104].
Definition unlinkauth_name : Z := string_to_name [117; 110; 108; 105; 110; 107; 97; 117; 116; 104].
Definition canceldelay_name : Z := string_to_name [99; 97; 110; 99; 101; 108; 100; 101; 108; 97; 121].
Definition chipcounter_name : Z := string_to_name [99; 104; 105; 112; 99; 111; 117; 110; 116; 101; 114].
Definition enstandby_name : Z := string_to_name [101; 110; 115; 116; 97; 110; 100; 98; 121].

Section Tables.
Context {K : Type} `{EqDecision K}.

(** ** The objects, without their ids *)
Record permission_object : Type := mk_permission {
  po_usage_id : Z;
  po_parent : Z;
  po_owner : Z;
  po_name : Z;
  po_last_updated : Z;
  po_auth : authority K }.

Record permission_usage_object : Type := mk_usage { last_used : Z }.

Record permission_link_object : Type := mk_link {
  link_account : Z;
  link_code : Z;
  message_type : Z;
  required_permission : Z }.

(** The unique indices besides the ones that contain the id: [by_owner] of
    permissions and [by_action_name] of links. *)
Definition permission_conflict (p q : permission_object) : bool :=
  (po_owner p =? po_owner q) && (po_name p =? po_name q).
Definition usage_conflict (p q : permission_usage_object) : bool := false.
Definition link_conflict (p q : permission_link_object) : bool :=
  (link_account p =? link_account q) && (link_code p =? link_code q) && (message_type p =? message_type q).

(** The part of the database that authorizations live in. *)
Record auth_db : Type := mk_auth_db {
  permissions : generic_index permission_object;
  usages : generic_index permission_usage_object;
  links : generic_index permission_link_object }.

Definition on_permissions {A} (m : M (generic_index permission_object) A) : M auth_db A := fun db =>
  let '(r, gi) := m (permissions db) in (r, mk_auth_db gi (usages db) (links db)).
Definition on_usages {A} (m : M (generic_index permission_usage_object) A) : M auth_db A := fun db =>
  let '(r, gi) := m (usages db) in (r, mk_auth_db (permissions db) gi (links db)).

(** A lookup in a unique secondary index: the object with the wanted key. *)
Definition find_by {B} (wanted : B -> bool) (gi : generic_index B) : option (Z * B) :=
  head (filter (fun p => wanted p.2 = true) (map_to_list (_indices gi))).

Definition by_owner (account name : Z) (p : permission_object) : bool := (po_owner p =? account) && (po_name p =? name).
Definition by_action_name (account code type : Z) (l : permission_link_object) : bool :=
  (link_account l =? account) && (link_code l =? code) && (message_type l =? type).

(** ** Permissions

    A reference to a permission is its id together with the object. *)
Abbreviation permission_ref := (Z * permission_object)%type.

(** The walk up from the parent of [other]; a parent that is not stored would
    be dereferenced.  [satisfies_bound] is enough fuel as parents have smaller
    ids than their children. *)
Fixpoint satisfies_loop (fuel : nat) (m : gmap Z permission_object) (id parent : Z) : res bool :=
  match fuel with
  | O => Err out_of_fuel
  | S fuel =>
      match m !! parent with
      | None => Err undefined_behaviour
      | Some p =>
          if id =? po_parent p then Ok true
          else if po_parent p =? 0 then Ok false
          else satisfies_loop fuel m id (po_parent p)
      end
  end.

Definition satisfies_bound (id : Z) : nat := Z.to_nat (id + 1).

Definition satisfies (self other : permission_ref) (permission_index : gmap Z permission_object) : res bool :=
  if negb (po_owner self.2 =? po_owner other.2) then Ok false
  else if (self.1 =? other.1) || (self.1 =? po_parent other.2) then Ok true
  else satisfies_loop (satisfies_bound (po_parent other.2)) permission_index self.1 (po_parent other.2).

(** [initialize_database]: reserves permission 0. *)
Definition default_permission : permission_object := mk_permission 0 0 0 0 0 (mk_authority 0 [] [] []).
Definition initialize_database : M auth_db unit := on_permissions (emplace permission_conflict default_permission);; mret tt.

(** What the manager reads of the controller and of the configuration.
    [key_which] is the index of a key's type in fc's variant. *)
Record auth_config : Type := mk_auth_config {
  key_which : K -> Z;
  num_supported_key_types : Z;
  pending_block_time : Z;
  max_transaction_delay : Z;
  max_authority_depth : Z }.

Definition keys_activated (cfg : auth_config) (auth : authority K) : bool :=
  forallb (fun k => key_which cfg (kw_key k) <? num_supported_key_types cfg) (keys auth).

Definition create_permission (cfg : auth_config) (account name parent : Z) (auth : authority K)
    (initial_creation_time : Z) : M auth_db Z :=
  massert (keys_activated cfg auth) unactivated_key_type;;
  let creation_time := if initial_creation_time =? 0 then pending_block_time cfg else initial_creation_time in
  perm_usage ← on_usages (emplace usage_conflict (mk_usage creation_time));
  on_permissions (emplace permission_conflict (mk_permission perm_usage parent account name creation_time auth)).

Definition modify_permission (cfg : auth_config) (permission : Z) (auth : authority K) : M auth_db unit :=
  massert (keys_activated cfg auth) unactivated_key_type;;
  on_permissions (index_modify permission_conflict permission (fun po =>
    mk_permission (po_usage_id po) (po_parent po) (po_owner po) (po_name po) (pending_block_time cfg) auth)).

(** [equal_range] of [by_parent] is empty. *)
Definition no_children (id : Z) (m : gmap Z permission_object) : bool :=
  forallb (fun p => negb (po_parent p.2 =? id)) (map_to_list m).

Definition remove_permission (permission : permission_ref) : M auth_db unit :=
  db ← get;
  massert (no_children permission.1 (_indices (permissions db))) action_validate_exception;;
  on_usages (remove_object (po_usage_id permission.2));;
  on_permissions (index_remove permission.1).

Definition update_permission_usage (cfg : auth_config) (permission : permission_ref) : M auth_db unit :=
  db ← get;
  _ ← lift (index_get (usages db) (po_usage_id permission.2));
  on_usages (index_modify usage_conflict (po_usage_id permission.2) (fun _ => mk_usage (pending_block_time cfg))).

Definition get_permission_last_used (db : auth_db) (permission : permission_ref) : res Z :=
  u ← index_get (usages db) (po_usage_id permission.2); Ok (last_used u).

Definition find_permission (db : auth_db) (level : permission_level) : res (option permission_ref) :=
  eos_assert (negb (actor level =? 0) && negb (permission level =? 0)) invalid_permission;;
  Ok (find_by (by_owner (actor level) (permission level)) (permissions db)).

(** [chainbase::database::get] throws [std::out_of_range], which the handler
    turns into [permission_query_exception]. *)
Definition get_permission (db : auth_db) (level : permission_level) : res permission_ref :=
  eos_assert (negb (actor level =? 0) && negb (permission level =? 0)) invalid_permission;;
  match find_by (by_owner (actor level) (permission level)) (permissions db) with
  | Some p => Ok p
  | None => Err permission_query_exception
  end.

(** ** Links *)
Definition lookup_linked_permission (db : auth_db) (authorizer_account scope act_name : Z) : option Z :=
  let link := find_by (by_action_name authorizer_account scope act_name) (links db) in
  let link := match link with
              | Some l => Some l
              | None => find_by (by_action_name authorizer_account scope 0) (links db)
              end in
  match link with Some l => Some (required_permission l.2) | None => None end.

Definition lookup_minimum_permission (db : auth_db) (authorizer_account scope act_name : Z) : res (option Z) :=
  (if scope =? system_account_name then
     eos_assert (negb (act_name =? updateauth_name) && negb (act_name =? deleteauth_name)
                 && negb (act_name =? linkauth_name) && negb (act_name =? unlinkauth_name)
                 && negb (act_name =? canceldelay_name)) unlinkable_min_permission_action
   else Ok tt);;
  match lookup_linked_permission db authorizer_account scope act_name with
  | None => Ok (Some active_name)
  | Some linked => if linked =? eosio_any_name then Ok None else Ok (Some linked)
  end.
End Tables.

Arguments permission_object K : clear implicits.
Arguments auth_db K : clear implicits.
Arguments auth_config K : clear implicits.

(** ** Actions and their native payloads ([action.hpp], [contract_types.hpp]) *)
Record action : Type := mk_action {
  act_account : Z;
  act_name : Z;
  authorization : list permission_level;
  act_data : list Z }.

Record updateauth (K : Type) : Type := mk_updateauth {
  ua_account : Z; ua_permission : Z; ua_parent : Z; ua_auth : authority K }.
Arguments mk_updateauth {K}. Arguments ua_account {K}. Arguments ua_permission {K}.
Arguments ua_parent {K}. Arguments ua_auth {K}.
Record deleteauth : Type := mk_deleteauth { da_account : Z; da_permission : Z }.
Record linkauth : Type := mk_linkauth { la_account : Z; la_code : Z; la_type : Z; la_requirement : Z }.
Record unlinkauth : Type := mk_unlinkauth { ul_account : Z; ul_code : Z; ul_type : Z }.
Record canceldelay : Type := mk_canceldelay { canceling_auth : permission_level; cd_trx_id : digest_type }.

(** [fc::raw::unpack] of the payloads and of a packed transaction, of which the
    actions matter here. *)
Class unpacker (K : Type) : Type := {
  unpack_updateauth : list Z -> res (updateauth K);
  unpack_deleteauth : list Z -> res deleteauth;
  unpack_linkauth : list Z -> res linkauth;
  unpack_unlinkauth : list Z -> res unlinkauth;
  unpack_canceldelay : list Z -> res canceldelay;
  unpack_transaction : list Z -> res (list action) }.

Record generated_transaction_object : Type := mk_generated {
  gt_trx_id : digest_type;
  gt_sender : Z;
  delay_until : Z;
  published : Z;
  packed_trx : list Z }.

Section Checks.
Context {K : Type} `{EqDecision K} `{unpacker K}.
Context (db : auth_db K).

Abbreviation permission_table := (_indices (permissions db)).

(** The test that ends most checks: the declared permission is at least the
    minimum permission. *)
Definition get_satisfies (auth : permission_level) (min_permission : Z * permission_object K) : res unit :=
  p ← get_permission db auth;
  b ← satisfies p min_permission permission_table;
  eos_assert b irrelevant_auth_exception.

(** The same with the minimum permission looked up after the declared one. *)
Definition get_satisfies_level (auth min_level : permission_level) : res unit :=
  p ← get_permission db auth;
  other ← get_permission db min_level;
  b ← satisfies p other permission_table;
  eos_assert b irrelevant_auth_exception.

(** [auths.size() == 1] and [auths[0]]. *)
Definition single_auth (auths : list permission_level) : res permission_level :=
  match auths with [auth] => Ok auth | _ => Err irrelevant_auth_exception end.

Definition check_updateauth_authorization (update : updateauth K) (auths : list permission_level) : res unit :=
  auth ← single_auth auths;
  eos_assert (actor auth =? ua_account update) irrelevant_auth_exception;;
  min_permission ← find_permission db (mk_pl (ua_account update) (ua_permission update));
  min_permission ← match min_permission with
                   | Some p => Ok p
                   | None => get_permission db (mk_pl (ua_account update) (ua_parent update))
                   end;
  get_satisfies auth min_permission.

Definition check_deleteauth_authorization (del : deleteauth) (auths : list permission_level) : res unit :=
  auth ← single_auth auths;
  eos_assert (actor auth =? da_account del) irrelevant_auth_exception;;
  min_permission ← get_permission db (mk_pl (da_account del) (da_permission del));
  get_satisfies auth min_permission.

Definition check_linkauth_authorization (link : linkauth) (auths : list permission_level) : res unit :=
  auth ← single_auth auths;
  eos_assert (actor auth =? la_account link) irrelevant_auth_exception;;
  (if la_code link =? system_account_name then
     eos_assert (negb (la_type link =? updateauth_name)) action_validate_exception;;
     eos_assert (negb (la_type link =? deleteauth_name)) action_validate_exception;;
     eos_assert (negb (la_type link =? linkauth_name)) action_validate_exception;;
     eos_assert (negb (la_type link =? unlinkauth_name)) action_validate_exception;;
     eos_assert (negb (la_type link =? canceldelay_name)) action_validate_exception;;
     eos_assert (negb (la_type link =? chipcounter_name)) action_validate_exception;;
     eos_assert (negb (la_type link =? enstandby_name)) action_validate_exception
   else Ok tt);;
  linked_permission_name ← lookup_minimum_permission db (la_account link) (la_code link) (la_type link);
  match linked_permission_name with
  | None => Ok tt
  | Some linked => get_satisfies_level auth (mk_pl (la_account link) linked)
  end.

Definition check_unlinkauth_authorization (unlink : unlinkauth) (auths : list permission_level) : res unit :=
  auth ← single_auth auths;
  eos_assert (actor auth =? ul_account unlink) irrelevant_auth_exception;;
  match lookup_linked_permission db (ul_account unlink) (ul_code unlink) (ul_type unlink) with
  | None => Err transaction_exception
  | Some unlinked =>
      if unlinked =? eosio_any_name then Ok tt
      else get_satisfies_level auth (mk_pl (ul_account unlink) unlinked)
  end.

(** The deferred transactions are looked up by their unique id: the entry at
    [lower_bound(trx_id)] is the one with this id, if there is one. *)
Definition check_canceldelay_authorization (generated : list generated_transaction_object)
    (cancel : canceldelay) (auths : list permission_level) : res Z :=
  auth ← single_auth auths;
  get_satisfies_level auth (canceling_auth cancel);;
  match list_find (fun g => gt_trx_id g = cd_trx_id cancel) generated with
  | None => Err tx_not_found
  | Some (_, g) =>
      eos_assert (gt_sender g =? 0) tx_not_found;;
      actions ← unpack_transaction (packed_trx g);
      let found := existsb (fun act => bool_decide (canceling_auth cancel ∈ authorization act)) actions in
      eos_assert found action_validate_exception;;
      Ok (s64 (delay_until g - published g))
  end.
End Checks.

(** ** [check_authorization]

    [checktime] is the callback of the caller, which may throw: a computation
    on a state [W] of the caller. *)
Section Authorize.
Context {K : Type} `{EqDecision K} `{unpacker K} {W : Type} (checktime : M W unit).
Context (cfg : auth_config K) (generated : list generated_transaction_object) (db : auth_db K).

Definition microseconds_maximum : Z := INT64_MAX.

Definition permission_to_authority (p : permission_level) : res (authority K) :=
  po ← get_permission db p; Ok (po_auth po.2).

Definition delay_max_limit : Z := seconds (max_transaction_delay cfg).
Definition effective_delay (provided_delay : Z) : Z :=
  if provided_delay >=? delay_max_limit then microseconds_maximum else provided_delay.

(** The chain of tests on [act.name]: whether the action is a special case, and
    the delay its authorizations are checked under. *)
Definition special_case (act : action) (delay : Z) : res (bool * Z) :=
  if act_account act =? system_account_name then
    if act_name act =? updateauth_name then
      data ← unpack_updateauth (act_data act);
      check_updateauth_authorization db data (authorization act);; Ok (true, delay)
    else if act_name act =? deleteauth_name then
      data ← unpack_deleteauth (act_data act);
      check_deleteauth_authorization db data (authorization act);; Ok (true, delay)
    else if act_name act =? linkauth_name then
      data ← unpack_linkauth (act_data act);
      check_linkauth_authorization db data (authorization act);; Ok (true, delay)
    else if act_name act =? unlinkauth_name then
      data ← unpack_unlinkauth (act_data act);
      check_unlinkauth_authorization db data (authorization act);; Ok (true, delay)
    else if act_name act =? canceldelay_name then
      data ← unpack_canceldelay (act_data act);
      d ← check_canceldelay_authorization db generated data (authorization act); Ok (true, Z.max delay d)
    else Ok (false, delay)
  else Ok (false, delay).

Definition check_minimum (act : action) (declared_auth : permission_level) : res unit :=
  min_permission_name ← lookup_minimum_permission db (actor declared_auth) (act_account act) (act_name act);
  match min_permission_name with
  | None => Ok tt
  | Some name =>
      min_permission ← get_permission db (mk_pl (actor declared_auth) name);
      get_satisfies db declared_auth min_permission
  end.

(** [permissions_to_satisfy]: the smallest delay of a level is kept. *)
Abbreviation to_satisfy_map := (gmap permission_level Z).

Definition emplace_delay (p : permission_level) (delay : Z) (m : to_satisfy_map) : to_satisfy_map :=
  match m !! p with
  | None => <[p := delay]> m
  | Some d => if d >? delay then <[p := delay]> m else m
  end.

Fixpoint check_declared (special : bool) (act : action) (delay : Z) (satisfied_authorizations : list permission_level)
    (auths : list permission_level) (m : to_satisfy_map) : M W to_satisfy_map :=
  match auths with
  | [] => mret m
  | declared_auth :: auths =>
      checktime;;
      lift (if special then Ok tt else check_minimum act declared_auth);;
      let m := if bool_decide (declared_auth ∈ satisfied_authorizations) then m
               else emplace_delay declared_auth delay m in
      check_declared special act delay satisfied_authorizations auths m
  end.

Fixpoint check_actions (delay : Z) (satisfied_authorizations : list permission_level) (actions : list action)
    (m : to_satisfy_map) : M W to_satisfy_map :=
  match actions with
  | [] => mret m
  | act :: actions =>
      '(special, act_delay) ← lift (special_case act delay);
      m ← check_declared special act act_delay satisfied_authorizations (authorization act) m;
      check_actions delay satisfied_authorizations actions m
  end.

(** [operator<] on permission levels as a total order for the traversal. *)
Definition permission_level_le (l r : permission_level) : Prop := permission_level_lt r l = false.
#[local] Instance permission_level_le_dec l r : Decision (permission_level_le l r).
Proof. unfold permission_level_le. apply _. Defined.

Definition in_level_order (m : to_satisfy_map) : list (permission_level * Z) :=
  map (fun p => (p, default 0 (m !! p))) (merge_sort permission_level_le (elements (dom m))).

Fixpoint satisfy_all (ps : list (permission_level * Z)) (checker : authority_checker K) : M W (authority_checker K) :=
  match ps with
  | [] => mret checker
  | (p, delay) :: ps =>
      checktime;;
      let '(r, (checker, _)) :=
        with_delay delay (satisfied_permission permission_to_authority p None) checker in
      b ← lift r;
      massert b unsatisfied_authorization;;
      satisfy_all ps checker
  end.

Definition check_authorization (actions : list action) (provided_keys : list K)
    (provided_permissions : list permission_level) (provided_delay : Z) (allow_unused_keys : bool)
    (satisfied_authorizations : list permission_level) : M W unit :=
  let delay := effective_delay provided_delay in
  let checker := make_auth_checker (max_authority_depth cfg) provided_keys provided_permissions delay in
  permissions_to_satisfy ← check_actions delay satisfied_authorizations actions ∅;
  checker ← satisfy_all (in_level_order permissions_to_satisfy) checker;
  massert (allow_unused_keys || all_keys_used checker) tx_irrelevant_sig.

(** The overload for one permission. *)
Definition check_permission_authorization (account permission : Z) (provided_keys : list K)
    (provided_permissions : list permission_level) (provided_delay : Z) (allow_unused_keys : bool) : res unit :=
  let checker := make_auth_checker (max_authority_depth cfg) provided_keys provided_permissions
                   (effective_delay provided_delay) in
  let '(r, (checker, _)) := satisfied_permission permission_to_authority (mk_pl account permission) None checker in
  b ← r;
  eos_assert b unsatisfied_authorization;;
  eos_assert (allow_unused_keys || all_keys_used checker) tx_irrelevant_sig.

Fixpoint require_levels (ps : list permission_level) (checker : authority_checker K) : res (authority_checker K) :=
  match ps with
  | [] => Ok checker
  | declared_auth :: ps =>
      let '(r, (checker, _)) := satisfied_permission permission_to_authority declared_auth None checker in
      b ← r;
      eos_assert b unsatisfied_authorization;;
      require_levels ps checker
  end.

Definition get_required_keys (actions : list action) (candidate_keys : list K) (provided_delay : Z) : res (list K) :=
  checker ← require_levels (concat (map authorization actions))
              (make_auth_checker (max_authority_depth cfg) candidate_keys [] provided_delay);
  Ok (used_keys checker).
End Authorize.

(** ** The forest of permissions *)
Section Forest.
Context {K : Type} `{EqDecision K}.
Implicit Types (db : auth_db K) (p q : permission_object K) (m : gmap Z (permission_object K)).

(** [is_above m a b]: permission [a] is [b] or an ancestor of it. *)
Inductive is_above m (a : Z) : Z -> Prop :=
| above_refl : is_above m a a
| above_parent b q : m !! b = Some q -> po_parent q <> 0 -> is_above m a (po_parent q) -> is_above m a b.

Lemma is_above_inv m a b : is_above m a b ->
  a = b \/ exists q, m !! b = Some q /\ po_parent q <> 0 /\ is_above m a (po_parent q).
Proof. destruct 1; eauto 6. Qed.

Record permission_ok m (id : Z) p : Prop := {
  pk_owner : po_owner p <> 0;
  pk_name : po_name p <> 0;
  pk_parent : 0 <= po_parent p < id;
  pk_parent_owner : po_parent p = 0 \/ exists q, m !! po_parent p = Some q /\ po_owner q = po_owner p;
  pk_auth : well_formed (po_auth p) }.

(** A well-formed database: permission 0 is reserved, every other permission
    has a smaller parent of the same owner, names are unique per owner, and
    every permission has a usage object of its own. *)
Record auth_ok db : Prop := {
  ao_reserved : _indices (permissions db) !! 0 = Some default_permission;
  ao_permission id p : id <> 0 -> _indices (permissions db) !! id = Some p ->
    permission_ok (_indices (permissions db)) id p;
  ao_fresh id p : _indices (permissions db) !! id = Some p -> id < _next_id (permissions db);
  ao_unique : unique permission_conflict (_indices (permissions db));
  ao_usage id p : id <> 0 -> _indices (permissions db) !! id = Some p ->
    is_Some (_indices (usages db) !! po_usage_id p);
  ao_usage_own id id' p p' : id <> 0 -> id' <> 0 -> _indices (permissions db) !! id = Some p ->
    _indices (permissions db) !! id' = Some p' -> po_usage_id p = po_usage_id p' -> id = id';
  ao_usage_fresh u x : _indices (usages db) !! u = Some x -> u < _next_id (usages db) }.

(** *** Lookups *)
Lemma find_by_some {B} (wanted : B -> bool) (gi : generic_index B) id b :
  find_by wanted gi = Some (id, b) -> _indices gi !! id = Some b /\ wanted b = true.
Proof.
  unfold find_by. intros Hh. apply head_Some_elem_of in Hh. apply list_elem_of_filter in Hh as [Hw Hin].
  by apply elem_of_map_to_list in Hin.
Qed.

Lemma find_by_none {B} (wanted : B -> bool) (gi : generic_index B) id b :
  find_by wanted gi = None -> _indices gi !! id = Some b -> wanted b = false.
Proof.
  unfold find_by. intros Hh Hb. apply head_None in Hh. destruct (wanted b) eqn:E; [|done].
  assert (Hin : (id, b) ∈ filter (fun ib => wanted ib.2 = true) (map_to_list (_indices gi)))
    by (apply list_elem_of_filter; split; [done|by apply elem_of_map_to_list]).
  rewrite Hh in Hin. by apply elem_of_nil in Hin.
Qed.

Lemma get_permission_ok db level id p : auth_ok db -> get_permission db level = Ok (id, p) ->
  _indices (permissions db) !! id = Some p /\ po_owner p = actor level /\ po_name p = permission level /\ id <> 0.
Proof.
  intros Hok. unfold get_permission. intros (u & Hu & Hf)%res_bind_ok. minv. btests.
  destruct (find_by _ _) as [[i x]|] eqn:E; [|done]. injection Hf as -> ->.
  apply find_by_some in E as [Hi Hw]. unfold by_owner in Hw. btests. split; [done|]. split; [done|]. split; [done|].
  intros ->. rewrite (ao_reserved db Hok) in Hi. injection Hi as <-. cbn in *. congruence.
Qed.

(** *** [satisfies] *)
Lemma satisfies_loop_spec db id fuel : auth_ok db -> id <> 0 -> forall x p,
  _indices (permissions db) !! x = Some p -> (Z.to_nat (x + 1) <= fuel)%nat -> 0 <= x ->
  exists r, satisfies_loop fuel (_indices (permissions db)) id x = Ok r
    /\ (r = true <-> po_parent p <> 0 /\ is_above (_indices (permissions db)) id (po_parent p)).
Proof.
  intros Hok Hid. induction fuel as [|fuel IH]; intros x p Hx Hfuel Hpos; [lia|].
  cbn [satisfies_loop]. rewrite Hx. destruct (decide (x = 0)) as [->|Hx0].
  - rewrite (ao_reserved db Hok) in Hx. injection Hx as <-. cbn [po_parent default_permission].
    assert ((id =? 0) = false) as -> by lia. exists false. split; [done|]. naive_solver.
  - destruct (ao_permission db Hok x p Hx0 Hx) as [Ho Hn Hp Hpo _].
    destruct (id =? po_parent p) eqn:E; btests; [exists true; split; [done|]; split; [|done]; split; [lia|subst; constructor]|].
    destruct (po_parent p =? 0) eqn:E0; btests; [exists false; split; [done|]; naive_solver|].
    destruct Hpo as [|(q & Hq & Hqo)]; [done|].
    destruct (IH (po_parent p) q Hq ltac:(lia) ltac:(lia)) as (r & -> & Hr). exists r. split; [done|].
    rewrite Hr. split.
    + intros [Hq0 Ha]. split; [done|]. by eapply above_parent.
    + intros [_ Ha]. apply is_above_inv in Ha as [?|(q2 & Hq2 & Hne & Ha)]; [done|]. by simplify_eq.
Qed.

Lemma is_above_owner db a b p q : auth_ok db -> a <> 0 -> is_above (_indices (permissions db)) a b ->
  _indices (permissions db) !! a = Some p -> b <> 0 -> _indices (permissions db) !! b = Some q -> po_owner p = po_owner q.
Proof.
  intros Hok Ha0 Ha. revert q. induction Ha as [|b q' Hq' Hne Ha IH]; intros q Hp Hb0 Hq; [by simplify_eq|].
  assert (q' = q) as -> by congruence. destruct (ao_permission db Hok b q Hb0 Hq) as [_ _ _ [?|(r & Hr & Hro)] _]; [done|].
  rewrite (IH r Hp Hne Hr). done.
Qed.

Lemma satisfies_above db a p b q : auth_ok db -> a <> 0 -> b <> 0 ->
  _indices (permissions db) !! a = Some p -> _indices (permissions db) !! b = Some q ->
  exists r, satisfies (a, p) (b, q) (_indices (permissions db)) = Ok r
    /\ (r = true <-> is_above (_indices (permissions db)) a b).
Proof.
  intros Hok Ha0 Hb0 Ha Hb. unfold satisfies. cbn [fst snd].
  destruct (ao_permission db Hok b q Hb0 Hb) as [_ _ Hp Hpo _].
  destruct (po_owner p =? po_owner q) eqn:Eo; btests; cbn [negb].
  2:{ exists false. split; [done|]. split; [done|]. intros Habove. destruct Eo. by apply (is_above_owner db a b p q). }
  destruct ((a =? b) || (a =? po_parent q)) eqn:E.
  - exists true. split; [done|]. split; [|done]. intros _. btests. destruct E; btests; subst; [constructor|].
    eapply above_parent; [done..|]. constructor.
  - btests.
    assert (Hparent : exists q', _indices (permissions db) !! po_parent q = Some q').
    { destruct Hpo as [->|(q' & Hq' & _)]; [|eauto]. eexists. apply (ao_reserved db Hok). }
    destruct Hparent as [q' Hq'].
    destruct (satisfies_loop_spec db a (satisfies_bound (po_parent q)) Hok Ha0 _ q' Hq') as (r & -> & Hr);
      [unfold satisfies_bound; lia|lia|]. exists r. split; [done|]. rewrite Hr. split.
    + intros [Hne Habove]. destruct (decide (po_parent q = 0)) as [Hz|Hz].
      * rewrite Hz, (ao_reserved db Hok) in Hq'. injection Hq' as <-. done.
      * eapply above_parent; [done..|]. by eapply above_parent.
    + intros [?|(q2 & Hq2 & Hne & Habove)]%is_above_inv; [done|]. simplify_eq.
      apply is_above_inv in Habove as [?|(q2 & Hq2 & Hne2 & Habove)]; [done|]. by simplify_eq.
Qed.
End Forest.

(** ** Every operation of the manager keeps the database well formed *)
Lemma emplace_inv {B} (conflict : B -> B -> bool) c gi r gi' : emplace conflict c gi = (r, gi') ->
  (r = Err std_logic_error /\ gi' = gi)
  \/ (r = Ok (_next_id gi) /\ _indices gi !! _next_id gi = None
      /\ violates conflict (_indices gi) (_next_id gi) c = false
      /\ _indices gi' = <[_next_id gi := c]> (_indices gi) /\ _next_id gi' = _next_id gi + 1).
Proof.
  unfold emplace. destruct (_indices gi !! _next_id gi) eqn:E; [intros [= <- <-]; auto|].
  destruct (violates _ _ _ c) eqn:Ev; [intros [= <- <-]; auto|]. intros [= <- <-]. right.
  unfold on_create. cbn. by destruct (_stack gi).
Qed.

Lemma index_modify_inv {B} (conflict : B -> B -> bool) id f gi r gi' b :
  _indices gi !! id = Some b -> violates conflict (_indices gi) id (f b) = false ->
  index_modify conflict id f gi = (r, gi') ->
  r = Ok tt /\ _indices gi' = <[id := f b]> (_indices gi) /\ _next_id gi' = _next_id gi.
Proof.
  unfold index_modify. intros -> Hv.
  assert (Hi : _indices (on_modify id b gi) = _indices gi /\ _next_id (on_modify id b gi) = _next_id gi).
  { unfold on_modify. destruct (_stack gi); [done|]. destruct (decide _); [done|]. by destruct (old_values _ !! id). }
  destruct Hi as [-> Hn]. rewrite Hv. intros [= <- <-]. by cbn.
Qed.

Lemma index_remove_inv {B} id (gi : generic_index B) r gi' b :
  _indices gi !! id = Some b -> index_remove id gi = (r, gi') ->
  r = Ok tt /\ _indices gi' = delete id (_indices gi) /\ _next_id gi' = _next_id gi.
Proof.
  unfold index_remove. intros ->.
  assert (Hi : _indices (on_remove id b gi) = _indices gi /\ _next_id (on_remove id b gi) = _next_id gi).
  { unfold on_remove. destruct (_stack gi); [done|]. destruct (decide _); [done|].
    destruct (old_values _ !! id); [done|]. by destruct (removed_values _ !! id). }
  destruct Hi as [Hi Hn]. intros [= <- <-]. cbn. by rewrite Hi.
Qed.

Section Invariant.
Context {K : Type} `{EqDecision K} (cfg : auth_config K).
Implicit Types (db : auth_db K) (p q : permission_object K) (m : gmap Z (permission_object K)).

Lemma permission_conflict_sym p q : permission_conflict p q = permission_conflict q p.
Proof. unfold permission_conflict. by rewrite (Z.eqb_sym (po_owner p)), (Z.eqb_sym (po_name p)). Qed.

(** The calls of the manager with what its callers ensure: names are not
    empty, authorities passed [validate], the parent is a permission of the
    same account, and references are to stored permissions. *)
Inductive auth_step db : auth_db K -> Prop :=
| step_create account name parent auth t r db' :
    account <> 0 -> name <> 0 -> well_formed auth ->
    (parent = 0 \/ exists q, _indices (permissions db) !! parent = Some q /\ po_owner q = account) ->
    create_permission cfg account name parent auth t db = (r, db') -> auth_step db db'
| step_modify id p auth r db' :
    id <> 0 -> _indices (permissions db) !! id = Some p -> well_formed auth ->
    modify_permission cfg id auth db = (r, db') -> auth_step db db'
| step_remove id p r db' :
    id <> 0 -> _indices (permissions db) !! id = Some p ->
    remove_permission (id, p) db = (r, db') -> auth_step db db'
| step_use id p r db' :
    id <> 0 -> _indices (permissions db) !! id = Some p ->
    update_permission_usage cfg (id, p) db = (r, db') -> auth_step db db'.

Lemma permission_ok_mono m m' id p :
  (forall i q, m !! i = Some q -> i = po_parent p -> exists q', m' !! i = Some q' /\ po_owner q' = po_owner q) ->
  permission_ok m id p -> permission_ok m' id p.
Proof.
  intros Hm [Ho Hn Hp Hpo Ha]. split; try done. destruct Hpo as [?|(q & Hq & Hqo)]; [auto|]. right.
  destruct (Hm _ _ Hq eq_refl) as (q' & Hq' & Heq). exists q'. split; congruence.
Qed.

(** A usage object more does no harm; the reserved permission is never changed. *)
Lemma auth_ok_usage db gi : auth_ok db ->
  (forall u x, _indices (usages db) !! u = Some x -> is_Some (_indices gi !! u)) ->
  (forall u x, _indices gi !! u = Some x -> u < _next_id gi) ->
  auth_ok (mk_auth_db (permissions db) gi (links db)).
Proof.
  intros [] Hkeep Hfresh. split; cbn; try done. intros id p Hid Hp.
  destruct (ao_usage0 id p Hid Hp) as [x Hx]. eauto.
Qed.

(** A new permission under the next id. *)
Lemma auth_ok_insert db gi p : auth_ok db ->
  _indices gi = <[_next_id (permissions db) := p]> (_indices (permissions db)) ->
  _next_id gi = _next_id (permissions db) + 1 ->
  violates permission_conflict (_indices (permissions db)) (_next_id (permissions db)) p = false ->
  permission_ok (_indices (permissions db)) (_next_id (permissions db)) p ->
  is_Some (_indices (usages db) !! po_usage_id p) ->
  (forall i q, i <> 0 -> _indices (permissions db) !! i = Some q -> po_usage_id q <> po_usage_id p) ->
  auth_ok (mk_auth_db gi (usages db) (links db)).
Proof.
  intros Hok Hgi Hn Hv Hp Hu Hown. set (n := _next_id (permissions db)) in *.
  assert (Hold : forall i q, _indices (permissions db) !! i = Some q -> _indices gi !! i = Some q).
  { intros i q Hi. rewrite Hgi, lookup_insert_ne; [done|]. intros <-. apply (ao_fresh db Hok) in Hi. fold n in Hi. lia. }
  assert (Hinv : forall i q, _indices gi !! i = Some q -> (i = n /\ q = p) \/ _indices (permissions db) !! i = Some q).
  { intros i q. rewrite Hgi, lookup_insert. case_decide; intros; simplify_eq; auto. }
  split; cbn.
  - apply Hold, Hok.
  - intros i q Hi0 [[-> ->]|Hi]%Hinv; eapply permission_ok_mono; [|exact Hp| |by apply (ao_permission db Hok)]; eauto.
  - intros i q. rewrite Hn. intros [[-> ->]|Hi]%Hinv; [lia|]. apply (ao_fresh db Hok) in Hi. fold n in Hi. lia.
  - rewrite Hgi. apply unique_insert; [apply permission_conflict_sym|apply Hok|done].
  - intros i q Hi0 [[-> ->]|Hi]%Hinv; [done|]. by apply (ao_usage db Hok i q).
  - intros i j q q' Hi0 Hj0 [[-> ->]|Hi]%Hinv [[-> ->]|Hj]%Hinv Heq; [done| | |by eapply (ao_usage_own db Hok)].
    + by edestruct (Hown j q').
    + by edestruct (Hown i q).
  - apply Hok.
Qed.

Lemma create_step_ok db account name parent auth t r db' : auth_ok db ->
  account <> 0 -> name <> 0 -> well_formed auth ->
  (parent = 0 \/ exists q, _indices (permissions db) !! parent = Some q /\ po_owner q = account) ->
  create_permission cfg account name parent auth t db = (r, db') -> auth_ok db'.
Proof.
  intros Hok Ha Hn Hw Hp. unfold create_permission, on_usages, on_permissions.
  cbv [mbind M_bind massert]. destruct (eos_assert _ _) as [[]|e]; [|by intros [= <- <-]].
  set (u := mk_usage _). destruct (emplace usage_conflict u (usages db)) as [r1 gu] eqn:Eu.
  destruct (emplace_inv _ _ _ _ _ Eu) as [[-> ->]|(-> & Hnone & _ & Hgu & Hgn)].
  { intros [= <- <-]. by destruct db. }
  set (pu := mk_permission _ _ _ _ _ _). cbn [permissions usages links].
  assert (Hok1 : auth_ok (mk_auth_db (permissions db) gu (links db))).
  { apply auth_ok_usage; [done| |].
    - intros v x Hv. rewrite Hgu, lookup_insert_is_Some. destruct (decide (_next_id (usages db) = v)); eauto.
    - intros v x. rewrite Hgu, Hgn, lookup_insert. case_decide; [lia|]. intros Hv. apply (ao_usage_fresh db Hok) in Hv. lia. }
  destruct (emplace permission_conflict pu (permissions db)) as [r2 gp] eqn:Ep.
  destruct (emplace_inv _ _ _ _ _ Ep) as [[-> ->]|(-> & Hnonep & Hv & Hgp & Hgpn)]; intros [= <- <-]; [done|].
  apply (auth_ok_insert (mk_auth_db (permissions db) gu (links db)) gp pu); cbn; try done.
  - split; cbn; try done.
    pose proof (ao_fresh db Hok 0 _ (ao_reserved db Hok)). destruct Hp as [->|(q & Hq & Hqo)]; [lia|].
    pose proof (ao_fresh db Hok _ _ Hq). destruct (decide (parent = 0)) as [->|Hp0]; [lia|].
    pose proof (pk_parent _ _ _ (ao_permission db Hok parent q Hp0 Hq)). lia.
  - rewrite Hgu, lookup_insert_eq. eauto.
  - intros i q Hi0 Hq Heq. destruct (ao_usage db Hok i q Hi0 Hq) as [x Hx]. rewrite Heq in Hx. congruence.
Qed.

(** A table whose permissions come from well-formed ones with the same owner,
    name, parent and usage, and that keeps the parents. *)
Definition same_place p q : Prop :=
  po_owner p = po_owner q /\ po_name p = po_name q /\ po_parent p = po_parent q /\ po_usage_id p = po_usage_id q
  /\ (well_formed (po_auth q) -> well_formed (po_auth p)).

Lemma same_place_refl p : same_place p p.
Proof. unfold same_place. auto 6. Qed.

Lemma auth_ok_related db gp gu : auth_ok db ->
  _indices gp !! 0 = Some default_permission -> _next_id gp = _next_id (permissions db) ->
  unique permission_conflict (_indices gp) ->
  (forall i p, _indices gp !! i = Some p -> exists q, _indices (permissions db) !! i = Some q /\ same_place p q) ->
  (forall i p q, _indices gp !! i = Some p -> i <> 0 -> _indices (permissions db) !! po_parent p = Some q ->
     exists q', _indices gp !! po_parent p = Some q' /\ po_owner q' = po_owner q) ->
  (forall i p, i <> 0 -> _indices gp !! i = Some p -> is_Some (_indices gu !! po_usage_id p)) ->
  (forall u x, _indices gu !! u = Some x -> u < _next_id gu) ->
  auth_ok (mk_auth_db gp gu (links db)).
Proof.
  intros Hok H0 Hn Hu Hinv Hpar Hus Husf. split; cbn; try done.
  - intros i p Hi Hp. destruct (Hinv i p Hp) as (q & Hq & E1 & E2 & E3 & E4 & E5).
    destruct (ao_permission db Hok i q Hi Hq) as [Ho Hna Hpa Hpo Ha]. split; rewrite ?E1, ?E2, ?E3; auto.
    destruct Hpo as [?|(x & Hx & Hxo)]; [auto|]. right. rewrite <- E3 in Hx.
    destruct (Hpar i p x Hp Hi Hx) as (x' & Hx' & Hxo'). rewrite E3 in Hx'. exists x'. split; [done|congruence].
  - intros i p Hp. destruct (Hinv i p Hp) as (q & Hq & _). rewrite Hn. by apply (ao_fresh db Hok i q).
  - intros i j p p' Hi Hj Hp Hp' Heq.
    destruct (Hinv i p Hp) as (q & Hq & _ & _ & _ & E & _). destruct (Hinv j p' Hp') as (q' & Hq' & _ & _ & _ & E' & _).
    eapply (ao_usage_own db Hok i j q q'); congruence.
Qed.

Lemma modify_step_ok db id p auth r db' : auth_ok db -> id <> 0 ->
  _indices (permissions db) !! id = Some p -> well_formed auth ->
  modify_permission cfg id auth db = (r, db') -> auth_ok db'.
Proof.
  intros Hok Hid Hp Hw. unfold modify_permission, on_permissions.
  cbv [mbind M_bind massert]. destruct (eos_assert _ _) as [[]|e]; [|by intros [= <- <-]].
  set (f := fun po => _). destruct (index_modify permission_conflict id f (permissions db)) as [r1 gp] eqn:E.
  assert (Hv : violates permission_conflict (_indices (permissions db)) id (f p) = false)
    by (eapply (unique_modify permission_conflict); try done; apply Hok).
  destruct (index_modify_inv _ _ _ _ _ _ _ Hp Hv E) as (-> & Hgp & Hgn). intros [= <- <-].
  assert (Hinv : forall i q, _indices gp !! i = Some q -> exists q', _indices (permissions db) !! i = Some q' /\ same_place q q').
  { intros i q. rewrite Hgp, lookup_insert. case_decide; intros; simplify_eq; [exists p|exists q]; unfold same_place; auto 7. }
  assert (Hfwd : forall i q, _indices (permissions db) !! i = Some q -> exists q', _indices gp !! i = Some q' /\ po_owner q' = po_owner q).
  { intros i q Hq. rewrite Hgp, lookup_insert. case_decide; simplify_eq; eauto. }
  apply auth_ok_related; auto.
  - rewrite Hgp, lookup_insert_ne by done. apply Hok.
  - rewrite Hgp. apply unique_insert; [apply permission_conflict_sym|apply Hok|done].
  - intros i q Hi (q' & Hq' & _ & _ & _ & -> & _)%Hinv. by apply (ao_usage db Hok i q').
  - apply Hok.
Qed.

Lemma remove_step_ok db id p r db' : auth_ok db -> id <> 0 ->
  _indices (permissions db) !! id = Some p ->
  remove_permission (id, p) db = (r, db') -> auth_ok db'.
Proof.
  intros Hok Hid Hp. unfold remove_permission, on_permissions, on_usages.
  cbv [mbind M_bind massert get]. cbn [fst snd].
  destruct (no_children _ _) eqn:Ec; [|by intros [= <- <-]]. cbn.
  destruct (ao_usage db Hok id p Hid Hp) as [x Hx].
  unfold remove_object, find. rewrite Hx.
  destruct (index_remove (po_usage_id p) (usages db)) as [r1 gu] eqn:Eu.
  destruct (index_remove_inv _ _ _ _ _ Hx Eu) as (-> & Hgu & Hgun). cbn.
  destruct (index_remove id (permissions db)) as [r2 gp] eqn:Ep.
  destruct (index_remove_inv _ _ _ _ _ Hp Ep) as (-> & Hgp & Hgn). intros [= <- <-].
  assert (Hinv : forall i q, _indices gp !! i = Some q -> i <> id /\ _indices (permissions db) !! i = Some q).
  { intros i q. rewrite Hgp. intros [? ?]%lookup_delete_Some. auto. }
  apply auth_ok_related; auto.
  - rewrite Hgp, lookup_delete_ne by done. apply Hok.
  - rewrite Hgp. apply unique_delete; [done || apply permission_conflict_sym|apply Hok].
  - intros i q [_ Hq]%Hinv. exists q. split; [done|apply same_place_refl].
  - intros i q q' [Hne Hq]%Hinv Hi0 Hq'. rewrite Hgp, lookup_delete_ne; [eauto|]. intros Heq.
    unfold no_children in Ec. rewrite forallb_forall in Ec. specialize (Ec (i, q)).
    rewrite <- list_elem_of_In, elem_of_map_to_list in Ec. specialize (Ec Hq). cbn in Ec. btests. congruence.
  - intros i q Hi [Hne Hq]%Hinv. rewrite Hgu, lookup_delete_ne; [by apply (ao_usage db Hok i q)|].
    intros Heq. apply Hne. by apply (ao_usage_own db Hok i id q p).
  - intros u y. rewrite Hgu, Hgun. intros [_ Hy]%lookup_delete_Some. by apply (ao_usage_fresh db Hok u y).
Qed.

Lemma use_step_ok db id p r db' : auth_ok db -> id <> 0 ->
  _indices (permissions db) !! id = Some p ->
  update_permission_usage cfg (id, p) db = (r, db') -> auth_ok db'.
Proof.
  intros Hok Hid Hp. destruct (ao_usage db Hok id p Hid Hp) as [x Hx].
  unfold update_permission_usage, on_usages, index_get, find. cbv [mbind M_bind get lift]. cbn [fst snd]. rewrite Hx.
  set (f := fun _ => _). destruct (index_modify usage_conflict (po_usage_id p) f (usages db)) as [r1 gu] eqn:E.
  assert (Hv : violates usage_conflict (_indices (usages db)) (po_usage_id p) (f x) = false) by by apply violates_false.
  destruct (index_modify_inv _ _ _ _ _ _ _ Hx Hv E) as (-> & Hgu & Hgn). intros [= <- <-].
  apply auth_ok_usage; [done| |].
  - intros u y Hy. rewrite Hgu, lookup_insert. by case_decide; eexists.
  - intros u y. rewrite Hgu, Hgn, lookup_insert. case_decide; intros Hy; [subst; by apply (ao_usage_fresh db Hok _ x)|by apply (ao_usage_fresh db Hok _ y)].
Qed.

Lemma auth_step_ok db db' : auth_ok db -> auth_step db db' -> auth_ok db'.
Proof.
  intros Hok. destruct 1 as [account name parent auth t r db'|id p auth r db'|id p r db'|id p r db'].
  - eapply create_step_ok; [| | | | |eassumption]; assumption.
  - eapply modify_step_ok; eauto.
  - eapply remove_step_ok; eauto.
  - eapply use_step_ok; eauto.
Qed.

Definition empty_auth_db : auth_db K := mk_auth_db index_empty index_empty index_empty.

Lemma initialize_ok : auth_ok (initialize_database empty_auth_db).2.
Proof.
  set (db := (initialize_database empty_auth_db).2).
  assert (E : _indices (permissions db) = <[0 := default_permission]> ∅) by reflexivity.
  assert (Eu : _indices (usages db) = ∅) by reflexivity.
  assert (H1 : forall i p, i <> 0 -> _indices (permissions db) !! i = Some p -> False).
  { intros i p Hi. rewrite E, lookup_insert_ne, lookup_empty; done. }
  split; rewrite ?Eu.
  - rewrite E. apply lookup_insert_eq.
  - intros id p Hid Hp. by edestruct H1.
  - intros id p Hp. destruct (decide (id = 0)) as [->|Hid]; [done|by edestruct H1].
  - intros i j b c Hij Hi Hj. destruct (decide (i = 0)) as [->|Hi0]; [|by edestruct H1].
    edestruct (H1 j); [congruence|done].
  - intros id p Hid Hp. by edestruct H1.
  - intros i j b c Hi0 _ Hi. by edestruct H1.
  - done.
Qed.
End Invariant.

(** ** The database as a resolver of the authority checker *)
Section Sound.
Context {K : Type} `{EqDecision K} `{unpacker K} {W : Type} (checktime : M W unit).
Context (cfg : auth_config K) (generated : list generated_transaction_object).
Context (db : auth_db K) (Hok : auth_ok db).

#[local] Instance database_resolver : Resolver (permission_to_authority db).
Proof.
  split.
  - intros p a (po & Hpo & Ha)%res_bind_ok. injection Ha as <-. destruct po as [id po].
    apply (get_permission_ok db p id po Hok) in Hpo as (Hi & _ & _ & Hne). by apply (ao_permission db Hok id po).
  - intros a. unfold permission_to_authority, get_permission. cbn. by rewrite andb_false_r.
Qed.

(** The declared permission is at least as powerful as the one its actor has
    linked to the action, [active] without a link; the pseudo permission
    [eosio.any] asks for nothing. *)
Definition relevant (act : action) (p : permission_level) : Prop :=
  lookup_minimum_permission db (actor p) (act_account act) (act_name act) = Ok None
  \/ exists name self min,
       lookup_minimum_permission db (actor p) (act_account act) (act_name act) = Ok (Some name)
       /\ get_permission db p = Ok self /\ get_permission db (mk_pl (actor p) name) = Ok min
       /\ is_above (_indices (permissions db)) self.1 min.1.

Lemma get_satisfies_ok auth min level : get_permission db level = Ok min ->
  get_satisfies db auth min = Ok tt ->
  exists self, get_permission db auth = Ok self /\ is_above (_indices (permissions db)) self.1 min.1.
Proof.
  intros Hmin. unfold get_satisfies. intros (self & Hself & Hr)%res_bind_ok.
  apply res_bind_ok in Hr as (b & Hb & Hb').
  exists self. split; [done|]. destruct self as [i p], min as [j q].
  apply (get_permission_ok db level j q Hok) in Hmin as (Hj & _ & _ & Hj0).
  apply (get_permission_ok db auth i p Hok) in Hself as (Hi & _ & _ & Hi0).
  destruct (satisfies_above db i p j q Hok Hi0 Hj0 Hi Hj) as (r & Hr & Hr'). cbn [fst].
  apply Hr'. rewrite Hr in Hb. minv. done.
Qed.

Lemma check_minimum_relevant act p : check_minimum db act p = Ok tt -> relevant act p.
Proof.
  unfold check_minimum, relevant. intros (mn & Hmn & Hrest)%res_bind_ok.
  destruct mn as [name|]; [|by left]. apply res_bind_ok in Hrest as (min & Hmin & Hs). right.
  destruct (get_satisfies_ok _ _ _ Hmin Hs) as (self & Hself & Ha). by exists name, self, min.
Qed.

(** What [check_actions] records. *)
Definition recorded (sat : list permission_level) (m : gmap permission_level Z) (p : permission_level) (d : Z) : Prop :=
  p ∈ sat \/ exists d', m !! p = Some d' /\ d' <= d.

Definition keeps (m m' : gmap permission_level Z) : Prop :=
  forall p d, m !! p = Some d -> exists d', m' !! p = Some d' /\ d' <= d.

Lemma keeps_refl m : keeps m m.
Proof. intros p d Hp. exists d. split; [done|lia]. Qed.

Lemma keeps_trans m1 m2 m3 : keeps m1 m2 -> keeps m2 m3 -> keeps m1 m3.
Proof.
  intros H12 H23 p d (d' & Hd' & Hle)%H12. apply H23 in Hd' as (d2 & Hd2 & Hle2). exists d2. split; [done|lia].
Qed.

Lemma keeps_recorded sat m m' p d : keeps m m' -> recorded sat m p d -> recorded sat m' p d.
Proof.
  intros Hk [?|(d' & Hd' & Hle)]; [by left|]. right. apply Hk in Hd' as (d2 & Hd2 & Hle2). exists d2. split; [done|lia].
Qed.

Lemma emplace_delay_keeps p d m : keeps m (emplace_delay p d m).
Proof.
  intros q d' Hq. unfold emplace_delay. destruct (m !! p) as [dp|] eqn:E.
  - destruct (dp >? d) eqn:Ed; [|exists d'; split; [done|lia]]. btests.
    rewrite lookup_insert. case_decide; [subst|exists d'; split; [done|lia]].
    simplify_eq. exists d. split; [done|lia].
  - exists d'. split; [|lia]. rewrite lookup_insert_ne; [done|congruence].
Qed.

Lemma emplace_delay_recorded sat p d m : recorded sat (emplace_delay p d m) p d.
Proof.
  right. unfold emplace_delay. destruct (m !! p) as [dp|] eqn:E.
  - destruct (dp >? d) eqn:Ed; btests; [exists d; rewrite lookup_insert_eq; split; [done|lia]|exists dp; split; [done|lia]].
  - exists d. rewrite lookup_insert_eq. split; [done|lia].
Qed.

Lemma check_declared_spec special act delay sat auths : forall m w m' w',
  check_declared checktime db special act delay sat auths m w = (Ok m', w') ->
  keeps m m' /\ forall p, p ∈ auths ->
    (special = false -> relevant act p) /\ recorded sat m' p delay.
Proof.
  induction auths as [|a auths IH]; intros m w m' w'; cbn [check_declared].
  - intros Hr. minv. split; [apply keeps_refl|]. by intros p ?%elem_of_nil.
  - intros Hr. minv. match goal with Hd : check_declared _ _ _ _ _ _ _ _ _ = _ |- _ => apply IH in Hd as [Hk Hall] end.
    set (m1 := if bool_decide (a ∈ sat) then m else emplace_delay a delay m) in *.
    assert (Hm1 : keeps m m1) by (subst m1; case_bool_decide; [apply keeps_refl|apply emplace_delay_keeps]).
    assert (Hm2 : recorded sat m1 a delay) by (subst m1; case_bool_decide; [by left|apply emplace_delay_recorded]).
    split; [by eapply keeps_trans|]. intros p [->|Hp]%elem_of_cons; [|by apply Hall].
    split; [|by eapply keeps_recorded]. intros ->. by apply check_minimum_relevant.
Qed.

Lemma check_actions_spec delay sat actions : forall m w m' w',
  check_actions checktime generated db delay sat actions m w = (Ok m', w') ->
  keeps m m' /\ forall act p, act ∈ actions -> p ∈ authorization act -> exists special act_delay,
    special_case generated db act delay = Ok (special, act_delay)
    /\ (special = false -> relevant act p) /\ recorded sat m' p act_delay.
Proof.
  induction actions as [|a actions IH]; intros m w m' w'; cbn [check_actions].
  - intros Hr. minv. split; [apply keeps_refl|]. by intros act p ?%elem_of_nil.
  - intros Hr. apply M_bind_ok in Hr as ([special ad] & w1 & Hsp & Hr). minv.
    match goal with Hd : check_declared _ _ _ _ _ _ _ _ _ = _ |- _ => apply check_declared_spec in Hd as [Hk1 Hall1] end.
    match goal with Hd : check_actions _ _ _ _ _ _ _ _ = _ |- _ => apply IH in Hd as [Hk2 Hall2] end.
    split; [by eapply keeps_trans|]. intros act p [->|Hact]%elem_of_cons Hp; [|by apply Hall2].
    exists special, ad. destruct (Hall1 p Hp) as [? ?]. split; [done|]. split; [done|]. by eapply keeps_recorded.
Qed.

Lemma elem_of_in_level_order (m : gmap permission_level Z) p d : m !! p = Some d -> (p, d) ∈ in_level_order m.
Proof.
  intros Hp. unfold in_level_order. apply list_elem_of_fmap. exists p. rewrite Hp. split; [done|].
  rewrite merge_sort_Permutation. apply elem_of_elements, elem_of_dom. eauto.
Qed.

Lemma satisfy_all_spec ps : forall (c c' : authority_checker K) w w',
  length (_used_keys c) = length (provided_keys c) ->
  satisfy_all checktime db ps c w = (Ok c', w') ->
  forall p d, (p, d) ∈ ps -> level_is_granted (permission_to_authority db) (provided_keys c) (provided_permissions c) d p.
Proof.
  induction ps as [|[q dq] ps IH]; intros c c' w w' Hlen; cbn [satisfy_all].
  - by intros _ p d ?%elem_of_nil.
  - unfold with_delay.
    pose proof (satisfied_permission_run (permission_to_authority db) False (fun _ => 0%nat) q
      (set_provided_delay dq c) (False_ind _) Hlen) as Hrun. cbn in Hrun.
    destruct (satisfied_permission _ _ _ _) as [r [c1 cache]]. intros Hr. minv.
    destruct Hrun as ((Hk & Hp & _ & _ & Hl) & _ & Hg & _).
    assert (Hlen' : length (_used_keys (set_provided_delay (provided_delay c) c1))
      = length (provided_keys (set_provided_delay (provided_delay c) c1))) by (cbn; congruence).
    match goal with Hs : satisfy_all _ _ _ _ _ = _ |- _ => pose proof (IH _ _ _ _ Hlen' Hs) as Hrest end.
    cbn in Hrest. rewrite Hk, Hp in Hrest.
    intros p d [Heq|Hin]%elem_of_cons; [injection Heq as -> ->; by apply Hg|by apply Hrest].
Qed.
End Sound.

(** ** Properties *)

(** C19: Starting from the initialized database, the calls of the manager
    (create, modify, remove, use; successful or not) keep the permissions of
    every account a forest: parents are stored, older and of the same account,
    names are unique per account and every permission owns a usage record.
    Removing a permission never leaves an orphan. *)
Theorem permission_forest_invariant {K : Type} `{EqDecision K} (cfg : auth_config K) (db : auth_db K) :
  rtc (auth_step cfg) (initialize_database empty_auth_db).2 db -> auth_ok db.
Proof.
  intros Hr. remember (initialize_database empty_auth_db).2 as db0 eqn:E.
  assert (Hok : auth_ok db0) by (subst; apply initialize_ok). clear E.
  induction Hr as [|db0 db1 db Hs Hr IH]; [done|]. apply IH. by eapply auth_step_ok.
Qed.

(** [permission_object::satisfies] decides the ancestor relation: the loop
    over the parents terminates, never reaches a missing permission, and finds
    the permission exactly when it is the other one or above it. *)
Theorem satisfies_decides_ancestor {K : Type} `{EqDecision K} (db : auth_db K) l l' p q :
  auth_ok db -> get_permission db l = Ok p -> get_permission db l' = Ok q ->
  exists r, satisfies p q (_indices (permissions db)) = Ok r
    /\ (r = true <-> is_above (_indices (permissions db)) p.1 q.1).
Proof.
  intros Hok Hp Hq. destruct p as [i p], q as [j q].
  apply (get_permission_ok db l i p Hok) in Hp as (Hi & _ & _ & Hi0).
  apply (get_permission_ok db l' j q Hok) in Hq as (Hj & _ & _ & Hj0). by apply satisfies_above.
Qed.


(** ** A concrete account: [owner] with key 1 and [active] with key 2. *)
#[export] Instance demo_unpacker : unpacker Z := {|
  unpack_updateauth _ := Err std_out_of_range; unpack_deleteauth _ := Err std_out_of_range;
  unpack_linkauth _ := Err std_out_of_range; unpack_unlinkauth _ := Err std_out_of_range;
  unpack_canceldelay _ := Err std_out_of_range; unpack_transaction _ := Err std_out_of_range |}.

Definition demo_cfg : auth_config Z := mk_auth_config (fun _ => 0) 3 1000 3888000 6.
Definition demo_account : Z := string_to_name [97; 108; 105; 99; 101].
Definition demo_key (k : Z) : authority Z := demo_auth 1 [(k, 1)] [].

Definition demo_db0 : auth_db Z := (initialize_database empty_auth_db).2.
Definition demo_db1 : auth_db Z := (create_permission demo_cfg demo_account owner_name 0 (demo_key 1) 0 demo_db0).2.
Definition demo_db : auth_db Z := (create_permission demo_cfg demo_account active_name 1 (demo_key 2) 0 demo_db1).2.

Lemma demo_key_well_formed k : well_formed (demo_key k).
Proof. split; [done|]. split; [repeat constructor; cbn; lia|done]. Qed.

Lemma demo_steps : rtc (auth_step demo_cfg) demo_db0 demo_db.
Proof.
  eapply rtc_l with demo_db1; [|eapply rtc_once].
  - apply (step_create demo_cfg demo_db0 demo_account owner_name 0 (demo_key 1) 0
      (create_permission demo_cfg demo_account owner_name 0 (demo_key 1) 0 demo_db0).1); try done;
      [apply demo_key_well_formed|by left].
  - apply (step_create demo_cfg demo_db1 demo_account active_name 1 (demo_key 2) 0
      (create_permission demo_cfg demo_account active_name 1 (demo_key 2) 0 demo_db1).1); try done;
      [apply demo_key_well_formed|right; by eexists].
Qed.

Lemma demo_db_ok : auth_ok demo_db.
Proof. eapply rtc_ind_r with (P := fun db => auth_ok db); [apply initialize_ok| |exact demo_steps]. intros; by eapply auth_step_ok. Qed.

Lemma permission_forest_invariant_witness : rtc (auth_step demo_cfg) demo_db0 demo_db /\ auth_ok demo_db.
Proof. split; [exact demo_steps|apply (permission_forest_invariant demo_cfg), demo_steps]. Defined.

Definition demo_level (name : Z) : permission_level := mk_pl demo_account name.
Definition demo_get (name : Z) : Z * permission_object Z := ok_or (0, default_permission) (get_permission demo_db (demo_level name)).

Lemma satisfies_decides_ancestor_witness :
  exists r, satisfies (demo_get owner_name) (demo_get active_name) (_indices (permissions demo_db)) = Ok r
    /\ (r = true <-> is_above (_indices (permissions demo_db)) (demo_get owner_name).1 (demo_get active_name).1).
Proof.
  apply (satisfies_decides_ancestor demo_db (demo_level owner_name) (demo_level active_name));
    [exact demo_db_ok|apply ok_or_eq; vm_compute; reflexivity..].
Defined.

Definition demo_action : action := mk_action (string_to_name [116; 111; 107; 101; 110]) (string_to_name [97]) [demo_level active_name] [].
Definition demo_check : res unit * unit :=
  check_authorization (mret tt) demo_cfg [] demo_db [demo_action] [2] [] 0 false [] tt.

Lemma demo_check_ok : demo_check = (Ok tt, tt).
Proof. vm_compute. reflexivity. Qed.

