(* ===== verification/GlobalProperties.v ===== *)
(** * Proposed producer schedules
      ([global_property_object.hpp], [controller.cpp], [wasm_interface.cpp])

    The part of the global properties that concerns producers: the schedule
    that privileged contracts propose, the standby schedule, and the checks of
    [privileged_api] on what is proposed.  The theorems: the checks accept
    exactly the schedules that are well formed, whose producers can all sign,
    and a rejected proposal changes nothing.  Conversions to and from the
    shared representation are in [Authority.v]. *)

From S2P Require Import Prelude Authority.
#[local] Open Scope Z_scope.

Section Properties.
Context {K : Type} `{EqDecision K}.
Abbreviation schedule := (producer_authority_schedule K).
Abbreviation producer := (producer_authority K).

(** ** The object *)
Record global_properties : Type := mk_gpo {
  proposed_schedule_block_num : option Z;
  proposed_schedule : schedule;
  standby_schedule : schedule;
  enable_standby_schedule : bool;
  standby_schedule_block_num : option Z }.

Definition no_schedule : schedule := mk_schedule 0 [].
Definition gpo_default : global_properties := mk_gpo None no_schedule no_schedule false None.

Definition set_proposal (n : option Z) (s : schedule) (g : global_properties) : global_properties :=
  mk_gpo n s (standby_schedule g) (enable_standby_schedule g) (standby_schedule_block_num g).
Definition set_standby (s : schedule) (g : global_properties) : global_properties :=
  mk_gpo (proposed_schedule_block_num g) (proposed_schedule g) s (enable_standby_schedule g) (standby_schedule_block_num g).
Definition set_standby_block (enabled : bool) (n : option Z) (g : global_properties) : global_properties :=
  mk_gpo (proposed_schedule_block_num g) (proposed_schedule g) (standby_schedule g) enabled n.

(** What the operations read of the controller: [head_block_num()],
    [active_producers()] and [pending_producers()]. *)
Record schedule_view : Type := mk_schedule_view {
  sv_head_num : Z;
  active_producers : schedule;
  pending_producers : schedule }.

(** ** Proposing *)

(** The schedule that a new one follows. *)
Definition latest_schedule (v : schedule_view) : schedule :=
  if bool_decide (producers (pending_producers v) = []) then active_producers v else pending_producers v.

(** The reasons not to accept a proposal, as the code returns them. *)
Definition proposal_refused (v : schedule_view) (ps : list producer) (g : global_properties) : option Z :=
  if bool_decide (ps = []) then Some (-1)
  else
    let by_earlier :=
      match proposed_schedule_block_num g with
      | Some n =>
          if negb (n =? u32 (sv_head_num v + 1)) then Some (-2)
          else if bool_decide (ps = producers (proposed_schedule g)) then Some (-3)
          else None
      | None => None
      end in
    match by_earlier with
    | Some code => Some code
    | None => if bool_decide (ps = producers (latest_schedule v)) then Some (-1) else None
    end.

Definition set_proposed_producers (v : schedule_view) (ps : list producer) : M global_properties Z := fun g =>
  match proposal_refused v ps g with
  | Some code => (Ok code, g)
  | None =>
      let sch := mk_schedule (u32 (version (latest_schedule v) + 1)) ps in
      (Ok (version sch), set_proposal (Some (u32 (sv_head_num v + 1))) sch g)
  end.

Definition set_standby_producers (ps : list producer) : M global_properties Z := fun g =>
  (Ok (Z.of_nat (length ps)), set_standby (mk_schedule 0 ps) g).

Definition enable_standby_producers (v : schedule_view) : M global_properties Z :=
  g ← get;
  if negb (enable_standby_schedule g) then
    let last_proposed_schedule_block_num := proposed_schedule_block_num g in
    modify (fun g => set_proposal None (proposed_schedule g) (set_standby_block true (Some (u32 (sv_head_num v + 5))) g));;
    v' ← set_proposed_producers v (producers (standby_schedule g));
    if v' >? 0 then
      modify (fun g => set_standby (mk_schedule (u32 v') (producers (standby_schedule g)))
                         (set_standby_block true (standby_schedule_block_num g) g));;
      mret v'
    else
      modify (fun g => set_proposal last_proposed_schedule_block_num (proposed_schedule g) (set_standby_block false None g));;
      mret v'
  else mret 0.

(** ** The checks of [privileged_api] *)
Definition max_producers : Z := 125.

Context (key_which : K -> Z) (num_supported_key_types : Z) (account_exists : Z -> bool).

(** The weights, saturating. *)
Definition add_weight (sum weight : Z) : Z := if UINT32_MAX - sum <=? weight then UINT32_MAX else sum + weight.

Fixpoint sum_key_weights (ks : list (key_weight K)) (sum : Z) : res Z :=
  match ks with
  | [] => Ok sum
  | kw :: ks =>
      eos_assert (key_which (kw_key kw) <? num_supported_key_types) unactivated_key_type;;
      sum_key_weights ks (add_weight sum (kw_weight kw))
  end.

Definition check_producer_authority (a : block_signing_authority_v0 K) : res unit :=
  sum_weights ← sum_key_weights (bsa_keys a) 0;
  eos_assert (bool_decide (NoDup (map kw_key (bsa_keys a)))) wasm_execution_error;;
  eos_assert (bsa_threshold a >? 0) wasm_execution_error;;
  eos_assert (sum_weights >=? bsa_threshold a) wasm_execution_error.

Fixpoint check_producers (ps : list producer) : res unit :=
  match ps with
  | [] => Ok tt
  | p :: ps =>
      eos_assert (account_exists (producer_name p)) wasm_execution_error;;
      match pa_authority p with bsa_v0 a => check_producer_authority a end;;
      check_producers ps
  end.

(** The same text in [set_proposed_producers_common] (whose [validate_keys] is
    false at its only call) and [set_standby_producers]. *)
Definition check_producer_schedule (ps : list producer) : res unit :=
  eos_assert (Z.of_nat (length ps) <=? max_producers) wasm_execution_error;;
  eos_assert (0 <? Z.of_nat (length ps)) wasm_execution_error;;
  check_producers ps;;
  eos_assert (bool_decide (NoDup (map producer_name ps))) wasm_execution_error.

(** ** What the checks accept *)
Definition total_weight (ks : list (key_weight K)) : Z := foldr (fun kw sum => kw_weight kw + sum) 0 ks.

Record authority_ok (a : block_signing_authority_v0 K) : Prop := {
  ao_keys : NoDup (map kw_key (bsa_keys a));
  ao_activated kw : kw ∈ bsa_keys a -> key_which (kw_key kw) < num_supported_key_types;
  ao_threshold : 0 < bsa_threshold a <= Z.min UINT32_MAX (total_weight (bsa_keys a)) }.

Record schedule_ok (ps : list producer) : Prop := {
  so_size : 0 < Z.of_nat (length ps) <= max_producers;
  so_names : NoDup (map producer_name ps);
  so_producers p : p ∈ ps -> account_exists (producer_name p) = true
    /\ match pa_authority p with bsa_v0 a => authority_ok a end }.

Definition weights_are_u16 (ks : list (key_weight K)) : Prop := forall kw, kw ∈ ks -> is_u16 (kw_weight kw).
Definition schedule_widths (ps : list producer) : Prop := forall p, p ∈ ps ->
  match pa_authority p with bsa_v0 a => weights_are_u16 (bsa_keys a) /\ is_u32 (bsa_threshold a) end.

Lemma add_weight_min sum w : add_weight sum w = Z.min UINT32_MAX (sum + w).
Proof. unfold add_weight. destruct (Z.leb_spec (UINT32_MAX - sum) w); lia. Qed.

Lemma total_weight_nonneg ks : weights_are_u16 ks -> 0 <= total_weight ks.
Proof.
  induction ks as [|kw ks IH]; intros Hw; cbn; [lia|]. pose proof (Hw kw ltac:(by left)) as Hk. unfold is_u16 in Hk.
  enough (0 <= total_weight ks) by (unfold total_weight in *; lia). apply IH. intros k Hin. apply Hw. by right.
Qed.

(** The loop adds up the weights unless a key type is not activated. *)
Lemma sum_key_weights_spec ks : forall sum, weights_are_u16 ks -> 0 <= sum <= UINT32_MAX ->
  sum_key_weights ks sum =
    if decide (Forall (fun kw => key_which (kw_key kw) < num_supported_key_types) ks)
    then Ok (Z.min UINT32_MAX (sum + total_weight ks)) else Err unactivated_key_type.
Proof.
  induction ks as [|kw ks IH]; intros sum Hw Hs; cbn [sum_key_weights].
  { cbn. f_equal. lia. }
  assert (Hks : weights_are_u16 ks) by (intros k Hk; apply Hw; by right). pose proof (total_weight_nonneg ks Hks) as Ht.
  pose proof (Hw kw ltac:(by left)) as Hk. unfold is_u16 in Hk.
  destruct (Z.ltb_spec (key_which (kw_key kw)) num_supported_key_types) as [Hlt|Hge]; cbn.
  - rewrite IH by (done || rewrite add_weight_min; lia). rewrite add_weight_min.
    destruct (decide (Forall _ ks)) as [Hd|Hd], (decide (Forall _ (kw :: ks))) as [Hd'|Hd']; rewrite Forall_cons in Hd'; try tauto.
    unfold total_weight in *. cbn. apply (f_equal Ok). lia.
  - rewrite decide_False; [done|]. rewrite Forall_cons. lia.
Qed.

Lemma check_producer_authority_spec a : weights_are_u16 (bsa_keys a) ->
  check_producer_authority a = Ok tt <-> authority_ok a.
Proof.
  intros Hw. unfold check_producer_authority. rewrite sum_key_weights_spec by (done || widths; lia).
  destruct (decide _) as [Ha|Ha]; cbn [mbind res_bind].
  - rewrite !eos_assert_bind_ok, eos_assert_ok, bool_decide_eq_true, Z.gtb_lt, Z.geb_le, Z.add_0_l. rewrite Forall_forall in Ha.
    split; [intros (? & ? & ?); by split|intros [? ? []]; done].
  - split; [done|]. intros [_ Hact _]. destruct Ha. by apply Forall_forall.
Qed.

Lemma check_producers_spec ps : schedule_widths ps -> check_producers ps = Ok tt <->
  forall p, p ∈ ps -> account_exists (producer_name p) = true /\ match pa_authority p with bsa_v0 a => authority_ok a end.
Proof.
  induction ps as [|p ps IH]; intros Hw; cbn [check_producers]; [split; [by intros _ p ?%elem_of_nil|done]|].
  pose proof (Hw p ltac:(by left)) as Hp. assert (Hps : schedule_widths ps) by (intros q Hq; apply Hw; by right).
  destruct (pa_authority p) as [a] eqn:Ea. destruct Hp as [Hp _]. rewrite eos_assert_bind_ok.
  assert (Hr : (check_producer_authority a;; check_producers ps) = Ok tt <-> check_producer_authority a = Ok tt /\ check_producers ps = Ok tt)
    by (destruct (check_producer_authority a) as [[]|]; cbn; split; [done|by intros []|done|by intros []]).
  rewrite Hr, check_producer_authority_spec, IH by done. setoid_rewrite elem_of_cons. split.
  - intros (? & ? & Hall) q [->|Hq]; [by rewrite Ea|by apply Hall].
  - intros Hall. destruct (Hall p) as [? Hpa]; [by left|]. rewrite Ea in Hpa. split_and!; auto.
Qed.

Lemma check_producer_schedule_ok ps : schedule_widths ps -> check_producer_schedule ps = Ok tt <-> schedule_ok ps.
Proof.
  intros Hw. unfold check_producer_schedule. rewrite !eos_assert_bind_ok, Z.leb_le, Z.ltb_lt.
  assert (Hr : (check_producers ps;; eos_assert (bool_decide (NoDup (map producer_name ps))) wasm_execution_error) = Ok tt
    <-> check_producers ps = Ok tt /\ NoDup (map producer_name ps)).
  { destruct (check_producers ps) as [[]|]; cbn; [rewrite eos_assert_ok, bool_decide_eq_true; tauto|split; [done|by intros []]]. }
  rewrite Hr, check_producers_spec by done. split; [intros (? & ? & ? & ?); by split|intros [[] ? ?]; done].
Qed.

(** ** Proposals *)

(** The schedules of the object are those contracts were allowed to set. *)
Definition properties_ok (g : global_properties) : Prop :=
  (producers (proposed_schedule g) = [] \/ schedule_ok (producers (proposed_schedule g)))
  /\ (producers (standby_schedule g) = [] \/ schedule_ok (producers (standby_schedule g)))
  /\ (proposed_schedule_block_num g <> None -> schedule_ok (producers (proposed_schedule g)))
  /\ (enable_standby_schedule g = false -> standby_schedule_block_num g = None).

Lemma proposal_refused_negative v ps g code : proposal_refused v ps g = Some code -> code < 0.
Proof. unfold proposal_refused. repeat case_match; naive_solver lia. Qed.

Lemma set_proposed_producers_cases v ps g : exists code g', set_proposed_producers v ps g = (Ok code, g')
  /\ ((code < 0 /\ g' = g)
      \/ (code = u32 (version (latest_schedule v) + 1) /\ ps <> [] /\ ps <> producers (latest_schedule v)
          /\ (proposed_schedule_block_num g = None \/ proposed_schedule_block_num g = Some (u32 (sv_head_num v + 1)))
          /\ g' = set_proposal (Some (u32 (sv_head_num v + 1))) (mk_schedule code ps) g)).
Proof.
  unfold set_proposed_producers. destruct (proposal_refused v ps g) as [code|] eqn:Er.
  { apply proposal_refused_negative in Er. eauto 10. }
  eexists _, _. split; [done|]. right. unfold proposal_refused in Er.
  destruct (bool_decide (ps = [])) eqn:E1; [done|]. apply bool_decide_eq_false in E1.
  assert (Hl : ps <> producers (latest_schedule v)).
  { intros Heq. rewrite (bool_decide_eq_true_2 _ Heq) in Er. by repeat case_match. }
  split_and!; try done. destruct (proposed_schedule_block_num g) as [n|]; [|by left]. right. f_equal.
  destruct (n =? u32 (sv_head_num v + 1)) eqn:En; [by apply Z.eqb_eq|done].
Qed.

(** What a privileged contract can do to the object. *)
Inductive properties_step (g g' : global_properties) : Prop :=
| step_propose v ps code : check_producer_schedule ps = Ok tt -> schedule_widths ps ->
    set_proposed_producers v ps g = (Ok code, g') -> properties_step g g'
| step_standby ps n : check_producer_schedule ps = Ok tt -> schedule_widths ps ->
    set_standby_producers ps g = (Ok n, g') -> properties_step g g'
| step_enable v code : enable_standby_producers v g = (Ok code, g') -> properties_step g g'.

Lemma step_propose_ok v ps g code g' : properties_ok g -> (ps = [] \/ schedule_ok ps) ->
  set_proposed_producers v ps g = (Ok code, g') -> properties_ok g'.
Proof.
  intros Hg Hs Hr. destruct (set_proposed_producers_cases v ps g) as (c & g1 & Hr' & [[_ ->]|(_ & Hne & _ & _ & ->)]);
    rewrite Hr in Hr'; injection Hr' as -> ->; [done|]. destruct Hs as [|Hs]; [done|]. destruct Hg as (_ & ? & _ & ?).
  split_and!; cbn; auto.
Qed.

Lemma properties_step_ok g g' : properties_ok g -> properties_step g g' -> properties_ok g'.
Proof.
  intros Hg [v ps code Hc Hw Hr|ps n Hc Hw Hr|v code Hr].
  - apply check_producer_schedule_ok in Hc; [|done]. eapply step_propose_ok; [done| |done]. by right.
  - apply check_producer_schedule_ok in Hc; [|done]. injection Hr as _ <-. destruct Hg as (? & _ & ? & ?). split_and!; cbn; auto.
  - unfold enable_standby_producers in Hr. mrun. destruct (enable_standby_schedule g) eqn:Een; cbn in Hr; [by injection Hr as _ <-|].
    destruct Hg as (Hp & Hst & Hpn & Hn). set (g1 := set_proposal _ _ _) in Hr. cbn in Hr.
    destruct (set_proposed_producers_cases v (producers (standby_schedule g)) g1) as (c & g2 & Hr' & Hcase).
    rewrite Hr' in Hr. destruct (c >? 0) eqn:Ec; cbn in Hr; injection Hr as _ <-.
    + destruct Hcase as [[? _]|(_ & Hne & _ & _ & ->)]; [btests; lia|]. destruct Hst as [|Hst]; [done|]. by split_and!; cbn; auto.
    + destruct Hcase as [[_ ->]|(-> & Hne & _ & _ & ->)]; split_and!; cbn; naive_solver.
Qed.

(** Presenting all the keys of an accepted producer satisfies its authority. *)
Lemma all_keys_satisfy a : weights_are_u16 (bsa_keys a) -> is_u32 (bsa_threshold a) -> authority_ok a ->
  (keys_satisfy_and_relevant (fun _ => true) (bsa_v0 a)).1 = true.
Proof.
  intros Hw Ht [_ _ Hthr]. apply (keys_satisfy_spec (fun _ => true) a); [by apply Forall_forall|done|].
  enough (presented_weight (fun _ => true) (bsa_keys a) = total_weight (bsa_keys a)) by lia.
  clear. unfold presented_weight, total_weight. induction (bsa_keys a) as [|kw ks IH]; [done|]. rewrite filter_cons, decide_True by done. cbn. by rewrite <- IH.
Qed.

(** The checks on proposed and standby schedules accept exactly the well
    formed ones: between 1 and 125 producers with different names, all existing
    accounts, their authorities without repeated or unactivated keys and with a
    threshold between 1 and the sum of the weights.  Hence every producer of an
    accepted schedule can sign: all its keys together satisfy its authority. *)
Theorem check_producer_schedule_spec (ps : list producer) : schedule_widths ps ->
  (check_producer_schedule ps = Ok tt <-> schedule_ok ps)
  /\ (check_producer_schedule ps = Ok tt -> forall p, p ∈ ps ->
        (keys_satisfy_and_relevant (fun _ => true) (pa_authority p)).1 = true).
Proof.
  intros Hw. split; [by apply check_producer_schedule_ok|]. intros Hc p Hp.
  apply check_producer_schedule_ok in Hc as [_ _ Hall]; [|done].
  specialize (Hw p Hp). destruct (Hall p Hp) as [_ Ha]. destruct (pa_authority p) as [a]. destruct Hw. by apply all_keys_satisfy.
Qed.

(** C15: Whatever contracts propose, in any order and however the proposals are
    answered, the proposed and the standby schedule are empty or well formed;
    while a proposal is pending, it is well formed. *)
Theorem proposals_well_formed (g : global_properties) : rtc properties_step gpo_default g -> properties_ok g.
Proof.
  intros Hs. refine (rtc_ind_r properties_ok _ _ _ g Hs); [by split_and!; try left|]. intros g1 g2 _ Hstep Hok. by eapply properties_step_ok.
Qed.
End Properties.

Arguments global_properties K : clear implicits.
Arguments schedule_view K : clear implicits.

(** ** A proposal *)
Definition proposer_a : producer_authority Z := mk_pa 5 (bsa_v0 (mk_bsa 2 [mk_kw 11 1; mk_kw 12 1])).
Definition proposer_b : producer_authority Z := mk_pa 6 (bsa_v0 (mk_bsa 1 [mk_kw 13 1])).
Definition proposal_view : schedule_view Z := mk_schedule_view 9 (mk_schedule 3 [proposer_b]) (mk_schedule 0 []).

Lemma proposal_widths : schedule_widths [proposer_a; proposer_b].
Proof.
  intros p [->|[->|[]%elem_of_nil]%elem_of_cons]%elem_of_cons; (split; [|by widths; cbn; lia]);
    intros kw; cbn; rewrite ?elem_of_cons, ?elem_of_nil; intros Hin; naive_solver (widths; cbn; lia).
Qed.

Lemma check_producer_schedule_spec_witness :
  schedule_ok (fun _ => 0) 2 (fun n => n <? 10) [proposer_a; proposer_b]
  /\ (keys_satisfy_and_relevant (fun _ => true) (pa_authority proposer_a)).1 = true.
Proof.
  destruct (check_producer_schedule_spec (fun _ => 0) 2 (fun n => n <? 10) [proposer_a; proposer_b] proposal_widths) as [H1 H2].
  assert (Hc : check_producer_schedule (fun _ => 0) 2 (fun n => n <? 10) [proposer_a; proposer_b] = Ok tt) by (by vm_compute).
  split; [exact (proj1 H1 Hc)|]. apply (H2 Hc). by left.
Defined.

Definition proposed_gpo : global_properties Z := (set_proposed_producers proposal_view [proposer_a; proposer_b] gpo_default).2.

Lemma proposals_well_formed_witness :
  version (proposed_schedule proposed_gpo) = 4 /\ properties_ok (fun _ => 0) 2 (fun n => n <? 10) proposed_gpo.
Proof.
  split; [reflexivity|]. apply (proposals_well_formed (fun _ => 0) 2 (fun n => n <? 10) proposed_gpo). apply rtc_once.
  apply (step_propose _ _ _ _ _ proposal_view [proposer_a; proposer_b] 4); [by vm_compute|exact proposal_widths|by vm_compute].
Defined.
