(* ===== verification/BlockHeader.v ===== *)
(** * Block timestamps and block headers
      ([block_timestamp.hpp], [block_header.hpp], [block_header.cpp])

    Slots of half a second, the header of a block, its id (which carries the
    block number) and its extensions.  Hashing, byte swapping, packing and
    signature recovery belong to library fc: they are the operations of the
    class [crypto], and [crypto_laws] states what the theorems rely on. *)

From S2P Require Import Prelude Merkle Authority.

(** ** [block_timestamp<500, 1577880000000>]

    A timestamp is its [uint32_t] slot; a [fc::time_point] is its count of
    microseconds and a [fc::time_point_sec] its count of seconds. *)
Definition IntervalMs : Z := 500.
Definition EpochMs : Z := 1577880000000.

Definition timestamp_maximum : Z := 0xffff.
Definition timestamp_min : Z := 0.

Definition timestamp_next (slot : Z) : res Z :=
  eos_assert (UINT32_MAX - slot >=? 1) overflow_exception;;
  Ok (u32 (slot + 1)).

(** [milliseconds] is the microsecond count of [fc::milliseconds]. *)
Definition to_time_point (milliseconds : Z -> Z) (slot : Z) : Z :=
  let msec := s64 (slot * IntervalMs) in
  let msec := s64 (u64 (msec + EpochMs)) in
  milliseconds msec.

Definition set_time_point (micro_since_epoch : Z) : Z :=
  let msec_since_epoch := Z.quot micro_since_epoch 1000 in
  u32 (u64 (msec_since_epoch - EpochMs) / IntervalMs).

Definition set_time_point_sec (sec_since_epoch : Z) : Z :=
  u32 (u64 (u64 (sec_since_epoch * 1000) - EpochMs) / IntervalMs).

(** ** Headers *)
Record block_header : Type := mk_block_header {
  timestamp : Z;
  producer : Z;
  confirmed : Z;
  previous : digest_type;
  transaction_mroot : digest_type;
  action_mroot : digest_type;
  schedule_version : Z;
  header_extensions : list (Z * list Z);
  enable_standby_schedule : bool;
  standby_schedule_block_num : option Z }.

Class crypto : Type := {
  public_key : Type;
  #[global] public_key_eq_dec :: EqDecision public_key;
  #[global] public_key_countable :: Countable public_key;
  signature_type : Type;
  endian_reverse_u32 : Z -> Z;
  hash_header : block_header -> digest_type;
  hash_pair : digest_type * digest_type -> digest_type;
  hash_schedule : producer_authority_schedule public_key -> digest_type;
  digest_default : digest_type;
  signature_default : signature_type;
  pack_schedule : producer_authority_schedule public_key -> list Z;
  unpack_schedule : list Z -> res (producer_authority_schedule public_key);
  (** [fc::crypto::public_key(signature, digest, true)]; throws on a
      signature that is not canonical. *)
  recover_key : signature_type -> digest_type -> res public_key }.

Class crypto_laws (C : crypto) : Prop := {
  reverse_range : forall x, is_u32 x -> is_u32 (endian_reverse_u32 x);
  reverse_involutive : forall x, is_u32 x -> endian_reverse_u32 (endian_reverse_u32 x) = x;
  unpack_pack_schedule : forall s, unpack_schedule (pack_schedule s) = Ok s }.

Section Header.
Context `{C : crypto}.

Abbreviation schedule := (producer_authority_schedule public_key).

Definition num_from_id (id : digest_type) : Z := endian_reverse_u32 (u32 (_hash0 id)).

Definition block_num (h : block_header) : Z := u32 (num_from_id (previous h) + 1).

Definition header_id (h : block_header) : digest_type :=
  let result := hash_header h in
  let w := Z.land (_hash0 result) 0xffffffff00000000 in
  let w := u64 (w + endian_reverse_u32 (block_num h)) in
  mk_digest w (_hash1 result) (_hash2 result) (_hash3 result).

(** [emplace_extension] ([types.hpp]): at [std::upper_bound] of the id.  The
    same position is where [flat_multimap::emplace] puts a new element. *)
Fixpoint emplace_extension {A} (exts : list (Z * A)) (eid : Z) (data : A) : list (Z * A) :=
  match exts with
  | [] => [(eid, data)]
  | ext :: rest => if eid <? ext.1 then (eid, data) :: ext :: rest else ext :: emplace_extension rest eid data
  end.

Definition schedule_change_extension_id : Z := 1.
Definition schedule_change_enforce_unique : bool := true.

(** [decompose<producer_schedule_change_extension>::extract]: the extension and
    the [enforce_unique] flag of the type that matched. *)
Definition extract (id : Z) (data : list Z) : res (option (schedule * bool)) :=
  if id =? schedule_change_extension_id
  then s ← unpack_schedule data; Ok (Some (s, schedule_change_enforce_unique))
  else Ok None.

Fixpoint extract_loop (i : nat) (exts : list (Z * list Z)) (lower : Z) (results : list (Z * schedule))
    : res (list (Z * schedule)) :=
  match exts with
  | [] => Ok results
  | (id, data) :: exts =>
      eos_assert (id >=? lower) invalid_block_header_extension;;
      extract id data ≫= fun m : option (schedule * bool) =>
      match m with
      | None => Err invalid_block_header_extension
      | Some (s, enforce_unique) =>
          let results := emplace_extension results id s in
          (if enforce_unique then eos_assert ((i =? 0)%nat || (id >? lower)) invalid_block_header_extension else Ok tt);;
          extract_loop (S i) exts id results
      end
  end.

Definition validate_and_extract_header_extensions (h : block_header) : res (list (Z * schedule)) :=
  extract_loop 0 (header_extensions h) 0 [].
End Header.

(** ** Properties *)
Lemma s64_small (x : Z) : 0 <= x < 2 ^ 63 -> s64 x = x.
Proof. intros. apply s64_id. widths. lia. Qed.

Lemma to_time_point_eq milliseconds slot :
  (forall ms, is_s64 (1000 * ms) -> milliseconds ms = 1000 * ms) -> is_u32 slot ->
  to_time_point milliseconds slot = 1000 * (slot * 500 + EpochMs).
Proof.
  intros Hms Hs. unfold to_time_point, IntervalMs, EpochMs. widths.
  rewrite (s64_small (slot * 500)) by lia. rewrite (Z.mod_small (slot * 500 + _)) by lia.
  rewrite s64_small by lia. apply Hms. widths. lia.
Qed.

(** a timestamp converted to a time point and back is the same slot; more
    precisely every time point less than one interval after the start of a slot
    belongs to the slot, in microseconds as in seconds. *)
Theorem block_timestamp_roundtrip (milliseconds : Z -> Z) (slot t : Z) :
  (forall ms, is_s64 (1000 * ms) -> milliseconds ms = 1000 * ms) -> is_u32 slot ->
  to_time_point milliseconds slot <= t < to_time_point milliseconds slot + 1000 * IntervalMs ->
  set_time_point t = slot
  /\ (forall sec, t = 1000 * 1000 * sec -> set_time_point_sec sec = slot).
Proof.
  intros Hms Hs Ht. rewrite to_time_point_eq in Ht by done. unfold EpochMs, IntervalMs in *. widths.
  assert (forall ms, slot * 500 + 1577880000000 <= ms < slot * 500 + 1577880000000 + 500 ->
          uwrap 32 ((ms - 1577880000000) / 500) = slot) as Hslot.
  { intros ms H. replace ((ms - 1577880000000) / 500) with slot; [apply Z.mod_small; lia|].
    apply Z.div_unique with (ms - 1577880000000 - 500 * slot); lia. }
  split.
  - unfold set_time_point, IntervalMs, EpochMs, u32, u64. rewrite Z.quot_div_nonneg by lia.
    assert (slot * 500 + 1577880000000 <= t / 1000 < slot * 500 + 1577880000000 + 500) as Hq.
    { split; [apply Z.div_le_lower_bound; lia|apply Z.div_lt_upper_bound; lia]. }
    unfold uwrap at 2. rewrite Z.mod_small by lia. auto.
  - intros sec ->. unfold set_time_point_sec, IntervalMs, EpochMs, u32, u64.
    unfold uwrap at 3. rewrite (Z.mod_small (sec * 1000)) by lia.
    unfold uwrap at 2. rewrite Z.mod_small by lia. apply Hslot. lia.
Qed.

Lemma block_timestamp_roundtrip_witness :
  to_time_point (fun ms => 1000 * ms) 7 = 1577880003500000 /\ set_time_point 1577880003700000 = 7.
Proof.
  split; [vm_compute; reflexivity|].
  apply (block_timestamp_roundtrip (fun ms => 1000 * ms) 7); [reflexivity|widths; lia|vm_compute; intuition discriminate].
Defined.

(** [maximum()] is far below the largest slot: it has a successor. *)
Lemma timestamp_maximum_has_next : timestamp_next timestamp_maximum = Ok (timestamp_maximum + 1).
Proof. reflexivity. Qed.

Lemma land_high_word (x : Z) :
  exists q, Z.land x 0xffffffff00000000 = q * 2 ^ 32 /\ 0 <= q < 2 ^ 32.
Proof.
  exists (Z.land (Z.shiftr x 32) (2 ^ 32 - 1)). split.
  - rewrite <- Z.shiftl_mul_pow2 by lia. change 0xffffffff00000000 with (Z.shiftl (2 ^ 32 - 1) 32).
    apply Z.bits_inj'. intros n Hn. rewrite Z.land_spec. destruct (Z.lt_ge_cases n 32).
    + rewrite !Z.shiftl_spec_low by done. apply andb_false_r.
    + rewrite !Z.shiftl_spec by done. rewrite Z.land_spec, Z.shiftr_spec by lia. by rewrite Z.sub_add.
  - change (2 ^ 32 - 1) with (Z.ones 32). rewrite Z.land_ones by lia. apply Z.mod_pos_bound. lia.
Qed.

Section HeaderFacts.
Context `{C : crypto} `{!crypto_laws C}.

Lemma block_num_u32 h : is_u32 (block_num h).
Proof. apply u32_range. Qed.

Lemma num_from_header_id h : num_from_id (header_id h) = block_num h.
Proof.
  unfold num_from_id, header_id. cbn. destruct (land_high_word (_hash0 (hash_header h))) as (q & -> & Hq).
  pose proof (reverse_range _ (block_num_u32 h)) as Hr. widths.
  rewrite (Z.mod_small (_ + _)) by lia. rewrite Z.add_comm, Z.mod_add, Z.mod_small by lia.
  apply reverse_involutive, block_num_u32.
Qed.

Lemma extract_id id data r : extract id data = Ok (Some r) ->
  id = schedule_change_extension_id /\ unpack_schedule data = Ok r.1 /\ r.2 = true.
Proof.
  unfold extract. destruct (Z.eqb_spec id schedule_change_extension_id) as [->|]; [|done].
  intros H. minv. done.
Qed.

(** A second extension can only repeat the id of the first. *)
Lemma extract_loop_again i exts results r :
  extract_loop (S i) exts schedule_change_extension_id results = Ok r -> exts = [] /\ r = results.
Proof.
  destruct exts as [|[id data] exts]; cbn; [by intros [= ->]|]. intros H.
  apply res_bind_ok in H as (_ & _ & H). apply res_bind_ok in H as ([[s u]|] & He & H); [|done].
  apply extract_id in He as (-> & _ & Hu). cbn in Hu. subst u. minv. done.
Qed.

(** the id of a block carries the number of the block, and the number of
    a block is one more than the number of the block it builds on. *)
Theorem block_id_carries_number (h : block_header) :
  num_from_id (header_id h) = block_num h
  /\ forall h', previous h' = header_id h -> block_num h' = u32 (block_num h + 1).
Proof.
  split; [apply num_from_header_id|]. intros h' E. unfold block_num at 1. by rewrite E, num_from_header_id.
Qed.

(** a header is accepted by [validate_and_extract_header_extensions] only
    with no extension or with exactly one, a packed schedule change; so a block
    changes the schedule at most once. *)
Theorem header_extensions_spec (h : block_header) exts :
  validate_and_extract_header_extensions h = Ok exts <->
  (header_extensions h = [] /\ exts = [])
  \/ exists data s, header_extensions h = [(schedule_change_extension_id, data)]
     /\ unpack_schedule data = Ok s /\ exts = [(schedule_change_extension_id, s)].
Proof.
  unfold validate_and_extract_header_extensions. destruct (header_extensions h) as [|[id data] rest]; cbn.
  { split; [intros [= <-]; auto|]. intros [[_ ->]|(data & s & [=] & _)]. done. }
  split.
  - intros H. apply res_bind_ok in H as (_ & _ & H). apply res_bind_ok in H as ([[s u]|] & He & H); [|done].
    apply extract_id in He as (-> & Hs & Hu). cbn in Hu, Hs. subst u.
    apply res_bind_ok in H as (_ & _ & H). apply extract_loop_again in H as [-> ->]. right. exists data, s. auto.
  - intros [[[=] _]|(data' & s & [= -> -> ->] & Hs & ->)]. unfold extract. cbn. by rewrite Hs.
Qed.
End HeaderFacts.

(** A concrete environment: keys and signatures are numbers, a signature is
    the signing key, hashes mix their arguments, byte swapping is spelled out. *)
Definition demo_reverse (x : Z) : Z :=
  let b i := (x / 2 ^ (8 * i)) mod 256 in
  b 0 * 2 ^ 24 + b 1 * 2 ^ 16 + b 2 * 2 ^ 8 + b 3.

Definition mix (seed : Z) (l : list Z) : digest_type :=
  let w k := fold_left (fun acc x => u64 (acc * 31 + x + k)) l seed in
  mk_digest (w 1) (w 2) (w 3) (w 4).
Definition digest_words (d : digest_type) : list Z := [_hash0 d; _hash1 d; _hash2 d; _hash3 d].

Fixpoint demo_pack_keys (ks : list (key_weight Z)) : list Z :=
  match ks with [] => [] | k :: ks => kw_key k :: kw_weight k :: demo_pack_keys ks end.
Fixpoint demo_pack_producers (ps : list (producer_authority Z)) : list Z :=
  match ps with
  | [] => []
  | mk_pa n (bsa_v0 a) :: ps =>
      n :: bsa_threshold a :: Z.of_nat (length (bsa_keys a)) :: demo_pack_keys (bsa_keys a) ++ demo_pack_producers ps
  end.
Definition demo_pack_schedule (s : producer_authority_schedule Z) : list Z :=
  version s :: Z.of_nat (length (producers s)) :: demo_pack_producers (producers s).

Fixpoint demo_unpack_keys (n : nat) (l : list Z) : res (list (key_weight Z) * list Z) :=
  match n, l with
  | O, _ => Ok ([], l)
  | S n, k :: w :: l => '(ks, l) ← demo_unpack_keys n l; Ok (mk_kw k w :: ks, l)
  | _, _ => Err std_out_of_range
  end.
Fixpoint demo_unpack_producers (n : nat) (l : list Z) : res (list (producer_authority Z)) :=
  match n, l with
  | O, _ => Ok []
  | S n, p :: t :: k :: l =>
      '(ks, l) ← demo_unpack_keys (Z.to_nat k) l;
      ps ← demo_unpack_producers n l;
      Ok (mk_pa p (bsa_v0 (mk_bsa t ks)) :: ps)
  | _, _ => Err std_out_of_range
  end.
Definition demo_unpack_schedule (l : list Z) : res (producer_authority_schedule Z) :=
  match l with
  | v :: n :: l => ps ← demo_unpack_producers (Z.to_nat n) l; Ok (mk_schedule v ps)
  | _ => Err std_out_of_range
  end.

Definition demo_hash_header (h : block_header) : digest_type :=
  mix 7 (timestamp h :: producer h :: confirmed h :: schedule_version h
         :: digest_words (previous h) ++ digest_words (transaction_mroot h) ++ digest_words (action_mroot h)
         ++ mjoin (map (fun e => e.1 :: e.2) (header_extensions h))).

#[global] Instance demo_crypto : crypto := {
  public_key := Z;
  signature_type := Z;
  endian_reverse_u32 := demo_reverse;
  hash_header := demo_hash_header;
  hash_pair := fun p => mix 11 (digest_words p.1 ++ digest_words p.2);
  hash_schedule := fun s => mix 13 (demo_pack_schedule s);
  digest_default := mk_digest 0 0 0 0;
  signature_default := 0;
  pack_schedule := demo_pack_schedule;
  unpack_schedule := demo_unpack_schedule;
  recover_key := fun s _ => if s =? 0 then Err std_runtime_error else Ok s }.

Lemma demo_unpack_keys_pack ks rest :
  demo_unpack_keys (length ks) (demo_pack_keys ks ++ rest) = Ok (ks, rest).
Proof. induction ks as [|[k w] ks IH]; [done|]. cbn. by rewrite IH. Qed.

Lemma demo_unpack_producers_pack ps :
  demo_unpack_producers (length ps) (demo_pack_producers ps) = Ok ps.
Proof.
  induction ps as [|[n [[t ks]]] ps IH]; [done|]. cbn.
  rewrite Nat2Z.id, demo_unpack_keys_pack. cbn. by rewrite IH.
Qed.

Lemma demo_reverse_bytes a b c d :
  0 <= a < 256 -> 0 <= b < 256 -> 0 <= c < 256 -> 0 <= d < 256 ->
  demo_reverse (a * 2 ^ 24 + b * 2 ^ 16 + c * 2 ^ 8 + d) = d * 2 ^ 24 + c * 2 ^ 16 + b * 2 ^ 8 + a.
Proof.
  intros Ha Hb Hc Hd. unfold demo_reverse. cbv beta zeta. set (x := a * 2 ^ 24 + b * 2 ^ 16 + c * 2 ^ 8 + d).
  assert (x / 2 ^ (8 * 0) = ((a * 256 + b) * 256 + c) * 256 + d) as -> by (change (2 ^ (8 * 0)) with 1; rewrite Z.div_1_r; lia).
  assert (x / 2 ^ (8 * 1) = (a * 256 + b) * 256 + c) as -> by (symmetry; apply Z.div_unique with d; lia).
  assert (x / 2 ^ (8 * 2) = a * 256 + b) as -> by (symmetry; apply Z.div_unique with (c * 256 + d); lia).
  assert (x / 2 ^ (8 * 3) = a) as -> by (symmetry; apply Z.div_unique with (b * 2 ^ 16 + c * 2 ^ 8 + d); lia).
  rewrite !(Z.add_comm (_ * 256)), !Z.mod_add, !Z.mod_small by lia. done.
Qed.

Lemma u32_bytes (x : Z) : is_u32 x ->
  exists a b c d, 0 <= a < 256 /\ 0 <= b < 256 /\ 0 <= c < 256 /\ 0 <= d < 256
  /\ x = a * 2 ^ 24 + b * 2 ^ 16 + c * 2 ^ 8 + d.
Proof.
  intros Hx. widths. exists (x / 2 ^ 24), ((x / 2 ^ 16) mod 256), ((x / 2 ^ 8) mod 256), (x mod 256).
  pose proof (Z.mod_pos_bound (x / 2 ^ 16) 256). pose proof (Z.mod_pos_bound (x / 2 ^ 8) 256).
  pose proof (Z.mod_pos_bound x 256).
  assert (x / 2 ^ 24 = x / 2 ^ 16 / 256 /\ x / 2 ^ 16 = x / 2 ^ 8 / 256 /\ x / 2 ^ 8 = x / 256) as (E1 & E2 & E3)
    by (rewrite !Z.div_div by lia; done).
  pose proof (Z.div_mod x 256). pose proof (Z.div_mod (x / 2 ^ 8) 256). pose proof (Z.div_mod (x / 2 ^ 16) 256).
  assert (0 <= x / 2 ^ 24 < 256) by (split; [apply Z.div_pos; lia|apply Z.div_lt_upper_bound; lia]).
  repeat split; try lia.
Qed.

#[global] Instance demo_laws : crypto_laws demo_crypto.
Proof.
  split.
  - intros x Hx. destruct (u32_bytes x Hx) as (a & b & c & d & Ha & Hb & Hc & Hd & ->).
    cbn [endian_reverse_u32 demo_crypto]. rewrite demo_reverse_bytes by done. widths. lia.
  - intros x Hx. destruct (u32_bytes x Hx) as (a & b & c & d & Ha & Hb & Hc & Hd & ->).
    cbn [endian_reverse_u32 demo_crypto]. by rewrite !demo_reverse_bytes.
  - intros [v ps]. cbn. rewrite Nat2Z.id, demo_unpack_producers_pack. done.
Qed.

Definition demo_id : digest_type := mk_digest (demo_reverse 41) 5 6 7.
Definition demo_header : block_header :=
  mk_block_header 100 1 0 demo_id (mk_digest 1 2 3 4) (mk_digest 5 6 7 8) 0 [(1, [3; 0])] false None.

Lemma block_id_carries_number_witness : num_from_id (header_id demo_header) = 42.
Proof. destruct (block_id_carries_number demo_header) as [-> _]. vm_compute. reflexivity. Defined.

Lemma header_extensions_spec_witness :
  validate_and_extract_header_extensions demo_header = Ok [(1, mk_schedule 3 [])].
Proof.
  apply (header_extensions_spec demo_header). right. exists [3; 0], (mk_schedule 3 []).
  repeat split; reflexivity.
Defined.
