(* ===== verification/BlockHeaderState.v ===== *)
(** * Block header states: DPoS scheduling and irreversibility
      ([block_header_state.hpp], [block_header_state.cpp])

    The state a node keeps per block: the schedules, what every producer
    produced and implied irreversible, and the confirmations still needed by
    the recent blocks.  [next] computes the template of the next block,
    [finish_next] checks a header against it and seals it.  [std::nth_element]
    is modelled by its contract: the element at the index in sorted order. *)

From S2P Require Import Prelude Merkle Authority BlockHeader.

Definition producer_repetitions : Z := 12.
Definition maximum_tracked_dpos_confirmations : Z := 1024.

Section State.
Context `{C : crypto}.

Abbreviation schedule := (producer_authority_schedule public_key).

Record block_header_state_common : Type := mk_common {
  bc_block_num : Z;
  dpos_proposed_irreversible_blocknum : Z;
  dpos_irreversible_blocknum : Z;
  active_schedule : schedule;
  blockroot_merkle : incremental_merkle;
  producer_to_last_produced : gmap Z Z;
  producer_to_last_implied_irb : gmap Z Z;
  valid_block_signing_authority : block_signing_authority public_key;
  confirm_count : list Z;
  bc_enable_standby_schedule : bool;
  bc_standby_schedule_block_num : option Z }.

Record schedule_info : Type := mk_schedule_info {
  schedule_lib_num : Z;
  schedule_hash : digest_type;
  si_schedule : schedule }.

Record pending_block_header_state : Type := mk_pending {
  p_common : block_header_state_common;
  prev_pending_schedule : schedule_info;
  was_pending_promoted : bool;
  p_previous : digest_type;
  p_producer : Z;
  p_timestamp : Z;
  active_schedule_version : Z;
  p_confirmed : Z }.

Record signed_block_header : Type := mk_signed {
  sh_header : block_header;
  producer_signature : signature_type }.

Record block_header_state : Type := mk_bhs {
  b_common : block_header_state_common;
  b_id : digest_type;
  b_header : signed_block_header;
  pending_schedule : schedule_info;
  additional_signatures : list signature_type;
  header_exts : list (Z * schedule) }.

(** ** Scheduling *)
Definition get_scheduled_producer (s : block_header_state) (slot : Z) : res (producer_authority public_key) :=
  let ps := producers (active_schedule (b_common s)) in
  let n := Z.of_nat (length ps) in
  if n =? 0 then Err undefined_behaviour (* modulo by zero *)
  else let index := slot mod (n * producer_repetitions) in
       let index := index / producer_repetitions in
       match ps !! Z.to_nat index with Some p => Ok p | None => Err undefined_behaviour end.

(** [blocknums] after [std::nth_element] at [index]. *)
Definition nth_element (blocknums : list Z) (index : nat) : Z :=
  default 0 (merge_sort Z.le blocknums !! index).

Definition implied_blocknums (c : block_header_state_common) (producer_of_next_block : Z) : list Z :=
  map (fun i => if i.1 =? producer_of_next_block then dpos_proposed_irreversible_blocknum c else i.2)
      (map_to_list (producer_to_last_implied_irb c)).

Definition calc_dpos_last_irreversible (c : block_header_state_common) (producer_of_next_block : Z) : Z :=
  let blocknums := implied_blocknums c producer_of_next_block in
  if (length blocknums =? 0)%nat then 0
  else nth_element blocknums ((length blocknums - 1) / 3)%nat.

(** ** Confirmations *)

(** Growing [confirm_count] by the entry of the new block. *)
Definition grow_confirm_count (cc : list Z) (required_confs : Z) : list Z :=
  if Z.of_nat (length cc) <? maximum_tracked_dpos_confirmations
  then cc ++ [u8 required_confs]
  else tail cc ++ [u8 required_confs].

(** The [while] loop: [k] is [i + 1], so [k = 0] is [i < 0]. *)
Fixpoint confirm_loop (k : nat) (blocks_to_confirm : Z) (num : Z) (cc : list Z) (proposed : Z) : list Z * Z :=
  match k with
  | O => (cc, proposed)
  | S i =>
      if blocks_to_confirm =? 0 then (cc, proposed)
      else
        let cc := alter (fun x => u8 (x - 1)) i cc in
        if default 0 (cc !! i) =? 0 then
          let block_num_for_i := u32 (num - u32 (Z.of_nat (length cc) - 1 - Z.of_nat i)) in
          (drop (S i) cc, block_num_for_i)
        else confirm_loop i (blocks_to_confirm - 1) num cc proposed
  end.

(** ** The next block *)

(** The two maps of a promoted schedule: a known producer keeps its number, a
    new one starts at [fresh], the producer of the block gets [own]. *)
Definition promote_map (ps : list (producer_authority public_key)) (producer own fresh : Z) (existing : gmap Z Z) : gmap Z Z :=
  fold_left (fun m pro =>
    if producer_name pro =? producer then <[producer_name pro := own]> m
    else match existing !! producer_name pro with
         | Some n => <[producer_name pro := n]> m
         | None => <[producer_name pro := fresh]> m
         end) ps ∅.

Definition has_pending_producers (s : block_header_state) : bool :=
  negb (length (producers (si_schedule (pending_schedule s))) =? 0)%nat.

(** When the pending schedule becomes active in the block after [s], given the
    irreversible block number of that block. *)
Definition promotes (s : block_header_state) (irreversible : Z) : bool :=
  let c := b_common s in
  has_pending_producers s
  && ((irreversible >=? schedule_lib_num (pending_schedule s))
      || (bc_enable_standby_schedule c
          && match bc_standby_schedule_block_num c with Some n => n <=? bc_block_num c | None => false end)).

Definition next_when (s : block_header_state) (when : Z) : res Z :=
  if negb (when =? 0)
  then eos_assert (when >? timestamp (sh_header (b_header s))) block_validate_exception;; Ok when
  else Ok (u32 (timestamp (sh_header (b_header s)) + 1)).

Definition next (s : block_header_state) (when num_prev_blocks_to_confirm : Z) : res pending_block_header_state :=
  let c := b_common s in
  when ← next_when s when;
  proauth ← get_scheduled_producer s when;
  let pname := producer_name proauth in
  match producer_to_last_produced c !! pname with
  | Some last => eos_assert (last <? u32 (u32 (bc_block_num c + 1) - num_prev_blocks_to_confirm)) producer_double_confirm
  | None => Ok tt
  end;;
  let num := u32 (bc_block_num c + 1) in
  '(_, merkle) ← append hash_pair (blockroot_merkle c) (b_id s);
  let num_active_producers := Z.of_nat (length (producers (active_schedule c))) in
  let required_confs := u32 (num_active_producers * 2 / 3 + 1) in
  let grown := grow_confirm_count (confirm_count c) required_confs in
  let '(counts, proposed) :=
    confirm_loop (length grown) (num_prev_blocks_to_confirm + 1) num grown (dpos_proposed_irreversible_blocknum c) in
  let irreversible := calc_dpos_last_irreversible c pname in
  let '(active, produced, implied, promoted) :=
    if promotes s irreversible then
      let act := si_schedule (pending_schedule s) in
      (act,
       <[pname := num]> (promote_map (producers act) pname num irreversible (producer_to_last_produced c)),
       promote_map (producers act) pname (dpos_proposed_irreversible_blocknum c) irreversible (producer_to_last_implied_irb c),
       negb (bc_enable_standby_schedule c))
    else
      (active_schedule c,
       <[pname := num]> (producer_to_last_produced c),
       <[pname := dpos_proposed_irreversible_blocknum c]> (producer_to_last_implied_irb c),
       false) in
  Ok (mk_pending
        (mk_common num proposed irreversible active merkle produced implied (pa_authority proauth) counts
           (bc_enable_standby_schedule c) (bc_standby_schedule_block_num c))
        (pending_schedule s) promoted (b_id s) pname when (version (active_schedule c)) num_prev_blocks_to_confirm).

(** [pending_block_header_state::make_block_header]; the signature is the
    default one until the block is signed. *)
Definition make_block_header (p : pending_block_header_state) (trx_mroot act_mroot : digest_type)
    (new_producers : option schedule) (enable_standby : bool) (standby_block_num : option Z) : signed_block_header :=
  let exts := match new_producers with
              | Some s => emplace_extension [] schedule_change_extension_id (pack_schedule s)
              | None => []
              end in
  mk_signed (mk_block_header (p_timestamp p) (p_producer p) (p_confirmed p) (p_previous p) trx_mroot act_mroot
               (active_schedule_version p) exts enable_standby standby_block_num) signature_default.

(** ** Sealing a block *)
Definition with_signatures (s : block_header_state) (sig : signature_type) (extra : list signature_type) : block_header_state :=
  mk_bhs (b_common s) (b_id s) (mk_signed (sh_header (b_header s)) sig) (pending_schedule s) extra (header_exts s).

(** The schedule change a header carries, checked against the pending state. *)
Definition new_schedule_of (p : pending_block_header_state) (h : block_header) (exts : list (Z * schedule))
    : res (option (schedule * digest_type)) :=
  match list_find (fun e => e.1 = schedule_change_extension_id) exts with
  | None => Ok None
  | Some (_, (_, sched)) =>
      eos_assert (negb (was_pending_promoted p)) producer_schedule_exception;;
      eos_assert (enable_standby_schedule h
                  || (version sched =? u32 (version (active_schedule (p_common p)) + 1))) producer_schedule_exception;;
      eos_assert (enable_standby_schedule h
                  || (length (producers (si_schedule (prev_pending_schedule p))) =? 0)%nat) producer_schedule_exception;;
      Ok (Some (sched, hash_schedule sched))
  end.

Definition next_pending_schedule (p : pending_block_header_state) (change : option (schedule * digest_type)) : schedule_info :=
  let prev := prev_pending_schedule p in
  match change with
  | Some (sched, hash) => mk_schedule_info (bc_block_num (p_common p)) hash sched
  | None =>
      mk_schedule_info (schedule_lib_num prev) (schedule_hash prev)
        (if was_pending_promoted p then mk_schedule (version (si_schedule prev)) [] else si_schedule prev)
  end.

Definition set_standby (c : block_header_state_common) (enable : bool) (num : option Z) : block_header_state_common :=
  mk_common (bc_block_num c) (dpos_proposed_irreversible_blocknum c) (dpos_irreversible_blocknum c) (active_schedule c)
    (blockroot_merkle c) (producer_to_last_produced c) (producer_to_last_implied_irb c)
    (valid_block_signing_authority c) (confirm_count c) enable num.

Definition _finish_next (p : pending_block_header_state) (sh : signed_block_header) : res block_header_state :=
  let h := sh_header sh in
  eos_assert (timestamp h =? p_timestamp p) block_validate_exception;;
  eos_assert (bool_decide (previous h = p_previous p)) unlinkable_block_exception;;
  eos_assert (confirmed h =? p_confirmed p) block_validate_exception;;
  eos_assert (producer h =? p_producer p) wrong_producer;;
  eos_assert (schedule_version h =? active_schedule_version p) producer_schedule_exception;;
  exts ← validate_and_extract_header_extensions h;
  change ← new_schedule_of p h exts;
  Ok (mk_bhs (set_standby (p_common p) (enable_standby_schedule h) (standby_schedule_block_num h))
        (header_id h) sh (next_pending_schedule p change) [] exts).

Definition sig_digest (s : block_header_state) : res digest_type :=
  root ← get_root digest_default (blockroot_merkle (b_common s));
  let header_bmroot := hash_pair (hash_header (sh_header (b_header s)), root) in
  Ok (hash_pair (header_bmroot, schedule_hash (pending_schedule s))).

Definition num_keys (a : block_signing_authority public_key) : nat :=
  match a with bsa_v0 a => length (bsa_keys a) end.

(** The additional signatures: every key recovered must be a new one. *)
Fixpoint recover_loop (sigs : list signature_type) (digest : digest_type) (ks : gset public_key) : res (gset public_key) :=
  match sigs with
  | [] => Ok ks
  | sig :: sigs =>
      key ← recover_key sig digest;
      eos_assert (bool_decide (key ∉ ks)) wrong_signing_key;;
      recover_loop sigs digest ({[key]} ∪ ks)
  end.

Definition verify_signee (s : block_header_state) : res unit :=
  let auth := valid_block_signing_authority (b_common s) in
  eos_assert (1 + length (additional_signatures s) <=? num_keys auth)%nat wrong_signing_key;;
  digest ← sig_digest s;
  key ← recover_key (producer_signature (b_header s)) digest;
  ks ← recover_loop (additional_signatures s) digest {[key]};
  let '(is_satisfied, relevant_sig_count) := keys_satisfy_and_relevant (fun k => bool_decide (k ∈ ks)) auth in
  eos_assert (relevant_sig_count =? Z.of_nat (size ks)) wrong_signing_key;;
  eos_assert is_satisfied wrong_signing_key.

Definition finish_next (p : pending_block_header_state) (sh : signed_block_header)
    (extra : list signature_type) (skip_validate_signee : bool) : res block_header_state :=
  result ← _finish_next p sh;
  let result := if (length extra =? 0)%nat then result
                else with_signatures result (producer_signature (b_header result)) extra in
  (if skip_validate_signee then Ok tt else verify_signee result);;
  Ok result.

Definition sign (s : block_header_state) (signer : digest_type -> list signature_type) : res block_header_state :=
  d ← sig_digest s;
  let sigs := signer d in
  eos_assert (negb (length sigs =? 0)%nat) no_block_signatures;;
  let s := with_signatures s (default signature_default (last sigs)) (removelast sigs) in
  verify_signee s;;
  Ok s.

(** [finish_next] of the producing node: also updates the header's signature. *)
Definition finish_next_sign (p : pending_block_header_state) (sh : signed_block_header)
    (signer : digest_type -> list signature_type) : res (block_header_state * signed_block_header) :=
  result ← _finish_next p sh;
  result ← sign result signer;
  Ok (result, mk_signed (sh_header sh) (producer_signature (b_header result))).

(** [block_header_state::next] for a received header. *)
Definition next_header (s : block_header_state) (sh : signed_block_header)
    (extra : list signature_type) (skip_validate_signee : bool) : res block_header_state :=
  p ← next s (timestamp (sh_header sh)) (confirmed (sh_header sh));
  finish_next p sh extra skip_validate_signee.
End State.

(** ** Quorums

    [supports l v]: more than two thirds of the numbers of [l] reach [v]. *)
Definition count_ge (v : Z) (l : list Z) : nat := length (filter (fun x => v <= x) l).
Definition supports (l : list Z) (v : Z) : Prop := (2 * length l < 3 * count_ge v l)%nat.

Lemma count_ge_app v l k : count_ge v (l ++ k) = (count_ge v l + count_ge v k)%nat.
Proof. unfold count_ge. by rewrite filter_app, length_app. Qed.

Lemma count_ge_perm v l k : l ≡ₚ k -> count_ge v l = count_ge v k.
Proof. intros H. unfold count_ge. apply Permutation_length. by rewrite H. Qed.

Lemma count_ge_all v l : Forall (fun x => v <= x) l -> count_ge v l = length l.
Proof. induction 1 as [|x l Hx _ IH]; [done|]. unfold count_ge in *. rewrite filter_cons_True by done. cbn. lia. Qed.

Lemma count_ge_none v l : Forall (fun x => x < v) l -> count_ge v l = 0%nat.
Proof. induction 1 as [|x l Hx _ IH]; [done|]. unfold count_ge in *. by rewrite filter_cons_False by lia. Qed.

Lemma count_ge_le v l : (count_ge v l <= length l)%nat.
Proof. apply length_filter. Qed.

(** In a sorted list the elements from position [i] on are the large ones. *)
Lemma sorted_drop_ge (l : list Z) : forall i r, StronglySorted Z.le l -> l !! i = Some r ->
  Forall (fun x => r <= x) (drop i l) /\ Forall (fun x => x <= r) (take (S i) l).
Proof.
  induction l as [|x l IH]; intros [|i] r Hs Hi; [done..| |]; apply StronglySorted_inv in Hs as [Hs Hx].
  - injection Hi as <-. cbn. rewrite take_0. split; [by constructor|by repeat constructor].
  - destruct (IH i r Hs Hi) as [H1 H2]. split; [done|]. change (take (S (S i)) (x :: l)) with (x :: take (S i) l).
    constructor; [|done]. by eapply Forall_lookup_1 in Hx.
Qed.

Lemma sorted_count (s : list Z) i r v : StronglySorted Z.le s -> s !! i = Some r ->
  v <= r <-> (length s - i <= count_ge v s)%nat.
Proof.
  intros Hs Hi. destruct (sorted_drop_ge s i r Hs Hi) as [Hd Ht]. apply lookup_lt_Some in Hi. split.
  - intros Hv. rewrite <- (take_drop i s), count_ge_app, (count_ge_all v (drop i s)), !length_app, length_drop, length_take.
    + lia.
    + eapply Forall_impl; [exact Hd|]. cbn. lia.
  - intros Hc. destruct (Z.le_gt_cases v r) as [|Hv]; [done|]. exfalso.
    rewrite <- (take_drop (S i) s), count_ge_app, (count_ge_none v (take _ s)) in Hc.
    + pose proof (count_ge_le v (drop (S i) s)) as Hle. rewrite take_drop, length_drop in *. lia.
    + eapply Forall_impl; [exact Ht|]. cbn. lia.
Qed.

(** The number [nth_element] selects is the largest one with a quorum. *)
Lemma nth_element_quorum (l : list Z) (v : Z) : l <> [] ->
  v <= nth_element l ((length l - 1) / 3)%nat <-> supports l v.
Proof.
  intros Hne. assert (0 < length l)%nat by (destruct l; [done|cbn; lia]).
  assert (merge_sort Z.le l ≡ₚ l) as Hp by apply merge_sort_Permutation.
  assert (StronglySorted Z.le (merge_sort Z.le l)) as Hs by (apply StronglySorted_merge_sort; apply _).
  unfold nth_element, supports. set (i := ((length l - 1) / 3)%nat).
  assert (3 * i <= length l - 1 < 3 * i + 3)%nat as Hi.
  { unfold i. pose proof (Nat.div_mod (length l - 1) 3). pose proof (Nat.mod_upper_bound (length l - 1) 3). lia. }
  destruct (merge_sort Z.le l !! i) as [r|] eqn:E.
  2: { apply lookup_ge_None in E. rewrite (Permutation_length Hp) in E. lia. }
  cbn. rewrite (sorted_count _ _ _ _ Hs E), (Permutation_length Hp), (count_ge_perm _ _ _ Hp). lia.
Qed.

Lemma supports_mono l k v : Forall2 Z.le l k -> supports l v -> supports k v.
Proof.
  intros H. unfold supports. rewrite (Forall2_length _ _ _ H). intros Hs.
  enough (count_ge v l <= count_ge v k)%nat by lia. clear Hs.
  induction H as [|x y l k Hxy _ IH]; [done|]. unfold count_ge in *. rewrite !filter_cons.
  repeat case_decide; cbn in *; lia.
Qed.

Lemma supports_perm l k v : l ≡ₚ k -> supports l v -> supports k v.
Proof. intros H. unfold supports. by rewrite (Permutation_length H), (count_ge_perm _ _ _ H). Qed.

Lemma supports_cons l v x : v <= x -> supports l v -> supports (x :: l) v.
Proof. unfold supports, count_ge. intros. rewrite filter_cons_True by done. cbn in *. lia. Qed.

Lemma supports_singleton v x : v <= x -> supports [x] v.
Proof. intros. unfold supports, count_ge. rewrite filter_cons_True by done. cbn. lia. Qed.

(** More than two thirds of a list that is bounded is bounded by its bound. *)
Lemma supports_le l v b : Forall (fun x => x <= b) l -> supports l v -> v <= b.
Proof.
  intros Hb Hs. destruct (Z.le_gt_cases v b) as [|Hv]; [done|]. unfold supports in Hs.
  rewrite count_ge_none in Hs; [lia|]. eapply Forall_impl; [exact Hb|]. cbn. lia.
Qed.

(** ** Invariant *)
Section Invariant.
Context `{C : crypto}.

Definition max_producers : nat := 125.
Definition pos8 (x : Z) : Prop := 0 < x < 2 ^ 8.

(** [confirm_count] has one positive entry for each of the last blocks, which
    are all above the proposed irreversible block; nobody implied more than the
    proposed block and no more than that is irreversible. *)
Record common_ok (c : block_header_state_common) : Prop := {
  ok_num : is_u32 (bc_block_num c);
  ok_counts : Forall pos8 (confirm_count c);
  ok_tracked : Z.of_nat (length (confirm_count c)) <= maximum_tracked_dpos_confirmations;
  ok_window : 0 <= dpos_proposed_irreversible_blocknum c
              /\ dpos_proposed_irreversible_blocknum c + Z.of_nat (length (confirm_count c)) <= bc_block_num c;
  ok_irreversible : 0 <= dpos_irreversible_blocknum c <= dpos_proposed_irreversible_blocknum c;
  ok_implied : map_Forall (fun _ n => 0 <= n <= dpos_proposed_irreversible_blocknum c) (producer_to_last_implied_irb c);
  ok_producers : (length (producers (active_schedule c)) <= max_producers)%nat }.

Record state_ok (s : block_header_state) : Prop := {
  ok_common : common_ok (b_common s);
  ok_pending : (length (producers (si_schedule (pending_schedule s))) <= max_producers)%nat }.

Lemma confirm_loop_spec (num proposed : Z) (k : nat) : forall b cc,
  (k <= length cc)%nat -> Forall pos8 cc -> Z.of_nat (length cc) <= num -> is_u32 num ->
  let r := confirm_loop k b num cc proposed in
  Forall pos8 r.1 /\ ((length r.1 = length cc /\ r.2 = proposed)
                      \/ (length r.1 < length cc)%nat /\ r.2 = num - Z.of_nat (length r.1)).
Proof.
  induction k as [|i IH]; intros b cc Hk Hcc Hlen Hnum; cbn; [auto|].
  destruct (b =? 0); [auto|]. set (cc' := alter _ i cc).
  assert (length cc' = length cc) as Hl' by apply length_alter.
  destruct (lookup_lt_is_Some_2 cc i ltac:(lia)) as [x Hx].
  assert (cc' !! i = Some (x - 1)) as Hx'.
  { unfold cc'. rewrite list_lookup_alter, decide_True, Hx by done. cbn. f_equal. apply u8_id.
    pose proof (Forall_lookup_1 _ _ _ _ Hcc Hx) as Hp. unfold pos8 in Hp. widths. lia. }
  assert (forall j y, j <> i -> cc' !! j = Some y -> pos8 y) as Hother.
  { intros j y Hj Hy. unfold cc' in Hy. rewrite list_lookup_alter, decide_False in Hy by done. by eapply Forall_lookup_1. }
  rewrite Hx'. cbn. destruct (Z.eqb_spec (x - 1) 0) as [Hz|Hz]; cbn.
  - split.
    + apply Forall_lookup. intros j y. rewrite lookup_drop. apply Hother. lia.
    + right. rewrite length_drop, !Hl'. split; [lia|]. widths.
      rewrite (Z.mod_small (Z.of_nat (length cc) - 1 - Z.of_nat i)) by lia. rewrite Z.mod_small; lia.
  - destruct (IH (b - 1) cc') as [H1 H2]; [lia| |lia|done|].
    + apply Forall_lookup. intros j y Hy. destruct (decide (j = i)) as [->|Hj]; [|by eapply Hother].
      rewrite Hx' in Hy. injection Hy as <-. pose proof (Forall_lookup_1 _ _ _ _ Hcc Hx) as Hp. unfold pos8 in *. lia.
    + split; [done|]. by rewrite Hl' in H2.
Qed.

Lemma grow_confirm_count_spec cc required :
  Forall pos8 cc -> pos8 required -> Z.of_nat (length cc) <= maximum_tracked_dpos_confirmations ->
  Forall pos8 (grow_confirm_count cc required)
  /\ Z.of_nat (length (grow_confirm_count cc required)) <= maximum_tracked_dpos_confirmations
  /\ (0 < length (grow_confirm_count cc required) <= S (length cc))%nat.
Proof.
  intros Hcc Hr Hl. unfold grow_confirm_count. rewrite u8_id by (unfold pos8 in Hr; widths; lia).
  unfold maximum_tracked_dpos_confirmations in *.
  destruct (Z.ltb_spec (Z.of_nat (length cc)) 1024); rewrite length_app; cbn.
  - split; [apply Forall_app; split; [done|by apply Forall_singleton]|lia].
  - destruct cc as [|x cc]; cbn in *; [lia|]. apply Forall_cons in Hcc as [_ Hcc].
    split; [apply Forall_app; split; [done|by apply Forall_singleton]|lia].
Qed.

Lemma promote_map_bound ps pname own fresh (existing : gmap Z Z) (b : Z) :
  0 <= own <= b -> 0 <= fresh <= b -> map_Forall (fun _ n => 0 <= n <= b) existing ->
  map_Forall (fun _ n => 0 <= n <= b) (promote_map ps pname own fresh existing).
Proof.
  intros Ho Hf He. unfold promote_map.
  assert (forall m : gmap Z Z, map_Forall (fun _ n => 0 <= n <= b) m ->
    map_Forall (fun _ n => 0 <= n <= b) (fold_left (fun m (pro : producer_authority public_key) =>
      if producer_name pro =? pname then <[producer_name pro := own]> m
      else match existing !! producer_name pro with
           | Some n => <[producer_name pro := n]> m
           | None => <[producer_name pro := fresh]> m
           end) ps m)) as Hgen.
  { induction ps as [|pro ps IH]; intros m Hm; [done|]. cbn. apply IH.
    destruct (producer_name pro =? pname); [by apply map_Forall_insert_2|].
    destruct (existing !! producer_name pro) as [n|] eqn:E; apply map_Forall_insert_2; try done. by eapply He. }
  apply Hgen, map_Forall_empty.
Qed.

Lemma implied_blocknums_bound c p : common_ok c ->
  Forall (fun x => 0 <= x <= dpos_proposed_irreversible_blocknum c) (implied_blocknums c p).
Proof.
  intros [_ _ _ Hw _ Hi _]. apply Forall_map, Forall_forall. intros [k n] Hin. cbn.
  apply elem_of_map_to_list in Hin. destruct (k =? p); [lia|]. by eapply Hi.
Qed.

Lemma implied_blocknums_nil c p : implied_blocknums c p = [] <-> producer_to_last_implied_irb c = ∅.
Proof.
  unfold implied_blocknums. split.
  - intros H. apply map_to_list_empty_iff. by destruct (map_to_list _).
  - intros ->. by rewrite map_to_list_empty.
Qed.

Lemma calc_bound c p : common_ok c ->
  0 <= calc_dpos_last_irreversible c p <= dpos_proposed_irreversible_blocknum c.
Proof.
  intros Hok. pose proof (implied_blocknums_bound c p Hok) as Hb. unfold calc_dpos_last_irreversible.
  destruct (Nat.eqb_spec (length (implied_blocknums c p)) 0) as [_|Hn].
  { destruct Hok as [_ _ _ Hw _ _ _]. lia. }
  assert (implied_blocknums c p <> []) as Hne by (by intros E; rewrite E in Hn).
  split.
  - apply nth_element_quorum; [done|]. unfold supports. rewrite count_ge_all; [lia|].
    eapply Forall_impl; [exact Hb|]. cbn. lia.
  - eapply supports_le; [|by apply nth_element_quorum]. eapply Forall_impl; [exact Hb|]. cbn. lia.
Qed.

(** What a successful [next] computed. *)
Record next_result (s : block_header_state) (when n : Z) (p : pending_block_header_state)
    (pa : producer_authority public_key) (counts : list Z * Z) : Prop := {
  nr_when : next_when s when = Ok (p_timestamp p);
  nr_producer : get_scheduled_producer s (p_timestamp p) = Ok pa;
  nr_counts : counts = confirm_loop (length (grow_confirm_count (confirm_count (b_common s))
                  (u32 (Z.of_nat (length (producers (active_schedule (b_common s)))) * 2 / 3 + 1)))) (n + 1)
                (u32 (bc_block_num (b_common s) + 1))
                (grow_confirm_count (confirm_count (b_common s))
                  (u32 (Z.of_nat (length (producers (active_schedule (b_common s)))) * 2 / 3 + 1)))
                (dpos_proposed_irreversible_blocknum (b_common s));
  nr_num : bc_block_num (p_common p) = u32 (bc_block_num (b_common s) + 1);
  nr_confirm : confirm_count (p_common p) = counts.1;
  nr_proposed : dpos_proposed_irreversible_blocknum (p_common p) = counts.2;
  nr_irreversible : dpos_irreversible_blocknum (p_common p) = calc_dpos_last_irreversible (b_common s) (producer_name pa);
  nr_name : p_producer p = producer_name pa;
  nr_confirmed : p_confirmed p = n;
  nr_previous : p_previous p = b_id s;
  nr_prev_pending : prev_pending_schedule p = pending_schedule s;
  nr_active : active_schedule (p_common p) =
    if promotes s (dpos_irreversible_blocknum (p_common p)) then si_schedule (pending_schedule s)
    else active_schedule (b_common s);
  nr_implied : producer_to_last_implied_irb (p_common p) =
    if promotes s (dpos_irreversible_blocknum (p_common p))
    then promote_map (producers (si_schedule (pending_schedule s))) (producer_name pa)
           (dpos_proposed_irreversible_blocknum (b_common s)) (dpos_irreversible_blocknum (p_common p))
           (producer_to_last_implied_irb (b_common s))
    else <[producer_name pa := dpos_proposed_irreversible_blocknum (b_common s)]> (producer_to_last_implied_irb (b_common s)) }.

Lemma next_inv s when n p : next s when n = Ok p -> exists pa counts, next_result s when n p pa counts.
Proof.
  unfold next. intros H.
  apply res_bind_ok in H as (w & Hw & H). apply res_bind_ok in H as (pa & Hpa & H).
  apply res_bind_ok in H as ([] & _ & H). apply res_bind_ok in H as ([root m] & Hm & H). cbv zeta in H.
  destruct (confirm_loop _ _ _ _ _) as [counts proposed] eqn:Hcl.
  exists pa, (counts, proposed).
  destruct (promotes s _) eqn:Hp; injection H as <-; split; cbn; rewrite ?Hp; auto.
Qed.

Lemma common_ok_required c : common_ok c ->
  pos8 (u32 (Z.of_nat (length (producers (active_schedule c))) * 2 / 3 + 1)).
Proof.
  intros [_ _ _ _ _ _ Hp]. unfold max_producers in Hp. set (k := _ * 2 / 3).
  assert (0 <= k < 84). { unfold k. split; [apply Z.div_pos; lia|apply Z.div_lt_upper_bound; lia]. }
  rewrite u32_id by (widths; lia). unfold pos8. lia.
Qed.

(** C31: [next] preserves the invariant of header states and never lowers the
    proposed irreversible block: the proposed block stays below the tracked
    blocks, the irreversible block is at most the block the predecessor
    proposed, and the block number grows by one. *)
Theorem next_preserves_dpos (s : block_header_state) (when n : Z) (p : pending_block_header_state) :
  state_ok s -> bc_block_num (b_common s) < UINT32_MAX -> next s when n = Ok p ->
  common_ok (p_common p)
  /\ bc_block_num (p_common p) = bc_block_num (b_common s) + 1
  /\ dpos_proposed_irreversible_blocknum (b_common s) <= dpos_proposed_irreversible_blocknum (p_common p)
  /\ dpos_irreversible_blocknum (p_common p) <= dpos_proposed_irreversible_blocknum (b_common s).
Proof.
  intros [Hok Hpend] Hmax Hn. destruct (next_inv _ _ _ _ Hn) as (pa & counts & R).
  pose proof (common_ok_required _ Hok) as Hreq. pose proof (calc_bound _ (producer_name pa) Hok) as Hirr.
  destruct Hok as [Hu Hcc Htr Hw Hir Himp Hpr].
  destruct R as [_ _ Hc Hnum Hcnt Hprop Hirr' _ _ _ _ Hact Himp'].
  destruct (grow_confirm_count_spec _ _ Hcc Hreq Htr) as (G1 & G2 & G3).
  rewrite (u32_id (bc_block_num (b_common s) + 1)) in Hnum, Hc by (widths; lia).
  set (grown := grow_confirm_count _ _) in *.
  assert (dpos_proposed_irreversible_blocknum (b_common s) + Z.of_nat (length grown) <= bc_block_num (b_common s) + 1) as Hwin by lia.
  destruct (confirm_loop_spec (bc_block_num (b_common s) + 1) (dpos_proposed_irreversible_blocknum (b_common s))
              (length grown) (n + 1) grown) as [L1 L2]; [lia|done|lia|widths; lia|].
  rewrite <- Hc in L1, L2. rewrite <- Hcnt in *. rewrite <- Hprop in *. rewrite <- Hirr' in Hirr.
  assert (dpos_proposed_irreversible_blocknum (b_common s) <= dpos_proposed_irreversible_blocknum (p_common p)) as Hmono by lia.
  split; [|lia]. split.
  - rewrite Hnum. widths. lia.
  - done.
  - lia.
  - lia.
  - lia.
  - rewrite Himp'. destruct (promotes s _).
    + apply promote_map_bound; [lia|lia|]. eapply map_Forall_impl; [exact Himp|]. cbn. lia.
    + apply map_Forall_insert_2; [lia|]. eapply map_Forall_impl; [exact Himp|]. cbn. lia.
  - rewrite Hact. by destruct (promotes s _).
Qed.

Lemma calc_quorum c p v : producer_to_last_implied_irb c <> ∅ ->
  v <= calc_dpos_last_irreversible c p <-> supports (implied_blocknums c p) v.
Proof.
  intros Hne. unfold calc_dpos_last_irreversible.
  assert (implied_blocknums c p <> []) as Hb by (by rewrite implied_blocknums_nil).
  destruct (Nat.eqb_spec (length (implied_blocknums c p)) 0) as [E|_]; [by apply length_zero_iff_nil in E|].
  by apply nth_element_quorum.
Qed.

(** the irreversible block [calc_dpos_last_irreversible] returns is the
    highest block that more than two thirds of the producers imply irreversible
    (the producer of the next block counting with the proposed block). *)
Theorem dpos_irreversible_is_quorum (c : block_header_state_common) (producer v : Z) :
  producer_to_last_implied_irb c <> ∅ ->
  v <= calc_dpos_last_irreversible c producer <-> supports (implied_blocknums c producer) v.
Proof. apply calc_quorum. Qed.

(** ** Irreversibility never goes back *)

(** The irreversible block has a quorum among what the producers implied. *)
Definition lib_supported (c : block_header_state_common) : Prop :=
  supports (map snd (map_to_list (producer_to_last_implied_irb c))) (dpos_irreversible_blocknum c)
  \/ producer_to_last_implied_irb c = ∅ /\ dpos_irreversible_blocknum c = 0.

Lemma implied_blocknums_ge c p : common_ok c ->
  Forall2 Z.le (map snd (map_to_list (producer_to_last_implied_irb c))) (implied_blocknums c p).
Proof.
  intros [_ _ _ _ _ Hi _]. unfold implied_blocknums.
  assert (Forall (fun kv => kv.2 <= dpos_proposed_irreversible_blocknum c) (map_to_list (producer_to_last_implied_irb c))) as H.
  { apply Forall_forall. intros [k n] Hin%elem_of_map_to_list. apply Hi in Hin. cbn. lia. }
  induction H as [|[k n] l Hkn _ IH]; cbn; constructor; [|done]. cbn in Hkn. destruct (k =? p); lia.
Qed.

(** After the producer's own entry is set, the values are the numbers
    [calc_dpos_last_irreversible] used, with one more if it was unknown. *)
Lemma insert_values c p :
  let m := producer_to_last_implied_irb c in
  let m' := <[p := dpos_proposed_irreversible_blocknum c]> m in
  map snd (map_to_list m') ≡ₚ
    match m !! p with
    | Some _ => implied_blocknums c p
    | None => dpos_proposed_irreversible_blocknum c :: implied_blocknums c p
    end.
Proof.
  intros m m'. unfold implied_blocknums. fold m. set (v := dpos_proposed_irreversible_blocknum c) in *.
  set (f := fun i : Z * Z => if i.1 =? p then v else i.2).
  assert (forall l : list (Z * Z), (forall kv, kv ∈ l -> kv.1 <> p) -> map snd l = map f l) as Hid.
  { intros l Hl. apply map_ext_in. intros kv Hin%list_elem_of_In. unfold f.
    destruct (Z.eqb_spec kv.1 p); [|done]. by apply Hl in Hin. }
  assert (forall m0 : gmap Z Z, m0 !! p = None -> forall kv, kv ∈ map_to_list m0 -> kv.1 <> p) as Hno.
  { intros m0 H0 [k n] Hin%elem_of_map_to_list. cbn. congruence. }
  destruct (m !! p) as [n|] eqn:E.
  - assert (m' = <[p := v]> (delete p m)) as -> by (by rewrite insert_delete_eq).
    rewrite <- (insert_delete_id m p n E) at 2.
    rewrite !map_to_list_insert by apply lookup_delete_eq. cbn.
    rewrite (Hid _ (Hno _ (lookup_delete_eq _ _))). unfold f at 2. cbn. by rewrite Z.eqb_refl.
  - unfold m'. rewrite map_to_list_insert by done. cbn. by rewrite (Hid _ (Hno _ E)).
Qed.

(** while no pending schedule is promoted the irreversible block never
    goes back, and it keeps the support of more than two thirds of the
    producers. *)
Theorem irreversible_never_decreases (s : block_header_state) (when n : Z) (p : pending_block_header_state) :
  state_ok s -> lib_supported (b_common s) -> next s when n = Ok p ->
  promotes s (dpos_irreversible_blocknum (p_common p)) = false ->
  dpos_irreversible_blocknum (b_common s) <= dpos_irreversible_blocknum (p_common p) /\ lib_supported (p_common p).
Proof.
  intros [Hok _] Hsup Hn Hp. destruct (next_inv _ _ _ _ Hn) as (pa & counts & R).
  destruct R as [_ _ _ _ _ _ Hirr _ _ _ _ _ Himp]. rewrite Hp in Himp. clear Hp Hn.
  pose proof (calc_bound _ (producer_name pa) Hok) as Hb. pose proof (insert_values (b_common s) (producer_name pa)) as Hv.
  cbv zeta in Hv. rewrite <- Himp in Hv. set (c := b_common s) in *. set (nm := producer_name pa) in *.
  destruct (decide (producer_to_last_implied_irb c = ∅)) as [He|Hne].
  - assert (dpos_irreversible_blocknum (p_common p) = 0) as H0.
    { rewrite Hirr. unfold calc_dpos_last_irreversible. by rewrite (proj2 (implied_blocknums_nil c nm) He). }
    destruct Hsup as [Hs|[_ Hz]].
    { rewrite He, map_to_list_empty in Hs. unfold supports in Hs. cbn in Hs. lia. }
    split; [lia|]. left. rewrite He, lookup_empty in Hv. rewrite (proj2 (implied_blocknums_nil c nm) He) in Hv.
    eapply supports_perm; [symmetry; exact Hv|]. apply supports_singleton. lia.
  - destruct Hsup as [Hs|[Hz _]]; [|done].
    pose proof (fun v => calc_quorum c nm v Hne) as Hq.
    rewrite Hirr. split; [by apply Hq, (supports_mono _ _ _ (implied_blocknums_ge c nm Hok))|].
    left. rewrite Hirr. eapply supports_perm; [symmetry; exact Hv|].
    assert (supports (implied_blocknums c nm) (calc_dpos_last_irreversible c nm)) as Hs' by by apply Hq.
    destruct (producer_to_last_implied_irb c !! nm); [done|]. apply supports_cons; [lia|done].
Qed.
End Invariant.

(** All presented keys are relevant exactly when they are keys of the authority. *)
Lemma relevant_all `{Countable K} (ks : gset K) (kws : list (key_weight K)) :
  NoDup (map kw_key kws) ->
  length (filter (fun k => bool_decide (kw_key k ∈ ks) = true) kws) = size ks
  <-> ks ⊆ list_to_set (map kw_key kws).
Proof.
  intros Hnd.
  assert (length (filter (fun k => bool_decide (kw_key k ∈ ks) = true) kws)
          = size (ks ∩ list_to_set (map kw_key kws))) as ->.
  { induction kws as [|[k w] kws IH]; cbn [map list_to_set filter length kw_key] in *.
    { by rewrite intersection_empty_r_L, size_empty. }
    apply NoDup_cons in Hnd as [Hk Hnd]. rewrite filter_cons. cbn [kw_key].
    destruct (decide (k ∈ ks)) as [Hin|Hin].
    - rewrite decide_True by (by apply bool_decide_eq_true). cbn [length]. rewrite IH by done.
      assert (ks ∩ ({[k]} ∪ list_to_set (map kw_key kws)) = {[k]} ∪ (ks ∩ list_to_set (map kw_key kws))) as -> by set_solver.
      rewrite (size_union {[k]} (ks ∩ _)), size_singleton; [done|]. apply disjoint_singleton_l. set_solver.
    - rewrite decide_False by (by rewrite bool_decide_eq_true). rewrite IH by done. f_equal. set_solver. }
  split.
  - intros E. assert (ks ∩ list_to_set (map kw_key kws) = ks) as <-; [|set_solver].
    apply set_subseteq_size_eq; [set_solver|lia].
  - intros Hsub. f_equal. set_solver.
Qed.

(** ** Scheduling, sealing and signatures *)
Section Blocks.
Context `{C : crypto}.

(** producers take turns of twelve slots in schedule order. *)
Theorem producers_take_turns (s : block_header_state) (round i j : Z) (pa : producer_authority public_key) :
  let ps := producers (active_schedule (b_common s)) in
  0 <= round -> 0 <= j < producer_repetitions -> 0 <= i -> ps !! Z.to_nat i = Some pa ->
  get_scheduled_producer s ((round * Z.of_nat (length ps) + i) * producer_repetitions + j) = Ok pa.
Proof.
  intros ps Hr Hj Hi Hpa. pose proof (lookup_lt_Some _ _ _ Hpa) as Hlt. unfold get_scheduled_producer. fold ps.
  unfold producer_repetitions in *. set (n := Z.of_nat (length ps)) in *. destruct (Z.eqb_spec n 0); [lia|].
  assert (((round * n + i) * 12 + j) mod (n * 12) = i * 12 + j) as ->.
  { symmetry. apply Z.mod_unique with round; lia. }
  assert ((i * 12 + j) / 12 = i) as -> by (symmetry; apply Z.div_unique with j; lia).
  by rewrite Hpa.
Qed.

(** Signatures do not enter the checks of a header. *)
Lemma finish_next_signature p sh sig : forall r, _finish_next p sh = Ok r ->
  additional_signatures r = [] /\ sh_header (b_header r) = sh_header sh
  /\ _finish_next p (mk_signed (sh_header sh) sig) = Ok (with_signatures r sig []).
Proof.
  intros r H. unfold _finish_next in *. repeat (apply res_bind_ok in H as (? & ? & H)).
  injection H as <-. cbn. split; [done|]. split; [done|].
  repeat match goal with E : _ = Ok ?x |- _ => rewrite E; clear E; cbn end. done.
Qed.

Lemma sig_digest_signature s sig extra : sig_digest (with_signatures s sig extra) = sig_digest s.
Proof. done. Qed.

Lemma next_timestamp s when n p : is_u32 (timestamp (sh_header (b_header s))) ->
  next s when n = Ok p -> p_timestamp p <> 0 -> next s (p_timestamp p) (p_confirmed p) = Ok p.
Proof.
  intros Hu H Ht. destruct (next_inv _ _ _ _ H) as (pa & counts & R). destruct R as [Hw _ _ _ _ _ _ _ Hc _ _ _ _].
  rewrite Hc. unfold next in *. rewrite Hw in H. cbn in H.
  assert (next_when s (p_timestamp p) = Ok (p_timestamp p)) as ->; [|exact H].
  unfold next_when in *. destruct (Z.eqb_spec (p_timestamp p) 0); [done|]. cbn.
  destruct (when =? 0); cbn in Hw.
  - injection Hw as Hw. set (t := timestamp _) in *. rewrite (proj2 (Z.gtb_lt _ _)); [done|].
    rewrite <- Hw in *. destruct (decide (t = UINT32_MAX)) as [->|]; [by cbn in Ht|]. nowrap. lia.
  - apply res_bind_ok in Hw as ([] & Ha & Hw). injection Hw as Hw. rewrite Hw in Ha. by rewrite Ha.
Qed.

(** What a producer seals and signs passes all the checks of [next] at a node
    with the same head state. *)
Lemma produced_header_accepted (s s' : block_header_state) (when n : Z) (p : pending_block_header_state)
    (tm am : digest_type) (np : option (producer_authority_schedule public_key)) (es : bool) (sb : option Z)
    (signer : digest_type -> list signature_type) (sh : signed_block_header) :
  is_u32 (timestamp (sh_header (b_header s))) -> next s when n = Ok p -> p_timestamp p <> 0 ->
  finish_next_sign p (make_block_header p tm am np es sb) signer = Ok (s', sh) ->
  next_header s sh (additional_signatures s') false = Ok s'.
Proof.
  set (h := make_block_header p tm am np es sb).
  assert (timestamp (sh_header h) = p_timestamp p /\ confirmed (sh_header h) = p_confirmed p) as [Ets Ecf] by done.
  clearbody h. intros Hu Hn Ht Hf. unfold finish_next_sign in Hf.
  apply res_bind_ok in Hf as (r & Hr & Hf). apply res_bind_ok in Hf as (r' & Hsign & Hf). injection Hf as <- <-.
  unfold sign in Hsign. apply res_bind_ok in Hsign as (d & Hd & Hsign). apply res_bind_ok in Hsign as ([] & _ & Hsign).
  apply res_bind_ok in Hsign as ([] & Hv & Hsign). injection Hsign as Hsign.
  set (sig := default signature_default _) in *. set (extra := removelast _) in *.
  destruct (finish_next_signature _ _ sig _ Hr) as (Ha & Hh & Hr').
  unfold next_header. cbn [sh_header]. rewrite Ets, Ecf, (next_timestamp _ _ _ _ Hu Hn Ht). cbn. unfold finish_next.
  rewrite <- Hsign. cbn [b_header with_signatures producer_signature additional_signatures].
  rewrite Hr'. cbn.
  destruct (Nat.eqb_spec (length extra) 0) as [E|_].
  - apply length_zero_iff_nil in E. rewrite E in *. by rewrite Hv.
  - cbn. unfold with_signatures in *. cbn. by rewrite Hv.
Qed.

(** a header made from a template is refused only for its new schedule:
    without one it is always sealed; with one it is sealed exactly when the
    pending schedule was not promoted in the same block and, unless the standby
    schedule is enabled, the version is the successor of the active one and no
    schedule is pending.  The new schedule then becomes the pending one. *)
Theorem template_header_sealed `{!crypto_laws C} (p : pending_block_header_state) (tm am : digest_type)
    (np : option (producer_authority_schedule public_key)) (es : bool) (sb : option Z) :
  let h := make_block_header p tm am np es sb in
  let allowed := match np with
    | None => True
    | Some sched => was_pending_promoted p = false
        /\ (es = true \/ version sched = u32 (version (active_schedule (p_common p)) + 1)
                         /\ producers (si_schedule (prev_pending_schedule p)) = [])
    end in
  (allowed -> exists s, _finish_next p h = Ok s /\ b_id s = header_id (sh_header h)
     /\ pending_schedule s = next_pending_schedule p ((fun sched => (sched, hash_schedule sched)) <$> np))
  /\ (~ allowed -> _finish_next p h = Err producer_schedule_exception).
Proof.
  intros h allowed. unfold _finish_next. subst h. cbn. rewrite !Z.eqb_refl, bool_decide_true by done. cbn.
  destruct np as [sched|]; cbn.
  2: { split; [|intros []; exact I]. intros _. eexists. split_and!; reflexivity. }
  unfold validate_and_extract_header_extensions. cbn. unfold extract. cbn. rewrite unpack_pack_schedule. cbn.
  unfold new_schedule_of. cbn. rewrite decide_True by done. cbn. unfold allowed.
  destruct (was_pending_promoted p); cbn; [split; [by intros [? _]|done]|].
  destruct es; cbn.
  { split; [|intros []; auto]. intros _. eexists. split_and!; reflexivity. }
  destruct (Z.eqb_spec (version sched) (u32 (version (active_schedule (p_common p)) + 1))) as [->|Hv]; cbn.
  - destruct (producers (si_schedule (prev_pending_schedule p))) eqn:E; cbn.
    + split; [|intros []; auto]. intros _. eexists. split_and!; reflexivity.
    + split; [naive_solver|done].
  - split; [naive_solver|done].
Qed.

(** ** Signatures *)
Lemma presented_weight_ext {K} (f g : K -> bool) ks : (forall k, f k = g k) -> presented_weight f ks = presented_weight g ks.
Proof.
  intros E. unfold presented_weight. f_equal. induction ks as [|k ks IH]; [done|].
  rewrite !filter_cons, E. by rewrite IH.
Qed.

Lemma recover_loop_spec (digest : digest_type) (sigs : list signature_type) : forall ks ks',
  recover_loop sigs digest ks = Ok ks' <->
  exists l, Forall2 (fun sig k => recover_key sig digest = Ok k) sigs l
            /\ NoDup l /\ (forall k, k ∈ l -> k ∉ ks) /\ ks' = list_to_set l ∪ ks.
Proof.
  induction sigs as [|sig sigs IH]; intros ks ks'; cbn.
  { split.
    - intros [= ->]. exists []. split_and!; [constructor|constructor|set_solver|set_solver].
    - intros (l & Hl & _ & _ & ->). apply Forall2_nil_inv_l in Hl as ->. f_equal. set_solver. }
  split.
  - intros H. apply res_bind_ok in H as (k & Hk & H). apply res_bind_ok in H as ([] & Hn & H).
    apply eos_assert_ok in Hn. apply bool_decide_eq_true in Hn.
    apply IH in H as (l & Hl & Hnd & Hd & ->). exists (k :: l).
    split_and!; [by constructor| |set_solver|set_solver].
    apply NoDup_cons. split; [|done]. intros Hin. apply Hd in Hin. set_solver.
  - intros (l & Hl & Hnd & Hd & ->). apply Forall2_cons_inv_l in Hl as (k & l' & Hk & Hl & ->).
    apply NoDup_cons in Hnd as [Hk' Hnd]. rewrite Hk. cbn.
    rewrite bool_decide_true by (apply Hd; set_solver). cbn. apply IH. exists l'.
    split_and!; [done|done| |set_solver]. intros k' Hin. specialize (Hd k'). set_solver.
Qed.

(** The last two checks of [verify_signee]. *)
Lemma signing_keys_ok (a : block_signing_authority_v0 public_key) (ks : gset public_key) :
  NoDup (map kw_key (bsa_keys a)) -> Forall (fun k => is_u16 (kw_weight k)) (bsa_keys a) -> is_u32 (bsa_threshold a) ->
  (let '(is_satisfied, relevant) := keys_satisfy_and_relevant (fun k => bool_decide (k ∈ ks)) (bsa_v0 a) in
   eos_assert (relevant =? Z.of_nat (size ks)) wrong_signing_key;; eos_assert is_satisfied wrong_signing_key) = Ok tt
  <-> ks ⊆ list_to_set (map kw_key (bsa_keys a))
      /\ bsa_threshold a <= presented_weight (fun k => bool_decide (k ∈ ks)) (bsa_keys a).
Proof.
  intros Hnd Hu Ht.
  destruct (satisfy_loop_spec (fun k => bool_decide (k ∈ ks)) _ _ 0 0 Hu Ht ltac:(done)) as [H1 H2].
  unfold keys_satisfy_and_relevant, bsa_v0_keys_satisfy_and_relevant. destruct (satisfy_loop _ _ _ _ _) as [t m]. cbn in H1, H2.
  rewrite <- H1, <- relevant_all by done. rewrite res_bind_ok. split.
  - intros ([] & E1 & E2). apply eos_assert_ok in E1, E2. btests. lia.
  - intros [E1 E2]. exists tt. rewrite !eos_assert_ok, Z.eqb_eq, Z.geb_leb, Z.leb_le. lia.
Qed.

(** [verify_signee] accepts a block exactly when its signatures recover
    distinct keys, no more than the authority has, all of them keys of the
    authority, whose weights sum up to its threshold. *)
Theorem verify_signee_spec (s : block_header_state) (a : block_signing_authority_v0 public_key) :
  valid_block_signing_authority (b_common s) = bsa_v0 a -> NoDup (map kw_key (bsa_keys a)) ->
  Forall (fun k => is_u16 (kw_weight k)) (bsa_keys a) -> is_u32 (bsa_threshold a) ->
  verify_signee s = Ok tt <->
  exists digest ks, sig_digest s = Ok digest
    /\ Forall2 (fun sig k => recover_key sig digest = Ok k)
         (producer_signature (b_header s) :: additional_signatures s) ks
    /\ NoDup ks /\ (length ks <= length (bsa_keys a))%nat
    /\ (forall k, k ∈ ks -> k ∈ map kw_key (bsa_keys a))
    /\ bsa_threshold a <= presented_weight (fun k => bool_decide (k ∈ ks)) (bsa_keys a).
Proof.
  intros Ha Hnd Hu Ht. unfold verify_signee. rewrite Ha. cbn [num_keys]. split.
  - intros H. apply res_bind_ok in H as ([] & Hlen & H). apply res_bind_ok in H as (d & Hd & H).
    apply res_bind_ok in H as (k & Hk & H). apply res_bind_ok in H as (ks & Hks & H).
    apply eos_assert_ok, Nat.leb_le in Hlen. apply signing_keys_ok in H as [Hsub Hw]; [|done..].
    apply recover_loop_spec in Hks as (l & Hl & Hndl & Hdis & ->). exists d, (k :: l).
    pose proof (Forall2_length _ _ _ Hl) as Hll.
    split_and!; [done|by constructor|apply NoDup_cons; set_solver|cbn; lia|set_solver|].
    erewrite presented_weight_ext; [exact Hw|]. intros x. apply bool_decide_ext. set_solver.
  - intros (d & ks & Hd & Hf & Hndk & Hlen & Hin & Hw). apply Forall2_cons_inv_l in Hf as (k & l & Hk & Hl & ->).
    pose proof (Forall2_length _ _ _ Hl) as Hll. apply NoDup_cons in Hndk as [Hkl Hndl]. cbn in Hlen.
    rewrite (proj2 (Nat.leb_le _ _)) by lia. cbn. rewrite Hd. cbn. rewrite Hk. cbn.
    rewrite (proj2 (recover_loop_spec d _ {[k]} (list_to_set l ∪ {[k]}))) by (exists l; set_solver). cbn [mbind res_bind].
    apply signing_keys_ok; [done..|]. split; [set_solver|].
    erewrite presented_weight_ext; [exact Hw|]. intros x. apply bool_decide_ext. set_solver.
Qed.
End Blocks.

(** ** A concrete chain

    Three producers in turn; a signature of the demo environment is the key. *)
Definition demo_producer (n : Z) : producer_authority Z := mk_pa n (bsa_v0 (mk_bsa 1 [mk_kw (100 + n) 1])).
Definition demo_producers : producer_authority_schedule Z :=
  mk_schedule 0 [demo_producer 1; demo_producer 2; demo_producer 3].

Definition demo_state : block_header_state :=
  mk_bhs (mk_common 1 0 0 demo_producers incremental_merkle_empty ∅ ∅ (bsa_v0 (mk_bsa 0 [])) [] false None)
    (mk_digest (demo_reverse 1) 5 6 7) (mk_signed (mk_block_header 1 1 0 demo_id demo_id demo_id 0 [] false None) 0)
    (mk_schedule_info 0 (mk_digest 0 0 0 0) (mk_schedule 0 [])) [] [].

Lemma demo_state_ok : state_ok demo_state.
Proof.
  split; [split|]; cbn; try (widths; lia); try (unfold maximum_tracked_dpos_confirmations, max_producers; lia).
  - constructor.
  - apply map_Forall_empty.
Qed.


(** The template of the next block, at slot 30. *)
Definition demo_pending : pending_block_header_state :=
  ok_or (mk_pending (b_common demo_state) (pending_schedule demo_state) false demo_id 0 0 0 0) (next demo_state 30 0).

Lemma demo_pending_next : next demo_state 30 0 = Ok demo_pending.
Proof. apply ok_or_eq. vm_compute. reflexivity. Qed.

Lemma next_preserves_dpos_witness : common_ok (p_common demo_pending).
Proof.
  destruct (next_preserves_dpos demo_state 30 0 demo_pending demo_state_ok eq_refl demo_pending_next) as [H _]. exact H.
Defined.

Definition demo_common : block_header_state_common :=
  mk_common 50 40 20 demo_producers incremental_merkle_empty ∅ {[1 := 20; 2 := 30; 3 := 10]} (bsa_v0 (mk_bsa 0 [])) [] false None.

Lemma dpos_irreversible_is_quorum_witness :
  20 <= calc_dpos_last_irreversible demo_common 3 <-> supports (implied_blocknums demo_common 3) 20.
Proof. apply (dpos_irreversible_is_quorum demo_common 3 20). discriminate. Defined.

Lemma irreversible_never_decreases_witness : lib_supported (p_common demo_pending).
Proof.
  apply (irreversible_never_decreases demo_state 30 0 demo_pending);
    [exact demo_state_ok|right; split; reflexivity|exact demo_pending_next|vm_compute; reflexivity].
Defined.

Lemma producers_take_turns_witness : get_scheduled_producer demo_state 65 = Ok (demo_producer 3).
Proof.
  apply (producers_take_turns demo_state 1 2 5 (demo_producer 3)); [lia|unfold producer_repetitions; lia|lia|reflexivity].
Defined.

Definition demo_sealed : res (block_header_state * signed_block_header) :=
  finish_next_sign demo_pending (make_block_header demo_pending demo_id demo_id None false None) (fun _ => [103]).
Definition demo_block : block_header_state * signed_block_header := ok_or (demo_state, b_header demo_state) demo_sealed.

Lemma demo_block_sealed : demo_sealed = Ok demo_block.
Proof. apply ok_or_eq. vm_compute. reflexivity. Qed.

Lemma template_header_sealed_witness :
  exists s, _finish_next demo_pending
              (make_block_header demo_pending demo_id demo_id (Some (mk_schedule 1 [demo_producer 2])) false None) = Ok s
    /\ producers (si_schedule (pending_schedule s)) = [demo_producer 2].
Proof.
  destruct (template_header_sealed demo_pending demo_id demo_id (Some (mk_schedule 1 [demo_producer 2])) false None) as [H _].
  destruct H as (s & Hs & _ & Hp); [split; [reflexivity|right; split; reflexivity]|].
  exists s. split; [exact Hs|]. rewrite Hp. reflexivity.
Defined.

Definition demo_signed : block_header_state :=
  with_signatures (mk_bhs (mk_common 1 0 0 demo_producers incremental_merkle_empty ∅ ∅
     (bsa_v0 (mk_bsa 2 [mk_kw 101 1; mk_kw 102 1; mk_kw 103 1])) [] false None)
    (mk_digest (demo_reverse 1) 5 6 7) (mk_signed (mk_block_header 1 1 0 demo_id demo_id demo_id 0 [] false None) 0)
    (mk_schedule_info 0 (mk_digest 0 0 0 0) (mk_schedule 0 [])) [] []) 103 [101].

Lemma verify_signee_spec_witness : verify_signee demo_signed = Ok tt.
Proof.
  eapply (verify_signee_spec demo_signed (mk_bsa 2 [mk_kw 101 1; mk_kw 102 1; mk_kw 103 1])); [reflexivity| | | |].
  - apply (bool_decide_unpack _). vm_compute. exact I.
  - repeat constructor; vm_compute; intuition discriminate.
  - widths. cbn. lia.
  - eexists _, [103; 101]. split; [vm_compute; reflexivity|]. split; [repeat constructor|].
    split; [apply (bool_decide_unpack _); vm_compute; exact I|]. split; [cbn; lia|].
    split; [intros k Hk; cbn in *; set_solver|vm_compute; discriminate].
Defined.
