(* ===== verification/ForkDatabase.v ===== *)
(** * The fork database ([fork_database.cpp], [fork_database.hpp])

    All blocks that are not irreversible yet, as a tree above a root, and the
    head: the best validated block.  Block states are shared objects
    ([std::shared_ptr<block_state>]): the index, the root, the head and the
    callers hold pointers to them and [validated] changes in place.  The model
    has a heap of block states and pointers into it.  The container's
    [by_block_id] index is a map from ids to pointers; [by_lib_block_num] and
    [by_prev] are computed from it (the order of siblings in [by_prev] has no
    effect on a result).  Reading and writing the file of the database
    ([open], [close]) is not modelled. *)

From S2P Require Import Prelude Merkle Authority BlockHeader BlockHeaderState.

#[export] Program Instance digest_countable : Countable digest_type :=
  inj_countable' (fun d => (_hash0 d, _hash1 d, _hash2 d, _hash3 d)) (fun '(a, b, c, d) => mk_digest a b c d) _.
Next Obligation. by intros []. Qed.

(** [sha256_less] ([types.hpp]) *)
Definition sha256_less (l r : digest_type) : bool :=
  if negb (_hash0 l =? _hash0 r) then _hash0 l <? _hash0 r
  else if negb (_hash1 l =? _hash1 r) then _hash1 l <? _hash1 r
  else if negb (_hash2 l =? _hash2 r) then _hash2 l <? _hash2 r
  else _hash3 l <? _hash3 r.

Section Forks.
Context `{C : crypto}.

(** ** State *)
Record block_state : Type := mk_block_state {
  bs_state : block_header_state;
  validated : bool }.

Definition bs_id (b : block_state) : digest_type := b_id (bs_state b).
Definition bs_prev (b : block_state) : digest_type := previous (sh_header (b_header (bs_state b))).
Definition bs_num (b : block_state) : Z := bc_block_num (b_common (bs_state b)).
Definition bs_irreversible (b : block_state) : Z := dpos_irreversible_blocknum (b_common (bs_state b)).
Definition is_valid (b : block_state) : bool := validated b.
Definition set_validated (v : bool) (b : block_state) : block_state := mk_block_state (bs_state b) v.

Abbreviation ptr := positive.

Record fork_database : Type := mk_fork_database {
  heap : gmap ptr block_state;
  index : gmap digest_type ptr;
  root : option ptr;
  head : option ptr }.

Abbreviation FD := (M fork_database).

Definition fork_database_empty : fork_database := mk_fork_database ∅ ∅ None None.

Definition set_heap h (db : fork_database) := mk_fork_database h (index db) (root db) (head db).
Definition set_index i (db : fork_database) := mk_fork_database (heap db) i (root db) (head db).
Definition set_root r (db : fork_database) := mk_fork_database (heap db) (index db) r (head db).
Definition set_head h (db : fork_database) := mk_fork_database (heap db) (index db) (root db) h.

(** Reading through a pointer; a null or dangling one is undefined behaviour. *)
Definition deref (db : fork_database) (p : option ptr) : res block_state :=
  match p ≫= (fun p => heap db !! p) with Some b => Ok b | None => Err undefined_behaviour end.

(** [std::make_shared<block_state>]: an object at a fresh address. *)
Definition make_shared (b : block_state) : FD ptr := fun db =>
  let p := fresh (dom (heap db)) in (Ok p, set_heap (<[p := b]> (heap db)) db).

(** ** Orders *)
Definition first_preferred (l r : block_state) : bool :=
  (bs_irreversible l >? bs_irreversible r)
  || ((bs_irreversible l =? bs_irreversible r) && (bs_num l >? bs_num r)).

(** The order of [by_lib_block_num]: [l] comes before [r]. *)
Definition lib_before (l r : block_state) : bool :=
  if negb (Bool.eqb (is_valid l) (is_valid r)) then is_valid l
  else if first_preferred l r then true
  else if first_preferred r l then false
  else sha256_less (bs_id l) (bs_id r).

(** The blocks of the index, with their pointers. *)
Definition blocks (db : fork_database) : list (ptr * block_state) :=
  omap (fun ip => (fun b => (ip.2, b)) <$> heap db !! ip.2) (map_to_list (index db)).

Definition pick_first (best : option (ptr * block_state)) (x : ptr * block_state) : option (ptr * block_state) :=
  match best with
  | None => Some x
  | Some b => if lib_before x.2 b.2 then Some x else Some b
  end.

(** [begin()] of [by_lib_block_num], and [lower_bound(false)]: the first of the
    blocks that are not validated. *)
Definition lib_begin (db : fork_database) : option (ptr * block_state) := fold_left pick_first (blocks db) None.
Definition lib_lower_bound_false (db : fork_database) : option (ptr * block_state) :=
  fold_left pick_first (filter (fun x => is_valid x.2 = false) (blocks db)) None.

(** ** Queries *)
Definition get_block (db : fork_database) (id : digest_type) : option ptr := index db !! id.

Definition get_block_header (db : fork_database) (id : digest_type) : res (option ptr) :=
  r ← deref db (root db);
  if bool_decide (bs_id r = id) then Ok (root db) else Ok (index db !! id).

(** [(id == my->root->id) ? my->root : get_block(id)] *)
Definition root_or_block (db : fork_database) (id : digest_type) : res (option ptr) := get_block_header db id.

(** The walks go to the previous block, whose number is smaller: [walk_fuel]
    turns are enough, as the theorems show. *)
Definition walk_fuel (db : fork_database) (p : option ptr) : nat :=
  match deref db p with Ok b => S (Z.to_nat (bs_num b)) | Err _ => 1 end.

Fixpoint fetch_branch_loop (fuel : nat) (db : fork_database) (s : option ptr) (trim_after : Z) : res (list ptr) :=
  match s, fuel with
  | None, _ => Ok []
  | Some p, O => Err out_of_fuel
  | Some p, S fuel =>
      b ← deref db (Some p);
      rest ← fetch_branch_loop fuel db (get_block db (bs_prev b)) trim_after;
      Ok (if bs_num b <=? trim_after then p :: rest else rest)
  end.

Definition fetch_branch (db : fork_database) (h : digest_type) (trim_after : Z) : res (list ptr) :=
  let s := get_block db h in fetch_branch_loop (walk_fuel db s) db s trim_after.

Fixpoint search_loop (fuel : nat) (db : fork_database) (s : option ptr) (block_num : Z) : res (option ptr) :=
  match s, fuel with
  | None, _ => Ok None
  | Some p, O => Err out_of_fuel
  | Some p, S fuel =>
      b ← deref db (Some p);
      if bs_num b =? block_num then Ok (Some p) else search_loop fuel db (get_block db (bs_prev b)) block_num
  end.

Definition search_on_branch (db : fork_database) (h : digest_type) (block_num : Z) : res (option ptr) :=
  let s := get_block db h in search_loop (walk_fuel db s) db s block_num.

(** The first two loops of [fetch_branch_from]: down to the number [target];
    the blocks passed and the block reached. *)
Fixpoint descend (fuel : nat) (db : fork_database) (p : ptr) (target : Z) (acc : list ptr) : res (list ptr * ptr) :=
  b ← deref db (Some p);
  if bs_num b >? target then
    match fuel with
    | O => Err out_of_fuel
    | S fuel =>
        q ← root_or_block db (bs_prev b);
        match q with
        | None => Err fork_db_block_not_found
        | Some q => descend fuel db q target (acc ++ [p])
        end
    end
  else Ok (acc, p).

(** The third loop: both branches down to a common previous block. *)
Fixpoint meet (fuel : nat) (db : fork_database) (p q : ptr) (first second : list ptr) : res (list ptr * list ptr) :=
  b ← deref db (Some p);
  c ← deref db (Some q);
  if bool_decide (bs_prev b = bs_prev c) then Ok (first ++ [p], second ++ [q])
  else
    match fuel with
    | O => Err out_of_fuel
    | S fuel =>
        match get_block db (bs_prev b), get_block db (bs_prev c) with
        | None, _ => Err fork_db_block_not_found
        | _, None => Err fork_db_block_not_found
        | Some p', Some q' => meet fuel db p' q' (first ++ [p]) (second ++ [q])
        end
    end.

Definition fetch_branch_from (db : fork_database) (first second : digest_type) : res (list ptr * list ptr) :=
  fp ← root_or_block db first;
  sp ← root_or_block db second;
  match fp, sp with
  | None, _ => Err fork_db_block_not_found
  | _, None => Err fork_db_block_not_found
  | Some p, Some q =>
      c ← deref db (Some q);
      '(branch1, p) ← descend (walk_fuel db (Some p)) db p (bs_num c) [];
      b ← deref db (Some p);
      '(branch2, q) ← descend (walk_fuel db (Some q)) db q (bs_num b) [];
      c ← deref db (Some q);
      if bool_decide (bs_id b = bs_id c) then Ok (branch1, branch2)
      else meet (walk_fuel db (Some p)) db p q branch1 branch2
  end.

Definition pending_head (db : fork_database) : res (option ptr) :=
  match lib_lower_bound_false db with
  | Some (p, b) =>
      h ← deref db (head db);
      if first_preferred b h then Ok (Some p) else Ok (head db)
  | None => Ok (head db)
  end.

(** ** Updates *)
Definition reset (root_bhs : block_header_state) : FD unit :=
  modify (set_index ∅);;
  p ← make_shared (mk_block_state root_bhs true);
  modify (fun db => set_head (Some p) (set_root (Some p) db)).

Definition rollback_head_to_root : FD unit :=
  modify (fun db => set_head (root db)
    (set_heap (fold_left (fun h ip => alter (set_validated false) ip.2 h) (map_to_list (index db)) (heap db)) db)).

Definition add (n : option ptr) (ignore_duplicate : bool) : FD unit :=
  db ← get;
  massert (bool_decide (root db <> None)) fork_database_exception;;
  massert (bool_decide (n <> None)) fork_database_exception;;
  nb ← lift (deref db n);
  prev_bh ← lift (get_block_header db (bs_prev nb));
  massert (bool_decide (prev_bh <> None)) unlinkable_block_exception;;
  match index db !! bs_id nb, n with
  | None, Some p =>
      modify (set_index (<[bs_id nb := p]> (index db)));;
      db ← get;
      match lib_begin db with
      | Some (c, cb) => if is_valid cb then modify (set_head (Some c)) else mret tt
      | None => throw undefined_behaviour
      end
  | _, _ => if ignore_duplicate then mret tt else throw fork_database_exception
  end.

(** The blocks whose previous block is [id]. *)
Definition children (db : fork_database) (id : digest_type) : list digest_type :=
  map (fun x => bs_id x.2) (filter (fun x => bs_prev x.2 = id) (blocks db)).

(** The queue of [remove], from position [i]. *)
Fixpoint remove_queue (fuel : nat) (db : fork_database) (head_id : digest_type) (i : nat) (queue : list digest_type)
    : res (list digest_type) :=
  match queue !! i, fuel with
  | None, _ => Ok queue
  | Some _, O => Err out_of_fuel
  | Some id, S fuel =>
      eos_assert (negb (bool_decide (id = head_id))) fork_database_exception;;
      remove_queue fuel db head_id (S i) (queue ++ children db id)
  end.

Definition remove (id : digest_type) : FD unit :=
  db ← get;
  h ← lift (deref db (head db));
  queue ← lift (remove_queue (S (size (index db))) db (bs_id h) 0 [id]);
  modify (set_index (fold_left (fun m id => delete id m) queue (index db))).

Definition mark_valid (h : ptr) : FD unit :=
  db ← get;
  b ← lift (deref db (Some h));
  if validated b then mret tt
  else
    match index db !! bs_id b with
    | None => throw fork_database_exception
    | Some p =>
        modify (set_heap (alter (set_validated true) p (heap db)));;
        db ← get;
        match lib_begin db with
        | None => throw undefined_behaviour
        | Some (c, cb) =>
            hb ← lift (deref db (head db));
            if first_preferred cb hb then modify (set_head (Some c)) else mret tt
        end
    end.

(** The ids from the previous block of [b] down to the root. *)
Fixpoint ancestors_loop (fuel : nat) (db : fork_database) (b : block_state) (root_id : digest_type) : res (list digest_type) :=
  match fuel with
  | O => Err out_of_fuel
  | S fuel =>
      match get_block db (bs_prev b) with
      | None => eos_assert (bool_decide (bs_prev b = root_id)) fork_database_exception;; Ok [bs_prev b]
      | Some p =>
          b' ← deref db (Some p);
          rest ← ancestors_loop fuel db b' root_id;
          Ok (bs_prev b :: rest)
      end
  end.

Fixpoint remove_all (ids : list digest_type) : FD unit :=
  match ids with
  | [] => mret tt
  | id :: ids => remove id;; remove_all ids
  end.

Definition advance_root (id : digest_type) : FD unit :=
  db ← get;
  massert (bool_decide (root db <> None)) fork_database_exception;;
  let new_root := get_block db id in
  massert (bool_decide (new_root <> None)) fork_database_exception;;
  nb ← lift (deref db new_root);
  massert (is_valid nb) fork_database_exception;;
  rb ← lift (deref db (root db));
  blocks_to_remove ← lift (ancestors_loop (walk_fuel db new_root) db nb (bs_id rb));
  modify (set_index (delete id (index db)));;
  remove_all blocks_to_remove;;
  modify (set_root new_root).
End Forks.

(** ** The order of [by_lib_block_num] *)
Section Order.
Context `{C : crypto}.

Lemma sha256_less_irrefl d : sha256_less d d = false.
Proof. unfold sha256_less. rewrite !Z.eqb_refl. cbn. apply Z.ltb_irrefl. Qed.

Lemma sha256_less_trans a b c : sha256_less a b = true -> sha256_less b c = true -> sha256_less a c = true.
Proof.
  unfold sha256_less. intros H1 H2.
  repeat match goal with
  | H : context [negb (?x =? ?y)] |- _ => destruct (Z.eqb_spec x y); cbn in H
  end; btests;
  repeat match goal with |- context [negb (?x =? ?y)] => destruct (Z.eqb_spec x y); cbn end;
  rewrite ?Z.ltb_lt; lia.
Qed.

Lemma first_preferred_spec (l r : block_state) : first_preferred l r = true <->
  bs_irreversible r < bs_irreversible l \/ bs_irreversible l = bs_irreversible r /\ bs_num r < bs_num l.
Proof. unfold first_preferred. rewrite orb_true_iff, andb_true_iff, !Z.gtb_lt, Z.eqb_eq. lia. Qed.

Lemma first_preferred_false (l r : block_state) : first_preferred l r = false <->
  bs_irreversible l < bs_irreversible r \/ bs_irreversible l = bs_irreversible r /\ bs_num l <= bs_num r.
Proof. rewrite <- not_true_iff_false, first_preferred_spec. lia. Qed.

Lemma first_preferred_trans a b c :
  first_preferred a b = false -> first_preferred b c = false -> first_preferred a c = false.
Proof. rewrite !first_preferred_false. lia. Qed.

Lemma lib_before_irrefl b : lib_before b b = false.
Proof.
  unfold lib_before. rewrite Bool.eqb_reflx. cbn.
  replace (first_preferred b b) with false by (symmetry; apply first_preferred_false; lia). apply sha256_less_irrefl.
Qed.

Lemma lib_before_spec l r : lib_before l r = true <->
  (is_valid l = true /\ is_valid r = false)
  \/ is_valid l = is_valid r
     /\ (first_preferred l r = true \/ first_preferred r l = false /\ sha256_less (bs_id l) (bs_id r) = true).
Proof.
  unfold lib_before. destruct (is_valid l), (is_valid r); cbn;
    destruct (first_preferred l r) eqn:E1, (first_preferred r l) eqn:E2; intuition congruence.
Qed.

Lemma lib_before_trans a b c : lib_before a b = true -> lib_before b c = true -> lib_before a c = true.
Proof.
  rewrite !lib_before_spec. intros [[H1 H2]|[H1 H2]] [[H3 H4]|[H3 H4]]; [congruence|left; split; congruence..|].
  right. split; [congruence|].
  destruct H2 as [H2|[H2 S2]], H4 as [H4|[H4 S4]].
  - left. rewrite first_preferred_spec in *. lia.
  - left. rewrite first_preferred_spec in *. rewrite first_preferred_false in H4. lia.
  - left. rewrite first_preferred_spec in *. rewrite first_preferred_false in H2. lia.
  - right. split; [by eapply first_preferred_trans|by eapply sha256_less_trans].
Qed.

(** [begin()]: an element with no other before it. *)
Definition first_of (seen : list (positive * block_state)) (best : option (positive * block_state)) : Prop :=
  match best with
  | Some x => x ∈ seen /\ (forall y, y ∈ seen -> lib_before y.2 x.2 = false)
  | None => seen = []
  end.

Lemma pick_first_spec (l : list (positive * block_state)) : forall seen best,
  first_of seen best -> first_of (seen ++ l) (fold_left pick_first l best).
Proof.
  induction l as [|x l IH]; intros seen best Hb; cbn; [by rewrite app_nil_r|].
  change (x :: l) with ([x] ++ l). rewrite app_assoc. apply IH. destruct best as [b|]; cbn in *.
  - destruct Hb as [Hin Hmin]. destruct (lib_before x.2 b.2) eqn:E; cbn; (split; [set_solver|]).
    + intros y [Hy| ->%list_elem_of_singleton]%elem_of_app; [|apply lib_before_irrefl].
      destruct (lib_before y.2 x.2) eqn:E2; [|done]. by rewrite <- (Hmin y Hy), (lib_before_trans _ _ _ E2 E).
    + intros y [Hy| ->%list_elem_of_singleton]%elem_of_app; auto.
  - subst seen. split; [set_solver|]. intros y ->%list_elem_of_singleton. apply lib_before_irrefl.
Qed.

Lemma lib_begin_first db : first_of (blocks db) (lib_begin db).
Proof. by apply (pick_first_spec (blocks db) []). Qed.
End Order.

(** ** Trees *)
Section Trees.
Context `{C : crypto} `{!crypto_laws C}.

Implicit Types (db : fork_database) (b : block_state) (id : digest_type) (p : positive) (R : gset digest_type).

(** A block whose id carries its number, one more than the number of the
    block it builds on: every block state [block_header_state::next] makes. *)
Definition well_numbered b : Prop :=
  bs_num b = num_from_id (bs_id b) /\ bs_num b = num_from_id (bs_prev b) + 1.

(** Every block of the index stands on another one or on a root of [R]. *)
Record forest db R : Prop := {
  forest_block : forall id p, index db !! id = Some p ->
    exists b, heap db !! p = Some b /\ bs_id b = id /\ well_numbered b
              /\ (bs_prev b ∈ R \/ is_Some (index db !! bs_prev b));
  forest_roots : forall id, id ∈ R -> index db !! id = None }.

Lemma num_from_id_nonneg id : 0 <= num_from_id id.
Proof. unfold num_from_id. destruct (reverse_range (u32 (_hash0 id)) (u32_range _)) as [? _]. done. Qed.

Lemma elem_of_blocks db p b : (p, b) ∈ blocks db <-> heap db !! p = Some b /\ exists id, index db !! id = Some p.
Proof.
  unfold blocks. rewrite list_elem_of_omap. split.
  - intros ([id q] & Hin & H). apply elem_of_map_to_list in Hin. cbn in H.
    destruct (heap db !! q) as [b'|] eqn:E; [|done]. injection H as -> ->. eauto.
  - intros [Hb [id Hid]]. exists (id, p). rewrite elem_of_map_to_list. cbn. by rewrite Hb.
Qed.

(** [chain db id l z]: from the block [id] over the blocks [l] down to [z]. *)
Inductive chain db : digest_type -> list positive -> digest_type -> Prop :=
| chain_nil id : chain db id [] id
| chain_cons id p b l z :
    index db !! id = Some p -> heap db !! p = Some b -> chain db (bs_prev b) l z -> chain db id (p :: l) z.

Lemma chain_app db x l y k z : chain db x l y -> chain db y k z -> chain db x (l ++ k) z.
Proof. induction 1; intros; cbn; [done|]. econstructor; eauto. Qed.

Lemma chain_num db R x l z : forest db R -> chain db x l z -> num_from_id x = num_from_id z + Z.of_nat (length l).
Proof.
  intros F. induction 1 as [|id p b l z Hi Hb _ IH]; cbn; [lia|].
  destruct (forest_block _ _ F _ _ Hi) as (b' & Hb' & Hid & [Hn Hp] & _). simplify_eq. lia.
Qed.

(** From every block there is a chain to a root. *)
Lemma forest_chain db R : forest db R -> forall id p, index db !! id = Some p ->
  exists l z, chain db id (p :: l) z /\ z ∈ R.
Proof.
  intros F id. remember (Z.to_nat (num_from_id id)) as n eqn:Hn. revert id Hn.
  induction n as [n IH] using lt_wf_ind. intros id Hn p Hi.
  destruct (forest_block _ _ F _ _ Hi) as (b & Hb & Hid & [Hnum Hprev] & [Hr|[q Hq]]).
  - exists [], (bs_prev b). split; [|done]. econstructor; [done..|constructor].
  - destruct (IH (Z.to_nat (num_from_id (bs_prev b)))) with (id := bs_prev b) (p := q) as (l & z & Hc & Hz); [|done..|].
    { pose proof (num_from_id_nonneg (bs_prev b)). subst. lia. }
    exists (q :: l), z. split; [|done]. by econstructor.
Qed.

(** Chains to the same end are prefixes of each other. *)
Lemma chain_functional db x l y : forall k z, chain db x l y -> chain db x k z -> (length l <= length k)%nat ->
  exists m, k = l ++ m /\ chain db y m z.
Proof.
  intros k z H. revert k z. induction H as [|id p b l w Hi Hb _ IH]; intros k z Hk Hlen; [by exists k|].
  inversion Hk as [|? p' b' k' ? Hi' Hb' Hc']; subst; cbn in Hlen; [lia|]. simplify_eq.
  destruct (IH k' z Hc') as (m & -> & Hm); [lia|]. by exists m.
Qed.

(** The loops follow the chain. *)
Definition num_at db p : Z := match heap db !! p with Some b => bs_num b | None => 0 end.

Lemma deref_some db p b : heap db !! p = Some b -> deref db (Some p) = Ok b.
Proof. intros H. unfold deref. cbn. by rewrite H. Qed.

Lemma fetch_branch_loop_chain db trim z : index db !! z = None -> forall l id fuel, chain db id l z -> (length l <= fuel)%nat ->
  fetch_branch_loop fuel db (get_block db id) trim = Ok (filter (fun p => num_at db p <= trim) l).
Proof.
  intros Hz l id fuel H. revert fuel. induction H as [|id p b l z Hi Hb _ IH]; intros fuel Hf.
  { unfold get_block. rewrite Hz. by destruct fuel. }
  unfold get_block at 1. rewrite Hi, filter_cons.
  assert (num_at db p = bs_num b) as En by (unfold num_at; by rewrite Hb).
  destruct fuel as [|fuel]; cbn [fetch_branch_loop length] in *; [lia|].
  rewrite (deref_some _ _ _ Hb). cbn. rewrite IH by (done || lia). cbn.
  destruct (Z.leb_spec (bs_num b) trim); case_decide; (lia || done).
Qed.

Lemma search_loop_chain db n z : index db !! z = None -> forall l id fuel, chain db id l z -> (length l <= fuel)%nat ->
  search_loop fuel db (get_block db id) n = Ok (snd <$> list_find (fun p => num_at db p = n) l).
Proof.
  intros Hz l id fuel H. revert fuel. induction H as [|id p b l z Hi Hb _ IH]; intros fuel Hf.
  { unfold get_block. rewrite Hz. by destruct fuel. }
  unfold get_block at 1. rewrite Hi. destruct fuel as [|fuel]; cbn in *; [lia|].
  rewrite (deref_some _ _ _ Hb). cbn. rewrite IH by (done || lia).
  replace (num_at db p) with (bs_num b) by (unfold num_at; by rewrite Hb).
  destruct (Z.eqb_spec (bs_num b) n); case_decide; try done. f_equal. by destruct (list_find _ l) as [[]|].
Qed.

Lemma walk_fuel_enough db R id p l z : forest db R -> chain db id (p :: l) z ->
  (length (p :: l) <= walk_fuel db (Some p))%nat.
Proof.
  intros F Hc. pose proof (chain_num _ _ _ _ _ F Hc) as Hn. pose proof (num_from_id_nonneg z).
  inversion Hc as [|? ? b ? ? Hi Hb _]; subst. destruct (forest_block _ _ F _ _ Hi) as (b' & Hb' & <- & [Hw _] & _). simplify_eq.
  unfold walk_fuel. rewrite (deref_some _ _ _ Hb). cbn [length] in *. lia.
Qed.

(** The blocks on a chain are numbered downwards. *)
Lemma chain_num_at db R x l z i p : forest db R -> chain db x l z -> l !! i = Some p ->
  num_at db p = num_from_id x - Z.of_nat i.
Proof.
  intros F Hc. revert i. induction Hc as [|id q b l z Hi Hb _ IH]; intros [|i] Hp; [done..| |];
    destruct (forest_block _ _ F _ _ Hi) as (b' & Hb' & <- & [Hn Hpr] & _); simplify_eq; cbn in Hp.
  - simplify_eq. unfold num_at. rewrite Hb. lia.
  - rewrite (IH i Hp). lia.
Qed.

(** ** The database invariant *)
Record wf_at db (r h : positive) (rb hb : block_state) : Prop := {
  wf_root : root db = Some r /\ heap db !! r = Some rb;
  wf_head : head db = Some h /\ heap db !! h = Some hb;
  wf_root_num : bs_num rb = num_from_id (bs_id rb);
  wf_forest : forest db {[bs_id rb]};
  wf_where : h = r \/ index db !! bs_id hb = Some h /\ validated hb = true;
  wf_best : forall p b, (p, b) ∈ blocks db -> validated b = true -> first_preferred b hb = false }.

Definition wf db : Prop := exists r h rb hb, wf_at db r h rb hb.

Lemma index_above_root db r id p : forest db {[r]} -> index db !! id = Some p -> num_from_id r < num_from_id id.
Proof.
  intros F Hi. destruct (forest_chain _ _ F _ _ Hi) as (l & z & Hc & Hz). apply elem_of_singleton in Hz as ->.
  apply (chain_num _ _ _ _ _ F) in Hc. cbn in Hc. lia.
Qed.

Lemma get_block_header_wf db r h rb hb id : wf_at db r h rb hb ->
  get_block_header db id = Ok (if bool_decide (bs_id rb = id) then Some r else index db !! id).
Proof.
  intros W. destruct (wf_root _ _ _ _ _ W) as [Hr Hrb]. unfold get_block_header. rewrite Hr, (deref_some _ _ _ Hrb). cbn.
  by destruct (bool_decide _).
Qed.

(** A block the database can reach from: the root or a block of the index. *)
Definition known db rb id : Prop := id = bs_id rb \/ is_Some (index db !! id).

Lemma known_chain db r h rb hb id : wf_at db r h rb hb -> known db rb id -> exists l, chain db id l (bs_id rb).
Proof.
  intros W [->|[p Hp]]; [exists []; constructor|].
  destruct (forest_chain _ _ (wf_forest _ _ _ _ _ W) _ _ Hp) as (l & z & Hc & Hz). apply elem_of_singleton in Hz as ->. eauto.
Qed.

Lemma descend_chain db r h rb hb target : wf_at db r h rb hb -> num_from_id (bs_id rb) <= target ->
  forall fuel id p acc b, get_block_header db id = Ok (Some p) -> heap db !! p = Some b -> bs_id b = id ->
  bs_num b = num_from_id id -> known db rb id -> target <= num_from_id id -> (Z.to_nat (num_from_id id - target) <= fuel)%nat ->
  exists l q c, descend fuel db p target acc = Ok (acc ++ l, q) /\ heap db !! q = Some c /\ chain db id l (bs_id c)
    /\ bs_num c = target /\ bs_num c = num_from_id (bs_id c) /\ known db rb (bs_id c) /\ get_block_header db (bs_id c) = Ok (Some q).
Proof.
  intros W Ht. induction fuel as [|fuel IH]; intros id p acc b Hg Hb Hid Hn Hk Htg Hf; cbn; rewrite (deref_some _ _ _ Hb); cbn.
  - assert (bs_num b = target) as E by lia. rewrite Z.gtb_ltb, (proj2 (Z.ltb_ge _ _)) by lia.
    exists [], p, b. rewrite app_nil_r. subst id. split_and!; (done || constructor).
  - rewrite Z.gtb_ltb. destruct (Z.ltb_spec target (bs_num b)) as [Hlt|Hge].
    2: { assert (bs_num b = target) as E by lia. exists [], p, b. rewrite app_nil_r. subst id. split_and!; (done || constructor). }
    assert (id <> bs_id rb) as Hne by (intros ->; lia).
    destruct Hk as [|[p' Hp']]; [done|].
    assert (p' = p) as ->.
    { rewrite (get_block_header_wf _ _ _ _ _ _ W), bool_decide_false in Hg by congruence. congruence. }
    destruct (forest_block _ _ (wf_forest _ _ _ _ _ W) _ _ Hp') as (b' & Hb' & _ & [Hw1 Hw2] & Hprev). simplify_eq.
    assert (exists q c, get_block_header db (bs_prev b) = Ok (Some q) /\ heap db !! q = Some c
              /\ bs_id c = bs_prev b /\ bs_num c = num_from_id (bs_prev b) /\ known db rb (bs_prev b)) as (q & c & Hq & Hc & Hcid & Hcn & Hck).
    { rewrite (get_block_header_wf _ _ _ _ _ _ W). destruct (bool_decide_reflect (bs_id rb = bs_prev b)) as [E|E].
      - exists r, rb. rewrite <- E. split_and!; [done|by destruct (wf_root _ _ _ _ _ W)|done|by apply (wf_root_num _ _ _ _ _ W)|by left].
      - destruct Hprev as [Hr|[q Hq]]; [apply elem_of_singleton in Hr; congruence|].
        destruct (forest_block _ _ (wf_forest _ _ _ _ _ W) _ _ Hq) as (c & Hc & Hcid & [Hc1 _] & _).
        exists q, c. rewrite Hq. split_and!; try done; [congruence|right; eauto]. }
    unfold root_or_block. rewrite Hq. cbn.
    destruct (IH (bs_prev b) q (acc ++ [p]) c) as (l & q' & c' & Hd & Hc' & Hch & Hrest); [done..|lia|lia|].
    exists (p :: l), q', c'. rewrite Hd, <- app_assoc. split_and!; try done; try apply Hrest. by econstructor.
Qed.

(** Two branches of blocks with the same number meet. *)
Lemma meet_chain db r h rb hb : wf_at db r h rb hb -> forall fuel p q b c first second,
  index db !! bs_id b = Some p -> heap db !! p = Some b -> index db !! bs_id c = Some q -> heap db !! q = Some c ->
  bs_id b <> bs_id c -> bs_num b = bs_num c -> (Z.to_nat (bs_num b) <= fuel)%nat ->
  exists l1 l2 p' q' z, meet fuel db p q first second = Ok (first ++ l1 ++ [p'], second ++ l2 ++ [q'])
    /\ chain db (bs_id b) (l1 ++ [p']) z /\ chain db (bs_id c) (l2 ++ [q']) z /\ p' <> q'.
Proof.
  intros W. induction fuel as [|fuel IH]; intros p q b c first second Hp Hb Hq Hc Hne Hnum Hf; cbn;
    rewrite (deref_some _ _ _ Hb), (deref_some _ _ _ Hc); cbn;
    destruct (forest_block _ _ (wf_forest _ _ _ _ _ W) _ _ Hp) as (b' & Hb' & _ & [Hb1 Hb2] & Hbp);
    destruct (forest_block _ _ (wf_forest _ _ _ _ _ W) _ _ Hq) as (c' & Hc' & _ & [Hc1 Hc2] & Hcp); simplify_eq;
    (destruct (bool_decide_reflect (bs_prev b = bs_prev c)) as [E|E];
     [exists [], [], p, q, (bs_prev b); split_and!;
       [done|econstructor; [done..|constructor]|rewrite E; econstructor; [done..|constructor]|by intros ->; simplify_eq]|]).
  - exfalso. pose proof (num_from_id_nonneg (bs_prev b)). lia.
  - pose proof (index_above_root _ _ _ _ (wf_forest _ _ _ _ _ W) Hp) as Hab.
    assert (forall x y, x <> y -> num_from_id x = num_from_id y -> x ∈ ({[bs_id rb]} : gset digest_type) ->
              is_Some (index db !! y) -> False) as Hroot.
    { intros x y _ Hxy Hx%elem_of_singleton [z Hz]. subst x.
      pose proof (index_above_root _ _ _ _ (wf_forest _ _ _ _ _ W) Hz). lia. }
    destruct Hbp as [Hbp|[p' Hp']], Hcp as [Hcp|[q' Hq']];
      [apply elem_of_singleton in Hbp, Hcp; congruence
      |exfalso; apply (Hroot (bs_prev b) (bs_prev c)); [done|lia|done|by eexists]
      |exfalso; apply (Hroot (bs_prev c) (bs_prev b)); [congruence|lia|done|by eexists]|].
    unfold get_block. rewrite Hp', Hq'.
    destruct (forest_block _ _ (wf_forest _ _ _ _ _ W) _ _ Hp') as (b1 & Hb1' & Ei & [Hn1 _] & _).
    destruct (forest_block _ _ (wf_forest _ _ _ _ _ W) _ _ Hq') as (c1 & Hc1' & Ej & [Hn2 _] & _).
    destruct (IH p' q' b1 c1 (first ++ [p]) (second ++ [q])) as (l1 & l2 & x & y & z & Hm & H1 & H2 & Hxy);
      [by rewrite Ei|done|by rewrite Ej|done|congruence|rewrite Hn1, Hn2, Ei, Ej; lia|rewrite Hn1, Ei; lia|].
    exists (p :: l1), (q :: l2), x, y, z. rewrite Hm, <- !app_assoc.
    split_and!; [done|cbn; econstructor; [done..|congruence]|cbn; econstructor; [done..|congruence]|done].
Qed.

(** [fetch_branch] of a known block returns the blocks from it down to
    the child of the root, each one the previous of the one before it, without
    those above the given number; [search_on_branch] returns the block of that
    branch with the given number.  For an unknown block both return nothing. *)
Theorem fetch_branch_spec db r h rb hb (id : digest_type) :
  wf_at db r h rb hb ->
  match index db !! id with
  | Some _ => exists l, chain db id l (bs_id rb)
      /\ (forall i p, l !! i = Some p -> num_at db p = num_from_id id - Z.of_nat i)
      /\ (forall trim, fetch_branch db id trim = Ok (filter (fun p => num_at db p <= trim) l))
      /\ (forall n, search_on_branch db id n = Ok (snd <$> list_find (fun p => num_at db p = n) l))
  | None => (forall trim, fetch_branch db id trim = Ok []) /\ (forall n, search_on_branch db id n = Ok None)
  end.
Proof.
  intros W. pose proof (wf_forest _ _ _ _ _ W) as F.
  destruct (index db !! id) as [p|] eqn:Hi.
  - destruct (forest_chain _ _ F _ _ Hi) as (l & z & Hc & Hz). apply elem_of_singleton in Hz as ->.
    assert (index db !! bs_id rb = None) as Hr by (apply (forest_roots _ _ F); set_solver).
    pose proof (walk_fuel_enough _ _ _ _ _ _ F Hc) as Hf. assert (get_block db id = Some p) as Hg by done.
    exists (p :: l). split_and!; [done| | |].
    + intros i q Hq. by eapply chain_num_at.
    + intros trim. unfold fetch_branch. rewrite Hg at 1. by apply (fetch_branch_loop_chain _ _ (bs_id rb)).
    + intros n. unfold search_on_branch. rewrite Hg at 1. by apply (search_loop_chain _ _ (bs_id rb)).
  - unfold fetch_branch, search_on_branch, get_block. rewrite Hi. done.
Qed.

(** What a known block looks like. *)
Record known_block db (rb : block_state) id p b : Prop := {
  kb_get : get_block_header db id = Ok (Some p);
  kb_heap : heap db !! p = Some b;
  kb_id : bs_id b = id;
  kb_num : bs_num b = num_from_id id;
  kb_above : num_from_id (bs_id rb) <= num_from_id id;
  kb_known : known db rb id }.

Lemma known_is_block db r h rb hb id : wf_at db r h rb hb -> known db rb id -> exists p b, known_block db rb id p b.
Proof.
  intros W Hk. pose proof (wf_forest _ _ _ _ _ W) as F. pose proof (get_block_header_wf _ _ _ _ _ id W) as Hg.
  destruct (bool_decide_reflect (bs_id rb = id)) as [<-|E].
  - exists r, rb. split; [done|by destruct (wf_root _ _ _ _ _ W)|done|by apply (wf_root_num _ _ _ _ _ W)|lia|by left].
  - destruct Hk as [->|[p Hp]]; [done|]. destruct (forest_block _ _ F _ _ Hp) as (b & Hb & Hid & [Hn _] & _).
    pose proof (index_above_root _ _ _ _ F Hp). rewrite Hp in Hg.
    exists p, b. split; (done || congruence || lia || right; eauto).
Qed.

(** A descent from a known block to a number at least the root's. *)
Lemma descend_known db r h rb hb id p b target : wf_at db r h rb hb -> known_block db rb id p b ->
  num_from_id (bs_id rb) <= target ->
  exists l q c, descend (walk_fuel db (Some p)) db p target [] = Ok (l, q) /\ chain db id l (bs_id c)
    /\ known_block db rb (bs_id c) q c /\ bs_num c = Z.min target (bs_num b).
Proof.
  intros W [Hg Hb Hid Hn Ha Hk] Ht. destruct (Z.le_gt_cases (bs_num b) target) as [Hle|Hgt].
  - exists [], p, b. unfold walk_fuel. rewrite (deref_some _ _ _ Hb). cbn. rewrite (deref_some _ _ _ Hb). cbn.
    rewrite Z.gtb_ltb, (proj2 (Z.ltb_ge _ _)) by lia. subst id. split_and!; [done|constructor|done|lia].
  - destruct (descend_chain db r h rb hb target W Ht (walk_fuel db (Some p)) id p [] b)
      as (l & q & c & Hd & Hc & Hch & Hcn & Hci & Hck & Hcg); [done..|lia| |].
    { pose proof (num_from_id_nonneg (bs_id rb)). unfold walk_fuel. rewrite (deref_some _ _ _ Hb). lia. }
    exists l, q, c. split_and!; [done|done| |lia]. split; [done..|lia|done].
Qed.

(** A known block that is not the root is in the index. *)
Lemma known_block_indexed db r h rb hb id p b : wf_at db r h rb hb -> known_block db rb id p b ->
  id <> bs_id rb -> index db !! id = Some p.
Proof.
  intros W [Hg Hb Hid Hn Ha Hk] Hne. rewrite (get_block_header_wf _ _ _ _ _ _ W), bool_decide_false in Hg by congruence.
  congruence.
Qed.

Lemma same_number_not_root db r h rb hb b c p q : wf_at db r h rb hb ->
  known_block db rb (bs_id b) p b -> known_block db rb (bs_id c) q c ->
  bs_id b <> bs_id c -> bs_num b = bs_num c -> bs_id b <> bs_id rb.
Proof.
  intros W Kb Kc Hne Hn Er. destruct (kb_known _ _ _ _ _ Kc) as [Ec|[x Hx]]; [congruence|].
  pose proof (index_above_root _ _ _ _ (wf_forest _ _ _ _ _ W) Hx).
  pose proof (kb_num _ _ _ _ _ Kb). pose proof (kb_num _ _ _ _ _ Kc). congruence || (rewrite Er in *; lia).
Qed.

(** for two known blocks [fetch_branch_from] returns the two branches down
    to a common ancestor, the nearest one: the last blocks of the two branches,
    if there are both, are different children of it. *)
Theorem fetch_branch_from_spec db r h rb hb (first second : digest_type) :
  wf_at db r h rb hb -> known db rb first -> known db rb second ->
  exists l1 l2 ancestor, fetch_branch_from db first second = Ok (l1, l2)
    /\ chain db first l1 ancestor /\ chain db second l2 ancestor
    /\ (forall p q, last l1 = Some p -> last l2 = Some q -> p <> q).
Proof.
  intros W K1 K2. destruct (known_is_block _ _ _ _ _ _ W K1) as (p & b & Kb).
  destruct (known_is_block _ _ _ _ _ _ W K2) as (q & c & Kc).
  unfold fetch_branch_from, root_or_block. rewrite (kb_get _ _ _ _ _ Kb), (kb_get _ _ _ _ _ Kc). cbn.
  rewrite (deref_some _ _ _ (kb_heap _ _ _ _ _ Kc)). cbn.
  pose proof (kb_num _ _ _ _ _ Kb). pose proof (kb_num _ _ _ _ _ Kc).
  pose proof (kb_above _ _ _ _ _ Kb). pose proof (kb_above _ _ _ _ _ Kc).
  destruct (descend_known _ _ _ _ _ _ _ _ (bs_num c) W Kb ltac:(lia)) as (l1 & p1 & b1 & -> & Hch1 & K1' & Hn1). cbn.
  rewrite (deref_some _ _ _ (kb_heap _ _ _ _ _ K1')). cbn.
  destruct (descend_known _ _ _ _ _ _ _ _ (bs_num b1) W Kc ltac:(lia)) as (l2 & q1 & c1 & -> & Hch2 & K2' & Hn2). cbn.
  rewrite (deref_some _ _ _ (kb_heap _ _ _ _ _ K2')). cbn. assert (bs_num b1 = bs_num c1) as Hn by lia.
  destruct (bool_decide_reflect (bs_id b1 = bs_id c1)) as [E|E].
  - exists l1, l2, (bs_id b1). split_and!; [done|done|by rewrite E|]. intros x y Hx Hy. exfalso.
    apply (chain_num _ _ _ _ _ (wf_forest _ _ _ _ _ W)) in Hch1, Hch2.
    pose proof (kb_num _ _ _ _ _ K1'). pose proof (kb_num _ _ _ _ _ K2').
    destruct l1, l2; cbn [length] in *; try done. lia.
  - destruct (meet_chain db r h rb hb W (walk_fuel db (Some p1)) p1 q1 b1 c1 l1 l2)
      as (m1 & m2 & x & y & z & -> & Hm1 & Hm2 & Hxy).
    + eapply known_block_indexed; [done..|]. by eapply same_number_not_root.
    + by apply (kb_heap _ _ _ _ _ K1').
    + eapply known_block_indexed; [done..|]. eapply same_number_not_root; [done|exact K2'|exact K1'|congruence|congruence].
    + by apply (kb_heap _ _ _ _ _ K2').
    + done.
    + done.
    + unfold walk_fuel. rewrite (deref_some _ _ _ (kb_heap _ _ _ _ _ K1')). lia.
    + exists (l1 ++ m1 ++ [x]), (l2 ++ m2 ++ [y]), z. split_and!; [done|by eapply chain_app|by eapply chain_app|].
      intros u v. rewrite !app_assoc, !last_snoc. congruence.
Qed.
End Trees.

(** ** Removing a branch *)
Section Remove.
Context `{C : crypto} `{!crypto_laws C}.
Implicit Types (db : fork_database) (b : block_state) (id : digest_type) (p : positive) (R : gset digest_type).

Lemma elem_of_children db R id x : forest db R ->
  x ∈ children db id <-> exists p b, index db !! x = Some p /\ heap db !! p = Some b /\ bs_prev b = id.
Proof.
  intros F. unfold children. rewrite list_elem_of_fmap. split.
  - intros ([p b] & -> & Hin). apply list_elem_of_filter in Hin as [Hp Hin]. apply elem_of_blocks in Hin as [Hb [y Hy]].
    destruct (forest_block _ _ F _ _ Hy) as (b' & Hb' & <- & _). cbn in *. simplify_eq. eauto.
  - intros (p & b & Hi & Hb & Hp). destruct (forest_block _ _ F _ _ Hi) as (b' & Hb' & Hid & _). simplify_eq.
    exists (p, b). split; [done|]. apply list_elem_of_filter. split; [done|]. apply elem_of_blocks. eauto.
Qed.

Lemma blocks_ids db R : forest db R -> map (fun x => bs_id x.2) (blocks db) = (map_to_list (index db)).*1.
Proof.
  intros F. unfold blocks.
  assert (forall l, (forall ip, ip ∈ l -> index db !! ip.1 = Some ip.2) ->
    map (fun x => bs_id x.2) (omap (fun ip => (fun b => (ip.2, b)) <$> heap db !! ip.2) l) = l.*1) as H.
  { induction l as [|[i p] l IH]; intros Hl; [done|].
    destruct (forest_block _ _ F i p) as (b & Hb & Hid & _); [by apply (Hl (i, p)), list_elem_of_here|].
    cbn. rewrite Hb. cbn. rewrite Hid. f_equal. apply IH. intros ip Hip. apply Hl. by apply list_elem_of_further. }
  apply H. intros [i p] Hin. by apply elem_of_map_to_list in Hin.
Qed.

Lemma NoDup_map_filter {A B} (f : A -> B) (P : A -> Prop) `{!forall x, Decision (P x)} (l : list A) :
  NoDup (map f l) -> NoDup (map f (filter P l)).
Proof.
  induction l as [|x l IH]; cbn [map]; intros Hnd; [constructor|]. apply NoDup_cons in Hnd as [Hx Hnd].
  rewrite filter_cons. case_decide; [|auto]. cbn [map]. apply NoDup_cons. split; [|auto].
  intros Hin. apply Hx. apply list_elem_of_fmap in Hin as (y & -> & Hy). apply list_elem_of_filter in Hy as [_ Hy].
  by apply list_elem_of_fmap_2.
Qed.

Lemma children_NoDup db R id : forest db R -> NoDup (children db id).
Proof.
  intros F. unfold children. apply NoDup_map_filter. rewrite (blocks_ids _ _ F). apply NoDup_fst_map_to_list.
Qed.

(** The invariant of the queue: what was processed up to [i] has its children
    in the queue, and everything but the start came from a processed block. *)
Record queue_inv db (start : digest_type) (i : nat) (queue : list digest_type) : Prop := {
  qi_start : queue !! 0%nat = Some start;
  qi_nodup : NoDup queue;
  qi_from : forall x, x ∈ queue -> x = start \/ exists p b, index db !! x = Some p /\ heap db !! p = Some b /\ bs_prev b ∈ take i queue;
  qi_chain : forall x, x ∈ queue -> exists l, chain db x l start;
  qi_closed : forall q x, q ∈ take i queue -> x ∈ children db q -> x ∈ queue }.

Lemma queue_step db R start i queue q : forest db R -> queue_inv db start i queue -> queue !! i = Some q ->
  queue_inv db start (S i) (queue ++ children db q).
Proof.
  intros F [Hs Hnd Hfrom Hch Hcl] Hq.
  assert (take (S i) (queue ++ children db q) = take i queue ++ [q]) as Htake.
  { rewrite take_app_le by (apply lookup_lt_Some in Hq; lia). by apply take_S_r. }
  assert (forall x, x ∈ children db q -> exists p b, index db !! x = Some p /\ heap db !! p = Some b /\ bs_prev b = q) as Hkids
    by (intros x; by apply (elem_of_children _ _ _ _ F)).
  assert (q ∈ queue) as Hqin by (by eapply list_elem_of_lookup_2).
  split.
  - by apply lookup_app_l_Some.
  - apply NoDup_app. split; [done|]. split; [|by eapply children_NoDup]. intros x Hx Hx'.
    destruct (Hkids x Hx') as (p & b & Hi & Hb & Hp).
    destruct (Hfrom x Hx) as [->|(p' & b' & Hi' & Hb' & Hin)].
    + destruct (Hch q Hqin) as [l Hl].
      assert (chain db start (p :: l) start) as Hloop by (econstructor; [done..|by rewrite Hp]).
      apply (chain_num _ _ _ _ _ F) in Hloop. cbn in Hloop. lia.
    + simplify_eq. apply elem_of_take in Hin as (j & Hj & Hlt). pose proof (NoDup_lookup _ _ _ _ Hnd Hj Hq). lia.
  - rewrite Htake. intros x [Hx|Hx]%elem_of_app.
    + destruct (Hfrom x Hx) as [->|(p & b & Hi & Hb & Hin)]; [by left|]. right. exists p, b. set_solver.
    + destruct (Hkids x Hx) as (p & b & Hi & Hb & Hp). right. exists p, b. set_solver.
  - intros x [Hx|Hx]%elem_of_app; [auto|]. destruct (Hkids x Hx) as (p & b & Hi & Hb & Hp).
    destruct (Hch q Hqin) as [l Hl]. exists (p :: l). econstructor; [done..|by rewrite Hp].
  - rewrite Htake. intros y x [Hy|Hy]%elem_of_app Hx; [apply elem_of_app; left; by eapply Hcl|].
    apply list_elem_of_singleton in Hy as ->. apply elem_of_app. by right.
Qed.

Lemma queue_length db start i queue : queue_inv db start i queue -> (length queue <= S (size (index db)))%nat.
Proof.
  intros [_ Hnd Hfrom _ _]. rewrite <- (size_list_to_set (C := gset digest_type) queue Hnd).
  rewrite <- (size_dom (D := gset digest_type) (index db)).
  transitivity (size ({[start]} ∪ dom (index db) : gset digest_type)).
  - apply subseteq_size. intros x Hx%elem_of_list_to_set.
    destruct (Hfrom x Hx) as [->|(p & b & Hi & _)]; [set_solver|]. apply elem_of_union_r, elem_of_dom. eauto.
  - rewrite size_union_alt, size_singleton. apply le_n_S, subseteq_size. set_solver.
Qed.

Lemma queue_done db start i queue : queue_inv db start i queue -> (length queue <= i)%nat ->
  queue_inv db start (length queue) queue.
Proof.
  intros [H1 H2 H3 H4 H5] Hi. rewrite take_ge in H3, H5 by lia.
  split; [done..| |done|]; rewrite (take_ge queue (length queue)) by lia; done.
Qed.

Lemma remove_queue_loop db R head_id start fuel : forest db R -> forall i queue,
  queue_inv db start i queue -> head_id ∉ take i queue -> (S (size (index db)) <= i + fuel)%nat ->
  match remove_queue fuel db head_id i queue with
  | Ok q => queue_inv db start (length q) q /\ head_id ∉ q
  | Err e => e = fork_database_exception /\ exists l, chain db head_id l start
  end.
Proof.
  intros F. induction fuel as [|fuel IH]; intros i queue Hinv Hh Hf; pose proof (queue_length _ _ _ _ Hinv) as Hlen; cbn.
  - destruct (queue !! i) eqn:E; [apply lookup_lt_Some in E; lia|]. apply lookup_ge_None in E.
    rewrite take_ge in Hh by done. split; [by eapply queue_done|done].
  - destruct (queue !! i) as [q|] eqn:E.
    + destruct (bool_decide_reflect (q = head_id)) as [->|Hne]; cbn.
      * split; [done|]. apply (qi_chain _ _ _ _ Hinv). by eapply list_elem_of_lookup_2.
      * apply IH; [by eapply queue_step|..|lia].
        rewrite take_app_le by (apply lookup_lt_Some in E; lia). rewrite (take_S_r _ _ _ E). set_solver.
    + apply lookup_ge_None in E. rewrite take_ge in Hh by done. split; [by eapply queue_done|done].
Qed.

Lemma delete_all_lookup {A} (q : list digest_type) : forall (m : gmap digest_type A) x,
  fold_left (fun m id => delete id m) q m !! x = if bool_decide (x ∈ q) then None else m !! x.
Proof.
  induction q as [|y q IH]; intros m x; cbn; [done|]. rewrite IH.
  destruct (decide (x = y)) as [->|Hne].
  - rewrite (bool_decide_true (y ∈ y :: q)) by set_solver. case_bool_decide; [done|apply lookup_delete_eq].
  - rewrite lookup_delete_ne by done.
    rewrite (bool_decide_ext (x ∈ q) (x ∈ y :: q)) by set_solver. done.
Qed.

(** The blocks that build on [id], [id] included. *)
Definition descends db x id : Prop := exists l, chain db x l id.

Lemma closed_descends db R start q x : forest db R -> queue_inv db start (length q) q ->
  descends db x start -> x ∈ q.
Proof.
  intros F [Hs _ _ _ Hcl] [l Hl]. rewrite take_ge in Hcl by lia.
  induction Hl as [|y p b l z Hi Hb _ IH]; [by eapply list_elem_of_lookup_2|].
  eapply Hcl; [by apply IH|]. apply (elem_of_children _ _ _ _ F). eauto.
Qed.

Lemma remove_forest db R h hb id : forest db R -> head db = Some h -> heap db !! h = Some hb ->
  (descends db (bs_id hb) id /\ remove id db = (Err fork_database_exception, db))
  \/ (~ descends db (bs_id hb) id
      /\ exists idx, remove id db = (Ok tt, set_index idx db)
         /\ forall x, (descends db x id -> idx !! x = None) /\ (~ descends db x id -> idx !! x = index db !! x)).
Proof.
  intros F Hh Hhb.
  assert (queue_inv db id 0 [id]) as Hq0.
  { split; [done|by apply NoDup_singleton|set_solver| |set_solver].
    intros x ->%list_elem_of_singleton. exists []. constructor. }
  pose proof (remove_queue_loop db R (bs_id hb) id (S (size (index db))) F 0 [id] Hq0 ltac:(set_solver) ltac:(lia)) as Hloop.
  unfold remove. cbv [mbind M_bind get lift modify]. rewrite Hh, (deref_some _ _ _ Hhb).
  destruct (remove_queue _ _ _ _ _) as [q|e]; [right|left; by destruct Hloop as [-> Hc]].
  destruct Hloop as [Hinv Hnin].
  assert (forall x, x ∈ q <-> descends db x id) as Hiff.
  { intros x. split; [apply (qi_chain _ _ _ _ Hinv)|by apply closed_descends with R]. }
  split; [by rewrite <- Hiff|]. eexists. split; [done|]. intros x. rewrite delete_all_lookup, <- Hiff.
  split; intros Hx; [by rewrite bool_decide_true|by rewrite bool_decide_false].
Qed.

(** A sub-index that is closed under the blocks that build on the removed ones. *)
Lemma forest_remove db R id idx : forest db R ->
  (forall x, (descends db x id -> idx !! x = None) /\ (~ descends db x id -> idx !! x = index db !! x)) ->
  (forall x, descends db x id \/ ~ descends db x id) ->
  forest (set_index idx db) R /\ (forall x p b, idx !! x = Some p -> heap db !! p = Some b -> bs_prev b <> id).
Proof.
  intros F Hidx Hdec.
  assert (forall x p, idx !! x = Some p -> ~ descends db x id /\ index db !! x = Some p) as Hsub.
  { intros x p Hx. destruct (Hdec x) as [Hd|Hd]; [by rewrite (proj1 (Hidx x) Hd) in Hx|].
    by rewrite (proj2 (Hidx x) Hd) in Hx. }
  assert (forall x p b, idx !! x = Some p -> heap db !! p = Some b -> ~ descends db (bs_prev b) id) as Hprev.
  { intros x p b Hx Hb [l Hl]. destruct (Hsub x p Hx) as [Hn Hi]. apply Hn. exists (p :: l). by econstructor. }
  split.
  - split.
    + intros x p Hx. destruct (Hsub x p Hx) as [Hn Hi].
      destruct (forest_block _ _ F _ _ Hi) as (b & Hb & Hid & Hw & Hp). exists b. split_and!; try done.
      destruct Hp as [|Hp]; [by left|]. right. cbn. by rewrite (proj2 (Hidx _) (Hprev _ _ _ Hx Hb)).
    + intros x Hx. cbn. destruct (idx !! x) as [p|] eqn:E; [|done].
      destruct (Hsub x p E) as [_ Hi]. by rewrite (forest_roots _ _ F x Hx) in Hi.
  - intros x p b Hx Hb <-. apply (Hprev _ _ _ Hx Hb). exists []. constructor.
Qed.

(** Chains are finite walks of a function: having one to [id] is decidable. *)
Lemma descends_dec db R id x : forest db R -> descends db x id \/ ~ descends db x id.
Proof.
  intros F. remember (Z.to_nat (num_from_id x)) as n eqn:Hn. revert x Hn.
  induction n as [n IH] using lt_wf_ind. intros x Hn.
  destruct (decide (x = id)) as [->|Hne]; [left; exists []; constructor|].
  destruct (index db !! x) as [p|] eqn:Hi.
  2: { right. intros [l Hl]. inversion Hl; subst; congruence. }
  destruct (forest_block _ _ F _ _ Hi) as (b & Hb & Hid & [Hw1 Hw2] & _).
  destruct (IH (Z.to_nat (num_from_id (bs_prev b)))) with (x := bs_prev b) as [[l Hl]|Hd]; [|done|..].
  - pose proof (num_from_id_nonneg (bs_prev b)). subst. lia.
  - left. exists (p :: l). by econstructor.
  - right. intros [l Hl]. inversion Hl; subst; [done|]. simplify_eq. apply Hd. by eexists.
Qed.
End Remove.

(** ** Every operation keeps the invariant *)
Section Updates.
Context `{C : crypto} `{!crypto_laws C}.
Implicit Types (db : fork_database) (b : block_state) (id : digest_type) (p : positive) (R : gset digest_type).

(** What [begin()] of [by_lib_block_num] promises. *)
Lemma lib_begin_best db c cb : lib_begin db = Some (c, cb) ->
  (c, cb) ∈ blocks db
  /\ (forall p b, (p, b) ∈ blocks db -> validated b = true -> validated cb = true /\ first_preferred b cb = false).
Proof.
  intros H. pose proof (lib_begin_first db) as Hf. rewrite H in Hf. destruct Hf as [Hin Hmin]. split; [done|].
  intros p b Hb Hv. specialize (Hmin _ Hb). cbn in Hmin.
  destruct (validated cb) eqn:Ec.
  - split; [done|]. destruct (first_preferred b cb) eqn:E; [|done].
    rewrite (proj2 (lib_before_spec b cb)) in Hmin; [done|]. right. unfold is_valid. rewrite Hv, Ec. auto.
  - rewrite (proj2 (lib_before_spec b cb)) in Hmin; [done|]. left. done.
Qed.

Lemma lib_begin_some db p b : (p, b) ∈ blocks db -> exists c cb, lib_begin db = Some (c, cb).
Proof.
  intros Hin. pose proof (lib_begin_first db) as Hf. destruct (lib_begin db) as [[c cb]|]; [eauto|].
  cbn in Hf. rewrite Hf in Hin. set_solver.
Qed.

(** Heaps that differ in the [validated] flags only have the same trees. *)
Definition same_states (h h' : gmap positive block_state) : Prop :=
  forall p, bs_state <$> h !! p = bs_state <$> h' !! p.

Lemma same_states_lookup h h' p b : same_states h h' -> h !! p = Some b ->
  exists b', h' !! p = Some b' /\ bs_state b' = bs_state b.
Proof. intros Hs Hp. specialize (Hs p). rewrite Hp in Hs. destruct (h' !! p) as [b'|]; [|done]. cbn in Hs. injection Hs as Hs. eauto. Qed.

Lemma forest_same db db' R : index db' = index db ->
  (forall id p b, index db !! id = Some p -> heap db !! p = Some b -> exists b', heap db' !! p = Some b' /\ bs_state b' = bs_state b) ->
  forest db R -> forest db' R.
Proof.
  intros Ei Hh [Hb Hr]. split; rewrite Ei; [|done]. intros id p Hi.
  destruct (Hb id p Hi) as (b & Hp & <- & Hw & Hprev). destruct (Hh _ _ _ Hi Hp) as (b' & Hp' & Es).
  exists b'. unfold well_numbered, bs_id, bs_num, bs_prev in *. rewrite Es. done.
Qed.

Lemma first_preferred_same a b a' b' : bs_state a = bs_state a' -> bs_state b = bs_state b' ->
  first_preferred a b = first_preferred a' b'.
Proof. intros E1 E2. unfold first_preferred, bs_irreversible, bs_num. by rewrite E1, E2. Qed.

(** The head of the candidate rule of [add] and [mark_valid]. *)
Lemma wf_new_head db r rb c cb : root db = Some r -> heap db !! r = Some rb -> bs_num rb = num_from_id (bs_id rb) ->
  forest db {[bs_id rb]} -> lib_begin db = Some (c, cb) -> validated cb = true ->
  wf_at (set_head (Some c) db) r c rb cb.
Proof.
  intros Hr Hrb Hn F Hc Hv. destruct (lib_begin_best _ _ _ Hc) as [Hin Hbest].
  apply elem_of_blocks in Hin as [Hcb [x Hx]].
  destruct (forest_block _ _ F _ _ Hx) as (b & Hb & Hid & _). simplify_eq.
  split; cbn; [done|done|done| |right; done|].
  - eapply forest_same; [| |exact F]; [done|]. intros. eauto.
  - intros p b' Hin Hv'. refine (proj2 (Hbest p b' _ Hv')). apply elem_of_blocks in Hin. by apply elem_of_blocks.
Qed.

Lemma make_shared_wf db r h rb hb b : wf_at db r h rb hb -> wf_at (make_shared b db).2 r h rb hb.
Proof.
  intros [[Hr Hrb] [Hh Hhb] Hn F Hw Hbest]. unfold make_shared. set (p := fresh (dom (heap db))).
  assert (heap db !! p = None) as Hp by (apply not_elem_of_dom, is_fresh).
  assert (forall q c, heap db !! q = Some c -> <[p := b]> (heap db) !! q = Some c) as Hk.
  { intros q c Hq. rewrite lookup_insert_ne by congruence. done. }
  split; cbn; auto.
  - eapply forest_same; [| |exact F]; [done|]. intros id q c _ Hq. cbn. eauto.
  - intros q c Hin Hv. apply elem_of_blocks in Hin as [Hq [x Hx]]. cbn in Hq, Hx.
    destruct (forest_block _ _ F _ _ Hx) as (c' & Hc' & _). rewrite (Hk _ _ Hc') in Hq. simplify_eq.
    apply (Hbest q); [|done]. apply elem_of_blocks. eauto.
Qed.

Lemma reset_wf db bhs : bc_block_num (b_common bhs) = num_from_id (b_id bhs) ->
  exists db', reset bhs db = (Ok tt, db') /\ wf db' /\ index db' = ∅
    /\ bs_state <$> (root db' ≫= fun p => heap db' !! p) = Some bhs /\ head db' = root db'.
Proof.
  intros Hn. eexists. split; [reflexivity|]. set (p := fresh _). cbn.
  assert (<[p := mk_block_state bhs true]> (heap db) !! p = Some (mk_block_state bhs true)) as Hp by apply lookup_insert_eq.
  split_and!; [|done| |done].
  - exists p, p, (mk_block_state bhs true), (mk_block_state bhs true). split; cbn; [done|done|done| |by left|].
    + split; cbn; intros id; [intros q Hq; by rewrite lookup_empty in Hq|intros _; apply lookup_empty].
    + intros q c Hin. apply elem_of_blocks in Hin as [_ [x Hx]]. cbn in Hx. by rewrite lookup_empty in Hx.
  - cbn. rewrite Hp. done.
Qed.

(** ** [add] *)
Lemma add_forest db r h rb hb p nb : wf_at db r h rb hb -> heap db !! p = Some nb -> well_numbered nb ->
  known db rb (bs_prev nb) -> index db !! bs_id nb = None ->
  forest (set_index (<[bs_id nb := p]> (index db)) db) {[bs_id rb]}.
Proof.
  intros W Hp Hw Hk Hi. pose proof (wf_forest _ _ _ _ _ W) as F.
  assert (num_from_id (bs_id rb) <= num_from_id (bs_prev nb)) as Hge.
  { destruct Hk as [->|[q Hq]]; [lia|]. pose proof (index_above_root _ _ _ _ F Hq). lia. }
  assert (bs_id nb <> bs_id rb) as Hne by (destruct Hw as [H1 H2]; intros E; rewrite E in H1; lia).
  split; cbn.
  - intros id q Hq. destruct (decide (id = bs_id nb)) as [->|Hd].
    + rewrite lookup_insert_eq in Hq. injection Hq as <-. exists nb. split_and!; [done|done|done|].
      destruct Hk as [->|Hk]; [left; set_solver|right].
      destruct (decide (bs_prev nb = bs_id nb)) as [->|]; [by rewrite lookup_insert_eq|by rewrite lookup_insert_ne].
    + rewrite lookup_insert_ne in Hq by done. destruct (forest_block _ _ F _ _ Hq) as (b & Hb & Hid & Hwb & Hprev).
      exists b. split_and!; try done. destruct Hprev as [|Hs]; [by left|right].
      destruct (decide (bs_prev b = bs_id nb)) as [->|]; [by rewrite lookup_insert_eq|by rewrite lookup_insert_ne].
  - intros id ->%elem_of_singleton. rewrite lookup_insert_ne by done. apply (forest_roots _ _ F). set_solver.
Qed.

(** The outcome of [add] on a well-formed database. *)
Lemma add_cases db r h rb hb p nb dup : wf_at db r h rb hb -> heap db !! p = Some nb -> well_numbered nb ->
  (~ known db rb (bs_prev nb) /\ add (Some p) dup db = (Err unlinkable_block_exception, db))
  \/ (known db rb (bs_prev nb) /\ is_Some (index db !! bs_id nb)
      /\ add (Some p) dup db = (if dup then Ok tt else Err fork_database_exception, db))
  \/ (known db rb (bs_prev nb) /\ index db !! bs_id nb = None
      /\ exists h' hb', add (Some p) dup db = (Ok tt, mk_fork_database (heap db) (<[bs_id nb := p]> (index db)) (root db) (Some h'))
         /\ wf_at (mk_fork_database (heap db) (<[bs_id nb := p]> (index db)) (root db) (Some h')) r h' rb hb').
Proof.
  intros W Hp Hw. pose proof (get_block_header_wf _ _ _ _ _ (bs_prev nb) W) as Hg.
  destruct (wf_root _ _ _ _ _ W) as [Hr Hrb]. destruct (wf_head _ _ _ _ _ W) as [Hh Hhb].
  unfold add. cbv [mbind M_bind get lift modify massert].
  rewrite (bool_decide_true (root db <> None)), (bool_decide_true (Some p <> None)) by (rewrite ?Hr; done). cbn [eos_assert]. rewrite (deref_some _ _ _ Hp), Hg.
  set (db1 := set_index (<[bs_id nb := p]> (index db)) db).
  assert (known db rb (bs_prev nb) \/ ~ known db rb (bs_prev nb)) as [Hk|Hk].
  { unfold known. destruct (decide (bs_prev nb = bs_id rb)); [auto|].
    destruct (index db !! bs_prev nb) eqn:E; [left; right; eauto|right; intros [|[]]; done]. }
  2: { left. split; [done|]. rewrite (bool_decide_false (bs_id rb = bs_prev nb)) by (intros E; apply Hk; left; congruence).
       destruct (index db !! bs_prev nb) eqn:E; [exfalso; apply Hk; right; eauto|].
       by rewrite bool_decide_false by (intros HN; by apply HN). }
  right. rewrite bool_decide_true.
  2: { case_bool_decide; [done|]. destruct Hk as [|[q ->]]; done. }
  cbn [eos_assert]. destruct (index db !! bs_id nb) as [q|] eqn:Ei; [left|right].
  { split_and!; [done|eauto|]. by destruct dup. }
  split; [done|]. split; [done|]. pose proof (add_forest _ _ _ _ _ _ _ W Hp Hw Hk Ei) as F1. fold db1 in F1.
  assert ((p, nb) ∈ blocks db1) as Hin.
  { apply elem_of_blocks. split; [done|]. exists (bs_id nb). cbn. by rewrite lookup_insert_eq. }
  destruct (lib_begin_some _ _ _ Hin) as (c & cb & Hc). fold db1. rewrite Hc. unfold is_valid.
  destruct (lib_begin_best _ _ _ Hc) as [Hcin Hbest].
  assert (index db !! bs_id hb = Some h -> index db1 !! bs_id hb = Some h) as Hkeep.
  { intros Hx. cbn. rewrite lookup_insert_ne; [done|congruence]. }
  destruct (validated cb) eqn:Ev.
  - exists c, cb. split; [done|]. exact (wf_new_head db1 r rb c cb Hr Hrb (wf_root_num _ _ _ _ _ W) F1 Hc Ev).
  - exists h, hb. split; [unfold db1, set_index; by rewrite Hh|]. split; cbn; [done|done|by apply (wf_root_num _ _ _ _ _ W)| | |].
    + eapply forest_same; [| |exact F1]; [done|]. intros. eauto.
    + destruct (wf_where _ _ _ _ _ W) as [|[Hx Hv]]; [by left|right; split; [by apply Hkeep|done]].
    + intros x b Hx Hv. destruct (Hbest x b) as [Hcv _]; [|done|congruence].
      apply elem_of_blocks in Hx. by apply elem_of_blocks.
Qed.

(** ** [mark_valid] *)
Lemma set_validated_at db p v q b : alter (set_validated v) p (heap db) !! q = Some b ->
  exists b0, heap db !! q = Some b0 /\ bs_state b = bs_state b0 /\ (validated b = validated b0 \/ q = p /\ validated b = v).
Proof.
  destruct (decide (q = p)) as [->|Hne].
  - rewrite lookup_alter_eq. destruct (heap db !! p) as [b0|]; [|done]. cbn. intros [= <-]. exists b0. auto.
  - rewrite lookup_alter_ne by done. eauto.
Qed.

Lemma set_validated_keeps db p v q b0 : heap db !! q = Some b0 ->
  exists b, alter (set_validated v) p (heap db) !! q = Some b /\ bs_state b = bs_state b0
    /\ validated b = if decide (q = p) then v else validated b0.
Proof.
  intros Hq. destruct (decide (q = p)) as [->|Hne].
  - rewrite lookup_alter_eq, Hq. cbn. eauto.
  - rewrite lookup_alter_ne by done. eauto.
Qed.

Lemma mark_valid_cases db r h rb hb p b : wf_at db r h rb hb -> heap db !! p = Some b ->
  let db1 q := set_heap (alter (set_validated true) q (heap db)) db in
  (validated b = true /\ mark_valid p db = (Ok tt, db))
  \/ (validated b = false /\ index db !! bs_id b = None /\ mark_valid p db = (Err fork_database_exception, db))
  \/ (validated b = false /\ exists q, index db !! bs_id b = Some q
      /\ exists h' rb' hb', mark_valid p db = (Ok tt, set_head (Some h') (db1 q))
         /\ wf_at (set_head (Some h') (db1 q)) r h' rb' hb' /\ bs_state rb' = bs_state rb).
Proof.
  intros W Hb db1. destruct (wf_root _ _ _ _ _ W) as [Hr Hrb]. destruct (wf_head _ _ _ _ _ W) as [Hh Hhb].
  unfold mark_valid. cbv [mbind M_bind get lift modify]. rewrite (deref_some _ _ _ Hb).
  destruct (validated b) eqn:Ev; [left; done|]. right.
  destruct (index db !! bs_id b) as [q|] eqn:Ei; [right|left; done]. split; [done|]. exists q. split; [done|].
  fold (db1 q). destruct (forest_block _ _ (wf_forest _ _ _ _ _ W) _ _ Ei) as (qb & Hqb & _).
  destruct (set_validated_keeps db q true r rb Hrb) as (rb' & Hrb' & Er & _).
  destruct (set_validated_keeps db q true h hb Hhb) as (hb' & Hhb' & Eh & Evh).
  destruct (set_validated_keeps db q true q qb Hqb) as (qb' & Hqb' & _ & Evq). rewrite decide_True in Evq by done.
  assert (forest (db1 q) {[bs_id rb']}) as F1.
  { assert (bs_id rb' = bs_id rb) as -> by (unfold bs_id; by rewrite Er).
    eapply forest_same; [| |apply (wf_forest _ _ _ _ _ W)]; [done|]. intros id x c _ Hc.
    destruct (set_validated_keeps db q true x c Hc) as (c' & Hc' & Ec & _). eauto. }
  assert (bs_num rb' = num_from_id (bs_id rb')) as Hn1.
  { unfold bs_num, bs_id. rewrite Er. apply (wf_root_num _ _ _ _ _ W). }
  assert ((q, qb') ∈ blocks (db1 q)) as Hin by (apply elem_of_blocks; split; [done|eauto]).
  destruct (lib_begin_some _ _ _ Hin) as (c & cb & Hc). rewrite Hc.
  destruct (lib_begin_best _ _ _ Hc) as [Hcin Hbest].
  assert (validated cb = true) as Hcv by (by destruct (Hbest q qb' Hin Evq)).
  assert (head (db1 q) = Some h) as Hh1 by done. rewrite Hh1, (deref_some (db1 q) h hb' Hhb').
  destruct (first_preferred cb hb') eqn:Ef.
  - exists c, rb', cb. split; [done|]. split; [|done]. by apply wf_new_head.
  - exists h, rb', hb'. split; [unfold mret, M_ret; f_equal; unfold db1, set_head, set_heap; cbn; by rewrite Hh|]. split; [|done].
    split; cbn; [done|done|done| | |].
    + eapply forest_same; [| |exact F1]; [done|]. intros. eauto.
    + destruct (wf_where _ _ _ _ _ W) as [|[Hx Hv]]; [by left|right].
      unfold bs_id. rewrite Eh. split; [done|]. rewrite Evh. by case_decide.
    + intros x y Hy Hyv. apply first_preferred_trans with cb; [|done].
      refine (proj2 (Hbest x y _ Hyv)). apply elem_of_blocks in Hy. by apply elem_of_blocks.
Qed.

(** ** [rollback_head_to_root] *)
Lemma rollback_heap (l : list (digest_type * positive)) : forall (hp : gmap positive block_state) q,
  fold_left (fun h ip => alter (set_validated false) ip.2 h) l hp !! q
  = (if bool_decide (q ∈ l.*2) then set_validated false else fun b => b) <$> hp !! q.
Proof.
  induction l as [|[i p] l IH]; intros hp q; cbn [fold_left].
  { rewrite bool_decide_false by set_solver. by destruct (hp !! q). }
  rewrite IH. cbn. destruct (decide (q = p)) as [->|Hne].
  - rewrite lookup_alter_eq, (bool_decide_true (p ∈ p :: _)) by set_solver.
    destruct (hp !! p) as [b|]; [|done]. cbn. by case_bool_decide.
  - rewrite lookup_alter_ne by done.
    rewrite (bool_decide_ext (q ∈ l.*2) (q ∈ p :: l.*2)) by set_solver. done.
Qed.

Lemma rollback_wf db r h rb hb : wf_at db r h rb hb ->
  exists db' rb', rollback_head_to_root db = (Ok tt, db') /\ wf_at db' r r rb' rb' /\ bs_state rb' = bs_state rb
    /\ index db' = index db /\ (forall p b, (p, b) ∈ blocks db' -> validated b = false).
Proof.
  intros W. destruct (wf_root _ _ _ _ _ W) as [Hr Hrb]. eexists.
  assert (forall q b, heap db !! q = Some b -> exists b', fold_left (fun h ip => alter (set_validated false) ip.2 h)
            (map_to_list (index db)) (heap db) !! q = Some b' /\ bs_state b' = bs_state b
            /\ ((exists id, index db !! id = Some q) -> validated b' = false)) as Hk.
  { intros q b Hq. rewrite rollback_heap, Hq. eexists. split; [done|]. case_bool_decide as Hin; (split; [done|]); [done|].
    intros [id Hid]. exfalso. apply Hin. apply list_elem_of_fmap. exists (id, q). split; [done|]. by apply elem_of_map_to_list. }
  destruct (Hk r rb Hrb) as (rb' & Hrb' & Er & _). exists rb'. split; [reflexivity|].
  match goal with |- wf_at ?d _ _ _ _ /\ _ => set (db' := d) end.
  assert (forall p b, (p, b) ∈ blocks db' -> validated b = false) as Hall.
  { intros p b Hin. apply elem_of_blocks in Hin as [Hb Hi]. cbn in Hb, Hi. destruct Hi as [id Hid].
    destruct (forest_block _ _ (wf_forest _ _ _ _ _ W) _ _ Hid) as (b0 & Hb0 & _).
    destruct (Hk p b0 Hb0) as (b' & Hb' & _ & Hv). simplify_eq. eauto. }
  split_and!; [|done|done|done]. split; cbn; [done|done| | |by left|].
  - unfold bs_num, bs_id. rewrite Er. apply (wf_root_num _ _ _ _ _ W).
  - assert (bs_id rb' = bs_id rb) as -> by (unfold bs_id; by rewrite Er).
    eapply forest_same; [| |apply (wf_forest _ _ _ _ _ W)]; [done|]. intros id x c _ Hc.
    destruct (Hk x c Hc) as (c' & Hc' & Ec & _). eauto.
  - intros p b Hin Hv. apply Hall in Hin. congruence.
Qed.

(** ** [remove] *)
Lemma remove_wf db r h rb hb idx id : wf_at db r h rb hb -> ~ descends db (bs_id hb) id ->
  (forall x, (descends db x id -> idx !! x = None) /\ (~ descends db x id -> idx !! x = index db !! x)) ->
  wf_at (set_index idx db) r h rb hb.
Proof.
  intros W Hh Hidx. pose proof (wf_forest _ _ _ _ _ W) as F.
  destruct (forest_remove db _ id idx F Hidx (fun x => descends_dec db _ id x F)) as [F' _].
  split; cbn; [apply (wf_root _ _ _ _ _ W)|apply (wf_head _ _ _ _ _ W)|apply (wf_root_num _ _ _ _ _ W)|exact F'| |].
  - destruct (wf_where _ _ _ _ _ W) as [|[Hx Hv]]; [by left|right]. by rewrite (proj2 (Hidx _) Hh).
  - intros p b Hin Hv. apply (wf_best _ _ _ _ _ W p); [|done]. apply elem_of_blocks in Hin as [Hb [x Hx]]. cbn in Hb, Hx.
    apply elem_of_blocks. split; [done|]. exists x.
    destruct (descends_dec db _ id x F) as [Hd|Hd]; [by rewrite (proj1 (Hidx x) Hd) in Hx|by rewrite <- (proj2 (Hidx x) Hd)].
Qed.
End Updates.

(** ** [advance_root] *)
Section Advance.
Context `{C : crypto} `{!crypto_laws C}.
Implicit Types (db : fork_database) (b : block_state) (id : digest_type) (p : positive) (R : gset digest_type).

Lemma chain_larger db db' x l z : heap db' = heap db ->
  (forall y q, index db !! y = Some q -> index db' !! y = Some q) -> chain db x l z -> chain db' x l z.
Proof. intros Eh Hsub. induction 1; [constructor|]. econstructor; [by apply Hsub|by rewrite Eh|done]. Qed.

Lemma descends_any_dec db R (ids : list digest_type) x : forest db R ->
  (exists a, a ∈ ids /\ descends db x a) \/ ~ (exists a, a ∈ ids /\ descends db x a).
Proof.
  intros F. induction ids as [|id ids [(a & Ha & Hd)|Hno]]; [right; set_solver|left; exists a; set_solver|].
  destruct (descends_dec db R id x F) as [Hd|Hd]; [left; exists id; set_solver|right].
  intros (a & [->|Ha]%elem_of_cons & Hda); [done|]. eauto.
Qed.

(** Removing several blocks with their descendants. *)
Definition removes_all db (ids : list digest_type) (idx : gmap digest_type positive) : Prop :=
  forall x, ((exists a, a ∈ ids /\ descends db x a) -> idx !! x = None)
            /\ (~ (exists a, a ∈ ids /\ descends db x a) -> idx !! x = index db !! x).

Lemma remove_all_forest (h : positive) hb ids : forall db R, forest db R -> head db = Some h -> heap db !! h = Some hb ->
  ((exists a, a ∈ ids /\ descends db (bs_id hb) a)
   /\ exists idx, remove_all ids db = (Err fork_database_exception, set_index idx db))
  \/ (~ (exists a, a ∈ ids /\ descends db (bs_id hb) a)
      /\ exists idx, remove_all ids db = (Ok tt, set_index idx db) /\ forest (set_index idx db) R /\ removes_all db ids idx).
Proof.
  induction ids as [|id ids IH]; intros db R F Hh Hhb; cbn [remove_all].
  { right. split; [set_solver|]. exists (index db). split; [by destruct db|]. split; [by destruct db|].
    intros x. split; [set_solver|done]. }
  cbv [mbind M_bind].
  destruct (remove_forest db R h hb id F Hh Hhb) as [[Hd ->]|[Hd (idx & -> & Hidx)]].
  { left. split; [exists id; set_solver|]. exists (index db). by destruct db. }
  destruct (forest_remove db R id idx F Hidx (fun x => descends_dec db R id x F)) as [F1 _].
  set (db1 := set_index idx db) in *.
  assert (forall x a, descends db1 x a -> descends db x a) as Hup.
  { intros x a [l Hl]. exists l. eapply chain_larger; [..|exact Hl]; [done|]. intros y q Hy. cbn in Hy.
    destruct (descends_dec db R id y F) as [Hy'|Hy']; [by rewrite (proj1 (Hidx y) Hy') in Hy|by rewrite <- (proj2 (Hidx y) Hy')]. }
  assert (forall x a, ~ descends db x id -> descends db x a -> descends db1 x a) as Hdown.
  { intros x a Hx [l Hl]. exists l. revert Hx. induction Hl as [|y p b l z Hi Hb Hc IHc]; intros Hx; [constructor|].
    econstructor; [|exact Hb|].
    - cbn. by rewrite (proj2 (Hidx y) Hx).
    - apply IHc. intros [k Hk]. apply Hx. exists (p :: k). by econstructor. }
  destruct (IH db1 R F1 Hh Hhb) as [[(a & Ha & Hda) (idx2 & ->)]|[Hno (idx2 & -> & F2 & Hidx2)]].
  - left. split; [exists a; split; [set_solver|by apply Hup]|]. by exists idx2.
  - right. split.
    { intros (a & [->|Ha]%elem_of_cons & Hda); [done|]. apply Hno. exists a. split; [done|by apply Hdown]. }
    exists idx2. split; [done|]. split; [exact F2|]. intros x.
    destruct (descends_any_dec db1 R ids x F1) as [Hx1|Hx1].
    + rewrite (proj1 (Hidx2 x) Hx1). split; [done|]. intros Hx. exfalso. apply Hx.
      destruct Hx1 as (a & Ha & Hda). exists a. split; [set_solver|by apply Hup].
    + rewrite (proj2 (Hidx2 x) Hx1). cbn. destruct (descends_dec db R id x F) as [Hx|Hx].
      * rewrite (proj1 (Hidx x) Hx). split; [done|]. intros Hno'. exfalso. apply Hno'. exists id. set_solver.
      * rewrite (proj2 (Hidx x) Hx). split; [|done]. intros (a & [->|Ha]%elem_of_cons & Hda); [done|].
        exfalso. apply Hx1. exists a. split; [done|by apply Hdown].
Qed.

(** The ids collected: the root and proper ancestors only. *)
Lemma ancestors_loop_chain db R r_id : forest db R -> index db !! r_id = None -> forall l b fuel,
  chain db (bs_prev b) l r_id -> (length l < fuel)%nat ->
  exists ids, ancestors_loop fuel db b r_id = Ok ids /\ r_id ∈ (ids : list digest_type) /\ (forall a, a ∈ ids -> descends db (bs_prev b) a).
Proof.
  intros F Hr l. induction l as [|p l IH]; intros b fuel Hc Hf; (destruct fuel as [|fuel]; [lia|]); cbn; inversion Hc as [|? p' b0 l' ? Hi Hb Hc']; subst.
  - unfold get_block. rewrite Hr. rewrite bool_decide_true by done. cbn. exists [bs_prev b].
    split_and!; [done|set_solver|]. intros a ->%list_elem_of_singleton. exists []. constructor.
  - unfold get_block. rewrite Hi, (deref_some _ _ _ Hb). cbn.
    destruct (IH b0 fuel) as (ids & -> & Hin & Hall); [done|cbn in *; lia|]. cbn. exists (bs_prev b :: ids).
    split_and!; [done|set_solver|]. intros a [->|Ha]%elem_of_cons; [exists []; constructor|].
    destruct (Hall a Ha) as [k Hk]. exists (p :: k). by econstructor.
Qed.

(** The index without the new root: its children stand on a second root. *)
Lemma forest_detach db r_id id p : forest db {[r_id]} -> index db !! id = Some p ->
  forest (set_index (delete id (index db)) db) {[r_id; id]}.
Proof.
  intros F Hi. split; cbn.
  - intros x q Hx. apply lookup_delete_Some in Hx as [Hne Hx].
    destruct (forest_block _ _ F _ _ Hx) as (b & Hb & Hid & Hw & Hp). exists b. split_and!; try done.
    destruct Hp as [Hp|Hp]; [left; set_solver|]. destruct (decide (bs_prev b = id)) as [->|]; [left; set_solver|right].
    by rewrite lookup_delete_ne by congruence.
  - intros x Hx. apply elem_of_union in Hx as [->%elem_of_singleton| ->%elem_of_singleton]; [|apply lookup_delete_eq].
    destruct (decide (id = r_id)) as [->|]; [apply lookup_delete_eq|]. rewrite lookup_delete_ne by done.
    apply (forest_roots _ _ F). set_solver.
Qed.

(** A descendant of [id] does not reach the proper ancestors of [id] once
    [id] is out of the index. *)
Lemma detached_no_ancestor db R id p b x a : forest db R -> index db !! id = Some p -> heap db !! p = Some b ->
  descends db x id -> descends db (bs_prev b) a -> ~ descends (set_index (delete id (index db)) db) x a.
Proof.
  intros F Hi Hb [l Hl] [m Hm] [k Hk]. set (db0 := set_index _ db) in *.
  assert (chain db x k a) as Hk'.
  { eapply (chain_larger db0 db); [done| |exact Hk]. intros y q Hy. cbn in Hy. by apply lookup_delete_Some in Hy as [_ ?]. }
  destruct (forest_block _ _ F _ _ Hi) as (b' & Hb' & Hid & [Hw1 Hw2] & _). simplify_eq.
  apply (chain_num _ _ _ _ _ F) in Hm as Hnm. apply (chain_num _ _ _ _ _ F) in Hl as Hnl.
  apply (chain_num _ _ _ _ _ F) in Hk' as Hnk.
  assert (length l < length k)%nat as Hlen by lia. clear Hnm Hnl Hnk Hm.
  clear Hk'. revert k Hk Hlen. induction Hl as [y|y q c l z Hy Hc Hch IH]; intros k Hk Hlen.
  - inversion Hk as [|? q c k' ? Hq _ _]; subst; cbn in Hlen; [lia|]. cbn in Hq. by rewrite lookup_delete_eq in Hq.
  - inversion Hk as [|? q' c' k' ? Hq Hc' Hch']; subst; cbn in Hlen; [lia|].
    cbn in Hq, Hc'. apply lookup_delete_Some in Hq as [_ Hq]. simplify_eq. eapply IH; [done..|lia].
Qed.

(** What is left of the detached index: the proper descendants of [id]. *)
Lemma detached_content db r_id id ids idx x q :
  let db0 := set_index (delete id (index db)) db in
  forest db0 {[r_id; id]} -> r_id ∈ (ids : list digest_type) -> forest (set_index idx db0) {[r_id; id]} ->
  removes_all db0 ids idx -> (forall x, descends db x id -> ~ (exists a, a ∈ ids /\ descends db0 x a)) ->
  idx !! x = Some q <-> index db !! x = Some q /\ x <> id /\ descends db x id.
Proof.
  intros db0 F0 Hr F1 Hidx Hkeep. split.
  - intros Hx. destruct (descends_any_dec db0 _ ids x F0) as [Hd|Hd]; [by rewrite (proj1 (Hidx x) Hd) in Hx|].
    assert (index db0 !! x = Some q) as Hx0 by (by rewrite <- (proj2 (Hidx x) Hd)).
    cbn in Hx0. apply lookup_delete_Some in Hx0 as [Hne Hx0]. split_and!; [done|done|].
    assert (forall y w, idx !! y = Some w -> index db0 !! y = Some w) as Hsub.
    { intros y w Hy. destruct (descends_any_dec db0 _ ids y F0) as [Hyd|Hyd];
        [by rewrite (proj1 (Hidx y) Hyd) in Hy|by rewrite <- (proj2 (Hidx y) Hyd)]. }
    destruct (forest_chain _ _ F1 x q Hx) as (l & z & Hc & Hz).
    apply (chain_larger _ db0) in Hc; [|done|done].
    apply elem_of_union in Hz as [->%elem_of_singleton| ->%elem_of_singleton].
    + exfalso. apply Hd. exists r_id. split; [done|by eexists].
    + exists (q :: l). eapply chain_larger; [..|exact Hc]; [done|]. intros y w Hy. cbn in Hy.
      by apply lookup_delete_Some in Hy as [_ ?].
  - intros (Hx & Hne & Hd). rewrite (proj2 (Hidx x) (Hkeep x Hd)). cbn. by rewrite lookup_delete_ne.
Qed.

Lemma detached_forest db r_id id ids idx :
  let db0 := set_index (delete id (index db)) db in
  forest db0 {[r_id; id]} -> r_id ∈ (ids : list digest_type) -> forest (set_index idx db0) {[r_id; id]} ->
  removes_all db0 ids idx -> forest (set_index idx db0) {[id]}.
Proof.
  intros db0 F0 Hr F1 Hidx. split.
  - intros x q Hx. destruct (forest_block _ _ F1 _ _ Hx) as (b & Hb & Hid & Hw & Hp). exists b. split_and!; try done.
    destruct Hp as [Hp|Hp]; [|by right]. apply elem_of_union in Hp as [Hp|Hp]; [exfalso|by left].
    apply elem_of_singleton in Hp. cbn in Hx.
    assert (~ (exists a, a ∈ ids /\ descends db0 x a)) as Hno.
    { intros Hd. by rewrite (proj1 (Hidx x) Hd) in Hx. }
    apply Hno. exists r_id. split; [done|]. exists [q]. econstructor; [|exact Hb|rewrite Hp; constructor].
    by rewrite <- (proj2 (Hidx x) Hno).
  - intros y ->%elem_of_singleton. apply (forest_roots _ _ F1). set_solver.
Qed.

Lemma advance_cases db r h rb hb id p nb : wf_at db r h rb hb -> index db !! id = Some p -> heap db !! p = Some nb ->
  validated nb = true ->
  (descends db (bs_id hb) id
   /\ exists idx, advance_root id db = (Ok tt, mk_fork_database (heap db) idx (Some p) (Some h))
      /\ wf_at (mk_fork_database (heap db) idx (Some p) (Some h)) p h nb hb
      /\ (forall x q, idx !! x = Some q <-> index db !! x = Some q /\ x <> id /\ descends db x id))
  \/ (~ descends db (bs_id hb) id /\ exists db', advance_root id db = (Err fork_database_exception, db')).
Proof.
  intros W Hi Hnb Hv. pose proof (wf_forest _ _ _ _ _ W) as F.
  destruct (wf_root _ _ _ _ _ W) as [Hr Hrb]. destruct (wf_head _ _ _ _ _ W) as [Hh Hhb].
  destruct (forest_block _ _ F _ _ Hi) as (b' & Hb' & Hid & Hwn & Hprev). simplify_eq.
  assert (index db !! bs_id rb = None) as Hnr by (apply (forest_roots _ _ F); set_solver).
  destruct (forest_chain _ _ F _ _ Hi) as (l & z & Hc & Hz). apply elem_of_singleton in Hz as ->.
  pose proof (walk_fuel_enough _ _ _ _ _ _ F Hc) as Hfuel.
  inversion Hc as [|? q0 b0 l0 z0 Hi0 Hb0 Hc0]; subst. simplify_eq.
  destruct (ancestors_loop_chain db _ (bs_id rb) F Hnr l nb (walk_fuel db (Some p)) Hc0 ltac:(cbn in Hfuel; lia))
    as (ids & Hids & Hrin & Hanc).
  pose proof (forest_detach db (bs_id rb) _ p F Hi) as F0. set (db0 := set_index (delete (bs_id nb) (index db)) db) in *.
  assert (advance_root (bs_id nb) db = (remove_all ids ;; modify (set_root (Some p))) db0) as ->.
  { assert (get_block db (bs_id nb) = Some p) as Hg by done.
    unfold advance_root. cbv [mbind M_bind get lift modify massert]. rewrite !Hg.
    rewrite (bool_decide_true (root db <> None)), (bool_decide_true (Some p <> None)) by (rewrite ?Hr; done). cbn [eos_assert].
    rewrite (deref_some _ _ _ Hnb). unfold is_valid. rewrite Hv. cbn [eos_assert]. rewrite Hr, (deref_some _ _ _ Hrb).
    by rewrite Hids. }
  destruct (remove_all_forest h hb ids db0 _ F0 Hh Hhb) as [[(a & Ha & Hda) (idx & Hrm)]|[Hno (idx & Hrm & F1 & Hidx)]].
  - right. split; [|eexists; cbv [mbind M_bind]; by rewrite Hrm].
    intros Hd. by apply (detached_no_ancestor db _ _ p nb _ a F Hi Hnb Hd (Hanc a Ha)).
  - left. assert (exists l', chain db (bs_id nb) l' (bs_id rb)) as Hnbr by eauto.
    assert (forall x, descends db x (bs_id nb) -> ~ (exists a, a ∈ ids /\ descends db0 x a)) as Hkeep.
    { intros x Hd (a & Ha & Hda). by apply (detached_no_ancestor db _ _ p nb x a F Hi Hnb Hd (Hanc a Ha)). }
    assert (forall x q, idx !! x = Some q <-> index db !! x = Some q /\ x <> bs_id nb /\ descends db x (bs_id nb)) as Hcontent
      by (intros x q; exact (detached_content db (bs_id rb) (bs_id nb) ids idx x q F0 Hrin F1 Hidx Hkeep)).
    assert (descends db (bs_id hb) (bs_id nb)) as Hhead.
    { destruct (decide (bs_id hb = bs_id nb)) as [->|Hne]; [exists []; constructor|].
      destruct (wf_where _ _ _ _ _ W) as [->|[Hx _]].
      - exfalso. apply Hno. exists (bs_id rb). simplify_eq. split; [done|]. exists []. constructor.
      - destruct (proj1 (Hcontent (bs_id hb) h)) as (_ & _ & Hd); [|exact Hd]. rewrite (proj2 (Hidx _) Hno). cbn. by rewrite lookup_delete_ne by congruence. }
    split; [done|]. exists idx. split; [|split; [|done]].
    + cbv [mbind M_bind modify]. rewrite Hrm. unfold set_root, set_index, db0. cbn. by rewrite Hh.
    + split; cbn; [done|done|by apply Hwn| | |].
      * by eapply forest_same; [| |eapply (detached_forest db (bs_id rb) (bs_id nb) ids idx)]; eauto.
      * destruct (decide (bs_id hb = bs_id nb)) as [E|Hne].
        { left. destruct (wf_where _ _ _ _ _ W) as [->|[Hx _]]; [|congruence]. simplify_eq. congruence. }
        right. destruct (wf_where _ _ _ _ _ W) as [->|[Hx Hxv]]; [|split; [by apply Hcontent|done]].
        destruct Hhead as [k Hk]. simplify_eq. inversion Hk; congruence.
      * intros x b Hin Hbv. apply (wf_best _ _ _ _ _ W x); [|done]. apply elem_of_blocks in Hin as [Hb [y Hy]].
        cbn in Hb, Hy. apply elem_of_blocks. split; [done|]. exists y. by apply Hcontent.
Qed.
End Advance.

(** ** Properties *)
Section Claims.
Context `{C : crypto} `{!crypto_laws C}.
Implicit Types (db : fork_database) (b : block_state) (id : digest_type) (p : positive).

(** The steps of a fork database and its clients: objects are created, blocks
    (numbered like the ones [block_header_state::next] makes) are added, marked
    valid and removed, the head is rolled back and the root advances. *)
Inductive fork_step : fork_database -> fork_database -> Prop :=
| step_make_shared db b : fork_step db (make_shared b db).2
| step_reset db bhs : bc_block_num (b_common bhs) = num_from_id (b_id bhs) -> fork_step db (reset bhs db).2
| step_add db p b dup : heap db !! p = Some b -> well_numbered b -> fork_step db (add (Some p) dup db).2
| step_mark_valid db p b : heap db !! p = Some b -> fork_step db (mark_valid p db).2
| step_rollback db : fork_step db (rollback_head_to_root db).2
| step_remove db id : fork_step db (remove id db).2
| step_advance db id db' : advance_root id db = (Ok tt, db') -> fork_step db db'.

Lemma remove_cases db r h rb hb id : wf_at db r h rb hb ->
  (descends db (bs_id hb) id /\ remove id db = (Err fork_database_exception, db))
  \/ (~ descends db (bs_id hb) id
      /\ exists idx, remove id db = (Ok tt, set_index idx db) /\ wf_at (set_index idx db) r h rb hb
         /\ forall x, (descends db x id -> idx !! x = None) /\ (~ descends db x id -> idx !! x = index db !! x)).
Proof.
  intros W. destruct (wf_head _ _ _ _ _ W) as [Hh Hhb].
  destruct (remove_forest db _ h hb id (wf_forest _ _ _ _ _ W) Hh Hhb) as [|[Hd (idx & Hr & Hidx)]]; [by left|right].
  split; [done|]. exists idx. split_and!; [done| |done]. by apply remove_wf with id.
Qed.

Lemma advance_ok db r h rb hb id db' : wf_at db r h rb hb -> advance_root id db = (Ok tt, db') ->
  exists p b, index db !! id = Some p /\ heap db !! p = Some b /\ validated b = true.
Proof.
  intros W H. unfold advance_root in H. cbv [mbind M_bind get lift modify massert] in H.
  destruct (bool_decide (root db <> None)); [|done]. cbn [eos_assert] in H. unfold get_block in H.
  destruct (index db !! id) as [p|] eqn:E.
  2: { rewrite bool_decide_false in H by (intros HN; by apply HN). done. }
  destruct (forest_block _ _ (wf_forest _ _ _ _ _ W) _ _ E) as (b & Hb & _).
  rewrite bool_decide_true in H by done. cbn [eos_assert] in H. rewrite (deref_some _ _ _ Hb) in H.
  exists p, b. split_and!; [done|done|]. unfold is_valid in H. by destruct (validated b).
Qed.

Lemma fork_step_wf db db' : wf db -> fork_step db db' -> wf db'.
Proof.
  intros (r & h & rb & hb & W) H. destruct H as [db b|db bhs Hn|db p b dup Hp Hw|db p b Hp|db|db id|db id db' Ha].
  - exists r, h, rb, hb. by apply make_shared_wf.
  - destruct (reset_wf db bhs Hn) as (db' & -> & Hwf & _). done.
  - destruct (add_cases _ _ _ _ _ _ _ dup W Hp Hw) as [[_ ->]|[(_ & _ & ->)|(_ & _ & h' & hb' & -> & W')]];
      [by exists r, h, rb, hb..|by exists r, h', rb, hb'].
  - destruct (mark_valid_cases _ _ _ _ _ _ _ W Hp) as [[_ ->]|[(_ & _ & ->)|(_ & q & _ & h' & rb' & hb' & -> & W' & _)]];
      [by exists r, h, rb, hb..|by exists r, h', rb', hb'].
  - destruct (rollback_wf _ _ _ _ _ W) as (db' & rb' & -> & W' & _). by exists r, r, rb', rb'.
  - destruct (remove_cases _ _ _ _ _ id W) as [[_ ->]|[_ (idx & -> & W' & _)]]; by exists r, h, rb, hb.
  - destruct (advance_ok _ _ _ _ _ _ _ W Ha) as (p & b & Hi & Hb & Hv).
    destruct (advance_cases _ _ _ _ _ _ _ _ W Hi Hb Hv) as [[_ (idx & E & W' & _)]|[_ [db1 E]]]; rewrite E in Ha; [|done].
    injection Ha as <-. by exists p, h, b, hb.
Qed.

Lemma fork_steps_wf db db' : wf db -> rtc fork_step db db' -> wf db'.
Proof. intros W H. induction H as [|x y z Hxy _ IH]; [done|]. apply IH. by eapply fork_step_wf. Qed.

(** C18: the invariant of the fork database holds in every state reachable
    from a reset: its blocks form a tree above the root, numbered upwards, the
    head is the root or a validated block of the tree, and no validated block is
    preferred to it (a higher irreversible block, or the same and a higher
    number). *)
Theorem fork_database_invariant (bhs : block_header_state) db :
  bc_block_num (b_common bhs) = num_from_id (b_id bhs) ->
  rtc fork_step (reset bhs fork_database_empty).2 db -> wf db.
Proof.
  intros Hn. apply fork_steps_wf. by destruct (reset_wf fork_database_empty bhs Hn) as (db' & -> & Hwf & _).
Qed.

(** [add] throws [unlinkable_block_exception] for a block whose previous
    block is not known, ignores or refuses a duplicate, changing nothing, and
    otherwise inserts the block; the head is then a best validated block. *)
Theorem add_spec db r h rb hb p b (ignore_duplicate : bool) :
  wf_at db r h rb hb -> heap db !! p = Some b -> well_numbered b ->
  (~ known db rb (bs_prev b) -> add (Some p) ignore_duplicate db = (Err unlinkable_block_exception, db))
  /\ (known db rb (bs_prev b) -> is_Some (index db !! bs_id b) ->
      add (Some p) ignore_duplicate db = (if ignore_duplicate then Ok tt else Err fork_database_exception, db))
  /\ (known db rb (bs_prev b) -> index db !! bs_id b = None ->
      exists db', add (Some p) ignore_duplicate db = (Ok tt, db') /\ wf db' /\ root db' = root db
        /\ heap db' = heap db /\ index db' = <[bs_id b := p]> (index db)).
Proof.
  intros W Hp Hw.
  destruct (add_cases _ _ _ _ _ _ _ ignore_duplicate W Hp Hw) as [[Hk ->]|[(Hk & Hi & ->)|(Hk & Hi & h' & hb' & -> & W')]];
    (split; [intros Hk'; done|]); (split; [intros Hk' Hs; try done; destruct Hs; congruence|]);
    intros Hk' Hs; [done|destruct Hi; congruence|].
  eexists. split; [reflexivity|]. split_and!; [by exists r, h', rb, hb'|done..].
Qed.

(** [remove] erases a block and everything that builds on it, and nothing
    else; when the head would be erased it throws and changes nothing.  Its queue
    always ends. *)
Theorem remove_spec db r h rb hb id :
  wf_at db r h rb hb ->
  (descends db (bs_id hb) id -> remove id db = (Err fork_database_exception, db))
  /\ (~ descends db (bs_id hb) id ->
      exists idx, remove id db = (Ok tt, set_index idx db) /\ wf (set_index idx db)
        /\ forall x, (descends db x id -> idx !! x = None) /\ (~ descends db x id -> idx !! x = index db !! x)).
Proof.
  intros W. destruct (remove_cases _ _ _ _ _ id W) as [[Hd ->]|[Hd (idx & -> & W' & Hidx)]]; (split; intros Hd'; try done).
  exists idx. split_and!; [done|by exists r, h, rb, hb|done].
Qed.

(** [advance_root] to a validated block succeeds exactly when the head
    builds on that block; the block becomes the root, the head stays, and the
    blocks that remain are exactly the ones that build on the new root. *)
Theorem advance_root_spec db r h rb hb id p b :
  wf_at db r h rb hb -> index db !! id = Some p -> heap db !! p = Some b -> validated b = true ->
  (descends db (bs_id hb) id ->
   exists db', advance_root id db = (Ok tt, db') /\ wf db' /\ root db' = Some p /\ head db' = Some h
     /\ (forall x q, index db' !! x = Some q <-> index db !! x = Some q /\ x <> id /\ descends db x id))
  /\ (~ descends db (bs_id hb) id -> (advance_root id db).1 = Err fork_database_exception).
Proof.
  intros W Hi Hb Hv.
  destruct (advance_cases _ _ _ _ _ _ _ _ W Hi Hb Hv) as [[Hd (idx & -> & W' & Hidx)]|[Hd [db' ->]]]; (split; intros Hd'; try done).
  eexists. split; [reflexivity|]. split_and!; [by exists p, h, b, hb|done..].
Qed.

(** [pending_head] is a best block of the whole database, validated or
    not; it is the head unless a block that is not validated is preferred. *)
Theorem pending_head_spec db r h rb hb :
  wf_at db r h rb hb ->
  exists p b, pending_head db = Ok (Some p) /\ heap db !! p = Some b
    /\ first_preferred hb b = false
    /\ (forall q c, (q, c) ∈ blocks db -> first_preferred c b = false)
    /\ (p = h \/ validated b = false /\ first_preferred b hb = true).
Proof.
  intros W. destruct (wf_head _ _ _ _ _ W) as [Hh Hhb]. unfold pending_head.
  pose proof (pick_first_spec (filter (fun x => is_valid x.2 = false) (blocks db)) [] None eq_refl) as Hf. cbn [app] in Hf.
  fold (lib_lower_bound_false db) in Hf.
  assert (forall x, first_preferred x x = false) as Hirr by (intros; apply first_preferred_false; lia).
  assert (forall q c, (q, c) ∈ blocks db -> is_valid c = false -> (q, c) ∈ filter (fun x => is_valid x.2 = false) (blocks db)) as Hfil.
  { intros q c Hin Hv. by apply list_elem_of_filter. }
  destruct (lib_lower_bound_false db) as [[p b]|].
  - destruct Hf as [Hin Hmin]. apply list_elem_of_filter in Hin as [Hv Hin]. cbn in Hv.
    assert (forall q c, (q, c) ∈ blocks db -> validated c = false -> first_preferred c b = false) as Hbest.
    { intros q c Hq Hcv. specialize (Hmin _ (Hfil _ _ Hq Hcv)). cbn in Hmin. destruct (first_preferred c b) eqn:E; [|done].
      rewrite (proj2 (lib_before_spec c b)) in Hmin; [done|]. right. unfold is_valid in *. rewrite Hcv, Hv. auto. }
    rewrite Hh, (deref_some _ _ _ Hhb). cbn. destruct (first_preferred b hb) eqn:E.
    + exists p, b. apply elem_of_blocks in Hin as [Hb _]. split_and!; [done|done| | |by right].
      * apply first_preferred_false. apply first_preferred_spec in E. lia.
      * intros q c Hq. destruct (validated c) eqn:Ec; [|by eapply Hbest].
        pose proof (wf_best _ _ _ _ _ W q c Hq Ec) as Hc. apply first_preferred_trans with hb; [done|].
        apply first_preferred_false. apply first_preferred_spec in E. lia.
    + exists h, hb. split_and!; [done|done|apply Hirr| |by left]. intros q c Hq.
      destruct (validated c) eqn:Ec; [by apply (wf_best _ _ _ _ _ W q)|].
      apply first_preferred_trans with b; [by eapply Hbest|done].
  - exists h, hb. rewrite Hh. split_and!; [done|done|apply Hirr| |by left]. intros q c Hq.
    destruct (validated c) eqn:Ec; [by apply (wf_best _ _ _ _ _ W q)|]. specialize (Hfil q c Hq Ec). cbn in Hf.
    rewrite Hf in Hfil. set_solver.
Qed.

(** a block state that [block_header_state::next] makes from a header
    builds on its predecessor, with the next number, which its id carries: it can
    be added to a fork database. *)
Theorem accepted_block_well_numbered (s s' : block_header_state) (sh : signed_block_header)
    (extra : list signature_type) (skip v : bool) :
  bc_block_num (b_common s) = num_from_id (b_id s) -> bc_block_num (b_common s) < UINT32_MAX ->
  next_header s sh extra skip = Ok s' ->
  well_numbered (mk_block_state s' v) /\ bs_prev (mk_block_state s' v) = b_id s.
Proof.
  intros Hn Hmax H. unfold next_header in H. apply res_bind_ok in H as (p & Hp & H).
  destruct (next_inv _ _ _ _ Hp) as (pa & counts & R). pose proof (nr_num _ _ _ _ _ _ R) as Hnum.
  pose proof (nr_previous _ _ _ _ _ _ R) as Hprev. clear R Hp.
  unfold finish_next in H. apply res_bind_ok in H as (r & Hr & H). apply res_bind_ok in H as ([] & _ & H). injection H as <-.
  unfold _finish_next in Hr. repeat (apply res_bind_ok in Hr as (? & ? & Hr)). injection Hr as <-.
  repeat match goal with Hd : eos_assert (bool_decide _) _ = Ok ?u |- _ => destruct u; apply eos_assert_ok, bool_decide_eq_true in Hd end.
  assert (previous (sh_header sh) = b_id s) as Ep by congruence.
  pose proof (num_from_id_nonneg (b_id s)) as Hnn.
  rewrite u32_id in Hnum by (widths; lia).
  assert (num_from_id (header_id (sh_header sh)) = num_from_id (b_id s) + 1) as Hid.
  { rewrite num_from_header_id. unfold block_num. rewrite Ep, u32_id; [done|widths; lia]. }
  destruct (length extra =? 0)%nat; cbn;
    (split; [unfold well_numbered, bs_num, bs_id, bs_prev; cbn; rewrite Ep, Hid; lia|exact Ep]).
Qed.
End Claims.

(** ** A concrete database

    Above the root (block 1) two forks: A (2), A2 (3) and B (2); all of them
    are validated, so A2 is the head.  D (3) builds on B and is not validated. *)
Definition demo_block_id (num salt : Z) : digest_type := mk_digest (demo_reverse num) salt 6 7.

Definition demo_block_state (num salt : Z) (prev : digest_type) : block_state :=
  mk_block_state (mk_bhs (mk_common num 0 0 demo_producers incremental_merkle_empty ∅ ∅ (bsa_v0 (mk_bsa 0 [])) [] false None)
    (demo_block_id num salt) (mk_signed (mk_block_header num 1 0 prev demo_id demo_id 0 [] false None) 0)
    (mk_schedule_info 0 (mk_digest 0 0 0 0) (mk_schedule 0 [])) [] []) false.

Definition demo_A := demo_block_state 2 10 (demo_block_id 1 5).
Definition demo_A2 := demo_block_state 3 11 (demo_block_id 2 10).
Definition demo_B := demo_block_state 2 20 (demo_block_id 1 5).
Definition demo_D := demo_block_state 3 21 (demo_block_id 2 20).

(** Creating a block at the next address, adding it and marking it valid. *)
Definition add_new (p : positive) (b : block_state) (valid : bool) (db : fork_database) : fork_database :=
  let db1 := (make_shared b db).2 in
  let db2 := (add (Some p) false db1).2 in
  if valid then (mark_valid p db2).2 else db2.

Lemma add_new_steps p b valid db : fresh (dom (heap db)) = p -> well_numbered b ->
  heap (add (Some p) false (make_shared b db).2).2 !! p = Some b -> rtc fork_step db (add_new p b valid db).
Proof.
  intros <- Hw Hb. unfold add_new. eapply rtc_l; [apply (step_make_shared db b)|].
  eapply rtc_l; [eapply (step_add _ _ b false); [apply lookup_insert_eq|done]|].
  destruct valid; [|done]. apply rtc_once. by eapply step_mark_valid.
Qed.

Definition demo_db1 : fork_database := add_new 2 demo_A true (reset demo_state fork_database_empty).2.
Definition demo_db2 : fork_database := add_new 3 demo_A2 true demo_db1.
Definition demo_db3 : fork_database := add_new 4 demo_B true demo_db2.
Definition demo_db : fork_database := add_new 5 demo_D false demo_db3.

Lemma demo_db_reachable : rtc fork_step (reset demo_state fork_database_empty).2 demo_db.
Proof.
  transitivity demo_db1; [apply add_new_steps; [reflexivity|split; reflexivity|reflexivity]|].
  transitivity demo_db2; [apply add_new_steps; [reflexivity|split; reflexivity|reflexivity]|].
  transitivity demo_db3; [apply add_new_steps; [reflexivity|split; reflexivity|reflexivity]|].
  apply add_new_steps; [reflexivity|split; reflexivity|reflexivity].
Qed.

Lemma fork_database_invariant_witness : wf demo_db.
Proof. apply (fork_database_invariant demo_state); [vm_compute; reflexivity|exact demo_db_reachable]. Defined.

Lemma id_at (db : fork_database) (o : option positive) (p : positive) (b : block_state) (id : digest_type) :
  o = Some p -> heap db !! p = Some b -> bs_id <$> (o ≫= fun p => heap db !! p) = Some id -> bs_id b = id.
Proof. intros -> Hb H. cbn in H. rewrite Hb in H. by injection H. Qed.

Lemma demo_db_wf : exists r h rb hb, wf_at demo_db r h rb hb /\ heap demo_db !! r = Some rb /\ bs_id rb = demo_block_id 1 5
  /\ heap demo_db !! h = Some hb /\ bs_id hb = demo_block_id 3 11.
Proof.
  assert (wf demo_db) as (r & h & rb & hb & W).
  { eapply fork_steps_wf; [|exact demo_db_reachable].
    destruct (reset_wf fork_database_empty demo_state eq_refl) as (db' & -> & Hwf & _). exact Hwf. }
  exists r, h, rb, hb. destruct (wf_root _ _ _ _ _ W) as [Hr Hrb]. destruct (wf_head _ _ _ _ _ W) as [Hh Hhb].
  split; [exact W|]. split; [exact Hrb|]. split; [|split; [exact Hhb|]].
  - apply (id_at demo_db (root demo_db) r rb); [exact Hr|exact Hrb|vm_compute; reflexivity].
  - apply (id_at demo_db (head demo_db) h hb); [exact Hh|exact Hhb|vm_compute; reflexivity].
Qed.

Lemma demo_index : index demo_db !! demo_block_id 2 10 = Some 2%positive /\ index demo_db !! demo_block_id 3 11 = Some 3%positive
  /\ index demo_db !! demo_block_id 2 20 = Some 4%positive /\ index demo_db !! demo_block_id 3 21 = Some 5%positive.
Proof. split_and!; vm_compute; reflexivity. Qed.

(** What the heap holds at an address: number, id, previous id and flag. *)
Lemma demo_heap p x : (fun b => (bs_num b, bs_id b, bs_prev b, validated b)) <$> heap demo_db !! p = Some x ->
  exists b, heap demo_db !! p = Some b /\ bs_num b = x.1.1.1 /\ bs_id b = x.1.1.2 /\ bs_prev b = x.1.2 /\ validated b = x.2.
Proof. intros H. apply fmap_Some in H as (b & Hb & ->). eauto 10. Qed.

(** The head A2 builds on A. *)
Lemma demo_head_on_A : descends demo_db (demo_block_id 3 11) (demo_block_id 2 10).
Proof.
  destruct (demo_heap 3 (3, demo_block_id 3 11, demo_block_id 2 10, true)) as (b & Hb & _ & _ & Hp & _); [vm_compute; reflexivity|].
  exists [3%positive]. apply (chain_cons _ _ _ b); [apply demo_index|exact Hb|rewrite Hp; apply chain_nil].
Qed.

Lemma fetch_branch_spec_witness :
  exists l z, chain demo_db (demo_block_id 3 21) l z /\ fetch_branch demo_db (demo_block_id 3 21) 2 = Ok (filter (fun p => num_at demo_db p <= 2) l).
Proof.
  destruct demo_db_wf as (r & h & rb & hb & W & _). pose proof (fetch_branch_spec demo_db r h rb hb (demo_block_id 3 21) W) as H.
  rewrite (proj2 (proj2 (proj2 demo_index))) in H. destruct H as (l & Hc & _ & Hf & _). exists l, (bs_id rb). split; [exact Hc|exact (Hf 2)].
Defined.

Lemma fetch_branch_from_spec_witness :
  exists l1 l2 z, fetch_branch_from demo_db (demo_block_id 3 11) (demo_block_id 2 20) = Ok (l1, l2)
    /\ chain demo_db (demo_block_id 3 11) l1 z /\ chain demo_db (demo_block_id 2 20) l2 z.
Proof.
  destruct demo_db_wf as (r & h & rb & hb & W & _).
  destruct (fetch_branch_from_spec demo_db r h rb hb (demo_block_id 3 11) (demo_block_id 2 20) W) as (l1 & l2 & z & H1 & H2 & H3 & _).
  - right. eexists. apply demo_index.
  - right. eexists. apply demo_index.
  - exists l1, l2, z. split_and!; assumption.
Defined.

Lemma add_spec_witness : add (Some 4%positive) true demo_db = (Ok tt, demo_db).
Proof.
  destruct demo_db_wf as (r & h & rb & hb & W & _ & Er & _).
  destruct (demo_heap 4 (2, demo_block_id 2 20, demo_block_id 1 5, true)) as (b & Hb & Hn & Hi & Hp & _); [vm_compute; reflexivity|].
  apply (add_spec demo_db r h rb hb 4 b true W Hb).
  - unfold well_numbered. rewrite Hn, Hi, Hp. split; vm_compute; reflexivity.
  - left. rewrite Hp. symmetry. exact Er.
  - rewrite Hi. eexists. apply demo_index.
Defined.

Lemma remove_spec_witness : remove (demo_block_id 2 10) demo_db = (Err fork_database_exception, demo_db).
Proof.
  destruct demo_db_wf as (r & h & rb & hb & W & _ & _ & _ & Eh).
  apply (remove_spec demo_db r h rb hb (demo_block_id 2 10) W). rewrite Eh. exact demo_head_on_A.
Defined.

Lemma advance_root_spec_witness : exists db', advance_root (demo_block_id 2 10) demo_db = (Ok tt, db') /\ root db' = Some 2%positive.
Proof.
  destruct demo_db_wf as (r & h & rb & hb & W & _ & _ & _ & Eh).
  destruct (demo_heap 2 (2, demo_block_id 2 10, demo_block_id 1 5, true)) as (b & Hb & _ & _ & _ & Hv); [vm_compute; reflexivity|].
  destruct (advance_root_spec demo_db r h rb hb (demo_block_id 2 10) 2 b W (proj1 demo_index) Hb Hv) as [H _].
  destruct H as (db' & H1 & _ & H2 & _); [rewrite Eh; exact demo_head_on_A|]. exists db'. split; assumption.
Defined.

Lemma pending_head_spec_witness : exists p, pending_head demo_db = Ok (Some p).
Proof.
  destruct demo_db_wf as (r & h & rb & hb & W & _). destruct (pending_head_spec demo_db r h rb hb W) as (p & b & H & _).
  exists p. exact H.
Defined.

Definition demo_accepted : block_header_state := ok_or demo_state (next_header demo_state demo_block.2 [] true).

Lemma accepted_block_well_numbered_witness : well_numbered (mk_block_state demo_accepted false).
Proof.
  apply (accepted_block_well_numbered demo_state demo_accepted demo_block.2 [] true false);
    [vm_compute; reflexivity|vm_compute; reflexivity|apply ok_or_eq; vm_compute; reflexivity].
Defined.
