(* ===== verification/UnappliedQueue.v ===== *)
(** * The queue of unapplied transactions ([unapplied_transaction_queue.hpp])

    Transactions of aborted and forked blocks and persisted ones wait for the
    next block.  The multi-index container is a map from transaction ids to
    entries with the orders of its two ordered indices: by type (persisted
    first) and by expiry, both in insertion order among equal keys.  The
    theorems show that the three indices stay consistent and what the queue
    hands out, expires and keeps. *)

From S2P Require Import Prelude.

Section Queue.
Context {Id : Type} `{Countable Id}.
(** [transaction_metadata]: its id and the expiration of its packed transaction. *)
Context {Meta : Type} (meta_id : Meta -> Id) (expiration : Meta -> Z).

Inductive trx_enum_type : Type := unknown | persisted | forked | aborted.

Definition trx_enum_value (t : trx_enum_type) : Z :=
  match t with unknown => 0 | persisted => 1 | forked => 2 | aborted => 3 end.

#[global] Instance trx_enum_type_eq_dec : EqDecision trx_enum_type.
Proof. solve_decision. Defined.

Record unapplied_transaction : Type := mk_unapplied {
  trx_meta : Meta;
  expiry : Z;
  trx_type : trx_enum_type }.

Inductive process_mode : Type := non_speculative | speculative_non_producer | speculative_producer.

#[global] Instance process_mode_eq_dec : EqDecision process_mode.
Proof. solve_decision. Defined.

Record unapplied_transaction_queue : Type := mk_queue {
  by_trx_id : gmap Id unapplied_transaction;
  by_type : list Id;
  by_expiry : list Id;
  mode : process_mode }.

Definition queue_new : unapplied_transaction_queue := mk_queue ∅ [] [] speculative_producer.

Implicit Types (q : unapplied_transaction_queue) (u : unapplied_transaction).

(** The keys of the two ordered indices. *)
Definition type_key (m : gmap Id unapplied_transaction) (id : Id) : Z :=
  match m !! id with Some u => trx_enum_value (trx_type u) | None => 0 end.
Definition expiry_key (m : gmap Id unapplied_transaction) (id : Id) : Z :=
  match m !! id with Some u => expiry u | None => 0 end.

(** Insertion at the upper bound of the key. *)
Fixpoint insert_upper (key : Id -> Z) (id : Id) (l : list Id) : list Id :=
  match l with
  | [] => [id]
  | x :: l => if key id <? key x then id :: x :: l else x :: insert_upper key id l
  end.

Definition remove_id (id : Id) (l : list Id) : list Id := filter (fun x => x <> id) l.

(** [multi_index_container::insert], [erase] of an id, and [modify] of a type:
    an entry whose key changed is put at the upper bound of the new one. *)
Definition queue_insert (u : unapplied_transaction) q : unapplied_transaction_queue :=
  let id := meta_id (trx_meta u) in
  match by_trx_id q !! id with
  | Some _ => q
  | None =>
      let m := <[id := u]> (by_trx_id q) in
      mk_queue m (insert_upper (type_key m) id (by_type q)) (insert_upper (expiry_key m) id (by_expiry q)) (mode q)
  end.

Definition queue_erase (id : Id) q : unapplied_transaction_queue :=
  mk_queue (delete id (by_trx_id q)) (remove_id id (by_type q)) (remove_id id (by_expiry q)) (mode q).

Definition queue_set_type (id : Id) (t : trx_enum_type) q : unapplied_transaction_queue :=
  match by_trx_id q !! id with
  | None => q
  | Some u =>
      let m := <[id := mk_unapplied (trx_meta u) (expiry u) t]> (by_trx_id q) in
      mk_queue m (insert_upper (type_key m) id (remove_id id (by_type q))) (by_expiry q) (mode q)
  end.

(** ** The operations *)
Definition empty q : bool := match by_type q with [] => true | _ => false end.
Definition queue_size q : nat := length (by_type q).
Definition clear q : unapplied_transaction_queue := mk_queue ∅ [] [] (mode q).

(** [FC_ASSERT] throws [fc::assert_exception]. *)
Definition set_mode (new_mode : process_mode) : M unapplied_transaction_queue unit :=
  q ← get;
  (if bool_decide (new_mode <> mode q) then massert (empty q) assert_exception else mret tt);;
  modify (fun q => mk_queue (by_trx_id q) (by_type q) (by_expiry q) new_mode).

Definition contains_persisted q : bool :=
  existsb (fun id => type_key (by_trx_id q) id =? trx_enum_value persisted) (by_type q).

Definition is_persisted (trx : Meta) q : bool :=
  match by_trx_id q !! meta_id trx with
  | None => false
  | Some u => bool_decide (trx_type u = persisted)
  end.

Definition get_trx (id : Id) q : option Meta :=
  match by_trx_id q !! id with Some u => Some (trx_meta u) | None => None end.

(** [clear_expired]: [now i] is the clock at its [i]-th reading; the result
    collects what the callback was called with. *)
Fixpoint clear_expired_loop (pending_block_time deadline : Z) (now : nat -> Z) (i : nat) (l : list Id)
    (m : gmap Id unapplied_transaction) (called : list (Id * trx_enum_type)) : bool * list (Id * trx_enum_type) :=
  match l with
  | [] => (true, called)
  | id :: l =>
      match m !! id with
      | None => (true, called)
      | Some u =>
          if expiry u <=? pending_block_time then
            if deadline <=? now i then (false, called)
            else clear_expired_loop pending_block_time deadline now (S i) l m (called ++ [(id, trx_type u)])
          else (true, called)
      end
  end.

Definition clear_expired (pending_block_time deadline : Z) (now : nat -> Z) q
    : bool * list (Id * trx_enum_type) * unapplied_transaction_queue :=
  let '(done, called) := clear_expired_loop pending_block_time deadline now 0 (by_expiry q) (by_trx_id q) [] in
  (done, called, fold_left (fun q c => queue_erase c.1 q) called q).

(** A receipt of a block holds a packed transaction or only an id. *)
Inductive receipt : Type := receipt_id (id : Id) | receipt_packed (id : Id).

Definition clear_applied (receipts : list receipt) q : unapplied_transaction_queue :=
  if empty q then q
  else fold_left (fun q r =>
    match r with
    | receipt_id _ => q
    | receipt_packed id =>
        match by_trx_id q !! id with
        | Some u => if bool_decide (trx_type u = persisted) then q else queue_erase id q
        | None => q
        end
    end) receipts q.

Definition insert_as (t : trx_enum_type) (q : unapplied_transaction_queue) (trx : Meta) : unapplied_transaction_queue :=
  queue_insert (mk_unapplied trx (expiration trx) t) q.

(** A block of the branch is the list of its transactions; the branch comes
    with its newest block first. *)
Definition add_forked (forked_branch : list (list Meta)) q : unapplied_transaction_queue :=
  match mode q with
  | speculative_producer => fold_left (fun q block => fold_left (insert_as forked) block q) (rev forked_branch) q
  | _ => q
  end.

Definition add_aborted (aborted_trxs : list Meta) q : unapplied_transaction_queue :=
  match mode q with
  | speculative_producer => fold_left (insert_as aborted) aborted_trxs q
  | _ => q
  end.

Definition add_persisted (trx : Meta) q : unapplied_transaction_queue :=
  match mode q with
  | non_speculative => q
  | _ =>
      match by_trx_id q !! meta_id trx with
      | None => insert_as persisted q trx
      | Some u => if bool_decide (trx_type u <> persisted) then queue_set_type (meta_id trx) persisted q else q
      end
  end.

(** The ranges [begin, end) and [persisted_begin, persisted_end), and [erase]
    of an iterator, which gives the entry after it. *)
Definition all_trxs q : list Id := by_type q.
Definition persisted_trxs q : list Id :=
  filter (fun id => type_key (by_trx_id q) id = trx_enum_value persisted) (by_type q).

Fixpoint next_after (id : Id) (l : list Id) : option Id :=
  match l with
  | [] => None
  | x :: l => if decide (x = id) then head l else next_after id l
  end.

Definition erase (id : Id) q : option Id * unapplied_transaction_queue :=
  (next_after id (by_type q), queue_erase id q).
End Queue.

(** ** Consistency of the indices *)
Section Invariant.
Context {Id : Type} `{Countable Id} {Meta : Type} (meta_id : Meta -> Id) (expiration : Meta -> Z).
Implicit Types (q : unapplied_transaction_queue (Id := Id) (Meta := Meta)).
Implicit Types (m : gmap Id (unapplied_transaction (Meta := Meta))) (l : list Id).

Definition key_sorted (key : Id -> Z) l : Prop := StronglySorted (fun x y => key x <= key y) l.

Record queue_ok q : Prop := {
  qo_type_nodup : NoDup (by_type q);
  qo_expiry_nodup : NoDup (by_expiry q);
  qo_type : forall id, id ∈ by_type q <-> is_Some (by_trx_id q !! id);
  qo_expiry : forall id, id ∈ by_expiry q <-> is_Some (by_trx_id q !! id);
  qo_type_sorted : key_sorted (type_key (by_trx_id q)) (by_type q);
  qo_expiry_sorted : key_sorted (expiry_key (by_trx_id q)) (by_expiry q);
  qo_entry : forall id u, by_trx_id q !! id = Some u ->
    meta_id (trx_meta u) = id /\ expiry u = expiration (trx_meta u) /\ trx_type u <> unknown }.

(** *** The ordered indices *)
Lemma insert_upper_perm key (id : Id) l : insert_upper key id l ≡ₚ id :: l.
Proof.
  induction l as [|x l IH]; [done|]. cbn. destruct (key id <? key x); [done|]. rewrite IH. apply Permutation_swap.
Qed.

Lemma elem_of_insert_upper key (id x : Id) l : x ∈ insert_upper key id l <-> x = id \/ x ∈ l.
Proof. by rewrite insert_upper_perm, elem_of_cons. Qed.

Lemma insert_upper_sorted key (id : Id) l : key_sorted key l -> key_sorted key (insert_upper key id l).
Proof.
  unfold key_sorted. induction 1 as [|x l Hs IH Hf]; cbn; [by repeat constructor|].
  destruct (key id <? key x) eqn:E; btests.
  - constructor; [by constructor|]. constructor; [lia|]. eapply Forall_impl; [exact Hf|]. intros y Hy. cbn in *. lia.
  - constructor; [done|]. rewrite insert_upper_perm. by constructor.
Qed.

Lemma key_sorted_ext (key key' : Id -> Z) l :
  (forall x, x ∈ l -> key x = key' x) -> key_sorted key l -> key_sorted key' l.
Proof.
  unfold key_sorted. intros He Hs. induction Hs as [|x l Hs IH Hf]; constructor.
  - apply IH. intros y Hy. apply He. by apply elem_of_cons; right.
  - rewrite Forall_forall in Hf |- *. intros y Hy. rewrite <- !He by (apply elem_of_cons; auto). by apply Hf.
Qed.

Lemma remove_id_sorted key (id : Id) l : key_sorted key l -> key_sorted key (remove_id id l).
Proof.
  unfold key_sorted, remove_id. induction 1 as [|x l Hs IH Hf]; [constructor|]. rewrite filter_cons.
  case_decide; [|done]. constructor; [done|]. rewrite Forall_forall in Hf |- *.
  intros y [_ Hy]%list_elem_of_filter. by apply Hf.
Qed.

Lemma elem_of_remove_id (id x : Id) l : x ∈ remove_id id l <-> x <> id /\ x ∈ l.
Proof. unfold remove_id. by rewrite list_elem_of_filter. Qed.

Lemma NoDup_insert_upper key (id : Id) l : id ∉ l -> NoDup l -> NoDup (insert_upper key id l).
Proof. intros Hn Hd. rewrite insert_upper_perm. by constructor. Qed.

Lemma NoDup_remove_id (id : Id) l : NoDup l -> NoDup (remove_id id l).
Proof. apply NoDup_filter. Qed.

(** The keys of other ids do not change with an entry. *)
Lemma type_key_other m id u x : x <> id -> type_key (<[id := u]> m) x = type_key m x.
Proof. intros Hne. unfold type_key. by rewrite lookup_insert_ne. Qed.
Lemma expiry_key_other m id u x : x <> id -> expiry_key (<[id := u]> m) x = expiry_key m x.
Proof. intros Hne. unfold expiry_key. by rewrite lookup_insert_ne. Qed.

(** *** The basic changes keep the queue consistent *)
Lemma queue_insert_ok u q : queue_ok q -> expiry u = expiration (trx_meta u) -> trx_type u <> unknown ->
  queue_ok (queue_insert meta_id u q).
Proof.
  intros Hok Hexp Htype. unfold queue_insert. set (id := meta_id (trx_meta u)).
  destruct (by_trx_id q !! id) as [v|] eqn:E; [done|]. destruct Hok as [H1 H2 H3 H4 H5 H6 H7].
  assert (Hnt : id ∉ by_type q) by (rewrite H3, E; by intros []).
  assert (Hne : id ∉ by_expiry q) by (rewrite H4, E; by intros []).
  split; cbn.
  - by apply NoDup_insert_upper.
  - by apply NoDup_insert_upper.
  - intros x. rewrite elem_of_insert_upper, H3, lookup_insert_is_Some. destruct (decide (id = x)); naive_solver.
  - intros x. rewrite elem_of_insert_upper, H4, lookup_insert_is_Some. destruct (decide (id = x)); naive_solver.
  - apply insert_upper_sorted. eapply key_sorted_ext; [|exact H5]. intros x Hx. rewrite type_key_other; [done|congruence].
  - apply insert_upper_sorted. eapply key_sorted_ext; [|exact H6]. intros x Hx. rewrite expiry_key_other; [done|congruence].
  - intros x v. rewrite lookup_insert. case_decide; [|apply H7]. subst. by intros [= <-].
Qed.

Lemma queue_erase_ok id q : queue_ok q -> queue_ok (queue_erase id q).
Proof.
  intros [H1 H2 H3 H4 H5 H6 H7]. split; cbn.
  - by apply NoDup_remove_id.
  - by apply NoDup_remove_id.
  - intros x. rewrite elem_of_remove_id, H3, lookup_delete_is_Some. naive_solver.
  - intros x. rewrite elem_of_remove_id, H4, lookup_delete_is_Some. naive_solver.
  - eapply key_sorted_ext; [|by apply remove_id_sorted, H5]. intros x [Hx _]%elem_of_remove_id.
    unfold type_key. by rewrite lookup_delete_ne.
  - eapply key_sorted_ext; [|by apply remove_id_sorted, H6]. intros x [Hx _]%elem_of_remove_id.
    unfold expiry_key. by rewrite lookup_delete_ne.
  - intros x v [_ Hx]%lookup_delete_Some. by apply H7.
Qed.

Lemma queue_set_type_ok id t q : queue_ok q -> t <> unknown -> queue_ok (queue_set_type id t q).
Proof.
  intros Hok Ht. unfold queue_set_type. destruct (by_trx_id q !! id) as [u|] eqn:E; [|done].
  destruct Hok as [H1 H2 H3 H4 H5 H6 H7]. destruct (H7 id u E) as (Hid & Hexp & _). split; cbn.
  - apply NoDup_insert_upper; [|by apply NoDup_remove_id]. rewrite elem_of_remove_id. naive_solver.
  - done.
  - intros x. rewrite elem_of_insert_upper, elem_of_remove_id, H3, lookup_insert_is_Some.
    destruct (decide (id = x)) as [->|]; naive_solver.
  - intros x. rewrite H4, lookup_insert_is_Some. destruct (decide (id = x)) as [->|]; naive_solver.
  - apply insert_upper_sorted. eapply key_sorted_ext; [|by apply remove_id_sorted, H5].
    intros x [Hx _]%elem_of_remove_id. by rewrite type_key_other.
  - eapply key_sorted_ext; [|exact H6]. intros x _. unfold expiry_key. rewrite lookup_insert.
    case_decide; [|done]. subst. by rewrite E.
  - intros x v. rewrite lookup_insert. case_decide; [|apply H7]. subst. by intros [= <-].
Qed.

Lemma insert_as_ok t q trx : queue_ok q -> t <> unknown -> queue_ok (insert_as meta_id expiration t q trx).
Proof. intros. by apply queue_insert_ok. Qed.

Lemma insert_all_ok t trxs : forall q, queue_ok q -> t <> unknown ->
  queue_ok (fold_left (insert_as meta_id expiration t) trxs q).
Proof. induction trxs as [|trx trxs IH]; intros q Hq Ht; [done|]. cbn. apply IH; [|done]. by apply insert_as_ok. Qed.

Lemma fold_forked (branch : list (list Meta)) : forall q,
  fold_left (fun q block => fold_left (insert_as meta_id expiration forked) block q) branch q
  = fold_left (insert_as meta_id expiration forked) (concat branch) q.
Proof. induction branch as [|b branch IH]; intros q; [done|]. cbn. by rewrite IH, fold_left_app. Qed.

Lemma erase_all_ok (called : list (Id * trx_enum_type)) : forall q, queue_ok q ->
  queue_ok (fold_left (fun q c => queue_erase c.1 q) called q).
Proof. induction called as [|c called IH]; intros q Hq; [done|]. cbn. by apply IH, queue_erase_ok. Qed.

Lemma erase_all_lookup (called : list (Id * trx_enum_type)) id u : forall q,
  by_trx_id (fold_left (fun q c => queue_erase c.1 q) called q) !! id = Some u
  <-> by_trx_id q !! id = Some u /\ id ∉ map fst called.
Proof.
  induction called as [|c called IH]; intros q; cbn [fold_left map].
  - rewrite elem_of_nil. tauto.
  - rewrite IH, elem_of_cons. cbn. rewrite lookup_delete_Some. naive_solver.
Qed.

(** *** Every operation *)
Inductive queue_op : Type :=
| op_set_mode (md : process_mode)
| op_clear
| op_clear_expired (pending_block_time deadline : Z) (now : nat -> Z)
| op_clear_applied (receipts : list (receipt (Id := Id)))
| op_add_forked (branch : list (list Meta))
| op_add_aborted (trxs : list Meta)
| op_add_persisted (trx : Meta)
| op_erase (id : Id).

Definition run_queue_op q (o : queue_op) : unapplied_transaction_queue :=
  match o with
  | op_set_mode md => (set_mode md q).2
  | op_clear => clear q
  | op_clear_expired t d now => (clear_expired t d now q).2
  | op_clear_applied rs => clear_applied rs q
  | op_add_forked b => add_forked meta_id expiration b q
  | op_add_aborted l => add_aborted meta_id expiration l q
  | op_add_persisted trx => add_persisted meta_id expiration trx q
  | op_erase id => (erase id q).2
  end.

Lemma empty_queue_ok md : queue_ok (mk_queue ∅ [] [] md).
Proof.
  assert (Hn : forall id : Id, id ∈ ([] : list Id) <-> is_Some ((∅ : gmap Id (unapplied_transaction (Meta := Meta))) !! id)).
  { intros id. rewrite lookup_empty, elem_of_nil. split; [done|by intros []]. }
  split; [constructor|constructor|exact Hn|exact Hn|constructor|constructor|]. intros id u. cbn. by rewrite lookup_empty.
Qed.

Lemma set_mode_ok md q : queue_ok q -> queue_ok (set_mode md q).2.
Proof.
  intros Hq. unfold set_mode. cbv [mbind M_bind get massert modify mret M_ret eos_assert].
  destruct Hq. destruct (bool_decide _); [destruct (empty q)|]; cbn; by split.
Qed.

Lemma clear_applied_ok rs q : queue_ok q -> queue_ok (clear_applied rs q).
Proof.
  unfold clear_applied. destruct (empty q); [done|]. revert q. induction rs as [|r rs IH]; intros q Hq; [done|]. cbn.
  apply IH. destruct r as [|id]; [done|]. destruct (by_trx_id q !! id); [|done].
  destruct (bool_decide _); [done|]. by apply queue_erase_ok.
Qed.

Lemma run_queue_op_ok o q : queue_ok q -> queue_ok (run_queue_op q o).
Proof.
  intros Hq. destruct o; cbn [run_queue_op].
  - by apply set_mode_ok.
  - apply empty_queue_ok.
  - unfold clear_expired. destruct (clear_expired_loop _ _ _ _ _ _ _). by apply erase_all_ok.
  - by apply clear_applied_ok.
  - unfold add_forked. destruct (mode q); try done. rewrite fold_forked. by apply insert_all_ok.
  - unfold add_aborted. destruct (mode q); try done. by apply insert_all_ok.
  - unfold add_persisted. destruct (mode q); try done;
      (destruct (by_trx_id q !! _); [destruct (bool_decide _); [by apply queue_set_type_ok|done]|by apply insert_as_ok]).
  - by apply queue_erase_ok.
Qed.

(** *** The loop of [clear_expired] *)
Lemma clear_expired_loop_spec t d now m l : forall i acc done called,
  (forall id, id ∈ l -> is_Some (m !! id)) -> key_sorted (expiry_key m) l ->
  clear_expired_loop t d now i l m acc = (done, called) ->
  exists new, called = acc ++ new
    /\ (exists k, map fst new = take k l)
    /\ (forall id ty, (id, ty) ∈ new -> exists u, m !! id = Some u /\ trx_type u = ty /\ expiry u <= t)
    /\ (done = true -> forall id u, id ∈ l -> id ∉ map fst new -> m !! id = Some u -> t < expiry u)
    /\ (done = false -> d <= now (i + length new)%nat).
Proof.
  induction l as [|id l IH]; intros i acc dn called Hin Hs; cbn [clear_expired_loop].
  - intros [= <- <-]. exists []. rewrite app_nil_r. split; [done|]. split; [by exists 0%nat|].
    split; [by intros ? ? ?%elem_of_nil|]. split; [by intros _ ? ? ?%elem_of_nil|done].
  - destruct (Hin id ltac:(by apply elem_of_cons; left)) as [u Hu]. rewrite Hu.
    inversion Hs as [|? ? Hs' Hf]; subst.
    destruct (expiry u <=? t) eqn:Ee; btests; [destruct (d <=? now i) eqn:Ed; btests|].
    + intros [= <- <-]. exists []. rewrite app_nil_r, Nat.add_0_r. split; [done|]. split; [by exists 0%nat|].
      by split; [intros ? ? ?%elem_of_nil|].
    + intros Hr. apply IH in Hr as (new & -> & [k Hk] & Hnew & Hdone & Hdl); [|intros x Hx; apply Hin; by apply elem_of_cons; right|done].
      exists ((id, trx_type u) :: new). rewrite <- app_assoc. split; [done|]. split; [exists (S k); cbn; by rewrite Hk|].
      split; [intros x ty [[= -> ->]|Hx]%elem_of_cons; eauto|]. split.
      * intros Hd x v [->|Hx]%elem_of_cons; cbn [map]; rewrite elem_of_cons; cbn; [tauto|]. intros Hn. apply Hdone; tauto.
      * intros Hd. specialize (Hdl Hd). cbn. by rewrite Nat.add_succ_r.
    + intros [= <- <-]. exists []. rewrite app_nil_r. split; [done|]. split; [by exists 0%nat|].
      split; [by intros ? ? ?%elem_of_nil|]. split; [|done]. intros _ x v [->|Hx]%elem_of_cons _ Hv; [congruence|].
      rewrite Forall_forall in Hf. specialize (Hf x Hx). unfold expiry_key in Hf. rewrite Hu, Hv in Hf. lia.
Qed.
End Invariant.

Section Properties.
Context {Id : Type} `{Countable Id} {Meta : Type} (meta_id : Meta -> Id) (expiration : Meta -> Z).
Implicit Types (q : unapplied_transaction_queue (Id := Id) (Meta := Meta)).

Lemma sorted_split (key : Id -> Z) (k : Z) l : key_sorted key l -> (forall x, x ∈ l -> k <= key x) ->
  l = filter (fun x => key x = k) l ++ filter (fun x => key x <> k) l.
Proof.
  unfold key_sorted. induction 1 as [|x l Hs IH Hf]; intros Hk; [done|]. rewrite !filter_cons.
  assert (Hk' : forall y, y ∈ l -> k <= key y) by (intros y Hy; apply Hk; by apply elem_of_cons; right).
  destruct (decide (key x = k)) as [Ex|Ex].
  - rewrite decide_False by (intros Hne; by apply Hne). cbn. f_equal. by apply IH.
  - rewrite decide_True by done. rewrite Forall_forall in Hf.
    assert (Hx : k <= key x) by (apply Hk; by apply elem_of_cons; left).
    assert (Hnil : filter (fun y => key y = k) l = []).
    { apply elem_of_nil_inv. intros y [Hyk Hy]%list_elem_of_filter. specialize (Hf y Hy). cbn in Hf. lia. }
    rewrite Hnil in IH |- *. cbn. f_equal. by apply IH.
Qed.

(** After any sequence of operations on a new queue its three indices hold
    the same transactions, each once, in the order of type and of expiry, and
    the iteration over the queue gives the persisted transactions first: the
    range of [persisted_begin] and [persisted_end] is the front of the whole. *)
Theorem unapplied_queue_invariant (ops : list queue_op) :
  let q := fold_left (run_queue_op meta_id expiration) ops queue_new in
  queue_ok meta_id expiration q
  /\ exists rest, all_trxs q = persisted_trxs q ++ rest
     /\ forall id, id ∈ rest -> exists u, by_trx_id q !! id = Some u /\ trx_type u <> persisted.
Proof.
  cbv zeta. set (q := fold_left _ ops queue_new).
  assert (Hok : queue_ok meta_id expiration q).
  { assert (Hg : forall q0, queue_ok meta_id expiration q0 ->
      queue_ok meta_id expiration (fold_left (run_queue_op meta_id expiration) ops q0)).
    { induction ops as [|o ops' IH]; intros q0 Hq0; [done|]. cbn. apply IH. by apply run_queue_op_ok. }
    apply Hg, empty_queue_ok. }
  clearbody q. split; [done|]. destruct Hok as [_ _ H3 _ H5 _ H7].
  exists (filter (fun id => type_key (by_trx_id q) id <> trx_enum_value persisted) (by_type q)). split.
  - apply sorted_split; [done|]. intros x Hx. apply H3 in Hx as [u Hu]. unfold type_key. rewrite Hu.
    destruct (H7 x u Hu) as (_ & _ & Ht). destruct (trx_type u); cbn; congruence || lia.
  - intros id [Hne Hin]%list_elem_of_filter. apply H3 in Hin as [u Hu]. exists u. split; [done|].
    intros Ht. apply Hne. unfold type_key. by rewrite Hu, Ht.
Qed.

(** [clear_expired] removes a prefix of the expiry order: exactly the
    transactions that the callback was told, each with its type and expired at
    the pending block time, and nothing else changes.  It returns [true] only
    when no expired transaction is left, and [false] only at the deadline. *)
Theorem clear_expired_spec (pending_block_time deadline : Z) (now : nat -> Z) q done called q' :
  queue_ok meta_id expiration q -> clear_expired pending_block_time deadline now q = (done, called, q') ->
  queue_ok meta_id expiration q'
  /\ (exists k, map fst called = take k (by_expiry q))
  /\ (forall id ty, (id, ty) ∈ called ->
        exists u, by_trx_id q !! id = Some u /\ trx_type u = ty /\ expiry u <= pending_block_time)
  /\ (forall id u, by_trx_id q' !! id = Some u <-> by_trx_id q !! id = Some u /\ id ∉ map fst called)
  /\ (done = true -> forall id u, by_trx_id q' !! id = Some u -> pending_block_time < expiry u)
  /\ (done = false -> deadline <= now (length called)).
Proof.
  intros Hok. unfold clear_expired. destruct (clear_expired_loop _ _ _ _ _ _ _) as [dn new] eqn:E. intros [= <- <- <-].
  apply clear_expired_loop_spec in E as (new' & -> & Hk & Hnew & Hdone & Hdl);
    [|intros id Hid; by apply (qo_expiry _ _ _ Hok)|apply Hok]. cbn [app] in *.
  split; [by apply erase_all_ok|]. split; [done|]. split; [done|].
  split; [intros id u; apply erase_all_lookup|]. split; [|done].
  intros Hd id u [Hu Hn]%erase_all_lookup. apply (Hdone Hd id u); try done. apply (qo_expiry _ _ _ Hok). eauto.
Qed.
End Properties.

(** ** A concrete queue: ids are numbers, a transaction is (id, expiration). *)
Definition demo_queue : unapplied_transaction_queue (Id := Z) (Meta := Z * Z) :=
  add_persisted fst snd (3, 10) (add_forked fst snd [[(2, 20)]; [(1, 30)]] queue_new).

Lemma clear_expired_spec_witness :
  (clear_expired 15 100 (fun _ => 0) demo_queue).1 = (true, [(3, persisted)])
  /\ exists k, map fst (clear_expired 15 100 (fun _ => 0) demo_queue).1.2 = take k (by_expiry demo_queue).
Proof.
  split; [vm_compute; reflexivity|].
  assert (Hq : queue_ok fst snd demo_queue) by (apply (run_queue_op_ok fst snd (op_add_persisted (3, 10))),
    (run_queue_op_ok fst snd (op_add_forked [[(2, 20)]; [(1, 30)]])), empty_queue_ok).
  destruct (clear_expired 15 100 (fun _ => 0) demo_queue) as [[done called] q'] eqn:E.
  apply (clear_expired_spec fst snd 15 100 (fun _ => 0) demo_queue done called q' Hq E).
Defined.
