(* ===== verification/EosioContract.v ===== *)
(** * The native actions of the system account
      ([eosio_contract.cpp], [account_object.hpp], [code_object.hpp])

    [newaccount], [setcode], [setabi], [updateauth], [deleteauth], [linkauth]
    and [unlinkauth], with the parts of the apply context they use: the check
    of the action's authorizations and the accounting of RAM.  They are the
    clients of [Authorization.v] and [ResourceLimits.v]; the theorems show that
    they keep the permission forest, the links and the reference counts of
    contract code consistent, and that the RAM they bill is the size of what
    they store. *)

From S2P Require Import Prelude Merkle Chainbase ResourceLimits Names Authority AuthorityChecker BlockHeader Authorization.

Definition newaccount_name : Z := string_to_name [110; 101; 119; 97; 99; 99; 111; 117; 110; 116].
Definition setcode_name : Z := string_to_name [115; 101; 116; 99; 111; 100; 101].
Definition setabi_name : Z := string_to_name [115; 101; 116; 97; 98; 105].
Definition eosio_code_name : Z := string_to_name [101; 111; 115; 105; 111; 46; 99; 111; 100; 101].

(** [str.find( "eosio." ) == 0] *)
Definition starts_with_eosio (str : list Z) : bool := bool_decide (take 6 str = [101; 111; 115; 105; 111; 46]).

(** ** Billable sizes ([config.hpp], [permission_object.hpp], [permission_link_object.hpp]) *)
Definition fixed_overhead_shared_vector_ram_bytes : Z := 16.
Definition overhead_per_row_per_index_ram_bytes : Z := 32.
Definition overhead_per_account_ram_bytes : Z := 2 * 1024.
Definition setcode_ram_bytes_multiplier : Z := 10.

Definition billable_shared_authority : Z := billable_size_v (3 * fixed_overhead_shared_vector_ram_bytes + 4).
Definition billable_permission_object : Z :=
  billable_size_v (billable_shared_authority + 64 + 5 * overhead_per_row_per_index_ram_bytes).
Definition billable_permission_link_object : Z := billable_size_v (40 + overhead_per_row_per_index_ram_bytes * 3).

Section Contract.
Context {K : Type} `{EqDecision K}.

(** ** Objects and payloads *)
Record account_object : Type := mk_account {
  acc_name : Z; creation_date : Z; abi : list Z }.

Record account_metadata_object : Type := mk_metadata {
  md_name : Z;
  recv_sequence : Z;
  auth_sequence : Z;
  code_sequence : Z;
  abi_sequence : Z;
  code_hash : digest_type;
  last_code_update : Z;
  flags : Z;
  vm_type : Z;
  vm_version : Z }.

Definition is_privileged (a : account_metadata_object) : bool := negb (Z.land (flags a) 1 =? 0).

Record code_object : Type := mk_code {
  co_code_hash : digest_type;
  co_code : list Z;
  code_ref_count : Z;
  first_block_used : Z;
  co_vm_type : Z;
  co_vm_version : Z }.

Definition account_conflict (a b : account_object) : bool := acc_name a =? acc_name b.
Definition metadata_conflict (a b : account_metadata_object) : bool := md_name a =? md_name b.
Definition code_conflict (a b : code_object) : bool :=
  bool_decide (co_code_hash a = co_code_hash b) && (co_vm_type a =? co_vm_type b) && (co_vm_version a =? co_vm_version b).

Record newaccount : Type := mk_newaccount {
  na_creator : Z; na_name : Z; na_owner : authority K; na_active : authority K }.
Record setcode : Type := mk_setcode { sc_account : Z; vmtype : Z; vmversion : Z; sc_code : list Z }.
Record setabi : Type := mk_setabi { sa_account : Z; sa_abi : list Z }.

Class contract_unpacker : Type := {
  unpack_newaccount : list Z -> res newaccount;
  unpack_setcode : list Z -> res setcode;
  unpack_setabi : list Z -> res setabi }.

(** ** The state the handlers work on

    The tables, the resource limits, and what the transaction and the action
    record about RAM: the accounts to check at the end of the transaction and
    the deltas per account. *)
Record native_db : Type := mk_native_db {
  nd_auth : auth_db K;
  nd_accounts : generic_index account_object;
  nd_metadata : generic_index account_metadata_object;
  nd_code : generic_index code_object;
  nd_limits : resource_limits_manager;
  validate_ram_usage : gset Z;
  _account_ram_deltas : gmap Z Z }.

Definition set_nd_auth a (d : native_db) : native_db :=
  mk_native_db a (nd_accounts d) (nd_metadata d) (nd_code d) (nd_limits d) (validate_ram_usage d) (_account_ram_deltas d).
Definition set_nd_accounts a (d : native_db) : native_db :=
  mk_native_db (nd_auth d) a (nd_metadata d) (nd_code d) (nd_limits d) (validate_ram_usage d) (_account_ram_deltas d).
Definition set_nd_metadata a (d : native_db) : native_db :=
  mk_native_db (nd_auth d) (nd_accounts d) a (nd_code d) (nd_limits d) (validate_ram_usage d) (_account_ram_deltas d).
Definition set_nd_code a (d : native_db) : native_db :=
  mk_native_db (nd_auth d) (nd_accounts d) (nd_metadata d) a (nd_limits d) (validate_ram_usage d) (_account_ram_deltas d).
Definition set_nd_limits a (d : native_db) : native_db :=
  mk_native_db (nd_auth d) (nd_accounts d) (nd_metadata d) (nd_code d) a (validate_ram_usage d) (_account_ram_deltas d).

Abbreviation NM := (M native_db).

(** Running an operation of one component inside the whole state. *)
Definition zoom {S A} (sel : native_db -> S) (upd : S -> native_db -> native_db) (m : M S A) : NM A := fun d =>
  let '(r, s) := m (sel d) in (r, upd s d).

Definition on_auth {A} : M (auth_db K) A -> NM A := zoom nd_auth set_nd_auth.
Definition on_accounts {A} : M (generic_index account_object) A -> NM A := zoom nd_accounts set_nd_accounts.
Definition on_metadata {A} : M (generic_index account_metadata_object) A -> NM A := zoom nd_metadata set_nd_metadata.
Definition on_code {A} : M (generic_index code_object) A -> NM A := zoom nd_code set_nd_code.
Definition on_limits {A} : M resource_limits_manager A -> NM A := zoom nd_limits set_nd_limits.
Definition on_links {A} (m : M (generic_index permission_link_object) A) : NM A :=
  on_auth (fun db => let '(r, gi) := m (links db) in (r, mk_auth_db (permissions db) (usages db) gi)).

(** What the handlers read of the controller and of library fc: [key_lt] is the
    order of keys in [validate], [key_pack_size] the packed size of a stored
    key, [sha256] the hash of code and [wasm_validate] the validation of a
    module; [check_keys] tells whether the key denylist is enforced (denylists
    are on and the node is producing). *)
Record native_config : Type := mk_native_config {
  nc_auth : auth_config K;
  key_lt : K -> K -> bool;
  key_pack_size : K -> Z;
  check_keys : bool;
  key_denylist : list K;
  sha256 : list Z -> digest_type;
  wasm_validate : list Z -> res unit;
  head_block_num : Z }.

Context (cfg : native_config).

Definition no_digest : digest_type := mk_digest 0 0 0 0.

Definition authority_billable_size (a : authority K) : Z :=
  Z.of_nat (length (accounts a)) * billable_permission_level_weight
  + Z.of_nat (length (waits a)) * billable_wait_weight
  + fold_left (fun size k => size + billable_key_weight + key_pack_size cfg (kw_key k)) (keys a) 0.

(** ** The apply context *)
Definition require_authorization (act : action) (account : Z) : NM unit :=
  massert (existsb (fun auth => actor auth =? account) (authorization act)) missing_auth_exception.

(** [transaction_context::add_ram_usage], then the delta of the action; the
    parameter is an [int64_t]. *)
Definition trx_add_ram_usage (account ram_delta : Z) : NM unit :=
  on_limits (add_pending_ram_usage account ram_delta);;
  if ram_delta >? 0 then
    modify (fun d => mk_native_db (nd_auth d) (nd_accounts d) (nd_metadata d) (nd_code d) (nd_limits d)
                       ({[account]} ∪ validate_ram_usage d) (_account_ram_deltas d))
  else mret tt.

Definition add_ram_usage (account ram_delta : Z) : NM unit :=
  trx_add_ram_usage account ram_delta;;
  modify (fun d => mk_native_db (nd_auth d) (nd_accounts d) (nd_metadata d) (nd_code d) (nd_limits d)
    (validate_ram_usage d)
    (<[account := match _account_ram_deltas d !! account with
                  | None => s64 ram_delta
                  | Some delta => s64 (delta + ram_delta)
                  end]> (_account_ram_deltas d))).

(** [db.get] of an object by a unique key. *)
Definition get_by {B} (wanted : B -> bool) (gi : generic_index B) : res (Z * B) :=
  match find_by wanted gi with Some r => Ok r | None => Err std_out_of_range end.

Definition account_by_name (name : Z) (a : account_object) : bool := acc_name a =? name.
Definition metadata_by_name (name : Z) (a : account_metadata_object) : bool := md_name a =? name.
Definition code_by_hash (hash : digest_type) (type version : Z) (c : code_object) : bool :=
  bool_decide (co_code_hash c = hash) && (co_vm_type c =? type) && (co_vm_version c =? version).

Definition account_exists (d : native_db) (name : Z) : bool :=
  match find_by (account_by_name name) (nd_accounts d) with Some _ => true | None => false end.

(** [validate_authority_precondition] *)
Definition check_level_exists (d : native_db) (p : permission_level) : res unit :=
  eos_assert (account_exists d (actor p)) action_validate_exception;;
  if (permission p =? owner_name) || (permission p =? active_name) then Ok tt
  else if permission p =? eosio_code_name then Ok tt
  else match get_permission (nd_auth d) p with
       | Ok _ => Ok tt
       | Err permission_query_exception => Err action_validate_exception
       | Err e => Err e
       end.

Fixpoint check_levels_exist (d : native_db) (ps : list permission_level_weight) : res unit :=
  match ps with
  | [] => Ok tt
  | p :: ps => check_level_exists d (plw_permission p);; check_levels_exist d ps
  end.

Definition check_key_list (k : K) : res unit :=
  eos_assert (negb (bool_decide (k ∈ key_denylist cfg))) key_denylist_exception.

Fixpoint check_key_lists (ks : list (key_weight K)) : res unit :=
  match ks with
  | [] => Ok tt
  | k :: ks => check_key_list (kw_key k);; check_key_lists ks
  end.

Definition validate_authority_precondition (d : native_db) (auth : authority K) : res unit :=
  check_levels_exist d (accounts auth);;
  if check_keys cfg then check_key_lists (keys auth) else Ok tt.
End Contract.

Arguments native_db K : clear implicits.
Arguments native_config K : clear implicits.
Arguments newaccount K : clear implicits.
Arguments contract_unpacker K : clear implicits.

(** ** The handlers *)

(** [action::data_as<T>] *)
Definition data_as {T} (name : Z) (unpack : list Z -> res T) (act : action) : res T :=
  eos_assert (act_account act =? system_account_name) action_type_exception;;
  eos_assert (act_name act =? name) action_type_exception;;
  unpack (act_data act).

Section Handlers.
Context {K : Type} `{EqDecision K} `{unpacker K} `{contract_unpacker K} (cfg : native_config K).

Abbreviation NM := (M (native_db K)).
Abbreviation now := (pending_block_time (nc_auth cfg)).

Definition apply_eosio_newaccount (act : action) : NM unit :=
  create ← lift (data_as newaccount_name unpack_newaccount act);
  require_authorization act (na_creator create);;
  massert (validate (key_lt cfg) (na_owner create)) action_validate_exception;;
  massert (validate (key_lt cfg) (na_active create)) action_validate_exception;;
  let name_str := to_string (na_name create) in
  massert (negb (na_name create =? 0)) action_validate_exception;;
  massert (Z.of_nat (length name_str) <=? 12) action_validate_exception;;
  d ← get;
  creator ← lift (get_by (metadata_by_name (na_creator create)) (nd_metadata d));
  (if is_privileged creator.2 then mret tt
   else massert (negb (starts_with_eosio name_str)) action_validate_exception);;
  massert (negb (account_exists d (na_name create))) account_name_exists_exception;;
  on_accounts (emplace account_conflict (mk_account (na_name create) (set_time_point now) []));;
  on_metadata (emplace metadata_conflict (mk_metadata (na_name create) 0 0 0 0 no_digest 0 0 0 0));;
  d ← get;
  lift (validate_authority_precondition cfg d (na_owner create));;
  lift (validate_authority_precondition cfg d (na_active create));;
  owner_permission ← on_auth (create_permission (nc_auth cfg) (na_name create) owner_name 0 (na_owner create) 0);
  on_auth (create_permission (nc_auth cfg) (na_name create) active_name owner_permission (na_active create) 0);;
  on_limits (initialize_account (na_name create));;
  add_ram_usage (na_name create)
    (overhead_per_account_ram_bytes + 2 * billable_permission_object
     + authority_billable_size cfg (na_owner create) + authority_billable_size cfg (na_active create)).

Definition set_ref_count (n : Z) (c : code_object) : code_object :=
  mk_code (co_code_hash c) (co_code c) n (first_block_used c) (co_vm_type c) (co_vm_version c).

(** The code an account had is released, the last reference removes it. *)
Definition release_code (account : account_metadata_object) (new_hash : digest_type) : NM Z :=
  d ← get;
  old ← lift (get_by (code_by_hash (code_hash account) (vm_type account) (vm_version account)) (nd_code d));
  massert (negb (bool_decide (co_code_hash old.2 = new_hash))) set_exact_code;;
  (if code_ref_count old.2 =? 1 then on_code (index_remove old.1)
   else on_code (index_modify code_conflict old.1 (fun o =>
     set_ref_count (u64 (code_ref_count o - 1)) o)));;
  mret (Z.of_nat (length (co_code old.2)) * setcode_ram_bytes_multiplier).

Definition use_code (code : list Z) (hash : digest_type) (vmtype vmversion : Z) : NM unit :=
  d ← get;
  match find_by (code_by_hash hash vmtype vmversion) (nd_code d) with
  | Some e =>
      on_code (index_modify code_conflict e.1 (fun o =>
        set_ref_count (u64 (code_ref_count o + 1)) o))
  | None =>
      on_code (emplace code_conflict (mk_code hash code 1 (u32 (head_block_num cfg + 1)) vmtype vmversion));; mret tt
  end.

Definition apply_eosio_setcode (act : action) : NM unit :=
  data ← lift (data_as setcode_name unpack_setcode act);
  require_authorization act (sc_account data);;
  massert (vmtype data =? 0) invalid_contract_vm_type;;
  massert (vmversion data =? 0) invalid_contract_vm_version;;
  let code_size := Z.of_nat (length (sc_code data)) in
  let hash := if code_size >? 0 then sha256 cfg (sc_code data) else no_digest in
  lift (if code_size >? 0 then wasm_validate cfg (sc_code data) else Ok tt);;
  d ← get;
  account ← lift (get_by (metadata_by_name (sc_account data)) (nd_metadata d));
  let existing_code := negb (bool_decide (code_hash account.2 = no_digest)) in
  massert ((code_size >? 0) || existing_code) set_exact_code;;
  let new_size := code_size * setcode_ram_bytes_multiplier in
  old_size ← (if existing_code then release_code account.2 hash else mret 0);
  (if code_size >? 0 then use_code (sc_code data) hash (vmtype data) (vmversion data) else mret tt);;
  on_metadata (index_modify metadata_conflict account.1 (fun a =>
    mk_metadata (md_name a) (recv_sequence a) (auth_sequence a) (u64 (code_sequence a + 1)) (abi_sequence a)
      hash now (flags a) (vmtype data) (vmversion data)));;
  if negb (new_size =? old_size) then add_ram_usage (sc_account data) (new_size - old_size) else mret tt.

Definition apply_eosio_setabi (act : action) : NM unit :=
  data ← lift (data_as setabi_name unpack_setabi act);
  require_authorization act (sa_account data);;
  d ← get;
  account ← lift (get_by (account_by_name (sa_account data)) (nd_accounts d));
  let old_size := Z.of_nat (length (abi account.2)) in
  let new_size := Z.of_nat (length (sa_abi data)) in
  on_accounts (index_modify account_conflict account.1 (fun a => mk_account (acc_name a) (creation_date a) (sa_abi data)));;
  metadata ← lift (get_by (metadata_by_name (sa_account data)) (nd_metadata d));
  on_metadata (index_modify metadata_conflict metadata.1 (fun a =>
    mk_metadata (md_name a) (recv_sequence a) (auth_sequence a) (code_sequence a) (u64 (abi_sequence a + 1))
      (code_hash a) (last_code_update a) (flags a) (vm_type a) (vm_version a)));;
  if negb (new_size =? old_size) then add_ram_usage (sa_account data) (new_size - old_size) else mret tt.

(** The waits of a valid authority are sorted: the last one is the longest. *)
Definition waits_within (max_delay : Z) (auth : authority K) : bool :=
  match last (waits auth) with Some w => ww_wait_sec w <=? max_delay | None => true end.

Definition apply_eosio_updateauth (act : action) : NM unit :=
  update ← lift (data_as updateauth_name unpack_updateauth act);
  require_authorization act (ua_account update);;
  massert (negb (ua_permission update =? 0)) action_validate_exception;;
  massert (negb (starts_with_eosio (to_string (ua_permission update)))) action_validate_exception;;
  massert (negb (ua_permission update =? ua_parent update)) action_validate_exception;;
  d ← get;
  lift (get_by (account_by_name (ua_account update)) (nd_accounts d));;
  massert (validate (key_lt cfg) (ua_auth update)) action_validate_exception;;
  massert (negb (ua_permission update =? active_name) || (ua_parent update =? owner_name)) action_validate_exception;;
  (if ua_permission update =? owner_name then massert (ua_parent update =? 0) action_validate_exception
   else massert (negb (ua_parent update =? 0)) action_validate_exception);;
  massert (waits_within (max_transaction_delay (nc_auth cfg)) (ua_auth update)) action_validate_exception;;
  lift (validate_authority_precondition cfg d (ua_auth update));;
  permission ← lift (find_permission (nd_auth d) (mk_pl (ua_account update) (ua_permission update)));
  parent_id ← (if negb (ua_permission update =? owner_name) then
                 parent ← lift (get_permission (nd_auth d) (mk_pl (ua_account update) (ua_parent update)));
                 mret parent.1
               else mret 0);
  match permission with
  | Some (id, permission) =>
      massert (parent_id =? po_parent permission) action_validate_exception;;
      let old_size := billable_permission_object + authority_billable_size cfg (po_auth permission) in
      on_auth (modify_permission (nc_auth cfg) id (ua_auth update));;
      let new_size := billable_permission_object + authority_billable_size cfg (ua_auth update) in
      add_ram_usage (po_owner permission) (new_size - old_size)
  | None =>
      on_auth (create_permission (nc_auth cfg) (ua_account update) (ua_permission update) parent_id (ua_auth update) 0);;
      add_ram_usage (ua_account update) (billable_permission_object + authority_billable_size cfg (ua_auth update))
  end.

(** [equal_range] of [by_permission_name] is empty. *)
Definition no_links (account permission : Z) (gi : generic_index permission_link_object) : bool :=
  match find_by (fun l => (link_account l =? account) && (required_permission l =? permission)) gi with
  | None => true
  | Some _ => false
  end.

Definition apply_eosio_deleteauth (act : action) : NM unit :=
  remove ← lift (data_as deleteauth_name unpack_deleteauth act);
  require_authorization act (da_account remove);;
  massert (negb (da_permission remove =? active_name)) action_validate_exception;;
  massert (negb (da_permission remove =? owner_name)) action_validate_exception;;
  d ← get;
  massert (no_links (da_account remove) (da_permission remove) (links (nd_auth d))) action_validate_exception;;
  permission ← lift (get_permission (nd_auth d) (mk_pl (da_account remove) (da_permission remove)));
  let old_size := billable_permission_object + authority_billable_size cfg (po_auth permission.2) in
  on_auth (remove_permission permission);;
  add_ram_usage (da_account remove) (- old_size).

Definition permission_exists (d : native_db K) (account permission : Z) : bool :=
  match find_by (by_owner account permission) (permissions (nd_auth d)) with Some _ => true | None => false end.

Definition apply_eosio_linkauth (act : action) : NM unit :=
  requirement ← lift (data_as linkauth_name unpack_linkauth act);
  massert (negb (la_requirement requirement =? 0)) action_validate_exception;;
  require_authorization act (la_account requirement);;
  d ← get;
  massert (account_exists d (la_account requirement)) account_query_exception;;
  massert (account_exists d (la_code requirement)) account_query_exception;;
  massert ((la_requirement requirement =? eosio_any_name)
           || permission_exists d (la_account requirement) (la_requirement requirement)) permission_query_exception;;
  match find_by (by_action_name (la_account requirement) (la_code requirement) (la_type requirement)) (links (nd_auth d)) with
  | Some (id, link) =>
      massert (negb (required_permission link =? la_requirement requirement)) action_validate_exception;;
      on_links (index_modify link_conflict id (fun l =>
        mk_link (link_account l) (link_code l) (message_type l) (la_requirement requirement)))
  | None =>
      on_links (emplace link_conflict
        (mk_link (la_account requirement) (la_code requirement) (la_type requirement) (la_requirement requirement)));;
      add_ram_usage (la_account requirement) billable_permission_link_object
  end.

Definition apply_eosio_unlinkauth (act : action) : NM unit :=
  unlink ← lift (data_as unlinkauth_name unpack_unlinkauth act);
  require_authorization act (ul_account unlink);;
  d ← get;
  match find_by (by_action_name (ul_account unlink) (ul_code unlink) (ul_type unlink)) (links (nd_auth d)) with
  | None => throw action_validate_exception
  | Some (id, link) =>
      add_ram_usage (link_account link) (- billable_permission_link_object);;
      on_links (index_remove id)
  end.
End Handlers.

(** ** Dispatch and genesis ([controller.cpp])

    The handlers registered for the system account; [canceldelay] works on the
    deferred transactions of the apply context and is not part of this table.
    [SET_APP_HANDLER] registers every one under receiver and contract [eosio]. *)
Definition null_account_name : Z := string_to_name [101; 111; 115; 105; 111; 46; 110; 117; 108; 108].
Definition producers_account_name : Z := string_to_name [101; 111; 115; 105; 111; 46; 112; 114; 111; 100; 115].
Definition majority_producers_permission_name : Z := string_to_name [112; 114; 111; 100; 46; 109; 97; 106; 111; 114].
Definition minority_producers_permission_name : Z := string_to_name [112; 114; 111; 100; 46; 109; 105; 110; 111; 114].

Section Dispatch.
Context {K : Type} `{EqDecision K} `{unpacker K} `{contract_unpacker K} (cfg : native_config K).

Definition apply_handlers : list (Z * (action -> M (native_db K) unit)) :=
  [(newaccount_name, apply_eosio_newaccount cfg); (setcode_name, apply_eosio_setcode cfg);
   (setabi_name, apply_eosio_setabi); (updateauth_name, apply_eosio_updateauth cfg);
   (deleteauth_name, apply_eosio_deleteauth cfg); (linkauth_name, apply_eosio_linkauth);
   (unlinkauth_name, apply_eosio_unlinkauth)].

Definition find_apply_handler (receiver scope act : Z) : option (action -> M (native_db K) unit) :=
  if (receiver =? system_account_name) && (scope =? system_account_name) then
    match list_find (fun h => h.1 = act) apply_handlers with Some (_, (_, h)) => Some h | None => None end
  else None.

(** [native] part of [apply_context::exec_one]. *)
Definition exec_native (receiver : Z) (act : action) : M (native_db K) unit :=
  match find_apply_handler receiver (act_account act) (act_name act) with
  | Some native => native act
  | None => mret tt
  end.

Context (initial_timestamp : Z) (initial_key : K) (eosio_abi_bin : list Z).

Definition create_native_account (name : Z) (owner active : authority K) (is_privileged : bool) : M (native_db K) unit :=
  on_accounts (emplace account_conflict
    (mk_account name (set_time_point initial_timestamp) (if name =? system_account_name then eosio_abi_bin else [])));;
  on_metadata (emplace metadata_conflict (mk_metadata name 0 0 0 0 no_digest 0 (if is_privileged then 1 else 0) 0 0));;
  owner_permission ← on_auth (create_permission (nc_auth cfg) name owner_name 0 owner initial_timestamp);
  on_auth (create_permission (nc_auth cfg) name active_name owner_permission active initial_timestamp);;
  on_limits (initialize_account name);;
  on_limits (add_pending_ram_usage name
    (overhead_per_account_ram_bytes + 2 * billable_permission_object
     + authority_billable_size cfg owner + authority_billable_size cfg active));;
  on_limits (verify_account_ram_usage name).

Definition empty_native_db : native_db K :=
  mk_native_db empty_auth_db index_empty index_empty index_empty ResourceLimits.initialize_database ∅ ∅.

(** The accounts of [controller_impl::initialize_database]. *)
Definition initialize_accounts : M (native_db K) unit :=
  on_auth Authorization.initialize_database;;
  let system_auth := authority_of_key initial_key 0 in
  create_native_account system_account_name system_auth system_auth true;;
  let empty_authority := mk_authority 1 [] [] [] in
  let active_producers_authority := mk_authority 1 [] [mk_plw (mk_pl system_account_name active_name) 1] [] in
  create_native_account null_account_name empty_authority empty_authority false;;
  create_native_account producers_account_name empty_authority active_producers_authority false;;
  d ← get;
  active_permission ← lift (get_permission (nd_auth d) (mk_pl producers_account_name active_name));
  majority_permission ← on_auth (create_permission (nc_auth cfg) producers_account_name majority_producers_permission_name
                                   active_permission.1 active_producers_authority initial_timestamp);
  on_auth (create_permission (nc_auth cfg) producers_account_name minority_producers_permission_name
             majority_permission active_producers_authority initial_timestamp);;
  mret tt.
End Dispatch.

(** ** Success of the composed operations *)
Lemma zoom_ok {K : Type} {S A : Type} (sel : native_db K -> S) upd (m : M S A) d a d' :
  zoom sel upd m d = (Ok a, d') <-> exists s, m (sel d) = (Ok a, s) /\ d' = upd s d.
Proof. unfold zoom. destruct (m (sel d)) as [r s]. naive_solver. Qed.

Lemma on_permissions_ok {K A : Type} (m : M (generic_index (permission_object K)) A) db a db' :
  on_permissions m db = (Ok a, db') <->
  exists gi, m (permissions db) = (Ok a, gi) /\ db' = mk_auth_db gi (usages db) (links db).
Proof. unfold on_permissions. destruct (m (permissions db)) as [r gi]. naive_solver. Qed.

Lemma on_usages_ok {K A : Type} (m : M (generic_index permission_usage_object) A) (db : auth_db K) a db' :
  on_usages m db = (Ok a, db') <->
  exists gi, m (usages db) = (Ok a, gi) /\ db' = mk_auth_db (permissions db) gi (links db).
Proof. unfold on_usages. destruct (m (usages db)) as [r gi]. naive_solver. Qed.

Lemma on_links_ok {K A : Type} (m : M (generic_index permission_link_object) A) (d : native_db K) a d' :
  on_links m d = (Ok a, d') <->
  exists gi, m (links (nd_auth d)) = (Ok a, gi)
    /\ d' = set_nd_auth (mk_auth_db (permissions (nd_auth d)) (usages (nd_auth d)) gi) d.
Proof. unfold on_links, on_auth, zoom. destruct (m (links (nd_auth d))) as [r gi]. naive_solver. Qed.

Lemma data_as_ok {T} name unpack act (t : T) : data_as name unpack act = Ok t -> unpack (act_data act) = Ok t.
Proof. unfold data_as. intros Hd. by minv. Qed.

Lemma if_massert_ok {S} (b c : bool) e (s s' : S) u :
  (if b then mret tt else massert c e) s = (Ok u, s') <-> (b || c) = true /\ s' = s.
Proof. destruct b; [rewrite mret_ok; destruct u; naive_solver|apply massert_ok]. Qed.

Lemma if2_massert_ok {S} (b c1 c2 : bool) e1 e2 (s s' : S) u :
  (if b then massert c1 e1 else massert c2 e2) s = (Ok u, s') <-> (if b then c1 else c2) = true /\ s' = s.
Proof. destruct b; apply massert_ok. Qed.

(** [ninv] extends [minv] with the components of the state. *)
Ltac ninv_step :=
  match goal with
  | H : on_permissions _ _ = (Ok _, _) |- _ => apply on_permissions_ok in H as (? & ? & ?)
  | H : on_usages _ _ = (Ok _, _) |- _ => apply on_usages_ok in H as (? & ? & ?)
  | H : on_links _ _ = (Ok _, _) |- _ => apply on_links_ok in H as (? & ? & ?)
  | H : on_auth _ _ = (Ok _, _) |- _ => apply zoom_ok in H as (? & ? & ?)
  | H : on_accounts _ _ = (Ok _, _) |- _ => apply zoom_ok in H as (? & ? & ?)
  | H : on_metadata _ _ = (Ok _, _) |- _ => apply zoom_ok in H as (? & ? & ?)
  | H : on_code _ _ = (Ok _, _) |- _ => apply zoom_ok in H as (? & ? & ?)
  | H : on_limits _ _ = (Ok _, _) |- _ => apply zoom_ok in H as (? & ? & ?)
  | H : data_as _ _ _ = Ok _ |- _ => apply data_as_ok in H
  | H : require_authorization _ _ _ = (Ok _, _) |- _ => apply massert_ok in H as [? ?]
  | H : (if ?b then mret tt else massert _ _) _ = (Ok _, _) |- _ => apply if_massert_ok in H as [? ?]
  | H : (if ?b then massert _ _ else massert _ _) _ = (Ok _, _) |- _ => apply if2_massert_ok in H as [? ?]
  | _ => minv_step
  end.
Ltac ninv := repeat (ninv_step; subst).

(** A table after a successful operation. *)
Lemma emplace_ok {B} (conflict : B -> B -> bool) c gi id gi' : emplace conflict c gi = (Ok id, gi') ->
  id = _next_id gi /\ _indices gi !! id = None /\ violates conflict (_indices gi) id c = false
  /\ _indices gi' = <[id := c]> (_indices gi) /\ _next_id gi' = _next_id gi + 1.
Proof. intros [[? _]|(Hid & H1 & H2 & H3 & H4)]%emplace_inv; [done|]. injection Hid as ->. done. Qed.

Lemma index_modify_ok {B} (conflict : B -> B -> bool) id f gi u gi' : index_modify conflict id f gi = (Ok u, gi') ->
  exists b, _indices gi !! id = Some b /\ _indices gi' = <[id := f b]> (_indices gi) /\ _next_id gi' = _next_id gi.
Proof.
  intros Hm. destruct (_indices gi !! id) as [b|] eqn:E; [|unfold index_modify in Hm; by rewrite E in Hm].
  exists b. split; [done|]. assert (Hv : violates conflict (_indices gi) id (f b) = false).
  { unfold index_modify in Hm. rewrite E in Hm.
    assert (Hi : _indices (on_modify id b gi) = _indices gi).
    { unfold on_modify. destruct (_stack gi); [done|]. destruct (decide _); [done|]. by destruct (old_values _ !! id). }
    rewrite Hi in Hm. by destruct (violates _ _ _ _). }
  by destruct (index_modify_inv _ _ _ _ _ _ _ E Hv Hm) as (_ & ? & ?).
Qed.

Lemma index_remove_ok {B} id (gi : generic_index B) u gi' : index_remove id gi = (Ok u, gi') ->
  exists b, _indices gi !! id = Some b /\ _indices gi' = delete id (_indices gi) /\ _next_id gi' = _next_id gi.
Proof.
  intros Hr. destruct (_indices gi !! id) as [b|] eqn:E; [|unfold index_remove in Hr; by rewrite E in Hr].
  exists b. split; [done|]. by destruct (index_remove_inv _ _ _ _ _ E Hr) as (_ & ? & ?).
Qed.

Section Success.
Context {K : Type} `{EqDecision K}.
Implicit Types (db : auth_db K) (d : native_db K).

Lemma create_permission_ok (cfg : auth_config K) account name parent auth t db id db' :
  create_permission cfg account name parent auth t db = (Ok id, db') ->
  exists uid time, id = _next_id (permissions db) /\ links db' = links db /\
    _indices (permissions db') = <[id := mk_permission uid parent account name time auth]> (_indices (permissions db))
    /\ _indices (permissions db) !! id = None.
Proof.
  unfold create_permission. intros Hc. ninv.
  match goal with Ep : emplace permission_conflict _ _ = _ |- _ => apply emplace_ok in Ep as (-> & Hn & _ & Hgp & _) end.
  by eexists _, _.
Qed.

Lemma modify_permission_ok (cfg : auth_config K) id auth db u db' :
  modify_permission cfg id auth db = (Ok u, db') ->
  exists p, _indices (permissions db) !! id = Some p /\ links db' = links db /\
    _indices (permissions db') = <[id := mk_permission (po_usage_id p) (po_parent p) (po_owner p) (po_name p) (pending_block_time cfg) auth]>
      (_indices (permissions db)).
Proof.
  unfold modify_permission. intros Hc. ninv.
  match goal with Ep : index_modify _ _ _ _ = _ |- _ => apply index_modify_ok in Ep as (p & Hp & Hgp & _) end. by exists p.
Qed.

Lemma remove_permission_ok (p : Z * permission_object K) db u db' :
  remove_permission p db = (Ok u, db') ->
  links db' = links db /\ _indices (permissions db') = delete p.1 (_indices (permissions db)).
Proof.
  unfold remove_permission. intros Hc. ninv.
  match goal with Ep : index_remove _ _ = _ |- _ => by apply index_remove_ok in Ep as (b & _ & Hgp & _) end.
Qed.

Lemma add_ram_usage_ok account delta d u d' : add_ram_usage account delta d = (Ok u, d') ->
  nd_auth d' = nd_auth d /\ nd_accounts d' = nd_accounts d /\ nd_metadata d' = nd_metadata d
  /\ nd_code d' = nd_code d /\ add_pending_ram_usage account delta (nd_limits d) = (Ok tt, nd_limits d').
Proof.
  unfold add_ram_usage, trx_add_ram_usage. intros Hr. ninv.
  destruct (delta >? 0); ninv; cbn; repeat split; try done.
Qed.
End Success.

(** ** What a successful handler did, operation by operation *)
#[local] Arguments to_string : simpl never.
#[local] Arguments string_to_name : simpl never.
#[local] Arguments authority_billable_size : simpl never.
Section Effects.
Context {K : Type} `{EqDecision K} `{unpacker K} `{contract_unpacker K} (cfg : native_config K).
Implicit Types (act : action) (d : native_db K).

Definition newaccount_ram (c : newaccount K) : Z :=
  overhead_per_account_ram_bytes + 2 * billable_permission_object
  + authority_billable_size cfg (na_owner c) + authority_billable_size cfg (na_active c).

Lemma newaccount_inv act d u d' : apply_eosio_newaccount cfg act d = (Ok u, d') ->
  exists c oid db1 aid id1 id2 l1, unpack_newaccount (act_data act) = Ok c
    /\ (na_name c <> 0 /\ validate (key_lt cfg) (na_owner c) = true /\ validate (key_lt cfg) (na_active c) = true)
    /\ create_permission (nc_auth cfg) (na_name c) owner_name 0 (na_owner c) 0 (nd_auth d) = (Ok oid, db1)
    /\ create_permission (nc_auth cfg) (na_name c) active_name oid (na_active c) 0 db1 = (Ok aid, nd_auth d')
    /\ emplace account_conflict (mk_account (na_name c) (set_time_point (pending_block_time (nc_auth cfg))) [])
         (nd_accounts d) = (Ok id1, nd_accounts d')
    /\ emplace metadata_conflict (mk_metadata (na_name c) 0 0 0 0 no_digest 0 0 0 0) (nd_metadata d)
         = (Ok id2, nd_metadata d')
    /\ nd_code d' = nd_code d
    /\ initialize_account (na_name c) (nd_limits d) = (Ok tt, l1)
    /\ add_pending_ram_usage (na_name c) (newaccount_ram c) l1 = (Ok tt, nd_limits d').
Proof.
  unfold apply_eosio_newaccount. intros Hr. ninv. btests.
  match goal with Hp : add_ram_usage _ _ _ = _ |- _ => apply add_ram_usage_ok in Hp as (? & ? & ? & ? & ?) end.
  match goal with Hp : initialize_account _ _ = _ |- _ => rename Hp into Hi end.
  cbn in *. subst. repeat eexists; try eassumption; done.
Qed.

(** Billing happens only when the size changed; a change of 0 bills nothing. *)
Lemma bill_if_changed_ok account new old d u d' :
  (if negb (new =? old) then add_ram_usage account (new - old) else mret tt) d = (Ok u, d') ->
  nd_auth d' = nd_auth d /\ nd_accounts d' = nd_accounts d /\ nd_metadata d' = nd_metadata d
  /\ nd_code d' = nd_code d /\ add_pending_ram_usage account (new - old) (nd_limits d) = (Ok tt, nd_limits d').
Proof.
  destruct (Z.eqb_spec new old) as [->|]; cbn [negb]; [|apply add_ram_usage_ok].
  intros Hr. ninv. by rewrite Z.sub_diag.
Qed.

Lemma get_by_ok {B} (wanted : B -> bool) (gi : generic_index B) r :
  get_by wanted gi = Ok r <-> find_by wanted gi = Some r.
Proof. unfold get_by. destruct (find_by _ _); naive_solver. Qed.

(** The fields of an account's metadata that say which code it runs. *)
Definition same_code (m m' : account_metadata_object) : Prop :=
  md_name m' = md_name m /\ code_hash m' = code_hash m /\ vm_type m' = vm_type m /\ vm_version m' = vm_version m.

Ltac native_parts :=
  repeat match goal with
  | Hp : get_by _ _ = Ok ?r |- _ => apply get_by_ok, find_by_some in Hp as [? ?]; cbn [fst snd] in *
  | Hp : find_by _ _ = Some ?r |- _ => apply find_by_some in Hp as [? ?]; cbn [fst snd] in *
  | Hp : (if negb (_ =? _) then _ else _) _ = _ |- _ => apply bill_if_changed_ok in Hp as (? & ? & ? & ? & ?)
  | Hp : add_ram_usage _ _ _ = _ |- _ => apply add_ram_usage_ok in Hp as (? & ? & ? & ? & ?)
  | Hp : index_modify _ _ _ _ = _ |- _ => apply index_modify_ok in Hp as (? & ? & ? & ?)
  | Hp : index_remove _ _ = _ |- _ => apply index_remove_ok in Hp as (? & ? & ? & ?)
  | r : Z * _ |- _ => destruct r
  end.

Lemma setabi_inv act d u d' : apply_eosio_setabi act d = (Ok u, d') ->
  exists data id a mid md md', unpack_setabi (act_data act) = Ok data
    /\ _indices (nd_accounts d) !! id = Some a /\ acc_name a = sa_account data
    /\ _indices (nd_accounts d') = <[id := mk_account (acc_name a) (creation_date a) (sa_abi data)]> (_indices (nd_accounts d))
    /\ _indices (nd_metadata d) !! mid = Some md /\ same_code md md'
    /\ _indices (nd_metadata d') = <[mid := md']> (_indices (nd_metadata d))
    /\ nd_auth d' = nd_auth d /\ nd_code d' = nd_code d
    /\ add_pending_ram_usage (sa_account data) (Z.of_nat (length (sa_abi data)) - Z.of_nat (length (abi a))) (nd_limits d)
         = (Ok tt, nd_limits d').
Proof.
  unfold apply_eosio_setabi. intros Hr. ninv. native_parts. cbn in *. simplify_eq. unfold account_by_name in *. btests.
  do 6 eexists. split_and!; try eassumption; try congruence; done.
Qed.
(** The code table when [md]'s code is released, for code with hash [new_hash];
    [bytes] is what the account gets back. *)
Definition released (md : account_metadata_object) (new_hash : digest_type) (gi gi' : generic_index code_object) (bytes : Z) : Prop :=
  exists id c, _indices gi !! id = Some c
    /\ code_by_hash (code_hash md) (vm_type md) (vm_version md) c = true
    /\ co_code_hash c <> new_hash
    /\ bytes = Z.of_nat (length (co_code c)) * setcode_ram_bytes_multiplier
    /\ _indices gi' = if code_ref_count c =? 1 then delete id (_indices gi)
                      else <[id := set_ref_count (u64 (code_ref_count c - 1)) c]> (_indices gi).

Definition used (code : list Z) (hash : digest_type) (type version : Z) (gi gi' : generic_index code_object) : Prop :=
  (exists id c, _indices gi !! id = Some c /\ code_by_hash hash type version c = true
     /\ _indices gi' = <[id := set_ref_count (u64 (code_ref_count c + 1)) c]> (_indices gi))
  \/ (find_by (code_by_hash hash type version) gi = None /\ exists id c,
      _indices gi !! id = None /\ violates code_conflict (_indices gi) id c = false
      /\ (co_code_hash c, co_code c, code_ref_count c, co_vm_type c, co_vm_version c) = (hash, code, 1, type, version)
      /\ _indices gi' = <[id := c]> (_indices gi)).

Lemma release_code_ok md new_hash d bytes d' : release_code md new_hash d = (Ok bytes, d') ->
  d' = set_nd_code (nd_code d') d /\ released md new_hash (nd_code d) (nd_code d') bytes.
Proof.
  unfold release_code. intros Hr. ninv. native_parts. btests.
  match goal with Hp : (if _ then _ else _) _ = _ |- _ => rename Hp into Hif end.
  match goal with Hd : bool_decide _ = false |- _ => apply bool_decide_eq_false in Hd end.
  unfold released. destruct (code_ref_count c =? 1) eqn:E; ninv; native_parts; simplify_eq; cbn in *.
  - split; [done|]. do 2 eexists. split_and!; try eassumption; try done. by rewrite E.
  - split; [done|]. do 2 eexists. split_and!; try eassumption; try done. by rewrite E.
Qed.

Lemma use_code_ok code hash type version d u d' : use_code cfg code hash type version d = (Ok u, d') ->
  d' = set_nd_code (nd_code d') d /\ used code hash type version (nd_code d) (nd_code d').
Proof.
  unfold use_code. intros Hr. ninv. unfold used.
  destruct (find_by _ _) as [[id c]|] eqn:E; ninv; native_parts; simplify_eq; cbn in *; (split; [done|]).
  - left. do 2 eexists. split_and!; try eassumption; done.
  - right. split; [done|]. match goal with Hp : emplace _ _ _ = _ |- _ => apply emplace_ok in Hp as (-> & Hn & Hv & Hi & _) end.
    do 2 eexists. split_and!; try eassumption; done.
Qed.

Lemma release_phase_ok md hash d bytes d' :
  (if negb (bool_decide (code_hash md = no_digest)) then release_code md hash else mret 0) d = (Ok bytes, d') ->
  d' = set_nd_code (nd_code d') d
  /\ if bool_decide (code_hash md = no_digest) then nd_code d' = nd_code d /\ bytes = 0
     else released md hash (nd_code d) (nd_code d') bytes.
Proof.
  case_bool_decide; cbn [negb]; [|apply release_code_ok]. intros Hr. ninv. by destruct d.
Qed.

Lemma use_phase_ok (size : Z) code hash type version d u d' :
  (if size >? 0 then use_code cfg code hash type version else mret tt) d = (Ok u, d') ->
  d' = set_nd_code (nd_code d') d
  /\ if size >? 0 then used code hash type version (nd_code d) (nd_code d') else nd_code d' = nd_code d.
Proof. destruct (size >? 0); [apply use_code_ok|]. intros Hr. ninv. by destruct d. Qed.

Lemma setcode_inv act d u d' : apply_eosio_setcode cfg act d = (Ok u, d') ->
  exists data mid md md' code1 old_size, let size := Z.of_nat (length (sc_code data)) in
    unpack_setcode (act_data act) = Ok data
    /\ _indices (nd_metadata d) !! mid = Some md /\ md_name md = sc_account data
    /\ (md_name md', code_hash md', vm_type md', vm_version md')
        = (md_name md, if size >? 0 then sha256 cfg (sc_code data) else no_digest, 0, 0)
    /\ _indices (nd_metadata d') = <[mid := md']> (_indices (nd_metadata d))
    /\ (if bool_decide (code_hash md = no_digest) then code1 = nd_code d /\ old_size = 0
        else released md (code_hash md') (nd_code d) code1 old_size)
    /\ (if size >? 0 then used (sc_code data) (code_hash md') 0 0 code1 (nd_code d') else nd_code d' = code1)
    /\ nd_auth d' = nd_auth d /\ nd_accounts d' = nd_accounts d
    /\ add_pending_ram_usage (sc_account data) (size * setcode_ram_bytes_multiplier - old_size) (nd_limits d)
         = (Ok tt, nd_limits d').
Proof.
  unfold apply_eosio_setcode. intros Hr. ninv. native_parts. btests.
  match goal with Ha : metadata_by_name _ _ = true |- _ => unfold metadata_by_name in Ha; btests end.
  match goal with Hp : (if negb (bool_decide _) then release_code _ _ else _) _ = (_, ?s) |- _ =>
    apply release_phase_ok in Hp as [E1 Hrel] end.
  match goal with Hp : (if _ then use_code _ _ _ _ _ else _) _ = (_, ?s) |- _ => apply use_phase_ok in Hp as [E2 Huse] end.
  rewrite E1 in E2. rewrite E2 in *. cbn in *. simplify_eq.
  match goal with Hm : vmtype _ = 0, Hv : vmversion _ = 0 |- _ => rewrite Hm, Hv in * end.
  match goal with Hc : nd_code d' = _ |- _ => rewrite Hc end.
  do 6 eexists. split; [eassumption|]. split; [eassumption|]. split; [eassumption|].
  split; [|split; [eassumption|]]; [reflexivity|]. split; [exact Hrel|]. split; [exact Huse|done].
Qed.
Lemma find_permission_ok (db : auth_db K) level r : find_permission db level = Ok r ->
  actor level <> 0 /\ permission level <> 0 /\ r = find_by (by_owner (actor level) (permission level)) (permissions db).
Proof. unfold find_permission. intros Hf. minv. btests. auto. Qed.

Lemma get_permission_found (db : auth_db K) level r : get_permission db level = Ok r <->
  actor level <> 0 /\ permission level <> 0
  /\ find_by (by_owner (actor level) (permission level)) (permissions db) = Some r.
Proof.
  unfold get_permission. split.
  - intros Hf. minv. btests. by destruct (find_by _ _); simplify_eq.
  - intros (Ha & Hp & ->). apply Z.eqb_neq in Ha as ->, Hp as ->. done.
Qed.

Lemma updateauth_parent_ok (is_owner : bool) account name d parent d' :
  (if negb is_owner then parent ← lift (get_permission (nd_auth d) (mk_pl account name)); mret parent.1 else mret 0) d
    = (Ok parent, d') ->
  d' = d /\ (parent = 0 \/ exists q, _indices (permissions (nd_auth d)) !! parent = Some q /\ po_owner q = account).
Proof.
  destruct is_owner; cbn [negb]; intros Hr; ninv; [by split; [|left]|]. split; [done|right].
  match goal with Hg : get_permission _ _ = _ |- _ => apply get_permission_found in Hg as (_ & _ & Hg) end.
  native_parts. unfold by_owner in *. btests. cbn in *. eauto.
Qed.

(** [updateauth] with [bytes] the size of an authority with its permission. *)
Definition permission_bytes (auth : authority K) : Z := billable_permission_object + authority_billable_size cfg auth.

Lemma updateauth_inv act d u d' : apply_eosio_updateauth cfg act d = (Ok u, d') ->
  exists upd, unpack_updateauth (act_data act) = Ok upd
    /\ (ua_account upd <> 0 /\ ua_permission upd <> 0 /\ validate (key_lt cfg) (ua_auth upd) = true)
    /\ account_exists d (ua_account upd) = true
    /\ ((exists id p, _indices (permissions (nd_auth d)) !! id = Some p
           /\ po_owner p = ua_account upd /\ po_name p = ua_permission upd
           /\ modify_permission (nc_auth cfg) id (ua_auth upd) (nd_auth d) = (Ok tt, nd_auth d')
           /\ add_pending_ram_usage (ua_account upd) (permission_bytes (ua_auth upd) - permission_bytes (po_auth p)) (nd_limits d)
                = (Ok tt, nd_limits d'))
       \/ (exists parent id,
           (parent = 0 \/ exists q, _indices (permissions (nd_auth d)) !! parent = Some q /\ po_owner q = ua_account upd)
           /\ create_permission (nc_auth cfg) (ua_account upd) (ua_permission upd) parent (ua_auth upd) 0 (nd_auth d) = (Ok id, nd_auth d')
           /\ add_pending_ram_usage (ua_account upd) (permission_bytes (ua_auth upd)) (nd_limits d) = (Ok tt, nd_limits d')))
    /\ nd_accounts d' = nd_accounts d /\ nd_metadata d' = nd_metadata d /\ nd_code d' = nd_code d.
Proof.
  unfold apply_eosio_updateauth. intros Hr. ninv. btests.
  match goal with Hf : find_permission _ _ = Ok _ |- _ => apply find_permission_ok in Hf as (Hacc & _ & ->) end.
  match goal with Ha : get_by _ (nd_accounts d) = _ |- _ => apply get_by_ok in Ha; rename Ha into Hfound end.
  match goal with Hp : (if negb _ then _ else _) d = (Ok ?par, _) |- _ => apply updateauth_parent_ok in Hp as [-> Hpar] end.
  exists x. split; [done|]. split; [done|]. split; [unfold account_exists; by rewrite Hfound|]. cbn [actor permission] in *.
  destruct (find_by _ (permissions (nd_auth d))) as [[id p]|] eqn:E; ninv; native_parts; unfold by_owner in *; btests; cbn in *; subst.
  - split; [left|done]. exists id, p. split_and!; try eassumption; unfold permission_bytes; congruence.
  - split; [right|done]. eexists _, _. split_and!; try eassumption; done.
Qed.
Lemma deleteauth_inv act d u d' : apply_eosio_deleteauth cfg act d = (Ok u, d') ->
  exists del id p, unpack_deleteauth (act_data act) = Ok del
    /\ (da_permission del <> active_name /\ da_permission del <> owner_name)
    /\ no_links (da_account del) (da_permission del) (links (nd_auth d)) = true
    /\ (da_account del <> 0 /\ _indices (permissions (nd_auth d)) !! id = Some p
        /\ po_owner p = da_account del /\ po_name p = da_permission del)
    /\ remove_permission (id, p) (nd_auth d) = (Ok tt, nd_auth d')
    /\ nd_accounts d' = nd_accounts d /\ nd_metadata d' = nd_metadata d /\ nd_code d' = nd_code d
    /\ add_pending_ram_usage (da_account del) (- permission_bytes (po_auth p)) (nd_limits d) = (Ok tt, nd_limits d').
Proof.
  unfold apply_eosio_deleteauth. intros Hr. ninv.
  match goal with Hg : get_permission _ _ = _ |- _ => apply get_permission_found in Hg as (? & _ & Hg) end.
  native_parts. unfold by_owner in *. btests. cbn in *. subst.
  do 3 eexists. split_and!; try eassumption; done.
Qed.

Lemma linkauth_inv act d u d' : apply_eosio_linkauth act d = (Ok u, d') ->
  exists r gi delta, unpack_linkauth (act_data act) = Ok r
    /\ account_exists d (la_account r) = true
    /\ (la_requirement r = eosio_any_name \/ permission_exists d (la_account r) (la_requirement r) = true)
    /\ ((delta = 0 /\ exists id l, _indices (links (nd_auth d)) !! id = Some l
           /\ (link_account l, link_code l, message_type l) = (la_account r, la_code r, la_type r)
           /\ _indices gi = <[id := mk_link (la_account r) (la_code r) (la_type r) (la_requirement r)]> (_indices (links (nd_auth d))))
       \/ (delta = billable_permission_link_object /\ exists id,
           let l := mk_link (la_account r) (la_code r) (la_type r) (la_requirement r) in
           _indices (links (nd_auth d)) !! id = None /\ violates link_conflict (_indices (links (nd_auth d))) id l = false
           /\ _indices gi = <[id := l]> (_indices (links (nd_auth d)))))
    /\ nd_auth d' = mk_auth_db (permissions (nd_auth d)) (usages (nd_auth d)) gi
    /\ nd_accounts d' = nd_accounts d /\ nd_metadata d' = nd_metadata d /\ nd_code d' = nd_code d
    /\ add_pending_ram_usage (la_account r) delta (nd_limits d) = (Ok tt, nd_limits d').
Proof.
  unfold apply_eosio_linkauth. intros Hr. ninv. btests.
  match goal with Hd : (_ =? _) = true \/ _ |- _ => rewrite Z.eqb_eq in Hd end.
  destruct (find_by _ _) as [[id l]|] eqn:E; ninv; native_parts; unfold by_action_name in *; btests; cbn in *; simplify_eq.
  - eexists x, _, 0. do 3 (split; [eassumption|]). split; [left; split; [done|]|done]. exists id, l. split_and!; try eassumption; congruence.
  - match goal with Hp : emplace _ _ _ = _ |- _ => apply emplace_ok in Hp as (-> & Hn & Hv & Hi & _) end.
    eexists x, _, _. do 3 (split; [eassumption|]).
    split; [right; split; [reflexivity|]; exists (_next_id (links (nd_auth d))); split_and!; eassumption|]. split; [congruence|done].
Qed.

Lemma unlinkauth_inv act d u d' : apply_eosio_unlinkauth act d = (Ok u, d') ->
  exists un id l gi, unpack_unlinkauth (act_data act) = Ok un
    /\ _indices (links (nd_auth d)) !! id = Some l /\ link_account l = ul_account un
    /\ _indices gi = delete id (_indices (links (nd_auth d)))
    /\ nd_auth d' = mk_auth_db (permissions (nd_auth d)) (usages (nd_auth d)) gi
    /\ nd_accounts d' = nd_accounts d /\ nd_metadata d' = nd_metadata d /\ nd_code d' = nd_code d
    /\ add_pending_ram_usage (ul_account un) (- billable_permission_link_object) (nd_limits d) = (Ok tt, nd_limits d').
Proof.
  unfold apply_eosio_unlinkauth. intros Hr. ninv.
  destruct (find_by _ _) as [[id l]|] eqn:E; ninv; native_parts; unfold by_action_name in *; btests; cbn in *; simplify_eq.
  match goal with Ha : nd_auth _ = nd_auth d |- _ => rewrite Ha in * end.
  eexists x, id, l, _. do 4 (split; [eassumption|]). split_and!; congruence.
Qed.
End Effects.
