(* ===== verification/NativeState.v ===== *)
(** * What the native actions keep true
      ([eosio_contract.cpp], [controller.cpp])

    The state of accounts, permissions, links and contract code under every
    sequence of native actions from genesis:
    - every account has its [owner] and [active] permission, its metadata and
      its resource usage, every permission has an account, every link names a
      permission that exists ([native_ok]);
    - the reference count of stored code is the number of accounts that run
      it, and code nobody runs is gone ([code_ok]). *)

From S2P Require Import Prelude Merkle Chainbase ResourceLimits Names Authority AuthorityChecker BlockHeader Authorization EosioContract.

Section Invariant.
Context {K : Type} `{EqDecision K} `{unpacker K} `{contract_unpacker K} (cfg : native_config K).
Implicit Types (d : native_db K) (db : auth_db K).

(** [fc::raw::unpack] reads weights of 16 bits and thresholds of 32. *)
Definition authority_widths (a : authority K) : Prop := authority_u16 a /\ is_u32 (threshold a).

Class unpacked_widths : Prop := {
  newaccount_widths data c : unpack_newaccount data = Ok c -> authority_widths (na_owner c) /\ authority_widths (na_active c);
  updateauth_widths data upd : unpack_updateauth data = Ok upd -> authority_widths (ua_auth upd) }.

(** One native action, executed successfully; a failed one is undone with its
    transaction.  Tables have 64-bit ids, so less than 2^64 objects. *)
Inductive native_step d d' : Prop :=
| native_step_intro act handler :
    find_apply_handler cfg system_account_name (act_account act) (act_name act) = Some handler ->
    handler act d = (Ok tt, d') ->
    Z.of_nat (size (_indices (nd_metadata d'))) < 2 ^ 64 ->
    native_step d d'.

Lemma find_apply_handler_inv receiver scope name handler : find_apply_handler cfg receiver scope name = Some handler ->
  exists n, (n, handler) ∈ apply_handlers cfg.
Proof.
  unfold find_apply_handler. destruct (_ && _); [|done].
  destruct (list_find _ _) as [[i [n h]]|] eqn:E; [|done]. intros [= <-].
  apply list_find_Some in E as (Hl & _). exists n. by eapply list_elem_of_lookup_2.
Qed.

(** ** Accounts, permissions and links *)
Definition named (gi : generic_index account_object) (name : Z) : Prop :=
  exists id a, _indices gi !! id = Some a /\ acc_name a = name.
Definition has_metadata (gi : generic_index account_metadata_object) (name : Z) : Prop :=
  exists id m, _indices gi !! id = Some m /\ md_name m = name.
Definition known db (account name : Z) : Prop :=
  exists id p, _indices (permissions db) !! id = Some p /\ po_owner p = account /\ po_name p = name.
Definition usage_widths (l : resource_limits_manager) : Prop :=
  forall a u, rl_usage l !! a = Some u -> is_u64 (ram_usage u).

Record native_ok d : Prop := {
  nk_auth : auth_ok (nd_auth d);
  nk_account_unique : unique account_conflict (_indices (nd_accounts d));
  nk_metadata_unique : unique metadata_conflict (_indices (nd_metadata d));
  nk_account name : named (nd_accounts d) name ->
    name <> 0 /\ known (nd_auth d) name owner_name /\ known (nd_auth d) name active_name
    /\ has_metadata (nd_metadata d) name /\ is_Some (rl_usage (nd_limits d) !! name);
  nk_owner id p : id <> 0 -> _indices (permissions (nd_auth d)) !! id = Some p -> named (nd_accounts d) (po_owner p);
  nk_link id l : _indices (links (nd_auth d)) !! id = Some l ->
    named (nd_accounts d) (link_account l)
    /\ (required_permission l = eosio_any_name \/ known (nd_auth d) (link_account l) (required_permission l));
  nk_link_unique : unique link_conflict (_indices (links (nd_auth d)));
  nk_usage : usage_widths (nd_limits d) }.

(** A known permission is found by [get_permission]. *)
Lemma known_get_permission db account name : account <> 0 -> name <> 0 -> known db account name ->
  is_Ok (get_permission db (mk_pl account name)).
Proof.
  intros Ha Hn (id & p & Hp & Ho & Hna). destruct (find_by (by_owner account name) (permissions db)) as [r|] eqn:E.
  - exists r. by apply get_permission_found.
  - apply (find_by_none _ _ _ _ E) in Hp. unfold by_owner in Hp. rewrite Ho, Hna, !Z.eqb_refl in Hp. done.
Qed.

(** *** Permissions *)
Lemma known_create (ac : auth_config K) account name parent auth t db id db' :
  create_permission ac account name parent auth t db = (Ok id, db') ->
  forall a n, known db' a n <-> known db a n \/ (a = account /\ n = name).
Proof.
  intros (uid & time & -> & _ & Hi & Hn)%create_permission_ok a n. unfold known. rewrite Hi. split.
  - intros (i & p & Hp & <- & <-). rewrite lookup_insert in Hp. case_decide; simplify_eq; [by right|]. left. by exists i, p.
  - intros [(i & p & Hp & <- & <-)|[-> ->]].
    + exists i, p. split; [|done]. rewrite lookup_insert_ne; [done|]. congruence.
    + eexists _, _. by rewrite lookup_insert_eq.
Qed.

Lemma known_modify (ac : auth_config K) id auth db db' u : modify_permission ac id auth db = (Ok u, db') ->
  forall a n, known db a n -> known db' a n.
Proof.
  intros (q & Hq & _ & Hi)%modify_permission_ok a n (i & p & Hp & <- & <-). unfold known. rewrite Hi.
  destruct (decide (i = id)) as [->|Hne].
  - eexists id, _. rewrite lookup_insert_eq. split; [done|]. by simplify_eq.
  - exists i, p. by rewrite lookup_insert_ne.
Qed.

Lemma known_remove id p db db' u : _indices (permissions db) !! id = Some p ->
  remove_permission (id, p) db = (Ok u, db') ->
  forall a n, known db a n -> ~ (a = po_owner p /\ n = po_name p) -> known db' a n.
Proof.
  intros Hp [_ Hi]%remove_permission_ok a n (i & q & Hq & <- & <-) Hne. unfold known. rewrite Hi.
  exists i, q. split; [|done]. rewrite lookup_delete_ne; [done|]. cbn. intros ->. simplify_eq. by apply Hne.
Qed.

Lemma create_permission_owner (ac : auth_config K) account name parent auth t db id db' (P : Z -> Prop) :
  create_permission ac account name parent auth t db = (Ok id, db') -> P account ->
  (forall i p, i <> 0 -> _indices (permissions db) !! i = Some p -> P (po_owner p)) ->
  forall i p, i <> 0 -> _indices (permissions db') !! i = Some p -> P (po_owner p).
Proof.
  intros (uid & time & -> & _ & Hi & Hn)%create_permission_ok Ha HP i p Hi0. rewrite Hi, lookup_insert.
  case_decide; intros; simplify_eq; eauto.
Qed.

(** *** Resource usage *)
Lemma add_pending_ram_usage_keeps a delta l l' : add_pending_ram_usage a delta l = (Ok tt, l') -> usage_widths l ->
  usage_widths l' /\ forall b, is_Some (rl_usage l !! b) -> is_Some (rl_usage l' !! b).
Proof.
  unfold add_pending_ram_usage, get_usage, put_usage. intros Hr Hw. destruct (delta =? 0); [minv; done|]. mrun.
  destruct (rl_usage l !! a) as [u|] eqn:Eu; [|done].
  destruct ((delta <=? 0) || _); [|done]. destruct ((0 <=? delta) || _); [|done]. simplify_eq. cbn. split.
  - intros b v. cbn. rewrite lookup_insert. case_decide; intros; simplify_eq; [apply u64_range|by eapply Hw].
  - intros b Hb. rewrite lookup_insert. case_decide; [eauto|done].
Qed.

Lemma initialize_account_ok a l l' : initialize_account a l = (Ok tt, l') ->
  rl_usage l !! a = None /\ rl_usage l' = <[a := usage_new]> (rl_usage l).
Proof.
  unfold initialize_account, create_limits, create_usage. intros Hr. mrun.
  destruct (rl_limits l !! (false, a)); [done|]. cbn in Hr.
  destruct (rl_usage l !! a) eqn:E; [done|]. simplify_eq. by cbn.
Qed.

Lemma initialize_account_keeps a l l' : initialize_account a l = (Ok tt, l') -> usage_widths l ->
  usage_widths l' /\ is_Some (rl_usage l' !! a) /\ forall b, is_Some (rl_usage l !! b) -> is_Some (rl_usage l' !! b).
Proof.
  intros [Hn Hu]%initialize_account_ok Hw. unfold usage_widths. rewrite Hu. split; [|split].
  - intros b v. rewrite lookup_insert. case_decide; intros; simplify_eq; [widths; cbn; lia|by eapply Hw].
  - rewrite lookup_insert_eq. eauto.
  - intros b Hb. rewrite lookup_insert. case_decide; [eauto|done].
Qed.
(** *** A new account *)
Lemma create_permission_auth_ok (ac : auth_config K) account name parent auth t db id db' :
  auth_ok db -> account <> 0 -> name <> 0 -> well_formed auth ->
  (parent = 0 \/ exists q, _indices (permissions db) !! parent = Some q /\ po_owner q = account) ->
  create_permission ac account name parent auth t db = (Ok id, db') ->
  auth_ok db' /\ exists q, _indices (permissions db') !! id = Some q /\ po_owner q = account.
Proof.
  intros Hok Ha Hn Hw Hp Hc. split; [exact (create_step_ok ac db account name parent auth t (Ok id) db' Hok Ha Hn Hw Hp Hc)|].
  apply create_permission_ok in Hc as (uid & time & -> & _ & Hi & _). rewrite Hi, lookup_insert_eq. eauto.
Qed.

Lemma named_emplace a gi id gi' : emplace account_conflict a gi = (Ok id, gi') ->
  forall n, named gi' n <-> named gi n \/ n = acc_name a.
Proof.
  intros (-> & Hn & _ & Hi & _)%emplace_ok n. unfold named. rewrite Hi. split.
  - intros (i & x & Hx & <-). rewrite lookup_insert in Hx. case_decide; simplify_eq; [by right|left; eauto].
  - intros [(i & x & Hx & <-)| ->]; [|eexists _, a; by rewrite lookup_insert_eq].
    exists i, x. rewrite lookup_insert_ne; [done|congruence].
Qed.

Lemma emplace_unique {B} (conflict : B -> B -> bool) b gi id gi' : (forall x y, conflict x y = conflict y x) ->
  unique conflict (_indices gi) -> emplace conflict b gi = (Ok id, gi') -> unique conflict (_indices gi').
Proof. intros Hs Hu (-> & Hn & Hv & -> & _)%emplace_ok. by apply unique_insert. Qed.

Lemma account_conflict_sym x y : account_conflict x y = account_conflict y x.
Proof. apply Z.eqb_sym. Qed.
Lemma metadata_conflict_sym x y : metadata_conflict x y = metadata_conflict y x.
Proof. apply Z.eqb_sym. Qed.
Lemma link_conflict_sym x y : link_conflict x y = link_conflict y x.
Proof. unfold link_conflict. by rewrite (Z.eqb_sym (link_account x)), (Z.eqb_sym (link_code x)), (Z.eqb_sym (message_type x)). Qed.

Lemma native_ok_new_account (ac : auth_config K) d d' n date abi_bin priv owner active t oid db1 aid id1 id2 l1 amount : native_ok d ->
  n <> 0 -> well_formed owner -> well_formed active ->
  create_permission ac n owner_name 0 owner t (nd_auth d) = (Ok oid, db1) ->
  create_permission ac n active_name oid active t db1 = (Ok aid, nd_auth d') ->
  emplace account_conflict (mk_account n date abi_bin) (nd_accounts d) = (Ok id1, nd_accounts d') ->
  emplace metadata_conflict (mk_metadata n 0 0 0 0 no_digest 0 priv 0 0) (nd_metadata d) = (Ok id2, nd_metadata d') ->
  initialize_account n (nd_limits d) = (Ok tt, l1) ->
  add_pending_ram_usage n amount l1 = (Ok tt, nd_limits d') -> native_ok d'.
Proof.
  intros [] Hn Hwo Hwa Hc1 Hc2 Ha Hm Hl1 Hl2.
  destruct (create_permission_auth_ok ac n owner_name 0 owner t _ _ _ nk_auth0 Hn ltac:(done) Hwo (or_introl eq_refl) Hc1) as [Hok1 Hq].
  destruct (create_permission_auth_ok ac n active_name oid active t _ _ _ Hok1 Hn ltac:(done) Hwa (or_intror Hq) Hc2) as [Hok2 _].
  pose proof (named_emplace _ _ _ _ Ha) as Hnamed. cbn in Hnamed.
  pose proof (known_create _ _ _ _ _ _ _ _ _ Hc1) as Hk1. pose proof (known_create _ _ _ _ _ _ _ _ _ Hc2) as Hk2.
  assert (Hlinks : links (nd_auth d') = links (nd_auth d)).
  { apply create_permission_ok in Hc1 as (? & ? & _ & <- & _), Hc2 as (? & ? & _ & <- & _). done. }
  apply initialize_account_keeps in Hl1 as (Hw1 & Hs1 & Hkeep1); [|done].
  apply add_pending_ram_usage_keeps in Hl2 as (Hw2 & Hkeep2); [|done].
  assert (Hmeta : forall x, has_metadata (nd_metadata d) x \/ x = n -> has_metadata (nd_metadata d') x).
  { apply emplace_ok in Hm as (-> & Hnone & _ & Hi & _). intros x Hx. unfold has_metadata. rewrite Hi.
    destruct Hx as [(i & m & Hx & <-)| ->]; [exists i, m; rewrite lookup_insert_ne; [done|congruence]|].
    eexists _, _. by rewrite lookup_insert_eq. }
  split.
  - done.
  - eapply emplace_unique; [apply account_conflict_sym| |exact Ha]. done.
  - eapply emplace_unique; [apply metadata_conflict_sym| |exact Hm]. done.
  - intros x [Hx| ->]%Hnamed.
    + destruct (nk_account0 x Hx) as (? & ? & ? & ? & ?). rewrite !Hk2, !Hk1. auto 10.
    + rewrite !Hk2, !Hk1. auto 10.
  - eapply (create_permission_owner _ _ _ _ _ _ _ _ _ _ Hc2); [apply Hnamed; by right|].
    eapply (create_permission_owner _ _ _ _ _ _ _ _ _ _ Hc1); [apply Hnamed; by right|].
    intros i p Hi Hp. apply Hnamed. left. by eapply nk_owner0.
  - rewrite Hlinks. intros i l Hl. destruct (nk_link0 i l Hl) as [? Hr]. rewrite Hnamed, Hk2, Hk1. tauto.
  - by rewrite Hlinks.
  - done.
Qed.

(** *** The other actions leave the names of accounts alone *)
Definition same_keys_map {B} (key : B -> Z) (m m' : gmap Z B) : Prop := forall i, key <$> m !! i = key <$> m' !! i.

Lemma same_keys_modify {B} (key : B -> Z) m i b b' : m !! i = Some b -> key b' = key b ->
  same_keys_map key m (<[i := b']> m).
Proof. intros Hb Hk j. rewrite lookup_insert. case_decide; [subst; rewrite Hb; cbn; by rewrite Hk|done]. Qed.

Lemma same_keys_found {B} (key : B -> Z) m m' k : same_keys_map key m m' ->
  (exists i b, m !! i = Some b /\ key b = k) -> exists i b, m' !! i = Some b /\ key b = k.
Proof.
  intros Hs (i & b & Hb & <-). specialize (Hs i). rewrite Hb in Hs. cbn in Hs. symmetry in Hs.
  apply fmap_Some in Hs as (b' & Hb' & ->). eauto.
Qed.

Lemma same_keys_sym {B} (key : B -> Z) m m' : same_keys_map key m m' -> same_keys_map key m' m.
Proof. intros Hs i. by rewrite Hs. Qed.

Lemma same_keys_unique {B} (key : B -> Z) m m' : same_keys_map key m m' ->
  unique (fun x y => key x =? key y) m -> unique (fun x y => key x =? key y) m'.
Proof.
  intros Hs Hu i j b c Hij Hb Hc. pose proof (Hs i) as Hi. pose proof (Hs j) as Hj. rewrite Hb in Hi. rewrite Hc in Hj.
  cbn in *. apply fmap_Some in Hi as (b' & Hb' & ->), Hj as (c' & Hc' & ->). by apply (Hu i j).
Qed.

Lemma native_ok_frame d d' a delta : native_ok d ->
  same_keys_map acc_name (_indices (nd_accounts d)) (_indices (nd_accounts d')) ->
  same_keys_map md_name (_indices (nd_metadata d)) (_indices (nd_metadata d')) ->
  add_pending_ram_usage a delta (nd_limits d) = (Ok tt, nd_limits d') ->
  auth_ok (nd_auth d') ->
  (forall x n, n = owner_name \/ n = active_name -> known (nd_auth d) x n -> known (nd_auth d') x n) ->
  (forall i p, i <> 0 -> _indices (permissions (nd_auth d')) !! i = Some p -> named (nd_accounts d) (po_owner p)) ->
  (forall i l, _indices (links (nd_auth d')) !! i = Some l -> named (nd_accounts d) (link_account l)
     /\ (required_permission l = eosio_any_name \/ known (nd_auth d') (link_account l) (required_permission l))) ->
  unique link_conflict (_indices (links (nd_auth d'))) -> native_ok d'.
Proof.
  intros [] Ha Hm Hl Hauth Hk Hown Hlink Hlu.
  apply add_pending_ram_usage_keeps in Hl as [Hw Hkeep]; [|done].
  assert (Hfwd : forall x, named (nd_accounts d) x -> named (nd_accounts d') x) by (intros x; by apply same_keys_found).
  assert (Hbwd : forall x, named (nd_accounts d') x -> named (nd_accounts d) x) by (intros x; by apply same_keys_found, same_keys_sym).
  split; try done.
  - by eapply (same_keys_unique acc_name).
  - by eapply (same_keys_unique md_name).
  - intros x Hx%Hbwd. destruct (nk_account0 x Hx) as (? & ? & ? & ? & ?). split_and!; auto. by eapply same_keys_found.
  - intros i p Hi Hp. eauto.
  - intros i l Hi. destruct (Hlink i l Hi). auto.
Qed.
Lemma stored_nonzero db id p : auth_ok db -> _indices (permissions db) !! id = Some p -> po_owner p <> 0 -> id <> 0.
Proof. intros Hok Hp Ho ->. rewrite (ao_reserved db Hok) in Hp. by simplify_eq. Qed.

Lemma account_exists_named d name : account_exists d name = true <-> named (nd_accounts d) name.
Proof.
  unfold account_exists, named. split.
  - destruct (find_by _ _) as [[i a]|] eqn:E; [|done]. apply find_by_some in E as [Hi Ha]. unfold account_by_name in Ha.
    btests. eauto.
  - intros (i & a & Hi & <-). destruct (find_by _ _) eqn:E; [done|]. apply (find_by_none _ _ _ _ E) in Hi.
    unfold account_by_name in Hi. by rewrite Z.eqb_refl in Hi.
Qed.

Lemma permission_exists_known d account name : permission_exists d account name = true -> known (nd_auth d) account name.
Proof.
  unfold permission_exists, known. destruct (find_by _ _) as [[i p]|] eqn:E; [|done]. intros _.
  apply find_by_some in E as [Hi Hp]. unfold by_owner in Hp. btests. eauto.
Qed.

Context `{!unpacked_widths}.

Lemma newaccount_native_ok act u d d' : native_ok d -> apply_eosio_newaccount cfg act d = (Ok u, d') -> native_ok d'.
Proof.
  intros Hok (c & oid & db1 & aid & id1 & id2 & l1 & Hc & (Hn & Hvo & Hva) & Hc1 & Hc2 & Ha & Hm & _ & Hl1 & Hl2)%newaccount_inv.
  destruct (newaccount_widths _ _ Hc) as [[] []].
  eapply native_ok_new_account; try eassumption; by eapply validate_well_formed.
Qed.

(** Actions that leave the authorizations alone. *)
Lemma native_ok_same_auth d d' a delta : native_ok d -> nd_auth d' = nd_auth d ->
  same_keys_map acc_name (_indices (nd_accounts d)) (_indices (nd_accounts d')) ->
  same_keys_map md_name (_indices (nd_metadata d)) (_indices (nd_metadata d')) ->
  add_pending_ram_usage a delta (nd_limits d) = (Ok tt, nd_limits d') -> native_ok d'.
Proof.
  intros Hok Ha Hacc Hm Hl. eapply native_ok_frame; try eassumption; rewrite ?Ha; try apply Hok. done.
Qed.

Lemma setcode_native_ok act u d d' : native_ok d -> apply_eosio_setcode cfg act d = (Ok u, d') -> native_ok d'.
Proof.
  intros Hok (data & mid & md & md' & c1 & os & _ & Hmd & _ & Hk & Hm & _ & _ & Ha & Hacc & Hl)%setcode_inv.
  injection Hk as Hk _ _ _. eapply native_ok_same_auth; try eassumption; rewrite ?Hacc, ?Hm; [done|by eapply same_keys_modify].
Qed.

Lemma setabi_native_ok act u d d' : native_ok d -> apply_eosio_setabi act d = (Ok u, d') -> native_ok d'.
Proof.
  intros Hok (data & id & a & mid & md & md' & _ & Hid & _ & Hacc & Hmd & [Hk _] & Hm & Ha & _ & Hl)%setabi_inv.
  eapply native_ok_same_auth; try eassumption; rewrite ?Hacc, ?Hm; by eapply same_keys_modify.
Qed.

(** Actions that leave accounts and their metadata alone. *)
Lemma native_ok_same_accounts d d' a delta : native_ok d -> nd_accounts d' = nd_accounts d -> nd_metadata d' = nd_metadata d ->
  add_pending_ram_usage a delta (nd_limits d) = (Ok tt, nd_limits d') -> auth_ok (nd_auth d') ->
  (forall x n, n = owner_name \/ n = active_name -> known (nd_auth d) x n -> known (nd_auth d') x n) ->
  (forall i p, i <> 0 -> _indices (permissions (nd_auth d')) !! i = Some p -> named (nd_accounts d) (po_owner p)) ->
  (forall i l, _indices (links (nd_auth d')) !! i = Some l -> named (nd_accounts d) (link_account l)
     /\ (required_permission l = eosio_any_name \/ known (nd_auth d') (link_account l) (required_permission l))) ->
  unique link_conflict (_indices (links (nd_auth d'))) -> native_ok d'.
Proof. intros Hok Ha Hm Hl. intros. eapply native_ok_frame; try eassumption; by rewrite ?Ha, ?Hm. Qed.

Lemma updateauth_native_ok act u d d' : native_ok d -> apply_eosio_updateauth cfg act d = (Ok u, d') -> native_ok d'.
Proof.
  intros Hok (upd & Hupd & (Ha & Hn & Hv) & Hex%account_exists_named & Hcases & Hacc & Hmd & _)%updateauth_inv.
  destruct (updateauth_widths _ _ Hupd) as [Hw Ht].
  assert (Hwf : well_formed (ua_auth upd)) by (by eapply validate_well_formed).
  destruct Hcases as [(id & p & Hp & Ho & Hpn & Hmod & Hl)|(parent & id & Hpar & Hcr & Hl)].
  - pose proof (known_modify _ _ _ _ _ _ Hmod) as Hk. assert (Hid : id <> 0) by (eapply stored_nonzero; [apply Hok|done|congruence]).
    pose proof Hmod as (q & Hq & Hlk & Hi)%modify_permission_ok. simplify_eq.
    eapply native_ok_same_accounts; try eassumption.
    + eapply modify_step_ok; [apply Hok|exact Hid|exact Hp|exact Hwf|exact Hmod].
    + eauto.
    + intros i po Hi0. rewrite Hi, lookup_insert. case_decide; intros; simplify_eq; [cbn; by rewrite Ho|by eapply (nk_owner d Hok)].
    + rewrite Hlk. intros i l Hil. destruct (nk_link d Hok i l Hil) as [? [?|?]]; auto.
    + rewrite Hlk. apply Hok.
  - pose proof (known_create _ _ _ _ _ _ _ _ _ Hcr) as Hk. pose proof Hcr as (? & ? & _ & Hlk & _)%create_permission_ok.
    eapply native_ok_same_accounts; try eassumption.
    + eapply (create_permission_auth_ok (nc_auth cfg)); [apply Hok|exact Ha|exact Hn|exact Hwf|exact Hpar|exact Hcr].
    + intros y n _. rewrite Hk. auto.
    + eapply create_permission_owner; [exact Hcr|done|apply Hok].
    + rewrite Hlk. intros i l Hil. rewrite Hk. destruct (nk_link d Hok i l Hil) as [? [?|?]]; auto.
    + rewrite Hlk. apply Hok.
Qed.

Lemma deleteauth_native_ok act u d d' : native_ok d -> apply_eosio_deleteauth cfg act d = (Ok u, d') -> native_ok d'.
Proof.
  intros Hok (del & id & p & _ & (Hna & Hno) & Hnl & (Ha & Hp & Ho & Hpn) & Hrem & Hacc & Hmd & _ & Hl)%deleteauth_inv.
  assert (Hid : id <> 0) by (eapply stored_nonzero; [apply Hok|done|congruence]).
  pose proof (known_remove _ _ _ _ _ Hp Hrem) as Hk. pose proof Hrem as [Hlk Hi]%remove_permission_ok.
  eapply native_ok_same_accounts; try eassumption.
  - eapply remove_step_ok; [apply Hok|exact Hid|exact Hp|exact Hrem].
  - intros y n Hn Hy. apply Hk; [done|]. intros [_ ->]. rewrite Hpn in Hn. destruct Hn; congruence.
  - intros i q Hi0. rewrite Hi. intros [_ Hq]%lookup_delete_Some. by eapply (nk_owner d Hok).
  - rewrite Hlk. intros i l Hil. destruct (nk_link d Hok i l Hil) as [? [?|Hreq]]; [auto|]. split; [done|right].
    apply Hk; [done|]. intros [E1 E2]. unfold no_links in Hnl. destruct (find_by _ _) eqn:E; [done|].
    apply (find_by_none _ _ _ _ E) in Hil. rewrite E1, E2, Ho, Hpn, !Z.eqb_refl in Hil. done.
  - rewrite Hlk. apply Hok.
Qed.

Lemma linkauth_native_ok act u d d' : native_ok d -> apply_eosio_linkauth act d = (Ok u, d') -> native_ok d'.
Proof.
  intros Hok (r & gi & delta & _ & Hex%account_exists_named & Hreq & Hcases & Ha & Hacc & Hmd & _ & Hl)%linkauth_inv.
  assert (Hreq' : la_requirement r = eosio_any_name \/ known (nd_auth d) (la_account r) (la_requirement r)).
  { destruct Hreq as [?|?%permission_exists_known]; auto. }
  assert (Hauth : auth_ok (nd_auth d')) by (rewrite Ha; destruct (nk_auth d Hok); by split).
  eapply native_ok_same_accounts; try eassumption; rewrite Ha; cbn; try done; try apply Hok.
  - intros i l. destruct Hcases as [(_ & id & l0 & _ & _ & ->)|(_ & id & _ & _ & ->)]; rewrite lookup_insert;
      (case_decide; intros; simplify_eq; [by cbn|by eapply (nk_link d Hok)]).
  - destruct Hcases as [(_ & id & l0 & Hl0 & Hkey & ->)|(_ & id & Hnone & Hv & ->)];
      (apply unique_insert; [apply link_conflict_sym|apply Hok|]); [|done].
    injection Hkey as E1 E2 E3. eapply (unique_modify link_conflict); [apply Hok|exact Hl0|].
    unfold same_keys, link_conflict. cbn. by rewrite <- E1, <- E2, <- E3.
Qed.

Lemma unlinkauth_native_ok act u d d' : native_ok d -> apply_eosio_unlinkauth act d = (Ok u, d') -> native_ok d'.
Proof.
  intros Hok (un & id & l & gi & _ & Hid & _ & Hgi & Ha & Hacc & Hmd & _ & Hl)%unlinkauth_inv.
  assert (Hauth : auth_ok (nd_auth d')) by (rewrite Ha; destruct (nk_auth d Hok); by split).
  eapply native_ok_same_accounts; try eassumption; rewrite Ha; cbn; try done; try apply Hok.
  - intros i x. rewrite Hgi. intros [_ Hx]%lookup_delete_Some. by eapply (nk_link d Hok).
  - rewrite Hgi. apply unique_delete; [apply link_conflict_sym|apply Hok].
Qed.

Lemma native_step_ok d d' : native_ok d -> native_step d d' -> native_ok d'.
Proof.
  intros Hok [act handler (n & Hin)%find_apply_handler_inv Hr _]. unfold apply_handlers in Hin.
  rewrite !elem_of_cons, elem_of_nil in Hin. 
  destruct Hin as [Hin|[Hin|[Hin|[Hin|[Hin|[Hin|[Hin|[]]]]]]]]; apply (f_equal snd) in Hin; cbn [snd] in Hin; subst handler.
  - by eapply newaccount_native_ok.
  - by eapply setcode_native_ok.
  - by eapply setabi_native_ok.
  - by eapply updateauth_native_ok.
  - by eapply deleteauth_native_ok.
  - by eapply linkauth_native_ok.
  - by eapply unlinkauth_native_ok.
Qed.
(** *** Genesis *)
Lemma verify_account_ram_usage_pure a l u l' : verify_account_ram_usage a l = (Ok u, l') -> l' = l.
Proof.
  unfold verify_account_ram_usage, get_account_limits, get_limits, get_usage. intros Hr. mrun.
  destruct (rl_limits l !! (true, a)); cbn in Hr; [|destruct (rl_limits l !! (false, a)); [|done]; cbn in Hr];
    (destruct (rl_usage l !! a); [|done]); destruct (0 <=? _); mrun; by simplify_eq.
Qed.

Lemma create_native_account_inv ts ab name owner active priv d u d' :
  create_native_account cfg ts ab name owner active priv d = (Ok u, d') ->
  exists oid db1 aid id1 id2 l1 amount,
    create_permission (nc_auth cfg) name owner_name 0 owner ts (nd_auth d) = (Ok oid, db1)
    /\ create_permission (nc_auth cfg) name active_name oid active ts db1 = (Ok aid, nd_auth d')
    /\ emplace account_conflict (mk_account name (set_time_point ts) (if name =? system_account_name then ab else []))
         (nd_accounts d) = (Ok id1, nd_accounts d')
    /\ emplace metadata_conflict (mk_metadata name 0 0 0 0 no_digest 0 (if priv then 1 else 0) 0 0) (nd_metadata d)
         = (Ok id2, nd_metadata d')
    /\ nd_code d' = nd_code d /\ initialize_account name (nd_limits d) = (Ok tt, l1)
    /\ add_pending_ram_usage name amount l1 = (Ok tt, nd_limits d').
Proof.
  unfold create_native_account. intros Hr. ninv.
  match goal with Hv : verify_account_ram_usage _ _ = _ |- _ => apply verify_account_ram_usage_pure in Hv as -> end.
  repeat eexists; try eassumption; done.
Qed.

Lemma create_native_account_ok ts ab name owner active priv d u d' : native_ok d -> name <> 0 ->
  well_formed owner -> well_formed active ->
  create_native_account cfg ts ab name owner active priv d = (Ok u, d') -> native_ok d'.
Proof.
  intros Hok Hn Hwo Hwa (oid & db1 & aid & id1 & id2 & l1 & amount & Hc1 & Hc2 & Ha & Hm & _ & Hl1 & Hl2)%create_native_account_inv.
  exact (native_ok_new_account _ _ _ _ _ _ _ _ _ _ _ _ _ _ _ _ _ Hok Hn Hwo Hwa Hc1 Hc2 Ha Hm Hl1 Hl2).
Qed.

Lemma more_permission_ok account name parent auth t d id db' : native_ok d -> named (nd_accounts d) account -> name <> 0 ->
  well_formed auth ->
  (exists q, _indices (permissions (nd_auth d)) !! parent = Some q /\ po_owner q = account) ->
  create_permission (nc_auth cfg) account name parent auth t (nd_auth d) = (Ok id, db') ->
  native_ok (set_nd_auth db' d) /\ exists q, _indices (permissions db') !! id = Some q /\ po_owner q = account.
Proof.
  intros Hok Hacc Hn Hw Hp Hcr. destruct (nk_account d Hok account Hacc) as (Ha & _).
  destruct (create_permission_auth_ok (nc_auth cfg) _ _ _ _ _ _ _ _ (nk_auth d Hok) Ha Hn Hw (or_intror Hp) Hcr) as [Hauth Hq].
  split; [|done]. pose proof (known_create _ _ _ _ _ _ _ _ _ Hcr) as Hk. pose proof Hcr as (? & ? & _ & Hlk & _)%create_permission_ok.
  eapply (native_ok_same_accounts d (set_nd_auth db' d) account 0); try done.
  - intros y n _. cbn. rewrite Hk. auto.
  - eapply create_permission_owner; [exact Hcr|done|apply Hok].
  - cbn. rewrite Hlk. intros i l Hil. rewrite Hk. destruct (nk_link d Hok i l Hil) as [? [?|?]]; auto.
  - cbn. rewrite Hlk. apply Hok.
Qed.

Lemma empty_native_ok db : auth_ok db -> links db = index_empty ->
  (forall id p, id <> 0 -> _indices (permissions db) !! id <> Some p) ->
  native_ok (set_nd_auth db empty_native_db).
Proof.
  intros Hok Hl Hp. split; cbn; try done.
  - by intros n (id & a & Ha & _).
  - intros id p Hid Hp'. by destruct (Hp id p Hid).
  - rewrite Hl. by intros id l ?.
  - rewrite Hl. by intros i j b c _ ?.
Qed.

Lemma reserved_only id : id <> 0 ->
  _indices (permissions (Authorization.initialize_database (K := K) empty_auth_db).2) !! id = None.
Proof.
  intros Hid. assert (E : _indices (permissions (Authorization.initialize_database (K := K) empty_auth_db).2) = <[0 := default_permission]> ∅)
    by reflexivity.
  by rewrite E, lookup_insert_ne, lookup_empty.
Qed.

Lemma genesis_names : system_account_name <> 0 /\ null_account_name <> 0 /\ producers_account_name <> 0
  /\ majority_producers_permission_name <> 0 /\ minority_producers_permission_name <> 0
  /\ owner_name <> 0 /\ active_name <> 0.
Proof. by vm_compute. Qed.

Lemma initialize_accounts_ok ts key ab u d : initialize_accounts cfg ts key ab empty_native_db = (Ok u, d) -> native_ok d.
Proof.
  assert (Hw1 : forall k : K, well_formed (authority_of_key k 0)) by (split; [done|]; split; [repeat constructor; cbn; lia|done]).
  assert (Hw2 : well_formed (mk_authority 1 [] [] [] : authority K)) by (split; [done|]; by split; [constructor|]).
  assert (Hw3 : well_formed (mk_authority 1 [] [mk_plw (mk_pl system_account_name active_name) 1] [] : authority K))
    by (split; [done|]; split; [repeat constructor; cbn; lia|done]).
  unfold initialize_accounts. intros Hr. ninv.
  match goal with Hi : Authorization.initialize_database _ = (_, ?db) |- _ =>
    assert (Hdb : db = (Authorization.initialize_database empty_auth_db).2)
      by (symmetry; exact (f_equal snd Hi)) end.
  assert (Hok : native_ok (set_nd_auth x1 empty_native_db)).
  { subst. apply empty_native_ok; [apply initialize_ok|done|]. intros id p Hid. by rewrite reserved_only. }
  repeat match goal with Hc : create_native_account _ _ _ _ _ _ _ ?s0 = (_, ?s), Ho : native_ok ?s0 |- _ =>
    apply (create_native_account_ok _ _ _ _ _ _ _ _ _ Ho) in Hc; [|first [by apply genesis_names|done]..] end.
  match goal with Hg : get_permission _ _ = Ok ?r |- _ => apply get_permission_found in Hg as (_ & _ & Hg); destruct r as [pid po];
    apply find_by_some in Hg as [Hp Hby]; unfold by_owner in Hby; apply andb_true_iff in Hby as [Ho%Z.eqb_eq _] end.
  destruct genesis_names as (_ & _ & Hprods & Hmajor & Hminor & _). cbn [fst actor permission] in *.
  match goal with Ho6 : native_ok ?d, Hc : create_permission _ _ _ pid _ _ (nd_auth ?d) = _ |- _ =>
    assert (Hn : named (nd_accounts d) producers_account_name)
      by (rewrite <- Ho; apply (nk_owner d Ho6 pid po); [|done]; eapply stored_nonzero; [apply Ho6|done|by rewrite Ho]);
    destruct (more_permission_ok _ _ _ _ _ _ _ _ Ho6 Hn Hmajor Hw3 ltac:(eauto) Hc) as [Ho7 Hq] end.
  match goal with Hc : create_permission _ _ minority_producers_permission_name _ _ _ _ = _ |- _ =>
    by destruct (more_permission_ok _ _ _ _ _ _ _ _ Ho7 Hn Hminor Hw3 Hq Hc) end.
Qed.
End Invariant.

(** ** Contract code *)
Section Code.
Context {K : Type} `{EqDecision K} `{unpacker K} `{contract_unpacker K} (cfg : native_config K).
Implicit Types (d : native_db K) (gi : generic_index code_object) (c : code_object) (md : account_metadata_object).

(** Code with the same hash has the same length, and no code has the hash that
    stands for no code. *)
Class code_hashing : Prop := {
  sha256_length code code' : sha256 cfg code = sha256 cfg code' -> length code = length code';
  sha256_digest code : sha256 cfg code <> no_digest }.

Definition runs (hash : digest_type) (type version : Z) md : bool :=
  bool_decide (code_hash md = hash) && (vm_type md =? type) && (vm_version md =? version).

(** How many accounts run a piece of code, and what the table says. *)
Definition refs (m : gmap Z account_metadata_object) (hash : digest_type) (type version : Z) : Z :=
  map_sum (fun _ md => if runs hash type version md then 1 else 0) m.

Definition ref_count_of gi (hash : digest_type) (type version : Z) : Z :=
  match find_by (code_by_hash hash type version) gi with Some r => code_ref_count r.2 | None => 0 end.

Record code_table_ok gi : Prop := {
  ck_unique : unique code_conflict (_indices gi);
  ck_live id c : _indices gi !! id = Some c -> 0 < code_ref_count c;
  ck_hash id c : _indices gi !! id = Some c -> co_code_hash c = sha256 cfg (co_code c) }.

Record code_ok d : Prop := {
  ck_table : code_table_ok (nd_code d);
  ck_count hash type version : hash <> no_digest ->
    ref_count_of (nd_code d) hash type version = refs (_indices (nd_metadata d)) hash type version }.

Lemma code_by_hash_true h t v c : code_by_hash h t v c = true <-> co_code_hash c = h /\ co_vm_type c = t /\ co_vm_version c = v.
Proof. unfold code_by_hash. rewrite !andb_true_iff, bool_decide_eq_true, !Z.eqb_eq. tauto. Qed.

Lemma runs_true h t v md : runs h t v md = true <-> code_hash md = h /\ vm_type md = t /\ vm_version md = v.
Proof. unfold runs. rewrite !andb_true_iff, bool_decide_eq_true, !Z.eqb_eq. tauto. Qed.

Lemma code_key_unique gi i j c c' : unique code_conflict (_indices gi) -> _indices gi !! i = Some c -> _indices gi !! j = Some c' ->
  co_code_hash c = co_code_hash c' -> co_vm_type c = co_vm_type c' -> co_vm_version c = co_vm_version c' -> i = j.
Proof.
  intros Hu Hc Hc' E1 E2 E3. destruct (decide (i = j)) as [|Hij]; [done|]. pose proof (Hu i j c c' Hij Hc Hc') as Hf.
  unfold code_conflict in Hf. rewrite E1, E2, E3, !Z.eqb_refl, bool_decide_true in Hf; done.
Qed.

Lemma find_code_stored gi id c h t v : unique code_conflict (_indices gi) -> _indices gi !! id = Some c ->
  code_by_hash h t v c = true -> find_by (code_by_hash h t v) gi = Some (id, c).
Proof.
  intros Hu Hc Hk. destruct (find_by _ gi) as [[j c']|] eqn:E.
  - apply find_by_some in E as [Hj Hk']. apply code_by_hash_true in Hk as (? & ? & ?), Hk' as (? & ? & ?).
    assert (j = id) as -> by (eapply code_key_unique; try eassumption; congruence). congruence.
  - apply (find_by_none _ _ _ _ E) in Hc. congruence.
Qed.

Lemma ref_count_stored gi id c : unique code_conflict (_indices gi) -> _indices gi !! id = Some c ->
  ref_count_of gi (co_code_hash c) (co_vm_type c) (co_vm_version c) = code_ref_count c.
Proof. intros Hu Hc. unfold ref_count_of. erewrite find_code_stored; [done|done|exact Hc|]. by apply code_by_hash_true. Qed.

Lemma ref_count_none gi h t v : (forall id c, _indices gi !! id = Some c -> code_by_hash h t v c = false) -> ref_count_of gi h t v = 0.
Proof.
  intros Hn. unfold ref_count_of. destruct (find_by _ gi) as [[j c']|] eqn:E; [|done].
  apply find_by_some in E as [Hj Hk]. apply Hn in Hj. congruence.
Qed.

(** A table that differs only in code with another key counts the same. *)
Lemma ref_count_same gi gi' h t v : unique code_conflict (_indices gi) -> unique code_conflict (_indices gi') ->
  (forall id c, code_by_hash h t v c = true -> _indices gi !! id = Some c <-> _indices gi' !! id = Some c) ->
  ref_count_of gi' h t v = ref_count_of gi h t v.
Proof.
  intros Hu Hu' Hs. unfold ref_count_of at 2. destruct (find_by _ gi) as [[j c]|] eqn:E.
  - apply find_by_some in E as [Hj Hk]. apply (Hs j c Hk) in Hj. unfold ref_count_of.
    by erewrite find_code_stored by done.
  - apply ref_count_none. intros i c Hc. destruct (code_by_hash h t v c) eqn:Hk; [|done].
    apply (Hs i c Hk) in Hc. apply (find_by_none _ _ _ _ E) in Hc. congruence.
Qed.
Lemma code_conflict_sym c c' : code_conflict c c' = code_conflict c' c.
Proof.
  unfold code_conflict. rewrite (Z.eqb_sym (co_vm_type c)), (Z.eqb_sym (co_vm_version c)). do 2 f_equal.
  by apply bool_decide_ext.
Qed.

Lemma code_table_set_ref_count gi gi' id c n : code_table_ok gi -> _indices gi !! id = Some c -> 0 < n ->
  _indices gi' = <[id := set_ref_count n c]> (_indices gi) ->
  code_table_ok gi' /\ forall h t v, ref_count_of gi' h t v = if code_by_hash h t v c then n else ref_count_of gi h t v.
Proof.
  intros [Hu Hl Hh] Hc Hn Hi.
  assert (Hu' : unique code_conflict (_indices gi')).
  { rewrite Hi. apply unique_insert; [apply code_conflict_sym|done|].
    eapply (unique_modify code_conflict); [done|exact Hc|]. unfold same_keys, code_conflict. by cbn. }
  split; [split; [done|..]; intros j x; rewrite Hi, lookup_insert; case_decide; intros; simplify_eq; cbn; eauto|].
  intros h t v. destruct (code_by_hash h t v c) eqn:Hk.
  - apply code_by_hash_true in Hk as (<- & <- & <-).
    apply (ref_count_stored gi' id (set_ref_count n c) Hu'). by rewrite Hi, lookup_insert_eq.
  - apply ref_count_same; [done..|]. intros j x Hx. rewrite Hi, lookup_insert. case_decide as E; [|done]. subst j.
    split; intros; simplify_eq; unfold code_by_hash in *; cbn in *; congruence.
Qed.

Lemma released_ok md new_hash gi gi' bytes : code_table_ok gi -> released md new_hash gi gi' bytes ->
  (forall id c, _indices gi !! id = Some c -> code_ref_count c < 2 ^ 64) ->
  code_table_ok gi'
  /\ forall h t v, ref_count_of gi' h t v = ref_count_of gi h t v - if runs h t v md then 1 else 0.
Proof.
  intros Hok (id & c & Hc & Hk & _ & _ & Hi) Hb. pose proof Hok as [Hu Hl Hh].
  pose proof (ref_count_stored gi id c Hu Hc) as Hrc.
  assert (Hruns : forall h t v, runs h t v md = code_by_hash h t v c).
  { intros h t v. apply code_by_hash_true in Hk as (E1 & E2 & E3). unfold runs, code_by_hash. by rewrite E1, E2, E3. }
  destruct (Z.eqb_spec (code_ref_count c) 1) as [E1|Hne].
  - assert (Hu' : unique code_conflict (_indices gi')) by (rewrite Hi; apply unique_delete; [apply code_conflict_sym|done]).
    split; [split; [done|..]; intros j x; rewrite Hi; intros [_ Hx]%lookup_delete_Some; eauto|].
    intros h t v. rewrite Hruns. destruct (code_by_hash h t v c) eqn:E.
    + apply code_by_hash_true in E as (<- & <- & <-). rewrite Hrc, E1. apply ref_count_none.
      intros j x. rewrite Hi. intros [Hj Hx]%lookup_delete_Some. destruct (code_by_hash _ _ _ x) eqn:Ex; [|done].
      apply code_by_hash_true in Ex as (X1 & X2 & X3). by destruct (Hj (eq_sym (code_key_unique gi j id x c Hu Hx Hc X1 X2 X3))).
    + rewrite Z.sub_0_r. apply ref_count_same; [done..|]. intros j x Hx. rewrite Hi, lookup_delete. case_decide as Ej; [|done].
      subst j. split; intros; simplify_eq; congruence.
  - pose proof (Hl _ _ Hc). pose proof (Hb _ _ Hc). rewrite u64_id in Hi by (widths; lia).
    destruct (code_table_set_ref_count _ _ _ _ (code_ref_count c - 1) Hok Hc ltac:(lia) Hi) as [Hok' Hcount]. split; [done|]. intros h t v.
    rewrite Hcount, Hruns. destruct (code_by_hash h t v c) eqn:E; [|lia]. apply code_by_hash_true in E as (<- & <- & <-). lia.
Qed.

Lemma used_ok md' code gi gi' : code_table_ok gi -> code_hash md' = sha256 cfg code ->
  used code (code_hash md') (vm_type md') (vm_version md') gi gi' ->
  ref_count_of gi (code_hash md') (vm_type md') (vm_version md') + 1 < 2 ^ 64 ->
  code_table_ok gi'
  /\ forall h t v, ref_count_of gi' h t v = ref_count_of gi h t v + if runs h t v md' then 1 else 0.
Proof.
  intros Hok Hhash Hused Hb. pose proof Hok as [Hu Hl Hh].
  destruct Hused as [(id & c & Hc & Hk & Hi)|(Hnone & id & c & Hid & Hv & Hkey & Hi)].
  - apply code_by_hash_true in Hk as (E1 & E2 & E3). pose proof (ref_count_stored gi id c Hu Hc) as Hrc.
    rewrite E1, E2, E3 in Hrc. rewrite Hrc in Hb. pose proof (Hl _ _ Hc). rewrite u64_id in Hi by (widths; lia).
    destruct (code_table_set_ref_count _ _ _ _ (code_ref_count c + 1) Hok Hc ltac:(lia) Hi) as [Hok' Hcount]. split; [done|]. intros h t v.
    rewrite Hcount. unfold runs. rewrite <- E1, <- E2, <- E3. change (bool_decide _ && _ && _) with (code_by_hash h t v c).
    destruct (code_by_hash h t v c) eqn:E; [|lia]. apply code_by_hash_true in E as (<- & <- & <-). congruence.
  - injection Hkey as E1 E2 E3 E4 E5.
    assert (Hu' : unique code_conflict (_indices gi')) by (rewrite Hi; apply unique_insert; [apply code_conflict_sym|done..]).
    split; [split; [done|..]; intros j x; rewrite Hi, lookup_insert; case_decide; intros; simplify_eq; eauto; [lia|congruence]|].
    intros h t v. destruct (runs h t v md') eqn:E.
    + apply runs_true in E as (<- & <- & <-). unfold ref_count_of at 2. rewrite Hnone. rewrite <- E1, <- E4, <- E5.
      rewrite (ref_count_stored gi' id c Hu'), E3; [done|]. by rewrite Hi, lookup_insert_eq.
    + rewrite Z.add_0_r. apply ref_count_same; [done..|]. intros j x Hx. rewrite Hi, lookup_insert. case_decide as Ej; [|done].
      subst j. rewrite Hid. split; [done|]. intros; simplify_eq. exfalso.
      apply code_by_hash_true in Hx as (<- & <- & <-). unfold runs in E. rewrite E1, E4, E5, !Z.eqb_refl, bool_decide_true in E; done.
Qed.

Lemma refs_modify m id md md' h t v : m !! id = Some md ->
  refs (<[id := md']> m) h t v = refs m h t v - (if runs h t v md then 1 else 0) + if runs h t v md' then 1 else 0.
Proof. intros Hm. unfold refs. by rewrite (map_sum_update _ m id md). Qed.

Lemma refs_bounds m h t v : 0 <= refs m h t v <= Z.of_nat (size m).
Proof.
  unfold refs. split; [apply map_sum_nonneg|apply map_sum_le_size]; intros k a _; by destruct (runs _ _ _ a).
Qed.

Lemma refs_others m id md h t v : m !! id = Some md ->
  0 <= refs m h t v - (if runs h t v md then 1 else 0) <= Z.of_nat (size m) - 1.
Proof.
  intros Hm. pose proof (refs_bounds (delete id m) h t v) as Hd. unfold refs in *. rewrite (map_sum_delete _ m id md Hm) in Hd.
  rewrite map_size_delete_Some in Hd by eauto. pose proof (map_size_non_empty_iff m) as [_ Hne].
  assert (size m <> 0%nat) by (apply Hne; intros ->; by rewrite lookup_empty in Hm). lia.
Qed.
Lemma runs_no_code h t v md : h <> no_digest -> code_hash md = no_digest -> runs h t v md = false.
Proof. intros Hh Hm. unfold runs. rewrite bool_decide_false; [done|congruence]. Qed.

Context `{!code_hashing}.

Lemma stored_count_bound d id c : code_ok d -> _indices (nd_code d) !! id = Some c ->
  code_ref_count c <= Z.of_nat (size (_indices (nd_metadata d))).
Proof.
  intros [[Hu _ Hh] Hcount] Hc. rewrite <- (ref_count_stored _ _ _ Hu Hc), Hcount; [apply refs_bounds|].
  rewrite (Hh _ _ Hc). apply sha256_digest.
Qed.

Lemma setcode_code_ok act u d d' : code_ok d -> apply_eosio_setcode cfg act d = (Ok u, d') ->
  Z.of_nat (size (_indices (nd_metadata d'))) < 2 ^ 64 -> code_ok d'.
Proof.
  intros Hok (data & mid & md & md' & code1 & bytes & _ & Hmd & _ & Hkey & Hm & Hrel & Huse & _ & _ & _)%setcode_inv.
  rewrite Hm, map_size_insert_Some by eauto. intros Hsize. injection Hkey as _ Eh Et Ev.
  pose proof Hok as [Htab Hcount].
  assert (Hrel1 : code_table_ok code1 /\ forall h t v, h <> no_digest ->
    ref_count_of code1 h t v = refs (_indices (nd_metadata d)) h t v - if runs h t v md then 1 else 0).
  { case_bool_decide as E.
    - destruct Hrel as [-> _]. split; [done|]. intros h t v Hh. rewrite runs_no_code, Hcount by done. lia.
    - apply released_ok in Hrel as [Ht Hc]; [|done|intros id c Hc; pose proof (stored_count_bound d id c Hok Hc); lia].
      split; [done|]. intros h t v Hh. by rewrite Hc, Hcount. }
  destruct Hrel1 as [Htab1 Hcount1].
  enough (code_table_ok (nd_code d') /\ forall h t v, h <> no_digest ->
    ref_count_of (nd_code d') h t v = ref_count_of code1 h t v + if runs h t v md' then 1 else 0) as [Htab2 Hcount2].
  { split; [done|]. intros h t v Hh. by rewrite Hcount2, Hcount1, Hm, (refs_modify _ _ md). }
  destruct (_ >? 0) eqn:Esz.
  - rewrite <- Et in Huse at 1. rewrite <- Ev in Huse at 1.
    apply used_ok in Huse as [Ht Hc]; [done|done|done|].
    rewrite Hcount1 by (rewrite Eh; apply sha256_digest). pose proof (refs_others _ _ _ (code_hash md') (vm_type md') (vm_version md') Hmd). lia.
  - rewrite Huse. split; [done|]. intros h t v Hh. rewrite (runs_no_code h t v md') by done. lia.
Qed.

Lemma code_ok_same d d' : code_ok d -> nd_code d' = nd_code d ->
  (forall h t v, h <> no_digest -> refs (_indices (nd_metadata d')) h t v = refs (_indices (nd_metadata d)) h t v) -> code_ok d'.
Proof. intros [Ht Hc] Hcode Hrefs. split; rewrite Hcode; [done|]. intros h t v Hh. by rewrite Hc, Hrefs. Qed.

Lemma refs_new_account n f (gi0 : generic_index account_metadata_object) id gi0' h t v : h <> no_digest ->
  emplace metadata_conflict (mk_metadata n 0 0 0 0 no_digest 0 f 0 0) gi0 = (Ok id, gi0') ->
  refs (_indices gi0') h t v = refs (_indices gi0) h t v.
Proof.
  intros Hh (-> & Hn & _ & -> & _)%emplace_ok. unfold refs. rewrite map_sum_insert by done.
  rewrite runs_no_code; done.
Qed.

Lemma native_step_code_ok d d' : code_ok d -> native_step cfg d d' -> code_ok d'.
Proof.
  intros Hok [act handler (n & Hin)%find_apply_handler_inv Hr Hsize]. unfold apply_handlers in Hin.
  rewrite !elem_of_cons, elem_of_nil in Hin.
  destruct Hin as [Hin|[Hin|[Hin|[Hin|[Hin|[Hin|[Hin|[]]]]]]]]; apply (f_equal snd) in Hin; cbn [snd] in Hin; subst handler.
  - apply newaccount_inv in Hr as (c & ? & ? & ? & ? & ? & ? & _ & _ & _ & _ & _ & Hm & Hcode & _).
    apply (code_ok_same d d' Hok Hcode). intros h t v Hh. by eapply refs_new_account.
  - by eapply setcode_code_ok.
  - apply setabi_inv in Hr as (? & ? & ? & mid & md & md' & _ & _ & _ & _ & Hmd & (_ & E1 & E2 & E3) & Hm & _ & Hcode & _).
    apply (code_ok_same d d' Hok Hcode). intros h t v Hh. rewrite Hm, (refs_modify _ _ md) by done.
    unfold runs. rewrite E1, E2, E3. lia.
  - apply updateauth_inv in Hr as (? & _ & _ & _ & _ & _ & Hm & Hcode). apply (code_ok_same d d' Hok Hcode). by rewrite Hm.
  - apply deleteauth_inv in Hr as (? & ? & ? & _ & _ & _ & _ & _ & _ & Hm & Hcode & _).
    apply (code_ok_same d d' Hok Hcode). by rewrite Hm.
  - apply linkauth_inv in Hr as (? & ? & ? & _ & _ & _ & _ & _ & _ & Hm & Hcode & _).
    apply (code_ok_same d d' Hok Hcode). by rewrite Hm.
  - apply unlinkauth_inv in Hr as (? & ? & ? & ? & _ & _ & _ & _ & _ & _ & Hm & Hcode & _).
    apply (code_ok_same d d' Hok Hcode). by rewrite Hm.
Qed.
End Code.

(** ** From genesis *)
Section Genesis.
Context {K : Type} `{EqDecision K} `{unpacker K} `{contract_unpacker K} (cfg : native_config K).
Context `{!code_hashing cfg}.

Lemma create_native_account_code_ok ts ab name owner active priv d u d' : code_ok cfg d ->
  create_native_account cfg ts ab name owner active priv d = (Ok u, d') -> code_ok cfg d'.
Proof.
  intros Hok (oid & db1 & aid & id1 & id2 & l1 & amount & _ & _ & _ & Hm & Hcode & _)%create_native_account_inv.
  apply (code_ok_same cfg d d' Hok Hcode). intros h t v Hh. by eapply refs_new_account.
Qed.

Lemma initialize_accounts_code_ok ts key ab u d : initialize_accounts cfg ts key ab empty_native_db = (Ok u, d) -> code_ok cfg d.
Proof.
  unfold initialize_accounts. intros Hr. ninv.
  assert (Hok : code_ok cfg (set_nd_auth x1 empty_native_db)).
  { split; [split; cbn|intros h t v _; reflexivity].
    - by intros i j b c _ ?.
    - by intros id c ?.
    - by intros id c ?. }
  repeat match goal with Hc : create_native_account _ _ _ _ _ _ _ ?s0 = (_, ?s), Ho : code_ok _ ?s0 |- _ =>
    apply (create_native_account_code_ok _ _ _ _ _ _ _ _ _ Ho) in Hc end.
  match goal with Ho : code_ok _ ?s |- code_ok _ (set_nd_auth _ (set_nd_auth _ ?s)) => destruct Ho as [Ht Hc] end.
  by split.
Qed.
End Genesis.

(** ** Properties *)

(** C20: Starting from the accounts of genesis, every sequence of successful
    native actions leaves the state well formed: the permissions are a forest,
    every account can be authorized by its [owner] and [active] permissions, no
    permission is without an account, and no link names a permission that was
    deleted. *)
Theorem native_accounts_invariant {K : Type} `{EqDecision K} `{unpacker K} `{contract_unpacker K} (cfg : native_config K)
    `{!unpacked_widths} ts key ab d0 d :
  initialize_accounts cfg ts key ab empty_native_db = (Ok tt, d0) -> rtc (native_step cfg) d0 d ->
  native_ok d /\ forall name, named (nd_accounts d) name ->
    is_Ok (get_permission (nd_auth d) (mk_pl name owner_name)) /\ is_Ok (get_permission (nd_auth d) (mk_pl name active_name)).
Proof.
  intros Hi Hr. assert (Hok : native_ok d).
  { apply (initialize_accounts_ok cfg) in Hi. induction Hr as [|d0 d1 d Hs Hr IH]; [done|]. apply IH. by eapply native_step_ok. }
  split; [done|]. intros name Hn. destruct (nk_account d Hok name Hn) as (Hne & Ho & Ha & _).
  split; apply known_get_permission; done.
Qed.

(** C33: The reference count of every piece of stored code is the number of
    accounts that run it, and code that no account runs is removed: [setcode]
    releases the old code and takes the new one, whatever accounts share. *)
Theorem code_references_exact {K : Type} `{EqDecision K} `{unpacker K} `{contract_unpacker K} (cfg : native_config K)
    `{!code_hashing cfg} ts key ab d0 d :
  initialize_accounts cfg ts key ab empty_native_db = (Ok tt, d0) -> rtc (native_step cfg) d0 d -> code_ok cfg d.
Proof.
  intros Hi Hr. apply (initialize_accounts_code_ok cfg) in Hi.
  induction Hr as [|d0 d1 d Hs Hr IH]; [done|]. apply IH. by eapply native_step_code_ok.
Qed.

(** ** A concrete chain *)
Definition native_key (k : Z) : authority Z := authority_of_key k 0.

#[export] Instance native_unpacker : unpacker Z := {|
  unpack_updateauth data := match data with [a; p; q; k] => Ok (mk_updateauth a p q (native_key k)) | _ => Err std_out_of_range end;
  unpack_deleteauth data := match data with [a; p] => Ok (mk_deleteauth a p) | _ => Err std_out_of_range end;
  unpack_linkauth data := match data with [a; c; t; r] => Ok (mk_linkauth a c t r) | _ => Err std_out_of_range end;
  unpack_unlinkauth data := match data with [a; c; t] => Ok (mk_unlinkauth a c t) | _ => Err std_out_of_range end;
  unpack_canceldelay _ := Err std_out_of_range;
  unpack_transaction _ := Err std_out_of_range |}.

#[export] Instance native_contract_unpacker : contract_unpacker Z := {|
  unpack_newaccount data := match data with [c; n; k] => Ok (mk_newaccount c n (native_key k) (native_key k)) | _ => Err std_out_of_range end;
  unpack_setcode data := match data with a :: code => Ok (mk_setcode a 0 0 code) | _ => Err std_out_of_range end;
  unpack_setabi data := match data with a :: abi => Ok (mk_setabi a abi) | _ => Err std_out_of_range end |}.

Lemma native_key_widths k : authority_widths (native_key k).
Proof. split; [split; [repeat constructor; cbn; lia|by split]|cbn; widths; lia]. Qed.

#[export] Instance native_unpacked_widths : @unpacked_widths Z native_unpacker native_contract_unpacker.
Proof.
  split.
  - intros data c Hc. destruct data as [|? [|? [|? [|]]]]; try done. injection Hc as <-. split; apply native_key_widths.
  - intros data c Hc. destruct data as [|? [|? [|? [|? [|]]]]]; try done. injection Hc as <-. apply native_key_widths.
Qed.

Definition native_cfg : native_config Z :=
  mk_native_config demo_cfg Z.ltb (fun _ => 34) false [] (fun code => mk_digest (1 + Z.of_nat (length code)) 0 0 0) (fun _ => Ok tt) 7.

#[export] Instance native_code_hashing : code_hashing native_cfg.
Proof. split; [intros c c' Hc; injection Hc; lia|intros c Hc; injection Hc; lia]. Qed.

Definition genesis_run : res unit * native_db Z := initialize_accounts native_cfg 1577880000000000 1 [7] empty_native_db.
Definition native_db0 : native_db Z := genesis_run.2.

Definition perform (name actor : Z) (data : list Z) (d : native_db Z) : res unit * native_db Z :=
  exec_native native_cfg system_account_name (mk_action system_account_name name [mk_pl actor active_name] data) d.
Definition alice : Z := demo_account.
Definition bob : Z := string_to_name [98; 111; 98].
Definition native_db1 : native_db Z := (perform newaccount_name system_account_name [system_account_name; alice; 5] native_db0).2.
Definition native_db2 : native_db Z := (perform setcode_name alice [alice; 1; 2; 3] native_db1).2.
Definition native_db3 : native_db Z := (perform updateauth_name alice [alice; bob; active_name; 6] native_db2).2.
Definition native_db4 : native_db Z := (perform linkauth_name alice [alice; system_account_name; bob; bob] native_db3).2.

Lemma genesis_run_ok : genesis_run = (Ok tt, native_db0).
Proof.
  assert (E : genesis_run.1 = Ok tt) by (vm_compute; reflexivity).
  unfold native_db0. rewrite <- E. by destruct genesis_run.
Qed.

Lemma perform_step name actor data d handler :
  find_apply_handler native_cfg system_account_name system_account_name name = Some handler ->
  (perform name actor data d).1 = Ok tt ->
  Z.of_nat (size (_indices (nd_metadata (perform name actor data d).2))) < 2 ^ 64 ->
  native_step native_cfg d (perform name actor data d).2.
Proof.
  intros Hh Hok Hs. apply (native_step_intro native_cfg _ _ (mk_action system_account_name name [mk_pl actor active_name] data) handler);
    [exact Hh| |exact Hs].
  unfold perform, exec_native in *. cbn [act_account act_name] in *. rewrite Hh in *. rewrite <- Hok. by destruct (handler _ d).
Qed.

Ltac perform_step := eapply perform_step; [reflexivity|vm_compute; reflexivity|by vm_compute].

Lemma native_steps : rtc (native_step native_cfg) native_db0 native_db4.
Proof.
  apply rtc_l with native_db1; [perform_step|]. apply rtc_l with native_db2; [perform_step|].
  apply rtc_l with native_db3; [perform_step|]. apply rtc_once. perform_step.
Qed.

Lemma native_accounts_invariant_witness : native_ok native_db4
  /\ is_Ok (get_permission (nd_auth native_db4) (mk_pl alice active_name)).
Proof.
  destruct (native_accounts_invariant native_cfg 1577880000000000 1 [7] native_db0 native_db4 genesis_run_ok native_steps) as [Hok Hp].
  split; [exact Hok|]. apply Hp. apply account_exists_named. vm_compute. reflexivity.
Defined.

Lemma code_references_exact_witness : code_ok native_cfg native_db4.
Proof. exact (code_references_exact native_cfg 1577880000000000 1 [7] native_db0 native_db4 genesis_run_ok native_steps). Defined.
