(* ===== verification/NativeRam.v ===== *)
(** * The RAM that native actions bill
      ([eosio_contract.cpp], [resource_limits.cpp], [config.hpp])

    Every object an account keeps in the tables of accounts, permissions, links
    and code has a price in bytes; the theorem says that the RAM usage recorded
    by [ResourceLimits.v] changes by exactly the change of those prices. *)

From S2P Require Import Prelude Merkle Chainbase ResourceLimits Names Authority AuthorityChecker BlockHeader Authorization EosioContract NativeState.

Section Ram.
Context {K : Type} `{EqDecision K} `{unpacker K} `{contract_unpacker K} (cfg : native_config K).
Implicit Types (d : native_db K) (db : auth_db K) (l : resource_limits_manager).

Definition ram_of l (a : Z) : Z := match rl_usage l !! a with Some u => ram_usage u | None => 0 end.

Definition permission_ram db (a : Z) : Z :=
  map_sum (fun _ p => if po_owner p =? a then permission_bytes cfg (po_auth p) else 0) (_indices (permissions db)).
Definition link_ram db (a : Z) : Z :=
  map_sum (fun _ lk => if link_account lk =? a then billable_permission_link_object else 0) (_indices (links db)).
Definition account_ram (gi : generic_index account_object) (a : Z) : Z :=
  map_sum (fun _ x => if acc_name x =? a then overhead_per_account_ram_bytes + Z.of_nat (length (abi x)) else 0) (_indices gi).

(** The length of the code an account runs. *)
Definition code_length (gi : generic_index code_object) (md : account_metadata_object) : Z :=
  if bool_decide (code_hash md = no_digest) then 0
  else match find_by (code_by_hash (code_hash md) (vm_type md) (vm_version md)) gi with
       | Some r => Z.of_nat (length (co_code r.2))
       | None => 0
       end.
Definition code_ram (gi : generic_index code_object) (m : gmap Z account_metadata_object) (a : Z) : Z :=
  map_sum (fun _ md => if md_name md =? a then code_length gi md * setcode_ram_bytes_multiplier else 0) m.

(** What the objects of an account cost, in bytes of RAM. *)
Definition ram_billed d (a : Z) : Z :=
  permission_ram (nd_auth d) a + link_ram (nd_auth d) a + account_ram (nd_accounts d) a
  + code_ram (nd_code d) (_indices (nd_metadata d)) a.

(** An action that costs one account [delta] more. *)
Definition costs d d' (t delta : Z) : Prop :=
  forall a, ram_billed d' a = ram_billed d a + if a =? t then delta else 0.

Lemma add_pending_ram_of t delta l l' : usage_widths l -> is_s64 delta -> add_pending_ram_usage t delta l = (Ok tt, l') ->
  forall a, ram_of l' a = ram_of l a + if a =? t then delta else 0.
Proof.
  intros Hw Hd Hr a. destruct (decide (delta = 0)) as [->|Hne].
  { unfold add_pending_ram_usage in Hr. cbn in Hr. minv. destruct (a =? t); lia. }
  destruct (rl_usage l !! t) as [u|] eqn:Eu.
  2:{ unfold add_pending_ram_usage, get_usage in Hr. apply Z.eqb_neq in Hne. rewrite Hne in Hr. mrun. by rewrite Eu in Hr. }
  destruct (add_pending_ram_usage_exact t delta l u Eu (Hw _ _ Eu) Hd Hne) as [Hin Hout].
  destruct (decide (is_u64 (ram_usage u + delta))) as [H64|H64]; [|rewrite (Hout H64) in Hr; done].
  destruct (Hin H64) as (m & Hm & Hum). rewrite Hm in Hr. injection Hr as <-. unfold ram_of. rewrite Hum, lookup_insert.
  destruct (Z.eqb_spec a t) as [->|Hat]; [rewrite decide_True, Eu by done; cbn; lia|].
  rewrite decide_False by done. lia.
Qed.

Lemma initialize_account_ram_of t l l' : initialize_account t l = (Ok tt, l') -> forall a, ram_of l' a = ram_of l a.
Proof.
  intros [Hn Hu]%initialize_account_ok a. unfold ram_of. rewrite Hu, lookup_insert.
  case_decide; [subst; by rewrite Hn|done].
Qed.

(** *** Tables *)
Lemma permission_ram_create (ac : auth_config K) account name parent auth t db id db' :
  create_permission ac account name parent auth t db = (Ok id, db') ->
  forall a, permission_ram db' a = permission_ram db a + (if a =? account then permission_bytes cfg auth else 0)
            /\ link_ram db' a = link_ram db a.
Proof.
  intros (uid & time & -> & Hlk & Hi & Hn)%create_permission_ok a. unfold permission_ram, link_ram.
  rewrite Hi, Hlk, map_sum_insert by done. cbn. rewrite (Z.eqb_sym account). split; [lia|done].
Qed.

Lemma permission_ram_modify (ac : auth_config K) id p auth db u db' : _indices (permissions db) !! id = Some p ->
  modify_permission ac id auth db = (Ok u, db') ->
  forall a, permission_ram db' a = permission_ram db a
              + (if a =? po_owner p then permission_bytes cfg auth - permission_bytes cfg (po_auth p) else 0)
            /\ link_ram db' a = link_ram db a.
Proof.
  intros Hp (q & Hq & Hlk & Hi)%modify_permission_ok a. assert (q = p) as -> by congruence. unfold permission_ram, link_ram.
  rewrite Hi, Hlk, (map_sum_update _ _ _ p) by done. cbn. rewrite (Z.eqb_sym a). split; [|done].
  destruct (po_owner p =? a); lia.
Qed.

Lemma permission_ram_remove id p db u db' : _indices (permissions db) !! id = Some p ->
  remove_permission (id, p) db = (Ok u, db') ->
  forall a, permission_ram db' a = permission_ram db a + (if a =? po_owner p then - permission_bytes cfg (po_auth p) else 0)
            /\ link_ram db' a = link_ram db a.
Proof.
  intros Hp [Hlk Hi]%remove_permission_ok a. unfold permission_ram, link_ram. cbn in Hi.
  rewrite Hi, Hlk, (map_sum_delete _ _ _ p) by done. rewrite (Z.eqb_sym a). split; [|done]. destruct (po_owner p =? a); lia.
Qed.

Lemma code_length_stored gi id c md : unique code_conflict (_indices gi) -> _indices gi !! id = Some c ->
  code_by_hash (code_hash md) (vm_type md) (vm_version md) c = true -> code_hash md <> no_digest ->
  code_length gi md = Z.of_nat (length (co_code c)).
Proof.
  intros Hu Hc Hk Hne. unfold code_length. rewrite bool_decide_false by done. by erewrite find_code_stored by done.
Qed.

Lemma code_ram_modify gi gi' m mid md md' a : m !! mid = Some md -> md_name md' = md_name md ->
  (forall i x, i <> mid -> m !! i = Some x -> code_length gi' x = code_length gi x) ->
  code_ram gi' (<[mid := md']> m) a = code_ram gi m a
    + if a =? md_name md then (code_length gi' md' - code_length gi md) * setcode_ram_bytes_multiplier else 0.
Proof.
  intros Hm Hn Ho. unfold code_ram. rewrite <- insert_delete_eq, map_sum_insert by apply lookup_delete_eq.
  rewrite (map_sum_ext _ (fun _ x => if md_name x =? a then code_length gi x * setcode_ram_bytes_multiplier else 0) (delete mid m)).
  - rewrite (map_sum_delete _ m mid md Hm), Hn, (Z.eqb_sym a). destruct (md_name md =? a); lia.
  - intros i x [Hi Hx]%lookup_delete_Some. by rewrite (Ho i x).
Qed.
(** *** Code *)
Lemma refs_two m i j x y h t v : i <> j -> m !! i = Some x -> m !! j = Some y ->
  runs h t v x = true -> runs h t v y = true -> 2 <= refs m h t v.
Proof.
  intros Hij Hx Hy Hrx Hry. pose proof (refs_bounds (delete j (delete i m)) h t v) as [Hpos _]. unfold refs in *.
  rewrite (map_sum_delete _ _ j y), (map_sum_delete _ _ i x) in Hpos; [|done|by rewrite lookup_delete_ne].
  rewrite Hrx, Hry in Hpos. lia.
Qed.

(** The code that an account runs is stored, in an object that counts it. *)
Lemma code_present d i md : code_ok cfg d -> _indices (nd_metadata d) !! i = Some md -> code_hash md <> no_digest ->
  exists id c, _indices (nd_code d) !! id = Some c
    /\ code_by_hash (code_hash md) (vm_type md) (vm_version md) c = true
    /\ code_ref_count c = refs (_indices (nd_metadata d)) (code_hash md) (vm_type md) (vm_version md).
Proof.
  intros [Htab Hcount] Hm Hne. pose proof (Hcount _ (vm_type md) (vm_version md) Hne) as Hc.
  pose proof (refs_others _ _ _ (code_hash md) (vm_type md) (vm_version md) Hm) as [Hpos _].
  assert (runs (code_hash md) (vm_type md) (vm_version md) md = true) as Hr by by apply runs_true. rewrite Hr in Hpos.
  unfold ref_count_of in Hc. destruct (find_by _ _) as [[id c]|] eqn:E; [|lia].
  apply find_by_some in E as [Hid Hk]. by exists id, c.
Qed.

(** [kept gi gi' md]: the code [md] runs stays, perhaps with another count. *)
Definition kept (gi gi' : generic_index code_object) (md : account_metadata_object) : Prop :=
  forall id c, _indices gi !! id = Some c -> code_by_hash (code_hash md) (vm_type md) (vm_version md) c = true ->
    exists n, _indices gi' !! id = Some (set_ref_count n c).

Lemma set_ref_count_same c : set_ref_count (code_ref_count c) c = c.
Proof. by destruct c. Qed.

Lemma released_kept d md i x j h gi' bytes : code_ok cfg d -> released md h (nd_code d) gi' bytes ->
  _indices (nd_metadata d) !! i = Some md -> _indices (nd_metadata d) !! j = Some x -> j <> i -> code_hash x <> no_digest ->
  kept (nd_code d) gi' x.
Proof.
  intros Hok (id & c & Hc & Hk & _ & _ & Hi) Hmd Hx Hji Hne id' c' Hc' Hk'. pose proof Hok as [[Hu _ _] Hcount].
  destruct (decide (id' = id)) as [->|Hid].
  - assert (c' = c) as -> by congruence. destruct (Z.eqb_spec (code_ref_count c) 1) as [E1|_].
    + exfalso. apply code_by_hash_true in Hk as (K1 & K2 & K3), Hk' as (L1 & L2 & L3).
      pose proof (ref_count_stored _ _ _ Hu Hc) as Hrc. rewrite Hcount in Hrc by congruence.
      pose proof (refs_two _ _ _ _ _ (co_code_hash c) (co_vm_type c) (co_vm_version c) Hji Hx Hmd) as Htwo.
      rewrite Hrc, E1 in Htwo. enough (2 <= 1) by lia. apply Htwo; apply runs_true; auto.
    + eexists. by rewrite Hi, lookup_insert_eq.
  - exists (code_ref_count c'). rewrite Hi, set_ref_count_same. destruct (_ =? 1).
    + by rewrite lookup_delete_ne.
    + by rewrite lookup_insert_ne.
Qed.

Lemma used_kept code h t v gi gi' x : used code h t v gi gi' -> kept gi gi' x.
Proof.
  intros Hused id c Hc _. destruct Hused as [(i & c0 & Hi & _ & ->)|(_ & i & c0 & Hi & _ & _ & ->)].
  - destruct (decide (i = id)) as [->|Hne].
    + eexists. rewrite lookup_insert_eq. do 2 f_equal. congruence.
    + exists (code_ref_count c). by rewrite set_ref_count_same, lookup_insert_ne.
  - exists (code_ref_count c). rewrite set_ref_count_same, lookup_insert_ne; [done|congruence].
Qed.

Lemma kept_length gi gi' x id c : unique code_conflict (_indices gi) -> unique code_conflict (_indices gi') ->
  _indices gi !! id = Some c -> code_by_hash (code_hash x) (vm_type x) (vm_version x) c = true -> code_hash x <> no_digest ->
  kept gi gi' x -> code_length gi' x = code_length gi x.
Proof.
  intros Hu Hu' Hc Hk Hne Hkept. destruct (Hkept id c Hc Hk) as [n Hn].
  rewrite (code_length_stored gi id c), (code_length_stored gi' id _ x Hu' Hn); try done.
Qed.

Lemma kept_trans gi1 gi2 gi3 x : kept gi1 gi2 x -> kept gi2 gi3 x -> kept gi1 gi3 x.
Proof.
  intros H12 H23 id c Hc Hk. destruct (H12 id c Hc Hk) as [n Hn]. destruct (H23 id _ Hn Hk) as [m Hm]. by exists m.
Qed.

Context `{!code_hashing cfg}.

Lemma used_length code h t v gi gi' md : code_table_ok cfg gi' -> used code h t v gi gi' ->
  (code_hash md, vm_type md, vm_version md) = (h, t, v) -> h = sha256 cfg code ->
  code_length gi' md = Z.of_nat (length code).
Proof.
  intros [Hu _ Hh] Hused Hkey Hhash. injection Hkey as E1 E2 E3.
  assert (Hne : code_hash md <> no_digest) by (rewrite E1, Hhash; apply (sha256_digest cfg)).
  assert (exists id c, _indices gi' !! id = Some c /\ code_by_hash h t v c = true) as (id & c & Hc & Hk).
  { destruct Hused as [(i & c0 & Hi & Hk & ->)|(_ & i & c0 & Hi & _ & Hk & ->)].
    - eexists i, _. rewrite lookup_insert_eq. by split.
    - eexists i, _. rewrite lookup_insert_eq. split; [done|]. injection Hk as ? ? ? ? ?. by apply code_by_hash_true. }
  rewrite (code_length_stored gi' id c); [|done|done|by rewrite E1, E2, E3|done].
  f_equal. apply (sha256_length cfg). apply code_by_hash_true in Hk as (K1 & _). by rewrite <- (Hh id c Hc), K1.
Qed.
(** *** Handlers *)
Lemma newaccount_costs act u d d' : apply_eosio_newaccount cfg act d = (Ok u, d') ->
  exists t delta l1, costs d d' t delta /\ initialize_account t (nd_limits d) = (Ok tt, l1)
    /\ add_pending_ram_usage t delta l1 = (Ok tt, nd_limits d').
Proof.
  intros (c & oid & db1 & aid & id1 & id2 & l1 & _ & _ & Hc1 & Hc2 & Ha & Hm & Hcode & Hl1 & Hl2)%newaccount_inv.
  exists (na_name c), (newaccount_ram cfg c), l1. split; [|done]. intros a. unfold ram_billed.
  destruct (permission_ram_create _ _ _ _ _ _ _ _ _ Hc1 a) as [E1 L1], (permission_ram_create _ _ _ _ _ _ _ _ _ Hc2 a) as [E2 L2].
  rewrite E2, E1, L2, L1, Hcode. apply emplace_ok in Ha as (_ & Hna & _ & Hia & _), Hm as (_ & Hnm & _ & Him & _).
  unfold account_ram, code_ram. rewrite Hia, Him, !map_sum_insert by done. cbn.
  rewrite (Z.eqb_sym (na_name c)). unfold newaccount_ram, permission_bytes, code_length.
  rewrite bool_decide_true by done. destruct (a =? na_name c); lia.
Qed.

Lemma setcode_costs act u d d' : code_ok cfg d -> apply_eosio_setcode cfg act d = (Ok u, d') ->
  code_table_ok cfg (nd_code d') ->
  exists t delta, costs d d' t delta /\ add_pending_ram_usage t delta (nd_limits d) = (Ok tt, nd_limits d').
Proof.
  intros Hok (data & mid & md & md' & code1 & bytes & _ & Hmd & Hn & Hkey & Hm & Hrel & Huse & Ha & Hacc & Hl)%setcode_inv Htab'.
  eexists _, _. split; [|exact Hl]. intros a. unfold ram_billed. rewrite Ha, Hacc, Hm.
  injection Hkey as En Eh Et Ev. pose proof Hok as [[Hu Hlive Hh] Hcount]. pose proof Htab' as [Hu' _ _].
  assert (Huse' : forall x, kept code1 (nd_code d') x).
  { intros x. destruct (_ >? 0); [by eapply used_kept|]. rewrite Huse. intros id c Hc _. exists (code_ref_count c). by rewrite set_ref_count_same. }
  rewrite (code_ram_modify (nd_code d) (nd_code d') _ mid md md' a Hmd En).
  2:{ intros j x Hj Hx. destruct (bool_decide (code_hash x = no_digest)) eqn:E; [unfold code_length; by rewrite E|].
      apply bool_decide_eq_false in E. destruct (code_present d j x Hok Hx E) as (id & c & Hc & Hk & _).
      apply (kept_length _ _ x id c); try done. eapply kept_trans; [|apply Huse'].
      case_bool_decide; [destruct Hrel as [-> _]; intros i0 c0 Hc0 _; exists (code_ref_count c0); by rewrite set_ref_count_same|].
      by eapply released_kept. }
  assert (Hnew : code_length (nd_code d') md' = Z.of_nat (length (sc_code data))).
  { destruct (_ >? 0) eqn:Esz.
    - eapply used_length; [exact Htab'|exact Huse| |exact Eh]. by rewrite Et, Ev.
    - unfold code_length. rewrite bool_decide_true by done. btests. lia. }
  assert (Hold : bytes = code_length (nd_code d) md * setcode_ram_bytes_multiplier).
  { case_bool_decide as E; [destruct Hrel as [_ ->]; unfold code_length; by rewrite bool_decide_true|].
    destruct Hrel as (id & c & Hc & Hk & _ & -> & _). by rewrite (code_length_stored (nd_code d) id c). }
  rewrite Hnew, Hold, Hn. destruct (a =? sc_account data); lia.
Qed.

Lemma setabi_costs act u d d' : apply_eosio_setabi act d = (Ok u, d') ->
  exists t delta, costs d d' t delta /\ add_pending_ram_usage t delta (nd_limits d) = (Ok tt, nd_limits d').
Proof.
  intros (data & id & a & mid & md & md' & _ & Hid & Hn & Hacc & Hmd & (E0 & E1 & E2 & E3) & Hm & Ha & Hcode & Hl)%setabi_inv.
  eexists _, _. split; [|exact Hl]. intros b. unfold ram_billed. rewrite Ha, Hm, Hcode.
  rewrite (code_ram_modify (nd_code d) (nd_code d) _ mid md md' b Hmd E0) by done.
  assert (code_length (nd_code d) md' = code_length (nd_code d) md) as -> by (unfold code_length; by rewrite E1, E2, E3).
  rewrite Z.sub_diag, Z.mul_0_l.
  unfold account_ram. rewrite Hacc, (map_sum_update _ _ id a) by done. cbn. rewrite <- Hn, (Z.eqb_sym b (acc_name a)).
  destruct (acc_name a =? b), (b =? md_name md); lia.
Qed.

Lemma updateauth_costs act u d d' : apply_eosio_updateauth cfg act d = (Ok u, d') ->
  exists t delta, costs d d' t delta /\ add_pending_ram_usage t delta (nd_limits d) = (Ok tt, nd_limits d').
Proof.
  intros (upd & _ & _ & _ & Hcases & Hacc & Hmd & Hcode)%updateauth_inv.
  destruct Hcases as [(id & p & Hp & Ho & _ & Hmod & Hl)|(parent & id & _ & Hcr & Hl)]; eexists _, _; (split; [|exact Hl]);
    intros a; unfold ram_billed; rewrite Hacc, Hmd, Hcode.
  - destruct (permission_ram_modify _ _ _ _ _ _ _ Hp Hmod a) as [-> ->]. rewrite Ho. lia.
  - destruct (permission_ram_create _ _ _ _ _ _ _ _ _ Hcr a) as [-> ->]. lia.
Qed.

Lemma deleteauth_costs act u d d' : apply_eosio_deleteauth cfg act d = (Ok u, d') ->
  exists t delta, costs d d' t delta /\ add_pending_ram_usage t delta (nd_limits d) = (Ok tt, nd_limits d').
Proof.
  intros (del & id & p & _ & _ & _ & (_ & Hp & Ho & _) & Hrem & Hacc & Hmd & Hcode & Hl)%deleteauth_inv.
  eexists _, _. split; [|exact Hl]. intros a. unfold ram_billed. rewrite Hacc, Hmd, Hcode.
  destruct (permission_ram_remove _ _ _ _ _ Hp Hrem a) as [-> ->]. rewrite Ho. lia.
Qed.

Lemma linkauth_costs act u d d' : apply_eosio_linkauth act d = (Ok u, d') ->
  exists t delta, costs d d' t delta /\ add_pending_ram_usage t delta (nd_limits d) = (Ok tt, nd_limits d').
Proof.
  intros (r & gi & delta & _ & _ & _ & Hcases & Ha & Hacc & Hmd & Hcode & Hl)%linkauth_inv.
  eexists _, _. split; [|exact Hl]. intros a. unfold ram_billed, permission_ram, link_ram. rewrite Ha, Hacc, Hmd, Hcode. cbn [permissions links].
  destruct Hcases as [(-> & id & lk & Hlk & Hkey & ->)|(-> & id & Hid & _ & ->)].
  - rewrite (map_sum_update _ _ id lk) by done. cbn. injection Hkey as -> _ _.
    destruct (la_account r =? a), (a =? la_account r); lia.
  - rewrite map_sum_insert by done. cbn. rewrite (Z.eqb_sym a). lia.
Qed.

Lemma unlinkauth_costs act u d d' : apply_eosio_unlinkauth act d = (Ok u, d') ->
  exists t delta, costs d d' t delta /\ add_pending_ram_usage t delta (nd_limits d) = (Ok tt, nd_limits d').
Proof.
  intros (un & id & lk & gi & _ & Hid & Hn & Hgi & Ha & Hacc & Hmd & Hcode & Hl)%unlinkauth_inv.
  eexists _, _. split; [|exact Hl]. intros a. unfold ram_billed, permission_ram, link_ram. rewrite Ha, Hacc, Hmd, Hcode. cbn [permissions links].
  rewrite Hgi, (map_sum_delete _ _ id lk) by done. rewrite Hn, (Z.eqb_sym a). destruct (ul_account un =? a); lia.
Qed.

(** Every step costs one account, possibly a new one, and bills that cost. *)
Lemma native_step_costs d d' : code_ok cfg d -> native_step cfg d d' -> exists t delta l1, costs d d' t delta
  /\ (initialize_account t (nd_limits d) = (Ok tt, l1) \/ l1 = nd_limits d)
  /\ add_pending_ram_usage t delta l1 = (Ok tt, nd_limits d').
Proof.
  intros Hok Hstep. pose proof (native_step_code_ok cfg d d' Hok Hstep) as [Htab' _].
  destruct Hstep as [act handler (n & Hin)%find_apply_handler_inv Hr _]. unfold apply_handlers in Hin.
  rewrite !elem_of_cons, elem_of_nil in Hin.
  destruct Hin as [Hin|[Hin|[Hin|[Hin|[Hin|[Hin|[Hin|[]]]]]]]]; apply (f_equal snd) in Hin; cbn [snd] in Hin; subst handler.
  - apply newaccount_costs in Hr as (t & delta & l1 & ? & ? & ?). exists t, delta, l1. auto.
  - apply setcode_costs in Hr as (t & delta & ? & ?); [|done..]. exists t, delta, (nd_limits d). auto.
  - apply setabi_costs in Hr as (t & delta & ? & ?). exists t, delta, (nd_limits d). auto.
  - apply updateauth_costs in Hr as (t & delta & ? & ?). exists t, delta, (nd_limits d). auto.
  - apply deleteauth_costs in Hr as (t & delta & ? & ?). exists t, delta, (nd_limits d). auto.
  - apply linkauth_costs in Hr as (t & delta & ? & ?). exists t, delta, (nd_limits d). auto.
  - apply unlinkauth_costs in Hr as (t & delta & ? & ?). exists t, delta, (nd_limits d). auto.
Qed.
End Ram.

(** ** Properties *)

(** C21: A successful native action changes the RAM usage recorded for every
    account by exactly the change in the price of the objects the account
    keeps: nothing is billed to anyone else, and what is removed or replaced is
    given back. *)
Theorem native_ram_conserved {K : Type} `{EqDecision K} `{unpacker K} `{contract_unpacker K} (cfg : native_config K)
    `{!code_hashing cfg} d d' :
  native_ok d -> code_ok cfg d -> native_step cfg d d' ->
  (forall a, is_s64 (ram_billed cfg d' a - ram_billed cfg d a)) ->
  forall a, ram_of (nd_limits d') a - ram_of (nd_limits d) a = ram_billed cfg d' a - ram_billed cfg d a.
Proof.
  intros Hok Hcode Hstep Hs64 a.
  destruct (native_step_costs cfg d d' Hcode Hstep) as (t & delta & l1 & Hcosts & Hl1 & Hl2).
  assert (Hd : is_s64 delta).
  { pose proof (Hs64 t) as Ht. rewrite Hcosts, Z.eqb_refl in Ht. by replace delta with (ram_billed cfg d t + delta - ram_billed cfg d t) by lia. }
  assert (Hw : usage_widths l1).
  { destruct Hl1 as [Hl1| ->]; [|apply Hok]. apply initialize_account_keeps in Hl1 as [Hw _]; [done|apply Hok]. }
  assert (Heq : ram_of l1 a = ram_of (nd_limits d) a).
  { destruct Hl1 as [Hl1| ->]; [|done]. by eapply initialize_account_ram_of. }
  rewrite (add_pending_ram_of _ _ _ _ Hw Hd Hl2 a), Hcosts, Heq. lia.
Qed.

(** [setcode] in the concrete chain: 3 bytes of code cost 30 bytes of RAM. *)
Lemma native_ok_db1 : native_ok native_db1 /\ code_ok native_cfg native_db1 /\ native_step native_cfg native_db1 native_db2.
Proof.
  assert (H1 : native_step native_cfg native_db0 native_db1) by perform_step.
  assert (H2 : native_step native_cfg native_db1 native_db2) by perform_step.
  split; [|split]; [| |exact H2].
  - apply (native_step_ok native_cfg native_db0); [|exact H1]. exact (initialize_accounts_ok native_cfg 1577880000000000 1 [7] tt native_db0 genesis_run_ok).
  - apply (native_step_code_ok native_cfg native_db0); [|exact H1]. exact (initialize_accounts_code_ok native_cfg 1577880000000000 1 [7] tt native_db0 genesis_run_ok).
Qed.

Lemma ram_step_s64 a : is_s64 (ram_billed native_cfg native_db2 a - ram_billed native_cfg native_db1 a).
Proof.
  destruct native_ok_db1 as (_ & Hcode & Hstep).
  destruct (native_step_costs native_cfg native_db1 native_db2 Hcode Hstep) as (t & delta & _ & Hc & _ & _).
  pose proof (Hc alice) as Ha. rewrite Hc.
  assert (E : ram_billed native_cfg native_db2 alice = ram_billed native_cfg native_db1 alice + 30) by (vm_compute; reflexivity).
  destruct (Z.eqb_spec alice t), (Z.eqb_spec a t); widths; lia.
Qed.

Lemma native_ram_conserved_witness :
  ram_of (nd_limits native_db2) alice - ram_of (nd_limits native_db1) alice = 30.
Proof.
  destruct native_ok_db1 as (Hok & Hcode & Hstep).
  rewrite (native_ram_conserved native_cfg native_db1 native_db2 Hok Hcode Hstep ram_step_s64 alice).
  vm_compute. reflexivity.
Defined.
