(* ===== verification/Transaction.v ===== *)
(** * Transactions
      ([transaction.hpp], [transaction.cpp], [transaction_metadata.hpp])

    The transaction and its packed form, its extensions, the recovery of its
    signing keys and the reference to a recent block.  Packing, hashing,
    compression and key recovery belong to library fc and to zlib: they are the
    operations of the class [trx_codec], and [codec_laws] states what the
    theorems rely on. *)

From S2P Require Import Prelude Merkle Authority BlockHeader Authorization.

(** ** The transaction *)
Record transaction : Type := mk_transaction {
  trx_expiration : Z;
  ref_block_num : Z;
  ref_block_prefix : Z;
  max_net_usage_words : Z;
  max_cpu_usage_ms : Z;
  delay_sec : Z;
  context_free_actions : list action;
  actions : list action;
  transaction_extensions : list (Z * list Z) }.

Definition default_transaction : transaction := mk_transaction 0 0 0 0 0 0 [] [] [].

Definition total_actions (t : transaction) : Z := u32 (Z.of_nat (length (context_free_actions t) + length (actions t))).

Fixpoint first_authorizer_of (acts : list action) : Z :=
  match acts with
  | [] => 0
  | a :: acts => match authorization a with u :: _ => actor u | [] => first_authorizer_of acts end
  end.
Definition first_authorizer (t : transaction) : Z := first_authorizer_of (actions t).

(** [transaction_header] *)
Definition get_ref_blocknum (head_blocknum : Z) : Z :=
  u32 (u32 (head_blocknum / 0xffff * 0xffff) + head_blocknum mod 0xffff).

Definition trx_validate (t : transaction) : res unit :=
  eos_assert (max_net_usage_words t <? UINT32_MAX / 8) transaction_exception.

Section Reference.
Context `{C : crypto}.

Definition set_reference_block (reference_block : digest_type) (t : transaction) : transaction :=
  mk_transaction (trx_expiration t) (u16 (endian_reverse_u32 (u32 (_hash0 reference_block)))) (u32 (_hash1 reference_block))
    (max_net_usage_words t) (max_cpu_usage_ms t) (delay_sec t) (context_free_actions t) (actions t) (transaction_extensions t).

Definition verify_reference_block (reference_block : digest_type) (t : transaction) : bool :=
  (ref_block_num t =? u16 (endian_reverse_u32 (u32 (_hash0 reference_block))))
  && (ref_block_prefix t =? u32 (_hash1 reference_block)).
End Reference.

(** ** Extensions *)
Record deferred_transaction_generation_context : Type := mk_generation_context {
  sender_trx_id : digest_type; ctx_sender_id : Z; ctx_sender : Z }.

Definition generation_context_extension_id : Z := 0.
Definition generation_context_enforce_unique : bool := true.

(** ** Packing *)
Class trx_codec (Sig Key : Type) : Type := {
  pack_trx : transaction -> list Z;
  unpack_trx : list Z -> res transaction;
  pack_cfd : list (list Z) -> list Z;
  unpack_cfd : list Z -> res (list (list Z));
  pack_digest : digest_type -> list Z;
  pack_signatures : list Sig -> list Z;
  pack_generation_context : deferred_transaction_generation_context -> list Z;
  unpack_generation_context : list Z -> res deferred_transaction_generation_context;
  deflate : list Z -> list Z;
  inflate : list Z -> res (list Z);
  hash_bytes : list Z -> digest_type;
  recover : Sig -> digest_type -> res Key }.

Class codec_laws {Sig Key} (T : trx_codec Sig Key) : Prop := {
  unpack_pack_trx t : unpack_trx (pack_trx t) = Ok t;
  unpack_pack_cfd cfd : unpack_cfd (pack_cfd cfd) = Ok cfd;
  pack_cfd_nonempty cfd : pack_cfd cfd <> [];
  inflate_deflate data : inflate (deflate data) = Ok data;
  deflate_nonempty data : deflate data <> [] }.

Section Packing.
Context {Sig Key : Type} `{EqDecision Key} `{T : trx_codec Sig Key}.

Definition transaction_id (t : transaction) : digest_type := hash_bytes (pack_trx t).

Definition zero_digest : digest_type := mk_digest 0 0 0 0.

Definition sig_digest (chain_id : digest_type) (t : transaction) (cfd : list (list Z)) : digest_type :=
  hash_bytes (pack_digest chain_id ++ pack_trx t
    ++ pack_digest (match cfd with [] => zero_digest | _ => hash_bytes (pack_cfd cfd) end)).

(** [unpack] of the extension ends in [reflector_init]. *)
Definition extract_trx_extension (id : Z) (data : list Z)
    : res (option (deferred_transaction_generation_context * bool)) :=
  if id =? generation_context_extension_id then
    c ← unpack_generation_context data;
    eos_assert (negb (ctx_sender c =? 0)) ill_formed_deferred_transaction_generation_context;;
    Ok (Some (c, generation_context_enforce_unique))
  else Ok None.

Fixpoint extract_trx_extensions (i : nat) (exts : list (Z * list Z)) (id_type_lower_bound : Z)
    (results : list (Z * deferred_transaction_generation_context)) : res (list (Z * deferred_transaction_generation_context)) :=
  match exts with
  | [] => Ok results
  | (id, data) :: exts =>
      eos_assert (id >=? id_type_lower_bound) invalid_transaction_extension;;
      m ← extract_trx_extension id data;
      match m with
      | None => Err invalid_transaction_extension
      | Some (c, enforce_unique) =>
          (if enforce_unique : bool then eos_assert ((i =? 0)%nat || (id >? id_type_lower_bound)) invalid_transaction_extension
           else Ok tt);;
          extract_trx_extensions (S i) exts id (emplace_extension results id c)
      end
  end.

Definition validate_and_extract_extensions (t : transaction) : res (list (Z * deferred_transaction_generation_context)) :=
  extract_trx_extensions 0 (transaction_extensions t) 0 [].

(** [get_signature_keys]: [clock] are the readings of the clock before each
    signature; the keys are in the order of recovery. *)
Fixpoint recover_signatures (digest : digest_type) (deadline : Z) (allow_duplicate_keys : bool) (clock : list Z)
    (signatures : list Sig) (recovered_pub_keys : list Key) : res (list Key) :=
  match signatures with
  | [] => Ok recovered_pub_keys
  | sig :: signatures =>
      eos_assert (match clock with now :: _ => now <? deadline | [] => false end) tx_cpu_usage_exceeded;;
      key ← recover sig digest;
      let inserted := negb (bool_decide (key ∈ recovered_pub_keys)) in
      eos_assert (allow_duplicate_keys || inserted) tx_duplicate_sig;;
      recover_signatures digest deadline allow_duplicate_keys (tail clock) signatures
        (if inserted then recovered_pub_keys ++ [key] else recovered_pub_keys)
  end.

(** ** [packed_transaction] *)
Record signed_transaction : Type := mk_signed_trx {
  st_trx : transaction; st_signatures : list Sig; st_context_free_data : list (list Z) }.

Definition compression_none : Z := 0.
Definition compression_zlib : Z := 1.

Record packed_transaction : Type := mk_packed {
  pt_signatures : list Sig;
  pt_compression : Z;
  packed_context_free_data : list Z;
  pt_packed_trx : list Z;
  unpacked_trx : signed_transaction;
  pt_trx_id : digest_type }.

Definition fixed_net_overhead_of_packed_trx : Z := 16.

Definition get_unprunable_size (p : packed_transaction) : res Z :=
  let size := u64 (fixed_net_overhead_of_packed_trx + Z.of_nat (length (pt_packed_trx p))) in
  eos_assert (size <=? UINT32_MAX) tx_too_big;; Ok (u32 size).

Definition get_prunable_size (p : packed_transaction) : res Z :=
  let size := u64 (Z.of_nat (length (pack_signatures (pt_signatures p))) + Z.of_nat (length (packed_context_free_data p))) in
  eos_assert (size <=? UINT32_MAX) tx_too_big;; Ok (u32 size).

(** [read_limiter<1*1024*1024>]: more than a megabyte is refused. *)
Definition decompression_limit : Z := 1 * 1024 * 1024.
Definition zlib_decompress (data : list Z) : res (list Z) :=
  out ← inflate data;
  eos_assert (Z.of_nat (length out) <=? decompression_limit) tx_decompression_error;; Ok out.

Definition unpack_context_free_data (data : list Z) : res (list (list Z)) :=
  match data with [] => Ok [] | _ => unpack_cfd data end.
Definition zlib_decompress_context_free_data (data : list Z) : res (list (list Z)) :=
  match data with [] => Ok [] | _ => out ← zlib_decompress data; unpack_context_free_data out end.
Definition zlib_decompress_transaction (data : list Z) : res transaction :=
  out ← zlib_decompress data; unpack_trx out.
Definition pack_context_free_data (cfd : list (list Z)) : list Z := match cfd with [] => [] | _ => pack_cfd cfd end.
Definition zlib_compress_context_free_data (cfd : list (list Z)) : list Z :=
  match cfd with [] => [] | _ => deflate (pack_context_free_data cfd) end.
Definition zlib_compress_transaction (t : transaction) : list Z := deflate (pack_trx t).

Definition get_raw_transaction (p : packed_transaction) : res (list Z) :=
  if pt_compression p =? compression_none then Ok (pt_packed_trx p)
  else if pt_compression p =? compression_zlib then zlib_decompress (pt_packed_trx p)
  else Err unknown_transaction_compression.

Definition local_unpack_transaction (cfd : list (list Z)) (p : packed_transaction) : res packed_transaction :=
  t ← (if pt_compression p =? compression_none then unpack_trx (pt_packed_trx p)
       else if pt_compression p =? compression_zlib then zlib_decompress_transaction (pt_packed_trx p)
       else Err unknown_transaction_compression);
  Ok (mk_packed (pt_signatures p) (pt_compression p) (packed_context_free_data p) (pt_packed_trx p)
        (mk_signed_trx t (pt_signatures p) cfd) (transaction_id t)).

Definition local_unpack_context_free_data (p : packed_transaction) : res packed_transaction :=
  eos_assert (match st_context_free_data (unpacked_trx p) with [] => true | _ => false end) tx_decompression_error;;
  cfd ← (if pt_compression p =? compression_none then unpack_context_free_data (packed_context_free_data p)
         else if pt_compression p =? compression_zlib then zlib_decompress_context_free_data (packed_context_free_data p)
         else Err unknown_transaction_compression);
  Ok (mk_packed (pt_signatures p) (pt_compression p) (packed_context_free_data p) (pt_packed_trx p)
        (mk_signed_trx (st_trx (unpacked_trx p)) (st_signatures (unpacked_trx p)) cfd) (pt_trx_id p)).

Definition local_pack_transaction (p : packed_transaction) : res packed_transaction :=
  packed ← (if pt_compression p =? compression_none then Ok (pack_trx (st_trx (unpacked_trx p)))
            else if pt_compression p =? compression_zlib then Ok (zlib_compress_transaction (st_trx (unpacked_trx p)))
            else Err unknown_transaction_compression);
  Ok (mk_packed (pt_signatures p) (pt_compression p) (packed_context_free_data p) packed (unpacked_trx p) (pt_trx_id p)).

Definition local_pack_context_free_data (p : packed_transaction) : res packed_transaction :=
  packed ← (if pt_compression p =? compression_none then Ok (pack_context_free_data (st_context_free_data (unpacked_trx p)))
            else if pt_compression p =? compression_zlib then Ok (zlib_compress_context_free_data (st_context_free_data (unpacked_trx p)))
            else Err unknown_transaction_compression);
  Ok (mk_packed (pt_signatures p) (pt_compression p) packed (pt_packed_trx p) (unpacked_trx p) (pt_trx_id p)).

(** The constructors, and the initialization after the four serialized fields
    were read. *)
Definition packed_of_signed (t : signed_transaction) (compression : Z) : res packed_transaction :=
  p ← local_pack_transaction (mk_packed (st_signatures t) compression [] [] t (transaction_id (st_trx t)));
  local_pack_context_free_data p.

Definition no_signed_trx : signed_transaction := mk_signed_trx default_transaction [] [].

Definition packed_of_bytes (packed_txn : list Z) (sigs : list Sig) (packed_cfd : list Z) (compression : Z) : res packed_transaction :=
  p ← local_unpack_transaction [] (mk_packed sigs compression packed_cfd packed_txn no_signed_trx zero_digest);
  match packed_context_free_data p with [] => Ok p | _ => local_unpack_context_free_data p end.

Definition packed_of_cfd (packed_txn : list Z) (sigs : list Sig) (cfd : list (list Z)) (compression : Z) : res packed_transaction :=
  p ← local_unpack_transaction cfd (mk_packed sigs compression [] packed_txn no_signed_trx zero_digest);
  match st_context_free_data (unpacked_trx p) with [] => Ok p | _ => local_pack_context_free_data p end.

Definition packed_of_transaction (t : transaction) (sigs : list Sig) (packed_cfd : list Z) (compression : Z) : res packed_transaction :=
  p ← local_pack_transaction (mk_packed sigs compression packed_cfd [] (mk_signed_trx t sigs []) (transaction_id t));
  match packed_context_free_data p with [] => Ok p | _ => local_unpack_context_free_data p end.

Definition reflector_init (p : packed_transaction) : res packed_transaction :=
  eos_assert (trx_expiration (st_trx (unpacked_trx p)) =? 0) tx_decompression_error;;
  p ← local_unpack_transaction [] p;
  local_unpack_context_free_data p.

(** The serialized fields of a packed transaction, read back. *)
Definition received (p : packed_transaction) : res packed_transaction :=
  reflector_init (mk_packed (pt_signatures p) (pt_compression p) (packed_context_free_data p) (pt_packed_trx p) no_signed_trx zero_digest).
End Packing.

Arguments signed_transaction Sig : clear implicits.
Arguments packed_transaction Sig : clear implicits.

(** ** Properties *)
Section Laws.
Context {Sig Key : Type} `{EqDecision Key} `{T : trx_codec Sig Key} `{!codec_laws T}.

#[local] Arguments zlib_decompress : simpl never.
#[local] Arguments pack_context_free_data : simpl never.
#[local] Arguments unpack_context_free_data : simpl never.
#[local] Arguments zlib_compress_context_free_data : simpl never.
#[local] Arguments zlib_decompress_context_free_data : simpl never.

(** What zlib may unpack. *)
Definition within_limit (data : list Z) : bool := Z.of_nat (length data) <=? decompression_limit.
Definition can_unpack (compression : Z) (t : signed_transaction Sig) : bool :=
  if compression =? compression_zlib then
    within_limit (pack_trx (st_trx t)) && match st_context_free_data t with [] => true | cfd => within_limit (pack_cfd cfd) end
  else true.

Lemma zlib_decompress_deflate data : zlib_decompress (deflate data) = if within_limit data then Ok data else Err tx_decompression_error.
Proof. unfold zlib_decompress, within_limit. rewrite inflate_deflate. cbn. by destruct (_ <=? _). Qed.

Lemma unpack_context_free_data_packed cfd : unpack_context_free_data (pack_context_free_data cfd) = Ok cfd.
Proof.
  destruct cfd as [|x cfd]; [done|]. unfold unpack_context_free_data, pack_context_free_data.
  destruct (pack_cfd (x :: cfd)) eqn:E; [by destruct (pack_cfd_nonempty (x :: cfd))|]. rewrite <- E. apply unpack_pack_cfd.
Qed.

Lemma zlib_cfd_roundtrip cfd : zlib_decompress_context_free_data (zlib_compress_context_free_data cfd)
  = if match cfd with [] => true | _ => within_limit (pack_cfd cfd) end then Ok cfd else Err tx_decompression_error.
Proof.
  destruct cfd as [|x cfd]; [done|]. unfold zlib_decompress_context_free_data, zlib_compress_context_free_data.
  set (raw := pack_context_free_data (x :: cfd)).
  destruct (deflate raw) as [|b bs] eqn:E; [by destruct (deflate_nonempty raw)|]. rewrite <- E, zlib_decompress_deflate.
  change (pack_cfd (x :: cfd)) with raw. destruct (within_limit raw); [|done]. cbn [mbind res_bind]. apply unpack_context_free_data_packed.
Qed.

Lemma extract_trx_extension_id id data c u : extract_trx_extension id data = Ok (Some (c, u)) ->
  id = generation_context_extension_id /\ unpack_generation_context data = Ok c /\ ctx_sender c <> 0
  /\ u = generation_context_enforce_unique.
Proof.
  unfold extract_trx_extension. destruct (Z.eqb_spec id generation_context_extension_id) as [->|]; [|done].
  intros Hx. minv. btests. by simplify_eq.
Qed.

Lemma recover_signatures_spec digest deadline sigs : forall clock keys keys',
  recover_signatures digest deadline false clock sigs keys = Ok keys' -> NoDup keys ->
  exists ks, keys' = keys ++ ks /\ NoDup keys' /\ Forall2 (fun sig k => recover sig digest = Ok k) sigs ks
    /\ Forall (fun now => now < deadline) (take (length sigs) clock).
Proof.
  induction sigs as [|sig sigs IH]; intros clock keys keys' Hr Hnd; cbn [recover_signatures] in Hr.
  - minv. exists []. rewrite app_nil_r. by split_and!.
  - minv. destruct clock as [|now clock]; [done|]. cbn [orb tail] in *. btests.
    match goal with Hb : bool_decide _ = false |- _ => rewrite Hb in *; apply bool_decide_eq_false in Hb end.
    cbn [negb] in *. match goal with Hk : recover sig digest = Ok ?k |- _ => rename k into key end.
    match goal with Hr : recover_signatures _ _ _ _ _ _ = _ |- _ => apply IH in Hr as (ks & -> & Hnd' & Hall & Hclock) end.
    + exists (key :: ks). split; [by rewrite <- app_assoc|]. split; [done|]. split; by constructor.
    + apply NoDup_app. split_and!; [done| |apply NoDup_singleton]. by intros k Hk ->%list_elem_of_singleton.
Qed.
End Laws.

(** C34: A packed transaction that is sent and read back is the same object, id
    and unpacked transaction included, whether compressed or not; only a
    compressed transaction or context-free data of more than a megabyte is
    refused by the receiver. *)
Theorem packed_transaction_roundtrip {Sig Key} `{T : trx_codec Sig Key} `{!codec_laws T}
    (t : signed_transaction Sig) (compression : Z) (p : packed_transaction Sig) :
  packed_of_signed t compression = Ok p ->
  received p = if can_unpack compression t then Ok p else Err tx_decompression_error.
Proof.
  unfold packed_of_signed, local_pack_transaction, local_pack_context_free_data, received, reflector_init, can_unpack.
  cbn [pt_compression pt_signatures packed_context_free_data pt_packed_trx unpacked_trx pt_trx_id]. intros Hp.
  unfold local_unpack_transaction, local_unpack_context_free_data.
  destruct t as [t sigs cfd]. destruct (Z.eqb_spec compression compression_none) as [->|Hn].
  - cbn in Hp. simplify_eq. cbn. rewrite unpack_pack_trx. cbn. by rewrite unpack_context_free_data_packed.
  - destruct (Z.eqb_spec compression compression_zlib) as [->|]; [|done]. cbn in Hp. simplify_eq. cbn.
    unfold zlib_decompress_transaction, zlib_compress_transaction. rewrite zlib_decompress_deflate.
    destruct (within_limit (pack_trx t)); [|done]. cbn. rewrite unpack_pack_trx. cbn. rewrite zlib_cfd_roundtrip.
    destruct cfd as [|x cfd]; [done|]. by destruct (within_limit (pack_cfd (x :: cfd))).
Qed.

(** The number of the reference block is not what it says: whatever the
    transaction refers to, the result is the head block. *)
Lemma get_ref_blocknum_is_head head : is_u32 head -> get_ref_blocknum head = head.
Proof.
  intros Hh. unfold get_ref_blocknum. pose proof (Z.div_mod head 0xffff ltac:(done)) as Hd.
  pose proof (Z.mod_pos_bound head 0xffff ltac:(done)). pose proof (Z.div_pos head 0xffff).
  assert (0 <= head / 0xffff) by (apply Z.div_pos; widths; lia).
  rewrite (u32_id (head / 0xffff * 0xffff)) by (widths; lia). rewrite u32_id; widths; lia.
Qed.

(** At most one extension is accepted, the generation context of a deferred
    transaction, with a sender. *)
Lemma extract_trx_extensions_again {Sig Key} `{T : trx_codec Sig Key} i exts results r :
  extract_trx_extensions (S i) exts generation_context_extension_id results = Ok r -> exts = [] /\ r = results.
Proof.
  destruct exts as [|[id data] exts]; cbn [extract_trx_extensions]; intros Hr; minv; [done|]. exfalso.
  destruct x0 as [[c u]|]; [|done]. apply extract_trx_extension_id in H0 as (-> & _ & _ & ->). cbn in *. by minv.
Qed.

Lemma validate_and_extract_extensions_spec {Sig Key} `{T : trx_codec Sig Key} t exts :
  validate_and_extract_extensions t = Ok exts <->
  (transaction_extensions t = [] /\ exts = [])
  \/ exists data c, transaction_extensions t = [(generation_context_extension_id, data)]
       /\ unpack_generation_context data = Ok c /\ ctx_sender c <> 0 /\ exts = [(generation_context_extension_id, c)].
Proof.
  unfold validate_and_extract_extensions. split.
  - destruct (transaction_extensions t) as [|[id data] rest]; cbn [extract_trx_extensions]; intros Hr; minv; [by left|right].
    destruct x0 as [[c u]|]; [|done]. apply extract_trx_extension_id in H0 as (-> & Hc & Hs & ->). cbn in *. minv.
    apply extract_trx_extensions_again in H1 as [-> ->]. by exists data, c.
  - intros [[-> ->]|(data & c & -> & Hc & Hs & ->)]; [done|]. cbn [extract_trx_extensions].
    unfold extract_trx_extension. cbn. rewrite Hc. cbn. by apply Z.eqb_neq in Hs as ->.
Qed.

(** ** A concrete codec: a value is packed as its code. *)
#[export] Instance action_eq_dec : EqDecision action.
Proof. solve_decision. Defined.
#[export] Instance action_countable : Countable action.
Proof.
  apply (inj_countable' (fun a => (act_account a, act_name a, authorization a, act_data a))
    (fun x => let '(a, n, l, d) := x in mk_action a n l d)). by intros [].
Defined.
#[export] Instance transaction_eq_dec : EqDecision transaction.
Proof. solve_decision. Defined.
#[export] Instance transaction_countable : Countable transaction.
Proof.
  apply (inj_countable' (fun t => (trx_expiration t, ref_block_num t, ref_block_prefix t, max_net_usage_words t,
      max_cpu_usage_ms t, delay_sec t, context_free_actions t, actions t, transaction_extensions t))
    (fun x => let '(a, b, c, d, e, f, g, h, i) := x in mk_transaction a b c d e f g h i)). by intros [].
Defined.

Definition demo_pack_value {A} `{Countable A} (a : A) : list Z := [Z.pos (encode a)].
Definition demo_unpack_value {A} `{Countable A} (l : list Z) : res A :=
  match l with
  | [Z.pos p] => match decode p with Some a => Ok a | None => Err std_out_of_range end
  | _ => Err std_out_of_range
  end.

Lemma demo_unpack_pack {A} `{Countable A} (a : A) : demo_unpack_value (demo_pack_value a) = Ok a.
Proof. unfold demo_unpack_value, demo_pack_value. by rewrite decode_encode. Qed.

#[export] Instance demo_codec : trx_codec Z Z := {|
  pack_trx := demo_pack_value; unpack_trx := demo_unpack_value;
  pack_cfd := demo_pack_value; unpack_cfd := demo_unpack_value;
  pack_digest d := [_hash0 d; _hash1 d; _hash2 d; _hash3 d];
  pack_signatures sigs := sigs;
  pack_generation_context c := [ctx_sender c];
  unpack_generation_context l := match l with [s] => Ok (mk_generation_context zero_digest 0 s) | _ => Err std_out_of_range end;
  deflate data := 0 :: data;
  inflate data := match data with 0 :: data => Ok data | _ => Err std_out_of_range end;
  hash_bytes l := mk_digest (Z.of_nat (length l)) (default 0 (head l)) 0 0;
  recover sig _ := Ok sig |}.

#[export] Instance demo_codec_laws : codec_laws demo_codec.
Proof. split; intros; try apply demo_unpack_pack; done. Qed.

Definition demo_trx : transaction :=
  mk_transaction 1577880030 5 77 0 0 0 [] [mk_action 6 7 [mk_pl 8 9] [1; 2; 3]] [].
Definition demo_signed_trx : signed_transaction Z := mk_signed_trx demo_trx [11; 12] [[4]; [5; 6]].
Definition demo_packed : packed_transaction Z := ok_or (mk_packed [] 0 [] [] no_signed_trx zero_digest) (packed_of_signed demo_signed_trx compression_zlib).

Lemma packed_transaction_roundtrip_witness :
  packed_of_signed demo_signed_trx compression_zlib = Ok demo_packed /\ received demo_packed = Ok demo_packed.
Proof.
  assert (E : packed_of_signed demo_signed_trx compression_zlib = Ok demo_packed) by (apply ok_or_eq; reflexivity).
  split; [exact E|]. rewrite (packed_transaction_roundtrip demo_signed_trx compression_zlib demo_packed E).
  assert (can_unpack compression_zlib demo_signed_trx = true) as -> by (vm_compute; reflexivity). reflexivity.
Defined.
