(* ===== verification/TransactionChecks.v ===== *)
(** * The checks of incoming transactions
      ([controller.cpp], [transaction_object.hpp], [block_summary_object.hpp])

    Expiration, reference block, duplicates, the lists of allowed and denied
    accounts, and when the checks may be skipped.  The theorems: the actor lists
    decide set inclusion and disjointness, the reference block is compared with
    the last block of its number modulo 2^16, expired entries are all removed,
    and no transaction is ever accepted twice. *)

From S2P Require Import Prelude Merkle Chainbase Authority AuthorityChecker BlockHeader Authorization EosioContract Transaction.
From Stdlib Require Import Sorting.Sorted.

(** ** When checks are skipped *)
Inductive block_status : Type := irreversible | validated | complete | incomplete.
#[export] Instance block_status_eq_dec : EqDecision block_status.
Proof. solve_decision. Defined.

(** The configuration of the controller that the checks read; sets are sorted
    lists ([flat_set]). *)
Record controller_config : Type := mk_conf {
  force_all_checks : bool;
  disable_replay_opts : bool;
  light_validation_mode : bool;
  actor_allowlist : list Z;
  actor_denylist : list Z;
  contract_allowlist : list Z;
  contract_denylist : list Z;
  action_denylist : list (Z * Z);
  sender_bypass_allowdenylist : list Z;
  resource_greylist : list Z;
  greylist_limit : Z }.

(** The pending block, and the flags of the controller besides it. *)
Record controller_view : Type := mk_view {
  pending_status : option block_status;
  in_trx_requiring_checks : bool;
  trusted_producer_light_validation : bool;
  conf : controller_config }.

Definition light_validation_allowed (v : controller_view) (replay_opts_disabled_by_policy : bool) : bool :=
  match pending_status v with
  | None => false
  | Some pb_status =>
      if in_trx_requiring_checks v then false
      else
        let consider_skipping_on_replay :=
          bool_decide (pb_status = irreversible \/ pb_status = validated) && negb replay_opts_disabled_by_policy in
        let consider_skipping_on_validate :=
          bool_decide (pb_status = complete) && (light_validation_mode (conf v) || trusted_producer_light_validation v) in
        consider_skipping_on_replay || consider_skipping_on_validate
  end.

Definition skip_auth_check (v : controller_view) : bool := light_validation_allowed v (force_all_checks (conf v)).
Definition skip_trx_checks (v : controller_view) : bool := light_validation_allowed v (disable_replay_opts (conf v)).
Definition skip_db_sessions_of (v : controller_view) (bs : block_status) : bool :=
  bool_decide (bs = irreversible) && negb (disable_replay_opts (conf v)) && negb (in_trx_requiring_checks v).
Definition skip_db_sessions (v : controller_view) : bool :=
  match pending_status v with Some bs => skip_db_sessions_of v bs | None => false end.
Definition is_producing_block (v : controller_view) : bool := bool_decide (pending_status v = Some incomplete).

Definition sender_avoids_allowlist_denylist_enforcement (c : controller_config) (sender : Z) : bool :=
  (0 <? Z.of_nat (length (sender_bypass_allowdenylist c))) && bool_decide (sender ∈ sender_bypass_allowdenylist c).
Definition is_resource_greylisted (c : controller_config) (name : Z) : bool := bool_decide (name ∈ resource_greylist c).
Definition get_greylist_limit (c : controller_config) : Z := greylist_limit c.
Definition set_greylist_limit (limit : Z) (c : controller_config) : res controller_config :=
  eos_assert ((0 <? limit) && (limit <=? ResourceLimits.maximum_elastic_resource_multiplier)) misc_exception;;
  Ok (mk_conf (force_all_checks c) (disable_replay_opts c) (light_validation_mode c) (actor_allowlist c) (actor_denylist c)
        (contract_allowlist c) (contract_denylist c) (action_denylist c) (sender_bypass_allowdenylist c) (resource_greylist c) limit).

(** ** Lists of actors, contracts and actions *)

(** [std::lower_bound( begin, end, a )] as the rest of the list from there. *)
Fixpoint lower_bound_from (a : Z) (l : list Z) : list Z :=
  match l with
  | [] => []
  | x :: l' => if x <? a then lower_bound_from a l' else l
  end.

Fixpoint allowed_loop (actors allowlist : list Z) : bool :=
  match actors with
  | [] => true
  | a :: actors =>
      match lower_bound_from a allowlist with
      | x :: rest => if negb (x =? a) then false else allowed_loop actors rest
      | [] => false
      end
  end.

Fixpoint denied_loop (actors denylist : list Z) : bool :=
  match actors with
  | [] => false
  | a :: actors =>
      match lower_bound_from a denylist with
      | x :: rest => if x =? a then true else denied_loop actors (x :: rest)
      | [] => false
      end
  end.

Definition first_of_set (l : list Z) : Z := default 0 (head l).
Definition last_of_set (l : list Z) : Z := default 0 (last l).

Definition check_actor_list (c : controller_config) (actors : list Z) : res unit :=
  match actors with
  | [] => Ok tt
  | _ =>
      if 0 <? Z.of_nat (length (actor_allowlist c)) then
        let allowlist := actor_allowlist c in
        let is_subset := if (first_of_set actors >=? first_of_set allowlist) && (last_of_set actors <=? last_of_set allowlist)
                         then allowed_loop actors allowlist else false in
        eos_assert is_subset actor_allowlist_exception
      else if 0 <? Z.of_nat (length (actor_denylist c)) then
        let denylist := actor_denylist c in
        let intersects := if (first_of_set actors <=? last_of_set denylist) && (last_of_set actors >=? first_of_set denylist)
                          then denied_loop actors denylist else false in
        eos_assert (negb intersects) actor_denylist_exception
      else Ok tt
  end.

Definition check_contract_list (c : controller_config) (code : Z) : res unit :=
  if 0 <? Z.of_nat (length (contract_allowlist c)) then
    eos_assert (bool_decide (code ∈ contract_allowlist c)) contract_allowlist_exception
  else if 0 <? Z.of_nat (length (contract_denylist c)) then
    eos_assert (negb (bool_decide (code ∈ contract_denylist c))) contract_denylist_exception
  else Ok tt.

Definition check_action_list (c : controller_config) (code act : Z) : res unit :=
  if 0 <? Z.of_nat (length (action_denylist c)) then
    eos_assert (negb (bool_decide ((code, act) ∈ action_denylist c))) action_denylist_exception
  else Ok tt.

(** ** Expiration, reference block, duplicates *)
Record transaction_object : Type := mk_transaction_object { to_expiration : Z; to_trx_id : digest_type }.
Definition transaction_conflict (a b : transaction_object) : bool := bool_decide (to_trx_id a = to_trx_id b).

Definition validate_expiration (pending_block_time max_transaction_lifetime : Z) (t : transaction) : res unit :=
  eos_assert (seconds (trx_expiration t) >=? pending_block_time) expired_tx_exception;;
  eos_assert (seconds (trx_expiration t) <=? pending_block_time + seconds max_transaction_lifetime) tx_exp_too_far_exception.

(** [record_transaction]: whatever the table throws is a duplicate. *)
Definition record_transaction (id : digest_type) (expire : Z) : M (generic_index transaction_object) unit := fun gi =>
  match emplace transaction_conflict (mk_transaction_object expire id) gi with
  | (Ok _, gi) => (Ok tt, gi)
  | (Err _, gi) => (Err tx_duplicate, gi)
  end.

Definition is_known_unexpired_transaction (gi : generic_index transaction_object) (id : digest_type) : bool :=
  match find_by (fun t => bool_decide (to_trx_id t = id)) gi with Some _ => true | None => false end.

(** [by_expiration]: expiration, then id. *)
Definition expiration_key (x : Z * transaction_object) : Z * Z := (to_expiration x.2, x.1).
Definition first_expiring (gi : generic_index transaction_object) : option (Z * transaction_object) :=
  least (fun x y => lex_lt (expiration_key x) (expiration_key y)) (map_to_list (_indices gi)).

Fixpoint clear_expired_inputs (fuel : nat) (now : Z) : M (generic_index transaction_object) unit :=
  gi ← get;
  match first_expiring gi with
  | None => mret tt
  | Some (id, t) =>
      if now >? seconds (to_expiration t) then
        match fuel with
        | O => throw out_of_fuel
        | S fuel => index_remove id;; clear_expired_inputs fuel now
        end
      else mret tt
  end.

Definition clear_expired_input_transactions (now : Z) : M (generic_index transaction_object) unit := fun gi =>
  clear_expired_inputs (size (_indices gi)) now gi.

Section Tapos.
Context `{C : crypto}.

(** [block_summary_object]: its id is the block number modulo 2^16. *)
Definition block_summary_conflict (a b : digest_type) : bool := false.

Definition create_block_summary (id : digest_type) : M (generic_index digest_type) unit :=
  let sid := Z.land (num_from_id id) 0xffff in
  gi ← get;
  lift (index_get gi sid);;
  index_modify block_summary_conflict sid (fun _ => id).

(** The summaries of [controller_impl::initialize_database]. *)
Fixpoint create_empty_summaries (n : nat) : M (generic_index digest_type) unit :=
  match n with
  | O => mret tt
  | S n => create_empty_summaries n;; emplace block_summary_conflict zero_digest;; mret tt
  end.

Definition initialize_block_summaries (head_id : digest_type) : M (generic_index digest_type) unit :=
  create_empty_summaries (Z.to_nat 0x10000);;
  gi ← get;
  lift (index_get gi 1);;
  index_modify block_summary_conflict 1 (fun _ => head_id).

Definition validate_tapos (gi : generic_index digest_type) (t : transaction) : res unit :=
  tapos_block_summary ← index_get gi (u16 (ref_block_num t));
  eos_assert (verify_reference_block tapos_block_summary t) invalid_ref_block_exception.
End Tapos.

(** ** The actor lists decide inclusion and disjointness *)
Abbreviation flat := (StronglySorted Z.lt).

Lemma flat_inv x l : flat (x :: l) -> flat l /\ forall y, y ∈ l -> x < y.
Proof. intros Hs. inversion Hs as [|? ? Hl Hall]; subst. split; [done|]. by rewrite Forall_forall in Hall. Qed.

Lemma lower_bound_from_spec a l : flat l -> flat (lower_bound_from a l)
  /\ (forall y, a <= y -> y ∈ l <-> y ∈ lower_bound_from a l)
  /\ (forall y, y ∈ lower_bound_from a l -> a <= y).
Proof.
  induction l as [|x l IH]; intros Hs; [split; [done|]; split; [done|]; cbn; intros y Hy; by apply elem_of_nil in Hy|].
  pose proof Hs as [Hl Hx]%flat_inv. cbn. destruct (Z.ltb_spec x a).
  - destruct (IH Hl) as (Hs' & Hin & Hge). split; [done|]. split; [|done]. intros y Hy. rewrite elem_of_cons, Hin by done.
    split; [intros [->|?]; [lia|done]|by right].
  - split; [done|]. split; [done|]. intros y [->|Hy]%elem_of_cons; [done|]. apply Hx in Hy. lia.
Qed.

Lemma allowed_loop_spec actors : forall l, flat actors -> flat l ->
  allowed_loop actors l = true <-> forall a, a ∈ actors -> a ∈ l.
Proof.
  induction actors as [|a actors IH]; intros l Ha Hl; cbn [allowed_loop].
  { split; [|done]. by intros _ a ?%elem_of_nil. }
  apply flat_inv in Ha as [Hactors Hlt]. destruct (lower_bound_from_spec a l Hl) as (Hs & Hin & Hge).
  destruct (lower_bound_from a l) as [|x rest] eqn:E.
  { split; [done|]. intros Hall. apply (Hin a), elem_of_nil in Hall; [done|lia|by left]. }
  apply flat_inv in Hs as [Hrest Hx]. pose proof (Hge x (ltac:(by left))) as Hax.
  destruct (Z.eqb_spec x a) as [->|Hne]; cbn [negb].
  - rewrite (IH rest Hactors Hrest). split.
    + intros Hall b [->|Hb]%elem_of_cons; [apply Hin; [lia|by left]|]. apply Hin; [apply Hlt in Hb; lia|]. right. by apply Hall.
    + intros Hall b Hb. pose proof (Hlt b Hb). assert (b ∈ a :: rest) as [->|?]%elem_of_cons; [|lia|done].
      apply Hin; [lia|]. apply Hall. by right.
  - split; [done|]. intros Hall. assert (a ∈ x :: rest) as [->|Hr]%elem_of_cons; [|done|apply Hx in Hr; lia].
    apply Hin; [lia|]. apply Hall. by left.
Qed.

Lemma denied_loop_spec actors : forall l, flat actors -> flat l ->
  denied_loop actors l = true <-> exists a, a ∈ actors /\ a ∈ l.
Proof.
  induction actors as [|a actors IH]; intros l Ha Hl; cbn [denied_loop].
  { split; [done|]. by intros (a & ?%elem_of_nil & _). }
  apply flat_inv in Ha as [Hactors Hlt]. destruct (lower_bound_from_spec a l Hl) as (Hs & Hin & Hge).
  destruct (lower_bound_from a l) as [|x rest] eqn:E.
  { split; [done|]. intros (b & Hb & Hbl). apply (Hin b), elem_of_nil in Hbl; [done|].
    apply elem_of_cons in Hb as [->|Hb]; [lia|]. apply Hlt in Hb. lia. }
  pose proof Hs as [Hrest Hx]%flat_inv. destruct (Z.eqb_spec x a) as [->|Hne].
  { split; [|done]. intros _. exists a. split; [by left|]. apply Hin; [lia|by left]. }
  rewrite (IH _ Hactors Hs). pose proof (Hge x (ltac:(by left))) as Hax. split.
  - intros (b & Hb & Hbl). exists b. split; [by right|]. apply Hin; [|done]. by apply Hge.
  - intros (b & [->|Hb]%elem_of_cons & Hbl).
    + apply Hin in Hbl; [|lia]. apply elem_of_cons in Hbl as [->|Hbl]; [done|]. apply Hx in Hbl. lia.
    + exists b. split; [done|]. apply Hin; [apply Hlt in Hb; lia|done].
Qed.

Lemma flat_extents l y : flat l -> y ∈ l -> first_of_set l <= y <= last_of_set l.
Proof.
  unfold first_of_set, last_of_set. intros Hs. revert y. induction l as [|x l IH]; intros y; [by intros ?%elem_of_nil|].
  pose proof Hs as [Hl Hx]%flat_inv. intros [->|Hy]%elem_of_cons.
  - cbn. split; [lia|]. destruct l as [|z l]; [cbn; lia|]. rewrite last_cons_cons.
    pose proof (IH Hl z (ltac:(by left))) as [_ Hz]. pose proof (Hx z (ltac:(by left))). lia.
  - pose proof (IH Hl y Hy) as [_ Hlast]. pose proof (Hx y Hy). cbn [head default]. split; [cbn; lia|].
    destruct l as [|z l]; [by apply elem_of_nil in Hy|]. by rewrite last_cons_cons.
Qed.

Lemma last_of_set_in l : l <> [] -> last_of_set l ∈ l.
Proof. destruct l as [|x l]; [done|]. intros _. unfold last_of_set. destruct (last_is_Some (x :: l)) as [_ Hs].
  destruct (Hs ltac:(done)) as [y Hy]. rewrite Hy. cbn. by apply last_Some_elem_of. Qed.

Lemma check_actor_list_decides (c : controller_config) (actors : list Z) :
  flat actors -> flat (actor_allowlist c) -> flat (actor_denylist c) ->
  (check_actor_list c actors = Ok tt <->
     if decide (actor_allowlist c = []) then forall a, a ∈ actors -> a ∉ actor_denylist c
     else forall a, a ∈ actors -> a ∈ actor_allowlist c)
  /\ (check_actor_list c actors = Ok tt \/ check_actor_list c actors = Err actor_allowlist_exception
      \/ check_actor_list c actors = Err actor_denylist_exception).
Proof.
  intros Ha Hallow Hdeny. unfold check_actor_list. destruct actors as [|a0 acts] eqn:Ea.
  { split; [|by left]. split; [|done]. intros _. case_decide; by intros a ?%elem_of_nil. }
  rewrite <- Ea in *. assert (Hne : actors <> []) by congruence. clear Ea.
  destruct (actor_allowlist c) as [|w ws] eqn:Ew.
  - rewrite decide_True by done. cbn [length Z.of_nat Z.ltb Z.compare].
    destruct (actor_denylist c) as [|x xs] eqn:Ex; [split; [|by left]; split; [|done]; intros _ a _; apply not_elem_of_nil|].
    rewrite <- Ex in *. change (0 <? Z.of_nat (length (x :: xs))) with true. rewrite Ex. cbn [length Z.of_nat Z.ltb Z.compare].
    rewrite <- Ex in *. set (ext := (first_of_set actors <=? _) && _).
    assert (Hiff : (if ext then denied_loop actors (actor_denylist c) else false) = true <-> exists a, a ∈ actors /\ a ∈ actor_denylist c).
    { destruct ext eqn:Eext; [by apply denied_loop_spec|]. split; [done|]. intros (a & Ha1 & Ha2).
      pose proof (flat_extents _ _ Ha Ha1). pose proof (flat_extents _ _ Hdeny Ha2). unfold ext in Eext.
      apply andb_false_iff in Eext as [Eext|Eext]; btests; lia. }
    destruct (if ext then _ else _); cbn [negb eos_assert]; (split; [|auto]).
    + split; [done|]. intros Hno. destruct (proj1 Hiff eq_refl) as (a & Ha1 & Ha2). by destruct (Hno a Ha1).
    + split; [|done]. intros _ a Ha1 Ha2. enough (false = true) by done. apply Hiff. eauto.
  - rewrite decide_False by done. rewrite <- Ew in *.
    assert ((0 <? Z.of_nat (length (actor_allowlist c))) = true) as -> by (rewrite Ew; reflexivity).
    set (ext := (first_of_set actors >=? _) && _).
    assert (Hiff : (if ext then allowed_loop actors (actor_allowlist c) else false) = true <-> forall a, a ∈ actors -> a ∈ actor_allowlist c).
    { destruct ext eqn:Eext; [by apply allowed_loop_spec|]. split; [done|]. intros Hall.
      assert (Hf : first_of_set actors ∈ actors) by (destruct actors; [done|by left]).
      pose proof (flat_extents _ _ Hallow (Hall _ Hf)). pose proof (flat_extents _ _ Hallow (Hall _ (last_of_set_in _ Hne))).
      unfold ext in Eext. apply andb_false_iff in Eext as [Eext|Eext]; btests; lia. }
    destruct (if ext then _ else _); cbn [eos_assert]; (split; [|auto]); split; try done; intros Hx; [by apply Hiff|by apply Hiff in Hx].
Qed.

(** The two passes over sorted lists, with their tests of the extents,
    decide what they are meant to: with an allowlist every actor has to be on
    it, otherwise no actor may be on the denylist. *)
Theorem check_actor_list_spec (c : controller_config) (actors : list Z) :
  flat actors -> flat (actor_allowlist c) -> flat (actor_denylist c) ->
  (check_actor_list c actors = Ok tt <->
     if decide (actor_allowlist c = []) then forall a, a ∈ actors -> a ∉ actor_denylist c
     else forall a, a ∈ actors -> a ∈ actor_allowlist c)
  /\ (check_actor_list c actors = Ok tt \/ check_actor_list c actors = Err actor_allowlist_exception
      \/ check_actor_list c actors = Err actor_denylist_exception).
Proof. apply check_actor_list_decides. Qed.

Definition demo_conf (allow deny : list Z) : controller_config := mk_conf false false false allow deny [] [] [] [] [] 1000.

Lemma check_actor_list_spec_witness :
  check_actor_list (demo_conf [3; 5; 9] []) [3; 9] = Ok tt /\ forall a, a ∈ [3; 9] -> a ∈ [3; 5; 9].
Proof.
  split; [reflexivity|].
  exact (proj1 (proj1 (check_actor_list_spec (demo_conf [3; 5; 9] []) [3; 9] ltac:(repeat constructor; lia)
    ltac:(cbn; repeat constructor; lia) ltac:(constructor))) eq_refl).
Defined.

(** ** Expired entries *)
Definition expires_before (now : Z) (t : transaction_object) : bool := now >? seconds (to_expiration t).

Lemma first_expiring_none gi : first_expiring gi = None <-> _indices gi = ∅.
Proof. unfold first_expiring. rewrite least_none. apply map_to_list_empty_iff. Qed.

Lemma first_expiring_spec gi id t : first_expiring gi = Some (id, t) ->
  _indices gi !! id = Some t /\ forall i u, _indices gi !! i = Some u -> to_expiration t <= to_expiration u.
Proof.
  intros [Hin Hmin]%(least_spec expiration_key). apply elem_of_map_to_list in Hin. split; [done|].
  intros i u Hu. pose proof (Hmin (i, u) ltac:(by apply elem_of_map_to_list)) as Hlt%lex_lt_false. cbn in Hlt. lia.
Qed.

Lemma clear_expired_input_transactions_run (now : Z) (gi : generic_index transaction_object) :
  exists gi', clear_expired_input_transactions now gi = (Ok tt, gi')
    /\ _next_id gi' = _next_id gi
    /\ forall id t, _indices gi' !! id = Some t <-> _indices gi !! id = Some t /\ expires_before now t = false.
Proof.
  unfold clear_expired_input_transactions. remember (size (_indices gi)) as fuel eqn:Ef.
  assert (Hsize : (size (_indices gi) <= fuel)%nat) by lia. clear Ef. revert gi Hsize.
  induction fuel as [|fuel IH]; intros gi Hsize; cbn [clear_expired_inputs]; unfold mbind at 1, M_bind at 1, get at 1; cbn.
  all: destruct (first_expiring gi) as [[i u]|] eqn:E;
    [|apply first_expiring_none in E; exists gi; split; [done|]; split; [done|]; intros id t; rewrite E, lookup_empty; naive_solver].
  all: apply first_expiring_spec in E as [Hi Hmin]; destruct (now >? seconds (to_expiration u)) eqn:Enow;
    [|exists gi; split; [done|]; split; [done|]; intros id t; split; [|by intros [? _]]; intros Ht; split; [done|];
      pose proof (Hmin _ _ Ht); unfold expires_before, seconds in *; btests; lia].
  - apply Nat.le_0_r, map_size_empty_iff in Hsize. by rewrite Hsize, lookup_empty in Hi.
  - unfold mbind at 1, M_bind at 1. destruct (index_remove i gi) as [r gi1] eqn:Er.
    apply (index_remove_inv _ _ _ _ u) in Er as (-> & Hind & Hnext); [|done].
    destruct (IH gi1) as (gi' & Hrun & Hn & Hspec); [rewrite Hind, map_size_delete_Some by eauto; lia|].
    exists gi'. split; [exact Hrun|]. split; [congruence|].
    intros id t. rewrite Hspec, Hind, lookup_delete_Some. split; [naive_solver|]. intros [Ht Hexp].
    split; [|done]. split; [|done]. intros ->. rewrite Hi in Ht. injection Ht as ->. unfold expires_before in Hexp. congruence.
Qed.

(** Clearing terminates, and when it is done no expired entry is left and
    every other entry still is: the loop stops at the first entry of the index
    by expiration that has not expired. *)
Theorem clear_expired_complete (now : Z) (gi : generic_index transaction_object) :
  exists gi', clear_expired_input_transactions now gi = (Ok tt, gi')
    /\ _next_id gi' = _next_id gi
    /\ forall id t, _indices gi' !! id = Some t <-> _indices gi !! id = Some t /\ expires_before now t = false.
Proof. apply clear_expired_input_transactions_run. Qed.

(** ** No transaction is accepted twice *)
Section Replay.
Context {Sig Key : Type} `{T : trx_codec Sig Key}.

(** What a branch of blocks does with the table: a block starts, at a later
    time than the ones before it, by clearing it; an input transaction is
    checked and recorded ([transaction_context::init_for_input_trx]). *)
Record dedup_state : Type := mk_dedup {
  dedup_table : generic_index transaction_object;
  dedup_time : Z;
  dedup_accepted : list transaction }.

Definition accept_input (now max_transaction_lifetime : Z) (t : transaction) : M (generic_index transaction_object) unit :=
  lift (validate_expiration now max_transaction_lifetime t);;
  record_transaction (transaction_id t) (trx_expiration t).

Inductive dedup_step : dedup_state -> dedup_state -> Prop :=
| dedup_start_block gi now now' gi' accepted : now <= now' ->
    clear_expired_input_transactions now' gi = (Ok tt, gi') ->
    dedup_step (mk_dedup gi now accepted) (mk_dedup gi' now' accepted)
| dedup_input gi now lifetime t gi' accepted :
    accept_input now lifetime t gi = (Ok tt, gi') ->
    dedup_step (mk_dedup gi now accepted) (mk_dedup gi' now (accepted ++ [t]))
| dedup_refused gi now lifetime t e gi' accepted :
    accept_input now lifetime t gi = (Err e, gi') ->
    dedup_step (mk_dedup gi now accepted) (mk_dedup gi' now accepted).

Definition dedup_init (now : Z) : dedup_state := mk_dedup index_empty now [].

(** An accepted transaction has expired or its id is recorded. *)
Definition remembered (s : dedup_state) (t : transaction) : Prop :=
  seconds (trx_expiration t) < dedup_time s \/
  exists i, _indices (dedup_table s) !! i = Some (mk_transaction_object (trx_expiration t) (transaction_id t)).

Lemma record_transaction_spec id expire gi r gi' : record_transaction id expire gi = (r, gi') ->
  (r = Err tx_duplicate /\ gi' = gi)
  \/ (r = Ok tt /\ _indices gi' = <[_next_id gi := mk_transaction_object expire id]> (_indices gi)
      /\ _indices gi !! _next_id gi = None
      /\ forall i o, _indices gi !! i = Some o -> to_trx_id o <> id).
Proof.
  unfold record_transaction. destruct (emplace _ _ gi) as [r1 gi1] eqn:E.
  apply emplace_inv in E as [[-> ->]|(-> & Hn & Hv & Hi & _)]; intros [= <- <-]; [by left|right].
  split_and!; try done. intros i o Ho Hid. assert (Hne : i <> _next_id gi) by congruence.
  pose proof (proj1 (violates_false _ _ _ _) Hv i o Hne Ho) as Hx. unfold transaction_conflict in Hx. cbn in Hx.
  apply bool_decide_eq_false in Hx. congruence.
Qed.

Lemma dedup_step_remembers s s' : dedup_step s s' ->
  (forall t, t ∈ dedup_accepted s -> remembered s t) ->
  (forall t, t ∈ dedup_accepted s' -> remembered s' t)
  /\ (dedup_accepted s' = dedup_accepted s \/ exists t, dedup_accepted s' = dedup_accepted s ++ [t]
      /\ dedup_time s <= seconds (trx_expiration t)
      /\ forall i o, _indices (dedup_table s) !! i = Some o -> to_trx_id o <> transaction_id t).
Proof.
  unfold remembered. intros Hs Hrem.
  destruct Hs as [gi now now' gi' acc Hnow Hclear|gi now lifetime t gi' acc Hacc|gi now lifetime t e gi' acc Hacc]; cbn in *.
  - split; [|by left]. destruct (clear_expired_input_transactions_run now' gi) as (gi2 & Hrun & _ & Hspec).
    rewrite Hclear in Hrun. injection Hrun as <-. intros t [Hlt|[i Hi]]%Hrem; [left; lia|].
    destruct (expires_before now' (mk_transaction_object (trx_expiration t) (transaction_id t))) eqn:E.
    + left. unfold expires_before in E. cbn in E. by btests.
    + right. exists i. by apply Hspec.
  - unfold accept_input in Hacc. minv. unfold validate_expiration in H. minv. btests.
    apply record_transaction_spec in H0 as [[? ?]|(? & Hi & Hn & Hfresh)]; [done|]. split.
    + intros u [Hu| ->%list_elem_of_singleton]%elem_of_app; [|right; exists (_next_id gi); by rewrite Hi, lookup_insert_eq].
      destruct (Hrem u Hu) as [?|[i Hu']]; [by left|right]. exists i. rewrite Hi, lookup_insert_ne by congruence. done.
    + right. exists t. by split_and!.
  - split; [|by left]. unfold accept_input in Hacc. mrun. destruct (validate_expiration now lifetime t); [|by injection Hacc as _ <-].
    apply record_transaction_spec in Hacc as [[_ ->]|[? _]]; done.
Qed.

End Replay.

Definition demo_now : Z := seconds 1577880000.
Definition demo_dedup1 : dedup_state :=
  mk_dedup (accept_input demo_now 3600 demo_trx index_empty).2 demo_now [demo_trx].
Definition demo_dedup2 : dedup_state :=
  mk_dedup (clear_expired_input_transactions (seconds 1577880031) (dedup_table demo_dedup1)).2 (seconds 1577880031) [demo_trx].

Lemma demo_dedup_run : rtc dedup_step (dedup_init demo_now) demo_dedup2.
Proof.
  apply (rtc_l _ _ demo_dedup1); [apply (dedup_input _ _ 3600 demo_trx); by vm_compute|].
  apply (rtc_l _ _ demo_dedup1); [apply (dedup_refused _ _ 3600 demo_trx tx_duplicate); by vm_compute|].
  apply (rtc_l _ _ demo_dedup2); [apply dedup_start_block; [by vm_compute|by vm_compute]|].
  apply (rtc_l _ _ demo_dedup2); [apply (dedup_refused _ _ 3600 demo_trx expired_tx_exception); by vm_compute|].
  apply rtc_refl.
Qed.


(** ** The reference block *)
Section TaposSlots.
Context `{C : crypto}.

(** The table after the blocks [ids]. *)
Fixpoint create_block_summaries (ids : list digest_type) : M (generic_index digest_type) unit :=
  match ids with
  | [] => mret tt
  | id :: ids => create_block_summary id;; create_block_summaries ids
  end.

(** The last block of a list with a number equal to [slot] modulo 2^16; before
    there is one, the first block is in slot 1 and the other slots are empty. *)
Definition slot_block (head_id : digest_type) (ids : list digest_type) (slot : Z) : digest_type :=
  default (if slot =? 1 then head_id else zero_digest)
    (last (filter (fun id => num_from_id id mod 2 ^ 16 = slot) ids)).

Definition slots_are (f : Z -> digest_type) (gi : generic_index digest_type) : Prop :=
  forall k, _indices gi !! k = if (0 <=? k) && (k <? 2 ^ 16) then Some (f k) else None.

Lemma in_range k n : 0 <= k < n -> (0 <=? k) && (k <? n) = true.
Proof. intros [? ?]. apply andb_true_iff. split; [by apply Z.leb_le|by apply Z.ltb_lt]. Qed.

Lemma no_summary_conflict (m : gmap Z digest_type) id b : violates block_summary_conflict m id b = false.
Proof. by apply violates_false. Qed.

Lemma modify_slot f gi k id : slots_are f gi -> 0 <= k < 2 ^ 16 ->
  exists gi', index_modify block_summary_conflict k (fun _ => id) gi = (Ok tt, gi') /\ slots_are (fun j => if j =? k then id else f j) gi'.
Proof.
  intros Hf Hk. destruct (index_modify block_summary_conflict k _ gi) as [r gi'] eqn:E.
  apply (index_modify_inv _ _ _ _ _ _ (f k)) in E as (-> & Hi & _); [|by rewrite Hf, in_range by lia|apply no_summary_conflict].
  exists gi'. split; [done|]. intros j. rewrite Hi. destruct (Z.eqb_spec j k) as [->|Hne].
  - rewrite lookup_insert_eq. by rewrite in_range by lia.
  - rewrite lookup_insert_ne by done. apply Hf.
Qed.

Lemma get_slot f gi k : slots_are f gi -> 0 <= k < 2 ^ 16 -> index_get gi k = Ok (f k).
Proof. intros Hf Hk. unfold index_get, find. rewrite Hf. by rewrite in_range by lia. Qed.

Lemma empty_slots (n : nat) :
  exists gi, create_empty_summaries n index_empty = (Ok tt, gi)
    /\ _next_id gi = Z.of_nat n
    /\ forall k, _indices gi !! k = if (0 <=? k) && (k <? Z.of_nat n) then Some zero_digest else None.
Proof.
  induction n as [|n (gi & Hrun & Hn & Hk)].
  { exists index_empty. split; [done|]. split; [done|]. intros k. cbn. rewrite lookup_empty. case_match; [btests; lia|done]. }
  cbn [create_empty_summaries]. unfold mbind at 1, M_bind at 1. rewrite Hrun. unfold mbind at 1, M_bind at 1.
  destruct (emplace block_summary_conflict zero_digest gi) as [r gi'] eqn:E. pose proof E as Ho.
  apply emplace_inv in E as [[-> ->]|(-> & _ & _ & Hi & Hn')].
  { exfalso. unfold emplace in Ho. rewrite no_summary_conflict, Hk, Hn in Ho. destruct ((0 <=? Z.of_nat n) && (Z.of_nat n <? Z.of_nat n)) eqn:Hx; [btests; lia|done]. }
  exists gi'. split; [done|]. split; [lia|]. intros k. rewrite Hi, Hn. destruct (decide (k = Z.of_nat n)) as [->|Hne].
  - rewrite lookup_insert_eq. by rewrite in_range by lia.
  - rewrite lookup_insert_ne, Hk by done. by replace (k <? Z.of_nat (S n)) with (k <? Z.of_nat n) by (destruct (Z.ltb_spec k (Z.of_nat n)), (Z.ltb_spec k (Z.of_nat (S n))); lia).
Qed.

#[local] Arguments Z.to_nat : simpl never.
#[local] Arguments create_empty_summaries : simpl never.

Lemma initialize_block_summaries_spec head_id : exists gi,
  initialize_block_summaries head_id index_empty = (Ok tt, gi) /\ slots_are (slot_block head_id []) gi.
Proof.
  destruct (empty_slots (Z.to_nat 0x10000)) as (gi & Hrun & _ & Hk).
  assert (Hf : slots_are (fun _ => zero_digest) gi) by (intros k; by rewrite Hk, Z2Nat.id by lia).
  unfold initialize_block_summaries. unfold mbind at 1, M_bind at 1. rewrite Hrun.
  destruct (modify_slot _ gi 1 head_id Hf ltac:(lia)) as (gi' & Hm & Hf').
  exists gi'. mrun. rewrite (get_slot _ _ 1 Hf) by lia. split; [exact Hm|]. exact Hf'.
Qed.

Lemma create_block_summaries_spec head_id ids : forall before gi, slots_are (slot_block head_id before) gi ->
  exists gi', create_block_summaries ids gi = (Ok tt, gi') /\ slots_are (slot_block head_id (before ++ ids)) gi'.
Proof.
  induction ids as [|id ids IH]; intros before gi Hf; cbn [create_block_summaries].
  { exists gi. by rewrite app_nil_r. }
  set (k := Z.land (num_from_id id) 0xffff). assert (Ek : k = num_from_id id mod 2 ^ 16) by apply (Z.land_ones _ 16 ltac:(lia)).
  assert (Hk : 0 <= k < 2 ^ 16) by (rewrite Ek; apply Z.mod_pos_bound; lia).
  destruct (modify_slot _ gi k id Hf Hk) as (gi1 & Hm & Hf1).
  destruct (IH (before ++ [id]) gi1) as (gi' & Hrun & Hf').
  { intros j. rewrite Hf1. case_match; [|done]. f_equal. unfold slot_block. rewrite filter_app, filter_cons, filter_nil.
    rewrite <- Ek. destruct (Z.eqb_spec j k) as [->|Hne].
    - by rewrite decide_True, last_snoc by done.
    - by rewrite decide_False, app_nil_r by congruence. }
  exists gi'. rewrite <- app_assoc in Hf'. split; [|exact Hf'].
  unfold mbind at 1, M_bind at 1. unfold create_block_summary. fold k. unfold mbind at 1, M_bind at 1, get at 1.
  unfold mbind at 1, M_bind at 1, lift at 1. rewrite (get_slot _ _ k Hf Hk). rewrite Hm. exact Hrun.
Qed.

(** However many blocks there are, the reference block of a transaction is
    compared with the last block whose number is [ref_block_num] modulo 2^16:
    the table has an entry for every slot, and recording never fails. *)
Theorem tapos_checks_slot (head_id : digest_type) (ids : list digest_type) :
  exists gi, (initialize_block_summaries head_id;; create_block_summaries ids) index_empty = (Ok tt, gi)
    /\ forall t, validate_tapos gi t =
         eos_assert (verify_reference_block (slot_block head_id ids (u16 (ref_block_num t))) t) invalid_ref_block_exception.
Proof.
  destruct (initialize_block_summaries_spec head_id) as (gi0 & Hinit & Hf0).
  destruct (create_block_summaries_spec head_id ids [] gi0 Hf0) as (gi & Hrun & Hf).
  exists gi. split; [unfold mbind, M_bind; by rewrite Hinit|]. intros t. unfold validate_tapos.
  rewrite (get_slot _ _ _ Hf); [done|]. apply uwrap_range. lia.
Qed.
End TaposSlots.
