(* ===== verification/ChainConfig.v ===== *)
(** * Chain configuration ([chain_config.hpp], [chain_config.cpp], [genesis_state.hpp])

    The parameters of the chain and their validation, done on unsigned integers
    of the widths of the fields. *)

From S2P Require Import Prelude.

Record chain_config : Type := mk_chain_config {
  max_block_net_usage : Z;
  target_block_net_usage_pct : Z;
  max_transaction_net_usage : Z;
  base_per_transaction_net_usage : Z;
  net_usage_leeway : Z;
  context_free_discount_net_usage_num : Z;
  context_free_discount_net_usage_den : Z;
  max_block_cpu_usage : Z;
  target_block_cpu_usage_pct : Z;
  max_transaction_cpu_usage : Z;
  min_transaction_cpu_usage : Z;
  max_transaction_lifetime : Z;
  deferred_trx_expiration_window : Z;
  cc_max_transaction_delay : Z;
  max_inline_action_size : Z;
  max_inline_action_depth : Z;
  cc_max_authority_depth : Z }.

Definition config_percent_100 : Z := 10000.
Definition config_percent_1 : Z := 100.
Definition min_net_usage_delta_between_base_and_max_for_trx : Z := 10 * 1024.

Definition chain_config_validate (c : chain_config) : res unit :=
  eos_assert (target_block_net_usage_pct c <=? config_percent_100) action_validate_exception;;
  eos_assert (target_block_net_usage_pct c >=? config_percent_1 / 10) action_validate_exception;;
  eos_assert (target_block_cpu_usage_pct c <=? config_percent_100) action_validate_exception;;
  eos_assert (target_block_cpu_usage_pct c >=? config_percent_1 / 10) action_validate_exception;;
  eos_assert (max_transaction_net_usage c <? max_block_net_usage c) action_validate_exception;;
  eos_assert (max_transaction_cpu_usage c <? max_block_cpu_usage c) action_validate_exception;;
  eos_assert (base_per_transaction_net_usage c <? max_transaction_net_usage c) action_validate_exception;;
  eos_assert (u32 (max_transaction_net_usage c - base_per_transaction_net_usage c)
              >=? min_net_usage_delta_between_base_and_max_for_trx) action_validate_exception;;
  eos_assert (context_free_discount_net_usage_den c >? 0) action_validate_exception;;
  eos_assert (context_free_discount_net_usage_num c <=? context_free_discount_net_usage_den c) action_validate_exception;;
  eos_assert (min_transaction_cpu_usage c <=? max_transaction_cpu_usage c) action_validate_exception;;
  eos_assert (max_transaction_cpu_usage c <? u32 (max_block_cpu_usage c - min_transaction_cpu_usage c)) action_validate_exception;;
  eos_assert (1 <=? cc_max_authority_depth c) action_validate_exception.

(** The configuration of genesis ([genesis_state::initial_configuration]). *)
Definition initial_configuration : chain_config :=
  mk_chain_config (1024 * 1024) (10 * config_percent_1) (1024 * 1024 / 2) 12 500 20 100
    500000 (10 * config_percent_1) (3 * 500000 / 4) 100 (60 * 60) (10 * 60) (45 * 24 * 3600) (512 * 1024) 4 6.

(** The widths of the fields. *)
Record chain_config_widths (c : chain_config) : Prop := {
  ccw_max_block_net : is_u64 (max_block_net_usage c);
  ccw_max_trx_net : is_u32 (max_transaction_net_usage c);
  ccw_base_net : is_u32 (base_per_transaction_net_usage c);
  ccw_leeway : is_u32 (net_usage_leeway c);
  ccw_num : is_u32 (context_free_discount_net_usage_num c);
  ccw_den : is_u32 (context_free_discount_net_usage_den c);
  ccw_max_block_cpu : is_u32 (max_block_cpu_usage c);
  ccw_max_trx_cpu : is_u32 (max_transaction_cpu_usage c);
  ccw_min_trx_cpu : is_u32 (min_transaction_cpu_usage c) }.

(** What a validated configuration guarantees, over the integers: the
    unsigned subtractions of the check do not wrap around. *)
Record chain_config_valid (c : chain_config) : Prop := {
  ccv_net_pct : 10 <= target_block_net_usage_pct c <= 10000;
  ccv_cpu_pct : 10 <= target_block_cpu_usage_pct c <= 10000;
  ccv_net : base_per_transaction_net_usage c + 10240 <= max_transaction_net_usage c < max_block_net_usage c;
  ccv_cpu : min_transaction_cpu_usage c <= max_transaction_cpu_usage c;
  ccv_block_cpu : max_transaction_cpu_usage c + min_transaction_cpu_usage c < max_block_cpu_usage c;
  ccv_discount : context_free_discount_net_usage_num c <= context_free_discount_net_usage_den c;
  ccv_den : 0 < context_free_discount_net_usage_den c;
  ccv_depth : 1 <= cc_max_authority_depth c }.

(** Validation of the parameters decides the intended ordering of the limits,
    in spite of the wrap-around of its unsigned differences. *)
Theorem chain_config_validate_spec (c : chain_config) :
  chain_config_widths c ->
  chain_config_validate c = Ok tt <-> chain_config_valid c.
Proof.
  intros Hw. destruct Hw as [Hbn Htn Hb Hl Hn Hd Hbc Htc Hm]. unfold chain_config_validate.
  rewrite !eos_assert_bind_ok, eos_assert_ok, !Z.geb_leb, !Z.gtb_ltb, !Z.leb_le, !Z.ltb_lt.
  change (config_percent_1 / 10) with 10. unfold config_percent_100, min_net_usage_delta_between_base_and_max_for_trx. split.
  - intros (? & ? & ? & ? & ? & ? & ? & Hdelta & ? & ? & ? & Hcpu & ?). 
    rewrite u32_id in Hdelta by (widths; lia). rewrite u32_id in Hcpu by (clear Hdelta; widths; lia). split; lia.
  - intros [? ? ? ? ? ? ? ?]. rewrite !u32_id by (widths; lia). widths. split_and!; lia.
Qed.

Lemma initial_configuration_widths : chain_config_widths initial_configuration.
Proof. split; widths; vm_compute; intuition discriminate. Qed.

Lemma chain_config_validate_spec_witness : chain_config_valid initial_configuration.
Proof. apply (chain_config_validate_spec initial_configuration initial_configuration_widths). reflexivity. Defined.
