(* ===== verification/Timer.v ===== *)
(** * The timer of a transaction
      ([platform_timer.hpp], [platform_timer_posix.cpp], [transaction_context.cpp])

    A deadline is watched by a timer of the operating system, which sets a flag
    when it fires.  The class [posix_timer] says which times [timer_settime]
    accepts. *)

From S2P Require Import Prelude.

(** [timer_settime] with no seconds and [ns] nanoseconds: it fails with
    [EINVAL] when the nanoseconds are not less than a second. *)
Class posix_timer : Type := {
  settime_ok : Z -> bool;
  settime_spec ns : settime_ok ns = true <-> 0 <= ns < 1000000000 }.

(** The flag, and the time the timer is armed for. *)
Record platform_timer : Type := mk_timer { expired : bool; armed : option Z }.

Definition time_point_maximum : Z := INT64_MAX.

Section Timer.
Context `{P : posix_timer}.

Definition timer_new : platform_timer := mk_timer true None.

(** [now] is the clock at the call.  The interval is an [int], in which the
    product is computed. *)
Definition timer_start (tp now : Z) (t : platform_timer) : platform_timer :=
  if tp =? time_point_maximum then mk_timer false (armed t)
  else
    let x := s64 (tp - now) in
    if x <=? 0 then mk_timer true (armed t)
    else
      let ns := s32 (s32 x * 1000) in
      if settime_ok ns then mk_timer false (if ns =? 0 then None else Some (now + ns / 1000))
      else mk_timer true (armed t).

Definition timer_stop (t : platform_timer) : platform_timer :=
  if expired t then t else mk_timer true None.

(** [impl::sig_handler]: the signal may come at any time from when the timer
    is armed for. *)
Definition sig_handler (t : platform_timer) : platform_timer := mk_timer true None.

(** [transaction_checktime_timer] resets the flag when it is created. *)
Definition checktime_timer (t : platform_timer) : platform_timer := mk_timer false (armed t).

(** A short deadline: armed exactly for it. *)
Lemma timer_start_short tp now t : 0 < tp - now < 1000000 -> tp <> time_point_maximum ->
  timer_start tp now t = mk_timer false (Some tp).
Proof.
  intros Hx Hmax. unfold timer_start. apply Z.eqb_neq in Hmax as ->. rewrite s64_id by (widths; lia).
  destruct (Z.leb_spec (tp - now) 0); [lia|].
  assert (E : s32 (s32 (tp - now) * 1000) = (tp - now) * 1000).
  { assert (s32 (tp - now) = tp - now) as -> by (unfold s32; rewrite Z.mod_small; lia). unfold s32. rewrite Z.mod_small; lia. }
  rewrite E, (proj2 (settime_spec _)) by lia. destruct (Z.eqb_spec ((tp - now) * 1000) 0); [lia|].
  rewrite Z.div_mul by lia. do 2 f_equal. lia.
Qed.

(** A timer started for a deadline less than a second ahead is armed for
    exactly that deadline.  A deadline from one second up to 2147 milliseconds
    ahead counts as expired at once, because its nanoseconds are refused. *)
Theorem timer_start_spec (tp now : Z) (t : platform_timer) :
  tp <> time_point_maximum -> 0 < tp - now < 2147484 ->
  timer_start tp now t = if tp - now <? 1000000 then mk_timer false (Some tp) else mk_timer true (armed t).
Proof.
  intros Hmax Hx. destruct (Z.ltb_spec (tp - now) 1000000); [apply timer_start_short; [lia|done]|].
  unfold timer_start. apply Z.eqb_neq in Hmax as ->. rewrite s64_id by (widths; lia).
  destruct (Z.leb_spec (tp - now) 0); [lia|].
  assert (E : s32 (s32 (tp - now) * 1000) = (tp - now) * 1000).
  { assert (s32 (tp - now) = tp - now) as -> by (unfold s32; rewrite Z.mod_small; lia). unfold s32. rewrite Z.mod_small; lia. }
  rewrite E. destruct (settime_ok _) eqn:Eok; [|done]. apply settime_spec in Eok. lia.
Qed.
End Timer.

#[export] Instance demo_posix : posix_timer.
Proof. refine {| settime_ok ns := (0 <=? ns) && (ns <? 1000000000) |}. intros ns. rewrite andb_true_iff, Z.leb_le, Z.ltb_lt. lia. Defined.

Lemma timer_start_spec_witness :
  timer_start 2500000 1000000 (checktime_timer timer_new) = mk_timer true None
  /\ timer_start 1500000 1000000 (checktime_timer timer_new) = mk_timer false (Some 1500000).
Proof.
  split; [rewrite timer_start_spec; [reflexivity|unfold time_point_maximum; widths; lia|lia]|].
  rewrite timer_start_spec; [reflexivity|unfold time_point_maximum; widths; lia|lia].
Defined.
