(* ===== verification/TransactionContext.v ===== *)
(** * The transaction context
      ([transaction_context.hpp], [transaction_context.cpp])

    What one transaction may use of network, CPU and time, and what its billed
    accounts are charged: the limits computed at its start, the checks during
    its execution, the pausing of the billing timer and the final bill.  It is
    a client of [ResourceLimits.v], [TransactionChecks.v], [Authorization.v]
    and [Timer.v].  The theorems show that the limits never exceed those of the
    block, that exceeding them is reported by the right exception, that paused
    time is not billed, and when the final bill can be charged. *)

From S2P Require Import Prelude Merkle Chainbase ResourceLimits Authority AuthorityChecker BlockHeader Authorization EosioContract NativeState Transaction TransactionChecks ChainConfig Timer.

(** The exception codes are represented by the exceptions. *)

(** ** What the controller sets before the transaction is initialized *)
Record trx_request : Type := mk_request {
  trx : transaction;
  trx_id : digest_type;
  start : Z;
  deadline : Z;
  leeway : Z;
  explicit_billed_cpu_time : bool;
  enforce_allowdenylist : bool }.

(** ** The fields of the context, by what they are about *)
Record net_billing : Type := mk_net_billing {
  net_limit : Z;
  net_limit_due_to_block : bool;
  net_limit_due_to_greylist : bool;
  eager_net_limit : Z;
  trx_net_usage : Z }.

Record cpu_billing : Type := mk_cpu_billing {
  cpu_limit_due_to_greylist : bool;
  initial_objective_duration_limit : Z;
  objective_duration_limit : Z;
  billing_timer_exception_code : exn;
  billed_cpu_time_us : Z }.

Record timer_billing : Type := mk_timer_billing {
  _deadline : Z;
  deadline_exception_code : exn;
  pseudo_start : Z;
  billed_time : Z;
  billing_timer_duration_limit : Z;
  transaction_timer : platform_timer;
  ticks : nat }.

Section Context_.
Context {K : Type} `{EqDecision K} `{C : crypto} `{P : posix_timer}.

(** What the context reads of the controller; [clock] and [fires] give the
    time, and whether an armed timer has fired, at each reading. *)
Record trx_env : Type := mk_trx_env {
  te_config : chain_config;
  te_native : native_config K;
  te_view : controller_view;
  clock : nat -> Z;
  fires : nat -> bool }.

Record trx_context : Type := mk_trx_context {
  cx_request : trx_request;
  cx_net : net_billing;
  cx_cpu : cpu_billing;
  cx_timer : timer_billing;
  is_initialized : bool;
  is_input : bool;
  apply_context_free : bool;
  scheduled : bool;
  trx_published : Z;
  delay : Z;
  elapsed : Z;
  bill_to_accounts : list Z;
  cx_native : native_db K;
  cx_dedup : generic_index transaction_object;
  cx_summaries : generic_index digest_type }.

Abbreviation TM := (M trx_context).

Definition set_net (n : net_billing) (c : trx_context) : trx_context :=
  mk_trx_context (cx_request c) n (cx_cpu c) (cx_timer c) (is_initialized c) (is_input c) (apply_context_free c) (scheduled c)
    (trx_published c) (delay c) (elapsed c) (bill_to_accounts c) (cx_native c) (cx_dedup c) (cx_summaries c).
Definition set_cpu (n : cpu_billing) (c : trx_context) : trx_context :=
  mk_trx_context (cx_request c) (cx_net c) n (cx_timer c) (is_initialized c) (is_input c) (apply_context_free c) (scheduled c)
    (trx_published c) (delay c) (elapsed c) (bill_to_accounts c) (cx_native c) (cx_dedup c) (cx_summaries c).
Definition set_timer (n : timer_billing) (c : trx_context) : trx_context :=
  mk_trx_context (cx_request c) (cx_net c) (cx_cpu c) n (is_initialized c) (is_input c) (apply_context_free c) (scheduled c)
    (trx_published c) (delay c) (elapsed c) (bill_to_accounts c) (cx_native c) (cx_dedup c) (cx_summaries c).
Definition set_flags (init input free sched : bool) (published : Z) (c : trx_context) : trx_context :=
  mk_trx_context (cx_request c) (cx_net c) (cx_cpu c) (cx_timer c) init input free sched
    published (delay c) (elapsed c) (bill_to_accounts c) (cx_native c) (cx_dedup c) (cx_summaries c).
Definition set_delay (d : Z) (c : trx_context) : trx_context :=
  mk_trx_context (cx_request c) (cx_net c) (cx_cpu c) (cx_timer c) (is_initialized c) (is_input c) (apply_context_free c)
    (scheduled c) (trx_published c) d (elapsed c) (bill_to_accounts c) (cx_native c) (cx_dedup c) (cx_summaries c).
Definition set_elapsed (e : Z) (c : trx_context) : trx_context :=
  mk_trx_context (cx_request c) (cx_net c) (cx_cpu c) (cx_timer c) (is_initialized c) (is_input c) (apply_context_free c)
    (scheduled c) (trx_published c) (delay c) e (bill_to_accounts c) (cx_native c) (cx_dedup c) (cx_summaries c).
Definition set_bill_to (l : list Z) (c : trx_context) : trx_context :=
  mk_trx_context (cx_request c) (cx_net c) (cx_cpu c) (cx_timer c) (is_initialized c) (is_input c) (apply_context_free c)
    (scheduled c) (trx_published c) (delay c) (elapsed c) l (cx_native c) (cx_dedup c) (cx_summaries c).
Definition set_native (d : native_db K) (c : trx_context) : trx_context :=
  mk_trx_context (cx_request c) (cx_net c) (cx_cpu c) (cx_timer c) (is_initialized c) (is_input c) (apply_context_free c)
    (scheduled c) (trx_published c) (delay c) (elapsed c) (bill_to_accounts c) d (cx_dedup c) (cx_summaries c).
Definition set_dedup (g : generic_index transaction_object) (c : trx_context) : trx_context :=
  mk_trx_context (cx_request c) (cx_net c) (cx_cpu c) (cx_timer c) (is_initialized c) (is_input c) (apply_context_free c)
    (scheduled c) (trx_published c) (delay c) (elapsed c) (bill_to_accounts c) (cx_native c) g (cx_summaries c).

Definition on_native {A} (m : M (native_db K) A) : TM A := fun c => let '(r, d) := m (cx_native c) in (r, set_native d c).
Definition on_rl {A} (m : M resource_limits_manager A) : TM A := on_native (on_limits m).
Definition on_dedup {A} (m : M (generic_index transaction_object) A) : TM A := fun c =>
  let '(r, g) := m (cx_dedup c) in (r, set_dedup g c).

(** The constructor. *)
Definition new_context (rq : trx_request) (billed : Z) (timer : platform_timer) (tick : nat) (d : native_db K)
    (dedup : generic_index transaction_object) (summaries : generic_index digest_type) : trx_context :=
  mk_trx_context rq (mk_net_billing 0 true false 0 0) (mk_cpu_billing false 0 0 block_cpu_usage_exceeded billed)
    (mk_timer_billing time_point_maximum block_cpu_usage_exceeded (start rq) 0 0 (checktime_timer timer) tick)
    false false true false 0 0 0 [] d dedup summaries.

Context (e : trx_env).
Abbreviation cfg := (te_config e).
Abbreviation view := (te_view e).
Abbreviation block_time := (pending_block_time (nc_auth (te_native e))).
Abbreviation slot := (set_time_point block_time).

(** [fc::time_point::now()] *)
Definition set_ticks (n : nat) (t : timer_billing) : timer_billing :=
  mk_timer_billing (_deadline t) (deadline_exception_code t) (pseudo_start t) (billed_time t)
    (billing_timer_duration_limit t) (transaction_timer t) n.
Definition now : TM Z := fun c =>
  let t := cx_timer c in (Ok (clock e (ticks t)), set_timer (set_ticks (S (ticks t)) t) c).

Definition set_platform_timer (p : platform_timer) (t : timer_billing) : timer_billing :=
  mk_timer_billing (_deadline t) (deadline_exception_code t) (pseudo_start t) (billed_time t)
    (billing_timer_duration_limit t) p (ticks t).

(** Reading [transaction_timer.expired]: by then an armed timer may have fired. *)
Definition read_expired : TM bool := fun c =>
  let t := cx_timer c in
  let p := transaction_timer t in
  let p := if fires e (ticks t) then match armed p with Some _ => sig_handler p | None => p end else p in
  (Ok (expired p), set_timer (set_ticks (S (ticks t)) (set_platform_timer p t)) c).

Definition start_timer (tp : Z) : TM unit :=
  n ← (if tp =? time_point_maximum then mret 0 else now);
  modify (fun c => set_timer (set_platform_timer (timer_start tp n (transaction_timer (cx_timer c))) (cx_timer c)) c).
Definition stop_timer : TM unit :=
  modify (fun c => set_timer (set_platform_timer (timer_stop (transaction_timer (cx_timer c))) (cx_timer c)) c).

(** ** Checks *)
Definition disallow_transaction_extensions {A} : TM A :=
  if is_producing_block view then throw subjective_block_production_exception
  else throw disallowed_transaction_extensions_bad_block_exception.

Definition check_net_usage : TM unit :=
  c ← get;
  let n := cx_net c in
  if negb (skip_trx_checks view) then
    if trx_net_usage n >? eager_net_limit n then
      if net_limit_due_to_block n then throw block_net_usage_exceeded
      else if net_limit_due_to_greylist n then throw greylist_net_usage_exceeded
      else throw tx_net_usage_exceeded
    else mret tt
  else mret tt.

Definition set_net_usage (u : Z) (n : net_billing) : net_billing :=
  mk_net_billing (net_limit n) (net_limit_due_to_block n) (net_limit_due_to_greylist n) (eager_net_limit n) u.

Definition add_net_usage (u : Z) : TM unit :=
  modify (fun c => set_net (set_net_usage (u64 (trx_net_usage (cx_net c) + u)) (cx_net c)) c);;
  check_net_usage.

Definition checktime : TM unit :=
  is_expired ← read_expired;
  if negb is_expired then mret tt
  else
    n ← now;
    c ← get;
    let code := deadline_exception_code (cx_timer c) in
    if explicit_billed_cpu_time (cx_request c) || bool_decide (code = deadline_exception) then throw deadline_exception
    else if bool_decide (code = block_cpu_usage_exceeded) then throw block_cpu_usage_exceeded
    else if bool_decide (code = tx_cpu_usage_exceeded) then
      if cpu_limit_due_to_greylist (cx_cpu c) then throw greylist_cpu_usage_exceeded else throw tx_cpu_usage_exceeded
    else if bool_decide (code = leeway_deadline_exception) then throw leeway_deadline_exception
    else throw transaction_exception.

Definition validate_account_cpu_usage (billed_us account_cpu_limit : Z) : TM unit :=
  c ← get;
  let p := cx_cpu c in
  if (billed_us >? 0) && negb (skip_trx_checks view) then
    let cpu_limited_by_account := account_cpu_limit <=? objective_duration_limit p in
    if negb cpu_limited_by_account && bool_decide (billing_timer_exception_code p = block_cpu_usage_exceeded) then
      massert (billed_us <=? objective_duration_limit p) block_cpu_usage_exceeded
    else if cpu_limit_due_to_greylist p && cpu_limited_by_account then
      massert (billed_us <=? account_cpu_limit) greylist_cpu_usage_exceeded
    else
      let cpu_limit := if cpu_limited_by_account then account_cpu_limit else objective_duration_limit p in
      massert (billed_us <=? cpu_limit) tx_cpu_usage_exceeded
  else mret tt.

Definition validate_cpu_usage_to_bill (billed_us account_cpu_limit : Z) (check_minimum : bool) : TM unit :=
  if negb (skip_trx_checks view) then
    (if check_minimum then massert (billed_us >=? min_transaction_cpu_usage cfg) transaction_exception else mret tt);;
    validate_account_cpu_usage billed_us account_cpu_limit
  else mret tt.

(** ** The billing timer *)
Definition pause_billing_timer : TM unit :=
  c ← get;
  if explicit_billed_cpu_time (cx_request c) || (pseudo_start (cx_timer c) =? 0) then mret tt
  else
    n ← now;
    modify (fun c => let t := cx_timer c in
      set_timer (mk_timer_billing (_deadline t) deadline_exception 0 (s64 (n - pseudo_start t))
                   (billing_timer_duration_limit t) (transaction_timer t) (ticks t)) c);;
    stop_timer.

Definition resume_billing_timer : TM unit :=
  c ← get;
  if explicit_billed_cpu_time (cx_request c) || negb (pseudo_start (cx_timer c) =? 0) then mret tt
  else
    n ← now;
    let pseudo := s64 (n - billed_time (cx_timer c)) in
    let limit := s64 (pseudo + billing_timer_duration_limit (cx_timer c)) in
    let '(dl, code) := if limit <=? deadline (cx_request c) then (limit, billing_timer_exception_code (cx_cpu c))
                       else (deadline (cx_request c), deadline_exception) in
    modify (fun c => let t := cx_timer c in
      set_timer (mk_timer_billing dl code pseudo (billed_time t) (billing_timer_duration_limit t)
                   (transaction_timer t) (ticks t)) c);;
    start_timer dl.

Definition set_billed (b : Z) (p : cpu_billing) : cpu_billing :=
  mk_cpu_billing (cpu_limit_due_to_greylist p) (initial_objective_duration_limit p) (objective_duration_limit p)
    (billing_timer_exception_code p) b.

Definition update_billed_cpu_time (n : Z) : TM Z :=
  c ← get;
  if explicit_billed_cpu_time (cx_request c) then mret (u32 (billed_cpu_time_us (cx_cpu c)))
  else
    let b := Z.max (s64 (n - pseudo_start (cx_timer c))) (min_transaction_cpu_usage cfg) in
    modify (fun c => set_cpu (set_billed b (cx_cpu c)) c);;
    mret (u32 b).

(** ** What the billed accounts can pay *)
Definition large_number_no_overflow : Z := INT64_MAX / 2.

Definition greylist_limit_of (force_elastic_limits : bool) (a : Z) : Z :=
  if negb force_elastic_limits && is_producing_block view then
    if is_resource_greylisted (conf view) a then 1 else get_greylist_limit (conf view)
  else maximum_elastic_resource_multiplier.

Fixpoint bandwidth_loop (force_elastic_limits : bool) (accounts : list Z) (net cpu : Z) (greylisted_net greylisted_cpu : bool)
    : M resource_limits_manager (Z * Z * bool * bool) :=
  match accounts with
  | [] => mret (net, cpu, greylisted_net, greylisted_cpu)
  | a :: accounts =>
      let greylist_limit := greylist_limit_of force_elastic_limits a in
      '(net_limit, net_was_greylisted) ← get_account_net_limit a greylist_limit;
      let '(net, greylisted_net) :=
        if net_limit >=? 0 then (Z.min net net_limit, greylisted_net || net_was_greylisted) else (net, greylisted_net) in
      '(cpu_limit, cpu_was_greylisted) ← get_account_cpu_limit a greylist_limit;
      let '(cpu, greylisted_cpu) :=
        if cpu_limit >=? 0 then (Z.min cpu cpu_limit, greylisted_cpu || cpu_was_greylisted) else (cpu, greylisted_cpu) in
      bandwidth_loop force_elastic_limits accounts net cpu greylisted_net greylisted_cpu
  end.

Definition max_bandwidth_billed_accounts_can_pay (force_elastic_limits : bool) (accounts : list Z)
    : M resource_limits_manager (Z * Z * bool * bool) :=
  '(net, cpu, greylisted_net, greylisted_cpu) ←
    bandwidth_loop force_elastic_limits accounts large_number_no_overflow large_number_no_overflow false false;
  massert ((negb force_elastic_limits && is_producing_block view) || (negb greylisted_cpu && negb greylisted_net))
    transaction_exception;;
  mret (net, cpu, greylisted_net, greylisted_cpu).

(** ** Initialization *)

(** The limits of the transaction itself, from the one of the block. *)
Definition lower_net_limit (t : transaction) (block_net_limit : Z) (n : net_billing) : net_billing :=
  let '(l, due) := (block_net_limit, net_limit_due_to_block n) in
  let '(l, due) := if max_transaction_net_usage cfg <=? l then (max_transaction_net_usage cfg, false) else (l, due) in
  let trx_specified_net_usage_limit := u64 (max_net_usage_words t * 8) in
  let '(l, due) := if (trx_specified_net_usage_limit >? 0) && (trx_specified_net_usage_limit <=? l)
                   then (trx_specified_net_usage_limit, false) else (l, due) in
  mk_net_billing l due (net_limit_due_to_greylist n) (eager_net_limit n) (trx_net_usage n).

Definition lower_duration_limit (t : transaction) (block_cpu_limit : Z) (p : cpu_billing) : cpu_billing :=
  let '(l, code) := (s64 block_cpu_limit, billing_timer_exception_code p) in
  let '(l, code) := if max_transaction_cpu_usage cfg <=? l then (max_transaction_cpu_usage cfg, tx_cpu_usage_exceeded)
                    else (l, code) in
  let '(l, code) := if max_cpu_usage_ms t >? 0 then
                      let trx_specified_cpu_usage_limit := max_cpu_usage_ms t * 1000 in
                      if trx_specified_cpu_usage_limit <=? l then (trx_specified_cpu_usage_limit, tx_cpu_usage_exceeded)
                      else (l, code)
                    else (l, code) in
  mk_cpu_billing (cpu_limit_due_to_greylist p) l l code (billed_cpu_time_us p).

Definition set_greylisted (greylisted_net greylisted_cpu : bool) (c : trx_context) : trx_context :=
  let n := cx_net c in
  let p := cx_cpu c in
  set_cpu (mk_cpu_billing (cpu_limit_due_to_greylist p || greylisted_cpu) (initial_objective_duration_limit p)
             (objective_duration_limit p) (billing_timer_exception_code p) (billed_cpu_time_us p))
  (set_net (mk_net_billing (net_limit n) (net_limit_due_to_block n) (net_limit_due_to_greylist n || greylisted_net)
              (eager_net_limit n) (trx_net_usage n)) c).

Definition set_eager_limit (account_net_limit : Z) (n : net_billing) : net_billing :=
  let eager := net_limit n in
  let new_eager := Z.min eager (u64 (s64 (account_net_limit + net_usage_leeway cfg))) in
  if new_eager <? eager
  then mk_net_billing (net_limit n) false (net_limit_due_to_greylist n) new_eager (trx_net_usage n)
  else mk_net_billing (net_limit n) (net_limit_due_to_block n) (net_limit_due_to_greylist n) eager (trx_net_usage n).

Definition round_eager_limit (n : net_billing) : net_billing :=
  mk_net_billing (net_limit n) (net_limit_due_to_block n) (net_limit_due_to_greylist n) (eager_net_limit n / 8 * 8) (trx_net_usage n).

(** The deadlines: of the limits, of what the accounts can pay plus the leeway,
    and the caller's. *)
Definition set_deadlines (account_cpu_limit : Z) (c : trx_context) : trx_context :=
  let rq := cx_request c in
  let p := cx_cpu c in
  let t := cx_timer c in
  let dl := s64 (start rq + objective_duration_limit p) in
  let payable := s64 (account_cpu_limit + leeway rq) in
  let '(dl, billing_code) := if payable <=? s64 (dl - start rq) then (s64 (s64 (start rq + account_cpu_limit) + leeway rq), leeway_deadline_exception)
                     else (dl, billing_timer_exception_code p) in
  let duration := s64 (dl - start rq) in
  let '(dl, code) := if explicit_billed_cpu_time rq || (deadline rq <? dl) then (deadline rq, deadline_exception)
                     else (dl, billing_code) in
  set_cpu (mk_cpu_billing (cpu_limit_due_to_greylist p) (initial_objective_duration_limit p) (objective_duration_limit p)
             billing_code (billed_cpu_time_us p))
  (set_timer (mk_timer_billing dl code (pseudo_start t) (billed_time t) duration (transaction_timer t) (ticks t)) c).

Definition set_bill_initialized (c : trx_context) : trx_context :=
  set_flags true (is_input c) (apply_context_free c) (scheduled c) (trx_published c) c.

Definition init (initial_net_usage : Z) : TM unit :=
  c ← get;
  let rq := cx_request c in
  massert (negb (is_initialized c)) transaction_exception;;
  block_net_limit ← on_rl get_block_net_limit;
  block_cpu_limit ← on_rl get_block_cpu_limit;
  modify (fun c => set_net (lower_net_limit (trx rq) block_net_limit (cx_net c)) c);;
  modify (fun c => set_cpu (lower_duration_limit (trx rq) block_cpu_limit (cx_cpu c)) c);;
  (if explicit_billed_cpu_time rq then validate_cpu_usage_to_bill (billed_cpu_time_us (cx_cpu c)) INT64_MAX false
   else mret tt);;
  modify (set_bill_to [first_authorizer (trx rq)]);;
  on_rl (update_account_usage [first_authorizer (trx rq)] slot);;
  '(account_net_limit, account_cpu_limit, greylisted_net, greylisted_cpu) ←
    on_rl (max_bandwidth_billed_accounts_can_pay false [first_authorizer (trx rq)]);
  modify (set_greylisted greylisted_net greylisted_cpu);;
  modify (fun c => set_net (set_eager_limit account_net_limit (cx_net c)) c);;
  modify (set_deadlines account_cpu_limit);;
  (if negb (explicit_billed_cpu_time rq) then validate_account_cpu_usage (billed_cpu_time_us (cx_cpu c)) account_cpu_limit
   else mret tt);;
  modify (fun c => set_net (round_eager_limit (cx_net c)) c);;
  (if initial_net_usage >? 0 then add_net_usage initial_net_usage else mret tt);;
  checktime;;
  (if skip_trx_checks view then start_timer time_point_maximum
   else c ← get; start_timer (_deadline (cx_timer c)));;
  modify set_bill_initialized.

Definition init_for_implicit_trx (initial_net_usage : Z) : TM unit :=
  c ← get;
  (if 0 <? Z.of_nat (length (transaction_extensions (trx (cx_request c)))) then disallow_transaction_extensions else mret tt);;
  modify (fun c => set_flags (is_initialized c) (is_input c) (apply_context_free c) (scheduled c) block_time c);;
  init initial_net_usage.

(** Referenced accounts: [flat_set::insert] keeps the actors sorted. *)
Fixpoint flat_insert (a : Z) (l : list Z) : list Z :=
  match l with
  | [] => [a]
  | x :: l' => if a <? x then a :: l else if a =? x then l else x :: flat_insert a l'
  end.

Fixpoint validate_context_free (d : native_db K) (acts : list action) : res unit :=
  match acts with
  | [] => Ok tt
  | a :: acts =>
      eos_assert (account_exists d (act_account a)) transaction_exception;;
      eos_assert (bool_decide (authorization a = [])) transaction_exception;;
      validate_context_free d acts
  end.

Fixpoint validate_auths (d : native_db K) (enforce : bool) (auths : list permission_level) (actors : list Z) : res (list Z) :=
  match auths with
  | [] => Ok actors
  | auth :: auths =>
      eos_assert (account_exists d (actor auth)) transaction_exception;;
      p ← find_permission (nd_auth d) auth;
      eos_assert (match p with Some _ => true | None => false end) transaction_exception;;
      validate_auths d enforce auths (if enforce then flat_insert (actor auth) actors else actors)
  end.

Fixpoint validate_actions (d : native_db K) (enforce : bool) (acts : list action) (actors : list Z) (one_auth : bool)
    : res (list Z * bool) :=
  match acts with
  | [] => Ok (actors, one_auth)
  | a :: acts =>
      eos_assert (account_exists d (act_account a)) transaction_exception;;
      actors ← validate_auths d enforce (authorization a) actors;
      validate_actions d enforce acts actors (one_auth || negb (bool_decide (authorization a = [])))
  end.

Definition validate_referenced_accounts (d : native_db K) (t : transaction) (enforce_actor_allowlist_denylist : bool) : res unit :=
  validate_context_free d (context_free_actions t);;
  '(actors, one_auth) ← validate_actions d enforce_actor_allowlist_denylist (actions t) [] false;
  eos_assert one_auth tx_no_auths;;
  if enforce_actor_allowlist_denylist then check_actor_list (conf view) actors else Ok tt.

Definition transaction_id_net_usage : Z := 32.

(** The network usage charged at the start of an input transaction. *)
Definition discounted_size (packed_trx_prunable_size : Z) : Z :=
  let num := context_free_discount_net_usage_num cfg in
  let den := context_free_discount_net_usage_den cfg in
  if (den >? 0) && (num <? den)
  then u64 (u64 (u64 (packed_trx_prunable_size * num) + den) - 1) / den
  else packed_trx_prunable_size.

Definition initial_net_usage_of (t : transaction) (packed_trx_unprunable_size packed_trx_prunable_size : Z) : Z :=
  let usage := u64 (u64 (base_per_transaction_net_usage cfg + packed_trx_unprunable_size)
                    + discounted_size packed_trx_prunable_size) in
  if delay_sec t >? 0 then u64 (usage + u64 (base_per_transaction_net_usage cfg + transaction_id_net_usage)) else usage.

Definition init_for_input_trx (packed_trx_unprunable_size packed_trx_prunable_size : Z) (skip_recording : bool) : TM unit :=
  c ← get;
  let t := trx (cx_request c) in
  (if 0 <? Z.of_nat (length (transaction_extensions t)) then disallow_transaction_extensions else mret tt);;
  modify (fun c => set_flags (is_initialized c) true (apply_context_free c) (scheduled c) block_time c);;
  (if negb (skip_trx_checks view) then
     lift (validate_expiration block_time (max_transaction_lifetime cfg) t);;
     lift (validate_tapos (cx_summaries c) t);;
     lift (validate_referenced_accounts (cx_native c) t (enforce_allowdenylist (cx_request c) && is_producing_block view))
   else mret tt);;
  init (initial_net_usage_of t packed_trx_unprunable_size packed_trx_prunable_size);;
  if negb skip_recording then on_dedup (record_transaction (trx_id (cx_request c)) (trx_expiration t)) else mret tt.

Definition init_for_deferred_trx (p : Z) : TM unit :=
  c ← get;
  let t := trx (cx_request c) in
  (if negb (trx_expiration t =? 0) && (0 <? Z.of_nat (length (transaction_extensions t)))
   then disallow_transaction_extensions else mret tt);;
  modify (fun c => set_flags (is_initialized c) (is_input c) false true p c);;
  init 0.

(** ** The final bill *)
Fixpoint use_permissions (auths : list permission_level) : M (auth_db K) unit :=
  match auths with
  | [] => mret tt
  | auth :: auths =>
      db ← get;
      p ← lift (get_permission db auth);
      update_permission_usage (nc_auth (te_native e)) p;;
      use_permissions auths
  end.

Fixpoint verify_ram (accounts : list Z) : M resource_limits_manager unit :=
  match accounts with
  | [] => mret tt
  | a :: accounts => verify_account_ram_usage a;; verify_ram accounts
  end.

Definition lower_to_account_limits (account_net_limit account_cpu_limit : Z) (c : trx_context) : trx_context :=
  let n := cx_net c in
  let p := cx_cpu c in
  let '(l, due) := if u64 account_net_limit <=? net_limit n then (u64 account_net_limit, false)
                   else (net_limit n, net_limit_due_to_block n) in
  let '(d, code) := if account_cpu_limit <=? objective_duration_limit p then (account_cpu_limit, tx_cpu_usage_exceeded)
                    else (objective_duration_limit p, billing_timer_exception_code p) in
  set_cpu (mk_cpu_billing (cpu_limit_due_to_greylist p) (initial_objective_duration_limit p) d code (billed_cpu_time_us p))
  (set_net (mk_net_billing l due (net_limit_due_to_greylist n) l (u64 (trx_net_usage n + 7) / 8 * 8)) c).

(** Everything before the accounts are charged. *)
Definition finalize_checks : TM unit :=
  c ← get;
  massert (is_initialized c) transaction_exception;;
  (if is_input c then on_native (on_auth (use_permissions (concat (map authorization (actions (trx (cx_request c)))))))
   else mret tt);;
  on_rl (verify_ram (merge_sort Z.le (elements (validate_ram_usage (cx_native c)))));;
  '(account_net_limit, account_cpu_limit, greylisted_net, greylisted_cpu) ←
    on_rl (max_bandwidth_billed_accounts_can_pay false (bill_to_accounts c));
  modify (set_greylisted greylisted_net greylisted_cpu);;
  modify (lower_to_account_limits account_net_limit account_cpu_limit);;
  check_net_usage;;
  n ← now;
  modify (fun c => set_elapsed (s64 (n - start (cx_request c))) c);;
  update_billed_cpu_time n;;
  c ← get;
  validate_cpu_usage_to_bill (billed_cpu_time_us (cx_cpu c)) account_cpu_limit true.

Definition finalize : TM unit :=
  finalize_checks;;
  c ← get;
  on_rl (add_transaction_usage (bill_to_accounts c) (u64 (billed_cpu_time_us (cx_cpu c))) (trx_net_usage (cx_net c)) slot).
End Context_.

Arguments trx_env K : clear implicits.
Arguments trx_context K : clear implicits.

(** ** The limits of a transaction *)
Section Limits.
Context {K : Type} `{EqDecision K} `{C : crypto} `{P : posix_timer} (e : trx_env K).
Implicit Types (c : trx_context K) (m : resource_limits_manager).

(** [leaves_bill]: nothing but the timer changes. *)
Definition timer_only c c' : Prop := exists t, c' = set_timer t c.

Lemma timer_only_refl c : timer_only c c.
Proof. exists (cx_timer c). by destruct c. Qed.

Lemma timer_only_trans c1 c2 c3 : timer_only c1 c2 -> timer_only c2 c3 -> timer_only c1 c3.
Proof. intros [t ->] [t' ->]. by exists t'. Qed.

Definition leaves {A} (m : M (trx_context K) A) : Prop := forall c r c', m c = (r, c') -> timer_only c c'.

Lemma leaves_ret {A} (a : A) : leaves (mret a).
Proof. intros c r c' [= _ <-]. apply timer_only_refl. Qed.
Lemma leaves_throw {A} x : leaves (throw (A := A) x).
Proof. intros c r c' [= _ <-]. apply timer_only_refl. Qed.
Lemma leaves_get : leaves get.
Proof. intros c r c' [= _ <-]. apply timer_only_refl. Qed.
Lemma leaves_massert b x : leaves (massert b x).
Proof. intros c r c' [= _ <-]. apply timer_only_refl. Qed.
Lemma leaves_lift {A} (x : res A) : leaves (lift x).
Proof. intros c r c' [= _ <-]. apply timer_only_refl. Qed.
Lemma leaves_bind {A B} (m : M (trx_context K) A) (f : A -> M (trx_context K) B) :
  leaves m -> (forall a, leaves (f a)) -> leaves (m ≫= f).
Proof.
  intros Hm Hf c r c'. unfold mbind, M_bind. destruct (m c) as [[a|x] c1] eqn:E; intros Hr.
  - eapply timer_only_trans; [by eapply Hm|by eapply Hf].
  - injection Hr as _ <-. by eapply Hm.
Qed.
Lemma leaves_set_timer f : leaves (modify (fun c => set_timer (f c) c)).
Proof. intros c r c' [= _ <-]. by eexists. Qed.
Lemma leaves_now : leaves (now e).
Proof. intros c r c' [= _ <-]. by eexists. Qed.
Lemma leaves_read_expired : leaves (read_expired e).
Proof. intros c r c' [= _ <-]. by eexists. Qed.
Create HintDb leaves.
#[local] Hint Resolve leaves_ret leaves_throw leaves_get leaves_massert leaves_lift leaves_set_timer leaves_now leaves_read_expired : leaves.

Ltac leaves := repeat (apply leaves_bind; [auto with leaves|intros]); repeat case_match; auto with leaves.

Lemma leaves_check_net_usage : leaves (check_net_usage e).
Proof. unfold check_net_usage. leaves. Qed.
Lemma leaves_checktime : leaves (checktime e).
Proof. unfold checktime. leaves. leaves. Qed.
Lemma leaves_start_timer tp : leaves (start_timer e tp).
Proof. unfold start_timer. apply leaves_bind; [case_match; auto with leaves|intros; auto with leaves]. Qed.
Lemma leaves_stop_timer : leaves stop_timer.
Proof. unfold stop_timer. auto with leaves. Qed.
Lemma leaves_validate_account b a : leaves (validate_account_cpu_usage e b a).
Proof. unfold validate_account_cpu_usage. leaves. Qed.
#[local] Hint Resolve leaves_validate_account : leaves.
Lemma leaves_validate_bill b a k : leaves (validate_cpu_usage_to_bill e b a k).
Proof. unfold validate_cpu_usage_to_bill. case_match; [|auto with leaves]. apply leaves_bind; [case_match|intros]; auto with leaves. Qed.

Definition rl c : resource_limits_manager := nd_limits (cx_native c).

Lemma on_rl_ok {A} (op : M resource_limits_manager A) c a c' : on_rl op c = (Ok a, c') <->
  exists m, op (rl c) = (Ok a, m) /\ c' = set_native (set_nd_limits m (cx_native c)) c.
Proof.
  unfold on_rl, on_native, on_limits, zoom, rl. destruct (op _) as [r m] eqn:E.
  split; [intros [= -> <-]; eauto|intros (m' & [= -> ->] & ->); done].
Qed.

Lemma on_rl_gets_ok {A} (f : resource_limits_manager -> A) c a c' : on_rl (gets f) c = (Ok a, c') -> a = f (rl c) /\ c' = c.
Proof. intros (m & [= <- <-] & ->)%on_rl_ok. split; [done|]. destruct c as [? ? ? ? ? ? ? ? ? ? ? ? [] ? ?]. done. Qed.

Lemma check_net_usage_ok c u c' : check_net_usage e c = (Ok u, c') <->
  c' = c /\ (skip_trx_checks (te_view e) = true \/ trx_net_usage (cx_net c) <= eager_net_limit (cx_net c)).
Proof.
  unfold check_net_usage. destruct u. mrun. destruct (skip_trx_checks (te_view e)); cbn; [naive_solver|].
  destruct (_ >? _) eqn:E; btests; [|naive_solver]. split; [|intros [_ [?|?]]; [done|lia]].
  by destruct (net_limit_due_to_block _); [|destruct (net_limit_due_to_greylist _)].
Qed.

Lemma add_net_usage_ok u c x c' : add_net_usage e u c = (Ok x, c') ->
  c' = set_net (set_net_usage (u64 (trx_net_usage (cx_net c) + u)) (cx_net c)) c
  /\ (skip_trx_checks (te_view e) = true \/ trx_net_usage (cx_net c') <= eager_net_limit (cx_net c')).
Proof. unfold add_net_usage. intros Hr. minv. apply check_net_usage_ok in H0 as [-> Hle]. done. Qed.

Lemma leaves_if (b : bool) (m1 m2 : M (trx_context K) unit) : leaves m1 -> leaves m2 -> leaves (if b then m1 else m2).
Proof. by destruct b. Qed.

Lemma leaves_start_deadline : leaves (c ← get; start_timer e (_deadline (cx_timer c))).
Proof. apply leaves_bind; [apply leaves_get|]. intros. apply leaves_start_timer. Qed.
#[local] Hint Resolve leaves_check_net_usage leaves_checktime leaves_start_timer leaves_stop_timer leaves_validate_bill
  leaves_if leaves_start_deadline : leaves.

(** [binv]: [minv] for programs of the context. *)
Ltac binv_step :=
  match goal with
  | H : on_rl (gets _) _ = (Ok _, _) |- _ => apply on_rl_gets_ok in H as [? ?]
  | H : on_rl _ _ = (Ok _, _) |- _ => apply on_rl_ok in H as (? & ? & ?)
  | H : (if ?b then add_net_usage _ _ else mret _) _ = (Ok _, _) |- _ => destruct b eqn:?
  | H : check_net_usage _ _ = (Ok _, _) |- _ => apply check_net_usage_ok in H as [? ?]
  | H : add_net_usage _ _ _ = (Ok _, _) |- _ => apply add_net_usage_ok in H as [? ?]
  | H : (let '(_, _) := ?x in _) _ = (Ok _, _) |- _ => destruct x as [? ?]
  | _ => minv_step
  | H : ?m ?c = (Ok ?a, ?c') |- _ => assert_succeeds (assert (leaves m) by auto with leaves);
      let L := fresh "L" in assert (L : leaves m) by auto with leaves; apply L in H as [? ?]; clear L
  end.
Ltac subst_vars := repeat match goal with H : ?x = ?y |- _ => is_var x; is_var y; subst x end.
Ltac binv := repeat (binv_step; subst_vars).

(** The equations of the intermediate states, applied from the last one on. *)
Ltac fields := repeat (match goal with E : ?x = _ |- _ => is_var x; rewrite !E; clear E end; cbn [cx_request cx_net cx_cpu
  cx_timer is_initialized is_input apply_context_free scheduled trx_published delay elapsed bill_to_accounts cx_native cx_dedup
  cx_summaries set_net set_cpu set_timer set_flags set_delay set_elapsed set_bill_to set_native set_dedup set_greylisted
  set_bill_initialized set_billed rl nd_limits set_nd_limits set_nd_auth]).

Lemma set_deadlines_eq ac c : exists t code, let p := cx_cpu c in
  set_deadlines ac c = set_cpu (mk_cpu_billing (cpu_limit_due_to_greylist p) (initial_objective_duration_limit p)
                         (objective_duration_limit p) code (billed_cpu_time_us p)) (set_timer t c)
  /\ (code = leeway_deadline_exception \/ code = billing_timer_exception_code p).
Proof.
  unfold set_deadlines. destruct (_ <=? _); destruct (_ || _)%bool; eauto 6.
Qed.

Definition block_net_limit m : Z := u64 (max (net_limit_parameters (rl_config m)) - pending_net_usage (rl_state m)).
Definition block_cpu_limit m : Z := u64 (max (cpu_limit_parameters (rl_config m)) - pending_cpu_usage (rl_state m)).

(** Reading what accounts can pay changes nothing. *)
Lemma read_only_account_limit a g m r m' :
  (get_account_net_limit a g m = (r, m') -> m' = m) /\ (get_account_cpu_limit a g m = (r, m') -> m' = m).
Proof.
  unfold get_account_net_limit, get_account_net_limit_ex, get_account_cpu_limit, get_account_cpu_limit_ex, get_account_limits,
    get_usage, get_limits. mrun. split; intros Hr; repeat (case_match; simplify_eq); try done.
Qed.

Lemma read_only_bandwidth_loop force l : forall n p gn gp m r m', bandwidth_loop e force l n p gn gp m = (r, m') -> m' = m.
Proof.
  induction l as [|a l IH]; intros n p gn gp m r m'; cbn [bandwidth_loop]; [by intros [= _ ->]|].
  unfold mbind at 1, M_bind at 1. destruct (get_account_net_limit _ _ m) as [[[nl ng]|x] m1] eqn:En;
    apply read_only_account_limit in En as ->; [|by intros [= _ ->]].
  destruct (nl >=? 0); unfold mbind at 1, M_bind at 1; destruct (get_account_cpu_limit _ _ m) as [[[cl cg]|x] m1] eqn:Ec;
    apply read_only_account_limit in Ec as ->; try (by intros [= _ ->]); destruct (cl >=? 0); apply IH.
Qed.

Lemma read_only_max_bandwidth force l m r m' : max_bandwidth_billed_accounts_can_pay e force l m = (r, m') -> m' = m.
Proof.
  unfold max_bandwidth_billed_accounts_can_pay. unfold mbind at 1, M_bind at 1.
  destruct (bandwidth_loop _ _ _ _ _ _ _ m) as [[[[[n p] gn] gp]|x] m1] eqn:El; apply read_only_bandwidth_loop in El as ->; [|by intros [= _ ->]].
  mrun. case_match; by intros [= _ ->].
Qed.

(** The billing state after a successful initialization. *)
Lemma init_inv u c c' : init e u c = (Ok tt, c') ->
  let a := first_authorizer (trx (cx_request c)) in
  let n1 := lower_net_limit e (trx (cx_request c)) (block_net_limit (rl c)) (cx_net c) in
  let p1 := lower_duration_limit e (trx (cx_request c)) (block_cpu_limit (rl c)) (cx_cpu c) in
  exists m1 an ac gn gc code,
    update_account_usage [a] (set_time_point (pending_block_time (nc_auth (te_native e)))) (rl c) = (Ok tt, m1)
    /\ max_bandwidth_billed_accounts_can_pay e false [a] m1 = (Ok (an, ac, gn, gc), rl c')
    /\ bill_to_accounts c' = [a] /\ cx_request c' = cx_request c
    /\ (let n2 := round_eager_limit (set_eager_limit e an (mk_net_billing (net_limit n1) (net_limit_due_to_block n1)
                     (net_limit_due_to_greylist n1 || gn) (eager_net_limit n1) (trx_net_usage n1))) in
        cx_net c' = if u >? 0 then set_net_usage (u64 (trx_net_usage n2 + u)) n2 else n2)
    /\ cx_cpu c' = mk_cpu_billing (cpu_limit_due_to_greylist p1 || gc) (initial_objective_duration_limit p1)
                     (objective_duration_limit p1) code (billed_cpu_time_us p1)
    /\ (code = leeway_deadline_exception \/ code = billing_timer_exception_code p1)
    /\ (0 < u -> skip_trx_checks (te_view e) = true \/ trx_net_usage (cx_net c') <= eager_net_limit (cx_net c')).
Proof.
  unfold init. intros Hi. unfold get_block_net_limit, get_block_cpu_limit in Hi. binv.
  all: match goal with H : max_bandwidth_billed_accounts_can_pay _ _ _ _ = _ |- _ => pose proof H as Hro; apply read_only_max_bandwidth in Hro end.
  all: match goal with H : ?x = set_deadlines ?ac ?c |- _ => destruct (set_deadlines_eq ac c) as (td & code & Ed & Hcode);
         rewrite Ed in H; clear Ed end.
  all: exists x15, z, z0, b0, b, code.
  all: assert (Ex12 : rl x12 = rl c) by (by fields). all: assert (Ex14 : rl x14 = x15) by (by fields).
  all: rewrite Ex12 in H7; rewrite Ex14 in *; subst x18.
  all: split; [exact H7|]; split; [replace (rl c') with x15 by (by fields); exact H8|].
  all: repeat (split; [by fields|]).
  all: split; [destruct Hcode as [?|Hcode]; [by left|right; rewrite Hcode; by fields]|intros Hu; btests].
  2: lia.
  replace (cx_net c') with (cx_net x29) by (by fields). done.
Qed.

Lemma lower_net_limit_spec t block n : let n1 := lower_net_limit e t block n in
  let words := u64 (max_net_usage_words t * 8) in
  net_limit n1 <= block /\ net_limit n1 <= max_transaction_net_usage (te_config e) /\ (0 < words -> net_limit n1 <= words)
  /\ (0 <= block -> 0 <= max_transaction_net_usage (te_config e) -> 0 <= net_limit n1)
  /\ (net_limit_due_to_block n1 = true -> net_limit n1 = block).
Proof.
  unfold lower_net_limit. cbv zeta. set (words := u64 _). destruct (max_transaction_net_usage _ <=? _) eqn:Emax;
    destruct ((words >? 0) && _) eqn:Ew; try (apply andb_false_iff in Ew as [Ew|Ew]); btests; cbn; split_and!; (lia || done).
Qed.

Lemma lower_duration_limit_spec t block p : let p1 := lower_duration_limit e t block p in
  objective_duration_limit p1 = initial_objective_duration_limit p1
  /\ objective_duration_limit p1 <= s64 block /\ objective_duration_limit p1 <= max_transaction_cpu_usage (te_config e)
  /\ (0 < max_cpu_usage_ms t -> objective_duration_limit p1 <= max_cpu_usage_ms t * 1000)
  /\ (billing_timer_exception_code p1 = block_cpu_usage_exceeded -> objective_duration_limit p1 = s64 block).
Proof.
  unfold lower_duration_limit. cbv zeta. repeat (match goal with |- context [if ?b then _ else _] => destruct b eqn:? end; cbn);
    btests; split_and!; (lia || done).
Qed.

Lemma set_eager_limit_spec an n : let n1 := set_eager_limit e an n in
  net_limit n1 = net_limit n /\ eager_net_limit n1 <= net_limit n /\ (0 <= net_limit n -> 0 <= eager_net_limit n1)
  /\ (net_limit_due_to_block n1 = true -> net_limit_due_to_block n = true /\ eager_net_limit n1 = net_limit n).
Proof.
  unfold set_eager_limit. cbv zeta. destruct (_ <? _) eqn:E; btests; cbn; split_and!; try (lia || done).
  intros Hn. apply Z.min_glb; [lia|]. apply u64_range.
Qed.

(** C40: What an initialized transaction may use is within what is left of the
    block, within the maximum of the configuration and within what its header
    asks for, for network and for CPU; the eager limit is a multiple of the word
    size.  Only when none of these is lower does a failure blame the block. *)
Theorem init_within_limits (u : Z) c c' :
  init e u c = (Ok tt, c') ->
  0 <= max_transaction_net_usage (te_config e) ->
  let block_net := block_net_limit (rl c) in
  let block_cpu := s64 (block_cpu_limit (rl c)) in
  let words := u64 (max_net_usage_words (trx (cx_request c)) * 8) in
  let ms := max_cpu_usage_ms (trx (cx_request c)) in
  let n := cx_net c' in
  let p := cx_cpu c' in
  eager_net_limit n <= net_limit n <= block_net
  /\ net_limit n <= max_transaction_net_usage (te_config e) /\ (0 < words -> net_limit n <= words)
  /\ 0 <= eager_net_limit n /\ eager_net_limit n mod 8 = 0
  /\ (net_limit_due_to_block n = true -> net_limit n = block_net /\ eager_net_limit n = block_net / 8 * 8)
  /\ (0 < u -> skip_trx_checks (te_view e) = false -> trx_net_usage n <= eager_net_limit n)
  /\ objective_duration_limit p = initial_objective_duration_limit p /\ objective_duration_limit p <= block_cpu
  /\ objective_duration_limit p <= max_transaction_cpu_usage (te_config e) /\ (0 < ms -> objective_duration_limit p <= ms * 1000)
  /\ (billing_timer_exception_code p = block_cpu_usage_exceeded -> objective_duration_limit p = block_cpu).
Proof.
  intros (m1 & an & ac & gn & gc & code & _ & _ & _ & _ & Hnet & Hcpu & Hcode & Husage)%init_inv Hmax. cbv zeta.
  destruct (lower_net_limit_spec (trx (cx_request c)) (block_net_limit (rl c)) (cx_net c)) as (N1 & N2 & N3 & N4 & N5).
  destruct (lower_duration_limit_spec (trx (cx_request c)) (block_cpu_limit (rl c)) (cx_cpu c)) as (P1 & P2 & P3 & P4 & P5).
  set (n1 := lower_net_limit _ _ _ _) in *. set (p1 := lower_duration_limit _ _ _ _) in *.
  match type of Hnet with context [set_eager_limit e an ?n] => destruct (set_eager_limit_spec an n) as (E1 & E2 & E3 & E4) end.
  set (n2 := set_eager_limit _ _ _) in *. cbn [net_limit net_limit_due_to_block] in E1, E2, E3, E4.
  specialize (N4 (proj1 (u64_range _)) Hmax). specialize (E3 N4).
  assert (En : net_limit (cx_net c') = net_limit n1 /\ eager_net_limit (cx_net c') = eager_net_limit n2 / 8 * 8
    /\ net_limit_due_to_block (cx_net c') = net_limit_due_to_block n2) by (rewrite Hnet; destruct (u >? 0); cbn; auto).
  destruct En as (-> & -> & ->). rewrite Hcpu.
  cbn [objective_duration_limit initial_objective_duration_limit billing_timer_exception_code].
  pose proof (Z.mul_div_le (eager_net_limit n2) 8 ltac:(lia)). pose proof (Z.div_pos (eager_net_limit n2) 8 E3 ltac:(lia)).
  split_and!; try lia; try done.
  - apply Z.mod_mul. lia.
  - intros [Hdue ->]%E4. split; [by apply N5|]. by rewrite (N5 Hdue).
  - intros Hu Hskip. destruct (Husage Hu) as [?|Hle]; [congruence|]. rewrite Hnet in Hle |- *. by destruct (u >? 0).
  - intros Hb. apply P5. destruct Hcode as [?|?]; congruence.
Qed.

(** ** The final bill *)
Lemma validate_bill_ok b ac c u c' : validate_cpu_usage_to_bill e b ac true c = (Ok u, c') ->
  c' = c /\ (skip_trx_checks (te_view e) = true \/
    (min_transaction_cpu_usage (te_config e) <= b /\ (0 < b -> b <= ac /\ b <= objective_duration_limit (cx_cpu c)))).
Proof.
  unfold validate_cpu_usage_to_bill, validate_account_cpu_usage. destruct (skip_trx_checks (te_view e)); cbn [negb].
  { intros [_ ->]%mret_ok. auto. }
  intros (? & ? & [Hmin ->]%massert_ok & (? & ? & [-> ->]%get_ok & Hv)%M_bind_ok)%M_bind_ok. rewrite andb_true_r in Hv.
  destruct (b >? 0) eqn:Eb; [|minv; btests; split; [done|right; split; lia]].
  destruct (ac <=? _) eqn:Eac; cbn [negb andb] in Hv; rewrite ?andb_true_r, ?andb_false_r in Hv;
    repeat case_match; minv; btests; (split; [done|right; split; lia]).
Qed.

Lemma update_billed_ok n c r c' : update_billed_cpu_time e n c = (Ok r, c') ->
  exists b, c' = set_cpu (set_billed b (cx_cpu c)) c.
Proof.
  unfold update_billed_cpu_time. intros Hu. minv. destruct (explicit_billed_cpu_time _); minv; [|eauto].
  exists (billed_cpu_time_us (cx_cpu c)). by destruct c as [? ? [] ? ? ? ? ? ? ? ? ? ? ? ?].
Qed.

Lemma on_auth_ok {A} (op : M (auth_db K) A) c a c' : on_native (on_auth op) c = (Ok a, c') ->
  exists db, c' = set_native (set_nd_auth db (cx_native c)) c.
Proof. unfold on_native, on_auth, zoom. destruct (op _) as [r db]. intros [= _ <-]. eauto. Qed.

Lemma if_on_auth_ok (b : bool) (op : M (auth_db K) unit) c u c' :
  (if b then on_native (on_auth op) else mret tt) c = (Ok u, c') -> exists db, c' = set_native (set_nd_auth db (cx_native c)) c.
Proof.
  destruct b; [apply on_auth_ok|]. intros [_ ->]%mret_ok. exists (nd_auth (cx_native c)).
  by destruct c as [? ? ? ? ? ? ? ? ? ? ? ? [] ? ?].
Qed.

Lemma verify_ram_read_only l : forall m u m', verify_ram l m = (Ok u, m') -> m' = m.
Proof.
  induction l as [|a l IH]; intros m u m' Hv; cbn [verify_ram] in Hv; minv; [done|]. apply IH in H0 as ->.
  unfold verify_account_ram_usage, get_account_limits, get_limits, get_usage in H. mrun. repeat (case_match; simplify_eq); done.
Qed.

Lemma lower_to_account_limits_spec an ac c : let c' := lower_to_account_limits an ac c in
  rl c' = rl c /\ bill_to_accounts c' = bill_to_accounts c
  /\ net_limit (cx_net c') <= net_limit (cx_net c) /\ net_limit (cx_net c') <= u64 an
  /\ eager_net_limit (cx_net c') = net_limit (cx_net c')
  /\ objective_duration_limit (cx_cpu c') <= objective_duration_limit (cx_cpu c) /\ objective_duration_limit (cx_cpu c') <= ac
  /\ trx_net_usage (cx_net c') = u64 (trx_net_usage (cx_net c) + 7) / 8 * 8.
Proof.
  unfold lower_to_account_limits. cbv zeta. repeat (match goal with |- context [if ?b then _ else _] => destruct b eqn:? end; cbn);
    btests; split_and!; (lia || done).
Qed.

Lemma finalize_checks_inv c c' : finalize_checks e c = (Ok tt, c') ->
  exists an ac gn gc, max_bandwidth_billed_accounts_can_pay e false (bill_to_accounts c) (rl c) = (Ok (an, ac, gn, gc), rl c)
    /\ rl c' = rl c /\ bill_to_accounts c' = bill_to_accounts c
    /\ trx_net_usage (cx_net c') = u64 (trx_net_usage (cx_net c) + 7) / 8 * 8
    /\ (skip_trx_checks (te_view e) = false ->
        trx_net_usage (cx_net c') <= net_limit (cx_net c) /\ trx_net_usage (cx_net c') <= u64 an
        /\ min_transaction_cpu_usage (te_config e) <= billed_cpu_time_us (cx_cpu c')
        /\ (0 < billed_cpu_time_us (cx_cpu c') ->
            billed_cpu_time_us (cx_cpu c') <= ac /\ billed_cpu_time_us (cx_cpu c') <= objective_duration_limit (cx_cpu c))).
Proof.
  unfold finalize_checks. intros Hf.
  repeat (match goal with
    | H : (if _ then on_native (on_auth _) else mret tt) _ = (Ok _, _) |- _ => apply if_on_auth_ok in H as [? ?]
    | H : validate_cpu_usage_to_bill _ _ _ true _ = (Ok _, _) |- _ => apply validate_bill_ok in H as [? ?]
    | H : update_billed_cpu_time _ _ _ = (Ok _, _) |- _ => apply update_billed_ok in H as [? ?]
    | H : on_rl (verify_ram _) _ = (Ok _, _) |- _ => apply on_rl_ok in H as (? & ?%verify_ram_read_only & ?)
    | _ => binv_step
    end; subst_vars).
  pose proof H3 as Hro%read_only_max_bandwidth.
  assert (E7 : rl x7 = rl c) by (by fields). rewrite E7 in *. subst x11.
  pose proof (lower_to_account_limits_spec z z0 x12) as Hspec. cbv zeta in Hspec. rewrite <- H7 in Hspec. clear H7.
  assert (E12 : rl x12 = rl c /\ bill_to_accounts x12 = bill_to_accounts c /\ net_limit (cx_net x12) = net_limit (cx_net c)
    /\ objective_duration_limit (cx_cpu x12) = objective_duration_limit (cx_cpu c)
    /\ trx_net_usage (cx_net x12) = trx_net_usage (cx_net c)) by (by fields).
  destruct E12 as (E1 & E2 & E3 & E4 & E5). rewrite E1, E2, E3, E4, E5 in Hspec. clear H6 H4 H1 H5.
  destruct Hspec as (S1 & S2 & S3 & S4 & S5 & S6 & S7 & S8).
  assert (E21 : rl x21 = rl x14 /\ bill_to_accounts x21 = bill_to_accounts x14 /\ cx_net x21 = cx_net x14
    /\ objective_duration_limit (cx_cpu x21) = objective_duration_limit (cx_cpu x14)) by (by fields).
  destruct E21 as (F1 & F2 & F3 & F4). exists z, z0, b0, b. rewrite F1, F2, F3, S1, S2. rewrite F4 in H14.
  split_and!; try done; intros Hskip; destruct H10 as [?|H10]; [congruence|]; destruct H14 as [?|H14]; [congruence|].
  split_and!; [lia|lia|lia|]. intros Hb. destruct (proj2 H14 Hb). lia.
Qed.

(** What charging an account needs: its accumulators are at the current slot,
    as [update_account_usage] leaves them, and numbers are far from their
    width. *)
Record accumulator_at (s : Z) (a : usage_accumulator) : Prop := {
  at_slot : last_ordinal a = s;
  at_value : 0 <= value_ex a <= 2 ^ 63;
  at_consumed : 0 <= consumed a <= 2 ^ 63 }.

Definition capacity_fits (vlimit window weight : Z) : Prop := 0 <= weight -> vlimit * window * weight < 2 ^ 128.

Definition block_bound : Z := 10 ^ 12.

Record chargeable m (a s : Z) : Prop := {
  ch_account : exists l u, limits_of (rl_limits m) a = Some l /\ rl_usage m !! a = Some u
    /\ accumulator_at s (net_usage u) /\ accumulator_at s (cpu_usage u)
    /\ capacity_fits (virtual_net_limit (rl_state m)) (account_net_usage_average_window (rl_config m)) (net_weight l)
    /\ capacity_fits (virtual_cpu_limit (rl_state m)) (account_cpu_usage_average_window (rl_config m)) (cpu_weight l);
  ch_windows : 0 < account_net_usage_average_window (rl_config m) <= rate_limiting_precision
    /\ 0 < account_cpu_usage_average_window (rl_config m) <= rate_limiting_precision;
  ch_virtual : is_u64 (virtual_net_limit (rl_state m)) /\ is_u64 (virtual_cpu_limit (rl_state m));
  ch_totals : 0 <= total_net_weight (rl_state m) /\ 0 <= total_cpu_weight (rl_state m);
  ch_net : 0 <= pending_net_usage (rl_state m) <= max (net_limit_parameters (rl_config m));
  ch_cpu : 0 <= pending_cpu_usage (rl_state m) <= max (cpu_limit_parameters (rl_config m));
  ch_bounds : max (net_limit_parameters (rl_config m)) <= block_bound
    /\ max (cpu_limit_parameters (rl_config m)) <= block_bound }.

Lemma add_at_slot s a units w : accumulator_at s a -> 0 <= units <= block_bound -> 0 < w <= rate_limiting_precision ->
  add a units s w = Ok (mk_accumulator s (value_ex a + integer_divide_ceil (units * rate_limiting_precision) w) (consumed a + units))
  /\ integer_divide_ceil (units * rate_limiting_precision) w * w < units * rate_limiting_precision + w
  /\ 0 <= integer_divide_ceil (units * rate_limiting_precision) w <= 10 ^ 18.
Proof.
  intros [Hs Hv Hc] Hu Hw. unfold block_bound, rate_limiting_precision in *.
  pose proof (ceil_bounds (units * (1000 * 1000)) w ltac:(lia) ltac:(lia)) as Hceil.
  set (k := integer_divide_ceil _ w) in *. assert (Hk : 0 <= k <= 10 ^ 18) by nia.
  split; [|lia]. unfold add, rate_limiting_precision. rewrite u128_id by (widths; lia). fold k.
  destruct (Z.leb_spec units max_raw_value) as [_|Hbad]; [|change max_raw_value with 18446744073709 in Hbad; lia].
  destruct (Z.leb_spec units (UINT64_MAX - consumed a)) as [_|Hbad]; [|widths; lia].
  destruct (Z.eqb_spec w 0) as [|_]; [lia|]. unfold downgrade_cast_u64.
  destruct (Z.leb_spec 0 k) as [_|]; [|lia]. destruct (Z.leb_spec k UINT64_MAX) as [_|]; [|widths; lia]. cbn.
  destruct (Z.leb_spec k (UINT64_MAX - value_ex a)) as [_|]; [|widths; lia]. cbn.
  unfold decay. rewrite Hs, Z.eqb_refl. cbn. rewrite !u64_id by (widths; lia). by rewrite Hs.
Qed.

(** What is available to an account can be charged to it. *)
Lemma available_fits w total window vlimit bmax value grey arl g units k :
  account_limit_ex w total window vlimit bmax value grey = Ok (arl, g) ->
  0 <= w -> 0 < total -> 0 < window <= rate_limiting_precision -> is_u64 vlimit -> capacity_fits vlimit window w ->
  0 <= value <= 2 ^ 63 -> 0 < units <= available arl -> k * window < units * rate_limiting_precision + window -> 0 <= k <= 10 ^ 18 ->
  u128 ((value + k) * window) / rate_limiting_precision <= max_user_use_in_window vlimit window w total.
Proof.
  intros Hex Hw Htotal Hwin Hvl Hfits Hv Hu Hk Hk18. unfold account_limit_ex in Hex.
  destruct (Z.ltb_spec w 0) as [|_]; [lia|]. destruct (Z.eqb_spec total 0) as [|_]; [lia|]. cbn [orb] in Hex.
  apply res_bind_ok in Hex as (av & Hav & Hex). minv. cbn [available] in Hu.
  unfold rate_limiting_precision in *. rewrite (u128_id (value * window)) in Hav by (widths; nia).
  pose proof (ceil_bounds (value * window) (1000 * 1000) ltac:(nia) ltac:(lia)) as Hceil.
  set (us := integer_divide_ceil (value * window) _) in *. set (lim := if (_ && _)%bool then _ else vlimit) in *.
  set (mx := u128 (_ * w) / total) in *.
  assert (Hus : us + units <= mx).
  { destruct (Z.leb_spec mx us); [injection Hav as <-; lia|]. unfold downgrade_cast_s64 in Hav. minv. lia. }
  assert (Hmx : mx <= max_user_use_in_window vlimit window w total).
  { unfold mx, max_user_use_in_window. rewrite (Z.mul_comm vlimit window). apply Z.div_le_mono; [done|].
    apply capacity_mono; [|done|widths; lia|done|by apply Hfits]. unfold lim.
    pose proof (u64_range (bmax * grey)). destruct (_ && _) eqn:Eg; btests; widths; lia. }
  rewrite u128_id by (widths; nia). apply Z.le_trans with (us + units); [|lia].
  apply Z.lt_succ_r, Z.div_lt_upper_bound; [lia|]. lia.
Qed.

Lemma check_account_usage_run x w total vlimit window value m :
  (0 <= w -> 0 < total -> u128 (value * window) / rate_limiting_precision <= max_user_use_in_window vlimit window w total) ->
  check_account_usage x w total vlimit window value m = (Ok tt, m).
Proof.
  intros Hle. unfold check_account_usage. destruct ((0 <=? w) && (total >? 0)) eqn:E; [|done]. btests.
  apply massert_ok. split; [|done]. apply Z.leb_le. by apply Hle.
Qed.

Lemma get_account_limit_ok a g m l usage x b m' : limits_of (rl_limits m) a = Some l -> rl_usage m !! a = Some usage ->
  (get_account_net_limit a g m = (Ok (x, b), m') -> exists arl,
    account_limit_ex (net_weight l) (total_net_weight (rl_state m)) (account_net_usage_average_window (rl_config m))
      (virtual_net_limit (rl_state m)) (max (net_limit_parameters (rl_config m))) (value_ex (net_usage usage)) g = Ok (arl, b)
    /\ x = available arl)
  /\ (get_account_cpu_limit a g m = (Ok (x, b), m') -> exists arl,
    account_limit_ex (cpu_weight l) (total_cpu_weight (rl_state m)) (account_cpu_usage_average_window (rl_config m))
      (virtual_cpu_limit (rl_state m)) (max (cpu_limit_parameters (rl_config m))) (value_ex (cpu_usage usage)) g = Ok (arl, b)
    /\ x = available arl).
Proof.
  intros Hl Hu. unfold get_account_net_limit, get_account_net_limit_ex, get_account_cpu_limit, get_account_cpu_limit_ex, get_usage.
  mrun. rewrite !Hu, !(get_account_limits_run _ _ _ Hl). cbn.
  split; (destruct (account_limit_ex _ _ _ _ _ _ _) as [[arl y]|]; [|done]); intros [= <- <- _]; eauto.
Qed.

(** What [max_bandwidth_billed_accounts_can_pay] says about one account. *)
Lemma max_bandwidth_single a m an ac gn gc m' l usage :
  limits_of (rl_limits m) a = Some l -> rl_usage m !! a = Some usage ->
  max_bandwidth_billed_accounts_can_pay e false [a] m = (Ok (an, ac, gn, gc), m') ->
  exists narl ng carl cg grey,
    account_limit_ex (net_weight l) (total_net_weight (rl_state m)) (account_net_usage_average_window (rl_config m))
      (virtual_net_limit (rl_state m)) (max (net_limit_parameters (rl_config m))) (value_ex (net_usage usage)) grey = Ok (narl, ng)
    /\ account_limit_ex (cpu_weight l) (total_cpu_weight (rl_state m)) (account_cpu_usage_average_window (rl_config m))
      (virtual_cpu_limit (rl_state m)) (max (cpu_limit_parameters (rl_config m))) (value_ex (cpu_usage usage)) grey = Ok (carl, cg)
    /\ 0 <= an <= large_number_no_overflow /\ ac <= large_number_no_overflow
    /\ (0 <= available narl -> an <= available narl) /\ (0 <= available carl -> ac <= available carl).
Proof.
  intros Hl Hu. unfold max_bandwidth_billed_accounts_can_pay, bandwidth_loop. set (grey := greylist_limit_of e false a).
  intros Hr. apply M_bind_ok in Hr as ([[[n p] gn'] gp'] & m1 & Hr & Hend).
  apply M_bind_ok in Hr as ([nl ng] & m2 & Hn & Hr). pose proof Hn as ->%read_only_account_limit.
  apply (get_account_limit_ok _ _ _ l usage) in Hn as (narl & En & ->); [|done..].
  assert (Hlarge : 0 <= large_number_no_overflow) by (by vm_compute).
  destruct (available narl >=? 0) eqn:Enl; apply M_bind_ok in Hr as ([cl cg] & m3 & Hc & Hr);
    apply (get_account_limit_ok _ _ _ l usage) in Hc as (carl & Ec & ->); try done;
    destruct (available carl >=? 0) eqn:Ecl; apply mret_ok in Hr as [[= -> -> -> ->] ->]; minv; btests; simplify_eq;
    exists narl, ng, carl, cg, grey; (split_and!; [done|done|..]); lia.
Qed.

Lemma available_nonneg w total window vlimit bmax value grey arl g :
  account_limit_ex w total window vlimit bmax value grey = Ok (arl, g) -> 0 <= w -> 0 < total -> 0 <= available arl.
Proof.
  intros Hex Hw Htotal. unfold account_limit_ex in Hex.
  destruct (Z.ltb_spec w 0) as [|_]; [lia|]. destruct (Z.eqb_spec total 0) as [|_]; [lia|]. cbn [orb] in Hex.
  apply res_bind_ok in Hex as (av & Hav & Hex). minv. cbn.
  match type of Hav with (if ?b then _ else _) = _ => destruct b end; [minv; lia|].
  unfold downgrade_cast_s64 in Hav. minv. btests. lia.
Qed.

(** Charging nothing to a resource passes when its usage is within the share. *)
Lemma resource_fits w total window vlimit bmax value grey arl g units k :
  account_limit_ex w total window vlimit bmax value grey = Ok (arl, g) ->
  0 < window <= rate_limiting_precision -> is_u64 vlimit -> capacity_fits vlimit window w ->
  0 <= value <= 2 ^ 63 -> 0 <= units -> (0 <= available arl -> units <= available arl) ->
  k * window < units * rate_limiting_precision + window -> 0 <= k <= 10 ^ 18 -> (units = 0 -> k = 0) ->
  (units = 0 /\ ~ within_share w total vlimit window value) \/ within_share w total vlimit window (value + k).
Proof.
  intros Hex Hwin Hvl Hfits Hv Hu Hav Hk Hk18 H0k. unfold within_share.
  destruct (decide (units = 0)) as [E0|Hne].
  - rewrite (H0k E0), Z.add_0_r. destruct (decide (0 <= w)) as [Hw|]; [|right; lia]. destruct (decide (0 < total)); [|right; lia].
    destruct (decide (u128 (value * window) / rate_limiting_precision <= max_user_use_in_window vlimit window w total)); [by right|].
    left. split; [done|]. intros Hshare. auto.
  - right. intros Hw Htotal. eapply available_fits; try done. split; [lia|]. apply Hav. by eapply available_nonneg.
Qed.

Lemma add_transaction_usage_run a cpu net s m l usage net_acc cpu_acc :
  limits_of (rl_limits m) a = Some l -> rl_usage m !! a = Some usage ->
  add (net_usage usage) net s (account_net_usage_average_window (rl_config m)) = Ok net_acc ->
  add (cpu_usage usage) cpu s (account_cpu_usage_average_window (rl_config m)) = Ok cpu_acc ->
  within_share (net_weight l) (total_net_weight (rl_state m)) (virtual_net_limit (rl_state m))
    (account_net_usage_average_window (rl_config m)) (value_ex net_acc) ->
  within_share (cpu_weight l) (total_cpu_weight (rl_state m)) (virtual_cpu_limit (rl_state m))
    (account_cpu_usage_average_window (rl_config m)) (value_ex cpu_acc) ->
  is_u64 (pending_net_usage (rl_state m) + net) -> is_u64 (pending_cpu_usage (rl_state m) + cpu) ->
  pending_net_usage (rl_state m) + net <= max (net_limit_parameters (rl_config m)) ->
  pending_cpu_usage (rl_state m) + cpu <= max (cpu_limit_parameters (rl_config m)) ->
  exists m', add_transaction_usage [a] cpu net s m = (Ok tt, m')
    /\ pending_net_usage (rl_state m') = pending_net_usage (rl_state m) + net
    /\ pending_cpu_usage (rl_state m') = pending_cpu_usage (rl_state m) + cpu.
Proof.
  intros Hl Hu Hn Hc Sn Sc Un Uc Bn Bc.
  assert (Hrun : charge_accounts [a] cpu net s m = (Ok tt, set_usage (<[a := ResourceLimits.mk_usage net_acc cpu_acc (ram_usage usage)]> (rl_usage m)) m)).
  { cbn [charge_accounts]. unfold get_usage, put_usage. mrun. rewrite Hu, (get_account_limits_run _ _ _ Hl), Hn, Hc.
    rewrite (check_account_usage_run tx_cpu_usage_exceeded) by exact Sc. by rewrite (check_account_usage_run tx_net_usage_exceeded) by exact Sn. }
  unfold add_transaction_usage. unfold mbind at 1, M_bind at 1. rewrite Hrun. unfold put_state. mrun.
  rewrite !u64_id by done. rewrite (proj2 (Z.leb_le _ _) Bn), (proj2 (Z.leb_le _ _) Bc). by eexists.
Qed.


(** ** Pausing *)

(** Before the timer is started [checktime] does nothing: the early check of
    the deadline in [init] cannot fail. *)
Lemma checktime_before_start c : expired (transaction_timer (cx_timer c)) = false -> armed (transaction_timer (cx_timer c)) = None ->
  exists c', checktime e c = (Ok tt, c').
Proof.
  intros Hexp Harm. unfold checktime, read_expired. mrun. rewrite Harm.
  destruct (fires e _); cbn; rewrite Hexp; cbn; eauto.
Qed.

(** Time between [pause_billing_timer] and [resume_billing_timer] is not
    billed: a transaction is billed for the time before and after the pause,
    and at least for the minimum. *)
Theorem paused_time_not_billed (n : Z) c :
  let t1 := clock e (ticks (cx_timer c)) in
  let t2 := clock e (S (ticks (cx_timer c))) in
  let began := pseudo_start (cx_timer c) in
  explicit_billed_cpu_time (cx_request c) = false -> 0 < began <= t1 -> t1 <= t2 <= n -> n < 2 ^ 62 ->
  let billed := Z.max ((t1 - began) + (n - t2)) (min_transaction_cpu_usage (te_config e)) in
  exists c', (pause_billing_timer e;; resume_billing_timer e;; update_billed_cpu_time e n) c = (Ok (u32 billed), c')
    /\ billed_cpu_time_us (cx_cpu c') = billed.
Proof.
  intros t1 t2 began Hexp Hb H12 Hn billed.
  unfold pause_billing_timer, resume_billing_timer, update_billed_cpu_time, start_timer, stop_timer, now. mrun.
  rewrite Hexp. fold began. destruct (Z.eqb_spec began 0) as [|_]; [lia|]. cbn. rewrite Hexp. cbn.
  fold t1 t2 began. rewrite (s64_id (t1 - began)), (s64_id (t2 - (t1 - began))) by (widths; lia).
  assert (Eb : s64 (n - (t2 - (t1 - began))) = t1 - began + (n - t2)) by (rewrite s64_id by (widths; lia); lia).
  destruct (_ <=? deadline _); destruct (_ =? time_point_maximum); cbn; rewrite Hexp; cbn; rewrite Eb;
    (eexists; split; [reflexivity|reflexivity]).
Qed.

(** ** Referenced accounts *)
Lemma flat_insert_spec a l : flat l -> flat (flat_insert a l) /\ forall x, x ∈ flat_insert a l <-> x = a \/ x ∈ l.
Proof.
  induction l as [|y l IH]; intros Hl; cbn [flat_insert].
  { split; [repeat constructor|]. intros x. by rewrite list_elem_of_singleton, elem_of_nil, (right_id False or). }
  pose proof Hl as [Hl' Hy]%flat_inv. destruct (Z.ltb_spec a y) as [Hlt|Hge].
  - split; [|intros x; by rewrite elem_of_cons]. constructor; [done|]. apply Forall_forall.
    intros x [->|Hx]%elem_of_cons; [done|]. apply Hy in Hx. lia.
  - destruct (Z.eqb_spec a y) as [->|Hne]; [split; [done|intros x; rewrite elem_of_cons; tauto]|].
    destruct (IH Hl') as [Hf Hin]. split; [|intros x; rewrite !elem_of_cons, Hin; tauto].
    constructor; [done|]. apply Forall_forall. intros x [->|Hx]%Hin; [lia|by apply Hy].
Qed.

Lemma validate_context_free_ok (d : native_db K) acts : validate_context_free d acts = Ok tt <->
  forall a, a ∈ acts -> account_exists d (act_account a) = true /\ authorization a = [].
Proof.
  induction acts as [|a acts IH]; cbn [validate_context_free]; [split; [intros _ a ?%elem_of_nil|]; done|].
  rewrite !eos_assert_bind_ok, IH, bool_decide_eq_true. split.
  - intros (? & ? & ?) x [->|?]%elem_of_cons; auto.
  - intros Hall. destruct (Hall a ltac:(by left)). split_and!; try done. intros x Hx. apply Hall. by right.
Qed.

Definition auth_known (d : native_db K) (p : permission_level) : Prop :=
  account_exists d (actor p) = true /\ exists r, find_permission (nd_auth d) p = Ok (Some r).

Lemma validate_auths_ok (d : native_db K) (enforce : bool) auths : forall actors l, flat actors ->
  validate_auths d enforce auths actors = Ok l ->
  (forall p, p ∈ auths -> auth_known d p) /\ flat l
  /\ (enforce = true -> forall x, x ∈ l <-> x ∈ actors \/ exists p, p ∈ auths /\ x = actor p).
Proof.
  induction auths as [|p auths IH]; intros actors l Hf Hv; cbn [validate_auths] in Hv.
  { injection Hv as <-. split; [by intros p ?%elem_of_nil|]. split; [done|]. intros _ x. split; [auto|]. intros [?|(p & ?%elem_of_nil & _)]; done. }
  apply eos_assert_bind_ok in Hv as [Ha Hv]. apply res_bind_ok in Hv as (r & Hr & Hv). apply eos_assert_bind_ok in Hv as [Hs Hv].
  destruct r as [r|]; [|done]. assert (Hfi : flat (if enforce then flat_insert (actor p) actors else actors)).
  { destruct enforce; [by apply flat_insert_spec|done]. }
  destruct (IH _ _ Hfi Hv) as (Hk & Hfl & Hin). split; [|split; [done|]].
  - intros q [->|Hq]%elem_of_cons; [split; [done|by exists r]|by apply Hk].
  - intros -> x. rewrite (Hin eq_refl), (proj2 (flat_insert_spec _ _ Hf)). split.
    + intros [[->|?]|(q & Hq & ->)]; [right; exists p; split; [by left|done]|by left|right; exists q; split; [by right|done]].
    + intros [?|(q & [->|Hq]%elem_of_cons & ->)]; eauto.
Qed.

Lemma validate_auths_total (d : native_db K) (enforce : bool) auths : forall actors,
  (forall p, p ∈ auths -> auth_known d p) -> exists l, validate_auths d enforce auths actors = Ok l.
Proof.
  induction auths as [|p auths IH]; intros actors Hk; cbn [validate_auths]; [by eexists|].
  destruct (Hk p ltac:(by left)) as (-> & r & ->). cbn. apply IH. intros q Hq. apply Hk. by right.
Qed.

Definition actions_known (d : native_db K) (acts : list action) : Prop :=
  forall a, a ∈ acts -> account_exists d (act_account a) = true /\ forall p, p ∈ authorization a -> auth_known d p.

Lemma validate_actions_ok (d : native_db K) (enforce : bool) acts : forall actors one l one', flat actors ->
  validate_actions d enforce acts actors one = Ok (l, one') ->
  actions_known d acts /\ flat l /\ (one' = true <-> one = true \/ exists a, a ∈ acts /\ authorization a <> [])
  /\ (enforce = true -> forall x, x ∈ l <-> x ∈ actors \/ exists a p, a ∈ acts /\ p ∈ authorization a /\ x = actor p).
Proof.
  induction acts as [|a acts IH]; intros actors one l one' Hf Hv; cbn [validate_actions] in Hv.
  { injection Hv as <- <-. split; [by intros a ?%elem_of_nil|]. split; [done|]. split.
    - split; [auto|]. intros [?|(a & ?%elem_of_nil & _)]; done.
    - intros _ x. split; [auto|]. intros [?|(a & p & ?%elem_of_nil & _)]; done. }
  apply eos_assert_bind_ok in Hv as [Ha Hv]. apply res_bind_ok in Hv as (l1 & Hl1 & Hv).
  destruct (validate_auths_ok _ _ _ _ _ Hf Hl1) as (Hk & Hf1 & Hin1).
  destruct (IH _ _ _ _ Hf1 Hv) as (Hka & Hfl & Hone & Hin). split_and!.
  - intros b [->|Hb]%elem_of_cons; [done|by apply Hka].
  - done.
  - rewrite Hone, orb_true_iff, negb_true_iff, bool_decide_eq_false. split.
    + intros [[?|?]|(b & ? & ?)]; [auto|right; exists a; split; [by left|done]|right; exists b; split; [by right|done]].
    + intros [?|(b & [->|?]%elem_of_cons & ?)]; eauto.
  - intros He x. rewrite (Hin He), (Hin1 He). split.
    + intros [[?|(p & ? & ->)]|(b & p & ? & ? & ->)]; [auto| |].
      * right. exists a, p. split_and!; [by left|done..].
      * right. exists b, p. split_and!; [by right|done..].
    + intros [?|(b & p & [->|?]%elem_of_cons & ? & ->)]; [auto|left; right; eauto|right; eauto].
Qed.

Lemma validate_actions_total (d : native_db K) (enforce : bool) acts : forall actors one,
  actions_known d acts -> exists r, validate_actions d enforce acts actors one = Ok r.
Proof.
  induction acts as [|a acts IH]; intros actors one Hk; cbn [validate_actions]; [by eexists|].
  destruct (Hk a ltac:(by left)) as [-> Hp]. destruct (validate_auths_total d enforce (authorization a) actors Hp) as [l ->].
  cbn. apply IH. intros b Hb. apply Hk. by right.
Qed.

(** A transaction passes the check of its accounts exactly when every
    account and permission it names exists, context-free actions carry no
    authorization, some action carries one, and, when the lists are enforced,
    all its actors are on the allowlist or, without one, none is denied. *)
Theorem validate_referenced_accounts_spec (d : native_db K) (t : transaction) (enforce : bool) :
  flat (actor_allowlist (conf (te_view e))) -> flat (actor_denylist (conf (te_view e))) ->
  validate_referenced_accounts e d t enforce = Ok tt <->
    (forall a, a ∈ context_free_actions t -> account_exists d (act_account a) = true /\ authorization a = [])
    /\ actions_known d (actions t)
    /\ (exists a, a ∈ actions t /\ authorization a <> [])
    /\ (enforce = true -> forall a p, a ∈ actions t -> p ∈ authorization a ->
        if decide (actor_allowlist (conf (te_view e)) = []) then actor p ∉ actor_denylist (conf (te_view e))
        else actor p ∈ actor_allowlist (conf (te_view e))).
Proof.
  intros Hallow Hdeny. unfold validate_referenced_accounts.
  assert (Hlist : forall l, flat l -> (forall x, x ∈ l <-> x ∈ [] \/ exists a p, a ∈ actions t /\ p ∈ authorization a /\ x = actor p) ->
    check_actor_list (conf (te_view e)) l = Ok tt <-> forall a p, a ∈ actions t -> p ∈ authorization a ->
      if decide (actor_allowlist (conf (te_view e)) = []) then actor p ∉ actor_denylist (conf (te_view e))
      else actor p ∈ actor_allowlist (conf (te_view e))).
  { intros l Hf Hin. rewrite (proj1 (check_actor_list_decides _ l Hf Hallow Hdeny)).
    case_decide; (split; [intros Hall a p Ha Hp; apply Hall, Hin; right; eauto|
      intros Hall x [Hx%elem_of_nil|(a & p & Ha & Hp & ->)]%Hin; [done|by eapply Hall]]). }
  split.
  - intros ([] & Hcf & Hr)%res_bind_ok. apply res_bind_ok in Hr as ([l one] & Hv & Hr).
    apply eos_assert_bind_ok in Hr as [Hone Hr]. apply validate_actions_ok in Hv as (Hk & Hf & Ho & Hin); [|constructor].
    split_and!; [by apply validate_context_free_ok|done|by destruct (proj1 Ho Hone)|].
    intros ->. by apply (Hlist l Hf (Hin eq_refl)).
  - intros (Hcf & Hk & Hone & Hal). apply validate_context_free_ok in Hcf as ->. cbn [mbind res_bind].
    destruct (validate_actions_total d enforce (actions t) [] false Hk) as [[l one] Hv]. rewrite Hv. cbn [mbind res_bind].
    apply validate_actions_ok in Hv as (_ & Hf & Ho & Hin); [|constructor]. rewrite (proj2 Ho) by (by right). cbn [eos_assert mbind res_bind].
    destruct enforce; [|done]. by apply (Hlist l Hf (Hin eq_refl)), Hal.
Qed.
End Limits.

(** ** A concrete transaction *)
Definition billing_conf : controller_config := demo_conf [] [].
Definition billing_clock (n : nat) : Z := 1577880000000000 + 500 * Z.of_nat n.
Definition billing_env : trx_env Z :=
  mk_trx_env initial_configuration native_cfg (mk_view (Some incomplete) false false billing_conf) billing_clock (fun _ => false).

(** Alice with limits, the totals brought up to date. *)
Definition billing_db : native_db Z :=
  set_nd_limits ((set_account_limits alice (-1) 10 10;; process_account_limit_updates) (nd_limits native_db2)).2 native_db2.
Definition billing_trx : transaction :=
  mk_transaction 1577880030 5 77 100 5 0 [] [mk_action alice 7 [mk_pl alice active_name] [1; 2; 3]] [].
Definition billing_request (t : transaction) : trx_request :=
  mk_request t zero_digest 1577880000000000 time_point_maximum 31000 false true.
Definition billing_start (t : transaction) (d : native_db Z) : trx_context Z :=
  new_context (billing_request t) 0 timer_new 0 d index_empty index_empty.
Definition billing_c0 : trx_context Z := billing_start billing_trx billing_db.
Definition billing_c1 : trx_context Z := (init billing_env 250 billing_c0).2.
Definition billing_c2 : trx_context Z := (finalize_checks billing_env billing_c1).2.

Lemma billing_init : init billing_env 250 billing_c0 = (Ok tt, billing_c1).
Proof. unfold billing_c1. assert (E : (init billing_env 250 billing_c0).1 = Ok tt) by (by vm_compute). rewrite <- E. by destruct (init _ _ _). Qed.

Lemma init_within_limits_witness :
  net_limit (cx_net billing_c1) = 800 /\ trx_net_usage (cx_net billing_c1) <= eager_net_limit (cx_net billing_c1)
  /\ objective_duration_limit (cx_cpu billing_c1) <= 5 * 1000.
Proof.
  destruct (init_within_limits billing_env 250 billing_c0 billing_c1 billing_init) as (_ & _ & _ & _ & _ & _ & H7 & _ & _ & _ & H11 & _);
    [by vm_compute|].
  split; [by vm_compute|]. split; [apply H7; [lia|by vm_compute]|apply H11; by vm_compute].
Defined.

Lemma billing_checks : finalize_checks billing_env billing_c1 = (Ok tt, billing_c2).
Proof. unfold billing_c2. assert (E : (finalize_checks billing_env billing_c1).1 = Ok tt) by (by vm_compute). rewrite <- E. by destruct (finalize_checks _ _). Qed.

Definition billing_slot : Z := set_time_point (pending_block_time (nc_auth native_cfg)).

Lemma billing_chargeable : chargeable (rl billing_c1) alice billing_slot.
Proof.
  split; [|vm_compute; intuition discriminate..].
  eexists _, _. split; [vm_compute; reflexivity|]. split; [vm_compute; reflexivity|].
  split_and!; try (split; vm_compute; intuition discriminate); intros _; by vm_compute.
Qed.


(** The exception does occur: a deferred transaction that used no network of an
    account over its share passes the checks and cannot be charged. *)
Definition overdrawn_db : native_db Z :=
  set_nd_limits (modify (fun m => set_usage (<[alice := ResourceLimits.mk_usage (mk_accumulator billing_slot (2 ^ 60) 0) accumulator_new 0]>
    (rl_usage m)) m) (nd_limits billing_db)).2 billing_db.
Definition overdrawn : trx_context Z := (init_for_deferred_trx billing_env 1577879990000000 (billing_start billing_trx overdrawn_db)).2.

Lemma finalize_can_fail :
  (init_for_deferred_trx billing_env 1577879990000000 (billing_start billing_trx overdrawn_db)).1 = Ok tt
  /\ (finalize_checks billing_env overdrawn).1 = Ok tt
  /\ (finalize billing_env overdrawn).1 = Err tx_net_usage_exceeded.
Proof. by vm_compute. Qed.

Lemma paused_time_not_billed_witness :
  exists c', (pause_billing_timer billing_env;; resume_billing_timer billing_env;;
              update_billed_cpu_time billing_env 1577880000020000) billing_c1 = (Ok 19500, c').
Proof.
  destruct (paused_time_not_billed billing_env 1577880000020000 billing_c1) as (c' & Hr & _);
    [by vm_compute|vm_compute; intuition discriminate|vm_compute; intuition discriminate|by vm_compute|].
  exists c'. rewrite Hr. by vm_compute.
Defined.

Lemma validate_referenced_accounts_spec_witness :
  validate_referenced_accounts billing_env billing_db billing_trx true = Ok tt
  /\ exists a, a ∈ actions billing_trx /\ authorization a <> [].
Proof.
  assert (Hok : validate_referenced_accounts billing_env billing_db billing_trx true = Ok tt) by (by vm_compute).
  split; [exact Hok|].
  apply (validate_referenced_accounts_spec billing_env billing_db billing_trx true ltac:(constructor) ltac:(constructor)) in Hok.
  exact (proj1 (proj2 (proj2 Hok))).
Defined.
