(* ===== verification/ContractTables.v ===== *)
(** * The tables of contracts
      ([contract_table_objects.hpp], [apply_context.hpp], [apply_context.cpp])

    A contract keeps rows in tables named by code, scope and table: values
    under a 64-bit primary key, and entries of five kinds of secondary index.
    It refers to rows by small integers, the iterators, which caches of the
    apply context translate to objects.  This file holds the objects, the
    caches, the operations of [apply_context] on primary rows ([db_*_i64]) and
    those of its template [generic_index] on secondary indices, and the
    interface [ram_ledger] through which they bill RAM.

    A pointer to an object is its id.  A pointer to an object that is gone
    cannot be followed: [deref] reports [undefined_behaviour]. *)

From stdpp Require Import functions.
From S2P Require Import Prelude Merkle Chainbase ResourceLimits Names Authority AuthorityChecker Authorization EosioContract NativeState NativeRam.
#[local] Open Scope Z_scope.

(** ** Objects *)
Record table_id_object : Type := mk_table_id {
  tid_code : Z;
  tid_scope : Z;
  tid_table : Z;
  tid_payer : Z;
  tid_count : Z }.

Record key_value_object : Type := mk_key_value {
  kv_t_id : Z;
  kv_primary_key : Z;
  kv_payer : Z;
  kv_value : list Z }.

(** A secondary key is the number its bits stand for: an array of two 128-bit
    words is the 256-bit number with the first word on top, a float its bits. *)
Record index_object : Type := mk_index_object {
  ix_t_id : Z;
  ix_primary_key : Z;
  ix_payer : Z;
  ix_secondary_key : Z }.

Inductive index_kind : Type :=
| idx64
| idx128
| idx256
| idx_double
| idx_long_double.

#[export] Instance index_kind_eq_dec : EqDecision index_kind.
Proof. solve_decision. Defined.

Definition index_kinds : list index_kind := [idx64; idx128; idx256; idx_double; idx_long_double].

(** What rows of both sorts have. *)
Class row (R : Type) : Type := {
  row_t_id : R -> Z;
  row_primary_key : R -> Z;
  row_payer : R -> Z }.
#[export] Instance key_value_row : row key_value_object := {
  row_t_id := kv_t_id; row_primary_key := kv_primary_key; row_payer := kv_payer }.
#[export] Instance index_row : row index_object := {
  row_t_id := ix_t_id; row_primary_key := ix_primary_key; row_payer := ix_payer }.

(** ** The indices *)
Definition table_conflict (a b : table_id_object) : bool :=
  (tid_code a =? tid_code b) && (tid_scope a =? tid_scope b) && (tid_table a =? tid_table b).

(** Rows with equal table, secondary and primary keys also have equal table and
    primary keys, so [by_primary] decides about both unique indices. *)
Definition row_conflict_by {R} `{row R} (a b : R) : bool :=
  (row_t_id a =? row_t_id b) && (row_primary_key a =? row_primary_key b).

(** [by_scope_primary] and [by_primary]. *)
Definition by_primary {R} `{row R} (a b : R) : bool :=
  lex_lt (row_t_id a, row_primary_key a) (row_t_id b, row_primary_key b).

(** The order of floats is the one of library softfloat. *)
Class softfloat : Type := {
  f64_lt : Z -> Z -> bool;
  f128_lt : Z -> Z -> bool;
  f64_is_nan : Z -> bool;
  f128_is_nan : Z -> bool }.

(** The order of IEEE 754: weak (the two zeros are equivalent), but for NaN. *)
Class softfloat_laws `{softfloat} : Prop := {
  f64_order : strict_weak (fun x => f64_is_nan x = false) f64_lt;
  f128_order : strict_weak (fun x => f128_is_nan x = false) f128_lt }.

(** The keys the intrinsics let through: no NaN. *)
Definition secondary_key_ok `{softfloat} (k : index_kind) (key : Z) : Prop :=
  match k with
  | idx_double => f64_is_nan key = false
  | idx_long_double => f128_is_nan key = false
  | _ => True
  end.

Definition secondary_less `{softfloat} (k : index_kind) : Z -> Z -> bool :=
  match k with
  | idx_double => f64_lt
  | idx_long_double => f128_lt
  | _ => Z.ltb
  end.

Definition by_secondary `{softfloat} (k : index_kind) (a b : index_object) : bool :=
  let less := secondary_less k in
  (ix_t_id a <? ix_t_id b)
  || ((ix_t_id a =? ix_t_id b)
      && (less (ix_secondary_key a) (ix_secondary_key b)
          || (negb (less (ix_secondary_key b) (ix_secondary_key a)) && (ix_primary_key a <? ix_primary_key b)))).

(** ** Billable sizes *)
Definition billable_table_id_object : Z := billable_size_v (44 + overhead_per_row_per_index_ram_bytes * 2).
Definition billable_key_value_object : Z := billable_size_v (32 + 8 + 4 + overhead_per_row_per_index_ram_bytes * 2).
Definition billable_index_object (k : index_kind) : Z :=
  billable_size_v
    (24 + match k with idx64 => 8 | idx128 => 16 | idx256 => 32 | idx_double => 8 | idx_long_double => 16 end
     + overhead_per_row_per_index_ram_bytes * 3).

(** ** Positions of an ordered index

    An iterator of the container is an entry, or [None] for [end()]. *)
Section Position.
Context {R : Type} (before : R -> R -> bool).
Implicit Types gi : generic_index R.

Definition entries gi : list (Z * R) := map_to_list (_indices gi).

(** The first entry that satisfies [p], and the last. *)
Definition first_entry (p : R -> bool) gi : option (Z * R) :=
  least (fun x y => before x.2 y.2) (filter (fun e => p e.2 = true) (entries gi)).
Definition last_entry (p : R -> bool) gi : option (Z * R) :=
  least (fun x y => before y.2 x.2) (filter (fun e => p e.2 = true) (entries gi)).

Definition index_begin gi : option (Z * R) := first_entry (fun _ => true) gi.
(** [++itr], and [--itr] when [itr] is not [begin()]. *)
Definition following gi (r : R) : option (Z * R) := first_entry (before r) gi.
Definition preceding gi (itr : option (Z * R)) : option (Z * R) :=
  match itr with
  | None => last_entry (fun _ => true) gi
  | Some (_, r) => last_entry (fun x => before x r) gi
  end.
End Position.

(** ** [iterator_cache] *)
Record iterator_cache : Type := mk_cache {
  _table_cache : gmap Z (Z * Z);
  _end_iterator_to_table : list Z;
  _iterator_to_object : list (option Z);
  _object_to_iterator : gmap Z Z }.

Definition cache_empty : iterator_cache := mk_cache ∅ [] [] ∅.

Definition INT_MIN : Z := - 2 ^ 31.

(** The negation of the least [int] is undefined. *)
Definition end_iterator_to_index (ei : Z) : res Z :=
  if ei =? INT_MIN then Err undefined_behaviour else Ok (- ei - 2).
Definition index_to_end_iterator (indx : Z) : Z := - (indx + 2).

Definition cache_table (t : Z) : M iterator_cache Z := fun c =>
  match _table_cache c !! t with
  | Some itr => (Ok itr.2, c)
  | None =>
      let ei := index_to_end_iterator (Z.of_nat (length (_end_iterator_to_table c))) in
      (Ok ei, mk_cache (<[t := (t, ei)]> (_table_cache c)) (_end_iterator_to_table c ++ [t])
                       (_iterator_to_object c) (_object_to_iterator c))
  end.

Definition get_table (c : iterator_cache) (i : Z) : res Z :=
  match _table_cache c !! i with Some itr => Ok itr.1 | None => Err table_not_in_cache end.

Definition get_end_iterator_by_table_id (c : iterator_cache) (i : Z) : res Z :=
  match _table_cache c !! i with Some itr => Ok itr.2 | None => Err table_not_in_cache end.

Definition find_table_by_end_iterator (c : iterator_cache) (ei : Z) : res (option Z) :=
  eos_assert (ei <? -1) invalid_table_iterator;;
  indx ← end_iterator_to_index ei;
  if indx >=? Z.of_nat (length (_end_iterator_to_table c)) then Ok None
  else Ok (_end_iterator_to_table c !! Z.to_nat indx).

Definition cache_get (c : iterator_cache) (iterator : Z) : res Z :=
  eos_assert (negb (iterator =? -1)) invalid_table_iterator;;
  eos_assert (iterator >=? 0) table_operation_not_permitted;;
  eos_assert (iterator <? Z.of_nat (length (_iterator_to_object c))) invalid_table_iterator;;
  match _iterator_to_object c !! Z.to_nat iterator with
  | Some (Some result) => Ok result
  | _ => Err table_operation_not_permitted
  end.

Definition cache_remove (iterator : Z) : M iterator_cache unit :=
  massert (negb (iterator =? -1)) invalid_table_iterator;;
  massert (iterator >=? 0) table_operation_not_permitted;;
  c ← get;
  massert (iterator <? Z.of_nat (length (_iterator_to_object c))) invalid_table_iterator;;
  match _iterator_to_object c !! Z.to_nat iterator with
  | Some (Some obj_ptr) =>
      modify (fun c => mk_cache (_table_cache c) (_end_iterator_to_table c)
        (<[Z.to_nat iterator := None]> (_iterator_to_object c)) (delete obj_ptr (_object_to_iterator c)))
  | _ => mret tt
  end.

Definition cache_add (obj : Z) : M iterator_cache Z := fun c =>
  match _object_to_iterator c !! obj with
  | Some itr => (Ok itr, c)
  | None =>
      let itr := Z.of_nat (length (_iterator_to_object c)) in
      (Ok itr, mk_cache (_table_cache c) (_end_iterator_to_table c)
                        (_iterator_to_object c ++ [Some obj]) (<[obj := itr]> (_object_to_iterator c)))
  end.

(** ** The ledger of RAM

    What the tables need of [apply_context::add_ram_usage]: billed RAM is
    added to the usage of the account.  [add_ram_usage] on the native state
    provides it ([native_ledger]). *)
Class ram_ledger (S : Type) : Type := {
  ledger_add : Z -> Z -> M S unit;
  ledger_ram : S -> Z -> Z;
  ledger_ok : S -> Prop }.

Class ram_ledger_laws (S : Type) `{ram_ledger S} : Prop := {
  ledger_add_ok account delta s s' : ledger_ok s -> is_s64 delta -> ledger_add account delta s = (Ok tt, s') ->
    ledger_ok s' /\ forall a, ledger_ram s' a = ledger_ram s a + if a =? account then delta else 0;
  ledger_add_errors account delta s e s' : ledger_add account delta s = (Err e, s') ->
    e <> undefined_behaviour /\ e <> table_not_in_cache /\ e <> aborted }.

#[export] Instance native_ledger {K} : ram_ledger (native_db K) := {
  ledger_add := add_ram_usage;
  ledger_ram d := ram_of (nd_limits d);
  ledger_ok d := usage_widths (nd_limits d) }.

(** ** The state of the operations *)
Section Tables.
Context {S : Type} `{ram_ledger S} `{softfloat}.

Record table_db : Type := mk_table_db {
  td_ledger : S;
  td_tables : generic_index table_id_object;
  td_keyval : generic_index key_value_object;
  td_index : index_kind -> generic_index index_object;
  keyval_cache : iterator_cache;
  itr_cache : index_kind -> iterator_cache }.

Abbreviation TM := (M table_db).

Definition set_td_ledger l (d : table_db) : table_db :=
  mk_table_db l (td_tables d) (td_keyval d) (td_index d) (keyval_cache d) (itr_cache d).
Definition set_td_tables t (d : table_db) : table_db :=
  mk_table_db (td_ledger d) t (td_keyval d) (td_index d) (keyval_cache d) (itr_cache d).
Definition set_td_keyval r (d : table_db) : table_db :=
  mk_table_db (td_ledger d) (td_tables d) r (td_index d) (keyval_cache d) (itr_cache d).
Definition set_td_index k r (d : table_db) : table_db :=
  mk_table_db (td_ledger d) (td_tables d) (td_keyval d) (<[k := r]> (td_index d)) (keyval_cache d) (itr_cache d).
Definition set_keyval_cache c (d : table_db) : table_db :=
  mk_table_db (td_ledger d) (td_tables d) (td_keyval d) (td_index d) c (itr_cache d).
Definition set_itr_cache k c (d : table_db) : table_db :=
  mk_table_db (td_ledger d) (td_tables d) (td_keyval d) (td_index d) (keyval_cache d) (<[k := c]> (itr_cache d)).

Definition on_ledger {A} : M S A -> TM A := focus td_ledger set_td_ledger.
Definition on_tables {A} : M (generic_index table_id_object) A -> TM A := focus td_tables set_td_tables.

(** One index together with its iterator cache: the primary rows, or one of
    the members [idx64] to [idx_long_double]. *)
Record slot (R : Type) : Type := mk_slot {
  slot_rows : table_db -> generic_index R;
  set_slot_rows : generic_index R -> table_db -> table_db;
  slot_cache : table_db -> iterator_cache;
  set_slot_cache : iterator_cache -> table_db -> table_db }.
Arguments mk_slot {R} _ _ _ _.
Arguments slot_rows {R} _ _.
Arguments set_slot_rows {R} _ _ _.
Arguments slot_cache {R} _ _.
Arguments set_slot_cache {R} _ _ _.

Definition keyval : slot key_value_object :=
  mk_slot td_keyval set_td_keyval keyval_cache set_keyval_cache.
Definition idx (k : index_kind) : slot index_object :=
  mk_slot (fun d => td_index d k) (set_td_index k) (fun d => itr_cache d k) (set_itr_cache k).

Definition on_rows {R A} (s : slot R) : M (generic_index R) A -> TM A := focus (slot_rows s) (set_slot_rows s).
Definition on_cache {R A} (s : slot R) : M iterator_cache A -> TM A := focus (slot_cache s) (set_slot_cache s).

(** Following a pointer. *)
Definition deref {B} (gi : generic_index B) (ptr : Z) : res B :=
  match _indices gi !! ptr with Some b => Ok b | None => Err undefined_behaviour end.

Definition deref_table (ptr : Z) : TM table_id_object := fun d => (deref (td_tables d) ptr, d).
Definition deref_row {R} (s : slot R) (ptr : Z) : TM R := fun d => (deref (slot_rows s d) ptr, d).

(** [itr_cache.get]: the pointer and the row behind it. *)
Definition get_row {R} (s : slot R) (iterator : Z) : TM (Z * R) :=
  d ← get;
  ptr ← lift (cache_get (slot_cache s d) iterator);
  obj ← deref_row s ptr;
  mret (ptr, obj).

(** ** Tables *)
Definition update_db_usage (payer delta : Z) : TM unit := on_ledger (ledger_add payer delta).

Definition by_code_scope_table (code scope table : Z) (t : table_id_object) : bool :=
  (tid_code t =? code) && (tid_scope t =? scope) && (tid_table t =? table).

Definition find_table (code scope table : Z) (d : table_db) : option (Z * table_id_object) :=
  find_by (by_code_scope_table code scope table) (td_tables d).

Definition find_or_create_table (code scope table payer : Z) : TM Z :=
  d ← get;
  match find_table code scope table d with
  | Some existing_tid => mret existing_tid.1
  | None =>
      update_db_usage payer billable_table_id_object;;
      on_tables (emplace table_conflict (mk_table_id code scope table payer 0))
  end.

Definition remove_table (tid : Z) : TM unit :=
  t ← deref_table tid;
  update_db_usage (tid_payer t) (- billable_table_id_object);;
  on_tables (index_remove tid).

Definition set_count (count : Z) (t : table_id_object) : table_id_object :=
  mk_table_id (tid_code t) (tid_scope t) (tid_table t) (tid_payer t) (u32 count).
Definition increment_count (tid : Z) : TM unit :=
  on_tables (index_modify table_conflict tid (fun t => set_count (tid_count t + 1) t)).
Definition decrement_count (tid : Z) : TM unit :=
  on_tables (index_modify table_conflict tid (fun t => set_count (tid_count t - 1) t)).

(** ** Steps shared by the operations on both sorts of rows *)

(** The table behind a cached row; only the code that owns it may change it. *)
Definition owned_table {R} `{row R} (s : slot R) (receiver : Z) (obj : R) : TM Z :=
  d ← get;
  table_obj ← lift (get_table (slot_cache s d) (row_t_id obj));
  t ← deref_table table_obj;
  massert (tid_code t =? receiver) table_access_violation;;
  mret table_obj.

(** The new row is counted and billed, and gets an iterator. *)
Definition count_row {R} (s : slot R) (tab obj payer billable_size : Z) : TM Z :=
  increment_count tab;;
  update_db_usage payer billable_size;;
  on_cache s (cache_table tab);;
  on_cache s (cache_add obj).

(** The row goes, and with its last row the table. *)
Definition drop_row {R} (s : slot R) (iterator ptr table_obj : Z) : TM unit :=
  decrement_count table_obj;;
  on_rows s (index_remove ptr);;
  t ← deref_table table_obj;
  (if tid_count t =? 0 then remove_table table_obj else mret tt);;
  on_cache s (cache_remove iterator).

(** A search within one table: -1 without the table, its end iterator when
    nothing of the table is found. *)
Definition search {R} `{row R} (s : slot R) (code scope table : Z)
    (position : Z -> generic_index R -> option (Z * R)) : TM (Z * option R) :=
  d ← get;
  match find_table code scope table d with
  | None => mret (-1, None)
  | Some tab =>
      table_end_itr ← on_cache s (cache_table tab.1);
      d ← get;
      match position tab.1 (slot_rows s d) with
      | None => mret (table_end_itr, None)
      | Some (ptr, obj) =>
          if negb (row_t_id obj =? tab.1) then mret (table_end_itr, None)
          else itr ← on_cache s (cache_add ptr); mret (itr, Some obj)
      end
  end.

(** The iterator of the end of a table. *)
Definition table_end {R} (s : slot R) (code scope table : Z) : TM Z :=
  d ← get;
  match find_table code scope table d with
  | None => mret (-1)
  | Some tab => on_cache s (cache_table tab.1)
  end.

Definition next_row {R} `{row R} (s : slot R) (before : R -> R -> bool) (iterator : Z) : TM (Z * option Z) :=
  if iterator <? -1 then mret (-1, None)
  else
    po ← get_row s iterator;
    let obj := po.2 in
    d ← get;
    let end_of_table :=
      ei ← lift (get_end_iterator_by_table_id (slot_cache s d) (row_t_id obj)); mret (ei, None) in
    match following before (slot_rows s d) obj with
    | None => end_of_table
    | Some (ptr, r) =>
        if negb (row_t_id r =? row_t_id obj) then end_of_table
        else itr ← on_cache s (cache_add ptr); mret (itr, Some (row_primary_key r))
    end.

(** The step before a position, within table [t]. *)
Definition step_back {R} `{row R} (s : slot R) (before : R -> R -> bool) (t : Z) (itr : option (Z * R)) : TM (Z * option Z) :=
  d ← get;
  if bool_decide (fst <$> itr = fst <$> index_begin before (slot_rows s d)) then mret (-1, None)
  else
    match preceding before (slot_rows s d) itr with
    | None => throw undefined_behaviour
    | Some (ptr, r) =>
        if negb (row_t_id r =? t) then mret (-1, None)
        else itr ← on_cache s (cache_add ptr); mret (itr, Some (row_primary_key r))
    end.

(** An empty index has [begin() == end()], and then [upper_bound] is it, too. *)
Definition previous_row {R} `{row R} (s : slot R) (before : R -> R -> bool) (iterator : Z) : TM (Z * option Z) :=
  d ← get;
  if iterator <? -1 then
    tab ← lift (find_table_by_end_iterator (slot_cache s d) iterator);
    match tab with
    | None => throw invalid_table_iterator
    | Some tab =>
        deref_table tab;;
        step_back s before tab (first_entry before (fun r => tab <? row_t_id r) (slot_rows s d))
    end
  else
    po ← get_row s iterator;
    step_back s before (row_t_id po.2) (Some po).

(** ** Primary rows: [db_*_i64] *)
Definition db_store_i64 (code scope table payer id : Z) (buffer : list Z) : TM Z :=
  tab ← find_or_create_table code scope table payer;
  massert (negb (payer =? 0)) invalid_table_payer;;
  obj ← on_rows keyval (emplace row_conflict_by (mk_key_value tab id payer buffer));
  count_row keyval tab obj payer (Z.of_nat (length buffer) + billable_key_value_object).

Definition db_update_i64 (receiver iterator payer : Z) (buffer : list Z) : TM unit :=
  po ← get_row keyval iterator;
  let obj := po.2 in
  owned_table keyval receiver obj;;
  let overhead := billable_key_value_object in
  let old_size := Z.of_nat (length (kv_value obj)) + overhead in
  let new_size := Z.of_nat (length buffer) + overhead in
  let payer := if payer =? 0 then kv_payer obj else payer in
  (if negb (kv_payer obj =? payer) then
     update_db_usage (kv_payer obj) (- old_size);;
     update_db_usage payer new_size
   else if negb (old_size =? new_size) then update_db_usage (kv_payer obj) (new_size - old_size)
   else mret tt);;
  on_rows keyval (index_modify row_conflict_by po.1
    (fun o => mk_key_value (kv_t_id o) (kv_primary_key o) payer buffer)).

Definition db_remove_i64 (receiver iterator : Z) : TM unit :=
  po ← get_row keyval iterator;
  let obj := po.2 in
  table_obj ← owned_table keyval receiver obj;
  update_db_usage (kv_payer obj) (- (Z.of_nat (length (kv_value obj)) + billable_key_value_object));;
  drop_row keyval iterator po.1 table_obj.

(** The result and what is written to the buffer. *)
Definition db_get_i64 (iterator buffer_size : Z) : TM (Z * list Z) :=
  po ← get_row keyval iterator;
  let s := Z.of_nat (length (kv_value po.2)) in
  if buffer_size =? 0 then mret (s, [])
  else
    let copy_size := Z.min buffer_size s in
    mret (copy_size, take (Z.to_nat copy_size) (kv_value po.2)).

Definition db_next_i64 (iterator : Z) : TM (Z * option Z) := next_row keyval by_primary iterator.
Definition db_previous_i64 (iterator : Z) : TM (Z * option Z) := previous_row keyval by_primary iterator.

(** Where [find], [lower_bound] and [upper_bound] of a table and a primary key
    arrive. *)
Definition find_key {R} `{row R} (id t : Z) (gi : generic_index R) : option (Z * R) :=
  find_by (fun r => (row_t_id r =? t) && (row_primary_key r =? id)) gi.
Definition lower_bound_key {R} `{row R} (id t : Z) (gi : generic_index R) : option (Z * R) :=
  first_entry by_primary (fun r => negb (lex_lt (row_t_id r, row_primary_key r) (t, id))) gi.
Definition upper_bound_key {R} `{row R} (id t : Z) (gi : generic_index R) : option (Z * R) :=
  first_entry by_primary (fun r => lex_lt (t, id) (row_t_id r, row_primary_key r)) gi.

Definition db_find_i64 (code scope table id : Z) : TM Z :=
  fst <$> search keyval code scope table (find_key id).
Definition db_lowerbound_i64 (code scope table id : Z) : TM Z :=
  fst <$> search keyval code scope table (lower_bound_key id).
Definition db_upperbound_i64 (code scope table id : Z) : TM Z :=
  fst <$> search keyval code scope table (upper_bound_key id).
Definition db_end_i64 (code scope table : Z) : TM Z := table_end keyval code scope table.

(** ** Secondary indices: [generic_index] *)
Definition idx_store (k : index_kind) (receiver scope table payer id value : Z) : TM Z :=
  massert (negb (payer =? 0)) invalid_table_payer;;
  tab ← find_or_create_table receiver scope table payer;
  obj ← on_rows (idx k) (emplace row_conflict_by (mk_index_object tab id payer value));
  count_row (idx k) tab obj payer (billable_index_object k).

Definition idx_remove (k : index_kind) (receiver iterator : Z) : TM unit :=
  po ← get_row (idx k) iterator;
  let obj := po.2 in
  update_db_usage (ix_payer obj) (- billable_index_object k);;
  table_obj ← owned_table (idx k) receiver obj;
  drop_row (idx k) iterator po.1 table_obj.

Definition idx_update (k : index_kind) (receiver iterator payer secondary : Z) : TM unit :=
  po ← get_row (idx k) iterator;
  let obj := po.2 in
  owned_table (idx k) receiver obj;;
  let payer := if payer =? 0 then ix_payer obj else payer in
  let billing_size := billable_index_object k in
  (if negb (ix_payer obj =? payer) then
     update_db_usage (ix_payer obj) (- billing_size);;
     update_db_usage payer billing_size
   else mret tt);;
  on_rows (idx k) (index_modify row_conflict_by po.1
    (fun o => mk_index_object (ix_t_id o) (ix_primary_key o) payer secondary)).

(** Where searches for a secondary key arrive; [find] stops at the first entry
    with an equivalent key. *)
Definition same_secondary (k : index_kind) (t secondary : Z) (r : index_object) : bool :=
  (ix_t_id r =? t) && negb (secondary_less k (ix_secondary_key r) secondary)
  && negb (secondary_less k secondary (ix_secondary_key r)).
Definition find_secondary_key (k : index_kind) (secondary t : Z) (gi : generic_index index_object) : option (Z * index_object) :=
  first_entry (by_secondary k) (same_secondary k t secondary) gi.
Definition lower_bound_secondary_key (k : index_kind) (secondary t : Z) (gi : generic_index index_object) : option (Z * index_object) :=
  first_entry (by_secondary k)
    (fun r => (t <? ix_t_id r) || ((t =? ix_t_id r) && negb (secondary_less k (ix_secondary_key r) secondary))) gi.
Definition upper_bound_secondary_key (k : index_kind) (secondary t : Z) (gi : generic_index index_object) : option (Z * index_object) :=
  first_entry (by_secondary k)
    (fun r => (t <? ix_t_id r) || ((t =? ix_t_id r) && secondary_less k secondary (ix_secondary_key r))) gi.

(** The iterator, and what is written to [primary] and [secondary]. *)
Definition find_secondary (k : index_kind) (code scope table secondary : Z) : TM (Z * option Z) :=
  r ← search (idx k) code scope table (find_secondary_key k secondary);
  mret (r.1, ix_primary_key <$> r.2).
Definition lowerbound_secondary (k : index_kind) (code scope table secondary : Z) : TM (Z * option (Z * Z)) :=
  r ← search (idx k) code scope table (lower_bound_secondary_key k secondary);
  mret (r.1, (fun o => (ix_primary_key o, ix_secondary_key o)) <$> r.2).
Definition upperbound_secondary (k : index_kind) (code scope table secondary : Z) : TM (Z * option (Z * Z)) :=
  r ← search (idx k) code scope table (upper_bound_secondary_key k secondary);
  mret (r.1, (fun o => (ix_primary_key o, ix_secondary_key o)) <$> r.2).
Definition end_secondary (k : index_kind) (code scope table : Z) : TM Z := table_end (idx k) code scope table.
Definition next_secondary (k : index_kind) (iterator : Z) : TM (Z * option Z) := next_row (idx k) (by_secondary k) iterator.
Definition previous_secondary (k : index_kind) (iterator : Z) : TM (Z * option Z) :=
  previous_row (idx k) (by_secondary k) iterator.

Definition find_primary (k : index_kind) (code scope table primary : Z) : TM (Z * option Z) :=
  r ← search (idx k) code scope table (find_key primary);
  mret (r.1, ix_secondary_key <$> r.2).
Definition lowerbound_primary (k : index_kind) (code scope table primary : Z) : TM Z :=
  fst <$> search (idx k) code scope table (lower_bound_key primary).
Definition upperbound_primary (k : index_kind) (code scope table primary : Z) : TM Z :=
  fst <$> search (idx k) code scope table (upper_bound_key primary).
Definition next_primary (k : index_kind) (iterator : Z) : TM (Z * option Z) := next_row (idx k) by_primary iterator.
Definition previous_primary (k : index_kind) (iterator : Z) : TM (Z * option Z) := previous_row (idx k) by_primary iterator.

(** The primary and the secondary key. *)
Definition idx_get (k : index_kind) (iterator : Z) : TM (Z * Z) :=
  po ← get_row (idx k) iterator;
  mret (ix_primary_key po.2, ix_secondary_key po.2).
End Tables.

Arguments table_db S : clear implicits.
Arguments slot S R : clear implicits.
Arguments mk_slot {S R} _ _ _ _.
Arguments slot_rows {S R} _ _.
Arguments set_slot_rows {S R} _ _ _.
Arguments slot_cache {S R} _ _.
Arguments set_slot_cache {S R} _ _ _.
