(* ===== verification/TableInvariant.v ===== *)
(** * What the operations on contract tables keep true
      ([apply_context.hpp], [apply_context.cpp])

    The invariant [tables_ok]: every row belongs to a table that exists, every
    table counts its rows in all six indices and has one, and the iterator
    caches mirror the rows.  Every operation keeps it; no operation throws
    [table_not_in_cache]; the only way to a dangling pointer is the step back
    from the end of a table that is gone; and the RAM billed is the price of
    what is stored. *)

From Stdlib Require Import ZifyBool.
From stdpp Require Import functions.
From S2P Require Import Prelude Merkle Chainbase ResourceLimits Names Authority AuthorityChecker Authorization EosioContract NativeState NativeRam ContractTables.
#[local] Open Scope Z_scope.

(** ** Operations as data *)
Inductive table_op : Type :=
| op_store (scope table payer id : Z) (buffer : list Z)
| op_update (iterator payer : Z) (buffer : list Z)
| op_remove (iterator : Z)
| op_get (iterator buffer_size : Z)
| op_next (iterator : Z)
| op_previous (iterator : Z)
| op_find (code scope table id : Z)
| op_lowerbound (code scope table id : Z)
| op_upperbound (code scope table id : Z)
| op_end (code scope table : Z)
| op_idx_store (k : index_kind) (scope table payer id value : Z)
| op_idx_update (k : index_kind) (iterator payer secondary : Z)
| op_idx_remove (k : index_kind) (iterator : Z)
| op_idx_get (k : index_kind) (iterator : Z)
| op_find_secondary (k : index_kind) (code scope table secondary : Z)
| op_lowerbound_secondary (k : index_kind) (code scope table secondary : Z)
| op_upperbound_secondary (k : index_kind) (code scope table secondary : Z)
| op_end_secondary (k : index_kind) (code scope table : Z)
| op_next_secondary (k : index_kind) (iterator : Z)
| op_previous_secondary (k : index_kind) (iterator : Z)
| op_find_primary (k : index_kind) (code scope table primary : Z)
| op_lowerbound_primary (k : index_kind) (code scope table primary : Z)
| op_upperbound_primary (k : index_kind) (code scope table primary : Z)
| op_next_primary (k : index_kind) (iterator : Z)
| op_previous_primary (k : index_kind) (iterator : Z).

Section Run.
Context {S : Type} `{ram_ledger S} `{softfloat}.

(** The iterator or size that is returned, and what is written through the
    pointers of the call. *)
Definition run_table_op (receiver : Z) (op : table_op) : M (table_db S) (Z * list Z) :=
  let done m := m;; mret (0, []) in
  let itr m := r ← m; mret (r, []) in
  let keyed m := r ← m; mret (r.1, option_list r.2) in
  let keyed2 m := r ← m; mret (r.1, match r.2 with Some ps => [ps.1; ps.2] | None => [] end) in
  match op with
  | op_store scope table payer id buffer => itr (db_store_i64 receiver scope table payer id buffer)
  | op_update iterator payer buffer => done (db_update_i64 receiver iterator payer buffer)
  | op_remove iterator => done (db_remove_i64 receiver iterator)
  | op_get iterator buffer_size => db_get_i64 iterator buffer_size
  | op_next iterator => keyed (db_next_i64 iterator)
  | op_previous iterator => keyed (db_previous_i64 iterator)
  | op_find code scope table id => itr (db_find_i64 code scope table id)
  | op_lowerbound code scope table id => itr (db_lowerbound_i64 code scope table id)
  | op_upperbound code scope table id => itr (db_upperbound_i64 code scope table id)
  | op_end code scope table => itr (db_end_i64 code scope table)
  | op_idx_store k scope table payer id value => itr (idx_store k receiver scope table payer id value)
  | op_idx_update k iterator payer secondary => done (idx_update k receiver iterator payer secondary)
  | op_idx_remove k iterator => done (idx_remove k receiver iterator)
  | op_idx_get k iterator => r ← idx_get k iterator; mret (0, [r.1; r.2])
  | op_find_secondary k code scope table secondary => keyed (find_secondary k code scope table secondary)
  | op_lowerbound_secondary k code scope table secondary => keyed2 (lowerbound_secondary k code scope table secondary)
  | op_upperbound_secondary k code scope table secondary => keyed2 (upperbound_secondary k code scope table secondary)
  | op_end_secondary k code scope table => itr (end_secondary k code scope table)
  | op_next_secondary k iterator => keyed (next_secondary k iterator)
  | op_previous_secondary k iterator => keyed (previous_secondary k iterator)
  | op_find_primary k code scope table primary => keyed (find_primary k code scope table primary)
  | op_lowerbound_primary k code scope table primary => itr (lowerbound_primary k code scope table primary)
  | op_upperbound_primary k code scope table primary => itr (upperbound_primary k code scope table primary)
  | op_next_primary k iterator => keyed (next_primary k iterator)
  | op_previous_primary k iterator => keyed (previous_primary k iterator)
  end.
End Run.

(** ** The invariant of a cache *)
Record cache_ok (rows : gmap Z Z) (c : iterator_cache) : Prop := {
  ck_table t e : _table_cache c !! t = Some e ->
    e.1 = t /\ exists i : nat, e.2 = index_to_end_iterator (Z.of_nat i) /\ _end_iterator_to_table c !! i = Some t;
  ck_end (i : nat) t : _end_iterator_to_table c !! i = Some t ->
    _table_cache c !! t = Some (t, index_to_end_iterator (Z.of_nat i));
  ck_object (i : nat) o : _iterator_to_object c !! i = Some (Some o) ->
    _object_to_iterator c !! o = Some (Z.of_nat i) /\ exists t, rows !! o = Some t /\ is_Some (_table_cache c !! t);
  ck_iterator o z : _object_to_iterator c !! o = Some z ->
    exists i : nat, z = Z.of_nat i /\ _iterator_to_object c !! i = Some (Some o) }.

Lemma cache_empty_ok rows : cache_ok rows cache_empty.
Proof. split; cbn; intros *; rewrite ?lookup_nil, ?lookup_empty; done. Qed.

Lemma cache_table_spec rows t c : cache_ok rows c ->
  exists ei c', cache_table t c = (Ok ei, c') /\ cache_ok rows c' /\ _table_cache c' !! t = Some (t, ei)
    /\ (forall o i, _object_to_iterator c !! o = Some i -> _object_to_iterator c' !! o = Some i)
    /\ (forall u, is_Some (_table_cache c !! u) -> is_Some (_table_cache c' !! u)).
Proof.
  intros Hok. unfold cache_table. destruct (_table_cache c !! t) as [e|] eqn:E.
  { exists e.2, c. pose proof (ck_table _ _ Hok _ _ E) as (He & _). split_and!; try done. rewrite E. by destruct e; cbn in *; subst. }
  eexists _, _. split_and!; [done| |by cbn; rewrite lookup_insert_eq|done|].
  2:{ cbn. intros u Hu. rewrite lookup_insert. case_decide; [eauto|done]. }
  destruct Hok as [Ht He Ho Hi]. split; cbn.
  - intros u e. rewrite lookup_insert. case_decide as Hut.
    + intros [= <-]. subst u. split; [done|]. eexists. split; [done|]. by rewrite lookup_app_r, Nat.sub_diag.
    + intros Hu. destruct (Ht _ _ Hu) as (? & i & ? & ?). split; [done|]. exists i. split; [done|]. by apply lookup_app_l_Some.
  - intros i u. rewrite lookup_app. destruct (_end_iterator_to_table c !! i) as [v|] eqn:Ev.
    + intros [= ->]. rewrite lookup_insert_ne; [by apply He|]. intros ->. apply He in Ev. congruence.
    + intros [Hl Hs]%list_lookup_singleton_Some. subst u. rewrite lookup_insert_eq.
      apply lookup_ge_None in Ev. do 3 f_equal. lia.
  - intros i o Hio. destruct (Ho _ _ Hio) as (? & u & ? & ?). split; [done|]. exists u. split; [done|].
    rewrite lookup_insert. case_decide; [eauto|done].
  - apply Hi.
Qed.

Lemma cache_get_spec rows c iterator o : cache_ok rows c -> cache_get c iterator = Ok o ->
  0 <= iterator /\ _iterator_to_object c !! Z.to_nat iterator = Some (Some o)
  /\ exists t e, rows !! o = Some t /\ _table_cache c !! t = Some (t, e).
Proof.
  unfold cache_get. intros Hok Hg. minv. btests.
  destruct (_iterator_to_object c !! Z.to_nat iterator) as [[p|]|] eqn:E; simplify_eq.
  destruct (ck_object _ _ Hok _ _ E) as (_ & t & Ht & [e He]). pose proof (ck_table _ _ Hok _ _ He) as (Hee & _).
  split_and!; [lia|done|]. exists t, e.2. split; [done|]. destruct e; cbn in *; by subst.
Qed.

Lemma cache_get_error c iterator e : cache_get c iterator = Err e ->
  e = invalid_table_iterator \/ e = table_operation_not_permitted.
Proof.
  unfold cache_get, eos_assert. repeat case_match; cbn; naive_solver.
Qed.

Lemma cache_add_spec rows o t c : cache_ok rows c -> rows !! o = Some t -> is_Some (_table_cache c !! t) ->
  exists i c', cache_add o c = (Ok (Z.of_nat i), c') /\ cache_ok rows c'
    /\ _iterator_to_object c' !! i = Some (Some o) /\ _table_cache c' = _table_cache c.
Proof.
  intros Hok Hr Hc. unfold cache_add. destruct (_object_to_iterator c !! o) as [z|] eqn:E.
  { destruct (ck_iterator _ _ Hok _ _ E) as (i & -> & Hi). by exists i, c. }
  eexists _, _. split_and!; [done| |by cbn; rewrite lookup_app_r, Nat.sub_diag|done].
  destruct Hok as [Ht He Ho Hi]. split; cbn; [done|done| |].
  - intros i p. rewrite lookup_app. destruct (_iterator_to_object c !! i) as [v|] eqn:Ev.
    + intros [= ->]. destruct (Ho _ _ Ev) as (Hp & Hx). split; [|done]. rewrite lookup_insert_ne; [done|]. congruence.
    + intros [Hl Hs]%list_lookup_singleton_Some. injection Hs as <-. rewrite lookup_insert_eq.
      apply lookup_ge_None in Ev. split; [f_equal; lia|]. eauto.
  - intros p z. rewrite lookup_insert. case_decide as Hpo.
    + intros [= <-]. subst p. eexists. split; [done|]. by rewrite lookup_app_r, Nat.sub_diag.
    + intros Hp. destruct (Hi _ _ Hp) as (i & ? & ?). exists i. split; [done|]. by apply lookup_app_l_Some.
Qed.

(** Forgetting the iterator of a removed row. *)
Lemma cache_remove_spec rows c iterator o : cache_ok rows c -> cache_get c iterator = Ok o ->
  exists c', cache_remove iterator c = (Ok tt, c') /\ cache_ok (delete o rows) c'.
Proof.
  intros Hok Hg. pose proof (cache_get_spec _ _ _ _ Hok Hg) as (H0 & Hi & _).
  unfold cache_get in Hg. minv. unfold cache_remove. mrun.
  repeat match goal with Hb : ?b = true |- context [?b] => rewrite Hb; cbn end. rewrite Hi.
  eexists. split; [done|]. destruct Hok as [Ht He Ho Hit].
  assert (Hl : (Z.to_nat iterator < length (_iterator_to_object c))%nat) by (by eapply lookup_lt_Some).
  pose proof (Ho _ _ Hi) as (Hoz & _). split; cbn; [done|done| |].
  - intros i p. destruct (decide (i = Z.to_nat iterator)) as [->|Hne].
    + by rewrite list_lookup_insert_eq.
    + rewrite list_lookup_insert_ne by done. intros Hp. destruct (Ho _ _ Hp) as (Hpz & t & Hr & Hs).
      assert (p <> o) by (intros ->; rewrite Hoz in Hpz; injection Hpz; lia).
      rewrite !lookup_delete_ne by done. eauto.
  - intros p z Hp. apply lookup_delete_Some in Hp as [Hpo Hp]. destruct (Hit _ _ Hp) as (i & -> & Hpi).
    exists i. split; [done|]. rewrite list_lookup_insert_ne; [done|]. intros <-. congruence.
Qed.

(** The caches of the rows survive the arrival of a row. *)
Lemma cache_keeps_new_row rows c o t : cache_ok rows c -> rows !! o = None -> cache_ok (<[o := t]> rows) c.
Proof.
  intros [Ht He Ho Hi] Hn. split; try done. intros i p Hp. destruct (Ho _ _ Hp) as (? & u & ? & ?). split; [done|].
  exists u. split; [|done]. rewrite lookup_insert_ne; [done|congruence].
Qed.

(** ** All six indices at once

    [None] names the primary rows and [Some k] a secondary index. *)
Abbreviation slot_name := (option index_kind).
Definition slot_names : list slot_name := None :: (Some <$> index_kinds).

Lemma slot_names_all (n : slot_name) : n ∈ slot_names.
Proof. destruct n as [[]|]; repeat (left || right; done || constructor). Qed.
Lemma slot_names_nodup : NoDup slot_names.
Proof. by apply (bool_decide_unpack _). Qed.

Definition sum_slots (f : slot_name -> Z) : Z := foldr (fun n acc => f n + acc) 0 slot_names.

Lemma sum_change (l : list slot_name) (f g : slot_name -> Z) n : n ∈ l -> NoDup l ->
  (forall m, m <> n -> g m = f m) ->
  foldr (fun n acc => g n + acc) 0 l = foldr (fun n acc => f n + acc) 0 l - f n + g n.
Proof.
  intros Hin Hnd Hm. induction Hnd as [|x l Hx Hnd IH]; [by apply elem_of_nil in Hin|]. cbn.
  destruct (decide (x = n)) as [->|Hne].
  - enough (foldr (fun n acc => g n + acc) 0 l = foldr (fun n acc => f n + acc) 0 l) by lia.
    clear IH Hin Hnd. induction l as [|y l IH]; [done|]. cbn. apply not_elem_of_cons in Hx as [? ?].
    rewrite IH, Hm by done. done.
  - apply elem_of_cons in Hin as [->|Hin]; [done|]. rewrite IH, (Hm x) by done. lia.
Qed.

Lemma sum_slots_change (f g : slot_name -> Z) n : (forall m, m <> n -> g m = f m) ->
  sum_slots g = sum_slots f - f n + g n.
Proof. apply sum_change; [apply slot_names_all|apply slot_names_nodup]. Qed.

Lemma sum_slots_ext (f g : slot_name -> Z) : (forall m, g m = f m) -> sum_slots g = sum_slots f.
Proof. intros Hfg. rewrite (sum_slots_change f g None) by auto. rewrite Hfg. lia. Qed.

Lemma sum_slots_zero (f : slot_name -> Z) n : (forall m, 0 <= f m) -> sum_slots f = 0 -> f n = 0.
Proof.
  intros Hf. pose proof (Hf None). pose proof (Hf (Some idx64)). pose proof (Hf (Some idx128)). pose proof (Hf (Some idx256)).
  pose proof (Hf (Some idx_double)). pose proof (Hf (Some idx_long_double)). unfold sum_slots. cbn. destruct n as [[]|]; lia.
Qed.

Lemma sum_slots_nonneg (f : slot_name -> Z) : (forall m, 0 <= f m) -> 0 <= sum_slots f.
Proof.
  intros Hf. pose proof (Hf None). pose proof (Hf (Some idx64)). pose proof (Hf (Some idx128)). pose proof (Hf (Some idx256)).
  pose proof (Hf (Some idx_double)). pose proof (Hf (Some idx_long_double)). unfold sum_slots. cbn. lia.
Qed.

(** How many rows of a slot belong to a table. *)
Definition count_in (t : Z) (rows : gmap Z Z) : Z := map_sum (fun _ u => if u =? t then 1 else 0) rows.

Lemma count_in_nonneg t rows : 0 <= count_in t rows.
Proof. apply map_sum_nonneg. intros. case_match; lia. Qed.

Lemma count_in_insert t rows o u : rows !! o = None ->
  count_in t (<[o := u]> rows) = count_in t rows + if u =? t then 1 else 0.
Proof. intros. unfold count_in. rewrite map_sum_insert by done. lia. Qed.

Lemma count_in_delete t rows o u : rows !! o = Some u ->
  count_in t (delete o rows) = count_in t rows - if u =? t then 1 else 0.
Proof. apply map_sum_delete. Qed.

Lemma count_in_zero t rows o u : count_in t rows = 0 -> rows !! o = Some u -> u <> t.
Proof.
  intros Hc Ho ->. pose proof (count_in_delete t rows o t Ho) as Hd. rewrite Z.eqb_refl in Hd.
  pose proof (count_in_nonneg t (delete o rows)). lia.
Qed.

Lemma count_in_none t rows : (forall o, rows !! o <> Some t) -> count_in t rows = 0.
Proof.
  induction rows as [|o u rows Ho IH] using map_ind; [intros; apply map_sum_empty|]. intros Hn.
  rewrite count_in_insert by done. specialize (Hn o) as Hu. rewrite lookup_insert_eq in Hu.
  destruct (Z.eqb_spec u t) as [->|]; [done|]. rewrite IH; [done|]. intros p Hp. apply (Hn p).
  rewrite lookup_insert_ne; [done|congruence].
Qed.

(** Rows are unique, values are not longer than the memory of a contract, and
    secondary keys are in the domain of their order. *)
Definition kv_fine (r : key_value_object) : Prop := Z.of_nat (length (kv_value r)) < 2 ^ 32.
Definition ix_fine `{softfloat} (k : index_kind) (r : index_object) : Prop := secondary_key_ok k (ix_secondary_key r).

(** The orders of the indices: total on rows with different keys, and grouped
    by table. *)
Class row_order {R} `{row R} (fine : R -> Prop) (before : R -> R -> bool) : Prop := {
  ro_weak : strict_weak fine before;
  ro_total a b : fine a -> fine b -> before a b = false -> before b a = false -> row_conflict_by a b = true;
  ro_table a b : before a b = true -> row_t_id a <= row_t_id b }.

Lemma on_snd_order {R} `{row R} (fine : R -> Prop) before `{!row_order fine before} :
  strict_weak (fun e : Z * R => fine e.2) (fun x y => before x.2 y.2).
Proof. pose proof ro_weak as [Ha Hs]. split; [intros x y; apply Ha|intros x y z; apply Hs]. Qed.

#[export] Instance by_primary_order {R} `{row R} (fine : R -> Prop) : row_order fine by_primary.
Proof.
  split; [split| |]; unfold by_primary, row_conflict_by; intros *; rewrite ?andb_true_iff, ?Z.eqb_eq, ?lex_lt_spec, ?lex_lt_false; cbn; lia.
Qed.

Lemma secondary_less_order `{softfloat} `{!softfloat_laws} k : strict_weak (secondary_key_ok k) (secondary_less k).
Proof. destruct k; [apply ltb_strict_weak..|apply f64_order|apply f128_order]. Qed.

#[export] Instance by_secondary_order `{softfloat} `{!softfloat_laws} k : row_order (ix_fine k) (by_secondary k).
Proof.
  pose proof (secondary_less_order k) as [Ha Hs].
  assert (Hi : forall x, secondary_key_ok k x -> secondary_less k x x = false).
  { intros x Hx. destruct (secondary_less k x x) eqn:Ex; [|done]. rewrite (Ha x x) in Ex; done. }
  unfold by_secondary, ix_fine, row_conflict_by. cbn. split; [split| |].
  - intros x y Hx Hy. pose proof (Ha _ _ Hx Hy). pose proof (Ha _ _ Hy Hx).
    destruct (secondary_less k (ix_secondary_key x) (ix_secondary_key y)), (secondary_less k (ix_secondary_key y) (ix_secondary_key x)); lia.
  - intros x y z Hx Hy Hz.
    pose proof (Hs _ _ _ Hx Hy Hz). pose proof (Hs _ _ _ Hz Hx Hy). pose proof (Hs _ _ _ Hy Hz Hx).
    pose proof (Hs _ _ _ Hz Hy Hx). pose proof (Hs _ _ _ Hx Hz Hy). pose proof (Hs _ _ _ Hy Hx Hz).
    destruct (secondary_less k (ix_secondary_key x) (ix_secondary_key y)), (secondary_less k (ix_secondary_key y) (ix_secondary_key x)),
      (secondary_less k (ix_secondary_key x) (ix_secondary_key z)), (secondary_less k (ix_secondary_key z) (ix_secondary_key x)),
      (secondary_less k (ix_secondary_key y) (ix_secondary_key z)), (secondary_less k (ix_secondary_key z) (ix_secondary_key y)); lia.
  - intros x y Hx Hy. unfold row_conflict_by. cbn. pose proof (Ha _ _ Hx Hy).
    destruct (secondary_less k (ix_secondary_key x) (ix_secondary_key y)), (secondary_less k (ix_secondary_key y) (ix_secondary_key x)); lia.
  - intros x y. cbn. lia.
Qed.

Section Invariant.
Context {S : Type} `{L : ram_ledger S} `{softfloat}.
Implicit Types (d : table_db S) (n m : slot_name).

Definition row_tables n d : gmap Z Z :=
  match n with
  | None => kv_t_id <$> _indices (td_keyval d)
  | Some k => ix_t_id <$> _indices (td_index d k)
  end.
Definition row_cache n d : iterator_cache :=
  match n with None => keyval_cache d | Some k => itr_cache d k end.
(** What an account pays for the rows of a slot, and for its tables. *)
Definition kv_cost (r : key_value_object) : Z := Z.of_nat (length (kv_value r)) + billable_key_value_object.
Definition paid_rows {R} `{row R} (cost : R -> Z) (rows : gmap Z R) (a : Z) : Z :=
  map_sum (fun _ r => if row_payer r =? a then cost r else 0) rows.
Definition rows_fine {R} (fine : R -> Prop) (rows : gmap Z R) : Prop := forall o r, rows !! o = Some r -> fine r.
Definition rows_ok n d : Prop :=
  match n with
  | None => unique row_conflict_by (_indices (td_keyval d)) /\ rows_fine kv_fine (_indices (td_keyval d))
  | Some k => unique row_conflict_by (_indices (td_index d k)) /\ rows_fine (ix_fine k) (_indices (td_index d k))
  end.
Definition row_price n d (a : Z) : Z :=
  match n with
  | None => paid_rows kv_cost (_indices (td_keyval d)) a
  | Some k => paid_rows (fun _ => billable_index_object k) (_indices (td_index d k)) a
  end.
Definition table_price (tables : gmap Z table_id_object) (a : Z) : Z :=
  map_sum (fun _ t => if tid_payer t =? a then billable_table_id_object else 0) tables.

Definition rows_of (t : Z) d : Z := sum_slots (fun n => count_in t (row_tables n d)).
Definition ram_price d (a : Z) : Z := table_price (_indices (td_tables d)) a + sum_slots (fun n => row_price n d a).

(** Every row has its table, and tables other than [t] have as many rows as
    they count, and at least one; table [t] has [gap] rows more. *)
Record counted (t gap : Z) d : Prop := {
  co_unique : unique table_conflict (_indices (td_tables d));
  co_home n o u : row_tables n d !! o = Some u -> is_Some (_indices (td_tables d) !! u);
  co_count u tab : _indices (td_tables d) !! u = Some tab -> u <> t -> tid_count tab = rows_of u d /\ 0 < rows_of u d;
  co_gap tab : _indices (td_tables d) !! t = Some tab -> tid_count tab = rows_of t d - gap;
  co_rows n : rows_ok n d }.

Definition caches_ok d : Prop := forall n, cache_ok (row_tables n d) (row_cache n d).

(** The RAM billed since [d0] is what is stored now and was not then, but for
    the surplus [x]. *)
Definition balanced d0 (x : Z -> Z) d : Prop := ledger_ok (td_ledger d) /\
  forall a, ledger_ram (td_ledger d) a - ledger_ram (td_ledger d0) a = ram_price d a - ram_price d0 a + x a.

Record tables_ok d : Prop := {
  to_unique : unique table_conflict (_indices (td_tables d));
  to_home n o u : row_tables n d !! o = Some u -> is_Some (_indices (td_tables d) !! u);
  to_count u tab : _indices (td_tables d) !! u = Some tab -> tid_count tab = rows_of u d /\ 0 < rows_of u d;
  to_rows n : rows_ok n d;
  to_caches : caches_ok d }.

Lemma tables_ok_counted t d : tables_ok d -> counted t 0 d.
Proof. intros [Hu Hh Hc Hr _]. split; try done. - intros. auto. - intros tab Ht. apply Hc in Ht as []. lia. Qed.

Lemma counted_tables_ok t d : counted t 0 d -> (is_Some (_indices (td_tables d) !! t) -> 0 < rows_of t d) ->
  caches_ok d -> tables_ok d.
Proof.
  intros [Hu Hh Hc Hg Hr] Hp Hk. split; try done. intros u tab Ht. destruct (decide (u = t)) as [->|Hne]; [|by apply Hc].
  rewrite (Hg _ Ht). split; [lia|]. apply Hp. eauto.
Qed.

(** ** Slots *)
Class slot_laws {R} `{row R} (s : slot S R) n (cost : R -> Z) (fine : R -> Prop) : Prop := {
  sl_tables d : row_tables n d = row_t_id <$> _indices (slot_rows s d);
  sl_rows_ok d : rows_ok n d <-> unique row_conflict_by (_indices (slot_rows s d)) /\ rows_fine fine (_indices (slot_rows s d));
  sl_cost r : fine r -> 0 <= cost r < 2 ^ 40;
  sl_price d : row_price n d = paid_rows cost (_indices (slot_rows s d));
  sl_cache d : row_cache n d = slot_cache s d;
  sl_rows_set g d : slot_rows s (set_slot_rows s g d) = g;
  sl_cache_set c d : slot_cache s (set_slot_cache s c d) = c;
  sl_rows_other g d m : m <> n -> row_tables m (set_slot_rows s g d) = row_tables m d
    /\ (rows_ok m (set_slot_rows s g d) <-> rows_ok m d) /\ row_price m (set_slot_rows s g d) = row_price m d;
  sl_rows_frame g d : td_ledger (set_slot_rows s g d) = td_ledger d /\ td_tables (set_slot_rows s g d) = td_tables d
    /\ forall m, row_cache m (set_slot_rows s g d) = row_cache m d;
  sl_cache_other c d m : m <> n -> row_cache m (set_slot_cache s c d) = row_cache m d;
  sl_cache_frame c d : td_ledger (set_slot_cache s c d) = td_ledger d /\ td_tables (set_slot_cache s c d) = td_tables d
    /\ slot_rows s (set_slot_cache s c d) = slot_rows s d
    /\ forall m, row_tables m (set_slot_cache s c d) = row_tables m d
         /\ (rows_ok m (set_slot_cache s c d) <-> rows_ok m d) /\ row_price m (set_slot_cache s c d) = row_price m d;
  sl_frame g l d : slot_rows s (set_td_tables g d) = slot_rows s d /\ slot_rows s (set_td_ledger l d) = slot_rows s d
    /\ slot_cache s (set_td_tables g d) = slot_cache s d /\ slot_cache s (set_td_ledger l d) = slot_cache s d }.

#[export] Instance keyval_slot : slot_laws keyval None kv_cost kv_fine.
Proof.
  split; try done.
  - intros r. unfold kv_fine, kv_cost. change billable_key_value_object with 112. lia.
  - by intros ? ? [].
  - by intros ? ? [].
Qed.

#[export] Instance idx_slot k : slot_laws (idx k) (Some k) (fun _ => billable_index_object k) (ix_fine k).
Proof.
  split; try done; cbn.
  - by destruct k.
  - intros. by rewrite fn_lookup_insert.
  - intros. by rewrite fn_lookup_insert.
  - intros g d [j|] Hm; cbn; [|done]. unfold row_price. cbn.
    by rewrite fn_lookup_insert_ne by congruence.
  - intros c d [j|] Hm; cbn; [|done]. rewrite fn_lookup_insert_ne; [done|congruence].
Qed.


(** ** How the pieces change *)
Lemma least_in {A} (before : A -> A -> bool) l x : least before l = Some x -> x ∈ l.
Proof.
  revert x. induction l as [|y l IH]; intros x; cbn; [done|]. destruct (least before l) as [z|].
  - intros [= <-]. destruct (before z y); [right; auto|left].
  - intros [= <-]. left.
Qed.

Section SlotSet.
Context {R : Type} `{row R} {s : slot S R} {n : slot_name} {cost : R -> Z} {fine : R -> Prop} `{!slot_laws s n cost fine}.

Lemma row_tables_set g d m : row_tables m (set_slot_rows s g d) = if decide (m = n) then row_t_id <$> _indices g else row_tables m d.
Proof.
  case_decide as Hm; [subst m; by rewrite sl_tables, sl_rows_set|]. by apply (sl_rows_other g d).
Qed.

Lemma rows_of_set g d t : rows_of t (set_slot_rows s g d) = rows_of t d - count_in t (row_tables n d) + count_in t (row_t_id <$> _indices g).
Proof.
  unfold rows_of. rewrite (sum_slots_change (fun m => count_in t (row_tables m d)) _ n).
  - by rewrite row_tables_set, decide_True by done.
  - intros m Hm. by rewrite row_tables_set, decide_False by done.
Qed.

Lemma ram_price_set g d a : ram_price (set_slot_rows s g d) a
  = ram_price d a - paid_rows cost (_indices (slot_rows s d)) a + paid_rows cost (_indices g) a.
Proof.
  unfold ram_price. destruct (sl_rows_frame g d) as (_ & -> & _).
  rewrite (sum_slots_change (fun m => row_price m d a) _ n).
  - rewrite !sl_price, sl_rows_set. lia.
  - intros m Hm. destruct (sl_rows_other g d m Hm) as (_ & _ & ->). done.
Qed.

Lemma rows_ok_set g d : (forall m, rows_ok m d) -> unique row_conflict_by (_indices g) -> rows_fine fine (_indices g) ->
  forall m, rows_ok m (set_slot_rows s g d).
Proof.
  intros Hu Hg Hc m. destruct (decide (m = n)) as [->|Hm].
  - apply sl_rows_ok. by rewrite sl_rows_set.
  - by apply (sl_rows_other g d m Hm).
Qed.

Lemma row_cache_set c d m : row_cache m (set_slot_cache s c d) = if decide (m = n) then c else row_cache m d.
Proof.
  case_decide as Hm; [subst m; by rewrite sl_cache, sl_cache_set|]. by apply sl_cache_other.
Qed.
End SlotSet.

Lemma rows_of_ext t d d' : (forall m, row_tables m d' = row_tables m d) -> rows_of t d' = rows_of t d.
Proof. intros He. apply sum_slots_ext. intros m. by rewrite He. Qed.

Lemma rows_of_nonneg t d : 0 <= rows_of t d.
Proof. apply sum_slots_nonneg. intros. apply count_in_nonneg. Qed.

Lemma rows_of_zero t d n o u : rows_of t d = 0 -> row_tables n d !! o = Some u -> u <> t.
Proof.
  intros Hz. apply count_in_zero. revert Hz. apply (sum_slots_zero (fun n => count_in t (row_tables n d))).
  intros. apply count_in_nonneg.
Qed.

Lemma rows_of_none t d : (forall n o, row_tables n d !! o <> Some t) -> rows_of t d = 0.
Proof.
  intros Hn. unfold rows_of. rewrite (sum_slots_ext (fun _ => 0)); [done|]. intros n. apply count_in_none. auto.
Qed.

Lemma rows_of_positive t d n o : row_tables n d !! o = Some t -> 0 < rows_of t d.
Proof.
  intros Ho. pose proof (rows_of_nonneg t d). destruct (decide (rows_of t d = 0)) as [Hz|]; [|lia].
  by pose proof (rows_of_zero _ _ _ _ _ Hz Ho).
Qed.

Lemma paid_rows_insert {R} `{row R} (cost : R -> Z) rows o r a : rows !! o = None ->
  paid_rows cost (<[o := r]> rows) a = paid_rows cost rows a + if a =? row_payer r then cost r else 0.
Proof. intros. unfold paid_rows. rewrite map_sum_insert, Z.eqb_sym by done. lia. Qed.
Lemma paid_rows_delete {R} `{row R} (cost : R -> Z) rows o r a : rows !! o = Some r ->
  paid_rows cost (delete o rows) a = paid_rows cost rows a - if a =? row_payer r then cost r else 0.
Proof. intros. unfold paid_rows. rewrite (map_sum_delete _ _ _ r), Z.eqb_sym by done. lia. Qed.
Lemma paid_rows_update {R} `{row R} (cost : R -> Z) rows o r r' a : rows !! o = Some r ->
  paid_rows cost (<[o := r']> rows) a
  = paid_rows cost rows a - (if a =? row_payer r then cost r else 0) + if a =? row_payer r' then cost r' else 0.
Proof. intros. unfold paid_rows. rewrite (map_sum_update _ _ _ r) by done. rewrite !(Z.eqb_sym a). lia. Qed.

Lemma rows_fine_insert {R} (fine : R -> Prop) rows o r : rows_fine fine rows -> fine r -> rows_fine fine (<[o := r]> rows).
Proof. intros Hc Hr p q. rewrite lookup_insert. case_decide; [by intros [= <-]|apply Hc]. Qed.
Lemma rows_fine_delete {R} (fine : R -> Prop) rows o : rows_fine fine rows -> rows_fine fine (delete o rows).
Proof. intros Hc p q [_ Hq]%lookup_delete_Some. by eapply Hc. Qed.

Lemma table_price_insert tables t tab a : tables !! t = None ->
  table_price (<[t := tab]> tables) a = table_price tables a + if a =? tid_payer tab then billable_table_id_object else 0.
Proof. intros. unfold table_price. rewrite map_sum_insert, Z.eqb_sym by done. lia. Qed.
Lemma table_price_delete tables t tab a : tables !! t = Some tab ->
  table_price (delete t tables) a = table_price tables a - if a =? tid_payer tab then billable_table_id_object else 0.
Proof. intros. unfold table_price. rewrite (map_sum_delete _ _ _ tab), Z.eqb_sym by done. lia. Qed.
Lemma table_price_update tables t tab tab' a : tables !! t = Some tab -> tid_payer tab' = tid_payer tab ->
  table_price (<[t := tab']> tables) a = table_price tables a.
Proof. intros Ht Hp. unfold table_price. rewrite (map_sum_update _ _ _ tab), Hp by done. lia. Qed.

Lemma table_conflict_sym a b : table_conflict a b = table_conflict b a.
Proof. unfold table_conflict. by rewrite (Z.eqb_sym (tid_code a)), (Z.eqb_sym (tid_scope a)), (Z.eqb_sym (tid_table a)). Qed.
Lemma row_conflict_by_sym {R} `{row R} (a b : R) : row_conflict_by a b = row_conflict_by b a.
Proof. unfold row_conflict_by. by rewrite (Z.eqb_sym (row_t_id a)), (Z.eqb_sym (row_primary_key a)). Qed.

(** ** Running the operations *)
Definition benign (e : exn) : Prop := e <> undefined_behaviour /\ e <> table_not_in_cache /\ e <> aborted.

Context {RL : ram_ledger_laws S}.
Context (E : exn -> Prop) (HE : forall e, benign e -> E e).

Lemma wp_modify {B} (conflict : B -> B -> bool) id f b gi Q :
  unique conflict (_indices gi) -> _indices gi !! id = Some b -> same_keys conflict b (f b) ->
  (forall gi', _indices gi' = <[id := f b]> (_indices gi) -> unique conflict (_indices gi') -> Q tt gi') ->
  (forall x y, conflict x y = conflict y x) -> wp (index_modify conflict id f) E Q gi.
Proof.
  intros Hu Hb Hk HQ Hs. unfold wp. destruct (index_modify _ _ _ _) as [r gi'] eqn:Er.
  assert (Hv : violates conflict (_indices gi) id (f b) = false) by (by eapply unique_modify).
  apply (index_modify_inv conflict id f gi r gi' b Hb Hv) in Er as (-> & Hi & _). apply HQ; [done|].
  rewrite Hi. by apply unique_insert.
Qed.

Lemma wp_remove {B} (conflict : B -> B -> bool) id b (gi : generic_index B) Q :
  unique conflict (_indices gi) -> _indices gi !! id = Some b ->
  (forall gi', _indices gi' = delete id (_indices gi) -> unique conflict (_indices gi') -> Q tt gi') -> wp (index_remove id) E Q gi.
Proof.
  intros Hu Hb HQ. unfold wp. destruct (index_remove _ _) as [r gi'] eqn:Er.
  apply (index_remove_inv id gi r gi' b Hb) in Er as (-> & Hi & _). apply HQ; [done|]. rewrite Hi.
  intros i j x y Hij [_ Hx]%lookup_delete_Some [_ Hy]%lookup_delete_Some. by apply (Hu i j).
Qed.

Lemma wp_emplace {B} (conflict : B -> B -> bool) c gi Q : (forall x y, conflict x y = conflict y x) ->
  unique conflict (_indices gi) ->
  (forall id gi', _indices gi !! id = None -> _indices gi' = <[id := c]> (_indices gi) -> unique conflict (_indices gi') -> Q id gi') ->
  wp (emplace conflict c) E Q gi.
Proof.
  intros Hs Hu HQ. unfold wp. destruct (emplace _ _ _) as [r gi'] eqn:Er.
  apply emplace_inv in Er as [[-> _]|(-> & Hn & Hv & Hi & _)]; [by apply HE|].
  eapply HQ; [done..|]. rewrite Hi. by apply unique_insert.
Qed.

Lemma wp_deref_table t tab d Q : _indices (td_tables d) !! t = Some tab -> Q tab d -> wp (deref_table t) E Q d.
Proof. intros Ht HQ. unfold wp, deref_table, deref. by rewrite Ht. Qed.

(** Billing: the surplus grows by what is billed. *)
Definition bill (payer delta : Z) (x : Z -> Z) : Z -> Z := fun a => x a + if a =? payer then delta else 0.

Lemma wp_bill payer delta d0 x d Q : is_s64 delta -> balanced d0 x d ->
  (forall l, balanced d0 (bill payer delta x) (set_td_ledger l d) -> Q tt (set_td_ledger l d)) ->
  wp (update_db_usage payer delta) E Q d.
Proof.
  intros Hd [Hl Hb] HQ. apply wp_focus. unfold wp. destruct (ledger_add _ _ _) as [[[]|e] l] eqn:El.
  - destruct (ledger_add_ok _ _ _ _ Hl Hd El) as [Hl' Hram]. apply HQ. split; [done|]. intros a. cbn.
    rewrite Hram. unfold bill. specialize (Hb a). change (ram_price (set_td_ledger l d) a) with (ram_price d a). lia.
  - apply HE. by eapply ledger_add_errors.
Qed.

(** The parts of the invariant depend on the parts of the state. *)
Record same_rows d d' : Prop := {
  sr_tables : td_tables d' = td_tables d;
  sr_rows n : row_tables n d' = row_tables n d;
  sr_ok n : rows_ok n d' <-> rows_ok n d;
  sr_price n a : row_price n d' a = row_price n d a }.

Lemma same_rows_ledger l d : same_rows d (set_td_ledger l d).
Proof. split; [done|by intros []..]. Qed.
Lemma same_rows_cache {R} `{row R} (s : slot S R) n cost fine `{!slot_laws s n cost fine} c d : same_rows d (set_slot_cache s c d).
Proof.
  destruct (sl_cache_frame c d) as (_ & Ht & _ & Hm). split; [done| | |]; intros k; destruct (Hm k) as (H1 & H2 & H3); [done..|].
  intros. by rewrite H3.
Qed.

Lemma counted_same t gap d d' : same_rows d d' -> counted t gap d -> counted t gap d'.
Proof.
  intros [Ht Hr Hu Hp] [Cu Ch Cc Cg Cr].
  assert (Ho : forall u, rows_of u d' = rows_of u d) by (intros; by apply rows_of_ext).
  split; rewrite ?Ht; try done.
  - intros n o u. rewrite Hr. apply Ch.
  - intros u tab. rewrite Ho. apply Cc.
  - intros tab. rewrite Ho. apply Cg.
  - intros n. by apply Hu.
Qed.

Lemma ram_price_same d d' a : same_rows d d' -> ram_price d' a = ram_price d a.
Proof. intros [Ht Hr Hu Hp]. unfold ram_price. rewrite Ht. f_equal. apply sum_slots_ext. intros. apply Hp. Qed.

Lemma balanced_same d0 x d d' : same_rows d d' -> td_ledger d' = td_ledger d -> balanced d0 x d -> balanced d0 x d'.
Proof. intros Hs Hl [Hok Hb]. split; rewrite Hl; [done|]. intros a. by rewrite (ram_price_same d d'). Qed.

Lemma caches_ledger l d : caches_ok (set_td_ledger l d) <-> caches_ok d.
Proof. split; intros Hc n; specialize (Hc n); by destruct n. Qed.

Lemma tables_ok_ledger l d : tables_ok d -> tables_ok (set_td_ledger l d).
Proof.
  intros Hok. pose proof (same_rows_ledger l d) as Hs. eapply (counted_tables_ok 0).
  - eapply counted_same; [exact Hs|by apply tables_ok_counted].
  - intros [tab Ht]. rewrite (rows_of_ext 0 d) by apply Hs. by destruct (to_count d Hok _ _ Ht).
  - apply caches_ledger, Hok.
Qed.

(** ** Creating tables and rows *)
Lemma wp_find_or_create code scope table payer d0 d Q : tables_ok d -> balanced d0 (fun _ => 0) d ->
  (forall t d', counted t 0 d' -> caches_ok d' -> balanced d0 (fun _ => 0) d' -> is_Some (_indices (td_tables d') !! t) ->
     (forall u, rows_of u d' = rows_of u d) -> Q t d') ->
  wp (find_or_create_table code scope table payer) E Q d.
Proof.
  intros Hok Hb HQ. apply wp_bind, wp_get. destruct (find_table _ _ _ _) as [[t tab]|] eqn:Ef.
  { apply wp_ret, HQ; try done; [by apply tables_ok_counted|apply Hok|].
    unfold find_table in Ef. apply find_by_some in Ef as [Ht _]. eauto. }
  apply wp_bind, (wp_bill _ _ d0 (fun _ => 0)); [by vm_compute|done|]. intros l Hl.
  apply wp_focus, wp_emplace; [apply table_conflict_sym|apply Hok|]. intros t gi' Hn Hi Hu. cbn in Hn, Hi, Hu.
  set (d1 := set_td_tables gi' (set_td_ledger l d)).
  assert (Hr : forall n, row_tables n d1 = row_tables n d) by (by intros []).
  assert (Hho : forall n o u, row_tables n d !! o = Some u -> u <> t).
  { intros n o u Hu' ->. apply (to_home d Hok) in Hu' as [? Hx]. congruence. }
  assert (Ho : forall u, rows_of u d1 = rows_of u d) by (intros; by apply rows_of_ext).
  assert (Hd1 : _indices (td_tables d1) = <[t := mk_table_id code scope table payer 0]> (_indices (td_tables d))) by done.
  apply HQ; [|intros n; rewrite Hr; specialize (to_caches d Hok n); by destruct n| |rewrite Hd1, lookup_insert_eq; eauto|done].
  - split; [done| | | |intros n; specialize (to_rows d Hok n); by destruct n]; rewrite Hd1.
    + intros n o u. rewrite Hr. intros Hu'. rewrite lookup_insert. case_decide; [eauto|]. by eapply (to_home d Hok).
    + intros u tab Ht Hne. rewrite lookup_insert_ne in Ht by done. rewrite Ho. by apply (to_count d Hok).
    + intros tab. rewrite lookup_insert_eq. intros [= <-]. rewrite Ho, rows_of_none; [done|]. intros n o Hx. by apply Hho in Hx.
  - destruct Hl as [Hlo Hl]. split; [done|]. intros a. specialize (Hl a). unfold bill in Hl.
    change (ram_price (set_td_ledger l d) a) with (ram_price d a) in Hl.
    assert (Hp : ram_price d1 a = ram_price d a + if a =? payer then billable_table_id_object else 0).
    { unfold ram_price. rewrite Hd1, table_price_insert by done. cbn [tid_payer].
      rewrite (sum_slots_ext (fun n => row_price n d a) (fun n => row_price n d1 a)) by (by intros []). lia. }
    rewrite Hp. change (td_ledger d1) with (td_ledger (set_td_ledger l d)). lia.
Qed.

(** What a change of the rows of one slot does to the parts of the invariant. *)
Section Rows.
Context {R : Type} `{row R} (s : slot S R) (n : slot_name) (cost : R -> Z) (fine : R -> Prop) `{!slot_laws s n cost fine}.

Lemma slot_row d o r : _indices (slot_rows s d) !! o = Some r -> row_tables n d !! o = Some (row_t_id r).
Proof. intros Hr. rewrite sl_tables, lookup_fmap, Hr. done. Qed.

Lemma counted_insert t d gi o r : counted t 0 d -> row_t_id r = t -> is_Some (_indices (td_tables d) !! t) ->
  _indices (slot_rows s d) !! o = None -> _indices gi = <[o := r]> (_indices (slot_rows s d)) ->
  unique row_conflict_by (_indices gi) -> fine r -> counted t 1 (set_slot_rows s gi d).
Proof.
  intros [Cu Ch Cc Cg Cr] Hrt Ht Hn Hi Hu Hcr. pose proof (proj1 (sl_rows_ok d) (Cr n)) as [_ Hcs]. destruct (sl_rows_frame gi d) as (_ & Htab & _).
  assert (Ho : forall u, rows_of u (set_slot_rows s gi d) = rows_of u d + if t =? u then 1 else 0).
  { intros u. rewrite rows_of_set, Hi, fmap_insert, count_in_insert, sl_tables by (by rewrite lookup_fmap, Hn). rewrite Hrt. lia. }
  split; rewrite ?Htab; [done| | | |apply rows_ok_set; [done..|rewrite Hi; by apply rows_fine_insert]].
  - intros m p u. rewrite row_tables_set, Hi, fmap_insert. case_decide as Hm; [|apply Ch].
    rewrite lookup_insert. case_decide; [intros [= <-]; by rewrite Hrt|]. rewrite <- sl_tables. apply Ch.
  - intros u tab Hut Hne. rewrite Ho. destruct (Z.eqb_spec t u); [congruence|]. rewrite Z.add_0_r. by apply Cc.
  - intros tab Htt. rewrite (Cg _ Htt), Ho, Z.eqb_refl. lia.
Qed.

Lemma counted_delete t d gi o r : counted t 1 d -> row_t_id r = t ->
  _indices (slot_rows s d) !! o = Some r -> _indices gi = delete o (_indices (slot_rows s d)) ->
  unique row_conflict_by (_indices gi) -> counted t 0 (set_slot_rows s gi d).
Proof.
  intros [Cu Ch Cc Cg Cr] Hrt Hr Hi Hu. pose proof (proj1 (sl_rows_ok d) (Cr n)) as [_ Hcs]. destruct (sl_rows_frame gi d) as (_ & Htab & _).
  assert (Ho : forall u, rows_of u (set_slot_rows s gi d) = rows_of u d - if t =? u then 1 else 0).
  { intros u. rewrite rows_of_set, Hi, fmap_delete, (count_in_delete _ _ _ (row_t_id r)), sl_tables by (by rewrite lookup_fmap, Hr).
    rewrite Hrt. lia. }
  split; rewrite ?Htab; [done| | | |apply rows_ok_set; [done..|rewrite Hi; by apply rows_fine_delete]].
  - intros m p u. rewrite row_tables_set, Hi, fmap_delete. case_decide as Hm; [|apply Ch].
    intros [_ Hp]%lookup_delete_Some. rewrite <- sl_tables in Hp. by eapply Ch.
  - intros u tab Hut Hne. rewrite Ho. destruct (Z.eqb_spec t u); [congruence|]. rewrite Z.sub_0_r. by apply Cc.
  - intros tab Htt. rewrite (Cg _ Htt), Ho, Z.eqb_refl. lia.
Qed.

Lemma counted_update t d gi o r r' : counted t 0 d -> row_t_id r' = row_t_id r ->
  _indices (slot_rows s d) !! o = Some r -> _indices gi = <[o := r']> (_indices (slot_rows s d)) ->
  unique row_conflict_by (_indices gi) -> fine r' ->
  counted t 0 (set_slot_rows s gi d) /\ forall m, row_tables m (set_slot_rows s gi d) = row_tables m d.
Proof.
  intros [Cu Ch Cc Cg Cr] Hrt Hr Hi Hu Hcr. pose proof (proj1 (sl_rows_ok d) (Cr n)) as [_ Hcs]. destruct (sl_rows_frame gi d) as (_ & Htab & _).
  assert (Hm : forall m, row_tables m (set_slot_rows s gi d) = row_tables m d).
  { intros m. rewrite row_tables_set. case_decide as Hm; [|done]. subst m. rewrite Hi, fmap_insert, sl_tables, Hrt.
    by rewrite insert_id by (by rewrite lookup_fmap, Hr). }
  split; [|done]. assert (Ho : forall u, rows_of u (set_slot_rows s gi d) = rows_of u d) by (intros; by apply rows_of_ext).
  split; rewrite ?Htab; [done| | | |apply rows_ok_set; [done..|rewrite Hi; by apply rows_fine_insert]].
  - intros m p u. rewrite Hm. apply Ch.
  - intros u tab. rewrite Ho. apply Cc.
  - intros tab. rewrite Ho. apply Cg.
Qed.

Lemma caches_set gi d : caches_ok d -> (forall c, cache_ok (row_tables n d) c -> cache_ok (row_t_id <$> _indices gi) c) ->
  caches_ok (set_slot_rows s gi d).
Proof.
  intros Hc Hg m. rewrite row_tables_set. destruct (sl_rows_frame gi d) as (_ & _ & ->). case_decide as Hm; [|apply Hc].
  subst m. apply Hg, Hc.
Qed.

Lemma balanced_set gi d0 x d x' : balanced d0 x d ->
  (forall a, x' a = x a + paid_rows cost (_indices (slot_rows s d)) a - paid_rows cost (_indices gi) a) ->
  balanced d0 x' (set_slot_rows s gi d).
Proof.
  intros [Hl Hb] Hx. destruct (sl_rows_frame gi d) as (Hled & _). split; rewrite Hled; [done|].
  intros a. rewrite ram_price_set, Hx. specialize (Hb a). lia.
Qed.

Lemma balanced_cache c d0 x d : balanced d0 x d -> balanced d0 x (set_slot_cache s c d).
Proof. apply balanced_same; [eapply same_rows_cache; eassumption|by destruct (sl_cache_frame c d)]. Qed.
End Rows.

Lemma balanced_ext d0 x x' d : (forall a, x' a = x a) -> balanced d0 x d -> balanced d0 x' d.
Proof. intros Hx [Hl Hb]. split; [done|]. intros a. by rewrite Hx. Qed.

(** ** Counting *)
Lemma counted_recount t tab gap gap' c gi d : counted t gap d -> _indices (td_tables d) !! t = Some tab ->
  u32 c = rows_of t d - gap' -> _indices gi = <[t := set_count c tab]> (_indices (td_tables d)) ->
  unique table_conflict (_indices gi) -> counted t gap' (set_td_tables gi d).
Proof.
  intros [Cu Ch Cc Cg Cr] Ht Hc Hi Hu.
  assert (Ho : forall u, rows_of u (set_td_tables gi d) = rows_of u d) by (intros; apply rows_of_ext; by intros []).
  split; cbn [td_tables set_td_tables]; rewrite ?Hi; [by rewrite <- Hi| | | |intros n; specialize (Cr n); by destruct n].
  - intros n o u Hx. rewrite lookup_insert. case_decide; [eauto|]. apply (Ch n o). by destruct n.
  - intros u tab' Hut Hne. rewrite lookup_insert_ne in Hut by done. rewrite Ho. by apply Cc.
  - intros tab'. rewrite lookup_insert_eq. intros [= <-]. rewrite Ho. by cbn.
Qed.

Lemma balanced_recount d0 x t tab c gi d : balanced d0 x d -> _indices (td_tables d) !! t = Some tab ->
  _indices gi = <[t := set_count c tab]> (_indices (td_tables d)) -> balanced d0 x (set_td_tables gi d).
Proof.
  intros [Hl Hb] Ht Hi. split; [done|]. intros a. specialize (Hb a).
  enough (ram_price (set_td_tables gi d) a = ram_price d a) as -> by done. unfold ram_price. cbn [td_tables set_td_tables]. rewrite Hi, (table_price_update _ t tab) by done.
  rewrite (sum_slots_ext (fun n => row_price n d a) (fun n => row_price n (set_td_tables gi d) a)) by (by intros []). done.
Qed.

Lemma caches_tables gi d : caches_ok (set_td_tables gi d) <-> caches_ok d.
Proof. split; intros Hc n; specialize (Hc n); by destruct n. Qed.

(** [++t.count] and [--t.count]. *)
Lemma wp_recount t tab gap gap' c f d0 x d Q : counted t gap d -> balanced d0 x d -> _indices (td_tables d) !! t = Some tab ->
  f tab = set_count c tab -> u32 c = rows_of t d - gap' ->
  (forall gi, let d' := set_td_tables gi d in counted t gap' d' -> balanced d0 x d' ->
     _indices (td_tables d') !! t = Some (set_count c tab) -> Q tt d') ->
  wp (on_tables (index_modify table_conflict t f)) E Q d.
Proof.
  intros Hco Hb Ht Hf Hc HQ. apply wp_focus. eapply wp_modify; [apply Hco|done|by rewrite Hf|intros gi' Hi Hu|apply table_conflict_sym].
  rewrite Hf in Hi. apply HQ; [by eapply counted_recount|by eapply balanced_recount|].
  cbn. by rewrite Hi, lookup_insert_eq.
Qed.

(** ** One invariant for whole operations *)
Definition inv d0 d : Prop := tables_ok d /\ balanced d0 (fun _ => 0) d.

Section Steps.
Context {R : Type} `{row R} (s : slot S R) (n : slot_name) (cost : R -> Z) (fine : R -> Prop) `{!slot_laws s n cost fine}.

Lemma tables_ok_cache c d : tables_ok d -> cache_ok (row_tables n d) c -> tables_ok (set_slot_cache s c d).
Proof.
  intros Hok Hc. pose proof (same_rows_cache s n cost fine c d) as Hs. pose proof (tables_ok_counted 0 d Hok) as Hcn.
  assert (Ho : rows_of 0 (set_slot_cache s c d) = rows_of 0 d) by (apply rows_of_ext, Hs).
  apply (counted_tables_ok 0); [by apply (counted_same 0 0 d)| |].
  - rewrite (sr_tables _ _ Hs). intros [tab Ht]. rewrite Ho. by destruct (to_count d Hok _ _ Ht).
  - intros m. rewrite (sr_rows _ _ Hs), row_cache_set. case_decide; [by subst|apply (to_caches d Hok)].
Qed.

Lemma inv_cache d0 c d : inv d0 d -> cache_ok (row_tables n d) c -> inv d0 (set_slot_cache s c d).
Proof.
  intros [Hok Hb] Hc. split; [by apply tables_ok_cache|].
  apply (balanced_cache s n cost fine c d0 (fun _ => 0) d). exact Hb.
Qed.

Lemma wp_cache_table t d0 d Q : inv d0 d ->
  (forall ei c, let d' := set_slot_cache s c d in inv d0 d' -> _table_cache (slot_cache s d') !! t = Some (t, ei) -> Q ei d') ->
  wp (on_cache s (cache_table t)) E Q d.
Proof.
  intros Hi HQ. destruct (cache_table_spec (row_tables n d) t (slot_cache s d)) as (ei & c & He & Hc & Ht & _).
  { rewrite <- sl_cache. apply Hi. }
  apply wp_focus. unfold wp. rewrite He. apply HQ; [by apply inv_cache|by rewrite sl_cache_set].
Qed.

Lemma wp_cache_add o r d0 d Q : inv d0 d -> _indices (slot_rows s d) !! o = Some r ->
  is_Some (_table_cache (slot_cache s d) !! row_t_id r) ->
  (forall i c, let d' := set_slot_cache s c d in inv d0 d' -> _iterator_to_object (slot_cache s d') !! i = Some (Some o) ->
     Q (Z.of_nat i) d') ->
  wp (on_cache s (cache_add o)) E Q d.
Proof.
  intros Hi Hr Ht HQ. destruct (cache_add_spec (row_tables n d) o (row_t_id r) (slot_cache s d)) as (i & c & He & Hc & Hoi & _); [|by apply (slot_row s n cost fine)|done|].
  { rewrite <- sl_cache. apply Hi. }
  apply wp_focus. unfold wp. rewrite He. apply HQ; [by apply inv_cache|by rewrite sl_cache_set].
Qed.

Lemma wp_count_row t tab o r payer size d0 d Q : counted t 1 d -> caches_ok d ->
  balanced d0 (fun a => - if a =? payer then size else 0) d -> _indices (td_tables d) !! t = Some tab ->
  _indices (slot_rows s d) !! o = Some r -> row_t_id r = t -> rows_of t d < 2 ^ 32 -> is_s64 size ->
  (forall i d', inv d0 d' -> Q i d') ->
  wp (count_row s t o payer size) E Q d.
Proof.
  intros Hco Hca Hb Ht Hr Hrt Hlt Hs HQ. assert (Hpos : 0 < rows_of t d).
  { eapply rows_of_positive. rewrite <- Hrt. by apply (slot_row s n cost fine). }
  unfold count_row. apply wp_bind. eapply wp_recount; [done..| |].
  { rewrite (co_gap _ _ _ Hco _ Ht). instantiate (1 := 0). rewrite u32_id; widths; lia. }
  intros gi d1 Hco1 Hb1 Ht1. apply wp_bind, (wp_bill _ _ d0 _ _ _ Hs Hb1). intros l Hl.
  set (d2 := set_td_ledger l d1) in *.
  assert (Hi : inv d0 d2).
  { split; [|eapply balanced_ext; [|exact Hl]; intros a; unfold bill; lia].
    eapply (counted_tables_ok t); [eapply counted_same; [apply same_rows_ledger|done]| |by apply caches_ledger, caches_tables].
    intros _. by rewrite (rows_of_ext t d) by (by intros []). }
  destruct (sl_frame gi l d) as (Hr1 & _). destruct (sl_frame gi l d1) as (_ & Hr2 & _).
  apply wp_bind, (wp_cache_table _ d0 _ _ Hi). intros ei c d3 Hi3 Hc3.
  destruct (sl_cache_frame c d2) as (_ & _ & Hr3 & _).
  eapply wp_cache_add; [exact Hi3|unfold d3; rewrite Hr3; unfold d2; rewrite Hr2; unfold d1; by rewrite Hr1|rewrite Hrt; eauto|].
  intros. by apply HQ.
Qed.

(** A valid iterator leads to a row that exists, in a table that exists and is
    cached. *)
Lemma wp_get_row iterator d Q : tables_ok d ->
  (forall o r ei tab, _indices (slot_rows s d) !! o = Some r -> cache_get (slot_cache s d) iterator = Ok o ->
     _table_cache (slot_cache s d) !! row_t_id r = Some (row_t_id r, ei) ->
     _indices (td_tables d) !! row_t_id r = Some tab -> Q (o, r) d) ->
  wp (get_row s iterator) E Q d.
Proof.
  intros Hok HQ. pose proof (to_caches d Hok n) as Hc. rewrite sl_cache in Hc.
  apply wp_bind, wp_get, wp_bind, wp_lift.
  - intros o Ho. destruct (cache_get_spec _ _ _ _ Hc Ho) as (_ & _ & t & ei & Ht & Hte).
    destruct (to_home d Hok n o t Ht) as [tab Htab]. rewrite (sl_tables (s := s)), lookup_fmap in Ht.
    destruct (_indices (slot_rows s d) !! o) as [r|] eqn:Er; [|done]. injection Ht as <-.
    apply wp_bind. unfold wp, deref_row, deref. rewrite Er. by eapply HQ.
  - intros e [->| ->]%cache_get_error; by apply HE.
Qed.

Lemma wp_owned_table receiver obj ei tab d Q : _table_cache (slot_cache s d) !! row_t_id obj = Some (row_t_id obj, ei) ->
  _indices (td_tables d) !! row_t_id obj = Some tab -> (tid_code tab = receiver -> Q (row_t_id obj) d) ->
  wp (owned_table s receiver obj) E Q d.
Proof.
  intros Hc Ht HQ. apply wp_bind, wp_get, wp_bind, wp_lift; unfold get_table; rewrite Hc; [|done].
  intros t [= <-]. apply wp_bind, (wp_deref_table _ tab); [done|]. apply wp_bind, wp_massert; [by apply HE|].
  intros Hb. btests. apply wp_ret. auto.
Qed.

(** The last step of a removal: the cache forgets the row. *)
Definition stale rows iterator o d : Prop :=
  cache_ok rows (slot_cache s d) /\ cache_get (slot_cache s d) iterator = Ok o /\ row_tables n d = delete o rows
  /\ forall m, m <> n -> cache_ok (row_tables m d) (row_cache m d).

Lemma wp_forget rows iterator o t d0 d Q : counted t 0 d -> (is_Some (_indices (td_tables d) !! t) -> 0 < rows_of t d) ->
  balanced d0 (fun _ => 0) d -> stale rows iterator o d -> (forall d', inv d0 d' -> Q tt d') ->
  wp (on_cache s (cache_remove iterator)) E Q d.
Proof.
  intros Hco Hpos Hb (Hc & Hg & Hr & Hm) HQ. destruct (cache_remove_spec _ _ _ _ Hc Hg) as (c & He & Hok).
  apply wp_focus. unfold wp. rewrite He. apply HQ. pose proof (same_rows_cache s n cost fine c d) as Hs.
  split; [|by apply (balanced_cache s n cost fine c d0 (fun _ => 0) d)].
  apply (counted_tables_ok t); [by apply (counted_same t 0 d)| |].
  - rewrite (sr_tables _ _ Hs), (rows_of_ext t d) by apply Hs. done.
  - intros k. rewrite (sr_rows _ _ Hs), row_cache_set. case_decide as Hk; [subst k; by rewrite Hr|by apply Hm].
Qed.

(** Without rows, the table goes too. *)
Lemma counted_remove t tab gt d : counted t 0 d -> rows_of t d = 0 -> _indices (td_tables d) !! t = Some tab ->
  _indices gt = delete t (_indices (td_tables d)) -> unique table_conflict (_indices gt) -> counted t 0 (set_td_tables gt d).
Proof.
  intros [Cu Ch Cc Cg Cr] Hz Ht Hi Hu.
  assert (Ho : forall u, rows_of u (set_td_tables gt d) = rows_of u d) by (intros; apply rows_of_ext; by intros []).
  split; cbn [td_tables set_td_tables]; [done|rewrite Hi..|intros m; specialize (Cr m); by destruct m].
  - intros m p u Hx. assert (Hx' : row_tables m d !! p = Some u) by (by destruct m).
    rewrite lookup_delete_ne; [by eapply Ch|]. intros <-. by eapply rows_of_zero.
  - intros u tab' [_ Hut]%lookup_delete_Some Hne. rewrite Ho. by apply Cc.
  - intros tab'. by rewrite lookup_delete_eq.
Qed.

Lemma balanced_table_removed d0 t tab gt l d : balanced d0 (bill (tid_payer tab) (- billable_table_id_object) (fun _ => 0)) (set_td_ledger l d) ->
  _indices (td_tables d) !! t = Some tab -> _indices gt = delete t (_indices (td_tables d)) ->
  balanced d0 (fun _ => 0) (set_td_tables gt (set_td_ledger l d)).
Proof.
  intros [Hl Hb] Ht Hi. split; [done|]. intros a. specialize (Hb a). unfold bill in Hb.
  change (ram_price (set_td_ledger l d) a) with (ram_price d a) in Hb.
  cbn [td_ledger set_td_tables]. assert (Hp : ram_price (set_td_tables gt (set_td_ledger l d)) a
    = ram_price d a - if a =? tid_payer tab then billable_table_id_object else 0).
  { unfold ram_price. cbn [td_tables set_td_tables set_td_ledger]. rewrite Hi, (table_price_delete _ t tab) by done.
    rewrite (sum_slots_ext (fun k => row_price k d a) (fun k => row_price k (set_td_tables gt (set_td_ledger l d)) a)) by (by intros []). lia. }
  rewrite Hp. destruct (a =? tid_payer tab); lia.
Qed.

Lemma wp_drop_row iterator o t tab r d0 d Q : tables_ok d -> balanced d0 (fun a => - if a =? row_payer r then cost r else 0) d ->
  _indices (td_tables d) !! t = Some tab -> _indices (slot_rows s d) !! o = Some r -> row_t_id r = t ->
  cache_get (slot_cache s d) iterator = Ok o -> rows_of t d < 2 ^ 32 ->
  (forall d', inv d0 d' -> Q tt d') -> wp (drop_row s iterator o t) E Q d.
Proof.
  intros Hok Hb Ht Hr Hrt Hg Hlt HQ. pose proof (to_caches d Hok) as Hca.
  destruct (to_count d Hok _ _ Ht) as [Hct Hpos].
  apply wp_bind. eapply wp_recount; [by apply tables_ok_counted|done..| |].
  { rewrite Hct. instantiate (1 := 1). rewrite u32_id; widths; lia. }
  intros gi d1 Hco1 Hb1 Ht1. destruct (sl_frame gi (td_ledger d) d) as (Hr1 & _ & Hc1 & _). fold d1 in Hr1, Hc1.
  assert (Hca1 : caches_ok d1) by (by apply caches_tables).
  apply wp_bind, wp_focus. eapply (wp_remove row_conflict_by); [|by rewrite Hr1|].
  { apply sl_rows_ok. by apply (co_rows _ _ _ Hco1). }
  intros gr Hgr Hgu. set (d2 := set_slot_rows s gr d1).
  destruct (sl_rows_frame gr d1) as (Hl2 & Htab2 & Hc2). fold d2 in Hl2, Htab2, Hc2.
  assert (Hco2 : counted t 0 d2) by (eapply (counted_delete s n cost fine t d1 gr o r); try done; by rewrite Hr1).
  assert (Hb2 : balanced d0 (fun _ => 0) d2).
  { eapply (balanced_set s n cost fine gr); [exact Hb1|]. intros a. rewrite Hgr, Hr1, (paid_rows_delete _ _ o r) by done. lia. }
  assert (Hst : stale (row_tables n d1) iterator o d2).
  { assert (Hcd : slot_cache s d2 = slot_cache s d1) by (rewrite <- !(sl_cache (s := s)); apply Hc2).
    split_and!; [rewrite Hcd, <- (sl_cache (s := s)); apply Hca1|by rewrite Hcd, Hc1| |].
    - unfold d2. rewrite row_tables_set, decide_True by done. by rewrite Hgr, fmap_delete, (sl_tables (s := s)).
    - intros m Hm. rewrite Hc2. unfold d2. rewrite row_tables_set, decide_False by done. apply Hca1. }
  rewrite <- Htab2 in Ht1. apply wp_bind, (wp_deref_table _ _ _ _ Ht1), wp_bind.
  pose proof (co_gap _ _ _ Hco2 _ Ht1) as Hgap. destruct (Z.eqb_spec (tid_count (set_count (tid_count tab - 1) tab)) 0) as [Hz|Hz].
  - apply wp_bind, (wp_deref_table _ _ _ _ Ht1), wp_bind. eapply wp_bill; [by vm_compute|exact Hb2|]. intros l Hl.
    apply wp_focus. eapply (wp_remove table_conflict); [apply Hco2|exact Ht1|]. intros gt Hgt Hgtu.
    set (d3 := set_td_tables gt (set_td_ledger l d2)).
    destruct (sl_frame gt l (set_td_ledger l d2)) as (_ & _ & Hca3 & _). destruct (sl_frame gt l d2) as (_ & _ & _ & Hca3').
    eapply (wp_forget _ iterator o t d0 d3); [| | | |exact HQ].
    + eapply counted_remove; [eapply counted_same; [apply same_rows_ledger|exact Hco2]| |exact Ht1|done|done].
      rewrite (rows_of_ext t d2) by (by intros []). lia.
    + intros [? Hx]. cbn in Hx. by rewrite Hgt, lookup_delete_eq in Hx.
    + by eapply balanced_table_removed.
    + destruct Hst as (S1 & S2 & S3 & S4). unfold stale, d3. rewrite Hca3, Hca3'. split_and!; [exact S1|done|rewrite <- S3; by destruct n|].
      intros m Hm. specialize (S4 m Hm). by destruct m.
  - apply wp_ret. eapply wp_forget; [exact Hco2| |exact Hb2|exact Hst|exact HQ]. intros _.
    pose proof (rows_of_nonneg t d2). lia.
Qed.

(** ** The operations, for any slot *)
Definition room d : Prop := forall t, rows_of t d < 2 ^ 32 - 1.

Lemma cost_s64 r : fine r -> is_s64 (cost r) /\ is_s64 (- cost r).
Proof. intros Hr%sl_cost. widths. lia. Qed.

Lemma stored_fine d o r : tables_ok d -> _indices (slot_rows s d) !! o = Some r -> fine r.
Proof. intros Hok Hr. pose proof (proj1 (sl_rows_ok d) (to_rows d Hok n)) as [_ Hc]. by eapply Hc. Qed.

Lemma wp_new_row t r payer size d0 d Q : counted t 0 d -> caches_ok d -> balanced d0 (fun _ => 0) d ->
  is_Some (_indices (td_tables d) !! t) -> row_t_id r = t -> row_payer r = payer -> size = cost r -> fine r -> rows_of t d < 2 ^ 32 - 1 ->
  (forall i d', inv d0 d' -> Q i d') ->
  wp (o ← on_rows s (emplace row_conflict_by r); count_row s t o payer size) E Q d.
Proof.
  intros Hco Hca Hb [tab Ht] Hrt <- -> Hc Hlt HQ. apply wp_bind, wp_focus, wp_emplace; [apply row_conflict_by_sym| |].
  { by apply (sl_rows_ok (s := s)), (co_rows _ _ _ Hco). }
  intros o gi Hn Hi Hu. destruct (sl_rows_frame gi d) as (_ & Htab & _).
  assert (Hrows : _indices (slot_rows s (set_slot_rows s gi d)) !! o = Some r) by (by rewrite sl_rows_set, Hi, lookup_insert_eq).
  eapply (wp_count_row t tab o r); [by eapply (counted_insert s n cost fine t d gi o r)| | |by rewrite Htab|exact Hrows|done| |by apply cost_s64|exact HQ].
  - eapply (caches_set s n cost fine); [done|]. intros c Hok. rewrite Hi, fmap_insert, <- (sl_tables (s := s)).
    apply cache_keeps_new_row; [done|]. by rewrite (sl_tables (s := s)), lookup_fmap, Hn.
  - eapply (balanced_set s n cost fine gi); [exact Hb|]. intros a. rewrite Hi, paid_rows_insert by done. cbn. lia.
  - rewrite rows_of_set, Hi, fmap_insert, (count_in_insert _ _ o), (sl_tables (s := s)) by (by rewrite lookup_fmap, Hn).
    case_match; lia.
Qed.

Lemma wp_update_row o r f d0 x d Q : tables_ok d -> balanced d0 x d -> _indices (slot_rows s d) !! o = Some r ->
  row_t_id (f r) = row_t_id r -> row_primary_key (f r) = row_primary_key r -> fine (f r) ->
  (forall a, x a = (if a =? row_payer (f r) then cost (f r) else 0) - if a =? row_payer r then cost r else 0) ->
  (forall d', inv d0 d' -> Q tt d') ->
  wp (on_rows s (index_modify row_conflict_by o f)) E Q d.
Proof.
  intros Hok Hb Hr Ht Hp Hc Hx HQ. apply wp_focus. eapply wp_modify; [|exact Hr| | |apply row_conflict_by_sym].
  - apply (sl_rows_ok (s := s)), (to_rows d Hok).
  - intros c. unfold row_conflict_by. by rewrite Ht, Hp.
  - intros gi Hi Hu. apply HQ. destruct (counted_update s n cost fine (row_t_id r) d gi o r (f r)) as [Hco Hm]; try done.
    { by apply tables_ok_counted. }
    split.
    + eapply (counted_tables_ok (row_t_id r)); [done| |].
      * destruct (sl_rows_frame gi d) as (_ & -> & _). intros [tab Htab]. rewrite (rows_of_ext _ d) by done.
        by destruct (to_count d Hok _ _ Htab).
      * intros m. rewrite Hm. destruct (sl_rows_frame gi d) as (_ & _ & ->). apply (to_caches d Hok).
    + eapply (balanced_set s n cost fine gi); [exact Hb|]. intros a. rewrite Hi, (paid_rows_update _ _ o r), Hx by done. lia.
Qed.

Lemma wp_search code scope table position d0 d Q : inv d0 d ->
  (forall t gi o r, position t gi = Some (o, r) -> _indices gi !! o = Some r) ->
  (forall i d', inv d0 d' -> Q i d') -> wp (search s code scope table position) E Q d.
Proof.
  intros Hi Hp HQ. apply wp_bind, wp_get. destruct (find_table _ _ _ _) as [[t tab]|]; [|by apply wp_ret, HQ].
  apply wp_bind, (wp_cache_table _ d0); [done|]. intros ei c d1 Hi1 Hc1. apply wp_bind, wp_get. cbn [fst].
  destruct (position t _) as [[o r]|] eqn:Eo; [|by apply wp_ret, HQ].
  destruct (Z.eqb_spec (row_t_id r) t) as [Ht|Ht]; cbn [negb]; [|by apply wp_ret, HQ].
  apply wp_bind. eapply wp_cache_add; [exact Hi1|by eapply Hp|rewrite Ht; eauto|]. intros. apply wp_ret. by apply HQ.
Qed.

Lemma wp_table_end code scope table d0 d Q : inv d0 d -> (forall i d', inv d0 d' -> Q i d') ->
  wp (table_end s code scope table) E Q d.
Proof.
  intros Hi HQ. apply wp_bind, wp_get. destruct (find_table _ _ _ _) as [[t tab]|]; [|by apply wp_ret, HQ].
  apply (wp_cache_table _ d0); [done|]. intros. by apply HQ.
Qed.

Lemma first_entry_stored (before : R -> R -> bool) p (gi : generic_index R) o r : first_entry before p gi = Some (o, r) ->
  _indices gi !! o = Some r /\ p r = true.
Proof.
  intros Hf. apply least_in in Hf. apply list_elem_of_filter in Hf as [Hp Hin]. by apply elem_of_map_to_list in Hin.
Qed.
Lemma last_entry_stored (before : R -> R -> bool) p (gi : generic_index R) o r : last_entry before p gi = Some (o, r) ->
  _indices gi !! o = Some r /\ p r = true.
Proof.
  intros Hf. apply least_in in Hf. apply list_elem_of_filter in Hf as [Hp Hin]. by apply elem_of_map_to_list in Hin.
Qed.

Lemma wp_next_row before iterator d0 d Q : inv d0 d -> (forall i d', inv d0 d' -> Q i d') ->
  wp (next_row s before iterator) E Q d.
Proof.
  intros Hi HQ. unfold next_row. destruct (iterator <? -1); [by apply wp_ret, HQ|].
  apply wp_bind, wp_get_row; [apply Hi|]. intros o r ei tab Hr Hg Hc Ht. apply wp_bind, wp_get. cbn [snd].
  assert (Hend : wp (ei ← lift (get_end_iterator_by_table_id (slot_cache s d) (row_t_id r)); mret (ei, None) : M (table_db S) (Z * option Z)) E Q d).
  { apply wp_bind, wp_lift; unfold get_end_iterator_by_table_id; rewrite Hc; [|done]. intros a _. by apply wp_ret, HQ. }
  destruct (following _ _ _) as [[p r']|] eqn:Ef; [|exact Hend]. apply first_entry_stored in Ef as [Hp _].
  destruct (Z.eqb_spec (row_t_id r') (row_t_id r)) as [He|]; cbn [negb]; [|exact Hend].
  apply wp_bind. eapply wp_cache_add; [exact Hi|exact Hp|rewrite He; eauto|]. intros. apply wp_ret. by apply HQ.
Qed.

(** *** Stepping back *)
Context (before : R -> R -> bool) `{!row_order fine before}.

Lemma entries_fine d (p : R -> bool) : tables_ok d ->
  forall e, e ∈ filter (fun e => p e.2 = true) (entries (slot_rows s d)) -> fine e.2.
Proof.
  intros Hok [o r] [_ Hin]%list_elem_of_filter. apply elem_of_map_to_list in Hin. by eapply (stored_fine d).
Qed.

Lemma first_entry_least d p e : tables_ok d -> first_entry before p (slot_rows s d) = Some e ->
  forall e', _indices (slot_rows s d) !! e'.1 = Some e'.2 -> p e'.2 = true -> before e'.2 e.2 = false.
Proof.
  intros Hok Hf [o r] Hr Hp. destruct (@least_minimal _ (fun e : Z * R => fine e.2) _ (on_snd_order fine before) _ _ (entries_fine d p Hok) Hf) as [_ Hm].
  apply (Hm (o, r)). apply list_elem_of_filter. split; [done|]. by apply elem_of_map_to_list.
Qed.

(** A position that is not the first has one before it. *)
Lemma preceding_some d itr : tables_ok d -> (forall o r, itr = Some (o, r) -> _indices (slot_rows s d) !! o = Some r) ->
  fst <$> itr <> fst <$> index_begin before (slot_rows s d) -> is_Some (preceding before (slot_rows s d) itr).
Proof.
  intros Hok Hst Hne. destruct itr as [[o r]|].
  - specialize (Hst o r eq_refl). destruct (index_begin before (slot_rows s d)) as [[o' r']|] eqn:Eb.
    + pose proof (first_entry_stored _ _ _ _ _ Eb) as [Hr' _].
      pose proof (first_entry_least d _ (o', r') Hok Eb (o, r) Hst eq_refl) as Hmin. cbn in *.
      destruct (before r' r) eqn:Er.
      * eapply least_is_some, list_elem_of_filter. instantiate (1 := (o', r')). cbn. split; [done|]. by apply elem_of_map_to_list.
      * exfalso. pose proof (ro_total r r' (stored_fine d _ _ Hok Hst) (stored_fine d _ _ Hok Hr') Hmin Er) as Hcf.
        destruct (proj1 (sl_rows_ok d) (to_rows d Hok n)) as [Hu _].
        assert (Hoo : o <> o') by congruence. pose proof (Hu o o' r r' Hoo Hst Hr'). congruence.
    + exfalso. assert (Hs : is_Some (index_begin before (slot_rows s d))).
      { eapply least_is_some, list_elem_of_filter. instantiate (1 := (o, r)). split; [done|]. by apply elem_of_map_to_list. }
      rewrite Eb in Hs. by destruct Hs.
  - destruct (index_begin before (slot_rows s d)) as [[o' r']|] eqn:Eb; [|done].
    pose proof (first_entry_stored _ _ _ _ _ Eb) as [Hr' _].
    eapply least_is_some, list_elem_of_filter. instantiate (1 := (o', r')). split; [done|]. by apply elem_of_map_to_list.
Qed.

Lemma preceding_stored d itr o r : preceding before (slot_rows s d) itr = Some (o, r) -> _indices (slot_rows s d) !! o = Some r.
Proof. destruct itr as [[? ?]|]; intros Hl; by apply last_entry_stored in Hl as [? _]. Qed.

Lemma wp_step_back t ei itr d0 d Q : inv d0 d -> (forall o r, itr = Some (o, r) -> _indices (slot_rows s d) !! o = Some r) ->
  _table_cache (slot_cache s d) !! t = Some (t, ei) -> (forall i d', inv d0 d' -> Q i d') ->
  wp (step_back s before t itr) E Q d.
Proof.
  intros Hi Hst Hc HQ. apply wp_bind, wp_get. case_bool_decide as Hb; [by apply wp_ret, HQ|].
  destruct (preceding_some d itr (proj1 Hi) Hst Hb) as [[p r] Hp]. rewrite Hp.
  apply preceding_stored in Hp. destruct (Z.eqb_spec (row_t_id r) t) as [Ht|]; cbn [negb]; [|by apply wp_ret, HQ].
  apply wp_bind. eapply wp_cache_add; [exact Hi|exact Hp|rewrite Ht; eauto|]. intros. apply wp_ret. by apply HQ.
Qed.

(** Undefined behaviour needs the end iterator of a table that is gone, or the
    least integer. *)
Definition dangling_end d (iterator : Z) : Prop :=
  iterator = INT_MIN \/ exists t, find_table_by_end_iterator (slot_cache s d) iterator = Ok (Some t) /\ _indices (td_tables d) !! t = None.

Lemma wp_previous_row iterator d0 d Q : inv d0 d -> (iterator < -1 -> dangling_end d iterator -> E undefined_behaviour) ->
  (forall i d', inv d0 d' -> Q i d') ->
  wp (previous_row s before iterator) E Q d.
Proof.
  intros Hi HU HQ. apply wp_bind, wp_get. destruct (Z.ltb_spec iterator (-1)) as [Hlt|Hge].
  - apply wp_bind, wp_lift.
    + intros [t|] Hf; [|by apply wp_throw, HE]. apply wp_bind. destruct (_indices (td_tables d) !! t) as [tab|] eqn:Ht.
      * apply (wp_deref_table _ tab); [done|]. pose proof (to_caches d (proj1 Hi) n) as Hc. rewrite (sl_cache (s := s)) in Hc.
        assert (exists i : nat, _end_iterator_to_table (slot_cache s d) !! i = Some t) as [i Hti].
        { revert Hf. unfold find_table_by_end_iterator, end_iterator_to_index. intros Hf. minv.
          destruct (_ =? INT_MIN); [done|]. minv. destruct (_ >=? _); [done|]. minv. eauto. }
        eapply wp_step_back; [exact Hi| |by apply (ck_end _ _ Hc)|exact HQ].
        intros o r Hr. by apply first_entry_stored in Hr as [? _].
      * unfold wp, deref_table, deref. rewrite Ht. apply HU; [done|]. right. eauto.
    + unfold find_table_by_end_iterator, end_iterator_to_index. rewrite (proj2 (Z.ltb_lt _ _) Hlt). cbn.
      destruct (Z.eqb_spec iterator INT_MIN) as [He|]; cbn; [intros e [= <-]; apply HU; [done|by left]|].
      intros e. by destruct (_ >=? _).
  - apply wp_bind, wp_get_row; [apply Hi|]. intros o r ei tab Hr Hg Hc Ht. cbn [snd].
    eapply wp_step_back; [exact Hi|by intros ? ? [= <- <-]|exact Hc|exact HQ].
Qed.
End Steps.

(** ** Every operation *)
Lemma wp_db_store_i64 code scope table payer id buffer d0 d Q : inv d0 d -> room d -> Z.of_nat (length buffer) < 2 ^ 32 ->
  (forall i d', inv d0 d' -> Q i d') -> wp (db_store_i64 code scope table payer id buffer) E Q d.
Proof.
  intros [Hok Hb] Hroom Hlen HQ. apply wp_bind, (wp_find_or_create _ _ _ _ d0); [done..|].
  intros t d1 Hco Hca Hb1 Ht Ho. apply wp_bind, wp_massert; [by apply HE|]. intros _.
  eapply (wp_new_row keyval None kv_cost kv_fine t (mk_key_value t id payer buffer) payer); try done. rewrite Ho. apply Hroom.
Qed.

Lemma wp_idx_store k receiver scope table payer id value d0 d Q : inv d0 d -> room d -> secondary_key_ok k value ->
  (forall i d', inv d0 d' -> Q i d') -> wp (idx_store k receiver scope table payer id value) E Q d.
Proof.
  intros [Hok Hb] Hroom Hv HQ. apply wp_bind, wp_massert; [by apply HE|]. intros _.
  apply wp_bind, (wp_find_or_create _ _ _ _ d0); [done..|]. intros t d1 Hco Hca Hb1 Ht Ho.
  eapply (wp_new_row (idx k) (Some k) _ (ix_fine k) t (mk_index_object t id payer value) payer); try done. rewrite Ho. apply Hroom.
Qed.

Lemma balanced_start d0 d : inv d0 d -> balanced d0 (fun _ => 0) d.
Proof. by intros []. Qed.

(** The row that is to change, after the bill. *)
Lemma row_after_bill {R} `{row R} (s : slot S R) n cost fine `{!slot_laws s n cost fine} l d o r :
  _indices (slot_rows s d) !! o = Some r -> _indices (slot_rows s (set_td_ledger l d)) !! o = Some r.
Proof. destruct (sl_frame (td_tables d) l d) as (_ & -> & _). done. Qed.

Lemma wp_db_update_i64 receiver iterator payer buffer d0 d Q : inv d0 d -> Z.of_nat (length buffer) < 2 ^ 32 ->
  (forall d', inv d0 d' -> Q tt d') -> wp (db_update_i64 receiver iterator payer buffer) E Q d.
Proof.
  intros [Hok Hb] Hlen HQ. apply wp_bind, (wp_get_row keyval None kv_cost kv_fine); [done|].
  intros o r ei tab Hr Hg Hc Ht. apply wp_bind, (wp_owned_table keyval receiver r ei tab); [done..|]. intros _. cbn [snd fst].
  pose proof (sl_cost r (stored_fine keyval None kv_cost kv_fine d o r Hok Hr)) as Hcr. unfold kv_cost in Hcr.
  set (p := if payer =? 0 then kv_payer r else payer). change billable_key_value_object with 112 in *. apply wp_bind.
  set (r' := mk_key_value (kv_t_id r) (kv_primary_key r) p buffer).
  assert (Hend : forall x d', tables_ok d' -> balanced d0 x d' -> _indices (td_keyval d') !! o = Some r ->
    (forall a, x a = (if a =? p then kv_cost r' else 0) - if a =? kv_payer r then kv_cost r else 0) ->
    wp (on_rows keyval (index_modify row_conflict_by o (fun o => mk_key_value (kv_t_id o) (kv_primary_key o) p buffer))) E Q d').
  { intros x d' Hok' Hx Hr' Hxe. by eapply (wp_update_row keyval None kv_cost kv_fine). }
  unfold kv_cost in Hend. change billable_key_value_object with 112 in Hend. cbn [kv_value r'] in Hend.
  destruct (Z.eqb_spec (kv_payer r) p) as [He|Hne]; cbn [negb].
  - destruct (Z.eqb_spec (Z.of_nat (length (kv_value r)) + 112) (Z.of_nat (length buffer) + 112)) as [Hl|Hl]; cbn [negb].
    + apply wp_ret. eapply Hend; [exact Hok|exact Hb|exact Hr|]. intros a. rewrite He. destruct (a =? p); lia.
    + eapply wp_bill; [widths; lia|exact Hb|]. intros l Hx. eapply Hend; [by apply tables_ok_ledger|exact Hx|exact Hr|].
      intros a. unfold bill. rewrite He. destruct (a =? p); lia.
  - apply wp_bind. eapply wp_bill; [widths; lia|exact Hb|]. intros l1 Hx1. eapply wp_bill; [widths; lia|exact Hx1|]. intros l2 Hx2.
    eapply Hend; [by apply tables_ok_ledger, tables_ok_ledger|exact Hx2|exact Hr|].
    intros a. unfold bill. destruct (a =? kv_payer r), (a =? p); lia.
Qed.

Lemma wp_db_remove_i64 receiver iterator d0 d Q : inv d0 d -> room d -> (forall d', inv d0 d' -> Q tt d') ->
  wp (db_remove_i64 receiver iterator) E Q d.
Proof.
  intros [Hok Hb] Hroom HQ. apply wp_bind, (wp_get_row keyval None kv_cost kv_fine); [done|].
  intros o r ei tab Hr Hg Hc Ht. apply wp_bind, (wp_owned_table keyval receiver r ei tab); [done..|]. intros _. cbn [snd fst].
  destruct (cost_s64 keyval None kv_cost kv_fine r (stored_fine keyval None kv_cost kv_fine d o r Hok Hr)) as [_ Hs].
  apply wp_bind. eapply wp_bill; [exact Hs|exact Hb|]. intros l Hx.
  eapply (wp_drop_row keyval None kv_cost kv_fine iterator o (kv_t_id r) tab r d0); [by apply tables_ok_ledger| |exact Ht|exact Hr|done|exact Hg| |exact HQ].
  - eapply balanced_ext; [|exact Hx]. intros a. unfold bill. cbn. destruct (a =? kv_payer r); [|done]. unfold kv_cost. lia.
  - rewrite (rows_of_ext _ d) by (by intros []). specialize (Hroom (kv_t_id r)). lia.
Qed.

Lemma wp_idx_remove k receiver iterator d0 d Q : inv d0 d -> room d -> (forall d', inv d0 d' -> Q tt d') ->
  wp (idx_remove k receiver iterator) E Q d.
Proof.
  intros [Hok Hb] Hroom HQ. apply wp_bind, (wp_get_row (idx k) (Some k) _ (ix_fine k)); [done|].
  intros o r ei tab Hr Hg Hc Ht. cbn [snd fst].
  destruct (cost_s64 (idx k) (Some k) _ (ix_fine k) r (stored_fine (idx k) (Some k) _ (ix_fine k) d o r Hok Hr)) as [_ Hs].
  apply wp_bind. eapply wp_bill; [exact Hs|exact Hb|]. intros l Hx.
  apply wp_bind, (wp_owned_table (idx k) receiver r ei tab); [exact Hc|exact Ht|]. intros _.
  eapply (wp_drop_row (idx k) (Some k) _ (ix_fine k) iterator o (ix_t_id r) tab r d0); [by apply tables_ok_ledger| |exact Ht|exact Hr|done|exact Hg| |exact HQ].
  - eapply balanced_ext; [|exact Hx]. intros a. unfold bill. cbn. destruct (a =? ix_payer r); lia.
  - rewrite (rows_of_ext _ d) by (by intros []). specialize (Hroom (ix_t_id r)). lia.
Qed.

Lemma wp_idx_update k receiver iterator payer secondary d0 d Q : inv d0 d -> secondary_key_ok k secondary ->
  (forall d', inv d0 d' -> Q tt d') -> wp (idx_update k receiver iterator payer secondary) E Q d.
Proof.
  intros [Hok Hb] Hv HQ. apply wp_bind, (wp_get_row (idx k) (Some k) _ (ix_fine k)); [done|].
  intros o r ei tab Hr Hg Hc Ht. apply wp_bind, (wp_owned_table (idx k) receiver r ei tab); [done..|]. intros _. cbn [snd fst].
  set (p := if payer =? 0 then ix_payer r else payer). apply wp_bind.
  destruct (cost_s64 (idx k) (Some k) _ (ix_fine k) r (stored_fine (idx k) (Some k) _ (ix_fine k) d o r Hok Hr)) as [Hs Hs'].
  assert (Hend : forall x d', tables_ok d' -> balanced d0 x d' -> _indices (td_index d' k) !! o = Some r ->
    (forall a, x a = (if a =? p then billable_index_object k else 0) - if a =? ix_payer r then billable_index_object k else 0) ->
    wp (on_rows (idx k) (index_modify row_conflict_by o (fun o => mk_index_object (ix_t_id o) (ix_primary_key o) p secondary))) E Q d').
  { intros x d' Hok' Hx Hr' Hxe. by eapply (wp_update_row (idx k) (Some k) _ (ix_fine k)). }
  destruct (Z.eqb_spec (ix_payer r) p) as [He|Hne]; cbn [negb].
  - apply wp_ret. eapply Hend; [exact Hok|exact Hb|exact Hr|]. intros a. rewrite He. destruct (a =? p); lia.
  - apply wp_bind. eapply wp_bill; [exact Hs'|exact Hb|]. intros l1 Hx1. eapply wp_bill; [exact Hs|exact Hx1|]. intros l2 Hx2.
    eapply Hend; [by apply tables_ok_ledger, tables_ok_ledger|exact Hx2|exact Hr|].
    intros a. unfold bill. destruct (a =? ix_payer r), (a =? p); lia.
Qed.

Lemma find_key_stored {R} `{row R} id t (gi : generic_index R) o r : find_key id t gi = Some (o, r) -> _indices gi !! o = Some r.
Proof. by intros [? _]%find_by_some. Qed.

(** What the operations take from the intrinsics. *)
Definition op_fine (op : table_op) : Prop :=
  match op with
  | op_store _ _ _ _ buffer | op_update _ _ buffer => Z.of_nat (length buffer) < 2 ^ 32
  | op_idx_store k _ _ _ _ key | op_idx_update k _ _ key => secondary_key_ok k key
  | _ => True
  end.

Definition op_dangles (op : table_op) d : Prop :=
  match op with
  | op_previous iterator => iterator < -1 /\ dangling_end keyval d iterator
  | op_previous_secondary k iterator | op_previous_primary k iterator => iterator < -1 /\ dangling_end (idx k) d iterator
  | _ => False
  end.

Context `{!softfloat_laws}.

Lemma wp_run_table_op receiver op d0 d : inv d0 d -> room d -> op_fine op -> (op_dangles op d -> E undefined_behaviour) ->
  wp (run_table_op receiver op) E (fun _ d' => inv d0 d') d.
Proof.
  intros Hi Hroom Hf HD.
  assert (Hk : forall code scope table position, (forall t gi o r, position t gi = Some (o, r) -> _indices gi !! o = Some r) ->
    forall Q : Z * option key_value_object -> table_db S -> Prop, (forall i d', inv d0 d' -> Q i d') ->
    wp (search keyval code scope table position) E Q d).
  { intros. eapply (wp_search keyval None kv_cost kv_fine); eassumption. }
  assert (Hx : forall k code scope table position, (forall t gi o r, position t gi = Some (o, r) -> _indices gi !! o = Some r) ->
    forall Q : Z * option index_object -> table_db S -> Prop, (forall i d', inv d0 d' -> Q i d') ->
    wp (search (idx k) code scope table position) E Q d).
  { intros k. intros. eapply (wp_search (idx k) (Some k) _ (ix_fine k)); eassumption. }
  pose proof @first_entry_stored as Hfe.
  destruct op; cbn [run_table_op op_fine op_dangles] in *; try (apply wp_bind).
  - by apply (wp_db_store_i64 _ _ _ _ _ _ d0).
  - by apply (wp_db_update_i64 _ _ _ _ d0).
  - by apply (wp_db_remove_i64 _ _ d0).
  - apply wp_bind, (wp_get_row keyval None kv_cost kv_fine); [apply Hi|]. intros. by case_match.
  - by apply (wp_next_row keyval None kv_cost kv_fine by_primary _ d0).
  - apply (wp_previous_row keyval None kv_cost kv_fine by_primary _ d0); auto.
  - apply wp_fmap, Hk; [|done]. intros *. by apply find_key_stored.
  - apply wp_fmap, Hk; [|done]. intros * Hfd. by apply Hfe in Hfd as [? _].
  - apply wp_fmap, Hk; [|done]. intros * Hfd. by apply Hfe in Hfd as [? _].
  - by apply (wp_table_end keyval None kv_cost kv_fine _ _ _ d0).
  - by apply (wp_idx_store _ _ _ _ _ _ _ d0).
  - by apply (wp_idx_update _ _ _ _ _ d0).
  - by apply (wp_idx_remove _ _ _ d0).
  - apply wp_bind, (wp_get_row (idx k) (Some k) _ (ix_fine k)); [apply Hi|]. done.
  - apply wp_bind, Hx; [|done]. intros * Hfd. by apply Hfe in Hfd as [? _].
  - apply wp_bind, Hx; [|done]. intros * Hfd. by apply Hfe in Hfd as [? _].
  - apply wp_bind, Hx; [|done]. intros * Hfd. by apply Hfe in Hfd as [? _].
  - by apply (wp_table_end (idx k) (Some k) _ (ix_fine k) _ _ _ d0).
  - by apply (wp_next_row (idx k) (Some k) _ (ix_fine k) (by_secondary k) _ d0).
  - apply (wp_previous_row (idx k) (Some k) _ (ix_fine k) (by_secondary k) _ d0); auto.
  - apply wp_bind, Hx; [|done]. intros *. by apply find_key_stored.
  - apply wp_fmap, Hx; [|done]. intros * Hfd. by apply Hfe in Hfd as [? _].
  - apply wp_fmap, Hx; [|done]. intros * Hfd. by apply Hfe in Hfd as [? _].
  - by apply (wp_next_row (idx k) (Some k) _ (ix_fine k) by_primary _ d0).
  - apply (wp_previous_row (idx k) (Some k) _ (ix_fine k) by_primary _ d0); auto.
Qed.
End Invariant.

(** ** Sequences of operations *)
Section Reachable.
Context {S : Type} `{L : ram_ledger S} `{softfloat}.
Implicit Types d : table_db S.

Definition total_rows d : Z :=
  Z.of_nat (size (_indices (td_keyval d)))
  + foldr (fun k acc => Z.of_nat (size (_indices (td_index d k))) + acc) 0 index_kinds.

(** A new apply context starts with empty caches. *)
Definition fresh_context d : table_db S :=
  mk_table_db (td_ledger d) (td_tables d) (td_keyval d) (td_index d) cache_empty (fun _ => cache_empty).

Definition no_tables d : Prop :=
  td_tables d = index_empty /\ td_keyval d = index_empty /\ (forall k, td_index d k = index_empty)
  /\ keyval_cache d = cache_empty /\ (forall k, itr_cache d k = cache_empty).

(** An operation of the contract [receiver] that succeeds (a failed one is
    undone with its transaction), or the start of the next action. *)
Inductive table_step d : table_db S -> Prop :=
| table_step_op receiver op r d' :
    op_fine op -> total_rows d < 2 ^ 32 - 1 -> run_table_op receiver op d = (Ok r, d') -> table_step d d'
| table_step_context : table_step d (fresh_context d).

Lemma count_in_le_size t rows : count_in t rows <= Z.of_nat (size rows).
Proof. apply map_sum_le_size. intros. case_match; lia. Qed.

Lemma total_rows_room d : total_rows d < 2 ^ 32 - 1 -> room d.
Proof.
  intros Ht t. eapply Z.le_lt_trans; [|exact Ht]. unfold rows_of, sum_slots, total_rows. cbn.
  pose proof (fun n => count_in_le_size t (row_tables n d)) as Hs.
  pose proof (Hs None) as H0. pose proof (Hs (Some idx64)). pose proof (Hs (Some idx128)). pose proof (Hs (Some idx256)).
  pose proof (Hs (Some idx_double)). pose proof (Hs (Some idx_long_double)). cbn in *. rewrite !map_size_fmap in *. lia.
Qed.

Lemma no_tables_ok d : no_tables d -> tables_ok d /\ forall a, ram_price d a = 0.
Proof.
  intros (Ht & Hk & Hx & Hc & Hxc).
  assert (Hr : forall n, row_tables n d = ∅) by (intros [k|]; cbn; rewrite ?Hx, ?Hk; apply fmap_empty).
  split; [split|].
  - rewrite Ht. intros i j b c _. cbn. by rewrite lookup_empty.
  - intros n o u. by rewrite Hr, lookup_empty.
  - intros u tab. rewrite Ht. cbn. by rewrite lookup_empty.
  - intros [k|]; cbn; rewrite ?Hx, ?Hk; cbn; split; intros ? *; by rewrite lookup_empty.
  - intros n. rewrite Hr. destruct n as [k|]; cbn; rewrite ?Hc, ?Hxc; apply cache_empty_ok.
  - intros a. unfold ram_price. rewrite Ht, (sum_slots_ext (fun _ => 0)); [done|].
    intros [k|]; cbn; rewrite ?Hx, ?Hk; apply map_sum_empty.
Qed.

Lemma fresh_context_inv d0 d : inv d0 d -> inv d0 (fresh_context d).
Proof.
  intros [Hok Hb]. assert (Hs : same_rows d (fresh_context d)) by (split; [done|by intros []..]).
  split; [|by eapply balanced_same].
  eapply (counted_tables_ok 0); [by eapply counted_same; [|apply tables_ok_counted]| |intros []; apply cache_empty_ok].
  intros [tab Ht]. rewrite (rows_of_ext 0 d) by apply Hs. by destruct (to_count d Hok _ _ Ht).
Qed.

Context {RL : ram_ledger_laws S} {SL : softfloat_laws}.

Lemma table_step_inv d0 d d' : inv d0 d -> table_step d d' -> inv d0 d'.
Proof.
  intros Hi [receiver op r ? Hf Ht Hr|]; [|by apply fresh_context_inv].
  exact (wp_ok (fun _ => True) _ _ _ _ _ (wp_run_table_op (fun _ => True) (fun _ _ => I) receiver op d0 d Hi (total_rows_room _ Ht) Hf (fun _ => I)) Hr).
Qed.

Lemma reachable_inv d0 d : no_tables d0 -> ledger_ok (td_ledger d0) -> rtc table_step d0 d -> inv d0 d.
Proof.
  intros Hn Hl. assert (H0 : inv d0 d0) by (split; [by apply no_tables_ok|]; split; [done|intros; lia]).
  revert d. refine (rtc_ind_r _ _ _ _); [done|]. intros d1 d2 _ Hs Hi. by eapply table_step_inv.
Qed.
End Reachable.

(** ** The native state is a ledger *)
#[export] Instance native_ledger_laws {K} : ram_ledger_laws (native_db K).
Proof.
  split.
  - intros a delta d d' Hw Hd Hr. apply add_ram_usage_ok in Hr as (_ & _ & _ & _ & Hp). split.
    + by eapply add_pending_ram_usage_keeps.
    + by apply add_pending_ram_of.
  - intros a delta d e d'. cbn. intros Hr.
    enough (Hw : wp (add_ram_usage a delta) benign (fun _ _ => True) d) by exact (wp_err _ _ _ _ _ _ Hw Hr). clear.
    apply wp_bind, wp_bind. apply wp_focus. unfold add_pending_ram_usage. destruct (delta =? 0).
    { apply wp_ret. by case_match. }
    apply wp_bind. unfold wp at 1, get_usage. destruct (_ !! a) as [u|]; [|done].
    apply wp_bind, wp_massert; [done|]. intros _. apply wp_bind, wp_massert; [done|]. intros _. cbn. by case_match.
Qed.

(** ** A concrete ledger, and the order of IEEE 754 on bit patterns *)
Definition purse_ram (m : gmap Z Z) (a : Z) : Z := match m !! a with Some x => x | None => 0 end.
Definition purse : ram_ledger (gmap Z Z) := {|
  ledger_add a delta m := (Ok tt, <[a := purse_ram m a + delta]> m); ledger_ram := purse_ram; ledger_ok _ := True |}.

Lemma purse_laws : @ram_ledger_laws _ purse.
Proof.
  split; cbn; [|done]. intros a delta m m' _ _ [= <-]. split; [done|]. intros b. unfold purse_ram. rewrite lookup_insert.
  destruct (Z.eqb_spec b a) as [->|]; [by rewrite decide_True|]. rewrite decide_False by done. lia.
Qed.

(** The value of a sign-magnitude pattern of [w] bits, up to order. *)
Definition float_rank (w x : Z) : Z := if Z.testbit x (w - 1) then - (x mod 2 ^ (w - 1)) else x.
Definition ieee : softfloat := {|
  f64_lt a b := float_rank 64 a <? float_rank 64 b;
  f128_lt a b := float_rank 128 a <? float_rank 128 b;
  f64_is_nan a := 2047 * 2 ^ 52 <? a mod 2 ^ 63;
  f128_is_nan a := 32767 * 2 ^ 112 <? a mod 2 ^ 127 |}.

Lemma ieee_laws : @softfloat_laws ieee.
Proof. split; split; cbn; intros *; rewrite ?Z.ltb_lt, ?Z.ltb_ge; lia. Qed.

Abbreviation demo_db := (table_db (gmap Z Z)).
Definition demo_run := @run_table_op _ purse ieee.
Definition demo_tables0 : demo_db :=
  mk_table_db ∅ index_empty index_empty (fun _ => index_empty) cache_empty (fun _ => cache_empty).
Definition demo_op1 : table_op := op_store 1 2 7 10 [1; 2; 3].
Definition demo_op2 : table_op := op_idx_store idx_double 1 2 8 10 (2 ^ 63).
Definition demo_op3 : table_op := op_end 7 1 2.
Definition demo_op4 : table_op := op_remove 0.
Definition demo_op5 : table_op := op_idx_remove idx_double 0.
Definition demo_tables1 : demo_db := (demo_run 7 demo_op1 demo_tables0).2.
Definition demo_tables2 : demo_db := (demo_run 7 demo_op2 demo_tables1).2.
Definition demo_tables3 : demo_db := (demo_run 7 demo_op3 demo_tables2).2.
Definition demo_tables4 : demo_db := (demo_run 7 demo_op4 demo_tables3).2.
Definition demo_tables5 : demo_db := (demo_run 7 demo_op5 demo_tables4).2.

(** The bills of both accounts, and the counts of the tables. *)
Definition demo_bills (d : demo_db) : list Z * list Z :=
  ([purse_ram (td_ledger d) 7; purse_ram (td_ledger d) 8], map (fun t => tid_count t.2) (map_to_list (_indices (td_tables d)))).
Example demo_bills_run : map demo_bills [demo_tables0; demo_tables1; demo_tables2; demo_tables4; demo_tables5]
  = [([0; 0], []); ([227; 0], [1]); ([227; 128], [2]); ([112; 128], [1]); ([0; 0], [])].
Proof. by vm_compute. Qed.

Lemma demo_step op d r d' : @op_fine ieee op -> (total_rows d <? 2 ^ 32 - 1) = true -> (demo_run 7 op d).1 = Ok r ->
  (demo_run 7 op d).2 = d' -> @table_step _ purse ieee d d'.
Proof.
  intros Hf Ht%Z.ltb_lt Hr Hd. apply (@table_step_op _ purse ieee d 7 op r d' Hf Ht). unfold demo_run in *.
  destruct (run_table_op 7 op d). cbn in *. by subst.
Qed.

Lemma demo_reachable3 : rtc (@table_step _ purse ieee) demo_tables0 demo_tables3.
Proof.
  apply rtc_l with demo_tables1; [by apply (demo_step demo_op1 _ (0, []))|].
  apply rtc_l with demo_tables2; [by apply (demo_step demo_op2 _ (0, []))|].
  apply rtc_once. by apply (demo_step demo_op3 _ (-2, [])).
Qed.

Lemma demo_reachable5 : rtc (@table_step _ purse ieee) demo_tables0 demo_tables5.
Proof.
  etransitivity; [exact demo_reachable3|]. apply rtc_l with demo_tables4; [by apply (demo_step demo_op4 _ (0, []))|].
  apply rtc_once. by apply (demo_step demo_op5 _ (0, [])).
Qed.

(** Stepping back from the end of a table that is gone follows a dangling
    pointer. *)
Example previous_of_removed_table : (demo_run 7 (op_previous (-2)) demo_tables5).1 = Err undefined_behaviour.
Proof. by vm_compute. Qed.
Example previous_of_int_min : (demo_run 7 (op_previous INT_MIN) demo_tables5).1 = Err undefined_behaviour.
Proof. by vm_compute. Qed.

(** ** The theorems *)

(** C22: in every state that operations of contracts reach, each table counts
    exactly its rows in all six indices and has at least one, each row belongs
    to a table that exists, and the iterator caches mirror the rows; and every
    account has been billed exactly the RAM of the tables and rows it pays
    for. *)
Theorem reachable_tables {S : Type} `{ram_ledger S} `{softfloat} `{!ram_ledger_laws S} `{!softfloat_laws} (d0 d : table_db S) :
  no_tables d0 -> ledger_ok (td_ledger d0) -> rtc table_step d0 d ->
  tables_ok d /\ forall a, ledger_ram (td_ledger d) a = ledger_ram (td_ledger d0) a + ram_price d a.
Proof.
  intros Hn Hl Hr. destruct (reachable_inv d0 d Hn Hl Hr) as [Hok [_ Hb]]. split; [done|]. intros a.
  destruct (no_tables_ok d0 Hn) as [_ Hz]. specialize (Hb a). rewrite Hz in Hb. lia.
Qed.

Lemma reachable_tables_witness :
  (exists tab, _indices (td_tables demo_tables3) !! 0 = Some tab /\ tid_count tab = rows_of 0 demo_tables3)
  /\ purse_ram (td_ledger demo_tables3) 7 = @ram_price _ demo_tables3 7.
Proof.
  destruct (@reachable_tables _ purse ieee purse_laws ieee_laws demo_tables0 demo_tables3) as [Hok Hram].
  - repeat split.
  - exact I.
  - exact demo_reachable3.
  - split; [|exact (Hram 7)]. eexists. split; [reflexivity|]. eapply (to_count _ Hok). reflexivity.
Defined.

(** C23: operations on contract tables never hit a broken cache or abort; and
    they follow a dangling pointer only when a contract steps back from the
    end iterator of a table that is gone, or from the least integer. *)
Theorem table_ops_safe {S : Type} `{ram_ledger S} `{softfloat} `{!ram_ledger_laws S} `{!softfloat_laws}
    (d0 d : table_db S) (receiver : Z) (op : table_op) (e : exn) (d' : table_db S) :
  no_tables d0 -> ledger_ok (td_ledger d0) -> rtc table_step d0 d ->
  op_fine op -> total_rows d < 2 ^ 32 - 1 -> run_table_op receiver op d = (Err e, d') ->
  e <> table_not_in_cache /\ e <> aborted /\ (e = undefined_behaviour -> op_dangles op d).
Proof.
  intros Hn Hl Hr Hf Ht He. pose proof (reachable_inv d0 d Hn Hl Hr) as Hi.
  assert (Hw : wp (run_table_op receiver op) (fun e => benign e \/ (e = undefined_behaviour /\ op_dangles op d)) (fun _ d' => inv d0 d') d).
  { apply (wp_run_table_op _ (fun x Hx => or_introl Hx)); [exact Hi|by apply total_rows_room|exact Hf|intros Hd; by right]. }
  destruct (wp_err _ _ _ _ _ _ Hw He) as [(Hu & Hc & Ha)|[-> Hd]]; done.
Qed.

Lemma table_ops_safe_witness : op_dangles (op_previous (-2)) demo_tables5.
Proof.
  refine (proj2 (proj2 (@table_ops_safe _ purse ieee purse_laws ieee_laws demo_tables0 demo_tables5 7 (op_previous (-2))
    undefined_behaviour demo_tables5 _ I demo_reachable5 I _ _)) eq_refl).
  - repeat split.
  - by apply Z.ltb_lt.
  - vm_compute. reflexivity.
Defined.
