(* ===== verification/TableOrder.v ===== *)
(** * Walking the tables of contracts
      ([apply_context.hpp], [apply_context.cpp])

    The iterators of a table move along its rows in the order of the index:
    stepping forward and back returns to the same iterator, also over the end
    of the table; a walk from [db_lowerbound_i64] with [db_next_i64] reads
    every row once, in the order of the keys; and what [db_store_i64] stores
    is what [db_find_i64] and [db_get_i64] find. *)

From stdpp Require Import functions sorting.
From S2P Require Import Prelude Merkle Chainbase ResourceLimits Names Authority AuthorityChecker Authorization EosioContract NativeState NativeRam ContractTables TableInvariant.
#[local] Open Scope Z_scope.

(** ** The order of the rows *)
Section Order.
Context {S : Type} `{L : ram_ledger S} `{softfloat}.
Implicit Types d : table_db S.
Context {R : Type} `{row R} (s : slot S R) (n : slot_name) (cost : R -> Z) (fine : R -> Prop) `{!slot_laws s n cost fine}.
Context (before : R -> R -> bool) `{!row_order fine before}.

Abbreviation stored d o r := (_indices (slot_rows s d) !! o = Some r).

Lemma same_row d o o' r r' : tables_ok d -> stored d o r -> stored d o' r' ->
  before r r' = false -> before r' r = false -> o' = o /\ r' = r.
Proof.
  intros Hok Hr Hr' H1 H2. destruct (decide (o' = o)) as [->|Hne]; [split; [done|congruence]|].
  destruct (proj1 (sl_rows_ok d) (to_rows d Hok n)) as [Hu Hf].
  assert (Hc : row_conflict_by r r' = true) by (apply ro_total; try done; by eapply Hf).
  rewrite (Hu o o' r r') in Hc; [done| |done|done]. congruence.
Qed.

Lemma last_entry_is d p o r : tables_ok d -> stored d o r -> p r = true ->
  (forall o' x, stored d o' x -> p x = true -> before r x = false) ->
  last_entry before p (slot_rows s d) = Some (o, r).
Proof.
  intros Hok Hr Hp Hmax. destruct (last_entry before p (slot_rows s d)) as [[o' r']|] eqn:El.
  - pose proof (last_entry_stored _ _ _ _ _ El) as [Hr' Hp'].
    pose proof (on_snd_order fine before) as Hord.
    destruct (@least_minimal _ (fun e : Z * R => fine e.2) (fun x y => before y.2 x.2) strict_weak_flip _ _
      (entries_fine s n cost fine d p Hok) El) as [_ Hm].
    assert (Hb : before r' r = false).
    { apply (Hm (o, r)). apply list_elem_of_filter. split; [done|]. by apply elem_of_map_to_list. }
    destruct (same_row d o o' r r' Hok Hr Hr' (Hmax _ _ Hr' Hp') Hb) as [-> ->]. done.
  - exfalso. assert (Hs : is_Some (last_entry before p (slot_rows s d))).
    { eapply least_is_some, list_elem_of_filter. instantiate (1 := (o, r)). split; [done|]. by apply elem_of_map_to_list. }
    rewrite El in Hs. by destruct Hs.
Qed.

Lemma first_entry_none d p o r : first_entry before p (slot_rows s d) = None -> stored d o r -> p r = false.
Proof.
  intros Hn Hr. destruct (p r) eqn:E; [|done]. exfalso.
  assert (Hs : is_Some (first_entry before p (slot_rows s d))).
  { eapply least_is_some, list_elem_of_filter. instantiate (1 := (o, r)). split; [done|]. by apply elem_of_map_to_list. }
  rewrite Hn in Hs. by destruct Hs.
Qed.

(** Rows of an earlier table come first. *)
Lemma before_table d o o' r r' : tables_ok d -> stored d o r -> stored d o' r' -> row_t_id r < row_t_id r' -> before r r' = true.
Proof.
  intros Hok Hr Hr' Hlt. destruct (before r r') eqn:E; [done|]. destruct (before r' r) eqn:E'; [apply ro_table in E'; lia|].
  destruct (same_row d o o' r r' Hok Hr Hr' E E') as [_ ->]. lia.
Qed.

(** A row with one before it is not the first. *)
Lemma not_begin d o r p r' : tables_ok d -> stored d o r -> stored d p r' -> before r r' = true ->
  Some p <> fst <$> index_begin before (slot_rows s d).
Proof.
  intros Hok Hr Hp Hb He. destruct (index_begin _ _) as [[q rq]|] eqn:Eb; [|done]. cbn in He. injection He as <-.
  pose proof (first_entry_stored _ _ _ _ _ Eb) as [Hq _]. replace rq with r' in Eb by congruence.
  pose proof (first_entry_least s n cost fine before d _ _ Hok Eb (o, r) Hr eq_refl) as Hm. cbn in Hm. congruence.
Qed.

(** What comes after a row, and what comes before that. *)
Lemma preceding_following d o r p r' : tables_ok d -> stored d o r -> following before (slot_rows s d) r = Some (p, r') ->
  preceding before (slot_rows s d) (Some (p, r')) = Some (o, r).
Proof.
  intros Hok Hr Hf. pose proof (first_entry_stored _ _ _ _ _ Hf) as [Hp Hb].
  apply last_entry_is; [done..|]. intros o' x Hx Hxr. destruct (before r x) eqn:E; [|done].
  pose proof (first_entry_least s n cost fine before d _ _ Hok Hf (o', x) Hx E) as Hm. cbn in Hm. congruence.
Qed.

(** The last row of a table is before the end of the table. *)
Lemma preceding_end d o r : tables_ok d -> stored d o r ->
  (forall p r', following before (slot_rows s d) r = Some (p, r') -> row_t_id r' <> row_t_id r) ->
  let itr := first_entry before (fun x => row_t_id r <? row_t_id x) (slot_rows s d) in
  fst <$> itr <> fst <$> index_begin before (slot_rows s d)
  /\ preceding before (slot_rows s d) itr = Some (o, r).
Proof.
  intros Hok Hr Hnext itr.
  assert (Hlast : forall o' x, stored d o' x -> row_t_id x = row_t_id r -> before r x = false).
  { intros o' x Hx Ht. destruct (before r x) eqn:E; [|done].
    destruct (following before (slot_rows s d) r) as [[p r']|] eqn:Ef; [|by rewrite (first_entry_none _ _ _ _ Ef Hx) in E].
    pose proof (first_entry_stored _ _ _ _ _ Ef) as [Hp Hb]. specialize (Hnext _ _ eq_refl). apply ro_table in Hb as Hle.
    pose proof (first_entry_least s n cost fine before d _ _ Hok Ef (o', x) Hx E) as Hm. cbn in Hm.
    rewrite (before_table d o' p x r') in Hm; [done..|]. lia. }
  destruct itr as [[q rq]|] eqn:Ei; subst itr.
  - pose proof (first_entry_stored _ _ _ _ _ Ei) as [Hq Hlt%Z.ltb_lt]. split.
    + eapply not_begin; [done|exact Hr|exact Hq|]. by eapply before_table.
    + apply last_entry_is; [done|done|by eapply before_table|]. intros o' x Hx Hxq. destruct (before r x) eqn:E; [|done].
      apply ro_table in E as Hle. destruct (decide (row_t_id x = row_t_id r)) as [He|Hne]; [rewrite (Hlast o' x Hx He) in E; done|].
      pose proof (first_entry_least s n cost fine before d _ _ Hok Ei (o', x) Hx) as Hm. cbn in Hm.
      rewrite Hm in Hxq; [done|]. apply Z.ltb_lt. lia.
  - split.
    + destruct (index_begin _ _) as [e|] eqn:Eb; [done|]. by pose proof (first_entry_none _ _ _ _ Eb Hr).
    + apply last_entry_is; [done..|]. intros o' x Hx _. destruct (before r x) eqn:E; [|done].
      apply ro_table in E as Hle. pose proof (first_entry_none _ _ _ _ Ei Hx) as Hn%Z.ltb_ge.
      rewrite (Hlast o' x Hx) in E; [done|]. lia.
Qed.

(** ** Iterators *)

(** The iterator [i] stands for the row [o]. *)
Definition points d (i o : Z) : Prop := cache_get (slot_cache s d) i = Ok o.

Lemma cache_get_iff c i o : cache_get c i = Ok o <-> 0 <= i /\ _iterator_to_object c !! Z.to_nat i = Some (Some o).
Proof.
  unfold cache_get. split.
  - intros Hg. minv. btests. destruct (_ !! Z.to_nat i) as [[p|]|] eqn:E; simplify_eq. split; [lia|done].
  - intros [Hi Ho]. pose proof (lookup_lt_Some _ _ _ Ho) as Hl.
    rewrite !(proj2 (eos_assert_ok _ _)) by lia. cbn. by rewrite Ho.
Qed.

Lemma cache_add_keeps o c i c' j p : cache_add o c = (Ok i, c') -> cache_get c j = Ok p -> cache_get c' j = Ok p.
Proof.
  unfold cache_add. rewrite !cache_get_iff. destruct (_object_to_iterator c !! o); intros [= <- <-]; [done|].
  intros [Hj Hp]. split; [done|]. cbn. by apply lookup_app_l_Some.
Qed.

Lemma cache_add_ends o c i c' : cache_add o c = (Ok i, c') -> _end_iterator_to_table c' = _end_iterator_to_table c.
Proof. unfold cache_add. by destruct (_object_to_iterator c !! o); intros [= <- <-]. Qed.

Lemma cache_add_again rows o c i : cache_ok rows c -> cache_get c i = Ok o -> cache_add o c = (Ok i, c).
Proof.
  intros Hok [Hi Ho]%cache_get_iff. destruct (ck_object _ _ Hok _ _ Ho) as [Hz _]. unfold cache_add. rewrite Hz.
  by rewrite Z2Nat.id by lia.
Qed.

(** The row behind a valid iterator. *)
Lemma points_stored d i o : tables_ok d -> points d i o ->
  exists r ei tab, stored d o r /\ _table_cache (slot_cache s d) !! row_t_id r = Some (row_t_id r, ei)
    /\ _indices (td_tables d) !! row_t_id r = Some tab.
Proof.
  intros Hok Hp. pose proof (to_caches d Hok n) as Hc. rewrite (sl_cache (s := s)) in Hc.
  destruct (cache_get_spec _ _ _ _ Hc Hp) as (_ & _ & t & ei & Ht & Hte).
  destruct (to_home d Hok n o t Ht) as [tab Htab]. rewrite (sl_tables (s := s)), lookup_fmap in Ht.
  destruct (_indices (slot_rows s d) !! o) as [r|] eqn:Er; [|done]. injection Ht as <-. by exists r, ei, tab.
Qed.

Lemma get_row_run d i o r : points d i o -> stored d o r -> get_row s i d = (Ok (o, r), d).
Proof. intros Hp Hr. unfold get_row, deref_row, deref. mrun. by rewrite Hp, Hr. Qed.

(** The rows after a change of the cache. *)
Lemma cached_rows d c : slot_rows s (set_slot_cache s c d) = slot_rows s d.
Proof. by destruct (sl_cache_frame (s := s) c d) as (_ & _ & -> & _). Qed.

(** End iterators fit into [int]. *)
Definition ends_fit d : Prop := Z.of_nat (length (_end_iterator_to_table (slot_cache s d))) < 2 ^ 31 - 2.

Lemma find_end_table c i t : cache_ok (row_tables n c) (slot_cache s c) -> _end_iterator_to_table (slot_cache s c) !! i = Some t ->
  ends_fit c -> find_table_by_end_iterator (slot_cache s c) (index_to_end_iterator (Z.of_nat i)) = Ok (Some t).
Proof.
  unfold ends_fit, find_table_by_end_iterator, index_to_end_iterator, end_iterator_to_index, INT_MIN.
  intros Hc Ht Hfit. pose proof (lookup_lt_Some _ _ _ Ht) as Hl.
  rewrite (proj2 (eos_assert_ok _ _)) by lia. cbn [mbind res_bind].
  destruct (Z.eqb_spec (- (Z.of_nat i + 2)) (- 2 ^ 31)); [lia|]. cbn [mbind res_bind].
  replace (- - (Z.of_nat i + 2) - 2) with (Z.of_nat i) by lia.
  destruct (Z.geb_spec (Z.of_nat i) (Z.of_nat (length (_end_iterator_to_table (slot_cache s c))))); [lia|].
  by rewrite Nat2Z.id, Ht.
Qed.

Lemma next_row_run d i o r : tables_ok d -> ends_fit d -> points d i o -> stored d o r ->
  match following before (slot_rows s d) r with
  | Some (p, r') =>
      if row_t_id r' =? row_t_id r then
        exists j c, next_row s before i d = (Ok (j, Some (row_primary_key r')), set_slot_cache s c d)
          /\ _end_iterator_to_table c = _end_iterator_to_table (slot_cache s d)
          /\ tables_ok (set_slot_cache s c d) /\ cache_get c j = Ok p /\ forall j' q, points d j' q -> cache_get c j' = Ok q
      else exists ei, next_row s before i d = (Ok (ei, None), d) /\ find_table_by_end_iterator (slot_cache s d) ei = Ok (Some (row_t_id r))
  | None => exists ei, next_row s before i d = (Ok (ei, None), d) /\ find_table_by_end_iterator (slot_cache s d) ei = Ok (Some (row_t_id r))
  end.
Proof.
  intros Hok Hfit Hp Hr. destruct (points_stored d i o Hok Hp) as (r0 & ei & tab & Hr0 & Hc & _). simplify_eq.
  pose proof (to_caches d Hok n) as Hca. pose proof Hca as Hcs. rewrite (sl_cache (s := s)) in Hcs.
  destruct (ck_table _ _ Hcs _ _ Hc) as (_ & e & He & Hend). cbn in He. subst ei.
  assert (Hi : (i <? -1) = false) by (apply cache_get_iff in Hp as [? _]; lia).
  pose proof (find_end_table d e _ Hcs Hend Hfit) as Hfind.
  pose proof (get_row_run d i o r Hp Hr) as Hget.
  assert (Hno : forall k, (forall d', k d' = (Ok (index_to_end_iterator (Z.of_nat e), None), d')) -> forall d',
    k d' = (Ok (index_to_end_iterator (Z.of_nat e), @None Z), d')) by auto.
  unfold next_row. rewrite Hi. unfold mbind, M_bind. rewrite Hget. cbn [snd get lift].
  unfold get_end_iterator_by_table_id. rewrite Hc. cbn [snd].
  destruct (following before (slot_rows s d) r) as [[p r']|] eqn:Ef; [|by eexists].
  destruct (Z.eqb_spec (row_t_id r') (row_t_id r)) as [Ht|Ht]; cbn [negb]; [|by eexists].
  destruct (cache_add_spec (row_tables n d) p (row_t_id r') (slot_cache s d)) as (j & c & Ha & Hok' & Hj & _).
  { done. }
  { eapply (slot_row s n cost fine), (first_entry_stored _ _ _ _ _ Ef). }
  { rewrite Ht. eauto. }
  exists (Z.of_nat j), c. unfold on_cache, focus. rewrite Ha. cbn [mret M_ret]. split_and!.
  - done.
  - by eapply cache_add_ends.
  - by eapply (tables_ok_cache s n cost fine).
  - apply cache_get_iff. rewrite Nat2Z.id. split; [lia|done].
  - intros j' q Hq. by eapply cache_add_keeps.
Qed.

Lemma step_back_run d i o r itr t : tables_ok d -> row_t_id r = t -> points d i o ->
  fst <$> itr <> fst <$> index_begin before (slot_rows s d) -> preceding before (slot_rows s d) itr = Some (o, r) ->
  exists d', step_back s before t itr d = (Ok (i, Some (row_primary_key r)), d').
Proof.
  intros Hok Ht Hi Hb Hp. unfold step_back, mbind, M_bind. cbn [get].
  rewrite bool_decide_eq_false_2 by done. rewrite Hp, Ht, Z.eqb_refl. cbn [negb].
  pose proof (to_caches _ Hok n) as Hca. rewrite (sl_cache (s := s)) in Hca.
  unfold on_cache, focus. rewrite (cache_add_again _ _ _ _ Hca Hi). by eexists.
Qed.

Lemma previous_from_end d i o r ei : tables_ok d -> points d i o -> stored d o r ->
  find_table_by_end_iterator (slot_cache s d) ei = Ok (Some (row_t_id r)) ->
  (forall p r', following before (slot_rows s d) r = Some (p, r') -> row_t_id r' <> row_t_id r) ->
  exists d', previous_row s before ei d = (Ok (i, Some (row_primary_key r)), d').
Proof.
  intros Hok Hp Hr Hei Hlast. destruct (points_stored d i o Hok Hp) as (r0 & _ & tab & Hr0 & _ & Htab). simplify_eq.
  destruct (preceding_end d o r Hok Hr Hlast) as [Hb Hpre].
  assert (Hlt : (ei <? -1) = true).
  { unfold find_table_by_end_iterator in Hei. by destruct (ei <? -1). }
  destruct (step_back_run d i o r _ (row_t_id r) Hok eq_refl Hp Hb Hpre) as [d' Hs]. exists d'.
  unfold previous_row, mbind, M_bind. cbn [get]. rewrite Hlt. unfold lift. rewrite Hei.
  unfold deref_table, deref. by rewrite Htab.
Qed.

(** Going back after going on. *)
Lemma previous_next d i o r j out d' : tables_ok d -> ends_fit d -> points d i o -> stored d o r ->
  next_row s before i d = (Ok (j, out), d') ->
  exists d'', previous_row s before j d' = (Ok (i, Some (row_primary_key r)), d'').
Proof.
  intros Hok Hfit Hp Hr Hn. pose proof (next_row_run d i o r Hok Hfit Hp Hr) as Hrun.
  destruct (following before (slot_rows s d) r) as [[p r']|] eqn:Ef.
  2:{ destruct Hrun as (ei & Hrun & Hei). rewrite Hrun in Hn. simplify_eq. eapply previous_from_end; [done..|]. by rewrite Ef. }
  destruct (Z.eqb_spec (row_t_id r') (row_t_id r)) as [Ht|Ht].
  2:{ destruct Hrun as (ei & Hrun & Hei). rewrite Hrun in Hn. simplify_eq. eapply previous_from_end; [done..|].
      rewrite Ef. by intros ? ? [= <- <-]. }
  destruct Hrun as (j' & c & Hrun & _ & Hok' & Hj & Hkeep). rewrite Hrun in Hn. injection Hn as <- <- <-.
  set (d1 := set_slot_cache s c d) in *. assert (Hrows : slot_rows s d1 = slot_rows s d) by apply cached_rows.
  pose proof (first_entry_stored _ _ _ _ _ Ef) as [Hsp Hb].
  assert (Hp1 : points d1 j' p) by (unfold points, d1; by rewrite (sl_cache_set (s := s))).
  assert (Hi1 : points d1 i o) by (unfold points, d1; rewrite (sl_cache_set (s := s)); by apply Hkeep).
  rewrite <- Hrows in Ef, Hsp, Hr.
  destruct (step_back_run d1 i o r (Some (p, r')) (row_t_id r') Hok' (eq_sym Ht) Hi1) as [d2 Hs].
  { eapply not_begin; [exact Hok'|exact Hr|exact Hsp|exact Hb]. }
  { by eapply preceding_following. }
  exists d2. assert (Hlt : (j' <? -1) = false) by (apply cache_get_iff in Hj as [? _]; lia).
  unfold previous_row, mbind, M_bind. cbn [get]. rewrite Hlt, (get_row_run d1 j' p r' Hp1 Hsp). exact Hs.
Qed.
End Order.

(** ** Reading a table *)
Section Walk.
Context {S : Type} `{L : ram_ledger S} `{softfloat}.
Implicit Types d : table_db S.

(** What a contract does that reads its rows from an iterator on. *)
Fixpoint walk_rows (fuel : nat) (itr : Z) : M (table_db S) (list (list Z)) :=
  if itr <? 0 then mret []
  else
    match fuel with
    | O => throw out_of_fuel
    | Datatypes.S fuel =>
        v ← db_get_i64 itr UINT32_MAX;
        next ← db_next_i64 itr;
        rest ← walk_rows fuel next.1;
        mret (v.2 :: rest)
    end.

Definition read_table (code scope table from : Z) (fuel : nat) : M (table_db S) (list (list Z)) :=
  itr ← db_lowerbound_i64 code scope table from;
  walk_rows fuel itr.

(** The reference: the rows of the table, sorted by their keys. *)
Definition key_le (x y : Z * key_value_object) : Prop := kv_primary_key x.2 <= kv_primary_key y.2.
#[export] Instance key_le_dec x y : Decision (key_le x y) := Z_le_dec _ _.
#[export] Instance key_le_total : Total key_le.
Proof. intros x y. unfold key_le. lia. Qed.
#[export] Instance key_le_trans : Transitive key_le.
Proof. intros x y z. unfold key_le. lia. Qed.

Definition rows_in_order d (t from : Z) : list (Z * key_value_object) :=
  merge_sort key_le (filter (fun e => kv_t_id e.2 = t /\ from <= kv_primary_key e.2) (entries (td_keyval d))).

Definition key_lt (x y : Z * key_value_object) : Prop := kv_primary_key x.2 < kv_primary_key y.2.

Lemma sorted_strict (l : list (Z * key_value_object)) : StronglySorted key_le l -> NoDup l ->
  (forall x y, x ∈ l -> y ∈ l -> kv_primary_key x.2 = kv_primary_key y.2 -> x = y) -> StronglySorted key_lt l.
Proof.
  induction 1 as [|x l Hs IH Hf]; intros Hnd Hu; constructor.
  - apply NoDup_cons in Hnd as [_ Hnd]. apply IH; [done|]. intros y z Hy Hz. apply Hu; by right.
  - apply NoDup_cons in Hnd as [Hx _]. apply Forall_forall. intros y Hy. rewrite Forall_forall in Hf. specialize (Hf y Hy).
    unfold key_lt, key_le in *. destruct (decide (kv_primary_key x.2 = kv_primary_key y.2)) as [He|]; [|lia].
    destruct Hx. by rewrite (Hu x y (list_elem_of_here _ _) (list_elem_of_further _ _ _ Hy) He).
Qed.

Lemma elem_of_rows_in_order d t from e : e ∈ rows_in_order d t from <->
  _indices (td_keyval d) !! e.1 = Some e.2 /\ kv_t_id e.2 = t /\ from <= kv_primary_key e.2.
Proof.
  unfold rows_in_order. rewrite merge_sort_Permutation, list_elem_of_filter. unfold entries. destruct e as [o r].
  rewrite elem_of_map_to_list. cbn. tauto.
Qed.

Lemma rows_in_order_sorted d t from : tables_ok d -> StronglySorted key_lt (rows_in_order d t from).
Proof.
  intros Hok. apply sorted_strict.
  - apply StronglySorted_merge_sort; apply _.
  - unfold rows_in_order. rewrite merge_sort_Permutation. apply NoDup_filter, NoDup_map_to_list.
  - intros [o r] [o' r'] (Hr & Ht & _)%elem_of_rows_in_order (Hr' & Ht' & _)%elem_of_rows_in_order Hk. cbn in *.
    destruct (same_row keyval None kv_cost kv_fine by_primary d o o' r r') as [-> ->]; try done.
    all: unfold by_primary; apply lex_lt_false; cbn; lia.
Qed.

Lemma walk_rows_run rs : forall d o r i fuel, tables_ok d -> ends_fit keyval d -> points keyval d i o ->
  _indices (td_keyval d) !! o = Some r ->
  StronglySorted key_lt ((o, r) :: rs) ->
  (forall e, e ∈ rs <-> _indices (td_keyval d) !! e.1 = Some e.2 /\ kv_t_id e.2 = kv_t_id r /\ kv_primary_key r < kv_primary_key e.2) ->
  (length rs < fuel)%nat ->
  exists d', walk_rows fuel i d = (Ok ((fun e => kv_value e.2) <$> ((o, r) :: rs)), d').
Proof.
  induction rs as [|[o2 r2] rs IH]; intros d o r i fuel Hok Hfit Hp Hr Hs Hall Hfuel.
  all: destruct fuel as [|fuel]; [cbn in Hfuel; lia|].
  all: assert (Hi : (i <? 0) = false) by (apply cache_get_iff in Hp as [? _]; lia).
  all: pose proof (get_row_run keyval d i o r Hp Hr) as Hget.
  all: assert (Hval : db_get_i64 i UINT32_MAX d = (Ok (Z.of_nat (length (kv_value r)), kv_value r), d)).
  1,3: destruct (proj1 (sl_rows_ok (s := keyval) d) (to_rows d Hok None)) as [_ Hfine]; pose proof (Hfine _ _ Hr) as Hlen;
    unfold kv_fine in Hlen; unfold db_get_i64, mbind, M_bind; rewrite Hget; cbn [snd]; change (UINT32_MAX =? 0) with false;
    cbn; unfold mret, M_ret; rewrite Z.min_r by (widths; lia); by rewrite Nat2Z.id, take_ge.
  all: pose proof (next_row_run keyval None kv_cost kv_fine by_primary d i o r Hok Hfit Hp Hr) as Hrun.
  all: cbn [walk_rows]; rewrite Hi; unfold mbind, M_bind; rewrite Hval; unfold db_next_i64.
  - assert (Hlast : exists ei, next_row keyval by_primary i d = (Ok (ei, None), d)
      /\ find_table_by_end_iterator (slot_cache keyval d) ei = Ok (Some (kv_t_id r))).
    { destruct (following by_primary (slot_rows keyval d) r) as [[p r']|] eqn:Ef; [|exact Hrun].
      pose proof (first_entry_stored _ _ _ _ _ Ef) as [Hst Hb]. destruct (Z.eqb_spec (row_t_id r') (row_t_id r)) as [Ht|]; [|exact Hrun].
      exfalso. apply (not_elem_of_nil (p, r')), Hall. split; [done|]. unfold by_primary in Hb. apply lex_lt_spec in Hb. cbn in *. lia. }
    destruct Hlast as (ei & -> & Hei). cbn [fst snd].
    assert (Hneg : (ei <? 0) = true).
    { unfold find_table_by_end_iterator in Hei. destruct (Z.ltb_spec ei (-1)); [lia|done]. }
    exists d. destruct fuel; cbn [walk_rows]; by rewrite Hneg.
  - assert (Hin : (o2, r2) ∈ (o2, r2) :: rs) by left. apply Hall in Hin as (Hst2 & Ht2 & Hlt2). cbn in Hst2, Ht2, Hlt2.
    destruct (following by_primary (slot_rows keyval d) r) as [[p r']|] eqn:Ef.
    2:{ exfalso. pose proof (first_entry_none keyval by_primary d _ _ _ Ef Hst2) as Hb. unfold by_primary in Hb. apply lex_lt_false in Hb. cbn in Hb. lia. }
    pose proof (first_entry_stored _ _ _ _ _ Ef) as [Hst Hb]. unfold by_primary in Hb. apply lex_lt_spec in Hb. cbn in Hb.
    pose proof (first_entry_least keyval None kv_cost kv_fine by_primary d _ _ Hok Ef (o2, r2) Hst2) as Hm. cbn in Hm.
    unfold by_primary in Hm. rewrite lex_lt_spec, lex_lt_false in Hm. cbn in Hm. specialize (Hm ltac:(lia)).
    assert (Hr' : (p, r') = (o2, r2)).
    { assert (Hin : (p, r') ∈ (o2, r2) :: rs) by (apply Hall; cbn; split; [exact Hst|lia]).
      apply elem_of_cons in Hin as [|Hin]; [done|]. apply StronglySorted_inv in Hs as [Hs _]. apply StronglySorted_inv in Hs as [_ Hs].
      rewrite Forall_forall in Hs. specialize (Hs _ Hin). unfold key_lt in Hs. cbn in Hs. lia. }
    injection Hr' as -> ->. change (row_t_id r2) with (kv_t_id r2) in Hrun. change (row_t_id r) with (kv_t_id r) in Hrun.
    rewrite Ht2, Z.eqb_refl in Hrun. destruct Hrun as (j & c & -> & Hends & Hok' & Hj & _). cbn [fst snd].
    destruct (IH (set_slot_cache keyval c d) o2 r2 j fuel) as [d' Hd']; [done| |exact Hj|exact Hst2| | |cbn in Hfuel; lia|].
    { unfold ends_fit. cbn. rewrite Hends. exact Hfit. }
    { by apply StronglySorted_inv in Hs as [? _]. }
    { intros e. cbn [td_keyval set_slot_cache keyval set_keyval_cache]. split.
      - intros He. pose proof He as He'. apply StronglySorted_inv in Hs as [Hs _]. apply StronglySorted_inv in Hs as [_ Hs].
        rewrite Forall_forall in Hs. specialize (Hs _ He). unfold key_lt in Hs. cbn in Hs.
        assert (Hin : e ∈ (o2, r2) :: rs) by (by right). apply Hall in Hin as (? & ? & ?). split_and!; [done|congruence|done].
      - intros (He & Het & Hek). assert (Hin : e ∈ (o2, r2) :: rs) by (apply Hall; split_and!; [done|congruence|lia]).
        apply elem_of_cons in Hin as [->|]; [cbn in Hek; lia|done]. }
    exists d'. by rewrite Hd'.
Qed.

(** Where the search for the first key arrives: at the first of the rows. *)
Lemma lower_bound_first d t from : tables_ok d ->
  match lower_bound_key from t (td_keyval d), rows_in_order d t from with
  | Some (o, r), e :: _ => kv_t_id r = t /\ e = (o, r)
  | Some (o, r), [] => kv_t_id r <> t
  | None, e :: _ => False
  | None, [] => True
  end.
Proof.
  intros Hok. pose proof (rows_in_order_sorted d t from Hok) as Hs. pose proof (elem_of_rows_in_order d t from) as Hel.
  destruct (lower_bound_key from t (td_keyval d)) as [[o r]|] eqn:El.
  - pose proof (first_entry_stored _ _ _ _ _ El) as [Hr Hb]. apply negb_true_iff, lex_lt_false in Hb. cbn in Hb.
    assert (Hmin : forall e, e ∈ rows_in_order d t from -> by_primary e.2 r = false).
    { intros e (He & Het & Hef)%Hel. apply (first_entry_least keyval None kv_cost kv_fine by_primary d _ (o, r) Hok El e He).
      apply negb_true_iff, lex_lt_false. cbn. lia. }
    destruct (rows_in_order d t from) as [|e rs].
    + intros Ht. apply (not_elem_of_nil (o, r)), Hel. split; [done|]. cbn. lia.
    + pose proof (Hmin e (list_elem_of_here _ _)) as He. unfold by_primary in He. apply lex_lt_false in He. cbn in He.
      destruct (proj1 (Hel e) (list_elem_of_here _ _)) as (_ & Het & Hef). assert (Ht : kv_t_id r = t) by lia. split; [done|].
      assert (Hin : (o, r) ∈ e :: rs) by (apply Hel; split; [done|cbn; lia]). apply elem_of_cons in Hin as [|Hin]; [done|].
      apply StronglySorted_inv in Hs as [_ Hs]. rewrite Forall_forall in Hs. specialize (Hs _ Hin). unfold key_lt in Hs. cbn in Hs. lia.
  - destruct (rows_in_order d t from) as [|e rs]; [done|]. destruct (proj1 (Hel e) (list_elem_of_here _ _)) as (He & Het & Hef).
    pose proof (first_entry_none keyval by_primary d _ _ _ El He) as Hb. apply negb_false_iff, lex_lt_spec in Hb. cbn in Hb. lia.
Qed.

Lemma cache_table_ends t c ei c' : cache_table t c = (Ok ei, c') ->
  (length (_end_iterator_to_table c') <= length (_end_iterator_to_table c) + 1)%nat.
Proof. unfold cache_table. destruct (_table_cache c !! t); intros [= <- <-]; cbn; rewrite ?length_app; cbn; lia. Qed.

Lemma walk_rows_end fuel ei d : ei < 0 -> walk_rows fuel ei d = (Ok [], d).
Proof. intros Hn%Z.ltb_lt. by destruct fuel; cbn [walk_rows]; rewrite Hn. Qed.

Lemma cache_table_negative rows t c ei c' : cache_ok rows c -> cache_table t c = (Ok ei, c') -> ei < 0.
Proof.
  intros Hok. unfold cache_table, index_to_end_iterator. destruct (_table_cache c !! t) as [e|] eqn:E; intros [= <- <-]; [|lia].
  destruct (ck_table _ _ Hok _ _ E) as (_ & i & -> & _). unfold index_to_end_iterator. lia.
Qed.

Lemma read_table_run d code scope table t tab from fuel : tables_ok d -> find_table code scope table d = Some (t, tab) ->
  Z.of_nat (length (_end_iterator_to_table (keyval_cache d))) < 2 ^ 31 - 3 -> (length (rows_in_order d t from) <= fuel)%nat ->
  exists d', read_table code scope table from fuel d = (Ok ((fun e => kv_value e.2) <$> rows_in_order d t from), d').
Proof.
  intros Hok Hfind Hfit Hfuel. pose proof (to_caches d Hok None) as Hc.
  destruct (cache_table_spec _ t (keyval_cache d) Hc) as (ei & c & Hct & Hcok & Htc & _).
  set (d1 := set_keyval_cache c d).
  assert (Hok1 : tables_ok d1) by (by apply (tables_ok_cache keyval None kv_cost kv_fine)).
  assert (Hfit1 : ends_fit keyval d1) by (unfold ends_fit; cbn; pose proof (cache_table_ends _ _ _ _ Hct); lia).
  pose proof (cache_table_negative _ _ _ _ _ Hc Hct) as Hneg.
  pose proof (lower_bound_first d t from Hok) as Hlb.
  unfold read_table, db_lowerbound_i64, search, fmap, M_fmap, mbind, M_bind. cbn [get]. rewrite Hfind. cbn [fst].
  unfold on_cache at 1, focus at 1. cbn [slot_cache keyval]. rewrite Hct. cbn [set_slot_cache slot_rows keyval]. fold d1.
  change (td_keyval d1) with (td_keyval d).
  destruct (lower_bound_key from t (td_keyval d)) as [[o r]|] eqn:El.
  2:{ destruct (rows_in_order d t from) as [|e rs]; [|done]. cbn. exists d1. by apply walk_rows_end. }
  change (row_t_id r) with (kv_t_id r). destruct (rows_in_order d t from) as [|e rs] eqn:Ers.
  - destruct (Z.eqb_spec (kv_t_id r) t); [done|]. cbn. exists d1. by apply walk_rows_end.
  - destruct Hlb as [Ht ->]. rewrite Ht, Z.eqb_refl. cbn [negb].
    pose proof (first_entry_stored _ _ _ _ _ El) as [Hr Hb]. apply negb_true_iff, lex_lt_false in Hb. cbn in Hb.
    destruct (cache_add_spec (row_tables None d) o t c Hcok) as (j & c2 & Ha & Hok2 & Hj & _).
    { cbn. by rewrite lookup_fmap, Hr, <- Ht. }
    { by eexists. }
    unfold on_cache, focus. cbn [slot_cache keyval]. change (keyval_cache d1) with c. rewrite Ha. cbn [mret M_ret fst].
    eapply walk_rows_run.
    + by apply (tables_ok_cache keyval None kv_cost kv_fine).
    + unfold ends_fit. cbn. rewrite (cache_add_ends _ _ _ _ Ha). exact Hfit1.
    + unfold points. cbn. apply cache_get_iff. rewrite Nat2Z.id. split; [lia|done].
    + exact Hr.
    + rewrite <- Ers. by apply rows_in_order_sorted.
    + intros e. cbn. pose proof (rows_in_order_sorted d t from Hok) as Hs. rewrite Ers in Hs. apply StronglySorted_inv in Hs as [_ Hs].
      rewrite Forall_forall in Hs. pose proof (elem_of_rows_in_order d t from e) as Hel. rewrite Ers, elem_of_cons in Hel. split.
      * intros He. specialize (Hs _ He). unfold key_lt in Hs. cbn in Hs. destruct (proj1 Hel (or_intror He)) as (? & ? & ?).
        split_and!; [done|congruence|done].
      * intros (He & Het & Hek). destruct (proj2 Hel) as [->|]; [split_and!; [done|congruence|lia]|cbn in Hek; lia|done].
    + cbn in Hfuel. lia.
Qed.

(** ** Storing and finding *)
Lemma find_by_unique {B} (conflict : B -> B -> bool) wanted (gi : generic_index B) o b : unique conflict (_indices gi) ->
  _indices gi !! o = Some b -> wanted b = true -> (forall x, wanted x = true -> conflict b x = true) -> find_by wanted gi = Some (o, b).
Proof.
  intros Hu Hb Hw Hx. destruct (find_by wanted gi) as [[i x]|] eqn:Ef.
  - apply find_by_some in Ef as [Hi Hwx]. destruct (decide (i = o)) as [->|Hne]; [congruence|].
    assert (Hc : conflict b x = false) by (by apply (Hu o i)). rewrite Hx in Hc; done.
  - by rewrite (find_by_none _ _ _ _ Ef Hb) in Hw.
Qed.

Lemma find_or_create_table_ok code scope table payer d t d1 : find_or_create_table code scope table payer d = (Ok t, d1) ->
  exists tab, _indices (td_tables d1) !! t = Some tab /\ by_code_scope_table code scope table tab = true.
Proof.
  unfold find_or_create_table. intros Hr. minv. destruct (find_table code scope table d) as [[t' tab]|] eqn:Ef.
  - minv. apply find_by_some in Ef as [? ?]. eauto.
  - unfold on_tables, update_db_usage, on_ledger in *. minv. match goal with He : emplace _ _ _ = _ |- _ => apply emplace_ok in He as (-> & _ & _ & Hi & _) end.
    cbn. rewrite Hi, lookup_insert_eq. eexists. split; [done|]. unfold by_code_scope_table. cbn. by rewrite !Z.eqb_refl.
Qed.

Lemma db_store_i64_ok code scope table payer id buffer d i d' : db_store_i64 code scope table payer id buffer d = (Ok i, d') ->
  exists t tab o ei, _indices (td_tables d') !! t = Some tab /\ by_code_scope_table code scope table tab = true
    /\ _indices (td_keyval d') !! o = Some (mk_key_value t id payer buffer)
    /\ _table_cache (keyval_cache d') !! t = Some ei /\ _object_to_iterator (keyval_cache d') !! o = Some i.
Proof.
  unfold db_store_i64, count_row, increment_count, update_db_usage, on_rows, on_tables, on_ledger, on_cache. intros Hr. minv.
  match goal with Hf : find_or_create_table _ _ _ _ _ = _ |- _ => apply find_or_create_table_ok in Hf as (tab & Ht & Hw) end.
  match goal with He : emplace _ _ _ = _ |- _ => apply emplace_ok in He as (-> & _ & _ & Hi & _) end.
  match goal with Hm : index_modify _ _ _ _ = _ |- _ => apply index_modify_ok in Hm as (tab' & Ht' & Hti & _) end.
  match goal with Hc : cache_table ?t ?c = (Ok ?e, ?c') |- _ => rename Hc into Hct; rename c' into c1; rename t into tt0 end.
  match goal with Ha : cache_add ?o ?c = (Ok ?e, ?c') |- _ => rename Ha into Hca; rename c' into c2 end.
  cbn in *. exists tt0, (set_count (tid_count tab' + 1) tab'). eexists. 
  assert (is_Some (_table_cache c1 !! tt0)) as [e He].
  { revert Hct. unfold cache_table. destruct (_table_cache _ !! tt0) as [e|] eqn:E; intros [= _ <-]; [by exists e|].
    cbn. rewrite lookup_insert_eq. eauto. }
  exists e. split_and!; [by rewrite Hti, lookup_insert_eq| |by rewrite Hi, lookup_insert_eq| |].
  - simplify_eq. exact Hw.
  - revert Hca. unfold cache_add. by destruct (_object_to_iterator c1 !! _); intros [= _ <-].
  - revert Hca. unfold cache_add. destruct (_object_to_iterator c1 !! _) as [z|] eqn:E; intros [= <- <-]; [done|].
    cbn. by rewrite lookup_insert_eq.
Qed.

Lemma store_find_run code scope table payer id buffer d i d' : tables_ok d' ->
  db_store_i64 code scope table payer id buffer d = (Ok i, d') ->
  db_find_i64 code scope table id d' = (Ok i, d')
  /\ forall buffer_size, db_get_i64 i buffer_size d' =
       (Ok (if buffer_size =? 0 then (Z.of_nat (length buffer), [])
            else (Z.min buffer_size (Z.of_nat (length buffer)), take (Z.to_nat (Z.min buffer_size (Z.of_nat (length buffer)))) buffer)), d').
Proof.
  intros Hok (t & tab & o & ei & Ht & Hw & Hr & Hc & Hz)%db_store_i64_ok.
  pose proof (to_caches d' Hok None) as Hca. destruct (ck_iterator _ _ Hca _ _ Hz) as (j & -> & Hj).
  assert (Hp : points keyval d' (Z.of_nat j) o) by (apply cache_get_iff; rewrite Nat2Z.id; split; [lia|done]).
  assert (Heta : set_keyval_cache (keyval_cache d') d' = d') by (by destruct d').
  split.
  - assert (Hfind : find_table code scope table d' = Some (t, tab)).
    { eapply find_by_unique; [apply Hok|done|done|]. intros x Hx. unfold by_code_scope_table, table_conflict in *. btests.
      rewrite !(proj2 (Z.eqb_eq _ _)) by congruence. done. }
    assert (Hkey : find_key id t (td_keyval d') = Some (o, mk_key_value t id payer buffer)).
    { eapply (find_by_unique row_conflict_by); [apply (to_rows d' Hok None)|done|cbn; by rewrite !Z.eqb_refl|].
      intros x Hx. unfold row_conflict_by. cbn in *. btests. rewrite !(proj2 (Z.eqb_eq _ _)) by congruence. done. }
    pose proof (cache_add_again _ _ _ _ Hca Hp) as Ha.
    unfold db_find_i64, search, fmap, M_fmap, mbind, M_bind. cbn [get]. rewrite Hfind. cbn [fst].
    unfold on_cache at 1, focus at 1, cache_table. cbn [slot_cache keyval]. cbn in Hc. rewrite Hc. cbn [set_slot_cache keyval slot_rows].
    rewrite Heta, Hkey. change (row_t_id (mk_key_value t id payer buffer)) with t. rewrite Z.eqb_refl. cbn [negb].
    unfold on_cache, focus. cbn [slot_cache keyval set_slot_cache]. cbn in Ha. rewrite Ha, Heta. done.
  - intros n. unfold db_get_i64, mbind, M_bind. rewrite (get_row_run keyval d' _ o _ Hp Hr). cbn [snd kv_value].
    by destruct (n =? 0).
Qed.
End Walk.

(** ** The theorems *)

(** for the primary rows and for both orders of every secondary index, a
    step on from a valid iterator, to the next row or to the end of the table,
    followed by a step back returns the iterator and the key of the row it
    started from. *)
Theorem previous_undoes_next {S : Type} `{ram_ledger S} `{softfloat} {R : Type} `{row R} (s : slot S R) (n : slot_name)
    (cost : R -> Z) (fine : R -> Prop) (before : R -> R -> bool) `{!slot_laws s n cost fine} `{!row_order fine before}
    (d d' : table_db S) (i o j : Z) (r : R) (out : option Z) :
  tables_ok d -> ends_fit s d ->
  cache_get (slot_cache s d) i = Ok o -> _indices (slot_rows s d) !! o = Some r ->
  next_row s before i d = (Ok (j, out), d') ->
  exists d'', previous_row s before j d' = (Ok (i, Some (row_primary_key r)), d'').
Proof. intros. by eapply (previous_next s n cost fine before). Qed.

Lemma demo_tables_ok : @tables_ok _ ieee demo_tables3.
Proof. by destruct (@reachable_inv _ purse ieee purse_laws ieee_laws demo_tables0 demo_tables3 ltac:(repeat split) I demo_reachable3). Qed.

Lemma previous_undoes_next_witness :
  exists d'', @previous_row _ _ _ (@idx (gmap Z Z) idx_double) (@by_secondary ieee idx_double) (-2) demo_tables3 = (Ok (0, Some 10), d'').
Proof.
  refine (@previous_undoes_next _ purse ieee _ _ (idx idx_double) (Some idx_double) _ _ (@by_secondary ieee idx_double)
    (@idx_slot _ ieee idx_double) (@by_secondary_order ieee ieee_laws idx_double) demo_tables3 demo_tables3 0 0 (-2)
    (mk_index_object 0 10 8 (2 ^ 63)) None demo_tables_ok _ _ _ _).
  - by vm_compute.
  - by vm_compute.
  - by vm_compute.
  - vm_compute. reflexivity.
Defined.

(** C24: a contract that walks from the lower bound of a key with
    [db_next_i64] and reads every row gets the values of all the rows of the
    table with that key or a greater one, each once, in the order of the keys. *)
Theorem read_table_in_order {S : Type} `{ram_ledger S} `{softfloat} (d : table_db S)
    (code scope table t from : Z) (tab : table_id_object) (fuel : nat) :
  tables_ok d -> find_table code scope table d = Some (t, tab) ->
  Z.of_nat (length (_end_iterator_to_table (keyval_cache d))) < 2 ^ 31 - 3 -> (length (rows_in_order d t from) <= fuel)%nat ->
  exists d', read_table code scope table from fuel d = (Ok ((fun e => kv_value e.2) <$> rows_in_order d t from), d').
Proof. by apply read_table_run. Qed.

Definition demo_op6 : table_op := op_store 1 2 7 5 [9].
Definition demo_op7 : table_op := op_store 1 3 7 7 [8].
Definition demo_tables6 : demo_db := (demo_run 7 demo_op6 demo_tables3).2.
Definition demo_tables7 : demo_db := (demo_run 7 demo_op7 demo_tables6).2.

Lemma demo_reachable7 : rtc (@table_step _ purse ieee) demo_tables0 demo_tables7.
Proof.
  etransitivity; [exact demo_reachable3|]. apply rtc_l with demo_tables6; [by apply (demo_step demo_op6 _ (1, []))|].
  apply rtc_once. by apply (demo_step demo_op7 _ (2, [])).
Qed.

Lemma demo_tables7_ok : @tables_ok _ ieee demo_tables7.
Proof. by destruct (@reachable_inv _ purse ieee purse_laws ieee_laws demo_tables0 demo_tables7 ltac:(repeat split) I demo_reachable7). Qed.

Lemma read_table_in_order_witness : exists d', @read_table (gmap Z Z) 7 1 2 0 5 demo_tables7 = (Ok [[9]; [1; 2; 3]], d').
Proof.
  apply (@read_table_in_order _ purse ieee demo_tables7 7 1 2 0 0 (mk_table_id 7 1 2 7 3) 5 demo_tables7_ok).
  - by vm_compute.
  - by vm_compute.
  - by apply Nat.leb_le.
Defined.

(** a row that a contract stored is found under its table and key, with
    the iterator that storing it returned, and reading it gives the stored
    value, or its length, or the part that fits into the buffer. *)
Theorem store_find_get {S : Type} `{ram_ledger S} `{softfloat} `{!ram_ledger_laws S} `{!softfloat_laws}
    (d d' : table_db S) (code scope table payer id i : Z) (buffer : list Z) :
  tables_ok d -> ledger_ok (td_ledger d) -> total_rows d < 2 ^ 32 - 1 -> Z.of_nat (length buffer) < 2 ^ 32 ->
  db_store_i64 code scope table payer id buffer d = (Ok i, d') ->
  db_find_i64 code scope table id d' = (Ok i, d')
  /\ forall buffer_size, db_get_i64 i buffer_size d' =
       (Ok (if buffer_size =? 0 then (Z.of_nat (length buffer), [])
            else (Z.min buffer_size (Z.of_nat (length buffer)), take (Z.to_nat (Z.min buffer_size (Z.of_nat (length buffer)))) buffer)), d').
Proof.
  intros Hok Hl Hroom%total_rows_room Hb Hs. eapply store_find_run; [|exact Hs].
  assert (Hi : inv d d) by (split; [done|]; split; [done|]; intros; lia).
  assert (Hw : wp (db_store_i64 code scope table payer id buffer) (fun _ => True) (fun _ d' => inv d d') d).
  { by apply (wp_db_store_i64 (fun _ => True) (fun _ _ => I) _ _ _ _ _ _ d). }
  exact (proj1 (wp_ok _ _ _ _ _ _ Hw Hs)).
Qed.

Lemma store_find_get_witness : @db_find_i64 (gmap Z Z) 7 1 3 7 demo_tables7 = (Ok 2, demo_tables7).
Proof.
  refine (proj1 (@store_find_get _ purse ieee purse_laws ieee_laws demo_tables6 demo_tables7 7 1 3 7 7 2 [8] _ I _ _ _)).
  - destruct (@reachable_inv _ purse ieee purse_laws ieee_laws demo_tables0 demo_tables6 ltac:(repeat split) I) as [Hok _]; [|exact Hok].
    etransitivity; [exact demo_reachable3|]. apply rtc_once. by apply (demo_step demo_op6 _ (1, [])).
  - by apply Z.ltb_lt.
  - by apply Z.ltb_lt.
  - vm_compute. reflexivity.
Defined.
