(* ===== verification/ApplyContext.v ===== *)
(** * The apply context
      ([apply_context.hpp], [apply_context.cpp], [transaction_context.cpp],
      [trace.hpp], [generated_transaction_object.hpp], [wasm_interface.cpp])

    The execution of a transaction: its actions, the notifications and inline
    actions they cause, the deferred transactions they schedule, and the
    receipts they leave.  The code of a contract is WebAssembly, run by an
    engine that is not part of the program; here it is an arbitrary [program]
    that calls the intrinsics of [wasm_interface.cpp].

    One execution works on one state: the tables of contracts with their
    ledger, which is the transaction context with the native objects, the
    deferred transactions, the counter of actions and the traces.  The fields
    of the apply context that runs are a record beside it. *)

From S2P Require Import Prelude Merkle Chainbase ResourceLimits Names Authority AuthorityChecker BlockHeader Authorization GlobalProperties EosioContract NativeState NativeRam Transaction TransactionChecks ChainConfig Timer TransactionContext ContractTables TableInvariant.
#[local] Open Scope Z_scope.

(** ** Traces and receipts *)
Record action_receipt : Type := mk_receipt {
  ar_receiver : Z;
  act_digest : digest_type;
  global_sequence : Z;
  ar_recv_sequence : Z;
  ar_auth_sequence : gmap Z Z;
  ar_code_sequence : Z;
  ar_abi_sequence : Z }.

Record action_trace : Type := mk_trace {
  at_action_ordinal : Z;
  creator_action_ordinal : Z;
  closest_unnotified_ancestor_action_ordinal : Z;
  at_receipt : option action_receipt;
  at_receiver : Z;
  at_act : action;
  at_context_free : bool;
  account_ram_deltas : gmap Z Z;
  at_except : option exn }.

(** ** Deferred transactions *)
Record deferred_object : Type := mk_deferred {
  gto_trx_id : digest_type;
  gto_sender : Z;
  gto_sender_id : Z;
  gto_payer : Z;
  gto_delay_until : Z;
  gto_expiration : Z;
  gto_published : Z;
  gto_packed_trx : list Z }.

Definition deferred_conflict (a b : deferred_object) : bool :=
  bool_decide (gto_trx_id a = gto_trx_id b) || ((gto_sender a =? gto_sender b) && (gto_sender_id a =? gto_sender_id b)).

Definition billable_generated_transaction_object : Z :=
  billable_size_v (96 + 4 + overhead_per_row_per_index_ram_bytes * 5).

(** What the checks of [Authorization.v] read of it. *)
Definition deferred_view (g : deferred_object) : generated_transaction_object :=
  mk_generated (gto_trx_id g) (gto_sender g) (gto_delay_until g) (gto_published g) (gto_packed_trx g).

Definition transaction_id_to_sender_id (tid : digest_type) : Z := _hash3 tid * 2 ^ 64 + _hash2 tid.

(** ** Contract code *)
Inductive host_call : Type :=
| host_require_auth (account : Z)
| host_has_auth (account : Z)
| host_require_auth2 (account permission : Z)
| host_require_recipient (recipient : Z)
| host_is_account (account : Z)
| host_send_inline (data_len : Z) (act : action)
| host_send_context_free_inline (data_len : Z) (act : action)
| host_send_deferred (sender_id payer : Z) (t : transaction) (replace_existing : bool)
| host_cancel_deferred (sender_id : Z)
| host_table (op : table_op)
| host_read_action_data (buffer_size : Z)
| host_current_receiver
| host_get_sender
| host_publication_time
| host_get_context_free_data (index buffer_size : Z)
| host_checktime
| host_set_resource_limits (account ram_bytes net_weight cpu_weight : Z)
| host_is_privileged (account : Z)
| host_set_privileged (account : Z) (is_priv : bool)
| host_get_resource_limits (account : Z)
| host_set_proposed_producers (data : list Z)
| host_set_proposed_producers_ex (format : Z) (data : list Z)
| host_set_standby_producers (data : list Z)
| host_enable_standby_producers
| host_is_feature_active (feature_name : Z)
| host_activate_feature (feature_name : Z)
| host_get_active_producers (buffer_size : Z)
| host_check_transaction_authorization (trx_data pubkeys_data perms_data : list Z)
| host_check_permission_authorization (account permission : Z) (pubkeys_data perms_data : list Z) (delay_us : Z)
| host_get_permission_last_used (account permission : Z)
| host_get_account_creation_time (account : Z)
| host_current_time
| host_read_transaction (buffer_size : Z)
| host_transaction_size
| host_expiration
| host_tapos_block_num
| host_tapos_block_prefix
| host_get_action (type index buffer_size : Z)
| host_abort
| host_eosio_assert (condition : bool)
| host_eosio_assert_code (condition : bool) (error_code : Z).

Inductive program : Type :=
| exit
| trap (e : exn)
| host (call : host_call) (k : list Z -> program).

(** ** The fields of a running context *)
Record apply_context : Type := mk_apply_context {
  ac_act : action;
  receiver : Z;
  recurse_depth : Z;
  first_receiver_action_ordinal : Z;
  action_ordinal : Z;
  privileged : bool;
  context_free : bool;
  _notified : list (Z * Z);
  _inline_actions : list Z;
  _cfa_inline_actions : list Z }.

Definition set_act a (c : apply_context) : apply_context :=
  mk_apply_context a (receiver c) (recurse_depth c) (first_receiver_action_ordinal c) (action_ordinal c) (privileged c)
    (context_free c) (_notified c) (_inline_actions c) (_cfa_inline_actions c).
Definition set_receiver r o (c : apply_context) : apply_context :=
  mk_apply_context (ac_act c) r (recurse_depth c) (first_receiver_action_ordinal c) o (privileged c)
    (context_free c) (_notified c) (_inline_actions c) (_cfa_inline_actions c).
Definition set_context_privileged p (c : apply_context) : apply_context :=
  mk_apply_context (ac_act c) (receiver c) (recurse_depth c) (first_receiver_action_ordinal c) (action_ordinal c) p
    (context_free c) (_notified c) (_inline_actions c) (_cfa_inline_actions c).
Definition add_notified p (c : apply_context) : apply_context :=
  mk_apply_context (ac_act c) (receiver c) (recurse_depth c) (first_receiver_action_ordinal c) (action_ordinal c) (privileged c)
    (context_free c) (_notified c ++ [p]) (_inline_actions c) (_cfa_inline_actions c).
Definition add_inline o (c : apply_context) : apply_context :=
  mk_apply_context (ac_act c) (receiver c) (recurse_depth c) (first_receiver_action_ordinal c) (action_ordinal c) (privileged c)
    (context_free c) (_notified c) (_inline_actions c ++ [o]) (_cfa_inline_actions c).
Definition add_cfa_inline o (c : apply_context) : apply_context :=
  mk_apply_context (ac_act c) (receiver c) (recurse_depth c) (first_receiver_action_ordinal c) (action_ordinal c) (privileged c)
    (context_free c) (_notified c) (_inline_actions c) (_cfa_inline_actions c ++ [o]).

Section Apply.
Context {K Sig Key : Type} `{EqDecision K} `{unpacker K} `{contract_unpacker K} `{C : crypto} `{P : posix_timer}
  `{T : trx_codec Sig Key} `{softfloat}.

(** ** The state of an execution *)

(** RAM is billed in the transaction context. *)
#[export] Instance context_ledger : ram_ledger (trx_context K) := {
  ledger_add account delta := on_native (add_ram_usage account delta);
  ledger_ram c := ram_of (nd_limits (cx_native c));
  ledger_ok c := usage_widths (nd_limits (cx_native c)) }.

Record exec_state : Type := mk_exec {
  xs_tables : table_db (trx_context K);
  xs_generated : generic_index deferred_object;
  xs_global_sequence : Z;
  xs_properties : global_properties K;
  action_traces : list action_trace;
  executed : list action_receipt }.

Definition set_xs_tables t (s : exec_state) : exec_state :=
  mk_exec t (xs_generated s) (xs_global_sequence s) (xs_properties s) (action_traces s) (executed s).
Definition set_xs_generated g (s : exec_state) : exec_state :=
  mk_exec (xs_tables s) g (xs_global_sequence s) (xs_properties s) (action_traces s) (executed s).
Definition set_xs_global_sequence n (s : exec_state) : exec_state :=
  mk_exec (xs_tables s) (xs_generated s) n (xs_properties s) (action_traces s) (executed s).
Definition set_xs_properties g (s : exec_state) : exec_state :=
  mk_exec (xs_tables s) (xs_generated s) (xs_global_sequence s) g (action_traces s) (executed s).
Definition set_action_traces l (s : exec_state) : exec_state :=
  mk_exec (xs_tables s) (xs_generated s) (xs_global_sequence s) (xs_properties s) l (executed s).
Definition set_executed l (s : exec_state) : exec_state :=
  mk_exec (xs_tables s) (xs_generated s) (xs_global_sequence s) (xs_properties s) (action_traces s) l.

Definition xs_trx (s : exec_state) : trx_context K := td_ledger (xs_tables s).
Definition set_xs_trx c (s : exec_state) : exec_state := set_xs_tables (set_td_ledger c (xs_tables s)) s.
Definition xs_native (s : exec_state) : native_db K := cx_native (xs_trx s).
Definition set_xs_native d (s : exec_state) : exec_state := set_xs_trx (set_native d (xs_trx s)) s.

Record running : Type := mk_running { rn_context : apply_context; rn_state : exec_state }.
Definition set_rn_context c (r : running) : running := mk_running c (rn_state r).
Definition set_rn_state s (r : running) : running := mk_running (rn_context r) s.

Abbreviation XM := (M exec_state).
Abbreviation AM := (M running).

Definition on_table_db {A} : M (table_db (trx_context K)) A -> XM A := focus xs_tables set_xs_tables.
Definition on_trx {A} : M (trx_context K) A -> XM A := focus xs_trx set_xs_trx.
Definition on_native_db {A} : M (native_db K) A -> XM A := focus xs_native set_xs_native.
Definition on_generated {A} : M (generic_index deferred_object) A -> XM A := focus xs_generated set_xs_generated.
Definition on_properties {A} : M (global_properties K) A -> XM A := focus xs_properties set_xs_properties.
Definition on_state {A} : XM A -> AM A := focus rn_state set_rn_state.
Definition on_context (f : apply_context -> apply_context) : AM unit := modify (fun r => set_rn_context (f (rn_context r)) r).
Definition my_context : AM apply_context := gets rn_context.
Definition my_native : AM (native_db K) := gets (fun r => xs_native (rn_state r)).

(** What the intrinsics use of library fc: its packing, [milliseconds],
    and what [FC_RETHROW_EXCEPTIONS] makes of an exception of the standard library. *)
Record fc_library : Type := mk_fc {
  unpack_producers : list Z -> res (list (producer_authority K));
  unpack_public_keys : list Z -> res (list K);
  unpack_levels : list Z -> res (list permission_level);
  pack_action : action -> list Z;
  milliseconds : Z -> Z;
  wrap_std_exception : exn -> exn }.

(** What an execution reads of the controller, of library fc (the digest of an
    action and the above) and of the WebAssembly engine (the code behind a
    hash). *)
Record apply_env : Type := mk_apply_env {
  ax_trx : trx_env K;
  action_digest : action -> digest_type;
  code_of : digest_type -> Z -> Z -> Z -> program;
  max_nonprivileged_inline_action_size : Z;
  ax_context_free_data : list (list Z);
  ax_schedules : schedule_view K;
  ax_fc : fc_library }.

Context (e : apply_env).
Abbreviation cfg := (te_config (ax_trx e)).
Abbreviation view := (te_view (ax_trx e)).
Abbreviation nconf := (te_native (ax_trx e)).
Abbreviation block_time := (pending_block_time (nc_auth nconf)).

(** ** Traces *)
Definition find_trace (ordinal : Z) (s : exec_state) : res action_trace :=
  eos_assert ((0 <? ordinal) && (ordinal <=? Z.of_nat (length (action_traces s)))) transaction_exception;;
  match action_traces s !! Z.to_nat (ordinal - 1) with Some t => Ok t | None => Err undefined_behaviour end.

Definition get_action_trace (ordinal : Z) : XM action_trace := fun s => (find_trace ordinal s, s).

Definition update_trace (ordinal : Z) (f : action_trace -> action_trace) : XM unit :=
  t ← get_action_trace ordinal;
  modify (fun s => set_action_traces (<[Z.to_nat (ordinal - 1) := f t]> (action_traces s)) s).

Definition trx_schedule_action (act : action) (receiver : Z) (context_free : bool) (creator ancestor : Z) : XM Z := fun s =>
  let new_action_ordinal := u32 (Z.of_nat (length (action_traces s)) + 1) in
  (Ok new_action_ordinal,
   set_action_traces (action_traces s ++ [mk_trace new_action_ordinal creator ancestor None receiver act context_free ∅ None]) s).

Definition trx_schedule_copy (ordinal : Z) (receiver : Z) (context_free : bool) (creator ancestor : Z) : XM Z :=
  t ← get_action_trace ordinal;
  trx_schedule_action (at_act t) receiver context_free creator ancestor.

(** [apply_context::schedule_action]; then [act] points into the vector again. *)
Definition refresh_act : AM unit :=
  c ← my_context;
  t ← on_state (get_action_trace (action_ordinal c));
  on_context (set_act (at_act t)).

Definition schedule_action_copy (ordinal receiver : Z) (context_free : bool) : AM Z :=
  c ← my_context;
  o ← on_state (trx_schedule_copy ordinal receiver context_free (action_ordinal c) (first_receiver_action_ordinal c));
  refresh_act;;
  mret o.

Definition schedule_action (act : action) (receiver : Z) (context_free : bool) : AM Z :=
  c ← my_context;
  o ← on_state (trx_schedule_action act receiver context_free (action_ordinal c) (first_receiver_action_ordinal c));
  refresh_act;;
  mret o.

(** ** Authorization and notification *)
Definition has_authorization (account : Z) (act : action) : bool :=
  existsb (fun auth => actor auth =? account) (authorization act).

Definition context_require_authorization (account : Z) : AM unit :=
  c ← my_context; massert (has_authorization account (ac_act c)) missing_auth_exception.

Definition require_authorization2 (account permission : Z) : AM unit :=
  c ← my_context;
  massert (existsb (fun auth => (actor auth =? account) && (Authority.permission auth =? permission)) (authorization (ac_act c)))
    missing_auth_exception.

Definition has_recipient (code : Z) (c : apply_context) : bool := existsb (fun p => p.1 =? code) (_notified c).

Definition require_recipient (recipient : Z) : AM unit :=
  c ← my_context;
  if negb (has_recipient recipient c) then
    o ← schedule_action_copy (action_ordinal c) recipient false;
    on_context (add_notified (recipient, o))
  else mret tt.

(** ** Inline actions *)

(** The authorizers must exist; they are collected when the list of actors is
    enforced. *)
Fixpoint inline_authorizers (d : native_db K) (enforce : bool) (auths : list permission_level) (actors : list Z) : res (list Z) :=
  match auths with
  | [] => Ok actors
  | auth :: auths =>
      eos_assert (account_exists d (actor auth)) action_validate_exception;;
      p ← find_permission (nd_auth d) auth;
      eos_assert (match p with Some _ => true | None => false end) action_validate_exception;;
      inline_authorizers d enforce auths (if enforce then flat_insert (actor auth) actors else actors)
  end.

Definition enforce_actor_lists : AM bool :=
  r ← get; mret (enforce_allowdenylist (cx_request (xs_trx (rn_state r))) && is_producing_block view).

Definition check_inline_size (a : action) : AM unit :=
  c ← my_context;
  if negb (privileged c) && is_producing_block view then
    massert (Z.of_nat (length (act_data a)) <? Z.min (max_inline_action_size cfg) (max_nonprivileged_inline_action_size e))
      inline_action_too_big_nonprivileged
  else mret tt.

Definition deferred_views (s : exec_state) : list generated_transaction_object :=
  map (fun g => deferred_view g.2) (map_to_list (_indices (xs_generated s))).

(** Every failure of the check is reported as subjective. *)
Definition as_subjective {S A} (m : M S A) : M S A := fun s =>
  match m s with (Err _, s') => (Err subjective_block_production_exception, s') | r => r end.

(** [check_authorization] with the permission [receiver@eosio.code]. *)
Definition check_sender_authorization (acts : list action) (provided_delay : Z) : AM unit :=
  c ← my_context;
  r ← get;
  as_subjective (on_state (on_trx
    (check_authorization (checktime (ax_trx e)) (nc_auth nconf) (deferred_views (rn_state r)) (nd_auth (xs_native (rn_state r)))
       acts [] [mk_pl (receiver c) eosio_code_name] provided_delay false []))).

Definition execute_inline (a : action) : AM unit :=
  d ← my_native;
  massert (account_exists d (act_account a)) action_validate_exception;;
  enforce ← enforce_actor_lists;
  actors ← lift (inline_authorizers d enforce (authorization a) []);
  (if enforce : bool then lift (check_actor_list (conf view) actors) else mret tt);;
  check_inline_size a;;
  c ← my_context;
  (if negb (skip_auth_check view) && negb (privileged c) then
     r ← get;
     check_sender_authorization [a] (s64 (block_time - trx_published (xs_trx (rn_state r))))
   else mret tt);;
  o ← schedule_action a (act_account a) false;
  on_context (add_inline o).

Definition execute_context_free_inline (a : action) : AM unit :=
  d ← my_native;
  massert (account_exists d (act_account a)) action_validate_exception;;
  massert (bool_decide (authorization a = [])) action_validate_exception;;
  check_inline_size a;;
  o ← schedule_action a (act_account a) true;
  on_context (add_cfa_inline o).

(** ** Deferred transactions *)
Definition context_add_ram_usage (account delta : Z) : AM unit := on_state (on_native_db (add_ram_usage account delta)).

(** The transaction with its generation context and without the fields of a
    signed transaction. *)
Definition deferred_transaction (t : transaction) (exts : list (Z * list Z)) : transaction :=
  mk_transaction 0 0 0 (max_net_usage_words t) (max_cpu_usage_ms t) (delay_sec t) (context_free_actions t) (actions t) exts.

Definition check_generation_context (exts : list (Z * deferred_transaction_generation_context))
    (context : deferred_transaction_generation_context) (sender sender_id : Z) (id : digest_type) : res unit :=
  eos_assert (bool_decide (length exts = 1%nat)) invalid_transaction_extension;;
  eos_assert (ctx_sender context =? sender) ill_formed_deferred_transaction_generation_context;;
  eos_assert (ctx_sender_id context =? sender_id) ill_formed_deferred_transaction_generation_context;;
  eos_assert (bool_decide (sender_trx_id context = id)) ill_formed_deferred_transaction_generation_context.

Definition with_generation_context (t : transaction) (sender sender_id : Z) (id : digest_type) : res transaction :=
  exts ← validate_and_extract_extensions t;
  match exts with
  | (_, context) :: _ =>
      check_generation_context exts context sender sender_id id;; Ok (deferred_transaction t (transaction_extensions t))
  | [] =>
      Ok (deferred_transaction t (emplace_extension (transaction_extensions t) generation_context_extension_id
                                    (pack_generation_context (mk_generation_context id sender_id sender))))
  end.

Definition by_sender_id (sender sender_id : Z) (g : deferred_object) : bool :=
  (gto_sender g =? sender) && (gto_sender_id g =? sender_id).

Definition check_deferred_payer (payer : Z) : AM unit :=
  c ← my_context;
  if negb (payer =? receiver c) then
    massert (receiver c =? act_account (ac_act c)) action_validate_exception;;
    massert (has_authorization payer (ac_act c)) action_validate_exception
  else mret tt.

Definition deferred_bytes (g : deferred_object) : Z :=
  billable_generated_transaction_object + Z.of_nat (length (gto_packed_trx g)).

(** What a sender puts into the table. *)
Definition new_deferred (sender sender_id payer : Z) (t : transaction) : deferred_object :=
  let until := block_time + seconds (delay_sec t) in
  mk_deferred (transaction_id t) sender sender_id payer until (until + seconds (deferred_trx_expiration_window cfg)) block_time (pack_trx t).

Definition schedule_deferred_transaction (sender_id payer : Z) (t : transaction) (replace_existing : bool) : AM unit :=
  massert (bool_decide (context_free_actions t = [])) cfa_inside_generated_tx;;
  c ← my_context;
  enforce ← enforce_actor_lists;
  d ← my_native;
  lift (validate_referenced_accounts (ax_trx e) d t
          (enforce && negb (sender_avoids_allowlist_denylist_enforcement (conf view) (receiver c))));;
  r ← get;
  t ← lift (with_generation_context t (receiver c) sender_id (trx_id (cx_request (xs_trx (rn_state r)))));
  on_state (on_trx (add_net_usage (ax_trx e) (base_per_transaction_net_usage cfg + transaction_id_net_usage)));;
  (if negb (skip_auth_check view) && negb (privileged c) then
     check_deferred_payer payer;;
     check_sender_authorization (actions t) (seconds (delay_sec t))
   else mret tt);;
  r ← get;
  let gtx := new_deferred (receiver c) sender_id payer t in
  (match find_by (by_sender_id (receiver c) sender_id) (xs_generated (rn_state r)) with
   | Some ptr =>
       massert replace_existing deferred_tx_duplicate;;
       context_add_ram_usage (gto_payer ptr.2) (- deferred_bytes ptr.2);;
       on_state (on_generated (index_remove ptr.1))
   | None => mret tt
   end);;
  on_state (on_generated (emplace deferred_conflict gtx));;
  context_add_ram_usage payer (deferred_bytes gtx).

Definition cancel_deferred_transaction (sender_id sender : Z) : AM bool :=
  r ← get;
  match find_by (by_sender_id sender sender_id) (xs_generated (rn_state r)) with
  | Some gto =>
      context_add_ram_usage (gto_payer gto.2) (- deferred_bytes gto.2);;
      on_state (on_generated (index_remove gto.1));;
      mret true
  | None => mret false
  end.

(** The native action [canceldelay]. *)
Definition apply_eosio_canceldelay : AM unit :=
  c ← my_context;
  cancel ← lift (data_as canceldelay_name unpack_canceldelay (ac_act c));
  context_require_authorization (actor (canceling_auth cancel));;
  cancel_deferred_transaction (transaction_id_to_sender_id (cd_trx_id cancel)) 0;;
  mret tt.

(** ** The intrinsics *)

(** Constructors of the API classes: the first group works in context-free
    actions, too, one needs them, one needs a privileged contract. *)
Definition check_api (call : host_call) : AM unit :=
  c ← my_context;
  match call with
  | host_read_action_data _ | host_current_receiver | host_checktime | host_read_transaction _ | host_transaction_size
  | host_expiration | host_tapos_block_num | host_tapos_block_prefix | host_get_action _ _ _
  | host_abort | host_eosio_assert _ | host_eosio_assert_code _ _ => mret tt
  | host_get_context_free_data _ _ => massert (context_free c) unaccessible_api
  | host_set_resource_limits _ _ _ _ | host_is_privileged _ | host_set_privileged _ _ | host_get_resource_limits _
  | host_set_proposed_producers _ | host_set_proposed_producers_ex _ _ | host_set_standby_producers _
  | host_enable_standby_producers | host_is_feature_active _ | host_activate_feature _ =>
      massert (negb (context_free c)) unaccessible_api;; massert (privileged c) unaccessible_api
  | _ => massert (negb (context_free c)) unaccessible_api
  end.

(** No NaN as a secondary key, and buffers are inside the 32-bit memory. *)
Definition is_nan (k : index_kind) (key : Z) : bool :=
  match k with idx_double => f64_is_nan key | idx_long_double => f128_is_nan key | _ => false end.

Definition check_table_op (op : table_op) : res unit :=
  match op with
  | op_store _ _ _ _ buffer | op_update _ _ buffer => eos_assert (Z.of_nat (length buffer) <? 2 ^ 32) wasm_execution_error
  | op_idx_store k _ _ _ _ key | op_idx_update k _ _ key
  | op_find_secondary k _ _ _ key | op_lowerbound_secondary k _ _ _ key | op_upperbound_secondary k _ _ _ key =>
      eos_assert (negb (is_nan k key)) transaction_exception
  | _ => Ok tt
  end.

Definition copy_to_buffer (data : list Z) (buffer_size : Z) : list Z :=
  let s := Z.of_nat (length data) in
  if buffer_size =? 0 then [s]
  else let copy_size := Z.min buffer_size s in copy_size :: take (Z.to_nat copy_size) data.

Definition get_sender : AM Z :=
  c ← my_context;
  t ← on_state (get_action_trace (action_ordinal c));
  if creator_action_ordinal t >? 0 then
    creator ← on_state (get_action_trace (creator_action_ordinal t));
    mret (at_receiver creator)
  else mret 0.

Definition get_context_free_data (index buffer_size : Z) : list Z :=
  match ax_context_free_data e !! Z.to_nat index with
  | None => [-1]
  | Some data => copy_to_buffer data buffer_size
  end.

Definition set_resource_limits (account ram_bytes net_weight cpu_weight : Z) : AM unit :=
  massert (ram_bytes >=? -1) wasm_execution_error;;
  massert (net_weight >=? -1) wasm_execution_error;;
  massert (cpu_weight >=? -1) wasm_execution_error;;
  decreased ← on_state (on_native_db (on_limits (set_account_limits account ram_bytes net_weight cpu_weight)));
  if decreased : bool then
    on_state (on_native_db (modify (fun d => mk_native_db (nd_auth d) (nd_accounts d) (nd_metadata d) (nd_code d) (nd_limits d)
      ({[account]} ∪ validate_ram_usage d) (_account_ram_deltas d))))
  else mret tt.

Definition get_metadata (name : Z) (d : native_db K) : res (Z * account_metadata_object) :=
  get_by (metadata_by_name name) (nd_metadata d).

Definition set_flag (is_priv : bool) (a : account_metadata_object) : account_metadata_object :=
  mk_metadata (md_name a) (recv_sequence a) (auth_sequence a) (code_sequence a) (abi_sequence a) (code_hash a) (last_code_update a)
    (if is_priv then Z.lor (flags a) 1 else Z.ldiff (flags a) 1) (vm_type a) (vm_version a).

Definition set_privileged (name : Z) (is_priv : bool) : AM unit :=
  d ← my_native;
  a ← lift (get_metadata name d);
  on_state (on_native_db (on_metadata (index_modify metadata_conflict a.1 (set_flag is_priv)))).

(** [set_proposed_producers_ex] and [set_standby_producers]. *)
Definition propose_producers (propose : list (producer_authority K) -> M (global_properties K) Z) (data : list Z) : AM Z :=
  producers ← lift (unpack_producers (ax_fc e) data);
  d ← my_native;
  lift (check_producer_schedule (key_which (nc_auth nconf)) (num_supported_key_types (nc_auth nconf)) (account_exists d) producers);;
  on_state (on_properties (propose producers)).

(** The names as the bytes of an array of 64-bit integers. *)
Definition name_bytes (n : Z) : list Z := map (fun i => Z.land (Z.shiftr n (8 * Z.of_nat i)) 255) (seq 0 8).
Definition active_producer_names : list Z :=
  concat (map (fun p => name_bytes (producer_name p)) (producers (active_producers (ax_schedules e)))).

Definition authorization_exception (ex : exn) : bool :=
  match ex with
  | tx_duplicate_sig | tx_irrelevant_sig | unsatisfied_authorization | missing_auth_exception | irrelevant_auth_exception
  | invalid_permission | unlinkable_min_permission_action => true
  | _ => false
  end.

(** Whether an authorization holds; other exceptions pass. *)
Definition authorized {S} (m : M S unit) : M S bool := fun s =>
  match m s with
  | (Ok _, s') => (Ok true, s')
  | (Err ex, s') => (if authorization_exception ex then Ok false else Err ex, s')
  end.

Definition provided {A} (unpack : list Z -> res (list A)) (data : list Z) : res (list A) :=
  match data with [] => Ok [] | _ => unpack data end.

Definition check_transaction_authorization (trx_data pubkeys_data perms_data : list Z) : AM bool :=
  t ← lift (unpack_trx trx_data);
  keys ← lift (provided (unpack_public_keys (ax_fc e)) pubkeys_data);
  perms ← lift (provided (unpack_levels (ax_fc e)) perms_data);
  r ← get;
  authorized (on_state (on_trx
    (check_authorization (checktime (ax_trx e)) (nc_auth nconf) (deferred_views (rn_state r)) (nd_auth (xs_native (rn_state r)))
       (actions t) keys perms (seconds (delay_sec t)) false []))).

Definition intrinsic_check_permission (account permission : Z) (pubkeys_data perms_data : list Z) (delay_us : Z) : AM bool :=
  massert (delay_us <=? INT64_MAX) action_validate_exception;;
  keys ← lift (provided (unpack_public_keys (ax_fc e)) pubkeys_data);
  perms ← lift (provided (unpack_levels (ax_fc e)) perms_data);
  d ← my_native;
  authorized (lift (check_permission_authorization (nc_auth nconf) (nd_auth d) account permission keys perms delay_us false)).

(** Of the transaction that runs. *)
Definition my_transaction : AM transaction := gets (fun r => trx (cx_request (xs_trx (rn_state r)))).

(** The size of an action, and the action when it fits into the buffer. *)
Definition get_action (t : transaction) (type index buffer_size : Z) : res (list Z) :=
  let pack act := let packed := pack_action (ax_fc e) act in
    let ps := Z.of_nat (length packed) in
    Ok (if ps <=? buffer_size then ps :: packed else [ps]) in
  let nth acts := match acts !! Z.to_nat index with Some act => pack act | None => Ok [-1] end in
  if type =? 0 then nth (context_free_actions t)
  else if type =? 1 then nth (actions t)
  else Err action_not_found_exception.

(** [system_error_code::generic_system_error] *)
Definition generic_system_error : Z := 10000000000000000000.
Definition eosio_assert_code (condition : bool) (error_code : Z) : AM unit :=
  if negb condition then
    if error_code >=? generic_system_error then throw restricted_error_code_exception else throw eosio_assert_code_exception
  else mret tt.

Definition call_intrinsic (call : host_call) : AM (list Z) :=
  let unit_of m := m;; mret [] in
  match call with
  | host_require_auth account => unit_of (context_require_authorization account)
  | host_has_auth account => c ← my_context; mret [Z.b2z (has_authorization account (ac_act c))]
  | host_require_auth2 account permission => unit_of (require_authorization2 account permission)
  | host_require_recipient recipient => unit_of (require_recipient recipient)
  | host_is_account account => d ← my_native; mret [Z.b2z (account_exists d account)]
  | host_send_inline data_len act =>
      massert (data_len <? max_inline_action_size cfg) inline_action_too_big;; unit_of (execute_inline act)
  | host_send_context_free_inline data_len act =>
      massert (data_len <? max_inline_action_size cfg) inline_action_too_big;; unit_of (execute_context_free_inline act)
  | host_send_deferred sender_id payer t replace_existing =>
      unit_of (schedule_deferred_transaction sender_id payer t replace_existing)
  | host_cancel_deferred sender_id =>
      c ← my_context; b ← cancel_deferred_transaction sender_id (receiver c); mret [Z.b2z b]
  | host_table op =>
      lift (check_table_op op);;
      c ← my_context;
      r ← on_state (on_table_db (run_table_op (receiver c) op));
      mret (r.1 :: r.2)
  | host_read_action_data buffer_size => c ← my_context; mret (copy_to_buffer (act_data (ac_act c)) buffer_size)
  | host_current_receiver => c ← my_context; mret [receiver c]
  | host_get_sender => s ← get_sender; mret [s]
  | host_publication_time => r ← get; mret [u64 (trx_published (xs_trx (rn_state r)))]
  | host_get_context_free_data index buffer_size => mret (get_context_free_data index buffer_size)
  | host_checktime => unit_of (on_state (on_trx (checktime (ax_trx e))))
  | host_set_resource_limits account ram_bytes net_weight cpu_weight =>
      unit_of (set_resource_limits account ram_bytes net_weight cpu_weight)
  | host_is_privileged account => d ← my_native; a ← lift (get_metadata account d); mret [Z.b2z (is_privileged a.2)]
  | host_set_privileged account is_priv => unit_of (set_privileged account is_priv)
  | host_get_resource_limits account =>
      '(ram_bytes, net_weight, cpu_weight) ← on_state (on_native_db (on_limits (get_account_limits account)));
      mret [ram_bytes; net_weight; cpu_weight]
  | host_set_proposed_producers _ => throw wasm_execution_error
  | host_set_proposed_producers_ex format data =>
      if format =? 1 then r ← propose_producers (set_proposed_producers (ax_schedules e)) data; mret [r]
      else throw wasm_execution_error
  | host_set_standby_producers data => r ← propose_producers set_standby_producers data; mret [r]
  | host_enable_standby_producers =>
      r ← on_state (on_properties (enable_standby_producers (ax_schedules e))); mret [r]
  | host_is_feature_active _ => mret [0]
  | host_activate_feature _ => throw unsupported_feature
  | host_get_active_producers buffer_size => mret (copy_to_buffer active_producer_names buffer_size)
  | host_check_transaction_authorization trx_data pubkeys_data perms_data =>
      b ← check_transaction_authorization trx_data pubkeys_data perms_data; mret [Z.b2z b]
  | host_check_permission_authorization account permission pubkeys_data perms_data delay_us =>
      b ← intrinsic_check_permission account permission pubkeys_data perms_data delay_us; mret [Z.b2z b]
  | host_get_permission_last_used account permission =>
      d ← my_native;
      p ← lift (get_permission (nd_auth d) (mk_pl account permission));
      t ← lift (get_permission_last_used (nd_auth d) p);
      mret [t]
  | host_get_account_creation_time account =>
      d ← my_native;
      match find_by (fun a => acc_name a =? account) (nd_accounts d) with
      | Some acct => mret [to_time_point (milliseconds (ax_fc e)) (creation_date acct.2)]
      | None => throw action_validate_exception
      end
  | host_current_time => mret [u64 block_time]
  | host_read_transaction buffer_size => t ← my_transaction; mret (copy_to_buffer (pack_trx t) buffer_size)
  | host_transaction_size => t ← my_transaction; mret [Z.of_nat (length (pack_trx t))]
  | host_expiration => t ← my_transaction; mret [trx_expiration t]
  | host_tapos_block_num => t ← my_transaction; mret [ref_block_num t]
  | host_tapos_block_prefix => t ← my_transaction; mret [ref_block_prefix t]
  | host_get_action type index buffer_size => t ← my_transaction; lift (get_action t type index buffer_size)
  | host_abort => throw abort_called
  | host_eosio_assert condition => massert condition eosio_assert_message_exception;; mret []
  | host_eosio_assert_code condition error_code => unit_of (eosio_assert_code condition error_code)
  end.

Fixpoint run_program (p : program) : AM unit :=
  match p with
  | exit => mret tt
  | trap ex => throw ex
  | host call k => check_api call;; r ← call_intrinsic call; run_program (k r)
  end.

(** ** [exec_one] *)
Definition check_lists : AM unit :=
  enforce ← enforce_actor_lists;
  c ← my_context;
  if enforce : bool then
    lift (check_contract_list (conf view) (receiver c));;
    lift (check_action_list (conf view) (act_account (ac_act c)) (act_name (ac_act c)))
  else mret tt.

(** The handlers registered for the system account, [canceldelay] among them. *)
Definition native_handler (receiver : Z) (act : action) : option (AM unit) :=
  if (receiver =? system_account_name) && (act_account act =? system_account_name) && (act_name act =? canceldelay_name)
  then Some apply_eosio_canceldelay
  else (fun native => on_state (on_native_db (native act))) <$> find_apply_handler nconf receiver (act_account act) (act_name act).

(** Native handler, then contract; returns the id of the metadata of the
    receiver. *)
Definition run_handlers : AM Z :=
  c ← my_context;
  d ← my_native;
  receiver_account ← lift (get_metadata (receiver c) d);
  on_context (set_context_privileged (is_privileged receiver_account.2));;
  (match native_handler (receiver c) (ac_act c) with
   | Some native => check_lists;; native
   | None => mret tt
   end);;
  d ← my_native;
  a ← lift (deref (nd_metadata d) receiver_account.1);
  (if negb (bool_decide (code_hash a = no_digest)) then
     check_lists;;
     run_program (code_of e (code_hash a) (vm_type a) (vm_version a) (receiver c))
   else mret tt);;
  mret receiver_account.1.

(** Growth of RAM at the expense of others needs their authorization. *)
Definition checktime_interval : Z := 10.

Fixpoint check_ram_loop (c : apply_context) (counter : Z) (deltas : list (Z * Z)) : AM unit :=
  match deltas with
  | [] => mret tt
  | (account, delta) :: deltas =>
      (if counter =? checktime_interval then on_state (on_trx (checktime (ax_trx e))) else mret tt);;
      (if (delta >? 0) && negb (account =? receiver c) then
         massert (receiver c =? act_account (ac_act c)) unauthorized_ram_usage_increase;;
         massert (has_authorization account (ac_act c)) unauthorized_ram_usage_increase
       else mret tt);;
      check_ram_loop c ((if counter =? checktime_interval then 0 else counter) + 1) deltas
  end.

Definition deltas_in_order (m : gmap Z Z) : list (Z * Z) :=
  omap (fun a => (fun x => (a, x)) <$> m !! a) (ascending (dom m)).

Definition check_ram_deltas : AM unit :=
  c ← my_context;
  d ← my_native;
  if negb (privileged c) then check_ram_loop c 0 (deltas_in_order (_account_ram_deltas d)) else mret tt.

(** [finalize_trace]; the console and the clock are left out. *)
Definition set_deltas m (d : native_db K) : native_db K :=
  mk_native_db (nd_auth d) (nd_accounts d) (nd_metadata d) (nd_code d) (nd_limits d) (validate_ram_usage d) m.
Definition trace_deltas m (t : action_trace) : action_trace :=
  mk_trace (at_action_ordinal t) (creator_action_ordinal t) (closest_unnotified_ancestor_action_ordinal t) (at_receipt t) (at_receiver t)
    (at_act t) (at_context_free t) m (at_except t).
Definition trace_failed ex (t : action_trace) : action_trace :=
  mk_trace (at_action_ordinal t) (creator_action_ordinal t) (closest_unnotified_ancestor_action_ordinal t) (at_receipt t) (at_receiver t)
    (at_act t) (at_context_free t) (account_ram_deltas t) (Some ex).
Definition trace_receipt r (t : action_trace) : action_trace :=
  mk_trace (at_action_ordinal t) (creator_action_ordinal t) (closest_unnotified_ancestor_action_ordinal t) (Some r) (at_receiver t)
    (at_act t) (at_context_free t) (account_ram_deltas t) (at_except t).

Definition finalize_trace (ordinal : Z) : AM unit :=
  d ← my_native;
  on_state (update_trace ordinal (trace_deltas (_account_ram_deltas d)));;
  on_state (on_native_db (modify (set_deltas ∅))).

Definition fc_rethrow (ex : exn) : exn := if is_std_exception ex then wrap_std_exception (ax_fc e) ex else ex.

(** What reaches the handler is an [fc::exception]; the trace keeps it. *)
Definition catch_into_trace {A} (m : AM A) : AM A := fun r =>
  match m r with
  | (Ok a, r') => (Ok a, r')
  | (Err ex, r') =>
      let ordinal := action_ordinal (rn_context r') in
      let ex := fc_rethrow ex in
      (Err ex, ((on_state (update_trace ordinal (trace_failed ex));; finalize_trace ordinal) r').2)
  end.

(** Sequence numbers. *)
Definition next_global_sequence : XM Z :=
  modify (fun s => set_xs_global_sequence (u64 (xs_global_sequence s + 1)) s);;
  gets xs_global_sequence.

Definition bump_recv (a : account_metadata_object) : account_metadata_object :=
  mk_metadata (md_name a) (u64 (recv_sequence a + 1)) (auth_sequence a) (code_sequence a) (abi_sequence a) (code_hash a)
    (last_code_update a) (flags a) (vm_type a) (vm_version a).
Definition bump_auth (a : account_metadata_object) : account_metadata_object :=
  mk_metadata (md_name a) (recv_sequence a) (u64 (auth_sequence a + 1)) (code_sequence a) (abi_sequence a) (code_hash a)
    (last_code_update a) (flags a) (vm_type a) (vm_version a).

Definition read_metadata (id : Z) : XM account_metadata_object :=
  fun s => (deref (nd_metadata (xs_native s)) id, s).

Definition next_recv_sequence (id : Z) : XM Z :=
  on_native_db (on_metadata (index_modify metadata_conflict id bump_recv));;
  a ← read_metadata id;
  mret (recv_sequence a).

Definition next_auth_sequence (actor : Z) : XM Z :=
  d ← gets xs_native;
  amo ← lift (get_metadata actor d);
  on_native_db (on_metadata (index_modify metadata_conflict amo.1 bump_auth));;
  a ← read_metadata amo.1;
  mret (auth_sequence a).

Fixpoint next_auth_sequences (auths : list permission_level) (m : gmap Z Z) : XM (gmap Z Z) :=
  match auths with
  | [] => mret m
  | auth :: auths => n ← next_auth_sequence (actor auth); next_auth_sequences auths (<[actor auth := n]> m)
  end.

Definition make_receipt (c : apply_context) (receiver_account : Z) : XM action_receipt :=
  g ← next_global_sequence;
  rs ← next_recv_sequence receiver_account;
  first_receiver_account ←
    (if act_account (ac_act c) =? receiver c then read_metadata receiver_account
     else d ← gets xs_native; a ← lift (get_metadata (act_account (ac_act c)) d); mret a.2);
  auths ← next_auth_sequences (authorization (ac_act c)) ∅;
  mret (mk_receipt (receiver c) (action_digest e (ac_act c)) g rs auths
          (code_sequence first_receiver_account) (abi_sequence first_receiver_account)).

Definition exec_one : AM unit :=
  receiver_account ← catch_into_trace (a ← run_handlers; check_ram_deltas;; mret a);
  c ← my_context;
  r ← on_state (make_receipt c receiver_account);
  on_state (update_trace (action_ordinal c) (trace_receipt r));;
  on_state (modify (fun s => set_executed (executed s ++ [r]) s));;
  finalize_trace (action_ordinal c).

(** ** [exec] *)

(** Recipients notified while the loop runs are notified by it, too. *)
Fixpoint notify_loop (fuel : nat) (i : nat) : AM unit :=
  c ← my_context;
  match _notified c !! i with
  | None => mret tt
  | Some (r, o) =>
      match fuel with
      | O => throw out_of_fuel
      | S fuel => on_context (set_receiver r o);; exec_one;; notify_loop fuel (S i)
      end
  end.

(** The first action and its notifications; every one goes to another account. *)
Definition exec_notified : AM unit :=
  c ← my_context;
  on_context (add_notified (receiver c, action_ordinal c));;
  exec_one;;
  d ← my_native;
  notify_loop (S (size (_indices (nd_metadata d)))) 1.

Definition new_apply_context (ordinal depth : Z) : XM apply_context :=
  t ← get_action_trace ordinal;
  mret (mk_apply_context (at_act t) (at_receiver t) depth ordinal ordinal false (at_context_free t) [] [] []).

(** A context has caches and deltas of its own. *)
Definition in_context (c : apply_context) (m : AM unit) : XM apply_context := fun s =>
  let s := set_xs_native (set_deltas ∅ (xs_native s)) s in
  let s := set_xs_tables (fresh_context (xs_tables s)) s in
  let '(r, rn) := m (mk_running c s) in
  (match r with Ok _ => Ok (rn_context rn) | Err ex => Err ex end, rn_state rn).

Fixpoint for_each {A} (f : A -> XM unit) (l : list A) : XM unit :=
  match l with [] => mret tt | x :: l => f x;; for_each f l end.

Fixpoint execute_action (fuel : nat) (ordinal depth : Z) : XM unit :=
  match fuel with
  | O => throw out_of_fuel
  | S fuel =>
      c ← new_apply_context ordinal depth;
      c ← in_context c exec_notified;
      (if (0 <? Z.of_nat (length (_cfa_inline_actions c))) || (0 <? Z.of_nat (length (_inline_actions c)))
       then massert (recurse_depth c <? max_inline_action_depth cfg) transaction_exception
       else mret tt);;
      for_each (fun o => execute_action fuel o (u32 (recurse_depth c + 1))) (_cfa_inline_actions c);;
      for_each (fun o => execute_action fuel o (u32 (recurse_depth c + 1))) (_inline_actions c)
  end.

(** Depth 0 to [max_inline_action_depth]. *)
Definition execution_fuel : nat := S (Z.to_nat (max_inline_action_depth cfg)).

(** ** [transaction_context::exec] *)
Definition schedule_transaction : XM unit :=
  s ← get;
  let t := trx (cx_request (xs_trx s)) in
  (if delay_sec t =? 0 then
     on_trx (add_net_usage (ax_trx e) (base_per_transaction_net_usage cfg + transaction_id_net_usage))
   else mret tt);;
  let first_auth := first_authorizer t in
  let id := trx_id (cx_request (xs_trx s)) in
  let until := block_time + TransactionContext.delay (xs_trx s) in
  let cgto := mk_deferred id 0 (transaction_id_to_sender_id id) first_auth until
                (until + seconds (deferred_trx_expiration_window cfg)) block_time (pack_trx t) in
  on_generated (emplace deferred_conflict cgto);;
  on_native_db (trx_add_ram_usage first_auth (deferred_bytes cgto)).

Fixpoint schedule_all (context_free : bool) (acts : list action) : XM unit :=
  match acts with
  | [] => mret tt
  | act :: acts => trx_schedule_action act (act_account act) context_free 0 0;; schedule_all context_free acts
  end.

Definition trx_exec : XM unit :=
  c ← gets xs_trx;
  massert (is_initialized c) transaction_exception;;
  let t := trx (cx_request c) in
  (if apply_context_free c then schedule_all true (context_free_actions t) else mret tt);;
  (if TransactionContext.delay c =? 0 then schedule_all false (actions t) else mret tt);;
  num_original_actions_to_execute ← gets (fun s => length (action_traces s));
  for_each (fun i => execute_action execution_fuel (Z.of_nat i) 0) (seq 1 num_original_actions_to_execute);;
  if negb (TransactionContext.delay c =? 0) then schedule_transaction else mret tt.
End Apply.
