(* ===== verification/ExecFrames.v ===== *)
(** * What the intrinsics may change ([apply_context.cpp])

    Frame lemmas for the execution of contracts.  A relation that is kept by
    the few operations with which an intrinsic touches the state - billing of
    RAM, the rows of contracts, deferred transactions, the scheduling of an
    action, the privileged setters - is kept by every intrinsic and by every
    contract.  The relations used are the number of traces, the names of
    accounts, and the agreement of the RAM deltas with the recorded usage. *)

From S2P Require Import Prelude Merkle Chainbase ResourceLimits Names Authority AuthorityChecker BlockHeader Authorization GlobalProperties EosioContract NativeState NativeRam Transaction TransactionChecks ChainConfig Timer TransactionContext ContractTables TableInvariant ApplyContext.
#[local] Open Scope Z_scope.

(** ** Rows of contracts change the ledger only by billing *)
Section Tables.
Context {S : Type} `{ram_ledger S} `{softfloat}.
Context (L : bool -> relation S) `{!outcome L} (HL : forall a delta, frames L (ledger_add a delta)).

Abbreviation of_ledger := (along td_ledger L).

(** The parts of the slots beside the ledger. *)
Class beside_ledger {R} (s : slot S R) : Prop := {
  slot_rows_ledger r d : td_ledger (set_slot_rows s r d) = td_ledger d;
  slot_cache_ledger c d : td_ledger (set_slot_cache s c d) = td_ledger d }.
#[export] Instance keyval_beside : beside_ledger keyval.
Proof. done. Qed.
#[export] Instance idx_beside k : beside_ledger (idx k).
Proof. done. Qed.

Lemma frame_update_db_usage a delta : frames of_ledger (update_db_usage a delta).
Proof. by apply frame_within. Qed.
Lemma frame_on_tables {A} (m : M (generic_index table_id_object) A) : frames of_ledger (on_tables m).
Proof. by apply frame_apart_focus. Qed.
Lemma frame_on_rows {R A} (s : slot S R) `{!beside_ledger s} (m : M (generic_index R) A) : frames of_ledger (on_rows s m).
Proof. apply frame_apart_focus; [apply _|]. intros. apply slot_rows_ledger. Qed.
Lemma frame_on_cache {R A} (s : slot S R) `{!beside_ledger s} (m : M iterator_cache A) : frames of_ledger (on_cache s m).
Proof. apply frame_apart_focus; [apply _|]. intros. apply slot_cache_ledger. Qed.
Lemma frame_deref_table t : frames of_ledger (deref_table t).
Proof. by apply frame_read. Qed.
Lemma frame_deref_row {R} (s : slot S R) o : frames of_ledger (deref_row s o).
Proof. by apply frame_read. Qed.
#[local] Hint Resolve frame_update_db_usage frame_on_tables frame_on_rows frame_on_cache frame_deref_table frame_deref_row : frames.

Section Slot.
Context {R} `{row R} (s : slot S R) `{!beside_ledger s}.

Lemma frame_get_row i : frames of_ledger (get_row s i).
Proof. unfold get_row. frame_auto. Qed.
Lemma frame_owned_table receiver obj : frames of_ledger (owned_table s receiver obj).
Proof. unfold owned_table. frame_auto. Qed.
Lemma frame_count_row tab obj payer size : frames of_ledger (count_row s tab obj payer size).
Proof. unfold count_row, increment_count. frame_auto. Qed.
Lemma frame_drop_row i ptr t : frames of_ledger (drop_row s i ptr t).
Proof. unfold drop_row, decrement_count, remove_table. frame_auto. Qed.
Lemma frame_search code scope table position : frames of_ledger (search s code scope table position).
Proof. unfold search. frame_auto. Qed.
Lemma frame_table_end code scope table : frames of_ledger (table_end s code scope table).
Proof. unfold table_end. frame_auto. Qed.
#[local] Hint Resolve frame_get_row : frames.
Lemma frame_next_row before i : frames of_ledger (next_row s before i).
Proof. unfold next_row. frame_auto. Qed.
Lemma frame_step_back before t itr : frames of_ledger (step_back s before t itr).
Proof. unfold step_back. frame_auto. Qed.
#[local] Hint Resolve frame_step_back : frames.
Lemma frame_previous_row before i : frames of_ledger (previous_row s before i).
Proof. unfold previous_row. frame_auto. Qed.
End Slot.
#[local] Hint Resolve frame_get_row frame_owned_table frame_count_row frame_drop_row frame_search frame_table_end
  frame_next_row frame_previous_row : frames.

Lemma frame_find_or_create_table code scope table payer : frames of_ledger (find_or_create_table code scope table payer).
Proof. unfold find_or_create_table. frame_auto. Qed.
#[local] Hint Resolve frame_find_or_create_table : frames.

Lemma frame_run_table_op receiver op : frames of_ledger (run_table_op receiver op).
Proof.
  destruct op; cbv beta iota zeta delta [run_table_op db_store_i64 db_update_i64 db_remove_i64 db_get_i64 db_next_i64 db_previous_i64
    db_find_i64 db_lowerbound_i64 db_upperbound_i64 db_end_i64 idx_store idx_remove idx_update find_secondary lowerbound_secondary
    upperbound_secondary end_secondary next_secondary previous_secondary find_primary lowerbound_primary upperbound_primary
    next_primary previous_primary idx_get]; frame_auto.
Qed.
End Tables.

(** ** The operations with which an intrinsic touches the state *)
Section Calls.
Context {K Sig Key : Type} `{EqDecision K} `{unpacker K} `{contract_unpacker K} `{C : crypto} `{P : posix_timer}
  `{T : trx_codec Sig Key} `{softfloat} (e : apply_env (K := K)).
Context (R : bool -> relation (running (K := K))) `{!outcome R}.

(** Steps of the transaction context beside the native objects. *)
Definition beside_native : bool -> relation (trx_context K) :=
  always (fun c c' => cx_native c' = cx_native c /\ cx_request c' = cx_request c /\ cx_dedup c' = cx_dedup c).
#[export] Instance beside_native_outcome : outcome beside_native.
Proof. split; unfold beside_native, always; [done|]. intros _ c1 c2 c3 (-> & -> & ->) (-> & -> & ->). done. Qed.

Lemma frame_read_expired : frames beside_native (read_expired (ax_trx e)).
Proof. done. Qed.
Lemma frame_now : frames beside_native (now (ax_trx e)).
Proof. done. Qed.
#[local] Hint Resolve frame_read_expired frame_now : frames.
Lemma frame_checktime : frames beside_native (checktime (ax_trx e)).
Proof. unfold checktime. frame_auto. Qed.
Lemma frame_add_net_usage u : frames beside_native (add_net_usage (ax_trx e) u).
Proof. unfold add_net_usage, check_net_usage. frame_auto. Qed.

(** Checking an authorization only checks the time. *)
Section Check.
Context {W : Type} (Q : bool -> relation W) `{!outcome Q} (check : M W unit) (Hcheck : frames Q check).
Context (ac : auth_config K) (gs : list generated_transaction_object) (db : auth_db K).

Lemma frame_check_declared special act delay satisfied auths m :
  frames Q (check_declared check db special act delay satisfied auths m).
Proof. revert m. induction auths; intros m; cbn [check_declared]; frame_auto. Qed.

Lemma frame_check_actions delay satisfied acts m : frames Q (check_actions check gs db delay satisfied acts m).
Proof.
  revert m. induction acts; intros m; cbn [check_actions]; frame_auto. apply frame_check_declared.
Qed.

Lemma frame_satisfy_all ps checker : frames Q (satisfy_all check db ps checker).
Proof. revert checker. induction ps; intros c; cbn [satisfy_all]; frame_auto. Qed.

Lemma frame_check_authorization acts ks ps delay unused satisfied :
  frames Q (check_authorization check ac gs db acts ks ps delay unused satisfied).
Proof. unfold check_authorization. frame_auto; [apply frame_check_actions|apply frame_satisfy_all]. Qed.
End Check.

Class call_frame : Prop := {
  cf_ram a delta : frames R (context_add_ram_usage a delta);
  cf_table receiver op : frames R (on_state (on_table_db (run_table_op receiver op)));
  cf_trx {A} (m : M (trx_context K) A) : frames beside_native m -> frames (always (R true)) (on_state (on_trx m));
  cf_emplace g : frames R (on_state (on_generated (emplace deferred_conflict g)));
  cf_remove id : frames R (on_state (on_generated (index_remove id)));
  cf_properties {A} (m : M (global_properties K) A) : frames R (on_state (on_properties m));
  cf_limits a ram net cpu : frames R (set_resource_limits a ram net cpu);
  cf_privileged a b : frames R (set_privileged a b);
  cf_notify a : frames R (require_recipient a);
  cf_inline act : frames R (o ← schedule_action act (act_account act) false; on_context (add_inline o));
  cf_cfa_inline act : frames R (o ← schedule_action act (act_account act) true; on_context (add_cfa_inline o)) }.

Context `{!call_frame}.

(** A step beside the native objects counts as a success even when it fails. *)
Lemma frame_trx {A} (m : M (trx_context K) A) : frames beside_native m -> frames R (on_state (on_trx m)).
Proof. intros Hm r. eapply outcome_trans; [exact (cf_trx _ Hm r)|apply outcome_refl]. Qed.
Lemma frame_authorized (m : M (trx_context K) unit) : frames beside_native m -> frames R (authorized (on_state (on_trx m))).
Proof.
  intros Hm r. pose proof (cf_trx _ Hm r) as Hr. unfold authorized, always in *. destruct (on_state _ r) as [[a|ex] r1]; [done|].
  cbn in *. destruct (authorization_exception ex); [done|]. eapply outcome_trans; [done|apply outcome_refl].
Qed.
Lemma frame_authorized_read (x : res unit) : frames R (authorized (lift x)).
Proof. intros r. unfold authorized. destruct x as [a|ex]; cbn; [apply outcome_refl|]. destruct (authorization_exception ex); apply outcome_refl. Qed.
#[local] Hint Resolve frame_authorized_read : frames.

Lemma frame_as_subjective {A} (m : M running A) : frames R m -> frames R (as_subjective m).
Proof. intros Hm s. specialize (Hm s). unfold as_subjective. by destruct (m s) as [[a|ex] s']. Qed.

Lemma frame_check_sender acts delay : frames R (check_sender_authorization e acts delay).
Proof.
  unfold check_sender_authorization. frame_auto.
  apply frame_as_subjective, frame_trx, frame_check_authorization; [apply _|apply frame_checktime].
Qed.
#[local] Hint Resolve frame_check_sender cf_properties cf_ram cf_table cf_emplace cf_remove cf_limits cf_privileged cf_notify cf_inline cf_cfa_inline : frames.

Lemma frame_my_native : frames R my_native.
Proof. by apply frame_read. Qed.
Lemma frame_my_context : frames R my_context.
Proof. by apply frame_read. Qed.
#[local] Hint Resolve frame_my_native frame_my_context : frames.

Lemma frame_get_trace o : frames R (on_state (get_action_trace o)).
Proof. apply frame_read. by intros [c s]. Qed.
#[local] Hint Resolve frame_get_trace : frames.

Lemma frame_schedule_deferred id payer t replace : frames R (schedule_deferred_transaction e id payer t replace).
Proof.
  unfold schedule_deferred_transaction, enforce_actor_lists, check_deferred_payer. frame_auto.
  apply frame_trx, frame_add_net_usage.
Qed.
Lemma frame_cancel_deferred id sender : frames R (cancel_deferred_transaction id sender).
Proof. unfold cancel_deferred_transaction. frame_auto. Qed.
#[local] Hint Resolve frame_schedule_deferred frame_cancel_deferred : frames.

Lemma frame_get_limits account : frames R (on_state (on_native_db (on_limits (get_account_limits account)))).
Proof.
  apply frame_read. intros [c s]. unfold on_state, on_native_db, on_limits, zoom, focus.
  assert (Hr : forall m, (get_account_limits account m).2 = m).
  { intros m. unfold get_account_limits, get_limits. mrun. by repeat case_match. }
  cbn. specialize (Hr (nd_limits (xs_native s))). destruct (get_account_limits _ _) as [r m]. cbn in *. subst m.
  unfold xs_native, xs_trx. by destruct s as [[[? ? ? ? ? ? ? ? ? ? ? ? [] ? ?]]].
Qed.
#[local] Hint Resolve frame_get_limits : frames.

Lemma frame_check_trx t k p : frames R (check_transaction_authorization e t k p).
Proof.
  unfold check_transaction_authorization. frame_auto.
  apply frame_authorized, frame_check_authorization; [apply _|apply frame_checktime].
Qed.
#[local] Hint Resolve frame_check_trx : frames.

Lemma frame_call call : frames R (call_intrinsic e call).
Proof.
  destruct call; cbv beta iota zeta delta [call_intrinsic context_require_authorization require_authorization2 execute_inline
    execute_context_free_inline enforce_actor_lists check_inline_size get_sender propose_producers intrinsic_check_permission
    my_transaction eosio_assert_code]; frame_auto.
  apply frame_trx, frame_checktime.
Qed.

Lemma frame_check_api call : frames R (check_api call).
Proof. unfold check_api. frame_auto. Qed.

(** A contract can do what its calls can do. *)
Lemma frame_program p : frames R (run_program e p).
Proof.
  induction p as [|ex|call k IH]; cbn [run_program]; [by apply frame_ret|by apply frame_throw|].
  apply frame_bind; [apply frame_check_api|intros _]. apply frame_bind; [apply frame_call|apply IH].
Qed.
End Calls.
#[export] Hint Resolve frame_my_native frame_my_context frame_get_trace : frames.
#[export] Hint Extern 1 (frames _ (cancel_deferred_transaction _ _)) => eapply frame_cancel_deferred; typeclasses eauto : frames.

(** ** Relations on the native objects *)
Lemma frame_apart_zoom {K S T A} (part : native_db K -> T) (R : bool -> relation T) `{!outcome R}
    (sel : native_db K -> S) upd (m : M S A) :
  (forall u d, part (upd u d) = part d) -> frames (along part R) (zoom sel upd m).
Proof. apply frame_apart_focus, _. Qed.

Section Native.
Context {K Sig Key : Type} `{EqDecision K} `{unpacker K} `{contract_unpacker K} `{C : crypto} `{P : posix_timer}
  `{T : trx_codec Sig Key} `{softfloat} (e : apply_env (K := K)).
Context (N : bool -> relation (native_db K)) `{!outcome N}.

Class native_frame : Prop := {
  nf_ram a delta : frames N (add_ram_usage a delta);
  nf_limits a ram net cpu : frames N (on_limits (set_account_limits a ram net cpu));
  nf_validate v d : N true d (mk_native_db (nd_auth d) (nd_accounts d) (nd_metadata d) (nd_code d) (nd_limits d) v (_account_ram_deltas d));
  nf_flags id b : frames N (on_metadata (index_modify metadata_conflict id (set_flag b))) }.

Abbreviation of_native := (along xs_native N).
Abbreviation of_running := (along (fun r => xs_native (rn_state r)) N).

Lemma frame_on_native_db {A} (m : M (native_db K) A) : frames N m -> frames of_native (on_native_db m).
Proof. by apply frame_within. Qed.
Lemma frame_on_state {A} (m : M exec_state A) : frames of_native m -> frames of_running (on_state m).
Proof. by apply frame_focus. Qed.

Lemma frame_schedule act receiver context_free : frames of_running (schedule_action act receiver context_free).
Proof.
  unfold schedule_action, refresh_act. frame_auto.
  - by apply frame_apart.
  - by apply frame_apart.
Qed.
Lemma frame_schedule_copy o receiver context_free : frames of_running (schedule_action_copy o receiver context_free).
Proof.
  unfold schedule_action_copy, refresh_act. frame_auto.
  - apply frame_on_state. unfold trx_schedule_copy. frame_auto; [by apply frame_read|by apply frame_apart].
  - by apply frame_apart.
Qed.

#[local] Hint Resolve frame_schedule frame_schedule_copy : frames.

#[export] Instance native_call_frame `{!native_frame} : call_frame of_running.
Proof.
  split.
  - intros. apply frame_on_state, frame_on_native_db, nf_ram.
  - intros r op. apply frame_on_state. eapply frame_focus; [|apply (frame_run_table_op (along cx_native N))].
    + done.
    + intros a delta c. cbn. unfold on_native. pose proof (nf_ram a delta (cx_native c)) as Hf. by destruct (add_ram_usage _ _ _).
  - intros A m Hm [c s]. specialize (Hm (xs_trx s)). unfold on_state, on_trx, focus. cbn.
    destruct (m _) as [x c']. destruct Hm as [Hm _]. cbn in *. unfold always, along, xs_native at 2. cbn. rewrite Hm. apply outcome_refl.
  - intros g. by apply frame_on_state, frame_apart_focus.
  - intros id. by apply frame_on_state, frame_apart_focus.
  - intros A m. by apply frame_on_state, frame_apart_focus.
  - intros a ram net cpu. unfold set_resource_limits. frame_auto.
    + apply frame_on_state, frame_on_native_db, nf_limits.
    + apply frame_on_state, frame_on_native_db, frame_modify. intros d. apply nf_validate.
  - intros a b. unfold set_privileged. frame_auto. apply frame_on_state, frame_on_native_db, nf_flags.
  - intros a. unfold require_recipient. frame_auto. by apply frame_apart.
  - intros act. apply frame_bind; [apply frame_schedule|intros o; by apply frame_apart].
  - intros act. apply frame_bind; [apply frame_schedule|intros o; by apply frame_apart].
Qed.
End Native.

(** ** The names of accounts *)
Definition same_names : relation (gmap Z account_metadata_object) := same_keys_map md_name.
#[export] Instance same_names_preorder : PreOrder same_names.
Proof. split; [done|]. intros m1 m2 m3 H12 H23 i. by rewrite H12. Qed.

Abbreviation names_kept K := (along (fun d : native_db K => _indices (nd_metadata d)) (on_success same_names)).

Section Names.
Context {K : Type} `{EqDecision K} `{unpacker K} `{contract_unpacker K}.

Lemma frame_modify_metadata id f : (forall a, md_name (f a) = md_name a) ->
  frames (names_kept K) (on_metadata (index_modify metadata_conflict id f)).
Proof.
  intros Hf. eapply frame_focus with (R := along _indices (on_success same_names)); [done|]. intros gi.
  unfold along, on_success. destruct (index_modify _ _ _ gi) as [[u|ex] gi'] eqn:Em; [|done]. intros _.
  apply index_modify_ok in Em as (a & Ha & Hi & _). cbn. rewrite Hi. by eapply same_keys_modify.
Qed.

#[export] Instance names_frame : native_frame (names_kept K).
Proof.
  split.
  - intros a delta. unfold add_ram_usage, trx_add_ram_usage. frame_auto; [apply frame_apart_zoom|apply frame_apart..]; done || apply _.
  - intros. apply frame_apart_zoom; [apply _|done].
  - done.
  - intros id b. by apply frame_modify_metadata.
Qed.
End Names.

(** ** RAM deltas agree with the recorded usage

    The deltas of an action are [int64_t] counters: they follow the usage of
    each account modulo 2^64. *)
Definition same_word (x y : Z) : Prop := (2 ^ 64 | x - y).
#[export] Instance same_word_equivalence : Equivalence same_word.
Proof.
  unfold same_word. split.
  - intros x. rewrite Z.sub_diag. apply Z.divide_0_r.
  - intros x y Hd. replace (y - x) with (- (x - y)) by lia. by apply Z.divide_opp_r.
  - intros x y z H1 H2. replace (x - z) with ((x - y) + (y - z)) by lia. by apply Z.divide_add_r.
Qed.
#[export] Instance same_word_add : Proper (same_word ==> same_word ==> same_word) Z.add.
Proof.
  unfold same_word. intros x x' Hx y y' Hy. replace (x + y - (x' + y')) with ((x - x') + (y - y')) by lia. by apply Z.divide_add_r.
Qed.
Lemma u64_same_word x : same_word (u64 x) x.
Proof. unfold same_word, u64, uwrap. exists (- (x / 2 ^ 64)). pose proof (Z.div_mod x (2 ^ 64)). lia. Qed.
Lemma s64_same_word x : same_word (s64 x) x.
Proof. unfold same_word, s64. exists (- ((x + 2 ^ 63) / 2 ^ 64)). pose proof (Z.div_mod (x + 2 ^ 63) (2 ^ 64)). lia. Qed.
Lemma s64_range x : is_s64 (s64 x).
Proof. widths. unfold s64. pose proof (Z.mod_pos_bound (x + 2 ^ 63) (2 ^ 64)). lia. Qed.

Definition recorded_delta (m : gmap Z Z) (a : Z) : Z := default 0 (m !! a).
Definition deltas_fit (m : gmap Z Z) : Prop := forall a x, m !! a = Some x -> is_s64 x.

Definition tracks (p p' : resource_limits_manager * gmap Z Z) : Prop :=
  (deltas_fit p.2 -> deltas_fit p'.2)
  /\ forall a, same_word (ram_of p'.1 a + recorded_delta p.2 a) (ram_of p.1 a + recorded_delta p'.2 a).
#[export] Instance tracks_preorder : PreOrder tracks.
Proof.
  split; [done|]. intros p1 p2 p3 [Hf1 H1] [Hf2 H2]. split; [auto|]. intros a.
  specialize (H1 a). specialize (H2 a). unfold same_word in *.
  match goal with |- (_ | ?g) => replace g with
    ((ram_of p2.1 a + recorded_delta p1.2 a - (ram_of p1.1 a + recorded_delta p2.2 a))
     + (ram_of p3.1 a + recorded_delta p2.2 a - (ram_of p2.1 a + recorded_delta p3.2 a))) by lia end.
  by apply Z.divide_add_r.
Qed.

Abbreviation ram_kept K := (along (fun d : native_db K => (nd_limits d, _account_ram_deltas d)) (on_success tracks)).

Section Ram.
Context {K : Type} `{EqDecision K} `{unpacker K} `{contract_unpacker K} (cfg : native_config K).

Lemma add_pending_same_word t delta l u l' : add_pending_ram_usage t delta l = (Ok u, l') ->
  forall a, same_word (ram_of l' a) (ram_of l a + if a =? t then delta else 0).
Proof.
  unfold add_pending_ram_usage. intros Hr a. destruct (Z.eqb_spec delta 0) as [->|_].
  { minv. replace (if a =? t then 0 else 0) with 0 by (by case_match). by rewrite Z.add_0_r. }
  minv. unfold get_usage, put_usage in *. mrun. destruct (rl_usage _ !! t) as [us|] eqn:Eu; [|done]. simplify_eq.
  unfold ram_of. cbn. rewrite lookup_insert. destruct (Z.eqb_spec a t) as [->|Hat].
  - rewrite decide_True, Eu by done. cbn. apply u64_same_word.
  - rewrite decide_False by done. by rewrite Z.add_0_r.
Qed.

Lemma add_ram_usage_deltas t delta (d : native_db K) u d' : add_ram_usage t delta d = (Ok u, d') ->
  _account_ram_deltas d' = <[t := match _account_ram_deltas d !! t with
    None => s64 delta | Some x => s64 (x + delta) end]> (_account_ram_deltas d).
Proof.
  unfold add_ram_usage, trx_add_ram_usage, on_limits, zoom. intros Hr. minv.
  mrun. destruct (add_pending_ram_usage _ _ _) as [[v|ex] l]; [|done]. destruct (delta >? 0); by simplify_eq.
Qed.

Lemma frame_add_ram_usage t delta : frames (ram_kept K) (add_ram_usage t delta).
Proof.
  intros d Hb. destruct (add_ram_usage t delta d) as [[u|ex] d'] eqn:Er; [|done].
  pose proof (add_ram_usage_deltas _ _ _ _ _ Er) as Hd. apply add_ram_usage_ok in Er as (_ & _ & _ & _ & Hp).
  pose proof (add_pending_same_word _ _ _ _ _ Hp) as Hw. clear Hp Hb. cbn. rewrite Hd. split; cbn.
  - intros Hf a x. rewrite lookup_insert. case_decide; [|apply Hf]. intros [= <-]. case_match; apply s64_range.
  - intros a. rewrite (Hw a). unfold recorded_delta. rewrite lookup_insert. destruct (Z.eqb_spec a t) as [->|Hat].
    + rewrite decide_True by done. destruct (_account_ram_deltas d !! t) as [x|]; cbn; rewrite s64_same_word.
      * by replace (ram_of (nd_limits d) t + delta + x) with (ram_of (nd_limits d) t + (x + delta)) by lia.
      * by rewrite Z.add_0_r.
    + rewrite decide_False by done. by rewrite Z.add_0_r.
Qed.
#[local] Hint Resolve frame_add_ram_usage : frames.

(** Limits, and the entries of a new account, do not change any usage. *)
Lemma frame_on_limits {A} (m : M resource_limits_manager A) :
  (forall l a l', m l = (Ok a, l') -> forall x, ram_of l' x = ram_of l x) -> frames (ram_kept K) (on_limits m).
Proof.
  intros Hm d Hb. unfold on_limits, zoom in *. destruct (m (nd_limits d)) as [[a|ex] l] eqn:Em; [|done].
  split; [done|]. intros x. cbn. by rewrite (Hm _ _ _ Em).
Qed.

Lemma set_account_limits_ram a ram net cpu l b l' : set_account_limits a ram net cpu l = (Ok b, l') ->
  forall x, ram_of l' x = ram_of l x.
Proof.
  intros Hr. enough (Hf : frames (along rl_usage (on_success eq)) (set_account_limits a ram net cpu)).
  { intros x. unfold ram_of. specialize (Hf l). rewrite Hr in Hf. specialize (Hf eq_refl). cbn in Hf. by rewrite <- Hf. }
  unfold set_account_limits, find_or_create_pending_limits, put_limits. frame_auto.
  all: try by apply frame_modify. all: apply frame_apart; [apply _|]; intros m; unfold create_limits, get_limits; by case_match.
Qed.

#[export] Instance ram_frame : native_frame (ram_kept K).
Proof.
  split.
  - apply frame_add_ram_usage.
  - intros. apply frame_on_limits. intros *. apply set_account_limits_ram.
  - intros v d _. reflexivity.
  - intros id b. apply frame_apart_zoom; [apply _|done].
Qed.

(** *** Native handlers *)
Lemma frame_part {S A} (sel : native_db K -> S) upd (m : M S A) :
  (forall u d, nd_limits (upd u d) = nd_limits d /\ _account_ram_deltas (upd u d) = _account_ram_deltas d) ->
  frames (ram_kept K) (zoom sel upd m).
Proof. intros Hu. apply frame_apart_zoom; [apply _|]. intros u d. by destruct (Hu u d) as [-> ->]. Qed.
Lemma frame_on_auth {A} (m : M (auth_db K) A) : frames (ram_kept K) (on_auth m).
Proof. by apply frame_part. Qed.
Lemma frame_on_accounts {A} (m : M (generic_index account_object) A) : frames (ram_kept K) (on_accounts m).
Proof. by apply frame_part. Qed.
Lemma frame_on_metadata {A} (m : M (generic_index account_metadata_object) A) : frames (ram_kept K) (on_metadata m).
Proof. by apply frame_part. Qed.
Lemma frame_on_code {A} (m : M (generic_index code_object) A) : frames (ram_kept K) (on_code m).
Proof. by apply frame_part. Qed.
Lemma frame_on_links {A} (m : M (generic_index permission_link_object) A) : frames (ram_kept K) (on_links m).
Proof. apply frame_on_auth. Qed.
Lemma frame_initialize_account n : frames (ram_kept K) (on_limits (initialize_account n)).
Proof. apply frame_on_limits. intros l [] l'. apply initialize_account_ram_of. Qed.
Lemma frame_require_authorization act a : frames (ram_kept K) (require_authorization act a).
Proof. apply frame_massert. Qed.
#[local] Hint Resolve frame_on_auth frame_on_accounts frame_on_metadata frame_on_code frame_on_links frame_initialize_account
  frame_require_authorization : frames.

Lemma frame_handler receiver scope name handler act : find_apply_handler cfg receiver scope name = Some handler ->
  frames (ram_kept K) (handler act).
Proof.
  intros (n & Hn)%find_apply_handler_inv. unfold apply_handlers in Hn.
  repeat (apply elem_of_cons in Hn as [[= _ ->]|Hn]); [..|by apply elem_of_nil in Hn];
    cbv beta iota zeta delta [apply_eosio_newaccount apply_eosio_setcode apply_eosio_setabi apply_eosio_updateauth
      apply_eosio_deleteauth apply_eosio_linkauth apply_eosio_unlinkauth release_code use_code]; frame_auto.
Qed.
End Ram.
