(* ===== verification/ExecTraces.v ===== *)
(** * Scheduling and serving actions
      ([apply_context.cpp], [transaction_context.cpp])

    What the execution of one action does to the traces of its transaction:
    contracts append orders for notifications and inline actions, and one trace
    gets its receipt. *)

From S2P Require Import Prelude Merkle Chainbase ResourceLimits Names Authority AuthorityChecker BlockHeader Authorization GlobalProperties EosioContract NativeState NativeRam Transaction TransactionChecks ChainConfig Timer TransactionContext ContractTables TableInvariant ApplyContext ExecFrames.
#[local] Open Scope Z_scope.

(** ** Orders *)
Inductive order_kind : Type := notification | inline | cfa_inline.
Abbreviation order := (order_kind * action_trace)%type.

Definition recipients (E : list order) : list (Z * Z) :=
  omap (fun o => match o.1 with notification => Some (at_receiver o.2, at_action_ordinal o.2) | _ => None end) E.
Definition inlines (E : list order) : list Z :=
  omap (fun o => match o.1 with inline => Some (at_action_ordinal o.2) | _ => None end) E.
Definition cfa_inlines (E : list order) : list Z :=
  omap (fun o => match o.1 with cfa_inline => Some (at_action_ordinal o.2) | _ => None end) E.

(** The trace of an order that was just scheduled by [c] as number [n]. *)
Definition fresh_trace (c : apply_context) (n : nat) (k : order_kind) (t : action_trace) : Prop :=
  at_action_ordinal t = u32 (Z.of_nat n + 1) /\ creator_action_ordinal t = action_ordinal c
  /\ closest_unnotified_ancestor_action_ordinal t = first_receiver_action_ordinal c
  /\ at_receipt t = None /\ account_ram_deltas t = ∅ /\ at_except t = None
  /\ match k with
     | notification => at_act t = ac_act c /\ at_context_free t = false
     | inline => at_receiver t = act_account (at_act t) /\ at_context_free t = false
     | cfa_inline => at_receiver t = act_account (at_act t) /\ at_context_free t = true
     end.

Definition orders_ok (c : apply_context) (n : nat) (E : list order) : Prop :=
  forall i o, E !! i = Some o -> fresh_trace c (n + i) o.1 o.2.

Lemma orders_app c n E1 E2 : orders_ok c n E1 -> orders_ok c (n + length E1) E2 -> orders_ok c n (E1 ++ E2).
Proof.
  intros H1 H2 i o [Hi|(Hge & Hi)]%lookup_app_Some; [by apply H1|].
  specialize (H2 _ _ Hi). by replace (n + length E1 + (i - length E1))%nat with (n + i)%nat in H2 by lia.
Qed.

(** Fields that an execution does not change. *)
Definition same_context (c c' : apply_context) : Prop :=
  ac_act c' = ac_act c /\ receiver c' = receiver c /\ recurse_depth c' = recurse_depth c
  /\ first_receiver_action_ordinal c' = first_receiver_action_ordinal c /\ action_ordinal c' = action_ordinal c
  /\ privileged c' = privileged c /\ context_free c' = context_free c.

Lemma same_context_trans c1 c2 c3 : same_context c1 c2 -> same_context c2 c3 -> same_context c1 c3.
Proof. intros (? & ? & ? & ? & ? & ? & ?) (? & ? & ? & ? & ? & ? & ?). unfold same_context. split_and!; congruence. Qed.

Definition orders_of (c c' : apply_context) (E : list order) : Prop :=
  _notified c' = _notified c ++ recipients E /\ _inline_actions c' = _inline_actions c ++ inlines E
  /\ _cfa_inline_actions c' = _cfa_inline_actions c ++ cfa_inlines E.

Lemma orders_ok_context c c' n E : same_context c c' -> orders_ok c' n E -> orders_ok c n E.
Proof.
  intros (Ha & _ & _ & Hf & Ho & _) H i o Hi. specialize (H i o Hi). unfold fresh_trace in *. by rewrite Ha, Hf, Ho in H.
Qed.

Section Traces.
Context {K Sig Key : Type} `{EqDecision K} `{unpacker K} `{contract_unpacker K} `{C : crypto} `{P : posix_timer}
  `{T : trx_codec Sig Key} `{softfloat} (e : apply_env (K := K)).
Implicit Types (s : exec_state (K := K)) (r : running (K := K)).

Definition position (o : Z) : nat := Z.to_nat (o - 1).

(** The trace of the action that runs is where its ordinal says. *)
Definition in_place r : Prop :=
  exists t, 0 < action_ordinal (rn_context r) /\ action_traces (rn_state r) !! position (action_ordinal (rn_context r)) = Some t
    /\ at_act t = ac_act (rn_context r).

Lemma find_trace_at o t s : 0 < o -> action_traces s !! position o = Some t -> find_trace o s = Ok t.
Proof.
  intros Ho Ht. pose proof (lookup_lt_Some _ _ _ Ht) as Hl. unfold find_trace, position in *.
  rewrite (proj2 (eos_assert_ok _ _)) by lia. cbn. by rewrite Ht.
Qed.

Record called r r' : Prop := {
  ca_context : same_context (rn_context r) (rn_context r');
  ca_orders : exists E, action_traces (rn_state r') = action_traces (rn_state r) ++ E.*2
    /\ orders_of (rn_context r) (rn_context r') E /\ orders_ok (rn_context r) (length (action_traces (rn_state r))) E;
  ca_recipients : NoDup (_notified (rn_context r)).*1 -> NoDup (_notified (rn_context r')).*1;
  ca_executed : executed (rn_state r') = executed (rn_state r);
  ca_sequence : xs_global_sequence (rn_state r') = xs_global_sequence (rn_state r) }.

Definition calls r r' : Prop := in_place r -> in_place r' /\ called r r'.

Lemma called_in_place r r' : in_place r -> called r r' -> in_place r'.
Proof.
  intros (t & Ho & Ht & Ha) [(Hact & _ & _ & _ & Hord & _) (E & Htr & _) _ _ _]. exists t. rewrite Hord, Hact, Htr.
  split; [done|]. split; [|done]. by apply lookup_app_l_Some.
Qed.

Lemma called_refl r : called r r.
Proof.
  split; try done. exists []. rewrite app_nil_r. split; [done|]. split; [|done]. unfold orders_of. cbn. by rewrite !app_nil_r.
Qed.

Lemma called_trans r1 r2 r3 : called r1 r2 -> called r2 r3 -> called r1 r3.
Proof.
  intros [Hc1 (E1 & Ht1 & (Hn1 & Hi1 & Hf1) & Ho1) Hd1 He1 Hg1] [Hc2 (E2 & Ht2 & (Hn2 & Hi2 & Hf2) & Ho2) Hd2 He2 Hg2].
  split; [| |auto|congruence|congruence].
  - by eapply same_context_trans.
  - exists (E1 ++ E2). rewrite fmap_app, app_assoc, <- Ht1. split; [done|]. split.
    + unfold orders_of. rewrite Hn2, Hn1, Hi2, Hi1, Hf2, Hf1. unfold recipients, inlines, cfa_inlines.
      by rewrite !omap_app, !app_assoc.
    + apply orders_app; [done|]. apply (orders_ok_context _ _ _ _ Hc1). by rewrite Ht1, length_app, length_fmap in Ho2.
Qed.

#[export] Instance calls_preorder : PreOrder calls.
Proof.
  split; [intros r Hr; split; [done|apply called_refl]|]. intros r1 r2 r3 Hs12 Hs23 Hi1.
  destruct (Hs12 Hi1) as [Hi2 Hc12]. destruct (Hs23 Hi2) as [Hi3 Hc23]. split; [done|]. by eapply called_trans.
Qed.

(** Work on the other parts of the state. *)
Lemma calls_beside {A} (m : M exec_state A) :
  (forall s, action_traces (m s).2 = action_traces s /\ executed (m s).2 = executed s
    /\ xs_global_sequence (m s).2 = xs_global_sequence s) -> frames (always calls) (on_state m).
Proof.
  intros Hm [c s] Hin. unfold on_state, focus. cbn. specialize (Hm s). destruct (m s) as [x s']. cbn in *.
  destruct Hm as (Ht & He & Hg). enough (Hc : called (mk_running c s) (set_rn_state s' (mk_running c s))).
  { split; [|done]. by eapply called_in_place. }
  split; try done. exists []. cbn. rewrite app_nil_r. split; [done|]. split; [|done]. unfold orders_of. cbn. by rewrite !app_nil_r.
Qed.

Lemma calls_apart {A} (m : M exec_state A) :
  (forall s, action_traces (m s).2 = action_traces s /\ executed (m s).2 = executed s
    /\ xs_global_sequence (m s).2 = xs_global_sequence s) -> frames (on_success calls) (on_state m).
Proof. intros Hm r _. by apply calls_beside. Qed.

Lemma calls_focus {S A} (sel : exec_state -> S) upd (m : M S A) :
  (forall u s, action_traces (upd u s) = action_traces s /\ executed (upd u s) = executed s
    /\ xs_global_sequence (upd u s) = xs_global_sequence s) -> frames (on_success calls) (on_state (focus sel upd m)).
Proof. intros Hu. apply calls_apart. intros s. unfold focus. destruct (m _). apply Hu. Qed.

(** *** Scheduling *)
Definition next_ordinal s : Z := u32 (Z.of_nat (length (action_traces s)) + 1).
Definition new_trace r act receiver context_free : action_trace :=
  mk_trace (next_ordinal (rn_state r)) (action_ordinal (rn_context r)) (first_receiver_action_ordinal (rn_context r)) None receiver
    act context_free ∅ None.
Definition with_trace t r : running :=
  mk_running (rn_context r) (set_action_traces (action_traces (rn_state r) ++ [t]) (rn_state r)).

Lemma refresh_in_place r : in_place r -> refresh_act r = (Ok tt, r).
Proof.
  intros (t & Ho & Ht & Ha). unfold refresh_act, my_context, on_state, on_context, get_action_trace, focus. mrun.
  rewrite (find_trace_at _ t) by done. cbn. destruct r as [[] s]. cbn in *. by subst.
Qed.

Lemma in_place_with_trace t r : in_place r -> in_place (with_trace t r).
Proof. intros (u & Ho & Hu & Ha). exists u. split; [done|]. split; [by apply lookup_app_l_Some|done]. Qed.

Lemma schedule_run act receiver context_free r : in_place r ->
  schedule_action act receiver context_free r = (Ok (next_ordinal (rn_state r)), with_trace (new_trace r act receiver context_free) r).
Proof.
  intros Hr. unfold schedule_action, my_context, on_state, focus. cbn. unfold mbind, M_bind, gets.
  change (set_rn_state _ r) with (with_trace (new_trace r act receiver context_free) r).
  by rewrite refresh_in_place by by apply in_place_with_trace.
Qed.

Lemma schedule_copy_run receiver context_free r : in_place r ->
  schedule_action_copy (action_ordinal (rn_context r)) receiver context_free r
    = (Ok (next_ordinal (rn_state r)), with_trace (new_trace r (ac_act (rn_context r)) receiver context_free) r).
Proof.
  intros Hr. pose proof Hr as (t & Ho & Ht & Ha). unfold schedule_action_copy, my_context, on_state, focus, trx_schedule_copy.
  unfold mbind, M_bind, gets, get_action_trace. rewrite (find_trace_at _ t) by done. cbn.
  change (set_rn_state _ r) with (with_trace (new_trace r (at_act t) receiver context_free) r). rewrite <- Ha.
  by rewrite refresh_in_place by by apply in_place_with_trace.
Qed.

(** One order. *)
Lemma calls_order k t r r' (c := rn_context r) : in_place r -> rn_state r' = rn_state (with_trace t r) ->
  same_context c (rn_context r') -> orders_of c (rn_context r') [(k, t)] -> fresh_trace c (length (action_traces (rn_state r))) k t ->
  (NoDup (_notified c).*1 -> NoDup (_notified (rn_context r')).*1) -> in_place r' /\ called r r'.
Proof.
  intros Hr Hs Hc Hn Hf Hd. enough (Hca : called r r') by (split; [by eapply called_in_place|done]).
  split; [done| |done|by rewrite Hs|by rewrite Hs]. exists [(k, t)]. rewrite Hs. split; [done|]. split; [done|].
  intros i o Ho. apply list_lookup_singleton_Some in Ho as [-> <-]. by rewrite Nat.add_0_r.
Qed.

#[export] Instance calls_frame : call_frame (on_success calls).
Proof.
  split.
  - intros a delta. by apply calls_focus.
  - intros receiver op. by apply calls_focus.
  - intros A m _ r _. apply calls_beside. intros s. unfold on_trx, focus. by destruct (m _).
  - intros g. by apply calls_focus.
  - intros id. by apply calls_focus.
  - intros A m. by apply calls_focus.
  - intros a ram net cpu. unfold set_resource_limits. frame_auto; by apply calls_focus.
  - intros a b. unfold set_privileged. frame_auto. by apply calls_focus.
  - intros a r Hb Hr. unfold require_recipient, my_context in *. unfold mbind, M_bind, gets in *.
    destruct (has_recipient a (rn_context r)) eqn:Ea; cbn [negb] in *; [split; [done|apply called_refl]|].
    rewrite (schedule_copy_run a false r Hr). cbn.
    apply (calls_order notification (new_trace r (ac_act (rn_context r)) a false)); try done.
    + unfold orders_of. cbn. by rewrite !app_nil_r.
    + cbn. rewrite fmap_app. cbn. intros Hd. apply NoDup_app. split; [done|]. split; [|apply NoDup_singleton].
      intros x (p & -> & Hp)%list_elem_of_fmap Hx%list_elem_of_singleton. unfold has_recipient in Ea.
      apply not_true_iff_false in Ea. apply Ea, existsb_exists. exists p. split; [by apply list_elem_of_In|]. by apply Z.eqb_eq.
  - intros act r Hb Hr. unfold mbind, M_bind in *. rewrite (schedule_run act (act_account act) false r Hr). cbn.
    apply (calls_order inline (new_trace r act (act_account act) false)); try done. unfold orders_of. cbn. by rewrite !app_nil_r.
  - intros act r Hb Hr. unfold mbind, M_bind in *. rewrite (schedule_run act (act_account act) true r Hr). cbn.
    apply (calls_order cfa_inline (new_trace r act (act_account act) true)); try done. unfold orders_of. cbn. by rewrite !app_nil_r.
Qed.
End Traces.

(** ** One action *)
Section Serve.
Context {K Sig Key : Type} `{EqDecision K} `{unpacker K} `{contract_unpacker K} `{C : crypto} `{P : posix_timer}
  `{T : trx_codec Sig Key} `{softfloat} (e : apply_env (K := K)).
Implicit Types (s : exec_state (K := K)) (r : running (K := K)).

Abbreviation native_of r := (xs_native (rn_state r)).
Abbreviation limits_and_deltas r := (nd_limits (native_of r), _account_ram_deltas (native_of r)).
Abbreviation names_of r := (_indices (nd_metadata (native_of r))).
Abbreviation handler_of r := (native_handler e (receiver (rn_context r)) (ac_act (rn_context r))).

(** *** Handler and contract *)
Section Handlers.
Context (R : bool -> relation (running (K := K))) `{!outcome R} `{!call_frame R}.

Lemma frame_check_lists : frames R (check_lists e).
Proof. unfold check_lists, enforce_actor_lists. frame_auto. Qed.

Lemma frame_canceldelay : frames R apply_eosio_canceldelay.
Proof.
  unfold apply_eosio_canceldelay, context_require_authorization. frame_auto.
Qed.

(** What follows the look-up of the receiver. *)
Definition handlers_tail (receiver_account : Z * account_metadata_object) c : M running Z :=
  (match native_handler e (receiver c) (ac_act c) with
   | Some native => check_lists e;; native
   | None => mret tt
   end);;
  d ← my_native;
  a ← lift (deref (nd_metadata d) receiver_account.1);
  (if negb (bool_decide (code_hash a = no_digest)) then
     check_lists e;;
     run_program e (code_of e (code_hash a) (vm_type a) (vm_version a) (receiver c))
   else mret tt);;
  mret receiver_account.1.

Lemma frame_handlers_tail receiver_account c :
  (forall native, native_handler e (receiver c) (ac_act c) = Some native -> frames R native) ->
  frames R (handlers_tail receiver_account c).
Proof.
  intros Hn. unfold handlers_tail. apply frame_bind.
  { destruct (native_handler _ _ _) as [native|] eqn:En; [|by apply frame_ret].
    apply frame_bind; [apply frame_check_lists|intros _; by apply Hn]. }
  intros _. apply frame_bind; [by apply frame_read|intros d]. apply frame_bind; [by apply frame_lift|intros a].
  apply frame_bind; [|intros _; by apply frame_ret]. destruct (negb _); [|by apply frame_ret].
  apply frame_bind; [apply frame_check_lists|intros _; by apply frame_program].
Qed.
End Handlers.

Definition set_privilege (p : bool) r : running := mk_running (set_context_privileged p (rn_context r)) (rn_state r).

Lemma run_handlers_eq r : run_handlers e r =
  match get_metadata (receiver (rn_context r)) (native_of r) with
  | Err ex => (Err ex, r)
  | Ok md => handlers_tail md (rn_context r) (set_privilege (is_privileged md.2) r)
  end.
Proof.
  unfold run_handlers, my_context, my_native, on_context, gets, modify, lift. unfold mbind at 1 2 3 4, M_bind at 1 2 3 4.
  by destruct (get_metadata _ _).
Qed.

Lemma native_handler_none c a : a <> act_account c -> native_handler e a c = None.
Proof.
  intros Ha. unfold native_handler, find_apply_handler.
  destruct ((a =? system_account_name) && (act_account c =? system_account_name)) eqn:Eb; [|done].
  btests. congruence.
Qed.

(** *** Growth of RAM *)
Definition authorized_growth c (deltas : gmap Z Z) : Prop :=
  forall a x, deltas !! a = Some x -> 0 < x ->
    a = receiver c \/ (receiver c = act_account (ac_act c) /\ has_authorization a (ac_act c) = true).

(** Checking takes time and nothing else. *)
Definition essence r := (rn_context r, native_of r, action_traces (rn_state r), executed (rn_state r), xs_global_sequence (rn_state r)).

Lemma frame_essence_checktime : frames (along essence (always eq)) (on_state (on_trx (checktime (ax_trx e)))).
Proof.
  intros [c s]. unfold on_state, on_trx, focus, along, always, essence. cbn.
  pose proof (frame_checktime e (xs_trx s)) as [Hc _]. destruct (checktime _ _) as [x tc]. cbn in *. unfold xs_native at 2. cbn.
  by rewrite Hc.
Qed.

Lemma frame_check_ram_deltas : frames (along essence (always eq)) (check_ram_deltas e).
Proof.
  assert (Hl : forall c l n, frames (along essence (always eq)) (check_ram_loop e c n l)).
  { intros c. induction l as [|[a x] l IH]; intros n; cbn [check_ram_loop]; frame_auto. apply frame_essence_checktime. }
  unfold check_ram_deltas. frame_auto.
Qed.

Lemma check_ram_loop_ok c counter l r u r' : check_ram_loop e c counter l r = (Ok u, r') ->
  forall a x, (a, x) ∈ l -> 0 < x ->
    a = receiver c \/ (receiver c = act_account (ac_act c) /\ has_authorization a (ac_act c) = true).
Proof.
  revert counter r. induction l as [|[a x] l IH]; intros counter r Hr; [by intros a x ?%elem_of_nil|].
  cbn [check_ram_loop] in Hr.
  apply M_bind_ok in Hr as (u1 & r1 & Hr1 & Hr). apply M_bind_ok in Hr as (u2 & r2 & Hr2 & Hr).
  intros b y [[= -> ->]|Hb]%elem_of_cons Hy; [|by apply (IH _ _ Hr b y)].
  clear Hr Hr1. case_match; [minv; btests; auto|]. left.
  match goal with Hf : _ && _ = false |- _ => apply andb_false_iff in Hf as [Hf|Hf]; btests; lia end.
Qed.

Lemma check_ram_deltas_ok r u r' : check_ram_deltas e r = (Ok u, r') -> essence r' = essence r
  /\ (privileged (rn_context r) = false -> authorized_growth (rn_context r) (_account_ram_deltas (native_of r))).
Proof.
  intros Hr. pose proof (frame_check_ram_deltas r) as Hf. rewrite Hr in Hf. split; [by rewrite Hf|]. clear Hf.
  unfold check_ram_deltas, my_context, my_native in Hr. minv. destruct (privileged _) eqn:Ep; cbn [negb] in *; minv; [done|].
  match goal with Hl : check_ram_loop _ _ _ _ _ = _ |- _ => pose proof (check_ram_loop_ok _ _ _ _ _ _ Hl) as Hall end.
  intros _ a x Ha Hx. apply (Hall a x); [|done]. unfold deltas_in_order. apply list_elem_of_omap.
  exists a. split; [|by rewrite Ha]. apply elem_of_ascending, elem_of_dom. eauto.
Qed.

(** *** The receipt *)
Definition receipt_tail c (id g : Z) : M (exec_state (K := K)) action_receipt :=
  rs ← next_recv_sequence id;
  first_receiver_account ←
    (if act_account (ac_act c) =? receiver c then read_metadata id
     else d ← gets xs_native; a ← lift (get_metadata (act_account (ac_act c)) d); mret a.2);
  auths ← next_auth_sequences (authorization (ac_act c)) ∅;
  mret (mk_receipt (receiver c) (action_digest e (ac_act c)) g rs auths
          (code_sequence first_receiver_account) (abi_sequence first_receiver_account)).

Lemma frame_receipt_tail (R : bool -> relation (exec_state (K := K))) `{!outcome R} c id g :
  (forall i f, (forall a, md_name (f a) = md_name a) -> frames R (on_native_db (on_metadata (index_modify metadata_conflict i f)))) ->
  frames R (receipt_tail c id g).
Proof.
  intros Hbump. assert (Hread : forall i, frames R (read_metadata i)) by (intros; by apply frame_read).
  assert (Hauth : forall auths m, frames R (next_auth_sequences auths m)).
  { induction auths as [|a auths IH]; intros m; cbn [next_auth_sequences]; [by apply frame_ret|].
    unfold next_auth_sequence. frame_auto. by apply Hbump. }
  unfold receipt_tail, next_recv_sequence. frame_auto. by apply Hbump.
Qed.

Lemma make_receipt_ok c id s rc s' : make_receipt e c id s = (Ok rc, s') ->
  action_traces s' = action_traces s /\ executed s' = executed s /\ xs_global_sequence s' = u64 (xs_global_sequence s + 1)
  /\ global_sequence rc = xs_global_sequence s' /\ ar_receiver rc = receiver c /\ act_digest rc = action_digest e (ac_act c)
  /\ nd_limits (xs_native s') = nd_limits (xs_native s) /\ _account_ram_deltas (xs_native s') = _account_ram_deltas (xs_native s)
  /\ same_names (_indices (nd_metadata (xs_native s))) (_indices (nd_metadata (xs_native s'))).
Proof.
  change (make_receipt e c id) with (g ← next_global_sequence; receipt_tail c id g). intros Hr.
  apply M_bind_ok in Hr as (g & s1 & Hg & Hr). unfold next_global_sequence in Hg. minv.
  set (s1 := set_xs_global_sequence _ s) in *.
  assert (Hb : frames (along (fun s => (action_traces s, executed s, xs_global_sequence s, nd_limits (xs_native s),
    _account_ram_deltas (xs_native s))) (on_success eq)) (receipt_tail c id (xs_global_sequence s1))).
  { apply frame_receipt_tail; [apply _|]. intros i f _. apply frame_apart; [apply _|]. intros u.
    unfold on_native_db, on_metadata, zoom, focus. by destruct (index_modify _ _ _ _). }
  assert (Hn : frames (along xs_native (names_kept K)) (receipt_tail c id (xs_global_sequence s1))).
  { apply frame_receipt_tail; [apply _|]. intros i f Hf. by apply frame_on_native_db, frame_modify_metadata. }
  specialize (Hb s1). specialize (Hn s1). rewrite Hr in Hb, Hn. specialize (Hb eq_refl). specialize (Hn eq_refl). cbn in Hb, Hn.
  unfold receipt_tail in Hr. apply M_bind_ok in Hr as (rs & s2 & _ & Hr). apply M_bind_ok in Hr as (fr & s3 & _ & Hr).
  apply M_bind_ok in Hr as (auths & s4 & _ & Hr). minv. injection Hb as Ht He Hgs Hl Hd. subst s1. split_and!; try done; congruence.
Qed.

(** *** [exec_one] *)
Record served (p : bool) (E : list order) (rc : action_receipt) (D : gmap Z Z) r r' : Prop := {
  sv_privilege : exists md, get_metadata (receiver (rn_context r)) (native_of r) = Ok md /\ p = is_privileged md.2;
  sv_context : same_context (set_context_privileged p (rn_context r)) (rn_context r');
  sv_orders : orders_of (rn_context r) (rn_context r') E
    /\ orders_ok (rn_context r) (length (action_traces (rn_state r))) E;
  sv_traces : exists t, action_traces (rn_state r) !! position (action_ordinal (rn_context r)) = Some t
    /\ action_traces (rn_state r') =
         <[position (action_ordinal (rn_context r)) := trace_deltas D (trace_receipt rc t)]> (action_traces (rn_state r) ++ E.*2);
  sv_recipients : NoDup (_notified (rn_context r)).*1 -> NoDup (_notified (rn_context r')).*1;
  sv_executed : executed (rn_state r') = executed (rn_state r) ++ [rc];
  sv_sequence : xs_global_sequence (rn_state r') = u64 (xs_global_sequence (rn_state r) + 1)
    /\ global_sequence rc = xs_global_sequence (rn_state r');
  sv_receipt : ar_receiver rc = receiver (rn_context r) /\ act_digest rc = action_digest e (ac_act (rn_context r));
  sv_growth : p = false -> authorized_growth (rn_context r) D;
  sv_ram : tracks (limits_and_deltas r) (nd_limits (native_of r'), D);
  sv_deltas : _account_ram_deltas (native_of r') = ∅;
  sv_names : handler_of r = None -> same_names (names_of r) (names_of r') }.

Lemma catch_ok {A} (m : M (running (K := K)) A) r a r' : catch_into_trace e m r = (Ok a, r') -> m r = (Ok a, r').
Proof. unfold catch_into_trace. by destruct (m r) as [[b|ex] r1]. Qed.

Lemma update_trace_ok o f s u s' : update_trace o f s = (Ok u, s') -> exists t, 0 < o
  /\ action_traces s !! position o = Some t /\ s' = set_action_traces (<[position o := f t]> (action_traces s)) s.
Proof.
  unfold update_trace, get_action_trace. intros Hr. apply M_bind_ok in Hr as (t & s1 & Ht & Hr). injection Ht as Ht ->. minv.
  unfold find_trace in Ht. apply eos_assert_bind_ok in Ht as [Hb Ht]. exists t. btests. split; [done|]. split; [|done].
  unfold position. by destruct (action_traces _ !! _); simplify_eq.
Qed.

Lemma frame_native_ram native c : native_handler e (receiver c) (ac_act c) = Some native ->
  frames (along (fun r => native_of r) (ram_kept K)) native.
Proof.
  unfold native_handler. case_match; [intros [= <-]; apply frame_canceldelay; apply _|].
  intros (h & Hh & ->)%fmap_Some. apply frame_on_state, frame_on_native_db. by eapply frame_handler.
Qed.

Lemma frame_native_calls native c : native_handler e (receiver c) (ac_act c) = Some native -> frames (on_success calls) native.
Proof.
  unfold native_handler. case_match; [intros [= <-]; apply frame_canceldelay; apply _|].
  intros (h & Hh & ->)%fmap_Some. by apply calls_focus.
Qed.

(** Handlers and contract, before RAM is checked. *)
Lemma run_handlers_ok r id r' : run_handlers e r = (Ok id, r') -> in_place r ->
  exists md, get_metadata (receiver (rn_context r)) (native_of r) = Ok md
    /\ in_place r' /\ called (set_privilege (is_privileged md.2) r) r'
    /\ tracks (limits_and_deltas r) (limits_and_deltas r')
    /\ (handler_of r = None -> same_names (names_of r) (names_of r')).
Proof.
  rewrite run_handlers_eq. intros Hr Hin. destruct (get_metadata _ _) as [md|ex] eqn:Emd; [|done]. exists md. split; [done|].
  set (r0 := set_privilege _ r) in *. assert (Hin0 : in_place r0) by exact Hin.
  destruct (frame_ok calls _ _ _ _ (frame_handlers_tail (on_success calls) md (rn_context r)
    (fun native => frame_native_calls native (rn_context r))) Hr Hin0) as [Hin' Hc].
  split; [done|]. split; [done|]. split.
  - pose proof (frame_handlers_tail (along (fun r => native_of r) (ram_kept K)) md (rn_context r)
      (fun native => frame_native_ram native (rn_context r)) r0) as Hf. rewrite Hr in Hf. by apply Hf.
  - intros Hnone. pose proof (frame_handlers_tail (along (fun r => native_of r) (names_kept K)) md (rn_context r)) as Hf.
    rewrite Hnone in Hf. specialize (Hf (fun native Hn => ltac:(done)) r0). rewrite Hr in Hf. by apply Hf.
Qed.

Lemma finalize_ok o r u r' : finalize_trace o r = (Ok u, r') -> exists t, 0 < o
  /\ action_traces (rn_state r) !! position o = Some t /\ rn_context r' = rn_context r
  /\ action_traces (rn_state r') = <[position o := trace_deltas (_account_ram_deltas (native_of r)) t]> (action_traces (rn_state r))
  /\ executed (rn_state r') = executed (rn_state r) /\ xs_global_sequence (rn_state r') = xs_global_sequence (rn_state r)
  /\ native_of r' = set_deltas ∅ (native_of r).
Proof.
  unfold finalize_trace, my_native, on_state, on_native_db. intros Hr. minv.
  match goal with Hu : update_trace _ _ _ = _ |- _ => apply update_trace_ok in Hu as (t & Ho & Ht & ->) end. by exists t.
Qed.

Lemma exec_one_ok r u r' : exec_one e r = (Ok u, r') -> in_place r -> exists p E rc D, served p E rc D r r'.
Proof.
  unfold exec_one, my_context, on_state. intros Hr Hin. apply M_bind_ok in Hr as (id & r2 & Hh%catch_ok & Hr).
  apply M_bind_ok in Hh as (i & r1 & Hh & Hc). apply M_bind_ok in Hc as ([] & r1' & Hc & Hi). apply mret_ok in Hi as [-> ->].
  apply check_ram_deltas_ok in Hc as [Hsame Hgrow]. injection Hsame as Hctx Hnat Htrs Hexe Hseq.
  destruct (run_handlers_ok _ _ _ Hh Hin) as (md & Hmd & Hin1 & [Hcc (E & HE & HO & Hok) Hrec Hex Hgs] & Hram & Hnames).
  pose proof Hcc as (Ha & Hrv & _ & Hfo & Hao & Hpr & _). cbn in *.
  apply M_bind_ok in Hr as (c & r2 & Hg & Hr). apply gets_ok in Hg as [-> ->]. rewrite Hctx in Hr.
  apply M_bind_ok in Hr as (rc & r2 & Hm & Hr). apply focus_ok in Hm as (s2 & Hm & ->).
  apply make_receipt_ok in Hm as (Ht2 & Hx2 & Hg2 & Hg2' & Hrv2 & Hd2 & Hl2 & Hdl2 & Hn2).
  apply M_bind_ok in Hr as ([] & r3 & Hu & Hr). apply focus_ok in Hu as (s3 & Hu & ->).
  apply update_trace_ok in Hu as (t & Ho & Ht & ->).
  apply M_bind_ok in Hr as ([] & r4 & Hm & Hr). apply focus_ok in Hm as (s4 & Hm & ->). apply modify_ok in Hm as ->.
  apply finalize_ok in Hr as (t' & _ & Ht' & Hc' & Htr' & Hex' & Hgs' & Hnat'). cbn in *.
  exists (is_privileged md.2), E, rc, (_account_ram_deltas (xs_native s2)).
  destruct Hin as (t0 & _ & Ht0 & _). change (xs_native (set_executed _ _)) with (xs_native s2) in *.
  assert (Htr2 : action_traces s2 = action_traces (rn_state r) ++ E.*2) by congruence.
  assert (t = t0) as ->.
  { apply (inj Some). rewrite <- Ht, Hao, Htr2. by apply lookup_app_l_Some. }
  rewrite list_lookup_insert_eq in Ht' by (by eapply lookup_lt_Some). injection Ht' as <-.
  rewrite list_insert_insert_eq, Htr2, Hao in Htr'.
  assert (Hn : native_of r' = set_deltas ∅ (xs_native s2)) by done.
  split; rewrite ?Hc', ?Hctx, ?Hn, ?Hgs'; cbn [nd_limits nd_metadata set_deltas _account_ram_deltas].
  - by exists md.
  - done.
  - done.
  - by exists t0.
  - done.
  - rewrite Hex', Hx2. congruence.
  - split; congruence.
  - split; congruence.
  - intros Hp. rewrite Hdl2, Hnat. unfold authorized_growth in *. rewrite Ha, Hrv in Hgrow. apply Hgrow. congruence.
  - rewrite Hl2, Hdl2, Hnat. done.
  - done.
  - intros Hnone. trans (names_of r1); [by apply Hnames|]. by rewrite <- Hnat.
Qed.
End Serve.
