(* ===== verification/ExecParts.v ===== *)
(** * What an execution does to one part of its state
      ([apply_context.cpp], [transaction_context.cpp])

    A part of the state of an execution, and a relation that every elementary
    step keeps: the class [exec_part].  Then actions, notifications, inline
    actions and whole transactions keep it, too. *)

From S2P Require Import Prelude Merkle Chainbase ResourceLimits Names Authority AuthorityChecker BlockHeader Authorization GlobalProperties EosioContract NativeState NativeRam Transaction TransactionChecks ChainConfig Timer TransactionContext ContractTables TableInvariant ApplyContext ExecFrames ExecTraces.
#[local] Open Scope Z_scope.

Section Parts.
Context {K Sig Key : Type} `{EqDecision K} `{unpacker K} `{contract_unpacker K} `{C : crypto} `{P : posix_timer}
  `{T : trx_codec Sig Key} `{softfloat} (e : apply_env (K := K)).
Context {U : Type} (part : exec_state (K := K) -> U) (Q : relation U) `{!PreOrder Q}.

Abbreviation of_state := (along part (always Q)).
Abbreviation of_run := (along (fun r => part (rn_state r)) (always Q)).

Class exec_part : Prop := {
  ep_append act receiver context_free creator ancestor :
    frames of_state (trx_schedule_action act receiver context_free creator ancestor);
  ep_update i t s : Q (part s) (part (set_action_traces (<[i := t]> (action_traces s)) s));
  ep_executed r s : Q (part s) (part (set_executed (executed s ++ [r]) s));
  ep_sequence n s : part (set_xs_global_sequence n s) = part s;
  ep_native d s : part (set_xs_native d s) = part s;
  ep_fresh s : part (set_xs_tables (fresh_context (xs_tables s)) s) = part s;
  ep_calls :: call_frame of_run }.

Context `{!exec_part}.
#[local] Instance part_outcome : outcome of_state := _.
#[local] Instance run_outcome : outcome of_run := _.

Lemma part_on_state {A} (m : M exec_state A) : frames of_state m -> frames of_run (on_state m).
Proof. by apply (frame_focus of_state of_run). Qed.
Lemma part_on_context f : frames of_run (on_context f).
Proof. apply frame_apart; solve [done | apply _]. Qed.
Lemma part_on_native {A} (m : M (native_db K) A) : frames of_state (on_native_db m).
Proof. apply frame_apart_focus; [apply _|]. intros. apply ep_native. Qed.
#[local] Hint Resolve part_on_state part_on_context part_on_native : frames.

Lemma part_update_trace o f : frames of_state (update_trace o f).
Proof. unfold update_trace. frame_auto; [by apply frame_read|]. apply frame_modify. intros s. apply ep_update. Qed.
#[local] Hint Resolve part_update_trace : frames.

Lemma part_finalize o : frames of_run (finalize_trace o).
Proof. unfold finalize_trace. frame_auto. Qed.
#[local] Hint Resolve part_finalize : frames.

Lemma part_catch {A} (m : M running A) : frames of_run m -> frames of_run (catch_into_trace e m).
Proof.
  intros Hm r. specialize (Hm r). unfold catch_into_trace. destruct (m r) as [[a|ex] r1]; [done|]. cbn in *.
  assert (Hf : frames of_run (on_state (update_trace (action_ordinal (rn_context r1)) (trace_failed (fc_rethrow e ex)));;
    finalize_trace (action_ordinal (rn_context r1)))) by frame_auto.
  specialize (Hf r1). unfold along, always in *. by etrans.
Qed.

Lemma part_run_handlers : frames of_run (run_handlers e).
Proof.
  intros r. rewrite run_handlers_eq. destruct (get_metadata _ _) as [md|ex]; [|apply outcome_refl].
  refine (frame_handlers_tail e of_run md (rn_context r) _ (set_privilege (is_privileged md.2) r)).
  intros native. unfold native_handler. case_match; [intros [= <-]; apply frame_canceldelay; apply _|].
  intros (h & Hh & ->)%fmap_Some. by apply part_on_state, part_on_native.
Qed.

Lemma part_check_ram_loop c counter deltas : frames of_run (check_ram_loop e c counter deltas).
Proof.
  revert counter. induction deltas as [|[a x] deltas IH]; intros counter; cbn [check_ram_loop]; frame_auto.
  apply frame_trx; [apply _..|apply frame_checktime].
Qed.
#[local] Hint Resolve part_check_ram_loop part_run_handlers : frames.

Lemma part_check_ram_deltas : frames of_run (check_ram_deltas e).
Proof. unfold check_ram_deltas. frame_auto. Qed.
#[local] Hint Resolve part_check_ram_deltas : frames.

Lemma part_make_receipt c i : frames of_state (make_receipt e c i).
Proof.
  change (make_receipt e c i) with (g ← next_global_sequence; receipt_tail e c i g). unfold next_global_sequence.
  apply frame_bind; [frame_auto; apply frame_apart; [apply _|]; intros s; apply ep_sequence|]. intros g.
  apply frame_receipt_tail; [apply _|]. intros j f _. apply part_on_native.
Qed.
#[local] Hint Resolve part_make_receipt : frames.

Lemma part_push_executed r : frames of_state (modify (fun s => set_executed (executed s ++ [r]) s)).
Proof. apply frame_modify. intros s. apply ep_executed. Qed.
#[local] Hint Resolve part_push_executed : frames.

Lemma part_exec_one : frames of_run (exec_one e).
Proof. unfold exec_one. apply frame_bind; [apply part_catch; frame_auto|]. intros i. frame_auto. Qed.
#[local] Hint Resolve part_exec_one : frames.

Lemma part_notify_loop fuel i : frames of_run (notify_loop e fuel i).
Proof. revert i. induction fuel as [|fuel IH]; intros i; cbn [notify_loop]; frame_auto. Qed.
#[local] Hint Resolve part_notify_loop : frames.

Lemma part_exec_notified : frames of_run (exec_notified e).
Proof. unfold exec_notified. frame_auto. Qed.

Lemma part_in_context c m : frames of_run m -> frames of_state (in_context c m).
Proof.
  intros Hm s. unfold in_context. set (s0 := set_xs_tables _ _). specialize (Hm (mk_running c s0)).
  assert (Hs : part s0 = part s) by (unfold s0; by rewrite ep_fresh, ep_native).
  unfold along, always in *. rewrite <- Hs. by destruct (m _) as [[u|ex] r].
Qed.

Lemma part_for_each {A} (f : A -> M exec_state unit) l : (forall x, frames of_state (f x)) -> frames of_state (for_each f l).
Proof. intros Hf. induction l; cbn [for_each]; frame_auto. Qed.

Lemma part_execute_action fuel o depth : frames of_state (execute_action e fuel o depth).
Proof.
  revert o depth. induction fuel as [|fuel IH]; intros o depth; cbn [execute_action]; [by apply frame_throw|].
  apply frame_bind; [unfold new_apply_context; frame_auto; by apply frame_read|intros c].
  apply frame_bind; [apply part_in_context, part_exec_notified|intros c']. apply frame_bind; [frame_auto|intros _].
  apply frame_bind; [|intros _]; by apply part_for_each.
Qed.
#[local] Hint Resolve part_execute_action ep_append : frames.

Lemma part_schedule_all context_free acts : frames of_state (schedule_all context_free acts).
Proof. induction acts as [|act acts IH]; cbn [schedule_all]; frame_auto. Qed.

(** A transaction; what it schedules as deferred is left to the client. *)
Lemma part_trx_exec : frames of_state (schedule_transaction e) -> frames of_state (trx_exec e).
Proof.
  intros Hs. unfold trx_exec. frame_auto; try (apply part_schedule_all); try done.
  apply part_for_each. intros i. apply part_execute_action.
Qed.
End Parts.

(** ** Parts that traces and native objects are not part of *)
Section Quiet.
Context {K Sig Key : Type} `{EqDecision K} `{unpacker K} `{contract_unpacker K} `{C : crypto} `{P : posix_timer}
  `{T : trx_codec Sig Key} `{softfloat}.
Context {U : Type} (part : exec_state (K := K) -> U) (Q : relation U) `{!PreOrder Q}.
Abbreviation of_state := (along part (always Q)).

Class quiet_part : Prop := {
  qp_traces l s : part (set_action_traces l s) = part s;
  qp_executed l s : part (set_executed l s) = part s;
  qp_sequence n s : part (set_xs_global_sequence n s) = part s;
  qp_native d s : part (set_xs_native d s) = part s;
  qp_fresh s : part (set_xs_tables (fresh_context (xs_tables s)) s) = part s;
  qp_table receiver op : frames of_state (on_table_db (run_table_op receiver op));
  qp_trx {A} (m : M (trx_context K) A) : frames beside_native m -> frames of_state (on_trx m);
  qp_emplace g : frames of_state (on_generated (emplace deferred_conflict g));
  qp_remove id : frames of_state (on_generated (index_remove id));
  qp_properties g s : part (set_xs_properties g s) = part s }.

Context `{!quiet_part}.
Abbreviation of_run := (along (fun r => part (rn_state r)) (always Q)).

#[local] Instance quiet_outcome : outcome of_run := _.

Lemma quiet_schedule act receiver context_free : frames of_run (schedule_action act receiver context_free).
Proof.
  unfold schedule_action, refresh_act. frame_auto; [|apply frame_apart; solve [done | apply _]].
  apply (frame_focus of_state of_run); [done|]. apply frame_apart; [apply _|]. intros s. apply qp_traces.
Qed.
Lemma quiet_schedule_copy o receiver context_free : frames of_run (schedule_action_copy o receiver context_free).
Proof.
  unfold schedule_action_copy, refresh_act. frame_auto; [|apply frame_apart; solve [done | apply _]].
  apply (frame_focus of_state of_run); [done|]. unfold trx_schedule_copy. frame_auto; [by apply frame_read|].
  apply frame_apart; [apply _|]. intros s. apply qp_traces.
Qed.
#[local] Hint Resolve quiet_schedule quiet_schedule_copy : frames.

Lemma quiet_native {A} (m : M (native_db K) A) : frames of_run (on_state (on_native_db m)).
Proof.
  apply (frame_focus of_state of_run); [done|]. apply frame_apart_focus; [apply _|]. intros. apply qp_native.
Qed.
#[local] Hint Resolve quiet_native : frames.

#[export] Instance quiet_calls : call_frame of_run.
Proof.
  split.
  - intros a delta. apply quiet_native.
  - intros receiver op. apply (frame_focus of_state of_run); [done|]. apply qp_table.
  - intros A m Hm. apply (frame_focus of_state of_run (A := A)); [done|]. by apply qp_trx.
  - intros g. apply (frame_focus of_state of_run); [done|]. apply qp_emplace.
  - intros id. apply (frame_focus of_state of_run); [done|]. apply qp_remove.
  - intros A m. apply (frame_focus of_state of_run); [done|]. apply frame_apart_focus; [apply _|]. intros. apply qp_properties.
  - intros a ram net cpu. unfold set_resource_limits. frame_auto.
  - intros a b. unfold set_privileged. frame_auto.
  - intros a. unfold require_recipient. frame_auto. apply frame_apart; solve [done | apply _].
  - intros act. frame_auto. apply frame_apart; solve [done | apply _].
  - intros act. frame_auto. apply frame_apart; solve [done | apply _].
Qed.

#[export] Instance quiet_exec : exec_part part Q.
Proof.
  split; try apply _; intros; try apply qp_sequence; try apply qp_native; try apply qp_fresh.
  - intros s. unfold along, always. cbn. rewrite qp_traces. reflexivity.
  - by rewrite qp_traces.
  - by rewrite qp_executed.
Qed.
End Quiet.
