(* ===== verification/ExecLoops.v ===== *)
(** * Execution of a transaction as a whole
      ([apply_context::exec], [transaction_context::exec])

    The loops over notifications and inline actions end, and a transaction that
    succeeds has executed every action that was scheduled, exactly once. *)

From S2P Require Import Prelude Merkle Chainbase ResourceLimits Names Authority AuthorityChecker BlockHeader Authorization GlobalProperties EosioContract NativeState NativeRam Transaction TransactionChecks ChainConfig Timer TransactionContext ContractTables TableInvariant ApplyContext ExecFrames ExecTraces ExecParts.
#[local] Open Scope Z_scope.

(** ** Traces are never dropped *)
Section Longer.
Context {K Sig Key : Type} `{EqDecision K} `{unpacker K} `{contract_unpacker K} `{C : crypto} `{P : posix_timer}
  `{T : trx_codec Sig Key} `{softfloat} (e : apply_env (K := K)).
Implicit Types (s : exec_state (K := K)) (r : running (K := K)).

Definition trace_count s : nat := length (action_traces s).
Abbreviation longer := (along trace_count (always Peano.le)).
Abbreviation longer_run := (along (fun r => trace_count (rn_state r)) (always Peano.le)).

#[local] Instance longer_outcome : outcome longer := _.
#[local] Instance longer_run_outcome : outcome longer_run := _.

Lemma longer_on_state {A} (m : M exec_state A) : frames longer m -> frames longer_run (on_state m).
Proof. by apply (frame_focus longer longer_run). Qed.
Lemma longer_on_context f : frames longer_run (on_context (K := K) f).
Proof. apply frame_apart; [apply _|done]. Qed.
Lemma longer_apart {S A} (sel : exec_state -> S) upd (m : M S A) :
  (forall u s, action_traces (upd u s) = action_traces s) -> frames longer_run (on_state (focus sel upd m)).
Proof.
  intros Hu. apply longer_on_state, frame_apart_focus; [apply _|]. intros u s. unfold trace_count. by rewrite Hu.
Qed.

Lemma longer_schedule act receiver context_free creator ancestor :
  frames longer (trx_schedule_action act receiver context_free creator ancestor).
Proof. intros s. unfold along, always, trace_count. cbn. rewrite length_app. lia. Qed.
#[local] Hint Resolve longer_on_context longer_schedule : frames.

Lemma longer_refresh : frames longer_run (refresh_act (K := K)).
Proof. unfold refresh_act. frame_auto. Qed.
#[local] Hint Resolve longer_refresh : frames.

Lemma longer_schedule_action act receiver context_free : frames longer_run (schedule_action (K := K) act receiver context_free).
Proof. unfold schedule_action. frame_auto. apply longer_on_state, longer_schedule. Qed.
Lemma longer_schedule_copy o receiver context_free : frames longer_run (schedule_action_copy (K := K) o receiver context_free).
Proof.
  unfold schedule_action_copy. frame_auto. apply longer_on_state. unfold trx_schedule_copy. frame_auto. by apply frame_read.
Qed.
#[local] Hint Resolve longer_schedule_action longer_schedule_copy : frames.

#[export] Instance longer_frame : call_frame longer_run.
Proof.
  split.
  - intros a delta. by apply longer_apart.
  - intros receiver op. by apply longer_apart.
  - intros A m _. by apply (longer_apart xs_trx set_xs_trx m).
  - intros g. by apply longer_apart.
  - intros id. by apply longer_apart.
  - intros A m. by apply longer_apart.
  - intros a ram net cpu. unfold set_resource_limits. frame_auto; by apply longer_apart.
  - intros a b. unfold set_privileged. frame_auto. by apply longer_apart.
  - intros a. unfold require_recipient. frame_auto.
  - intros act. frame_auto.
  - intros act. frame_auto.
Qed.

#[export] Instance longer_part : exec_part trace_count Peano.le.
Proof.
  split; try apply _; try done.
  - intros act receiver context_free creator ancestor. apply longer_schedule.
  - intros i t s. unfold trace_count. cbn. by rewrite length_insert.
Qed.

Lemma longer_exec_one : frames longer_run (exec_one e).
Proof. apply part_exec_one; apply _. Qed.
Lemma longer_notify_loop fuel i : frames longer_run (notify_loop e fuel i).
Proof. apply part_notify_loop; apply _. Qed.
Lemma longer_exec_notified : frames longer_run (exec_notified e).
Proof. apply part_exec_notified; apply _. Qed.
Lemma longer_for_each {A} (f : A -> M (exec_state (K := K)) unit) l : (forall x, frames longer (f x)) -> frames longer (for_each f l).
Proof. apply part_for_each; apply _. Qed.
Lemma longer_execute_action fuel o depth : frames longer (execute_action e fuel o depth).
Proof. apply part_execute_action; apply _. Qed.
End Longer.

(** ** Numbers and receipts of traces *)
Definition numbered (l : list action_trace) : Prop :=
  forall i t, l !! i = Some t -> at_action_ordinal t = Z.of_nat i + 1.

(** The ordinals of the traces without a receipt. *)
Definition waiting (l : list action_trace) : list Z :=
  omap (fun t => match at_receipt t with None => Some (at_action_ordinal t) | Some _ => None end) l.

(** What a trace says from the start. *)
Definition statics (t : action_trace) :=
  (at_action_ordinal t, creator_action_ordinal t, closest_unnotified_ancestor_action_ordinal t, at_receiver t, at_act t, at_context_free t).
Definition extends (l l' : list action_trace) : Prop := (statics <$> l) `prefix_of` (statics <$> l').

#[export] Instance extends_preorder : PreOrder extends.
Proof. unfold extends. split; [by intros l|]. intros l1 l2 l3 H1 H2. by trans (statics <$> l2). Qed.

Lemma extends_lookup l l' i t : extends l l' -> l !! i = Some t -> exists t', l' !! i = Some t' /\ statics t' = statics t.
Proof.
  intros He Hi. assert (Hs : (statics <$> l') !! i = Some (statics t)).
  { eapply prefix_lookup_Some; [|done]. by rewrite list_lookup_fmap, Hi. }
  rewrite list_lookup_fmap in Hs. apply fmap_Some in Hs as (t' & Ht' & Heq). eauto.
Qed.

Lemma extends_length l l' : extends l l' -> (length l <= length l')%nat.
Proof. intros He%prefix_length. by rewrite !length_fmap in He. Qed.

Lemma waiting_app l l' : waiting (l ++ l') = waiting l ++ waiting l'.
Proof. apply omap_app. Qed.

Lemma waiting_lookup l o : numbered l -> o ∈ waiting l ->
  exists t, 0 < o /\ l !! position o = Some t /\ at_receipt t = None /\ at_action_ordinal t = o.
Proof.
  intros Hn (t & Ht & Ho)%list_elem_of_omap. apply list_elem_of_lookup in Ht as [i Hi]. destruct (at_receipt t) eqn:Er; [done|].
  injection Ho as <-. pose proof (Hn i t Hi) as Hord. exists t. split; [lia|]. split; [|done]. unfold position.
  rewrite Hord. by replace (Z.to_nat (Z.of_nat i + 1 - 1)) with i by lia.
Qed.

Lemma waiting_serve l p t t' rc : l !! p = Some t -> at_receipt t = None -> at_receipt t' = Some rc ->
  waiting l ≡ₚ at_action_ordinal t :: waiting (<[p := t']> l).
Proof.
  intros Hp Ht Ht'. rewrite <- (take_drop_middle l p t Hp) at 1. rewrite insert_take_drop by (by eapply lookup_lt_Some).
  rewrite !waiting_app. cbn. rewrite Ht, Ht'. by rewrite Permutation_middle.
Qed.

Lemma numbered_serve l p t t' : numbered l -> l !! p = Some t -> at_action_ordinal t' = at_action_ordinal t ->
  numbered (<[p := t']> l).
Proof.
  intros Hn Hp Ho i u [(<- & <- & _)|(_ & Hi)]%list_lookup_insert_Some; [|by apply Hn]. rewrite Ho. by apply Hn.
Qed.

Lemma extends_serve l p t t' : l !! p = Some t -> statics t' = statics t -> extends l (<[p := t']> l).
Proof.
  intros Hp Hs. unfold extends. rewrite list_fmap_insert, Hs, list_insert_id; [done|]. by rewrite list_lookup_fmap, Hp.
Qed.

Lemma extends_app l l' : extends l (l ++ l').
Proof. unfold extends. rewrite fmap_app. by apply prefix_app_r. Qed.

Section Orders.
Context (c : apply_context).

Lemma numbered_orders l E : numbered l -> orders_ok c (length l) E -> Z.of_nat (length l + length E) < 2 ^ 32 ->
  numbered (l ++ E.*2).
Proof.
  intros Hn Ho Hb i t [Hi|[Hge Hi]]%lookup_app_Some; [by apply Hn|].
  pose proof (lookup_lt_Some _ _ _ Hi) as Hlt. rewrite length_fmap in Hlt.
  rewrite list_lookup_fmap in Hi. apply fmap_Some in Hi as (o & Hi & ->). destruct (Ho _ _ Hi) as [Hord _]. rewrite Hord.
  rewrite u32_id by (widths; lia). lia.
Qed.

Lemma waiting_orders n E : orders_ok c n E -> waiting (E.*2) ≡ₚ (recipients E).*2 ++ cfa_inlines E ++ inlines E.
Proof.
  revert n. induction E as [|[k t] E IH]; intros n Ho; [done|].
  assert (Hr : at_receipt t = None) by apply (Ho 0%nat (k, t) eq_refl).
  assert (HE : orders_ok c (S n) E).
  { intros i o Hi. specialize (Ho (S i) o Hi). by replace (n + S i)%nat with (S n + i)%nat in Ho by lia. }
  cbn. rewrite Hr. rewrite (IH _ HE). destruct k; cbn.
  - done.
  - by rewrite !Permutation_middle.
  - by rewrite Permutation_middle.
Qed.

Lemma order_of_recipient n E a o : orders_ok c n E -> (a, o) ∈ recipients E ->
  exists i t, (E.*2) !! i = Some t /\ at_action_ordinal t = o /\ at_receiver t = a /\ at_act t = ac_act c.
Proof.
  intros Ho ([k t] & Hin & Hk)%list_elem_of_omap. apply list_elem_of_lookup in Hin as [i Hi]. destruct k; [|done..].
  cbn in Hk. injection Hk as <- <-. exists i, t. rewrite list_lookup_fmap, Hi. split; [done|].
  destruct (Ho i _ Hi) as (_ & _ & _ & _ & _ & _ & Hact & _). done.
Qed.

Lemma order_of_inline n E o : orders_ok c n E -> o ∈ cfa_inlines E ++ inlines E ->
  exists i t, (E.*2) !! i = Some t /\ at_action_ordinal t = o /\ at_receiver t = act_account (at_act t).
Proof.
  intros Ho [Hin|Hin]%elem_of_app; apply list_elem_of_omap in Hin as ([k t] & Hin & Hk);
    apply list_elem_of_lookup in Hin as [i Hi]; destruct k; try done; cbn in Hk; injection Hk as <-;
    exists i, t; rewrite list_lookup_fmap, Hi; (split; [done|]); by destruct (Ho i _ Hi) as (_ & _ & _ & _ & _ & _ & Hrec & _).
Qed.
End Orders.

(** ** The loop over the accounts that are notified *)
Section Loop.
Context {K Sig Key : Type} `{EqDecision K} `{unpacker K} `{contract_unpacker K} `{C : crypto} `{P : posix_timer}
  `{T : trx_codec Sig Key} `{softfloat} (e : apply_env (K := K)).
Implicit Types (s : exec_state (K := K)) (r : running (K := K)).

Abbreviation traces r := (action_traces (rn_state r)).
Abbreviation deltas_of r := (_account_ram_deltas (xs_native (rn_state r))).
Abbreviation names_of r := (_indices (nd_metadata (xs_native (rn_state r)))).

(** The trace number [o] goes to account [a] with action [act]. *)
Definition delivers (l : list action_trace) (o a : Z) (act : action) : Prop :=
  exists t, 0 < o /\ l !! position o = Some t /\ at_receiver t = a /\ at_act t = act.
Definition direct (l : list action_trace) (o : Z) : Prop := exists act, delivers l o (act_account act) act.

Lemma delivers_extends l l' o a act : extends l l' -> delivers l o a act -> delivers l' o a act.
Proof.
  intros He (t & Ho & Ht & Ha & Hact). destruct (extends_lookup _ _ _ _ He Ht) as (t' & Ht' & Hs).
  injection Hs as _ _ _ Hr Hc _. exists t'. split_and!; congruence.
Qed.
Lemma direct_extends l l' o : extends l l' -> direct l o -> direct l' o.
Proof. intros He [act Hd]. exists act. by eapply delivers_extends. Qed.

(** The context of number [o] runs in a state where nothing of it is billed. *)
Definition placed r : Prop :=
  delivers (traces r) (action_ordinal (rn_context r)) (receiver (rn_context r)) (ac_act (rn_context r)) /\ deltas_of r = ∅.

(** A context has deltas and caches of its own. *)
Definition enter s : exec_state :=
  let s := set_xs_native (set_deltas ∅ (xs_native s)) s in
  set_xs_tables (fresh_context (xs_tables s)) s.

Inductive exec_step s s' : Prop :=
| exec_serve c c' p E rc D : placed (mk_running c s) -> action_ordinal c ∈ waiting (action_traces s) -> numbered (action_traces s) ->
    Z.of_nat (trace_count s') < 2 ^ 32 -> served e p E rc D (mk_running c s) (mk_running c' s') -> exec_step s s'
| exec_enter : s' = enter s -> exec_step s s'.

Record loop_ok (U : list Z) (A : action) (depth : Z) (i : nat) r : Prop := {
  lo_act : ac_act (rn_context r) = A;
  lo_depth : recurse_depth (rn_context r) = depth;
  lo_numbered : numbered (traces r);
  lo_deltas : deltas_of r = ∅;
  lo_recipients j a o : (i <= j)%nat -> _notified (rn_context r) !! j = Some (a, o) -> delivers (traces r) o a A;
  lo_direct o : o ∈ _cfa_inline_actions (rn_context r) ++ _inline_actions (rn_context r) -> direct (traces r) o;
  lo_waiting : waiting (traces r) ≡ₚ U ++ (drop i (_notified (rn_context r))).*2
                                     ++ _cfa_inline_actions (rn_context r) ++ _inline_actions (rn_context r);
  lo_nodup : NoDup (_notified (rn_context r)).*1;
  lo_head : head (_notified (rn_context r)).*1 = Some (act_account A) }.

Definition serve_next (a o : Z) r : running := mk_running (set_receiver a o (rn_context r)) (rn_state r).

Lemma exec_one_placed r u r' : exec_one e r = (Ok u, r') -> placed r -> exists p E rc D, served e p E rc D r r'.
Proof.
  intros Hr [(t & Ho & Ht & _ & Ha) _]. apply (exec_one_ok e r u r' Hr). by exists t.
Qed.

Lemma served_length p E rc D r r' : served e p E rc D r r' -> length (traces r') = (length (traces r) + length E)%nat.
Proof. intros [_ _ _ (t & _ & ->) _ _ _ _ _ _ _ _]. by rewrite length_insert, length_app, length_fmap. Qed.

Lemma served_extends p E rc D r r' : served e p E rc D r r' -> extends (traces r) (traces r').
Proof.
  intros [_ _ _ (t & Ht & ->) _ _ _ _ _ _ _ _]. trans (traces r ++ E.*2); [apply extends_app|].
  eapply extends_serve; [by apply lookup_app_l_Some|done].
Qed.

(** The trace gets its receipt, the ordered ones wait. *)
Lemma served_waiting p E rc D r r' V (c := rn_context r) : served e p E rc D r r' -> numbered (traces r) ->
  Z.of_nat (length (traces r')) < 2 ^ 32 -> waiting (traces r) ≡ₚ action_ordinal c :: V ->
  numbered (traces r') /\ waiting (traces r') ≡ₚ V ++ (recipients E).*2 ++ cfa_inlines E ++ inlines E.
Proof.
  intros Hs Hn Hb Hw. pose proof (served_length _ _ _ _ _ _ Hs) as Hlen.
  destruct Hs as [_ _ [_ Hok] (t & Ht & Htr) _ _ _ _ _ _ _ _]. fold c in Ht, Htr, Hok.
  assert (Hmem : action_ordinal c ∈ waiting (traces r)) by (rewrite Hw; left).
  destruct (waiting_lookup _ _ Hn Hmem) as (t' & _ & Ht' & Hrc & Hord). assert (t' = t) as -> by congruence.
  assert (HtE : (traces r ++ E.*2) !! position (action_ordinal c) = Some t) by by apply lookup_app_l_Some.
  assert (HnE : numbered (traces r ++ E.*2)) by (eapply numbered_orders; [done..|lia]).
  rewrite Htr. split; [by eapply numbered_serve|].
  pose proof (waiting_serve _ _ t (trace_deltas D (trace_receipt rc t)) rc HtE Hrc eq_refl) as Hp.
  rewrite waiting_app, Hw, (waiting_orders c _ E Hok), Hord in Hp. cbn in Hp. by apply Permutation_cons_inv in Hp.
Qed.

(** The new orders are where their numbers say. *)
Lemma ordered_at l E i t : numbered (l ++ E.*2) -> (E : list order).*2 !! i = Some t ->
  0 < at_action_ordinal t /\ (l ++ E.*2) !! position (at_action_ordinal t) = Some t.
Proof.
  intros Hn Hi. assert (Hl : (l ++ E.*2) !! (length l + i)%nat = Some t).
  { rewrite lookup_app_r by lia. by replace (length l + i - length l)%nat with i by lia. }
  pose proof (Hn _ _ Hl) as Ho. split; [lia|]. unfold position. rewrite Ho.
  by replace (Z.to_nat (Z.of_nat (length l + i) + 1 - 1)) with (length l + i)%nat by lia.
Qed.

Lemma served_orders p E rc D r r' (c := rn_context r) : served e p E rc D r r' -> numbered (traces r) ->
  Z.of_nat (length (traces r')) < 2 ^ 32 ->
  (forall a o, (a, o) ∈ recipients E -> delivers (traces r') o a (ac_act c))
  /\ (forall o, o ∈ cfa_inlines E ++ inlines E -> direct (traces r') o).
Proof.
  intros Hs Hn Hb. pose proof (served_length _ _ _ _ _ _ Hs) as Hlen.
  destruct Hs as [_ _ [_ Hok] (u & Hu & Htr) _ _ _ _ _ _ _ _]. fold c in Hu, Htr, Hok.
  assert (HnE : numbered (traces r ++ E.*2)) by (eapply numbered_orders; [done..|lia]).
  assert (Hx : extends (traces r ++ E.*2) (traces r')).
  { rewrite Htr. eapply extends_serve; [by apply lookup_app_l_Some|done]. }
  split.
  - intros a o Hin. destruct (order_of_recipient _ _ _ _ _ Hok Hin) as (i & t & Hi & <- & <- & Ha).
    destruct (ordered_at _ _ _ _ HnE Hi) as [Hp Hl]. apply (delivers_extends _ _ _ _ _ Hx). by exists t.
  - intros o Hin. destruct (order_of_inline _ _ _ _ Hok Hin) as (i & t & Hi & <- & Ha).
    destruct (ordered_at _ _ _ _ HnE Hi) as [Hp Hl]. apply (direct_extends _ _ _ Hx). exists (at_act t), t. by rewrite Ha.
Qed.

Definition has_name r (a : Z) : Prop := exists i m, names_of r !! i = Some m /\ md_name m = a.

Lemma shuffle_waiting (U N F I R F' I' : list Z) :
  (U ++ N ++ F ++ I) ++ R ++ F' ++ I' ≡ₚ U ++ (N ++ R) ++ (F ++ F') ++ (I ++ I').
Proof.
  rewrite <- !app_assoc. do 2 apply Permutation_app_head. rewrite (app_assoc F I), Permutation_app_swap_app.
  apply Permutation_app_head. rewrite <- app_assoc. apply Permutation_app_head. apply Permutation_app_swap_app.
Qed.

Lemma loop_step U A depth i r a o u r' : loop_ok U A depth i r -> _notified (rn_context r) !! i = Some (a, o) ->
  exec_one e (serve_next a o r) = (Ok u, r') -> Z.of_nat (length (traces r')) < 2 ^ 32 ->
  loop_ok U A depth (S i) r' /\ exec_step (rn_state r) (rn_state r')
  /\ _notified (rn_context r) `prefix_of` _notified (rn_context r')
  /\ has_name r a /\ (a <> act_account A -> same_names (names_of r) (names_of r')).
Proof.
  intros [Ha Hd Hn Hds Hrec Hdir Hw Hnd Hhd] Hi Hr Hb. set (r0 := serve_next a o r) in *.
  assert (Hp : placed r0).
  { split; [|done]. cbn. rewrite Ha. by apply (Hrec i). }
  destruct (exec_one_placed _ _ _ Hr Hp) as (p & E & rc & D & Hs).
  pose proof (served_extends _ _ _ _ _ _ Hs) as Hx. change (traces r0) with (traces r) in Hx.
  assert (HiS : drop i (_notified (rn_context r)) = (a, o) :: drop (S i) (_notified (rn_context r))) by by apply drop_S.
  assert (Hw0 : waiting (traces r0) ≡ₚ action_ordinal (rn_context r0) :: (U ++ (drop (S i) (_notified (rn_context r))).*2
    ++ _cfa_inline_actions (rn_context r) ++ _inline_actions (rn_context r))).
  { change (traces r0) with (traces r). rewrite Hw, HiS, fmap_cons. symmetry. apply Permutation_middle. }
  destruct (served_waiting _ _ _ _ _ _ _ Hs Hn Hb Hw0) as [Hn' Hw'].
  destruct (served_orders _ _ _ _ _ _ Hs Hn Hb) as [Hdel Hdir'].
  pose proof (sv_orders _ _ _ _ _ _ _ Hs) as [(Hno & Hin & Hcf) _]. cbn in Hno, Hin, Hcf.
  pose proof (sv_context _ _ _ _ _ _ _ Hs) as (Hact & _ & Hdep & _ & _ & _ & _). cbn in Hact, Hdep.
  assert (Hlt : (i < length (_notified (rn_context r)))%nat) by by eapply lookup_lt_Some.
  split; [split|split; [|split; [|split]]].
  - congruence.
  - congruence.
  - done.
  - by apply (sv_deltas _ _ _ _ _ _ _ Hs).
  - intros j b q Hj. rewrite Hno. intros [Hl|[_ Hl]]%lookup_app_Some.
    + apply (delivers_extends _ _ _ _ _ Hx). apply (Hrec j); [lia|done].
    + rewrite <- Ha. apply Hdel. by eapply list_elem_of_lookup_2.
  - intros q. rewrite Hin, Hcf. intros Hq. apply elem_of_app in Hq as [Hq|Hq]; apply elem_of_app in Hq as [Hq|Hq].
    1,3: apply (direct_extends _ _ _ Hx), Hdir; set_solver.
    all: apply Hdir'; set_solver.
  - rewrite Hw', Hno, Hin, Hcf, drop_app_le, fmap_app by lia. apply shuffle_waiting.
  - by apply (sv_recipients _ _ _ _ _ _ _ Hs).
  - rewrite Hno, fmap_app. by destruct (_notified (rn_context r)).*1.
  - apply (exec_serve _ _ (rn_context r0) (rn_context r') p E rc D); [exact Hp| |done|done|by destruct r'].
    change (traces r0) with (traces r) in Hw0. rewrite Hw0. left.
  - rewrite Hno. by apply prefix_app_r.
  - destruct (sv_privilege _ _ _ _ _ _ _ Hs) as (md & Hmd & _). cbn in Hmd. unfold get_metadata, get_by in Hmd.
    destruct (find_by _ _) as [[id m]|] eqn:Ef; [|done]. apply find_by_some in Ef as [Hm Hname].
    exists id, m. split; [done|]. unfold metadata_by_name in Hname. by apply Z.eqb_eq in Hname.
  - intros Hne. apply (sv_names _ _ _ _ _ _ _ Hs). cbn. rewrite Ha. by apply native_handler_none.
Qed.

Lemma exec_step_extends s s' : exec_step s s' -> extends (action_traces s) (action_traces s').
Proof. intros [c c' p E rc D _ _ _ _ Hs | ->]; [apply (served_extends _ _ _ _ _ _ Hs)|done]. Qed.
Lemma exec_steps_extend s s' : rtc exec_step s s' -> extends (action_traces s) (action_traces s').
Proof. induction 1 as [|s1 s2 s3 H12 _ IH]; [done|]. trans (action_traces s2); [by apply exec_step_extends|done]. Qed.

(** Names of accounts bound the length of the loop. *)
Lemma names_bound r l : NoDup l -> (forall a, a ∈ l -> has_name r a) -> (length l <= size (names_of r))%nat.
Proof.
  intros Hnd Hn. pose proof (length_map_to_list (names_of r)) as Hlen. rewrite <- Hlen.
  rewrite <- (length_fmap (fun p => md_name p.2)). apply submseteq_length, NoDup_submseteq; [done|].
  intros a Ha. destruct (Hn a Ha) as (i & m & Hm & <-). apply list_elem_of_fmap. exists (i, m). split; [done|].
  by apply elem_of_map_to_list.
Qed.

Lemma same_names_size m m' : same_names m m' -> size m' = size m.
Proof.
  intros Hs. rewrite <- !size_dom. f_equal. apply set_eq. intros i. rewrite !elem_of_dom. specialize (Hs i).
  destruct (m !! i), (m' !! i); cbn in Hs; naive_solver.
Qed.

Lemma same_names_has r r' a : same_names (names_of r) (names_of r') -> has_name r a -> has_name r' a.
Proof.
  intros Hs (i & m & Hm & <-). specialize (Hs i). rewrite Hm in Hs. symmetry in Hs. cbn in Hs.
  apply fmap_Some in Hs as (m' & Hm' & Heq). by exists i, m'.
Qed.

(** The loop without a bound. *)
Inductive notifies (i : nat) r : res unit * running -> Prop :=
| notifies_end : _notified (rn_context r) !! i = None -> notifies i r (Ok tt, r)
| notifies_error a o ex r' : _notified (rn_context r) !! i = Some (a, o) ->
    exec_one e (serve_next a o r) = (Err ex, r') -> notifies i r (Err ex, r')
| notifies_next a o r' out : _notified (rn_context r) !! i = Some (a, o) ->
    exec_one e (serve_next a o r) = (Ok tt, r') -> notifies (S i) r' out -> notifies i r out.

Definition served_so_far (i : nat) r : Prop :=
  forall j a o, (1 <= j < i)%nat -> _notified (rn_context r) !! j = Some (a, o) -> has_name r a.

Lemma loop_room U A depth i r a o : loop_ok U A depth i r -> served_so_far i r -> (1 <= i)%nat ->
  _notified (rn_context r) !! i = Some (a, o) -> (i <= S (size (names_of r)))%nat.
Proof.
  intros Hl Hs Hi Hlk. pose proof (lookup_lt_Some _ _ _ Hlk) as Hlt. set (l := (drop 1 (take i (_notified (rn_context r)))).*1).
  assert (Hlen : length l = (i - 1)%nat) by (unfold l; rewrite length_fmap, length_drop, length_take; lia).
  enough (length l <= size (names_of r))%nat by lia. apply names_bound.
  - unfold l. rewrite fmap_drop, fmap_take. pose proof (lo_nodup _ _ _ _ _ Hl) as Hnd.
    rewrite <- (take_drop i), <- (take_drop 1 (take i _)) in Hnd. by apply NoDup_app in Hnd as [(_ & _ & ?)%NoDup_app _].
  - intros b ([b' q] & -> & Hb)%list_elem_of_fmap. apply list_elem_of_lookup in Hb as [j Hj].
    rewrite lookup_drop in Hj. apply lookup_take_Some in Hj as [Hj Hji]. apply (Hs (1 + j)%nat _ q); [lia|done].
Qed.

Lemma loop_end U A depth i r : loop_ok U A depth i r -> _notified (rn_context r) !! i = None ->
  loop_ok U A depth (length (_notified (rn_context r))) r.
Proof.
  intros [Ha Hd Hn Hds Hrec Hdir Hw Hnd Hhd] Hi. apply lookup_ge_None in Hi. split; try done.
  - intros j a o Hj Hlk%lookup_lt_Some. lia.
  - rewrite Hw, !drop_ge by lia. done.
Qed.

Lemma notify_loop_eq fuel i r : notify_loop e fuel i r =
  match _notified (rn_context r) !! i with
  | None => (Ok tt, r)
  | Some (a, o) =>
      match fuel with
      | O => (Err out_of_fuel, r)
      | S fuel => (exec_one e;; notify_loop e fuel (S i)) (serve_next a o r)
      end
  end.
Proof. destruct fuel; cbn; unfold mbind at 1, M_bind at 1; cbn; by destruct (_ !! i) as [[a o]|]. Qed.

(** The loop as it is executed is the loop without a bound, and it serves everybody. *)
Lemma notify_loop_runs fuel U A depth i r : loop_ok U A depth i r -> served_so_far i r -> (1 <= i)%nat ->
  (S (size (names_of r)) < fuel + i)%nat -> Z.of_nat (trace_count (rn_state (notify_loop e fuel i r).2)) < 2 ^ 32 ->
  notifies i r (notify_loop e fuel i r) /\ forall r', notify_loop e fuel i r = (Ok tt, r') ->
    loop_ok U A depth (length (_notified (rn_context r'))) r' /\ rtc exec_step (rn_state r) (rn_state r').
Proof.
  revert i r. induction fuel as [|fuel IH]; intros i r Hl Hs Hi Hf Hb; rewrite notify_loop_eq in *;
    destruct (_notified (rn_context r) !! i) as [[a o]|] eqn:En;
    [pose proof (loop_room _ _ _ _ _ _ _ Hl Hs Hi En); lia| | |].
  1, 3: split; [by apply notifies_end|]; intros r' [= <-]; split; [by eapply loop_end|done].
  unfold mbind, M_bind in *. destruct (exec_one e (serve_next a o r)) as [[[]|ex] r1] eqn:Eo.
  2:{ split; [|done]. by eapply notifies_error. }
  assert (Hb1 : Z.of_nat (length (traces r1)) < 2 ^ 32).
  { pose proof (longer_notify_loop e fuel (S i) r1) as Hlen. unfold along, always, trace_count in *. lia. }
  destruct (loop_step _ _ _ _ _ _ _ _ _ Hl En Eo Hb1) as (Hl1 & Hstep & Hpre & Hname & Hsame).
  assert (Hne : a <> act_account A).
  { intros ->. pose proof (lo_nodup _ _ _ _ _ Hl) as Hnd. pose proof (lo_head _ _ _ _ _ Hl) as Hh.
    destruct (_notified (rn_context r)) as [|[b q] l]; [done|]. cbn in *. injection Hh as ->. apply NoDup_cons in Hnd as [Hni _].
    apply Hni. destruct i; [lia|]. apply list_elem_of_fmap. exists (act_account A, o). split; [done|]. by eapply list_elem_of_lookup_2. }
  specialize (Hsame Hne). destruct (IH (S i) r1) as [Hn Hok]; [done| |lia| |done|].
  - intros j b q Hj Hlk. apply (same_names_has r); [done|]. destruct (decide (j = i)) as [->|Hji].
    + rewrite (prefix_lookup_Some _ _ _ _ En Hpre) in Hlk. by injection Hlk as <- _.
    + destruct (lookup_lt_is_Some_2 (_notified (rn_context r)) j) as [[b' q'] Hb'].
      { pose proof (lookup_lt_Some _ _ _ En). lia. }
      rewrite (prefix_lookup_Some _ _ _ _ Hb' Hpre) in Hlk. injection Hlk as -> ->. apply (Hs j b q); [lia|done].
  - rewrite (same_names_size _ _ Hsame). lia.
  - split; [by eapply notifies_next|]. intros r' Hr'. destruct (Hok r' Hr') as [Hl' Hsteps]. split; [done|].
    by eapply rtc_l.
Qed.

(** *** A context *)
Definition context_of (o depth : Z) (t : action_trace) : apply_context :=
  mk_apply_context (at_act t) (at_receiver t) depth o o false (at_context_free t) [(at_receiver t, o)] [] [].

(** The first delivery, then the loop. *)
Inductive delivered r : res unit * running -> Prop :=
| delivered_error ex r' : exec_one e r = (Err ex, r') -> delivered r (Err ex, r')
| delivered_loop r' out : exec_one e r = (Ok tt, r') -> notifies 1 r' out -> delivered r out.

Definition start (o depth : Z) (t : action_trace) s : running := mk_running (context_of o depth t) (enter s).

Lemma exec_notified_eq c s : exec_notified e (mk_running c s)
  = match exec_one e (mk_running (add_notified (receiver c, action_ordinal c) c) s) with
    | (Ok _, r) => notify_loop e (S (size (names_of r))) 1 r
    | (Err ex, r) => (Err ex, r)
    end.
Proof.
  unfold exec_notified, my_context, my_native, on_context, gets, modify. unfold mbind at 1 2 3, M_bind at 1 2 3. cbn.
  by destruct (exec_one e _) as [[u|ex] r].
Qed.

Lemma context_runs U o depth t s out : find_trace o s = Ok t -> numbered (action_traces s) -> direct (action_traces s) o ->
  waiting (action_traces s) ≡ₚ o :: U ->
  exec_notified e (mk_running (mk_apply_context (at_act t) (at_receiver t) depth o o false (at_context_free t) [] [] []) (enter s)) = out ->
  Z.of_nat (trace_count (rn_state out.2)) < 2 ^ 32 ->
  delivered (start o depth t s) out /\ forall r', out = (Ok tt, r') ->
    loop_ok U (at_act t) depth (length (_notified (rn_context r'))) r' /\ rtc exec_step (enter s) (rn_state r').
Proof.
  intros Ht Hn Hdir Hw Hout Hb. rewrite exec_notified_eq in Hout.
  change (mk_running (add_notified _ _) _) with (start o depth t s) in Hout.
  destruct Hdir as (act & t' & Ho & Hl & Hrec & Hact). assert (t' = t) as ->.
  { rewrite (find_trace_at o t' s Ho Hl) in Ht. by injection Ht. }
  assert (Hl0 : loop_ok U (at_act t) depth 0 (start o depth t s)).
  { split; cbn; try done.
    - intros j a q _ [-> [= <- <-]]%list_lookup_singleton_Some. by exists t.
    - by intros q ?%elem_of_nil.
    - change (waiting (action_traces s) ≡ₚ U ++ [o]). by rewrite Hw, Permutation_cons_append.
    - apply NoDup_singleton.
    - by rewrite Hrec, Hact. }
  destruct (exec_one e (start o depth t s)) as [[[]|ex] r1] eqn:Eo.
  2:{ subst out. split; [by apply delivered_error|done]. }
  assert (Hb1 : Z.of_nat (length (traces r1)) < 2 ^ 32).
  { pose proof (longer_notify_loop e (S (size (names_of r1))) 1 r1) as Hlen. rewrite Hout in Hlen.
    unfold along, always, trace_count in *. lia. }
  destruct (loop_step U (at_act t) depth 0 (start o depth t s) (at_receiver t) o tt r1 Hl0 eq_refl Eo Hb1) as (Hl1 & Hstep & _).
  destruct (notify_loop_runs (S (size (names_of r1))) U (at_act t) depth 1 r1 Hl1) as [Hnot Hok].
  - intros j a q Hj. lia.
  - lia.
  - lia.
  - by rewrite Hout.
  - rewrite Hout in Hnot. split; [by eapply delivered_loop|]. intros r' Hr'. rewrite <- Hout in Hr'.
    destruct (Hok r' Hr') as [Hend Hsteps]. split; [done|]. by eapply rtc_l.
Qed.
End Loop.

(** ** Inline actions *)
Section Inline.
Context {K Sig Key : Type} `{EqDecision K} `{unpacker K} `{contract_unpacker K} `{C : crypto} `{P : posix_timer}
  `{T : trx_codec Sig Key} `{softfloat} (e : apply_env (K := K)).
Implicit Types (s : exec_state (K := K)) (r : running (K := K)).
Abbreviation max_depth := (max_inline_action_depth (te_config (ax_trx e))).

Definition queued c : list Z := _cfa_inline_actions c ++ _inline_actions c.

(** The recursion without a bound. *)
Inductive executes : Z -> Z -> exec_state (K := K) -> res unit * exec_state (K := K) -> Prop :=
| executes_lost o depth s ex : find_trace o s = Err ex -> executes o depth s (Err ex, s)
| executes_error o depth s t ex r : find_trace o s = Ok t -> delivered e (start o depth t s) (Err ex, r) ->
    executes o depth s (Err ex, rn_state r)
| executes_too_deep o depth s t r : find_trace o s = Ok t -> delivered e (start o depth t s) (Ok tt, r) ->
    queued (rn_context r) <> [] -> max_depth <= depth -> executes o depth s (Err transaction_exception, rn_state r)
| executes_inline o depth s t r out : find_trace o s = Ok t -> delivered e (start o depth t s) (Ok tt, r) ->
    (queued (rn_context r) = [] \/ depth < max_depth) ->
    executes_all (queued (rn_context r)) (u32 (depth + 1)) (rn_state r) out -> executes o depth s out
with executes_all : list Z -> Z -> exec_state (K := K) -> res unit * exec_state (K := K) -> Prop :=
| executes_none depth s : executes_all [] depth s (Ok tt, s)
| executes_stop o os depth s ex s' : executes o depth s (Err ex, s') -> executes_all (o :: os) depth s (Err ex, s')
| executes_next o os depth s s' out : executes o depth s (Ok tt, s') -> executes_all os depth s' out ->
    executes_all (o :: os) depth s out.

Lemma for_each_app {A} (f : A -> M (exec_state (K := K)) unit) l l' s :
  (for_each f l;; for_each f l') s = for_each f (l ++ l') s.
Proof.
  revert s. induction l as [|x l IH]; intros s; [done|]. cbn. unfold mbind, M_bind in *.
  destruct (f x s) as [[u|ex] s1]; [|done]. by rewrite <- IH.
Qed.

(** What executing the orders [os] comes to. *)
Definition completes (U os : list Z) s (out : res unit * exec_state (K := K)) : Prop :=
  forall s', out = (Ok tt, s') -> numbered (action_traces s') /\ waiting (action_traces s') ≡ₚ U /\ rtc (exec_step e) s s'.

Definition runs_action (f : Z -> M (exec_state (K := K)) unit) (depth : Z) : Prop := forall o U s,
  numbered (action_traces s) -> direct (action_traces s) o -> waiting (action_traces s) ≡ₚ o :: U ->
  Z.of_nat (trace_count (f o s).2) < 2 ^ 32 -> executes o depth s (f o s) /\ completes U [o] s (f o s).

Lemma for_each_runs f depth (Hlong : forall o, frames (along trace_count (always Peano.le)) (f o)) : runs_action f depth ->
  forall os U s, numbered (action_traces s) -> (forall o, o ∈ os -> direct (action_traces s) o) ->
  waiting (action_traces s) ≡ₚ os ++ U -> Z.of_nat (trace_count (for_each f os s).2) < 2 ^ 32 ->
  executes_all os depth s (for_each f os s) /\ completes U os s (for_each f os s).
Proof.
  intros Hf os. induction os as [|o os IH]; intros U s Hn Hd Hw Hb; cbn [for_each] in *.
  { split; [apply executes_none|]. intros s' [= <-]. done. }
  assert (Hb1 : Z.of_nat (trace_count (f o s).2) < 2 ^ 32).
  { unfold mbind, M_bind in Hb. destruct (f o s) as [[u|ex] s1]; [|done]. pose proof (longer_for_each f os Hlong s1) as Hl.
    unfold along, always in Hl. cbn in *. lia. }
  destruct (Hf o (os ++ U) s Hn (Hd o (list_elem_of_here _ _)) Hw Hb1) as [Hex Hc].
  unfold mbind, M_bind in *. destruct (f o s) as [[[]|ex] s1] eqn:Ef.
  2:{ split; [by apply executes_stop|done]. }
  destruct (Hc s1 eq_refl) as (Hn1 & Hw1 & Hsteps). destruct (IH U s1 Hn1) as [Hall Hc1]; [|done|done|].
  { intros q Hq. apply (direct_extends (action_traces s)); [by apply (exec_steps_extend e)|]. apply Hd. by right. }
  split; [by eapply executes_next|]. intros s' Hs'. destruct (Hc1 s' Hs') as (? & ? & ?). split_and!; [done..|]. by etrans.
Qed.

Lemma bind_eq {S A B} (m : M S A) (f : A -> M S B) (s : S) :
  (m ≫= f) s = match m s with (Ok a, s') => f a s' | (Err ex, s') => (Err ex, s') end.
Proof. done. Qed.

Definition bare_context (o depth : Z) (t : action_trace) : apply_context :=
  mk_apply_context (at_act t) (at_receiver t) depth o o false (at_context_free t) [] [] [].

Lemma new_context_eq o depth s :
  new_apply_context o depth s = (match find_trace o s with Ok t => Ok (bare_context o depth t) | Err ex => Err ex end, s).
Proof. unfold new_apply_context, get_action_trace. rewrite bind_eq. by destruct (find_trace o s). Qed.

Definition has_queued c : bool := (0 <? Z.of_nat (length (_cfa_inline_actions c))) || (0 <? Z.of_nat (length (_inline_actions c))).

Lemma has_queued_false c : has_queued c = false <-> queued c = [].
Proof.
  unfold has_queued, queued. rewrite orb_false_iff, !Z.ltb_ge. split.
  - intros [Hc Hi]. destruct (_cfa_inline_actions c), (_inline_actions c); cbn in *; done || lia.
  - intros [-> ->]%app_eq_nil. done.
Qed.

Lemma execute_action_eq fuel o depth s : execute_action e (S fuel) o depth s =
  match find_trace o s with
  | Err ex => (Err ex, s)
  | Ok t =>
      match exec_notified e (mk_running (bare_context o depth t) (enter s)) with
      | (Err ex, r) => (Err ex, rn_state r)
      | (Ok _, r) =>
          if has_queued (rn_context r) && (max_depth <=? recurse_depth (rn_context r)) then (Err transaction_exception, rn_state r)
          else for_each (fun q => execute_action e fuel q (u32 (recurse_depth (rn_context r) + 1))) (queued (rn_context r)) (rn_state r)
      end
  end.
Proof.
  cbn [execute_action]. rewrite bind_eq. rewrite new_context_eq.
  destruct (find_trace o s) as [t|ex]; [|done]. rewrite bind_eq. unfold in_context. fold (enter s).
  destruct (exec_notified e _) as [[u|ex] r]; [|done]. rewrite bind_eq. fold (has_queued (rn_context r)).
  rewrite Z.leb_antisym. unfold queued. rewrite <- for_each_app.
  destruct (has_queued (rn_context r)); cbn [andb]; [|done]. unfold massert, eos_assert. by destruct (_ <? _).
Qed.

Lemma execute_action_runs fuel depth : is_u16 max_depth -> 0 <= depth <= max_depth -> max_depth < Z.of_nat fuel + depth ->
  runs_action (fun o => execute_action e fuel o depth) depth.
Proof.
  intros Hm. revert depth. induction fuel as [|fuel IH]; intros depth Hd Hf o U s Hn Hdir Hw Hb; [lia|].
  rewrite execute_action_eq in *. destruct (find_trace o s) as [t|ex] eqn:Et; [|split; [by apply executes_lost|done]].
  destruct (exec_notified e _) as [[[]|ex] r] eqn:En; cbn [snd] in Hb.
  2:{ split; [|done]. eapply executes_error; [done|]. by eapply (context_runs e U o depth t s). }
  destruct (context_runs e U o depth t s _ Et Hn Hdir Hw En) as [Hdel Hok].
  { cbn [snd]. case_match; [done|]. eapply Z.le_lt_trans; [|exact Hb]. apply Nat2Z.inj_le.
    apply (longer_for_each (fun q => execute_action e fuel q (u32 (recurse_depth (rn_context r) + 1)))).
    intros q. apply longer_execute_action. }
  destruct (Hok r eq_refl) as [[Hact Hdep Hn' _ _ Hdir' Hw' _ _] Hsteps]. rewrite Hdep in *.
  rewrite drop_ge in Hw' by done. cbn in Hw'. fold (queued (rn_context r)) in Hw', Hdir'.
  destruct (has_queued (rn_context r) && (max_depth <=? depth)) eqn:Eq.
  { btests. split; [|done]. eapply executes_too_deep; [done..| |done]. intros Hq%has_queued_false. congruence. }
  assert (Hcase : queued (rn_context r) = [] \/ depth < max_depth).
  { apply andb_false_iff in Eq as [Hq|Hq]; [left; by apply has_queued_false|right; by btests]. }
  destruct (decide (queued (rn_context r) = [])) as [Hq|Hq].
  - rewrite Hq in *. split; [eapply executes_inline; [done|done|by left|rewrite Hq; apply executes_none]|]. intros s' [= <-].
    split; [done|]. split; [by rewrite Hw', app_nil_r|]. eapply rtc_l; [by apply exec_enter|done].
  - destruct Hcase as [|Hlt]; [done|]. assert (Hu : u32 (depth + 1) = depth + 1) by (apply u32_id; widths; lia). rewrite Hu in *.
    destruct (for_each_runs (fun q => execute_action e fuel q (depth + 1)) (depth + 1)) with (os := queued (rn_context r))
      (U := U) (s := rn_state r) as [Hall Hc]; [intros q; apply longer_execute_action|apply IH; lia|done|done| |done|].
    { by rewrite Hw', Permutation_app_comm. }
    split; [eapply executes_inline; [done|done|by right|by rewrite Hu]|]. intros s' Hs'. destruct (Hc s' Hs') as (? & ? & ?).
    split_and!; [done..|]. eapply rtc_l; [by apply exec_enter|]. by etrans.
Qed.
End Inline.
