(* ===== verification/TransactionExec.v ===== *)
(** * What the execution of a transaction guarantees
      ([transaction_context.cpp], [apply_context.cpp])

    [transaction_context::exec] ends; when it succeeds, every action that was
    scheduled has been executed once, the receipts are numbered consecutively,
    and the RAM that accounts are billed is the RAM the traces report. *)

From S2P Require Import Prelude Merkle Chainbase ResourceLimits Names Authority AuthorityChecker BlockHeader Authorization GlobalProperties EosioContract NativeState NativeRam Transaction TransactionChecks ChainConfig Timer TransactionContext ContractTables TableInvariant ApplyContext ExecFrames ExecTraces ExecParts ExecLoops.
#[local] Open Scope Z_scope.

Section Transaction.
Context {K Sig Key : Type} `{EqDecision K} `{unpacker K} `{contract_unpacker K} `{C : crypto} `{P : posix_timer}
  `{T : trx_codec Sig Key} `{softfloat} (e : apply_env (K := K)).
Implicit Types (s : exec_state (K := K)).
Abbreviation max_depth := (max_inline_action_depth (te_config (ax_trx e))).

(** ** The actions of the transaction itself *)
Definition original (n : nat) (context_free : bool) (act : action) : action_trace :=
  mk_trace (u32 (Z.of_nat n + 1)) 0 0 None (act_account act) act context_free ∅ None.

Definition originals (n : nat) (context_free : bool) (acts : list action) : list action_trace :=
  imap (fun i act => original (n + i) context_free act) acts.

Lemma u64_same x y : same_word x y -> u64 x = u64 y.
Proof.
  intros [k Hk]. unfold u64, uwrap. replace x with (y + k * 2 ^ 64) by lia. apply Z.mod_add. lia.
Qed.

Lemma set_traces_twice l l' s : set_action_traces l (set_action_traces l' s) = set_action_traces l s.
Proof. done. Qed.

Lemma schedule_all_run context_free acts s : schedule_all context_free acts s
  = (Ok tt, set_action_traces (action_traces s ++ originals (length (action_traces s)) context_free acts) s).
Proof.
  revert s. induction acts as [|act acts IH]; intros s; cbn [schedule_all].
  { unfold originals. cbn. rewrite app_nil_r. by destruct s. }
  rewrite bind_eq. unfold trx_schedule_action. rewrite IH, set_traces_twice. cbn [action_traces set_action_traces].
  rewrite <- app_assoc, length_app. unfold originals. cbn [imap length]. do 4 f_equal. cbn. rewrite Nat.add_0_r. f_equal.
  apply imap_ext. intros i x _. cbn. f_equal. lia.
Qed.

Definition original_traces (c : trx_context K) : list action_trace :=
  let t := trx (cx_request c) in
  let cfas := if apply_context_free c then originals 0 true (context_free_actions t) else [] in
  cfas ++ (if TransactionContext.delay c =? 0 then originals (length cfas) false (actions t) else []).

Definition scheduled_state s : exec_state := set_action_traces (original_traces (xs_trx s)) s.

Lemma original_lookup n context_free acts i t : originals n context_free acts !! i = Some t ->
  exists act, t = original (n + i) context_free act.
Proof. unfold originals. rewrite list_lookup_imap. intros (act & Hact & ->)%fmap_Some. eauto. Qed.

Lemma original_traces_lookup c i t : original_traces c !! i = Some t ->
  exists context_free act, t = original i context_free act.
Proof.
  unfold original_traces. intros [Hi|[Hge Hi]]%lookup_app_Some.
  - destruct (apply_context_free c); [|done]. apply original_lookup in Hi as (act & ->). eauto.
  - destruct (_ =? 0); [|done]. apply original_lookup in Hi as (act & ->). exists false, act. do 2 f_equal. lia.
Qed.

Definition ordinals (l : list action_trace) : list Z := Z.of_nat <$> seq 1 (length l).

Lemma for_each_fmap {A B} (g : A -> B) (f : B -> M (exec_state (K := K)) unit) l s :
  for_each f (g <$> l) s = for_each (fun x => f (g x)) l s.
Proof. revert s. induction l as [|x l IH]; intros s; [done|]. cbn. rewrite !bind_eq. by destruct (f (g x) s) as [[u|ex] s1]. Qed.

Lemma trx_exec_eq s : action_traces s = [] -> trx_exec e s =
  if is_initialized (xs_trx s) then
    match for_each (fun o => execute_action e (execution_fuel e) o 0) (ordinals (original_traces (xs_trx s))) (scheduled_state s) with
    | (Ok _, s') => if negb (TransactionContext.delay (xs_trx s) =? 0) then schedule_transaction e s' else (Ok tt, s')
    | (Err ex, s') => (Err ex, s')
    end
  else (Err transaction_exception, s).
Proof.
  intros Hs. unfold trx_exec. rewrite bind_eq. unfold gets at 1. rewrite bind_eq. unfold massert at 1, eos_assert.
  destruct (is_initialized (xs_trx s)); [|done]. rewrite bind_eq.
  assert (Hcf : (if apply_context_free (xs_trx s) then schedule_all true (context_free_actions (trx (cx_request (xs_trx s)))) else mret tt) s
    = (Ok tt, set_action_traces (if apply_context_free (xs_trx s) then originals 0 true (context_free_actions (trx (cx_request (xs_trx s)))) else []) s)).
  { destruct (apply_context_free _); [by rewrite schedule_all_run, Hs|]. rewrite <- Hs. by destruct s. }
  rewrite Hcf, bind_eq. clear Hcf. unfold scheduled_state, original_traces.
  set (cfas := if apply_context_free _ then _ else _).
  assert (Hact : (if TransactionContext.delay (xs_trx s) =? 0 then schedule_all false (actions (trx (cx_request (xs_trx s)))) else mret tt)
      (set_action_traces cfas s)
    = (Ok tt, set_action_traces (cfas ++ (if TransactionContext.delay (xs_trx s) =? 0
         then originals (length cfas) false (actions (trx (cx_request (xs_trx s)))) else [])) s)).
  { destruct (_ =? 0); [by rewrite schedule_all_run|]. by rewrite app_nil_r. }
  rewrite Hact, bind_eq. clear Hact. unfold gets. rewrite bind_eq. unfold ordinals. rewrite for_each_fmap. cbn [action_traces set_action_traces].
  destruct (for_each _ _ _) as [[u|ex] s1]; [|done]. by destruct (negb _).
Qed.

(** [schedule_transaction] concerns other parts of the state. *)
Definition receipts_of s := (action_traces s, executed s, xs_global_sequence s).

Lemma frame_schedule_transaction : frames (along receipts_of (always eq)) (schedule_transaction e).
Proof.
  unfold schedule_transaction. frame_auto; [by apply frame_apart_focus; [apply _|]..|]. by apply frame_apart_focus; [apply _|].
Qed.

(** ** The execution without bounds *)
Inductive finishes s : res unit * exec_state (K := K) -> Prop :=
| finishes_refused : is_initialized (xs_trx s) = false -> finishes s (Err transaction_exception, s)
| finishes_error ex s' : is_initialized (xs_trx s) = true ->
    executes_all e (ordinals (original_traces (xs_trx s))) 0 (scheduled_state s) (Err ex, s') -> finishes s (Err ex, s')
| finishes_done s' : is_initialized (xs_trx s) = true ->
    executes_all e (ordinals (original_traces (xs_trx s))) 0 (scheduled_state s) (Ok tt, s') ->
    finishes s (if negb (TransactionContext.delay (xs_trx s) =? 0) then schedule_transaction e s' else (Ok tt, s')).

Lemma originals_waiting s : Z.of_nat (length (original_traces (xs_trx s))) < 2 ^ 32 ->
  numbered (original_traces (xs_trx s)) /\ waiting (original_traces (xs_trx s)) = ordinals (original_traces (xs_trx s))
  /\ forall o, o ∈ ordinals (original_traces (xs_trx s)) -> direct (original_traces (xs_trx s)) o.
Proof.
  set (l := original_traces (xs_trx s)). intros Hb.
  assert (Hl : forall i t, l !! i = Some t -> at_action_ordinal t = Z.of_nat i + 1 /\ at_receipt t = None
    /\ at_receiver t = act_account (at_act t)).
  { intros i t Hi. pose proof (lookup_lt_Some _ _ _ Hi). apply original_traces_lookup in Hi as (cf & act & ->). cbn.
    split; [|done]. apply u32_id. widths. lia. }
  split; [intros i t Hi; by apply Hl|]. split.
  - unfold waiting, ordinals. clearbody l. clear Hb. assert (Hg : forall n l', (forall i t, l' !! i = Some t ->
      at_action_ordinal t = Z.of_nat (n + i) /\ at_receipt t = None) ->
      omap (fun t => match at_receipt t with None => Some (at_action_ordinal t) | Some _ => None end) l'
      = Z.of_nat <$> seq n (length l')).
    { intros n l'. revert n. induction l' as [|t l' IH]; intros n Hl'; [done|].
      destruct (Hl' 0%nat t eq_refl) as [Ho Hr]. cbn. rewrite Hr, Ho, Nat.add_0_r. f_equal. apply IH. intros i u Hi.
      destruct (Hl' (S i) u Hi) as [Hu ?]. split; [|done]. rewrite Hu. lia. }
    apply Hg. intros i t Hi. destruct (Hl i t Hi) as (-> & ? & _). split; [lia|done].
  - intros o (n & -> & Hn)%list_elem_of_fmap. apply elem_of_seq in Hn.
    destruct (lookup_lt_is_Some_2 l (n - 1)) as [t Ht]; [lia|]. destruct (Hl _ _ Ht) as (Ho & _ & Hr).
    exists (at_act t), t. split; [lia|]. split; [|done]. unfold position. by replace (Z.to_nat (Z.of_nat n - 1)) with (n - 1)%nat by lia.
Qed.

Lemma trx_exec_runs s : action_traces s = [] -> is_u16 max_depth -> Z.of_nat (trace_count (trx_exec e s).2) < 2 ^ 32 ->
  finishes s (trx_exec e s) /\ forall s', trx_exec e s = (Ok tt, s') -> exists s1,
    rtc (exec_step e) (scheduled_state s) s1 /\ numbered (action_traces s1) /\ waiting (action_traces s1) = []
    /\ receipts_of s' = receipts_of s1 /\ (TransactionContext.delay (xs_trx s) = 0 -> s' = s1).
Proof.
  intros Hs Hm Hb. rewrite (trx_exec_eq s Hs) in *.
  destruct (is_initialized (xs_trx s)) eqn:Ei; [|split; [by apply finishes_refused|done]].
  set (out := for_each _ _ _) in *.
  assert (Hb1 : Z.of_nat (trace_count out.2) < 2 ^ 32).
  { destruct out as [[u|ex] s1]; [|done]. destruct (negb _); [|done]. pose proof (frame_schedule_transaction s1) as Hf.
    unfold along, always, receipts_of in Hf. injection Hf as Ht _ _. unfold trace_count in *. cbn in *. by rewrite Ht. }
  assert (Hlong : forall o, frames (along trace_count (always Peano.le)) (execute_action e (execution_fuel e) o 0))
    by (intros o; apply longer_execute_action).
  pose proof (longer_for_each (fun o => execute_action e (execution_fuel e) o 0) (ordinals (original_traces (xs_trx s))) Hlong
    (scheduled_state s)) as Hl. unfold along, always in Hl. fold out in Hl. unfold trace_count in Hl at 1. cbn in Hl.
  destruct (originals_waiting s) as (Hn & Hw & Hd); [lia|].
  destruct (for_each_runs e (fun o => execute_action e (execution_fuel e) o 0) 0 Hlong) with (os := ordinals (original_traces (xs_trx s)))
    (U := @nil Z) (s := scheduled_state s) as [Hall Hc]; try done.
  { apply execute_action_runs; [done|widths; lia|]. unfold execution_fuel. widths. lia. }
  { change (action_traces (scheduled_state s)) with (original_traces (xs_trx s)). by rewrite app_nil_r, Hw. }
  fold out in Hall, Hc. destruct out as [[[]|ex] s1]; [|split; [by apply finishes_error|done]].
  destruct (Hc s1 eq_refl) as (Hn1 & Hw1 & Hsteps). apply Permutation_nil_r in Hw1.
  split; [by apply finishes_done|]. intros s' Hs'. exists s1. split_and!; try done.
  - destruct (negb _); [|by injection Hs' as <-]. pose proof (frame_schedule_transaction s1) as Hf. rewrite Hs' in Hf. by symmetry.
  - intros Hz. rewrite Hz in Hs'. cbn in Hs'. by injection Hs' as <-.
Qed.

(** ** The books of an execution *)

(** What the traces report for account [a]. *)
Definition ram_reported (l : list action_trace) (a : Z) : Z :=
  foldr (fun t sum => recorded_delta (account_ram_deltas t) a + sum) 0 l.

Lemma ram_reported_app l l' a : ram_reported (l ++ l') a = ram_reported l a + ram_reported l' a.
Proof. unfold ram_reported. induction l as [|t l IH]; cbn; [done|]. rewrite IH. lia. Qed.

Lemma ram_reported_none l a : (forall t, t ∈ l -> account_ram_deltas t = ∅) -> ram_reported l a = 0.
Proof.
  unfold ram_reported. induction l as [|t l IH]; intros Hl; [done|]. cbn. rewrite (Hl t), IH by set_solver. done.
Qed.

Lemma ram_reported_serve l p t t' a : l !! p = Some t -> account_ram_deltas t = ∅ ->
  ram_reported (<[p := t']> l) a = ram_reported l a + recorded_delta (account_ram_deltas t') a.
Proof.
  intros Hp Ht. rewrite <- (take_drop_middle l p t Hp) at 2. rewrite insert_take_drop by (by eapply lookup_lt_Some).
  rewrite !ram_reported_app. unfold ram_reported. cbn. rewrite Ht.
  assert (Hz : recorded_delta ∅ a = 0) by done. lia.
Qed.

Definition privileged_within s0 (a : Z) : Prop := exists s1 md, rtc (exec_step e) s0 s1
  /\ get_metadata a (xs_native s1) = Ok md /\ is_privileged md.2 = true.

(** Who may be billed more RAM by an action. *)
Definition growth_allowed s0 (t : action_trace) : Prop :=
  forall a x, account_ram_deltas t !! a = Some x -> 0 < x ->
    a = at_receiver t \/ (at_receiver t = act_account (at_act t) /\ has_authorization a (at_act t) = true)
    \/ privileged_within s0 (at_receiver t).

Record books s0 s : Prop := {
  bk_pending t : t ∈ action_traces s -> at_receipt t = None -> account_ram_deltas t = ∅;
  bk_receipt t rc : t ∈ action_traces s -> at_receipt t = Some rc ->
    ar_receiver rc = at_receiver t /\ act_digest rc = action_digest e (at_act t) /\ growth_allowed s0 t;
  bk_creator t : t ∈ action_traces s -> 0 <= creator_action_ordinal t < at_action_ordinal t;
  bk_executed : executed s ≡ₚ executed s0 ++ omap at_receipt (action_traces s);
  bk_sequence : same_word (xs_global_sequence s) (xs_global_sequence s0 + Z.of_nat (length (executed s) - length (executed s0)));
  bk_numbers (k : nat) rc : executed s !! (length (executed s0) + k)%nat = Some rc ->
    global_sequence rc = u64 (xs_global_sequence s0 + Z.of_nat k + 1);
  bk_before : executed s0 `prefix_of` executed s;
  bk_ram a : same_word (ram_of (nd_limits (xs_native s)) a)
               (ram_of (nd_limits (xs_native s0)) a + ram_reported (action_traces s) a) }.

Lemma omap_receipt_serve l p t t' rc : l !! p = Some t -> at_receipt t = None -> at_receipt t' = Some rc ->
  omap at_receipt (<[p := t']> l) ≡ₚ omap at_receipt l ++ [rc].
Proof.
  intros Hp Ht Ht'. rewrite <- (take_drop_middle l p t Hp) at 2. rewrite insert_take_drop by (by eapply lookup_lt_Some).
  rewrite !omap_app. cbn. rewrite Ht, Ht'. rewrite <- app_assoc. apply Permutation_app_head. apply Permutation_cons_append.
Qed.

Lemma omap_receipt_orders c n E : orders_ok c n E -> omap at_receipt (E : list order).*2 = [].
Proof.
  intros Ho. assert (Hn : forall o, o ∈ E -> at_receipt o.2 = None).
  { intros o (i & Hi)%list_elem_of_lookup. by destruct (Ho i o Hi) as (_ & _ & _ & ? & _). }
  clear Ho. induction E as [|o E IH]; [done|]. cbn. rewrite (Hn o) by left. apply IH. intros q Hq. apply Hn. by right.
Qed.

Lemma books_init s : action_traces s = original_traces (xs_trx s) -> Z.of_nat (length (original_traces (xs_trx s))) < 2 ^ 32 -> books s s.
Proof.
  intros Hs Hb. assert (Hl : forall t, t ∈ action_traces s -> at_receipt t = None /\ account_ram_deltas t = ∅
    /\ creator_action_ordinal t = 0 /\ 0 < at_action_ordinal t).
  { intros t [i Hi]%list_elem_of_lookup. rewrite Hs in Hi. pose proof (lookup_lt_Some _ _ _ Hi).
    apply original_traces_lookup in Hi as (cf & act & ->). cbn. split_and!; [done..|]. rewrite u32_id; widths; lia. }
  split.
  - intros t Ht _. by apply Hl.
  - intros t rc Ht. destruct (Hl t Ht) as [-> _]. done.
  - intros t Ht. destruct (Hl t Ht) as (_ & _ & -> & ?). lia.
  - enough (omap at_receipt (action_traces s) = []) as -> by by rewrite app_nil_r.
    clear Hs. induction (action_traces s) as [|t l IH]; [done|]. cbn. destruct (Hl t) as [-> _]; [left|]. apply IH. set_solver.
  - by rewrite Nat.sub_diag, Z.add_0_r.
  - intros k rc Hk%lookup_lt_Some. lia.
  - done.
  - intros a. rewrite ram_reported_none, Z.add_0_r; [done|]. intros t Ht. by apply Hl.
Qed.

(** What the step does to the list of traces: [E] is appended, the trace at
    [q] is replaced. *)
Lemma serve_step_traces c c' p E rc D s s' : placed (mk_running c s) -> action_ordinal c ∈ waiting (action_traces s) ->
  numbered (action_traces s) -> served e p E rc D (mk_running c s) (mk_running c' s') ->
  exists q t, action_traces s !! q = Some t /\ at_receipt t = None /\ at_receiver t = receiver c /\ at_act t = ac_act c
    /\ at_action_ordinal t = action_ordinal c /\ orders_ok c (length (action_traces s)) E
    /\ action_traces s' = <[q := trace_deltas D (trace_receipt rc t)]> (action_traces s ++ E.*2).
Proof.
  intros [(t & Ho & Ht & Hr & Ha) _] Hw Hn [_ _ [_ Hok] (t' & Ht' & Htr) _ _ _ _ _ _ _ _]. cbn in *.
  destruct (waiting_lookup _ _ Hn Hw) as (u & _ & Hu & Hrc & Hord). exists (position (action_ordinal c)), t.
  assert (t' = t) as -> by congruence. assert (u = t) as -> by congruence. done.
Qed.

Lemma serve_elem c E n (l : list action_trace) q t' u : orders_ok c n E -> u ∈ <[q := t']> (l ++ E.*2) ->
  u = t' \/ u ∈ l \/ (at_receipt u = None /\ account_ram_deltas u = ∅ /\ creator_action_ordinal u = action_ordinal c
    /\ exists i, (i < length E)%nat /\ at_action_ordinal u = u32 (Z.of_nat (n + i) + 1)).
Proof.
  intros Ho [i Hi]%list_elem_of_lookup. apply list_lookup_insert_Some in Hi as [(_ & <- & _)|[_ Hi]]; [by left|].
  apply lookup_app_Some in Hi as [Hi|[_ Hi]]; [right; left; by eapply list_elem_of_lookup_2|].
  rewrite list_lookup_fmap in Hi. apply fmap_Some in Hi as (o & Hi & ->). right. right.
  destruct (Ho _ o Hi) as (Hord & Hc & _ & Hr & Hd & _). split_and!; try done. eexists. split; [|done]. by eapply lookup_lt_Some.
Qed.

Lemma books_serve s0 s s' : rtc (exec_step e) s0 s -> books s0 s -> exec_step e s s' -> books s0 s'.
Proof.
  intros Hsteps [Hpend Hrec Hcre Hexe Hseq Hnum Hpre Hram] [c c' p E rc D Hp Hw Hn Hb Hs | ->]; [|by split].
  destruct (serve_step_traces _ _ _ _ _ _ _ _ Hp Hw Hn Hs) as (q & t & Hq & Hrc & Hrv & Hact & Hord & Hok & Htr).
  assert (HqE : (action_traces s ++ E.*2) !! q = Some t) by by apply lookup_app_l_Some.
  destruct Hs as [(md & Hmd & ->) _ _ _ _ Hex [Hg Hg'] [Hr1 Hr2] Hgrow [_ Htracks] _ _]. cbn in *.
  assert (Htin : t ∈ action_traces s) by by eapply list_elem_of_lookup_2.
  pose proof (Hpend t Htin Hrc) as Hdt. pose proof (prefix_length _ _ Hpre) as Hlen.
  split; rewrite ?Htr, ?Hex.
  - intros u Hu Hur. destruct (serve_elem _ _ _ _ _ _ _ Hok Hu) as [->|[Hin|(_ & Hd & _)]]; [by cbn in Hur|by apply Hpend|done].
  - intros u rc' Hu Hur. destruct (serve_elem _ _ _ _ _ _ _ Hok Hu) as [->|[Hin|(Hnone & _)]]; [|by apply Hrec|congruence].
    cbn in Hur. injection Hur as <-. cbn. rewrite Hrv, Hact. split_and!; [done..|].
    intros a x Ha Hx. cbn in *. destruct (is_privileged md.2) eqn:Ep.
    + right. right. rewrite Hrv. by exists s, md.
    + rewrite Hrv, Hact. destruct (Hgrow eq_refl a x Ha Hx) as [|]; auto.
  - intros u Hu. destruct (serve_elem _ _ _ _ _ _ _ Hok Hu) as [->|[Hin|(_ & _ & Hcr & i & Hi & Ho)]]; [by apply (Hcre t)|by apply Hcre|].
    rewrite Hcr, Ho, <- Hord, (Hn _ _ Hq). pose proof (lookup_lt_Some _ _ _ Hq).
    rewrite u32_id; [lia|]. widths. unfold trace_count in Hb. rewrite Htr, length_insert, length_app, length_fmap in Hb. lia.
  - rewrite (omap_receipt_serve _ _ _ (trace_deltas D (trace_receipt rc t)) rc HqE Hrc eq_refl), omap_app, (omap_receipt_orders _ _ _ Hok), app_nil_r, app_assoc.
    by rewrite Hexe.
  - rewrite Hg, length_app. cbn. rewrite (u64_same_word _), Hseq.
    replace (length (executed s) + 1 - length (executed s0))%nat with (S (length (executed s) - length (executed s0))) by lia.
    by replace (xs_global_sequence s0 + Z.of_nat (length (executed s) - length (executed s0)) + 1)
      with (xs_global_sequence s0 + Z.of_nat (S (length (executed s) - length (executed s0)))) by lia.
  - intros k rc'. intros [Hk|[Hge Hk]]%lookup_app_Some; [by apply Hnum|]. apply list_lookup_singleton_Some in Hk as [Hk <-].
    rewrite Hg', Hg. apply u64_same. rewrite Hseq.
    by replace (length (executed s) - length (executed s0))%nat with k by lia.
  - by apply prefix_app_r.
  - intros a. rewrite (ram_reported_serve _ _ t) by done. rewrite ram_reported_app, (ram_reported_none E.*2).
    2:{ intros u Hu. apply list_elem_of_lookup in Hu as [i Hi]. rewrite list_lookup_fmap in Hi. apply fmap_Some in Hi as (o & Hi & ->).
        by destruct (Hok i o Hi) as (_ & _ & _ & _ & ? & _). }
    cbn. specialize (Htracks a). destruct Hp as [_ Hzero]. cbn in *. rewrite Hzero in Htracks. unfold recorded_delta at 1 in Htracks.
    rewrite lookup_empty in Htracks. cbn in Htracks. rewrite !Z.add_0_r in *. rewrite Htracks, (Hram a). by rewrite Z.add_assoc.
Qed.

Lemma books_kept s0 s : books s0 s0 -> rtc (exec_step e) s0 s -> books s0 s.
Proof.
  intros Hb. revert s. refine (rtc_ind_r _ _ _ _); [done|]. intros s1 s2 Hs1 Hs2 IH. by eapply books_serve.
Qed.

(** A transaction that begins: nothing is scheduled or executed. *)
Definition begins s : Prop := action_traces s = [] /\ executed s = [] /\ is_u16 max_depth.

(** Less than 2^32 actions, the numbers an ordinal can take. *)
Definition numbers_suffice s : Prop := Z.of_nat (length (action_traces s)) < 2 ^ 32.

Lemma executed_books s s' : begins s -> trx_exec e s = (Ok tt, s') -> numbers_suffice s' -> exists s1,
  books (scheduled_state s) s1 /\ numbered (action_traces s1) /\ waiting (action_traces s1) = []
  /\ receipts_of s' = receipts_of s1 /\ (TransactionContext.delay (xs_trx s) = 0 -> s' = s1).
Proof.
  intros (Hs & Hx & Hm) Hr Hb. destruct (trx_exec_runs s Hs Hm) as [_ Hok]; [by rewrite Hr|].
  destruct (Hok s' Hr) as (s1 & Hsteps & Hn & Hw & Hrc & Hz). exists s1. split_and!; try done.
  apply books_kept; [|done]. apply books_init; [done|]. change (xs_trx (scheduled_state s)) with (xs_trx s).
  pose proof (extends_length _ _ (exec_steps_extend e _ _ Hsteps)) as Hlen.
  change (action_traces (scheduled_state s)) with (original_traces (xs_trx s)) in Hlen. unfold receipts_of in Hrc. injection Hrc as Ht _ _. unfold numbers_suffice in Hb. rewrite Ht in Hb. lia.
Qed.

Lemma waiting_none l t : waiting l = [] -> t ∈ l -> is_Some (at_receipt t).
Proof.
  intros Hw Ht. destruct (at_receipt t) as [rc|] eqn:Er; [eauto|].
  assert (Hin : at_action_ordinal t ∈ waiting l) by (apply list_elem_of_omap; exists t; by rewrite Er).
  rewrite Hw in Hin. by apply elem_of_nil in Hin.
Qed.

Lemma all_executed s s' : begins s -> trx_exec e s = (Ok tt, s') -> numbers_suffice s' ->
  (forall i t, action_traces s' !! i = Some t -> at_action_ordinal t = Z.of_nat i + 1
     /\ 0 <= creator_action_ordinal t < at_action_ordinal t
     /\ exists rc, at_receipt t = Some rc /\ ar_receiver rc = at_receiver t /\ act_digest rc = action_digest e (at_act t))
  /\ executed s' ≡ₚ omap at_receipt (action_traces s').
Proof.
  intros Hs Hr Hb. destruct (executed_books s s' Hs Hr Hb) as (s1 & Hbk & Hn & Hw & Hrc & _).
  destruct Hs as (Hs & Hx & _). unfold receipts_of in Hrc. injection Hrc as -> -> _. split.
  - intros i t Hi. assert (Hin : t ∈ action_traces s1) by by eapply list_elem_of_lookup_2.
    split; [by apply Hn|]. split; [by apply (bk_creator _ _ Hbk)|]. destruct (waiting_none _ _ Hw Hin) as [rc Hrc].
    exists rc. destruct (bk_receipt _ _ Hbk t rc Hin Hrc) as (? & ? & _). done.
  - rewrite (bk_executed _ _ Hbk). change (executed (scheduled_state s)) with (executed s). by rewrite Hx.
Qed.

Lemma receipts_numbered s s' : begins s -> trx_exec e s = (Ok tt, s') -> numbers_suffice s' ->
  (forall k rc, executed s' !! k = Some rc -> global_sequence rc = u64 (xs_global_sequence s + Z.of_nat k + 1))
  /\ u64 (xs_global_sequence s') = u64 (xs_global_sequence s + Z.of_nat (length (executed s'))).
Proof.
  intros Hs Hr Hb. destruct (executed_books s s' Hs Hr Hb) as (s1 & Hbk & Hn & Hw & Hrc & _).
  destruct Hs as (Hs & Hx & _). unfold receipts_of in Hrc. injection Hrc as _ -> ->.
  pose proof (bk_numbers _ _ Hbk) as Hnum. pose proof (bk_sequence _ _ Hbk) as Hseq.
  change (executed (scheduled_state s)) with (executed s) in *. rewrite Hx in *. cbn in *. split; [exact Hnum|].
  rewrite Nat.sub_0_r in Hseq. by apply u64_same.
Qed.

Lemma ram_accounted s s' a : begins s -> trx_exec e s = (Ok tt, s') -> numbers_suffice s' ->
  TransactionContext.delay (xs_trx s) = 0 ->
  same_word (ram_of (nd_limits (xs_native s')) a) (ram_of (nd_limits (xs_native s)) a + ram_reported (action_traces s') a).
Proof.
  intros Hs Hr Hb Hz. destruct (executed_books s s' Hs Hr Hb) as (s1 & Hbk & _ & _ & _ & Heq).
  rewrite (Heq Hz). apply (bk_ram _ _ Hbk).
Qed.

Lemma growth_authorized s s' t : begins s -> trx_exec e s = (Ok tt, s') -> numbers_suffice s' ->
  t ∈ action_traces s' -> growth_allowed (scheduled_state s) t.
Proof.
  intros Hs Hr Hb Ht. destruct (executed_books s s' Hs Hr Hb) as (s1 & Hbk & _ & Hw & Hrc & _).
  unfold receipts_of in Hrc. injection Hrc as Htr _ _. rewrite Htr in Ht.
  destruct (waiting_none _ _ Hw Ht) as [rc Hsome]. by destruct (bk_receipt _ _ Hbk t rc Ht Hsome) as (_ & _ & ?).
Qed.
End Transaction.

Section Claims.
Context {K Sig Key : Type} `{EqDecision K} `{unpacker K} `{contract_unpacker K} `{C : crypto} `{P : posix_timer}
  `{T : trx_codec Sig Key} `{softfloat} (e : apply_env (K := K)).

(** C10: The execution of a transaction ends with the result that unbounded
    loops would give: inline actions never nest deeper than the configured
    depth, and an action never notifies an account twice, so recursion and
    notification loop stop by themselves. *)
Theorem trx_exec_terminates (s : exec_state) :
  begins e s -> numbers_suffice (trx_exec e s).2 -> finishes e s (trx_exec e s).
Proof. intros (Hs & _ & Hm) Hb. by apply trx_exec_runs. Qed.

(** C11: After a successful execution every action scheduled on the way - the
    actions of the transaction, notifications, inline actions - has been
    executed: the traces are numbered from 1 in the order of scheduling, each
    was created by an earlier one, each has the receipt of its own receiver and
    action, and the receipts are those of the traces, each once. *)
Theorem every_action_executed (s s' : exec_state) :
  begins e s -> trx_exec e s = (Ok tt, s') -> numbers_suffice s' ->
  (forall i t, action_traces s' !! i = Some t -> at_action_ordinal t = Z.of_nat i + 1
     /\ 0 <= creator_action_ordinal t < at_action_ordinal t
     /\ exists rc, at_receipt t = Some rc /\ ar_receiver rc = at_receiver t /\ act_digest rc = action_digest e (at_act t))
  /\ executed s' ≡ₚ omap at_receipt (action_traces s').
Proof. exact (all_executed e s s'). Qed.

(** C14: The receipts of a transaction carry the global sequence numbers that
    follow the one it began with, without gap, in the order of execution. *)
Theorem receipts_consecutive (s s' : exec_state) :
  begins e s -> trx_exec e s = (Ok tt, s') -> numbers_suffice s' ->
  (forall k rc, executed s' !! k = Some rc -> global_sequence rc = u64 (xs_global_sequence s + Z.of_nat k + 1))
  /\ u64 (xs_global_sequence s') = u64 (xs_global_sequence s + Z.of_nat (length (executed s'))).
Proof. exact (receipts_numbered e s s'). Qed.


End Claims.

(** ** A concrete contract *)
Definition exec_program (receiver : Z) : program :=
  host (host_read_action_data 8) (fun r =>
    if Nat.leb (length r) 1 then exit
    else host (host_require_recipient system_account_name) (fun _ =>
      if receiver =? alice then
        host (host_table (op_store 1 2 alice 10 [1; 2; 3])) (fun _ =>
          host (host_send_context_free_inline 20 (mk_action alice 9 [] [])) (fun _ => exit))
      else exit)).

Definition exec_env : apply_env (K := Z) :=
  mk_apply_env billing_env (fun a => mk_digest (act_account a) (act_name a) (Z.of_nat (length (act_data a))) 0)
    (fun _ _ _ receiver => exec_program receiver) 4096 []
    (mk_schedule_view 7 (mk_schedule 1 []) (mk_schedule 0 []))
    (mk_fc (fun _ => Ok []) (fun l => Ok l) (fun _ => Ok []) (fun a => act_name a :: act_data a) (fun ms => ms * 1000) (fun _ => fc_std_exception)).

Definition exec_start : exec_state (K := Z) :=
  mk_exec (mk_table_db billing_c1 index_empty index_empty (fun _ => index_empty) cache_empty (fun _ => cache_empty)) index_empty 41 gpo_default [] [].
#[local] Existing Instance ieee.
Definition exec_run : res unit * exec_state := trx_exec exec_env exec_start.
Definition exec_end : exec_state := exec_run.2.

Lemma exec_begins : begins exec_env exec_start.
Proof. split_and!; [done..|by split]. Qed.

Lemma exec_ok : trx_exec exec_env exec_start = (Ok tt, exec_end).
Proof. unfold exec_end, exec_run. assert (E : (trx_exec exec_env exec_start).1 = Ok tt) by (by vm_compute). rewrite <- E. by destruct (trx_exec _ _). Qed.

Lemma exec_numbers : numbers_suffice exec_end.
Proof. by vm_compute. Qed.

(** Three actions: alice's, its notification of the system account, and the
    inline action. *)
Lemma trx_exec_terminates_witness : length (action_traces exec_end) = 3%nat /\ finishes exec_env exec_start (Ok tt, exec_end).
Proof.
  split; [by vm_compute|]. rewrite <- exec_ok. apply trx_exec_terminates; [exact exec_begins|]. rewrite exec_ok. exact exec_numbers.
Defined.

Lemma every_action_executed_witness : length (executed exec_end) = 3%nat /\ executed exec_end ≡ₚ omap at_receipt (action_traces exec_end).
Proof.
  split; [by vm_compute|].
  exact (proj2 (every_action_executed exec_env exec_start exec_end exec_begins exec_ok exec_numbers)).
Defined.

Lemma receipts_consecutive_witness : u64 (xs_global_sequence exec_end) = 44.
Proof.
  rewrite (proj2 (receipts_consecutive exec_env exec_start exec_end exec_begins exec_ok exec_numbers)). by vm_compute.
Defined.


