(* ===== verification/PushTransaction.v ===== *)
(** * Transactions in the pending block ([controller.cpp], [block.hpp],
      [transaction_metadata.hpp])

    [controller_impl::push_transaction], [push_scheduled_transaction] and
    [apply_onerror]: a transaction runs in an undo session on the database of
    the pending block; it leaves a receipt and its actions in the block, or it
    leaves nothing.  The sessions of chainbase behave as snapshots
    ([Chainbase.v], [Database.v]); here they are: undoing one restores the
    database as it was. *)

From S2P Require Import Prelude Merkle Chainbase ResourceLimits Names Authority AuthorityChecker BlockHeader Authorization GlobalProperties EosioContract NativeState NativeRam Transaction TransactionChecks ChainConfig Timer TransactionContext ContractTables TableInvariant ApplyContext.
#[local] Open Scope Z_scope.

(** ** Receipts *)
Inductive receipt_status : Type := status_executed | status_soft_fail | status_hard_fail | status_delayed | status_expired.
#[export] Instance receipt_status_eq_dec : EqDecision receipt_status.
Proof. solve_decision. Defined.

Record transaction_receipt_header : Type := mk_receipt_header {
  rh_status : receipt_status;
  rh_cpu_usage_us : Z;
  rh_net_usage_words : Z }.
#[export] Instance receipt_header_eq_dec : EqDecision transaction_receipt_header.
Proof. solve_decision. Defined.

Inductive db_read_mode : Type := SPECULATIVE | HEAD | READ_ONLY | IRREVERSIBLE.
#[export] Instance read_mode_eq_dec : EqDecision db_read_mode.
Proof. solve_decision. Defined.

(** Exceptions that handlers for [fc::exception] do not catch: those of the
    standard library and the ways in which a definition of this development
    stops where the code would not return. *)
Definition is_fc_exception (ex : exn) : bool :=
  match ex with
  | out_of_fuel | undefined_behaviour | aborted | std_out_of_range | std_logic_error | std_runtime_error => false
  | _ => true
  end.

(** Caught and kept in the trace. *)
Definition kept_in_trace (ex : exn) : bool :=
  is_fc_exception ex && negb (bool_decide (ex = disallowed_transaction_extensions_bad_block_exception)).

Definition failure_is_subjective (ex : exn) : bool :=
  match ex with
  | subjective_block_production_exception | block_net_usage_exceeded | greylist_net_usage_exceeded | block_cpu_usage_exceeded
  | greylist_cpu_usage_exceeded | deadline_exception | leeway_deadline_exception | actor_allowlist_exception
  | actor_denylist_exception | contract_allowlist_exception | contract_denylist_exception | action_denylist_exception
  | key_denylist_exception | sig_variable_size_limit_exception | inline_action_too_big_nonprivileged => true
  | _ => false
  end.

Definition scheduled_failure_is_subjective (ex : exn) : bool :=
  bool_decide (ex = tx_cpu_usage_exceeded) || failure_is_subjective ex.

Section Push.
Context {K Sig Key : Type} `{EqDecision K} `{unpacker K} `{contract_unpacker K} `{C : crypto} `{P : posix_timer}
  `{T : trx_codec Sig Key} `{softfloat}.

(** [transaction_receipt::trx] *)
Inductive receipt_trx : Type := receipt_id (id : digest_type) | receipt_packed (p : packed_transaction Sig).
Record transaction_receipt : Type := mk_transaction_receipt { rc_header : transaction_receipt_header; rc_trx : receipt_trx }.

Record transaction_metadata : Type := mk_metadata_of {
  tm_packed : packed_transaction Sig;
  signature_cpu_usage : Z;
  recovered_keys : list K;
  tm_implicit : bool;
  tm_scheduled : bool;
  tm_billed_cpu_time_us : Z }.
Definition tm_trx (t : transaction_metadata) : transaction := st_trx (unpacked_trx (tm_packed t)).
Definition set_tm_billed b (t : transaction_metadata) : transaction_metadata :=
  mk_metadata_of (tm_packed t) (signature_cpu_usage t) (recovered_keys t) (tm_implicit t) (tm_scheduled t) b.

(** [transaction_trace]; block ids, clocks and error codes are left out. *)
#[warnings="-register-all"]
Inductive transaction_trace : Type := mk_transaction_trace {
  tt_id : digest_type;
  tt_receipt : option transaction_receipt_header;
  tt_net_usage : Z;
  tt_scheduled : bool;
  tt_action_traces : list action_trace;
  tt_except : option exn;
  failed_dtrx_trace : option transaction_trace }.

Definition set_tt_receipt r (t : transaction_trace) : transaction_trace :=
  mk_transaction_trace (tt_id t) (Some r) (tt_net_usage t) (tt_scheduled t) (tt_action_traces t) (tt_except t) (failed_dtrx_trace t).
Definition set_failed_dtrx d (t : transaction_trace) : transaction_trace :=
  mk_transaction_trace (tt_id t) (tt_receipt t) (tt_net_usage t) (tt_scheduled t) (tt_action_traces t) (tt_except t) (Some d).

(** ** The database and the block under construction *)
Record chain_db : Type := mk_chain_db {
  db_tables : generic_index table_id_object;
  db_keyval : generic_index key_value_object;
  db_index : index_kind -> generic_index index_object;
  db_native : native_db K;
  db_dedup : generic_index transaction_object;
  db_summaries : generic_index digest_type;
  db_generated : generic_index deferred_object;
  db_global_sequence : Z;
  db_properties : global_properties K }.

Definition set_db_native d (db : chain_db) : chain_db :=
  mk_chain_db (db_tables db) (db_keyval db) (db_index db) d (db_dedup db) (db_summaries db) (db_generated db) (db_global_sequence db) (db_properties db).
Definition set_db_generated g (db : chain_db) : chain_db :=
  mk_chain_db (db_tables db) (db_keyval db) (db_index db) (db_native db) (db_dedup db) (db_summaries db) g (db_global_sequence db) (db_properties db).

(** The part of [building_block] that transactions change. *)
Record building_block : Type := mk_building_block {
  _pending_trx_metas : list transaction_metadata;
  _pending_trx_receipts : list transaction_receipt;
  _actions : list action_receipt }.

Record push_state : Type := mk_push_state {
  ps_db : chain_db;
  ps_block : building_block;
  ps_timer : platform_timer;
  ps_tick : nat }.
Definition set_ps_db d (s : push_state) : push_state := mk_push_state d (ps_block s) (ps_timer s) (ps_tick s).
Definition set_ps_block b (s : push_state) : push_state := mk_push_state (ps_db s) b (ps_timer s) (ps_tick s).
Definition set_ps_timer t n (s : push_state) : push_state := mk_push_state (ps_db s) (ps_block s) t n.

Abbreviation XM := (M (exec_state (K := K))).
Abbreviation PM := (M push_state).

Definition on_db {A} : M chain_db A -> PM A := focus ps_db set_ps_db.
Definition on_db_native {A} (m : M (native_db K) A) : PM A := on_db (focus db_native set_db_native m).
Definition on_db_limits {A} (m : M resource_limits_manager A) : PM A := on_db_native (on_limits m).
Definition on_db_generated {A} (m : M (generic_index deferred_object) A) : PM A := on_db (focus db_generated set_db_generated m).

(** What a transaction context holds besides the database is new. *)
Definition without_caches (d : native_db K) : native_db K :=
  mk_native_db (nd_auth d) (nd_accounts d) (nd_metadata d) (nd_code d) (nd_limits d) ∅ ∅.

Definition open_context (rq : trx_request) (billed : Z) (s : push_state) : exec_state (K := K) :=
  let db := ps_db s in
  mk_exec (mk_table_db (new_context rq billed (ps_timer s) (ps_tick s) (without_caches (db_native db)) (db_dedup db) (db_summaries db))
             (db_tables db) (db_keyval db) (db_index db) cache_empty (fun _ => cache_empty))
    (db_generated db) (db_global_sequence db) (db_properties db) [] [].

Definition db_of (x : exec_state (K := K)) : chain_db :=
  mk_chain_db (td_tables (xs_tables x)) (td_keyval (xs_tables x)) (td_index (xs_tables x)) (without_caches (xs_native x))
    (cx_dedup (xs_trx x)) (cx_summaries (xs_trx x)) (xs_generated x) (xs_global_sequence x) (xs_properties x).

Context (e : apply_env (K := K)).
Abbreviation cfg := (te_config (ax_trx e)).
Abbreviation view := (te_view (ax_trx e)).
Abbreviation nconf := (te_native (ax_trx e)).
Abbreviation block_time := (pending_block_time (nc_auth nconf)).
Abbreviation time_slot := (set_time_point block_time).

(** Configuration that only pushing reads, and the packing of [onerror]. *)
Record push_config : Type := mk_push_config {
  read_mode : db_read_mode;
  sig_cpu_bill_pct : Z;
  subjective_cpu_leeway : option Z;
  replay_head_time : option Z;
  pack_onerror : Z -> list Z -> list Z }.
Context (pc : push_config).

(** The environment of one transaction; [in_trx_requiring_checks] is set for
    scheduled ones. *)
Definition env_for (requiring_checks : bool) (cfd : list (list Z)) : apply_env (K := K) :=
  let v := view in
  mk_apply_env
    (mk_trx_env cfg nconf (mk_view (pending_status v) requiring_checks (trusted_producer_light_validation v) (conf v))
       (clock (ax_trx e)) (fires (ax_trx e)))
    (action_digest e) (code_of e) (max_nonprivileged_inline_action_size e) cfd (ax_schedules e) (ax_fc e).

(** [fc::time_point::now()] *)
Definition read_clock : PM Z := fun s => (Ok (clock (ax_trx e) (ps_tick s)), set_ps_timer (ps_timer s) (S (ps_tick s)) s).

(** ** Sessions *)

(** An undo session around [m], which tells whether to squash it; without
    sessions nothing is undone. *)
Definition with_session {A} (v : controller_view) (m : PM (A * bool)) : PM A := fun s =>
  let undo s' := if skip_db_sessions v then s' else set_ps_db (ps_db s) s' in
  match m s with
  | (Ok (a, squash), s') => (Ok a, if squash then s' else undo s')
  | (Err ex, s') => (Err ex, undo s')
  end.

(** The body of a transaction in a context of its own: its outcome, the final
    context, and the clock; the timer stops with the context. *)
Definition in_transaction (rq : trx_request) (billed : Z) (body : XM unit) : PM (res unit * exec_state (K := K)) := fun s =>
  let '(r, x) := body (open_context rq billed s) in
  (Ok (r, x), set_ps_timer (timer_stop (transaction_timer (cx_timer (xs_trx x)))) (ticks (cx_timer (xs_trx x))) s).

(** Squashing the session of a context. *)
Definition put_db (x : exec_state (K := K)) : PM unit := modify (set_ps_db (db_of x)).

(** Undoing it; without a session the changes stay. *)
Definition undo_context (v : controller_view) (x : exec_state (K := K)) : PM unit :=
  if skip_db_sessions v then put_db x else mret tt.

Definition context_trace (x : exec_state (K := K)) (ex : option exn) : transaction_trace :=
  mk_transaction_trace (trx_id (cx_request (xs_trx x))) None (trx_net_usage (cx_net (xs_trx x))) (scheduled (xs_trx x))
    (action_traces x) ex None.

(** ** Receipts of the block *)
Definition push_receipt (t : receipt_trx) (status : receipt_status) (cpu_usage_us net_usage : Z) : PM transaction_receipt_header :=
  let net_usage_words := net_usage / 8 in
  massert (u64 (net_usage_words * 8) =? net_usage) transaction_exception;;
  let r := mk_receipt_header status (u32 cpu_usage_us) (u32 net_usage_words) in
  modify (fun s => let b := ps_block s in
    set_ps_block (mk_building_block (_pending_trx_metas b) (_pending_trx_receipts b ++ [mk_transaction_receipt r t]) (_actions b)) s);;
  mret r.

Definition push_meta (t : transaction_metadata) : PM unit :=
  modify (fun s => let b := ps_block s in
    set_ps_block (mk_building_block (_pending_trx_metas b ++ [t]) (_pending_trx_receipts b) (_actions b)) s).
Definition push_actions (l : list action_receipt) : PM unit :=
  modify (fun s => let b := ps_block s in
    set_ps_block (mk_building_block (_pending_trx_metas b) (_pending_trx_receipts b) (_actions b ++ l)) s).

(** [make_block_restore_point]: the lists are cut to their former lengths
    unless [m] cancels it. *)
Definition cut_block (metas receipts actions : nat) (b : building_block) : building_block :=
  mk_building_block (take metas (_pending_trx_metas b)) (take receipts (_pending_trx_receipts b)) (take actions (_actions b)).

Definition with_restore_point {A} (m : PM (A * bool)) : PM A := fun s =>
  let b := ps_block s in
  let restore s' := set_ps_block (cut_block (length (_pending_trx_metas b)) (length (_pending_trx_receipts b)) (length (_actions b))
                                    (ps_block s')) s' in
  match m s with
  | (Ok (a, cancel), s') => (Ok a, if cancel then s' else restore s')
  | (Err ex, s') => (Err ex, restore s')
  end.

(** ** Scheduled transactions *)
Definition remove_scheduled_transaction (gto : Z * deferred_object) : PM unit :=
  on_db_limits (add_pending_ram_usage (gto_payer gto.2) (s64 (- deferred_bytes gto.2)));;
  on_db_generated (index_remove gto.1).

Definition default_subjective_cpu_leeway_us : Z := 31000.
Definition onerror_name : Z := string_to_name [111; 110; 101; 114; 114; 111; 114].

Definition onerror_transaction (g : deferred_object) : transaction :=
  mk_transaction 0 0 0 0 0 0 []
    [mk_action system_account_name onerror_name [mk_pl (gto_sender g) active_name] (pack_onerror pc (gto_sender_id g) (gto_packed_trx g))] [].

Definition set_published p (c : trx_context K) : trx_context K :=
  set_flags (is_initialized c) (is_input c) (apply_context_free c) (scheduled c) p c.

(** The action of [onerror] goes to the sender. *)
Definition onerror_body (g : deferred_object) (etrx : transaction) : XM unit :=
  let e' := env_for true [] in
  on_trx (init_for_implicit_trx (ax_trx e') 0);;
  on_trx (modify (set_published (gto_published g)));;
  o ← (match last (actions etrx) with
       | Some act => trx_schedule_action act (gto_sender g) false 0 0
       | None => throw undefined_behaviour
       end);
  execute_action e' (execution_fuel e') o 0;;
  on_trx (finalize (ax_trx e')).

(** Receipt, actions and database of a context that has finished. *)
Definition retire (t : receipt_trx) (status : receipt_status) (x : exec_state (K := K)) : PM transaction_trace :=
  with_restore_point (
    r ← push_receipt t status (billed_cpu_time_us (cx_cpu (xs_trx x))) (trx_net_usage (cx_net (xs_trx x)));
    push_actions (executed x);;
    put_db x;;
    mret (set_tt_receipt r (context_trace x None), true)).

(** [try]: a failure comes back with the exception. *)
Definition try {A} (m : PM A) : PM (A + exn) := fun s =>
  match m s with
  | (Ok a, s') => (Ok (inl a), s')
  | (Err ex, s') => (Ok (inr ex), s')
  end.

(** The body has run; it is retired in the same [try]. *)
Definition try_retire (retire : exec_state (K := K) -> PM transaction_trace) (r : res unit * exec_state (K := K)) : PM (transaction_trace + exn) :=
  match r.1 with Ok _ => try (retire r.2) | Err ex => mret (inr ex) end.

(** [FC_CAPTURE_AND_RETHROW] *)
Definition capture_and_rethrow {A} (m : PM A) : PM A := fun s =>
  match m s with
  | (Ok a, s') => (Ok a, s')
  | (Err ex, s') => (Err (fc_rethrow e ex), s')
  end.

(** [catch]: what is not kept in the trace is thrown on. *)
Definition catch_failure (ex : exn) : PM unit := if kept_in_trace ex then mret tt else throw ex.

(** The trace, and the time to bill when it failed. *)
Definition apply_onerror (g : deferred_object) (deadline start billed : Z) (explicit enforce : bool) (cpu_time_to_bill_us : Z)
    : PM (transaction_trace * Z) :=
  let etrx := onerror_transaction g in
  let rq := mk_request etrx (transaction_id etrx) start deadline default_subjective_cpu_leeway_us explicit enforce in
  '(r, x) ← in_transaction rq billed (onerror_body g etrx);
  outcome ← try_retire (retire (receipt_id (gto_trx_id g)) status_soft_fail) (r, x);
  match outcome with
  | inl tr => mret (tr, cpu_time_to_bill_us)
  | inr ex =>
      catch_failure ex;;
      n ← read_clock;
      let '(cpu, _) := update_billed_cpu_time (ax_trx e) n (xs_trx x) in
      cpu ← lift cpu;
      mret (context_trace x (Some ex), cpu)
  end.

Definition actors_of (t : transaction) : list Z :=
  fold_left (fun actors auth => flat_insert (actor auth) actors) (concat (map authorization (actions t))) [].

Definition deferred_body (g : deferred_object) (dtrx : transaction) (enforce : bool) : XM unit :=
  let e' := env_for true [] in
  on_trx (init_for_deferred_trx (ax_trx e') (gto_published g));;
  (if enforce && is_producing_block view then lift (check_actor_list (conf view) (actors_of dtrx)) else mret tt);;
  trx_exec e';;
  on_trx (finalize (ax_trx e')).

(** What a producer bills for a hard failure. *)
Definition limit_hard_failure (c : trx_context K) (explicit : bool) (cpu : Z) : PM Z :=
  on_db_limits (update_account_usage (bill_to_accounts c) time_slot);;
  '(_, account_cpu_limit, _, _) ← on_db_limits (max_bandwidth_billed_accounts_can_pay (ax_trx e) true (bill_to_accounts c));
  let limited := u32 (Z.min (Z.min cpu account_cpu_limit) (initial_objective_duration_limit (cx_cpu c))) in
  massert (negb explicit || (cpu =? limited)) transaction_exception;;
  mret limited.

(** After a failure of [onerror], or without it. *)
Definition fail_scheduled (g : deferred_object) (c : trx_context K) (explicit : bool) (tr : transaction_trace) (ex : exn) (cpu : Z)
    : PM (transaction_trace * bool) :=
  let validating := negb (is_producing_block view) in
  let subjective := if validating then failure_is_subjective ex else scheduled_failure_is_subjective ex in
  if negb subjective then
    cpu ← (if negb validating then limit_hard_failure c explicit cpu else mret cpu);
    on_db_limits (add_transaction_usage (bill_to_accounts c) cpu 0 time_slot);;
    r ← push_receipt (receipt_id (gto_trx_id g)) status_hard_fail cpu 0;
    mret (set_tt_receipt r tr, true)
  else mret (tr, false).

Definition fail_or_onerror (g : deferred_object) (x : exec_state (K := K)) (deadline billed : Z) (explicit enforce : bool) (ex : exn)
    : PM (transaction_trace * bool) :=
  let c := xs_trx x in
  let validating := negb (is_producing_block view) in
  n ← read_clock;
  let '(cpu, _) := update_billed_cpu_time (ax_trx e) n c in
  cpu ← lift cpu;
  _ ← read_clock;
  let tr := context_trace x (Some ex) in
  if negb (gto_sender g =? 0) && negb (if validating then failure_is_subjective ex else scheduled_failure_is_subjective ex) then
    '(error_trace, cpu) ← apply_onerror g deadline (pseudo_start (cx_timer c)) billed explicit enforce cpu;
    let tr := set_failed_dtrx tr error_trace in
    match tt_except tr with
    | None => mret (tr, true)
    | Some ex => _ ← read_clock; fail_scheduled g c explicit tr ex cpu
    end
  else fail_scheduled g c explicit tr ex cpu.

Definition run_scheduled (g : deferred_object) (dtrx : transaction) (deadline billed : Z) (explicit : bool)
    : PM (transaction_trace * bool) :=
  let enforce := if gto_sender g =? 0 then true else negb (sender_avoids_allowlist_denylist_enforcement (conf view) (gto_sender g)) in
  n ← read_clock;
  '(r, x) ← in_transaction (mk_request dtrx (gto_trx_id g) n deadline 0 explicit enforce) billed (deferred_body g dtrx enforce);
  outcome ← try_retire (retire (receipt_id (gto_trx_id g)) status_executed) (r, x);
  match outcome with
  | inl tr => mret (tr, true)
  | inr ex => catch_failure ex;; fail_or_onerror g x deadline billed explicit enforce ex
  end.

(** A transaction that expired. *)
Definition expired_trace (g : deferred_object) (r : transaction_receipt_header) : transaction_trace :=
  mk_transaction_trace (gto_trx_id g) (Some r) 0 true [] None None.

Definition push_scheduled_object (gto : Z * deferred_object) (deadline billed : Z) (explicit : bool) : PM transaction_trace := capture_and_rethrow (
  massert (is_producing_block view || explicit) transaction_exception;;
  with_session view (
    remove_scheduled_transaction gto;;
    let g := gto.2 in
    massert (gto_delay_until g <=? block_time) transaction_exception;;
    dtrx ← lift (unpack_trx (gto_packed_trx g));
    if gto_expiration g <? block_time then
      r ← push_receipt (receipt_id (gto_trx_id g)) status_expired billed 0;
      mret (expired_trace g r, true)
    else run_scheduled g dtrx deadline billed explicit)).

Definition by_gto_trx_id (id : digest_type) (g : deferred_object) : bool := bool_decide (gto_trx_id g = id).

Definition push_scheduled_transaction (trxid : digest_type) (deadline billed : Z) (explicit : bool) : PM transaction_trace :=
  s ← get;
  match find_by (by_gto_trx_id trxid) (db_generated (ps_db s)) with
  | Some gto => push_scheduled_object gto deadline billed explicit
  | None => throw unknown_transaction_exception
  end.

(** ** Input and implicit transactions *)
Definition set_enforce (b : bool) (c : trx_context K) : trx_context K :=
  let rq := cx_request c in
  mk_trx_context (mk_request (trx rq) (trx_id rq) (start rq) (deadline rq) (leeway rq) (explicit_billed_cpu_time rq) b)
    (cx_net c) (cx_cpu c) (cx_timer c) (is_initialized c) (is_input c) (apply_context_free c) (scheduled c)
    (trx_published c) (delay c) (elapsed c) (bill_to_accounts c) (cx_native c) (cx_dedup c) (cx_summaries c).

(** The time that verifying the signatures took is billed, too. *)
Definition signature_start (n : Z) (explicit : bool) (sig_cpu_usage : Z) : Z :=
  if explicit then n
  else
    let already_consumed_time := u64 (sig_cpu_usage * sig_cpu_bill_pct pc) / 10000 in
    if n <? already_consumed_time then 0 else s64 (n - already_consumed_time).

Definition init_pushed (t : transaction_metadata) : XM unit :=
  let e' := env_for (in_trx_requiring_checks view) (st_context_free_data (unpacked_trx (tm_packed t))) in
  if tm_implicit t then on_trx (init_for_implicit_trx (ax_trx e') 0;; modify (set_enforce false))
  else
    let skip_recording :=
      match replay_head_time pc with Some n => seconds (trx_expiration (tm_trx t)) <=? n | None => false end in
    unprunable ← lift (get_unprunable_size (tm_packed t));
    prunable ← lift (get_prunable_size (tm_packed t));
    on_trx (init_for_input_trx (ax_trx e') unprunable prunable skip_recording).

Definition pushed_body (t : transaction_metadata) (check_auth : bool) : XM unit :=
  let e' := env_for (in_trx_requiring_checks view) (st_context_free_data (unpacked_trx (tm_packed t))) in
  init_pushed t;;
  let d := seconds (delay_sec (tm_trx t)) in
  on_trx (modify (set_delay d));;
  (if check_auth then
     x ← get;
     on_trx (check_authorization (checktime (ax_trx e')) (nc_auth nconf) (deferred_views x) (nd_auth (xs_native x))
               (actions (tm_trx t)) (recovered_keys t) [] d false [])
   else mret tt);;
  trx_exec e';;
  on_trx (finalize (ax_trx e')).

(** Whether a successful transaction stays in the block. *)
Definition keeps_transactions : bool := negb (negb (bool_decide (read_mode pc = SPECULATIVE)) && is_producing_block view).

Definition retire_pushed (t : transaction_metadata) (x : exec_state (K := K)) : PM transaction_trace :=
  with_restore_point (
    let cpu := billed_cpu_time_us (cx_cpu (xs_trx x)) in
    let net := trx_net_usage (cx_net (xs_trx x)) in
    r ← (if negb (tm_implicit t) then
           r ← push_receipt (receipt_packed (tm_packed t)) (if delay (xs_trx x) =? 0 then status_executed else status_delayed) cpu net;
           push_meta (set_tm_billed (u32 cpu) t);;
           mret r
         else mret (mk_receipt_header status_executed (u32 cpu) (u32 (net / 8))));
    push_actions (executed x);;
    (if keeps_transactions then put_db x else undo_context view x);;
    mret (set_tt_receipt r (context_trace x None), keeps_transactions)).

Definition push_transaction (t : transaction_metadata) (deadline billed : Z) (explicit : bool) : PM transaction_trace :=
  massert (negb (deadline =? 0)) transaction_exception;;
  capture_and_rethrow (
  n ← read_clock;
  let start := signature_start n explicit (signature_cpu_usage t) in
  let lee := match subjective_cpu_leeway pc with
             | Some l => if is_producing_block view then l else default_subjective_cpu_leeway_us
             | None => default_subjective_cpu_leeway_us
             end in
  let rq := mk_request (tm_trx t) (pt_trx_id (tm_packed t)) start deadline lee explicit true in
  '(r, x) ← in_transaction rq billed (pushed_body t (negb (skip_auth_check view) && negb (tm_implicit t)));
  outcome ← try_retire (retire_pushed t) (r, x);
  match outcome with
  | inl tr => mret tr
  | inr ex => undo_context view x;; catch_failure ex;; mret (context_trace x (Some ex))
  end).

(** The entry points of [controller]. *)
Definition controller_push_transaction (t : transaction_metadata) (deadline billed : Z) (explicit : bool) : PM transaction_trace :=
  massert (negb (bool_decide (read_mode pc = IRREVERSIBLE))) transaction_type_exception;;
  massert (negb (tm_implicit t) && negb (tm_scheduled t)) transaction_type_exception;;
  push_transaction t deadline billed explicit.

Definition controller_push_scheduled_transaction (trxid : digest_type) (deadline billed : Z) (explicit : bool) : PM transaction_trace :=
  massert (negb (bool_decide (read_mode pc = IRREVERSIBLE))) transaction_type_exception;;
  push_scheduled_transaction trxid deadline billed explicit.
End Push.
