(* ===== verification/PushOutcomes.v ===== *)
(** * What pushing a transaction leaves ([controller.cpp])

    Whatever happens in it, a transaction leaves a receipt and its effects, or
    neither; a scheduled transaction is retired in one of four ways, or stays. *)

From S2P Require Import Prelude Merkle Chainbase ResourceLimits Names Authority AuthorityChecker BlockHeader Authorization GlobalProperties EosioContract NativeState NativeRam Transaction TransactionChecks ChainConfig Timer TransactionContext ContractTables TableInvariant ApplyContext TransactionExec PushTransaction.
#[local] Open Scope Z_scope.

Section Outcomes.
Context {K Sig Key : Type} `{EqDecision K} `{unpacker K} `{contract_unpacker K} `{C : crypto} `{P : posix_timer}
  `{T : trx_codec Sig Key} `{softfloat} (e : apply_env (K := K)) (pc : push_config).
Abbreviation PS := (push_state (K := K) (Sig := Sig)).
Abbreviation TM := (transaction_metadata (K := K) (Sig := Sig)).
Implicit Types (t : TM) (s : PS) (x : exec_state (K := K)) (tr : transaction_trace) (g : deferred_object).
Abbreviation view := (te_view (ax_trx e)).
Abbreviation block_time := (pending_block_time (nc_auth (te_native (ax_trx e)))).

(** ** Database and block *)
Definition same_push : relation PS := fun s s' => ps_db s' = ps_db s /\ ps_block s' = ps_block s.
#[export] Instance same_push_preorder : PreOrder same_push.
Proof. split; unfold same_push; [done|]. intros s1 s2 s3 [-> ->] [-> ->]. done. Qed.

(** [block_extends]: one receipt and some actions more. *)
Definition block_extends (h : transaction_receipt_header) (rt : receipt_trx (Sig := Sig)) (acts : list action_receipt)
    (b b' : building_block (K := K)) : Prop :=
  _pending_trx_receipts b' = _pending_trx_receipts b ++ [mk_transaction_receipt h rt] /\ _actions b' = _actions b ++ acts
  /\ _pending_trx_metas b' = _pending_trx_metas b.

Lemma frame_read_clock : frames (always same_push) (read_clock e).
Proof. done. Qed.

Lemma in_transaction_spec rq billed body s (Q : res (res unit * exec_state) -> PS -> Prop) :
  (forall r x s', body (open_context rq billed s) = (r, x) -> same_push s s' -> Q (Ok (r, x)) s') ->
  ends (in_transaction rq billed body) Q s.
Proof. intros HQ. unfold ends, in_transaction. destruct (body _) as [r x]. by apply HQ. Qed.

(** A block with receipts and actions appended is cut back to itself. *)
Lemma cut_block_appended (b : building_block (K := K) (Sig := Sig)) metas receipts acts :
  cut_block (length (_pending_trx_metas b)) (length (_pending_trx_receipts b)) (length (_actions b))
    (mk_building_block (_pending_trx_metas b ++ metas) (_pending_trx_receipts b ++ receipts) (_actions b ++ acts)) = b.
Proof. unfold cut_block. cbn. rewrite !take_app_length. by destruct b. Qed.

(** A restore point around a program that only appends to the block. *)
Definition appends : relation PS := fun s s' => exists metas receipts acts,
  ps_block s' = mk_building_block (_pending_trx_metas (ps_block s) ++ metas) (_pending_trx_receipts (ps_block s) ++ receipts)
    (_actions (ps_block s) ++ acts).
#[export] Instance appends_preorder : PreOrder appends.
Proof.
  split; [intros s; exists [], [], []; rewrite !app_nil_r; by destruct (ps_block s)|].
  intros s1 s2 s3 (m & r & a & Hb) (m' & r' & a' & Hb'). exists (m ++ m'), (r ++ r'), (a ++ a').
  rewrite Hb', Hb. cbn. by rewrite !app_assoc.
Qed.

Lemma appends_same s s' : ps_block s' = ps_block s -> appends s s'.
Proof. intros Hb. exists [], [], []. rewrite !app_nil_r, Hb. by destruct (ps_block s). Qed.

Lemma restore_point_spec {A} (m : M PS (A * bool)) s (Q : res A -> PS -> Prop) : frames (always appends) m ->
  ends m (fun r s1 =>
    match r with
    | Ok (a, true) => Q (Ok a) s1
    | Ok (a, false) => forall s', ps_db s' = ps_db s1 -> ps_block s' = ps_block s -> Q (Ok a) s'
    | Err ex => forall s', ps_db s' = ps_db s1 -> ps_block s' = ps_block s -> Q (Err ex) s'
    end) s ->
  ends (with_restore_point m) Q s.
Proof.
  intros Hf. specialize (Hf s). unfold ends, with_restore_point. destruct (m s) as [r s1]. destruct Hf as (me & re & ac & Hb). cbn in *.
  assert (Hcut : cut_block (length (_pending_trx_metas (ps_block s))) (length (_pending_trx_receipts (ps_block s)))
    (length (_actions (ps_block s))) (ps_block s1) = ps_block s) by (rewrite Hb; apply cut_block_appended).
  destruct r as [[a []]|ex]; intros HQ; [exact HQ|apply HQ; [done|exact Hcut]..].
Qed.

Lemma frame_push_receipt rt status cpu net : frames (always appends) (push_receipt rt status cpu net).
Proof.
  unfold push_receipt. frame_auto. apply frame_modify. intros s. eexists [], [_], []. cbn. by rewrite !app_nil_r.
Qed.
Lemma frame_push_actions l : frames (always appends) (push_actions l).
Proof. apply frame_modify. intros s. exists [], [], l. cbn. by rewrite !app_nil_r. Qed.
Lemma frame_push_meta t : frames (always appends) (push_meta t).
Proof. apply frame_modify. intros s. exists [t], [], []. cbn. by rewrite !app_nil_r. Qed.
Lemma frame_put_db x : frames (always appends) (put_db x).
Proof. apply frame_modify. intros s. by apply appends_same. Qed.
Lemma frame_undo_context x : frames (always appends) (undo_context view x).
Proof. unfold undo_context. destruct (skip_db_sessions view); [apply frame_put_db|by apply frame_ret]. Qed.
#[local] Hint Resolve frame_push_receipt frame_push_actions frame_push_meta frame_put_db frame_undo_context : frames.

Lemma push_receipt_spec rt status cpu net s (Q : res transaction_receipt_header -> PS -> Prop) :
  (forall s', let h := mk_receipt_header status (u32 cpu) (u32 (net / 8)) in
     ps_db s' = ps_db s -> block_extends h rt [] (ps_block s) (ps_block s') -> Q (Ok h) s') ->
  Q (Err transaction_exception) s -> ends (push_receipt rt status cpu net) Q s.
Proof.
  intros Hok Herr. unfold push_receipt. apply ends_bind, ends_massert; intros _; [|exact Herr].
  apply Hok; [done|]. split; [done|]. cbn. by rewrite app_nil_r.
Qed.

(** *** A context that has finished *)
Definition header_of status x : transaction_receipt_header :=
  mk_receipt_header status (u32 (billed_cpu_time_us (cx_cpu (xs_trx x)))) (u32 (trx_net_usage (cx_net (xs_trx x)) / 8)).

Definition retired_trace (h : transaction_receipt_header) x tr : Prop :=
  tt_receipt tr = Some h /\ tt_except tr = None /\ tt_action_traces tr = action_traces x.

Lemma retire_spec rt status x s (Q : res transaction_trace -> PS -> Prop) :
  (forall tr s', retired_trace (header_of status x) x tr -> ps_db s' = db_of x ->
     block_extends (header_of status x) rt (executed x) (ps_block s) (ps_block s') -> Q (Ok tr) s') ->
  (forall ex s', same_push s s' -> Q (Err ex) s') -> ends (retire rt status x) Q s.
Proof.
  intros Hok Herr. unfold retire. apply restore_point_spec; [frame_auto|].
  apply ends_bind, push_receipt_spec; [|intros s' Hd Hb; apply Herr; by split].
  intros s1 h Hd (Hr & Ha & Hm). apply Hok; [by split_and!|done|]. split; [done|]. split; [|exact Hm]. change (_actions (ps_block s1) ++ executed x = _actions (ps_block s) ++ executed x). by rewrite Ha, app_nil_r.
Qed.

(** [try]: its body either retired the context, or nothing has changed. *)
Lemma try_retire_spec (f : exec_state -> M PS transaction_trace) r x s (Q : res (transaction_trace + exn) -> PS -> Prop) :
  (r = Ok tt -> ends (f x) (fun o s' => match o with Ok tr => Q (Ok (inl tr)) s' | Err ex => Q (Ok (inr ex)) s' end) s) ->
  (forall ex, r = Err ex -> Q (Ok (inr ex)) s) -> ends (try_retire f (r, x)) Q s.
Proof.
  intros Hok Herr. unfold try_retire, ends. cbn. destruct r as [[]|ex]; [|by apply Herr].
  specialize (Hok eq_refl). unfold ends, try in *. by destruct (f x s) as [[tr|ex] s'].
Qed.

Lemma rethrow_spec {A} (m : M PS A) s (Q : res A -> PS -> Prop) :
  ends m (fun r s' => match r with Ok a => Q (Ok a) s' | Err ex => Q (Err (fc_rethrow e ex)) s' end) s ->
  ends (capture_and_rethrow e m) Q s.
Proof. unfold ends, capture_and_rethrow. by destruct (m s) as [[a|ex] s']. Qed.

(** ** Scheduled transactions *)
Definition scheduled_subjective (ex : exn) : bool :=
  if is_producing_block view then scheduled_failure_is_subjective ex else failure_is_subjective ex.

(** Billing changes the resource limits only. *)
Definition with_limits m (d : chain_db (K := K)) : chain_db := set_db_native (set_nd_limits m (db_native d)) d.
Definition limits_only : relation PS := fun s s' => ps_block s' = ps_block s /\ exists m, ps_db s' = with_limits m (ps_db s).

#[export] Instance limits_only_preorder : PreOrder limits_only.
Proof.
  split; [intros s; split; [done|]; exists (nd_limits (db_native (ps_db s))); by destruct s as [[? ? ? []]]|].
  intros s1 s2 s3 [Hb [m Hm]] [Hb' [m' Hm']]. split; [congruence|]. exists m'. rewrite Hm', Hm. done.
Qed.

Lemma frame_on_db_limits {A} (m : M resource_limits_manager A) : frames (always limits_only) (on_db_limits m : M PS A).
Proof.
  intros s. unfold on_db_limits, on_db_native, on_db, on_limits, zoom, focus. destruct (m _) as [r l]. split; [done|]. by exists l.
Qed.
#[local] Hint Resolve frame_on_db_limits : frames.

Lemma frame_limit_hard_failure c explicit cpu : frames (always limits_only) (limit_hard_failure e c explicit cpu : M PS Z).
Proof. unfold limit_hard_failure. frame_auto. Qed.
#[local] Hint Resolve frame_limit_hard_failure : frames.

Lemma subjective_eq ex :
  (if negb (is_producing_block view) then failure_is_subjective ex else scheduled_failure_is_subjective ex) = scheduled_subjective ex.
Proof. unfold scheduled_subjective. by destruct (is_producing_block view). Qed.

Lemma fail_scheduled_spec g c explicit tr ex cpu s :
  ends (fail_scheduled e g c explicit tr ex cpu) (fun r s' =>
    match r with
    | Ok (tr', true) => scheduled_subjective ex = false /\ exists h m, tr' = set_tt_receipt h tr /\ rh_status h = status_hard_fail
        /\ ps_db s' = with_limits m (ps_db s) /\ block_extends h (receipt_id (gto_trx_id g)) [] (ps_block s) (ps_block s')
    | Ok (tr', false) => tr' = tr /\ s' = s /\ scheduled_subjective ex = true
    | Err _ => ps_block s' = ps_block s
    end) s.
Proof.
  unfold fail_scheduled. rewrite subjective_eq. destruct (scheduled_subjective ex); cbn [negb]; [done|].
  apply ends_bind, (ends_always limits_only); [frame_auto|]. intros [cpu'|ex'] s1 [Hb1 [m1 Hm1]]; [|done].
  apply ends_bind, (ends_always limits_only); [frame_auto|]. intros [u|ex'] s2 [Hb2 [m2 Hm2]]; [|congruence].
  apply ends_bind, push_receipt_spec; [|congruence]. intros s3 h Hd Hx. split; [done|]. exists h, m2. split_and!; try done.
  - etrans; [exact Hd|]. by rewrite Hm2, Hm1.
  - rewrite Hb2, Hb1 in Hx. exact Hx.
Qed.

(** Transaction [t] with id [id] ran successfully from database [d]. *)
Definition runs_from (t : transaction) (id : digest_type) (d : chain_db) (body : M exec_state unit) x : Prop :=
  exists s rq billed, ps_db s = d /\ trx rq = t /\ trx_id rq = id /\ body (open_context rq billed s) = (Ok tt, x).

Definition onerror_outcome g s (r : res (transaction_trace * Z)) s' : Prop :=
  match r with
  | Ok (tr, _) =>
      (exists x, runs_from (onerror_transaction pc g) (transaction_id (onerror_transaction pc g)) (ps_db s) (onerror_body e g (onerror_transaction pc g)) x
         /\ retired_trace (header_of status_soft_fail x) x tr /\ ps_db s' = db_of x
         /\ block_extends (header_of status_soft_fail x) (receipt_id (gto_trx_id g)) (executed x) (ps_block s) (ps_block s'))
      \/ (exists ex, tt_except tr = Some ex /\ kept_in_trace ex = true /\ tt_receipt tr = None /\ same_push s s')
  | Err _ => same_push s s'
  end.

Lemma onerror_failed g ex x s0 s : same_push s0 s ->
  ends (catch_failure ex;; n ← read_clock e; let '(cpu, _) := update_billed_cpu_time (ax_trx e) n (xs_trx x) in
        cpu ← lift cpu; mret (context_trace x (Some ex), cpu)) (onerror_outcome g s0) s.
Proof.
  intros Hs. unfold catch_failure. destruct (kept_in_trace ex) eqn:Ek; [|done]. unfold ends, read_clock. mrun.
  destruct (update_billed_cpu_time _ _ _) as [[cpu|ex'] c]; cbn; [|done]. right. exists ex. by split_and!.
Qed.

Lemma apply_onerror_spec g deadline start billed explicit enforce cpu s :
  ends (apply_onerror e pc g deadline start billed explicit enforce cpu) (onerror_outcome g s) s.
Proof.
  unfold apply_onerror. apply ends_bind, in_transaction_spec. intros r x s1 Hr Hs1. pose proof Hs1 as [Hd1 Hb1].
  apply ends_bind, try_retire_spec.
  - intros ->. apply retire_spec.
    + intros tr s2 Htr Hd2 Hb2. left. exists x. rewrite Hb1 in Hb2. split; [eexists s, _, _; split_and!; [| | |exact Hr]; done|]. split; [exact Htr|]. split; [exact Hd2|exact Hb2].
    + intros ex s2 Hs2. apply onerror_failed. by trans s1.
  - intros ex ->. by apply onerror_failed.
Qed.

(** The ways in which a scheduled transaction leaves the database [d], from
    which its object is removed, and the block [b]. *)
Inductive retirement g (d : chain_db) (b : building_block) tr s' : Prop :=
| retirement_expired h : gto_expiration g < block_time -> rh_status h = status_expired -> tt_receipt tr = Some h ->
    tt_except tr = None -> ps_db s' = d -> block_extends h (receipt_id (gto_trx_id g)) [] b (ps_block s') ->
    retirement g d b tr s'
| retirement_executed dtrx enforce x : unpack_trx (gto_packed_trx g) = Ok dtrx -> runs_from dtrx (gto_trx_id g) d (deferred_body e g dtrx enforce) x ->
    retired_trace (header_of status_executed x) x tr -> ps_db s' = db_of x ->
    block_extends (header_of status_executed x) (receipt_id (gto_trx_id g)) (executed x) b (ps_block s') ->
    retirement g d b tr s'
| retirement_soft_fail x : gto_sender g <> 0 -> runs_from (onerror_transaction pc g) (transaction_id (onerror_transaction pc g)) d (onerror_body e g (onerror_transaction pc g)) x ->
    retired_trace (header_of status_soft_fail x) x tr -> ps_db s' = db_of x ->
    block_extends (header_of status_soft_fail x) (receipt_id (gto_trx_id g)) (executed x) b (ps_block s') ->
    retirement g d b tr s'
| retirement_hard_fail h m ex : tt_except tr = Some ex -> kept_in_trace ex = true -> scheduled_subjective ex = false ->
    rh_status h = status_hard_fail -> tt_receipt tr = Some h -> ps_db s' = with_limits m d ->
    block_extends h (receipt_id (gto_trx_id g)) [] b (ps_block s') -> retirement g d b tr s'.

(** [squashed]: the outcome of the body of the session. *)
Definition squashed g (d : chain_db) (b : building_block) (r : res (transaction_trace * bool)) s' : Prop :=
  match r with
  | Ok (tr, true) => retirement g d b tr s'
  | Ok (tr, false) => ps_block s' = b /\ tt_receipt tr = None /\ exists ex, tt_except tr = Some ex /\ scheduled_subjective ex = true
  | Err _ => ps_block s' = b
  end.

Lemma fail_scheduled_squashed g c explicit tr ex cpu s d b : tt_except tr = Some ex -> kept_in_trace ex = true -> tt_receipt tr = None ->
  ps_db s = d -> ps_block s = b -> ends (fail_scheduled e g c explicit tr ex cpu) (squashed g d b) s.
Proof.
  intros Hex Hk Hrc <- <-. eapply ends_mono; [|apply fail_scheduled_spec]. intros [[tr' []]|ex'] s'; cbn; [| |done].
  - intros (Hs & h & m & -> & Hst & Hd & Hb). by eapply retirement_hard_fail.
  - intros (-> & -> & Hs). eauto.
Qed.

Lemma fail_or_onerror_spec g x deadline billed explicit enforce ex s : kept_in_trace ex = true ->
  ends (fail_or_onerror e pc g x deadline billed explicit enforce ex) (squashed g (ps_db s) (ps_block s)) s.
Proof.
  intros Hk. unfold fail_or_onerror. apply ends_bind, (ends_always same_push); [done|]. intros [n|ex'] s1 [Hd1 Hb1]; [|done].
  destruct (update_billed_cpu_time _ _ _) as [cpu c]. apply ends_bind, ends_lift. destruct cpu as [cpu|ex']; [|done].
  apply ends_bind, (ends_always same_push); [done|]. intros [n'|ex'] s2 [Hd2 Hb2]; [|by cbn; congruence].
  rewrite subjective_eq. destruct (negb (gto_sender g =? 0) && negb (scheduled_subjective ex)) eqn:Ec;
    [|apply fail_scheduled_squashed; done || congruence].
  apply andb_true_iff in Ec as [Hsender _]. apply ends_bind. eapply ends_mono; [|apply apply_onerror_spec].
  intros [[tr cpu']|ex'] s3; cbn [onerror_outcome]; [|intros [_ Hb3]; cbn; congruence].
  rewrite Hd2, Hd1, Hb2, Hb1. intros [(x' & Hrun & (Hr & Hn & Ha) & Hd3 & Hb3)|(ex' & Hex & Hk' & Hrc & Hd3 & Hb3)].
  - cbn [tt_except set_failed_dtrx]. rewrite Hn. apply (retirement_soft_fail _ _ _ _ _ x'); try done. btests. lia.
  - cbn [tt_except set_failed_dtrx]. rewrite Hex. apply ends_bind, (ends_always same_push); [done|].
    intros [n''|ex''] s4 [Hd4 Hb4]; [|cbn; congruence]. apply fail_scheduled_squashed; done || congruence.
Qed.

Lemma run_scheduled_spec g dtrx deadline billed explicit s : unpack_trx (gto_packed_trx g) = Ok dtrx ->
  ends (run_scheduled e pc g dtrx deadline billed explicit) (squashed g (ps_db s) (ps_block s)) s.
Proof.
  intros Hu. unfold run_scheduled. apply ends_bind, (ends_always same_push); [done|]. intros [n|ex'] s1 [Hd1 Hb1]; [|done].
  apply ends_bind, in_transaction_spec. intros r x s2 Hr [Hd2 Hb2].
  assert (Hfail : forall ex s3, same_push s2 s3 ->
    ends (catch_failure ex;; fail_or_onerror e pc g x deadline billed explicit
      (if gto_sender g =? 0 then true else negb (sender_avoids_allowlist_denylist_enforcement (conf view) (gto_sender g))) ex)
      (squashed g (ps_db s) (ps_block s)) s3).
  { intros ex s3 [Hd3 Hb3]. unfold catch_failure. destruct (kept_in_trace ex) eqn:Ek; [|change (ps_block s3 = ps_block s); congruence].
    rewrite <- Hd1, <- Hb1, <- Hd2, <- Hb2, <- Hd3, <- Hb3. by apply fail_or_onerror_spec. }
  apply ends_bind, try_retire_spec; [|intros ex ->; by apply Hfail].
  intros ->. apply retire_spec; [|intros ex s3 Hs3; by apply Hfail].
  intros tr s3 Htr Hd3 Hb3. rewrite Hb2, Hb1 in Hb3.
  eapply (retirement_executed _ _ _ _ _ dtrx _ x); [done| |exact Htr|exact Hd3|exact Hb3]. eexists s1, _, _; split_and!; [| | |exact Hr]; done.
Qed.

(** Without a receipt, nothing has changed. *)
Definition scheduled_outcome (id : digest_type) s (r : res transaction_trace) s' : Prop :=
  match r with
  | Err _ => same_push s s'
  | Ok tr => exists gto s1, find_by (by_gto_trx_id id) (db_generated (ps_db s)) = Some gto
      /\ remove_scheduled_transaction gto s = (Ok tt, s1)
      /\ ((tt_receipt tr = None /\ (exists ex, tt_except tr = Some ex /\ scheduled_subjective ex = true) /\ same_push s s')
          \/ retirement gto.2 (ps_db s1) (ps_block s) tr s')
  end.

Definition same_block : relation PS := fun s s' => ps_block s' = ps_block s.
#[export] Instance same_block_preorder : PreOrder same_block.
Proof. split; unfold same_block; [done|]. intros s1 s2 s3 -> ->. done. Qed.

Lemma frame_on_db {A} (m : M chain_db A) : frames (always same_block) (on_db m : M PS A).
Proof. intros s. unfold on_db, focus. by destruct (m _). Qed.

Lemma frame_remove_scheduled gto : frames (always same_block) (remove_scheduled_transaction gto : M PS unit).
Proof. unfold remove_scheduled_transaction. frame_auto; apply frame_on_db. Qed.

(** The session of a scheduled transaction. *)
Lemma with_session_spec (m : M PS (transaction_trace * bool)) s (Q : res transaction_trace -> PS -> Prop) : skip_db_sessions view = false ->
  ends m (fun r s1 =>
    match r with
    | Ok (tr, true) => Q (Ok tr) s1
    | Ok (tr, false) => Q (Ok tr) (set_ps_db (ps_db s) s1)
    | Err ex => Q (Err ex) (set_ps_db (ps_db s) s1)
    end) s -> ends (with_session view m) Q s.
Proof. intros Hs. unfold ends, with_session. rewrite Hs. by destruct (m s) as [[[tr []]|ex] s1]. Qed.

Lemma push_scheduled_ends id deadline billed explicit s : skip_db_sessions view = false ->
  ends (push_scheduled_transaction e pc id deadline billed explicit) (scheduled_outcome id s) s.
Proof.
  intros Hskip. unfold push_scheduled_transaction. apply ends_bind. cbn.
  destruct (find_by (by_gto_trx_id id) (db_generated (ps_db s))) as [gto|] eqn:Ef; [|done].
  unfold push_scheduled_object. refine (rethrow_spec _ s (scheduled_outcome id s) _). apply ends_bind, ends_massert; intros _; [|done].
  apply with_session_spec; [done|]. apply ends_bind. unfold ends.
  pose proof (frame_remove_scheduled gto s) as Hb. unfold always, same_block in Hb.
  destruct (remove_scheduled_transaction gto s) as [[[]|ex] s1] eqn:Er; cbn in Hb; [|by split].
  apply ends_bind, ends_massert; intros _; [|by split].
  apply ends_bind, ends_lift. destruct (unpack_trx _) as [dtrx|ex] eqn:Eu; [|by split].
  destruct (Z.ltb_spec (gto_expiration gto.2) block_time) as [Hexp|_].
  - apply ends_bind, push_receipt_spec; [|by split]. intros s2 h Hd Hx. exists gto, s1.
    split_and!; [done..|]. right. apply (retirement_expired _ _ _ _ _ h); try done. rewrite <- Hb. exact Hx.
  - eapply ends_mono; [|by apply run_scheduled_spec]. cbn. rewrite Hb. intros [[tr []]|ex] s2; cbn [squashed].
    + intros Hr. exists gto, s1. auto.
    + intros (Hb2 & Hrc & Hex). exists gto, s1. split_and!; [done..|]. left. split_and!; done.
    + by split.
Qed.

(** ** Input and implicit transactions *)
Definition pushed_status t x : receipt_status :=
  if tm_implicit t then status_executed else if TransactionContext.delay (xs_trx x) =? 0 then status_executed else status_delayed.

(** In the block: the receipt and the metadata of an input transaction, and the
    actions; an implicit one only has actions. *)
Definition pushed_block t (h : transaction_receipt_header) x
    (b : building_block (K := K) (Sig := Sig)) : building_block (K := K) (Sig := Sig) :=
  if tm_implicit t then mk_building_block (_pending_trx_metas b) (_pending_trx_receipts b) (_actions b ++ executed x)
  else mk_building_block (_pending_trx_metas b ++ [set_tm_billed (rh_cpu_usage_us h) t])
         (_pending_trx_receipts b ++ [mk_transaction_receipt h (receipt_packed (tm_packed t))]) (_actions b ++ executed x).

Definition pushed_outcome t s (r : res transaction_trace) s' : Prop :=
  match r with
  | Err _ => same_push s s'
  | Ok tr =>
      (exists ex, tt_except tr = Some ex /\ kept_in_trace ex = true /\ tt_receipt tr = None /\ same_push s s')
      \/ exists x, runs_from (tm_trx t) (pt_trx_id (tm_packed t)) (ps_db s) (pushed_body e pc t (negb (skip_auth_check view) && negb (tm_implicit t))) x
           /\ retired_trace (header_of (pushed_status t x) x) x tr
           /\ if keeps_transactions e pc
              then ps_db s' = db_of x /\ ps_block s' = pushed_block t (header_of (pushed_status t x) x) x (ps_block s)
              else same_push s s'
  end.

Lemma retire_pushed_spec t x s (Q : res transaction_trace -> PS -> Prop) : skip_db_sessions view = false ->
  (forall tr s', retired_trace (header_of (pushed_status t x) x) x tr ->
     (if keeps_transactions e pc
      then ps_db s' = db_of x /\ ps_block s' = pushed_block t (header_of (pushed_status t x) x) x (ps_block s)
      else same_push s s') -> Q (Ok tr) s') ->
  (forall ex s', same_push s s' -> Q (Err ex) s') -> ends (retire_pushed e pc t x) Q s.
Proof.
  intros Hskip Hok Herr. unfold retire_pushed. apply restore_point_spec; [frame_auto|].
  set (h := header_of (pushed_status t x) x) in *.
  assert (Htail : forall s1, ps_db s1 = ps_db s ->
    mk_building_block (_pending_trx_metas (ps_block s1)) (_pending_trx_receipts (ps_block s1)) (_actions (ps_block s1) ++ executed x)
      = pushed_block t h x (ps_block s) ->
    ends (push_actions (executed x);; (if keeps_transactions e pc then put_db x else undo_context view x);;
          mret (set_tt_receipt h (context_trace x None), keeps_transactions e pc)) (fun r s' =>
      match r with
      | Ok (a, true) => Q (Ok a) s'
      | Ok (a, false) => forall s'', ps_db s'' = ps_db s' -> ps_block s'' = ps_block s -> Q (Ok a) s''
      | Err ex => forall s'', ps_db s'' = ps_db s' -> ps_block s'' = ps_block s -> Q (Err ex) s''
      end) s1).
  { intros s1 Hd Hb. unfold undo_context. rewrite Hskip. destruct (keeps_transactions e pc).
    - apply Hok; [done|]. split; [done|exact Hb].
    - intros s'' Hd' Hb'. apply Hok; [done|]. split; [|done]. rewrite Hd'. exact Hd. }
  apply ends_bind. unfold h, header_of, pushed_status, pushed_block in Htail |- *. destruct (tm_implicit t) eqn:Ei; cbn [negb].
  - apply (Htail s); done.
  - apply ends_bind. unfold push_receipt. apply ends_bind, ends_massert; intros _;
      [apply Htail; done|intros s' Hd Hb; apply Herr; by split].
Qed.

Lemma push_transaction_ends t deadline billed explicit s : skip_db_sessions view = false ->
  ends (push_transaction e pc t deadline billed explicit) (pushed_outcome t s) s.
Proof.
  intros Hskip. unfold push_transaction. apply ends_bind, ends_massert; intros _; [|done].
  apply rethrow_spec, ends_bind, (ends_always same_push); [done|]. intros [n|ex] s1 [Hd1 Hb1]; [|done].
  apply ends_bind, in_transaction_spec. intros r x s2 Hr [Hd2 Hb2].
  assert (Hfail : forall ex s3, same_push s2 s3 ->
    ends (undo_context view x;; catch_failure ex;; mret (context_trace x (Some ex))) (pushed_outcome t s) s3).
  { intros ex s3 [Hd3 Hb3]. unfold undo_context. rewrite Hskip. unfold catch_failure.
    destruct (kept_in_trace ex) eqn:Ek; [left; exists ex; split_and!; try done|];
      (split; [change (ps_db s3 = ps_db s)|change (ps_block s3 = ps_block s)]; congruence). }
  apply ends_bind, try_retire_spec; [|intros ex ->; by apply Hfail].
  intros ->. apply retire_pushed_spec; [done| |intros ex s3 Hs3; by apply Hfail].
  intros tr s3 Htr Hs3. right. exists x. split; [eexists s1, _, _; split_and!; [| | |exact Hr]; done|]. split; [exact Htr|].
  rewrite Hb2, Hb1 in Hs3. destruct (keeps_transactions e pc); [exact Hs3|]. destruct Hs3.
  split; [change (ps_db s3 = ps_db s)|change (ps_block s3 = ps_block s)]; congruence.
Qed.
End Outcomes.

Section Claims.
Context {K Sig Key : Type} `{EqDecision K} `{unpacker K} `{contract_unpacker K} `{C : crypto} `{P : posix_timer}
  `{T : trx_codec Sig Key} `{softfloat} (e : apply_env (K := K)) (pc : push_config).

(** C7: Pushing a transaction is all or nothing.  When it fails - with an
    exception, or with a trace that holds one - database and block are as
    before.  Otherwise the whole of it ran from the database as it was, the
    trace has its receipt and its actions, and, in a read mode and a block that
    keep transactions, the database is the one that the run left and the block
    has exactly its receipt, its metadata and its action receipts more (an
    implicit transaction only has action receipts). *)
Theorem push_transaction_atomic (t : transaction_metadata) (deadline billed : Z) (explicit : bool) (s : push_state (K := K) (Sig := Sig)) :
  skip_db_sessions (te_view (ax_trx e)) = false ->
  let '(r, s') := push_transaction e pc t deadline billed explicit s in pushed_outcome e pc t s r s'.
Proof.
  intros Hs. pose proof (push_transaction_ends e pc t deadline billed explicit s Hs) as Ho. unfold ends in Ho.
  by destruct (push_transaction _ _ _ _ _ _ s).
Qed.

End Claims.

(** ** A concrete block *)
#[local] Existing Instance ieee.
Definition push_summaries : generic_index digest_type := (emplace (fun _ _ => false) (mk_digest 1 77 0 0) index_empty).2.
Definition push_trx : transaction := mk_transaction 100 0 77 100 5 0 [] (actions billing_trx) [].
Definition push_packed : packed_transaction Z :=
  ok_or (mk_packed [] 0 [] [] no_signed_trx zero_digest) (packed_of_signed (mk_signed_trx push_trx [5] []) compression_none).
Definition push_input : transaction_metadata (K := Z) := mk_metadata_of push_packed 0 [5] false false 0.
Definition push_conf : push_config := mk_push_config SPECULATIVE 0 None None (fun s l => s :: l).
Definition push_id : digest_type := mk_digest 3 0 0 0.
Definition push_deferred : deferred_object := mk_deferred push_id alice 1 alice 0 4000000000000000 0 (pack_trx billing_trx).
Definition push_start : push_state (K := Z) (Sig := Z) :=
  mk_push_state (mk_chain_db index_empty index_empty (fun _ => index_empty) billing_db index_empty push_summaries
    (emplace deferred_conflict push_deferred index_empty).2 41 gpo_default) (mk_building_block [] [] []) timer_new 0.
Definition push_run : res transaction_trace * push_state :=
  push_transaction exec_env push_conf push_input time_point_maximum 0 false push_start.
Definition scheduled_run : res transaction_trace * push_state :=
  push_scheduled_transaction exec_env push_conf push_id time_point_maximum 0 false push_start.

Definition receipt_kind (r : res transaction_trace) : option receipt_status :=
  match r with Ok tr => rh_status <$> tt_receipt tr | Err _ => None end.

Lemma push_transaction_atomic_witness :
  receipt_kind push_run.1 = Some status_executed /\ length (_pending_trx_receipts (ps_block push_run.2)) = 1%nat
  /\ pushed_outcome exec_env push_conf push_input push_start push_run.1 push_run.2.
Proof.
  split; [by vm_compute|]. split; [by vm_compute|].
  pose proof (push_transaction_atomic exec_env push_conf push_input time_point_maximum 0 false push_start eq_refl) as Ho.
  unfold push_run. destruct (push_transaction _ _ _ _ _ _ _) as [r s']. exact Ho.
Defined.

