(* ===== verification/PushSafety.v ===== *)
(** * No transaction is executed twice ([controller.cpp])

    In a block under construction, however many transactions are pushed and
    however they end: an input transaction is accepted once, and a scheduled
    transaction is retired once. *)

From S2P Require Import Prelude Merkle Chainbase ResourceLimits Names Authority AuthorityChecker BlockHeader Authorization GlobalProperties EosioContract NativeState NativeRam Transaction TransactionChecks ChainConfig Timer TransactionContext ContractTables TableInvariant ApplyContext ExecFrames ExecTraces ExecParts TransactionExec PushTransaction PushOutcomes.
#[local] Open Scope Z_scope.

(** ** How the table of scheduled transactions evolves *)

(** Keys are not used again. *)
Record evolves (g g' : generic_index deferred_object) : Prop := {
  ev_next : _next_id g <= _next_id g';
  ev_old k o : k < _next_id g -> _indices g' !! k = Some o -> _indices g !! k = Some o;
  ev_below : (forall k o, _indices g !! k = Some o -> k < _next_id g) -> forall k o, _indices g' !! k = Some o -> k < _next_id g' }.

#[export] Instance evolves_preorder : PreOrder evolves.
Proof.
  split; [intros g; by split|]. intros g1 g2 g3 [Hn Ho Hb] [Hn' Ho' Hb']. split; [lia| |exact (fun Hall => Hb' (Hb Hall))].
  intros k o Hk Hl. apply Ho; [done|]. apply Ho'; [lia|done].
Qed.

Lemma evolves_emplace o g : evolves g (emplace deferred_conflict o g).2.
Proof.
  destruct (emplace deferred_conflict o g) as [r g'] eqn:E. apply emplace_inv in E as [[_ ->]|(_ & _ & _ & Hi & Hn)]; [done|]. cbn.
  split; [lia| |].
  - intros k x Hk. rewrite Hi, lookup_insert_ne by lia. done.
  - intros Hb k x. rewrite Hi, Hn. intros [[<- _]|[_ Hx%Hb]]%lookup_insert_Some; lia.
Qed.

Lemma evolves_remove id g : evolves g (index_remove id g).2.
Proof.
  destruct (_indices g !! id) as [b|] eqn:Eb; [|unfold index_remove; by rewrite Eb].
  destruct (index_remove id g) as [r g'] eqn:E. destruct (index_remove_inv _ _ _ _ _ Eb E) as (_ & Hi & Hn). cbn.
  split; [lia| |].
  - intros k x _. rewrite Hi. by intros [_ ?]%lookup_delete_Some.
  - intros Hb k x. rewrite Hi, Hn. intros [_ Hx%Hb]%lookup_delete_Some. done.
Qed.

Section Safety.
Context {K Sig Key : Type} `{EqDecision K} `{unpacker K} `{contract_unpacker K} `{C : crypto} `{P : posix_timer}
  `{T : trx_codec Sig Key} `{softfloat}.
Implicit Types (x : exec_state (K := K)) (c : trx_context K).

(** ** The two parts of an execution *)
Definition deduped x : generic_index transaction_object := cx_dedup (xs_trx x).

#[export] Instance dedup_quiet : quiet_part deduped eq.
Proof.
  split; try done.
  - intros receiver op. eapply frame_focus; [|apply (frame_run_table_op (along cx_dedup (always eq)))]; [done|].
    intros a delta c. unfold along, always. cbn. unfold on_native. by destruct (add_ram_usage _ _ _).
  - intros A m Hm s. specialize (Hm (xs_trx s)). unfold on_trx, focus. destruct (m _) as [r c]. by destruct Hm as (_ & _ & Hd).
  - intros o. by apply frame_apart_focus; [apply _|].
  - intros id. by apply frame_apart_focus; [apply _|].
Qed.

#[export] Instance generated_quiet : quiet_part (xs_generated (K := K)) evolves.
Proof.
  split; try done.
  - intros receiver op. by apply frame_apart_focus; [apply _|].
  - intros A m _. by apply frame_apart_focus; [apply _|].
  - intros o s. unfold on_generated, focus, along, always. pose proof (evolves_emplace o (xs_generated s)). by destruct (emplace _ _ _).
  - intros id s. unfold on_generated, focus, along, always. pose proof (evolves_remove id (xs_generated s)). by destruct (index_remove _ _).
Qed.

Lemma frame_schedule_generated e : frames (along xs_generated (always evolves)) (schedule_transaction (K := K) e).
Proof.
  unfold schedule_transaction. frame_auto; [apply qp_trx; [apply _|apply frame_add_net_usage]|apply qp_emplace, _|by apply frame_apart_focus; [apply _|]].
Qed.
Lemma frame_schedule_dedup e : frames (along deduped (always eq)) (schedule_transaction (K := K) e).
Proof.
  unfold schedule_transaction. frame_auto; [apply qp_trx; [apply _|apply frame_add_net_usage]|apply qp_emplace, _|by apply frame_apart_focus; [apply _|]].
Qed.

(** ** The transaction context leaves the recorded transactions alone *)
Section Context_.
Context (e : trx_env K).
Abbreviation keeps := (along (cx_dedup (K := K)) (always eq)).
#[local] Instance keeps_outcome : outcome keeps := _.

Lemma keeps_native {A} (m : M (native_db K) A) : frames keeps (on_native m).
Proof. intros c. unfold on_native, along, always. by destruct (m _). Qed.
Lemma keeps_rl {A} (m : M resource_limits_manager A) : frames keeps (on_rl (K := K) m).
Proof. apply keeps_native. Qed.
Lemma keeps_modify f : (forall c, cx_dedup (f c) = cx_dedup c) -> frames keeps (modify f).
Proof. intros Hf c. unfold along, always. cbn. by rewrite Hf. Qed.
Lemma keeps_beside {A} (m : M (trx_context K) A) : frames beside_native m -> frames keeps m.
Proof. intros Hm c. by destruct (Hm c) as (_ & _ & Hd). Qed.
Lemma keeps_now : frames keeps (now e).
Proof. done. Qed.
#[local] Hint Resolve keeps_native keeps_rl keeps_now : frames.
#[local] Hint Extern 2 (frames keeps (modify _)) => by apply keeps_modify : frames.

Lemma keeps_checktime : frames keeps (checktime e).
Proof. unfold checktime. frame_auto. Qed.
Lemma keeps_check_net_usage : frames keeps (check_net_usage e).
Proof. unfold check_net_usage. frame_auto. Qed.
Lemma keeps_validate_cpu b a k : frames keeps (validate_cpu_usage_to_bill e b a k).
Proof. unfold validate_cpu_usage_to_bill, validate_account_cpu_usage. frame_auto. Qed.
#[local] Hint Resolve keeps_checktime keeps_check_net_usage keeps_validate_cpu : frames.

Lemma keeps_init n : frames keeps (init e n).
Proof.
  unfold init, validate_account_cpu_usage, add_net_usage, start_timer. frame_auto.
  apply keeps_modify. intros c. unfold set_deadlines. by repeat case_match.
Qed.
#[local] Hint Resolve keeps_init : frames.

Lemma keeps_finalize : frames keeps (finalize e).
Proof.
  unfold finalize, finalize_checks, update_billed_cpu_time. frame_auto.
  apply keeps_modify. intros c. unfold lower_to_account_limits. by repeat case_match.
Qed.
Lemma keeps_implicit n : frames keeps (init_for_implicit_trx e n).
Proof. unfold init_for_implicit_trx, disallow_transaction_extensions. frame_auto. Qed.
Lemma keeps_deferred p : frames keeps (init_for_deferred_trx e p).
Proof. unfold init_for_deferred_trx, disallow_transaction_extensions. frame_auto. Qed.

(** [init_for_input_trx] records the id, which is new. *)
Definition recorded (id : digest_type) (gi : generic_index transaction_object) : Prop :=
  exists i o, _indices gi !! i = Some o /\ to_trx_id o = id.

Definition records (id : digest_type) (gi gi' : generic_index transaction_object) : Prop :=
  ~ recorded id gi /\ forall id', recorded id' gi' <-> id' = id \/ recorded id' gi.

Lemma record_records id expire gi gi' : record_transaction id expire gi = (Ok tt, gi') -> records id gi gi'.
Proof.
  intros [[? _]|(_ & Hi & Hn & Hfresh)]%record_transaction_spec; [done|]. split.
  - intros (i & o & Ho & Hid). by apply (Hfresh i o).
  - intros id'. unfold recorded. rewrite Hi. split.
    + intros (i & o & [[<- <-]|[_ Ho]]%lookup_insert_Some & <-); eauto.
    + intros [->|(i & o & Ho & <-)]; [exists (_next_id gi); eexists; by rewrite lookup_insert_eq|].
      exists i, o. rewrite lookup_insert_ne by congruence. done.
Qed.

Lemma keeps_ok {A} (m : M (trx_context K) A) c r c' : frames keeps m -> m c = (r, c') -> cx_dedup c' = cx_dedup c.
Proof. intros Hm Hr. specialize (Hm c). by rewrite Hr in Hm. Qed.

Lemma input_records unprunable prunable c c' : init_for_input_trx e unprunable prunable false c = (Ok tt, c') ->
  records (trx_id (cx_request c)) (cx_dedup c) (cx_dedup c').
Proof.
  unfold init_for_input_trx. intros Hr. apply M_bind_ok in Hr as (c0 & c1 & [-> ->]%get_ok & Hr).
  apply M_bind_ok in Hr as (u2 & c2 & H2%keeps_ok & Hr); [|unfold disallow_transaction_extensions; frame_auto].
  apply M_bind_ok in Hr as (u3 & c3 & H3%keeps_ok & Hr); [|frame_auto].
  apply M_bind_ok in Hr as (u4 & c4 & H4%keeps_ok & Hr); [|frame_auto].
  apply M_bind_ok in Hr as (u5 & c5 & H5%keeps_ok & Hr); [|frame_auto].
  cbn in Hr. unfold on_dedup, focus in Hr. destruct (record_transaction _ _ _) as [r gi] eqn:E.
  injection Hr as -> <-. apply record_records in E. cbn. by rewrite <- H2, <- H3, <- H4, <- H5.
Qed.
End Context_.

(** ** The bodies of transactions *)
Section Bodies.
Context (e : apply_env (K := K)) (pc : push_config).
Abbreviation gen_evolves := (along (xs_generated (K := K)) (always evolves)).
Abbreviation keeps_ids := (along deduped (always eq)).
#[local] Instance gen_outcome : outcome gen_evolves := _.
#[local] Instance ids_outcome : outcome keeps_ids := _.

Lemma gen_on_trx {A} (m : M (trx_context K) A) : frames gen_evolves (on_trx m).
Proof. by apply frame_apart_focus; [apply _|]. Qed.
Lemma ids_on_trx {A} (m : M (trx_context K) A) : frames (along (cx_dedup (K := K)) (always eq)) m -> frames keeps_ids (on_trx m).
Proof. by apply frame_focus. Qed.
Lemma gen_append act receiver context_free creator ancestor : frames gen_evolves (trx_schedule_action act receiver context_free creator ancestor).
Proof. apply ep_append, _. Qed.
Lemma ids_append act receiver context_free creator ancestor : frames keeps_ids (trx_schedule_action act receiver context_free creator ancestor).
Proof. apply ep_append, _. Qed.
Lemma gen_trx_exec e' : frames gen_evolves (trx_exec e').
Proof. apply part_trx_exec; [apply _..|apply frame_schedule_generated]. Qed.
Lemma ids_trx_exec e' : frames keeps_ids (trx_exec e').
Proof. apply part_trx_exec; [apply _..|apply frame_schedule_dedup]. Qed.
Lemma gen_execute e' fuel o depth : frames gen_evolves (execute_action e' fuel o depth).
Proof. apply part_execute_action; apply _. Qed.
Lemma ids_execute e' fuel o depth : frames keeps_ids (execute_action e' fuel o depth).
Proof. apply part_execute_action; apply _. Qed.
#[local] Hint Resolve gen_on_trx gen_append ids_append gen_trx_exec ids_trx_exec gen_execute ids_execute
  keeps_finalize keeps_implicit keeps_deferred : frames.
#[local] Hint Extern 2 (frames keeps_ids (on_trx _)) => apply ids_on_trx : frames.
#[local] Hint Extern 2 (frames _ (modify _)) => by apply keeps_modify : frames.

Lemma onerror_frames g etrx : frames gen_evolves (onerror_body e g etrx) /\ frames keeps_ids (onerror_body e g etrx).
Proof. unfold onerror_body. split; frame_auto. Qed.
Lemma deferred_frames g dtrx enforce :
  frames gen_evolves (deferred_body e g dtrx enforce) /\ frames keeps_ids (deferred_body e g dtrx enforce).
Proof. unfold deferred_body. split; frame_auto. Qed.

Abbreviation view := (te_view (ax_trx e)).
Abbreviation PS := (push_state (K := K) (Sig := Sig)).
Implicit Types (t : transaction_metadata (K := K) (Sig := Sig)) (s : PS) (d : chain_db (K := K)) (b : building_block (K := K) (Sig := Sig)).

(** Replaying blocks that the local chain had before need not record ids. *)
Hypothesis records_inputs : replay_head_time pc = None.
Hypothesis undoes : skip_db_sessions view = false.

Lemma init_pushed_frame t : frames gen_evolves (init_pushed e pc t).
Proof. unfold init_pushed. frame_auto. Qed.

Lemma pushed_generated t auth : frames gen_evolves (pushed_body e pc t auth).
Proof. unfold pushed_body. pose proof (init_pushed_frame t). frame_auto. Qed.

Definition rest_of_body t (check_auth : bool) : M exec_state unit :=
  let e' := env_for e (in_trx_requiring_checks view) (st_context_free_data (unpacked_trx (tm_packed t))) in
  let d := seconds (delay_sec (tm_trx t)) in
  on_trx (modify (set_delay d));;
  (if check_auth then
     x ← get;
     on_trx (check_authorization (checktime (ax_trx e')) (nc_auth (te_native (ax_trx e))) (deferred_views x) (nd_auth (xs_native x))
               (actions (tm_trx t)) (recovered_keys t) [] d false [])
   else mret tt);;
  trx_exec e';;
  on_trx (finalize (ax_trx e')).

Lemma rest_of_body_ids t auth : frames keeps_ids (rest_of_body t auth).
Proof.
  unfold rest_of_body. frame_auto. apply ids_on_trx, frame_check_authorization; [apply _|apply keeps_checktime].
Qed.

Lemma pushed_ids t auth rq billed s x : trx_id rq = pt_trx_id (tm_packed t) ->
  pushed_body e pc t auth (open_context rq billed s) = (Ok tt, x) ->
  if tm_implicit t then deduped x = db_dedup (ps_db s) else records (pt_trx_id (tm_packed t)) (db_dedup (ps_db s)) (deduped x).
Proof.
  intros Hid Hr. change (pushed_body e pc t auth) with (init_pushed e pc t;; rest_of_body t auth) in Hr.
  apply M_bind_ok in Hr as (u & x1 & Hi & Hr). pose proof (rest_of_body_ids t auth x1) as Hk. rewrite Hr in Hk.
  unfold along, always in Hk. cbn in Hk. rewrite <- Hk. unfold init_pushed in Hi. rewrite records_inputs in Hi.
  destruct (tm_implicit t).
  - assert (Hf : frames keeps_ids (on_trx (init_for_implicit_trx (ax_trx (env_for e (in_trx_requiring_checks view)
      (st_context_free_data (unpacked_trx (tm_packed t))))) 0;; modify (set_enforce false)))) by (apply ids_on_trx; frame_auto).
    specialize (Hf (open_context rq billed s)). rewrite Hi in Hf. by unfold along, always in Hf.
  - apply M_bind_ok in Hi as (un & x2 & [_ ->]%lift_ok & Hi). apply M_bind_ok in Hi as (pr & x3 & [_ ->]%lift_ok & Hi).
    unfold on_trx in Hi. apply focus_ok in Hi as (c & Hc & ->). destruct u. apply input_records in Hc. cbn in Hc |- *. by rewrite <- Hid.
Qed.

(** ** One push *)
Definition input_ids b : list digest_type :=
  omap (fun r => match rc_trx r with receipt_packed p => Some (pt_trx_id p) | receipt_id _ => None end) (_pending_trx_receipts b).

(** Every input transaction of the block is there once, and recorded. *)
Definition accounted s : Prop :=
  NoDup (input_ids (ps_block s)) /\ forall id, id ∈ input_ids (ps_block s) -> recorded id (db_dedup (ps_db s)).

(** A push that changes neither inputs nor recorded ids. *)
Definition same_inputs : relation PS := fun s s' =>
  input_ids (ps_block s') = input_ids (ps_block s) /\ db_dedup (ps_db s') = db_dedup (ps_db s).

Lemma accounted_same s s' : same_inputs s s' -> accounted s -> accounted s'.
Proof. intros [Hb Hd]. unfold accounted. by rewrite Hb, Hd. Qed.
Lemma same_push_inputs s s' : same_push s s' -> same_inputs s s'.
Proof. intros [Hd Hb]. by split; rewrite ?Hd, ?Hb. Qed.

Lemma block_extends_inputs h id acts b b' : block_extends h (receipt_id id) acts b b' -> input_ids b' = input_ids b.
Proof. intros [Hr _]. unfold input_ids. rewrite Hr, omap_app. cbn. by rewrite app_nil_r. Qed.

Lemma runs_from_frame (u0 : transaction) id d body x U (part : exec_state -> U) Q : runs_from (Sig := Sig) u0 id d body x -> frames (along part (always Q)) body ->
  exists rq billed (s : PS), ps_db s = d /\ Q (part (open_context rq billed s)) (part x).
Proof.
  intros (s & rq & billed & Hd & _ & _ & Hr) Hf. exists rq, billed, s. split; [done|].
  specialize (Hf (open_context rq billed s)). by rewrite Hr in Hf.
Qed.

Lemma retirement_same g d b tr s' : retirement e pc g d b tr s' ->
  input_ids (ps_block s') = input_ids b /\ db_dedup (ps_db s') = db_dedup d /\ evolves (db_generated d) (db_generated (ps_db s')).
Proof.
  intros [h _ _ _ _ -> Hb|dtrx en x _ Hr _ -> Hb|x _ Hr _ -> Hb|h m ex _ _ _ _ _ -> Hb];
    apply block_extends_inputs in Hb; (split; [exact Hb|]); try done.
  - destruct (deferred_frames g dtrx en) as [Hg Hi]. split.
    + by destruct (runs_from_frame _ _ _ _ _ _ _ _ Hr Hi) as (rq & bi & s & <- & Hk).
    + by destruct (runs_from_frame _ _ _ _ _ _ _ _ Hr Hg) as (rq & bi & s & <- & Hk).
  - destruct (onerror_frames g (onerror_transaction pc g)) as [Hg Hi]. split.
    + by destruct (runs_from_frame _ _ _ _ _ _ _ _ Hr Hi) as (rq & bi & s & <- & Hk).
    + by destruct (runs_from_frame _ _ _ _ _ _ _ _ Hr Hg) as (rq & bi & s & <- & Hk).
Qed.

(** [push_transaction] adds at most its own id, which was not recorded. *)
Lemma pushed_accounted t s r s' : pushed_outcome e pc t s r s' -> accounted s ->
  accounted s' /\ evolves (db_generated (ps_db s)) (db_generated (ps_db s')).
Proof.
  intros Ho Ha.
  assert (Hsame : same_push s s' -> accounted s' /\ evolves (db_generated (ps_db s)) (db_generated (ps_db s'))).
  { intros Hs. split; [by apply (accounted_same s), Ha; apply same_push_inputs|]. destruct Hs as [-> _]. reflexivity. }
  destruct r as [tr|ex]; [|by apply Hsame].
  destruct Ho as [(ex & _ & _ & _ & Hs)|(x & Hrun & _ & Hk)]; [by apply Hsame|].
  destruct (keeps_transactions e pc); [|by apply Hsame]. destruct Hk as [Hdb Hb]. split.
  - destruct Hrun as (s0 & rq & billed & Hd & _ & Hid & Hr). pose proof (pushed_ids _ _ _ _ _ _ Hid Hr) as Hi. rewrite Hd in Hi.
    change (deduped x) with (db_dedup (db_of x)) in Hi. rewrite <- Hdb in Hi.
    unfold pushed_block in Hb. destruct Ha as [Hnd Hall]. unfold accounted. rewrite Hb. unfold input_ids. destruct (tm_implicit t); cbn.
    + unfold db_of in Hi. cbn in Hi. rewrite Hi. by split.
    + destruct Hi as [Hnew Hi]. rewrite omap_app. cbn. change (omap _ (_pending_trx_receipts (ps_block s))) with (input_ids (ps_block s)). split.
      * apply NoDup_app. split; [done|]. split; [|apply NoDup_singleton]. intros i Hin ->%list_elem_of_singleton. by apply Hnew, Hall.
      * intros i [Hin| ->%list_elem_of_singleton]%elem_of_app; apply Hi; [right; by apply Hall|by left].
  - destruct (runs_from_frame _ _ _ _ _ _ _ _ Hrun (pushed_generated t _)) as (rq & bi & s0 & <- & Hk). by rewrite Hdb.
Qed.

Lemma remove_scheduled_spec gto s s1 : remove_scheduled_transaction gto s = (Ok tt, s1) ->
  db_dedup (ps_db s1) = db_dedup (ps_db s) /\ db_generated (ps_db s1) = (index_remove gto.1 (db_generated (ps_db s))).2.
Proof.
  unfold remove_scheduled_transaction. intros Hr. apply M_bind_ok in Hr as (u & s0 & Ha & Hr).
  unfold on_db_limits, on_db_native, on_db, on_db_generated, on_limits, zoom, focus in *.
  destruct (add_pending_ram_usage _ _ _) as [r l]. injection Ha as -> <-. unfold on_db, focus in Hr. cbn in Hr.
  destruct (index_remove _ _) as [r g]. by injection Hr as -> <-.
Qed.

(** ** Any number of pushes *)
Inductive push_op : Type :=
| op_input t (deadline billed : Z) (explicit : bool)
| op_scheduled (id : digest_type) (deadline billed : Z) (explicit : bool).

(** The state after a push, and the key of the scheduled transaction that it
    retired with a receipt. *)
Definition run_op (op : push_op) s : option Z * PS :=
  match op with
  | op_input t deadline billed explicit => (None, (push_transaction e pc t deadline billed explicit s).2)
  | op_scheduled id deadline billed explicit =>
      let '(r, s') := push_scheduled_transaction e pc id deadline billed explicit s in
      match r, find_by (by_gto_trx_id id) (db_generated (ps_db s)) with
      | Ok tr, Some gto => (tt_receipt tr ≫= fun _ => Some gto.1, s')
      | _, _ => (None, s')
      end
  end.

Fixpoint run_ops (ops : list push_op) s : list Z * PS :=
  match ops with
  | [] => ([], s)
  | op :: ops => let '(k, s1) := run_op op s in let '(ks, s') := run_ops ops s1 in (option_list k ++ ks, s')
  end.

(** The keys of the table come from its counter. *)
Definition keys_below (g : generic_index deferred_object) : Prop := forall k o, _indices g !! k = Some o -> k < _next_id g.

(** [gone]: a key that was given out and is not in use. *)
Definition gone (g : generic_index deferred_object) (k : Z) : Prop := k < _next_id g /\ _indices g !! k = None.

Lemma gone_evolves g g' k : evolves g g' -> gone g k -> gone g' k.
Proof.
  intros [Hn Ho _] [Hk Hl]. split; [lia|]. apply eq_None_not_Some. intros [o Hs]. by rewrite (Ho _ _ Hk Hs) in Hl.
Qed.

Lemma run_op_spec op s k s' : run_op op s = (k, s') -> accounted s -> keys_below (db_generated (ps_db s)) ->
  accounted s' /\ evolves (db_generated (ps_db s)) (db_generated (ps_db s'))
  /\ forall key, k = Some key -> is_Some (_indices (db_generated (ps_db s)) !! key) /\ gone (db_generated (ps_db s')) key.
Proof.
  destruct op as [t dl bi ex|id dl bi ex]; cbn [run_op].
  - intros [= <- <-] Ha _. pose proof (push_transaction_ends e pc t dl bi ex s undoes) as Ho.
    destruct (pushed_accounted _ _ _ _ Ho Ha). by split_and!.
  - pose proof (push_scheduled_ends e pc id dl bi ex s undoes) as Ho. unfold ends in Ho.
    destruct (push_scheduled_transaction _ _ _ _ _ _ s) as [r s2]. intros Hr Ha Hbelow.
    assert (Hsame : same_push s s2 -> accounted s2 /\ evolves (db_generated (ps_db s)) (db_generated (ps_db s2))).
    { intros Hs. split; [by apply (accounted_same s), Ha; apply same_push_inputs|]. destruct Hs as [-> _]. reflexivity. }
    cbn in Ho. destruct r as [tr|exn]; [|injection Hr as <- <-; by destruct (Hsame Ho); split_and!].
    destruct Ho as (gto & s1 & Hf & Hrem & Ho). rewrite Hf in Hr. injection Hr as <- <-.
    destruct Ho as [(-> & _ & Hs)|Hret]; [by destruct (Hsame Hs); split_and!|].
    destruct (remove_scheduled_spec _ _ _ Hrem) as [Hd Hg]. destruct (retirement_same _ _ _ _ _ Hret) as (Hb & Hd' & He).
    destruct gto as [key g]. apply find_by_some in Hf as [Hl _]. cbn in Hg.
    assert (He1 : evolves (db_generated (ps_db s)) (db_generated (ps_db s1))) by (rewrite Hg; apply evolves_remove).
    split; [apply (accounted_same s); [split; [exact Hb|congruence]|exact Ha]|]. split; [by etrans|].
    intros key' Hk. assert (key' = key) as -> by (destruct (tt_receipt tr); [by injection Hk|done]). split; [by eexists|].
    apply (gone_evolves (db_generated (ps_db s1))); [done|]. rewrite Hg. destruct (index_remove key _) as [r g'] eqn:E.
    destruct (index_remove_inv _ _ _ _ _ Hl E) as (_ & Hi & Hn). split; cbn; [rewrite Hn; by eapply Hbelow|].
    by rewrite Hi, lookup_delete_eq.
Qed.

(** What holds along any number of pushes: the input ids in the block are
    distinct and recorded, and the keys that were retired are gone. *)
Definition once (ks : list Z) s : Prop :=
  accounted s /\ keys_below (db_generated (ps_db s)) /\ NoDup ks /\ Forall (gone (db_generated (ps_db s))) ks.

Lemma run_op_once op s k s' ks : run_op op s = (k, s') -> once ks s -> once (ks ++ option_list k) s'.
Proof.
  intros Hr (Ha & Hb & Hnd & Hg). destruct (run_op_spec _ _ _ _ Hr Ha Hb) as (Ha' & He & Hk). unfold once.
  split; [done|]. split; [exact (ev_below _ _ He Hb)|].
  assert (Hg' : Forall (gone (db_generated (ps_db s'))) ks) by (eapply Forall_impl; [exact Hg|]; intros x; by apply gone_evolves).
  destruct k as [key|]; cbn; [|by rewrite app_nil_r]. destruct (Hk key eq_refl) as [[o Ho] Hgone]. split.
  - apply NoDup_app. split; [done|]. split; [|apply NoDup_singleton]. intros x Hx ->%list_elem_of_singleton.
    rewrite Forall_forall in Hg. destruct (Hg key Hx). congruence.
  - apply Forall_app. split; [done|]. by constructor.
Qed.

Lemma run_ops_once ops s ks0 ks s' : run_ops ops s = (ks, s') -> once ks0 s -> once (ks0 ++ ks) s'.
Proof.
  revert s ks0 ks s'. induction ops as [|op ops IH]; intros s ks0 ks s'; cbn [run_ops].
  - intros [= <- <-]. by rewrite app_nil_r.
  - destruct (run_op op s) as [k s1] eqn:E. destruct (run_ops ops s1) as [ks1 s2] eqn:E2. intros [= <- <-] Ho.
    rewrite app_assoc. eapply IH; [exact E2|]. by eapply run_op_once.
Qed.
End Bodies.
End Safety.

Section Claim.
Context {K Sig Key : Type} `{EqDecision K} `{unpacker K} `{contract_unpacker K} `{C : crypto} `{P : posix_timer}
  `{T : trx_codec Sig Key} `{softfloat} (e : apply_env (K := K)) (pc : push_config).

(** C8: Along any number of pushes to a block, whatever they contain and however
    they end, no input transaction gets into the block twice and no scheduled
    transaction is retired twice: the ids of the input transactions in the block
    stay distinct and recorded in the database, and the objects that were
    retired are distinct and do not come back. *)
Theorem nothing_executed_twice (ops : list (push_op (K := K) (Sig := Sig))) (s : push_state) :
  skip_db_sessions (te_view (ax_trx e)) = false -> replay_head_time pc = None ->
  accounted s -> keys_below (db_generated (ps_db s)) ->
  let '(retired, s') := run_ops e pc ops s in
  NoDup (input_ids (ps_block s')) /\ (forall id, id ∈ input_ids (ps_block s') -> recorded id (db_dedup (ps_db s')))
  /\ NoDup retired /\ Forall (gone (db_generated (ps_db s'))) retired.
Proof.
  intros Hskip Hrec Ha Hb. destruct (run_ops e pc ops s) as [ks s'] eqn:E.
  destruct (run_ops_once e pc Hrec Hskip ops s [] ks s' E) as ([Hnd Hall] & _ & Hk & Hg); [|done].
  split_and!; [exact Ha|exact Hb|apply NoDup_nil_2|constructor].
Qed.
End Claim.

(** ** A concrete block: both transactions, each pushed twice *)
#[local] Existing Instance ieee.
Definition push_ops : list (push_op (K := Z) (Sig := Z)) :=
  [op_input push_input time_point_maximum 0 false; op_scheduled push_id time_point_maximum 0 false;
   op_input push_input time_point_maximum 0 false; op_scheduled push_id time_point_maximum 0 false].
Definition push_all : list Z * push_state := run_ops exec_env push_conf push_ops push_start.

Lemma nothing_executed_twice_witness :
  push_all.1 = [0] /\ length (_pending_trx_receipts (ps_block push_all.2)) = 2%nat /\ NoDup (input_ids (ps_block push_all.2)).
Proof.
  split; [by vm_compute|]. split; [by vm_compute|].
  assert (Ha : accounted push_start) by (split; [apply NoDup_nil_2|intros id Hin; by apply elem_of_nil in Hin]).
  assert (Hb : keys_below (db_generated (ps_db push_start))).
  { intros k o Hk. change (_indices (db_generated (ps_db push_start))) with (<[0 := push_deferred]> (∅ : gmap Z deferred_object)) in Hk.
    apply lookup_insert_Some in Hk as [[<- _]|[_ Hk]]; [by vm_compute|by rewrite lookup_empty in Hk]. }
  pose proof (nothing_executed_twice exec_env push_conf push_ops push_start eq_refl eq_refl Ha Hb) as Ho.
  unfold push_all. destruct (run_ops _ _ _ _) as [ks s']. exact (proj1 Ho).
Defined.
