(* ===== verification/Block.v ===== *)
(** * Blocks
      ([block.hpp], [block.cpp], [block_state.cpp], [transaction_metadata.cpp],
      [transaction.cpp])

    A signed block: its header, the receipts of its transactions and its
    extensions, of which there is one, the additional signatures of a producer
    with several keys.  How a block state comes from a block received and from
    a block produced, and that the two agree.  Packing is the class
    [block_codec]. *)

From S2P Require Import Prelude Merkle Authority BlockHeader BlockHeaderState Transaction ApplyContext PushTransaction.
#[local] Open Scope Z_scope.

Class block_codec (Sig : Type) {C : crypto} : Type := {
  #[global] signature_type_eq_dec :: EqDecision signature_type;
  pack_compression : Z -> list Z;
  pack_bytes : list Z -> list Z;
  pack_status : receipt_status -> list Z;
  pack_uint32 : Z -> list Z;
  pack_unsigned_int : Z -> list Z;
  hash_action_receipt : action_receipt -> digest_type;
  pack_block_signatures : list signature_type -> list Z;
  unpack_block_signatures : list Z -> res (list signature_type);
  variable_size : Sig -> Z }.

Class block_codec_laws {Sig : Type} {C : crypto} (B : block_codec Sig) : Prop := {
  unpack_pack_block_signatures sigs : unpack_block_signatures (pack_block_signatures sigs) = Ok sigs }.

Section Blocks.
Context {Sig : Type} {C : crypto} {T : trx_codec Sig public_key} {B : block_codec Sig}.
Abbreviation trx_receipt := (transaction_receipt (Sig := Sig)).
Abbreviation metadata := (transaction_metadata (K := public_key) (Sig := Sig)).

(** ** Receipts *)
Definition packed_digest (p : packed_transaction Sig) : digest_type :=
  let prunable := hash_bytes (pack_signatures (pt_signatures p) ++ pack_bytes (packed_context_free_data p)) in
  hash_bytes (pack_compression (pt_compression p) ++ pack_bytes (pt_packed_trx p) ++ pack_digest prunable).

Definition receipt_digest (r : trx_receipt) : digest_type :=
  let h := rc_header r in
  hash_bytes (pack_status (rh_status h) ++ pack_uint32 (rh_cpu_usage_us h) ++ pack_unsigned_int (rh_net_usage_words h)
    ++ match rc_trx r with receipt_id id => pack_digest id | receipt_packed p => pack_digest (packed_digest p) end).

Definition calculate_trx_merkle (trxs : list trx_receipt) : res digest_type :=
  merkle hash_pair digest_default (map receipt_digest trxs).
Definition calculate_action_merkle (actions : list action_receipt) : res digest_type :=
  merkle hash_pair digest_default (map hash_action_receipt actions).

(** ** Blocks and their extensions *)
Record signed_block : Type := mk_signed_block {
  sb_header : signed_block_header;
  transactions : list trx_receipt;
  block_extensions : list (Z * list Z) }.

Definition additional_signatures_extension_id : Z := 2.
Definition additional_signatures_enforce_unique : bool := true.

(** [additional_block_signatures_extension::reflector_init] *)
Fixpoint insert_unique (sigs unique_sigs : list signature_type) : res unit :=
  match sigs with
  | [] => Ok tt
  | s :: sigs =>
      eos_assert (negb (bool_decide (s ∈ unique_sigs))) ill_formed_additional_block_signatures_extension;;
      insert_unique sigs (s :: unique_sigs)
  end.
Definition additional_signatures_init (sigs : list signature_type) : res unit :=
  eos_assert (0 <? Z.of_nat (length sigs)) ill_formed_additional_block_signatures_extension;;
  insert_unique sigs [].

Definition extract_block_extension (id : Z) (data : list Z) : res (option (list signature_type * bool)) :=
  if id =? additional_signatures_extension_id then
    sigs ← unpack_block_signatures data;
    additional_signatures_init sigs;;
    Ok (Some (sigs, additional_signatures_enforce_unique))
  else Ok None.

Fixpoint extract_block_extensions (i : nat) (exts : list (Z * list Z)) (id_type_lower_bound : Z)
    (results : list (Z * list signature_type)) : res (list (Z * list signature_type)) :=
  match exts with
  | [] => Ok results
  | (id, data) :: exts =>
      eos_assert (id >=? id_type_lower_bound) invalid_block_extension;;
      m ← extract_block_extension id data;
      match m with
      | None => Err invalid_block_extension
      | Some (sigs, enforce_unique) =>
          (if enforce_unique : bool then eos_assert ((i =? 0)%nat || (id >? id_type_lower_bound)) invalid_block_header_extension
           else Ok tt);;
          extract_block_extensions (S i) exts id (emplace_extension results id sigs)
      end
  end.

Definition validate_and_extract_block_extensions (b : signed_block) : res (list (Z * list signature_type)) :=
  extract_block_extensions 0 (block_extensions b) 0 [].

Definition extract_additional_signatures (b : signed_block) : res (list signature_type) :=
  exts ← validate_and_extract_block_extensions b;
  Ok (match list_find (fun x => x.1 = additional_signatures_extension_id) exts with Some (_, (_, sigs)) => sigs | None => [] end).

(** ** Block states *)

(** From a block that was received. *)
Definition received_block_state (prev : block_header_state) (b : signed_block) (skip_validate_signee : bool) : res block_header_state :=
  sigs ← extract_additional_signatures b;
  next_header prev (sb_header b) sigs skip_validate_signee.

(** From the block that was built, which gets its signatures. *)
Definition produced_block_state (cur : pending_block_header_state) (b : signed_block) (signer : digest_type -> list signature_type)
    : res (block_header_state * signed_block) :=
  '(result, sh) ← finish_next_sign cur (sb_header b) signer;
  let exts := match additional_signatures result with
              | [] => block_extensions b
              | sigs => emplace_extension (block_extensions b) additional_signatures_extension_id (pack_block_signatures sigs)
              end in
  Ok (result, mk_signed_block sh (transactions b) exts).

(** [create_block_state_future], from the state of the previous block. *)
Definition checked_block_state (prev : block_header_state) (b : signed_block) : res block_header_state :=
  trx_mroot ← calculate_trx_merkle (transactions b);
  eos_assert (bool_decide (transaction_mroot (sh_header (sb_header b)) = trx_mroot)) block_validate_exception;;
  received_block_state prev b false.

(** ** Transactions of a received block *)
Definition create_no_recover_keys (p : packed_transaction Sig) (implicit scheduled : bool) : metadata :=
  mk_metadata_of p 0 [] implicit scheduled 0.

Definition check_variable_sig_size (p : packed_transaction Sig) (max : Z) : res unit :=
  eos_assert (forallb (fun sig => variable_size sig <=? max) (st_signatures (unpacked_trx p))) sig_variable_size_limit_exception.

(** The readings of the clock are arguments, the last is the time it took. *)
Definition start_recover_keys (chain_id : digest_type) (deadline : Z) (clock : list Z) (cpu_usage max_variable_sig_size : Z)
    (p : packed_transaction Sig) : res metadata :=
  check_variable_sig_size p max_variable_sig_size;;
  let t := unpacked_trx p in
  recovered_pub_keys ← recover_signatures (Transaction.sig_digest chain_id (st_trx t) (st_context_free_data t)) deadline false clock
                         (st_signatures t) [];
  Ok (mk_metadata_of p cpu_usage recovered_pub_keys false false 0).
End Blocks.

(** ** A produced block is accepted *)
Section Accepted.
Context {Sig : Type} {C : crypto} {T : trx_codec Sig public_key} {B : block_codec Sig}.

Lemma insert_unique_ok (sigs acc : list signature_type) : NoDup sigs -> (forall s, s ∈ sigs -> s ∉ acc) -> insert_unique sigs acc = Ok tt.
Proof.
  revert acc. induction sigs as [|s sigs IH]; intros acc Hnd Hacc; cbn [insert_unique]; [done|].
  apply NoDup_cons in Hnd as [Hs Hnd]. apply eos_assert_bind_ok. split.
  - apply negb_true_iff, bool_decide_eq_false. apply Hacc. by left.
  - apply IH; [done|]. intros s' Hs' [->|Hin]%elem_of_cons; [done|]. by apply (Hacc s'); [right|].
Qed.

(** Different keys come from different signatures. *)
Lemma recover_loop_distinct sigs digest ks r : recover_loop sigs digest ks = Ok r ->
  NoDup sigs /\ forall s key, s ∈ sigs -> recover_key s digest = Ok key -> key ∉ ks.
Proof.
  revert ks. induction sigs as [|s sigs IH]; intros ks Hr; cbn [recover_loop] in Hr.
  - split; [apply NoDup_nil_2|]. intros s key Hs. by apply elem_of_nil in Hs.
  - apply res_bind_ok in Hr as (key & Hk & Hr). apply eos_assert_bind_ok in Hr as [Hnew%bool_decide_eq_true Hr].
    destruct (IH _ Hr) as [Hnd Hks]. split.
    + apply NoDup_cons. split; [|done]. intros Hin. apply (Hks s key Hin Hk). set_solver.
    + intros s' key' [->|Hin]%elem_of_cons Hk'; [congruence|]. specialize (Hks s' key' Hin Hk'). set_solver.
Qed.

Lemma verified_signatures_distinct s : verify_signee s = Ok tt -> NoDup (additional_signatures s).
Proof.
  unfold verify_signee. intros Hv. apply eos_assert_bind_ok in Hv as [_ Hv]. apply res_bind_ok in Hv as (d & _ & Hv).
  apply res_bind_ok in Hv as (key & _ & Hv). apply res_bind_ok in Hv as (ks & Hks & _). by apply recover_loop_distinct in Hks as [Hnd _].
Qed.

Lemma signed_signatures_distinct p sh signer s sh' : finish_next_sign p sh signer = Ok (s, sh') -> NoDup (additional_signatures s).
Proof.
  unfold finish_next_sign, sign. intros Hf. apply res_bind_ok in Hf as (r & _ & Hf). apply res_bind_ok in Hf as (r' & Hs & Hf).
  injection Hf as <- <-. apply res_bind_ok in Hs as (d & _ & Hs). apply eos_assert_bind_ok in Hs as [_ Hs].
  apply res_bind_ok in Hs as ([] & Hv & Hs). injection Hs as <-. by apply verified_signatures_distinct.
Qed.

Context `{!block_codec_laws B}.

Lemma injected_signatures (sigs : list signature_type) sh (trxs : list (transaction_receipt (Sig := Sig))) : NoDup sigs -> sigs <> [] ->
  extract_additional_signatures (mk_signed_block sh trxs [(additional_signatures_extension_id, pack_block_signatures sigs)]) = Ok sigs.
Proof.
  intros Hnd Hne. unfold extract_additional_signatures, validate_and_extract_block_extensions. cbn.
  unfold extract_block_extension. cbn. rewrite unpack_pack_block_signatures. cbn.
  assert (additional_signatures_init sigs = Ok tt) as ->; [|done].
  unfold additional_signatures_init. apply eos_assert_bind_ok. split; [apply Z.ltb_lt; destruct sigs; [done|cbn; lia]|].
  apply insert_unique_ok; [done|]. intros s _. apply not_elem_of_nil.
Qed.

(** C27: What a producer builds, seals and signs is what every node accepts: a
    block with the header of the next block and the Merkle root of its receipts
    passes, at a node with the same head, the checks of the Merkle root, of the
    block extensions, of the header and of all signatures, and leads that node
    to the state of the producer. *)
Theorem produced_block_is_accepted (prev s' : block_header_state) (when n : Z) (p : pending_block_header_state)
    (tm am : digest_type) (np : option (producer_authority_schedule public_key)) (es : bool) (sb : option Z)
    (signer : digest_type -> list signature_type) (b b' : signed_block (Sig := Sig)) :
  is_u32 (timestamp (sh_header (b_header prev))) -> next prev when n = Ok p -> p_timestamp p <> 0 ->
  sb_header b = make_block_header p tm am np es sb -> block_extensions b = [] -> calculate_trx_merkle (transactions b) = Ok tm ->
  produced_block_state p b signer = Ok (s', b') -> checked_block_state prev b' = Ok s'.
Proof.
  intros Hu Hn Ht Hh He Hm Hp. unfold produced_block_state in Hp. rewrite Hh in Hp.
  apply res_bind_ok in Hp as ([r sh] & Hf & Hp). injection Hp as <- <-.
  pose proof (produced_header_accepted _ _ _ _ _ _ _ _ _ _ _ _ Hu Hn Ht Hf) as Hacc.
  pose proof (signed_signatures_distinct _ _ _ _ _ Hf) as Hnd.
  assert (Hroot : transaction_mroot (sh_header sh) = tm).
  { unfold finish_next_sign in Hf. apply res_bind_ok in Hf as (r1 & _ & Hf). apply res_bind_ok in Hf as (r2 & _ & Hf). by injection Hf as <- <-. }
  unfold checked_block_state. cbn [transactions sb_header]. rewrite Hm. cbn [mbind res_bind]. rewrite Hroot, bool_decide_true by done.
  unfold received_block_state. rewrite He. cbn [sb_header eos_assert mbind res_bind].
  destruct (additional_signatures r) as [|x sigs] eqn:Es; [exact Hacc|].
  cbn [emplace_extension]. rewrite injected_signatures by done. exact Hacc.
Qed.
End Accepted.

(** ** A concrete block *)
#[export] Instance demo_block_codec : block_codec Z := {|
  pack_compression c := [c]; pack_bytes l := Z.of_nat (length l) :: l; pack_status s := [if decide (s = status_executed) then 0 else 1];
  pack_uint32 x := [x]; pack_unsigned_int x := [x]; hash_action_receipt r := act_digest r;
  pack_block_signatures sigs := sigs; unpack_block_signatures data := Ok data; variable_size _ := 0 |}.

#[export] Instance demo_block_codec_laws : block_codec_laws demo_block_codec.
Proof. by split. Qed.

Definition demo_receipt (n : Z) : transaction_receipt (Sig := Z) :=
  mk_transaction_receipt (mk_receipt_header status_executed 100 12) (receipt_id (mk_digest n 0 0 0)).
Definition demo_root : digest_type := ok_or demo_id (calculate_trx_merkle [demo_receipt 1; demo_receipt 2]).
Definition demo_unsigned : signed_block (Sig := Z) :=
  mk_signed_block (make_block_header demo_pending demo_root demo_id None false None) [demo_receipt 1; demo_receipt 2] [].
Definition demo_produced : res (block_header_state * signed_block) := produced_block_state demo_pending demo_unsigned (fun _ => [103]).
Definition demo_signed_block : block_header_state * signed_block := ok_or (demo_state, demo_unsigned) demo_produced.

Lemma demo_block_produced : demo_produced = Ok demo_signed_block.
Proof. apply ok_or_eq. by vm_compute. Qed.

Lemma produced_block_is_accepted_witness : checked_block_state demo_state demo_signed_block.2 = Ok demo_signed_block.1.
Proof.
  apply (produced_block_is_accepted demo_state demo_signed_block.1 30 0 demo_pending demo_root demo_id None false None
           (fun _ => [103]) demo_unsigned demo_signed_block.2);
    [widths; cbn; lia|exact demo_pending_next|vm_compute; discriminate|reflexivity..| |].
  - apply ok_or_eq. by vm_compute.
  - rewrite <- surjective_pairing. exact demo_block_produced.
Defined.
