(* ===== verification/BlockBuilding.v ===== *)
(** * Building and applying a block ([controller.cpp])

    The controller with a pending block: [start_block] opens a session of the
    database and runs the system transaction, [finalize_block] seals the block,
    [apply_block] runs the transactions of a block that was received and
    compares every receipt and the id, [commit_block] keeps the session and
    [abort_block] drops it.

    The sessions of the database are the stack of snapshots of [Chainbase.v].
    Signals, the guards on free space of the disk, and futures (a signature is
    recovered when its result is asked for) are left out. *)

From S2P Require Import Prelude Merkle Chainbase ResourceLimits Names Authority AuthorityChecker BlockHeader BlockHeaderState ForkDatabase Authorization GlobalProperties EosioContract NativeState NativeRam Transaction TransactionChecks ChainConfig Timer TransactionContext ContractTables TableInvariant ApplyContext PushTransaction Block.
#[local] Open Scope Z_scope.

(** ** A database with its undo sessions, the newest first *)
Section Sessions.
Context {D : Type}.

Record session_db : Type := mk_session_db {
  db_current : D;
  db_sessions : list D;
  db_revision : Z }.

Definition start_session (db : session_db) : session_db :=
  mk_session_db (db_current db) (db_current db :: db_sessions db) (db_revision db + 1).
Definition undo_session (db : session_db) : session_db :=
  match db_sessions db with
  | [] => db
  | d :: sessions => mk_session_db d sessions (db_revision db - 1)
  end.
(** [commit]: the sessions up to [revision] cannot be undone any more. *)
Definition commit_sessions (revision : Z) (db : session_db) : session_db :=
  mk_session_db (db_current db) (take (Z.to_nat (db_revision db - revision)) (db_sessions db)) (db_revision db).
Definition set_current (d : D) (db : session_db) : session_db := mk_session_db d (db_sessions db) (db_revision db).
End Sessions.
Arguments session_db : clear implicits.

Section Building.
Context {Sig : Type} {C : crypto} {T : trx_codec Sig public_key} {B : block_codec Sig}.
Context `{unpacker public_key} `{contract_unpacker public_key} `{P : posix_timer} `{softfloat}.
Abbreviation schedule := (producer_authority_schedule public_key).
Abbreviation metadata := (transaction_metadata (K := public_key) (Sig := Sig)).
Abbreviation chain_db := (chain_db (K := public_key)).
Abbreviation PM := (M (push_state (K := public_key) (Sig := Sig))).

(** ** State *)
Record building_stage : Type := mk_building_stage {
  bb_pending : pending_block_header_state;
  bb_new_schedule : option schedule;
  bb_lists : building_block (K := public_key) (Sig := Sig);
  bb_transaction_mroot : option digest_type }.

Record assembled_block : Type := mk_assembled_block {
  ab_id : digest_type;
  ab_pending : pending_block_header_state;
  ab_trx_metas : list metadata;
  ab_unsigned_block : signed_block (Sig := Sig);
  ab_new_schedule : option schedule }.

Inductive block_stage : Type :=
| stage_building (b : building_stage)
| stage_assembled (a : assembled_block)
| stage_completed (bsp : positive).

Record pending_state : Type := mk_pending_state {
  _db_session : bool;
  _block_stage : block_stage;
  _block_status : block_status;
  _producer_block_id : option digest_type }.

(** What a block state holds besides the header state ([ForkDatabase.v]). *)
Record block_body : Type := mk_block_body {
  body_block : signed_block (Sig := Sig);
  _pub_keys_recovered : bool;
  _cached_trxs : list metadata }.

(** [blog] is the block log, the oldest block first. *)
Record controller : Type := mk_controller {
  c_db : session_db chain_db;
  c_reversible : gmap Z (signed_block (Sig := Sig));
  c_blog : list (signed_block (Sig := Sig));
  c_fork : fork_database;
  c_bodies : gmap positive block_body;
  c_head : positive;
  c_pending : option pending_state;
  c_timer : platform_timer;
  c_tick : nat;
  c_light_validation : bool }.

Abbreviation CM := (M controller).

Definition set_c_db d (c : controller) : controller :=
  mk_controller d (c_reversible c) (c_blog c) (c_fork c) (c_bodies c) (c_head c) (c_pending c) (c_timer c) (c_tick c) (c_light_validation c).
Definition set_c_reversible r (c : controller) : controller :=
  mk_controller (c_db c) r (c_blog c) (c_fork c) (c_bodies c) (c_head c) (c_pending c) (c_timer c) (c_tick c) (c_light_validation c).
Definition set_c_blog l (c : controller) : controller :=
  mk_controller (c_db c) (c_reversible c) l (c_fork c) (c_bodies c) (c_head c) (c_pending c) (c_timer c) (c_tick c) (c_light_validation c).
Definition set_c_fork f (c : controller) : controller :=
  mk_controller (c_db c) (c_reversible c) (c_blog c) f (c_bodies c) (c_head c) (c_pending c) (c_timer c) (c_tick c) (c_light_validation c).
Definition set_c_bodies b (c : controller) : controller :=
  mk_controller (c_db c) (c_reversible c) (c_blog c) (c_fork c) b (c_head c) (c_pending c) (c_timer c) (c_tick c) (c_light_validation c).
Definition set_c_head h (c : controller) : controller :=
  mk_controller (c_db c) (c_reversible c) (c_blog c) (c_fork c) (c_bodies c) h (c_pending c) (c_timer c) (c_tick c) (c_light_validation c).
Definition set_c_pending p (c : controller) : controller :=
  mk_controller (c_db c) (c_reversible c) (c_blog c) (c_fork c) (c_bodies c) (c_head c) p (c_timer c) (c_tick c) (c_light_validation c).
Definition set_c_clock t n (c : controller) : controller :=
  mk_controller (c_db c) (c_reversible c) (c_blog c) (c_fork c) (c_bodies c) (c_head c) (c_pending c) t n (c_light_validation c).
Definition set_c_light v (c : controller) : controller :=
  mk_controller (c_db c) (c_reversible c) (c_blog c) (c_fork c) (c_bodies c) (c_head c) (c_pending c) (c_timer c) (c_tick c) v.

Definition on_fork {A} : M fork_database A -> CM A := focus c_fork set_c_fork.

Definition set_stage g (p : pending_state) : pending_state :=
  mk_pending_state (_db_session p) g (_block_status p) (_producer_block_id p).
Definition set_lists l (b : building_stage) : building_stage :=
  mk_building_stage (bb_pending b) (bb_new_schedule b) l (bb_transaction_mroot b).
Definition set_new_schedule s (b : building_stage) : building_stage :=
  mk_building_stage (bb_pending b) (Some s) (bb_lists b) (bb_transaction_mroot b).
Definition set_transaction_mroot d (b : building_stage) : building_stage :=
  mk_building_stage (bb_pending b) (bb_new_schedule b) (bb_lists b) (Some d).

(** ** What is given to the controller *)
Context (e : apply_env (K := public_key)) (pc : push_config).
Abbreviation fc := (ax_fc e).
Abbreviation cfg := (te_config (ax_trx e)).

(** The packing of a block header for [onblock], the recovery of the keys of a
    transaction in the thread pool, the lookup of transactions already known,
    and the producers that are trusted. *)
Record block_config : Type := mk_block_config {
  pack_block_header : block_header -> list Z;
  recover_keys : packed_transaction Sig -> res metadata;
  trx_lookup : digest_type -> option metadata;
  trusted_producers : list Z }.
Context (bc : block_config).

Definition pending_time (p : pending_block_header_state) : Z := to_time_point (milliseconds fc) (p_timestamp p).

(** The environment of a transaction in the pending block: the parts of [e]
    that depend on the block are replaced. *)
Definition pending_env (requiring_checks light : bool) (head_num : Z) (status : block_status) (b : building_stage) : apply_env (K := public_key) :=
  let n := te_native (ax_trx e) in
  let a := nc_auth n in
  let native := mk_native_config (mk_auth_config (key_which a) (num_supported_key_types a) (pending_time (bb_pending b))
                                    (max_transaction_delay a) (max_authority_depth a))
                  (key_lt n) (key_pack_size n) (check_keys n) (EosioContract.key_denylist n) (sha256 n) (wasm_validate n) head_num in
  mk_apply_env
    (mk_trx_env cfg native (mk_view (Some status) requiring_checks light (conf (te_view (ax_trx e))))
       (clock (ax_trx e)) (fires (ax_trx e)))
    (action_digest e) (code_of e) (max_nonprivileged_inline_action_size e) (ax_context_free_data e)
    (mk_schedule_view head_num (active_schedule (p_common (bb_pending b)))
       (default (si_schedule (prev_pending_schedule (bb_pending b))) (bb_new_schedule b)))
    fc.

(** [skip_db_sessions] and [skip_auth_check] outside of transactions. *)
Definition status_view (c : controller) (status : option block_status) : controller_view :=
  mk_view status false (c_light_validation c) (conf (te_view (ax_trx e))).

(** ** Access to the pending block *)
Definition my_pending : CM pending_state := fun c =>
  match c_pending c with Some p => (Ok p, c) | None => (Err undefined_behaviour, c) end.

(** [get<building_block>()] of library fc throws on another alternative. *)
Definition my_building : CM building_stage :=
  p ← my_pending;
  match _block_stage p with stage_building b => mret b | _ => throw assert_exception end.

Definition set_building (f : building_stage -> building_stage) : CM unit :=
  p ← my_pending;
  b ← my_building;
  modify (set_c_pending (Some (set_stage (stage_building (f b)) p))).

Definition head_state : CM block_state :=
  c ← get; lift (ForkDatabase.deref (c_fork c) (Some (c_head c))).

(** Pushing to the pending block. *)
Definition on_push {A} (requiring_checks : bool) (m : apply_env (K := public_key) -> PM A) : CM A :=
  p ← my_pending;
  b ← my_building;
  h ← head_state;
  fun c =>
    let e' := pending_env requiring_checks (c_light_validation c) (bs_num h) (_block_status p) b in
    let '(r, s) := m e' (mk_push_state (db_current (c_db c)) (bb_lists b) (c_timer c) (c_tick c)) in
    (r, set_c_pending (Some (set_stage (stage_building (set_lists (ps_block s) b)) p))
          (set_c_clock (ps_timer s) (ps_tick s) (set_c_db (set_current (ps_db s) (c_db c)) c))).

(** The database of the pending block. *)
Definition on_chain {A} (m : M chain_db A) : CM A := fun c =>
  let '(r, d) := m (db_current (c_db c)) in (r, set_c_db (set_current d (c_db c)) c).
Definition on_properties {A} (m : M (global_properties public_key) A) : CM A :=
  on_chain (focus db_properties (fun g d => mk_chain_db (db_tables d) (db_keyval d) (db_index d) (db_native d) (db_dedup d)
    (db_summaries d) (db_generated d) (db_global_sequence d) g) m).
Definition on_dedup_table {A} (m : M (generic_index transaction_object) A) : CM A :=
  on_chain (focus db_dedup (fun t d => mk_chain_db (db_tables d) (db_keyval d) (db_index d) (db_native d) t
    (db_summaries d) (db_generated d) (db_global_sequence d) (db_properties d)) m).
Definition on_summaries {A} (m : M (generic_index digest_type) A) : CM A :=
  on_chain (focus db_summaries (fun t d => mk_chain_db (db_tables d) (db_keyval d) (db_index d) (db_native d) (db_dedup d)
    t (db_generated d) (db_global_sequence d) (db_properties d)) m).
Definition on_chain_native {A} (m : M (native_db public_key) A) : CM A := on_chain (focus db_native set_db_native m).

(** [pending.reset()]: its session is undone unless it was pushed. *)
Definition reset_pending (c : controller) : controller :=
  match c_pending c with
  | Some p => set_c_pending None (if _db_session p then set_c_db (undo_session (c_db c)) c else c)
  | None => c
  end.

(** [abort_block] with the transactions it returns. *)
Definition extract_trx_metas (c : controller) (p : pending_state) : list metadata * controller :=
  match _block_stage p with
  | stage_building b => (_pending_trx_metas (bb_lists b), c)
  | stage_assembled a => (ab_trx_metas a, c)
  | stage_completed bsp =>
      match c_bodies c !! bsp with
      | Some body => (_cached_trxs body, set_c_bodies (<[bsp := mk_block_body (body_block body) false []]> (c_bodies c)) c)
      | None => ([], c)
      end
  end.

Definition abort_block : CM (list metadata) := fun c =>
  match c_pending c with
  | None => (Ok [], c)
  | Some p => let '(applied_trxs, c) := extract_trx_metas c p in (Ok applied_trxs, reset_pending c)
  end.

(** ** [start_block] *)
Definition onblock_name : Z := string_to_name [111; 110; 98; 108; 111; 99; 107].
Definition onblock_transaction (head_header : block_header) : transaction :=
  mk_transaction 0 0 0 0 0 0 []
    [mk_action system_account_name onblock_name [mk_pl system_account_name active_name] (pack_block_header bc head_header)] [].

(** [packed_transaction( get_on_block_transaction() )] with [compression_none]. *)
Definition onblock_metadata (head_header : block_header) : res metadata :=
  p ← packed_of_signed (mk_signed_trx (onblock_transaction head_header) [] []) compression_none;
  Ok (create_no_recover_keys p true false).

(** The proposed schedule that became irreversible, or the standby schedule
    whose block has come, is promoted. *)
Definition promotes_proposed (p : pending_block_header_state) (g : global_properties public_key) : bool :=
  match proposed_schedule_block_num g with
  | None => false
  | Some n =>
      ((n <=? dpos_irreversible_blocknum (p_common p)) && (length (producers (si_schedule (prev_pending_schedule p))) =? 0)%nat)
      || (GlobalProperties.enable_standby_schedule g
          && bool_decide (GlobalProperties.standby_schedule_block_num g = Some (bc_block_num (p_common p))))
  end.

Definition promote_proposed : CM unit :=
  c ← get;
  b ← my_building;
  let g := db_properties (db_current (c_db c)) in
  if promotes_proposed (bb_pending b) g then
    massert (GlobalProperties.enable_standby_schedule g
             || (version (proposed_schedule g) =? u32 (active_schedule_version (bb_pending b) + 1))) producer_schedule_exception;;
    set_building (set_new_schedule (proposed_schedule g));;
    on_properties (modify (set_proposal None (mk_schedule 0 [])))
  else mret tt.

Definition leave_standby : CM unit :=
  c ← get;
  b ← my_building;
  let g := db_properties (db_current (c_db c)) in
  if GlobalProperties.enable_standby_schedule g
     && (version (active_schedule (p_common (bb_pending b))) =? version (standby_schedule g))
  then on_properties (modify (set_standby_block false None))
  else mret tt.

(** [catch( ... )]: failures of the system transaction do not matter. *)
Definition ignore_failure (m : CM unit) : CM unit := fun c =>
  match m c with
  | (Err ex, c') => if is_fc_exception ex || is_std_exception ex then (Ok tt, c') else (Err ex, c')
  | r => r
  end.

Definition push_onblock : CM unit :=
  ignore_failure (
    h ← head_state;
    onbtrx ← lift (onblock_metadata (sh_header (b_header (bs_state h))));
    on_push true (fun e' => push_transaction e' pc onbtrx time_point_maximum (min_transaction_cpu_usage cfg) true);;
    mret tt).

Definition clear_expired_transactions : CM unit :=
  b ← my_building;
  on_dedup_table (clear_expired_input_transactions (pending_time (bb_pending b))).

(** [update_producers_authority] *)
Definition producers_threshold (num_producers numerator denominator : Z) : Z :=
  u32 (u32 (num_producers * numerator) / denominator + 1).

Definition producers_auth (ps : list (producer_authority public_key)) (threshold : Z) : authority public_key :=
  mk_authority threshold [] (map (fun p => mk_plw (mk_pl (producer_name p) active_name) 1) ps) [].

Definition update_producers_permission (name : Z) (auth : authority public_key) : M (auth_db public_key) unit :=
  d ← get;
  p ← lift (get_permission d (mk_pl producers_account_name name));
  if bool_decide (po_auth p.2 = auth) then mret tt
  else on_permissions (index_modify permission_conflict p.1 (fun po =>
         mk_permission (po_usage_id po) (po_parent po) (po_owner po) (po_name po) (po_last_updated po) auth)).

Definition update_producers_authority (ps : list (producer_authority public_key)) : M (auth_db public_key) unit :=
  let n := u32 (Z.of_nat (length ps)) in
  update_producers_permission active_name (producers_auth ps (producers_threshold n 2 3));;
  update_producers_permission majority_producers_permission_name (producers_auth ps (producers_threshold n 1 2));;
  update_producers_permission minority_producers_permission_name (producers_auth ps (producers_threshold n 1 3)).

Definition update_authority : CM unit :=
  b ← my_building;
  on_chain_native (on_auth (update_producers_authority (producers (active_schedule (p_common (bb_pending b)))))).

(** [make_scoped_exit]: the pending block is dropped when [m] throws. *)
Definition or_reset (m : CM unit) : CM unit := fun c =>
  match m c with
  | (Ok u, c') => (Ok u, c')
  | (Err ex, c') => (Err ex, reset_pending c')
  end.

Definition open_pending (when confirm_block_count : Z) (s : block_status) (producer_block_id : option digest_type) : CM unit :=
  c ← get;
  h ← head_state;
  let sessions := negb (skip_db_sessions_of (status_view c None) s) in
  massert (negb sessions || (db_revision (c_db c) =? bs_num h)) database_exception;;
  p ← lift (next (bs_state h) when confirm_block_count);
  modify (fun c => set_c_pending (Some (mk_pending_state sessions
                     (stage_building (mk_building_stage p None (mk_building_block [] [] []) None)) s producer_block_id))
                     (if sessions then set_c_db (start_session (c_db c)) c else c)).

Definition start_block (when confirm_block_count : Z) (s : block_status) (producer_block_id : option digest_type) : CM unit :=
  c ← get;
  massert (match c_pending c with None => true | Some _ => false end) block_validate_exception;;
  or_reset (
    open_pending when confirm_block_count s producer_block_id;;
    if bool_decide (read_mode pc = SPECULATIVE) || negb (bool_decide (s = incomplete)) then
      promote_proposed;;
      leave_standby;;
      push_onblock;;
      clear_expired_transactions;;
      update_authority
    else mret tt).

(** ** [finalize_block] *)
Definition block_average_window_ms : Z := 60 * 1000.
Definition block_parameters (max pct : Z) : elastic_limit_parameters :=
  mk_elastic (EOS_PERCENT max pct) max (u32 (block_average_window_ms / block_interval_ms)) maximum_elastic_resource_multiplier
    (make_ratio 99 100) (make_ratio 1000 999).

Definition update_resource_limits (block_num : Z) : M resource_limits_manager unit :=
  process_account_limit_updates;;
  set_block_parameters (block_parameters (max_block_cpu_usage cfg) (target_block_cpu_usage_pct cfg))
    (block_parameters (max_block_net_usage cfg) (target_block_net_usage_pct cfg));;
  process_block_usage block_num.

Definition rethrow_block {A} (m : CM A) : CM A := fun c =>
  match m c with
  | (Ok a, c') => (Ok a, c')
  | (Err ex, c') => (Err (fc_rethrow e ex), c')
  end.

Definition finalize_block : CM unit :=
  c ← get;
  massert (match c_pending c with Some _ => true | None => false end) block_validate_exception;;
  massert (match c_pending c with Some p => match _block_stage p with stage_building _ => true | _ => false end | None => false end)
    block_validate_exception;;
  rethrow_block (
    b ← my_building;
    on_chain_native (on_limits (update_resource_limits (bc_block_num (p_common (bb_pending b)))));;
    c ← get;
    let g := db_properties (db_current (c_db c)) in
    let lists := bb_lists b in
    trx_mroot ← lift (match bb_transaction_mroot b with Some d => Ok d | None => calculate_trx_merkle (_pending_trx_receipts lists) end);
    act_mroot ← lift (calculate_action_merkle (_actions lists));
    let header := make_block_header (bb_pending b) trx_mroot act_mroot (bb_new_schedule b)
                    (GlobalProperties.enable_standby_schedule g) (GlobalProperties.standby_schedule_block_num g) in
    let id := header_id (sh_header header) in
    on_summaries (create_block_summary id);;
    p ← my_pending;
    modify (set_c_pending (Some (set_stage (stage_assembled (mk_assembled_block id (bb_pending b) (_pending_trx_metas lists)
      (mk_signed_block header (_pending_trx_receipts lists) []) (bb_new_schedule b))) p)))).

(** [controller::finalize_block]: the block is signed. *)
Definition complete_block (signer : digest_type -> list signature_type) : CM positive :=
  finalize_block;;
  p ← my_pending;
  match _block_stage p with
  | stage_assembled a =>
      '(s, block) ← lift (produced_block_state (ab_pending a) (ab_unsigned_block a) signer);
      bsp ← on_fork (make_shared (mk_block_state s false));
      modify (fun c => set_c_bodies (<[bsp := mk_block_body block true (ab_trx_metas a)]> (c_bodies c)) c);;
      modify (set_c_pending (Some (set_stage (stage_completed bsp) p)));;
      mret bsp
  | _ => throw assert_exception
  end.

(** ** [commit_block] *)

(** [reversible_blocks.create]: the block number is a unique key. *)
Definition create_reversible (num : Z) (b : signed_block (Sig := Sig)) : CM unit := fun c =>
  match c_reversible c !! num with
  | Some _ => (Err std_logic_error, c)
  | None => (Ok tt, set_c_reversible (<[num := b]> (c_reversible c)) c)
  end.

(** [fork_db.head()] *)
Definition fork_head : CM positive :=
  c ← get;
  match ForkDatabase.head (c_fork c) with Some h => mret h | None => throw undefined_behaviour end.

Definition add_committed (bsp : positive) : CM unit :=
  on_fork (ForkDatabase.add (Some bsp) false);;
  on_fork (mark_valid bsp);;
  h ← fork_head;
  modify (set_c_head h);;
  massert (bool_decide (bsp = h)) fork_database_exception.

Definition record_reversible (bsp : positive) : CM unit :=
  if match replay_head_time pc with None => true | Some _ => false end && negb (bool_decide (read_mode pc = IRREVERSIBLE)) then
    c ← get;
    b ← lift (ForkDatabase.deref (c_fork c) (Some bsp));
    match c_bodies c !! bsp with
    | Some body => create_reversible (bs_num b) (body_block body)
    | None => throw undefined_behaviour
    end
  else mret tt.

(** [log_irreversible] follows when the block was added to the fork database. *)
Definition commit_body (add_to_fork_db : bool) (log_irreversible : CM unit) : CM unit :=
  p ← my_pending;
  match _block_stage p with
  | stage_completed bsp =>
      (if add_to_fork_db then add_committed bsp else mret tt);;
      record_reversible bsp;;
      (if add_to_fork_db then log_irreversible else mret tt)
  | _ => throw block_validate_exception
  end.

(** Whatever is thrown, the block is aborted; else its session is kept. *)
Definition push_session (c : controller) : controller := set_c_pending None c.

Definition commit_block (add_to_fork_db : bool) (log_irreversible : CM unit) : CM unit := fun c =>
  match commit_body add_to_fork_db log_irreversible c with
  | (Ok u, c') => (Ok u, push_session c')
  | (Err ex, c') => (Err ex, (abort_block c').2)
  end.

(** ** [apply_block] *)

(** The metadata of the input transaction at [packed_idx]. *)
Definition metadata_for (use_bsp_cached skip_auth_checks : bool) (cached : list metadata) (packed_idx : nat)
    (pt : packed_transaction Sig) : res metadata :=
  if use_bsp_cached then match cached !! packed_idx with Some m => Ok m | None => Err std_out_of_range end
  else
    match trx_lookup bc (pt_trx_id pt) with
    | Some m => if skip_auth_checks || negb (bool_decide (recovered_keys m = [])) then Ok m
                else recover_keys bc pt
    | None => if skip_auth_checks then Ok (create_no_recover_keys pt false false) else recover_keys bc pt
    end.

Definition transaction_can_fail (r : transaction_receipt (Sig := Sig)) : bool :=
  bool_decide (rh_status (rc_header r) = status_hard_fail) && match rc_trx r with receipt_id _ => true | receipt_packed _ => false end.

Definition push_receipt_of (r : transaction_receipt (Sig := Sig)) (m : res metadata) : CM transaction_trace :=
  let cpu := rh_cpu_usage_us (rc_header r) in
  match rc_trx r with
  | receipt_packed _ => m ← lift m; on_push false (fun e' => push_transaction e' pc m time_point_maximum cpu true)
  | receipt_id id => on_push false (fun e' => push_scheduled_transaction e' pc id time_point_maximum cpu true)
  end.

(** One receipt of the block: it must be reproduced. *)
Definition apply_receipt (r : transaction_receipt (Sig := Sig)) (m : res metadata) : CM unit :=
  b ← my_building;
  let num_pending_receipts := length (_pending_trx_receipts (bb_lists b)) in
  trace ← push_receipt_of r m;
  (match tt_except trace with
   | Some ex => if transaction_can_fail r then mret tt else throw ex
   | None => mret tt
   end);;
  b ← my_building;
  let trx_receipts := _pending_trx_receipts (bb_lists b) in
  massert (0 <? length trx_receipts)%nat block_validate_exception;;
  massert (length trx_receipts =? num_pending_receipts + 1)%nat block_validate_exception;;
  massert (bool_decide (rc_header <$> last trx_receipts = Some (rc_header r))) block_validate_exception.

Fixpoint apply_receipts (metadata_at : nat -> packed_transaction Sig -> res metadata) (packed_idx : nat)
    (rs : list (transaction_receipt (Sig := Sig))) : CM unit :=
  match rs with
  | [] => mret tt
  | r :: rs =>
      match rc_trx r with
      | receipt_packed pt => apply_receipt r (metadata_at packed_idx pt);; apply_receipts metadata_at (S packed_idx) rs
      | receipt_id _ => apply_receipt r (Err undefined_behaviour);; apply_receipts metadata_at packed_idx rs
      end
  end.

Definition cache_metas (bsp : positive) (body : block_body) (a : assembled_block) (use_bsp_cached skip_auth_checks : bool) : CM unit :=
  if use_bsp_cached then mret tt
  else modify (fun c => set_c_bodies (<[bsp := mk_block_body (body_block body) (negb skip_auth_checks) (ab_trx_metas a)]> (c_bodies c)) c).

Definition my_body (bsp : positive) : CM block_body := fun c =>
  match c_bodies c !! bsp with Some body => (Ok body, c) | None => (Err undefined_behaviour, c) end.

Definition apply_block_body (bsp : positive) (s : block_status) : CM unit :=
  body ← my_body bsp;
  let b := body_block body in
  let h := sh_header (sb_header b) in
  let producer_block_id := header_id h in
  start_block (timestamp h) (confirmed h) s (Some producer_block_id);;
  c ← get;
  let skip_auth_checks := skip_auth_check (status_view c (Some s)) in
  let use_bsp_cached := _pub_keys_recovered body || (skip_auth_checks && negb (bool_decide (_cached_trxs body = []))) in
  apply_receipts (metadata_for use_bsp_cached skip_auth_checks (_cached_trxs body)) 0 (transactions b);;
  set_building (set_transaction_mroot (transaction_mroot h));;
  finalize_block;;
  p ← my_pending;
  match _block_stage p with
  | stage_assembled a =>
      massert (bool_decide (producer_block_id = ab_id a)) block_validate_exception;;
      cache_metas bsp body a use_bsp_cached skip_auth_checks;;
      p ← my_pending;
      modify (set_c_pending (Some (set_stage (stage_completed bsp) p)));;
      commit_block false (mret tt)
  | _ => throw assert_exception
  end.

(** [catch( const fc::exception& )] *)
Definition abort_on_failure (m : CM unit) : CM unit := fun c =>
  match m c with
  | (Ok u, c') => (Ok u, c')
  | (Err ex, c') => (Err ex, if is_std_exception ex then c' else (abort_block c').2)
  end.

Definition apply_block (bsp : positive) (s : block_status) : CM unit :=
  rethrow_block (abort_on_failure (apply_block_body bsp s)).
End Building.
