(* ===== verification/BlockApply.v ===== *)
(** * What applying a block leaves ([controller.cpp])

    A block that fails leaves the controller as it was; a block that succeeds
    leaves one session more on the database, and nothing else but its entry
    among the reversible blocks. *)

From S2P Require Import Prelude Merkle Chainbase ResourceLimits Names Authority AuthorityChecker BlockHeader BlockHeaderState ForkDatabase Authorization GlobalProperties EosioContract NativeState NativeRam Transaction TransactionChecks ChainConfig Timer TransactionContext ContractTables TableInvariant ApplyContext TransactionExec PushTransaction PushOutcomes Block BlockBuilding.
#[local] Open Scope Z_scope.

(** ** Errors of library fc only *)
Definition throws_fc {S A} (m : M S A) : Prop := forall s, wp m (fun ex => is_std_exception ex = false) (fun _ _ => True) s.

Section Throws.
Context {S : Type}.

Lemma throws_bind {A B} (m : M S A) (f : A -> M S B) : throws_fc m -> (forall a, throws_fc (f a)) -> throws_fc (m ≫= f).
Proof. intros Hm Hf s. apply wp_bind. eapply wp_mono; [|apply Hm]. intros a s' _. apply Hf. Qed.
Lemma throws_ret {A} (a : A) : throws_fc (mret a : M S A).
Proof. done. Qed.
Lemma throws_get : throws_fc (get : M S S).
Proof. done. Qed.
Lemma throws_modify (f : S -> S) : throws_fc (modify f).
Proof. done. Qed.
Lemma throws_throw {A} ex : is_std_exception ex = false -> throws_fc (throw ex : M S A).
Proof. by intros Hex s. Qed.
Lemma throws_massert b ex : is_std_exception ex = false -> throws_fc (massert b ex : M S unit).
Proof. intros Hex s. by destruct b. Qed.
Lemma throws_lift {A} (r : res A) : match r with Err ex => is_std_exception ex = false | Ok _ => True end -> throws_fc (lift r : M S A).
Proof. intros Hr s. by destruct r. Qed.
Lemma throws_run {A} (m : M S A) s ex s' : throws_fc m -> m s = (Err ex, s') -> is_std_exception ex = false.
Proof. intros Hm Hr. exact (wp_err _ _ _ _ _ _ (Hm s) Hr). Qed.
End Throws.

Section Apply.
Context {Sig : Type} {C : crypto} {T : trx_codec Sig public_key} {B : block_codec Sig}.
Context `{unpacker public_key} `{contract_unpacker public_key} `{P : posix_timer} `{softfloat}.
Context (e : apply_env (K := public_key)) (pc : push_config) (bc : block_config (Sig := Sig)).
Abbreviation ctl := (controller (Sig := Sig)).
Abbreviation CM := (M ctl).
Implicit Types (c : ctl).

(** ** The parts that stay *)
Definition fixed_part c :=
  (c_reversible c, c_blog c, c_fork c, c_head c, c_light_validation c, body_block <$> c_bodies c).
Definition session_part c := (fixed_part c, db_sessions (c_db c), db_revision (c_db c),
  (fun p => (_db_session p, _block_status p)) <$> c_pending c).
Definition full_part c := (session_part c, c_bodies c).
Abbreviation keeps_session := (along full_part (always eq)).
#[local] Instance session_outcome : outcome keeps_session := _.

Lemma keeps_session_modify (f : ctl -> ctl) : (forall c, full_part (f c) = full_part c) -> frames keeps_session (modify f).
Proof. intros Hf c. unfold along, always. cbn. by rewrite Hf. Qed.

Lemma keeps_my_pending : frames keeps_session (my_pending (Sig := Sig)).
Proof. apply frame_read. intros c. unfold my_pending. by destruct (c_pending c). Qed.
#[local] Hint Resolve keeps_my_pending : frames.
Lemma keeps_my_building : frames keeps_session (my_building (Sig := Sig)).
Proof. unfold my_building. frame_auto. Qed.
#[local] Hint Resolve keeps_my_building : frames.

(** A new stage for the pending block that was read. *)
Lemma pending_run c r c' : my_pending c = (r, c') -> c' = c /\ match r with Ok p => c_pending c = Some p | Err _ => c_pending c = None end.
Proof. unfold my_pending. destruct (c_pending c) eqn:E; by intros [= <- <-]. Qed.
Lemma building_run c b c' : my_building c = (Ok b, c') -> c' = c /\ exists p, c_pending c = Some p /\ _block_stage p = stage_building b.
Proof.
  unfold my_building. intros (p & c1 & Hp & Hb)%M_bind_ok. apply pending_run in Hp as [-> Hp].
  destruct (_block_stage p) eqn:E; minv. split; [done|]. by exists p.
Qed.

Lemma full_part_stage c p g : c_pending c = Some p -> full_part (set_c_pending (Some (set_stage g p)) c) = full_part c.
Proof. intros Hp. unfold full_part, session_part. cbn. by rewrite Hp. Qed.
Lemma session_part_stage c p g : c_pending c = Some p -> session_part (set_c_pending (Some (set_stage g p)) c) = session_part c.
Proof. intros Hp. exact (f_equal fst (full_part_stage c p g Hp)). Qed.

Lemma keeps_set_building f : frames keeps_session (set_building (Sig := Sig) f).
Proof.
  intros c. unfold set_building, along, always, mbind, M_bind. destruct (my_pending c) as [[p|ex] c1] eqn:Ep; apply pending_run in Ep as [-> Hp]; [|done].
  pose proof (keeps_my_building c) as Hk. destruct (my_building c) as [[b|ex] c2] eqn:Eb; [|done].
  apply building_run in Eb as [-> _]. cbn. by rewrite full_part_stage.
Qed.

Lemma keeps_head_state : frames keeps_session (head_state (Sig := Sig)).
Proof. unfold head_state. frame_auto. Qed.
#[local] Hint Resolve keeps_set_building keeps_head_state : frames.

Lemma head_run c r c' : head_state c = (r, c') -> c' = c.
Proof. unfold head_state. by intros [= _ <-]. Qed.

Lemma keeps_on_push {A} rc (m : apply_env -> M push_state A) : frames keeps_session (on_push (Sig := Sig) e rc m).
Proof.
  intros c. unfold on_push, along, always, mbind, M_bind. destruct (my_pending c) as [[p|ex] c1] eqn:Ep; apply pending_run in Ep as [-> Hp]; [|done].
  pose proof (keeps_my_building c) as Hk. destruct (my_building c) as [[b|ex] c2] eqn:Eb; [|done].
  apply building_run in Eb as [-> _]. destruct (head_state c) as [h c3] eqn:Eh. apply head_run in Eh as ->. destruct h as [h|ex]; [|done].
  destruct (m _ _) as [r s]. cbn. unfold full_part, session_part. cbn. by rewrite Hp.
Qed.

Lemma keeps_on_chain {A} (m : M chain_db A) : frames keeps_session (on_chain (Sig := Sig) m).
Proof. intros c. unfold on_chain, along, always. by destruct (m _). Qed.
#[local] Hint Resolve keeps_on_push keeps_on_chain : frames.

Lemma keeps_ignore (m : CM unit) : frames keeps_session m -> frames keeps_session (ignore_failure m).
Proof.
  intros Hm c. specialize (Hm c). unfold ignore_failure. destruct (m c) as [[u|ex] c']; [done|].
  by destruct (_ || _).
Qed.
Lemma keeps_rethrow {A} (m : CM A) : frames keeps_session m -> frames keeps_session (rethrow_block e m).
Proof. intros Hm c. specialize (Hm c). unfold rethrow_block. by destruct (m c) as [[u|ex] c']. Qed.

Lemma keeps_promote : frames keeps_session (promote_proposed (Sig := Sig)).
Proof. unfold promote_proposed, on_properties. frame_auto. Qed.
Lemma keeps_leave_standby : frames keeps_session (leave_standby (Sig := Sig)).
Proof. unfold leave_standby, on_properties. frame_auto. Qed.
Lemma keeps_push_onblock : frames keeps_session (push_onblock e pc bc).
Proof. unfold push_onblock. apply keeps_ignore. frame_auto. Qed.
Lemma keeps_clear_expired : frames keeps_session (clear_expired_transactions (Sig := Sig) e).
Proof. unfold clear_expired_transactions, on_dedup_table. frame_auto. Qed.
Lemma keeps_update_authority : frames keeps_session (update_authority (Sig := Sig)).
Proof. unfold update_authority, on_chain_native. frame_auto. Qed.
#[local] Hint Resolve keeps_promote keeps_leave_standby keeps_push_onblock keeps_clear_expired keeps_update_authority : frames.

Lemma keeps_apply_receipt r m : frames keeps_session (apply_receipt e pc r m).
Proof. unfold apply_receipt, push_receipt_of. frame_auto. Qed.
#[local] Hint Resolve keeps_apply_receipt : frames.
Lemma keeps_apply_receipts f i rs : frames keeps_session (apply_receipts e pc f i rs).
Proof. revert i. induction rs as [|r rs IH]; intros i; cbn [apply_receipts]; frame_auto. Qed.


Lemma keeps_restage g : frames keeps_session (p ← my_pending; modify (set_c_pending (Some (set_stage g p))) : CM unit).
Proof.
  intros c. unfold along, always, mbind, M_bind. destruct (my_pending c) as [[p|ex] c1] eqn:Ep; apply pending_run in Ep as [-> Hp]; [|done].
  cbn. by rewrite full_part_stage.
Qed.
#[local] Hint Resolve keeps_apply_receipts keeps_restage : frames.

Lemma keeps_finalize_block : frames keeps_session (finalize_block (Sig := Sig) e).
Proof. unfold finalize_block, on_summaries, on_chain_native. frame_auto. apply keeps_rethrow. frame_auto. Qed.
#[local] Hint Resolve keeps_finalize_block : frames.

(** ** Sessions *)

(** [opened c c']: a pending block whose session began in [c]. *)
Definition opened c c' : Prop :=
  fixed_part c' = fixed_part c /\ db_sessions (c_db c') = db_current (c_db c) :: db_sessions (c_db c)
  /\ db_revision (c_db c') = db_revision (c_db c) + 1 /\ exists p, c_pending c' = Some p /\ _db_session p = true.

(** [restored c c']: nothing is left of it. *)
Definition restored c c' : Prop := fixed_part c' = fixed_part c /\ c_db c' = c_db c /\ c_pending c' = None.

Lemma opened_step c c1 c2 : session_part c2 = session_part c1 -> opened c c1 -> opened c c2.
Proof.
  unfold session_part. intros [= Hr Hbl Hf Hh Hl Hb Hs Hv Hp] (Hfix & Hse & Hre & p & Hpe & Hdb). unfold opened.
  assert (fixed_part c2 = fixed_part c1) as -> by (unfold fixed_part; congruence).
  split; [done|]. split; [congruence|]. split; [congruence|]. rewrite Hpe in Hp.
  destruct (c_pending c2) as [p2|]; [|done]. injection Hp as Hp _. exists p2. split; [done|congruence].
Qed.

Lemma session_status c c' : session_part c' = session_part c -> (_block_status <$> c_pending c') = (_block_status <$> c_pending c).
Proof. unfold session_part. intros [= _ _ _ _ _ _ _ _ Hp]. destruct (c_pending c), (c_pending c'); try done. injection Hp as _ Hp. cbn. by f_equal. Qed.

Lemma opened_frame {A} (m : CM A) c c1 r c2 : frames keeps_session m -> m c1 = (r, c2) -> opened c c1 -> opened c c2.
Proof. intros Hm Hr. apply opened_step. specialize (Hm c1). rewrite Hr in Hm. symmetry. exact (f_equal fst Hm). Qed.

Lemma reset_restores c c' : opened c c' -> restored c (reset_pending c').
Proof.
  intros (Hf & Hs & Hr & p & Hp & Hdb). unfold reset_pending. rewrite Hp, Hdb. split; [exact Hf|]. split; [|done].
  cbn. unfold undo_session. rewrite Hs, Hr. destruct (c_db c) as [d ss rev]. cbn. f_equal. lia.
Qed.

Lemma reset_none c c' : restored c c' -> restored c (reset_pending c').
Proof. intros Hr. pose proof Hr as (_ & _ & Hp). unfold reset_pending. by rewrite Hp. Qed.

Lemma abort_restores c c' : opened c c' -> restored c (abort_block c').2.
Proof.
  intros Ho. unfold abort_block. pose proof Ho as (Hf & Hs & Hr & p & Hp & Hdb). rewrite Hp.
  destruct (extract_trx_metas c' p) as [metas c1] eqn:E. cbn. apply reset_restores. apply (opened_step _ c'); [|done].
  unfold extract_trx_metas in E. destruct (_block_stage p) as [b|a|bsp]; [by injection E as _ <-..|].
  destruct (c_bodies c' !! bsp) as [body|] eqn:Eb; injection E as _ <-; [|done].
  unfold session_part, fixed_part. cbn. by rewrite fmap_insert, (insert_id (body_block <$> c_bodies c')) by (by rewrite lookup_fmap, Eb).
Qed.

Lemma abort_none c c' : restored c c' -> restored c (abort_block c').2.
Proof. intros Hr. pose proof Hr as (_ & _ & Hp). unfold abort_block. by rewrite Hp. Qed.

(** ** [start_block] *)
Definition sessions_used c (s : block_status) : Prop := skip_db_sessions_of (status_view e c None) s = false.

Lemma open_pending_ends w n s id c : c_pending c = None -> sessions_used c s ->
  ends (open_pending (Sig := Sig) e w n s id) (fun r c' => match r with
    | Ok _ => opened c c' /\ exists b, (_block_stage <$> c_pending c') = Some (stage_building b) /\ bb_lists b = mk_building_block [] [] []
    | Err _ => c' = c end) c.
Proof.
  intros Hp Hs. unfold open_pending. apply ends_bind. unfold ends. cbn. apply ends_bind. unfold ends.
  destruct (head_state c) as [[h|ex] c1] eqn:Eh; apply head_run in Eh as ->; [|done]. cbn. rewrite Hs. cbn.
  apply ends_bind, ends_massert; intros Hrev; [|done]. apply ends_bind, ends_lift. destruct (next _ _ _) as [p|ex]; [|done].
  unfold ends. cbn. split; [|by eexists]. split; [done|]. split; [done|]. split; [done|]. by eexists.
Qed.

Lemma or_reset_spec (m : CM unit) (Q : res unit -> ctl -> Prop) c :
  ends m (fun r c' => match r with Ok u => Q (Ok u) c' | Err ex => Q (Err ex) (reset_pending c') end) c -> ends (or_reset m) Q c.
Proof. unfold ends, or_reset. by destruct (m c) as [[u|ex] c']. Qed.

Lemma start_block_ends w n s id c : c_pending c = None -> sessions_used c s ->
  ends (start_block e pc bc w n s id) (fun r c' => match r with Ok _ => opened c c' | Err _ => restored c c' end) c.
Proof.
  intros Hp Hs. unfold start_block. apply ends_bind. unfold ends. cbn. apply ends_bind, ends_massert; intros _; [|by split_and!].
  apply or_reset_spec, ends_bind. eapply ends_mono; [|by apply open_pending_ends]. intros [u|ex] c1; [intros [Ho _]|intros ->].
  - match goal with |- ends (if ?x then ?y else ?z) _ _ => set (m := if x then y else z) end.
    assert (Hm : frames keeps_session m) by (unfold m; frame_auto). unfold ends.
    destruct (m c1) as [[v|ex] c2] eqn:E; cbn; [|apply reset_restores]; by apply (opened_frame m c c1 _ _ Hm E).
  - apply reset_none. by split_and!.
Qed.

(** ** [commit_block] of an applied block *)
Definition records_reversible : bool :=
  match replay_head_time pc with None => true | Some _ => false end && negb (bool_decide (read_mode pc = IRREVERSIBLE)).

(** [applied c bsp c']: one session more, and the entry of the block. *)
Definition applied c bsp c' : Prop :=
  (c_blog c', c_fork c', c_head c', c_light_validation c', body_block <$> c_bodies c')
    = (c_blog c, c_fork c, c_head c, c_light_validation c, body_block <$> c_bodies c)
  /\ c_pending c' = None
  /\ db_sessions (c_db c') = db_current (c_db c) :: db_sessions (c_db c)
  /\ db_revision (c_db c') = db_revision (c_db c) + 1
  /\ if records_reversible
     then exists b body, heap (c_fork c) !! bsp = Some b /\ c_bodies c !! bsp = Some body
          /\ c_reversible c !! bs_num b = None /\ c_reversible c' = <[bs_num b := body_block body]> (c_reversible c)
     else c_reversible c' = c_reversible c.

Lemma fixed_part_eq c c' : fixed_part c' = fixed_part c ->
  c_reversible c' = c_reversible c /\ c_blog c' = c_blog c /\ c_fork c' = c_fork c /\ c_head c' = c_head c
  /\ c_light_validation c' = c_light_validation c /\ body_block <$> c_bodies c' = body_block <$> c_bodies c.
Proof. unfold fixed_part. by intros [= -> -> -> -> -> ->]. Qed.

(** The block of a state is the one it had. *)
Lemma same_block_of c c' bsp body : body_block <$> c_bodies c' = body_block <$> c_bodies c -> c_bodies c' !! bsp = Some body ->
  exists body0, c_bodies c !! bsp = Some body0 /\ body_block body0 = body_block body.
Proof.
  intros Hb Hl. assert (Hm : (body_block <$> c_bodies c') !! bsp = Some (body_block body)) by (by rewrite lookup_fmap, Hl).
  rewrite Hb, lookup_fmap in Hm. destruct (c_bodies c !! bsp) as [body0|]; [|done]. injection Hm as Hm. eauto.
Qed.

Lemma commit_applied c c1 bsp p : opened c c1 -> c_pending c1 = Some p -> _block_stage p = stage_completed bsp ->
  ends (commit_block pc false (mret tt)) (fun r c' => match r with Ok _ => applied c bsp c' | Err _ => restored c c' end) c1.
Proof.
  intros Ho Hp Hst. unfold commit_block, ends.
  assert (Hb : match commit_body pc false (mret tt) c1 with
    | (Ok _, c') => applied c bsp (push_session c')
    | (Err _, c') => c' = c1 end).
  { unfold commit_body, mbind, M_bind, my_pending. rewrite Hp, Hst. cbn. unfold record_reversible.
    pose proof Ho as (Hfix & Hse & Hre & _). apply fixed_part_eq in Hfix as (Hr & Hl & Hf & Hh & Hlv & Hbo).
    fold records_reversible. destruct records_reversible eqn:Erec.
    - unfold mbind, M_bind, get, lift. destruct (ForkDatabase.deref (c_fork c1) (Some bsp)) as [b|ex] eqn:Ed; [|done].
      destruct (c_bodies c1 !! bsp) as [body|] eqn:Eb; [|done]. unfold create_reversible.
      destruct (c_reversible c1 !! bs_num b) eqn:Er; [done|]. unfold applied. rewrite Erec. cbn.
      split; [congruence|]. split; [done|]. split; [done|]. split; [done|].
      destruct (same_block_of c c1 bsp body Hbo Eb) as (body0 & Hb0 & <-). exists b, body0.
      unfold ForkDatabase.deref in Ed. cbn in Ed. rewrite Hf in Ed. destruct (heap (c_fork c) !! bsp) as [b'|]; [|done]. injection Ed as ->.
      split; [done|]. split; [done|]. by rewrite <- Hr.
    - unfold applied. rewrite Erec. cbn. split; [congruence|]. by split_and!. }
  destruct (commit_body pc false (mret tt) c1) as [[u|ex] c2]; [exact Hb|]. cbn. rewrite Hb. by apply abort_restores.
Qed.

(** ** What the block under construction has *)
Definition building_of c : option building_stage := c_pending c ≫= fun p => match _block_stage p with stage_building b => Some b | _ => None end.
Definition tally_of (b : building_stage (Sig := Sig)) := (bb_pending b, _pending_trx_receipts (bb_lists b), _pending_trx_metas (bb_lists b)).
Definition tally c := tally_of <$> building_of c.
Abbreviation keeps_tally := (along tally (always eq)).
#[local] Instance tally_outcome : outcome keeps_tally := _.

Lemma building_run_of c b c' : my_building c = (Ok b, c') -> c' = c /\ building_of c = Some b.
Proof. intros [-> (p & Hp & Hb)]%building_run. unfold building_of. by rewrite Hp; cbn; rewrite Hb. Qed.

Lemma tally_my_pending : frames keeps_tally (my_pending (Sig := Sig)).
Proof. apply frame_read. intros c. unfold my_pending. by destruct (c_pending c). Qed.
#[local] Hint Resolve tally_my_pending : frames.
Lemma tally_my_building : frames keeps_tally (my_building (Sig := Sig)).
Proof. unfold my_building. frame_auto. Qed.
Lemma tally_head_state : frames keeps_tally (head_state (Sig := Sig)).
Proof. unfold head_state. frame_auto. Qed.
Lemma tally_on_chain {A} (m : M chain_db A) : frames keeps_tally (on_chain (Sig := Sig) m).
Proof. intros c. unfold on_chain, along, always. by destruct (m _). Qed.
#[local] Hint Resolve tally_my_building tally_head_state tally_on_chain : frames.

Lemma tally_set_building f : (forall b, tally_of (f b) = tally_of b) -> frames keeps_tally (set_building (Sig := Sig) f).
Proof.
  intros Hf c. unfold set_building, along, always, mbind, M_bind. destruct (my_pending c) as [[p|ex] c1] eqn:Ep; apply pending_run in Ep as [-> Hp]; [|done].
  pose proof (tally_my_building c) as Hk. destruct (my_building c) as [[b|ex] c2] eqn:Eb; [|done].
  apply building_run_of in Eb as [-> Hb]. cbn. unfold tally. rewrite Hb. cbn. by rewrite Hf.
Qed.

Lemma tally_ignore (m : CM unit) : frames keeps_tally m -> frames keeps_tally (ignore_failure m).
Proof. intros Hm c. specialize (Hm c). unfold ignore_failure. destruct (m c) as [[u|ex] c']; [done|]. by destruct (_ || _). Qed.

(** A push runs on the database and the lists of the pending block. *)
Definition push_part c (b : building_stage) : push_state (K := public_key) (Sig := Sig) :=
  mk_push_state (db_current (c_db c)) (bb_lists b) (c_timer c) (c_tick c).
Definition after_push c (p : pending_state) (b : building_stage) (s : push_state) : ctl :=
  set_c_pending (Some (set_stage (stage_building (set_lists (ps_block s) b)) p))
    (set_c_clock (ps_timer s) (ps_tick s) (set_c_db (set_current (ps_db s) (c_db c)) c)).

Lemma on_push_ends {A} rc (m : apply_env -> M push_state A) c (Q : res A -> ctl -> Prop) :
  (forall ex, is_std_exception ex = false -> Q (Err ex) c) ->
  (forall p b h, c_pending c = Some p -> _block_stage p = stage_building b ->
     ends (m (pending_env e rc (c_light_validation c) (bs_num h) (_block_status p) b)) (fun r s' => Q r (after_push c p b s')) (push_part c b)) ->
  ends (on_push e rc m) Q c.
Proof.
  intros Herr Hok. unfold on_push. apply ends_bind. unfold ends at 1. destruct (my_pending c) as [[p|ex] c1] eqn:Ep.
  2: { cbn. unfold my_pending in Ep. destruct (c_pending c); [done|]. injection Ep as <- <-. by apply Herr. }
  apply pending_run in Ep as [-> Hp]. cbn. apply ends_bind. unfold ends at 1. unfold my_building, mbind, M_bind, my_pending. rewrite Hp.
  destruct (_block_stage p) as [b|a|q] eqn:Eb; cbn; [|by apply Herr..].
  apply ends_bind. unfold ends at 1. destruct (head_state c) as [h c1] eqn:Eh. pose proof (head_run _ _ _ Eh) as ->. cbn.
  destruct h as [h|ex]; cbn.
  2: { apply Herr. unfold head_state in Eh. injection Eh as Hd. unfold ForkDatabase.deref in Hd. cbn in Hd. destruct (heap _ !! _); [done|]. by injection Hd as <-. }
  specialize (Hok p b h Hp Eb). unfold ends, push_part, after_push in *. destruct (m _ _) as [r s']. exact Hok.
Qed.

Lemma building_after_push c p b s : building_of (after_push c p b s) = Some (set_lists (ps_block s) b).
Proof. done. Qed.

Lemma pending_skips rc light num s b : (rc = true \/ skip_db_sessions_of (mk_view None false light (conf (te_view (ax_trx e)))) s = false) ->
  skip_db_sessions (te_view (ax_trx (pending_env (Sig := Sig) e rc light num s b))) = false.
Proof.
  unfold skip_db_sessions, skip_db_sessions_of. cbn. intros [->|Hs]; [by rewrite andb_false_r|]. destruct rc; [by rewrite andb_false_r|exact Hs].
Qed.

Definition no_skip (s : block_status) : Prop := s <> irreversible \/ disable_replay_opts (conf (te_view (ax_trx e))) = true.
Lemma no_skip_sessions v s : conf v = conf (te_view (ax_trx e)) -> no_skip s -> skip_db_sessions_of v s = false.
Proof. unfold skip_db_sessions_of. intros -> [Hs| ->]; [by rewrite bool_decide_false|by rewrite andb_false_r]. Qed.

(** What pushing leaves in the lists: nothing, or one receipt more. *)
Definition packed_of (r : transaction_receipt (Sig := Sig)) : option (packed_transaction Sig) :=
  match rc_trx r with receipt_packed p => Some p | receipt_id _ => None end.
Definition same_lists (l l' : building_block (K := public_key) (Sig := Sig)) : Prop :=
  _pending_trx_receipts l' = _pending_trx_receipts l /\ _pending_trx_metas l' = _pending_trx_metas l.

Definition pushed_lists (m : transaction_metadata) (l l' : building_block (K := public_key) (Sig := Sig)) : Prop :=
  same_lists l l' \/ exists h, _pending_trx_receipts l' = _pending_trx_receipts l ++ [mk_transaction_receipt h (receipt_packed (tm_packed m))]
    /\ _pending_trx_metas l' = _pending_trx_metas l ++ [set_tm_billed (rh_cpu_usage_us h) m] /\ tm_implicit m = false.
Definition scheduled_lists (l l' : building_block (K := public_key) (Sig := Sig)) : Prop :=
  same_lists l l' \/ exists h id, _pending_trx_receipts l' = _pending_trx_receipts l ++ [mk_transaction_receipt h (receipt_id id)]
    /\ _pending_trx_metas l' = _pending_trx_metas l.

Lemma same_push_lists s s' : same_push s s' -> same_lists (ps_block s) (ps_block s').
Proof. intros [_ ->]. by split. Qed.

Lemma push_input_lists e' m deadline billed ex s : skip_db_sessions (te_view (ax_trx e')) = false ->
  ends (push_transaction e' pc m deadline billed ex) (fun _ s' => pushed_lists m (ps_block s) (ps_block s')) s.
Proof.
  intros Hs. eapply ends_mono; [|by apply push_transaction_ends]. intros [tr|exn] s'; cbn.
  - intros [(ex' & _ & _ & _ & Hsame)|(x & _ & _ & Hk)]; [left; by apply same_push_lists|].
    destruct (keeps_transactions e' pc); [|left; by apply same_push_lists]. destruct Hk as [_ Hb]. unfold pushed_block in Hb.
    destruct (tm_implicit m) eqn:Ei; [left; rewrite Hb; by split|]. right. rewrite Hb. by eexists.
  - intros Hsame. left. by apply same_push_lists.
Qed.

Lemma push_scheduled_lists e' id deadline billed ex s : skip_db_sessions (te_view (ax_trx e')) = false ->
  ends (push_scheduled_transaction e' pc id deadline billed ex) (fun _ s' => scheduled_lists (ps_block s) (ps_block s')) s.
Proof.
  intros Hs. eapply ends_mono; [|by apply push_scheduled_ends]. intros [tr|exn] s'; cbn.
  - intros (gto & s1 & _ & _ & [(_ & _ & Hsame)|Hr]); [left; by apply same_push_lists|]. right.
    destruct Hr as [h _ _ _ _ _ Hb|dtrx en x _ _ _ _ Hb|x _ _ _ _ Hb|h lim exn _ _ _ _ _ _ Hb]; destruct Hb as (Hr & _ & Hm); by eexists _, _.
  - intros Hsame. left. by apply same_push_lists.
Qed.

(** The system transaction is implicit: it leaves no receipt. *)
Lemma frame_lift_bind {S A D} (R : bool -> relation S) `{!outcome R} (r : res A) (f : A -> M S D) :
  (forall a, r = Ok a -> frames R (f a)) -> frames R (lift r ≫= f).
Proof. intros Hf. destruct r as [a|ex]; [intros s; by apply Hf|intros s; apply outcome_refl]. Qed.

Lemma onblock_implicit h m : onblock_metadata bc h = Ok m -> tm_implicit m = true.
Proof. unfold onblock_metadata. intros (p & _ & Hm)%res_bind_ok. by injection Hm as <-. Qed.

Lemma tally_lists b l : same_lists (bb_lists b) l -> tally_of (set_lists l b) = tally_of b.
Proof. intros [Hr Hm]. unfold tally_of. cbn. by rewrite Hr, Hm. Qed.

Lemma tally_push_onblock : frames keeps_tally (push_onblock e pc bc).
Proof.
  unfold push_onblock. apply tally_ignore, frame_bind; [apply tally_head_state|intros h].
  apply frame_lift_bind; [apply _|]. intros m Hm%onblock_implicit. apply frame_bind; [|intros tr; apply frame_ret].
  intros c. unfold along, always. refine (on_push_ends true _ c (fun _ c' => tally c = tally c') _ _); [done|].
  intros p b h' Hp Hb. eapply ends_mono; [|apply push_input_lists, pending_skips; by left]. intros r s' Hl.
  unfold tally. rewrite building_after_push. unfold building_of. rewrite Hp. cbn. rewrite Hb. cbn. f_equal. symmetry. apply tally_lists.
  destruct Hl as [Hl|(hd & _ & _ & Hi)]; [exact Hl|congruence].
Qed.

Lemma tally_start_tail : frames keeps_tally (promote_proposed;; leave_standby;; push_onblock e pc bc;; clear_expired_transactions e;; update_authority : CM unit).
Proof.
  pose proof tally_push_onblock. pose proof (fun s => tally_set_building (set_new_schedule s) (fun _ => eq_refl)).
  unfold promote_proposed, leave_standby, clear_expired_transactions, update_authority, on_properties, on_dedup_table, on_chain_native. frame_auto.
Qed.

(** ** Replaying the receipts of a block *)
Definition replayed (phs : pending_block_header_state) (status : block_status) (rs : list (transaction_receipt (Sig := Sig))) c : Prop :=
  exists b, building_of c = Some b /\ (_block_status <$> c_pending c) = Some status /\ bb_pending b = phs
  /\ map rc_header (_pending_trx_receipts (bb_lists b)) = map rc_header rs
  /\ length (_pending_trx_metas (bb_lists b)) = length (omap packed_of rs).

Lemma replayed_nil c c' phs status : tally c' = Some (phs, [], []) -> (_block_status <$> c_pending c') = Some status -> replayed phs status [] c'.
Proof.
  unfold tally. intros Ht Hs. destruct (building_of c') as [b|] eqn:Eb; [|done]. injection Ht as Hp Hr Hm. exists b.
  split; [done|]. split; [done|]. split; [done|]. by rewrite Hr, Hm.
Qed.

Lemma pushed_reproduced (l l' : building_block (K := public_key) (Sig := Sig)) (r : transaction_receipt (Sig := Sig)) : (exists h rt, _pending_trx_receipts l' = _pending_trx_receipts l ++ [mk_transaction_receipt h rt] /\ rc_header r = h) ->
  forall rs, map rc_header (_pending_trx_receipts l) = map rc_header rs -> map rc_header (_pending_trx_receipts l') = map rc_header (rs ++ [r]).
Proof. intros (h & rt & Hl & Hh) rs Hrs. by rewrite Hl, !map_app, Hrs; cbn; rewrite Hh. Qed.

Lemma apply_receipt_ends phs status rs r m c : no_skip status -> replayed phs status rs c ->
  ends (apply_receipt e pc r m) (fun o c' => match o with Ok _ => replayed phs status (rs ++ [r]) c' | Err _ => True end) c.
Proof.
  intros Hns (b & Hb & Hst & Hphs & Hrs & Hms). unfold apply_receipt. apply ends_bind. unfold ends at 1.
  destruct (my_building c) as [[b'|ex] c0] eqn:Eb; [|done]. apply building_run_of in Eb as [-> Hb']. rewrite Hb in Hb'. injection Hb' as <-. cbn.
  apply ends_bind. set (Q := fun (o : res transaction_trace) c1 => match o with Ok _ => exists b1, building_of c1 = Some b1
    /\ (_block_status <$> c_pending c1) = Some status /\ bb_pending b1 = phs
    /\ (same_lists (bb_lists b) (bb_lists b1) \/ exists h rt, _pending_trx_receipts (bb_lists b1) = _pending_trx_receipts (bb_lists b) ++ [mk_transaction_receipt h rt]
        /\ length (_pending_trx_metas (bb_lists b1)) = length (omap packed_of (rs ++ [r]))) | Err _ => True end).
  assert (HQ : ends (push_receipt_of e pc r m) Q c).
  { unfold push_receipt_of. destruct (rc_trx r) as [id|pt] eqn:Er.
    - apply on_push_ends; [done|]. intros p b' h Hp Hst'. eapply ends_mono; [|apply push_scheduled_lists].
      + intros [tr|ex] s' Hl; [|done]. cbn. unfold building_of in Hb. rewrite Hp in Hb. cbn in Hb. rewrite Hst' in Hb. injection Hb as ->.
        eexists. split; [exact (building_after_push c p b s')|]. rewrite Hp in Hst. split; [exact Hst|]. split; [done|].
        destruct Hl as [Hl|(hd & id' & Hr' & Hm')]; [by left|right]. exists hd, (receipt_id id'). split; [exact Hr'|].
        cbn. rewrite Hm', omap_app. unfold packed_of at 2. cbn. rewrite Er. by rewrite app_nil_r.
      + apply pending_skips. right. rewrite Hp in Hst. injection Hst as ->. by apply no_skip_sessions.
    - apply ends_bind, ends_lift. destruct m as [m|ex]; [|done].
      apply on_push_ends; [done|]. intros p b' h Hp Hst'. eapply ends_mono; [|apply push_input_lists].
      + intros [tr|ex] s' Hl; [|done]. cbn. unfold building_of in Hb. rewrite Hp in Hb. cbn in Hb. rewrite Hst' in Hb. injection Hb as ->.
        eexists. split; [exact (building_after_push c p b s')|]. rewrite Hp in Hst. split; [exact Hst|]. split; [done|].
        destruct Hl as [Hl|(hd & Hr' & Hm' & _)]; [by left|right]. exists hd, (receipt_packed (tm_packed m)). split; [exact Hr'|].
        cbn. rewrite Hm', omap_app, !length_app. unfold packed_of at 2. cbn. rewrite Er. cbn. by rewrite Hms.
      + apply pending_skips. right. rewrite Hp in Hst. injection Hst as ->. by apply no_skip_sessions. }
  eapply ends_mono; [|exact HQ]. intros [tr|ex] c1; [|done]. intros (b1 & Hb1 & Hs1 & Hp1 & Hl1).
  apply ends_bind. assert (Hkeep : ends (match tt_except tr with Some ex => if transaction_can_fail r then mret tt else throw ex | None => mret tt end)
    (fun o c2 => match o with Ok _ => c2 = c1 | Err _ => True end) c1) by (destruct (tt_except tr); [destruct (transaction_can_fail r)|]; done).
  eapply ends_mono; [|exact Hkeep]. intros [u|ex] c2; [intros ->|done].
  apply ends_bind. unfold ends at 1. destruct (my_building c1) as [[b2|ex] c3] eqn:Eb; [|done]. apply building_run_of in Eb as [-> Hb2].
  rewrite Hb1 in Hb2. injection Hb2 as <-. cbn. apply ends_bind, ends_massert; intros _; [|done].
  apply ends_bind, ends_massert; intros Hlen; [|done]. apply ends_massert; intros Hlast; [|done].
  apply Nat.eqb_eq in Hlen. apply bool_decide_eq_true in Hlast.
  destruct Hl1 as [[Hr1 _]|(hd & rt & Hr1 & Hm1)]; [rewrite Hr1 in Hlen; lia|].
  exists b1. split; [done|]. split; [done|]. split; [done|]. split; [|exact Hm1].
  apply (pushed_reproduced (bb_lists b)); [|done]. exists hd, rt. split; [done|]. rewrite Hr1, last_snoc in Hlast. by injection Hlast.
Qed.

Lemma apply_receipts_ends phs status f i rs rs0 c : no_skip status -> replayed phs status rs0 c ->
  ends (apply_receipts e pc f i rs) (fun o c' => match o with Ok _ => replayed phs status (rs0 ++ rs) c' | Err _ => True end) c.
Proof.
  intros Hns. revert i rs0 c. induction rs as [|r rs IH]; intros i rs0 c Hr; cbn [apply_receipts]; [by rewrite app_nil_r|].
  assert (Hstep : forall m k, ends (apply_receipt e pc r m;; apply_receipts e pc f k rs)
    (fun o c' => match o with Ok _ => replayed phs status (rs0 ++ r :: rs) c' | Err _ => True end) c).
  { intros m k. apply ends_bind. eapply ends_mono; [|by apply apply_receipt_ends]. intros [u|ex] c'; [intros Hr'|done].
    change (r :: rs) with ([r] ++ rs). rewrite app_assoc. by apply IH. }
  destruct (rc_trx r); apply Hstep.
Qed.

(** ** What leaves [apply_block] is from library fc *)
Hypothesis wraps : forall ex, is_std_exception (wrap_std_exception (ax_fc e) ex) = false.
Hypothesis recovers : forall p ex, recover_keys bc p = Err ex -> is_std_exception ex = false.

Lemma rethrow_not_std ex : is_std_exception (fc_rethrow e ex) = false.
Proof. unfold fc_rethrow. destruct (is_std_exception ex) eqn:E; [apply wraps|done]. Qed.

Lemma throws_rethrow {A} (m : CM A) : throws_fc (rethrow_block e m).
Proof. intros c. unfold wp, rethrow_block. destruct (m c) as [[a|ex] c']; [done|]. apply rethrow_not_std. Qed.
Lemma throws_my_pending : throws_fc (my_pending (Sig := Sig)).
Proof. intros c. unfold wp, my_pending. by destruct (c_pending c). Qed.
Lemma throws_my_building : throws_fc (my_building (Sig := Sig)).
Proof. apply throws_bind; [apply throws_my_pending|]. intros p. by destruct (_block_stage p). Qed.
Lemma throws_set_building f : throws_fc (set_building (Sig := Sig) f).
Proof. apply throws_bind; [apply throws_my_pending|]. intros p. apply throws_bind; [apply throws_my_building|done]. Qed.

Lemma throws_finalize : throws_fc (finalize_block (Sig := Sig) e).
Proof.
  apply throws_bind; [done|]. intros c. do 2 (apply throws_bind; [by apply throws_massert|intros _]). apply throws_rethrow.
Qed.

Lemma throws_on_push {A} rc (m : apply_env -> M push_state A) :
  (forall head_num light status b s, wp (m (pending_env (Sig := Sig) e rc light head_num status b)) (fun ex => is_std_exception ex = false) (fun _ _ => True) s) ->
  throws_fc (on_push (Sig := Sig) e rc m).
Proof.
  intros Hm c. enough (ends (on_push e rc m) (fun r _ => match r with Ok _ => True | Err ex => is_std_exception ex = false end) c) as Ho
    by (unfold ends, wp in *; by destruct (on_push e rc m c) as [[a|ex] c']).
  apply on_push_ends; [done|]. intros p b h _ _. specialize (Hm (bs_num h) (c_light_validation c) (_block_status p) b (push_part c b)).
  unfold ends, wp in *. by destruct (m _ _) as [[a|ex] s'].
Qed.

Lemma throws_capture {A} rc light num status b (m : M push_state A) s :
  wp (capture_and_rethrow (Sig := Sig) (pending_env (Sig := Sig) e rc light num status b) m) (fun ex => is_std_exception ex = false) (fun _ _ => True) s.
Proof. unfold wp, capture_and_rethrow. destruct (m s) as [[a|ex] s']; [done|]. apply rethrow_not_std. Qed.

(** The trace of a failed push holds an exception of library fc. *)
Definition fc_trace (r : res transaction_trace) : Prop :=
  match r with Ok tr => forall ex, tt_except tr = Some ex -> is_std_exception ex = false | Err ex => is_std_exception ex = false end.

Lemma kept_not_std ex : kept_in_trace ex = true -> is_std_exception ex = false.
Proof. by destruct ex. Qed.
Lemma subjective_not_std (e' : apply_env (K := public_key)) ex : scheduled_subjective e' ex = true -> is_std_exception ex = false.
Proof. unfold scheduled_subjective. destruct (is_producing_block _); by destruct ex. Qed.

Lemma capture_fc {A} rc light num status b (m : M push_state A) s ex s' :
  capture_and_rethrow (Sig := Sig) (pending_env (Sig := Sig) e rc light num status b) m s = (Err ex, s') -> is_std_exception ex = false.
Proof. intros Hr. pose proof (throws_capture rc light num status b m s) as Hc. unfold wp in Hc. by rewrite Hr in Hc. Qed.

Lemma push_input_fc rc light num status b m deadline billed ex s :
  skip_db_sessions (te_view (ax_trx (pending_env (Sig := Sig) e rc light num status b))) = false ->
  ends (push_transaction (pending_env e rc light num status b) pc m deadline billed ex) (fun r _ => fc_trace r) s.
Proof.
  intros Hs. pose proof (push_transaction_ends _ pc m deadline billed ex s Hs) as Ho. unfold ends in *.
  destruct (push_transaction _ _ _ _ _ _ s) as [[tr|exn] s'] eqn:E; cbn in *.
  - intros exn Hex. destruct Ho as [(ex' & Hex' & Hk & _)|(x & _ & (_ & Hn & _) & _)]; [|congruence].
    rewrite Hex in Hex'. injection Hex' as ->. by apply kept_not_std.
  - unfold push_transaction, mbind at 1, M_bind at 1, massert in E. destruct (negb (deadline =? 0)); cbn in E.
    + by apply capture_fc in E.
    + by injection E as <- _.
Qed.

Lemma push_scheduled_fc rc light num status b id deadline billed ex s :
  skip_db_sessions (te_view (ax_trx (pending_env (Sig := Sig) e rc light num status b))) = false ->
  ends (push_scheduled_transaction (pending_env e rc light num status b) pc id deadline billed ex) (fun r _ => fc_trace r) s.
Proof.
  intros Hs. pose proof (push_scheduled_ends _ pc id deadline billed ex s Hs) as Ho. unfold ends in *.
  destruct (push_scheduled_transaction _ _ _ _ _ _ s) as [[tr|exn] s'] eqn:E; cbn in *.
  - intros exn Hex. destruct Ho as (gto & s1 & _ & _ & [(_ & (ex' & Hex' & Hsub) & _)|Hr]).
    + rewrite Hex in Hex'. injection Hex' as ->. by apply subjective_not_std in Hsub.
    + destruct Hr as [h _ _ _ Hn _ _|dtrx en x _ _ (_ & Hn & _) _ _|x _ _ (_ & Hn & _) _ _|h lim exn' Hex' Hk _ _ _ _ _]; [congruence..|].
      rewrite Hex in Hex'. injection Hex' as ->. by apply kept_not_std.
  - unfold push_scheduled_transaction, mbind at 1, M_bind at 1, get in E. destruct (find_by _ _); [|by injection E as <- _].
    by apply capture_fc in E.
Qed.

(** Under no exception of the standard library, nothing that [apply_receipt]
    throws is one. *)
Definition fc_only {A} (r : res A) : Prop := match r with Err ex => is_std_exception ex = false | Ok _ => True end.

Lemma push_receipt_of_fc status r m c : no_skip status -> (_block_status <$> c_pending c) = Some status -> fc_only m ->
  ends (push_receipt_of e pc r m) (fun r _ => fc_trace r) c.
Proof.
  intros Hns Hst Hm. unfold push_receipt_of. destruct (rc_trx r) as [id|pt].
  - apply on_push_ends; [done|]. intros p b h Hp _. apply push_scheduled_fc, pending_skips. right.
    rewrite Hp in Hst. injection Hst as ->. by apply no_skip_sessions.
  - apply ends_bind, ends_lift. destruct m as [m|ex]; [|done]. apply on_push_ends; [done|]. intros p b h Hp _. apply push_input_fc, pending_skips.
    right. rewrite Hp in Hst. injection Hst as ->. by apply no_skip_sessions.
Qed.

Lemma apply_receipt_fc status r m c : no_skip status -> (_block_status <$> c_pending c) = Some status -> fc_only m ->
  ends (apply_receipt e pc r m) (fun o c' => fc_only o /\ (_block_status <$> c_pending c') = Some status) c.
Proof.
  intros Hns Hst Hm. assert (Hstat : forall o c', apply_receipt e pc r m c = (o, c') -> (_block_status <$> c_pending c') = Some status).
  { intros o c' Hr. rewrite <- Hst. apply session_status. pose proof (keeps_apply_receipt r m c) as Hk. rewrite Hr in Hk. symmetry. exact (f_equal fst Hk). }
  unfold ends. destruct (apply_receipt e pc r m c) as [o c'] eqn:E. split; [|by apply (Hstat o)]. cbn.
  enough (ends (apply_receipt e pc r m) (fun o _ => fc_only o) c) as Ho by (unfold ends in Ho; by rewrite E in Ho).
  unfold apply_receipt. apply ends_bind. unfold ends at 1. pose proof (throws_my_building c) as Hb. unfold wp in Hb.
  destruct (my_building c) as [[b|ex] c0] eqn:Eb; [|done]. apply building_run_of in Eb as [-> _]. cbn.
  apply ends_bind. eapply ends_mono; [|by apply (push_receipt_of_fc status)]. intros [tr|ex] c1 Htr; [|done].
  apply ends_bind. destruct (tt_except tr) as [ex|] eqn:Ex; [destruct (transaction_can_fail r)|]; [|by apply Htr|];
    (apply ends_bind; unfold ends at 1; pose proof (throws_my_building c1) as Hb1; unfold wp in Hb1;
     cbn; destruct (my_building c1) as [[b1|ex1] c2]; [|done]; cbn;
     apply ends_bind, ends_massert; intros _; [|done]; apply ends_bind, ends_massert; intros _; [|done]; by apply ends_massert).
Qed.

Lemma apply_receipts_fc status f i rs c : no_skip status -> (_block_status <$> c_pending c) = Some status ->
  (forall j pt, (j < i + length (omap packed_of rs))%nat -> fc_only (f j pt)) ->
  ends (apply_receipts e pc f i rs) (fun o _ => fc_only o) c.
Proof.
  intros Hns. revert i c. induction rs as [|r rs IH]; intros i c Hst Hf; cbn [apply_receipts]; [done|].
  cbn [omap list_omap] in Hf. unfold packed_of at 1 in Hf. destruct (rc_trx r); cbn [length] in Hf;
    (apply ends_bind; eapply ends_mono; [|apply (apply_receipt_fc status)]; [|done|done|]);
    [|done| |apply Hf; lia]; intros [u|ex] c'; cbn; intros [Ho Hst']; try done; apply IH; try done.
  intros j pt Hj. apply Hf. lia.
Qed.

(** ** [finalize_block] *)
Definition sealed (b : building_stage (Sig := Sig)) (a : assembled_block) : Prop :=
  exists trx_mroot act_mroot es sb, calculate_action_merkle (_actions (bb_lists b)) = Ok act_mroot
    /\ match bb_transaction_mroot b with Some d => trx_mroot = d | None => calculate_trx_merkle (_pending_trx_receipts (bb_lists b)) = Ok trx_mroot end
    /\ ab_unsigned_block a = mk_signed_block (make_block_header (bb_pending b) trx_mroot act_mroot (bb_new_schedule b) es sb) (_pending_trx_receipts (bb_lists b)) []
    /\ ab_id a = header_id (sh_header (sb_header (ab_unsigned_block a))) /\ ab_pending a = bb_pending b /\ ab_trx_metas a = _pending_trx_metas (bb_lists b).

Lemma finalize_ends c b : building_of c = Some b ->
  ends (finalize_block e) (fun o c' => match o with
    | Ok _ => exists a, (_block_stage <$> c_pending c') = Some (stage_assembled a) /\ sealed b a
    | Err _ => True end) c.
Proof.
  intros Hb. unfold finalize_block. apply ends_bind. unfold ends at 1. cbn. apply ends_bind, ends_massert; intros _; [|done].
  apply ends_bind, ends_massert; intros _; [|done].
  match goal with |- ends (rethrow_block e ?m) ?Q c => enough (ends m Q c) as Hm by
    (unfold ends, rethrow_block in *; destruct (m c) as [[u|ex] c']; [exact Hm|done]) end.
  apply ends_bind. unfold ends at 1. destruct (my_building c) as [[b'|ex] c0] eqn:Eb; [|done]. apply building_run_of in Eb as [-> Hb'].
  rewrite Hb in Hb'. injection Hb' as <-. cbn. apply ends_bind. unfold ends at 1.
  destruct (on_chain_native _ c) as [[u|ex] c1]; [cbn|done]. apply ends_bind. unfold ends at 1. cbn.
  apply ends_bind, ends_lift. destruct (match bb_transaction_mroot b with Some d => _ | None => _ end) as [trx_mroot|ex] eqn:Et; [|done].
  apply ends_bind, ends_lift. destruct (calculate_action_merkle _) as [act_mroot|ex] eqn:Ea; [|done].
  apply ends_bind. unfold ends at 1. destruct (on_summaries _ c1) as [[u'|ex] c2]; [cbn|done].
  apply ends_bind. unfold ends at 1. destruct (my_pending c2) as [[p|ex] c3]; [cbn|done]. unfold ends. cbn. eexists. split; [done|].
  eexists trx_mroot, act_mroot, _, _. split; [exact Ea|]. split; [|by split_and!].
  destruct (bb_transaction_mroot b); [by injection Et|done].
Qed.

(** ** [apply_block] *)

(** [reproduced]: the node that applies the block builds it again, receipt by
    receipt, from its own head. *)
Definition reproduced c bsp : Prop :=
  exists h body phs b a, heap (c_fork c) !! c_head c = Some h /\ c_bodies c !! bsp = Some body
    /\ let header := sh_header (sb_header (body_block body)) in
       next (bs_state h) (timestamp header) (confirmed header) = Ok phs
       /\ bb_pending b = phs /\ sealed b a /\ bb_transaction_mroot b = Some (transaction_mroot header)
       /\ map rc_header (_pending_trx_receipts (bb_lists b)) = map rc_header (transactions (body_block body))
       /\ ab_id a = header_id header.

Definition caches_ok (body : block_body (Sig := Sig)) : Prop :=
  _pub_keys_recovered body = true \/ _cached_trxs body <> [] -> (length (omap packed_of (transactions (body_block body))) <= length (_cached_trxs body))%nat.

Definition all_caches_ok c : Prop := forall q body, c_bodies c !! q = Some body -> caches_ok body.

Definition apply_outcome c bsp (r : res unit) c' : Prop :=
  all_caches_ok c' /\ match r with
  | Ok _ => applied c bsp c' /\ reproduced c bsp
  | Err ex => (opened c c' /\ is_std_exception ex = false) \/ restored c c'
  end.

(** What [start_block] leaves for the receipts. *)
Definition started w n s c c' : Prop :=
  opened c c' /\ c_bodies c' = c_bodies c /\ exists h phs, heap (c_fork c) !! c_head c = Some h /\ next (bs_state h) w n = Ok phs
    /\ replayed phs s [] c'.

Lemma start_block_spec w n s id c : c_pending c = None -> no_skip s ->
  ends (start_block e pc bc w n s id) (fun o c' => c_bodies c' = c_bodies c /\ match o with Ok _ => started w n s c c' | Err _ => restored c c' end) c.
Proof.
  intros Hp Hns. assert (Hs : sessions_used c s) by (by apply no_skip_sessions).
  unfold start_block. apply ends_bind. unfold ends at 1. cbn. apply ends_bind, ends_massert; intros _; [|by split_and!].
  apply or_reset_spec, ends_bind.
  assert (Ho : ends (open_pending (Sig := Sig) e w n s id) (fun o c1 => match o with
    | Ok _ => started w n s c c1 | Err _ => c1 = c end) c).
  { unfold open_pending. apply ends_bind. unfold ends at 1. cbn. apply ends_bind. unfold ends at 1.
    destruct (head_state c) as [[h|ex] c1] eqn:Eh; pose proof (head_run _ _ _ Eh) as ->; [|done]. cbn. rewrite Hs. cbn.
    apply ends_bind, ends_massert; intros _; [|done]. apply ends_bind, ends_lift. destruct (next _ _ _) as [p|ex] eqn:En; [|done].
    unfold ends. cbn. rewrite Hs. split; [split; [done|]; split; [done|]; split; [done|]; by eexists|]. split; [done|]. exists h, p. split.
    { unfold head_state in Eh. injection Eh as Hd. unfold ForkDatabase.deref in Hd. cbn in Hd. destruct (heap _ !! _); [|done]. by injection Hd as ->. }
    split; [done|]. by apply (replayed_nil c). }
  eapply ends_mono; [|exact Ho]. intros [u|ex] c1; [|intros ->; split; [by unfold reset_pending; rewrite Hp|apply reset_none; by split_and!]].
  intros (Hop & Hbo & h & phs & Hh & Hn & b & Hb & Hst & Hphs & Hr & Hm).
  assert (Ht1 : tally c1 = Some (phs, [], [])).
  { unfold tally. rewrite Hb. cbn. unfold tally_of. rewrite Hphs. apply map_eq_nil in Hr. rewrite Hr. by destruct (_pending_trx_metas _). }
  match goal with |- ends (if ?x then ?y else ?z) _ _ => set (m := if x then y else z) end.
  assert (Hk : frames keeps_session m) by (unfold m; frame_auto).
  assert (Ht : frames keeps_tally m) by (unfold m; destruct (_ || _); [apply tally_start_tail|apply frame_ret]).
  specialize (Ht c1). unfold ends. destruct (m c1) as [o c2] eqn:E. cbn. unfold along, always in Ht. cbn in Ht.
  pose proof (opened_frame m c c1 _ _ Hk E Hop) as Hop2. specialize (Hk c1). rewrite E in Hk. unfold along, always in Hk. cbn in Hk.
  assert (Hb2 : c_bodies c2 = c_bodies c) by (rewrite <- Hbo; symmetry; exact (f_equal snd Hk)).
  destruct o as [v|ex]; cbn.
  - split; [done|]. split; [done|]. split; [done|]. exists h, phs. split; [done|]. split; [done|].
    apply (replayed_nil c); [by rewrite <- Ht|]. rewrite <- Hst. apply session_status. symmetry. exact (f_equal fst Hk).
  - split; [|by apply reset_restores]. unfold reset_pending. destruct (c_pending c2) as [p|]; [|done]. cbn. by destruct (_db_session p).
Qed.

Lemma set_building_run f c b : building_of c = Some b ->
  exists c', set_building f c = (Ok tt, c') /\ building_of c' = Some (f b) /\ full_part c' = full_part c.
Proof.
  unfold building_of. intros Hb. destruct (c_pending c) as [p|] eqn:Hp; [|done]. cbn in Hb. destruct (_block_stage p) as [b'|a|q] eqn:Hst; try done.
  injection Hb as ->. eexists. split.
  - unfold set_building, my_building, mbind, M_bind, my_pending. rewrite Hp. cbn. rewrite Hp. cbn. rewrite Hst. reflexivity.
  - split; [done|]. by apply full_part_stage.
Qed.

(** Between start and commit: the session is open and no cache has changed. *)
Definition inside c c' : Prop := opened c c' /\ c_bodies c' = c_bodies c.

Lemma inside_step c c1 c2 : full_part c2 = full_part c1 -> inside c c1 -> inside c c2.
Proof. intros Hf [Ho Hb]. split; [apply (opened_step c c1); [exact (f_equal fst Hf)|done]|]. rewrite <- Hb. exact (f_equal snd Hf). Qed.

Lemma inside_ends {A} c c1 (m : CM A) (Q : res A -> ctl -> Prop) : frames keeps_session m -> inside c c1 ->
  ends m Q c1 -> ends m (fun o c2 => inside c c2 /\ Q o c2) c1.
Proof.
  intros Hm Hi HQ. unfold ends in *. split; [|exact HQ]. apply (inside_step c c1); [|done]. symmetry. apply (Hm c1).
Qed.

Lemma throws_ends {A} (m : CM A) c (Q : res A -> ctl -> Prop) : throws_fc m -> ends m Q c -> ends m (fun o c' => fc_only o /\ Q o c') c.
Proof. intros Hm HQ. unfold ends in *. split; [|exact HQ]. specialize (Hm c). unfold wp in Hm. by destruct (m c) as [[a|ex] c']. Qed.

(** All receipts, then the sealed block. *)
Lemma replay_block c c1 s phs f body c1' : no_skip s -> inside c c1 -> replayed phs s [] c1 ->
  (forall j pt, (j < length (omap packed_of (transactions body)))%nat -> fc_only (f j pt)) ->
  c1' = c1 ->
  ends (apply_receipts e pc f 0 (transactions body);; set_building (set_transaction_mroot (transaction_mroot (sh_header (sb_header body))));; finalize_block e)
    (fun o c2 => inside c c2 /\ match o with
      | Ok _ => exists b a, (_block_stage <$> c_pending c2) = Some (stage_assembled a) /\ sealed b a /\ bb_pending b = phs
          /\ bb_transaction_mroot b = Some (transaction_mroot (sh_header (sb_header body)))
          /\ map rc_header (_pending_trx_receipts (bb_lists b)) = map rc_header (transactions body)
          /\ length (ab_trx_metas a) = length (omap packed_of (transactions body))
      | Err ex => is_std_exception ex = false end) c1'.
Proof.
  intros Hns Hi Hrep Hf ->. apply ends_bind.
  assert (Hst : (_block_status <$> c_pending c1) = Some s) by (by destruct Hrep as (b & _ & Hst & _)).
  pose proof (apply_receipts_fc s f 0 (transactions body) c1 Hns Hst Hf) as Hfc.
  pose proof (apply_receipts_ends phs s f 0 (transactions body) [] c1 Hns Hrep) as Hre. cbn in Hre.
  unfold ends at 1. unfold ends in Hfc, Hre. pose proof (keeps_apply_receipts f 0 (transactions body) c1) as Hk.
  destruct (apply_receipts e pc f 0 (transactions body) c1) as [o c2] eqn:E. cbn in *.
  assert (Hi2 : inside c c2) by (apply (inside_step c c1); [by symmetry|done]).
  destruct o as [u|ex]; [|by split]. destruct Hre as (b & Hb & _ & Hphs & Hrs & Hms).
  apply ends_bind. unfold ends at 1. destruct (set_building_run (set_transaction_mroot (transaction_mroot (sh_header (sb_header body)))) c2 b Hb) as (c3 & -> & Hb3 & Hf3). cbn.
  assert (Hi3 : inside c c3) by (by apply (inside_step c c2)).
  eapply ends_mono; [|apply inside_ends; [apply keeps_finalize_block|exact Hi3|apply throws_ends; [apply throws_finalize|by apply finalize_ends]]].
  intros [v|ex] c4 (Hi4 & Hfc4 & Ho); [|by split]. split; [done|]. destruct Ho as (a & Ha & Hseal). eexists _, a. split; [exact Ha|]. split; [exact Hseal|].
  split; [exact Hphs|]. split; [done|]. split; [exact Hrs|]. destruct Hseal as (? & ? & ? & ? & _ & _ & _ & _ & _ & Hmetas). by rewrite Hmetas.
Qed.

Lemma inside_caches c c' : inside c c' -> all_caches_ok c -> all_caches_ok c'.
Proof. intros [_ Hb] Hc. unfold all_caches_ok. by rewrite Hb. Qed.

Lemma abort_caches c : all_caches_ok c -> all_caches_ok (abort_block c).2.
Proof.
  intros Hc. unfold abort_block. destruct (c_pending c) as [p|] eqn:Hp; [|done]. destruct (extract_trx_metas c p) as [metas c1] eqn:E. cbn.
  assert (Hc1 : all_caches_ok c1).
  { unfold extract_trx_metas in E. destruct (_block_stage p) as [b|a|q]; [by injection E as _ <-..|].
    destruct (c_bodies c !! q) as [body|]; injection E as _ <-; [|done]. intros q' body' Hq. cbn in Hq. apply lookup_insert_Some in Hq as [[<- <-]|[_ Hq]]; [|by eapply Hc].
    intros [?|?]; done. }
  unfold reset_pending. destruct (c_pending c1) as [p'|]; [|done]. by destruct (_db_session p').
Qed.

Lemma metadata_fc cached skip l i pt : (cached = true -> (i < length l)%nat) -> fc_only (metadata_for bc cached skip l i pt).
Proof.
  intros Hl. unfold metadata_for. destruct cached.
  - destruct (lookup_lt_is_Some_2 l i (Hl eq_refl)) as [m ->]. done.
  - assert (fc_only (recover_keys bc pt)) by (destruct (recover_keys bc pt) eqn:E; [done|by eapply recovers]).
    destruct (trx_lookup bc (pt_trx_id pt)); [destruct (skip || _)|destruct skip]; done.
Qed.

Lemma commit_caches c : all_caches_ok c -> all_caches_ok (commit_block pc false (mret tt) c).2.
Proof.
  intros Hc. unfold commit_block.
  assert (Hb : c_bodies (commit_body pc false (mret tt) c).2 = c_bodies c).
  { assert (Hf : frames (along (c_bodies (Sig := Sig)) (always eq)) (commit_body pc false (mret tt))).
    { unfold commit_body, record_reversible, create_reversible. frame_auto.
      - apply frame_read. intros c0. unfold my_pending. by destruct (c_pending c0).
      - intros c0. unfold along, always. by destruct (c_reversible c0 !! _). }
    symmetry. apply Hf. }
  destruct (commit_body pc false (mret tt) c) as [[u|ex] c']; cbn in *.
  - unfold all_caches_ok. cbn. by rewrite Hb.
  - apply abort_caches. unfold all_caches_ok. by rewrite Hb.
Qed.

Lemma cache_metas_opened c c1 bsp body a cached skip : opened c c1 -> c_bodies c !! bsp = Some body ->
  ends (cache_metas bsp body a cached skip) (fun r c' => match r with Ok _ => opened c c' | Err _ => False end) c1.
Proof.
  intros Ho Hb. unfold cache_metas, ends. destruct cached; [done|]. cbn. apply (opened_step _ c1); [|done].
  pose proof Ho as (Hfix & _). apply fixed_part_eq in Hfix as (_ & _ & _ & _ & _ & Hbo).
  unfold session_part, fixed_part. cbn. rewrite fmap_insert. cbn. rewrite insert_id; [done|]. by rewrite Hbo, lookup_fmap, Hb.
Qed.

Lemma apply_body_spec bsp s c : c_pending c = None -> no_skip s -> all_caches_ok c ->
  ends (apply_block_body e pc bc bsp s) (apply_outcome c bsp) c.
Proof.
  intros Hp Hns Hc. unfold apply_block_body. apply ends_bind. unfold ends at 1, my_body.
  destruct (c_bodies c !! bsp) as [body|] eqn:Eb; cbn; [|split; [done|right; by split_and!]].
  apply ends_bind. eapply ends_mono; [|by apply start_block_spec]. intros [u|ex] c1 [Hb1 Hst]; [|split; [unfold all_caches_ok; by rewrite Hb1|by right]].
  destruct Hst as (Ho1 & _ & h & phs & Hh & Hn & Hrep). assert (Hi1 : inside c c1) by done.
  apply ends_bind. unfold ends at 1. cbn.
  match goal with |- ends (apply_receipts _ _ (metadata_for _ ?x ?y _) _ _ ≫= _) _ _ => set (cached := x); set (skip := y) in * end.
  assert (Hassoc : forall (A1 A2 A3 : CM unit) (k : unit -> CM unit) Q, ends ((A1;; A2;; A3) ≫= k) Q c1 -> ends (A1;; A2;; A3 ≫= k) Q c1).
  { intros A1 A2 A3 k Q. unfold ends, mbind, M_bind. destruct (A1 c1) as [[a1|ex1] d1]; [|done]. by destruct (A2 d1) as [[a2|ex2] d2]. }
  apply Hassoc, ends_bind. eapply ends_mono; [|eapply (replay_block c c1 s phs _ (body_block body)); [done|done|exact Hrep| |done]].
  2: { intros j pt Hj. apply metadata_fc. intros Hca. assert (Hok := Hc _ _ Eb). unfold caches_ok in Hok. unfold cached in Hca.
       apply orb_true_iff in Hca as [Hpk|Hca]; [specialize (Hok (or_introl Hpk)); lia|]. apply andb_true_iff in Hca as [_ Hne%negb_true_iff%bool_decide_eq_false].
       specialize (Hok (or_intror Hne)). lia. }
  intros [v|ex] c2 [Hi2 Hres]; [|split; [by apply (inside_caches c)|left; by destruct Hi2]].
  destruct Hres as (b & a & Hstage & Hseal & Hphs & Hroot & Hrs & Hms).
  apply ends_bind. unfold ends at 1. destruct (my_pending c2) as [[p|ex] c3] eqn:Ep; apply pending_run in Ep as [-> Hp2]; [cbn|by rewrite Hp2 in Hstage].
  rewrite Hp2 in Hstage. injection Hstage as Hstage. rewrite Hstage.
  apply ends_bind, ends_massert; intros Hid; [|split; [by apply (inside_caches c)|left; by destruct Hi2]]. apply bool_decide_eq_true in Hid.
  assert (Hrepro : reproduced c bsp) by (exists h, body, phs, b, a; by split_and!).
  apply ends_bind. assert (Hcm : ends (cache_metas bsp body a cached skip) (fun o c4 => match o with
    | Ok _ => opened c c4 /\ all_caches_ok c4 /\ c_pending c4 = Some p | Err _ => False end) c2).
  { pose proof (cache_metas_opened c c2 bsp body a cached skip (proj1 Hi2) Eb) as Ho. unfold cache_metas, ends in *.
    destruct cached; cbn in *; [split; [done|]; split; [by apply (inside_caches c)|done]|].
    split; [done|]. split; [|done]. intros q body' Hq. cbn in Hq. destruct Hi2 as [_ Hb2]. rewrite Hb2 in Hq.
    apply lookup_insert_Some in Hq as [[_ <-]|[_ Hq]]; [|by eapply Hc]. intros _. cbn. by rewrite Hms. }
  eapply ends_mono; [|exact Hcm]. intros [v4|ex] c4; [intros (Ho4 & Hc4 & Hp4)|done].
  apply ends_bind. unfold ends at 1, my_pending. rewrite Hp4. cbn. apply ends_bind. unfold ends at 1. cbn.
  set (c5 := set_c_pending (Some (set_stage (stage_completed bsp) p)) c4).
  assert (Ho5 : opened c c5) by (apply (opened_step c c4); [by apply session_part_stage|done]).
  pose proof (commit_caches c5 Hc4) as Hc6. pose proof (commit_applied c c5 bsp (set_stage (stage_completed bsp) p) Ho5 eq_refl eq_refl) as Hcommit.
  unfold ends in *. destruct (commit_block pc false (mret tt) c5) as [[v5|ex] c6]; cbn in *; [by split_and!|split; [done|by right]].
Qed.

Lemma apply_block_spec bsp s c : c_pending c = None -> no_skip s -> all_caches_ok c ->
  ends (apply_block e pc bc bsp s) (fun r c' => all_caches_ok c' /\ match r with
    | Ok _ => applied c bsp c' /\ reproduced c bsp | Err ex => restored c c' /\ is_std_exception ex = false end) c.
Proof.
  intros Hp Hs Hc. pose proof (apply_body_spec bsp s c Hp Hs Hc) as Ho. unfold ends, apply_block, rethrow_block, abort_on_failure in *.
  destruct (apply_block_body e pc bc bsp s c) as [[u|ex] c1]; cbn in Ho; destruct Ho as [Hc1 Ho]; [done|].
  destruct (is_std_exception ex) eqn:Es; cbn.
  - split; [done|]. split; [|apply rethrow_not_std]. destruct Ho as [[_ ?]|Ho]; [congruence|done].
  - split; [by apply abort_caches|]. split; [|apply rethrow_not_std]. destruct Ho as [[Ho _]|Ho]; [by apply abort_restores|by apply abort_none].
Qed.
End Apply.

Section Claims.
Context {Sig : Type} {C : crypto} {T : trx_codec Sig public_key} {B : block_codec Sig}.
Context `{unpacker public_key} `{contract_unpacker public_key} `{P : posix_timer} `{softfloat}.
Context (e : apply_env (K := public_key)) (pc : push_config) (bc : block_config (Sig := Sig)).


End Claims.

(** ** A concrete block

    A node builds a block with a transaction; the block is then received by a
    node with the same head, unchanged and with a receipt that was tampered with. *)
#[local] Existing Instance ieee.
Definition ctl_head : block_state := mk_block_state demo_state true.
Definition ctl_config : block_config (Sig := Z) :=
  mk_block_config (fun h => [timestamp h]) (fun p => Ok (mk_metadata_of p 0 [5] false false 0)) (fun _ => None) [].
Definition ctl_db : chain_db (K := Z) :=
  let d := ps_db push_start in
  mk_chain_db (db_tables d) (db_keyval d) (db_index d) (db_native d) (db_dedup d)
    ((emplace block_summary_conflict zero_digest;; emplace block_summary_conflict zero_digest) (db_summaries d)).2
    (db_generated d) (db_global_sequence d) (db_properties d).
Definition ctl_start : controller (Sig := Z) :=
  mk_controller (mk_session_db ctl_db [] (bs_num ctl_head)) ∅ []
    (mk_fork_database {[1%positive := ctl_head]} ∅ (Some 1%positive) (Some 1%positive))
    {[1%positive := mk_block_body (mk_signed_block (b_header demo_state) [] []) false []]} 1%positive None timer_new 0 false.
Definition ctl_packed : packed_transaction Z :=
  ok_or (mk_packed [] 0 [] [] no_signed_trx zero_digest)
    (packed_of_signed (mk_signed_trx (mk_transaction 1577880030 0 77 100 5 0 [] (actions billing_trx) []) [5] []) compression_none).
Definition ctl_build : M (controller (Sig := Z)) positive :=
  start_block exec_env push_conf ctl_config 30 0 incomplete None;;
  on_push exec_env false (fun e => push_transaction e push_conf (mk_metadata_of ctl_packed 0 [5] false false 0) time_point_maximum 0 false);;
  complete_block exec_env (fun _ => [103]).
Definition ctl_block : signed_block (Sig := Z) * block_state :=
  match ctl_build ctl_start with
  | (Ok p, c) => (default (mk_signed_block (b_header demo_state) [] []) (body_block <$> c_bodies c !! p), default ctl_head (heap (c_fork c) !! p))
  | _ => (mk_signed_block (b_header demo_state) [] [], ctl_head)
  end.
Definition ctl_receives (b : signed_block (Sig := Z)) : controller (Sig := Z) :=
  set_c_bodies (<[2%positive := mk_block_body b false []]> (c_bodies ctl_start))
    (set_c_fork (mk_fork_database (<[2%positive := ctl_block.2]> (heap (c_fork ctl_start))) ∅ (Some 1%positive) (Some 1%positive)) ctl_start).
Definition tampered (b : signed_block (Sig := Z)) : signed_block (Sig := Z) :=
  mk_signed_block (sb_header b)
    (map (fun r => mk_transaction_receipt (mk_receipt_header (rh_status (rc_header r)) (rh_cpu_usage_us (rc_header r)) (rh_net_usage_words (rc_header r) + 1)) (rc_trx r)) (transactions b))
    (block_extensions b).
Definition ctl_apply (b : signed_block (Sig := Z)) : res unit * controller :=
  apply_block exec_env push_conf ctl_config 2 complete (ctl_receives b).

Lemma ctl_caches b : all_caches_ok (ctl_receives b).
Proof.
  intros q body Hq. cbn in Hq. apply lookup_insert_Some in Hq as [[_ <-]|[_ Hq]]; [by intros [?|?]|].
  apply lookup_singleton_Some in Hq as [_ <-]. by intros [?|?].
Qed.

Lemma ctl_wraps ex : is_std_exception (wrap_std_exception (ax_fc exec_env) ex) = false.
Proof. reflexivity. Qed.
Lemma ctl_recovers p ex : recover_keys ctl_config p = Err ex -> is_std_exception ex = false.
Proof. discriminate. Qed.
Lemma ctl_no_skip : no_skip exec_env complete.
Proof. left. discriminate. Qed.
Lemma ctl_not_pending b : c_pending (ctl_receives b) = None.
Proof. reflexivity. Qed.


