(* ===== verification/ForkSwitch.v ===== *)
(** * Receiving blocks and switching forks ([controller.cpp])

    A block that was received becomes a block state ([create_block_state_future]),
    enters the fork database and, when it makes another block the best one, the
    node goes to that block ([maybe_switch_forks]): blocks of the old branch are
    undone ([pop_block]), the ones of the new branch are applied, and when one of
    them fails the way is gone back.  Then the blocks that became irreversible
    move to the block log ([log_irreversible]).

    A future is the result that it will have; [future.get()] rethrows its
    exception.  The signals are sent at the points where the code sends them:
    what their handlers let through is an argument.  The callback that is given
    the blocks of the abandoned branch has no effect on the controller and is left
    out. *)

From S2P Require Import Prelude Merkle Chainbase ResourceLimits Names Authority AuthorityChecker BlockHeader BlockHeaderState ForkDatabase Authorization GlobalProperties EosioContract NativeState NativeRam Transaction TransactionChecks ChainConfig Timer TransactionContext ContractTables TableInvariant ApplyContext PushTransaction Block BlockBuilding.
#[local] Open Scope Z_scope.

Inductive block_signal : Type := sig_pre_accepted_block | sig_accepted_block_header | sig_irreversible_block.

Section Switching.
Context {Sig : Type} {C : crypto} {T : trx_codec Sig public_key} {B : block_codec Sig}.
Context `{unpacker public_key} `{contract_unpacker public_key} `{P : posix_timer} `{softfloat}.
Context (e : apply_env (K := public_key)) (pc : push_config) (bc : block_config (Sig := Sig)).
Abbreviation ctl := (controller (Sig := Sig)).
Abbreviation CM := (M ctl).
Implicit Types (c : ctl).

(** The number the block log starts with, and what [emit] lets through. *)
Record switch_config : Type := mk_switch_config {
  first_block_num : Z;
  emit : block_signal -> signed_block (Sig := Sig) -> res unit }.
Context (sc : switch_config).

Definition state_of (p : positive) : CM block_state := fun c => (ForkDatabase.deref (c_fork c) (Some p), c).

(** [fork_db.root()] *)
Definition fork_root : CM positive :=
  c ← get;
  match ForkDatabase.root (c_fork c) with Some r => mret r | None => throw undefined_behaviour end.

(** [catch( const fc::exception& )], the exception kept for later. *)
Definition caught {A} (m : CM A) : CM (option exn) := fun c =>
  match m c with
  | (Ok _, c') => (Ok None, c')
  | (Err ex, c') => if is_std_exception ex then (Err ex, c') else (Ok (Some ex), c')
  end.
Definition rethrow_kept (except : option exn) : CM unit :=
  match except with Some ex => throw ex | None => mret tt end.

(** ** [pop_block] *)
Definition previous_of_head : CM positive :=
  h ← head_state;
  c ← get;
  match get_block (c_fork c) (bs_prev h) with
  | Some p => mret p
  | None =>
      r ← fork_root;
      rb ← state_of r;
      massert (bool_decide (bs_id rb = bs_prev h)) block_validate_exception;;
      mret r
  end.

Definition pop_block : CM unit :=
  prev ← previous_of_head;
  h ← head_state;
  modify (fun c => set_c_reversible (delete (bs_num h) (c_reversible c)) c);;
  c ← get;
  massert (negb (bool_decide (read_mode pc = SPECULATIVE)) || bool_decide (is_Some (c_bodies c !! c_head c))) block_validate_exception;;
  modify (set_c_head prev);;
  modify (fun c => set_c_db (undo_session (c_db c)) c).

Fixpoint pop_blocks (n : nat) : CM unit :=
  match n with O => mret tt | S n => pop_block;; pop_blocks n end.

(** ** [log_irreversible] *)

(** [blog.append]: the index file has an entry for each block of the log. *)
Definition append_block (b : signed_block (Sig := Sig)) : CM unit :=
  rethrow_block e (
    c ← get;
    massert (Z.of_nat (length (c_blog c)) =? u32 (block_num (sh_header (sb_header b)) - first_block_num sc)) block_log_append_fail;;
    modify (set_c_blog (c_blog c ++ [b]))).

(** The reversible blocks up to [num] are removed, the first one first. *)
Definition forget_reversible (num : Z) : CM unit :=
  modify (fun c => set_c_reversible (filter (fun nb => num < nb.1) (c_reversible c)) c).

Definition apply_irreversible (p : positive) : CM unit :=
  if bool_decide (read_mode pc = IRREVERSIBLE) then
    apply_block e pc bc p complete;;
    modify (set_c_head p);;
    on_fork (mark_valid p)
  else mret tt.

(** The loop over the blocks that became irreversible, the lowest first: the id
    of the last one that was logged and the exception that stopped it. *)
Fixpoint log_blocks (branch : list positive) (root_id : digest_type) : CM (digest_type * option exn) :=
  match branch with
  | [] => mret (root_id, None)
  | p :: branch =>
      b ← state_of p;
      body ← my_body p;
      except ← caught (apply_irreversible p;; lift (emit sc sig_irreversible_block (body_block body)));
      match except with
      | Some ex => mret (root_id, Some ex)
      | None =>
          modify (fun c => set_c_db (commit_sessions (bs_num b) (c_db c)) c);;
          except ← caught (append_block (body_block body));
          match except with
          | Some ex => mret (bs_id b, Some ex)
          | None => forget_reversible (bs_num b);; log_blocks branch (bs_id b)
          end
      end
  end.

(** The root follows the block log, also after an exception. *)
Definition advance_to (root_id : digest_type) : CM unit :=
  r ← fork_root;
  rb ← state_of r;
  if bool_decide (root_id = bs_id rb) then mret tt else on_fork (advance_root root_id).

Definition log_irreversible : CM unit :=
  c ← get;
  massert (bool_decide (ForkDatabase.root (c_fork c) <> None)) fork_database_exception;;
  r ← fork_root;
  rb ← state_of r;
  let log_head := last (c_blog c) in
  let lib_num := match log_head with
                 | Some b => block_num (sh_header (sb_header b))
                 | None => u32 (first_block_num sc - 1) end in
  (match log_head with
   | Some b => massert (bool_decide (bs_id rb = header_id (sh_header (sb_header b)))) fork_database_exception
   | None => massert (bs_num rb =? lib_num) fork_database_exception
   end);;
  fork_head ← (if bool_decide (read_mode pc = IRREVERSIBLE) then lift (pending_head (c_fork c)) else mret (ForkDatabase.head (c_fork c)));
  fh ← lift (ForkDatabase.deref (c_fork c) fork_head);
  if bs_irreversible fh <=? lib_num then mret tt
  else
    branch ← lift (fetch_branch (c_fork c) (bs_id fh) (bs_irreversible fh));
    '(root_id, except) ← log_blocks (rev branch) (bs_id rb);
    advance_to root_id;;
    rethrow_kept except.

(** ** [maybe_switch_forks] *)
Definition move_to (p : positive) (s : block_status) : CM unit :=
  apply_block e pc bc p s;;
  on_fork (mark_valid p);;
  modify (set_c_head p).

(** The block that builds on the head. *)
Definition extend_head (new_head : positive) (s : block_status) : CM unit :=
  except ← caught (move_to new_head s);
  match except with
  | None => mret tt
  | Some ex => b ← state_of new_head; on_fork (ForkDatabase.remove (bs_id b));; throw ex
  end.

(** [head_block_id() == branches.second.back()->header.previous]; [back()] of an
    empty vector is undefined. *)
Definition assert_forked (second : list positive) : CM unit :=
  match last second with
  | None => throw undefined_behaviour
  | Some q =>
      h ← head_state;
      b ← state_of q;
      massert (bool_decide (bs_id h = bs_prev b)) fork_database_exception
  end.

(** The good blocks are applied again. *)
Fixpoint reapply (branch : list positive) : CM unit :=
  match branch with
  | [] => mret tt
  | p :: branch => apply_block e pc bc p TransactionChecks.validated;; modify (set_c_head p);; reapply branch
  end.

(** [applied] blocks of the branch were applied before the one that threw. *)
Definition switch_back (bad : positive) (applied : nat) (second : list positive) : CM unit :=
  b ← state_of bad;
  on_fork (ForkDatabase.remove (bs_id b));;
  pop_blocks applied;;
  assert_forked second;;
  reapply (rev second).

Fixpoint apply_branch (second : list positive) (applied : nat) (branch : list positive) : CM unit :=
  match branch with
  | [] => mret tt
  | p :: branch =>
      except ← caught (b ← state_of p; move_to p (if is_valid b then TransactionChecks.validated else complete));
      match except with
      | None => apply_branch second (S applied) branch
      | Some ex => switch_back p applied second;; throw ex
      end
  end.

Definition switch_to (new_head : positive) : CM unit :=
  c ← get;
  h ← head_state;
  b ← state_of new_head;
  '(first, second) ← lift (fetch_branch_from (c_fork c) (bs_id b) (bs_id h));
  (if (0 <? length second)%nat then pop_blocks (length second);; assert_forked second else mret tt);;
  apply_branch second 0 (rev first).

Definition maybe_switch_forks (new_head : positive) (s : block_status) : CM unit :=
  h ← head_state;
  b ← state_of new_head;
  if bool_decide (bs_prev b = bs_id h) then extend_head new_head s;; log_irreversible
  else if negb (bool_decide (bs_id b = bs_id h)) then switch_to new_head;; log_irreversible
  else mret tt.

(** ** [create_block_state_future]: the checks, then the result of the task *)
Definition new_block_state (s : block_header_state) (b : signed_block (Sig := Sig)) : CM positive :=
  p ← on_fork (make_shared (mk_block_state s false));
  modify (fun c => set_c_bodies (<[p := mk_block_body b false []]> (c_bodies c)) c);;
  mret p.

Definition create_block_state_future (b : signed_block (Sig := Sig)) : CM (res positive) :=
  let h := sh_header (sb_header b) in
  c ← get;
  massert (match get_block (c_fork c) (header_id h) with None => true | Some _ => false end) fork_database_exception;;
  prev ← lift (get_block_header (c_fork c) (previous h));
  massert (match prev with Some _ => true | None => false end) unlinkable_block_exception;;
  pb ← lift (ForkDatabase.deref (c_fork c) prev);
  match checked_block_state (bs_state pb) b with
  | Ok s => Ok <$> new_block_state s b
  | Err ex => mret (Err ex)
  end.

(** ** [push_block] *)
Definition is_trusted_producer (name : Z) : bool :=
  light_validation_mode (conf (te_view (ax_trx e))) || bool_decide (name ∈ trusted_producers bc).

(** [make_scoped_exit]: light validation is as it was. *)
Definition resetting_light (m : CM unit) : CM unit := fun c =>
  let '(r, c') := m c in (r, set_c_light (c_light_validation c) c').

Definition best_block : CM positive :=
  c ← get;
  ph ← lift (pending_head (c_fork c));
  match ph with Some p => mret p | None => throw undefined_behaviour end.

Definition accept_block (block_state_future : res positive) : CM unit :=
  bsp ← lift block_state_future;
  body ← my_body bsp;
  let b := body_block body in
  lift (emit sc sig_pre_accepted_block b);;
  on_fork (ForkDatabase.add (Some bsp) false);;
  (if is_trusted_producer (producer (sh_header (sb_header b))) then modify (set_c_light true) else mret tt);;
  lift (emit sc sig_accepted_block_header b);;
  if negb (bool_decide (read_mode pc = IRREVERSIBLE)) then
    new_head ← best_block;
    maybe_switch_forks new_head complete
  else log_irreversible.

Definition no_pending : CM unit :=
  c ← get; massert (match c_pending c with None => true | Some _ => false end) block_validate_exception.

Definition push_block (block_state_future : res positive) : CM unit :=
  no_pending;;
  resetting_light (rethrow_block e (accept_block block_state_future)).

(** ** [replay_push_block] *)
Definition replay_push_block (b : signed_block (Sig := Sig)) (s : block_status) : CM unit :=
  no_pending;;
  rethrow_block e (
    massert (bool_decide (s = irreversible) || bool_decide (s = TransactionChecks.validated)) block_validate_exception;;
    lift (emit sc sig_pre_accepted_block b);;
    h ← head_state;
    st ← lift (received_block_state (bs_state h) b (negb (force_all_checks (conf (te_view (ax_trx e))))));
    bsp ← new_block_state st b;
    (if negb (bool_decide (s = irreversible)) then on_fork (ForkDatabase.add (Some bsp) true) else mret tt);;
    lift (emit sc sig_accepted_block_header b);;
    if bool_decide (s = irreversible) then
      apply_block e pc bc bsp s;;
      modify (set_c_head bsp);;
      lift (emit sc sig_irreversible_block b);;
      c ← get;
      if negb (skip_db_sessions_of (status_view e c None) s)
      then modify (fun c => set_c_db (commit_sessions (bc_block_num (b_common st)) (c_db c)) c)
      else mret tt
    else
      massert (negb (bool_decide (read_mode pc = IRREVERSIBLE))) block_validate_exception;;
      maybe_switch_forks bsp s).
End Switching.
