(* ===== verification/ForkChains.v ===== *)
(** * Branches of the fork database under its updates

    What marking, adding and removing blocks does to the branches that other
    code holds: the way from a block down to the root ([chain]) and from a block
    up to another one ([climbs]), and to the rule that a validated block stands
    on validated blocks. *)

From S2P Require Import Prelude Merkle Authority BlockHeader BlockHeaderState ForkDatabase.

Section Branches.
Context `{C : crypto} `{!crypto_laws C}.
Implicit Types (f : fork_database) (b : block_state) (id : digest_type) (p : positive) (l : list positive).

Definition id_of f p : digest_type := match heap f !! p with Some b => bs_id b | None => mk_digest 0 0 0 0 end.
Definition valid_at f p : Prop := exists b, heap f !! p = Some b /\ validated b = true.

(** The objects stay, only their flag may be set. *)
Definition grows f f' : Prop := forall p b, heap f !! p = Some b ->
  exists b', heap f' !! p = Some b' /\ bs_state b' = bs_state b /\ (validated b = true -> validated b' = true).

#[export] Instance grows_preorder : PreOrder grows.
Proof.
  split; [intros f p b Hb; eauto|]. intros f1 f2 f3 H12 H23 p b Hb.
  destruct (H12 p b Hb) as (b2 & Hb2 & E2 & V2). destruct (H23 p b2 Hb2) as (b3 & Hb3 & E3 & V3).
  exists b3. split_and!; [done|congruence|auto].
Qed.

Lemma grows_same_heap f f' : heap f' = heap f -> grows f f'.
Proof. intros E p b Hb. rewrite E. eauto. Qed.

Lemma id_of_some f p b : heap f !! p = Some b -> id_of f p = bs_id b.
Proof. unfold id_of. by intros ->. Qed.
Lemma num_at_some f p b : heap f !! p = Some b -> num_at f p = bs_num b.
Proof. unfold num_at. by intros ->. Qed.

Lemma grows_id f f' p : grows f f' -> is_Some (heap f !! p) -> id_of f' p = id_of f p.
Proof. intros G [b Hb]. destruct (G p b Hb) as (b' & Hb' & E & _). rewrite (id_of_some _ _ _ Hb), (id_of_some _ _ _ Hb'). unfold bs_id. by rewrite E. Qed.
Lemma grows_num f f' p : grows f f' -> is_Some (heap f !! p) -> num_at f' p = num_at f p.
Proof. intros G [b Hb]. destruct (G p b Hb) as (b' & Hb' & E & _). rewrite (num_at_some _ _ _ Hb), (num_at_some _ _ _ Hb'). unfold bs_num. by rewrite E. Qed.
Lemma grows_valid f f' p : grows f f' -> valid_at f p -> valid_at f' p.
Proof. intros G (b & Hb & Hv). destruct (G p b Hb) as (b' & Hb' & _ & V). exists b'. auto. Qed.

(** ** Chains *)

(** A block of a chain, as the index knows it. *)
Lemma chain_elem f R x l z p : forest f R -> chain f x l z -> p ∈ l ->
  exists b, heap f !! p = Some b /\ index f !! bs_id b = Some p /\ well_numbered b.
Proof.
  intros F Hc. induction Hc as [|id q b l z Hi Hb _ IH]; intros Hp; [set_solver|].
  apply elem_of_cons in Hp as [->|Hp]; [|auto]. destruct (forest_block _ _ F _ _ Hi) as (b' & Hb' & <- & Hw & _). simplify_eq. eauto.
Qed.

Lemma chain_elems_exist f x l z : chain f x l z -> Forall (fun p => is_Some (heap f !! p)) l.
Proof. induction 1; constructor; eauto. Qed.

Lemma chain_start f R x l z r : forest f R -> chain f x l z -> z = id_of f r -> x = id_of f (hd r l).
Proof.
  intros F Hc. destruct Hc as [|id p b l z Hi Hb _]; [done|]. intros _. cbn. rewrite (id_of_some _ _ _ Hb).
  by destruct (forest_block _ _ F _ _ Hi) as (b' & Hb' & <- & _); simplify_eq.
Qed.

(** A chain stays while its blocks stay in the index. *)
Lemma chain_keep f f' R x l z : forest f R -> grows f f' -> (forall p b, p ∈ l -> heap f !! p = Some b -> index f' !! bs_id b = Some p) ->
  chain f x l z -> chain f' x l z.
Proof.
  intros F G Hk Hc. induction Hc as [|id p b l z Hi Hb _ IH]; [constructor|].
  destruct (forest_block _ _ F _ _ Hi) as (b0 & Hb0 & Hid & _). simplify_eq. destruct (G p b Hb) as (b' & Hb' & E & _).
  apply (chain_cons _ _ _ b'); [by apply Hk; [left|]|done|]. unfold bs_prev. rewrite E. apply IH. intros q qb Hq. apply Hk. by right.
Qed.

(** Two chains from a block: the shorter one is the beginning of the other. *)
Lemma chain_same_end f R x l k z : forest f R -> chain f x l z -> chain f x k z -> l = k.
Proof.
  intros F Hl Hk. pose proof (chain_num _ _ _ _ _ F Hl). pose proof (chain_num _ _ _ _ _ F Hk).
  destruct (chain_functional _ _ _ _ _ _ Hl Hk) as (m & -> & Hm); [lia|]. rewrite length_app in *.
  destruct m; [by rewrite app_nil_r|cbn in *; lia].
Qed.

Lemma chain_split f x l k z : chain f x (l ++ k) z -> exists y, chain f x l y /\ chain f y k z.
Proof.
  revert x. induction l as [|p l IH]; intros x Hc; cbn in Hc; [exists x; split; [constructor|done]|].
  inversion Hc as [|? ? b ? ? Hi Hb Hc']; subst. destruct (IH _ Hc') as (y & H1 & H2). exists y. split; [by econstructor|done].
Qed.

Lemma chain_passes f R x l z p b : forest f R -> chain f x l z -> p ∈ l -> heap f !! p = Some b -> descends f x (bs_id b).
Proof.
  intros F Hc Hp Hb. apply list_elem_of_split in Hp as (l1 & l2 & ->). destruct (chain_split _ _ _ _ _ Hc) as (y & H1 & H2).
  inversion H2 as [|? ? b' ? ? Hi Hb' _]; subst. destruct (forest_block _ _ F _ _ Hi) as (b0 & Hb0 & <- & _). simplify_eq. by exists l1.
Qed.

(** Who descends from an indexed block has it on its way to the root. *)
Lemma descends_on_chain f R x l z id p : forest f R -> chain f x l z -> z ∈ R -> index f !! id = Some p -> descends f x id -> p ∈ l.
Proof.
  intros F Hc Hz Hi [k Hk]. destruct (forest_chain _ _ F _ _ Hi) as (m & z' & Hm & Hz').
  destruct (decide (length (k ++ p :: m) <= length l)%nat) as [Hle|Hgt].
  - destruct (chain_functional _ _ _ _ _ _ (chain_app _ _ _ _ _ _ Hk Hm) Hc Hle) as (n & -> & _). set_solver.
  - destruct (chain_functional _ _ _ _ _ _ Hc (chain_app _ _ _ _ _ _ Hk Hm)) as (n & E & Hn); [lia|].
    destruct n as [|q n]; [rewrite app_nil_r in E; rewrite <- E; set_solver|]. exfalso.
    inversion Hn as [|? ? ? ? ? Hq _ _]; subst. by rewrite (forest_roots _ _ F z Hz) in Hq.
Qed.

(** ** Going up *)
Inductive climbs f : digest_type -> list positive -> digest_type -> Prop :=
| climbs_nil z : climbs f z [] z
| climbs_cons p b l x : index f !! bs_id b = Some p -> heap f !! p = Some b -> climbs f (bs_id b) l x -> climbs f (bs_prev b) (p :: l) x.

Lemma climbs_snoc f z l p b : climbs f z l (bs_prev b) -> index f !! bs_id b = Some p -> heap f !! p = Some b -> climbs f z (l ++ [p]) (bs_id b).
Proof.
  remember (bs_prev b) as y eqn:Ey. intros Hc Hi Hb. induction Hc as [z|q qb l x Hqi Hqb _ IH]; cbn.
  - rewrite Ey. econstructor; [done..|constructor].
  - econstructor; [done..|auto].
Qed.

Lemma chain_climbs f R x l z : forest f R -> chain f x l z -> climbs f z (rev l) x.
Proof.
  intros F Hc. induction Hc as [|id p b l z Hi Hb _ IH]; cbn [rev]; [constructor|].
  destruct (forest_block _ _ F _ _ Hi) as (b' & Hb' & Hid & _). simplify_eq. by apply climbs_snoc.
Qed.

Lemma climbs_keep f f' z l x : grows f f' -> (forall p b, p ∈ l -> heap f !! p = Some b -> index f' !! bs_id b = Some p) ->
  climbs f z l x -> climbs f' z l x.
Proof.
  intros G Hk Hc. induction Hc as [|p b l x Hi Hb _ IH]; [constructor|]. destruct (G p b Hb) as (b' & Hb' & E & _).
  replace (bs_prev b) with (bs_prev b') by (unfold bs_prev; by rewrite E). econstructor; [|done|].
  - unfold bs_id. rewrite E. apply Hk; [left|done].
  - replace (bs_id b') with (bs_id b) by (unfold bs_id; by rewrite E). apply IH. intros q qb Hq. apply Hk. by right.
Qed.

(** ** Validated blocks stand on validated blocks *)
Definition closed f r : Prop := forall id p b, index f !! id = Some p -> heap f !! p = Some b -> validated b = true ->
  bs_prev b = id_of f r \/ exists q, index f !! bs_prev b = Some q /\ valid_at f q.

Lemma closed_chain f R r x l : forest f R -> closed f r -> index f !! id_of f r = None -> chain f x l (id_of f r) ->
  (forall p, l !! 0%nat = Some p -> valid_at f p) -> Forall (valid_at f) l.
Proof.
  intros F Hcl Hr Hc. remember (id_of f r) as z eqn:Ez. induction Hc as [|id p b l z Hi Hb Hc IH]; intros Hv; [constructor|].
  assert (Hvp : valid_at f p) by (by apply Hv). constructor; [done|]. apply IH; [done..|]. intros q Hq.
  destruct Hvp as (b' & Hb' & Hv'). simplify_eq. destruct (Hcl _ _ _ Hi Hb Hv') as [Hp|(q' & Hq' & Hvq)].
  - inversion Hc as [|? ? ? ? ? Hx _ _]; subst; [done|]. rewrite Hp in Hx. congruence.
  - inversion Hc as [|? ? ? ? ? Hx _ _]; subst; [done|]. cbn in Hq. simplify_eq. done.
Qed.

(** ** [mark_valid] *)
Lemma mark_valid_spec f r h rb hb p b : wf_at f r h rb hb -> heap f !! p = Some b -> index f !! bs_id b = Some p ->
  exists f' h' rb' hb', mark_valid p f = (Ok tt, f') /\ wf_at f' r h' rb' hb' /\ index f' = index f /\ root f' = root f /\ grows f f'
    /\ valid_at f' p /\ (forall q, valid_at f' q -> q = p \/ valid_at f q)
    /\ (valid_at f p -> f' = f) /\ (h' = h \/ exists id, index f' !! id = Some h' /\ validated hb' = true).
Proof.
  intros W Hb Hi. destruct (mark_valid_cases _ _ _ _ _ _ _ W Hb) as [[Hv ->]|[(_ & Hn & _)|(Hv & q & Hq & h' & rb' & hb' & Hrun & W' & _)]].
  - exists f, h, rb, hb. split_and!; try done; [by exists b|by right|by left].
  - congruence.
  - simplify_eq. eexists _, h', rb', hb'. split; [exact Hrun|]. split; [done|]. split; [done|]. split; [done|].
    assert (G : grows f (set_head (Some h') (set_heap (alter (set_validated true) p (heap f)) f))).
    { intros q qb Hqb. destruct (set_validated_keeps f p true q qb Hqb) as (b' & Hb' & E & Ev). exists b'. split_and!; [done|done|].
      rewrite Ev. by case_decide. }
    split; [done|]. split.
    { destruct (set_validated_keeps f p true p b Hb) as (b' & Hb' & _ & Ev). exists b'. split; [done|]. rewrite Ev. by rewrite decide_True. }
    split.
    { intros q (qb & Hqb & Hqv). cbn in Hqb. destruct (set_validated_at _ _ _ _ _ Hqb) as (b0 & Hb0 & _ & [Ev|[-> _]]); [right|by left].
      exists b0. split; [done|congruence]. }
    split; [intros (b0 & Hb0 & Hv0); congruence|].
    destruct (wf_where _ _ _ _ _ W') as [->|[Hx Hvx]]; [|right; by eexists].
    destruct (decide (h = r)) as [->|Hne]; [by left|]. exfalso.
    (* the head is only moved to a block of the index *)
    revert Hrun. unfold mark_valid. cbv [mbind M_bind get lift modify]. rewrite (deref_some _ _ _ Hb), Hv, Hi.
    set (f1 := set_heap _ f). destruct (lib_begin f1) as [[c cb]|] eqn:El; [|done].
    destruct (wf_head _ _ _ _ _ W) as [Hh Hhb]. assert (Hh1 : ForkDatabase.head f1 = Some h) by done.
    destruct (set_validated_keeps f p true h hb Hhb) as (hb1 & Hhb1 & _). rewrite Hh1, (deref_some f1 h hb1 Hhb1).
    destruct (first_preferred cb hb1).
    + intros Hrun. injection Hrun as ->. destruct (lib_begin_best _ _ _ El) as [Hin _]. apply elem_of_blocks in Hin as [Hr [y Hy]].
      destruct (forest_block _ _ (wf_forest _ _ _ _ _ W') y r Hy) as (b1 & Hb1 & Hid1 & _). destruct (wf_root _ _ _ _ _ W') as [_ Hrb'].
      cbn in Hb1, Hrb'. assert (b1 = rb') as -> by congruence. subst y.
      pose proof (forest_roots _ _ (wf_forest _ _ _ _ _ W') (bs_id rb') ltac:(set_solver)) as Hn. cbn in Hn, Hy. congruence.
    + intros Hrun. injection Hrun as Hrun. congruence.
Qed.

(** ** [remove] *)
Definition without f id (idx : gmap digest_type positive) : Prop :=
  forall x, (descends f x id -> idx !! x = None) /\ (~ descends f x id -> idx !! x = index f !! x).

Lemma remove_keeps f r h rb hb id idx p b : wf_at f r h rb hb ->
  without f id idx -> index f !! bs_id b = Some p -> heap f !! p = Some b -> idx !! bs_id b = Some p \/ descends f (bs_id b) id.
Proof.
  intros W Hidx Hi Hb. destruct (descends_dec f _ id (bs_id b) (wf_forest _ _ _ _ _ W)) as [Hd|Hd]; [by right|left].
  by rewrite (proj2 (Hidx _) Hd).
Qed.

Lemma remove_closed f r h rb hb id idx : wf_at f r h rb hb -> closed f r ->
  without f id idx -> closed (set_index idx f) r.
Proof.
  intros W Hc Hidx x p b Hx Hb Hv. cbn in Hx, Hb. destruct (descends_dec f _ id x (wf_forest _ _ _ _ _ W)) as [Hd|Hd].
  { by rewrite (proj1 (Hidx x) Hd) in Hx. }
  rewrite (proj2 (Hidx x) Hd) in Hx. destruct (Hc x p b Hx Hb Hv) as [Hp|(q & Hq & Hvq)]; [by left|right]. exists q. split; [|done].
  cbn. rewrite (proj2 (Hidx _)); [done|]. intros [k Hk]. apply Hd. exists (p :: k). by econstructor.
Qed.
End Branches.
