(* ===== verification/ForkInvariant.v ===== *)
(** * The branch that a node is on ([controller.cpp])

    The invariant of a node between blocks: the database is what the blocks of
    one branch of the fork database made of it, applied one after another from
    the root on, with an undo session for each; the reversible blocks are the ones
    of that branch, and the block log ends at the root.  Applying a block,
    undoing one, and going over to another branch keep it, also when a block of
    the other branch fails. *)

From S2P Require Import Prelude Merkle Chainbase ResourceLimits Names Authority AuthorityChecker BlockHeader BlockHeaderState ForkDatabase Authorization GlobalProperties EosioContract NativeState NativeRam Transaction TransactionChecks ChainConfig Timer TransactionContext ContractTables TableInvariant ApplyContext TransactionExec PushTransaction PushOutcomes Block BlockBuilding BlockApply ForkSwitch ForkChains.
#[local] Open Scope Z_scope.

Section Safety.
Context {Sig : Type} {C : crypto} {T : trx_codec Sig public_key} {B : block_codec Sig} `{!crypto_laws C}.
Context `{unpacker public_key} `{contract_unpacker public_key} `{P : posix_timer} `{softfloat}.
Context (e : apply_env (K := public_key)) (pc : push_config) (bc : block_config (Sig := Sig)) (sc : switch_config (Sig := Sig)).
Abbreviation ctl := (controller (Sig := Sig)).
Abbreviation CM := (M ctl).
Implicit Types (c : ctl) (p q r : positive) (l : list positive).

Definition body_of c p : option (signed_block (Sig := Sig)) := body_block <$> c_bodies c !! p.
Definition id_of_block (b : signed_block (Sig := Sig)) : digest_type := header_id (sh_header (sb_header b)).

(** ** The invariant *)
Definition same_block c c' p : Prop :=
  bs_state <$> heap (c_fork c) !! p = bs_state <$> heap (c_fork c') !! p /\ body_of c p = body_of c' p.

(** Applying the block [p] on the head [q] takes the database from [d] to [d']. *)
Definition executes c p q (d d' : chain_db (K := public_key)) : Prop :=
  exists s c0 c1, c_pending c0 = None /\ apply_block e pc bc p s c0 = (Ok tt, c1) /\ c_head c0 = q
    /\ same_block c0 c p /\ same_block c0 c q /\ db_current (c_db c0) = d /\ db_current (c_db c1) = d'.

(** The sessions are the databases before the blocks of the branch. *)
Fixpoint trail c r l (d : chain_db (K := public_key)) (sessions : list (chain_db (K := public_key))) : Prop :=
  match l, sessions with
  | [], [] => True
  | p :: l, d0 :: sessions => executes c p (hd r l) d0 d /\ trail c r l d0 sessions
  | _, _ => False
  end.

(** The entries of the branch among the reversible blocks. *)
Definition entries c l : gmap Z (signed_block (Sig := Sig)) :=
  foldr (fun p m => match body_of c p with Some b => <[num_at (c_fork c) p := b]> m | None => m end) ∅ l.

Definition log_at c r : Prop :=
  num_at (c_fork c) r + 1 = first_block_num sc + Z.of_nat (length (c_blog c))
  /\ forall b, last (c_blog c) = Some b -> id_of_block b = id_of (c_fork c) r.

Record chain_at c r l : Prop := {
  ca_pending : c_pending c = None;
  ca_caches : all_caches_ok c;
  ca_wf : exists h rb hb, wf_at (c_fork c) r h rb hb;
  ca_closed : closed (c_fork c) r;
  ca_bodies : forall id p, index (c_fork c) !! id = Some p -> exists b, body_of c p = Some b /\ id_of_block b = id;
  ca_head : c_head c = hd r l;
  ca_path : chain (c_fork c) (id_of (c_fork c) (hd r l)) l (id_of (c_fork c) r);
  ca_valid : Forall (valid_at (c_fork c)) l;
  ca_revision : db_revision (c_db c) = num_at (c_fork c) (hd r l);
  ca_trail : trail c r l (db_current (c_db c)) (db_sessions (c_db c));
  ca_reversible : records_reversible pc = true -> c_reversible c = entries c l;
  ca_log : log_at c r }.

(** ** Frames of the invariant *)
Lemma trail_same c c' r l : forall d sessions, (forall p, p ∈ r :: l -> same_block c c' p) -> trail c r l d sessions -> trail c' r l d sessions.
Proof.
  induction l as [|p l IH]; intros d [|d0 ss] Hs Ht; [done..|]. destruct Ht as [(s & c0 & c1 & Hp & Hr & Hh & [Ep1 Ep2] & [Eq1 Eq2] & Hd & Hd') Ht].
  assert (Hq : hd r l ∈ r :: p :: l) by (destruct l; set_solver). destruct (Hs _ Hq) as [Eq3 Eq4]. destruct (Hs p ltac:(set_solver)) as [Ep3 Ep4].
  split; [|apply IH; [|done]; set_solver]. exists s, c0, c1. unfold same_block. split_and!; congruence.
Qed.

Lemma entries_same c c' l : (forall p, p ∈ l -> num_at (c_fork c') p = num_at (c_fork c) p /\ body_of c' p = body_of c p) -> entries c' l = entries c l.
Proof.
  intros Hs. unfold entries. induction l as [|p l IH]; [done|]. cbn. destruct (Hs p ltac:(set_solver)) as [-> ->].
  rewrite IH; [done|]. intros q Hq. apply Hs. set_solver.
Qed.

(** What the invariant reads of a controller, but its fork database. *)
Definition reads_same c c' : Prop := c_head c' = c_head c /\ c_db c' = c_db c /\ c_blog c' = c_blog c
  /\ c_reversible c' = c_reversible c /\ forall p, is_Some (heap (c_fork c) !! p) -> body_of c' p = body_of c p.

Lemma path_exists c r l p : chain_at c r l -> p ∈ r :: l -> is_Some (heap (c_fork c) !! p).
Proof.
  intros [_ _ (h & rb & hb & W) _ _ _ Hc _ _ _ _ _] Hp. apply elem_of_cons in Hp as [->|Hp]; [destruct (wf_root _ _ _ _ _ W); eauto|].
  apply chain_elems_exist in Hc. rewrite Forall_forall in Hc. auto.
Qed.

(** The fork database may change as long as the branch stays in it. *)
Lemma chain_at_frame c c' r l h rb hb : reads_same c c' -> c_pending c' = None -> all_caches_ok c' ->
  grows (c_fork c) (c_fork c') -> wf_at (c_fork c') r h rb hb -> closed (c_fork c') r ->
  (forall p b, p ∈ l -> heap (c_fork c) !! p = Some b -> index (c_fork c') !! bs_id b = Some p) ->
  (forall id p, index (c_fork c') !! id = Some p -> exists b, body_of c' p = Some b /\ id_of_block b = id) ->
  chain_at c r l -> chain_at c' r l.
Proof.
  intros (Eh & Ed & El & Er & Eb) Hp Hca G W' Hcl Hkeep Hbo K. pose proof K as [_ _ (h0 & rb0 & hb0 & W) _ _ Hh Hc Hv Hrev Ht Hre Hl].
  assert (Hx : forall p, p ∈ r :: l -> is_Some (heap (c_fork c) !! p)) by (intros; by eapply path_exists).
  assert (Hhd : hd r l ∈ r :: l) by (destruct l; set_solver).
  split; [done|done|by exists h, rb, hb|done|done|congruence| | | | | |].
  - rewrite (grows_id _ _ (hd r l) G), (grows_id _ _ r G) by (apply Hx; set_solver). eapply chain_keep; [apply (wf_forest _ _ _ _ _ W)|done|done|done].
  - eapply Forall_impl; [exact Hv|]. intros p. by apply grows_valid.
  - rewrite Ed, (grows_num (c_fork c)) by auto. done.
  - rewrite Ed. eapply trail_same; [|exact Ht]. intros p Hpl. destruct (Hx p Hpl) as [b Hb]. destruct (G p b Hb) as (b' & Hb' & E & _).
    split; [by rewrite Hb, Hb'; cbn; rewrite E|symmetry; apply Eb; eauto].
  - intros Hrec. rewrite Er, Hre by done. symmetry. apply entries_same. intros p Hpl. assert (is_Some (heap (c_fork c) !! p)) by (apply Hx; set_solver).
    by rewrite Eb, (grows_num (c_fork c)).
  - destruct Hl as [Hl1 Hl2]. unfold log_at. rewrite El. rewrite (grows_num (c_fork c)), (grows_id (c_fork c)) by (auto; apply Hx; set_solver). done.
Qed.

Lemma chain_at_same c c' r l : reads_same c c' -> c_fork c' = c_fork c -> c_pending c' = None -> all_caches_ok c' -> chain_at c r l -> chain_at c' r l.
Proof.
  intros Eb Ef Hp Hca K. pose proof K as [_ _ (h & rb & hb & W) Hcl Hbo _ Hc _ _ _ _ _].
  eapply (chain_at_frame c c' r l h rb hb); rewrite ?Ef; try done.
  - intros p b Hpl Hb. destruct (chain_elem _ _ _ _ _ _ (wf_forest _ _ _ _ _ W) Hc Hpl) as (b' & Hb' & Hi & _). congruence.
  - intros id p Hi. destruct (Hbo id p Hi) as (b & Hb & Hid). exists b. destruct Eb as (_ & _ & _ & _ & Eb).
    rewrite Eb; [done|]. destruct (forest_block _ _ (wf_forest _ _ _ _ _ W) _ _ Hi) as (b0 & ? & _). eauto.
Qed.

Lemma restored_at c c' r l : restored c c' -> all_caches_ok c' -> chain_at c r l -> chain_at c' r l.
Proof.
  intros (Hf & Hd & Hp) Hca K. apply fixed_part_eq in Hf as (Hr & Hbl & Hfo & Hh & _ & Hbo).
  eapply chain_at_same; [|done..|exact K]. split_and!; try done. intros p _. unfold body_of. by rewrite <- !lookup_fmap, Hbo.
Qed.

(** ** Numbers along the branch *)
Lemma top_num c r l : chain_at c r l -> num_at (c_fork c) (hd r l) = num_from_id (id_of (c_fork c) (hd r l)).
Proof.
  intros [_ _ (h & rb & hb & W) _ _ _ Hc _ _ _ _ _]. destruct l as [|p l]; cbn.
  - destruct (wf_root _ _ _ _ _ W) as [_ Hrb]. rewrite (num_at_some _ _ _ Hrb), (id_of_some _ _ _ Hrb). apply (wf_root_num _ _ _ _ _ W).
  - destruct (chain_elem _ _ _ _ _ p (wf_forest _ _ _ _ _ W) Hc ltac:(set_solver)) as (b & Hb & _ & [Hn _]).
    by rewrite (num_at_some _ _ _ Hb), (id_of_some _ _ _ Hb).
Qed.

Lemma entries_below c f R x l z n : c_fork c = f -> forest f R -> chain f x l z -> num_from_id x < n -> entries c l !! n = None.
Proof.
  intros <- F Hc. revert n. induction Hc as [|id p b l z Hi Hb _ IH]; intros n Hn; [apply lookup_empty|].
  destruct (forest_block _ _ F _ _ Hi) as (b' & Hb' & <- & [Hw1 Hw2] & _). simplify_eq. cbn.
  assert (entries c l !! n = None) as Hl by (apply IH; lia). destruct (body_of c p); [|done].
  rewrite lookup_insert_ne; [done|]. rewrite (num_at_some _ _ _ Hb). lia.
Qed.
(** ** One block more *)
Lemma mark_closed f f' r h rb hb z p b : wf_at f r h rb hb -> closed f r -> heap f !! p = Some b -> index f !! bs_id b = Some p ->
  bs_prev b = id_of f z -> (z = r \/ index f !! id_of f z = Some z /\ valid_at f z) ->
  index f' = index f -> grows f f' -> (forall q, valid_at f' q -> q = p \/ valid_at f q) -> closed f' r.
Proof.
  intros W Hcl Hb Hi Hprev Hz Ei G Hval id q qb Hq Hqb Hqv. rewrite Ei in Hq. destruct (wf_root _ _ _ _ _ W) as [_ Hrb].
  rewrite (grows_id _ _ r G) by eauto. destruct (forest_block _ _ (wf_forest _ _ _ _ _ W) _ _ Hq) as (q0 & Hq0 & _).
  destruct (G q q0 Hq0) as (q1 & Hq1 & E & _). simplify_eq. assert (Epr : bs_prev qb = bs_prev q0) by (unfold bs_prev; by rewrite E).
  rewrite Epr, Ei. destruct (Hval q ltac:(by exists qb)) as [->|(b0 & Hb0 & Hv0)].
  - simplify_eq. rewrite Hprev. destruct Hz as [->|[Hzi Hzv]]; [by left|right]. exists z. split; [done|]. by eapply grows_valid.
  - simplify_eq. destruct (Hcl _ _ _ Hq Hq0 Hv0) as [Hp|(x & Hx & Hxv)]; [by left|right]. exists x. split; [done|]. by eapply grows_valid.
Qed.

Lemma top_place c r l : chain_at c r l -> hd r l = r \/ index (c_fork c) !! id_of (c_fork c) (hd r l) = Some (hd r l) /\ valid_at (c_fork c) (hd r l).
Proof.
  intros K. pose proof K as [_ _ (h & rb & hb & W) _ _ _ Hc Hv _ _ _ _]. destruct l as [|p l]; [by left|right]. cbn in *.
  destruct (chain_elem _ _ _ _ _ p (wf_forest _ _ _ _ _ W) Hc ltac:(set_solver)) as (b & Hb & Hi & _).
  rewrite (id_of_some _ _ _ Hb). split; [done|]. by inversion Hv.
Qed.

Lemma extends c c1 f' r l p b s h rb hb : chain_at c r l ->
  heap (c_fork c) !! p = Some b -> index (c_fork c) !! bs_id b = Some p -> bs_prev b = id_of (c_fork c) (hd r l) ->
  apply_block e pc bc p s c = (Ok tt, c1) -> applied pc c p c1 -> all_caches_ok c1 ->
  wf_at f' r h rb hb -> index f' = index (c_fork c) -> grows (c_fork c) f' -> valid_at f' p -> closed f' r ->
  chain_at (set_c_head p (set_c_fork f' c1)) r (p :: l).
Proof.
  intros K Hb Hi Hprev Hrun (Hsame & Hpend & Hses & Hrev & Hre) Hca W' Ei G Hvp Hcl'.
  injection Hsame as Hbl Hfo Hh Hli Hbo. pose proof K as [Hp0 Hca0 (h0 & rb0 & hb0 & W) Hcl Hbod Hhd Hc Hv Hrv Ht Hrs Hl].
  assert (K' : chain_at (set_c_fork f' c) r l).
  { eapply (chain_at_frame c); [done|done|done|exact G|exact W'|done| | |done].
    - intros q qb Hq Hqb. cbn. rewrite Ei. destruct (chain_elem _ _ _ _ _ q (wf_forest _ _ _ _ _ W) Hc Hq) as (b0 & Hb0 & Hi0 & _). congruence.
    - intros id q. cbn. rewrite Ei. apply Hbod. }
  destruct (G p b Hb) as (b' & Hb' & Es & _). assert (Hid : id_of f' p = bs_id b) by (rewrite (id_of_some _ _ _ Hb'); unfold bs_id; by rewrite Es).
  assert (Hnum : num_at f' p = bs_num b) by (rewrite (num_at_some _ _ _ Hb'); unfold bs_num; by rewrite Es).
  assert (Hbody : forall q, body_of (set_c_head p (set_c_fork f' c1)) q = body_of c q).
  { intros q. unfold body_of. cbn. by rewrite <- !lookup_fmap, Hbo. }
  set (c2 := set_c_head p (set_c_fork f' c1)) in *.
  pose proof K' as [_ _ _ _ _ _ Hc' Hv' Hrv' Ht' Hrs' Hl']. cbn in Hc', Hv', Hrv', Ht', Hl'.
  pose proof (top_num _ _ _ K) as Htop. destruct (forest_block _ _ (wf_forest _ _ _ _ _ W) _ _ Hi) as (b0 & Hb0 & _ & [Hw1 Hw2] & _). simplify_eq.
  split; [done|done|by exists h, rb, hb|done| |done| | | | | |].
  - intros id q Hq. rewrite Hbody. apply Hbod. by rewrite <- Ei.
  - cbn [hd]. change (c_fork c2) with f'. rewrite Hid. apply (chain_cons _ _ _ b'); [by rewrite Ei|done|].
    assert (bs_prev b' = bs_prev b) as -> by (unfold bs_prev; by rewrite Es).
    rewrite Hprev, <- (grows_id _ _ (hd r l) G) by (eapply path_exists; [exact K|destruct l; set_solver]). exact Hc'.
  - by constructor.
  - cbn [hd]. change (c_fork c2) with f'. change (c_db c2) with (c_db c1). rewrite Hnum, Hrev, Hrv, Htop, <- Hprev. lia.
  - change (c_db c2) with (c_db c1). rewrite Hses. split.
    + exists s, c, c1. split_and!; try done; (split; [|symmetry; apply Hbody]).
      * rewrite Hb. change (c_fork c2) with f'. rewrite Hb'. cbn. by rewrite Es.
      * destruct (path_exists c r l (hd r l) K ltac:(destruct l; set_solver)) as [x Hx]. destruct (G _ x Hx) as (x' & Hx' & Ex & _).
        change (c_fork c2) with f'. rewrite Hx, Hx'. cbn. by rewrite Ex.
    + eapply trail_same; [|exact Ht']. intros q _. split; [done|]. rewrite Hbody. done.
  - intros Hrec. rewrite Hrec in Hre. destruct Hre as (b1 & body & Hb1 & Hbody1 & _ & Hre). simplify_eq.
    change (c_reversible c2) with (c_reversible c1). rewrite Hre, Hrs by done. cbn [entries foldr]. rewrite Hbody. unfold body_of at 1. rewrite Hbody1. cbn.
    rewrite Hnum. f_equal. symmetry. apply entries_same. intros q Hq. rewrite Hbody. split; [|done].
    change (c_fork c2) with f'. apply grows_num; [done|]. eapply path_exists; [exact K|set_solver].
  - destruct Hl' as [Hl1 Hl2]. split; cbn; rewrite Hbl; done.
Qed.
(** ** The frame of every operation: objects stay, blocks may leave the index,
    and only blocks of the index become valid. *)
Definition settles c c' : Prop :=
  grows (c_fork c) (c_fork c') /\ index (c_fork c') ⊆ index (c_fork c)
  /\ (forall q, valid_at (c_fork c') q -> valid_at (c_fork c) q \/ exists id, index (c_fork c) !! id = Some q)
  /\ (forall q, body_of c' q = body_of c q)
  /\ (ForkDatabase.root (c_fork c') = ForkDatabase.root (c_fork c) \/ exists id q, ForkDatabase.root (c_fork c') = Some q /\ index (c_fork c) !! id = Some q).

#[export] Instance settles_preorder : PreOrder settles.
Proof.
  split; [intros c; split_and!; auto; reflexivity|]. intros c1 c2 c3 (G1 & I1 & V1 & B1 & R1) (G2 & I2 & V2 & B2 & R2).
  split_and!; [by etrans|by etrans| |intros q; by rewrite B2, B1|].
  2: { destruct R2 as [->|(id & q & R2 & Hi)]; [done|right]. exists id, q. split; [done|by eapply lookup_weaken]. }
  intros q Hq. destruct (V2 q Hq) as [Hv|[id Hi]]; [auto|]. right. exists id. by eapply lookup_weaken.
Qed.

Lemma settles_same c c' : c_fork c' = c_fork c -> body_block <$> c_bodies c' = body_block <$> c_bodies c -> settles c c'.
Proof. unfold settles, body_of. intros -> Hb. split_and!; [done|done|by left| |by left]. intros q. by rewrite <- !lookup_fmap, Hb. Qed.

Lemma ends_caught {A} (m : CM A) (Q : res (option exn) -> ctl -> Prop) c :
  ends m (fun o c' => match o with Ok _ => Q (Ok None) c' | Err ex => if is_std_exception ex then Q (Err ex) c' else Q (Ok (Some ex)) c' end) c ->
  ends (caught m) Q c.
Proof. unfold ends, caught. destruct (m c) as [[a|ex] c']; [done|]. cbn. by destruct (is_std_exception ex). Qed.

Lemma state_of_ends p b (Q : res block_state -> ctl -> Prop) c : heap (c_fork c) !! p = Some b -> Q (Ok b) c -> ends (state_of p) Q c.
Proof. intros Hb HQ. unfold ends, state_of. by rewrite (deref_some _ _ _ Hb). Qed.

Lemma head_state_ends c p b (Q : res block_state -> ctl -> Prop) : c_head c = p -> heap (c_fork c) !! p = Some b -> Q (Ok b) c -> ends head_state Q c.
Proof. intros Hh Hb HQ. unfold ends, head_state, mbind, M_bind, get, lift. by rewrite Hh, (deref_some _ _ _ Hb). Qed.

Context (wraps : forall ex, is_std_exception (wrap_std_exception (ax_fc e) ex) = false).
Context (recovers : forall pt ex, recover_keys bc pt = Err ex -> is_std_exception ex = false).

(** A block that can be put on the branch. *)
Definition next_block c r l p : Prop :=
  exists b, heap (c_fork c) !! p = Some b /\ index (c_fork c) !! bs_id b = Some p /\ bs_prev b = id_of (c_fork c) (hd r l).

(** How the fork database changes when blocks are put on the branch. *)
Record marked f f' (ps : list positive) : Prop := {
  mk_index : index f' = index f;
  mk_grows : grows f f';
  mk_same : Forall (valid_at f) ps -> f' = f;
  mk_only : forall q, valid_at f' q -> q ∈ ps \/ valid_at f q;
  mk_valid : Forall (valid_at f') ps;
  mk_head : ForkDatabase.head f' = ForkDatabase.head f
    \/ exists id h, ForkDatabase.head f' = Some h /\ index f' !! id = Some h /\ valid_at f' h }.

Lemma marked_nil f : marked f f [].
Proof. split; try done; [by right|by left]. Qed.

Lemma marked_app f1 f2 f3 ps qs : marked f1 f2 ps -> marked f2 f3 qs -> marked f1 f3 (ps ++ qs).
Proof.
  intros [I1 G1 S1 O1 V1 H1'] [I2 G2 S2 O2 V2 H2]. split; [congruence|by etrans| | | |].
  - intros [Hp Hq]%Forall_app. rewrite S2, S1; [done|done|]. by rewrite S1.
  - intros q Hq. destruct (O2 q Hq) as [Hq'|Hq']; [left; set_solver|]. destruct (O1 q Hq') as [Hp|Hp]; [left; set_solver|by right].
  - apply Forall_app. split; [|done]. eapply Forall_impl; [exact V1|]. intros q. by apply grows_valid.
  - destruct H2 as [H2|H2]; [|by right]. destruct H1' as [H1'|(id & h & Hh & Hi & Hv)]; [left; congruence|right].
    exists id, h. split_and!; [congruence|congruence|by eapply grows_valid].
Qed.

Lemma move_ends c r l p s : chain_at c r l -> next_block c r l p -> s <> irreversible ->
  ends (move_to e pc bc p s) (fun o c' => match o with
    | Ok _ => chain_at c' r (p :: l) /\ settles c c' /\ marked (c_fork c) (c_fork c') [p]
    | Err ex => chain_at c' r l /\ settles c c' /\ c_fork c' = c_fork c /\ is_std_exception ex = false end) c.
Proof.
  intros K (b & Hb & Hi & Hprev) Hs. pose proof K as [Hp Hca (h & rb & hb & W) Hcl _ _ _ _ _ _ _ _].
  unfold move_to. apply ends_bind. pose proof (apply_block_spec e pc bc wraps recovers p s c Hp (or_introl Hs) Hca) as Ho.
  unfold ends in *. destruct (apply_block e pc bc p s c) as [[[]|ex] c1] eqn:Hrun; cbn in Ho.
  2: { destruct Ho as [Hca1 [Hr Hex]]. pose proof Hr as (Hf & _). apply fixed_part_eq in Hf as (_ & _ & Hfo & _ & _ & Hbo). cbn.
       split; [by eapply restored_at|]. split; [by apply settles_same|done]. }
  destruct Ho as (Hca1 & Ha & _). pose proof Ha as (Hsame & _). injection Hsame as _ Hfo _ _ Hbo.
  destruct (mark_valid_spec _ _ _ _ _ _ _ W Hb Hi) as (f' & h' & rb' & hb' & Hm & W' & Ei & Er & G & Hvp & Hval & Hno & Hh).
  cbn. unfold on_fork, focus, mbind, M_bind. rewrite Hfo, Hm. cbn.
  assert (Hcl' : closed f' r) by (eapply (mark_closed _ f' r h rb hb (hd r l) p b); [done|done|done|done|done|by apply top_place|done..]).
  split; [by eapply extends|]. split.
  - split_and!; cbn; [done|by rewrite Ei| |intros q; unfold body_of; cbn; by rewrite <- !lookup_fmap, Hbo|by left].
    intros q Hq. destruct (Hval q Hq) as [->|Hv]; [right; eauto|by left].
  - destruct (wf_head _ _ _ _ _ W) as [Hh0 _]. destruct (wf_head _ _ _ _ _ W') as [Hh1 Hhb'].
    split; [done|done| | |by constructor|].
    { intros Hv. inversion Hv; subst. auto. }
    { intros q Hq. destruct (Hval q Hq) as [->|Hv]; [left; set_solver|by right]. }
    destruct Hh as [->|(id & Hid & Hv)]; [left; congruence|right]. exists id, h'. split_and!; [done|done|by exists hb'].
Qed.

(** Applying a block again that is valid already. *)
Lemma reapply_one c r l p s : chain_at c r l -> next_block c r l p -> valid_at (c_fork c) p -> s <> irreversible ->
  ends (apply_block e pc bc p s;; modify (set_c_head p)) (fun o c' => settles c c' /\ c_fork c' = c_fork c /\ match o with
    | Ok _ => chain_at c' r (p :: l) | Err ex => chain_at c' r l /\ is_std_exception ex = false end) c.
Proof.
  intros K (b & Hb & Hi & Hprev) Hv Hs. pose proof K as [Hp Hca (h & rb & hb & W) Hcl _ _ _ _ _ _ _ _].
  apply ends_bind. pose proof (apply_block_spec e pc bc wraps recovers p s c Hp (or_introl Hs) Hca) as Ho.
  unfold ends in *. destruct (apply_block e pc bc p s c) as [[[]|ex] c1] eqn:Hrun; cbn in Ho.
  2: { destruct Ho as [Hca1 [Hr Hex]]. pose proof Hr as (Hf & _). apply fixed_part_eq in Hf as (_ & _ & Hfo & _ & _ & Hbo). cbn.
       split; [by apply settles_same|]. split; [done|]. split; [by eapply restored_at|done]. }
  destruct Ho as (Hca1 & Ha & _). pose proof Ha as (Hsame & _). injection Hsame as _ Hfo _ _ Hbo. cbn.
  split; [by apply settles_same|]. split; [done|].
  replace (set_c_head p c1) with (set_c_head p (set_c_fork (c_fork c) c1)) by (rewrite <- Hfo; by destruct c1).
  by eapply (extends c c1 (c_fork c)).
Qed.
(** ** [pop_block] *)
Lemma entries_delete c r l p b : chain_at c r (p :: l) -> heap (c_fork c) !! p = Some b -> delete (bs_num b) (entries c (p :: l)) = entries c l.
Proof.
  intros [_ _ (h & rb & hb & W) _ _ _ Hc _ _ _ _ _] Hb. inversion Hc as [|? ? b' ? ? Hi Hb' Hc']; subst.
  destruct (forest_block _ _ (wf_forest _ _ _ _ _ W) _ _ Hi) as (b0 & Hb0 & _ & [Hw1 Hw2] & _). simplify_eq.
  pose proof (entries_below c _ _ _ _ _ (bs_num b) eq_refl (wf_forest _ _ _ _ _ W) Hc' ltac:(lia)) as Hn. cbn.
  destruct (body_of c p); [|by rewrite delete_id]. rewrite (num_at_some _ _ _ Hb). by rewrite delete_insert_id.
Qed.

Lemma previous_ends c r l p b : chain_at c r (p :: l) -> heap (c_fork c) !! p = Some b ->
  previous_of_head c = (Ok (hd r l), c).
Proof.
  intros [_ _ (h & rb & hb & W) _ _ Hh Hc _ _ _ _ _] Hb. inversion Hc as [|? ? b' ? ? Hi Hb' Hc']; subst. simplify_eq. cbn in Hh.
  destruct (wf_root _ _ _ _ _ W) as [Hr Hrb]. unfold previous_of_head, head_state, mbind, M_bind, get, lift. rewrite Hh, (deref_some _ _ _ Hb).
  unfold get_block. destruct l as [|q l].
  - assert (E1 : bs_prev b = id_of (c_fork c) r) by (by inversion Hc'). pose proof (forest_roots _ _ (wf_forest _ _ _ _ _ W) (bs_id rb) ltac:(set_solver)) as Hn. rewrite (id_of_some _ _ _ Hrb) in E1.
    rewrite E1, Hn. unfold fork_root, state_of, mbind, M_bind, get. rewrite Hr. cbn [mret M_ret].
    rewrite (deref_some _ _ _ Hrb). unfold massert, eos_assert. by rewrite bool_decide_true.
  - assert (index (c_fork c) !! bs_prev b = Some q) as -> by (by inversion Hc'). done.
Qed.

Lemma pop_ends c r l p : chain_at c r (p :: l) ->
  ends (pop_block pc) (fun o c' => o = Ok tt /\ chain_at c' r l /\ c_fork c' = c_fork c /\ settles c c') c.
Proof.
  intros K. pose proof K as [Hp Hca (h & rb & hb & W) Hcl Hbo Hh Hc Hv Hrev Ht Hre Hl].
  inversion Hc as [|? ? b ? ? Hi Hb Hc']; subst. cbn in Hh. destruct (Hbo _ _ Hi) as (bl & Hbl & _).
  unfold pop_block. apply ends_bind. unfold ends at 1. rewrite (previous_ends _ _ _ _ _ K Hb). cbn.
  apply ends_bind. unfold ends at 1, head_state, mbind, M_bind, get, lift. rewrite Hh, (deref_some _ _ _ Hb). cbn.
  unfold ends, mbind, M_bind. cbn. rewrite Hh, (bool_decide_true (is_Some _)), orb_true_r.
  2: { unfold body_of in Hbl. destruct (c_bodies c !! p); [eauto|done]. }
  cbn. split; [done|]. split; [|split; [done|by apply settles_same]].
  destruct (forest_block _ _ (wf_forest _ _ _ _ _ W) _ _ Hi) as (b0 & Hb0 & Hid & [Hw1 Hw2] & _). simplify_eq.
  destruct (db_sessions (c_db c)) as [|d0 ss] eqn:Es; [done|]. cbn in Ht. destruct Ht as [Hex Ht].
  assert (Hstart : bs_prev b = id_of (c_fork c) (hd r l)) by exact (chain_start _ _ _ _ _ r (wf_forest _ _ _ _ _ W) Hc' eq_refl).
  split; cbn; [done|done|by exists h, rb, hb|done|exact Hbo|done| | | | | |].
  - by rewrite <- Hstart.
  - by inversion Hv.
  - unfold undo_session. rewrite Es. cbn. rewrite Hrev. cbn. rewrite (num_at_some _ _ _ Hb).
    assert (Kd : num_at (c_fork c) (hd r l) = num_from_id (id_of (c_fork c) (hd r l))).
    { destruct l as [|q l]; cbn.
      - destruct (wf_root _ _ _ _ _ W) as [_ Hrb]. rewrite (num_at_some _ _ _ Hrb), (id_of_some _ _ _ Hrb). apply (wf_root_num _ _ _ _ _ W).
      - destruct (chain_elem _ _ _ _ _ q (wf_forest _ _ _ _ _ W) Hc' ltac:(set_solver)) as (b1 & Hb1 & _ & [Hn _]).
        by rewrite (num_at_some _ _ _ Hb1), (id_of_some _ _ _ Hb1). }
    rewrite Kd, <- Hstart. lia.
  - unfold undo_session. rewrite Es. cbn. eapply trail_same; [|exact Ht]. done.
  - intros Hrec. rewrite Hre by done. by apply (entries_delete c r).
  - done.
Qed.

Lemma pop_blocks_ends c r l1 l2 : chain_at c r (l1 ++ l2) ->
  ends (pop_blocks pc (length l1)) (fun o c' => o = Ok tt /\ chain_at c' r l2 /\ c_fork c' = c_fork c /\ settles c c') c.
Proof.
  revert c. induction l1 as [|p l1 IH]; intros c K; cbn [length pop_blocks]; [by split_and!|].
  apply ends_bind. eapply ends_mono; [|by eapply pop_ends]. intros o c1 (-> & K1 & Ef & S1).
  eapply ends_mono; [|by apply IH]. intros o c2 (-> & K2 & Ef2 & S2). split_and!; [done|done|congruence|by etrans].
Qed.

(** ** Applying the blocks of the old branch again *)
Lemma climbs_next c r l p ps x : climbs (c_fork c) (id_of (c_fork c) (hd r l)) (p :: ps) x ->
  next_block c r l p /\ climbs (c_fork c) (id_of (c_fork c) p) ps x.
Proof.
  intros Hc. inversion Hc as [|? b ? ? Hi Hb Hc' E]; subst. split; [by exists b|]. by rewrite (id_of_some _ _ _ Hb).
Qed.

Lemma reapply_ends c r l ps x : chain_at c r l -> climbs (c_fork c) (id_of (c_fork c) (hd r l)) ps x -> Forall (valid_at (c_fork c)) ps ->
  ends (reapply e pc bc ps) (fun _ c' => exists l', chain_at c' r l' /\ settles c c') c.
Proof.
  revert c l. induction ps as [|p ps IH]; intros c l K Hc Hv; cbn [reapply]; [exists l; by split|].
  apply climbs_next in Hc as [Hn Hc]. inversion Hv as [|? ? Hvp Hvs]; subst.
  pose proof (reapply_one c r l p TransactionChecks.validated K Hn Hvp ltac:(done)) as Ho. revert Ho.
  unfold ends, mbind, M_bind. destruct (apply_block e pc bc p TransactionChecks.validated c) as [[u|ex] c1]; cbn; intros (S1 & Ef & Ho).
  - change (exists l', chain_at (reapply e pc bc ps (set_c_head p c1)).2 r l' /\ settles c (reapply e pc bc ps (set_c_head p c1)).2).
    cbn in Ef. destruct (IH (set_c_head p c1) (p :: l) Ho) as (l' & K' & S2); cbn; rewrite ?Ef; [done|done|].
    exists l'. split; [done|by etrans].
  - exists l. split; [apply Ho|done].
Qed.
(** ** Removing a block that failed *)
Lemma next_not_on c r l p : chain_at c r l -> next_block c r l p -> p ∉ l.
Proof.
  intros [_ _ (h & rb & hb & W) _ _ _ Hc _ _ _ _ _] (b & Hb & Hi & Hprev) Hp.
  apply list_elem_of_lookup in Hp as [i Hp]. pose proof (chain_num_at _ _ _ _ _ _ _ (wf_forest _ _ _ _ _ W) Hc Hp) as Hn.
  destruct (forest_block _ _ (wf_forest _ _ _ _ _ W) _ _ Hi) as (b0 & Hb0 & _ & [Hw1 Hw2] & _). simplify_eq.
  rewrite (num_at_some _ _ _ Hb) in Hn. rewrite <- Hprev in Hn. lia.
Qed.

(** What stays in the index: the branches without the block. *)
Definition keeps_branches f f' r bad : Prop :=
  heap f' = heap f /\ forall x l, chain f x l (id_of f r) -> bad ∉ l -> forall q b, q ∈ l -> heap f !! q = Some b -> index f' !! bs_id b = Some q.

Lemma remove_ends c r l bad b : chain_at c r l -> heap (c_fork c) !! bad = Some b -> index (c_fork c) !! bs_id b = Some bad -> bad ∉ l ->
  ends (on_fork (ForkDatabase.remove (bs_id b))) (fun o c' => chain_at c' r l /\ settles c c'
    /\ match o with Ok _ => keeps_branches (c_fork c) (c_fork c') r bad | Err _ => c' = c end) c.
Proof.
  intros K Hb Hi Hbad. pose proof K as [Hp Hca (h & rb & hb & W) Hcl Hbo _ Hc _ _ _ _ _]. destruct (wf_root _ _ _ _ _ W) as [_ Hrb].
  unfold ends, on_fork, focus. destruct (remove_cases _ _ _ _ _ (bs_id b) W) as [[_ ->]|[Hd (idx & -> & W' & Hidx)]]; cbn.
  { replace (set_c_fork (c_fork c) c) with c by (by destruct c). by split_and!. }
  assert (Hkeep : keeps_branches (c_fork c) (set_index idx (c_fork c)) r bad).
  { split; [done|]. intros x l' Hl' Hb' q qb Hq Hqb. cbn.
    destruct (chain_elem _ _ _ _ _ q (wf_forest _ _ _ _ _ W) Hl' Hq) as (q0 & Hq0 & Hqi & _). simplify_eq.
    destruct (remove_keeps _ _ _ _ _ _ _ _ _ W Hidx Hqi Hqb) as [|Hdq]; [done|]. exfalso. apply Hb'.
    apply list_elem_of_split in Hq as (l1 & l2 & ->). destruct (chain_split _ _ _ _ _ Hl') as (y & H1' & H2').
    assert (Hy : y = bs_id qb). { inversion H2' as [|? ? q1 ? ? Hi1 Hq1 _]; subst. destruct (forest_block _ _ (wf_forest _ _ _ _ _ W) _ _ Hi1) as (q2 & Hq2 & <- & _). by simplify_eq. }
    subst y. apply elem_of_app. right. eapply (descends_on_chain _ _ _ _ _ (bs_id b) bad (wf_forest _ _ _ _ _ W) H2'); [|done|done].
    rewrite (id_of_some _ _ _ Hrb). set_solver. }
  split; [|split; [|done]].
  - eapply (chain_at_frame c); [done|done|done|by apply grows_same_heap|exact W'| | | |exact K].
    + by eapply remove_closed.
    + intros q qb Hq Hqb. by eapply (proj2 Hkeep).
    + intros id q Hq. cbn in Hq. apply Hbo. destruct (descends_dec (c_fork c) _ (bs_id b) id (wf_forest _ _ _ _ _ W)) as [Hd'|Hd'].
      * by rewrite (proj1 (Hidx id) Hd') in Hq.
      * by rewrite <- (proj2 (Hidx id) Hd').
  - split_and!; cbn; [by apply grows_same_heap| |by left|done|by left]. apply map_subseteq_spec. intros id q Hq.
    destruct (descends_dec (c_fork c) _ (bs_id b) id (wf_forest _ _ _ _ _ W)) as [Hd'|Hd']; [by rewrite (proj1 (Hidx id) Hd') in Hq|by rewrite <- (proj2 (Hidx id) Hd')].
Qed.

(** ** Switching *)
Definition ends_ok c c' : Prop := exists r' l', chain_at c' r' l' /\ settles c c'.

Lemma ends_ok_trans c c1 c2 : settles c c1 -> ends_ok c1 c2 -> ends_ok c c2.
Proof. intros S1 (r' & l' & K & S2). exists r', l'. split; [done|by etrans]. Qed.

(** [m] does not change the controller. *)
Lemma assert_forked_reads second c : (assert_forked second c).2 = c.
Proof.
  unfold assert_forked. destruct (last second) as [q|]; [|done]. unfold mbind, M_bind, head_state, state_of, get, lift.
  unfold mbind, M_bind. destruct (ForkDatabase.deref _ _) as [h|]; [|done]. cbn. destruct (ForkDatabase.deref _ _); [|done]. cbn.
  by unfold massert.
Qed.

Lemma switch_back_ends c r done l0 second x bad b : chain_at c r (done ++ l0) ->
  heap (c_fork c) !! bad = Some b -> index (c_fork c) !! bs_id b = Some bad -> bad ∉ done ++ l0 -> bad ∉ second ->
  chain (c_fork c) x second (id_of (c_fork c) (hd r l0)) -> Forall (valid_at (c_fork c)) second ->
  ends (switch_back e pc bc bad (length done) second) (fun _ => ends_ok c) c.
Proof.
  intros K Hb Hi Hbad Hbs Hc2 Hv2. pose proof K as [_ _ (h & rb & hb & W) _ _ _ Hc _ _ _ _ _].
  unfold switch_back. apply ends_bind, (state_of_ends _ b); [done|].
  apply ends_bind. eapply ends_mono; [|by eapply remove_ends]. intros o c1 (K1 & S1 & Ho). destruct o as [u|ex]; [|by exists r, (done ++ l0)].
  apply ends_bind. eapply ends_mono; [|by eapply pop_blocks_ends]. intros o c2 (-> & K2 & Ef2 & S2).
  apply ends_bind. unfold ends at 1. pose proof (assert_forked_reads second c2) as Ha. destruct (assert_forked second c2) as [[v|ex] c3]; cbn in *; subst c3.
  2: { exists r, l0. split; [done|by etrans]. }
  destruct (chain_split _ _ _ _ _ Hc) as (y & _ & Hc0). assert (y = id_of (c_fork c) (hd r l0)) as -> by exact (chain_start _ _ _ _ _ r (wf_forest _ _ _ _ _ W) Hc0 eq_refl).
  pose proof (chain_app _ _ _ _ _ _ Hc2 Hc0) as Hall. destruct Ho as [Eh Hk].
  assert (G : grows (c_fork c) (c_fork c2)) by (rewrite Ef2; by apply grows_same_heap).
  eapply ends_mono; [|eapply (reapply_ends c2 r l0 (rev second) x K2)].
  - intros o c3 (l' & K3 & S3). exists r, l'. split; [done|]. by do 2 (etrans; [done|]).
  - rewrite (grows_id _ _ _ G) by (eapply (path_exists c); [exact K|destruct l0; set_solver]).
    eapply climbs_keep; [exact G| |eapply chain_climbs; [exact (wf_forest _ _ _ _ _ W)|done]].
    intros q qb Hq Hqb. rewrite Ef2. apply list_elem_of_In, in_rev, list_elem_of_In in Hq.
    apply (Hk _ _ Hall) with (q := q); [|by apply elem_of_app; left|done].
    intros [|Hin]%elem_of_app; [done|]. apply Hbad, elem_of_app. by right.
  - apply Forall_rev. eapply Forall_impl; [exact Hv2|]. intros q. by apply grows_valid.
Qed.
Lemma apply_branch_ends r l0 second x y ps : forall c done, chain_at c r (done ++ l0) ->
  climbs (c_fork c) (id_of (c_fork c) (hd r (done ++ l0))) ps y ->
  chain (c_fork c) x second (id_of (c_fork c) (hd r l0)) -> Forall (valid_at (c_fork c)) second -> (forall p, p ∈ ps -> p ∉ second) ->
  ends (apply_branch e pc bc second (length done) ps) (fun o c' => match o with
    | Ok _ => chain_at c' r (rev ps ++ done ++ l0) /\ settles c c' /\ marked (c_fork c) (c_fork c') ps
    | Err _ => ends_ok c c' end) c.
Proof.
  induction ps as [|p ps IH]; intros c done K Hcl Hc2 Hv2 Hdis; cbn [apply_branch rev].
  { split; [done|]. split; [done|apply marked_nil]. }
  apply climbs_next in Hcl as [Hn Hcl]. pose proof Hn as (b & Hb & Hi & _). pose proof K as [_ _ (h & rb & hb & W) _ _ _ _ _ _ _ _ _].
  apply ends_bind, ends_caught, ends_bind, (state_of_ends _ b); [done|].
  eapply ends_mono; [|apply (move_ends c r (done ++ l0) p); [done|done|by destruct (is_valid b)]].
  intros [u|ex] c1.
  - intros (K1 & S1 & M1). eapply ends_mono; [|apply (IH c1 (p :: done)); [exact K1| | | |]].
    + intros [v|ex] c2; [intros (K2 & S2 & M2)|intros Ho; by eapply ends_ok_trans].
      split; [rewrite <- app_assoc; exact K2|]. split; [by etrans|]. exact (marked_app _ _ _ [p] ps M1 M2).
    + cbn [hd app]. rewrite (grows_id _ _ p (mk_grows _ _ _ M1)) by eauto. eapply climbs_keep; [exact (mk_grows _ _ _ M1)| |exact Hcl].
      intros q qb Hq Hqb. rewrite (mk_index _ _ _ M1). clear -Hcl Hq Hqb. induction Hcl as [|q' b' l x Hi' Hb' _ IH]; [set_solver|].
      apply elem_of_cons in Hq as [->|Hq]; [congruence|auto].
    + rewrite (grows_id _ _ (hd r l0) (mk_grows _ _ _ M1)) by (eapply (path_exists c); [exact K|destruct l0; set_solver]).
      eapply chain_keep; [exact (wf_forest _ _ _ _ _ W)|exact (mk_grows _ _ _ M1)| |exact Hc2].
      intros q qb Hq Hqb. rewrite (mk_index _ _ _ M1). destruct (chain_elem _ _ _ _ _ q (wf_forest _ _ _ _ _ W) Hc2 Hq) as (q0 & Hq0 & Hqi & _). congruence.
    + eapply Forall_impl; [exact Hv2|]. intros q. apply grows_valid, (mk_grows _ _ _ M1).
    + intros q Hq. apply Hdis. by right.
  - intros (K1 & S1 & Ef & ->). apply ends_bind. rewrite <- Ef in Hb, Hi, Hc2, Hv2. eapply ends_mono; [|eapply switch_back_ends; [exact K1|exact Hb|exact Hi| | |exact Hc2|exact Hv2]].
    + intros [v|ex'] c2 Ho; exact (ends_ok_trans _ _ _ S1 Ho).
    + exact (next_not_on _ _ _ _ K Hn).
    + apply Hdis. by left.
Qed.

(** ** A block on the head *)
Lemma extend_head_ends c r l p s : chain_at c r l -> next_block c r l p -> s <> irreversible ->
  ends (extend_head e pc bc p s) (fun o c' => match o with
    | Ok _ => chain_at c' r (p :: l) /\ settles c c' /\ marked (c_fork c) (c_fork c') [p]
    | Err _ => ends_ok c c' end) c.
Proof.
  intros K Hn Hs. unfold extend_head. apply ends_bind, ends_caught. eapply ends_mono; [|by eapply move_ends]. intros [u|ex] c1; [done|].
  intros (K1 & S1 & Ef & ->). pose proof Hn as (b & Hb & Hi & _). rewrite <- Ef in Hb, Hi.
  apply ends_bind, (state_of_ends _ b); [done|]. apply ends_bind. eapply ends_mono; [|eapply remove_ends; [exact K1|done|done|exact (next_not_on _ _ _ _ K Hn)]].
  intros [u|ex'] c2 (K2 & S2 & _); (exists r, l; split; [done|by etrans]).
Qed.

(** ** The switch *)
Lemma chain_prefix f R t x l k z : forest f R -> t ∈ R -> chain f x l t -> chain f x k z -> exists m, l = k ++ m /\ chain f z m t.
Proof.
  intros F Hr Hl Hk. destruct (decide (length k <= length l)%nat) as [Hle|Hgt]; [by eapply chain_functional|].
  destruct (chain_functional _ _ _ _ _ _ Hl Hk ltac:(lia)) as ([|q m] & -> & Hm); rewrite ?app_nil_r, ?length_app in *; [lia|].
  inversion Hm as [|? ? ? ? ? Hx _ _]; subst. by rewrite (forest_roots _ _ F t Hr) in Hx.
Qed.

Lemma branches_disjoint f R x y l1 l2 z : forest f R -> chain f x l1 z -> chain f y l2 z ->
  (forall p q, last l1 = Some p -> last l2 = Some q -> p <> q) -> forall p, p ∈ l1 -> p ∉ l2.
Proof.
  intros F H1' H2' Hlast p Hp1 Hp2. apply list_elem_of_split in Hp1 as (a1 & a2 & ->). apply list_elem_of_split in Hp2 as (b1 & b2 & ->).
  destruct (chain_split _ _ _ _ _ H1') as (u & _ & Hu). destruct (chain_split _ _ _ _ _ H2') as (v & _ & Hv).
  assert (u = v) as <-.
  { inversion Hu as [|? ? b ? ? Hi Hb _]; subst. inversion Hv as [|? ? b' ? ? Hi' Hb' _]; subst. simplify_eq.
    destruct (forest_block _ _ F _ _ Hi) as (b0 & Hb0 & <- & _). destruct (forest_block _ _ F _ _ Hi') as (b1' & Hb1 & <- & _). congruence. }
  pose proof (chain_same_end _ _ _ _ _ _ F Hu Hv) as E. rewrite !last_app, E in Hlast.
  destruct (last (p :: b2)) as [w|] eqn:El; [by eapply Hlast|]. by apply last_None in El.
Qed.

Lemma switch_to_ends c r l p b : chain_at c r l -> heap (c_fork c) !! p = Some b -> (p = r \/ index (c_fork c) !! bs_id b = Some p) ->
  ends (switch_to e pc bc p) (fun o c' => match o with
    | Ok _ => exists l' ps, chain_at c' r l' /\ settles c c' /\ marked (c_fork c) (c_fork c') ps
        /\ chain (c_fork c) (bs_id b) l' (id_of (c_fork c) r) /\ (forall q, q ∈ ps -> q ∈ l')
    | Err _ => ends_ok c c' end) c.
Proof.
  intros K Hb Hp. pose proof K as [_ _ (h & rb & hb & W) _ _ Hh Hc Hv _ _ _ _]. destruct (wf_root _ _ _ _ _ W) as [_ Hrb].
  assert (Hk1 : ForkDatabase.known (c_fork c) rb (bs_id b)) by (destruct Hp as [->|Hi]; [left; congruence|right; eauto]).
  assert (Hk2 : ForkDatabase.known (c_fork c) rb (id_of (c_fork c) (hd r l))).
  { destruct (top_place c r l K) as [->|[Hi _]]; [left; by rewrite (id_of_some _ _ _ Hrb)|right; eauto]. }
  assert (Hx : exists tb, heap (c_fork c) !! hd r l = Some tb) by (apply (path_exists c r l); [done|destruct l; set_solver]). destruct Hx as [tb Htb].
  unfold switch_to. apply ends_bind. unfold ends at 1. cbn. apply ends_bind, (head_state_ends _ _ tb _ Hh Htb). apply ends_bind, (state_of_ends _ b); [done|]. apply ends_bind, ends_lift.
  rewrite (id_of_some _ _ _ Htb) in *. destruct (fetch_branch_from_spec _ _ _ _ _ _ _ W Hk1 Hk2) as (l1 & l2 & z & -> & Hl1 & Hl2 & Hlast).
  rewrite (id_of_some _ _ _ Hrb) in Hc.
  destruct (chain_prefix _ _ (bs_id rb) _ _ _ _ (wf_forest _ _ _ _ _ W) ltac:(set_solver) Hc Hl2) as (l0 & -> & Hl0).
  assert (z = id_of (c_fork c) (hd r l0)) as Hz by (eapply chain_start; [exact (wf_forest _ _ _ _ _ W)|exact Hl0|by rewrite (id_of_some _ _ _ Hrb)]).
  apply Forall_app in Hv as [Hv2 _].
  apply ends_bind. assert (Hpop : ends (if (0 <? length l2)%nat then pop_blocks pc (length l2);; assert_forked l2 else mret tt)
    (fun o c' => chain_at c' r l0 /\ settles c c' /\ c_fork c' = c_fork c) c).
  { destruct l2 as [|q l2]; [by split_and!|]. cbn [length Nat.ltb Nat.leb]. apply ends_bind. eapply ends_mono; [|apply (pop_blocks_ends c r (q :: l2) l0 K)].
    intros o c1 (-> & K1 & Ef & S1). unfold ends. pose proof (assert_forked_reads (q :: l2) c1) as Ha.
    destruct (assert_forked (q :: l2) c1) as [o' c2]. cbn in Ha. by subst c2. }
  eapply ends_mono; [|exact Hpop]. intros [u|ex] c1 (K1 & S1 & Ef); [|by exists r, l0].
  rewrite <- Ef in Hl1, Hl2, Hv2, Hz, W. eapply ends_mono; [|apply (apply_branch_ends r l0 l2 (bs_id tb) (bs_id b) (rev l1) c1 []); [exact K1| | |done|]].
  - intros [v|ex] c2; [intros (K2 & S2 & M2)|intros Ho; by eapply ends_ok_trans]. rewrite rev_involutive in K2. cbn [app] in K2.
    exists (l1 ++ l0), (rev l1). split; [done|]. split; [by etrans|]. rewrite <- Ef. split; [done|]. split.
    + rewrite <- Ef in Hrb. rewrite (id_of_some _ _ _ Hrb). eapply chain_app; [exact Hl1|]. by rewrite Ef.
    + intros q Hq. apply elem_of_app. left. by apply list_elem_of_In, in_rev, list_elem_of_In in Hq.
  - cbn [app]. rewrite <- Hz. eapply chain_climbs; [exact (wf_forest _ _ _ _ _ W)|done].
  - by rewrite <- Hz.
  - intros q Hq. apply (branches_disjoint _ _ _ _ _ _ _ (wf_forest _ _ _ _ _ W) Hl1 Hl2 Hlast). by apply list_elem_of_In, in_rev, list_elem_of_In in Hq.
Qed.
End Safety.
