(* ===== verification/ForkLog.v ===== *)
(** * Blocks that become irreversible ([controller.cpp])

    [log_irreversible] on a node whose head is the head of the fork database: the
    blocks of the branch up to the irreversible one go to the block log, their
    sessions and entries are dropped and the root moves up; an exception on the
    way leaves the node consistent with what was logged. *)

From S2P Require Import Prelude Merkle Chainbase ResourceLimits Names Authority AuthorityChecker BlockHeader BlockHeaderState ForkDatabase Authorization GlobalProperties EosioContract NativeState NativeRam Transaction TransactionChecks ChainConfig Timer TransactionContext ContractTables TableInvariant ApplyContext TransactionExec PushTransaction PushOutcomes Block BlockBuilding BlockApply ForkSwitch ForkChains ForkInvariant.
#[local] Open Scope Z_scope.

Section Log.
Context {Sig : Type} {C : crypto} {T : trx_codec Sig public_key} {B : block_codec Sig} `{!crypto_laws C}.
Context `{unpacker public_key} `{contract_unpacker public_key} `{P : posix_timer} `{softfloat}.
Context (e : apply_env (K := public_key)) (pc : push_config) (bc : block_config (Sig := Sig)) (sc : switch_config (Sig := Sig)).
Abbreviation ctl := (controller (Sig := Sig)).
Abbreviation CM := (M ctl).
Abbreviation chain_at := (chain_at e pc bc sc).
Abbreviation trail := (trail e pc bc).
Implicit Types (c : ctl) (p q r z : positive) (l : list positive).

Context (wraps : forall ex, is_std_exception (wrap_std_exception (ax_fc e) ex) = false).
Context (handlers : forall sig b ex, emit sc sig b = Err ex -> is_std_exception ex = false).
Context (speculative : read_mode pc <> IRREVERSIBLE) (log_start : 1 <= first_block_num sc).

(** The invariant while blocks are logged: the log has come to [z], the root of
    the fork database is still [r]. *)
Record logged_at c r z l : Prop := {
  lo_pending : c_pending c = None;
  lo_caches : all_caches_ok c;
  lo_wf : exists h rb hb, wf_at (c_fork c) r h rb hb;
  lo_closed : closed (c_fork c) r;
  lo_bodies : forall id p, index (c_fork c) !! id = Some p -> exists b, body_of c p = Some b /\ id_of_block b = id;
  lo_place : z = r \/ index (c_fork c) !! id_of (c_fork c) z = Some z /\ valid_at (c_fork c) z;
  lo_head : c_head c = hd z l;
  lo_path : chain (c_fork c) (id_of (c_fork c) (hd z l)) l (id_of (c_fork c) z);
  lo_valid : Forall (valid_at (c_fork c)) l;
  lo_revision : db_revision (c_db c) = num_at (c_fork c) (hd z l);
  lo_trail : trail c z l (db_current (c_db c)) (db_sessions (c_db c));
  lo_reversible : records_reversible pc = true -> c_reversible c = entries c l;
  lo_log : log_at sc c z }.

Lemma chain_logged c r l : chain_at c r l -> logged_at c r r l.
Proof. intros []. split; try done. by left. Qed.

(** ** One block *)
Lemma hd_snoc z p l : hd z (l ++ [p]) = hd p l.
Proof. by destruct l. Qed.

Lemma trail_length c r l : forall d ss, trail c r l d ss -> length ss = length l.
Proof. induction l as [|p l IH]; intros d [|d0 ss]; cbn; try done. intros [_ Ht]. f_equal. by eapply IH. Qed.

Lemma trail_cut c z p l : forall d ss, trail c z (l ++ [p]) d ss -> trail c p l d (take (length l) ss).
Proof.
  induction l as [|q l IH]; intros d [|d0 ss]; cbn [app]; try done. cbn. intros [Hx Ht]. rewrite hd_snoc in Hx. split; [done|by apply IH].
Qed.

Lemma entries_cut c R x l p y : forest (c_fork c) R -> chain (c_fork c) x (l ++ [p]) y ->
  filter (fun nb => num_at (c_fork c) p < nb.1) (entries c (l ++ [p])) = entries c l.
Proof.
  intros F Hc. destruct (chain_split _ _ _ _ _ Hc) as (u & Hl & Hp). inversion Hp as [|? ? b ? ? Hi Hb _]; subst.
  destruct (forest_block _ _ F _ _ Hi) as (b0 & Hb0 & <- & [Hw _] & _). simplify_eq. rewrite (num_at_some _ _ _ Hb), Hw. clear Hc Hp.
  remember (bs_id b) as u eqn:Eu. induction Hl as [|id q qb l u Hqi Hqb Hl IH]; cbn [app entries foldr].
  - destruct (body_of c p) as [bl|]; [|done]. rewrite map_filter_insert_False; [done|].
    cbn. rewrite (num_at_some _ _ _ Hb), Hw, Eu. lia.
  - destruct (body_of c q) as [bl|]; [|by apply IH]. rewrite map_filter_insert_True; [f_equal; by apply IH|].
    cbn. pose proof (chain_num _ _ _ _ _ F Hl) as Hn. destruct (forest_block _ _ F _ _ Hqi) as (q0 & Hq0 & _ & [Hw1 Hw2] & _). simplify_eq.
    rewrite (num_at_some _ _ _ Hqb). lia.
Qed.
Lemma place_num f r h rb hb z : wf_at f r h rb hb -> (z = r \/ index f !! id_of f z = Some z) -> num_at f z = num_from_id (id_of f z).
Proof.
  intros W [->|Hi].
  - destruct (wf_root _ _ _ _ _ W) as [_ Hrb]. rewrite (num_at_some _ _ _ Hrb), (id_of_some _ _ _ Hrb). apply (wf_root_num _ _ _ _ _ W).
  - destruct (forest_block _ _ (wf_forest _ _ _ _ _ W) _ _ Hi) as (b & Hb & Hid & [Hn _] & _). by rewrite (num_at_some _ _ _ Hb), Hn, Hid.
Qed.

(** [take] of the sessions: those of the blocks above the one that was logged. *)
Lemma logged_step c r z l p b body : logged_at c r z (l ++ [p]) -> heap (c_fork c) !! p = Some b -> c_bodies c !! p = Some body ->
  let c' := set_c_reversible (filter (fun nb => bs_num b < nb.1) (c_reversible c))
              (set_c_blog (c_blog c ++ [body_block body]) (set_c_db (commit_sessions (bs_num b) (c_db c)) c)) in
  logged_at c' r p l.
Proof.
  intros [Hp Hca (h & rb & hb & W) Hcl Hbo Hpl Hh Hc Hv Hrev Ht Hre [Hl1 Hl2]] Hb Hbody c'.
  pose proof (wf_forest _ _ _ _ _ W) as F. destruct (chain_split _ _ _ _ _ Hc) as (u & Hl & Hcp).
  inversion Hcp as [|? ? b0 ? ? Hi Hb0 Hend]; subst. simplify_eq. destruct (forest_block _ _ F _ _ Hi) as (b1 & Hb1 & Hid & [Hw1 Hw2] & _). simplify_eq.
  assert (Hpid : id_of (c_fork c) p = bs_id b) by exact (id_of_some _ _ _ Hb). rewrite hd_snoc in *.
  assert (Hz : bs_prev b = id_of (c_fork c) z) by (by inversion Hend).
  assert (Hvp : valid_at (c_fork c) p /\ Forall (valid_at (c_fork c)) l) by (apply Forall_app in Hv as [? Hv]; by inversion Hv).
  assert (Hnum : num_at (c_fork c) (hd p l) = bs_num b + Z.of_nat (length l)).
  { rewrite (place_num _ r h rb hb (hd p l) W); [|right; destruct l as [|q l]; cbn in *; [by rewrite Hpid|by inversion Hl]].
    rewrite (chain_num _ _ _ _ _ F Hl). lia. }
  split; cbn; [done|done|by exists h, rb, hb|done|exact Hbo|right; rewrite Hpid; split; [done|apply Hvp]|done|by rewrite Hpid|apply Hvp|done| | |].
  - replace (Z.to_nat (db_revision (c_db c) - bs_num b)) with (length l) by lia.
    apply (trail_same e pc bc c); [done|]. by apply (trail_cut c z p).
  - intros Hrec. rewrite Hre by done. rewrite <- (num_at_some _ _ _ Hb). etrans; [by eapply entries_cut|done].
  - unfold log_at. cbn. rewrite length_app, (num_at_some _ _ _ Hb), Hpid. cbn. split.
    + rewrite (place_num _ r h rb hb z W) in Hl1 by tauto. rewrite <- Hz in Hl1. lia.
    + rewrite last_snoc. intros bl [= <-]. destruct (Hbo _ _ Hi) as (bl & Hbl & <-). unfold body_of in Hbl. rewrite Hbody in Hbl. by injection Hbl as ->.
Qed.
(** ** The loop *)
Definition log_frame c c' : Prop := c_fork c' = c_fork c /\ c_head c' = c_head c /\ settles c c'.

Lemma log_blocks_ends r branch : forall c z l, logged_at c r z (l ++ rev branch) ->
  ends (log_blocks e pc bc sc branch (id_of (c_fork c) z)) (fun o c' => exists z' l', logged_at c' r z' l' /\ log_frame c c'
    /\ match o with Ok (root_id, _) => root_id = id_of (c_fork c) z' | Err _ => False end) c.
Proof.
  induction branch as [|p branch IH]; intros c z l K; cbn [log_blocks rev] in *.
  { rewrite app_nil_r in K. exists z, l. split; [done|]. split; [|done]. split_and!; [done|done|reflexivity]. }
  rewrite app_assoc in K. set (l' := l ++ rev branch) in *. pose proof K as [Hp Hca (h & rb & hb & W) Hcl Hbo Hpl Hh Hc _ _ _ _ [Hl1 _]].
  destruct (chain_elem _ _ _ _ _ p (wf_forest _ _ _ _ _ W) Hc ltac:(set_solver)) as (b & Hb & Hi & [Hw1 Hw2]).
  destruct (Hbo _ _ Hi) as (bl & Hbl & Hid). unfold body_of in Hbl. destruct (c_bodies c !! p) as [body|] eqn:Hbody; [|done]. injection Hbl as Hbl.
  assert (Hstay : forall ex, exists z' l', logged_at c r z' l' /\ log_frame c c /\ match Ok (id_of (c_fork c) z, ex) : res (digest_type * option exn) with
    | Ok (root_id, _) => root_id = id_of (c_fork c) z' | Err _ => False end).
  { intros ex. exists z, (l' ++ [p]). split; [done|]. split; [|done]. split_and!; [done|done|reflexivity]. }
  apply ends_bind, (state_of_ends _ b); [done|]. apply ends_bind. unfold ends at 1, my_body. rewrite Hbody. cbn.
  apply ends_bind, ends_caught, ends_bind. unfold apply_irreversible. rewrite (bool_decide_false (read_mode pc = IRREVERSIBLE)) by done.
  apply ends_lift. destruct (emit sc sig_irreversible_block (body_block body)) as [[]|ex] eqn:Eem; [|cbn; rewrite (handlers _ _ _ Eem); exact (Hstay (Some ex))].
  apply ends_bind. unfold ends at 1. cbn. set (c1 := set_c_db _ c).
  destruct (chain_split _ _ _ _ _ Hc) as (u & _ & Hcp). assert (Hz : bs_prev b = id_of (c_fork c) z).
  { inversion Hcp as [|? ? b0 ? ? _ Hb0 Hend]; subst. simplify_eq. by inversion Hend. }
  assert (Hnum : block_num (sh_header (sb_header (body_block body))) = bs_num b).
  { rewrite Hbl, <- num_from_header_id. unfold id_of_block in Hid. by rewrite Hid. }
  assert (Hrun : append_block e sc (body_block body) c1 = (Ok tt, set_c_blog (c_blog c ++ [body_block body]) c1)).
  { unfold append_block, rethrow_block, mbind, M_bind, get, massert, modify. rewrite Hnum. cbn.
    pose proof (block_num_u32 (sh_header (sb_header (body_block body)))) as Hu. rewrite Hnum in Hu.
    rewrite (place_num _ r h rb hb z W), <- Hz in Hl1 by tauto.
    rewrite u32_id by (unfold is_u32 in Hu; widths; lia). rewrite (proj2 (Z.eqb_eq _ _)) by lia. done. }
  apply ends_bind, ends_caught. unfold ends at 1. rewrite Hrun. cbn [fst snd]. apply ends_bind. unfold ends at 1. cbn.
  set (c2 := set_c_reversible _ _). pose proof (logged_step c r z l' p b body K Hb Hbody) as K2. cbn zeta in K2. fold c1 in K2.
  rewrite <- (id_of_some (c_fork c2) p b Hb). eapply ends_mono; [|exact (IH c2 p l K2)].
  intros o c3 (z' & m & K3 & (Ef & Eh & S3) & Ho). exists z', m. split; [done|]. split; [|exact Ho].
  split_and!; [done|done|]. etrans; [|exact S3]. by apply settles_same.
Qed.
(** ** The root *)
Lemma advanced_closed f r h rb hb z zb idx : wf_at f r h rb hb -> closed f r -> index f !! bs_id zb = Some z -> heap f !! z = Some zb ->
  (forall x q, idx !! x = Some q <-> index f !! x = Some q /\ x <> bs_id zb /\ descends f x (bs_id zb)) ->
  closed (mk_fork_database (heap f) idx (Some z) (Some h)) z.
Proof.
  intros W Hcl Hz Hzb Hidx id p b Hp Hb Hv. cbn in Hp, Hb. change (id_of _ z) with (id_of f z). rewrite (id_of_some _ _ _ Hzb).
  apply Hidx in Hp as (Hp & Hne & [k Hk]). inversion Hk as [|? ? b0 k' ? Hi Hb0 Hk']; subst; [done|]. simplify_eq.
  destruct (decide (bs_prev b = bs_id zb)) as [|Hn]; [by left|right].
  destruct (Hcl _ _ _ Hp Hb Hv) as [Hr|(q & Hq & Hvq)].
  - exfalso. destruct (wf_root _ _ _ _ _ W) as [_ Hrb]. rewrite (id_of_some _ _ _ Hrb) in Hr.
    inversion Hk' as [|? ? ? ? ? Hx _ _]; subst; [congruence|]. rewrite Hr, (forest_roots _ _ (wf_forest _ _ _ _ _ W) (bs_id rb)) in Hx; [done|set_solver].
  - exists q. split; [|done]. cbn. apply Hidx. split_and!; [done|done|by exists k'].
Qed.

Lemma fork_root_ends r (Q : res positive -> ctl -> Prop) c : ForkDatabase.root (c_fork c) = Some r -> Q (Ok r) c -> ends fork_root Q c.
Proof. intros Hr HQ. unfold ends, fork_root, mbind, M_bind, get. by rewrite Hr. Qed.

Lemma advance_to_ends c r z l : logged_at c r z l -> ForkDatabase.head (c_fork c) = Some (hd z l) ->
  ends (advance_to (id_of (c_fork c) z)) (fun o c' => o = Ok tt /\ chain_at c' z l /\ settles c c' /\ ForkDatabase.head (c_fork c') = ForkDatabase.head (c_fork c)) c.
Proof.
  intros [Hp Hca (h & rb & hb & W) Hcl Hbo Hpl Hh Hc Hv Hrev Ht Hre Hlog] Hhead.
  destruct (wf_root _ _ _ _ _ W) as [Hr Hrb]. destruct (wf_head _ _ _ _ _ W) as [Hh' Hhb]. assert (Ehd : h = hd z l) by congruence.
  unfold advance_to. apply ends_bind, (fork_root_ends r); [done|]. apply ends_bind, (state_of_ends _ rb); [done|]. destruct (bool_decide_reflect (id_of (c_fork c) z = bs_id rb)) as [E|E].
  { assert (z = r) as ->.
    { destruct Hpl as [|[Hi _]]; [done|]. rewrite E, (forest_roots _ _ (wf_forest _ _ _ _ _ W)) in Hi; [done|set_solver]. }
    split; [done|]. split; [|by split]. split; try done. by exists h, rb, hb. }
  destruct Hpl as [->|[Hzi (zb & Hzb & Hzv)]]; [by rewrite (id_of_some _ _ _ Hrb) in E|]. rewrite (id_of_some _ _ _ Hzb) in *.
  unfold ends, on_fork, focus. destruct (advance_cases _ _ _ _ _ _ _ _ W Hzi Hzb Hzv) as [[_ (idx & -> & W' & Hidx)]|[Hno _]].
  2: { exfalso. apply Hno. rewrite <- (id_of_some _ _ _ Hhb), Ehd. by exists l. }
  cbn. split; [done|]. set (f' := mk_fork_database _ _ _ _). split; [|split; [|cbn; congruence]].
  - assert (Hkeep : forall p b, p ∈ l -> heap (c_fork c) !! p = Some b -> idx !! bs_id b = Some p).
    { intros p b Hpl Hb. destruct (chain_elem _ _ _ _ _ p (wf_forest _ _ _ _ _ W) Hc Hpl) as (b0 & Hb0 & Hi & _). simplify_eq. apply Hidx.
      apply list_elem_of_split in Hpl as (l1 & l2 & ->). destruct (chain_split _ _ _ _ _ Hc) as (u & _ & Hu).
      assert (Hub : u = bs_id b). { inversion Hu as [|? ? b1 ? ? Hi1 Hb1 _]; subst. destruct (forest_block _ _ (wf_forest _ _ _ _ _ W) _ _ Hi1) as (b2 & Hb2 & <- & _). by simplify_eq. }
      subst u. split; [done|]. split; [|by eexists]. intros Eb. pose proof (chain_num _ _ _ _ _ (wf_forest _ _ _ _ _ W) Hu) as Hn. rewrite Eb in Hn. cbn in Hn. lia. }
    split; cbn; [done|done|by exists h, zb, hb| | |done| |done|done| |done|done].
    + exact (advanced_closed _ _ _ _ _ _ _ _ W Hcl Hzi Hzb Hidx).
    + intros id p Hp'. apply Hidx in Hp' as (Hi & _). exact (Hbo _ _ Hi).
    + change (id_of f') with (id_of (c_fork c)). rewrite (id_of_some (c_fork c) z zb Hzb).
      eapply (chain_keep (c_fork c)); [exact (wf_forest _ _ _ _ _ W)|by apply grows_same_heap|exact Hkeep|exact Hc].
    + apply (trail_same e pc bc c); [done|exact Ht].
  - split_and!; cbn; [by apply grows_same_heap| |by left|done|right; eauto]. apply map_subseteq_spec. intros id q Hq. by apply Hidx in Hq as (Hi & _).
Qed.
(** ** The whole *)
Lemma filter_all {A} (Q : A -> Prop) `{!forall x, Decision (Q x)} (xs : list A) : Forall Q xs -> filter Q xs = xs.
Proof. induction 1 as [|x xs Hx _ IH]; [done|]. rewrite filter_cons_True by done. by f_equal. Qed.

Lemma filter_suffix f R x l y t : forest f R -> chain f x l y -> exists l1 l2, l = l1 ++ l2 /\ filter (fun p => num_at f p <= t) l = l2.
Proof.
  intros F Hc. induction Hc as [|id p b l y Hi Hb Hc IH]; [by exists [], []|]. destruct (decide (num_at f p <= t)) as [Hle|Hgt].
  - exists [], (p :: l). split; [done|]. rewrite filter_cons_True by done. f_equal. apply filter_all, Forall_forall.
    intros q Hq. apply list_elem_of_lookup in Hq as [i Hq]. pose proof (chain_num_at _ _ _ _ _ _ _ F Hc Hq) as Hn.
    destruct (forest_block _ _ F _ _ Hi) as (b0 & Hb0 & <- & [Hw1 Hw2] & _). simplify_eq. rewrite (num_at_some _ _ _ Hb) in Hle. lia.
  - destruct IH as (l1 & l2 & -> & E). exists (p :: l1), l2. split; [done|]. by rewrite filter_cons_False.
Qed.

Lemma log_irreversible_ends c r l : chain_at c r l -> ForkDatabase.head (c_fork c) = Some (hd r l) ->
  ends (log_irreversible e pc bc sc) (fun _ c' => exists r' l', chain_at c' r' l' /\ settles c c'
    /\ c_head c' = c_head c /\ ForkDatabase.head (c_fork c') = Some (hd r l)) c.
Proof.
  intros K Hhead. pose proof K as [Hp Hca (h & rb & hb & W) Hcl Hbo Hh Hc Hv Hrev Ht Hre [Hl1 Hl2]].
  assert (Hsame : exists r' l', chain_at c r' l' /\ settles c c /\ c_head c = c_head c /\ ForkDatabase.head (c_fork c) = Some (hd r l)) by (by exists r, l).
  destruct (wf_root _ _ _ _ _ W) as [Hr Hrb]. destruct (wf_head _ _ _ _ _ W) as [Hh' Hhb]. assert (h = hd r l) as -> by congruence.
  pose proof (wf_root_num _ _ _ _ _ W) as Hrn. pose proof (num_from_id_nonneg (bs_id rb)) as Hnn.
  rewrite (id_of_some _ _ _ Hrb) in Hl2, Hc. rewrite (num_at_some _ _ _ Hrb) in Hl1.
  set (lib := match last (c_blog c) with Some b => block_num (sh_header (sb_header b)) | None => u32 (first_block_num sc - 1) end).
  assert (Hlib : lib = bs_num rb).
  { unfold lib. destruct (last (c_blog c)) as [bl|] eqn:Elast.
    - rewrite <- num_from_header_id. specialize (Hl2 bl eq_refl). unfold id_of_block in Hl2. by rewrite Hl2.
    - apply last_None in Elast. rewrite Elast in Hl1. cbn in Hl1. rewrite u32_id; [lia|]. pose proof (reverse_range _ (u32_range (_hash0 (bs_id rb)))) as Hu. change (endian_reverse_u32 (u32 (_hash0 (bs_id rb)))) with (num_from_id (bs_id rb)) in Hu. unfold is_u32 in *. lia. }
  unfold log_irreversible. apply ends_bind. unfold ends at 1. cbn. apply ends_bind, ends_massert; intros _; [|exact Hsame].
  apply ends_bind, (fork_root_ends r); [done|]. apply ends_bind, (state_of_ends _ rb); [done|]. apply ends_bind.
  assert (Hass : (match last (c_blog c) with
    | Some b => massert (bool_decide (bs_id rb = header_id (sh_header (sb_header b)))) fork_database_exception
    | None => massert (bs_num rb =? lib) fork_database_exception end : CM unit) c = (Ok tt, c)).
  { rewrite Hlib. destruct (last (c_blog c)) as [bl|] eqn:Elast; [|by rewrite Z.eqb_refl].
    rewrite bool_decide_true; [done|]. symmetry. by apply Hl2. }
  fold lib. unfold ends at 1. rewrite Hass. cbn [fst snd]. rewrite (bool_decide_false (read_mode pc = IRREVERSIBLE)) by done.
  apply ends_bind. unfold ends at 1. cbn [mret M_ret fst snd]. rewrite Hhead. apply ends_bind, ends_lift. rewrite (deref_some _ _ _ Hhb).
  destruct (Z.leb_spec (bs_irreversible hb) lib) as [|Hgt]; [exact Hsame|]. apply ends_bind, ends_lift.
  assert (Hbr : exists l1 l2, l = l1 ++ l2 /\ fetch_branch (c_fork c) (bs_id hb) (bs_irreversible hb) = Ok l2).
  { pose proof (fetch_branch_spec _ _ _ _ _ (bs_id hb) W) as Hf. rewrite (id_of_some _ _ _ Hhb) in Hc.
    destruct (index (c_fork c) !! bs_id hb) as [q|] eqn:Ei.
    - destruct Hf as (l' & Hl' & _ & Hf & _). assert (l' = l) as -> by exact (chain_same_end _ _ _ _ _ _ (wf_forest _ _ _ _ _ W) Hl' Hc).
      destruct (filter_suffix _ _ _ _ _ (bs_irreversible hb) (wf_forest _ _ _ _ _ W) Hc) as (l1 & l2 & El & Efl). exists l1, l2. split; [done|]. by rewrite Hf, Efl.
    - destruct Hf as [Hf _]. exists [], []. rewrite Hf. split; [|done]. inversion Hc; [done|congruence]. }
  destruct Hbr as (l1 & l2 & El & ->). apply ends_bind. rewrite <- (id_of_some _ _ _ Hrb).
  eapply ends_mono; [|apply (log_blocks_ends r (rev l2) c r l1)]; [|rewrite rev_involutive, <- El; by apply chain_logged].
  intros [[root_id except]|ex] c1 (z' & l' & K1 & (Ef & Eh & S1) & Ho); [|done]. subst root_id. rewrite <- Ef.
  apply ends_bind. eapply ends_mono; [|apply (advance_to_ends c1 r z' l' K1)].
  - intros o c2 (-> & K2 & S2 & Hh2). assert (Hdone : exists r' l', chain_at c2 r' l' /\ settles c c2 /\ c_head c2 = c_head c /\ ForkDatabase.head (c_fork c2) = Some (hd r l)).
    { exists z', l'. split; [done|]. split; [by etrans|]. split; [|by rewrite Hh2, Ef, Hhead].
      pose proof (ca_head _ _ _ _ _ _ _ K2) as E2. pose proof (lo_head _ _ _ _ K1) as E1. congruence. }
    by destruct except.
  - rewrite Ef, Hhead. f_equal. pose proof (lo_head _ _ _ _ K1) as E1. congruence.
Qed.
End Log.
