(* ===== verification/ForkSafety.v ===== *)
(** * A node that receives blocks ([controller.cpp])

    Whatever blocks a node receives and however receiving them ends, its database
    is the outcome of applying, one after another, the blocks of one branch of
    the fork database from the root up to the head; and a block that was accepted
    leaves the head on a best block of all that the node knows. *)

From S2P Require Import Prelude Merkle Chainbase ResourceLimits Names Authority AuthorityChecker BlockHeader BlockHeaderState ForkDatabase Authorization GlobalProperties EosioContract NativeState NativeRam Transaction TransactionChecks ChainConfig Timer TransactionContext ContractTables TableInvariant ApplyContext TransactionExec PushTransaction PushOutcomes Block BlockBuilding BlockApply ForkSwitch ForkChains ForkInvariant ForkLog.
#[local] Open Scope Z_scope.

(** ** The head after the blocks of the best branch are marked valid *)
Section Best.
Context `{C : crypto} `{!crypto_laws C}.
Implicit Types (f : fork_database) (b : block_state) (p q r h : positive) (l : list positive).

Lemma pending_head_known f r h rb hb p b : wf_at f r h rb hb -> pending_head f = Ok (Some p) -> heap f !! p = Some b ->
  p = h \/ index f !! bs_id b = Some p.
Proof.
  intros W Hp Hb. destruct (wf_head _ _ _ _ _ W) as [Hh Hhb]. unfold pending_head in Hp.
  pose proof (pick_first_spec (filter (fun x => is_valid x.2 = false) (blocks f)) [] None eq_refl) as Hf. cbn [app] in Hf.
  fold (lib_lower_bound_false f) in Hf. destruct (lib_lower_bound_false f) as [[q c]|]; [|left; congruence].
  rewrite Hh, (deref_some _ _ _ Hhb) in Hp. cbn in Hp. destruct (first_preferred c hb); [|left; congruence]. injection Hp as ->. right.
  destruct Hf as [Hin _]. apply list_elem_of_filter in Hin as [_ Hin]. apply elem_of_blocks in Hin as [Hc [id Hid]].
  destruct (forest_block _ _ (wf_forest _ _ _ _ _ W) _ _ Hid) as (b0 & Hb0 & <- & _). congruence.
Qed.

Lemma best_marked f f' r h rb hb h' rb' hb' p b ps l : wf_at f r h rb hb -> closed f r -> wf_at f' r h' rb' hb' ->
  pending_head f = Ok (Some p) -> heap f !! p = Some b -> marked f f' ps -> chain f (bs_id b) l (id_of f r) -> (forall q, q ∈ ps -> q ∈ l) ->
  (p = r \/ valid_at f' p) -> h' = p.
Proof.
  intros W Hcl W' Hpend Hb M Hc Hps Hvp. pose proof (wf_forest _ _ _ _ _ W) as F.
  destruct (wf_root _ _ _ _ _ W) as [_ Hrb]. destruct (wf_head _ _ _ _ _ W) as [Hh Hhb]. destruct (wf_head _ _ _ _ _ W') as [Hh' Hhb'].
  assert (Hnr : forall id, index f !! id <> Some r).
  { intros id Hi. destruct (forest_block _ _ F _ _ Hi) as (b0 & Hb0 & <- & _). assert (b0 = rb) as -> by congruence.
    rewrite (forest_roots _ _ F (bs_id rb)) in Hi; [done|set_solver]. }
  destruct (decide (p = h)) as [->|Hph].
  - assert (Hall : Forall (valid_at f) ps).
    { assert (Hl : Forall (valid_at f) l).
      { eapply (closed_chain f _ r); [exact F|done| |exact Hc|].
        - rewrite (id_of_some _ _ _ Hrb). apply (forest_roots _ _ F). set_solver.
        - intros q Hq. destruct l as [|q' l]; [done|]. cbn in Hq. injection Hq as ->. assert (Hi : index f !! bs_id b = Some q) by (by inversion Hc).
          assert (hb = b) as -> by congruence. destruct (wf_where _ _ _ _ _ W) as [->|[Hx Hv]].
          + rewrite (forest_roots _ _ F (bs_id b)) in Hi; [done|]. apply elem_of_singleton. congruence.
          + exists b. split; [congruence|done]. }
      rewrite Forall_forall in *. auto. }
    rewrite (mk_same _ _ _ M Hall) in Hh'. congruence.
  - destruct (pending_head_known _ _ _ _ _ _ _ W Hpend Hb) as [|Hi]; [done|].
    destruct Hvp as [->|(b' & Hb' & Hbv)]; [by apply Hnr in Hi|]. destruct (mk_grows _ _ _ M p b Hb) as (b'' & Hb'' & Eb & _).
    assert (b'' = b') as -> by congruence.
    assert (Hbest : first_preferred b hb' = false).
    { rewrite (first_preferred_same b hb' b' hb') by done. apply (wf_best _ _ _ _ _ W' p); [|done].
      apply elem_of_blocks. split; [done|]. exists (bs_id b). by rewrite (mk_index _ _ _ M). }
    destruct (pending_head_spec _ _ _ _ _ W) as (p0 & b0 & Hp0 & Hb0 & _ & Hall & Hwhy). rewrite Hpend in Hp0. injection Hp0 as <-.
    assert (b0 = b) as -> by congruence. destruct Hwhy as [->|[_ Hpref]]; [done|].
    destruct (mk_head _ _ _ M) as [E|(id & h0 & Eh & Hid & Hv)].
    + assert (h' = h) as -> by congruence. destruct (mk_grows _ _ _ M h hb Hhb) as (hb2 & Hhb2 & Eh2 & _).
      assert (hb2 = hb') as -> by congruence. rewrite (first_preferred_same b hb' b hb eq_refl Eh2) in Hbest. congruence.
    + assert (h0 = h') as -> by congruence. rewrite (mk_index _ _ _ M) in Hid.
      destruct (forest_block _ _ F _ _ Hid) as (c & Hc0 & Hcid & _). destruct (mk_grows _ _ _ M h' c Hc0) as (c' & Hc' & Ec & _).
      assert (c' = hb') as -> by congruence. rewrite (first_preferred_same b hb' b c eq_refl Ec) in Hbest.
      assert (Hcin : (h', c) ∈ blocks f) by (apply elem_of_blocks; eauto).
      destruct (mk_only _ _ _ M h' Hv) as [Hin|(c0 & Hc1 & Hcv)].
      * apply Hps in Hin. apply list_elem_of_lookup in Hin as [i Hin]. pose proof (chain_num_at _ _ _ _ _ _ _ F Hc Hin) as Hn.
        specialize (Hall _ _ Hcin). rewrite first_preferred_false in Hall, Hbest. rewrite (num_at_some _ _ _ Hc0) in Hn.
        destruct (forest_block _ _ F _ _ Hi) as (b1 & Hb1 & _ & [Hw1 _] & _). assert (b1 = b) as -> by congruence.
        destruct i as [|i]; [|lia]. destruct l as [|q l]; [done|]. cbn in Hin. injection Hin as ->. inversion Hc; congruence.
      * assert (c0 = c) as -> by congruence. pose proof (wf_best _ _ _ _ _ W h' c Hcin Hcv) as Hwb.
        rewrite first_preferred_false in Hwb, Hbest. apply first_preferred_spec in Hpref. lia.
Qed.
End Best.

(** ** One node *)
Section Node.
Context {Sig : Type} {C : crypto} {T : trx_codec Sig public_key} {B : block_codec Sig} `{!crypto_laws C}.
Context `{unpacker public_key} `{contract_unpacker public_key} `{P : posix_timer} `{softfloat}.
Context (e : apply_env (K := public_key)) (pc : push_config) (bc : block_config (Sig := Sig)) (sc : switch_config (Sig := Sig)).
Abbreviation ctl := (controller (Sig := Sig)).
Abbreviation CM := (M ctl).
Abbreviation chain_at := (chain_at e pc bc sc).
Abbreviation ends_ok := (ends_ok e pc bc sc).
Implicit Types (c : ctl) (p q r : positive) (l : list positive).

Context (wraps : forall ex, is_std_exception (wrap_std_exception (ax_fc e) ex) = false).
Context (recovers : forall pt ex, recover_keys bc pt = Err ex -> is_std_exception ex = false).
Context (handlers : forall sig b ex, emit sc sig b = Err ex -> is_std_exception ex = false).
Context (speculative : read_mode pc <> IRREVERSIBLE) (log_start : 1 <= first_block_num sc).

(** The root follows its previous block. *)
Definition root_ok c : Prop := forall r rb, ForkDatabase.root (c_fork c) = Some r -> heap (c_fork c) !! r = Some rb ->
  num_from_id (bs_prev rb) < bs_num rb.

Definition node_ok c : Prop := (exists r l, chain_at c r l) /\ root_ok c.

(** A block state that waits to be pushed. *)
Definition future_ok c p : Prop := exists b bl, heap (c_fork c) !! p = Some b /\ ForkDatabase.validated b = false /\ well_numbered b
  /\ body_of c p = Some bl /\ id_of_block bl = bs_id b /\ forall id, index (c_fork c) !! id <> Some p.

Lemma settles_root c c' r l : chain_at c r l -> settles c c' -> root_ok c -> root_ok c'.
Proof.
  intros [_ _ (h & rb & hb & W) _ _ _ _ _ _ _ _ _] (G & _ & _ & _ & Hr) Hok x xb Hx Hxb.
  assert (Hb : exists b, heap (c_fork c) !! x = Some b /\ num_from_id (bs_prev b) < bs_num b).
  { destruct Hr as [Hr|(id & q & Hq & Hi)].
    - rewrite Hr in Hx. destruct (wf_root _ _ _ _ _ W) as [Hr0 Hrb]. assert (x = r) as -> by congruence. exists rb. split; [done|]. by eapply Hok.
    - assert (q = x) as -> by congruence. destruct (forest_block _ _ (wf_forest _ _ _ _ _ W) _ _ Hi) as (b & Hb & _ & [Hn Hp] & _). exists b. split; [done|lia]. }
  destruct Hb as (b & Hb & Hlt). destruct (G x b Hb) as (b' & Hb' & E & _). assert (b' = xb) as -> by congruence.
  unfold bs_prev, bs_num in *. by rewrite E.
Qed.

Lemma settles_future c c' p : settles c c' -> future_ok c p -> future_ok c' p.
Proof.
  intros (G & I & V & Hb & _) (b & bl & Hp & Hv & Hw & Hbl & Hid & Hno). destruct (G p b Hp) as (b' & Hb' & E & _). exists b', bl.
  split; [done|]. split.
  { destruct (ForkDatabase.validated b') eqn:Ev; [|done]. destruct (V p) as [(b0 & Hb0 & Hv0)|[id Hi]]; [by exists b'|congruence|by apply Hno in Hi]. }
  split; [unfold well_numbered, bs_num, bs_id, bs_prev in *; by rewrite E|]. split; [by rewrite Hb|]. split; [unfold bs_id in *; by rewrite E|].
  intros id Hi. apply (Hno id). by eapply lookup_weaken.
Qed.

(** The blocks on the branch have at least the number of the root. *)
Lemma top_above c r l rb : chain_at c r l -> heap (c_fork c) !! r = Some rb -> bs_num rb <= num_from_id (id_of (c_fork c) (hd r l)).
Proof.
  intros K Hb. pose proof K as [_ _ (h & rb0 & hb & W) _ _ _ Hc _ _ _ _ _]. destruct (wf_root _ _ _ _ _ W) as [_ Hrb]. assert (rb0 = rb) as -> by congruence.
  rewrite (id_of_some _ _ _ Hrb) in Hc. pose proof (chain_num _ _ _ _ _ (wf_forest _ _ _ _ _ W) Hc). pose proof (wf_root_num _ _ _ _ _ W). lia.
Qed.

(** The best block is known, and when it builds on the head it can be put on the branch. *)
Lemma best_is_next c r l p b : chain_at c r l -> root_ok c -> pending_head (c_fork c) = Ok (Some p) -> heap (c_fork c) !! p = Some b ->
  bs_prev b = id_of (c_fork c) (hd r l) -> next_block c r l p.
Proof.
  intros K Hok Hpend Hb Hprev. pose proof K as [_ _ (h & rb & hb & W) _ _ _ _ _ _ _ _ _]. destruct (wf_root _ _ _ _ _ W) as [Hr Hrb].
  exists b. split; [done|]. split; [|done]. destruct (pending_head_known _ _ _ _ _ _ _ W Hpend Hb) as [->|]; [|done].
  destruct (wf_head _ _ _ _ _ W) as [_ Hhb]. destruct (wf_where _ _ _ _ _ W) as [->|[Hx _]]; [|congruence]. exfalso.
  pose proof (Hok _ _ Hr Hb) as Hlt. rewrite Hprev in Hlt. pose proof (top_above _ _ _ _ K Hb). lia.
Qed.

Lemma same_id_same_block c r l h rb hb p q b d : wf_at (c_fork c) r h rb hb -> heap (c_fork c) !! p = Some b -> heap (c_fork c) !! q = Some d ->
  bs_id b = bs_id d -> (p = r \/ index (c_fork c) !! bs_id b = Some p) -> (q = r \/ index (c_fork c) !! bs_id d = Some q) -> p = q.
Proof.
  intros W Hb Hd E Hp Hq. destruct (wf_root _ _ _ _ _ W) as [_ Hrb].
  pose proof (forest_roots _ _ (wf_forest _ _ _ _ _ W) (bs_id rb) ltac:(set_solver)) as Hn.
  destruct Hp as [->|Hp], Hq as [->|Hq]; [done| | |congruence]; simplify_eq; congruence.
Qed.
(** ** Going to the best block *)
Definition arrived c p c' : Prop := exists r' l', chain_at c' r' l' /\ settles c c' /\ c_head c' = p /\ ForkDatabase.head (c_fork c') = Some p.

Lemma log_after c c1 r l p : chain_at c1 r l -> settles c c1 -> ForkDatabase.head (c_fork c1) = Some p -> hd r l = p ->
  ends (log_irreversible e pc bc sc) (fun o c' => match o with Ok _ => arrived c p c' | Err _ => ends_ok c c' end) c1.
Proof.
  intros K S1 Hh <-. eapply ends_mono; [|by apply (log_irreversible_ends e pc bc sc wraps handlers speculative log_start)].
  intros o c2 (r2 & l2 & K2 & S2 & Eh & Eh2). destruct o; exists r2, l2; split_and!; try done; try (by etrans).
  rewrite Eh. exact (ca_head _ _ _ _ _ _ _ K).
Qed.

Lemma maybe_switch_ends c r l p s : chain_at c r l -> root_ok c -> s <> irreversible -> pending_head (c_fork c) = Ok (Some p) ->
  ends (maybe_switch_forks e pc bc sc p s) (fun o c' => match o with Ok _ => arrived c p c' | Err _ => ends_ok c c' end) c.
Proof.
  intros K Hok Hs Hpend. pose proof K as [_ _ (h & rb & hb & W) Hcl _ Hh Hc Hv _ _ _ _].
  destruct (wf_root _ _ _ _ _ W) as [Hr Hrb]. destruct (wf_head _ _ _ _ _ W) as [Hhead Hhb].
  destruct (pending_head_spec _ _ _ _ _ W) as (p0 & b & Hp0 & Hb & _). rewrite Hpend in Hp0. injection Hp0 as <-.
  assert (Hx : exists tb, heap (c_fork c) !! hd r l = Some tb) by (apply (path_exists e pc bc sc c r l); [done|destruct l; set_solver]). destruct Hx as [tb Htb].
  assert (Hplace : p = r \/ index (c_fork c) !! bs_id b = Some p).
  { destruct (pending_head_known _ _ _ _ _ _ _ W Hpend Hb) as [->|]; [|by right]. assert (hb = b) as -> by congruence.
    destruct (wf_where _ _ _ _ _ W) as [|[? _]]; [by left|by right]. }
  assert (Hbest : forall c1 ps l1 l2, chain_at c1 r l1 -> settles c c1 -> marked (c_fork c) (c_fork c1) ps -> chain (c_fork c) (bs_id b) l2 (id_of (c_fork c) r) ->
    (forall q, q ∈ ps -> q ∈ l2) -> hd r l1 = p -> ForkDatabase.head (c_fork c1) = Some p).
  { intros c1 ps l1 l2 K1 _ M Hl2 Hps Hhd. pose proof K1 as [_ _ (h1 & rb1 & hb1 & W1) _ _ _ _ Hv1 _ _ _ _]. destruct (wf_head _ _ _ _ _ W1) as [Eh1 _].
    rewrite Eh1. f_equal. eapply (best_marked _ _ _ _ _ _ _ _ _ _ _ ps l2 W Hcl W1 Hpend Hb M Hl2 Hps).
    destruct l1 as [|q l1]; cbn in Hhd; [by left|right]. subst q. by inversion Hv1. }
  unfold maybe_switch_forks. apply ends_bind, (head_state_ends _ _ tb _ Hh Htb). apply ends_bind, (state_of_ends _ b); [done|].
  destruct (bool_decide_reflect (bs_prev b = bs_id tb)) as [Eprev|Eprev].
  - pose proof (best_is_next c r l p b K Hok Hpend Hb ltac:(by rewrite (id_of_some _ _ _ Htb))) as Hn.
    apply ends_bind. eapply ends_mono; [|by apply (extend_head_ends e pc bc sc wraps recovers c r l)].
    intros [u|ex] c1; [|done]. intros (K1 & S1 & M1). eapply log_after; [exact K1|exact S1| |done].
    destruct Hn as (b' & Hb' & Hi & Hpr). assert (b' = b) as -> by congruence.
    eapply (Hbest c1 [p] (p :: l) (p :: l)); [done|done|done| |by intros q ->%list_elem_of_singleton; left|done].
    apply (chain_cons _ _ _ b); [done|done|]. by rewrite Hpr.
  - destruct (bool_decide_reflect (bs_id b = bs_id tb)) as [Eid|Eid]; cbn [negb].
    + assert (p = hd r l) as ->.
      { eapply (same_id_same_block c r l h rb hb p (hd r l) b tb W Hb Htb Eid Hplace).
        destruct (top_place e pc bc sc c r l K) as [->|[Hi _]]; [by left|right]. by rewrite (id_of_some _ _ _ Htb) in Hi. }
      exists r, l. split; [done|]. split; [done|]. split; [done|].
      eapply (Hbest c [] l l K); [done|apply marked_nil| |set_solver|done]. by rewrite Eid, <- (id_of_some _ _ _ Htb).
    + apply ends_bind. eapply ends_mono; [|by apply (switch_to_ends e pc bc sc wraps recovers c r l)].
      intros [u|ex] c1; [|done]. intros (l' & ps & K1 & S1 & M1 & Hl' & Hps).
      assert (Hhd : hd r l' = p).
      { destruct l' as [|q l']; cbn.
        - assert (bs_id b = bs_id rb) as E by (rewrite <- (id_of_some _ _ _ Hrb); by inversion Hl'). symmetry.
          eapply (same_id_same_block c r l h rb hb p r b rb W Hb Hrb E Hplace). by left.
        - assert (Hi : index (c_fork c) !! bs_id b = Some q) by (by inversion Hl'). destruct Hplace as [->|Hp]; [|congruence].
          assert (rb = b) as -> by congruence. rewrite (forest_roots _ _ (wf_forest _ _ _ _ _ W) (bs_id b)) in Hi; [done|set_solver]. }
      eapply log_after; [exact K1|exact S1| |done]. by eapply (Hbest c1 ps l' l').
Qed.
(** ** [push_block] *)

(** What every outcome of pushing the block [p] leaves; the futures of other
    blocks can still be pushed. *)
Definition carries c p c' : Prop := node_ok c' /\ forall q, q <> p -> future_ok c q -> future_ok c' q.

(** No block that the node knows is preferred to its head. *)
Definition on_best_block c : Prop := ForkDatabase.head (c_fork c) = Some (c_head c)
  /\ exists hb, heap (c_fork c) !! c_head c = Some hb /\ forall q b, (q, b) ∈ blocks (c_fork c) -> first_preferred b hb = false.

Lemma settles_carries c c1 p c' r l : chain_at c r l -> root_ok c -> (forall q, q <> p -> future_ok c q -> future_ok c1 q) ->
  settles c1 c' -> root_ok c1 -> (exists r l, chain_at c1 r l) -> (exists r l, chain_at c' r l) -> carries c p c'.
Proof.
  intros K Hok Hf S1 Hok1 (r1 & l1 & K1) HK. split; [split; [done|by eapply settles_root]|].
  intros q Hq Hfq. eapply settles_future; [exact S1|auto].
Qed.

Lemma add_at c r l p b bl : chain_at c r l -> root_ok c -> heap (c_fork c) !! p = Some b -> ForkDatabase.validated b = false -> well_numbered b ->
  body_of c p = Some bl -> id_of_block bl = bs_id b ->
  ends (on_fork (ForkDatabase.add (Some p) false)) (fun o c1 => c_light_validation c1 = c_light_validation c /\ match o with
    | Ok _ => chain_at c1 r l /\ root_ok c1 /\ c_bodies c1 = c_bodies c /\ forall q, q <> p -> future_ok c q -> future_ok c1 q
    | Err _ => c1 = c end) c.
Proof.
  intros K Hok Hb Hv Hw Hbl Hid. pose proof K as [Hp Hca (h & rb & hb & W) Hcl Hbo Hh Hc _ _ _ _ _].
  unfold ends, on_fork, focus. destruct (add_cases _ _ _ _ _ _ _ false W Hb Hw) as [[_ ->]|[(_ & _ & ->)|(_ & Hi & h' & hb' & -> & W')]]; cbn.
  1,2: split; [done|by destruct c].
  split; [done|]. set (f1 := mk_fork_database _ _ _ _) in *. split; [|split; [exact Hok|split; [done|]]].
  - eapply (chain_at_frame e pc bc sc c); [done|done|done|by apply grows_same_heap|exact W'| | | |exact K].
    + intros id q qb Hq Hqb Hqv. cbn in Hq, Hqb. apply lookup_insert_Some in Hq as [[_ <-]|[Hne Hq]]; [congruence|].
      destruct (Hcl _ _ _ Hq Hqb Hqv) as [|(x & Hx & Hxv)]; [by left|right]. exists x. split; [|done]. cbn. rewrite lookup_insert_ne; [done|congruence].
    + intros q qb Hq Hqb. cbn. destruct (chain_elem _ _ _ _ _ q (wf_forest _ _ _ _ _ W) Hc Hq) as (q0 & Hq0 & Hqi & _).
      assert (q0 = qb) as -> by congruence. rewrite lookup_insert_ne; [done|congruence].
    + intros id q Hq. cbn in Hq. apply lookup_insert_Some in Hq as [[<- <-]|[_ Hq]]; [by exists bl|by apply Hbo].
  - intros q Hne (qb & ql & Hq & Hqv & Hqw & Hql & Hqid & Hqno). exists qb, ql. split_and!; try done.
    intros id Hqi. cbn in Hqi. apply lookup_insert_Some in Hqi as [[_ <-]|[_ Hqi]]; [done|by eapply Hqno].
Qed.

Lemma reads_light c v : reads_same c (set_c_light v c).
Proof. by split_and!. Qed.

Lemma light_at c v r l : chain_at c r l -> chain_at (set_c_light v c) r l.
Proof. intros K. eapply (chain_at_same e pc bc sc c); [apply reads_light|done|by destruct K|by destruct K|done]. Qed.

Lemma arrived_best c c1 p : pending_head (c_fork c) = Ok (Some p) -> (exists r h rb hb, wf_at (c_fork c) r h rb hb) -> arrived c p c1 -> on_best_block c1.
Proof.
  intros Hpend (r & h & rb & hb & W) (r' & l' & K & (G & I & _) & Eh & Ehd). split; [congruence|].
  destruct (pending_head_spec _ _ _ _ _ W) as (p0 & b & Hp0 & Hb & _ & Hall & _). rewrite Hpend in Hp0. injection Hp0 as <-.
  destruct (G p b Hb) as (b' & Hb' & Eb & _). exists b'. rewrite Eh. split; [done|]. intros q d Hin. apply elem_of_blocks in Hin as [Hd [id Hi]].
  pose proof (lookup_weaken _ _ _ _ Hi I) as Hi'. destruct (forest_block _ _ (wf_forest _ _ _ _ _ W) _ _ Hi') as (d0 & Hd0 & _).
  destruct (G q d0 Hd0) as (d' & Hd' & Ed & _). assert (d' = d) as -> by congruence. rewrite (first_preferred_same d b' d0 b Ed Eb).
  apply (Hall q d0), elem_of_blocks. eauto.
Qed.

Lemma accept_ends c r l p : chain_at c r l -> root_ok c -> future_ok c p ->
  ends (accept_block e pc bc sc (Ok p)) (fun o c' => carries c p c' /\ match o with Ok _ => on_best_block c' | Err _ => True end) c.
Proof.
  intros K Hok (b & bl & Hb & Hv & Hw & Hbl & Hid & Hno). assert (Hself : carries c p c) by (split; [split; eauto|done]).
  unfold accept_block. apply ends_bind, ends_lift, ends_bind. unfold ends at 1, my_body.
  pose proof Hbl as Hbody. unfold body_of in Hbody. destruct (c_bodies c !! p) as [body|]; [|done]. cbn.
  apply ends_bind, ends_lift. destruct (emit sc sig_pre_accepted_block (body_block body)) as [u0|ex]; [|done].
  apply ends_bind. eapply ends_mono; [|by eapply add_at]. intros [u1|ex] c1; [intros (_ & K1 & Hok1 & _ & Hf1)|by intros [_ ->]].
  set (c2 := if is_trusted_producer e bc (producer (sh_header (sb_header (body_block body)))) then set_c_light true c1 else c1).
  assert (K2 : chain_at c2 r l) by (unfold c2; destruct (is_trusted_producer _ _ _); [by apply light_at|done]).
  assert (S2 : settles c1 c2) by (unfold c2; destruct (is_trusted_producer _ _ _); [by apply settles_same|done]).
  assert (Hok2 : root_ok c2) by exact (settles_root _ _ _ _ K1 S2 Hok1).
  assert (Hcar : forall c3, ends_ok c2 c3 -> carries c p c3).
  { intros c3 (r3 & l3 & K3 & S3). eapply (settles_carries c c1 p c3 r l K Hok Hf1); [by etrans|done|by exists r, l|by exists r3, l3]. }
  apply ends_bind. unfold ends at 1. replace ((if is_trusted_producer _ _ _ then _ else _) c1) with (Ok tt, c2) by (unfold c2; by destruct (is_trusted_producer _ _ _)). cbn [fst snd].
  apply ends_bind, ends_lift. destruct (emit sc sig_accepted_block_header (body_block body)) as [u2|ex]; [|split; [apply Hcar; by exists r, l|done]].
  rewrite bool_decide_false by done. cbn [negb]. pose proof K2 as [_ _ (h & rb & hb & W) _ _ _ _ _ _ _ _ _].
  destruct (pending_head_spec _ _ _ _ _ W) as (q & qb & Hpend & _).
  apply ends_bind. unfold ends at 1, best_block, mbind, M_bind, get, lift. rewrite Hpend. cbn.
  eapply ends_mono; [|by apply (maybe_switch_ends c2 r l q)]. intros [u3|ex] c3 Ho; [|split; [by apply Hcar|done]].
  split; [|eapply arrived_best; [exact Hpend|by exists r, h, rb, hb|done]].
  destruct Ho as (r3 & l3 & K3 & S3 & _). apply Hcar. by exists r3, l3.
Qed.

Lemma set_light_ok v c p c' : carries c p c' -> carries c p (set_c_light v c').
Proof. intros [[(r & l & K) Hok] Hf]. split; [split; [exists r, l; by apply light_at|exact Hok]|exact Hf]. Qed.

Lemma push_ends c r l p : chain_at c r l -> root_ok c -> future_ok c p ->
  ends (push_block e pc bc sc (Ok p)) (fun o c' => carries c p c' /\ match o with Ok _ => on_best_block c' | Err _ => True end) c.
Proof.
  intros K Hok Hf. unfold push_block. apply ends_bind. unfold ends at 1, no_pending, mbind, M_bind, get. rewrite (ca_pending _ _ _ _ _ _ _ K). cbn.
  pose proof (accept_ends c r l p K Hok Hf) as Ha. unfold ends, resetting_light, rethrow_block in *.
  destruct (accept_block e pc bc sc (Ok p) c) as [[u|ex] c']; cbn in *; (split; [exact (set_light_ok _ _ _ _ (proj1 Ha))|exact (proj2 Ha)]).
Qed.
(** ** [create_block_state_future] *)
Lemma next_header_id s s' sh extra skip : next_header s sh extra skip = Ok s' -> b_id s' = header_id (sh_header sh).
Proof.
  unfold next_header, finish_next, _finish_next. intros (ph & _ & Hf)%res_bind_ok. apply res_bind_ok in Hf as (x & Hx & Hf).
  apply res_bind_ok in Hf as ([] & _ & Hf). injection Hf as <-. repeat (apply res_bind_ok in Hx as (? & ? & Hx)). injection Hx as <-.
  by destruct (length extra =? 0)%nat.
Qed.

Lemma new_state_at c r l s b : chain_at c r l -> root_ok c -> well_numbered (mk_block_state s false) -> b_id s = id_of_block b ->
  ends (new_block_state s b) (fun o c' => chain_at c' r l /\ root_ok c' /\ (forall q, future_ok c q -> future_ok c' q)
    /\ match o with Ok p => future_ok c' p /\ ~ future_ok c p | Err _ => False end) c.
Proof.
  intros K Hok Hw Hid. pose proof K as [Hp Hca (h & rb & hb & W) Hcl Hbo Hh Hc _ _ _ _ _]. pose proof (wf_forest _ _ _ _ _ W) as F.
  pose proof (make_shared_wf _ _ _ _ _ (mk_block_state s false) W) as W'. unfold make_shared in W'. cbn in W'.
  unfold ends, new_block_state, on_fork, focus, mbind, M_bind, make_shared. cbn. set (p := fresh (dom (heap (c_fork c)))) in *.
  assert (Hfresh : heap (c_fork c) !! p = None) by (apply not_elem_of_dom, is_fresh).
  assert (Hin : forall id q, index (c_fork c) !! id = Some q -> q <> p) by (intros id q Hi ->; destruct (forest_block _ _ F _ _ Hi) as (x & Hx & _); congruence).
  set (f1 := set_heap _ _) in *. set (c' := set_c_bodies _ _).
  assert (G : grows (c_fork c) f1) by (intros q x Hx; exists x; split; [cbn; rewrite lookup_insert_ne; congruence|done]).
  assert (Hbody : forall q, q <> p -> body_of c' q = body_of c q) by (intros q Hq; unfold body_of; cbn; by rewrite lookup_insert_ne).
  split; [|split; [|split; [|split]]].
  - eapply (chain_at_frame e pc bc sc c); [|done| |exact G|exact W'| | | |exact K].
    + split_and!; try done. intros q [x Hx]. apply Hbody. congruence.
    + intros q body Hq. cbn in Hq. apply lookup_insert_Some in Hq as [[_ <-]|[_ Hq]]; [by intros [?|?]|by eapply Hca].
    + intros id q qb Hq Hqb Hqv. cbn in Hq, Hqb. rewrite lookup_insert_ne in Hqb by (symmetry; by eapply Hin).
      destruct (wf_root _ _ _ _ _ W) as [_ Hrb]. change (c_fork c') with f1. rewrite (grows_id _ _ r G) by eauto.
      destruct (Hcl _ _ _ Hq Hqb Hqv) as [|(x & Hx & Hxv)]; [by left|right]. exists x. split; [done|]. by eapply grows_valid.
    + intros q qb Hq Hqb. destruct (chain_elem _ _ _ _ _ q F Hc Hq) as (q0 & Hq0 & Hqi & _). change (index (c_fork c')) with (index (c_fork c)). congruence.
    + intros id q Hq. cbn in Hq. rewrite Hbody by (by eapply Hin). by apply Hbo.
  - intros x xb Hx Hxb. cbn in Hx, Hxb. destruct (wf_root _ _ _ _ _ W) as [Hr Hrb]. rewrite lookup_insert_ne in Hxb by congruence. by apply (Hok x).
  - intros q (qb & ql & Hq & Hqv & Hqw & Hql & Hqid & Hqno). exists qb, ql. cbn. rewrite lookup_insert_ne by congruence. rewrite Hbody by congruence. by split_and!.
  - exists (mk_block_state s false), b. split_and!; [apply lookup_insert_eq|done|done| |done|].
    + unfold body_of. cbn. by rewrite lookup_insert_eq.
    + intros id Hi. by apply (Hin id p).
  - intros (pb & _ & Hpb & _). congruence.
Qed.

Lemma create_ends c r l b : chain_at c r l -> root_ok c -> num_from_id (previous (sh_header (sb_header b))) < UINT32_MAX ->
  ends (create_block_state_future b) (fun o c' => node_ok c' /\ (forall q, future_ok c q -> future_ok c' q)
    /\ match o with Ok (Ok p) => future_ok c' p /\ ~ future_ok c p | _ => True end) c.
Proof.
  intros K Hok Hmax. pose proof K as [_ _ (h & rb & hb & W) _ _ _ _ _ _ _ _ _].
  assert (Hself : node_ok c /\ (forall q, future_ok c q -> future_ok c q) /\ True) by (split; [split; eauto|done]).
  unfold create_block_state_future. apply ends_bind. unfold ends at 1. cbn. apply ends_bind, ends_massert; intros _; [|done].
  apply ends_bind, ends_lift. rewrite (get_block_header_wf _ _ _ _ _ (previous (sh_header (sb_header b))) W).
  apply ends_bind, ends_massert; intros Hprev; [|done].
  destruct (if bool_decide _ then Some r else _) as [q|] eqn:Eq; [|done].
  assert (Hq : exists qb, heap (c_fork c) !! q = Some qb /\ bs_id qb = previous (sh_header (sb_header b)) /\ bs_num qb = num_from_id (bs_id qb)).
  { case_bool_decide as Er.
    - injection Eq as <-. destruct (wf_root _ _ _ _ _ W) as [_ Hrb]. exists rb. split; [done|]. split; [done|by apply (wf_root_num _ _ _ _ _ W)].
    - destruct (forest_block _ _ (wf_forest _ _ _ _ _ W) _ _ Eq) as (qb & Hqb & Hqid & [Hqn _] & _). exists qb. split; [done|]. split; [done|congruence]. }
  destruct Hq as (qb & Hqb & Hqid & Hqn). apply ends_bind, ends_lift. rewrite (deref_some _ _ _ Hqb).
  destruct (checked_block_state (bs_state qb) b) as [s|ex] eqn:Es; [|done].
  unfold checked_block_state in Es. apply res_bind_ok in Es as (root & _ & Es). apply res_bind_ok in Es as ([] & _ & Es).
  unfold received_block_state in Es. apply res_bind_ok in Es as (sigs & _ & Es).
  destruct (accepted_block_well_numbered _ _ _ _ _ false Hqn ltac:(rewrite <- Hqid, <- Hqn in Hmax; exact Hmax) Es) as [Hw _].
  pose proof (new_state_at c r l s b K Hok Hw (next_header_id _ _ _ _ _ Es)) as Hn. unfold ends, fmap, M_fmap, mbind, M_bind, mret, M_ret in *.
  destruct (new_block_state s b c) as [[p|ex] c1]; cbn in *; [|tauto]. destruct Hn as (K1 & Hok1 & Hf & Hfp). split; [split; eauto|done].
Qed.

(** ** Steps of a node: blocks are received, and the futures that were made of
    them are pushed, each one once, in any order. *)
Inductive node_step : ctl * list positive -> ctl * list positive -> Prop :=
| step_receive c fs b : num_from_id (previous (sh_header (sb_header b))) < UINT32_MAX ->
    node_step (c, fs) ((create_block_state_future b c).2, match (create_block_state_future b c).1 with Ok (Ok p) => p :: fs | _ => fs end)
| step_push c fs1 p fs2 : node_step (c, fs1 ++ p :: fs2) ((push_block e pc bc sc (Ok p) c).2, fs1 ++ fs2)
| step_push_failed c fs ex : node_step (c, fs) ((push_block e pc bc sc (Err ex) c).2, fs).

Definition node_inv (n : ctl * list positive) : Prop := node_ok n.1 /\ Forall (future_ok n.1) n.2 /\ NoDup n.2.

Lemma push_failed_ends c r l ex : chain_at c r l ->
  ends (push_block e pc bc sc (Err ex)) (fun _ c' => exists v, c' = set_c_light v c) c.
Proof.
  intros K. unfold push_block. apply ends_bind. unfold ends at 1, no_pending, mbind, M_bind, get. rewrite (ca_pending _ _ _ _ _ _ _ K). cbn.
  unfold ends, resetting_light, rethrow_block, accept_block, mbind, M_bind, lift. cbn. by eexists.
Qed.

Lemma node_step_inv n n' : node_inv n -> node_step n n' -> node_inv n'.
Proof.
  intros [[(r & l & K) Hok] [Hf Hnd]] Hs. destruct Hs as [c fs b Hmax|c fs1 p fs2|c fs ex]; cbn in *.
  - pose proof (create_ends c r l b K Hok Hmax) as Hc. unfold ends in Hc. destruct (create_block_state_future b c) as [[[p|ex]|ex] c']; cbn in *;
      destruct Hc as (Hn & Hkeep & Hp); (split; [done|]); cbn; (assert (Forall (future_ok c') fs) by (eapply Forall_impl; [exact Hf|exact Hkeep])); [|by split..].
    split; [constructor; [apply Hp|done]|]. constructor; [|done]. intros Hin. rewrite Forall_forall in Hf. by apply Hp, Hf.
  - apply Forall_app in Hf as [Hf1 Hf2]. inversion Hf2 as [|? ? Hp Hf3]; subst. pose proof (push_ends c r l p K Hok Hp) as Ha. unfold ends in Ha.
    destruct (push_block e pc bc sc (Ok p) c) as [o c']. cbn in *. destruct Ha as [[Hn Hkeep] _]. split; [done|]. cbn.
    assert (Hnp : forall q, q ∈ fs1 ++ fs2 -> q <> p).
    { intros q Hq ->. apply NoDup_app in Hnd as (_ & Hd & Hnd2). apply NoDup_cons in Hnd2 as [Hn2 _]. apply elem_of_app in Hq as [Hq|Hq]; [by apply (Hd p Hq); left|done]. }
    split; [|apply NoDup_app in Hnd as (? & Hd & Hnd2); apply NoDup_cons in Hnd2 as [_ ?]; apply NoDup_app; split_and!; [done| |done]; intros q Hq Hq2; apply (Hd q Hq); by right].
    apply Forall_forall. intros q Hq. apply Hkeep; [by apply Hnp|]. rewrite Forall_forall in Hf1, Hf3. apply elem_of_app in Hq as [|]; auto.
  - pose proof (push_failed_ends c r l ex K) as [v Ha]. unfold ends in Ha. rewrite Ha. split; [split; [exists r, l; by apply light_at|exact Hok]|]. split; [exact Hf|done].
Qed.
(** ** A node that starts: nothing but the root *)
Definition started c : Prop :=
  exists r rb, ForkDatabase.root (c_fork c) = Some r /\ ForkDatabase.head (c_fork c) = Some r /\ heap (c_fork c) !! r = Some rb
    /\ index (c_fork c) = ∅ /\ bs_num rb = num_from_id (bs_id rb) /\ num_from_id (bs_prev rb) < bs_num rb
    /\ c_head c = r /\ c_pending c = None /\ all_caches_ok c /\ db_sessions (c_db c) = [] /\ db_revision (c_db c) = bs_num rb
    /\ c_reversible c = ∅ /\ log_at sc c r.

Lemma started_inv c : started c -> node_inv (c, []).
Proof.
  intros (r & rb & Hr & Hh & Hrb & Hi & Hn & Hp & Hhd & Hpe & Hca & Hs & Hrev & Hre & Hl).
  assert (Hno : forall id p, index (c_fork c) !! id <> Some p) by (intros id p; by rewrite Hi, lookup_empty).
  split; [|split; constructor]. split.
  - exists r, []. split; cbn; [done|done| | |by intros id p ?%Hno|done|constructor|constructor|by rewrite (num_at_some _ _ _ Hrb)| |done|done].
    + exists r, rb, rb. split; [done|done|done| |by left|].
      * split; [by intros id p ?%Hno|]. intros id _. by rewrite Hi, lookup_empty.
      * intros p b Hin. apply elem_of_blocks in Hin as [_ [id Hid]]. by apply Hno in Hid.
    + by intros id p b ?%Hno.
    + by rewrite Hs.
  - intros x xb Hx Hxb. cbn in *. assert (x = r) as -> by congruence. by assert (xb = rb) as -> by congruence.
Qed.

Lemma steps_inv c n : started c -> rtc node_step (c, []) n -> node_inv n.
Proof.
  intros Hs%started_inv Hsteps. remember (c, []) as n0 eqn:E. clear E. induction Hsteps as [|n0 n1 n2 H01 _ IH]; [done|]. apply IH. by eapply node_step_inv.
Qed.
End Node.

Section Claims.
Context {Sig : Type} {C : crypto} {T : trx_codec Sig public_key} {B : block_codec Sig} `{!crypto_laws C}.
Context `{unpacker public_key} `{contract_unpacker public_key} `{P : posix_timer} `{softfloat}.
Context (e : apply_env (K := public_key)) (pc : push_config) (bc : block_config (Sig := Sig)) (sc : switch_config (Sig := Sig)).


(** C3: Fork choice: a push that succeeds leaves the node on a best block, the head
    of the fork database, and no block that the node knows, validated or not, is
    preferred to it (a higher irreversible block, or the same and a higher
    number). *)
Theorem accepted_push_on_best_block (c c' : controller (Sig := Sig)) (fs1 fs2 : list positive) (p : positive) :
  (forall ex, is_std_exception (wrap_std_exception (ax_fc e) ex) = false) ->
  (forall pt ex, recover_keys bc pt = Err ex -> is_std_exception ex = false) ->
  (forall sig b ex, emit sc sig b = Err ex -> is_std_exception ex = false) ->
  read_mode pc <> IRREVERSIBLE -> 1 <= first_block_num sc -> started sc c ->
  rtc (node_step e pc bc sc) (c, []) (c', fs1 ++ p :: fs2) ->
  let '(r, c'') := push_block e pc bc sc (Ok p) c' in r = Ok tt -> on_best_block c''.
Proof.
  intros Hw Hr Hem Hm Hf Hs Hsteps. destruct (steps_inv e pc bc sc Hw Hr Hem Hm Hf c _ Hs Hsteps) as [[(r & l & K) Hok] [Hfs _]].
  cbn in *. apply Forall_app in Hfs as [_ Hfs]. inversion Hfs as [|? ? Hp _]; subst.
  pose proof (push_ends e pc bc sc Hw Hr Hem Hm Hf c' r l p K Hok Hp) as [_ Hb].
  destruct (push_block e pc bc sc (Ok p) c') as [o c'']. cbn in Hb. intros ->. exact Hb.
Qed.
End Claims.

(** ** A concrete node

    Block A is applied; B is a fork of the same height; T builds on B and claims a
    network usage that its execution does not have; C builds on B and is good. *)
#[local] Existing Instance ieee.
Definition node_root : block_state :=
  mk_block_state (mk_bhs (b_common demo_state) (b_id demo_state)
    (mk_signed (mk_block_header 1 1 0 (mk_digest 0 0 0 0) demo_id demo_id 0 [] false None) 0) (pending_schedule demo_state) [] []) true.
Definition node_config : switch_config (Sig := Z) := mk_switch_config 2 (fun _ _ => Ok tt).
Definition node_db : chain_db (K := Z) :=
  mk_chain_db (db_tables ctl_db) (db_keyval ctl_db) (db_index ctl_db) (db_native ctl_db) (db_dedup ctl_db)
    (emplace block_summary_conflict zero_digest (db_summaries ctl_db)).2 (db_generated ctl_db) (db_global_sequence ctl_db) (db_properties ctl_db).
Definition node_start : controller (Sig := Z) :=
  mk_controller (mk_session_db node_db [] 1) ∅ [] (mk_fork_database {[1%positive := node_root]} ∅ (Some 1%positive) (Some 1%positive)) ∅ 1%positive None timer_new 0 false.

(** The block that a node builds on its head. *)
Definition node_builds (slot : Z) (m : M (controller (Sig := Z)) unit) (c : controller (Sig := Z)) : signed_block (Sig := Z) :=
  match (start_block exec_env push_conf ctl_config slot 0 incomplete None;; m;; complete_block exec_env (fun _ => [103])) c with
  | (Ok p, c') => default ctl_block.1 (body_block <$> c_bodies c' !! p)
  | _ => ctl_block.1
  end.
Definition node_push : M (controller (Sig := Z)) unit :=
  on_push exec_env false (fun e => push_transaction e push_conf (mk_metadata_of ctl_packed 0 [5] false false 0) time_point_maximum 0 false);; mret tt.
Definition node_receives (b : signed_block (Sig := Z)) : M (controller (Sig := Z)) unit :=
  fut ← create_block_state_future b; push_block exec_env push_conf ctl_config node_config fut.
(** Tampered receipts under a header that was made for them. *)
Definition forged (b : signed_block (Sig := Z)) : signed_block (Sig := Z) :=
  let t := tampered b in let h := sh_header (sb_header t) in
  mk_signed_block (mk_signed (mk_block_header (timestamp h) (producer h) (confirmed h) (previous h) (ok_or (transaction_mroot h) (calculate_trx_merkle (transactions t)))
    (action_mroot h) (schedule_version h) (header_extensions h) (BlockHeader.enable_standby_schedule h) (BlockHeader.standby_schedule_block_num h)) (producer_signature (sb_header t)))
    (transactions t) (block_extensions t).

Definition node_A := node_builds 30 node_push node_start.
Definition node_B := node_builds 31 (mret tt) node_start.
Definition node_on_B := (node_receives node_B node_start).2.
Definition node_C := node_builds 32 (mret tt) node_on_B.
Definition node_T := forged (node_builds 33 node_push node_on_B).
Definition node_1 := node_receives node_A node_start.
Definition node_2 := node_receives node_B node_1.2.
Definition node_3 := node_receives node_T node_2.2.
Definition node_4 := node_receives node_C node_3.2.
Definition node_view (r : res unit * controller (Sig := Z)) :=
  (r.1, c_head r.2, db_revision (c_db r.2), length (db_sessions (c_db r.2)), map fst (map_to_list (c_reversible r.2)), size (index (c_fork r.2))).

Lemma node_receives_steps b c : num_from_id (previous (sh_header (sb_header b))) < UINT32_MAX ->
  rtc (node_step exec_env push_conf ctl_config node_config) (c, []) ((node_receives b c).2, []).
Proof.
  intros Hb. eapply rtc_l; [exact (step_receive _ _ _ _ c [] b Hb)|]. unfold node_receives, mbind, M_bind.
  destruct (create_block_state_future b c) as [[[p|ex]|ex] c1]; cbn.
  - apply rtc_once. exact (step_push _ _ _ _ c1 [] p []).
  - apply rtc_once. apply (step_push_failed _ _ _ _ c1 [] ex).
  - apply rtc_refl.
Qed.

Lemma node_starts : started node_config node_start.
Proof.
  exists 1%positive, node_root. split; [done|]. split; [done|]. split; [done|]. split; [done|]. split; [by vm_compute|]. split; [by vm_compute|].
  split; [done|]. split; [done|]. split; [by intros q body Hq; cbn in Hq; rewrite lookup_empty in Hq|]. split; [done|]. split; [by vm_compute|].
  split; [done|]. split; [by vm_compute|]. intros b Hb. cbn in Hb. done.
Qed.

Lemma node_steps : rtc (node_step exec_env push_conf ctl_config node_config) (node_start, []) (node_4.2, []).
Proof.
  trans (node_1.2, [] : list positive); [by apply node_receives_steps; vm_compute|].
  trans (node_2.2, [] : list positive); [by apply node_receives_steps; vm_compute|].
  trans (node_3.2, [] : list positive); [by apply node_receives_steps; vm_compute|].
  by apply node_receives_steps; vm_compute.
Qed.

Lemma node_handlers sig b ex : emit node_config sig b = Err ex -> is_std_exception ex = false.
Proof. discriminate. Qed.
Lemma node_speculative : read_mode push_conf <> IRREVERSIBLE.
Proof. discriminate. Qed.
Lemma node_log_start : 1 <= first_block_num node_config.
Proof. done. Qed.


(** The controller and the future just before C is pushed. *)
Definition node_C_future : res (res positive) * controller := create_block_state_future node_C node_3.2.
Definition node_C_ptr : positive := match node_C_future.1 with Ok (Ok p) => p | _ => 1%positive end.
Lemma node_steps_C : rtc (node_step exec_env push_conf ctl_config node_config) (node_start, []) (node_C_future.2, [] ++ node_C_ptr :: []).
Proof.
  trans (node_3.2, [] : list positive).
  - trans (node_1.2, [] : list positive); [by apply node_receives_steps; vm_compute|].
    trans (node_2.2, [] : list positive); [by apply node_receives_steps; vm_compute|by apply node_receives_steps; vm_compute].
  - assert (Hb : num_from_id (previous (sh_header (sb_header node_C))) < UINT32_MAX) by (by vm_compute).
    pose proof (step_receive exec_env push_conf ctl_config node_config node_3.2 [] node_C Hb) as Hs. fold node_C_future in Hs.
    assert (E : node_C_future.1 = Ok (Ok node_C_ptr)) by (by vm_compute). rewrite E in Hs. by apply rtc_once.
Qed.

Lemma accepted_push_on_best_block_witness : on_best_block (push_block exec_env push_conf ctl_config node_config (Ok node_C_ptr) node_C_future.2).2.
Proof.
  pose proof (accepted_push_on_best_block (C := demo_crypto) exec_env push_conf ctl_config node_config node_start node_C_future.2 [] [] node_C_ptr
    ctl_wraps ctl_recovers node_handlers node_speculative node_log_start node_starts node_steps_C) as Hb.
  assert (E : (push_block exec_env push_conf ctl_config node_config (Ok node_C_ptr) node_C_future.2).1 = Ok tt) by (by vm_compute).
  destruct (push_block _ _ _ _ _ _) as [o c']. simpl in E. exact (Hb E).
Defined.

(** [back()] of an empty vector: X stays in the fork database unapplied because a
    handler of its signal throws; a bad block on X then starts a switch without
    blocks to undo, and going back reads the last of them. *)
Definition node_throws (x : signed_block (Sig := Z)) : switch_config (Sig := Z) :=
  mk_switch_config 2 (fun sig b => match sig with
    | sig_accepted_block_header => if bool_decide (id_of_block b = id_of_block x) then Err controller_emit_signal_exception else Ok tt
    | _ => Ok tt end).
Definition node_bad : res unit * controller :=
  let receives b := (fut ← create_block_state_future b; push_block exec_env push_conf ctl_config (node_throws node_B) fut) in
  receives node_T (receives node_B node_start).2.
Example switch_back_undefined : node_bad.1 = Err undefined_behaviour /\ c_head node_bad.2 = 1%positive.
Proof. by vm_compute. Qed.
