(* ===== verification/Assets.v ===== *)
(** * Symbols and assets ([symbol.hpp], [asset.hpp], [asset.cpp])

    A symbol is a [uint64_t]: the number of decimals in the low byte, the
    characters of its name above it.  An asset is an amount with a symbol.  How
    both are parsed, printed, checked and computed with.  A string is the list
    of its characters, as in [Names].

    The class [fc_text] is what the code uses of library fc: trimming, the
    conversions of [string.hpp] and the checked integers [fc::safe].  The
    theorems show that parsing inverts printing, that a parsed asset satisfies
    the limits of the type, and that addition is exact or refused. *)

From S2P Require Import Prelude Names.

(** [std::to_string] of an unsigned integer. *)
Fixpoint decimal_loop (fuel : nat) (n : Z) (acc : list Z) : list Z :=
  match fuel with
  | O => acc
  | S fuel =>
      let acc := (48 + n mod 10) :: acc in
      if n / 10 =? 0 then acc else decimal_loop fuel (n / 10) acc
  end.
Definition decimal (n : Z) : list Z := decimal_loop 20 n [].
#[global] Arguments decimal : simpl never.

Definition is_decimal_digit (c : Z) : bool := (48 <=? c) && (c <=? 57).
Definition decimal_value (ds : list Z) : Z := fold_left (fun acc d => acc * 10 + (d - 48)) ds 0.

(** A string that trimming leaves as it is: it starts and ends with a graphic
    character. *)
Definition graphic (c : Z) : bool := (33 <=? c) && (c <=? 126).
Definition tight (s : list Z) : bool :=
  match head s, last s with Some a, Some b => graphic a && graphic b | _, _ => false end.

Class fc_text : Type := {
  trim : list Z -> list Z;
  to_int64 : list Z -> res Z;
  fc_to_string : Z -> list Z;
  safe_mul : Z -> Z -> res Z;
  safe_add : Z -> Z -> res Z }.

Class fc_text_laws `{fc_text} : Prop := {
  trim_tight s : tight s = true -> trim s = s;
  to_int64_digits ds : ds <> [] -> forallb is_decimal_digit ds = true -> is_s64 (decimal_value ds) ->
    to_int64 ds = Ok (decimal_value ds);
  to_int64_minus ds : ds <> [] -> forallb is_decimal_digit ds = true -> is_s64 (- decimal_value ds) ->
    to_int64 (45 :: ds) = Ok (- decimal_value ds);
  fc_to_string_decimal n : 0 <= n <= INT64_MAX -> fc_to_string n = decimal n;
  safe_mul_exact a b : is_s64 (a * b) -> safe_mul a b = Ok (a * b);
  safe_add_exact a b : is_s64 (a + b) -> safe_add a b = Ok (a + b) }.

(** [std::string::find] of a character. *)
Fixpoint find_char (c : Z) (s : list Z) : option nat :=
  match s with
  | [] => None
  | d :: s => if d =? c then Some 0%nat else S <$> find_char c s
  end.

(** What a callee sees of [s.c_str()]: the characters before the first NUL. *)
Fixpoint c_str (s : list Z) : list Z :=
  match s with [] => [] | c :: s => if c =? 0 then [] else c :: c_str s end.

Definition upper (c : Z) : bool := (65 <=? c) && (c <=? 90).
Definition comma : Z := 44.
Definition dot : Z := 46.
Definition minus : Z := 45.
Definition space : Z := 32.

(** ** Symbols *)
Definition max_precision : Z := 18.

(** A shift of a [uint64_t] by 64 bits or more is undefined. *)
Fixpoint symbol_loop (i : nat) (str : list Z) (result : Z) : res Z :=
  match str with
  | [] => Ok result
  | c :: str =>
      eos_assert (upper c) symbol_type_exception;;
      if 8 * (Z.of_nat i + 1) <? 64
      then symbol_loop (S i) str (Z.lor result (u64 (Z.shiftl c (8 * (Z.of_nat i + 1)))))
      else Err undefined_behaviour
  end.
Definition string_to_symbol (precision : Z) (str : list Z) : res Z :=
  result ← symbol_loop 0 (c_str str) 0;
  Ok (Z.lor result precision).

Definition decimals (v : Z) : Z := Z.land v 0xFF.
Definition valid_name (name : list Z) : bool := forallb upper name.

Fixpoint name_loop (fuel : nat) (v : Z) : list Z :=
  match fuel with
  | O => []
  | S fuel => if v >? 0 then Z.land v 0xFF :: name_loop fuel (Z.shiftr v 8) else []
  end.
Definition symbol_name (v : Z) : list Z := name_loop 7 (Z.shiftr v 8).

Definition symbol_valid (v : Z) : bool := (decimals v <=? max_precision) && valid_name (symbol_name v).

(** The constructors from a value and from a C string. *)
Definition symbol_of_value (v : Z) : res Z := eos_assert (symbol_valid v) symbol_type_exception;; Ok v.
Definition symbol_of_cstr (p : Z) (s : list Z) : res Z :=
  v ← string_to_symbol p s; eos_assert (symbol_valid v) symbol_type_exception;; Ok v.

Fixpoint precision_loop (p : nat) (p10 : Z) : Z :=
  match p with O => p10 | S p => precision_loop p (u64 (p10 * 10)) end.
Definition symbol_precision (v : Z) : res Z :=
  eos_assert (decimals v <=? max_precision) symbol_type_exception;;
  Ok (precision_loop (Z.to_nat (decimals v)) 1).

Definition symbol_to_string (v : Z) : list Z := decimal (Z.land v 0xFF) ++ [comma] ++ symbol_name v.

Definition to_symbol_code (v : Z) : Z := Z.shiftr v 8.
Definition symbol_code_to_variant (code : Z) : res (list Z) :=
  v ← symbol_of_value (u64 (Z.shiftl code 8)); Ok (symbol_name v).
Definition symbol_code_from_variant (s : list Z) : res Z := v ← symbol_of_cstr 0 s; Ok (to_symbol_code v).

Definition symbol_reflector_init (v : Z) : res unit :=
  eos_assert (decimals v <=? max_precision) symbol_type_exception;;
  eos_assert (valid_name (symbol_name v)) symbol_type_exception.

Section Text.
Context `{fc_text}.

(** The number of decimals is truncated to a [uint8_t] before it is checked. *)
Definition symbol_from_string (from : list Z) : res Z :=
  let s := trim from in
  eos_assert (negb (bool_decide (s = []))) symbol_type_exception;;
  match find_char comma s with
  | None => Err symbol_type_exception
  | Some comma_pos =>
      p ← to_int64 (take comma_pos s);
      eos_assert (u8 p <=? max_precision) symbol_type_exception;;
      v ← string_to_symbol (u8 p) (drop (S comma_pos) s);
      symbol_of_value v
  end.

(** ** Assets *)
Record asset : Type := mk_asset { amount : Z; sym : Z }.
#[global] Instance asset_eq_dec : EqDecision asset.
Proof. solve_decision. Defined.

Definition max_amount : Z := 2 ^ 62 - 1.
Definition is_amount_within_range (a : Z) : bool := (- max_amount <=? a) && (a <=? max_amount).
Definition asset_is_valid (a : asset) : bool := is_amount_within_range (amount a) && symbol_valid (sym a).

Definition asset_of (a id : Z) : res asset :=
  eos_assert (is_amount_within_range a) asset_type_exception;;
  eos_assert (symbol_valid id) asset_type_exception;;
  Ok (mk_asset a id).
Definition asset_reflector_init (a : asset) : res unit :=
  eos_assert (is_amount_within_range (amount a)) asset_type_exception;;
  eos_assert (symbol_valid (sym a)) asset_type_exception.

Definition asset_decimals (a : asset) : Z := decimals (sym a).
Definition asset_precision (a : asset) : res Z := p ← symbol_precision (sym a); Ok (s64 p).

(** Arithmetic on [int64_t], whose overflow is undefined. *)
Definition int64 (x : Z) : res Z :=
  if (INT64_MIN <=? x) && (x <=? INT64_MAX) then Ok x else Err undefined_behaviour.

Definition asset_to_string (a : asset) : res (list Z) :=
  let sign := if amount a <? 0 then [minus] else [] in
  abs_amount ← int64 (Z.abs (amount a));
  precision ← asset_precision a;
  let result := fc_to_string (Z.quot abs_amount precision) in
  let result := if negb (asset_decimals a =? 0) then
                  let fract := Z.rem abs_amount precision in
                  result ++ [dot] ++ drop 1 (fc_to_string (precision + fract))
                else result in
  Ok (sign ++ result ++ [space] ++ symbol_name (sym a)).

Definition symbol_part (amount_str symbol_str : list Z) (dot_pos : option nat) : list Z :=
  match dot_pos with
  | Some dot_pos => decimal (Z.of_nat (length amount_str - dot_pos - 1))
  | None => [48]
  end ++ [comma] ++ symbol_str.

Definition parse_amount (amount_str : list Z) (dot_pos : option nat) : res (Z * Z) :=
  match dot_pos with
  | Some dot_pos =>
      int_part ← to_int64 (take dot_pos amount_str);
      fract_part ← to_int64 (drop (S dot_pos) amount_str);
      fract_part ← (if bool_decide (head amount_str = Some minus) then safe_mul fract_part (-1) else Ok fract_part);
      Ok (int_part, fract_part)
  | None => int_part ← to_int64 amount_str; Ok (int_part, 0)
  end.

Definition asset_from_string (from : list Z) : res asset :=
  let s := trim from in
  match find_char space s with
  | None => Err asset_type_exception
  | Some space_pos =>
      let symbol_str := trim (drop (S space_pos) s) in
      let amount_str := take space_pos s in
      let dot_pos := find_char dot amount_str in
      eos_assert (negb (bool_decide (dot_pos = Some (length amount_str - 1)%nat))) asset_type_exception;;
      v ← symbol_from_string (symbol_part amount_str symbol_str dot_pos);
      '(int_part, fract_part) ← parse_amount amount_str dot_pos;
      precision ← symbol_precision v;
      scaled ← safe_mul int_part (s64 precision);
      total ← safe_add scaled fract_part;
      asset_of total v
  end.

(** ** Operators

    [+=] and [-=] do not check the range that the binary operators check. *)
Definition same_symbol (a b : asset) : res unit := eos_assert (sym a =? sym b) asset_type_exception.

Definition asset_plus_assign (a o : asset) : res asset :=
  same_symbol a o;; x ← int64 (amount a + amount o); Ok (mk_asset x (sym a)).
Definition asset_minus_assign (a o : asset) : res asset :=
  same_symbol a o;; x ← int64 (amount a - amount o); Ok (mk_asset x (sym a)).
Definition asset_negate (a : asset) : res asset := x ← int64 (- amount a); asset_of x (sym a).
Definition asset_plus (a b : asset) : res asset :=
  same_symbol a b;; x ← int64 (amount a + amount b); asset_of x (sym a).
Definition asset_minus (a b : asset) : res asset :=
  same_symbol a b;; x ← int64 (amount a - amount b); asset_of x (sym a).

Definition asset_eq (a b : asset) : bool := (sym a =? sym b) && (amount a =? amount b).
Definition asset_lt (a b : asset) : res bool :=
  same_symbol a b;;
  Ok ((amount a <? amount b) || ((amount a =? amount b) && (sym a <? sym b))).
Definition asset_le (a b : asset) : res bool := if asset_eq a b then Ok true else asset_lt a b.
Definition asset_ne (a b : asset) : bool := negb (asset_eq a b).
Definition asset_gt (a b : asset) : res bool := le ← asset_le a b; Ok (negb le).
Definition asset_ge (a b : asset) : res bool := lt ← asset_lt a b; Ok (negb lt).
End Text.

(** ** Names of symbols *)
Definition packed (cs : list Z) : Z := foldr (fun c acc => c + 256 * acc) 0 cs.

Lemma upper_range c : upper c = true -> 65 <= c <= 90.
Proof. unfold upper. intros. btests. lia. Qed.

Lemma packed_bound cs : Forall (fun c => 0 <= c < 256) cs -> 0 <= packed cs < 256 ^ Z.of_nat (length cs).
Proof.
  induction 1 as [|c cs Hc _ IH]; cbn [packed foldr length]; [lia|]. fold (packed cs).
  rewrite Nat2Z.inj_succ, Z.pow_succ_r by lia. lia.
Qed.

Lemma valid_name_bytes cs : valid_name cs = true -> Forall (fun c => 0 < c < 256) cs.
Proof. unfold valid_name. induction cs as [|c cs IH]; cbn; [constructor|]. intros Hc. btests. apply upper_range in H. constructor; [lia|auto]. Qed.

Lemma c_str_clean cs : Forall (fun c => 0 < c < 256) cs -> c_str cs = cs.
Proof. induction 1 as [|c cs Hc _ IH]; cbn; [done|]. rewrite (proj2 (Z.eqb_neq _ _)) by lia. by rewrite IH. Qed.

Lemma low_byte (c x : Z) : 0 <= c < 256 -> Z.land (c + 256 * x) 0xFF = c /\ Z.shiftr (c + 256 * x) 8 = x.
Proof.
  intros Hc. change 0xFF with (2 ^ 8 - 1). rewrite land_ones_mod, Z.shiftr_div_pow2 by lia. change (2 ^ 8) with 256.
  split; [rewrite Z.mul_comm, Z.mod_add by lia; by apply Z.mod_small|].
  rewrite Z.mul_comm, Z.div_add, Z.div_small by lia. lia.
Qed.

Lemma split_byte v : 0 <= v -> v = Z.land v 0xFF + 256 * Z.shiftr v 8 /\ 0 <= Z.land v 0xFF < 256 /\ 0 <= Z.shiftr v 8.
Proof.
  intros Hv. change 0xFF with (2 ^ 8 - 1). rewrite land_ones_mod, Z.shiftr_div_pow2 by lia. change (2 ^ 8) with 256.
  pose proof (Z.div_mod v 256). pose proof (Z.mod_pos_bound v 256). pose proof (Z.div_pos v 256). lia.
Qed.

Lemma packed_pos cs : Forall (fun c => 0 < c < 256) cs -> cs <> [] -> 0 < packed cs.
Proof.
  destruct 1 as [|c cs Hc Hcs]; [done|]. intros _. cbn [packed foldr]. fold (packed cs).
  pose proof (packed_bound cs) as Hb. destruct Hb; [eapply Forall_impl; [exact Hcs|]; cbn; lia|]. lia.
Qed.

Lemma name_loop_packed cs fuel : Forall (fun c => 0 < c < 256) cs -> (length cs <= fuel)%nat -> name_loop fuel (packed cs) = cs.
Proof.
  intros Hcs. revert fuel. induction Hcs as [|c cs Hc Hcs IH]; intros fuel Hl; [by destruct fuel|].
  destruct fuel as [|fuel]; cbn [length] in Hl; [lia|]. cbn [name_loop].
  pose proof (packed_pos (c :: cs)). rewrite Z.gtb_ltb, (proj2 (Z.ltb_lt _ _)) by (apply packed_pos; [by constructor|done]).
  cbn [packed foldr]. fold (packed cs). destruct (low_byte c (packed cs)) as [-> ->]; [lia|]. by rewrite IH by lia.
Qed.

Lemma packed_name_loop fuel v : 0 <= v < 256 ^ Z.of_nat fuel -> packed (name_loop fuel v) = v /\ (length (name_loop fuel v) <= fuel)%nat.
Proof.
  revert v. induction fuel as [|fuel IH]; intros v Hv; [cbn in *; split; lia|]. cbn [name_loop].
  destruct (v >? 0) eqn:Ev; btests; [|cbn; split; lia].
  destruct (split_byte v) as (E & Hl & Hh); [lia|]. cbn [packed foldr length]. fold (packed (name_loop fuel (Z.shiftr v 8))).
  rewrite Nat2Z.inj_succ, Z.pow_succ_r in Hv by lia.
  destruct (IH (Z.shiftr v 8)) as [-> Hn]; [nia|]. split; [lia|]. lia.
Qed.

(** The loop of [string_to_symbol] puts the characters above the low byte. *)
Lemma symbol_loop_packed cs i r : valid_name cs = true -> (i + length cs <= 7)%nat -> 0 <= r < 2 ^ (8 * (Z.of_nat i + 1)) ->
  symbol_loop i cs r = Ok (r + 2 ^ (8 * (Z.of_nat i + 1)) * packed cs).
Proof.
  revert i r. induction cs as [|c cs IH]; intros i r Hv Hl Hr; cbn [symbol_loop packed foldr]; [f_equal; lia|].
  cbn [valid_name forallb] in Hv. apply andb_true_iff in Hv as [Hc Hv]. rewrite Hc. cbn [mbind res_bind eos_assert].
  cbn [length] in Hl. rewrite (proj2 (Z.ltb_lt _ _)) by lia. apply upper_range in Hc.
  set (k := 8 * (Z.of_nat i + 1)) in *.
  assert (u64 (Z.shiftl c k) = c * 2 ^ k) as ->.
  { rewrite Z.shiftl_mul_pow2 by lia. apply u64_id. assert (0 < 2 ^ k) by (apply Z.pow_pos_nonneg; lia). split; [nia|].
    apply Z.lt_le_trans with (2 ^ 8 * 2 ^ k); [nia|]. rewrite <- Z.pow_add_r by lia. apply Z.pow_le_mono_r; lia. }
  rewrite Z.lor_comm, lor_disjoint by lia. fold (packed cs).
  assert (8 * (Z.of_nat (S i) + 1) = k + 8) as Ek by lia.
  rewrite IH; [|done|lia|rewrite Ek, Z.pow_add_r by lia; change (2 ^ 8) with 256; nia]. rewrite Ek, Z.pow_add_r by lia. f_equal. lia.
Qed.

Lemma string_to_symbol_ok cs p : valid_name cs = true -> (length cs <= 7)%nat -> is_u8 p -> string_to_symbol p cs = Ok (p + 256 * packed cs).
Proof.
  intros Hv Hl Hp. unfold string_to_symbol. rewrite c_str_clean by by apply valid_name_bytes.
  destruct cs as [|c cs]; [cbn; by rewrite Z.add_0_r|].
  rewrite symbol_loop_packed by (cbn [length] in *; try done; lia). cbn [mbind res_bind]. f_equal.
  replace (0 + 2 ^ (8 * (Z.of_nat 0 + 1)) * packed (c :: cs)) with (packed (c :: cs) * 2 ^ 8) by (change (2 ^ (8 * (Z.of_nat 0 + 1))) with 256; lia).
  rewrite lor_disjoint by (unfold is_u8 in Hp; lia). change (2 ^ 8) with 256. lia.
Qed.

Lemma symbol_parts cs p : valid_name cs = true -> (length cs <= 7)%nat -> is_u8 p ->
  decimals (p + 256 * packed cs) = p /\ symbol_name (p + 256 * packed cs) = cs.
Proof.
  intros Hv Hl Hp. unfold decimals, symbol_name. destruct (low_byte p (packed cs)) as [-> ->]; [exact Hp|].
  split; [done|]. apply name_loop_packed; [by apply valid_name_bytes|done].
Qed.

(** A value is its decimals and its name; seven rounds of the loop reach the
    end of the name. *)
Lemma symbol_value_parts v : is_u64 v -> v = decimals v + 256 * packed (symbol_name v) /\ is_u8 (decimals v) /\ (length (symbol_name v) <= 7)%nat.
Proof.
  intros Hv. unfold decimals, symbol_name, is_u64, is_u8 in *. destruct (split_byte v) as (E & Hl & Hh); [lia|].
  destruct (packed_name_loop 7 (Z.shiftr v 8)) as [-> Hn]; [|done]. change (256 ^ Z.of_nat 7) with (2 ^ 56). lia.
Qed.

Lemma symbol_of_parts v : is_u64 v -> symbol_valid v = true -> string_to_symbol (decimals v) (symbol_name v) = Ok v.
Proof.
  intros Hv Hs. destruct (symbol_value_parts v Hv) as (E & Hd & Hn). unfold symbol_valid in Hs. btests.
  rewrite string_to_symbol_ok by done. by rewrite <- E.
Qed.

(** ** Decimal numerals *)
Lemma decimal_value_snoc ds d : decimal_value (ds ++ [d]) = decimal_value ds * 10 + (d - 48).
Proof. unfold decimal_value. by rewrite fold_left_app. Qed.

Lemma decimal_value_cons d ds : decimal_value (d :: ds) = (d - 48) * 10 ^ Z.of_nat (length ds) + decimal_value ds.
Proof.
  induction ds as [|e ds IH] using rev_ind; [unfold decimal_value; cbn; lia|].
  change (d :: ds ++ [e]) with ((d :: ds) ++ [e]). rewrite !decimal_value_snoc, IH, length_app. cbn [length].
  rewrite Nat2Z.inj_add, Z.pow_add_r by lia. change (10 ^ Z.of_nat 1) with 10. lia.
Qed.

Lemma decimal_value_bound ds : forallb is_decimal_digit ds = true -> 0 <= decimal_value ds < 10 ^ Z.of_nat (length ds).
Proof.
  induction ds as [|d ds IH]; [cbn; lia|]. cbn [forallb length]. intros Hd. btests. unfold is_decimal_digit in H. btests.
  rewrite decimal_value_cons, Nat2Z.inj_succ, Z.pow_succ_r by lia. specialize (IH H0). nia.
Qed.

Lemma decimal_loop_S fuel n acc : decimal_loop (S fuel) n acc =
  if n / 10 =? 0 then (48 + n mod 10) :: acc else decimal_loop fuel (n / 10) ((48 + n mod 10) :: acc).
Proof. done. Qed.

Lemma decimal_loop_spec fuel n acc : 0 <= n < 10 ^ Z.of_nat (S fuel) ->
  exists ds, decimal_loop (S fuel) n acc = ds ++ acc /\ forallb is_decimal_digit ds = true /\ decimal_value ds = n
    /\ exists d ds', ds = d :: ds' /\ (ds' = [] \/ 10 ^ Z.of_nat (length ds') <= n).
Proof.
  revert n acc. induction fuel as [|fuel IH]; intros n acc Hn; rewrite decimal_loop_S;
    pose proof (Z.mod_pos_bound n 10 ltac:(lia)); pose proof (Z.div_mod n 10 ltac:(lia)).
  all: assert (is_decimal_digit (48 + n mod 10) = true) as Hd by (unfold is_decimal_digit; apply andb_true_iff; split; apply Z.leb_le; lia).
  all: destruct (n / 10 =? 0) eqn:E0; btests.
  1, 3: exists [48 + n mod 10]; rewrite <- app_comm_cons; cbn [forallb]; rewrite Hd; repeat split; [unfold decimal_value; cbn; lia|eauto].
  { change (10 ^ Z.of_nat 1) with 10 in Hn. rewrite Z.div_small in E0; lia. }
  rewrite Nat2Z.inj_succ, Z.pow_succ_r in Hn by lia.
  destruct (IH (n / 10) ((48 + n mod 10) :: acc)) as (ds & -> & Hf & Hv & d & ds' & -> & Hlow).
  { split; [apply Z.div_pos; lia|apply Z.div_lt_upper_bound; lia]. }
  exists ((d :: ds') ++ [48 + n mod 10]). rewrite <- app_assoc. split; [done|]. rewrite forallb_app, Hf, decimal_value_snoc, Hv.
  cbn [forallb]. rewrite Hd. split; [done|]. split; [lia|]. exists d, (ds' ++ [48 + n mod 10]). split; [done|]. right.
  rewrite length_app, Nat2Z.inj_add, Z.pow_add_r by lia. change (10 ^ Z.of_nat (length [_])) with 10.
  destruct Hlow as [->|Hlow]; [|lia]. cbn [length]. change (10 ^ Z.of_nat 0) with 1. assert (0 <= n / 10) by (apply Z.div_pos; lia). lia.
Qed.

Lemma decimal_spec n : 0 <= n < 2 ^ 64 -> decimal n <> [] /\ forallb is_decimal_digit (decimal n) = true /\ decimal_value (decimal n) = n.
Proof.
  intros Hn. unfold decimal. destruct (decimal_loop_spec 19 n []) as (ds & -> & Hf & Hv & d & ds' & -> & _).
  { change (10 ^ Z.of_nat 20) with 100000000000000000000. lia. }
  by rewrite app_nil_r.
Qed.

(** The fraction is printed by dropping the leading one of [10 ^ p + f]. *)
Lemma decimal_fraction (p : nat) f : (p <= 18)%nat -> 0 <= f < 10 ^ Z.of_nat p ->
  length (drop 1 (decimal (10 ^ Z.of_nat p + f))) = p /\ forallb is_decimal_digit (drop 1 (decimal (10 ^ Z.of_nat p + f))) = true
  /\ decimal_value (drop 1 (decimal (10 ^ Z.of_nat p + f))) = f.
Proof.
  intros Hp Hf. assert (10 ^ Z.of_nat p <= 10 ^ 18) by (apply Z.pow_le_mono_r; lia).
  unfold decimal. destruct (decimal_loop_spec 19 (10 ^ Z.of_nat p + f) []) as (ds & -> & Hd & Hv & d & fs & -> & Hlow).
  { change (10 ^ Z.of_nat 20) with 100000000000000000000. lia. }
  rewrite app_nil_r. change (drop 1 (d :: fs)) with fs. cbn [forallb] in Hd. apply andb_true_iff in Hd as [Hd Hfs].
  pose proof (decimal_value_bound fs Hfs) as Hb. rewrite decimal_value_cons in Hv. unfold is_decimal_digit in Hd. btests.
  assert (length fs = p) as El.
  { destruct (Nat.lt_trichotomy (length fs) p) as [Hlt|[Heq|Hgt]]; [|done|]; exfalso.
    - assert (10 * 10 ^ Z.of_nat (length fs) <= 10 ^ Z.of_nat p); [|nia].
      rewrite <- Z.pow_succ_r by lia. apply Z.pow_le_mono_r; lia.
    - destruct Hlow as [->|Hlow]; [cbn in Hgt; lia|].
      assert (10 * 10 ^ Z.of_nat p <= 10 ^ Z.of_nat (length fs)); [|lia].
      rewrite <- Z.pow_succ_r by lia. apply Z.pow_le_mono_r; lia. }
  rewrite El in *. repeat split; [done|]. assert (d = 49) as -> by nia. lia.
Qed.

Lemma precision_loop_pow (p : nat) q : 0 <= q -> q * 10 ^ Z.of_nat p < 2 ^ 64 -> precision_loop p q = q * 10 ^ Z.of_nat p.
Proof.
  revert q. induction p as [|p IH]; intros q Hq Hb; cbn [precision_loop]; [lia|].
  rewrite Nat2Z.inj_succ, Z.pow_succ_r in * by lia. assert (1 <= 10 ^ Z.of_nat p) by (pose proof (Z.pow_pos_nonneg 10 (Z.of_nat p)); lia).
  rewrite u64_id by (unfold is_u64; nia). rewrite IH; nia.
Qed.

Lemma symbol_precision_pow v : is_u8 (decimals v) -> decimals v <= max_precision ->
  symbol_precision v = Ok (10 ^ decimals v) /\ 1 <= 10 ^ decimals v <= 10 ^ 18.
Proof.
  intros Hd Hm. unfold symbol_precision. rewrite (proj2 (Z.leb_le _ _)) by done. cbn [eos_assert mbind res_bind].
  unfold is_u8, max_precision in *. assert (1 <= 10 ^ decimals v <= 10 ^ 18).
  { split; [|apply Z.pow_le_mono_r; lia]. pose proof (Z.pow_pos_nonneg 10 (decimals v)). lia. }
  split; [|done]. rewrite precision_loop_pow, Z2Nat.id by (rewrite ?Z2Nat.id; lia). f_equal. lia.
Qed.

(** ** Characters in strings *)
Lemma find_char_app c a b : forallb (fun d => negb (d =? c)) a = true -> find_char c (a ++ c :: b) = Some (length a).
Proof. induction a as [|d a IH]; cbn; [by rewrite Z.eqb_refl|]. intros Ha. btests. rewrite (proj2 (Z.eqb_neq _ _)) by done. by rewrite IH. Qed.
Lemma find_char_none c a : forallb (fun d => negb (d =? c)) a = true -> find_char c a = None.
Proof. induction a as [|d a IH]; cbn; [done|]. intros Ha. btests. rewrite (proj2 (Z.eqb_neq _ _)) by done. by rewrite IH. Qed.

Lemma digits_avoid c ds : forallb is_decimal_digit ds = true -> ~ (48 <= c <= 57) -> forallb (fun d => negb (d =? c)) ds = true.
Proof.
  intros Hd Hc. induction ds as [|d ds IH]; [done|]. cbn in *. btests. unfold is_decimal_digit in H. btests.
  rewrite (proj2 (Z.eqb_neq _ _)) by lia. by rewrite IH.
Qed.

Lemma tight_app a b x y : head a = Some x -> last b = Some y -> graphic x = true -> graphic y = true -> tight (a ++ b) = true.
Proof.
  intros Ha Hb Hx Hy. unfold tight. rewrite last_app, Hb. destruct a; cbn in *; simplify_eq. by rewrite Hx, Hy.
Qed.
Lemma digit_graphic c : is_decimal_digit c = true -> graphic c = true.
Proof. unfold is_decimal_digit, graphic. intros. btests. apply andb_true_iff; split; apply Z.leb_le; lia. Qed.
Lemma upper_graphic c : upper c = true -> graphic c = true.
Proof. unfold upper, graphic. intros. btests. apply andb_true_iff; split; apply Z.leb_le; lia. Qed.

Lemma name_last cs : valid_name cs = true -> cs <> [] -> exists c, last cs = Some c /\ graphic c = true.
Proof.
  destruct cs as [|c cs _] using rev_ind; [done|]. intros Hv _. exists c. rewrite last_snoc. split; [done|].
  unfold valid_name in Hv. rewrite forallb_app in Hv. cbn in Hv. btests. by apply upper_graphic.
Qed.
Lemma digits_head ds : forallb is_decimal_digit ds = true -> ds <> [] -> exists c, head ds = Some c /\ graphic c = true.
Proof. destruct ds as [|c ds]; [done|]. cbn. intros Hd _. btests. exists c. split; [done|]. by apply digit_graphic. Qed.

Section Printed.
Context `{fc_text_laws}.

Definition avoids (c : Z) (s : list Z) : bool := forallb (fun d => negb (d =? c)) s.
Definition sign_of (neg : bool) : list Z := if neg then [minus] else [].
Definition signed (neg : bool) (x : Z) : Z := if neg then - x else x.

Lemma avoids_app c a b : avoids c (a ++ b) = avoids c a && avoids c b.
Proof. apply forallb_app. Qed.

Lemma symbol_string_inverse v : is_u64 v -> symbol_valid v = true -> symbol_from_string (symbol_to_string v) = Ok v.
Proof.
  intros Hv Hs. pose proof (symbol_of_parts v Hv Hs) as Hparts. pose proof Hs as Hs'. unfold symbol_valid in Hs'.
  destruct (symbol_value_parts v Hv) as (_ & Hd & _). apply andb_true_iff in Hs' as [Hm Hn].
  unfold symbol_from_string, symbol_to_string. fold (decimals v). unfold is_u8, max_precision in *.
  destruct (decimal_spec (decimals v)) as (Hne & Hdig & Hval); [lia|]. destruct (digits_head _ Hdig Hne) as (x & Hx & Hgx).
  assert (tight (decimal (decimals v) ++ [comma] ++ symbol_name v) = true) as Ht.
  { destruct (decide (symbol_name v = [])) as [->|Hnn].
    - eapply tight_app; [exact Hx|done|done|done].
    - destruct (name_last _ Hn Hnn) as (y & Hy & Hgy). eapply tight_app; [exact Hx| |done|exact Hgy]. rewrite last_app, Hy. done. }
  rewrite trim_tight by done. rewrite bool_decide_false by (by destruct (decimal (decimals v))).
  cbn [negb eos_assert mbind res_bind]. cbn [app]. rewrite find_char_app by (apply digits_avoid; [done|unfold comma; lia]).
  rewrite take_app_length. rewrite to_int64_digits; [|done|done|rewrite Hval; unfold is_s64; lia]. rewrite Hval. cbn [mbind res_bind].
  rewrite u8_id by done. btests. rewrite (proj2 (Z.leb_le _ _)) by done. cbn [eos_assert mbind res_bind].
  replace (drop (S (length (decimal (decimals v)))) (decimal (decimals v) ++ comma :: symbol_name v)) with (symbol_name v)
    by (rewrite <- Nat.add_1_r, drop_app_add'; done).
  rewrite Hparts. cbn. unfold symbol_of_value. by rewrite Hs.
Qed.

(** What the two halves of a printed amount are read back as. *)
Lemma signed_digits neg ds : ds <> [] -> forallb is_decimal_digit ds = true -> decimal_value ds <= INT64_MAX ->
  to_int64 (sign_of neg ++ ds) = Ok (signed neg (decimal_value ds)).
Proof.
  intros Hne Hd Hm. pose proof (decimal_value_bound ds Hd). unfold INT64_MAX in Hm. destruct neg; cbn.
  - apply to_int64_minus; [done|done|unfold is_s64; lia].
  - apply to_int64_digits; [done|done|unfold is_s64; lia].
Qed.

Lemma parse_whole neg ds : ds <> [] -> forallb is_decimal_digit ds = true -> decimal_value ds <= INT64_MAX ->
  parse_amount (sign_of neg ++ ds) None = Ok (signed neg (decimal_value ds), 0).
Proof. intros. cbn [parse_amount]. by rewrite signed_digits. Qed.

Lemma parse_fraction neg ds fs : ds <> [] -> forallb is_decimal_digit ds = true -> decimal_value ds <= INT64_MAX ->
  fs <> [] -> forallb is_decimal_digit fs = true -> decimal_value fs <= INT64_MAX ->
  parse_amount ((sign_of neg ++ ds) ++ dot :: fs) (Some (length (sign_of neg ++ ds))) =
    Ok (signed neg (decimal_value ds), signed neg (decimal_value fs)).
Proof.
  intros Hne Hd Hm Hfne Hf Hfm. cbn [parse_amount]. rewrite take_app_length, signed_digits by done. cbn [mbind res_bind].
  replace (drop (S (length (sign_of neg ++ ds))) ((sign_of neg ++ ds) ++ dot :: fs)) with fs by (rewrite <- Nat.add_1_r, drop_app_add'; done).
  pose proof (decimal_value_bound fs Hf). rewrite (to_int64_digits fs) by (try done; unfold is_s64, INT64_MAX in *; lia). cbn [mbind res_bind].
  destruct neg; cbn [sign_of app head].
  - rewrite bool_decide_true by done. rewrite safe_mul_exact by (unfold is_s64, INT64_MAX in *; lia). cbn. f_equal. f_equal. lia.
  - destruct ds as [|d ds]; [done|]. cbn [app head]. rewrite bool_decide_false; [done|]. intros [= ->]. by cbn in Hd.
Qed.
End Printed.

#[global] Arguments symbol_part : simpl never.

Section PrintedAssets.
Context `{fc_text_laws}.

(** [10^d * q + f] with its sign, printed and read. *)
Definition amount_text (neg : bool) (d q f : Z) : list Z :=
  (sign_of neg ++ decimal q) ++ (if d =? 0 then [] else dot :: drop 1 (decimal (10 ^ d + f))).

Lemma amount_text_parsed neg d q f : 0 <= d <= 18 -> 0 <= q <= INT64_MAX -> 0 <= f < 10 ^ d ->
  let text := amount_text neg d q f in let pos := find_char dot text in
  parse_amount text pos = Ok (signed neg q, signed neg f)
  /\ (forall name, symbol_part text name pos = decimal d ++ [comma] ++ name)
  /\ pos <> Some (length text - 1)%nat
  /\ avoids space text = true /\ exists c, head text = Some c /\ graphic c = true.
Proof.
  intros Hd Hq Hf. unfold amount_text, INT64_MAX in *. destruct (decimal_spec q) as (Hne & Hdig & Hval); [lia|].
  assert (avoids dot (sign_of neg ++ decimal q) = true) as Hdot.
  { rewrite avoids_app. apply andb_true_iff. split; [by destruct neg|apply digits_avoid; [done|unfold dot; lia]]. }
  assert (avoids space (sign_of neg ++ decimal q) = true) as Hsp.
  { rewrite avoids_app. apply andb_true_iff. split; [by destruct neg|apply digits_avoid; [done|unfold space; lia]]. }
  assert (forall tl, exists c, head ((sign_of neg ++ decimal q) ++ tl) = Some c /\ graphic c = true) as Hh.
  { intros tl. destruct neg; cbn; [by exists minus|]. destruct (digits_head _ Hdig Hne) as (c & Hc & Hg).
    exists c. split; [|done]. destruct (decimal q); [done|exact Hc]. }
  destruct (d =? 0) eqn:E0; btests.
  - subst d. change (10 ^ 0) with 1 in Hf. assert (f = 0) as -> by lia. rewrite app_nil_r, find_char_none by done.
    rewrite parse_whole, Hval by (try done; unfold INT64_MAX; lia).
    repeat split; [by destruct neg|done|done|]. specialize (Hh []). by rewrite app_nil_r in Hh.
  - destruct (decimal_fraction (Z.to_nat d) f) as (Hlen & Hfd & Hfv); [lia|rewrite Z2Nat.id; lia|]. rewrite Z2Nat.id in * by lia.
    assert (10 ^ d <= 10 ^ 18) by (apply Z.pow_le_mono_r; lia).
    set (fs := drop 1 (decimal (10 ^ d + f))) in *. assert (fs <> []) as Hfne by (intros E; rewrite E in Hlen; cbn in Hlen; lia).
    rewrite find_char_app by done. rewrite parse_fraction by (try done; unfold INT64_MAX; lia). rewrite Hval, Hfv.
    repeat split; [|intros [= El]; rewrite !length_app in El; cbn [length] in El; lia| |apply Hh].
    + intros name. unfold symbol_part. f_equal. f_equal. rewrite !length_app. cbn [length]. lia.
    + rewrite avoids_app, Hsp. cbn. apply digits_avoid; [done|unfold space; lia].
Qed.

Lemma asset_printed a : is_u64 (sym a) -> asset_is_valid a = true ->
  let d := decimals (sym a) in let n := Z.abs (amount a) in
  asset_to_string a = Ok (amount_text (amount a <? 0) d (n / 10 ^ d) (n mod 10 ^ d) ++ [space] ++ symbol_name (sym a))
  /\ symbol_precision (sym a) = Ok (10 ^ d) /\ 1 <= 10 ^ d <= 10 ^ 18 /\ 0 <= d <= 18 /\ n <= max_amount.
Proof.
  intros Hv Ha d n. unfold asset_is_valid, is_amount_within_range, symbol_valid in Ha. btests.
  destruct (symbol_value_parts _ Hv) as (_ & Hd & _). destruct (symbol_precision_pow _ Hd) as [Hp Hb]; [done|].
  fold d in Hp, Hb, Hd, H2 |- *. unfold max_amount, max_precision, is_u8 in *. split; [|repeat split; try done; lia].
  unfold asset_to_string, asset_precision, int64. rewrite Hp. fold n.
  assert ((INT64_MIN <=? n) && (n <=? INT64_MAX) = true) as ->.
  { unfold INT64_MIN, INT64_MAX. apply andb_true_iff. split; apply Z.leb_le; lia. }
  cbn [mbind res_bind]. rewrite s64_id by (unfold is_s64; lia). rewrite Z.quot_div_nonneg, Z.rem_mod_nonneg by lia.
  pose proof (Z.mod_pos_bound n (10 ^ d) ltac:(lia)). pose proof (Z.div_pos n (10 ^ d) ltac:(lia) ltac:(lia)).
  pose proof (Z.div_le_upper_bound n (10 ^ d) n ltac:(lia) ltac:(nia)).
  rewrite !fc_to_string_decimal by (unfold INT64_MAX; lia). f_equal. unfold amount_text, sign_of, asset_decimals. fold d.
  rewrite <- !app_assoc. f_equal. destruct (d =? 0); cbn; by rewrite <- ?app_assoc.
Qed.

End PrintedAssets.

(** ** What a parsed asset and a computed asset satisfy *)
Lemma asset_of_valid x v a : asset_of x v = Ok a -> asset_is_valid a = true /\ a = mk_asset x v.
Proof.
  unfold asset_of. rewrite !eos_assert_bind_ok. intros (Hr & Hs & [= <-]). split; [|done].
  unfold asset_is_valid. cbn. by rewrite Hr, Hs.
Qed.

Lemma asset_from_string_valid `{fc_text} s a : asset_from_string s = Ok a -> asset_is_valid a = true.
Proof.
  unfold asset_from_string. intros Ha. destruct (find_char space (trim s)); [|done]. apply eos_assert_bind_ok in Ha as [_ Ha].
  minv. destruct x0 as [i f]. minv. by eapply asset_of_valid.
Qed.

Lemma int64_sum a b : is_amount_within_range a = true -> is_amount_within_range b = true -> int64 (a + b) = Ok (a + b).
Proof.
  unfold is_amount_within_range, int64, max_amount, INT64_MIN, INT64_MAX. intros. btests.
  rewrite (proj2 (andb_true_iff _ _)); [done|]. split; apply Z.leb_le; lia.
Qed.

(** Adding two valid assets never overflows an [int64_t]: the sum is exact, or
    an exception tells that the symbols differ or the limit is passed. *)
Lemma asset_plus_exact a b : asset_is_valid a = true -> asset_is_valid b = true ->
  asset_plus a b = if (sym a =? sym b) && is_amount_within_range (amount a + amount b)
                   then Ok (mk_asset (amount a + amount b) (sym a)) else Err asset_type_exception.
Proof.
  unfold asset_is_valid. intros [Ha Hs]%andb_true_iff [Hb _]%andb_true_iff. unfold asset_plus, same_symbol, asset_of.
  destruct (sym a =? sym b); [|done]. cbn [eos_assert mbind res_bind andb]. rewrite int64_sum by done. cbn [mbind res_bind].
  rewrite Hs. by destruct (is_amount_within_range (amount a + amount b)).
Qed.

(** ** A library of strings *)
Fixpoint skip_spaces (s : list Z) : list Z :=
  match s with c :: s' => if graphic c then s else skip_spaces s' | [] => [] end.
Definition demo_to_int64 (s : list Z) : res Z :=
  let neg := bool_decide (head s = Some minus) in
  let ds := if neg then tail s else s in
  let v := if neg then - decimal_value ds else decimal_value ds in
  if negb (bool_decide (ds = [])) && forallb is_decimal_digit ds && (INT64_MIN <=? v) && (v <=? INT64_MAX)
  then Ok v else Err assert_exception.
Definition demo_checked (x : Z) : res Z := if (INT64_MIN <=? x) && (x <=? INT64_MAX) then Ok x else Err overflow_exception.
Definition demo_text : fc_text := {|
  trim s := rev (skip_spaces (rev (skip_spaces s))); to_int64 := demo_to_int64; fc_to_string := decimal;
  safe_mul a b := demo_checked (a * b); safe_add a b := demo_checked (a + b) |}.

Lemma in_int64 x : is_s64 x -> (INT64_MIN <=? x) && (x <=? INT64_MAX) = true.
Proof. unfold is_s64, INT64_MIN, INT64_MAX. intros. apply andb_true_iff. split; apply Z.leb_le; lia. Qed.

Lemma skip_tight c s : graphic c = true -> skip_spaces (c :: s) = c :: s.
Proof. cbn. by intros ->. Qed.

Lemma demo_text_laws : @fc_text_laws demo_text.
Proof.
  split; cbn.
  - intros s Ht. unfold tight in Ht. destruct s as [|a s]; [done|]. destruct (last (a :: s)) as [b|] eqn:El; [|done].
    cbn [head] in Ht. apply andb_true_iff in Ht as [Ha Hb]. rewrite skip_tight by done.
    apply last_Some in El as (s' & ->). rewrite rev_app_distr. cbn [rev app]. rewrite skip_tight by done.
    cbn [rev]. by rewrite rev_involutive.
  - intros ds Hne Hd Hr. unfold demo_to_int64. assert (bool_decide (head ds = Some minus) = false) as ->.
    { apply bool_decide_false. destruct ds as [|d ds]; [done|]. intros [= ->]. by cbn in Hd. }
    cbv beta iota zeta. rewrite bool_decide_false, Hd by done. pose proof (in_int64 _ Hr) as Hi. cbn [negb andb]. by rewrite Hi.
  - intros ds Hne Hd Hr. unfold demo_to_int64. assert (bool_decide (head (45 :: ds) = Some minus) = true) as -> by by apply bool_decide_true.
    cbv beta iota zeta. cbn [tail]. rewrite bool_decide_false, Hd by done. pose proof (in_int64 _ Hr) as Hi. cbn [negb andb]. by rewrite Hi.
  - done.
  - intros a b Hr. unfold demo_checked. by rewrite in_int64.
  - intros a b Hr. unfold demo_checked. by rewrite in_int64.
Qed.

(** -0.0500 EOS *)
Definition demo_symbol : Z := 4 + 256 * packed [69; 79; 83].
Definition demo_asset : asset := mk_asset (-500) demo_symbol.
Definition demo_asset_text : list Z := [45; 48; 46; 48; 53; 48; 48; 32; 69; 79; 83].


(** A symbol with an empty name is valid, but an asset of it prints with
    nothing after the space and is not read back. *)
Example nameless_asset_unreadable : asset_is_valid (mk_asset 5 0) = true
  /\ @asset_to_string demo_text (mk_asset 5 0) = Ok [53; 32] /\ @asset_from_string demo_text [53; 32] = Err asset_type_exception.
Proof. by vm_compute. Qed.

(** Eight letters shift by 64 bits; 260 decimals are taken as 4; a compound
    assignment leaves the range of amounts. *)
Example eight_letters_undefined : string_to_symbol 4 [65; 65; 65; 65; 65; 65; 65; 65] = Err undefined_behaviour.
Proof. by vm_compute. Qed.
Example decimals_truncated : @symbol_from_string demo_text [50; 54; 48; 44; 69; 79; 83] = Ok demo_symbol.
Proof. by vm_compute. Qed.
Example plus_assign_unchecked :
  let a := mk_asset max_amount demo_symbol in
  asset_plus a a = Err asset_type_exception /\ exists b, asset_plus_assign a a = Ok b /\ asset_is_valid b = false.
Proof. split; [reflexivity|eexists; split; reflexivity]. Qed.
