(* ===== verification/Intrinsics.v ===== *)
(** * The allowlist of intrinsics
      ([allowlisted_intrinsics.cpp], [protocol_state_object.hpp],
      [protocol_state_object.cpp], [genesis_intrinsics.cpp], [wasm_interface.hpp])

    The host functions a contract may import.  The allowlist is a flat multimap
    from the hash of a name to the name, that is, a vector sorted by the hash;
    two names may have the same hash.  [std::hash] is the parameter [hash].

    The theorems show that for any hash, collisions included, the allowlist
    behaves as a set of names, that the protocol state of a new chain allows
    exactly the genesis intrinsics, and that a snapshot of it restores it. *)

From S2P Require Import Prelude.
From stdpp Require Import strings.
#[local] Open Scope Z_scope.

Definition allowlisted_intrinsics_type : Type := list (Z * string).

(** [flat_multimap::lower_bound] and [emplace], which inserts after the entries
    of the same key. *)
Fixpoint lower_bound (h : Z) (l : allowlisted_intrinsics_type) : nat :=
  match l with (k, _) :: l => if k <? h then S (lower_bound h l) else 0%nat | [] => 0%nat end.
Fixpoint emplace (h : Z) (name : string) (l : allowlisted_intrinsics_type) : allowlisted_intrinsics_type :=
  match l with
  | (k, m) :: l => if k <=? h then (k, m) :: emplace h name l else (h, name) :: (k, m) :: l
  | [] => [(h, name)]
  end.

(** From the entry at [itr], the first with this name while the hash is [h]. *)
Fixpoint find_intrinsic_helper (h : Z) (name : string) (itr : nat) (rest : allowlisted_intrinsics_type) : option nat :=
  match rest with
  | (k, m) :: rest =>
      if k =? h then if bool_decide (m = name) then Some itr else find_intrinsic_helper h name (S itr) rest
      else None
  | [] => None
  end.
Definition find_intrinsic (l : allowlisted_intrinsics_type) (h : Z) (name : string) : option nat :=
  find_intrinsic_helper h name (lower_bound h l) (drop (lower_bound h l) l).

Definition genesis_intrinsics : list string :=
  (["__ashrti3"; "__lshlti3"; "__lshrti3"; "__ashlti3"; "__divti3"; "__udivti3"; "__modti3";
    "__umodti3"; "__multi3"; "__addtf3"; "__subtf3"; "__multf3"; "__divtf3"; "__eqtf2";
    "__netf2"; "__getf2"; "__gttf2"; "__lttf2"; "__letf2"; "__cmptf2"; "__unordtf2"; "__negtf2";
    "__floatsitf"; "__floatunsitf"; "__floatditf"; "__floatunditf"; "__floattidf";
    "__floatuntidf"; "__floatsidf"; "__extendsftf2"; "__extenddftf2"; "__fixtfti"; "__fixtfdi";
    "__fixtfsi"; "__fixunstfti"; "__fixunstfdi"; "__fixunstfsi"; "__fixsfti"; "__fixdfti";
    "__fixunssfti"; "__fixunsdfti"; "__trunctfdf2"; "__trunctfsf2"; "get_resource_limits";
    "set_resource_limits"; "set_proposed_producers"; "get_blockchain_parameters_packed";
    "set_blockchain_parameters_packed"; "is_privileged"; "set_privileged";
    "get_active_producers"; "db_idx64_store"; "db_idx64_remove"; "db_idx64_update";
    "db_idx64_find_primary"; "db_idx64_find_secondary"; "db_idx64_lowerbound";
    "db_idx64_upperbound"; "db_idx64_end"; "db_idx64_next"; "db_idx64_previous";
    "db_idx128_store"; "db_idx128_remove"; "db_idx128_update"; "db_idx128_find_primary";
    "db_idx128_find_secondary"; "db_idx128_lowerbound"; "db_idx128_upperbound"; "db_idx128_end";
    "db_idx128_next"; "db_idx128_previous"; "db_idx256_store"; "db_idx256_remove";
    "db_idx256_update"; "db_idx256_find_primary"; "db_idx256_find_secondary";
    "db_idx256_lowerbound"; "db_idx256_upperbound"; "db_idx256_end"; "db_idx256_next";
    "db_idx256_previous"; "db_idx_double_store"; "db_idx_double_remove"; "db_idx_double_update";
    "db_idx_double_find_primary"; "db_idx_double_find_secondary"; "db_idx_double_lowerbound";
    "db_idx_double_upperbound"; "db_idx_double_end"; "db_idx_double_next";
    "db_idx_double_previous"; "db_idx_long_double_store"; "db_idx_long_double_remove";
    "db_idx_long_double_update"; "db_idx_long_double_find_primary";
    "db_idx_long_double_find_secondary"; "db_idx_long_double_lowerbound";
    "db_idx_long_double_upperbound"; "db_idx_long_double_end"; "db_idx_long_double_next";
    "db_idx_long_double_previous"; "db_store_i64"; "db_update_i64"; "db_remove_i64";
    "db_get_i64"; "db_next_i64"; "db_previous_i64"; "db_find_i64"; "db_lowerbound_i64";
    "db_upperbound_i64"; "db_end_i64"; "assert_recover_key"; "recover_key"; "assert_sha256";
    "assert_sha1"; "assert_sha512"; "assert_ripemd160"; "sha1"; "sha256"; "sha512"; "ripemd160";
    "check_transaction_authorization"; "check_permission_authorization";
    "get_permission_last_used"; "get_account_creation_time"; "current_time"; "publication_time";
    "abort"; "eosio_assert"; "eosio_assert_message"; "eosio_assert_code"; "eosio_exit";
    "read_action_data"; "action_data_size"; "current_receiver"; "require_recipient";
    "require_auth"; "require_auth2"; "has_auth"; "is_account"; "prints"; "prints_l"; "printi";
    "printui"; "printi128"; "printui128"; "printsf"; "printdf"; "printqf"; "printn"; "printhex";
    "read_transaction"; "transaction_size"; "expiration"; "tapos_block_prefix";
    "tapos_block_num"; "get_action"; "send_inline"; "send_context_free_inline"; "send_deferred";
    "cancel_deferred"; "get_context_free_data"; "memcpy"; "memmove"; "memcmp"; "memset";
    "get_sender"; "is_feature_activated"; "preactivate_feature"; "is_feature_active";
    "activate_feature"; "set_proposed_producers_ex"; "set_standby_producers";
    "enable_standby_producers"])%string.
Definition genesis_num_supported_key_types : Z := 3.

Record protocol_state_object : Type := mk_protocol_state {
  allowlisted_intrinsics : allowlisted_intrinsics_type;
  num_supported_key_types : Z }.
Record snapshot_protocol_state_object : Type := mk_snapshot_row {
  row_allowlisted_intrinsics : gset string;
  row_num_supported_key_types : Z }.

Section Allowlist.
Context (hash : string -> Z).

Definition is_intrinsic_allowlisted (l : allowlisted_intrinsics_type) (name : string) : bool :=
  match find_intrinsic l (hash name) name with Some _ => true | None => false end.

Definition add_intrinsic_to_allowlist (l : allowlisted_intrinsics_type) (name : string) : res allowlisted_intrinsics_type :=
  match find_intrinsic l (hash name) name with
  | Some _ => Err database_exception
  | None => Ok (emplace (hash name) name l)
  end.

Definition remove_intrinsic_from_allowlist (l : allowlisted_intrinsics_type) (name : string) : res allowlisted_intrinsics_type :=
  match find_intrinsic l (hash name) name with
  | None => Err database_exception
  | Some itr => Ok (delete itr l)
  end.

(** A [std::set] of strings, visited in lexicographic order. *)
Definition set_elements (s : gset string) : list string := merge_sort String.le (elements s).

Definition reset_intrinsic_allowlist (l : allowlisted_intrinsics_type) (s : gset string) : allowlisted_intrinsics_type :=
  fold_left (fun l name => emplace (hash name) name l) (set_elements s) [].

Definition convert_intrinsic_allowlist_to_set (l : allowlisted_intrinsics_type) : gset string :=
  fold_left (fun s p => {[p.2]} ∪ s) l ∅.

(** ** The protocol state *)
Fixpoint add_all (names : list string) (l : allowlisted_intrinsics_type) : res allowlisted_intrinsics_type :=
  match names with
  | [] => Ok l
  | i :: names => l ← add_intrinsic_to_allowlist l i; add_all names l
  end.
Definition create_protocol_state : res protocol_state_object :=
  l ← add_all genesis_intrinsics [];
  Ok (mk_protocol_state l genesis_num_supported_key_types).

Definition to_snapshot_row (value : protocol_state_object) : snapshot_protocol_state_object :=
  mk_snapshot_row (convert_intrinsic_allowlist_to_set (allowlisted_intrinsics value)) (num_supported_key_types value).
Definition from_snapshot_row (row : snapshot_protocol_state_object) (value : protocol_state_object) : protocol_state_object :=
  mk_protocol_state (reset_intrinsic_allowlist (allowlisted_intrinsics value) (row_allowlisted_intrinsics row))
    (row_num_supported_key_types row).

(** [root_resolver::resolve]: with an allowlist when a contract is validated,
    without one when it is instantiated.  [registered] is the registry of the
    WebAssembly runtime. *)
Definition resolve {A} (registered : string -> string -> option A) (allowlist : option allowlisted_intrinsics_type)
    (mod_name export_name : string) : res A :=
  fail ← match allowlist with
         | Some l => eos_assert (bool_decide (mod_name = "env"%string)) wasm_exception;;
                     Ok (negb (is_intrinsic_allowlisted l export_name))
         | None => Ok false
         end;
  match (if fail : bool then None else registered mod_name export_name) with
  | Some out => Ok out
  | None => Err wasm_exception
  end.
End Allowlist.

(** ** Sorted by hash *)
Definition key_le (x y : Z * string) : Prop := x.1 <= y.1.
#[global] Hint Unfold key_le : core.

Lemma helper_shift h name i rest : find_intrinsic_helper h name (S i) rest = S <$> find_intrinsic_helper h name i rest.
Proof. revert i. induction rest as [|[k m] rest IH]; intros i; cbn; [done|]. destruct (k =? h); [|done]. case_bool_decide; [done|]. by rewrite IH. Qed.

Lemma find_intrinsic_cons h name k m l : find_intrinsic ((k, m) :: l) h name =
  if k <? h then S <$> find_intrinsic l h name else find_intrinsic_helper h name 0 ((k, m) :: l).
Proof. unfold find_intrinsic. cbn [lower_bound]. destruct (k <? h); [|done]. cbn [drop]. apply helper_shift. Qed.

Lemma helper_found h name rest : StronglySorted key_le rest -> Forall (fun p => h <= p.1) rest ->
  match find_intrinsic_helper h name 0 rest with
  | Some i => rest !! i = Some (h, name)
  | None => (h, name) ∉ rest
  end.
Proof.
  induction 1 as [|[k m] rest Hs IH Hk]; intros Hh; cbn; [apply not_elem_of_nil|]. apply Forall_cons in Hh as [Hh0 Hh]. cbn in Hh0.
  destruct (k =? h) eqn:E; btests.
  - subst k. case_bool_decide as Em; [by subst|]. rewrite helper_shift. specialize (IH Hh).
    destruct (find_intrinsic_helper h name 0 rest); cbn; [done|]. rewrite not_elem_of_cons. split; [congruence|done].
  - rewrite not_elem_of_cons. split; [congruence|]. intros Hin. rewrite Forall_forall in Hk. specialize (Hk _ Hin). unfold key_le in Hk. cbn in Hk. lia.
Qed.

Lemma find_intrinsic_found h name l : StronglySorted key_le l ->
  match find_intrinsic l h name with
  | Some i => l !! i = Some (h, name)
  | None => (h, name) ∉ l
  end.
Proof.
  induction 1 as [|[k m] l Hs IH Hk]; [apply not_elem_of_nil|]. rewrite find_intrinsic_cons. destruct (k <? h) eqn:E; btests.
  - destruct (find_intrinsic l h name); cbn; [done|]. rewrite not_elem_of_cons. split; [intros [= -> ->]; lia|done].
  - apply helper_found; [by constructor|]. constructor; [done|]. eapply Forall_impl; [exact Hk|]. unfold key_le. cbn. lia.
Qed.

Lemma emplace_perm h name l : emplace h name l ≡ₚ (h, name) :: l.
Proof. induction l as [|[k m] l IH]; cbn; [done|]. destruct (k <=? h); [|done]. rewrite IH. apply Permutation_swap. Qed.

Lemma emplace_sorted h name l : StronglySorted key_le l -> StronglySorted key_le (emplace h name l).
Proof.
  induction 1 as [|[k m] l Hs IH Hk]; cbn; [repeat constructor|]. destruct (k <=? h) eqn:E; btests.
  - constructor; [done|]. rewrite emplace_perm. constructor; [done|exact Hk].
  - constructor; [by constructor|]. constructor; [unfold key_le; cbn; lia|]. eapply Forall_impl; [exact Hk|]. unfold key_le. cbn. lia.
Qed.

Lemma delete_sorted i l : StronglySorted key_le l -> StronglySorted key_le (delete i l).
Proof.
  intros Hs. revert i. induction Hs as [|x l Hs IH Hk]; intros [|i]; cbn; [constructor|constructor|done|].
  constructor; [apply IH|by apply Forall_delete].
Qed.

Section AllowlistSet.
Context (hash : string -> Z).
Abbreviation is_allowed := (is_intrinsic_allowlisted hash).

(** The allowlist [l] stands for the set [s]. *)
Record represents (l : allowlisted_intrinsics_type) (s : gset string) : Prop := {
  rep_sorted : StronglySorted key_le l;
  rep_hash : Forall (fun p => p.1 = hash p.2) l;
  rep_nodup : NoDup l.*2;
  rep_set : list_to_set l.*2 = s }.

Lemma represents_member l s name : represents l s -> name ∈ s <-> (hash name, name) ∈ l.
Proof.
  intros [_ Hh _ <-]. rewrite elem_of_list_to_set, list_elem_of_fmap. split.
  - intros ([k m] & -> & Hin). rewrite Forall_forall in Hh. specialize (Hh _ Hin). cbn in Hh. by subst.
  - intros Hin. by eexists (_, _).
Qed.

Lemma find_represents l s name : represents l s ->
  match find_intrinsic l (hash name) name with
  | Some i => l !! i = Some (hash name, name) /\ name ∈ s
  | None => name ∉ s
  end.
Proof.
  intros Hr. pose proof (find_intrinsic_found (hash name) name l (rep_sorted _ _ Hr)) as Hf.
  destruct (find_intrinsic l (hash name) name) as [i|].
  - split; [done|]. rewrite (represents_member l s) by done. by eapply list_elem_of_lookup_2.
  - by rewrite (represents_member l s).
Qed.

Lemma allowlisted_member l s name : represents l s -> is_allowed l name = bool_decide (name ∈ s).
Proof.
  intros Hr. pose proof (find_represents l s name Hr). unfold is_intrinsic_allowlisted.
  destruct (find_intrinsic l (hash name) name); [by rewrite bool_decide_true by tauto|by rewrite bool_decide_false].
Qed.

Lemma emplace_represents l s name : represents l s -> name ∉ s -> represents (emplace (hash name) name l) ({[name]} ∪ s).
Proof.
  intros [Hs Hh Hn <-] Hni. split.
  - by apply emplace_sorted.
  - rewrite emplace_perm. by constructor.
  - rewrite emplace_perm. cbn. constructor; [by rewrite elem_of_list_to_set in Hni|done].
  - apply set_eq. intros x. rewrite elem_of_list_to_set, emplace_perm. cbn. rewrite elem_of_cons. set_solver.
Qed.

Lemma removed_represents l l' s name : represents l s -> l ≡ₚ (hash name, name) :: l' -> StronglySorted key_le l' ->
  represents l' (s ∖ {[name]}).
Proof.
  intros [Hs Hh Hn <-] Hp Hs'. rewrite Hp in Hn, Hh. cbn in Hn.
  apply NoDup_cons in Hn as [Hni Hn]. apply Forall_cons in Hh as [_ Hh]. split; [done..|].
  apply set_eq. intros x. rewrite elem_of_difference, !elem_of_list_to_set, Hp. cbn. rewrite elem_of_cons, elem_of_singleton.
  split; [intros Hx; split; [by right|by intros ->]|tauto].
Qed.
Lemma delete_represents l s i name : represents l s -> l !! i = Some (hash name, name) -> represents (delete i l) (s ∖ {[name]}).
Proof.
  intros Hr Hi. eapply removed_represents; [exact Hr|by apply delete_Permutation|]. apply delete_sorted, Hr.
Qed.

Lemma represents_nil : represents [] ∅.
Proof. split; [constructor|constructor|constructor|done]. Qed.
End AllowlistSet.

(** ** The allowlist as a set

    The operations on the multimap and on a set of names. *)
Inductive operation : Type :=
| query (name : string)
| add (name : string)
| remove (name : string)
| reset (s : gset string).

Section Refinement.
Context (hash : string -> Z).

(** The answer of an operation and the next state; an exception leaves the
    state as it is. *)
Definition run_operation (op : operation) : M allowlisted_intrinsics_type bool := fun l =>
  let changed (r : res allowlisted_intrinsics_type) :=
    match r with Ok l' => (Ok true, l') | Err ex => (Err ex, l) end in
  match op with
  | query name => (Ok (is_intrinsic_allowlisted hash l name), l)
  | add name => changed (add_intrinsic_to_allowlist hash l name)
  | remove name => changed (remove_intrinsic_from_allowlist hash l name)
  | reset s => changed (Ok (reset_intrinsic_allowlist hash l s))
  end.

Definition set_operation (op : operation) : M (gset string) bool := fun s =>
  match op with
  | query name => (Ok (bool_decide (name ∈ s)), s)
  | add name => if decide (name ∈ s) then (Err database_exception, s) else (Ok true, {[name]} ∪ s)
  | remove name => if decide (name ∈ s) then (Ok true, s ∖ {[name]}) else (Err database_exception, s)
  | reset s' => (Ok true, s')
  end.

Lemma emplaced_all names l s : represents hash l s -> NoDup names -> (forall n, n ∈ names -> n ∉ s) ->
  represents hash (fold_left (fun l name => emplace (hash name) name l) names l) (list_to_set names ∪ s).
Proof.
  revert l s. induction names as [|n names IH]; intros l s Hr Hn Hd; cbn.
  - by rewrite (left_id_L ∅ (∪)).
  - apply NoDup_cons in Hn as [Hni Hn]. replace ({[n]} ∪ list_to_set names ∪ s) with (list_to_set names ∪ ({[n]} ∪ s)) by set_solver.
    apply IH; [apply emplace_represents; [done|apply Hd; left]|done|]. intros m Hm. rewrite elem_of_union, elem_of_singleton.
    intros [->|Hms]; [done|]. by apply (Hd m); [right|].
Qed.

Lemma reset_represents l s : represents hash (reset_intrinsic_allowlist hash l s) s.
Proof.
  pose proof (merge_sort_Permutation String.le (elements s)) as Hp. unfold reset_intrinsic_allowlist, set_elements.
  replace s with (list_to_set (merge_sort String.le (elements s)) ∪ ∅ : gset string) at 2.
  - apply emplaced_all; [apply represents_nil|rewrite Hp; apply NoDup_elements|]. intros n _. apply not_elem_of_empty.
  - rewrite (right_id_L ∅ (∪)), Hp. apply list_to_set_elements_L.
Qed.

Lemma operation_simulated op l s : represents hash l s ->
  (run_operation op l).1 = (set_operation op s).1 /\ represents hash (run_operation op l).2 (set_operation op s).2.
Proof.
  intros Hr. destruct op as [n|n|n|s']; cbn.
  - by rewrite (allowlisted_member hash l s).
  - unfold add_intrinsic_to_allowlist. pose proof (find_represents hash l s n Hr) as Hf.
    destruct (find_intrinsic l (hash n) n); [destruct Hf; by rewrite decide_True|]. rewrite decide_False by done.
    split; [done|]. by apply emplace_represents.
  - unfold remove_intrinsic_from_allowlist. pose proof (find_represents hash l s n Hr) as Hf.
    destruct (find_intrinsic l (hash n) n); [|by rewrite decide_False]. destruct Hf as [Hf Hin]. rewrite decide_True by done.
    split; [done|]. by apply delete_represents.
  - split; [done|apply reset_represents].
Qed.

(** C39: for any hash function, collisions included, every sequence of
    operations on the allowlist gives the answers and exceptions of the same
    operations on a set of names, and stands for that set at the end. *)
Theorem intrinsics_refine_set (ops : list operation) :
  (run_all run_operation ops []).1 = (run_all set_operation ops ∅).1
  /\ represents hash (run_all run_operation ops []).2 (run_all set_operation ops ∅).2.
Proof.
  apply (run_all_simulated run_operation set_operation (represents hash) (fun _ _ => True)); [|apply represents_nil|done].
  intros op _ l s Hr _. destruct (operation_simulated op l s Hr). done.
Qed.

(** ** The protocol state of a new chain, and its snapshot *)
Lemma add_all_represents names l s : represents hash l s -> NoDup names -> (forall n, n ∈ names -> n ∉ s) ->
  exists l', add_all hash names l = Ok l' /\ represents hash l' (list_to_set names ∪ s).
Proof.
  revert l s. induction names as [|n names IH]; intros l s Hr Hn Hd; cbn.
  - exists l. split; [done|]. by rewrite (left_id_L ∅ (∪)).
  - apply NoDup_cons in Hn as [Hni Hn]. unfold add_intrinsic_to_allowlist. pose proof (find_represents hash l s n Hr) as Hf.
    destruct (find_intrinsic l (hash n) n); [exfalso; apply (Hd n); [left|tauto]|]. cbn [mbind res_bind].
    replace ({[n]} ∪ list_to_set names ∪ s) with (list_to_set names ∪ ({[n]} ∪ s)) by set_solver.
    apply IH; [by apply emplace_represents|done|]. intros m Hm. rewrite elem_of_union, elem_of_singleton.
    intros [->|Hms]; [done|]. by apply (Hd m); [right|].
Qed.

Lemma genesis_intrinsics_distinct : NoDup genesis_intrinsics.
Proof. apply (bool_decide_unpack _). by vm_compute. Qed.

Lemma create_protocol_state_allows : exists pso, create_protocol_state hash = Ok pso
  /\ forall name, is_intrinsic_allowlisted hash (allowlisted_intrinsics pso) name = bool_decide (name ∈ genesis_intrinsics).
Proof.
  destruct (add_all_represents genesis_intrinsics [] ∅ (represents_nil hash) genesis_intrinsics_distinct) as (l & Hl & Hr).
  { intros n _. apply not_elem_of_empty. }
  unfold create_protocol_state. rewrite Hl. eexists. split; [done|]. intros name. cbn [allowlisted_intrinsics].
  rewrite (allowlisted_member hash l _ name Hr). apply bool_decide_ext. rewrite (right_id_L ∅ (∪)). apply elem_of_list_to_set.
Qed.

Lemma convert_represents l s : represents hash l s -> convert_intrinsic_allowlist_to_set l = s.
Proof.
  intros [_ _ _ <-]. unfold convert_intrinsic_allowlist_to_set.
  enough (forall s0, fold_left (fun s p => {[p.2]} ∪ s) l s0 = list_to_set l.*2 ∪ s0) as -> by by rewrite (right_id_L ∅ (∪)).
  induction l as [|[k m] l IH]; intros s0; cbn; [by rewrite (left_id_L ∅ (∪))|]. rewrite IH. set_solver.
Qed.

(** A snapshot row restores the set of intrinsics and the number of key types
    whatever the object held before. *)
Lemma snapshot_restores pso old s : represents hash (allowlisted_intrinsics pso) s ->
  let pso' := from_snapshot_row hash (to_snapshot_row pso) old in
  to_snapshot_row pso' = to_snapshot_row pso /\ represents hash (allowlisted_intrinsics pso') s.
Proof.
  intros Hr. unfold from_snapshot_row, to_snapshot_row. cbn [allowlisted_intrinsics num_supported_key_types row_allowlisted_intrinsics row_num_supported_key_types].
  rewrite (convert_represents _ s Hr).
  pose proof (reset_represents (allowlisted_intrinsics old) s) as Hr'. split; [|done]. by rewrite (convert_represents _ s Hr').
Qed.

(** Only allowlisted names of module [env] are resolved for validation. *)
Lemma resolve_allowed {A} (registered : string -> string -> option A) l s mod_name name out : represents hash l s ->
  resolve hash registered (Some l) mod_name name = Ok out ->
  mod_name = "env"%string /\ name ∈ s /\ registered mod_name name = Some out.
Proof.
  intros Hr. unfold resolve. cbn [mbind res_bind]. rewrite (allowlisted_member hash l s) by done.
  do 2 case_bool_decide; cbn; destruct (registered mod_name name) eqn:E; cbn; intros; simplify_eq; done.
Qed.
End Refinement.

(** Names that collide are kept apart. *)
Example colliding_names :
  let ops := [add "abort"; add "memcpy"; query "memcpy"; add "abort"; remove "abort"; query "abort"; query "memcpy"]%string in
  (run_all (run_operation (fun _ => 7)) ops []).1 =
    [Ok true; Ok true; Ok true; Err database_exception; Ok true; Ok false; Ok true].
Proof. by vm_compute. Qed.
