(* ===== verification/BlockLog.v ===== *)
(** * The block log ([block_log.hpp], [block_log.cpp], [genesis_state.hpp])

    The irreversible blocks in a file, each followed by its position, behind a
    header that tells the version, the number of the first block and either the
    genesis state or the chain id; and an index file with the positions alone.
    This file holds the definitions: the two files as bytes with an offset, the
    operations of [block_log], the backward scan that rebuilds the index with
    its two buffers, the repair of a damaged log and the removal of old blocks.
    [BlockLogFacts.v], [BlockLogIndex.v] and [BlockLogRepair.v] have the
    theorems.

    A file behaves as a file of C's stdio, to which the streams of library fc
    hand over: positions are bytes from the start, a short read is an error, a
    write past the end fills the gap.  Writes succeed.  Packing is the class
    [log_codec]: a decoder takes the bytes from the current position on and
    gives the value with the bytes it left.  Integers are little-endian. *)

From S2P Require Import Prelude Merkle Authority BlockHeader BlockHeaderState Transaction ApplyContext PushTransaction ChainConfig Block.
#[local] Open Scope Z_scope.

(** ** Bytes and files *)
Fixpoint le_bytes (n : nat) (x : Z) : list Z :=
  match n with O => [] | S n => x mod 256 :: le_bytes n (x / 256) end.
Fixpoint le_value (bs : list Z) : Z :=
  match bs with [] => 0 | b :: bs => b + 256 * le_value bs end.

Definition size (bs : list Z) : Z := Z.of_nat (length bs).
Definition slice (pos n : Z) (bs : list Z) : list Z := take (Z.to_nat n) (drop (Z.to_nat pos) bs).

Record file : Type := mk_file { contents : list Z; offset : Z }.

Definition fseek (pos : Z) : M file unit :=
  massert (0 <=? pos) std_runtime_error;;
  modify (fun f => mk_file (contents f) pos).
Definition fseek_end (off : Z) : M file unit := f ← get; fseek (size (contents f) + off).
Definition ftell : M file Z := gets offset.
Definition fread (n : Z) : M file (list Z) :=
  f ← get;
  massert (offset f + n <=? size (contents f)) std_runtime_error;;
  fseek (offset f + n);;
  mret (slice (offset f) n (contents f)).
Definition fwrite (bs : list Z) : M file unit :=
  modify (fun f =>
    let pos := Z.to_nat (offset f) in
    let c := contents f in
    mk_file (take pos c ++ replicate (pos - length c) 0 ++ bs ++ drop (pos + length bs) c) (offset f + size bs)).
Definition funpack {A} (unpack : list Z -> res (A * list Z)) : M file A :=
  f ← get;
  '(x, rest) ← lift (unpack (drop (Z.to_nat (offset f)) (contents f)));
  fseek (size (contents f) - size rest);;
  mret x.
Definition fread_u32 : M file Z := bs ← fread 4; mret (le_value bs).
Definition fread_u64 : M file Z := bs ← fread 8; mret (le_value bs).

(** ** Constants *)
Definition npos : Z := UINT64_MAX.
Definition min_supported_version : Z := 1.
Definition max_supported_version : Z := 3.
Definition is_supported_version (v : Z) : bool := (min_supported_version <=? v) && (v <=? max_supported_version).
Definition contains_genesis_state (version first_block_num : Z) : bool := (version <=? 2) || (first_block_num =? 1).
Definition contains_chain_id (version first_block_num : Z) : bool := (version >=? 3) && (first_block_num >? 1).
Definition blknum_offset : Z := 14.

(** The sizes of the two buffers, in bytes and in positions. *)
Definition iterator_buf_len : Z := 2 ^ 24.
Definition writer_max_buffer_length : Z := 2 ^ 19.

Record genesis_state (K : Type) : Type := mk_genesis {
  genesis_configuration : chain_config;
  initial_timestamp : Z;
  initial_key : K }.
Arguments mk_genesis {K}.

Class log_codec (Sig : Type) {C : crypto} : Type := {
  pack_block : signed_block (Sig := Sig) -> list Z;
  unpack_block : list Z -> res (signed_block (Sig := Sig) * list Z);
  unpack_block_header : list Z -> res (block_header * list Z);
  pack_genesis : genesis_state public_key -> list Z;
  unpack_genesis : list Z -> res (genesis_state public_key * list Z);
  write_chain_id : digest_type -> list Z;
  read_chain_id : list Z -> res (digest_type * list Z) }.

(** Packing and unpacking for the blocks of a set, those whose fields have
    their widths; a packed block starts with its header, which holds the id of
    the previous block at a fixed place. *)
Class log_codec_laws {Sig : Type} {C : crypto} (L : log_codec Sig) (packable : signed_block (Sig := Sig) -> Prop) : Prop := {
  unpack_pack_block b rest : packable b -> unpack_block (pack_block b ++ rest) = Ok (b, rest);
  unpack_pack_header b : packable b -> exists h t, pack_block b = h ++ t /\ forall rest, unpack_block_header (h ++ rest) = Ok (sh_header (sb_header b), rest);
  previous_in_block b : packable b -> blknum_offset + 4 <= size (pack_block b)
    /\ le_value (slice blknum_offset 4 (pack_block b)) = u32 (_hash0 (previous (sh_header (sb_header b))));
  unpack_pack_genesis g rest : unpack_genesis (pack_genesis g ++ rest) = Ok (g, rest);
  read_write_chain_id d rest : read_chain_id (write_chain_id d ++ rest) = Ok (d, rest) }.

Section BlockLog.
Context {Sig : Type} {C : crypto} {T : trx_codec Sig public_key} {L : log_codec Sig}.
Abbreviation block := (signed_block (Sig := Sig)).
Definition sb_num (b : block) : Z := block_num (sh_header (sb_header b)).
Definition sb_id (b : block) : digest_type := header_id (sh_header (sb_header b)).

Definition compute_chain_id (g : genesis_state public_key) : digest_type := hash_bytes (pack_genesis g).

(** ** [reverse_iterator]

    Walks the block file [data] backwards over the positions behind the blocks.
    The buffer holds the bytes of the file from [_start] to [_end]; a read
    outside of them would see what the buffer held before. *)
Record reverse_iterator : Type := mk_iterator {
  ri_version : Z;
  ri_first_block_num : Z;
  ri_last_block_num : Z;
  _blocks_found : Z;
  _blocks_expected : Z;
  _current_position_in_file : Z;
  _end_of_buffer_position : Z;
  _start_of_buffer_position : Z;
  ri_buffer : list Z }.

Definition ri_move pos it := mk_iterator (ri_version it) (ri_first_block_num it) (ri_last_block_num it) (_blocks_found it) (_blocks_expected it)
  pos (_end_of_buffer_position it) (_start_of_buffer_position it) (ri_buffer it).
Definition ri_set_found n it := mk_iterator (ri_version it) (ri_first_block_num it) (ri_last_block_num it) n (_blocks_expected it)
  (_current_position_in_file it) (_end_of_buffer_position it) (_start_of_buffer_position it) (ri_buffer it).
Definition ri_set_expected last n it := mk_iterator (ri_version it) (ri_first_block_num it) last (_blocks_found it) n
  (_current_position_in_file it) (_end_of_buffer_position it) (_start_of_buffer_position it) (ri_buffer it).

Section Scan.
Context (buf_len : Z) (data : list Z).

Definition update_buffer (it : reverse_iterator) : res reverse_iterator :=
  eos_assert (negb (_current_position_in_file it =? npos)) block_log_exception;;
  let end_ := u64 (_current_position_in_file it + 8) in
  let start := if end_ <? buf_len then 0 else end_ - buf_len in
  eos_assert ((0 <? end_ - start) && (end_ <=? size data)) block_log_exception;;
  Ok (mk_iterator (ri_version it) (ri_first_block_num it) (ri_last_block_num it) (_blocks_found it) (_blocks_expected it)
        (_current_position_in_file it) end_ start (slice start (end_ - start) data)).

(** [n] bytes of the buffer at [index]. *)
Definition buffered (it : reverse_iterator) (index n : Z) : res Z :=
  if (0 <=? index) && (index + n <=? size (ri_buffer it)) then Ok (le_value (slice index n (ri_buffer it))) else Err undefined_behaviour.

(** The member [open]; the value is the number of blocks it expects. *)
Definition iterator_open : res (Z * reverse_iterator) :=
  eos_assert (4 <=? size data) block_log_exception;;
  let version := le_value (slice 0 4 data) in
  eos_assert (is_supported_version version) block_log_unsupported_version;;
  first ← (if version =? 1 then Ok 1
           else eos_assert (8 <=? size data) block_log_exception;; Ok (le_value (slice 4 4 data)));
  let it := mk_iterator version first 0 0 0 (u64 (size data - 8)) npos 0 [] in
  it ← update_buffer it;
  block_pos ← buffered it (u32 (_current_position_in_file it - _start_of_buffer_position it)) 8;
  if block_pos =? npos then Ok (0, it)
  else
    bnum ← (if block_pos >=? _start_of_buffer_position it
            then buffered it (u32 (block_pos - _start_of_buffer_position it) + blknum_offset) 4
            else eos_assert (block_pos + blknum_offset + 4 <=? size data) block_log_exception;;
                 Ok (le_value (slice (block_pos + blknum_offset) 4 data)));
    let last := u32 (endian_reverse_u32 bnum + 1) in
    let expected := u32 (last - first + 1) in
    Ok (expected, ri_set_expected last expected it).

(** [previous] gives a position, or [npos] behind the first block. *)
Definition iterator_previous (it : reverse_iterator) : res (Z * reverse_iterator) :=
  eos_assert (negb (_current_position_in_file it =? npos)) block_log_exception;;
  if (ri_version it =? 1) && (_blocks_found it =? _blocks_expected it) then Ok (npos, ri_move npos it)
  else
    it ← (if _start_of_buffer_position it >? _current_position_in_file it then update_buffer it else Ok it);
    block_location_in_file ← buffered it (_current_position_in_file it - _start_of_buffer_position it) 8;
    let it := ri_set_found (u32 (_blocks_found it + 1)) it in
    if block_location_in_file =? npos then
      eos_assert (negb (_blocks_found it =? _blocks_expected it)) block_log_exception;;
      Ok (block_location_in_file, ri_move npos it)
    else
      let previous_position := _current_position_in_file it in
      let it := ri_move (u64 (block_location_in_file - 8)) it in
      eos_assert (_current_position_in_file it <? previous_position) block_log_exception;;
      Ok (block_location_in_file, it).
End Scan.

(** ** [index_writer]

    Writes the positions from the last to the first through a buffer, which is
    flushed when it is full. *)
Definition buffer_location_to_file_location (buffer_location : Z) : Z := u32 (Z.shiftl (u32 buffer_location) 3).
Definition file_location_to_buffer_location (file_location : Z) : Z := Z.shiftr (u32 file_location) 3.

Record index_writer : Type := mk_writer {
  iw_file : option file;
  _writer_blocks_expected : Z;
  _block_written : Z;
  iw_buffer : gmap Z Z;
  _current_position : Z;
  iw_start : Z;
  iw_end : Z }.

Definition new_index_writer (blocks_expected : Z) : index_writer :=
  mk_writer None blocks_expected blocks_expected ∅ 0 0 0.

Section Write.
Context (max_len : Z).

Definition update_buffer_position (w : index_writer) : index_writer :=
  let end_ := _current_position w + 1 in
  let start := if u64 end_ <? max_len then 0 else end_ - max_len in
  mk_writer (iw_file w) (_writer_blocks_expected w) (_block_written w) (iw_buffer w) (_current_position w) start end_.

(** The first [n] positions of the buffer as they are written to the file. *)
Definition buffer_bytes (buffer : gmap Z Z) (n : Z) : list Z :=
  concat (map (fun i => le_bytes 8 (default 0 (buffer !! i))) (seqZ 0 n)).

Definition shift_buffer (w : index_writer) : res (bool * index_writer) :=
  if _current_position w >=? iw_start w then Ok (false, w)
  else
    let file_location_start := buffer_location_to_file_location (iw_start w) in
    let buffer_size := iw_end w - iw_start w in
    let file_size := buffer_location_to_file_location buffer_size in
    eos_assert (negb (file_size =? 0)) block_log_exception;;
    match iw_file w with
    | None => Err undefined_behaviour
    | Some f =>
        let f := (fwrite (buffer_bytes (iw_buffer w) (file_size / 8)) (mk_file (contents f) file_location_start)).2 in
        Ok (true, update_buffer_position
                    (mk_writer (Some f) (_writer_blocks_expected w) (_block_written w) (iw_buffer w) (_current_position w) (iw_start w) (iw_end w)))
    end.

Definition prepare_buffer (w : index_writer) : res index_writer :=
  let w := match iw_file w with
           | Some _ => w
           | None =>
               let full_file_size := buffer_location_to_file_location (_writer_blocks_expected w) in
               let block_end := file_location_to_buffer_location full_file_size in
               update_buffer_position
                 (mk_writer (Some (mk_file [] full_file_size)) (_writer_blocks_expected w) (_block_written w) (iw_buffer w)
                    (u32 (block_end - 1)) (iw_start w) (iw_end w))
           end in
  '(_, w) ← shift_buffer w;
  Ok w.

Definition writer_write (pos : Z) (w : index_writer) : res index_writer :=
  w ← prepare_buffer w;
  let i := _current_position w - iw_start w in
  if (0 <=? i) && (i <? max_len) then
    Ok (mk_writer (iw_file w) (_writer_blocks_expected w) (u32 (_block_written w - 1)) (<[i := pos]> (iw_buffer w))
          (_current_position w - 1) (iw_start w) (iw_end w))
  else Err undefined_behaviour.

Definition writer_complete (w : index_writer) : res index_writer :=
  '(shifted, w) ← shift_buffer w;
  eos_assert shifted block_log_exception;;
  eos_assert (_current_position w =? -1) block_log_exception;;
  Ok w.
End Write.

(** ** [construct_index]

    Every step moves the iterator to a smaller position, so the number of bytes
    bounds the number of steps. *)
Section Construct.
Context (buf_len max_len : Z).

Fixpoint copy_positions (fuel : nat) (data : list Z) (it : reverse_iterator) (w : index_writer) : res index_writer :=
  match fuel with
  | O => Err out_of_fuel
  | S fuel =>
      '(position, it) ← iterator_previous buf_len data it;
      if position =? npos then Ok w
      else w ← writer_write max_len position w; copy_positions fuel data it w
  end.

(** From the bytes of the block file, the bytes of the index. *)
Definition index_of_log (data : list Z) : res (list Z) :=
  '(num_blocks, it) ← iterator_open buf_len data;
  if num_blocks =? 0 then Ok []
  else
    w ← copy_positions (S (length data)) data it (new_index_writer num_blocks);
    w ← writer_complete max_len w;
    Ok (match iw_file w with Some f => contents f | None => [] end).
End Construct.

(** ** The state of a block log *)
Record block_log : Type := mk_block_log {
  block_file : file;
  index_file : file;
  open_files : bool;
  log_head : option block;
  log_head_id : digest_type;
  log_version : Z;
  log_first_block_num : Z;
  genesis_written_to_block_log : bool }.

Abbreviation BM := (M block_log).

Definition set_block_file f (l : block_log) : block_log :=
  mk_block_log f (index_file l) (open_files l) (log_head l) (log_head_id l) (log_version l) (log_first_block_num l) (genesis_written_to_block_log l).
Definition set_index_file f (l : block_log) : block_log :=
  mk_block_log (block_file l) f (open_files l) (log_head l) (log_head_id l) (log_version l) (log_first_block_num l) (genesis_written_to_block_log l).
Definition set_open b (l : block_log) : block_log :=
  mk_block_log (block_file l) (index_file l) b (log_head l) (log_head_id l) (log_version l) (log_first_block_num l) (genesis_written_to_block_log l).
Definition set_log_head b id (l : block_log) : block_log :=
  mk_block_log (block_file l) (index_file l) (open_files l) b id (log_version l) (log_first_block_num l) (genesis_written_to_block_log l).
Definition set_log_version v (l : block_log) : block_log :=
  mk_block_log (block_file l) (index_file l) (open_files l) (log_head l) (log_head_id l) v (log_first_block_num l) (genesis_written_to_block_log l).
Definition set_log_first n (l : block_log) : block_log :=
  mk_block_log (block_file l) (index_file l) (open_files l) (log_head l) (log_head_id l) (log_version l) n (genesis_written_to_block_log l).
Definition set_genesis_written b (l : block_log) : block_log :=
  mk_block_log (block_file l) (index_file l) (open_files l) (log_head l) (log_head_id l) (log_version l) (log_first_block_num l) b.

Definition on_block {A} : M file A -> BM A := focus block_file set_block_file.
Definition on_index {A} : M file A -> BM A := focus index_file set_index_file.

Definition log_close : BM unit := modify (set_open false).
Definition log_reopen : BM unit :=
  log_close;;
  modify (fun l => set_open true (set_index_file (mk_file (contents (index_file l)) 0)
                                    (set_block_file (mk_file (contents (block_file l)) 0) l))).
Definition check_open_files : BM unit := l ← get; if open_files l then mret tt else log_reopen.
Definition remove_block_file : BM unit := modify (set_block_file (mk_file [] 0)).
Definition remove_index_file : BM unit := modify (set_index_file (mk_file [] 0)).

(** ** Reading *)
Definition read_block (pos : Z) : BM block :=
  check_open_files;;
  on_block (fseek (s64 pos));;
  on_block (funpack unpack_block).

Definition read_block_header (pos : Z) : BM block_header :=
  check_open_files;;
  on_block (fseek (s64 pos));;
  on_block (funpack unpack_block_header).

Definition get_block_pos (n : Z) : BM Z :=
  check_open_files;;
  l ← get;
  if negb (bool_decide (is_Some (log_head l)) && (n <=? num_from_id (log_head_id l)) && (n >=? log_first_block_num l)) then mret npos
  else
    on_index (fseek (8 * u32 (n - log_first_block_num l)));;
    on_index fread_u64.

Definition read_head : BM (option block) :=
  check_open_files;;
  on_block (fseek_end 0);;
  p ← on_block ftell;
  if p <=? 8 then mret None
  else
    on_block (fseek_end (-8));;
    pos ← on_block fread_u64;
    if negb (pos =? npos) then Some <$> read_block pos else mret None.

Section Rethrow.
Context (wrap_std_exception : exn -> exn).

(** [FC_LOG_AND_RETHROW] *)
Definition log_and_rethrow {A} (m : BM A) : BM A := fun l =>
  match m l with
  | (Err ex, l') => (Err (if is_std_exception ex then wrap_std_exception ex else ex), l')
  | r => r
  end.

Definition read_block_by_num (n : Z) : BM (option block) :=
  log_and_rethrow (
    pos ← get_block_pos n;
    if negb (pos =? npos) then
      b ← read_block pos;
      massert (sb_num b =? n) reversible_blocks_exception;;
      mret (Some b)
    else mret None).

Definition read_block_id_by_num (n : Z) : BM digest_type :=
  log_and_rethrow (
    pos ← get_block_pos n;
    if negb (pos =? npos) then
      bh ← read_block_header pos;
      massert (block_num bh =? n) reversible_blocks_exception;;
      mret (header_id bh)
    else mret zero_digest).

Definition read_block_by_id (id : digest_type) : BM (option block) := read_block_by_num (num_from_id id).

(** ** Appending *)
Definition log_append (b : block) : BM Z :=
  log_and_rethrow (
    l ← get;
    massert (genesis_written_to_block_log l) block_log_append_fail;;
    check_open_files;;
    on_block (fseek_end 0);;
    on_index (fseek_end 0);;
    pos ← on_block ftell;
    index_pos ← on_index ftell;
    massert (index_pos =? 8 * u32 (sb_num b - log_first_block_num l)) block_log_append_fail;;
    on_block (fwrite (pack_block b));;
    on_block (fwrite (le_bytes 8 pos));;
    on_index (fwrite (le_bytes 8 pos));;
    modify (set_log_head (Some b) (sb_id b));;
    mret pos).

(** ** Starting a new log *)
Definition reset_log (t : list Z) (first_block : option block) (first_bnum : Z) : BM unit :=
  log_close;;
  remove_block_file;; remove_index_file;;
  log_reopen;;
  modify (fun l => set_log_first first_bnum (set_log_version 0 l));;
  on_block (fseek_end 0);;
  on_block (fwrite (le_bytes 4 0));;
  on_block (fwrite (le_bytes 4 first_bnum));;
  on_block (fwrite t);;
  modify (set_genesis_written true);;
  on_block (fwrite (le_bytes 8 npos));;
  match first_block with
  | Some b => log_append b;; mret tt
  | None => modify (set_log_head None zero_digest)
  end;;
  pos ← on_block ftell;
  modify (set_log_version max_supported_version);;
  on_block (fseek 0);;
  on_block (fwrite (le_bytes 4 max_supported_version));;
  on_block (fseek pos).

Definition reset_to_genesis (gs : genesis_state public_key) (first_block : option block) : BM unit :=
  reset_log (pack_genesis gs) first_block 1.
Definition reset_to_chain_id (chain_id : digest_type) (first_block_num : Z) : BM unit :=
  massert (first_block_num >? 1) block_log_exception;;
  reset_log (write_chain_id chain_id) None first_block_num.

(** ** Opening *)
Definition log_construct_index : BM unit :=
  log_close;;
  remove_index_file;;
  log_reopen;; log_close;;
  l ← get;
  index ← lift (index_of_log iterator_buf_len writer_max_buffer_length (contents (block_file l)));
  modify (set_index_file (mk_file index 0));;
  log_reopen.

Definition log_open : BM unit :=
  log_close;;
  log_reopen;;
  l ← get;
  let log_size := size (contents (block_file l)) in
  let index_size := size (contents (index_file l)) in
  if negb (log_size =? 0) then
    on_block (fseek 0);;
    version ← on_block fread_u32;
    modify (set_log_version version);;
    massert (version >? 0) block_log_exception;;
    massert (is_supported_version version) block_log_unsupported_version;;
    modify (set_genesis_written true);;
    (if version >? 1 then
       first ← on_block fread_u32;
       modify (set_log_first first);;
       massert (first >? 0) block_log_exception
     else modify (set_log_first 1));;
    head ← read_head;
    modify (set_log_head head (match head with Some b => sb_id b | None => zero_digest end));;
    if negb (index_size =? 0) then
      on_block (fseek_end (-8));;
      block_pos ← on_block fread_u64;
      on_index (fseek_end (-8));;
      index_pos ← on_index fread_u64;
      if block_pos <? index_pos then log_construct_index
      else if block_pos >? index_pos then log_construct_index
      else mret tt
    else log_construct_index
  else if negb (index_size =? 0) then log_close;; remove_index_file;; log_reopen
  else mret tt.
End Rethrow.
End BlockLog.
