(* ===== verification/BlockLogFacts.v ===== *)
(** * The block log as a list of blocks

    What the two files hold when the log stores a list of blocks, what the
    operations of [BlockLog.v] do to them, and that appending and reading refine
    the list which [BlockBuilding.v] and [ForkSwitch.v] use as block log. *)

From S2P Require Import Prelude Merkle Authority BlockHeader BlockHeaderState Transaction ApplyContext PushTransaction ChainConfig Block BlockLog.
#[local] Open Scope Z_scope.

(** ** Bytes *)
Lemma size_app a b : size (a ++ b) = size a + size b.
Proof. unfold size. rewrite length_app. lia. Qed.
Lemma size_nonneg a : 0 <= size a.
Proof. unfold size. lia. Qed.
Lemma size_cons x a : size (x :: a) = 1 + size a.
Proof. unfold size. cbn [length]. lia. Qed.
Lemma length_le_bytes n x : length (le_bytes n x) = n.
Proof. revert x. induction n as [|n IH]; intros x; cbn; [done|]. by rewrite IH. Qed.
Lemma size_le_bytes n x : size (le_bytes n x) = Z.of_nat n.
Proof. unfold size. by rewrite length_le_bytes. Qed.

Lemma le_value_le_bytes n x : le_value (le_bytes n x) = x mod 256 ^ Z.of_nat n.
Proof.
  revert x. induction n as [|n IH]; intros x; cbn [le_bytes le_value]; [cbn; by rewrite Z.mod_1_r|].
  rewrite IH, Nat2Z.inj_succ, Z.pow_succ_r by lia. rewrite Z.rem_mul_r by lia. lia.
Qed.
Lemma le_u64 x : is_u64 x -> le_value (le_bytes 8 x) = x.
Proof. intros. rewrite le_value_le_bytes. by apply Z.mod_small. Qed.
Lemma le_u32 x : is_u32 x -> le_value (le_bytes 4 x) = x.
Proof. intros. rewrite le_value_le_bytes. by apply Z.mod_small. Qed.

Lemma slice_app a b c pos n : pos = size a -> n = size b -> slice pos n (a ++ b ++ c) = b.
Proof.
  intros -> ->. unfold slice, size. rewrite !Nat2Z.id, drop_app_length. apply take_app_length.
Qed.
Lemma drop_size a b pos : pos = size a -> drop (Z.to_nat pos) (a ++ b) = b.
Proof. intros ->. unfold size. rewrite Nat2Z.id. apply drop_app_length. Qed.

(** ** Files *)
Lemma bind_run {S A B} (m : M S A) (f : A -> M S B) s a s' r : m s = (Ok a, s') -> f a s' = r -> (m ≫= f) s = r.
Proof. unfold mbind, M_bind. by intros -> <-. Qed.

Lemma fseek_run pos f : 0 <= pos -> fseek pos f = (Ok tt, mk_file (contents f) pos).
Proof. intros. unfold fseek, massert, mbind, M_bind. by rewrite (proj2 (Z.leb_le 0 pos)). Qed.

Lemma fread_run n f a b c : contents f = a ++ b ++ c -> offset f = size a -> n = size b ->
  fread n f = (Ok b, mk_file (contents f) (offset f + n)).
Proof.
  intros Hc Ho Hn. unfold fread, mbind, M_bind, get, massert.
  pose proof (size_nonneg a). pose proof (size_nonneg b). pose proof (size_nonneg c).
  rewrite (proj2 (Z.leb_le _ _)) by (rewrite Hc, !size_app; lia). cbn [eos_assert].
  rewrite fseek_run by lia. unfold mret, M_ret. by rewrite Hc, (slice_app a b c).
Qed.

Lemma fread_u64_run f a x c : contents f = a ++ le_bytes 8 x ++ c -> offset f = size a -> is_u64 x ->
  fread_u64 f = (Ok x, mk_file (contents f) (offset f + 8)).
Proof.
  intros Hc Ho Hx. eapply bind_run; [eapply fread_run; [exact Hc|exact Ho|by rewrite size_le_bytes]|]. unfold mret, M_ret. by rewrite le_u64.
Qed.
Lemma fread_u32_run f a x c : contents f = a ++ le_bytes 4 x ++ c -> offset f = size a -> is_u32 x ->
  fread_u32 f = (Ok x, mk_file (contents f) (offset f + 4)).
Proof.
  intros Hc Ho Hx. eapply bind_run; [eapply fread_run; [exact Hc|exact Ho|by rewrite size_le_bytes]|]. unfold mret, M_ret. by rewrite le_u32.
Qed.

Lemma fwrite_end bs f : offset f = size (contents f) -> fwrite bs f = (Ok tt, mk_file (contents f ++ bs) (offset f + size bs)).
Proof.
  intros Ho. unfold fwrite, modify. cbv zeta. assert (Z.to_nat (offset f) = length (contents f)) as -> by (unfold size in Ho; lia).
  rewrite firstn_all, Nat.sub_diag. cbn [replicate app]. rewrite drop_ge by lia. by rewrite app_nil_r.
Qed.

Lemma funpack_run {A} (unpack : list Z -> res (A * list Z)) f a b c x :
  contents f = a ++ b ++ c -> offset f = size a -> unpack (b ++ c) = Ok (x, c) ->
  funpack unpack f = (Ok x, mk_file (contents f) (size a + size b)).
Proof.
  intros Hc Ho Hu. unfold funpack, mbind, M_bind, get, lift.
  rewrite Hc, (drop_size a) by done. rewrite Hu. rewrite fseek_run by (rewrite !size_app; pose proof (size_nonneg a); pose proof (size_nonneg b); lia).
  unfold mret, M_ret. rewrite Hc, !size_app. do 3 f_equal. lia.
Qed.

Section Image.
Context {Sig : Type} {C : crypto} {T : trx_codec Sig public_key} {L : log_codec Sig}.
Abbreviation block := (signed_block (Sig := Sig)).
Abbreviation block_log := (block_log (Sig := Sig)).
Implicit Types (b : block) (bs : list block) (l : block_log).

(** ** The image of a list of blocks *)
Fixpoint entries (pos : Z) bs : list Z :=
  match bs with
  | [] => []
  | b :: bs => (pack_block b ++ le_bytes 8 pos) ++ entries (pos + size (pack_block b) + 8) bs
  end.
Fixpoint positions (pos : Z) bs : list Z :=
  match bs with [] => [] | b :: bs => pos :: positions (pos + size (pack_block b) + 8) bs end.
Definition index_image (ps : list Z) : list Z := concat (map (le_bytes 8) ps).

Lemma entries_app pos bs bs' : entries pos (bs ++ bs') = entries pos bs ++ entries (pos + size (entries pos bs)) bs'.
Proof.
  revert pos. induction bs as [|b bs IH]; intros pos; cbn [entries app]; [by rewrite Z.add_0_r|].
  rewrite IH, <- !app_assoc, !size_app, size_le_bytes. do 4 f_equal. lia.
Qed.
Lemma positions_app pos bs bs' : positions pos (bs ++ bs') = positions pos bs ++ positions (pos + size (entries pos bs)) bs'.
Proof.
  revert pos. induction bs as [|b bs IH]; intros pos; cbn [positions entries app]; [by rewrite Z.add_0_r|].
  rewrite IH, !size_app, size_le_bytes. do 3 f_equal. lia.
Qed.
Lemma length_positions pos bs : length (positions pos bs) = length bs.
Proof. revert pos. induction bs as [|b bs IH]; intros pos; cbn; [done|]. by rewrite IH. Qed.

Lemma index_image_app ps ps' : index_image (ps ++ ps') = index_image ps ++ index_image ps'.
Proof. unfold index_image. by rewrite map_app, concat_app. Qed.
Lemma index_image_one p : index_image [p] = le_bytes 8 p.
Proof. apply app_nil_r. Qed.
Lemma size_index_image ps : size (index_image ps) = 8 * Z.of_nat (length ps).
Proof.
  unfold index_image. induction ps as [|p ps IH]; [done|]. cbn [map concat length]. rewrite size_app, size_le_bytes. lia.
Qed.

(** The [i]-th block of the list in the two files. *)
Lemma entry_at hdr bs i b : bs !! i = Some b -> exists a c,
  hdr ++ entries (size hdr) bs = a ++ pack_block b ++ le_bytes 8 (size a) ++ c
  /\ (exists x y, positions (size hdr) bs = x ++ size a :: y /\ length x = i)
  /\ (S i = length bs -> c = []).
Proof.
  intros Hi. pose proof (take_drop_middle bs i b Hi) as E. exists (hdr ++ entries (size hdr) (take i bs)).
  exists (entries (size hdr + size (entries (size hdr) (take i bs)) + size (pack_block b) + 8) (drop (S i) bs)).
  replace (entries (size hdr) bs) with (entries (size hdr) (take i bs ++ b :: drop (S i) bs)) by by rewrite E.
  rewrite entries_app. cbn [entries]. rewrite size_app, <- !app_assoc. split; [done|]. split.
  - replace (positions (size hdr) bs) with (positions (size hdr) (take i bs ++ b :: drop (S i) bs)) by by rewrite E.
    rewrite positions_app. cbn [positions]. eexists _, _. split; [done|].
    rewrite length_positions, length_take. apply lookup_lt_Some in Hi. lia.
  - intros Hl. by rewrite drop_ge by lia.
Qed.

Lemma index_at ps x p y : ps = x ++ p :: y -> exists a c, index_image ps = a ++ le_bytes 8 p ++ c /\ size a = 8 * Z.of_nat (length x).
Proof.
  intros ->. rewrite index_image_app. exists (index_image x), (index_image y). split; [done|]. apply size_index_image.
Qed.

Definition id_or_zero (ob : option block) : digest_type := match ob with Some b => sb_id b | None => zero_digest end.

(** ** A well-formed log *)

(** The header of a file of the three versions. *)
Inductive log_header : Z -> Z -> list Z -> Prop :=
| header_v1 gs : 4 <= size (pack_genesis gs) -> log_header 1 1 (le_bytes 4 1 ++ pack_genesis gs)
| header_genesis v first gs : 2 <= v <= 3 -> is_u32 first -> 1 <= first -> contains_genesis_state v first = true ->
    log_header v first (le_bytes 4 v ++ le_bytes 4 first ++ pack_genesis gs ++ le_bytes 8 npos)
| header_chain_id v first id : 2 <= v <= 3 -> is_u32 first -> 1 <= first -> contains_genesis_state v first = false ->
    log_header v first (le_bytes 4 v ++ le_bytes 4 first ++ write_chain_id id ++ le_bytes 8 npos).

Context (packable : block -> Prop).

(** What is asked of the blocks: consecutive numbers, and positions that a
    [long] holds.  A log of version 1 has no mark of an empty log. *)
Record blocks_ok (version first : Z) (hdr : list Z) bs : Prop := {
  ok_packable : Forall packable bs;
  ok_numbers : forall i b, bs !! i = Some b -> sb_num b = first + Z.of_nat i;
  ok_room : size (hdr ++ entries (size hdr) bs) < 2 ^ 63;
  ok_version : version = 1 -> bs <> [] }.

Record log_ok (first : Z) (hdr : list Z) bs l : Prop := {
  ok_block : contents (block_file l) = hdr ++ entries (size hdr) bs;
  ok_index : contents (index_file l) = index_image (positions (size hdr) bs);
  ok_open : open_files l = true;
  ok_head : log_head l = last bs;
  ok_head_id : log_head_id l = id_or_zero (last bs);
  ok_first : log_first_block_num l = first;
  ok_genesis : genesis_written_to_block_log l = true }.

Lemma check_open_run l : open_files l = true -> check_open_files l = (Ok tt, l).
Proof. intros Ho. unfold check_open_files, mbind, M_bind, get. by rewrite Ho. Qed.

Lemma on_block_run {A} (m : M file A) l r f : m (block_file l) = (r, f) -> on_block m l = (r, set_block_file f l).
Proof. unfold on_block, focus. by intros ->. Qed.
Lemma on_index_run {A} (m : M file A) l r f : m (index_file l) = (r, f) -> on_index m l = (r, set_index_file f l).
Proof. unfold on_index, focus. by intros ->. Qed.

(** Moving in the files changes nothing. *)
Lemma log_ok_block first hdr bs l f : log_ok first hdr bs l -> contents f = contents (block_file l) -> log_ok first hdr bs (set_block_file f l).
Proof. intros [] Hf. split; cbn; [by rewrite Hf|done..]. Qed.
Lemma log_ok_index first hdr bs l f : log_ok first hdr bs l -> contents f = contents (index_file l) -> log_ok first hdr bs (set_index_file f l).
Proof. intros [] Hf. split; cbn; [done|by rewrite Hf|done..]. Qed.
End Image.

Create HintDb blocklog.
#[export] Hint Resolve log_ok_block log_ok_index : blocklog.

(** ** Reading and appending *)
Section Operations.
Context {Sig : Type} {C : crypto} {T : trx_codec Sig public_key} {L : log_codec Sig}.
Context (packable : signed_block (Sig := Sig) -> Prop) `{!crypto_laws C} `{!log_codec_laws L packable}.
Abbreviation block := (signed_block (Sig := Sig)).
Implicit Types (b : block) (bs : list block) (l : block_log (Sig := Sig)).

(** The block with number [n] of a log that starts at [first]. *)
Definition block_at (first : Z) bs (n : Z) : option block := if n <? first then None else bs !! Z.to_nat (n - first).

Lemma sb_num_u32 b : is_u32 (sb_num b).
Proof. apply u32_range. Qed.
Lemma num_from_sb_id b : num_from_id (sb_id b) = sb_num b.
Proof. apply num_from_header_id. Qed.

Lemma last_number version first hdr bs b : blocks_ok packable version first hdr bs -> last bs = Some b ->
  sb_num b = first + Z.of_nat (length bs) - 1.
Proof.
  intros Hb Hl. rewrite last_lookup in Hl. rewrite (ok_numbers _ _ _ _ _ Hb _ _ Hl). apply lookup_lt_Some in Hl. lia.
Qed.

(** Seeking and unpacking. *)
Lemma unpack_at {A} (unpack : list Z -> res (A * list Z)) l a d c x : open_files l = true -> contents (block_file l) = a ++ d ++ c ->
  unpack (d ++ c) = Ok (x, c) -> size a < 2 ^ 63 ->
  exists f, contents f = contents (block_file l)
    /\ (check_open_files;; on_block (fseek (s64 (size a)));; on_block (funpack unpack)) l = (Ok x, set_block_file f l).
Proof.
  intros Ho Hc Hu Hs. pose proof (size_nonneg a). exists (mk_file (contents (block_file l)) (size a + size d)). split; [done|].
  eapply bind_run; [by apply check_open_run|]. eapply bind_run; [apply on_block_run, fseek_run; rewrite s64_id; unfold is_s64; lia|].
  erewrite on_block_run; [|eapply funpack_run; [exact Hc|apply s64_id; unfold is_s64; lia|exact Hu]]. done.
Qed.

Lemma read_block_at l a b c : open_files l = true -> packable b -> contents (block_file l) = a ++ pack_block b ++ c -> size a < 2 ^ 63 ->
  exists f, contents f = contents (block_file l) /\ read_block (size a) l = (Ok b, set_block_file f l).
Proof. intros Ho Hp Hc Hs. eapply unpack_at; [done|exact Hc| |done]. by apply unpack_pack_block. Qed.

Lemma read_block_header_at l a b c : open_files l = true -> packable b -> contents (block_file l) = a ++ pack_block b ++ c -> size a < 2 ^ 63 ->
  exists f, contents f = contents (block_file l) /\ read_block_header (size a) l = (Ok (sh_header (sb_header b)), set_block_file f l).
Proof.
  intros Ho Hp Hc Hs. destruct (unpack_pack_header b Hp) as (h & t & E & Hu). rewrite E, <- app_assoc in Hc.
  eapply unpack_at; [done|exact Hc|apply Hu|done].
Qed.

Section Log.
Context (version first : Z) (hdr : list Z) (first_u32 : is_u32 first).

Lemma block_at_range bs n b : is_u32 n -> block_at first bs n = Some b ->
  first <= n /\ bs !! Z.to_nat (n - first) = Some b /\ n <= first + Z.of_nat (length bs) - 1.
Proof.
  unfold block_at. intros Hn. destruct (n <? first) eqn:E; [done|]. btests. intros Hl. repeat split; [lia|done|]. apply lookup_lt_Some in Hl. lia.
Qed.

Lemma get_block_pos_run bs l n : log_ok first hdr bs l -> blocks_ok packable version first hdr bs -> is_u32 n ->
  match block_at first bs n with
  | Some b => exists a c l', hdr ++ entries (size hdr) bs = a ++ pack_block b ++ c
      /\ get_block_pos n l = (Ok (size a), l') /\ log_ok first hdr bs l'
  | None => get_block_pos n l = (Ok npos, l)
  end.
Proof.
  intros Hok Hb Hn. pose proof Hok as [Hc Hi Ho Hh Hid Hf _].
  assert (get_block_pos n l =
    (if negb (bool_decide (is_Some (last bs)) && (n <=? num_from_id (id_or_zero (last bs))) && (n >=? first)) then mret npos
     else on_index (fseek (8 * u32 (n - first)));; on_index fread_u64) l) as ->.
  { rewrite <- Hid, <- Hh, <- Hf. eapply bind_run; [by apply check_open_run|]. by eapply bind_run. }
  destruct (block_at first bs n) as [b|] eqn:E.
  - apply block_at_range in E as (Hge & Hl & Hle); [|done]. destruct (last bs) as [h|] eqn:El.
    2: { apply last_None in El. by subst. }
    rewrite bool_decide_true by eauto. cbn [id_or_zero]. rewrite num_from_sb_id, (last_number _ _ _ _ _ Hb El).
    rewrite (proj2 (Z.leb_le _ _)), (proj2 (Z.geb_le _ _)) by lia. cbn [andb negb].
    destruct (entry_at hdr bs _ b Hl) as (a & c & Hd & (x & y & Hp & Hx) & _). rewrite Hd. exists a, (le_bytes 8 (size a) ++ c).
    destruct (index_at _ _ _ _ Hp) as (u & v & Hiu & Hu). unfold is_u32 in *.
    assert (contents (index_file l) = u ++ le_bytes 8 (size a) ++ v) as Hiu' by by rewrite Hi.
    eexists. split; [done|]. pose proof (ok_room _ _ _ _ _ Hb) as Hr. rewrite Hd, size_app in Hr. pose proof (size_nonneg a). pose proof (size_nonneg (pack_block b ++ le_bytes 8 (size a) ++ c)).
    split.
    + eapply bind_run; [apply on_index_run, fseek_run; rewrite u32_id; unfold is_u32; lia|].
      erewrite on_index_run; [reflexivity|].
      eapply fread_u64_run; cbn [contents offset set_index_file index_file]; [exact Hiu'|rewrite u32_id; unfold is_u32; lia|unfold is_u64; lia].
    + eapply log_ok_index; [apply log_ok_index; [exact Hok|]|]; reflexivity.
  - destruct (last bs) as [h|] eqn:El; [|done].
    rewrite bool_decide_true by eauto. cbn [id_or_zero]. rewrite num_from_sb_id, (last_number _ _ _ _ _ Hb El).
    unfold block_at in E. destruct (n <? first) eqn:En; btests.
    + assert ((n >=? first) = false) as -> by (rewrite Z.geb_leb; apply Z.leb_gt; lia). by rewrite andb_false_r.
    + apply lookup_ge_None in E. rewrite (proj2 (Z.leb_gt _ _)) by lia. done.
Qed.

Lemma size_image_at a b c bs : hdr ++ entries (size hdr) bs = a ++ pack_block b ++ c -> blocks_ok packable version first hdr bs ->
  size a < 2 ^ 63 /\ (size a =? npos) = false.
Proof.
  intros Hd Hb. pose proof (ok_room _ _ _ _ _ Hb) as Hr. rewrite Hd, !size_app in Hr. pose proof (size_nonneg (pack_block b)).
  pose proof (size_nonneg c). split; [lia|]. apply Z.eqb_neq. unfold npos, UINT64_MAX. lia.
Qed.

Context (wrap_std_exception : exn -> exn).

Lemma log_and_rethrow_ok {A} (m : M (block_log (Sig := Sig)) A) l x l' : m l = (Ok x, l') -> log_and_rethrow wrap_std_exception m l = (Ok x, l').
Proof. unfold log_and_rethrow. by intros ->. Qed.

Lemma read_block_by_num_run bs l n : log_ok first hdr bs l -> blocks_ok packable version first hdr bs -> is_u32 n ->
  exists l', read_block_by_num wrap_std_exception n l = (Ok (block_at first bs n), l') /\ log_ok first hdr bs l'.
Proof.
  intros Hok Hb Hn. pose proof (get_block_pos_run bs l n Hok Hb Hn) as Hp. unfold read_block_by_num.
  destruct (block_at first bs n) as [b|] eqn:E.
  - destruct Hp as (a & c & l' & Hd & Hp & Hok'). destruct (size_image_at _ _ _ _ Hd Hb) as [Hs Hnp].
    apply block_at_range in E as (Hge & Hl & _); [|done]. pose proof (ok_packable _ _ _ _ _ Hb) as Hpk. rewrite Forall_lookup in Hpk.
    destruct (read_block_at l' a b c (ok_open _ _ _ _ Hok') (Hpk _ _ Hl)) as (f & Hf & Hrd); [by rewrite (ok_block _ _ _ _ Hok')|done|].
    eexists. split; [apply log_and_rethrow_ok|by apply log_ok_block; [exact Hok'|]].
    eapply bind_run; [exact Hp|]. rewrite Hnp. cbn [negb]. eapply bind_run; [exact Hrd|].
    unfold massert, mbind, M_bind. rewrite (ok_numbers _ _ _ _ _ Hb _ _ Hl), (proj2 (Z.eqb_eq _ _)) by lia. done.
  - exists l. split; [|done]. apply log_and_rethrow_ok. eapply bind_run; [exact Hp|]. by rewrite Z.eqb_refl.
Qed.

Lemma read_block_id_by_num_run bs l n : log_ok first hdr bs l -> blocks_ok packable version first hdr bs -> is_u32 n ->
  exists l', read_block_id_by_num wrap_std_exception n l = (Ok (id_or_zero (block_at first bs n)), l') /\ log_ok first hdr bs l'.
Proof.
  intros Hok Hb Hn. pose proof (get_block_pos_run bs l n Hok Hb Hn) as Hp. unfold read_block_id_by_num.
  destruct (block_at first bs n) as [b|] eqn:E.
  - destruct Hp as (a & c & l' & Hd & Hp & Hok'). destruct (size_image_at _ _ _ _ Hd Hb) as [Hs Hnp].
    apply block_at_range in E as (Hge & Hl & _); [|done]. pose proof (ok_packable _ _ _ _ _ Hb) as Hpk. rewrite Forall_lookup in Hpk.
    destruct (read_block_header_at l' a b c (ok_open _ _ _ _ Hok') (Hpk _ _ Hl)) as (f & Hf & Hrd); [by rewrite (ok_block _ _ _ _ Hok')|done|].
    eexists. split; [apply log_and_rethrow_ok|by apply log_ok_block; [exact Hok'|]].
    eapply bind_run; [exact Hp|]. rewrite Hnp. cbn [negb]. eapply bind_run; [exact Hrd|]. fold (sb_num b).
    unfold massert, mbind, M_bind. rewrite (ok_numbers _ _ _ _ _ Hb _ _ Hl), (proj2 (Z.eqb_eq _ _)) by lia. done.
  - exists l. split; [|done]. apply log_and_rethrow_ok. eapply bind_run; [exact Hp|]. by rewrite Z.eqb_refl.
Qed.

(** ** The head *)
Lemma header_totem : log_header version first hdr -> version <> 1 -> exists h, hdr = h ++ le_bytes 8 npos /\ 8 <= size h.
Proof.
  intros Hh Hv. destruct Hh as [|v f gs|v f id]; [done| |].
  - exists (le_bytes 4 v ++ le_bytes 4 f ++ pack_genesis gs). rewrite <- !app_assoc, !size_app, !size_le_bytes. split; [done|].
    pose proof (size_nonneg (pack_genesis gs)). lia.
  - exists (le_bytes 4 v ++ le_bytes 4 f ++ write_chain_id id). rewrite <- !app_assoc, !size_app, !size_le_bytes. split; [done|].
    pose proof (size_nonneg (write_chain_id id)). lia.
Qed.

(** The last eight bytes of the block file: the position of the last block, or
    the mark of an empty log. *)
Lemma log_tail bs : log_header version first hdr -> blocks_ok packable version first hdr bs ->
  exists u p, hdr ++ entries (size hdr) bs = u ++ le_bytes 8 p /\ 0 < size u /\ is_u64 p
    /\ p = default npos (last (positions (size hdr) bs))
    /\ match last bs with
       | Some b => (p =? npos) = false /\ p < 2 ^ 63 /\ exists a, u = a ++ pack_block b /\ p = size a
       | None => p = npos
       end.
Proof.
  intros Hh Hb. destruct (last bs) as [b|] eqn:El.
  - rewrite last_lookup in El. destruct (entry_at hdr bs _ b El) as (a & c & Hd & (x & y & Hps & Hx) & Hc).
    rewrite Hc in Hd by (apply lookup_lt_Some in El; lia). rewrite app_nil_r in Hd. rewrite Hd.
    destruct (size_image_at a b (le_bytes 8 (size a)) bs Hd Hb) as [Hs Hn].
    assert (packable b) as Hp by (pose proof (ok_packable _ _ _ _ _ Hb) as Hpk; rewrite Forall_lookup in Hpk; by eapply Hpk).
    destruct (previous_in_block b Hp) as [Hsz _]. unfold blknum_offset in Hsz. pose proof (size_nonneg a).
    exists (a ++ pack_block b), (size a). rewrite <- app_assoc, size_app. repeat split; [lia|lia|lia| |done|lia|by exists a].
    rewrite last_lookup, length_positions, Hps. rewrite lookup_app_r by lia. by replace (pred (length bs) - length x)%nat with 0%nat by lia.
  - apply last_None in El. subst bs. destruct header_totem as (h & -> & Hs); [done|intros Hv; by apply (ok_version _ _ _ _ _ Hb)|].
    exists h, npos. cbn [entries]. rewrite app_nil_r. unfold npos, UINT64_MAX. repeat split; lia.
Qed.

Lemma read_last8 f u p : contents f = u ++ le_bytes 8 p -> is_u64 p ->
  exists f1 f2, fseek_end (-8) f = (Ok tt, f1) /\ fread_u64 f1 = (Ok p, f2) /\ contents f1 = contents f /\ contents f2 = contents f.
Proof.
  intros Hc Hp. pose proof (size_nonneg u). exists (mk_file (contents f) (size u)). eexists. split.
  { unfold fseek_end. eapply bind_run; [done|]. replace (size (contents f) + -8) with (size u) by (rewrite Hc, size_app, size_le_bytes; lia).
    apply fseek_run. lia. }
  split; [eapply (fread_u64_run _ u p []); [by rewrite app_nil_r|done|done]|]. done.
Qed.

Lemma read_tail l u p : contents (block_file l) = u ++ le_bytes 8 p -> is_u64 p ->
  exists f1 f2, on_block (fseek_end (-8)) l = (Ok tt, set_block_file f1 l)
    /\ on_block fread_u64 (set_block_file f1 l) = (Ok p, set_block_file f2 l) /\ contents f2 = contents (block_file l).
Proof.
  intros Hc Hp. destruct (read_last8 _ u p Hc Hp) as (f1 & f2 & H1 & H2 & _ & Hf). exists f1, f2.
  split; [by apply on_block_run|]. split; [|done]. by rewrite (on_block_run fread_u64 (set_block_file f1 l) _ _ H2).
Qed.
Lemma read_index_tail l u p : contents (index_file l) = u ++ le_bytes 8 p -> is_u64 p ->
  exists f1 f2, on_index (fseek_end (-8)) l = (Ok tt, set_index_file f1 l)
    /\ on_index fread_u64 (set_index_file f1 l) = (Ok p, set_index_file f2 l) /\ contents f2 = contents (index_file l).
Proof.
  intros Hc Hp. destruct (read_last8 _ u p Hc Hp) as (f1 & f2 & H1 & H2 & _ & Hf). exists f1, f2.
  split; [by apply on_index_run|]. split; [|done]. by rewrite (on_index_run fread_u64 (set_index_file f1 l) _ _ H2).
Qed.

Lemma read_head_run bs l : log_header version first hdr -> blocks_ok packable version first hdr bs ->
  open_files l = true -> contents (block_file l) = hdr ++ entries (size hdr) bs ->
  exists f, contents f = contents (block_file l) /\ read_head l = (Ok (last bs), set_block_file f l).
Proof.
  intros Hh Hb Ho Hc. destruct (log_tail bs Hh Hb) as (u & p & Hd & Hu & Hp & _ & Hl). rewrite Hd in Hc.
  set (l1 := set_block_file (mk_file (contents (block_file l)) (size (contents (block_file l)))) l).
  destruct (read_tail l1 u p Hc Hp) as (f1 & f & H1 & H2 & Hf).
  assert (read_head l = (if negb (p =? npos) then Some <$> read_block p else mret None) (set_block_file f l1)) as ->.
  { unfold read_head. eapply bind_run; [by apply check_open_run|]. eapply bind_run.
    { apply on_block_run. unfold fseek_end. eapply bind_run; [done|]. apply fseek_run. pose proof (size_nonneg (contents (block_file l))). lia. }
    eapply bind_run; [by apply on_block_run|]. cbn [offset set_block_file block_file]. rewrite Z.add_0_r.
    rewrite (proj2 (Z.leb_gt _ _)) by (rewrite Hc, size_app, size_le_bytes; lia).
    eapply bind_run; [exact H1|]. by eapply bind_run. }
  destruct (last bs) as [b|] eqn:El.
  - destruct Hl as (Hn & Hp63 & a & -> & ->). rewrite Hn. cbn [negb].
    assert (packable b) as Hpk by (pose proof (ok_packable _ _ _ _ _ Hb) as Hpk; rewrite last_lookup in El; rewrite Forall_lookup in Hpk; by eapply Hpk).
    destruct (read_block_at (set_block_file f l1) a b (le_bytes 8 (size a))) as (g & Hg & Hr); [done|done| |done|].
    { cbn [block_file set_block_file]. rewrite Hf. cbn. by rewrite Hc, <- app_assoc. }
    exists g. split; [rewrite Hg; cbn; by rewrite Hf|]. unfold fmap, M_fmap. eapply bind_run; [exact Hr|done].
  - subst p. rewrite Z.eqb_refl. exists f. by rewrite Hf.
Qed.

(** ** Appending *)
Lemma log_ok_appended bs b l fb fi : log_ok first hdr bs l ->
  contents fb = (hdr ++ entries (size hdr) bs) ++ pack_block b ++ le_bytes 8 (size (hdr ++ entries (size hdr) bs)) ->
  contents fi = index_image (positions (size hdr) bs) ++ le_bytes 8 (size (hdr ++ entries (size hdr) bs)) ->
  log_ok first hdr (bs ++ [b]) (set_log_head (Some b) (sb_id b) (set_index_file fi (set_block_file fb l))).
Proof.
  intros [Hc Hi Ho Hh Hid Hf Hg] Hfb Hfi. split; cbn; try done.
  - rewrite Hfb, entries_app, size_app, <- !app_assoc. cbn [entries]. do 2 f_equal. symmetry. apply app_nil_r.
  - rewrite Hfi, positions_app, index_image_app, size_app. cbn [positions]. by rewrite index_image_one.
  - by rewrite last_snoc.
  - by rewrite last_snoc.
Qed.

Lemma log_append_run bs l b : log_ok first hdr bs l ->
  if Z.of_nat (length bs) =? u32 (sb_num b - first) then
    exists l', log_append wrap_std_exception b l = (Ok (size (hdr ++ entries (size hdr) bs)), l') /\ log_ok first hdr (bs ++ [b]) l'
      /\ 0 <= offset (block_file l')
  else exists l', log_append wrap_std_exception b l = (Err block_log_append_fail, l') /\ log_ok first hdr bs l'.
Proof.
  intros Hok. pose proof Hok as [Hc Hi Ho Hh Hid Hf Hg].
  set (data := hdr ++ entries (size hdr) bs) in *. set (index := index_image (positions (size hdr) bs)) in *.
  set (l1 := set_index_file (mk_file (contents (index_file l)) (size index)) (set_block_file (mk_file (contents (block_file l)) (size data)) l)).
  assert (size index = 8 * Z.of_nat (length bs)) as Hsi by (unfold index; by rewrite size_index_image, length_positions).
  assert (log_append wrap_std_exception b l = log_and_rethrow wrap_std_exception (fun _ =>
    (massert (size index =? 8 * u32 (sb_num b - first)) block_log_append_fail;;
     on_block (fwrite (pack_block b));; on_block (fwrite (le_bytes 8 (size data)));; on_index (fwrite (le_bytes 8 (size data)));;
     modify (set_log_head (Some b) (sb_id b));; mret (size data)) l1) l) as ->.
  { unfold log_append, log_and_rethrow. match goal with |- match ?x with _ => _ end = match ?y with _ => _ end => assert (x = y) as -> end; [|done].
    eapply bind_run; [done|]. rewrite Hg, Hf. eapply bind_run; [done|]. eapply bind_run; [by apply check_open_run|].
    eapply bind_run; [apply on_block_run; unfold fseek_end; eapply bind_run; [done|]; apply fseek_run; pose proof (size_nonneg (contents (block_file l))); lia|].
    eapply bind_run; [apply on_index_run; unfold fseek_end; eapply bind_run; [done|]; apply fseek_run; pose proof (size_nonneg (contents (index_file l))); cbn; lia|].
    cbn [index_file set_block_file]. rewrite Hc, Hi, !Z.add_0_r.
    eapply bind_run; [by apply on_block_run|]. eapply bind_run; [by apply on_index_run|]. unfold l1. rewrite Hc, Hi. done. }
  assert ((size index =? 8 * u32 (sb_num b - first)) = (Z.of_nat (length bs) =? u32 (sb_num b - first))) as ->.
  { rewrite Hsi. destruct (Z.of_nat (length bs) =? _) eqn:E; btests; [apply Z.eqb_eq|apply Z.eqb_neq]; lia. }
  destruct (Z.of_nat (length bs) =? u32 (sb_num b - first)).
  - eexists. split.
    + apply log_and_rethrow_ok. cbn beta. eapply bind_run; [done|].
      eapply bind_run; [apply on_block_run, fwrite_end; cbn; by rewrite Hc|].
      eapply bind_run; [apply on_block_run, fwrite_end; cbn; by rewrite Hc, !size_app|].
      eapply bind_run; [apply on_index_run, fwrite_end; cbn; by rewrite Hi|]. eapply bind_run; [done|]. done.
    + split; [|cbn; pose proof (size_nonneg data); pose proof (size_nonneg (pack_block b)); pose proof (size_nonneg (le_bytes 8 (size data))); cbn in *; lia].
      cbn. eapply (log_ok_appended bs b l (mk_file _ _) (mk_file _ _) Hok); cbn; [rewrite Hc, <- app_assoc|rewrite Hi]; done.
  - eexists. split; [unfold log_and_rethrow; cbn; reflexivity|]. unfold l1. eapply log_ok_index; [eapply log_ok_block; [exact Hok|]|]; done.
Qed.
End Log.
End Operations.
