(* ===== verification/BlockLogIndex.v ===== *)
(** * Rebuilding the index of the block log

    The backward scan of the block file gives back the positions of all blocks,
    and the writer puts them in order, whatever the sizes of the two buffers;
    so the index that is rebuilt is the index that appending kept.  With it the
    log refines a list of blocks also across restarts, and opening recovers an
    index that was lost or lags behind. *)

From S2P Require Import Prelude Merkle Authority BlockHeader BlockHeaderState Transaction ApplyContext PushTransaction ChainConfig Block BlockLog BlockLogFacts.
#[local] Open Scope Z_scope.

(** ** Slices *)
Lemma size_slice pos n bs : 0 <= pos -> 0 <= n -> pos + n <= size bs -> size (slice pos n bs) = n.
Proof. unfold size, slice. intros. rewrite length_take, length_drop. lia. Qed.

Lemma slice_slice i n s m bs : 0 <= i -> 0 <= s -> 0 <= n -> i + n <= m -> slice i n (slice s m bs) = slice (s + i) n bs.
Proof.
  intros. unfold slice. rewrite skipn_firstn_comm, take_take, drop_drop. f_equal; [lia|]. f_equal. lia.
Qed.

Section Scan.
Context {Sig : Type} {C : crypto} {T : trx_codec Sig public_key} {L : log_codec Sig}.
Context (packable : signed_block (Sig := Sig) -> Prop) `{!crypto_laws C} `{!log_codec_laws L packable}.
Context (version first : Z) (hdr : list Z) (bs : list (signed_block (Sig := Sig))).
Context (Hh : log_header version first hdr) (Hb : blocks_ok packable version first hdr bs).
Context (buf_len : Z) (Hbuf : 8 <= buf_len <= 2 ^ 32).

Let data : list Z := hdr ++ entries (size hdr) bs.
Let n : Z := Z.of_nat (length bs).

(** Where the block with index [k] starts. *)
Definition start_of (k : nat) : Z := size hdr + size (entries (size hdr) (take k bs)).

Lemma header_facts : 1 <= version <= 3 /\ 8 <= size hdr /\ is_u32 first /\ 1 <= first /\ (version = 1 -> first = 1)
  /\ (exists r, hdr = le_bytes 4 version ++ r) /\ (version <> 1 -> exists r, hdr = le_bytes 4 version ++ le_bytes 4 first ++ r).
Proof.
  destruct Hh as [gs Hgs|v f gs Hv Hf H1|v f id Hv Hf H1]; rewrite ?size_app, ?size_le_bytes.
  - unfold is_u32. repeat split; try lia; by eauto.
  - pose proof (size_nonneg (pack_genesis gs)). repeat split; try lia; try apply Hf; eauto.
  - pose proof (size_nonneg (write_chain_id id)). repeat split; try lia; try apply Hf; eauto.
Qed.

Lemma start_of_S k b : bs !! k = Some b -> start_of (S k) = start_of k + size (pack_block b) + 8.
Proof.
  intros Hk. unfold start_of. rewrite (take_S_r _ _ _ Hk), entries_app, !size_app. cbn [entries].
  rewrite !size_app, size_le_bytes. change (size []) with 0. lia.
Qed.

Lemma start_of_all : start_of (length bs) = size data.
Proof. unfold start_of, data. by rewrite firstn_all, size_app. Qed.

(** The bytes of block [k] and of the position behind it. *)
Lemma data_at k b : bs !! k = Some b -> exists a c, data = a ++ pack_block b ++ le_bytes 8 (start_of k) ++ c /\ size a = start_of k.
Proof.
  intros Hk. pose proof (take_drop_middle bs k b Hk) as E. unfold data.
  replace (entries (size hdr) bs) with (entries (size hdr) (take k bs ++ b :: drop (S k) bs)) by by rewrite E.
  rewrite entries_app. cbn [entries]. exists (hdr ++ entries (size hdr) (take k bs)). eexists. rewrite <- !app_assoc. split; [done|].
  by rewrite size_app.
Qed.

Lemma start_of_bounds k : (k <= length bs)%nat -> size hdr <= start_of k <= size data.
Proof.
  intros Hk. unfold start_of, data. rewrite size_app. pose proof (size_nonneg (entries (size hdr) (take k bs))). split; [lia|].
  rewrite <- (take_drop k bs) at 2. rewrite entries_app, size_app. match goal with |- context [entries ?p (drop k bs)] => pose proof (size_nonneg (entries p (drop k bs))) end. lia.
Qed.

Lemma room : size data < 2 ^ 63.
Proof. apply (ok_room _ _ _ _ _ Hb). Qed.

Lemma block_packable k b : bs !! k = Some b -> packable b.
Proof. intros Hk. pose proof (ok_packable _ _ _ _ _ Hb) as Hp. rewrite Forall_lookup in Hp. by eapply Hp. Qed.

Lemma block_min k b : bs !! k = Some b -> 18 <= size (pack_block b).
Proof. intros Hk. destruct (previous_in_block b (block_packable k b Hk)) as [Hs _]. unfold blknum_offset in Hs. lia. Qed.

Lemma number_of_blocks : n < 2 ^ 32.
Proof.
  destruct (last bs) as [b|] eqn:El; [|apply last_None in El; subst n; by rewrite El].
  pose proof (last_number _ _ _ _ _ _ Hb El) as Hl. pose proof (sb_num_u32 b) as Hu. unfold is_u32 in Hu.
  destruct header_facts as (_ & _ & _ & H1 & _). unfold n. lia.
Qed.

(** The buffer is a window on the file. *)
Record window (it : reverse_iterator) : Prop := {
  win_start : 0 <= _start_of_buffer_position it;
  win_end : _end_of_buffer_position it <= size data;
  win_buffer : ri_buffer it = slice (_start_of_buffer_position it) (_end_of_buffer_position it - _start_of_buffer_position it) data;
  win_order : _start_of_buffer_position it <= _end_of_buffer_position it }.

Lemma buffered_in_window it pos m a b c : window it -> data = a ++ b ++ c -> pos = size a -> m = size b ->
  _start_of_buffer_position it <= pos -> pos + m <= _end_of_buffer_position it ->
  buffered it (pos - _start_of_buffer_position it) m = Ok (le_value b).
Proof.
  intros [Hs He Hbf Ho] Hd Hp Hm H1 H2. unfold buffered. pose proof (size_nonneg b). rewrite Hbf.
  rewrite size_slice by lia. rewrite (proj2 (andb_true_iff _ _)) by (split; apply Z.leb_le; lia).
  rewrite slice_slice by lia. do 2 f_equal. rewrite Hd. apply slice_app; lia.
Qed.

(** The iterator stands behind block [k]: the eight bytes at its position tell
    where the last block before starts. *)
Record scan_at (k : nat) (it : reverse_iterator) : Prop := {
  scan_window : window it;
  scan_current : _current_position_in_file it = start_of k - 8;
  scan_before_end : start_of k <= _end_of_buffer_position it;
  scan_version : ri_version it = version;
  scan_found : _blocks_found it = n - Z.of_nat k;
  scan_expected : _blocks_expected it = n }.

Lemma update_buffer_ok it : (0 <= _current_position_in_file it) -> _current_position_in_file it + 8 <= size data ->
  exists it', update_buffer buf_len data it = Ok it' /\ window it' /\ _current_position_in_file it' = _current_position_in_file it
    /\ _end_of_buffer_position it' = _current_position_in_file it + 8 /\ _start_of_buffer_position it' <= _current_position_in_file it
    /\ _current_position_in_file it - _start_of_buffer_position it' < 2 ^ 32
    /\ ri_version it' = ri_version it /\ _blocks_found it' = _blocks_found it /\ _blocks_expected it' = _blocks_expected it
    /\ ri_first_block_num it' = ri_first_block_num it.
Proof.
  intros Hc He. pose proof room. unfold update_buffer, npos, UINT64_MAX.
  rewrite (proj2 (Z.eqb_neq _ _)) by lia. cbn [negb eos_assert mbind res_bind]. rewrite u64_id by (unfold is_u64; lia).
  set (s := if _current_position_in_file it + 8 <? buf_len then 0 else _current_position_in_file it + 8 - buf_len).
  assert (0 <= s <= _current_position_in_file it /\ _current_position_in_file it - s < 2 ^ 32) as [Hs Hs'].
  { unfold s. destruct (_ <? buf_len) eqn:E; btests; lia. }
  rewrite (proj2 (andb_true_iff _ _)) by (split; [apply Z.ltb_lt|apply Z.leb_le]; lia). cbn [eos_assert mbind res_bind].
  eexists. split; [done|]. split; [split; cbn; [lia|lia|done|lia]|]. cbn. repeat split; lia.
Qed.

(** ** One step back *)
Lemma previous_step k it : (k < length bs)%nat -> scan_at (S k) it ->
  exists it', iterator_previous buf_len data it = Ok (start_of k, it') /\ scan_at k it'.
Proof.
  intros Hk [Hw Hc He Hv Hf Hx]. destruct header_facts as (_ & Hsz & _). pose proof room as Hroom. pose proof number_of_blocks as Hn.
  destruct (lookup_lt_is_Some_2 bs k Hk) as [b Hlk]. pose proof (start_of_S k b Hlk) as HS. pose proof (block_min k b Hlk).
  pose proof (start_of_bounds k ltac:(lia)). pose proof (start_of_bounds (S k) ltac:(lia)).
  destruct (data_at k b Hlk) as (a & c & Hd & Ha). unfold iterator_previous.
  rewrite Hc, (proj2 (Z.eqb_neq (start_of (S k) - 8) npos)) by (unfold npos, UINT64_MAX; lia). cbn [negb eos_assert mbind res_bind].
  rewrite (proj2 (andb_false_iff _ _)) by (right; rewrite Hf, Hx; apply Z.eqb_neq; lia).
  assert (exists it1, (if _start_of_buffer_position it >? start_of (S k) - 8 then update_buffer buf_len data it else Ok it) = Ok it1
    /\ window it1 /\ _current_position_in_file it1 = start_of (S k) - 8 /\ start_of (S k) <= _end_of_buffer_position it1
    /\ _start_of_buffer_position it1 <= start_of (S k) - 8 /\ ri_version it1 = version /\ _blocks_found it1 = n - Z.of_nat (S k) /\ _blocks_expected it1 = n)
    as (it1 & -> & Hw1 & Hc1 & He1 & Hs1 & Hv1 & Hf1 & Hx1).
  { destruct (_start_of_buffer_position it >? start_of (S k) - 8) eqn:E; btests.
    - destruct (update_buffer_ok it) as (it1 & Hu & Hw1 & Hc1 & He1 & Hs1 & _ & Hv1 & Hf1 & Hx1 & _); [rewrite Hc; lia..|].
      exists it1. split; [done|]. split; [done|]. rewrite Hc1, He1, Hc, Hv1, Hf1, Hx1. repeat split; try done; lia.
    - exists it. split; [done|]. split; [done|]. repeat split; try done; lia. }
  cbn [mbind res_bind]. rewrite Hc1.
  rewrite (buffered_in_window it1 (start_of (S k) - 8) 8 (a ++ pack_block b) (le_bytes 8 (start_of k)) c Hw1);
    [|by rewrite <- app_assoc|rewrite size_app, Ha; lia|by rewrite size_le_bytes|done|lia].
  cbn [mbind res_bind]. rewrite le_u64 by (unfold is_u64; lia). rewrite (proj2 (Z.eqb_neq (start_of k) npos)) by (unfold npos, UINT64_MAX; lia).
  cbn [_current_position_in_file ri_move ri_set_found]. rewrite Hc1, u64_id by (unfold is_u64; lia).
  rewrite (proj2 (Z.ltb_lt _ _)) by lia. cbn [eos_assert mbind res_bind]. eexists. split; [done|].
  split; cbn; [destruct Hw1; by split|done|lia|done| |done]. rewrite Hf1, u32_id by (unfold is_u32; lia). lia.
Qed.

Lemma previous_end it : bs <> [] -> scan_at 0 it -> exists it', iterator_previous buf_len data it = Ok (npos, it').
Proof.
  intros Hne [Hw Hc He Hv Hf Hx]. destruct header_facts as (Hvr & Hsz & _). pose proof room as Hroom. pose proof number_of_blocks as Hn.
  assert (start_of 0 = size hdr) as H0 by (unfold start_of; rewrite take_0; cbn [entries]; change (size []) with 0; lia). rewrite H0 in *.
  pose proof (start_of_bounds 0 ltac:(lia)) as Hb0. rewrite H0 in Hb0.
  assert (n <> 0) by (unfold n; intros E; apply Hne, nil_length_inv; lia). unfold iterator_previous.
  rewrite Hc, (proj2 (Z.eqb_neq (size hdr - 8) npos)) by (unfold npos, UINT64_MAX; lia). cbn [negb eos_assert mbind res_bind]. rewrite Hv.
  destruct (version =? 1) eqn:E1; btests.
  { rewrite (proj2 (Z.eqb_eq _ _)) by (rewrite Hf, Hx; lia). cbn [andb]. eauto. }
  cbn [andb]. destruct (header_totem version first hdr (proj1 (proj2 (proj2 header_facts))) Hh E1) as (h & Hhd & Hs8).
  assert (exists it1, (if _start_of_buffer_position it >? size hdr - 8 then update_buffer buf_len data it else Ok it) = Ok it1
    /\ window it1 /\ _current_position_in_file it1 = size hdr - 8 /\ size hdr <= _end_of_buffer_position it1
    /\ _start_of_buffer_position it1 <= size hdr - 8 /\ _blocks_found it1 = n /\ _blocks_expected it1 = n)
    as (it1 & -> & Hw1 & Hc1 & He1 & Hs1 & Hf1 & Hx1).
  { destruct (_start_of_buffer_position it >? size hdr - 8) eqn:E; btests.
    - destruct (update_buffer_ok it) as (it1 & Hu & Hw1 & Hc1 & He1 & Hs1 & _ & Hv1 & Hf1 & Hx1 & _); [rewrite Hc; lia..|].
      exists it1. split; [done|]. split; [done|]. rewrite Hc1, He1, Hc, Hf1, Hx1. repeat split; try done; lia.
    - exists it. split; [done|]. split; [done|]. repeat split; try done; lia. }
  cbn [mbind res_bind]. rewrite Hc1.
  rewrite (buffered_in_window it1 (size hdr - 8) 8 h (le_bytes 8 npos) (entries (size hdr) bs) Hw1);
    [|unfold data; rewrite Hhd at 1; by rewrite <- app_assoc|rewrite Hhd, size_app, size_le_bytes; lia|by rewrite size_le_bytes|done|lia].
  cbn [mbind res_bind]. rewrite le_u64 by (unfold is_u64, npos, UINT64_MAX; lia). rewrite Z.eqb_refl. cbn [_blocks_found _blocks_expected ri_set_found].
  rewrite Hf1, Hx1. rewrite (proj2 (Z.eqb_neq _ _)); [cbn; eauto|].
  unfold u32, uwrap. destruct (Z.eq_dec (n + 1) (2 ^ 32)) as [->|]; [rewrite Z.mod_same; lia|rewrite Z.mod_small; lia].
Qed.

(** ** Opening the iterator *)
Lemma data_version : exists r, data = le_bytes 4 version ++ r.
Proof. destruct header_facts as (_ & _ & _ & _ & _ & (r & Hr) & _). exists (r ++ entries (size hdr) bs). unfold data. rewrite Hr at 1. by rewrite <- app_assoc. Qed.
Lemma data_first : version <> 1 -> exists r, data = le_bytes 4 version ++ le_bytes 4 first ++ r.
Proof.
  intros Hv. destruct header_facts as (_ & _ & _ & _ & _ & _ & Hf). destruct (Hf Hv) as (r & Hr). exists (r ++ entries (size hdr) bs).
  unfold data. rewrite Hr at 1. by rewrite <- !app_assoc.
Qed.

Lemma iterator_open_ok : exists it, iterator_open buf_len data = Ok (n, it) /\ (bs <> [] -> scan_at (length bs) it).
Proof.
  destruct header_facts as (Hvr & Hsz & Hfu & Hf1 & Hv1 & _). pose proof room as Hroom. pose proof number_of_blocks as Hn.
  destruct data_version as (r & Hr). unfold iterator_open. pose proof (start_of_bounds (length bs) ltac:(lia)) as Hsb. rewrite start_of_all in Hsb.
  rewrite (proj2 (Z.leb_le 4 _)) by lia. cbn [eos_assert mbind res_bind].
  assert (le_value (slice 0 4 data) = version) as ->.
  { rewrite Hr. rewrite (slice_app [] (le_bytes 4 version) r) by (rewrite ?size_le_bytes; done). apply le_u32. unfold is_u32. lia. }
  unfold is_supported_version, min_supported_version, max_supported_version.
  rewrite (proj2 (andb_true_iff _ _)) by (split; apply Z.leb_le; lia). cbn [eos_assert mbind res_bind].
  assert ((if version =? 1 then Ok 1 else eos_assert (8 <=? size data) block_log_exception;; Ok (le_value (slice 4 4 data))) = Ok first) as ->.
  { destruct (version =? 1) eqn:E; btests; [by rewrite Hv1|]. rewrite (proj2 (Z.leb_le _ _)) by lia. cbn. destruct (data_first E) as (r' & Hr'). rewrite Hr'.
    rewrite (slice_app (le_bytes 4 version) (le_bytes 4 first) r') by (by rewrite size_le_bytes). by rewrite le_u32. }
  cbn [mbind res_bind]. rewrite u64_id by (unfold is_u64; lia).
  match goal with |- context [update_buffer buf_len data ?x] => set (it0 := x) end.
  destruct (update_buffer_ok it0) as (it & Hu & Hw & Hc & He & Hs & Hsu & Hv & Hfd & Hx & Hfb); [cbn; lia..|]. rewrite Hu. cbn [mbind res_bind].
  cbn in Hc, He, Hs, Hsu, Hv, Hfd, Hx, Hfb. rewrite Hc. pose proof (win_start it Hw).
  destruct (log_tail packable version first hdr Hfu bs Hh Hb) as (u & p & Hd & Hup & Hpu & _ & Hl). fold data in Hd.
  rewrite u32_id by (unfold is_u32; lia).
  rewrite (buffered_in_window it (size data - 8) 8 u (le_bytes 8 p) [] Hw); [|by rewrite app_nil_r|rewrite Hd, size_app, size_le_bytes; lia|by rewrite size_le_bytes|lia|lia].
  cbn [mbind res_bind]. rewrite le_u64 by done. destruct (last bs) as [b|] eqn:El.
  2: { subst p. rewrite Z.eqb_refl. apply last_None in El. exists it. unfold n. rewrite El. split; [done|]. by intros []. }
  destruct Hl as (Hpn & Hp63 & a & -> & ->). rewrite Hpn. pose proof El as El'. rewrite last_lookup in El'.
  destruct (previous_in_block b (block_packable _ _ El')) as [Hsb' Hprev]. unfold blknum_offset in *.
  pose proof (size_nonneg a). set (B := pack_block b) in *.
  assert (exists x y, B = x ++ slice 14 4 B ++ y /\ size x = 14 /\ size (slice 14 4 B) = 4) as (x & y & HB & Hx14 & Hs4).
  { exists (take 14 B), (drop 18 B). unfold slice. change (Z.to_nat 14) with 14%nat. change (Z.to_nat 4) with 4%nat.
    replace (drop 18 B) with (drop 4 (drop 14 B)) by by rewrite drop_drop. rewrite take_drop, take_drop. split; [done|]. unfold size in *.
    rewrite !length_take, length_drop. lia. }
  assert (data = (a ++ x) ++ slice 14 4 B ++ y ++ le_bytes 8 (size a)) as Hd' by (rewrite Hd; rewrite HB at 1; by rewrite <- !app_assoc).
  assert (size (a ++ x) = size a + 14) as Hax by (rewrite size_app; lia).
  assert (size data = size a + size B + 8) as Hsd by (rewrite Hd, !size_app, size_le_bytes; lia).
  assert ((if size a >=? _start_of_buffer_position it then buffered it (u32 (size a - _start_of_buffer_position it) + 14) 4
           else eos_assert (size a + 14 + 4 <=? size data) block_log_exception;; Ok (le_value (slice (size a + 14) 4 data))) = Ok (le_value (slice 14 4 B))) as ->.
  { destruct (size a >=? _start_of_buffer_position it) eqn:E; btests.
    - rewrite u32_id by (unfold is_u32; lia).
      replace (size a - _start_of_buffer_position it + 14) with ((size a + 14) - _start_of_buffer_position it) by lia.
      eapply buffered_in_window; [done|exact Hd'|lia|lia|lia|lia].
    - rewrite (proj2 (Z.leb_le _ _)) by lia. cbn. do 2 f_equal. rewrite Hd'. apply slice_app; lia. }
  cbn [mbind res_bind]. rewrite Hprev. fold (num_from_id (previous (sh_header (sb_header b)))). fold (block_num (sh_header (sb_header b))).
  fold (sb_num b). rewrite (last_number _ _ _ _ _ _ Hb El). fold n.
  replace (first + n - 1 - first + 1) with n by lia. rewrite u32_id by (unfold is_u32, n; lia). eexists. split; [done|]. intros _.
  split; cbn; [destruct Hw; by split|rewrite start_of_all; lia|rewrite start_of_all; lia|by rewrite Hv|rewrite Hfd; unfold n; lia|done].
Qed.
End Scan.

(** ** The writer *)
Lemma file_location x : 0 <= x < 2 ^ 29 -> buffer_location_to_file_location x = 8 * x.
Proof.
  intros Hx. unfold buffer_location_to_file_location. rewrite (u32_id x) by (unfold is_u32; lia).
  rewrite Z.shiftl_mul_pow2 by lia. change (2 ^ 3) with 8. rewrite u32_id; [lia|unfold is_u32; lia].
Qed.
Lemma buffer_location x : 0 <= x < 2 ^ 29 -> file_location_to_buffer_location (8 * x) = x.
Proof.
  intros Hx. unfold file_location_to_buffer_location. rewrite u32_id by (unfold is_u32; lia).
  rewrite Z.shiftr_div_pow2 by lia. change (2 ^ 3) with 8. rewrite Z.mul_comm. by apply Z.div_mul.
Qed.

Lemma buffer_image (buffer : gmap Z Z) qs : forall o, (forall j, (j < length qs)%nat -> buffer !! (o + Z.of_nat j) = qs !! j) ->
  concat (map (fun i => le_bytes 8 (default 0 (buffer !! i))) (seqZ o (Z.of_nat (length qs)))) = index_image qs.
Proof.
  induction qs as [|q qs IH]; intros o Hq; [done|]. rewrite seqZ_cons by (cbn [length]; lia).
  cbn [map concat]. pose proof (Hq 0%nat ltac:(cbn; lia)) as H0. rewrite Z.add_0_r in H0. change ((q :: qs) !! 0%nat) with (Some q) in H0. rewrite H0. cbn [default].
  unfold index_image. cbn [map concat]. f_equal. replace (Z.pred (Z.of_nat (length (q :: qs)))) with (Z.of_nat (length qs)) by (cbn [length]; lia).
  apply IH. intros j Hj. pose proof (Hq (S j) ltac:(cbn; lia)) as HS. change ((q :: qs) !! S j) with (qs !! j) in HS. rewrite <- HS. f_equal. lia.
Qed.

Section Write.
Context (max_len : Z) (Hmax : 1 <= max_len) (ps : list Z).
Let n : Z := Z.of_nat (length ps).
Context (Hsmall : n < 2 ^ 29).

(** [k] positions are still to be written: the buffer holds those of the blocks
    from [k] to the end of the buffer, the file the ones behind. *)
Record write_at (k : nat) (w : index_writer) : Prop := {
  wa_file : exists f, iw_file w = Some f /\ (contents f = [] /\ iw_end w = n
              \/ contents f = replicate (Z.to_nat (8 * iw_end w)) 0 ++ index_image (drop (Z.to_nat (iw_end w)) ps));
  wa_current : _current_position w = Z.of_nat k - 1;
  wa_start : iw_start w = if iw_end w <? max_len then 0 else iw_end w - max_len;
  wa_range : iw_start w <= Z.of_nat k <= iw_end w /\ iw_end w <= n;
  wa_buffer : forall i, Z.of_nat k <= Z.of_nat i < iw_end w -> iw_buffer w !! (Z.of_nat i - iw_start w) = ps !! i }.

Lemma fwrite_front (s e : nat) c bytes o : (s <= e)%nat -> length bytes = (8 * (e - s))%nat ->
  (c = [] /\ e = length ps \/ c = replicate (8 * e) 0 ++ index_image (drop e ps)) ->
  bytes = index_image (take (e - s) (drop s ps)) -> o = Z.of_nat (8 * s) ->
  contents (fwrite bytes (mk_file c o)).2 = replicate (8 * s) 0 ++ index_image (drop s ps).
Proof.
  intros Hse Hl Hc Hb ->. unfold fwrite, modify. cbn [snd contents offset]. rewrite Nat2Z.id.
  assert (index_image (drop s ps) = bytes ++ index_image (drop e ps)) as ->.
  { rewrite Hb, <- index_image_app. f_equal. rewrite <- (take_drop (e - s) (drop s ps)) at 1. rewrite drop_drop. do 2 f_equal. lia. }
  destruct Hc as [[-> He]| ->].
  - rewrite take_nil, drop_nil. cbn [length app]. rewrite Nat.sub_0_r, (drop_ge ps) by lia. done.
  - rewrite length_app, length_replicate. rewrite take_app_le by (rewrite length_replicate; lia).
    rewrite take_replicate, Nat.min_l by lia. replace (8 * s - _)%nat with 0%nat by lia. cbn [replicate app]. do 2 f_equal.
    rewrite Hl, drop_app_ge by (rewrite length_replicate; lia). rewrite length_replicate. by replace (8 * s + 8 * (e - s) - 8 * e)%nat with 0%nat by lia.
Qed.

Lemma shift_buffer_stay w : iw_start w <= _current_position w -> shift_buffer max_len w = Ok (false, w).
Proof. intros Hw. unfold shift_buffer. rewrite Z.geb_leb. by rewrite (proj2 (Z.leb_le _ _)). Qed.

Lemma shift_buffer_flush k w : write_at k w -> Z.of_nat k = iw_start w -> iw_start w < iw_end w ->
  exists w', shift_buffer max_len w = Ok (true, w') /\ write_at k w' /\ iw_end w' = Z.of_nat k
    /\ (exists f, iw_file w' = Some f /\ contents f = replicate (8 * k) 0 ++ index_image (drop k ps)).
Proof.
  intros [(f & Hf & Hcf) Hc Hs [Hr He] Hbuf] Hk Hlt. unfold shift_buffer. rewrite Hc.
  assert ((Z.of_nat k - 1 >=? iw_start w) = false) as -> by (rewrite Z.geb_leb; apply Z.leb_gt; lia).
  rewrite (file_location (iw_end w - iw_start w)) by lia. rewrite (proj2 (Z.eqb_neq _ _)) by lia. cbn [negb eos_assert mbind res_bind].
  rewrite Hf. rewrite (file_location (iw_start w)) by lia. set (e := Z.to_nat (iw_end w)). assert (iw_end w = Z.of_nat e) as Ee by lia.
  assert (buffer_bytes (iw_buffer w) (8 * (iw_end w - iw_start w) / 8) = index_image (take (e - k) (drop k ps))) as Hbytes.
  { unfold buffer_bytes. rewrite Z.mul_comm, Z.div_mul by lia.
    assert (length (take (e - k) (drop k ps)) = (e - k)%nat) as Hlen by (rewrite length_take, length_drop; unfold n in He; lia).
    replace (iw_end w - iw_start w) with (Z.of_nat (length (take (e - k) (drop k ps)))) by lia.
    apply buffer_image. intros j Hj. rewrite Hlen in Hj. pose proof (Hbuf (k + j)%nat ltac:(lia)) as Hb.
    rewrite lookup_take_lt, lookup_drop by lia. rewrite <- Hb. f_equal. lia. }
  assert (contents (fwrite (buffer_bytes (iw_buffer w) (8 * (iw_end w - iw_start w) / 8)) (mk_file (contents f) (8 * iw_start w))).2
          = replicate (8 * k) 0 ++ index_image (drop k ps)) as Hw.
  { apply fwrite_front with (e := e); [lia| | |done|lia].
    - rewrite Hbytes. pose proof (size_index_image (take (e - k) (drop k ps))) as Hz. unfold size in Hz. rewrite length_take, length_drop in Hz. unfold n in He. lia.
    - destruct Hcf as [[-> Hn]|Hcf]; [left; split; [done|unfold n in Hn; lia]|right]. rewrite Hcf. f_equal. f_equal. lia. }
  cbv zeta. revert Hw. match goal with |- contents ?x = _ -> _ => generalize x end. intros f' Hw.
  eexists. split; [done|]. unfold update_buffer_position. cbn [_current_position iw_end iw_file iw_start iw_buffer].
  replace (Z.of_nat k - 1 + 1) with (Z.of_nat k) by lia. rewrite u64_id by (unfold is_u64, n in *; lia).
  split; [|split; [done|eauto]]. split; cbn.
  - eexists. split; [done|]. right. rewrite Hw, Nat2Z.id. f_equal. f_equal. lia.
  - done.
  - done.
  - destruct (Z.of_nat k <? max_len) eqn:E; btests; lia.
  - intros i Hi. lia.
Qed.

(** Putting one position into the buffer. *)
Lemma buffer_put k w p : write_at (S k) w -> iw_start w <= Z.of_nat k -> ps !! k = Some p ->
  exists w', (let i := _current_position w - iw_start w in
    if (0 <=? i) && (i <? max_len) then
      Ok (mk_writer (iw_file w) (_writer_blocks_expected w) (u32 (_block_written w - 1)) (<[i := p]> (iw_buffer w))
            (_current_position w - 1) (iw_start w) (iw_end w))
    else Err undefined_behaviour) = Ok w' /\ write_at k w' /\ Z.of_nat k < iw_end w'.
Proof.
  intros [Hf Hc Hs [Hr He] Hbuf] Hk Hp. rewrite Hc. replace (Z.of_nat (S k) - 1) with (Z.of_nat k) by lia. cbv zeta.
  rewrite (proj2 (andb_true_iff _ _)).
  2: { split; [apply Z.leb_le; lia|apply Z.ltb_lt]. rewrite Hs in *. destruct (iw_end w <? max_len) eqn:E; btests; lia. }
  eexists. split; [done|]. split; [|cbn; lia]. split; cbn; [done|lia|done|lia|].
  intros i Hi. destruct (decide (i = k)) as [->|]; [by rewrite lookup_insert_eq, Hp|]. rewrite lookup_insert_ne by lia. apply Hbuf. lia.
Qed.

Lemma writer_write_ok k w p : write_at (S k) w -> ps !! k = Some p ->
  exists w', writer_write max_len p w = Ok w' /\ write_at k w' /\ Z.of_nat k < iw_end w'.
Proof.
  intros Hw Hp. pose proof Hw as [(f & Hf & _) Hc Hs [Hr He] _]. unfold writer_write, prepare_buffer. rewrite Hf.
  destruct (decide (iw_start w <= Z.of_nat k)) as [Hle|Hgt].
  - rewrite shift_buffer_stay by lia. cbn [mbind res_bind]. by apply buffer_put.
  - destruct (shift_buffer_flush (S k) w Hw) as (w' & -> & Hw' & He' & _); [lia| |].
    { rewrite Hs in *. destruct (iw_end w <? max_len) eqn:E; btests; lia. }
    cbn [mbind res_bind]. apply buffer_put; [done| |done]. rewrite (wa_start _ _ Hw'), He'. clear -Hmax. destruct (Z.ltb_spec (Z.of_nat (S k)) max_len); lia.
Qed.

Lemma writer_first k p : length ps = S k -> ps !! k = Some p ->
  exists w', writer_write max_len p (new_index_writer n) = Ok w' /\ write_at k w' /\ Z.of_nat k < iw_end w'.
Proof.
  intros Hl Hp. unfold writer_write, prepare_buffer. cbn [iw_file new_index_writer _writer_blocks_expected].
  rewrite file_location by (unfold n in *; lia). rewrite buffer_location by (unfold n in *; lia).
  assert (u32 (n - 1) = Z.of_nat k) as -> by (rewrite u32_id; unfold is_u32, n in *; lia).
  match goal with |- context [update_buffer_position max_len ?x] => set (w0 := update_buffer_position max_len x) end.
  assert (iw_end w0 = n) as He by (cbn; unfold n; lia).
  assert (write_at (S k) w0) as Hw.
  { split; [eexists; split; [done|left; done]|cbn; lia| |rewrite He|rewrite He; unfold n; intros; lia].
    - cbn. rewrite u64_id; [done|unfold is_u64, n in *; lia].
    - cbn. rewrite u64_id by (unfold is_u64, n in *; lia). unfold n. destruct (_ <? max_len) eqn:E; btests; lia. }
  assert (iw_start w0 <= Z.of_nat k) as Hs.
  { rewrite (wa_start _ _ Hw), He. unfold n. destruct (_ <? max_len) eqn:E; btests; lia. }
  rewrite shift_buffer_stay by (rewrite (wa_current _ _ Hw); lia). cbn [mbind res_bind]. by apply buffer_put.
Qed.

Lemma writer_complete_ok w : write_at 0 w -> 0 < iw_end w ->
  exists w' f, writer_complete max_len w = Ok w' /\ iw_file w' = Some f /\ contents f = index_image ps.
Proof.
  intros Hw He. assert (iw_start w = 0) as Hs.
  { pose proof (wa_range _ _ Hw) as [Hr _]. rewrite (wa_start _ _ Hw) in *. destruct (_ <? max_len) eqn:E; btests; lia. }
  destruct (shift_buffer_flush 0 w Hw) as (w' & Hsh & Hw' & _ & f & Hf & Hc); [lia..|].
  unfold writer_complete. rewrite Hsh. cbn [mbind res_bind eos_assert]. rewrite (wa_current _ _ Hw'). cbn. eauto.
Qed.
End Write.

(** ** The whole index *)
Section Rebuilt.
Context {Sig : Type} {C : crypto} {T : trx_codec Sig public_key} {L : log_codec Sig}.
Context (packable : signed_block (Sig := Sig) -> Prop) `{!crypto_laws C} `{!log_codec_laws L packable}.
Context (version first : Z) (hdr : list Z).

Section OneLog.
Context (bs : list (signed_block (Sig := Sig))).
Context (Hh : log_header version first hdr) (Hb : blocks_ok packable version first hdr bs).
Context (buf_len max_len : Z) (Hbuf : 8 <= buf_len <= 2 ^ 32) (Hmax : 1 <= max_len).
Context (Hsmall : Z.of_nat (length bs) < 2 ^ 29).
Abbreviation ps := (positions (size hdr) bs).
Abbreviation data := (hdr ++ entries (size hdr) bs).

Lemma positions_lookup k : (k < length bs)%nat -> ps !! k = Some (start_of hdr bs k).
Proof.
  intros Hk. destruct (lookup_lt_is_Some_2 bs k Hk) as [b Hl]. pose proof (take_drop_middle bs k b Hl) as E.
  replace ps with (positions (size hdr) (take k bs ++ b :: drop (S k) bs)) by by rewrite E.
  rewrite positions_app. cbn [positions]. rewrite lookup_app_r by (rewrite length_positions, length_take; lia).
  rewrite length_positions, length_take. replace (k - k `min` length bs)%nat with 0%nat by lia. done.
Qed.

Lemma copy_positions_ok k : forall fuel it w, (k < fuel)%nat -> (k <= length bs)%nat -> bs <> [] -> scan_at version hdr bs k it ->
  write_at max_len ps k w -> Z.of_nat k < iw_end w ->
  exists w', copy_positions buf_len max_len fuel data it w = Ok w' /\ write_at max_len ps 0 w' /\ 0 < iw_end w'.
Proof.
  induction k as [|k IH]; intros fuel it w Hf Hk Hne Hs Hw He; (destruct fuel as [|fuel]; [lia|]); cbn [copy_positions].
  - destruct (previous_end packable version first hdr bs Hh Hb buf_len Hbuf it Hne Hs) as (it' & ->). cbn [mbind res_bind].
    rewrite Z.eqb_refl. exists w. repeat split; try apply Hw. lia.
  - destruct (previous_step packable version first hdr bs Hh Hb buf_len Hbuf k it ltac:(lia) Hs) as (it' & -> & Hs'). cbn [mbind res_bind].
    pose proof (room packable version first hdr bs Hb) as Hroom. pose proof (start_of_bounds hdr bs k ltac:(lia)).
    rewrite (proj2 (Z.eqb_neq _ _)) by (unfold npos, UINT64_MAX; lia).
    destruct (writer_write_ok max_len Hmax ps ltac:(rewrite length_positions; lia) k w (start_of hdr bs k) Hw) as (w' & -> & Hw' & He');
      [apply positions_lookup; lia|]. cbn [mbind res_bind]. by apply (IH fuel it' w'); [lia|lia|..].
Qed.

Lemma length_data : (length bs <= length data)%nat.
Proof.
  rewrite length_app. enough (forall p, (length bs <= length (entries p bs))%nat) as He by (specialize (He (size hdr)); lia).
  clear. induction bs as [|b bs' IH]; intros p; cbn [length entries]; [lia|]. rewrite !length_app, length_le_bytes. specialize (IH (p + size (pack_block b) + 8)). lia.
Qed.

(** The scan and the writer rebuild the index that appending keeps. *)
Lemma index_rebuilt : index_of_log buf_len max_len data = Ok (index_image ps).
Proof.
  destruct (iterator_open_ok packable version first hdr bs Hh Hb buf_len Hbuf) as (it & Hit & Hs). unfold index_of_log. rewrite Hit. cbn [mbind res_bind].
  destruct (decide (bs = [])) as [->|Hne]; [done|]. specialize (Hs Hne).
  rewrite (proj2 (Z.eqb_neq _ _)) by (intros E; apply Hne, nil_length_inv; lia).
  assert (exists k, length bs = S k) as (k & El).
  { exists (pred (length bs)). destruct (length bs) eqn:E; [by apply nil_length_inv in E|done]. }
  rewrite El in Hs. cbn [copy_positions].
  destruct (previous_step packable version first hdr bs Hh Hb buf_len Hbuf k it ltac:(lia) Hs) as (it' & -> & Hs'). cbn [mbind res_bind].
  pose proof (room packable version first hdr bs Hb) as Hroom. pose proof (start_of_bounds hdr bs k ltac:(lia)).
  rewrite (proj2 (Z.eqb_neq _ _)) by (unfold npos, UINT64_MAX; lia).
  destruct (writer_first max_len Hmax ps ltac:(rewrite length_positions; lia) k (start_of hdr bs k)) as (w & Hw & Hwa & Hwe);
    [by rewrite length_positions|apply positions_lookup; lia|]. rewrite length_positions in Hw. rewrite Hw. cbn [mbind res_bind].
  destruct (copy_positions_ok k (length data) it' w) as (w' & -> & Hw' & He'); [pose proof length_data; lia|lia|done|done|done|done|]. cbn [mbind res_bind].
  destruct (writer_complete_ok max_len Hmax ps ltac:(rewrite length_positions; lia) w' Hw' He') as (w'' & f & -> & Hf & Hc). cbn [mbind res_bind]. by rewrite Hf, Hc.
Qed.
End OneLog.
End Rebuilt.
