(* ===== verification/BlockLogRefines.v ===== *)
(** * The block log refines a list of blocks

    Opening a log, with an index that is complete, lost or cut off, and starting
    a new log establish the invariant [log_ok]; every sequence of appending,
    reading and restarting answers as the list of the blocks does. *)

From S2P Require Import Prelude Merkle Authority BlockHeader BlockHeaderState Transaction ApplyContext PushTransaction ChainConfig Block BlockLog BlockLogFacts BlockLogIndex.
#[local] Open Scope Z_scope.

Section Open.
Context {Sig : Type} {C : crypto} {T : trx_codec Sig public_key} {L : log_codec Sig}.
Context (packable : signed_block (Sig := Sig) -> Prop) `{!crypto_laws C} `{!log_codec_laws L packable}.
Abbreviation block := (signed_block (Sig := Sig)).
Abbreviation block_log := (block_log (Sig := Sig)).
Implicit Types (b : block) (bs : list block) (l : block_log).

(** While the log is opened: the files are as they were found. *)
Record opening (first : Z) (hdr : list Z) bs (idx : list Z) l : Prop := {
  og_block : contents (block_file l) = hdr ++ entries (size hdr) bs;
  og_index : contents (index_file l) = idx;
  og_open : open_files l = true;
  og_first : log_first_block_num l = first;
  og_genesis : genesis_written_to_block_log l = true }.

Lemma opening_block first hdr bs idx l f : opening first hdr bs idx l -> contents f = contents (block_file l) -> opening first hdr bs idx (set_block_file f l).
Proof. intros [] Hf. split; cbn; [by rewrite Hf|done..]. Qed.
Lemma opening_index first hdr bs idx l f : opening first hdr bs idx l -> contents f = contents (index_file l) -> opening first hdr bs idx (set_index_file f l).
Proof. intros [] Hf. split; cbn; [done|by rewrite Hf|done..]. Qed.

Section OneLog.
Context (version first : Z) (hdr : list Z) (bs : list block).
Context (Hh : log_header version first hdr) (Hb : blocks_ok packable version first hdr bs).
Context (Hsmall : Z.of_nat (length bs) < 2 ^ 29).

Lemma construct_index_run idx l : opening first hdr bs idx l ->
  exists l', log_construct_index l = (Ok tt, l') /\ opening first hdr bs (index_image (positions (size hdr) bs)) l'
    /\ log_head l' = log_head l /\ log_head_id l' = log_head_id l.
Proof.
  intros [Hc Hi Ho Hf Hg]. unfold log_construct_index.
  pose proof (index_rebuilt packable version first hdr bs Hh Hb iterator_buf_len writer_max_buffer_length ltac:(unfold iterator_buf_len; lia) ltac:(unfold writer_max_buffer_length; lia) Hsmall) as Hix.
  rewrite <- Hc in Hix. eexists. split.
  - do 5 (eapply bind_run; [done|]). cbv beta. cbn [contents block_file set_open set_block_file set_index_file].
    eapply bind_run; [unfold lift; rewrite Hix; done|]. eapply bind_run; [done|]. done.
  - by split; [split|].
Qed.

(** The index can be used as it is found, or it is noticed that it cannot. *)
Definition usable (idx : list Z) : Prop :=
  idx = [] \/ exists u q, idx = u ++ le_bytes 8 q /\ is_u64 q
    /\ (q = default npos (last (positions (size hdr) bs)) -> idx = index_image (positions (size hdr) bs)).

Lemma opening_log_ok l : opening first hdr bs (index_image (positions (size hdr) bs)) l ->
  log_head l = last bs -> log_head_id l = id_or_zero (last bs) -> log_ok first hdr bs l.
Proof. by intros [] ? ?; split. Qed.

(** What happens after the header and the head were read. *)
Definition check_index (index_size : Z) : M block_log unit :=
  if negb (index_size =? 0) then
    on_block (fseek_end (-8));;
    block_pos ← on_block fread_u64;
    on_index (fseek_end (-8));;
    index_pos ← on_index fread_u64;
    if block_pos <? index_pos then log_construct_index
    else if block_pos >? index_pos then log_construct_index
    else mret tt
  else log_construct_index.

Lemma check_index_run idx l : usable idx -> opening first hdr bs idx l -> log_head l = last bs -> log_head_id l = id_or_zero (last bs) ->
  exists l', check_index (size idx) l = (Ok tt, l') /\ log_ok first hdr bs l'.
Proof.
  intros Hu Hog Hhd Hid. destruct (header_facts packable version first hdr bs Hh Hb) as (_ & _ & Hfu & _). unfold check_index.
  assert (forall l, opening first hdr bs idx l -> log_head l = last bs -> log_head_id l = id_or_zero (last bs) ->
    exists l', log_construct_index l = (Ok tt, l') /\ log_ok first hdr bs l') as Hcons.
  { intros l1 H1 H2 H3. destruct (construct_index_run idx l1 H1) as (l' & Hr & Ho & Hh1 & Hh2). exists l'. split; [done|].
    apply opening_log_ok; [done|by rewrite Hh1|by rewrite Hh2]. }
  destruct Hu as [->|(u & q & Hi & Hq & Heq)]; [by apply Hcons|].
  assert ((size idx =? 0) = false) as -> by (apply Z.eqb_neq; rewrite Hi, size_app, size_le_bytes; pose proof (size_nonneg u); lia). cbn [negb].
  destruct (log_tail packable version first hdr Hfu bs Hh Hb) as (v & p & Hd & Hv & Hp & Htail & _).
  pose proof (og_block _ _ _ _ _ Hog) as Hc. rewrite Hd in Hc.
  destruct (read_tail l v p Hc Hp) as (f1 & f & H1 & H2 & Hf).
  set (l2 := set_block_file f l) in *. assert (opening first hdr bs idx l2) as Ho2 by by apply opening_block.
  destruct (read_index_tail l2 u q) as (g1 & g & H3 & H4 & Hg); [by rewrite (og_index _ _ _ _ _ Ho2)|done|].
  assert (opening first hdr bs idx (set_index_file g l2)) as Ho4 by by apply opening_index.
  match goal with |- exists l', ?m l = _ /\ _ => assert (m l = (if p <? q then log_construct_index else if p >? q then log_construct_index else mret tt) (set_index_file g l2)) as -> end.
  { eapply bind_run; [exact H1|]. eapply bind_run; [exact H2|]. eapply bind_run; [exact H3|]. by eapply bind_run. }
  destruct (p <? q) eqn:E1; [by apply Hcons|]. destruct (p >? q) eqn:E2; [by apply Hcons|]. btests. assert (p = q) as -> by lia.
  eexists. split; [done|]. apply opening_log_ok; [|done|done]. by rewrite <- Heq.
Qed.

(** Opening up to the check of the index. *)
Lemma open_header l : contents (block_file l) = hdr ++ entries (size hdr) bs ->
  exists l', log_open l = check_index (size (contents (index_file l))) l' /\ opening first hdr bs (contents (index_file l)) l'
    /\ log_head l' = last bs /\ log_head_id l' = id_or_zero (last bs).
Proof.
  intros Hc. destruct (header_facts packable version first hdr bs Hh Hb) as (Hv & Hsz & Hfu & Hf1 & Hv1 & _).
  destruct (data_version packable version first hdr bs Hh Hb) as (r & Hr). pose proof (data_first packable version first hdr bs Hh Hb) as Hdf.
  rewrite <- Hc in Hr, Hdf. set (idx := contents (index_file l)). set (data := contents (block_file l)) in *.
  set (l1 := set_open true (set_index_file (mk_file idx 0) (set_block_file (mk_file data 0) (set_open false l)))).
  set (l2 := set_genesis_written true (set_log_version version (set_block_file (mk_file data 4) l1))).
  assert (exists l3, ((if version >? 1 then first ← on_block fread_u32; modify (set_log_first first);; massert (first >? 0) block_log_exception
      else modify (set_log_first 1)) : M block_log unit) l2 = (Ok tt, l3) /\ opening first hdr bs idx l3) as (l3 & H3 & Ho3).
  { rewrite Z.gtb_ltb. destruct (1 <? version) eqn:E; btests.
    - destruct Hdf as (r' & Hr'); [lia|]. exists (set_log_first first (set_block_file (mk_file data (4 + 4)) l2)). split; [|by split].
      eapply bind_run; [apply on_block_run; eapply (fread_u32_run (mk_file data 4) (le_bytes 4 version) first r'); cbn [contents offset];
        [exact Hr'|by rewrite size_le_bytes|exact Hfu]|].
      eapply bind_run; [done|]. unfold massert. by rewrite Z.gtb_ltb, (proj2 (Z.ltb_lt _ _)) by lia.
    - exists (set_log_first 1 l2). split; [done|]. split; cbn; [done|done|done|symmetry; apply Hv1; lia|done]. }
  destruct (read_head_run packable version first hdr Hfu bs l3 Hh Hb (og_open _ _ _ _ _ Ho3) (og_block _ _ _ _ _ Ho3)) as (f & Hf & Hrh).
  exists (set_log_head (last bs) (id_or_zero (last bs)) (set_block_file f l3)). split.
  - unfold log_open. eapply bind_run; [done|]. eapply bind_run; [done|]. eapply bind_run; [done|].
    cbv beta zeta. cbn [contents block_file index_file set_open set_block_file set_index_file]. fold idx data.
    assert ((size data =? 0) = false) as -> by (apply Z.eqb_neq; rewrite Hc, size_app; pose proof (size_nonneg (entries (size hdr) bs)); lia). cbn [negb].
    eapply bind_run; [by apply on_block_run, fseek_run|].
    eapply bind_run; [apply on_block_run; eapply (fread_u32_run (mk_file data 0) [] version r); cbn [contents offset]; [exact Hr|done|unfold is_u32; lia]|].
    eapply bind_run; [done|]. eapply bind_run; [unfold massert; rewrite Z.gtb_ltb, (proj2 (Z.ltb_lt _ _)) by lia; done|].
    eapply bind_run; [unfold massert, is_supported_version, min_supported_version, max_supported_version; rewrite (proj2 (andb_true_iff _ _)) by (split; apply Z.leb_le; lia); done|].
    eapply bind_run; [done|]. eapply bind_run; [exact H3|]. eapply bind_run; [exact Hrh|]. eapply bind_run; [done|]. done.
  - split; [|done]. destruct Ho3 as [H1 H2 H4 H5 H6]. split; cbn; [by rewrite Hf|done..].
Qed.

(** Opening a log whose index is usable, whatever the members held before. *)
Lemma log_open_run l : contents (block_file l) = hdr ++ entries (size hdr) bs -> usable (contents (index_file l)) ->
  exists l', log_open l = (Ok tt, l') /\ log_ok first hdr bs l'.
Proof. intros Hc Hu. destruct (open_header l Hc) as (l' & -> & Ho & Hhd & Hid). by apply check_index_run. Qed.

(** An index is usable when it lost entries at its end, or all of them. *)
Lemma usable_prefix k : usable (index_image (take k (positions (size hdr) bs))).
Proof.
  destruct (decide (length bs <= k)%nat) as [Hk|Hk].
  - rewrite take_ge by (rewrite length_positions; lia). unfold usable. set (ps := positions (size hdr) bs).
    destruct (last ps) as [q|] eqn:El; [|apply last_None in El; left; by rewrite El].
    right. destruct (header_facts packable version first hdr bs Hh Hb) as (_ & _ & Hfu & _).
    destruct (log_tail packable version first hdr Hfu bs Hh Hb) as (u & p & _ & _ & Hp & Ht & _). fold ps in Ht. rewrite El in Ht. cbn in Ht. subst p.
    apply last_Some in El as (ps' & ->). exists (index_image ps'), q. by rewrite index_image_app, index_image_one.
  - destruct k as [|k]; [by left|]. right. set (ps := positions (size hdr) bs).
    assert (Hps : forall j, (j < length bs)%nat -> ps !! j = Some (start_of hdr bs j)) by (intros j Hj; by apply positions_lookup).
    pose proof (Hps k ltac:(lia)) as Hp. exists (index_image (take k ps)), (start_of hdr bs k). rewrite (take_S_r _ _ _ Hp), index_image_app, index_image_one.
    split; [done|]. pose proof (room packable version first hdr bs Hb). destruct (lookup_lt_is_Some_2 bs k ltac:(lia)) as [b Hbk].
    pose proof (start_of_bounds hdr bs k ltac:(lia)). pose proof (size_nonneg hdr). split; [unfold is_u64; lia|]. intros E. exfalso.
    rewrite last_lookup in E. unfold ps in E. rewrite length_positions in E. fold ps in E. rewrite Hps in E by lia. cbn in E.
    assert (forall d, (k + S d < length bs)%nat -> start_of hdr bs k < start_of hdr bs (k + S d)) as Hlt.
    { intros d. induction d as [|d IH]; intros Hd.
      - destruct (lookup_lt_is_Some_2 bs k ltac:(lia)) as [x Hx]. rewrite Nat.add_1_r, (start_of_S hdr bs k x Hx). pose proof (size_nonneg (pack_block x)). lia.
      - destruct (lookup_lt_is_Some_2 bs (k + S d) ltac:(lia)) as [x Hx]. replace (k + S (S d))%nat with (S (k + S d)) by lia.
        rewrite (start_of_S hdr bs _ x Hx). pose proof (size_nonneg (pack_block x)). specialize (IH ltac:(lia)). lia. }
    specialize (Hlt (pred (length bs) - S k)%nat). replace (k + S (pred (length bs) - S k))%nat with (pred (length bs)) in Hlt by lia. specialize (Hlt ltac:(lia)). lia.
Qed.
End OneLog.

(** ** Starting a new log *)
Lemma fwrite_over w a c f : contents f = a ++ c -> length a = length w -> offset f = 0 ->
  fwrite w f = (Ok tt, mk_file (w ++ c) (size w)).
Proof.
  intros Hc Hl Ho. unfold fwrite, modify. rewrite Hc, Ho. change (Z.to_nat 0) with 0%nat. rewrite take_0, Nat.sub_0_l, Nat.add_0_l, <- Hl.
  cbn [replicate app]. rewrite drop_app_length. by rewrite Z.add_0_l.
Qed.

Section Reset.
Context (wrap_std_exception : exn -> exn) (first : Z) (t : list Z).
Definition header_of (v : Z) : list Z := le_bytes 4 v ++ le_bytes 4 first ++ t ++ le_bytes 8 npos.

Lemma size_header_of v v' : size (header_of v) = size (header_of v').
Proof. unfold header_of. by rewrite !size_app, !size_le_bytes. Qed.

(** Marking the header as complete. *)
Lemma finish_header bs l : log_ok first (header_of 0) bs l -> 0 <= offset (block_file l) ->
  exists l', (pos ← on_block ftell; modify (set_log_version max_supported_version);; on_block (fseek 0);;
    on_block (fwrite (le_bytes 4 max_supported_version));; on_block (fseek pos)) l = (Ok tt, l')
    /\ log_ok first (header_of max_supported_version) bs l'.
Proof.
  intros Hok Ho. pose proof (ok_block _ _ _ _ Hok) as Hc. unfold header_of in Hc at 1. rewrite <- app_assoc in Hc.
  eexists. split.
  - eapply bind_run; [by apply on_block_run|]. eapply bind_run; [done|]. eapply bind_run; [by apply on_block_run, fseek_run|].
    eapply bind_run; [apply on_block_run; eapply fwrite_over; cbn [contents offset]; [exact Hc|by rewrite !length_le_bytes|done]|].
    erewrite on_block_run; [done|by apply fseek_run].
  - destruct Hok as [_ Hi Hop Hh Hid Hf Hg].
    split; cbn [block_file index_file open_files log_head log_head_id log_first_block_num genesis_written_to_block_log set_block_file set_log_version contents];
      rewrite ?(size_header_of max_supported_version 0); done.
Qed.

Ltac file_end := cbn [offset contents set_block_file block_file set_genesis_written]; rewrite ?size_app, ?size_le_bytes; change (size []) with 0; lia.

(** The header is written in front of an empty log. *)
Lemma start_header l : exists l',
  (forall k : M block_log unit,
    (log_close;; remove_block_file;; remove_index_file;; log_reopen;; modify (fun l => set_log_first first (set_log_version 0 l));;
     on_block (fseek_end 0);; on_block (fwrite (le_bytes 4 0));; on_block (fwrite (le_bytes 4 first));; on_block (fwrite t);;
     modify (set_genesis_written true);; on_block (fwrite (le_bytes 8 npos));; k) l = k l')
  /\ log_ok first (header_of 0) [] (set_log_head None zero_digest l')
  /\ log_head l' = log_head l /\ log_head_id l' = log_head_id l /\ 0 <= offset (block_file l').
Proof.
  eexists. split; [intros k|split].
  - assert (forall f, contents f = [] -> fseek_end 0 f = (Ok tt, mk_file [] 0)) as Hse.
    { intros f Hf. unfold fseek_end. eapply bind_run; [done|]. rewrite Hf. by rewrite fseek_run, Hf. }
    do 5 (eapply bind_run; [done|]). eapply bind_run; [by apply on_block_run, Hse|].
    do 3 (eapply bind_run; [apply on_block_run, fwrite_end; file_end|]). eapply bind_run; [done|].
    eapply bind_run; [apply on_block_run, fwrite_end; file_end|]. done.
  - split; try done.
    cbn [entries block_file set_block_file set_log_head set_genesis_written contents set_log_first set_log_version set_open set_index_file index_file].
    unfold header_of. by rewrite app_nil_r, <- !app_assoc.
  - split; [done|]. split; [done|]. cbn [block_file set_block_file offset set_genesis_written].
    pose proof (size_nonneg t). rewrite ?size_le_bytes. lia.
Qed.

Lemma reset_log_run l ob : match ob with Some b => u32 (sb_num b - first) = 0 /\ log_head l = None /\ log_head_id l = zero_digest | None => True end ->
  exists l', reset_log wrap_std_exception t ob first l = (Ok tt, l') /\ log_ok first (header_of max_supported_version) (option_list ob) l'.
Proof.
  intros Hob. destruct (start_header l) as (l1 & Hrun & Hok & Hh & Hid & Ho). unfold reset_log. rewrite Hrun. destruct ob as [b|].
  - destruct Hob as (Hnum & Hh0 & Hid0). assert (log_ok first (header_of 0) [] l1) as Hok1.
    { destruct Hok. split; try done; [by rewrite Hh|by rewrite Hid]. }
    pose proof (log_append_run first (header_of 0) wrap_std_exception [] l1 b Hok1) as Ha. rewrite Hnum in Ha. cbn [length] in Ha.
    destruct Ha as (l2 & Ha & Hok2 & Ho2). destruct (finish_header [b] l2 Hok2 Ho2) as (l3 & Hf & Hok3).
    exists l3. split; [|done]. eapply bind_run; [|exact Hf]. by eapply bind_run.
  - destruct (finish_header [] _ Hok Ho) as (l3 & Hf & Hok3). exists l3. split; [|done]. by eapply bind_run.
Qed.
End Reset.

(** ** Operations on a log and on a list

    A restart opens the files anew; of the index only the first [k] entries may
    have survived. *)
Inductive log_operation : Type :=
| op_append (b : block)
| op_read (n : Z)
| op_read_id (n : Z)
| op_head
| op_restart (k : nat).
Inductive log_answer : Type :=
| ans_done
| ans_block (ob : option block)
| ans_id (id : digest_type).

Definition restarted (k : nat) l : block_log :=
  mk_block_log (mk_file (contents (block_file l)) 0) (mk_file (take (8 * k) (contents (index_file l))) 0) false None zero_digest 0 0 false.

Definition log_step (wrap_std_exception : exn -> exn) (op : log_operation) : M block_log log_answer :=
  match op with
  | op_append b => log_append wrap_std_exception b;; mret ans_done
  | op_read n => ans_block <$> read_block_by_num wrap_std_exception n
  | op_read_id n => ans_id <$> read_block_id_by_num wrap_std_exception n
  | op_head => ans_block <$> read_head
  | op_restart k => modify (restarted k);; log_open;; mret ans_done
  end.

Definition list_step (first : Z) (op : log_operation) : M (list block) log_answer :=
  match op with
  | op_append b =>
      bs ← get;
      massert (Z.of_nat (length bs) =? u32 (sb_num b - first)) block_log_append_fail;;
      modify (fun bs => bs ++ [b]);;
      mret ans_done
  | op_read n => gets (fun bs => ans_block (block_at first bs n))
  | op_read_id n => gets (fun bs => ans_id (id_or_zero (block_at first bs n)))
  | op_head => gets (fun bs => ans_block (last bs))
  | op_restart _ => mret ans_done
  end.

(** The blocks that operations append, and the room they take. *)
Fixpoint appended (ops : list log_operation) : list block :=
  match ops with [] => [] | op_append b :: ops => b :: appended ops | _ :: ops => appended ops end.
Definition room_for (bs : list block) : Z := foldr (fun b n => size (pack_block b) + 8 + n) 0 bs.
Definition reads_u32 (op : log_operation) : Prop := match op with op_read n | op_read_id n => is_u32 n | _ => True end.

(** The files stay below the limits of the format: positions in a [long], block
    numbers in 32 bits, and 2^29 entries, the most that the index writer can
    address with its 32-bit shift. *)
Definition fits (first : Z) (hdr : list Z) bs (ops : list log_operation) : Prop :=
  Forall packable (appended ops) /\ Forall reads_u32 ops
  /\ size (hdr ++ entries (size hdr) bs) + room_for (appended ops) < 2 ^ 63
  /\ Z.of_nat (length bs) + Z.of_nat (length (appended ops)) < 2 ^ 29
  /\ first + Z.of_nat (length bs) + Z.of_nat (length (appended ops)) < 2 ^ 32.

Lemma take_index k qs : take (8 * k) (index_image qs) = index_image (take k qs).
Proof.
  revert k. induction qs as [|q qs IH]; intros k; [rewrite take_nil; apply take_nil|]. destruct k as [|k]; [by rewrite Nat.mul_0_r|].
  cbn [take]. unfold index_image. cbn [map concat]. rewrite take_app_ge by (rewrite length_le_bytes; lia).
  f_equal. rewrite length_le_bytes. replace (8 * S k - 8)%nat with (8 * k)%nat by lia. apply IH.
Qed.

Lemma room_for_nonneg bs : 0 <= room_for bs.
Proof. induction bs as [|b bs IH]; cbn; [lia|]. pose proof (size_nonneg (pack_block b)). fold (room_for bs). lia. Qed.

Lemma blocks_ok_snoc version first hdr bs b : blocks_ok packable version first hdr bs -> packable b ->
  sb_num b = first + Z.of_nat (length bs) -> size (hdr ++ entries (size hdr) bs) + size (pack_block b) + 8 < 2 ^ 63 ->
  blocks_ok packable version first hdr (bs ++ [b]).
Proof.
  intros [Hp Hn Hr Hv] Hb Hnum Hsz. split.
  - apply Forall_app. split; [done|by constructor].
  - intros i x. rewrite lookup_app_Some, list_lookup_singleton_Some. intros [Hi|[Hl [Hi ->]]]; [by apply Hn|]. rewrite Hnum. lia.
  - rewrite entries_app. cbn [entries]. rewrite app_nil_r. rewrite !size_app, size_le_bytes in *. lia.
  - intros _ E. by apply app_nil in E as [_ [=]].
Qed.

Lemma fits_next first hdr bs op ops : appended (op :: ops) = appended ops -> fits first hdr bs (op :: ops) -> reads_u32 op /\ fits first hdr bs ops.
Proof. unfold fits. intros -> (Hpk & Hrd & Hf). by apply Forall_cons in Hrd as [Hr Hrd]. Qed.

Section Refinement.
Context (wrap_std_exception : exn -> exn) (version first : Z) (hdr : list Z) (Hh : log_header version first hdr).

Lemma log_step_simulated op ops l bs : log_ok first hdr bs l /\ blocks_ok packable version first hdr bs -> fits first hdr bs (op :: ops) ->
  (log_step wrap_std_exception op l).1 = (list_step first op bs).1
  /\ (log_ok first hdr (list_step first op bs).2 (log_step wrap_std_exception op l).2 /\ blocks_ok packable version first hdr (list_step first op bs).2)
  /\ fits first hdr (list_step first op bs).2 ops.
Proof.
  intros [Hok Hb] Hf. destruct (header_facts packable version first hdr bs Hh Hb) as (_ & _ & Hfu & _).
  destruct op as [b|m|m| |k].
  - destruct Hf as (Hpk & Hrd & Hsz & Hn & H32). cbn [appended] in *. apply Forall_cons in Hpk as [Hpb Hpk]. apply Forall_cons in Hrd as [_ Hrd].
    cbn [room_for foldr length] in Hsz, Hn, H32. fold (room_for (appended ops)) in Hsz. pose proof (room_for_nonneg (appended ops)).
    pose proof (log_append_run first hdr wrap_std_exception bs l b Hok) as Ha.
    cbn [log_step list_step]. unfold mbind, M_bind, get, massert, eos_assert.
    destruct (Z.of_nat (length bs) =? u32 (sb_num b - first)) eqn:E.
    + destruct Ha as (l' & -> & Hok' & _). cbn. split; [done|]. btests. pose proof (sb_num_u32 b) as Hu.
      assert (sb_num b = first + Z.of_nat (length bs)) as Hnum.
      { unfold is_u32 in *. unfold u32, uwrap in E. destruct (Z_lt_le_dec (sb_num b - first) 0) as [Hneg|Hpos].
        - rewrite <- (Z.mod_add (sb_num b - first) 1) in E by lia. rewrite Z.mod_small in E by lia. lia.
        - rewrite Z.mod_small in E by lia. lia. }
      split; [split; [done|by apply blocks_ok_snoc; [..|lia]]|]. unfold fits. split; [done|]. split; [done|].
      rewrite length_app, entries_app. cbn [entries length]. rewrite app_nil_r. rewrite !size_app, size_le_bytes in *. lia.
    + destruct Ha as (l' & -> & Hok'). cbn. split; [done|]. split; [done|]. unfold fits. pose proof (size_nonneg (pack_block b)).
      split; [done|]. split; [done|]. lia.
  - apply fits_next in Hf as [Hm Hf]; [|done].
    destruct (read_block_by_num_run packable version first hdr Hfu wrap_std_exception bs l m Hok Hb Hm) as (l' & Hr & Hok').
    cbn [log_step]. unfold fmap, M_fmap, mbind, M_bind. by rewrite Hr.
  - apply fits_next in Hf as [Hm Hf]; [|done].
    destruct (read_block_id_by_num_run packable version first hdr Hfu wrap_std_exception bs l m Hok Hb Hm) as (l' & Hr & Hok').
    cbn [log_step]. unfold fmap, M_fmap, mbind, M_bind. by rewrite Hr.
  - apply fits_next in Hf as [_ Hf]; [|done].
    destruct (read_head_run packable version first hdr Hfu bs l Hh Hb (ok_open _ _ _ _ Hok) (ok_block _ _ _ _ Hok)) as (f & Hc & Hr).
    cbn [log_step]. unfold fmap, M_fmap, mbind, M_bind. rewrite Hr. split; [done|]. split; [split; [by apply log_ok_block|done]|done].
  - apply fits_next in Hf as [_ Hf]; [|done]. pose proof Hf as (_ & _ & _ & Hn & _).
    destruct (log_open_run version first hdr bs Hh Hb ltac:(lia) (restarted k l)) as (l' & Hr & Hok').
    { apply (ok_block _ _ _ _ Hok). }
    { cbn [restarted index_file contents]. rewrite (ok_index _ _ _ _ Hok), take_index. by apply (usable_prefix version first). }
    cbn [log_step]. unfold mbind, M_bind, modify. by rewrite Hr.
Qed.

(** C6: the two files of the block log behave as a list of blocks: whatever is
    appended, read and asked for, and however often the log is restarted with a
    complete, a cut-off or a lost index, the answers and exceptions are those of
    the list, and the files store it at the end. *)
Theorem block_log_refines_list ops l bs :
  log_ok first hdr bs l -> blocks_ok packable version first hdr bs -> fits first hdr bs ops ->
  let log := run_all (log_step wrap_std_exception) ops l in let list := run_all (list_step first) ops bs in
  log.1 = list.1 /\ log_ok first hdr list.2 log.2 /\ blocks_ok packable version first hdr list.2.
Proof.
  intros Hok Hb Hf. apply (run_all_simulated (log_step wrap_std_exception) (list_step first)
    (fun l bs => log_ok first hdr bs l /\ blocks_ok packable version first hdr bs) (fits first hdr)); [|done|done].
  intros op ops' l' bs'. apply log_step_simulated.
Qed.
End Refinement.
End Open.

(** ** A concrete log *)
Section Demo.
Definition demo_log_block (n : Z) : signed_block (Sig := Z) :=
  mk_signed_block (mk_signed (mk_block_header n 0 0 (mk_digest (demo_reverse (n - 1)) 0 0 0) zero_digest zero_digest 0 [] false None) 0) [] [].
Definition demo_log_blocks : list (signed_block (Sig := Z)) := [demo_log_block 1; demo_log_block 2; demo_log_block 3].
Definition demo_word (b : signed_block (Sig := Z)) : Z := u32 (_hash0 (previous (sh_header (sb_header b)))).
Definition demo_pack_block (b : signed_block (Sig := Z)) : list Z := replicate 14 0 ++ le_bytes 4 (demo_word b).
Definition demo_unpack_block (bs : list Z) : res (signed_block (Sig := Z) * list Z) :=
  match list_find (fun b => demo_word b = le_value (slice 14 4 bs)) demo_log_blocks with
  | Some (_, b) => Ok (b, drop 18 bs)
  | None => Err assert_exception
  end.
Definition demo_pack_genesis (g : genesis_state Z) : list Z :=
  let c := genesis_configuration Z g in
  [initial_timestamp Z g; initial_key Z g; max_block_net_usage c; target_block_net_usage_pct c; max_transaction_net_usage c;
   base_per_transaction_net_usage c; net_usage_leeway c; context_free_discount_net_usage_num c; context_free_discount_net_usage_den c;
   max_block_cpu_usage c; target_block_cpu_usage_pct c; max_transaction_cpu_usage c; min_transaction_cpu_usage c;
   max_transaction_lifetime c; deferred_trx_expiration_window c; cc_max_transaction_delay c; max_inline_action_size c;
   max_inline_action_depth c; cc_max_authority_depth c].
Definition demo_unpack_genesis (bs : list Z) : res (genesis_state Z * list Z) :=
  match bs with
  | t :: k :: a :: b :: c :: d :: e :: f :: g :: h :: i :: j :: l :: m :: n :: o :: p :: q :: r :: rest =>
      Ok (mk_genesis (mk_chain_config a b c d e f g h i j l m n o p q r) t k, rest)
  | _ => Err assert_exception
  end.

#[export] Instance demo_log_codec : log_codec Z := {|
  pack_block := demo_pack_block; unpack_block := demo_unpack_block;
  unpack_block_header bs := '(b, rest) ← demo_unpack_block bs; Ok (sh_header (sb_header b), rest);
  pack_genesis := demo_pack_genesis; unpack_genesis := demo_unpack_genesis;
  write_chain_id d := [_hash0 d; _hash1 d; _hash2 d; _hash3 d];
  read_chain_id bs := match bs with a :: b :: c :: d :: rest => Ok (mk_digest a b c d, rest) | _ => Err assert_exception end |}.

Lemma demo_blocks_cases b : b ∈ demo_log_blocks -> b = demo_log_block 1 \/ b = demo_log_block 2 \/ b = demo_log_block 3.
Proof. unfold demo_log_blocks. rewrite !elem_of_cons, elem_of_nil. tauto. Qed.
Lemma demo_block_read_back b rest : b ∈ demo_log_blocks -> demo_unpack_block (demo_pack_block b ++ rest) = Ok (b, rest).
Proof.
  intros [->|[->| ->]]%demo_blocks_cases.
  all: unfold demo_unpack_block, demo_pack_block; rewrite <- app_assoc, (slice_app (replicate 14 0)) by done.
  all: rewrite app_assoc, drop_app_length' by done; by vm_compute (list_find _ _).
Qed.

#[export] Instance demo_log_laws : log_codec_laws demo_log_codec (.∈ demo_log_blocks).
Proof.
  split.
  - apply demo_block_read_back.
  - intros b Hb. exists (pack_block b), []. rewrite app_nil_r. split; [done|]. intros rest.
    cbn [unpack_block_header demo_log_codec]. change (pack_block b) with (demo_pack_block b). by rewrite demo_block_read_back.
  - intros b [->|[->| ->]]%demo_blocks_cases; vm_compute; by split.
  - by intros [[]] rest.
  - by intros [] rest.
Qed.

Definition demo_genesis : genesis_state (@public_key demo_crypto) := mk_genesis initial_configuration 0 7.
Definition demo_empty_log : block_log (Sig := Z) := mk_block_log (mk_file [] 0) (mk_file [] 0) false None zero_digest 0 0 false.
(** A new log with the first block. *)
Definition demo_log : block_log (Sig := Z) := (reset_to_genesis id demo_genesis (Some (demo_log_block 1)) demo_empty_log).2.
Definition demo_header : list Z := header_of 1 (pack_genesis demo_genesis) 3.

Lemma demo_log_header : log_header 3 1 demo_header.
Proof. by apply (@header_genesis Z demo_crypto demo_log_codec 3 1 demo_genesis). Qed.
Lemma demo_log_ok : log_ok 1 demo_header [demo_log_block 1] demo_log.
Proof.
  destruct (reset_log_run id 1 (pack_genesis demo_genesis) demo_empty_log (Some (demo_log_block 1))) as (l & Hr & Hok); [by split; [reflexivity|split]|].
  unfold demo_log, reset_to_genesis. rewrite Hr. exact Hok.
Qed.
Lemma demo_blocks_ok : blocks_ok (.∈ demo_log_blocks) 3 1 demo_header [demo_log_block 1].
Proof.
  split; [by repeat constructor| |by vm_compute|done].
  intros [|[|i]] b; cbn; intros [=]. subst. reflexivity.
Qed.

(** Two blocks are appended and one is refused; the index is cut off and lost in
    between. *)
Definition demo_log_operations : list log_operation :=
  [op_head; op_append (demo_log_block 2); op_append (demo_log_block 2); op_read 2; op_restart 1; op_read_id 1;
   op_append (demo_log_block 3); op_restart 0; op_read 3; op_read 4; op_head].

Lemma block_log_refines_list_witness :
  let log := run_all (log_step id) demo_log_operations demo_log in
  log.1 = [Ok (ans_block (Some (demo_log_block 1))); Ok ans_done; Err block_log_append_fail; Ok (ans_block (Some (demo_log_block 2)));
           Ok ans_done; Ok (ans_id (sb_id (demo_log_block 1))); Ok ans_done; Ok ans_done; Ok (ans_block (Some (demo_log_block 3)));
           Ok (ans_block None); Ok (ans_block (Some (demo_log_block 3)))]
  /\ log_ok 1 demo_header demo_log_blocks log.2.
Proof.
  pose proof (block_log_refines_list (.∈ demo_log_blocks) id 3 1 demo_header demo_log_header demo_log_operations demo_log [demo_log_block 1]
    demo_log_ok demo_blocks_ok) as H. cbv zeta in H |- *. destruct H as (Ha & Hok & _).
  - split; [by repeat constructor|]. split; [by repeat constructor|]. by vm_compute.
  - rewrite Ha. split; [reflexivity|]. exact Hok.
Defined.
End Demo.
