(* ===== verification/BlockLogRepair.v ===== *)
(** * Repairing and trimming a block log ([block_log.cpp])

    [repair_log] copies the blocks of a damaged log up to the first that cannot
    be read or was not committed; [extract_chain_id] reads the header;
    [trim_blocklog_front] drops the blocks before a number and moves the others
    to the front.  Directories and backups are left out: a log is the bytes of
    its files.  The theorems show what is recovered, and that trimming moves a
    log whose kept part fits the copy buffer; an example shows that a position
    which crosses the border of two buffers is read from outside the bytes that
    were loaded. *)

From S2P Require Import Prelude Merkle Authority BlockHeader BlockHeaderState Transaction ApplyContext PushTransaction ChainConfig Block BlockLog BlockLogFacts BlockLogIndex BlockLogRefines.
#[local] Open Scope Z_scope.

Section Repair.
Context {Sig : Type} {C : crypto} {T : trx_codec Sig public_key} {L : log_codec Sig}.
Abbreviation block := (signed_block (Sig := Sig)).

(** ** [repair_log] *)

(** How the recovery ended. *)
Inductive recovery : Type :=
| recovered_all
| stopped_at_limit
| not_committed (b : block)
| unreadable (bytes_left : Z).

(** [rest] is what the old stream has left, [out] what was written; the next
    block has to be followed by [pos], its position in the new file. *)
Fixpoint recover (fuel : nat) (end_pos truncate_at_block : Z) (rest out : list Z) (pos n : Z) : res (list Z * Z * recovery) :=
  match fuel with
  | O => Err out_of_fuel
  | S fuel =>
      if pos <? end_pos then
        match unpack_block rest with
        | Err _ => Ok (out, n, unreadable (end_pos - pos))
        | Ok (tmp, rest) =>
            let tmp_pos := if 8 <=? size rest then le_value (slice 0 8 rest) else UINT64_MAX in
            if negb (pos =? tmp_pos) then Ok (out, n, not_committed tmp)
            else
              let out := out ++ pack_block tmp ++ le_bytes 8 pos in
              let n := sb_num tmp in
              let pos := size out in
              if n =? truncate_at_block then Ok (out, n, if pos <? end_pos then stopped_at_limit else recovered_all)
              else recover fuel end_pos truncate_at_block (drop 8 rest) out pos n
        end
      else Ok (out, n, recovered_all)
  end.

(** A read that comes up short leaves the variable as it was. *)
Definition stream_u32 (data : list Z) (initial : Z) : Z := if 4 <=? size data then le_value (slice 0 4 data) else initial.

(** The header is copied; the value is what follows it and the copy. *)
Definition copy_header (data : list Z) : res (list Z * list Z) :=
  let version := stream_u32 data 0 in
  eos_assert (version >? 0) block_log_exception;;
  eos_assert (is_supported_version version) block_log_unsupported_version;;
  let rest := drop 4 data in
  let out := le_bytes 4 version in
  '(first_block_num, rest, out) ←
    (if negb (version =? 1) then
       let first_block_num := stream_u32 rest 1 in
       eos_assert (first_block_num =? 1) block_log_exception;;
       Ok (first_block_num, drop 4 rest, out ++ le_bytes 4 first_block_num)
     else Ok (1, rest, out));
  '(rest, out) ←
    (if contains_genesis_state version first_block_num then
       '(gs, rest) ← unpack_genesis rest; Ok (rest, out ++ pack_genesis gs)
     else if contains_chain_id version first_block_num then
       '(chain_id, rest) ← read_chain_id rest; Ok (rest, out ++ write_chain_id chain_id)
     else Err block_log_exception);
  if negb (version =? 1) then
    if size rest <? 8 then Err undefined_behaviour
    else
      let actual_totem := le_value (slice 0 8 rest) in
      eos_assert (actual_totem =? npos) block_log_exception;;
      Ok (drop 8 rest, out ++ le_bytes 8 actual_totem)
  else Ok (rest, out).

Definition repair_log (data : list Z) (truncate_at_block : Z) : res (list Z * Z * recovery) :=
  '(rest, out) ← copy_header data;
  recover (S (length data)) (size data) truncate_at_block rest out (size data - size rest) 0.

(** ** The chain id of a log *)
Definition extract_chain_id (data : list Z) : res digest_type :=
  let version := stream_u32 data 0 in
  eos_assert ((version >=? min_supported_version) && (version <=? max_supported_version)) block_log_unsupported_version;;
  let rest := drop 4 data in
  let '(first_block_num, rest) := if negb (version =? 1) then (stream_u32 rest 1, drop 4 rest) else (1, rest) in
  if contains_genesis_state version first_block_num then
    '(gs, _) ← unpack_genesis rest; Ok (compute_chain_id gs)
  else
    eos_assert (contains_chain_id version first_block_num) block_log_exception;;
    '(chain_id, _) ← read_chain_id rest; Ok chain_id.

Definition extract_genesis_state (data : list Z) : res (option (genesis_state public_key)) :=
  let version := stream_u32 data 0 in
  eos_assert ((version >=? min_supported_version) && (version <=? max_supported_version)) block_log_unsupported_version;;
  let rest := drop 4 data in
  let '(first_block_num, rest) := if negb (version =? 1) then (stream_u32 rest 1, drop 4 rest) else (1, rest) in
  if contains_genesis_state version first_block_num then '(gs, _) ← unpack_genesis rest; Ok (Some gs) else Ok None.

(** ** [trim_data] *)
Record trim_data : Type := mk_trim_data {
  td_version : Z;
  first_block : Z;
  last_block : Z;
  td_chain_id : digest_type }.

Definition block_index (t : trim_data) (n : Z) : res Z :=
  eos_assert (first_block t <=? n) block_log_exception;;
  eos_assert (n <=? last_block t) block_log_exception;;
  Ok (8 * u32 (n - first_block t)).

(** [here] is where the block file is read at the moment. *)
Definition trim_block_pos (data idx : list Z) (here : Z) (t : trim_data) (n : Z) : res Z :=
  if n =? u32 (last_block t + 1) then Ok here
  else
    index_pos ← block_index t n;
    eos_assert (index_pos + 8 <=? size idx) block_log_exception;;
    let block_n_pos := le_value (slice index_pos 8 idx) in
    let calc_blknum_pos := u64 (block_n_pos + blknum_offset) in
    eos_assert (calc_blknum_pos + 4 <=? size data) block_log_exception;;
    let bnum := u32 (endian_reverse_u32 (le_value (slice calc_blknum_pos 4 data)) + 1) in
    eos_assert (bnum =? n) block_log_exception;;
    Ok block_n_pos.

Definition trim_open (data idx : list Z) : res trim_data :=
  eos_assert (4 <=? size data) block_log_unsupported_version;;
  let version := le_value (slice 0 4 data) in
  eos_assert (is_supported_version version) block_log_unsupported_version;;
  '(first, chain_id, rest) ←
    (if version =? 1 then '(gs, rest) ← unpack_genesis (drop 4 data); Ok (1, compute_chain_id gs, rest)
     else
       eos_assert (8 <=? size data) block_log_exception;;
       let first := le_value (slice 4 4 data) in
       '(chain_id, rest) ←
         (if contains_genesis_state version first then '(gs, rest) ← unpack_genesis (drop 8 data); Ok (compute_chain_id gs, rest)
          else if contains_chain_id version first then read_chain_id (drop 8 data)
          else Err block_log_exception);
       eos_assert (8 <=? size rest) block_log_exception;;
       eos_assert (le_value (slice 0 8 rest) =? npos) block_log_exception;;
       Ok (first, chain_id, drop 8 rest));
  let start_of_blocks := size data - size rest in
  let last := u32 (first + size idx / 8 - 1) in
  let t := mk_trim_data version first last chain_id in
  first_block_pos ← trim_block_pos data idx start_of_blocks t first;
  eos_assert (start_of_blocks =? first_block_pos) block_log_exception;;
  Ok t.

(** ** [trim_blocklog_front] *)

(** Within the loaded bytes, from the last position to the first: each is moved
    by [pos_delta] and handed to the index writer.  A position that is not
    wholly inside of the loaded bytes would be read, and written, behind them. *)
Fixpoint walk_buffer (fuel : nat) (max_len start pos_delta : Z) (buf : list Z) (original_pos : Z) (w : index_writer)
    : res (list Z * Z * index_writer) :=
  match fuel with
  | O => Err out_of_fuel
  | S fuel =>
      if original_pos >=? start then
        let buffer_index := original_pos - start in
        if buffer_index + 8 <=? size buf then
          let start_of_this_block := le_value (slice buffer_index 8 buf) in
          let pos_content := u64 (start_of_this_block - pos_delta) in
          let buf := take (Z.to_nat buffer_index) buf ++ le_bytes 8 pos_content ++ drop (Z.to_nat (buffer_index + 8)) buf in
          w ← writer_write max_len pos_content w;
          walk_buffer fuel max_len start pos_delta buf (u64 (start_of_this_block - 8)) w
        else Err undefined_behaviour
      else Ok (buf, original_pos, w)
  end.

Fixpoint copy_back (fuel : nat) (buf_len max_len : Z) (data : list Z) (file_block_pos pos_delta new_first_pos : Z)
    (to_write_remaining original_pos : Z) (f : file) (w : index_writer) : res (file * index_writer) :=
  match fuel with
  | O => Err out_of_fuel
  | S fuel =>
      if to_write_remaining >? 0 then
        let read_size := if to_write_remaining >? buf_len then buf_len else to_write_remaining in
        let start := file_block_pos + to_write_remaining - read_size in
        '(buf, original_pos, w) ← walk_buffer (S (length data)) max_len start pos_delta (slice start read_size data) original_pos w;
        let f := (fwrite buf (mk_file (contents f) (new_first_pos + to_write_remaining - read_size))).2 in
        copy_back fuel buf_len max_len data file_block_pos pos_delta new_first_pos (to_write_remaining - read_size) original_pos f w
      else Ok (f, w)
  end.

(** The new block file and the new index, or [None] where nothing is done. *)
Definition trim_blocklog_front (buf_len max_len : Z) (data idx : list Z) (truncate_at_block : Z) : res (option (list Z * list Z)) :=
  original ← trim_open data idx;
  if truncate_at_block <=? first_block original then Ok None
  else if truncate_at_block >? last_block original then Ok None
  else
    let header := le_bytes 4 max_supported_version ++ le_bytes 4 truncate_at_block ++ write_chain_id (td_chain_id original) ++ le_bytes 8 npos in
    let new_first_pos := size header in
    file_block_pos ← trim_block_pos data idx 0 original truncate_at_block;
    let pos_delta := u64 (file_block_pos - new_first_pos) in
    let to_write := u64 (size data - file_block_pos) in
    let num_blocks := u32 (last_block original - truncate_at_block + 1) in
    '(f, w) ← copy_back (S (length data)) buf_len max_len data file_block_pos pos_delta new_first_pos to_write (size data - 8)
                (mk_file header (size header)) (new_index_writer num_blocks);
    w ← writer_complete max_len w;
    Ok (Some (contents f, match iw_file w with Some f => contents f | None => [] end)).
End Repair.

(** * What is recovered *)
Section Theorems.
Context {Sig : Type} {C : crypto} {T : trx_codec Sig public_key} {L : log_codec Sig}.
Context (packable : signed_block (Sig := Sig) -> Prop) `{!crypto_laws C} `{!log_codec_laws L packable}.
Abbreviation block := (signed_block (Sig := Sig)).
Implicit Types (b : block) (bs : list block).

Lemma slice_front n a c : n = size a -> slice 0 n (a ++ c) = a.
Proof. intros. by apply (slice_app []). Qed.

(** The bytes start with a block that is followed by its position [pos]. *)
Definition committed (pos : Z) (bytes : list Z) : bool :=
  match unpack_block bytes with
  | Ok (_, rest) => pos =? (if 8 <=? size rest then le_value (slice 0 8 rest) else UINT64_MAX)
  | Err _ => false
  end.

(** The blocks up to the one with number [limit], or all where there is none. *)
Definition up_to (limit n : Z) bs : list block := if (n <? limit) && (limit <=? n + Z.of_nat (length bs)) then take (Z.to_nat (limit - n)) bs else bs.

Lemma up_to_nil limit n : up_to limit n [] = [].
Proof. unfold up_to. destruct (_ && _); [apply take_nil|done]. Qed.

Lemma up_to_cons limit n b bs : up_to limit n (b :: bs) = b :: (if n + 1 =? limit then [] else up_to limit (n + 1) bs).
Proof.
  unfold up_to. cbn [length]. destruct (n + 1 =? limit) eqn:E; btests.
  - rewrite (proj2 (andb_true_iff _ _)) by (split; [apply Z.ltb_lt|apply Z.leb_le]; lia).
    by replace (Z.to_nat (limit - n)) with 1%nat by lia.
  - destruct ((n <? limit) && (limit <=? n + Z.of_nat (S (length bs)))) eqn:E1; btests.
    + rewrite (proj2 (andb_true_iff _ _)) by (split; [apply Z.ltb_lt|apply Z.leb_le]; lia).
      replace (Z.to_nat (limit - n)) with (S (Z.to_nat (limit - (n + 1)))) by lia. done.
    + rewrite (proj2 (andb_false_iff _ _)); [done|]. apply andb_false_iff in E1 as [E1|E1]; btests; [left; apply Z.ltb_ge; lia|right; apply Z.leb_gt; lia].
Qed.

Lemma up_to_prefix limit n bs : exists k, up_to limit n bs = take k bs.
Proof. unfold up_to. destruct (_ && _); [eauto|]. exists (length bs). by rewrite firstn_all. Qed.

(** Reading goes on while blocks and positions fit together. *)
Lemma recover_run fuel limit bs junk out n end_pos :
  Forall packable bs -> (forall i b, bs !! i = Some b -> sb_num b = n + 1 + Z.of_nat i) ->
  end_pos = size out + size (entries (size out) bs) + size junk -> end_pos < 2 ^ 63 ->
  junk = [] \/ committed (size out + size (entries (size out) bs)) junk = false ->
  (length bs < fuel)%nat ->
  exists r, recover fuel end_pos limit (entries (size out) bs ++ junk) out (size out) n
      = Ok (out ++ entries (size out) (up_to limit n bs), n + Z.of_nat (length (up_to limit n bs)), r)
    /\ (r = recovered_all <-> up_to limit n bs = bs /\ junk = []).
Proof.
  revert bs out n. induction fuel as [|fuel IH]; intros bs out n Hp Hn He Hmax Hj Hfuel; [lia|]. cbn [recover].
  pose proof (size_nonneg out) as Hout. pose proof (size_nonneg junk) as Hjunk. destruct bs as [|b bs].
  - rewrite up_to_nil. cbn [entries length] in *. change (size []) with 0 in *. rewrite app_nil_r, app_nil_l, !Z.add_0_r in *. destruct Hj as [->|Hj].
    + change (size []) with 0 in He. rewrite (proj2 (Z.ltb_ge _ _)) by lia. by eexists.
    + assert (junk = [] -> size out = end_pos) as Hnil by (intros ->; change (size []) with 0 in He; lia).
      destruct (size out <? end_pos) eqn:E; btests.
      2: { exists recovered_all. split; [done|]. split; [|done]. intros _. split; [done|]. apply nil_length_inv. unfold size in *. lia. }
      unfold committed in Hj. destruct (unpack_block junk) as [[tmp rest]|ex] eqn:Eu; cbv zeta.
      * rewrite Hj. cbn [negb]. eexists. split; [done|]. split; [done|]. intros [_ HF]. apply Hnil in HF. lia.
      * eexists. split; [done|]. split; [done|]. intros [_ HF]. apply Hnil in HF. lia.
  - rewrite up_to_cons. apply Forall_cons in Hp as [Hpb Hp]. destruct (previous_in_block b Hpb) as [Hsz _]. unfold blknum_offset in Hsz.
    cbn [entries] in *. rewrite !size_app, size_le_bytes in He. rewrite !size_app, size_le_bytes in Hj.
    match type of He with context [entries ?p bs] => pose proof (size_nonneg (entries p bs)) as Hrest end.
    rewrite (proj2 (Z.ltb_lt (size out) end_pos)) by lia. rewrite <- !app_assoc, unpack_pack_block by done. cbv zeta.
    rewrite size_app, size_le_bytes, (proj2 (Z.leb_le 8 _)) by (rewrite size_app; lia).
    rewrite slice_front by (by rewrite size_le_bytes). rewrite le_u64 by (unfold is_u64; lia).
    rewrite Z.eqb_refl. cbn [negb]. rewrite (Hn 0%nat b eq_refl), Z.add_0_r.
    assert (size (out ++ pack_block b ++ le_bytes 8 (size out)) = size out + size (pack_block b) + 8) as Hs by (rewrite !size_app, size_le_bytes; lia).
    rewrite Hs. destruct (n + 1 =? limit) eqn:El; btests.
    + cbn [entries length]. rewrite app_nil_r. eexists. split; [reflexivity|].
      destruct (_ <? end_pos) eqn:E; btests; split; try done.
      * intros [Hb ->]. injection Hb as <-. exfalso. cbn [entries] in *. change (size []) with 0 in *. lia.
      * intros _. rewrite <- Hs in *. destruct bs as [|b' bs].
        -- split; [done|]. apply nil_length_inv. unfold size in *. lia.
        -- exfalso. cbn [entries] in He. rewrite !size_app, size_le_bytes in He.
           match type of He with context [entries ?p bs] => pose proof (size_nonneg (entries p bs)) end. pose proof (size_nonneg (pack_block b')). lia.
    + rewrite (drop_size (le_bytes 8 (size out)) _ 8) by (by rewrite size_le_bytes). rewrite <- Hs in He, Hj |- *.
      edestruct (IH bs (out ++ pack_block b ++ le_bytes 8 (size out)) (n + 1)) as (r & Hr & Hall);
        [done|intros i x Hi; rewrite (Hn (S i) x Hi); lia|rewrite Hs in He |- *; lia|lia| |cbn in Hfuel; lia|].
      { destruct Hj as [Hj|Hj]; [by left|right]. rewrite <- Hj. f_equal. rewrite Hs. lia. }
      exists r. split.
      * rewrite Hr, <- !app_assoc. cbn [length]. do 3 f_equal. lia.
      * rewrite Hall. split; [intros [-> ?]; done|]. by intros [[=] ?].
Qed.

(** ** Headers *)
Lemma read_version x a d : is_u32 x -> stream_u32 (le_bytes 4 x ++ a) d = x.
Proof.
  intros Hx. unfold stream_u32. pose proof (size_nonneg a). rewrite (proj2 (Z.leb_le 4 _)) by (rewrite size_app, size_le_bytes; lia).
  rewrite slice_front by (by rewrite size_le_bytes). by apply le_u32.
Qed.
Lemma skip_u32 x a : drop 4 (le_bytes 4 x ++ a) = a.
Proof. by apply (drop_size (le_bytes 4 x) a 4). Qed.

Lemma read_totem rest : (size (le_bytes 8 npos ++ rest) <? 8) = false /\ le_value (slice 0 8 (le_bytes 8 npos ++ rest)) = npos
  /\ drop 8 (le_bytes 8 npos ++ rest) = rest.
Proof.
  pose proof (size_nonneg rest). split_and!; [| |done].
  - apply Z.ltb_ge. rewrite size_app, size_le_bytes. lia.
  - rewrite slice_front by (by rewrite size_le_bytes). apply le_u64. unfold is_u64, npos, UINT64_MAX. lia.
Qed.

Lemma copy_header_run version hdr rest : log_header version 1 hdr -> copy_header (hdr ++ rest) = Ok (rest, hdr).
Proof.
  intros Hh. inversion Hh as [gs Hs|v f gs Hv Hf H1 Hg|v f id Hv Hf H1 Hg]; subst; unfold copy_header; rewrite <- !app_assoc, read_version, skip_u32 by (unfold is_u32; lia).
  - cbn -[le_bytes]. by rewrite unpack_pack_genesis.
  - destruct (read_totem rest) as (Ht1 & Ht2 & Ht3).
    unfold is_supported_version, min_supported_version, max_supported_version.
    rewrite Z.gtb_ltb, (proj2 (Z.ltb_lt _ _)), (proj2 (andb_true_iff _ _)) by first [lia|split; apply Z.leb_le; lia]. cbn [eos_assert mbind res_bind].
    rewrite (proj2 (Z.eqb_neq version 1)) by lia. cbn [negb mbind res_bind]. rewrite read_version, skip_u32 by (unfold is_u32; lia). cbn [eos_assert mbind res_bind Z.eqb Pos.eqb].
    rewrite Hg, unpack_pack_genesis. cbn [mbind res_bind]. rewrite Ht1, Ht2, Ht3. cbn -[le_bytes]. by rewrite <- !app_assoc.
  - unfold contains_genesis_state in Hg. by rewrite orb_true_r in Hg.
Qed.

Lemma entries_length pos bs : (length bs <= length (entries pos bs))%nat.
Proof.
  revert pos. induction bs as [|b bs IH]; intros pos; cbn [entries length]; [done|].
  specialize (IH (pos + size (pack_block b) + 8)). rewrite !length_app, length_le_bytes. lia.
Qed.

Lemma blocks_ok_take version first hdr bs k : blocks_ok packable version first hdr bs -> (version = 1 -> take k bs <> []) ->
  blocks_ok packable version first hdr (take k bs).
Proof.
  intros [Hp Hn Hr _] Hv. split; [by apply Forall_take| | |done].
  - intros i b Hi. apply Hn. by apply lookup_take_Some in Hi as [? _].
  - pose proof (entries_app (size hdr) (take k bs) (drop k bs)) as E. rewrite take_drop in E. rewrite E, !size_app in Hr. rewrite size_app.
    match type of Hr with context [entries ?p (drop k bs)] => pose proof (size_nonneg (entries p (drop k bs))) end. lia.
Qed.

Lemma up_to_nonempty limit bs : bs <> [] -> up_to limit 0 bs <> [].
Proof. destruct bs as [|b bs]; [done|]. by rewrite up_to_cons. Qed.

(** C28: whatever follows the last block that was written completely, a repaired
    log holds the header and the complete blocks, up to a limit if one is given
    that the log reaches; the result tells the last number, and that nothing was
    lost exactly when all blocks were kept and nothing else followed; the log can
    be opened with an empty index. *)
Theorem repair_recovers version hdr bs junk limit l :
  log_header version 1 hdr -> blocks_ok packable version 1 hdr bs -> Z.of_nat (length bs) < 2 ^ 29 ->
  size (hdr ++ entries (size hdr) bs ++ junk) < 2 ^ 63 ->
  junk = [] \/ committed (size hdr + size (entries (size hdr) bs)) junk = false ->
  let kept := up_to limit 0 bs in
  exists repaired r l',
    repair_log (hdr ++ entries (size hdr) bs ++ junk) limit = Ok (repaired, Z.of_nat (length kept), r)
    /\ repaired = hdr ++ entries (size hdr) kept
    /\ (r = recovered_all <-> kept = bs /\ junk = [])
    /\ log_open (set_block_file (mk_file repaired 0) (set_index_file (mk_file [] 0) l)) = (Ok tt, l')
    /\ log_ok 1 hdr kept l'.
Proof.
  intros Hh Hb Hsmall Hsz Hj kept. pose proof Hb as [Hp Hn _ Hv]. rewrite !size_app in Hsz.
  edestruct (recover_run (S (length (hdr ++ entries (size hdr) bs ++ junk))) limit bs junk hdr 0) as (r & Hr & Hall);
    [done|intros i b Hi; by rewrite (Hn _ _ Hi)|done|lia|done| |].
  { pose proof (entries_length (size hdr) bs). rewrite !length_app. lia. }
  assert (blocks_ok packable version 1 hdr kept) as Hk.
  { destruct (up_to_prefix limit 0 bs) as (k & Ek). unfold kept in *. rewrite Ek. apply blocks_ok_take; [done|]. intros Hv1. rewrite <- Ek. by apply up_to_nonempty, Hv. }
  assert (Z.of_nat (length kept) < 2 ^ 29) as Hks.
  { destruct (up_to_prefix limit 0 bs) as (k & Ek). unfold kept. rewrite Ek, length_take. lia. }
  destruct (log_open_run packable version 1 hdr kept Hh Hk Hks (set_block_file (mk_file (hdr ++ entries (size hdr) kept) 0) (set_index_file (mk_file [] 0) l)))
    as (l' & Ho & Hok); [done|by left|].
  exists (hdr ++ entries (size hdr) kept), r, l'. split; [|done].
  unfold repair_log. rewrite (copy_header_run version) by done. cbn [mbind res_bind]. rewrite !size_app.
  replace (size hdr + (size (entries (size hdr) bs) + size junk) - (size (entries (size hdr) bs) + size junk)) with (size hdr) by lia.
  replace (size hdr + (size (entries (size hdr) bs) + size junk)) with (size hdr + size (entries (size hdr) bs) + size junk) by lia. exact Hr.
Qed.
End Theorems.

(** ** The demonstration log *)
Section Demo.
Lemma demo_three_ok : blocks_ok (.∈ demo_log_blocks) 3 1 demo_header demo_log_blocks.
Proof.
  split; [by repeat constructor| |by vm_compute|done].
  intros [|[|[|[|i]]]] b; cbn; intros [=]; subst; reflexivity.
Qed.

(** A third block follows whose position is missing. *)
Lemma repair_recovers_witness :
  exists repaired l', repair_log (demo_header ++ entries (size demo_header) (take 2 demo_log_blocks) ++ pack_block (demo_log_block 3)) 0
      = Ok (repaired, 2, not_committed (demo_log_block 3))
    /\ log_open (set_block_file (mk_file repaired 0) (set_index_file (mk_file [] 0) demo_empty_log)) = (Ok tt, l')
    /\ log_ok 1 demo_header (take 2 demo_log_blocks) l'.
Proof.
  destruct (repair_recovers (.∈ demo_log_blocks) 3 demo_header (take 2 demo_log_blocks) (pack_block (demo_log_block 3)) 0 demo_empty_log) as (rep & r & l' & Hr & Hrep & _ & Ho & Hok).
  - apply demo_log_header.
  - apply (blocks_ok_take (.∈ demo_log_blocks)); [apply demo_three_ok|done].
  - by vm_compute.
  - by vm_compute.
  - right. reflexivity.
  - exists rep, l'. split; [|by split]. rewrite Hrep. reflexivity.
Defined.

(** ** Trimming *)
Definition demo_data : list Z := demo_header ++ entries (size demo_header) demo_log_blocks.
Definition demo_index : list Z := index_image (positions (size demo_header) demo_log_blocks).

(** The kept blocks fit the copy buffer: they follow the new header and the
    index has their new positions. *)
Example trimmed_log :
  let hdr := le_bytes 4 3 ++ le_bytes 4 2 ++ write_chain_id (compute_chain_id demo_genesis) ++ le_bytes 8 npos in
  trim_blocklog_front iterator_buf_len writer_max_buffer_length demo_data demo_index 2
  = Ok (Some (hdr ++ entries (size hdr) (drop 1 demo_log_blocks), index_image (positions (size hdr) (drop 1 demo_log_blocks)))).
Proof. reflexivity. Qed.

(** With a buffer of 30 bytes the position behind block 2 lies in two buffers:
    it is read beyond the bytes that the second read loaded. *)
Example border_crossing : trim_blocklog_front 30 writer_max_buffer_length demo_data demo_index 2 = Err undefined_behaviour.
Proof. reflexivity. Qed.
End Demo.
