(* ===== verification/AbiSerializer.v ===== *)
(** * The ABI serializer ([abi_serializer.hpp], [abi_serializer.cpp], [abi_def.hpp])

    An ABI names the types of a contract: structs with fields and a base,
    variants, arrays, optionals, synonyms, and the built-in types.  The
    serializer takes such a definition, checks it ([set_abi], [validate_abi]), and
    converts values of library fc to bytes and back.

    [fc::variant] is [fc_variant].  The built-in types are a map from names to a
    pair of functions, as in the code; what these functions do (packing of
    library fc) and the coding of sizes is the class [builtin_types].

    A traversal has a context: the depth of the recursion, whether missing
    extensions are allowed, and the stream, of which a reader holds the bytes
    that are left and a writer the bytes that are written.  The yield function
    is called at every scope with the depth and throws when the depth or the
    time exceeds its limit; here it also gets the number of calls before, on
    which the time may depend.  The calls that conversions of built-in values
    make to it, and the paths that only error messages use, are left out. *)

From S2P Require Import Prelude.
From stdpp Require Import strings.
#[local] Open Scope Z_scope.

(** ** Definitions of an ABI *)
Record type_def : Type := mk_type_def { new_type_name : string; td_type : string }.
Record field_def : Type := mk_field { fd_name : string; fd_type : string }.
Record struct_def : Type := mk_struct { st_name : string; st_base : string; st_fields : list field_def }.
Record action_def : Type := mk_action_def { ad_name : Z; ad_type : string; ricardian_contract : string }.
Record table_def : Type := mk_table_def {
  tbd_name : Z;
  tbd_index_type : string;
  tbd_key_names : list string;
  tbd_key_types : list string;
  tbd_type : string }.
Record error_message : Type := mk_error_message { error_code : Z; error_msg : string }.
Record variant_def : Type := mk_variant { vd_name : string; vd_types : list string }.
Record abi_def : Type := mk_abi {
  abi_version : string;
  abi_types : list type_def;
  abi_structs : list struct_def;
  abi_actions : list action_def;
  abi_tables : list table_def;
  ricardian_clauses : list (string * string);
  abi_error_messages : list error_message;
  abi_extensions : list (Z * list Z);
  abi_variants : list variant_def }.

(** ** Values *)
#[warnings="-register-all"]
Inductive fc_variant : Type :=
| v_null
| v_int64 (x : Z)
| v_uint64 (x : Z)
| v_double (bits : Z)
| v_bool (b : bool)
| v_string (s : string)
| v_array (l : list fc_variant)
| v_object (o : list (string * fc_variant))
| v_blob (bytes : list Z).

Definition is_null (v : fc_variant) : bool := match v with v_null => true | _ => false end.
Definition get_array (v : fc_variant) : res (list fc_variant) :=
  match v with v_array l => Ok l | _ => Err fc_bad_cast_exception end.

(** The first entry of an object with a name; [obj(name, value)] replaces it or
    adds an entry at the end. *)
Fixpoint lookup_field (name : string) (o : list (string * fc_variant)) : option fc_variant :=
  match o with
  | [] => None
  | (n, v) :: o => if bool_decide (n = name) then Some v else lookup_field name o
  end.
Fixpoint set_field (name : string) (v : fc_variant) (o : list (string * fc_variant)) : list (string * fc_variant) :=
  match o with
  | [] => [(name, v)]
  | (n, w) :: o => if bool_decide (n = name) then (n, v) :: o else (n, w) :: set_field name v o
  end.

(** ** Strings *)
Definition ends_with (s suffix : string) : bool :=
  let n := String.length s in
  let k := String.length suffix in
  (k <=? n)%nat && bool_decide (String.substring (n - k) k s = suffix).
Definition without_last (k : nat) (s : string) : string := String.substring 0 (String.length s - k) s.

(** A string up to its first NUL. *)
Fixpoint c_string (s : string) : string :=
  match s with
  | EmptyString => EmptyString
  | String c s => if bool_decide (c = Ascii.zero) then EmptyString else String c (c_string s)
  end.

Definition is_array (type : string) : bool := ends_with type "[]".
Definition is_optional (type : string) : bool := ends_with type "?".
Definition is_extension (type : string) : bool := ends_with type "$".
Definition fundamental_type (type : string) : string :=
  if is_array type then without_last 2 type
  else if is_optional type then without_last 1 type
  else type.
Definition remove_bin_extension (type : string) : string :=
  if is_extension type then without_last 1 type else type.
Definition is_integer (type : string) : bool := String.prefix "uint" type || String.prefix "int" type.

(** ** The context of a traversal *)
Definition yield_function : Type := nat -> Z -> res unit.

Record traverse_context : Type := mk_context {
  yields : nat;
  recursion_depth : Z;
  allow_extensions : bool;
  stream : list Z;
  stream_limit : Z }.
Abbreviation TM := (M traverse_context).

Definition set_yields n c := mk_context n (recursion_depth c) (allow_extensions c) (stream c) (stream_limit c).
Definition set_depth d c := mk_context (yields c) d (allow_extensions c) (stream c) (stream_limit c).
Definition set_allow b c := mk_context (yields c) (recursion_depth c) b (stream c) (stream_limit c).
Definition set_stream s c := mk_context (yields c) (recursion_depth c) (allow_extensions c) s (stream_limit c).

Definition new_traverse (s : list Z) (limit : Z) : traverse_context := mk_context 0 0 true s limit.

Definition max_recursion_depth : Z := 32.

(** [create_yield_function]; [now] is the time at each call. *)
Definition create_yield_function (max_serialization_time start : Z) (now : nat -> Z) : yield_function :=
  let deadline := if max_serialization_time >? INT64_MAX - start then INT64_MAX else start + max_serialization_time in
  fun i depth =>
    eos_assert (depth <? max_recursion_depth) abi_recursion_depth_exception;;
    eos_assert (now i <? deadline) abi_serialization_deadline_exception.

(** A chain exception passes, another one becomes [to]. *)
Definition is_chain_exception (ex : exn) : bool :=
  match ex with
  | out_of_fuel | undefined_behaviour | aborted | assert_exception | fc_std_exception | std_out_of_range | std_logic_error
  | std_runtime_error | fc_out_of_range_exception | fc_bad_cast_exception | fc_key_not_found_exception => false
  | _ => true
  end.
Definition not_thrown (ex : exn) : bool := match ex with out_of_fuel | undefined_behaviour | aborted => true | _ => false end.
Definition rethrow_exceptions {A} (to : exn) (m : TM A) : TM A := fun c =>
  match m c with
  | (Err ex, c) => (Err (if is_chain_exception ex || not_thrown ex then ex else to), c)
  | r => r
  end.
(** ** The functions of the built-in types *)
Definition unpack_function : Type := list Z -> bool -> bool -> res (fc_variant * list Z).
Definition pack_function : Type := fc_variant -> bool -> bool -> res (list Z).

Definition unpack_of (f : unpack_function * pack_function) : unpack_function := f.1.
Definition pack_of (f : unpack_function * pack_function) : pack_function := f.2.

Class builtin_types : Type := {
  builtin_functions : string -> unpack_function * pack_function;
  pack_unsigned_int : Z -> list Z;
  unpack_unsigned_int : list Z -> res (Z * list Z);
  as_bytes : fc_variant -> res (list Z) }.

Definition builtin_names : list string :=
  ["bool"; "int8"; "uint8"; "int16"; "uint16"; "int32"; "uint32"; "int64"; "uint64"; "int128"; "uint128"; "varint32"; "varuint32";
   "float32"; "float64"; "float128"; "time_point"; "time_point_sec"; "block_timestamp_type"; "name"; "bytes"; "string";
   "checksum160"; "checksum256"; "checksum512"; "public_key"; "signature"; "symbol"; "symbol_code"; "asset"; "extended_asset"]%string.

Record abi_serializer : Type := mk_serializer {
  typedefs : gmap string string;
  structs : gmap string struct_def;
  actions : gmap Z string;
  tables : gmap Z string;
  error_messages : gmap Z string;
  variants : gmap string variant_def;
  built_in_types : gmap string (unpack_function * pack_function) }.

Definition set_typedefs m a := mk_serializer m (structs a) (actions a) (tables a) (error_messages a) (variants a) (built_in_types a).
Definition set_structs m a := mk_serializer (typedefs a) m (actions a) (tables a) (error_messages a) (variants a) (built_in_types a).
Definition set_actions m a := mk_serializer (typedefs a) (structs a) m (tables a) (error_messages a) (variants a) (built_in_types a).
Definition set_tables m a := mk_serializer (typedefs a) (structs a) (actions a) m (error_messages a) (variants a) (built_in_types a).
Definition set_error_messages m a := mk_serializer (typedefs a) (structs a) (actions a) (tables a) m (variants a) (built_in_types a).
Definition set_variants m a := mk_serializer (typedefs a) (structs a) (actions a) (tables a) (error_messages a) m (built_in_types a).
Definition set_built_in m a := mk_serializer (typedefs a) (structs a) (actions a) (tables a) (error_messages a) (variants a) m.

Definition configure_built_in_types `{builtin_types} (a : abi_serializer) : abi_serializer :=
  set_built_in (built_in_types a ∪ list_to_map (map (fun n => (n, builtin_functions n)) builtin_names)) a.
Definition add_specialized_unpack_pack (name : string) (f : unpack_function * pack_function) (a : abi_serializer) : abi_serializer :=
  set_built_in (<[name := f]> (built_in_types a)) a.
Definition empty_serializer `{builtin_types} : abi_serializer := configure_built_in_types (mk_serializer ∅ ∅ ∅ ∅ ∅ ∅ ∅).

(** A map visited in the order of its keys. *)
Definition by_name {A} (m : gmap string A) : list (string * A) :=
  omap (fun k => pair k <$> m !! k) (merge_sort String.le (elements (dom m))).
Definition by_key {A} (m : gmap Z A) : list (Z * A) :=
  omap (fun k => pair k <$> m !! k) (merge_sort Z.le (elements (dom m))).

Section Types.
Context (a : abi_serializer).

Definition is_builtin_type (type : string) : bool := bool_decide (is_Some (built_in_types a !! type)).

(** [resolve_type] follows at most as many synonyms as there are. *)
Fixpoint resolve_loop (i : nat) (type t : string) : string :=
  match i with
  | O => type
  | S i => match typedefs a !! t with None => t | Some t' => resolve_loop i type t' end
  end.
Definition resolve_type (type : string) : string :=
  match typedefs a !! type with
  | Some t => resolve_loop (size (typedefs a)) type t
  | None => type
  end.

Definition is_struct (type : string) : bool := bool_decide (is_Some (structs a !! resolve_type type)).
Definition get_struct (type : string) : res struct_def :=
  match structs a !! resolve_type type with Some st => Ok st | None => Err invalid_type_inside_abi end.

Definition get_action_type (action : Z) : string := default ""%string (actions a !! action).
Definition get_table_type (table : Z) : string := default ""%string (tables a !! table).
Definition get_error_message (code : Z) : option string := error_messages a !! code.
End Types.

(** ** Traversal *)
Section Traverse.
Context (yield : yield_function).

Definition call_yield (depth : Z) : TM unit :=
  c ← get;
  modify (set_yields (S (yields c)));;
  lift (yield (yields c) depth).
Definition check_deadline : TM unit := c ← get; call_yield (recursion_depth c).

(** [enter_scope]: the depth is restored when the scope is left, however that
    happens; when the yield function throws there is no scope yet. *)
Definition restoring_depth {A} (depth : Z) (m : TM A) : TM A := fun c => let '(r, c) := m c in (r, set_depth depth c).
Definition in_scope {A} (m : TM A) : TM A :=
  c ← get;
  modify (set_depth (recursion_depth c + 1));;
  call_yield (recursion_depth c + 1);;
  restoring_depth (recursion_depth c) m.

(** [disallow_extensions_unless], for the rest of the block. *)
Definition disallow_extensions_unless {A} (condition : bool) (m : TM A) : TM A := fun c =>
  let '(r, c') := m (if condition then c else set_allow false c) in (r, set_allow (allow_extensions c) c').

Fixpoint is_type_loop (a : abi_serializer) (fuel : nat) (rtype : string) : TM bool :=
  match fuel with
  | O => throw out_of_fuel
  | S fuel =>
      in_scope (
        let type := fundamental_type rtype in
        if is_builtin_type a type then mret true
        else match typedefs a !! type with
             | Some t => is_type_loop a fuel t
             | None => mret (bool_decide (is_Some (structs a !! type)) || bool_decide (is_Some (variants a !! type)))
             end)
  end.

Definition is_type (a : abi_serializer) (fuel : nat) (type : string) : res bool := (is_type_loop a fuel type (new_traverse [] 0)).1.
End Traverse.

(** [visit_all f l]: [f] for the elements of [l] in their order. *)
Fixpoint visit_all {S A} (f : A -> M S unit) (l : list A) : M S unit :=
  match l with [] => mret tt | x :: l => f x;; visit_all f l end.

(** ** [validate_abi]

    [fuel] bounds the recursion of [_is_type], which the yield function ends. *)
Section Validate.
Context (yield : yield_function) (fuel : nat) (a : abi_serializer).

Fixpoint walk_typedefs (steps : nat) (types_seen : list string) (t : string) : TM unit :=
  match typedefs a !! t with
  | None => mret tt
  | Some u =>
      match steps with
      | O => throw out_of_fuel
      | S steps =>
          check_deadline yield;;
          massert (negb (bool_decide (u ∈ types_seen))) abi_circular_def_exception;;
          walk_typedefs steps (types_seen ++ [u]) u
      end
  end.

Fixpoint walk_bases (steps : nat) (types_seen : list string) (current : struct_def) : TM unit :=
  if bool_decide (st_base current = ""%string) then mret tt
  else
    match steps with
    | O => throw out_of_fuel
    | S steps =>
        check_deadline yield;;
        base ← lift (get_struct a (st_base current));
        massert (negb (bool_decide (st_name base ∈ types_seen))) abi_circular_def_exception;;
        walk_bases steps (types_seen ++ [st_name base]) base
    end.

Definition check_type (type : string) : TM unit :=
  b ← is_type_loop yield a fuel type; massert b invalid_type_inside_abi.
Definition check_deadline_type (type : string) : TM unit := check_deadline yield;; check_type type.

Definition validate_struct (st : struct_def) : TM unit :=
  walk_bases (S (size (structs a))) [st_name st] st;;
  visit_all (fun f => check_deadline_type (remove_bin_extension (fd_type f))) (st_fields st).

Definition validate_abi : TM unit :=
  visit_all (fun t => walk_typedefs (S (size (typedefs a))) [t.1; t.2] t.2) (by_name (typedefs a));;
  visit_all (fun t => check_type t.2) (by_name (typedefs a));;
  visit_all (fun s => validate_struct s.2) (by_name (structs a));;
  visit_all (fun v => visit_all check_deadline_type (vd_types v.2)) (by_name (variants a));;
  visit_all (fun t => check_deadline_type t.2) (by_key (actions a));;
  visit_all (fun t => check_deadline_type t.2) (by_key (tables a)).
End Validate.

(** ** [set_abi] *)
Section SetAbi.
Context (yield : yield_function) (fuel : nat).
Abbreviation SM := (M (abi_serializer * traverse_context)).

Definition update (f : abi_serializer -> abi_serializer) : SM unit := modify (fun s => (f s.1, s.2)).
Definition traverse {A} (m : abi_serializer -> TM A) : SM A := fun s => let '(r, c) := m s.1 s.2 in (r, (s.1, c)).

Definition add_typedef (td : type_def) : SM unit :=
  b ← traverse (fun a => is_type_loop yield a fuel (new_type_name td));
  massert (negb b) duplicate_abi_type_def_exception;;
  update (fun a => set_typedefs (<[new_type_name td := td_type td]> (typedefs a)) a).

Definition clear_abi (a : abi_serializer) : abi_serializer := mk_serializer ∅ ∅ ∅ ∅ ∅ ∅ (built_in_types a).

(** Later definitions of a name replace earlier ones; the sizes tell. *)
Definition fill {K A} `{Countable K} (l : list (K * A)) : gmap K A := fold_left (fun m x => <[x.1 := x.2]> m) l ∅.

Definition check_duplicates (abi : abi_def) (a : abi_serializer) : res unit :=
  eos_assert (size (typedefs a) =? length (abi_types abi))%nat duplicate_abi_type_def_exception;;
  eos_assert (size (structs a) =? length (abi_structs abi))%nat duplicate_abi_struct_def_exception;;
  eos_assert (size (actions a) =? length (abi_actions abi))%nat duplicate_abi_action_def_exception;;
  eos_assert (size (tables a) =? length (abi_tables abi))%nat duplicate_abi_table_def_exception;;
  eos_assert (size (error_messages a) =? length (abi_error_messages abi))%nat duplicate_abi_err_msg_def_exception;;
  eos_assert (size (variants a) =? length (abi_variants abi))%nat duplicate_abi_variant_def_exception.

Definition set_abi_in (abi : abi_def) : SM unit :=
  massert (String.prefix "eosio::abi/1." (abi_version abi)) unsupported_abi_version_exception;;
  update clear_abi;;
  update (set_structs (fill (map (fun st => (st_name st, st)) (abi_structs abi))));;
  visit_all add_typedef (abi_types abi);;
  update (set_actions (fill (map (fun ac => (ad_name ac, ad_type ac)) (abi_actions abi))));;
  update (set_tables (fill (map (fun t => (tbd_name t, tbd_type t)) (abi_tables abi))));;
  update (set_error_messages (fill (map (fun e => (error_code e, error_msg e)) (abi_error_messages abi))));;
  update (set_variants (fill (map (fun v => (vd_name v, v)) (abi_variants abi))));;
  s ← get;
  lift (check_duplicates abi s.1);;
  traverse (validate_abi yield fuel).

Definition set_abi (abi : abi_def) : M abi_serializer unit := fun a =>
  let '(r, s) := set_abi_in abi (a, new_traverse [] 0) in (r, s.1).
End SetAbi.

(** ** Bytes to values *)
Section Unpack.
Context `{builtin_types} (yield : yield_function) (a : abi_serializer).

Definition from_stream {A} (f : list Z -> res (A * list Z)) : TM A :=
  c ← get;
  '(x, rest) ← lift (f (stream c));
  modify (set_stream rest);;
  mret x.
Definition unpack_char (bytes : list Z) : res (Z * list Z) :=
  match bytes with [] => Err fc_out_of_range_exception | b :: rest => Ok (b, rest) end.

Fixpoint unpack_fields (unpack_value : string -> TM fc_variant) (fields : list field_def) (encountered_extension : bool)
    (obj : list (string * fc_variant)) : TM (list (string * fc_variant)) :=
  match fields with
  | [] => mret obj
  | field :: fields =>
      let extension := is_extension (fd_type field) in
      let encountered_extension := encountered_extension || extension in
      c ← get;
      if (length (stream c) =? 0)%nat then
        if extension then unpack_fields unpack_value fields encountered_extension obj
        else if encountered_extension then throw abi_exception
        else throw unpack_exception
      else
        v ← unpack_value (resolve_type a (if extension then remove_bin_extension (fd_type field) else fd_type field));
        unpack_fields unpack_value fields encountered_extension (set_field (fd_name field) v obj)
  end.

Fixpoint unpack_elements (unpack_element : TM fc_variant) (n : nat) : TM (list fc_variant) :=
  match n with
  | O => mret []
  | S n =>
      v ← unpack_element;
      massert (negb (is_null v)) unpack_exception;;
      vs ← unpack_elements unpack_element n;
      mret (v :: vs)
  end.

Fixpoint unpack_value (fuel : nat) (type : string) : TM fc_variant :=
  match fuel with
  | O => throw out_of_fuel
  | S fuel =>
      in_scope yield (
        let rtype := resolve_type a type in
        let ftype := fundamental_type rtype in
        match built_in_types a !! ftype with
        | Some f => rethrow_exceptions unpack_exception (from_stream (fun s => unpack_of f s (is_array rtype) (is_optional rtype)))
        | None =>
            if is_array rtype then
              n ← rethrow_exceptions unpack_exception (from_stream unpack_unsigned_int);
              v_array <$> unpack_elements (unpack_value fuel ftype) (Z.to_nat n)
            else if is_optional rtype then
              flag ← rethrow_exceptions unpack_exception (from_stream unpack_char);
              if flag =? 0 then mret v_null else unpack_value fuel ftype
            else
              match variants a !! rtype with
              | Some v =>
                  select ← rethrow_exceptions unpack_exception (from_stream unpack_unsigned_int);
                  match vd_types v !! Z.to_nat select with
                  | None => throw unpack_exception
                  | Some t => x ← unpack_value fuel t; mret (v_array [v_string t; x])
                  end
              | None =>
                  obj ← unpack_struct fuel rtype [];
                  massert (negb (length obj =? 0)%nat) unpack_exception;;
                  mret (v_object obj)
              end
        end)
  end
with unpack_struct (fuel : nat) (type : string) (obj : list (string * fc_variant)) : TM (list (string * fc_variant)) :=
  match fuel with
  | O => throw out_of_fuel
  | S fuel =>
      in_scope yield (
        match structs a !! type with
        | None => throw invalid_type_inside_abi
        | Some st =>
            obj ← (if bool_decide (st_base st = ""%string) then mret obj else unpack_struct fuel (resolve_type a (st_base st)) obj);
            unpack_fields (unpack_value fuel) (st_fields st) false obj
        end)
  end.

Definition binary_to_variant (fuel : nat) (type : string) (binary : list Z) : res fc_variant :=
  (in_scope yield (unpack_value fuel type) (new_traverse binary 0)).1.

(** The overload for a stream; also what it leaves. *)
Definition stream_to_variant (fuel : nat) (type : string) (binary : list Z) : res (fc_variant * list Z) :=
  match unpack_value fuel type (new_traverse binary 0) with
  | (Ok v, c) => Ok (v, stream c)
  | (Err ex, _) => Err ex
  end.
End Unpack.

(** ** Values to bytes *)
Section Pack.
Context `{builtin_types} (yield : yield_function) (a : abi_serializer).

Definition write_stream (bytes : list Z) : TM unit :=
  c ← get;
  massert (Z.of_nat (length (stream c ++ bytes)) <=? stream_limit c) fc_out_of_range_exception;;
  modify (set_stream (stream c ++ bytes)).

Definition is_last {A} (rest : list A) : bool := match rest with [] => true | _ => false end.

Fixpoint pack_object_fields (pack_value : string -> fc_variant -> TM unit) (vo : list (string * fc_variant)) (fields : list field_def)
    (disallow_additional_fields : bool) : TM unit :=
  match fields with
  | [] => mret tt
  | field :: fields =>
      match lookup_field (c_string (fd_name field)) vo with
      | Some _ =>
          massert (negb disallow_additional_fields) pack_exception;;
          disallow_extensions_unless (is_last fields) (
            v ← lift (match lookup_field (fd_name field) vo with Some v => Ok v | None => Err fc_key_not_found_exception end);
            pack_value (remove_bin_extension (fd_type field)) v);;
          pack_object_fields pack_value vo fields disallow_additional_fields
      | None =>
          c ← get;
          if is_extension (fd_type field) && allow_extensions c then pack_object_fields pack_value vo fields true
          else if disallow_additional_fields then throw abi_exception
          else throw pack_exception
      end
  end.

Fixpoint pack_array_fields (pack_value : string -> fc_variant -> TM unit) (va : list fc_variant) (fields : list field_def) {struct fields} : TM unit :=
  match fields with
  | [] => mret tt
  | field :: fields =>
      match va with
      | v :: va =>
          disallow_extensions_unless (is_last fields) (pack_value (remove_bin_extension (fd_type field)) v);;
          pack_array_fields pack_value va fields
      | [] =>
          c ← get;
          if is_extension (fd_type field) && allow_extensions c then mret tt else throw pack_exception
      end
  end.

Fixpoint pack_value (fuel : nat) (type : string) (var : fc_variant) : TM unit :=
  match fuel with
  | O => throw out_of_fuel
  | S fuel =>
      fc_capture_rethrow (in_scope yield (
        let rtype := resolve_type a type in
        match built_in_types a !! fundamental_type rtype with
        | Some f => bytes ← lift (pack_of f var (is_array rtype) (is_optional rtype)); write_stream bytes
        | None =>
            if is_array rtype then
              vars ← lift (get_array var);
              write_stream (pack_unsigned_int (u32 (Z.of_nat (length vars))));;
              disallow_extensions_unless false (visit_all (pack_value fuel (fundamental_type rtype)) vars)
            else if is_optional rtype then
              write_stream [if is_null var then 0 else 1];;
              if is_null var then mret tt else pack_value fuel (fundamental_type rtype) var
            else
              match variants a !! rtype with
              | Some v =>
                  match var with
                  | v_array [v_string variant_type; x] =>
                      match list_find (eq variant_type) (vd_types v) with
                      | None => throw pack_exception
                      | Some (i, t) => write_stream (pack_unsigned_int (u32 (Z.of_nat i)));; pack_value fuel t x
                      end
                  | _ => throw pack_exception
                  end
              | None =>
                  match structs a !! rtype with
                  | None => throw invalid_type_inside_abi
                  | Some st =>
                      match var with
                      | v_object vo =>
                          (if bool_decide (st_base st = ""%string) then mret tt
                           else disallow_extensions_unless false (pack_value fuel (resolve_type a (st_base st)) var));;
                          pack_object_fields (pack_value fuel) vo (st_fields st) false
                      | v_array va =>
                          massert (bool_decide (st_base st = ""%string)) invalid_type_inside_abi;;
                          pack_array_fields (pack_value fuel) va (st_fields st)
                      | _ => throw pack_exception
                      end
                  end
              end
        end))
  end.

(** The buffer of [variant_to_binary] holds a mebibyte. *)
Definition variant_to_binary (fuel : nat) (type : string) (var : fc_variant) : res (list Z) :=
  (fc_capture_rethrow (in_scope yield (
     b ← is_type_loop yield a fuel type;
     if (b : bool) then pack_value fuel type var;; gets stream
     else lift (as_bytes var))) (new_traverse [] (1024 * 1024))).1.
End Pack.
