(* ===== verification/AbiTypes.v ===== *)
(** * The types of an accepted ABI ([abi_serializer.cpp])

    What [set_abi] guarantees when it succeeds: synonyms end at a type that is
    none, every type that a definition mentions is known, bases are structs.
    With it no value of a known type is refused as a value of an unknown one.
    And converting and checking always end, as the yield function limits the
    depth. *)

From S2P Require Import Prelude AbiSerializer.
From stdpp Require Import strings.
#[local] Open Scope Z_scope.

(** ** Traversals that throw certain exceptions only *)

(** From depth [d], [m] throws an exception of [E] or is at [d] at its end. *)
Definition fine {A} (E : exn -> Prop) (d : Z) (m : TM A) : Prop :=
  forall c, recursion_depth c = d -> wp m E (fun _ c' => recursion_depth c' = d) c.

Create HintDb fine.

Section Fine.
Context (E : exn -> Prop) (d : Z).

Lemma fine_bind {A B} (m : TM A) (f : A -> TM B) : fine E d m -> (forall x, fine E d (f x)) -> fine E d (m ≫= f).
Proof. intros Hm Hf c Hc. apply wp_bind. eapply wp_mono; [|exact (Hm c Hc)]. intros x c' Hc'. by apply Hf. Qed.
Lemma fine_fmap {A B} (m : TM A) (f : A -> B) : fine E d m -> fine E d (f <$> m).
Proof. intros Hm. apply fine_bind; [done|]. by intros x c. Qed.
Lemma fine_ret {A} (x : A) : fine E d (mret x).
Proof. by intros c. Qed.
Lemma fine_get : fine E d get.
Proof. by intros c. Qed.
Lemma fine_gets {A} (f : traverse_context -> A) : fine E d (gets f).
Proof. by intros c. Qed.
Lemma fine_throw {A} ex : E ex -> fine E d (throw ex : TM A).
Proof. by intros ? c. Qed.
Lemma fine_lift {A} (r : res A) : (forall ex, r = Err ex -> E ex) -> fine E d (lift r).
Proof. intros Hr c Hc. by apply wp_lift. Qed.
Lemma fine_massert b ex : E ex -> fine E d (massert b ex).
Proof. intros He c Hc. by apply wp_massert. Qed.
Lemma fine_set_stream f : fine E d (modify (fun c => set_stream (f c) c)).
Proof. by intros c. Qed.
Lemma fine_stream s : fine E d (modify (set_stream s)).
Proof. by intros c. Qed.

Lemma fine_rethrow {A} to (m : TM A) : (forall ex, E ex -> E (if is_chain_exception ex || not_thrown ex then ex else to)) -> fine E d m -> fine E d (rethrow_exceptions to m).
Proof.
  intros Ht Hm c Hc. specialize (Hm c Hc). unfold wp, rethrow_exceptions in *. destruct (m c) as [[x|ex] c']; [done|]. by apply Ht.
Qed.
Lemma fine_capture {A} (m : TM A) : E fc_std_exception -> fine E d m -> fine E d (fc_capture_rethrow m).
Proof.
  intros Ht Hm c Hc. specialize (Hm c Hc). unfold wp, fc_capture_rethrow in *. destruct (m c) as [[x|ex] c']; [done|]. by destruct (is_std_exception ex).
Qed.
Lemma fine_disallow {A} b (m : TM A) : fine E d m -> fine E d (disallow_extensions_unless b m).
Proof.
  intros Hm c Hc. unfold wp, disallow_extensions_unless.
  specialize (Hm (if b then c else set_allow false c) ltac:(by destruct b)). unfold wp in Hm. by destruct (m _) as [[x|ex] c'].
Qed.
Lemma fine_each {A} (f : A -> TM unit) l : (forall x, x ∈ l -> fine E d (f x)) -> fine E d (visit_all f l).
Proof.
  induction l as [|x l IH]; intros Hf; cbn; [apply fine_ret|].
  apply fine_bind; [apply Hf; left|]. intros _. apply IH. intros y Hy. apply Hf. by right.
Qed.

Context (yield : yield_function).

Lemma fine_deadline : (forall i d ex, yield i d = Err ex -> E ex) -> fine E d (check_deadline yield).
Proof.
  intros Hy. apply fine_bind; [apply fine_get|]. intros c. unfold call_yield. apply fine_bind; [apply fine_get|]. intros c'.
  apply fine_bind; [by intros c''|]. intros _. apply fine_lift. by intros ex ?%Hy.
Qed.

(** A scope is entered at a depth which the yield function accepts. *)
Lemma fine_scope {A} (m : TM A) : (forall i d ex, yield i d = Err ex -> E ex) ->
  ((exists i, yield i (d + 1) = Ok tt) -> fine E (d + 1) m) -> fine E d (in_scope yield m).
Proof.
  intros Hy Hm c Hc. unfold in_scope, call_yield, wp, mbind, M_bind, get, modify, lift. cbn.
  rewrite Hc. destruct (yield (yields c) (d + 1)) as [[]|ex] eqn:Ey; [|by eapply Hy].
  unfold restoring_depth. match goal with |- context [m ?x] => pose proof (Hm ltac:(by eexists) x eq_refl) as Hw end.
  unfold wp in Hw. by destruct (m _) as [[x|ex] c'].
Qed.
End Fine.
#[export] Hint Resolve fine_ret fine_get fine_gets fine_stream fine_throw fine_massert fine_rethrow fine_capture fine_disallow fine_deadline : fine.

(** ** Known types *)
Section Known.
Context (a : abi_serializer).

Lemma not_builtin t : built_in_types a !! t = None -> is_builtin_type a t = false.
Proof. intros Hb. apply bool_decide_eq_false. intros [f Hf]. by rewrite Hb in Hf. Qed.

Definition defined (t : string) : Prop := is_Some (structs a !! t) \/ is_Some (variants a !! t).

(** What [_is_type] decides. *)
Inductive known : string -> Prop :=
| known_builtin t : is_builtin_type a (fundamental_type t) = true -> known t
| known_synonym t u : is_builtin_type a (fundamental_type t) = false -> typedefs a !! fundamental_type t = Some u -> known u -> known t
| known_defined t : is_builtin_type a (fundamental_type t) = false -> typedefs a !! fundamental_type t = None -> defined (fundamental_type t) -> known t.

Lemma is_type_known yield fuel t c c' : is_type_loop yield a fuel t c = (Ok true, c') -> known t.
Proof.
  revert t c c'. induction fuel as [|fuel IH]; intros t c c'; cbn [is_type_loop]; [done|].
  unfold in_scope. intros H. do 3 (apply M_bind_ok in H as (? & ? & _ & H)). unfold restoring_depth in H.
  match type of H with (let '(_, _) := ?m ?s in _) = _ => destruct (m s) as [r c1] eqn:Er end. injection H as -> _.
  cbv zeta in Er. destruct (is_builtin_type a (fundamental_type t)) eqn:Eb; [by apply known_builtin|].
  destruct (typedefs a !! fundamental_type t) as [u|] eqn:Et.
  - eapply known_synonym; [done|done|]. by eapply IH.
  - apply mret_ok in Er as [Er _]. apply known_defined; [done|done|]. symmetry in Er. unfold defined. apply orb_true_iff in Er as [Er|Er]; apply bool_decide_eq_true in Er; auto.
Qed.

(** The way along synonyms. *)
Inductive follows : nat -> string -> string -> Prop :=
| follows_end t : typedefs a !! t = None -> follows 0 t t
| follows_step n t u e : typedefs a !! t = Some u -> follows n u e -> follows (S n) t e.

Lemma resolve_loop_follows n t e type i : follows n t e -> (n < i)%nat -> resolve_loop a i type t = e.
Proof.
  intros Hf. revert i. induction Hf as [t Ht|n t u e Ht _ IH]; intros i Hi; (destruct i as [|i]; [lia|]); cbn; rewrite Ht; [done|]. apply IH. lia.
Qed.

Lemma follows_end_none n t e : follows n t e -> typedefs a !! e = None.
Proof. by induction 1. Qed.

(** A list of different synonyms is not longer than there are synonyms. *)
Lemma synonyms_bound l : NoDup l -> (forall x, x ∈ l -> is_Some (typedefs a !! x)) -> (length l <= size (typedefs a))%nat.
Proof.
  intros Hn Hl. rewrite <- (size_list_to_set (C := gset string) l) by done. rewrite <- size_dom. apply subseteq_size.
  intros x. rewrite elem_of_list_to_set, elem_of_dom. apply Hl.
Qed.

(** A walk that [validate_abi] accepts ends, and passes no name twice. *)
Lemma walk_follows yield steps seen t c c' : walk_typedefs yield a steps seen t c = (Ok tt, c') ->
  exists path e, follows (length path) t e /\ NoDup path /\ (forall x, x ∈ path -> x ∉ seen)
    /\ (path <> [] -> is_Some (typedefs a !! t))
    /\ forall x, x ∈ removelast path -> is_Some (typedefs a !! x).
Proof.
  revert seen t c c'. induction steps as [|steps IH]; intros seen t c c'; cbn [walk_typedefs].
  - destruct (typedefs a !! t) as [u|] eqn:Et; [done|]. intros _. exists [], t. repeat split; try done; [by constructor|constructor|by intros x ?%elem_of_nil|by intros x ?%elem_of_nil].
  - destruct (typedefs a !! t) as [u|] eqn:Et.
    2: { intros _. exists [], t. repeat split; try done; [by constructor|constructor|by intros x ?%elem_of_nil|by intros x ?%elem_of_nil]. }
    intros H. apply M_bind_ok in H as (? & c1 & _ & H). apply M_bind_ok in H as (? & c2 & Hs & H).
    apply massert_ok in Hs as [Hs ->]. apply negb_true_iff, bool_decide_eq_false in Hs.
    destruct (IH _ _ _ _ H) as (path & e & Hf & Hn & Hd & Hh & Hk). exists (u :: path), e. split; [by econstructor|]. split.
    { constructor; [|done]. intros Hu. apply (Hd u Hu), elem_of_app. right. by apply list_elem_of_singleton. }
    split. { intros y [->|Hy]%elem_of_cons; [done|]. intros Hin. apply (Hd y Hy), elem_of_app. by left. }
    split; [by eauto|]. intros y. destruct path as [|p path]; [by intros ?%elem_of_nil|].
    change (removelast (u :: p :: path)) with (u :: removelast (p :: path)). intros [->|Hy]%elem_of_cons; [by apply Hh|by apply Hk].
Qed.
End Known.

(** ** What [validate_abi] and [set_abi] leave *)
Lemma visit_all_ok {S A} (f : A -> M S unit) l s s' : visit_all f l s = (Ok tt, s') -> forall x, x ∈ l -> exists s1 s2, f x s1 = (Ok tt, s2).
Proof.
  revert s. induction l as [|y l IH]; intros s; cbn [visit_all]; [by intros _ x ?%elem_of_nil|].
  intros H. apply M_bind_ok in H as ([] & s1 & Hy & H). intros x [->|Hx]%elem_of_cons; eauto.
Qed.

Lemma each_keeps {S A B} (sel : S -> B) (f : A -> M S unit) l s s' :
  (forall x s s', f x s = (Ok tt, s') -> sel s = sel s') -> visit_all f l s = (Ok tt, s') -> sel s = sel s'.
Proof.
  intros Hf. revert s. induction l as [|y l IH]; intros s; cbn [visit_all]; [by intros [_ ->]%mret_ok|].
  intros H. apply M_bind_ok in H as ([] & s1 & Hy & H). rewrite (Hf _ _ _ Hy). by apply IH.
Qed.

Lemma by_name_elem {A} (m : gmap string A) k v : (k, v) ∈ by_name m <-> m !! k = Some v.
Proof.
  unfold by_name. rewrite list_elem_of_omap. setoid_rewrite merge_sort_Permutation. setoid_rewrite elem_of_elements. setoid_rewrite elem_of_dom.
  split; [intros (k' & _ & Hk); apply fmap_Some in Hk as (v' & Hv & [= -> ->]); done|]. intros Hk. exists k. rewrite Hk. split; [by eexists|done].
Qed.
Lemma by_key_elem {A} (m : gmap Z A) k v : (k, v) ∈ by_key m <-> m !! k = Some v.
Proof.
  unfold by_key. rewrite list_elem_of_omap. setoid_rewrite merge_sort_Permutation. setoid_rewrite elem_of_elements. setoid_rewrite elem_of_dom.
  split; [intros (k' & _ & Hk); apply fmap_Some in Hk as (v' & Hv & [= -> ->]); done|]. intros Hk. exists k. rewrite Hk. split; [by eexists|done].
Qed.

Record abi_ok (a : abi_serializer) : Prop := {
  ok_synonym t u : typedefs a !! t = Some u -> known a u /\ exists n e, follows a (S n) t e /\ (n < size (typedefs a))%nat;
  ok_base k st : structs a !! k = Some st -> st_base st <> ""%string -> is_Some (structs a !! resolve_type a (st_base st));
  ok_field k st f : structs a !! k = Some st -> f ∈ st_fields st -> known a (remove_bin_extension (fd_type f));
  ok_variant k v t : variants a !! k = Some v -> t ∈ vd_types v -> known a t;
  ok_action n t : actions a !! n = Some t -> known a t;
  ok_table n t : tables a !! n = Some t -> known a t }.

Section Accepted.
Context (yield : yield_function) (fuel : nat) (a : abi_serializer).

Lemma check_type_known t c c' : check_type yield fuel a t c = (Ok tt, c') -> known a t.
Proof.
  unfold check_type. intros H. apply M_bind_ok in H as (b & c1 & Hb & H). apply massert_ok in H as [-> _]. by eapply is_type_known.
Qed.
Lemma check_deadline_type_known t c c' : check_deadline_type yield fuel a t c = (Ok tt, c') -> known a t.
Proof. unfold check_deadline_type. intros H. apply M_bind_ok in H as (? & c1 & _ & H). by eapply check_type_known. Qed.

Lemma not_its_own_synonym n t e : typedefs a !! t = Some t -> ~ follows a n t e.
Proof.
  intros Ht. induction n as [|n IH]; intros Hf; inversion Hf; subst; [congruence|]. apply IH. congruence.
Qed.

Lemma synonym_ends t u c c' : typedefs a !! t = Some u ->
  walk_typedefs yield a (S (size (typedefs a))) [t; u] u c = (Ok tt, c') -> exists n e, follows a (S n) t e /\ (n < size (typedefs a))%nat.
Proof.
  intros Ht Hw. destruct (walk_follows a yield _ _ _ _ _ Hw) as (path & e & Hf & Hn & Hd & Hh & Hk).
  exists (length path), e. split; [by econstructor|].
  destruct path as [|p path].
  - apply Nat.neq_0_lt_0. intros Hz. apply map_size_empty_inv in Hz. rewrite Hz in Ht. done.
  - assert (Hu : is_Some (typedefs a !! u)) by by apply Hh.
    assert (t <> u) by (intros ->; by eapply not_its_own_synonym).
    pose proof (synonyms_bound a (t :: u :: removelast (p :: path))) as Hb.
    assert (forall x, x ∈ removelast (p :: path) -> x ∈ p :: path) as Hin.
    { intros x Hx. rewrite (app_removelast_last p) by done. apply elem_of_app. by left. }
    assert (length (removelast (p :: path)) = length path) as Hlen by (rewrite removelast_firstn_len, length_take; cbn; lia).
    cbn [length] in *. rewrite Hlen in Hb. enough (S (S (length path)) <= size (typedefs a))%nat by lia. apply Hb.
    + repeat constructor.
      * intros [->|Hx]%elem_of_cons; [done|]. apply (Hd t); [by apply Hin|left].
      * intros Hx. apply (Hd u); [by apply Hin|right; left].
      * rewrite (app_removelast_last p) in Hn by done. by apply NoDup_app in Hn as (? & _).
    + intros x. rewrite !elem_of_cons. intros [->|[->|Hx]]; [by eexists|done|by apply Hk].
Qed.

Lemma validate_ok c c' : validate_abi yield fuel a c = (Ok tt, c') -> abi_ok a.
Proof.
  unfold validate_abi. intros H.
  apply M_bind_ok in H as ([] & c1 & H1 & H). apply M_bind_ok in H as ([] & c2 & H2 & H). apply M_bind_ok in H as ([] & c3 & H3 & H).
  apply M_bind_ok in H as ([] & c4 & H4 & H). apply M_bind_ok in H as ([] & c5 & H5 & H6).
  split.
  - intros t u Ht. split.
    + destruct (visit_all_ok _ _ _ _ H2 (t, u)) as (? & ? & Hc); [by apply by_name_elem|]. by eapply check_type_known.
    + destruct (visit_all_ok _ _ _ _ H1 (t, u)) as (? & ? & Hc); [by apply by_name_elem|]. by eapply synonym_ends.
  - intros k st Hk Hb. destruct (visit_all_ok _ _ _ _ H3 (k, st)) as (? & ? & Hc); [by apply by_name_elem|].
    unfold validate_struct in Hc. cbn [snd] in Hc. apply M_bind_ok in Hc as ([] & ? & Hw & _). cbn [walk_bases] in Hw.
    rewrite bool_decide_false in Hw by done. apply M_bind_ok in Hw as (? & ? & _ & Hw). apply M_bind_ok in Hw as (? & ? & Hg & _).
    apply lift_ok in Hg as [Hg _]. unfold get_struct in Hg. destruct (structs a !! resolve_type a (st_base st)); [by eexists|done].
  - intros k st f Hk Hf. destruct (visit_all_ok _ _ _ _ H3 (k, st)) as (? & ? & Hc); [by apply by_name_elem|].
    unfold validate_struct in Hc. cbn [snd] in Hc. apply M_bind_ok in Hc as ([] & ? & _ & Hc).
    destruct (visit_all_ok _ _ _ _ Hc f Hf) as (? & ? & Hd). by eapply check_deadline_type_known.
  - intros k v t Hk Ht. destruct (visit_all_ok _ _ _ _ H4 (k, v)) as (? & ? & Hc); [by apply by_name_elem|].
    destruct (visit_all_ok _ _ _ _ Hc t Ht) as (? & ? & Hd). by eapply check_deadline_type_known.
  - intros n t Hn. destruct (visit_all_ok _ _ _ _ H5 (n, t)) as (? & ? & Hc); [by apply by_key_elem|]. by eapply check_deadline_type_known.
  - intros n t Hn. destruct (visit_all_ok _ _ _ _ H6 (n, t)) as (? & ? & Hc); [by apply by_key_elem|]. by eapply check_deadline_type_known.
Qed.
End Accepted.

(** ** [set_abi] *)
Lemma fill_elem {A B} (f : B -> string * A) (l : list B) (m0 : gmap string A) k v :
  fold_left (fun m x => <[x.1 := x.2]> m) (map f l) m0 !! k = Some v -> m0 !! k = Some v \/ exists x, x ∈ l /\ f x = (k, v).
Proof.
  revert m0. induction l as [|x l IH]; intros m0; cbn; [by left|]. intros [H|(y & Hy & Hf)]%IH.
  - apply lookup_insert_Some in H as [[Hk Hv]|[_ H]]; [|by left]. right. exists x. split; [left|]. rewrite (surjective_pairing (f x)). by rewrite Hk, Hv.
  - right. exists y. split; [by right|done].
Qed.

Lemma add_typedef_keeps yield fuel td s s' : add_typedef yield fuel td s = (Ok tt, s') -> (structs s.1, built_in_types s.1) = (structs s'.1, built_in_types s'.1).
Proof.
  unfold add_typedef. intros H. apply M_bind_ok in H as (b & s1 & Hb & H). apply M_bind_ok in H as ([] & s2 & Hm & H).
  apply massert_ok in Hm as [_ ->]. unfold update in H. apply modify_ok in H. subst s'. cbn. unfold traverse in Hb.
  destruct (is_type_loop _ _ _ _ _) as [r c]. by injection Hb as _ <-.
Qed.

(** The members of a serializer after an ABI was accepted. *)
Record filled (abi : abi_def) (a0 a : abi_serializer) : Prop := {
  filled_builtin : built_in_types a = built_in_types a0;
  filled_struct k st : structs a !! k = Some st -> st ∈ abi_structs abi /\ st_name st = k;
  filled_variant k v : variants a !! k = Some v -> v ∈ abi_variants abi /\ vd_name v = k }.

Lemma set_abi_ok yield fuel abi a0 a : set_abi yield fuel abi a0 = (Ok tt, a) -> abi_ok a /\ filled abi a0 a.
Proof.
  unfold set_abi. destruct (set_abi_in yield fuel abi (a0, new_traverse [] 0)) as [r s] eqn:E. intros [= -> <-].
  unfold set_abi_in in E. apply M_bind_ok in E as ([] & s1 & H1 & E). apply M_bind_ok in E as ([] & s2 & H2 & E). apply massert_ok in H1 as [_ ->].
  apply M_bind_ok in E as ([] & s3 & H3 & E). apply M_bind_ok in E as ([] & s4 & H4 & E). apply M_bind_ok in E as ([] & s5 & H5 & E).
  apply M_bind_ok in E as ([] & s6 & H6 & E). apply M_bind_ok in E as ([] & s7 & H7 & E). apply M_bind_ok in E as ([] & s8 & H8 & E).
  apply M_bind_ok in E as (s9 & s10 & H9 & E). apply M_bind_ok in E as ([] & s11 & H11 & E).
  apply get_ok in H9 as [-> ->]. apply lift_ok in H11 as [_ ->].
  unfold update in H2, H3, H5, H6, H7, H8. apply modify_ok in H2. apply modify_ok in H3. apply modify_ok in H5, H6, H7, H8.
  unfold traverse in E. destruct (validate_abi yield fuel s8.1 s8.2) as [r c] eqn:Ev. injection E as -> <-. cbn [fst]. split.
  - by eapply validate_ok.
  - pose proof (each_keeps (fun s => (structs s.1, built_in_types s.1)) _ _ _ _ (add_typedef_keeps yield fuel) H4) as Hs.
    injection Hs as Hs Hb. subst. cbn in Hs, Hb |- *. split; cbn; [done| |].
    + intros k st Hk. rewrite <- Hs in Hk. apply fill_elem in Hk as [Hk|(x & Hx & [= <- <-])]; [done|]. done.
    + intros k v Hk. apply fill_elem in Hk as [Hk|(x & Hx & [= <- <-])]; [done|]. done.
Qed.

(** ** Values of known types *)
Section Usable.
Context (a : abi_serializer) (Ha : abi_ok a).

(** The type of an element, an alternative or a field. *)
Definition usable (t : string) : Prop := known a t \/ is_Some (typedefs a !! t).

Lemma follows_known n t e : follows a (S n) t e -> known a e.
Proof.
  revert t. induction n as [|n IH]; intros t Hf; inversion Hf as [|? ? u ? Ht Hu]; subst.
  - inversion Hu; subst. by eapply ok_synonym.
  - by eapply IH.
Qed.

Lemma resolved t : usable t -> typedefs a !! resolve_type a t = None /\ known a (resolve_type a t).
Proof.
  intros Hu. unfold resolve_type. destruct (typedefs a !! t) as [u|] eqn:Et; [|by destruct Hu as [|[? ?]]; [|congruence]].
  destruct (ok_synonym a Ha t u Et) as [_ (n & e & Hf & Hn)]. inversion Hf as [|? ? u' ? Ht Hu']; subst. assert (u' = u) as -> by congruence.
  rewrite (resolve_loop_follows a n u e t) by done. split; [by eapply follows_end_none|by eapply follows_known].
Qed.

Definition plain_name (t : string) : bool := negb (is_array t) && negb (is_optional t).
Context (Hplain : forall t, defined a t -> plain_name t = true).

Lemma defined_usable t : is_builtin_type a t = false -> defined a t -> usable t.
Proof.
  intros Hb Hd. destruct (typedefs a !! t) as [u|] eqn:Et; [right; by eexists|left].
  pose proof (Hplain t Hd) as Hp. unfold plain_name in Hp. btests.
  assert (fundamental_type t = t) as Hf by (unfold fundamental_type; by rewrite H, H0). apply known_defined; by rewrite Hf.
Qed.

Lemma known_fundamental t : known a t -> is_builtin_type a (fundamental_type t) = false -> usable (fundamental_type t).
Proof.
  intros Hk Hb. destruct Hk as [t Hb'|t u _ Ht _|t _ Ht Hd]; [congruence|right; by eexists|]. by apply defined_usable.
Qed.
End Usable.

(** ** The parts of a conversion *)
Section Parts.
Context (E : exn -> Prop) (HU : E unpack_exception) (HA : E abi_exception).

Lemma fine_rethrow_stream {A} d (f : list Z -> res (A * list Z)) : (forall s ex, f s = Err ex -> E ex) ->
  fine E d (rethrow_exceptions unpack_exception (from_stream f)).
Proof.
  intros Hf. apply fine_rethrow; [by intros ex; destruct (_ || _)|].
  apply fine_bind; [apply fine_get|]. intros c. apply fine_bind; [apply fine_lift; intros ex; apply Hf|].
  intros [x rest]. apply fine_bind; [apply fine_stream|]. intros _. apply fine_ret.
Qed.

Lemma fine_elements d m n : fine E d m -> fine E d (unpack_elements m n).
Proof.
  intros Hm. induction n as [|n IH]; cbn [unpack_elements]; [apply fine_ret|].
  apply fine_bind; [done|]. intros v. apply fine_bind; [by apply fine_massert|]. intros _. apply fine_bind; [done|]. intros vs. apply fine_ret.
Qed.

Lemma fine_fields a d uv fields b obj : (forall f, f ∈ fields -> fine E d (uv (resolve_type a (remove_bin_extension (fd_type f))))) ->
  fine E d (unpack_fields a uv fields b obj).
Proof.
  revert b obj. induction fields as [|f fields IH]; intros b obj Hf; cbn [unpack_fields]; [apply fine_ret|].
  apply fine_bind; [apply fine_get|]. intros c.
  assert (forall b obj, fine E d (unpack_fields a uv fields b obj)) as Hrest by (intros; apply IH; intros g Hg; apply Hf; by right).
  destruct (length (stream c) =? 0)%nat; [destruct (is_extension (fd_type f)); [done|]; destruct (_ || _); by apply fine_throw|].
  apply fine_bind; [|done].
  replace (if is_extension (fd_type f) then remove_bin_extension (fd_type f) else fd_type f) with (remove_bin_extension (fd_type f)); [apply Hf; left|].
  unfold remove_bin_extension. by destruct (is_extension (fd_type f)).
Qed.
End Parts.

Section NotUnknown.
Context `{builtin_types} (yield : yield_function) (a : abi_serializer).

Definition not_unknown (ex : exn) : Prop := ex <> invalid_type_inside_abi.

(** The functions that the serializer calls do not know of unknown types. *)
Record never_unknown : Prop := {
  nu_yield i d ex : yield i d = Err ex -> not_unknown ex;
  nu_builtin n u p s x y ex : built_in_types a !! n = Some (u, p) -> u s x y = Err ex -> not_unknown ex;
  nu_size s ex : unpack_unsigned_int s = Err ex -> not_unknown ex }.
Context (Hn : never_unknown).

Lemma unpack_fine (Ha : abi_ok a) (Hplain : forall t, defined a t -> plain_name t = true) fuel :
  (forall d t, usable a t -> fine not_unknown d (unpack_value yield a fuel t))
  /\ (forall d t obj, is_Some (structs a !! t) -> fine not_unknown d (unpack_struct yield a fuel t obj)).
Proof.
  assert (forall i d ex, yield i d = Err ex -> not_unknown ex) as Hy by apply Hn.
  induction fuel as [|fuel [IHv IHs]]; [by split; intros; apply fine_throw|]. split; cbn [unpack_value unpack_struct].
  - intros d t Ht. apply fine_scope; [done|]. intros _. cbv zeta. destruct (resolved a Ha t Ht) as [Hnt Hk]. set (rtype := resolve_type a t) in *.
    destruct (built_in_types a !! fundamental_type rtype) as [[u p]|] eqn:Eb; [apply fine_rethrow_stream; [done|]; by intros s ex; apply (nu_builtin Hn _ _ _ _ _ _ _ Eb)|].
    assert (is_builtin_type a (fundamental_type rtype) = false) as Hb by by apply not_builtin.
    pose proof (known_fundamental a Hplain rtype Hk Hb) as Hfu.
    destruct (is_array rtype) eqn:Ear.
    { apply fine_bind; [apply fine_rethrow_stream; [done|apply Hn]|]. intros n. apply fine_fmap, fine_elements; [done|]. by apply IHv. }
    destruct (is_optional rtype) eqn:Eop.
    { apply fine_bind; [apply fine_rethrow_stream; [done|]; by intros [|? ?] ex; [intros [= <-]|]|]. intros flag. destruct (flag =? 0); [apply fine_ret|by apply IHv]. }
    assert (fundamental_type rtype = rtype) as Hf by (unfold fundamental_type; by rewrite Ear, Eop). rewrite Hf in *.
    assert (defined a rtype) as Hd by (destruct Hk as [? ?|? ? _ ? _|? _ _ ?]; congruence).
    destruct (variants a !! rtype) as [v|] eqn:Ev.
    { apply fine_bind; [apply fine_rethrow_stream; [done|apply Hn]|]. intros n. destruct (vd_types v !! Z.to_nat n) as [t'|] eqn:Et; [|by apply fine_throw].
      apply fine_bind; [|intros; apply fine_ret]. apply IHv. left. eapply (ok_variant a Ha); [done|]. by eapply list_elem_of_lookup_2. }
    apply fine_bind; [apply IHs; by destruct Hd as [|[? ?]]; [|congruence]|]. intros obj. apply fine_bind; [by apply fine_massert|]. intros _. apply fine_ret.
  - intros d t obj [st Hst]. apply fine_scope; [done|]. intros _. rewrite Hst. apply fine_bind.
    + case_bool_decide as Hb; [apply fine_ret|]. apply IHs. by eapply (ok_base a Ha).
    + intros o. apply fine_fields; [done..|]. intros f Hf. apply IHv. left. apply resolved; [done|]. left. by eapply (ok_field a Ha).
Qed.

End NotUnknown.

(** ** A demonstration ABI *)
Section Demo.
Open Scope string_scope.

(** Every built-in type is one byte, sizes are four. *)
Definition demo_unpack_size (s : list Z) : res (Z * list Z) :=
  match s with
  | b0 :: b1 :: b2 :: b3 :: rest => Ok (b0 + 256 * (b1 + 256 * (b2 + 256 * b3)), rest)
  | _ => Err fc_out_of_range_exception
  end%list.
Definition demo_unpack_byte : unpack_function := fun s arr opt =>
  match s with
  | b :: rest => if arr || opt then Err assert_exception else Ok (v_uint64 b, rest)
  | [] => Err fc_out_of_range_exception
  end%list.
Definition demo_pack_byte : pack_function := fun v arr opt =>
  match v with v_uint64 b => if arr || opt then Err assert_exception else Ok [b] | _ => Err fc_bad_cast_exception end.
#[export] Instance demo_builtins : builtin_types := {|
  builtin_functions n := (demo_unpack_byte, demo_pack_byte);
  pack_unsigned_int n := [n mod 256; n / 256 mod 256; n / 65536 mod 256; n / 16777216];
  unpack_unsigned_int := demo_unpack_size;
  as_bytes v := match v with v_blob b => Ok b | _ => Err fc_bad_cast_exception end |}.

Definition demo_yield : yield_function := create_yield_function 1000 0 (fun _ => 0).

(** A struct with a base, a synonym, an extension and a variant. *)
Definition demo_base : struct_def := mk_struct "base" "" [mk_field "kind" "uint8"].
Definition demo_transfer : struct_def := mk_struct "transfer" "parent"
  [mk_field "to" "account"; mk_field "items" "item[]"; mk_field "memo" "uint8$"].
Definition demo_item : variant_def := mk_variant "item" ["uint8"; "base"; "maybe"].
Definition demo_abi : abi_def := mk_abi "eosio::abi/1.1"
  [mk_type_def "parent" "base"; mk_type_def "account" "name"; mk_type_def "maybe" "base?"] [demo_base; demo_transfer]
  [mk_action_def 7 "transfer" ""] [mk_table_def 8 "i64" ["id"] ["uint64"] "item"] [] [] [] [demo_item].
Definition demo_serializer : abi_serializer := (set_abi demo_yield 32 demo_abi empty_serializer).2.

Lemma demo_accepted : set_abi demo_yield 32 demo_abi empty_serializer = (Ok tt, demo_serializer).
Proof. apply injective_projections; [by vm_compute|done]. Qed.

Lemma demo_functions n f : built_in_types demo_serializer !! n = Some f -> f = (demo_unpack_byte, demo_pack_byte).
Proof.
  rewrite (filled_builtin _ _ _ (proj2 (set_abi_ok _ _ _ _ _ demo_accepted))).
  unfold empty_serializer, configure_built_in_types. cbn [built_in_types set_built_in]. rewrite (left_id_L ∅ (∪)).
  intros Hf%elem_of_list_to_map_2. by apply list_elem_of_fmap in Hf as (m & [= -> ->] & _).
Qed.

Lemma demo_never_unknown : never_unknown demo_yield demo_serializer.
Proof.
  split.
  - intros i d ex. unfold demo_yield, create_yield_function. destruct (d <? _)%Z; cbn; by intros [= <-].
  - intros n u p s x y ex Hb. apply demo_functions in Hb as [= -> ->]. destruct s as [|b s]; cbn; [by intros [= <-]|]. destruct (x || y); [by intros [= <-]|done].
  - intros s ex. do 4 (destruct s as [|? s]; [by intros [= <-]|]). done.
Qed.


(** A struct whose name ends like an array is taken as the element of a type
    that is accepted, but cannot be unpacked. *)
Example array_like_name :
  let abi := mk_abi "eosio::abi/1.1" [] [mk_struct "a[]" "" [mk_field "x" "uint8"]] [mk_action_def 7 "a[][]" ""] [] [] [] [] [] in
  let '(r, a) := set_abi demo_yield 32 abi empty_serializer in
  r = Ok tt /\ binary_to_variant demo_yield a 32 "a[][]" [1; 0; 0; 0; 1; 0; 0; 0; 7]%Z = Err invalid_type_inside_abi.
Proof. by vm_compute. Qed.
End Demo.
