(* ===== verification/AbiLimits.v ===== *)
(** * Conversions and checks of an ABI end ([abi_serializer.cpp])

    Types may be defined by visit_all other without end, and a synonym of an array
    of itself is not found by the search for circles.  The yield function stops
    the recursion at a depth of 32; with it, checking an ABI, whatever it is,
    and converting values by any serializer end with a result or an exception.
    The fuel of the definitions never runs out. *)

From S2P Require Import Prelude AbiSerializer AbiTypes.
From stdpp Require Import strings.
#[local] Open Scope Z_scope.

Definition in_time (ex : exn) : Prop := ex <> out_of_fuel.

Lemma fine_lift_ok {A B} (E : exn -> Prop) d (x : A) (f : A -> TM B) : fine E d (f x) -> fine E d (lift (Ok x) ≫= f).
Proof. done. Qed.

(** A yield function that ends every recursion. *)
Record limiting (yield : yield_function) : Prop := {
  limit_depth i d : max_recursion_depth <= d -> exists ex, yield i d = Err ex;
  limit_in_time i d ex : yield i d = Err ex -> in_time ex }.

Lemma create_yield_function_limiting max_time start now : limiting (create_yield_function max_time start now).
Proof.
  split.
  - intros i d Hd. unfold create_yield_function. exists abi_recursion_depth_exception. apply Z.ltb_ge in Hd. cbv zeta. by rewrite Hd.
  - intros i d ex. unfold create_yield_function, in_time. destruct (d <? max_recursion_depth); cbn; [|by intros [= <-]]. destruct (now i <? _); cbn; [done|by intros [= <-]].
Qed.

(** Enough fuel for the rest of the recursion from depth [d]. *)
Definition enough (fuel : nat) (d : Z) : Prop := 0 <= d < max_recursion_depth /\ max_recursion_depth <= d + Z.of_nat fuel.

Section Limited.
Context (yield : yield_function) (Hy : limiting yield).

Lemma fine_scope_in_time {A} fuel d (m : TM A) : enough (S fuel) d -> (enough fuel (d + 1) -> fine in_time (d + 1) m) -> fine in_time d (in_scope yield m).
Proof.
  intros [Hd Hf] Hm. apply fine_scope; [apply Hy|]. intros [i Hi]. apply Hm. unfold enough.
  destruct (Z_lt_le_dec (d + 1) max_recursion_depth) as [Hlt|Hge]; [lia|]. destruct (limit_depth _ Hy i (d + 1) Hge) as [ex Hex]. congruence.
Qed.

Lemma enough_pos fuel d : enough fuel d -> exists fuel', fuel = S fuel'.
Proof. unfold enough. intros. exists (pred fuel). lia. Qed.

Lemma fine_deadline_in_time d : fine in_time d (check_deadline yield).
Proof. apply fine_deadline, Hy. Qed.

(** ** Checking types *)
Lemma is_type_fine a fuel d t : enough fuel d -> fine in_time d (is_type_loop yield a fuel t).
Proof.
  revert d t. induction fuel as [|fuel IH]; intros d t He; [by apply enough_pos in He as [? ?]|]. cbn [is_type_loop].
  apply (fine_scope_in_time fuel); [done|]. intros He'. cbv zeta. destruct (is_builtin_type _ _); [apply fine_ret|].
  destruct (typedefs a !! _); [by apply IH|apply fine_ret].
Qed.

Section Validate.
Context (a : abi_serializer) (d : Z).

(** Every step of a walk comes to another synonym. *)
Lemma walk_fine steps pre l t : NoDup l -> (forall x, x ∈ l -> x <> t -> is_Some (typedefs a !! x)) ->
  (steps + length l = S (size (typedefs a)))%nat -> fine in_time d (walk_typedefs yield a steps (pre ++ l) t).
Proof.
  revert l t. induction steps as [|steps IH]; intros l t Hn Hl Hs; cbn [walk_typedefs]; (destruct (typedefs a !! t) as [u|] eqn:Et; [|apply fine_ret]).
  - exfalso. assert (length l <= size (typedefs a))%nat; [|lia]. apply synonyms_bound; [done|].
    intros x Hx. destruct (decide (x = t)) as [->|Hne]; [by eexists|by apply Hl].
  - apply fine_bind; [apply fine_deadline_in_time|]. intros _. destruct (decide (u ∈ pre ++ l)) as [Hin|Hin].
    + intros c Hc. rewrite bool_decide_true by done. done.
    + apply fine_bind; [by apply fine_massert|]. intros _. rewrite <- app_assoc.
      assert (length l <= size (typedefs a))%nat by (apply synonyms_bound; [done|]; intros x Hx; destruct (decide (x = t)) as [->|Hne]; [by eexists|by apply Hl]).
      apply IH.
      * apply NoDup_app. split; [done|]. split; [|by apply NoDup_singleton]. intros x Hx ->%list_elem_of_singleton. apply Hin, elem_of_app. by right.
      * intros x [Hx| ->%list_elem_of_singleton]%elem_of_app Hne; [|done]. destruct (decide (x = t)) as [->|Hxt]; [by eexists|by apply Hl].
      * rewrite length_app. cbn. lia.
Qed.

Context (Hnames : forall k st, structs a !! k = Some st -> st_name st = k).

Lemma struct_names_bound l : NoDup l -> (forall x, x ∈ l -> is_Some (structs a !! x)) -> (length l <= size (structs a))%nat.
Proof.
  intros Hn Hl. rewrite <- (size_list_to_set (C := gset string) l) by done. rewrite <- size_dom. apply subseteq_size.
  intros x. rewrite elem_of_list_to_set, elem_of_dom. apply Hl.
Qed.

Lemma bases_fine steps seen current : NoDup seen -> (forall x, x ∈ seen -> is_Some (structs a !! x)) ->
  (steps + length seen = S (S (size (structs a))))%nat -> fine in_time d (walk_bases yield a steps seen current).
Proof.
  revert seen current. induction steps as [|steps IH]; intros seen current Hn Hl Hs; cbn [walk_bases]; (case_bool_decide; [apply fine_ret|]).
  - exfalso. pose proof (struct_names_bound seen Hn Hl). lia.
  - apply fine_bind; [apply fine_deadline_in_time|]. intros _. unfold get_struct.
    destruct (structs a !! resolve_type a (st_base current)) as [base|] eqn:Eb; [|by intros c Hc].
    apply fine_lift_ok. destruct (decide (st_name base ∈ seen)) as [Hin|Hin]; [intros c Hc; by rewrite bool_decide_true|].
    apply fine_bind; [by apply fine_massert|]. intros _. apply IH.
    + apply NoDup_app. split; [done|]. split; [|by apply NoDup_singleton]. intros x Hx ->%list_elem_of_singleton. done.
    + intros x [Hx| ->%list_elem_of_singleton]%elem_of_app; [by apply Hl|]. rewrite (Hnames _ _ Eb). by eexists.
    + rewrite length_app. cbn. lia.
Qed.

Lemma check_type_fine fuel t : enough fuel d -> fine in_time d (check_type yield fuel a t).
Proof. intros He. apply fine_bind; [by apply is_type_fine|]. intros b. by apply fine_massert. Qed.
Lemma check_deadline_type_fine fuel t : enough fuel d -> fine in_time d (check_deadline_type yield fuel a t).
Proof. intros He. apply fine_bind; [apply fine_deadline_in_time|]. intros _. by apply check_type_fine. Qed.

Lemma validate_fine fuel : enough fuel d -> fine in_time d (validate_abi yield fuel a).
Proof.
  intros He. unfold validate_abi. repeat (apply fine_bind; [|intros _]).
  - apply fine_each. intros [t u] Ht%by_name_elem. apply (walk_fine _ [t; u] []); [constructor|by intros x ?%elem_of_nil|cbn; lia].
  - apply fine_each. intros t _. by apply check_type_fine.
  - apply fine_each. intros [k st] Hk%by_name_elem. unfold validate_struct. cbn [snd]. apply fine_bind.
    + apply bases_fine; [apply NoDup_singleton| |cbn; lia]. intros x ->%list_elem_of_singleton. rewrite (Hnames _ _ Hk). by eexists.
    + intros _. apply fine_each. intros f _. by apply check_deadline_type_fine.
  - apply fine_each. intros v _. apply fine_each. intros t _. by apply check_deadline_type_fine.
  - apply fine_each. intros t _. by apply check_deadline_type_fine.
  - apply fine_each. intros t _. by apply check_deadline_type_fine.
Qed.
End Validate.

(** ** [set_abi] *)
Definition named (a : abi_serializer) : Prop := forall k st, structs a !! k = Some st -> st_name st = k.
Definition between (s : abi_serializer * traverse_context) : Prop := recursion_depth s.2 = 0 /\ named s.1.

Lemma wp_traverse {A} (m : abi_serializer -> TM A) s : between s -> fine in_time 0 (m s.1) ->
  wp (traverse m) in_time (fun _ s' => between s' /\ s'.1 = s.1) s.
Proof.
  intros [Hd Hn] Hm. specialize (Hm s.2 Hd). unfold wp, traverse in *. destruct (m s.1 s.2) as [[x|ex] c]; [|done]. by split.
Qed.
Lemma wp_update f s : between s -> named (f s.1) -> wp (update f) in_time (fun _ s' => between s') s.
Proof. intros [Hd Hn] Hf. by split. Qed.

Lemma wp_each {S A} (P : S -> Prop) (f : A -> M S unit) l s : (forall x s, P s -> wp (f x) in_time (fun _ s' => P s') s) -> P s ->
  wp (visit_all f l) in_time (fun _ s' => P s') s.
Proof.
  intros Hf. revert s. induction l as [|x l IH]; intros s Hs; cbn [visit_all]; [done|].
  apply wp_bind. eapply wp_mono; [|by apply Hf]. intros [] s' Hs'. by apply IH.
Qed.

Lemma set_abi_in_time abi a ex : (set_abi yield 32 abi a).1 = Err ex -> in_time ex.
Proof.
  assert (enough 32 0) as He by (unfold enough, max_recursion_depth; lia).
  assert (wp (set_abi_in yield 32 abi) in_time (fun _ _ => True) (a, new_traverse [] 0)) as Hw.
  2: { unfold set_abi, wp in *. destruct (set_abi_in _ _ _ _) as [[[]|ex'] s]; [done|]. by intros [= <-]. }
  unfold set_abi_in. apply wp_bind, wp_massert; [done|]. intros _. apply wp_bind. unfold update at 1, wp at 1, modify. cbn -[wp].
  apply wp_bind. eapply wp_mono; [|apply wp_update; [split; [done|by intros k st]|]].
  2: { intros k st Hk. cbn in Hk. apply fill_elem in Hk as [Hk|(x & _ & [= <- <-])]; done. }
  intros [] s1 Hs1. apply wp_bind. eapply wp_mono; [|apply (wp_each between); [|exact Hs1]].
  2: { intros td s Hs. unfold add_typedef. apply wp_bind. eapply wp_mono; [|apply wp_traverse; [done|by apply is_type_fine]].
    intros b s' [Hs' _]. apply wp_bind, wp_massert; [done|]. intros _. apply wp_update; [done|]. apply Hs'. }
  intros [] s2 Hs2.
  apply wp_bind. eapply wp_mono; [|apply wp_update; [exact Hs2|exact (proj2 Hs2)]]. intros [] s3 Hs3.
  apply wp_bind. eapply wp_mono; [|apply wp_update; [exact Hs3|exact (proj2 Hs3)]]. intros [] s4 Hs4.
  apply wp_bind. eapply wp_mono; [|apply wp_update; [exact Hs4|exact (proj2 Hs4)]]. intros [] s5 Hs5.
  apply wp_bind. eapply wp_mono; [|apply wp_update; [exact Hs5|exact (proj2 Hs5)]]. intros [] s6 Hs6.
  apply wp_bind, wp_get, wp_bind, wp_lift.
  - intros [] _. eapply wp_mono; [|apply wp_traverse; [done|]]; [done|]. apply validate_fine; [apply Hs6|done].
  - intros ex'. unfold check_duplicates.
    do 5 (match goal with |- (eos_assert ?b _ ≫= _) = _ -> _ => destruct b; cbn [eos_assert mbind res_bind]; [|by intros [= <-]] end).
    by destruct (_ =? _)%nat; intros [= <-].
Qed.

(** ** Converting values *)
Section Convert.
Context `{builtin_types} (a : abi_serializer).

(** The functions of the built-in types end. *)
Record functions_end : Prop := {
  end_unpack n u p s x y ex : built_in_types a !! n = Some (u, p) -> u s x y = Err ex -> in_time ex;
  end_pack n u p v x y ex : built_in_types a !! n = Some (u, p) -> p v x y = Err ex -> in_time ex;
  end_size s ex : unpack_unsigned_int s = Err ex -> in_time ex;
  end_bytes v ex : as_bytes v = Err ex -> in_time ex }.
Context (Hf : functions_end).

Lemma unpack_in_time fuel :
  (forall d t, enough fuel d -> fine in_time d (unpack_value yield a fuel t))
  /\ (forall d t obj, enough fuel d -> fine in_time d (unpack_struct yield a fuel t obj)).
Proof.
  induction fuel as [|fuel [IHv IHs]]; [split; intros; by edestruct enough_pos|]. split; cbn [unpack_value unpack_struct].
  - intros d t He. apply (fine_scope_in_time fuel); [done|]. intros He'. cbv zeta.
    destruct (built_in_types a !! fundamental_type (resolve_type a t)) as [[u p]|] eqn:Eb; [apply fine_rethrow_stream; [done|]; by intros s ex; apply (end_unpack Hf _ _ _ _ _ _ _ Eb)|].
    destruct (is_array _).
    { apply fine_bind; [apply fine_rethrow_stream; [done|apply Hf]|]. intros n. apply fine_fmap, fine_elements; [done|]. by apply IHv. }
    destruct (is_optional _).
    { apply fine_bind; [apply fine_rethrow_stream; [done|]; by intros [|? ?] ex; [intros [= <-]|]|]. intros flag. destruct (flag =? 0); [apply fine_ret|by apply IHv]. }
    destruct (variants a !! _) as [v|].
    { apply fine_bind; [apply fine_rethrow_stream; [done|apply Hf]|]. intros n. destruct (vd_types v !! Z.to_nat n); [|by apply fine_throw].
      apply fine_bind; [by apply IHv|]. intros x. apply fine_ret. }
    apply fine_bind; [by apply IHs|]. intros obj. apply fine_bind; [by apply fine_massert|]. intros _. apply fine_ret.
  - intros d t obj He. apply (fine_scope_in_time fuel); [done|]. intros He'. destruct (structs a !! t); [|by apply fine_throw].
    apply fine_bind; [case_bool_decide; [apply fine_ret|by apply IHs]|]. intros o. apply fine_fields; [done..|]. intros f _. by apply IHv.
Qed.

Lemma fine_write d bytes : fine in_time d (write_stream bytes).
Proof. apply fine_bind; [apply fine_get|]. intros c. apply fine_bind; [by apply fine_massert|]. intros _. apply fine_stream. Qed.

Lemma fine_object_fields d pv vo fields b : (forall t v, fine in_time d (pv t v)) -> fine in_time d (pack_object_fields pv vo fields b).
Proof.
  intros Hp. revert b. induction fields as [|f fields IH]; intros b; cbn [pack_object_fields]; [apply fine_ret|].
  destruct (lookup_field (c_string (fd_name f)) vo).
  - apply fine_bind; [by apply fine_massert|]. intros _. apply fine_bind; [|done].
    apply fine_disallow, fine_bind; [|done]. apply fine_lift. destruct (lookup_field _ _); [done|by intros ex [= <-]].
  - apply fine_bind; [apply fine_get|]. intros c. destruct (_ && _); [done|]. destruct b; by apply fine_throw.
Qed.
Lemma fine_array_fields d pv va fields : (forall t v, fine in_time d (pv t v)) -> fine in_time d (pack_array_fields pv va fields).
Proof.
  intros Hp. revert va. induction fields as [|f fields IH]; intros va; cbn [pack_array_fields]; [apply fine_ret|]. destruct va as [|v va].
  - apply fine_bind; [apply fine_get|]. intros c. destruct (_ && _); [apply fine_ret|by apply fine_throw].
  - apply fine_bind; [by apply fine_disallow|]. done.
Qed.

Lemma pack_in_time fuel d t v : enough fuel d -> fine in_time d (pack_value yield a fuel t v).
Proof.
  revert d t v. induction fuel as [|fuel IH]; intros d t v He; [by edestruct enough_pos|]. cbn [pack_value].
  apply fine_capture, (fine_scope_in_time fuel); [done..|]. intros He'. cbv zeta.
  destruct (built_in_types a !! fundamental_type (resolve_type a t)) as [[u p]|] eqn:Eb.
  { apply fine_bind; [apply fine_lift; intros ex; by apply (end_pack Hf _ _ _ _ _ _ _ Eb)|]. intros bytes. apply fine_write. }
  destruct (is_array _).
  { apply fine_bind; [apply fine_lift; by intros ex; destruct v; intros [= <-]|]. intros vars. apply fine_bind; [apply fine_write|]. intros _.
    apply fine_disallow, fine_each. intros x _. by apply IH. }
  destruct (is_optional _); [apply fine_bind; [apply fine_write|]; intros _; destruct (is_null v); [apply fine_ret|by apply IH]|].
  destruct (variants a !! _) as [vd|].
  { destruct v as [| | | | | |[|[| | | | |s| | |] [|x [|]]]| |]; try by apply fine_throw. destruct (list_find _ _) as [[i t']|]; [|by apply fine_throw].
    apply fine_bind; [apply fine_write|]. intros _. by apply IH. }
  destruct (structs a !! _) as [st|]; [|by apply fine_throw]. destruct v; try by apply fine_throw.
  - apply fine_bind; [by apply fine_massert|]. intros _. apply fine_array_fields. intros t' v. by apply IH.
  - apply fine_bind; [case_bool_decide; [apply fine_ret|by apply fine_disallow, IH]|]. intros _. apply fine_object_fields. intros t' v. by apply IH.
Qed.

Lemma fine_run {A} (m : TM A) c ex : fine in_time (recursion_depth c) m -> (m c).1 = Err ex -> in_time ex.
Proof. intros Hm. specialize (Hm c eq_refl). unfold wp in Hm. destruct (m c) as [[x|ex'] c']; [done|]. by intros [= <-]. Qed.

(** C36: with a yield function that refuses a depth of 32, checking any ABI, and
    converting any bytes or value of any type by any serializer, circular or
    unchecked definitions included, end: fuel for 32 calls is never used up. *)
Theorem abi_terminates abi a0 type bytes v :
  (set_abi yield 32 abi a0).1 <> Err out_of_fuel
  /\ binary_to_variant yield a 32 type bytes <> Err out_of_fuel
  /\ variant_to_binary yield a 32 type v <> Err out_of_fuel.
Proof.
  assert (forall d, 0 <= d < 32 -> enough 32 d) as He by (intros d ?; unfold enough, max_recursion_depth; lia).
  split; [intros HF; by apply set_abi_in_time in HF|]. split; intros HF.
  - apply fine_run in HF; [done|]. apply (fine_scope_in_time 32); [unfold enough, max_recursion_depth; cbn; lia|].
    intros _. apply unpack_in_time. apply He. cbn. lia.
  - apply fine_run in HF; [done|]. apply fine_capture; [done|]. apply (fine_scope_in_time 32); [unfold enough, max_recursion_depth; cbn; lia|]. intros _.
    apply fine_bind; [apply is_type_fine, He; cbn; lia|]. intros [].
    + apply fine_bind; [apply pack_in_time, He; cbn; lia|]. intros _. apply fine_gets.
    + apply fine_lift, Hf.
Qed.
End Convert.
End Limited.

(** ** The demonstration *)
Section Demo.
Lemma demo_functions_end : functions_end demo_serializer.
Proof.
  split.
  - intros n u p s x y ex Hb. apply demo_functions in Hb as [= -> ->]. destruct s as [|b s]; cbn; [by intros [= <-]|]. destruct (x || y); [by intros [= <-]|done].
  - intros n u p v x y ex Hb. apply demo_functions in Hb as [= -> ->]. destruct v; cbn; try (by intros [= <-]). destruct (x || y); [by intros [= <-]|done].
  - intros s ex. do 4 (destruct s as [|? s]; [by intros [= <-]|]). done.
  - intros v ex. destruct v; cbn; by intros [= <-].
Qed.

(** A synonym of an array of itself, which the search for circles lets pass. *)
Definition loop_abi : abi_def := mk_abi "eosio::abi/1.1" [mk_type_def "loop" "loop[]"] [] [] [] [] [] [] [].

Lemma abi_terminates_witness :
  (set_abi demo_yield 32 loop_abi empty_serializer).1 = Err abi_recursion_depth_exception
  /\ (set_abi demo_yield 32 loop_abi empty_serializer).1 <> Err out_of_fuel
  /\ binary_to_variant demo_yield demo_serializer 32 "transfer" [1; 2; 3] <> Err out_of_fuel
  /\ variant_to_binary demo_yield demo_serializer 32 "transfer" (v_object []) <> Err out_of_fuel.
Proof.
  split; [by vm_compute|].
  exact (abi_terminates demo_yield (create_yield_function_limiting 1000 0 _) demo_serializer demo_functions_end loop_abi empty_serializer "transfer" [1; 2; 3] (v_object [])).
Defined.
End Demo.
