(* ===== verification/AbiRoundtrip.v ===== *)
(** * Values of an ABI are read back ([abi_serializer.cpp])

    Which values a type of an ABI has, and that packing such a value and
    unpacking the bytes gives the value again: arrays, optionals, variants,
    derived structs, and structs whose last fields are extensions that are
    missing, where nothing follows them. *)

From S2P Require Import Prelude AbiSerializer AbiTypes.
From stdpp Require Import strings.
#[local] Open Scope Z_scope.

(** ** Traversals that write and read certain bytes *)

(** [m] writes [bytes] at depth [d]; if [ext], where extensions may be missing. *)
Definition writes (ext : bool) (d : Z) (m : TM unit) (bytes : list Z) : Prop :=
  forall c, recursion_depth c = d -> (ext = true -> allow_extensions c = true) -> Z.of_nat (length (stream c ++ bytes)) <= stream_limit c ->
    exists k, m c = (Ok tt, set_yields k (set_stream (stream c ++ bytes) c)).

(** [m] reads [bytes] and gives [x]; if [ext], at the end of the stream. *)
Definition reads {A} (ext : bool) (d : Z) (m : TM A) (bytes : list Z) (x : A) : Prop :=
  forall c rest, recursion_depth c = d -> stream c = bytes ++ rest -> (ext = true -> rest = []) ->
    exists k, m c = (Ok x, set_yields k (set_stream rest c)).

Lemma same_context c : set_yields (yields c) (set_stream (stream c) c) = c.
Proof. by destruct c. Qed.

Lemma writes_mono ext ext' d m bytes : writes ext' d m bytes -> (ext' = true -> ext = true) -> writes ext d m bytes.
Proof. intros Hm He c Hd Ha Hl. apply Hm; auto. Qed.
Lemma reads_mono {A} ext ext' d (m : TM A) bytes x : reads ext' d m bytes x -> (ext' = true -> ext = true) -> reads ext d m bytes x.
Proof. intros Hm He c rest Hd Hs Hr. apply (Hm c rest Hd Hs). auto. Qed.

Lemma writes_nothing ext d : writes ext d (mret tt) [].
Proof. intros c _ _ _. exists (yields c). by rewrite app_nil_r, same_context. Qed.
Lemma reads_nothing {A} ext d (x : A) : reads ext d (mret x) [] x.
Proof. intros c rest _ Hs _. exists (yields c). cbn in Hs. by rewrite <- Hs, same_context. Qed.

Lemma writes_stream ext d bytes : writes ext d (write_stream bytes) bytes.
Proof.
  intros c _ _ Hl. exists (yields c). unfold write_stream, mbind, M_bind, get, massert, modify. by rewrite (proj2 (Z.leb_le _ _)) by done.
Qed.

Lemma writes_seq ext d m m' bytes bytes' : writes ext d m bytes -> writes ext d m' bytes' -> writes ext d (m;; m') (bytes ++ bytes').
Proof.
  intros Hm Hm' c Hd Ha Hl. rewrite app_assoc, length_app in Hl.
  destruct (Hm c Hd Ha) as [k Hk]; [lia|]. unfold mbind, M_bind. rewrite Hk.
  destruct (Hm' (set_yields k (set_stream (stream c ++ bytes) c)) Hd Ha) as [k' Hk']; [cbn; rewrite length_app; lia|].
  exists k'. cbn in Hk'. by rewrite app_assoc, Hk'.
Qed.
Lemma writes_lift {A} ext d (x : A) f bytes : writes ext d (f x) bytes -> writes ext d (lift (Ok x) ≫= f) bytes.
Proof. done. Qed.

Lemma reads_bind {A B} ext ext1 d (m : TM A) (f : A -> TM B) bytes bytes' x y : reads ext1 d m bytes x -> reads ext d (f x) bytes' y ->
  (ext1 = true -> ext = true /\ bytes' = []) -> reads ext d (m ≫= f) (bytes ++ bytes') y.
Proof.
  intros Hm Hf He c rest Hd Hs Hr. rewrite <- app_assoc in Hs.
  destruct (Hm c (bytes' ++ rest) Hd Hs) as [k Hk]. { intros H1. destruct (He H1) as [H2 ->]. by rewrite Hr. }
  unfold mbind, M_bind. rewrite Hk. destruct (Hf (set_yields k (set_stream (bytes' ++ rest) c)) rest Hd eq_refl Hr) as [k' Hk']. by exists k'.
Qed.
Lemma reads_seq {A B} ext d (m : TM A) (f : A -> TM B) bytes bytes' x y : reads false d m bytes x -> reads ext d (f x) bytes' y -> reads ext d (m ≫= f) (bytes ++ bytes') y.
Proof. intros Hm Hf. by eapply reads_bind. Qed.
Lemma reads_last {A B} ext d (m : TM A) (f : A -> TM B) bytes x y : reads ext d m bytes x -> (forall c, f x c = (Ok y, c)) -> reads ext d (m ≫= f) bytes y.
Proof.
  intros Hm Hf. rewrite <- (app_nil_r bytes). eapply reads_bind; [exact Hm| |done]. intros c rest Hd Hs Hr. rewrite Hf. exists (yields c). cbn in Hs. by rewrite <- Hs, same_context.
Qed.
Lemma reads_fmap {A B} ext d (m : TM A) (f : A -> B) bytes x : reads ext d m bytes x -> reads ext d (f <$> m) bytes (f x).
Proof. intros Hm. by eapply reads_last. Qed.

Lemma reads_from_stream {A} ext d (f : list Z -> res (A * list Z)) bytes x to : (forall rest, f (bytes ++ rest) = Ok (x, rest)) ->
  reads ext d (rethrow_exceptions to (from_stream f)) bytes x.
Proof.
  intros Hf c rest _ Hs _. exists (yields c). unfold rethrow_exceptions, from_stream, mbind, M_bind, get, lift, modify. rewrite Hs, Hf. by destruct c.
Qed.

Lemma reads_massert {A} ext d ex (m : TM A) bytes x : reads ext d m bytes x -> reads ext d (massert true ex;; m) bytes x.
Proof. done. Qed.

Section Scopes.
Context (yield : yield_function).

(** The yield function lets depths up to [top] pass. *)
Definition lets_pass (top : Z) : Prop := forall i d, d <= top -> yield i d = Ok tt.

Lemma scope_run {A} d (m : TM A) c : recursion_depth c = d -> lets_pass (d + 1) ->
  in_scope yield m c = (let '(r, c') := m (set_yields (S (yields c)) (set_depth (d + 1) c)) in (r, set_depth d c')).
Proof.
  intros Hd Hy. unfold in_scope, call_yield, mbind, M_bind, get, modify, lift. cbn. rewrite Hd, Hy by lia. by unfold restoring_depth.
Qed.

Lemma writes_scope ext d m bytes : lets_pass (d + 1) -> writes ext (d + 1) m bytes -> writes ext d (in_scope yield m) bytes.
Proof.
  intros Hy Hm c Hd Ha Hl. rewrite (scope_run d) by done.
  destruct (Hm (set_yields (S (yields c)) (set_depth (d + 1) c)) eq_refl Ha Hl) as [k Hk]. exists k. rewrite Hk. cbn. by rewrite <- Hd.
Qed.
Lemma reads_scope {A} ext d (m : TM A) bytes x : lets_pass (d + 1) -> reads ext (d + 1) m bytes x -> reads ext d (in_scope yield m) bytes x.
Proof.
  intros Hy Hm c rest Hd Hs Hr. rewrite (scope_run d) by done.
  destruct (Hm (set_yields (S (yields c)) (set_depth (d + 1) c)) rest eq_refl Hs Hr) as [k Hk]. exists k. rewrite Hk. cbn. by rewrite <- Hd.
Qed.
End Scopes.

Lemma writes_capture ext d m bytes : writes ext d m bytes -> writes ext d (fc_capture_rethrow m) bytes.
Proof. intros Hm c Hd Ha Hl. destruct (Hm c Hd Ha Hl) as [k Hk]. exists k. unfold fc_capture_rethrow. by rewrite Hk. Qed.
Lemma writes_disallow ext d b m bytes : writes (ext && b) d m bytes -> writes ext d (disallow_extensions_unless b m) bytes.
Proof.
  intros Hm c Hd Ha Hl. unfold disallow_extensions_unless.
  destruct (Hm (if b then c else set_allow false c)) as [k Hk]; [by destruct b| |by destruct b|].
  { destruct b; [by rewrite andb_true_r|by rewrite andb_false_r]. }
  exists k. rewrite Hk. by destruct b, c.
Qed.

(** ** The values of a type *)
Section Typing.
Context (a : abi_serializer) (builtin_value : string -> bool -> bool -> fc_variant -> Prop).

(** The entries [own] that a struct with [fields] has in the object [full]:
    all of them or, where extensions may be missing, all but the last ones. *)
Fixpoint fields_typed (P : bool -> string -> fc_variant -> Prop) (ext : bool) (full : list (string * fc_variant)) (fields : list field_def)
    (own : list (string * fc_variant)) : Prop :=
  match fields with
  | [] => own = []
  | field :: fields =>
      (exists v own', own = (fd_name field, v) :: own' /\ lookup_field (fd_name field) full = Some v /\ c_string (fd_name field) = fd_name field
        /\ P (ext && is_last fields) (remove_bin_extension (fd_type field)) v /\ fields_typed P ext full fields own')
      \/ (ext = true /\ own = []
        /\ Forall (fun f => is_extension (fd_type f) = true /\ lookup_field (c_string (fd_name f)) full = None) (field :: fields))
  end.

(** A type that is a struct and nothing else. *)
Definition plain_struct (t : string) : Prop :=
  resolve_type a t = t /\ built_in_types a !! fundamental_type t = None /\ is_array t = false /\ is_optional t = false /\ variants a !! t = None.

(** Values of nesting less than [n]. *)
Fixpoint typed (n : nat) (ext : bool) (type : string) (v : fc_variant) : Prop :=
  match n with
  | O => False
  | S n =>
      let rtype := resolve_type a type in
      let ftype := fundamental_type rtype in
      match built_in_types a !! ftype with
      | Some _ => builtin_value ftype (is_array rtype) (is_optional rtype) v
      | None =>
          if is_array rtype then
            exists vs, v = v_array vs /\ is_u32 (Z.of_nat (length vs)) /\ Forall (fun x => is_null x = false /\ typed n false ftype x) vs
          else if is_optional rtype then v = v_null \/ (is_null v = false /\ typed n ext ftype v)
          else
            match variants a !! rtype with
            | Some d => exists i t x, list_find (eq t) (vd_types d) = Some (i, t) /\ is_u32 (Z.of_nat i) /\ v = v_array [v_string t; x] /\ typed n ext t x
            | None => exists o, v = v_object o /\ o <> [] /\ NoDup o.*1 /\ struct_typed n ext rtype o o
            end
      end
  end
with struct_typed (n : nat) (ext : bool) (type : string) (full own : list (string * fc_variant)) : Prop :=
  match n with
  | O => False
  | S n =>
      match structs a !! type with
      | None => False
      | Some st =>
          exists inherited added, own = inherited ++ added
            /\ (if bool_decide (st_base st = ""%string) then inherited = []
                else plain_struct (resolve_type a (st_base st)) /\ struct_typed n false (resolve_type a (st_base st)) full inherited)
            /\ fields_typed (typed n) ext full (st_fields st) added
      end
  end.
End Typing.

(** The rules by which a value has a type. *)
Section Rules.
Context (a : abi_serializer) (builtin_value : string -> bool -> bool -> fc_variant -> Prop).
Context (n : nat) (ext : bool) (t : string).
Abbreviation typed := (typed a builtin_value).
Abbreviation rtype := (resolve_type a t).

Lemma typed_builtin v : is_builtin_type a (fundamental_type rtype) = true ->
  builtin_value (fundamental_type rtype) (is_array rtype) (is_optional rtype) v -> typed (S n) ext t v.
Proof. intros Hb Hv. apply bool_decide_eq_true in Hb as [f Hf]. cbn [AbiRoundtrip.typed]. cbv zeta. by rewrite Hf. Qed.

Lemma typed_array vs : is_builtin_type a (fundamental_type rtype) = false -> is_array rtype = true -> is_u32 (Z.of_nat (length vs)) ->
  Forall (fun x => is_null x = false /\ typed n false (fundamental_type rtype) x) vs -> typed (S n) ext t (v_array vs).
Proof.
  intros Hb Har Hl Hvs. apply bool_decide_eq_false, eq_None_not_Some in Hb. cbn [AbiRoundtrip.typed]. cbv zeta. rewrite Hb, Har. by exists vs.
Qed.
Lemma typed_optional v : is_builtin_type a (fundamental_type rtype) = false -> is_array rtype = false -> is_optional rtype = true ->
  v = v_null \/ (is_null v = false /\ typed n ext (fundamental_type rtype) v) -> typed (S n) ext t v.
Proof.
  intros Hb Har Hop Hv. apply bool_decide_eq_false, eq_None_not_Some in Hb. cbn [AbiRoundtrip.typed]. cbv zeta. by rewrite Hb, Har, Hop.
Qed.
Lemma typed_variant d i t' x : is_builtin_type a (fundamental_type rtype) = false -> is_array rtype = false -> is_optional rtype = false ->
  variants a !! rtype = Some d -> list_find (eq t') (vd_types d) = Some (i, t') -> is_u32 (Z.of_nat i) -> typed n ext t' x ->
  typed (S n) ext t (v_array [v_string t'; x]).
Proof.
  intros Hb Har Hop Hv ? ? ?. apply bool_decide_eq_false, eq_None_not_Some in Hb. cbn [AbiRoundtrip.typed]. cbv zeta. rewrite Hb, Har, Hop, Hv. by exists i, t', x.
Qed.
Lemma typed_object o : is_builtin_type a (fundamental_type rtype) = false -> is_array rtype = false -> is_optional rtype = false ->
  variants a !! rtype = None -> o <> [] -> NoDup o.*1 -> struct_typed a builtin_value n ext rtype o o -> typed (S n) ext t (v_object o).
Proof.
  intros Hb Har Hop Hv ? ? ?. apply bool_decide_eq_false, eq_None_not_Some in Hb. cbn [AbiRoundtrip.typed]. cbv zeta. rewrite Hb, Har, Hop, Hv. by exists o.
Qed.
Lemma typed_struct st full inherited added : structs a !! t = Some st ->
  (if bool_decide (st_base st = ""%string) then inherited = []
   else plain_struct a (resolve_type a (st_base st)) /\ struct_typed a builtin_value n false (resolve_type a (st_base st)) full inherited) ->
  fields_typed (typed n) ext full (st_fields st) added -> struct_typed a builtin_value (S n) ext t full (inherited ++ added).
Proof. intros Hs Hi Hf. cbn [struct_typed]. rewrite Hs. by exists inherited, added. Qed.
End Rules.

(** Packing of the built-in types is inverted by unpacking, and takes bytes. *)
Record codec_inverts `{builtin_types} (a : abi_serializer) (builtin_value : string -> bool -> bool -> fc_variant -> Prop) : Prop := {
  builtin_read_back n u p x y v : built_in_types a !! n = Some (u, p) -> builtin_value n x y v ->
    exists bytes, p v x y = Ok bytes /\ bytes <> [] /\ forall rest, u (bytes ++ rest) x y = Ok (v, rest);
  size_read_back n rest : is_u32 n -> unpack_unsigned_int (pack_unsigned_int n ++ rest) = Ok (n, rest);
  size_has_bytes n : pack_unsigned_int n <> [] }.

Section Roundtrip.
Context `{builtin_types} (yield : yield_function) (a : abi_serializer) (builtin_value : string -> bool -> bool -> fc_variant -> Prop).
Context (Hc : codec_inverts a builtin_value) (Ha : abi_ok a).
Abbreviation typed := (typed a builtin_value).
Abbreviation struct_typed := (struct_typed a builtin_value).

Lemma resolve_resolved t : resolve_type a (resolve_type a t) = resolve_type a t.
Proof.
  assert (typedefs a !! resolve_type a t = None) as Hn.
  { destruct (typedefs a !! t) as [u|] eqn:Et; [apply (resolved a Ha); right; by eexists|]. unfold resolve_type. by rewrite Et. }
  unfold resolve_type at 1. by rewrite Hn.
Qed.
Lemma unpack_resolved fuel t : unpack_value yield a fuel (resolve_type a t) = unpack_value yield a fuel t.
Proof. destruct fuel; cbn [unpack_value]; [done|]. by rewrite resolve_resolved. Qed.

(** What is written for a value of a type and read from it. *)
Definition value_bytes (n : nat) (ext : bool) (t : string) (v : fc_variant) (bytes : list Z) : Prop :=
  bytes <> []
  /\ (forall fuel d, (n <= fuel)%nat -> lets_pass yield (d + Z.of_nat n) -> writes ext d (pack_value yield a fuel t v) bytes)
  /\ (forall fuel d, (n <= fuel)%nat -> lets_pass yield (d + Z.of_nat n) -> reads ext d (unpack_value yield a fuel t) bytes v).

Lemma set_new_field name v obj : name ∉ obj.*1 -> set_field name v obj = obj ++ [(name, v)].
Proof.
  induction obj as [|[n w] obj IH]; cbn; [done|]. rewrite not_elem_of_cons. intros [Hn Ho]. rewrite bool_decide_false by done. by rewrite IH.
Qed.

Lemma list_fresh name v (pre own : list (string * fc_variant)) : NoDup ((pre ++ ((name, v) :: own)).*1) -> (name ∉ pre.*1) /\ NoDup (((pre ++ [(name, v)]) ++ own).*1).
Proof.
  rewrite <- app_assoc. intros Hn. split; [|done]. rewrite fmap_app, fmap_cons in Hn.
  apply NoDup_app in Hn as (_ & Hd & _). intros Hin. apply (Hd _ Hin). left.
Qed.

(** ** Fields *)
Lemma missing_fields fields full : Forall (fun f => is_extension (fd_type f) = true /\ lookup_field (c_string (fd_name f)) full = None) fields ->
  (forall d pv b, writes true d (pack_object_fields pv full fields b) [])
  /\ (forall d uv b obj, reads true d (unpack_fields a uv fields b obj) [] obj).
Proof.
  induction 1 as [|f fields [He Hl] _ [IHw IHr]]; (split; [intros d pv b|intros d uv b obj]); [apply writes_nothing|apply reads_nothing| |].
  - cbn [pack_object_fields]. rewrite Hl. intros c Hd Hal Hsz. unfold mbind, M_bind, get. rewrite He, Hal by done. exact (IHw d pv true c Hd Hal Hsz).
  - cbn [unpack_fields]. intros c rest Hd Hs Hr. rewrite (Hr eq_refl) in Hs. cbn in Hs. unfold mbind, M_bind, get. rewrite Hs. cbn [length Nat.eqb].
    rewrite He. exact (IHr d uv (b || true) obj c rest Hd (eq_trans Hs (eq_sym (Hr eq_refl))) Hr).
Qed.

Definition fields_bytes (n : nat) (ext : bool) full fields own (bytes : list Z) : Prop :=
  (own = [] <-> bytes = [])
  /\ (forall fuel d, (n <= fuel)%nat -> lets_pass yield (d + Z.of_nat n) -> writes ext d (pack_object_fields (pack_value yield a fuel) full fields false) bytes)
  /\ (forall fuel d b pre, (n <= fuel)%nat -> lets_pass yield (d + Z.of_nat n) -> NoDup ((pre ++ own).*1) ->
        reads ext d (unpack_fields a (unpack_value yield a fuel) fields b pre) bytes (pre ++ own)).

Lemma fields_roundtrip n ext full fields own :
  (forall ext t v, typed n ext t v -> exists bytes, value_bytes n ext t v bytes) ->
  fields_typed (typed n) ext full fields own -> exists bytes, fields_bytes n ext full fields own bytes.
Proof.
  intros IHn. revert own. induction fields as [|f fields IH]; intros own; cbn [fields_typed].
  { intros ->. exists []. split; [done|]. split; intros; cbn [pack_object_fields unpack_fields]; [apply writes_nothing|rewrite app_nil_r; apply reads_nothing]. }
  intros [(v & own' & -> & Hl & Hcs & Hv & Hf)|(-> & -> & Hm)].
  - destruct (IHn _ _ _ Hv) as (b1 & Hb1 & Hw1 & Hr1). destruct (IH _ Hf) as (b2 & Hb2 & Hw2 & Hr2). exists (b1 ++ b2). split.
    { split; [done|]. by intros [? _]%app_nil. }
    split.
    + intros fuel d Hfu Hy. cbn [pack_object_fields]. rewrite Hcs, Hl. apply (writes_seq ext d _ _ [] ). { intros c ???. exists (yields c). by rewrite app_nil_r, same_context. }
      apply writes_seq; [|by apply Hw2]. apply writes_disallow, writes_lift. by apply Hw1.
    + intros fuel d b pre Hfu Hy Hnd. cbn [unpack_fields]. destruct (list_fresh _ _ _ _ Hnd) as [Hfr Hnd'].
      intros c rest Hd Hs Hr. unfold mbind at 1, M_bind at 1, get at 1.
      assert ((length (stream c) =? 0)%nat = false) as ->. { rewrite Hs. destruct b1; [done|]. done. }
      assert ((if is_extension (fd_type f) then remove_bin_extension (fd_type f) else fd_type f) = remove_bin_extension (fd_type f)) as ->
        by (unfold remove_bin_extension; by destruct (is_extension (fd_type f))).
      rewrite unpack_resolved.
      refine (reads_bind ext (ext && is_last fields) d _ _ b1 b2 v (pre ++ (fd_name f, v) :: own') (Hr1 fuel d Hfu Hy) _ _ c rest Hd Hs Hr).
      * rewrite set_new_field by done. replace (pre ++ (fd_name f, v) :: own') with ((pre ++ [(fd_name f, v)]) ++ own') by by rewrite <- app_assoc. by apply Hr2.
      * intros [-> Hlast]%andb_true_iff. split; [done|]. apply Hb2. destruct fields; [by cbn in Hf|done].
  - destruct (missing_fields _ _ Hm) as [Hw Hr]. exists []. split; [done|]. split; [intros; apply Hw|]. intros. rewrite app_nil_r. apply Hr.
Qed.

(** ** Elements *)
Lemma elements_roundtrip n t vs :
  (forall ext t v, typed n ext t v -> exists bytes, value_bytes n ext t v bytes) ->
  Forall (fun x => is_null x = false /\ typed n false t x) vs -> exists bytes,
    (forall fuel d, (n <= fuel)%nat -> lets_pass yield (d + Z.of_nat n) -> writes false d (visit_all (pack_value yield a fuel t) vs) bytes)
    /\ (forall fuel d, (n <= fuel)%nat -> lets_pass yield (d + Z.of_nat n) -> reads false d (unpack_elements (unpack_value yield a fuel t) (length vs)) bytes vs).
Proof.
  intros IHn. induction 1 as [|v vs [Hnull Hv] _ (b2 & Hw2 & Hr2)].
  - exists []. split; intros; [apply writes_nothing|apply reads_nothing].
  - destruct (IHn _ _ _ Hv) as (b1 & _ & Hw1 & Hr1). exists (b1 ++ b2). split; intros fuel d Hfu Hy; cbn [visit_all length unpack_elements].
    + apply writes_seq; auto.
    + eapply reads_seq; [by apply Hr1|]. rewrite Hnull. apply reads_massert. eapply reads_last; [by apply Hr2|done].
Qed.

(** ** Structs *)

(** What [_variant_to_binary] does with an object in the scope of a struct. *)
Definition pack_struct_body (fuel : nat) (st : struct_def) (vo : list (string * fc_variant)) : TM unit :=
  (if bool_decide (st_base st = ""%string) then mret tt
   else disallow_extensions_unless false (pack_value yield a fuel (resolve_type a (st_base st)) (v_object vo)));;
  pack_object_fields (pack_value yield a fuel) vo (st_fields st) false.

Lemma pack_struct_value fuel t st vo : built_in_types a !! fundamental_type (resolve_type a t) = None ->
  is_array (resolve_type a t) = false -> is_optional (resolve_type a t) = false -> variants a !! resolve_type a t = None ->
  structs a !! resolve_type a t = Some st ->
  pack_value yield a (S fuel) t (v_object vo) = fc_capture_rethrow (in_scope yield (pack_struct_body fuel st vo)).
Proof. intros Hb Har Hop Hv Hst. cbn [pack_value]. cbv zeta. by rewrite Hb, Har, Hop, Hv, Hst. Qed.

Definition struct_bytes (n : nat) (ext : bool) (t : string) full own (bytes : list Z) : Prop :=
  (own = [] <-> bytes = [])
  /\ (forall st fuel d, structs a !! t = Some st -> (n <= S fuel)%nat -> lets_pass yield (d + Z.of_nat n) -> writes ext d (pack_struct_body fuel st full) bytes)
  /\ (forall fuel d pre, (n <= fuel)%nat -> lets_pass yield (d + Z.of_nat n) -> NoDup ((pre ++ own).*1) ->
        reads ext d (unpack_struct yield a fuel t pre) bytes (pre ++ own)).

Lemma lets_pass_mono top top' : lets_pass yield top -> top' <= top -> lets_pass yield top'.
Proof. intros Hy Hle i d Hd. apply Hy. lia. Qed.

Lemma struct_roundtrip n ext t full own :
  (forall ext t v, typed n ext t v -> exists bytes, value_bytes n ext t v bytes) ->
  (forall ext t full own, struct_typed n ext t full own -> exists bytes, struct_bytes n ext t full own bytes) ->
  struct_typed (S n) ext t full own -> exists bytes, struct_bytes (S n) ext t full own bytes.
Proof.
  intros IHv IHs. cbn [AbiRoundtrip.struct_typed]. destruct (structs a !! t) as [st|] eqn:Est; [|done].
  intros (inh & added & -> & Hbase & Hf). destruct (fields_roundtrip n ext full _ _ IHv Hf) as (b2 & Hb2 & Hw2 & Hr2).
  case_bool_decide as Eb.
  - subst inh. exists b2. cbn [app]. split; [done|]. split.
    + intros st' fuel d Hst' Hfu Hy. assert (st' = st) as -> by congruence. unfold pack_struct_body. rewrite bool_decide_true by done.
      apply (writes_seq ext d _ _ []); [apply writes_nothing|]. apply Hw2; [lia|]. eapply lets_pass_mono; [done|lia].
    + intros fuel d pre Hfu Hy Hnd. destruct fuel as [|fuel]; [lia|]. cbn [unpack_struct]. rewrite Est. apply reads_scope; [eapply lets_pass_mono; [done|lia]|].
      rewrite bool_decide_true by done. apply (reads_seq ext _ _ _ [] _ pre); [apply reads_nothing|]. apply Hr2; [lia|eapply lets_pass_mono; [done|lia]|done].
  - destruct Hbase as [(Hres & Hbi & Har & Hop & Hv) Hs]. destruct (IHs _ _ _ _ Hs) as (b1 & Hb1 & Hw1 & Hr1).
    set (base := resolve_type a (st_base st)) in *.
    exists (b1 ++ b2). split; [|split].
    + split; [intros [-> ->]%app_nil; apply app_nil; by split; [apply Hb1|apply Hb2]|].
      intros [E1 E2]%app_nil. apply app_nil. by split; [apply Hb1|apply Hb2].
    + intros st' fuel d Hst' Hfu Hy. assert (st' = st) as -> by congruence. unfold pack_struct_body. rewrite bool_decide_false by done.
      apply writes_seq; [|apply Hw2; [lia|eapply lets_pass_mono; [done|lia]]]. apply writes_disallow. rewrite andb_false_r. fold base.
      destruct n as [|n]; [done|]. pose proof Hs as Hs'. cbn [AbiRoundtrip.struct_typed] in Hs'. destruct (structs a !! base) as [bst|] eqn:Ebs; [|done].
      destruct fuel as [|fuel]; [lia|]. rewrite (pack_struct_value fuel base bst) by (by rewrite ?Hres). apply writes_capture, writes_scope; [eapply lets_pass_mono; [done|lia]|].
      apply Hw1; [done|lia|eapply lets_pass_mono; [done|lia]].
    + intros fuel d pre Hfu Hy Hnd. destruct fuel as [|fuel]; [lia|]. cbn [unpack_struct]. rewrite Est. apply reads_scope; [eapply lets_pass_mono; [done|lia]|].
      rewrite bool_decide_false by done. rewrite app_assoc in Hnd |- *. eapply reads_seq.
      * apply Hr1; [lia|eapply lets_pass_mono; [done|lia]|]. rewrite fmap_app in Hnd. by apply NoDup_app in Hnd as (? & _).
      * apply Hr2; [lia|eapply lets_pass_mono; [done|lia]|done].
Qed.

(** ** Values *)
Lemma writes_value ext fuel n d t bytes (body : nat -> TM unit) v : (S n <= fuel)%nat -> lets_pass yield (d + Z.of_nat (S n)) ->
  (forall fuel, pack_value yield a (S fuel) t v = fc_capture_rethrow (in_scope yield (body fuel))) ->
  (forall fuel, (n <= fuel)%nat -> writes ext (d + 1) (body fuel) bytes) -> writes ext d (pack_value yield a fuel t v) bytes.
Proof.
  intros Hfu Hy Hb Hw. destruct fuel as [|fuel]; [lia|]. rewrite Hb. apply writes_capture, writes_scope; [eapply lets_pass_mono; [done|lia]|]. apply Hw. lia.
Qed.
Lemma reads_value ext fuel n d t bytes (body : nat -> TM fc_variant) v : (S n <= fuel)%nat -> lets_pass yield (d + Z.of_nat (S n)) ->
  (forall fuel, unpack_value yield a (S fuel) t = in_scope yield (body fuel)) ->
  (forall fuel, (n <= fuel)%nat -> reads ext (d + 1) (body fuel) bytes v) -> reads ext d (unpack_value yield a fuel t) bytes v.
Proof.
  intros Hfu Hy Hb Hr. destruct fuel as [|fuel]; [lia|]. rewrite Hb. apply reads_scope; [eapply lets_pass_mono; [done|lia]|]. apply Hr. lia.
Qed.

Lemma size_bytes_roundtrip ext d n to : is_u32 n -> reads ext d (rethrow_exceptions to (from_stream unpack_unsigned_int)) (pack_unsigned_int n) n.
Proof. intros Hn. apply reads_from_stream. intros rest. by apply (size_read_back _ _ Hc). Qed.

Lemma lets_pass_below d n : lets_pass yield (d + Z.of_nat (S n)) -> lets_pass yield (d + 1 + Z.of_nat n).
Proof. intros Hy. eapply lets_pass_mono; [done|lia]. Qed.

(** One lemma for each kind of type, for values whose parts are read back. *)
Section Kinds.
Context (n : nat) (ext : bool) (t : string).
Abbreviation rtype := (resolve_type a t).
Abbreviation ftype := (fundamental_type rtype).
Context (IHv : forall ext t v, typed n ext t v -> exists bytes, value_bytes n ext t v bytes).

Ltac write_case fuel d := eapply (writes_value ext fuel n d t);
  [done|done|intros fuel'; cbn [pack_value]; cbv zeta; repeat match goal with H : _ = _ |- _ => rewrite H end; reflexivity|intros fuel' Hfu'].
Ltac read_case fuel d := eapply (reads_value ext fuel n d t);
  [done|done|intros fuel'; cbn [unpack_value]; cbv zeta; repeat match goal with H : _ = _ |- _ => rewrite H end; reflexivity|intros fuel' Hfu'].

Lemma builtin_roundtrip f v : built_in_types a !! ftype = Some f -> builtin_value ftype (is_array rtype) (is_optional rtype) v ->
  exists bytes, value_bytes (S n) ext t v bytes.
Proof.
  destruct f as [u p]. intros Eb Hv. destruct (builtin_read_back _ _ Hc _ _ _ _ _ _ Eb Hv) as (bytes & Hp & Hne & Hu).
  exists bytes. split; [done|]. split; intros fuel d Hfu Hy; [write_case fuel d|read_case fuel d].
  - cbn [pack_of snd]. rewrite Hp. apply writes_lift, writes_stream.
  - by apply reads_from_stream.
Qed.

Context (Eb : built_in_types a !! ftype = None).

Lemma array_roundtrip vs : is_array rtype = true -> is_u32 (Z.of_nat (length vs)) -> Forall (fun x => is_null x = false /\ typed n false ftype x) vs ->
  exists bytes, value_bytes (S n) ext t (v_array vs) bytes.
Proof.
  intros Ear Hlen Hvs. destruct (elements_roundtrip n ftype vs IHv Hvs) as (bytes & Hw & Hr). exists (pack_unsigned_int (Z.of_nat (length vs)) ++ bytes).
  split; [intros [? _]%app_nil; by eapply (size_has_bytes _ _ Hc)|]. split; intros fuel d Hfu Hy; [write_case fuel d|read_case fuel d].
  - cbn [get_array]. apply writes_lift. rewrite u32_id by done. apply writes_seq; [apply writes_stream|]. apply writes_disallow. rewrite andb_false_r.
    apply Hw; [done|by apply lets_pass_below].
  - eapply reads_seq; [by apply size_bytes_roundtrip|]. rewrite Nat2Z.id. apply reads_fmap. eapply reads_mono; [apply Hr; [done|by apply lets_pass_below]|done].
Qed.

Lemma null_roundtrip : is_array rtype = false -> is_optional rtype = true -> exists bytes, value_bytes (S n) ext t v_null bytes.
Proof.
  intros Ear Eop. exists [0]. split; [done|]. split; intros fuel d Hfu Hy; [write_case fuel d|read_case fuel d].
  - cbn [is_null]. apply (writes_seq ext _ _ _ [0] []); [apply writes_stream|apply writes_nothing].
  - eapply reads_last; [by apply (reads_from_stream _ _ _ [0] 0)|done].
Qed.
Lemma optional_roundtrip v : is_array rtype = false -> is_optional rtype = true -> is_null v = false -> typed n ext ftype v ->
  exists bytes, value_bytes (S n) ext t v bytes.
Proof.
  intros Ear Eop Hnull Hv. destruct (IHv _ _ _ Hv) as (bytes & _ & Hw & Hr). exists (1 :: bytes).
  split; [done|]. split; intros fuel d Hfu Hy; [write_case fuel d|read_case fuel d].
  - apply (writes_seq ext _ _ _ [1] bytes); [apply writes_stream|]. apply Hw; [done|by apply lets_pass_below].
  - apply (reads_seq ext _ _ _ [1] bytes 1); [by apply reads_from_stream|]. apply Hr; [done|by apply lets_pass_below].
Qed.

Lemma variant_roundtrip vd i t' x : is_array rtype = false -> is_optional rtype = false -> variants a !! rtype = Some vd ->
  list_find (eq t') (vd_types vd) = Some (i, t') -> is_u32 (Z.of_nat i) -> typed n ext t' x ->
  exists bytes, value_bytes (S n) ext t (v_array [v_string t'; x]) bytes.
Proof.
  intros Ear Eop Ev Hi Hu Hx. destruct (IHv _ _ _ Hx) as (bytes & _ & Hw & Hr). exists (pack_unsigned_int (Z.of_nat i) ++ bytes).
  split; [intros [? _]%app_nil; by eapply (size_has_bytes _ _ Hc)|]. split; intros fuel d Hfu Hy; [write_case fuel d|read_case fuel d].
  - rewrite u32_id by done. apply writes_seq; [apply writes_stream|]. apply Hw; [done|by apply lets_pass_below].
  - eapply reads_seq; [by apply size_bytes_roundtrip|]. rewrite Nat2Z.id. apply list_find_Some in Hi as (Hi & _ & _). rewrite Hi.
    eapply reads_last; [apply Hr; [done|by apply lets_pass_below]|done].
Qed.

Lemma object_roundtrip o : is_array rtype = false -> is_optional rtype = false -> variants a !! rtype = None -> o <> [] -> NoDup o.*1 ->
  struct_typed n ext rtype o o -> (exists bytes, struct_bytes n ext rtype o o bytes) -> exists bytes, value_bytes (S n) ext t (v_object o) bytes.
Proof.
  intros Ear Eop Ev Hne Hnd Hs (bytes & Hb & Hw & Hr). exists bytes. split; [by intros ->; apply Hne, Hb|]. split; intros fuel d Hfu Hy.
  - assert (exists st, structs a !! rtype = Some st) as [st Hst].
    { destruct n as [|m]; [done|]. cbn [AbiRoundtrip.struct_typed] in Hs. destruct (structs a !! rtype); [by eexists|done]. }
    eapply (writes_value ext fuel n d t); [done|done|intros fuel'; by apply pack_struct_value|].
    intros fuel' Hfu'. apply Hw; [done|lia|by apply lets_pass_below].
  - read_case fuel d. eapply reads_last; [apply (Hr fuel' (d + 1) []); [done|by apply lets_pass_below|done]|].
    intros c. cbn [app]. by destruct o.
Qed.
End Kinds.

Lemma roundtrip_values n :
  (forall ext t v, typed n ext t v -> exists bytes, value_bytes n ext t v bytes)
  /\ (forall ext t full own, struct_typed n ext t full own -> exists bytes, struct_bytes n ext t full own bytes).
Proof.
  induction n as [|n [IHv IHs]]; [done|]. split; [|intros; by apply struct_roundtrip].
  intros ext t v. cbn [AbiRoundtrip.typed]. cbv zeta.
  destruct (built_in_types a !! _) as [f|] eqn:Eb; [by eapply builtin_roundtrip|].
  destruct (is_array _) eqn:Ear; [intros (vs & -> & ? & ?); by apply array_roundtrip|].
  destruct (is_optional _) eqn:Eop; [intros [->|[? ?]]; [by apply null_roundtrip|by apply optional_roundtrip]|].
  destruct (variants a !! _) as [vd|] eqn:Ev; [intros (i & t' & x & ? & ? & -> & ?); by eapply variant_roundtrip|].
  intros (o & -> & ? & ? & ?). apply object_roundtrip; auto.
Qed.

(** ** A whole value *)

(** Known through less than [n] synonyms. *)
Fixpoint known_in (n : nat) (t : string) : bool :=
  match n with
  | O => false
  | S n =>
      let type := fundamental_type t in
      if is_builtin_type a type then true
      else match typedefs a !! type with
           | Some u => known_in n u
           | None => bool_decide (is_Some (structs a !! type)) || bool_decide (is_Some (variants a !! type))
           end
  end.

Lemma is_type_run n fuel d t c : known_in n t = true -> (n <= fuel)%nat -> lets_pass yield (d + Z.of_nat n) -> recursion_depth c = d ->
  exists k, is_type_loop yield a fuel t c = (Ok true, set_yields k c).
Proof.
  revert fuel d t c. induction n as [|n IH]; intros fuel d t c Hk Hfu Hy Hd; [done|]. destruct fuel as [|fuel]; [lia|].
  cbn [is_type_loop known_in] in *. rewrite (scope_run yield d) by (done || (eapply lets_pass_mono; [done|lia])). cbv zeta in *.
  assert (forall k, set_depth d (set_yields k (set_yields (S (yields c)) (set_depth (d + 1) c))) = set_yields k c) as Hback by (intros k; subst d; by destruct c).
  destruct (is_builtin_type a (fundamental_type t)); [|destruct (typedefs a !! fundamental_type t) as [u|]].
  - exists (S (yields c)). cbn. rewrite <- (Hback (S (yields c))). done.
  - destruct (IH fuel (d + 1) u (set_yields (S (yields c)) (set_depth (d + 1) c)) Hk) as [k Hrun]; [lia|by apply lets_pass_below|done|].
    exists k. rewrite Hrun. by rewrite Hback.
  - exists (S (yields c)). rewrite Hk. cbn. rewrite <- (Hback (S (yields c))). done.
Qed.
End Roundtrip.


(** ** The demonstration *)
Section Demo.
#[local] Open Scope string_scope.

Definition demo_value (n : string) (arr opt : bool) (v : fc_variant) : Prop := arr = false /\ opt = false /\ exists b, v = v_uint64 b.

Lemma bytes_of_u32 n : (n mod 256 + 256 * (n / 256 mod 256 + 256 * (n / 65536 mod 256 + 256 * (n / 16777216))) = n)%Z.
Proof.
  change 65536%Z with (256 * 256)%Z. change 16777216%Z with (256 * 256 * 256)%Z. rewrite <- !Z.div_div by lia.
  pose proof (Z.div_mod n 256). pose proof (Z.div_mod (n / 256) 256). pose proof (Z.div_mod (n / 256 / 256) 256). lia.
Qed.

Lemma demo_codec_inverts : codec_inverts demo_serializer demo_value.
Proof.
  split.
  - intros n u p x y v Hb (-> & -> & b & ->). apply demo_functions in Hb as [= -> ->]. by exists [b].
  - intros n rest Hn. unfold unpack_unsigned_int, pack_unsigned_int, demo_builtins, demo_unpack_size. cbn [app]. do 2 f_equal. unfold is_u32 in Hn. by apply bytes_of_u32.
  - done.
Qed.

(** The memo is missing. *)
Definition demo_object : list (string * fc_variant) :=
  [("kind", v_uint64 5); ("to", v_uint64 9);
   ("items", v_array [v_array [v_string "base"; v_object [("kind", v_uint64 3)]]; v_array [v_string "maybe"; v_null]])].

Ltac demo_byte := apply typed_builtin; [by vm_compute|by split; [|split; [|eexists]]].
Ltac demo_field := left; eexists _, _; split_and!; [reflexivity|reflexivity|reflexivity| |].

Lemma demo_base_typed n full b : lookup_field "kind" full = Some (v_uint64 b) ->
  struct_typed demo_serializer demo_value (S (S n)) false "base" full [("kind", v_uint64 b)].
Proof.
  intros Hl. apply (typed_struct demo_serializer demo_value (S n) false "base" demo_base full []); [by vm_compute|done|].
  cbn [fields_typed st_fields demo_base]. left. eexists _, _. split_and!; [reflexivity|exact Hl|reflexivity| |done]. demo_byte.
Qed.

Lemma demo_items_typed n : typed demo_serializer demo_value (S (S (S (S (S n))))) false "item[]"
  (v_array [v_array [v_string "base"; v_object [("kind", v_uint64 3)]]; v_array [v_string "maybe"; v_null]]).
Proof.
  apply typed_array; [by vm_compute..|]. repeat apply List.Forall_cons; [split; [done|]..|done].
  - eapply (typed_variant _ _ _ _ _ demo_item 1); [by vm_compute..|]. apply typed_object; [by vm_compute..|done|apply (bool_decide_unpack _); by vm_compute|].
    by apply demo_base_typed.
  - eapply (typed_variant _ _ _ _ _ demo_item 2); [by vm_compute..|]. apply typed_optional; [by vm_compute..|]. by left.
Qed.

Lemma demo_typed : typed demo_serializer demo_value 8 true "transfer" (v_object demo_object).
Proof.
  apply typed_object; [by vm_compute..|done|apply (bool_decide_unpack _); by vm_compute|].
  apply (typed_struct _ _ _ _ _ demo_transfer _ [("kind", v_uint64 5)]); [by vm_compute| |].
  - split; [split_and!; by vm_compute|]. by apply demo_base_typed.
  - left. eexists _, _. split_and!; [reflexivity|reflexivity|reflexivity|demo_byte|].
    left. eexists _, _. split_and!; [reflexivity|reflexivity|reflexivity|by apply demo_items_typed|].
    right. split_and!; [done|done|]. by repeat constructor.
Qed.

Lemma demo_lets_pass : lets_pass demo_yield 31.
Proof. intros i d Hd. unfold demo_yield, create_yield_function, max_recursion_depth. by rewrite (proj2 (Z.ltb_lt d 32)) by lia. Qed.

End Demo.
